(* ===== verification/_CoqProject ===== *)
-Q . S2P
Prelude.v
External.v
NBits.v
BlockHeader.v
MedianTime.v
HeaderSource.v
Difficulty.v
CatchupDifficulty.v
Utxo.v
UtxoSql.v
UtxoSqlSpend.v
UtxoSqlUnspend.v
BlockReward.v
TxRules.v
Extend.v
Validator.v
UtxoSqlOps.v
UtxoSqlMarks.v
UtxoSqlLifecycle.v
UtxoSqlInvariant.v
UtxoSqlReach.v
UtxoSqlGuarantees.v
SpendCreate.v
SpendCreateTheorems.v
SpendMultiTheorems.v
Effects.v
Pipeline.v
PipelineTheorems.v
PipelineGuarantees.v
Merkle.v
GoSubtree.v
BodyBinding.v
BindingPass.v
BodyBindingTheorems.v
QuarantineTheorems.v
MerkleProof.v
MerkleProofTheorems.v
CountingSort.v
Ordered.v
NodeIndex.v
NodeIndexTheorems.v
InpointDedup.v
InpointDedupTheorems.v
ConflictWalks.v
Conflicts.v
ConflictTheorems.v
MtpCache.v
BlockTimestamps.v
CandidateTime.v
Queue.v
QueueTheorems.v
Assembly.v
AssemblyTheorems.v
AssemblyOwned.v
AssemblyReach.v
Movement.v
MovementTheorems.v
MovementDrain.v
MovementBack.v
AssemblyGuarantees.v
SortedSet.v
SortedSetTheorems.v
ForkManager.v
ForkManagerTheorems.v
BlockQueue.v
BlockQueueTheorems.v
BlockWorkers.v
BlockWorkersTheorems.v
UtxoFile.v
UtxoFileTheorems.v
