(* ===== verification/Prelude.v ===== *)
(** * Teranode: a verification library of the node's consensus core

    Teranode is a Bitcoin SV node split into services.  A transaction enters through
    the validator, which extends it from the UTXO store, checks the rules, spends and
    creates it in the store and hands it to block assembly.  A block enters through
    block validation, which checks the header against its branch (difficulty, median
    time, version), the body against the money and duplicate rules, and settles
    conflicts between its transactions and those of the mempool in the store.  The
    blockchain service keeps headers and answers questions about difficulty and
    median times.  This library models these parts as executable definitions, in the
    order of the data flow, and proves what they promise each other.

    ** Conventions

    A machine integer is a [Z] with its wrap-around written out ([u16], [u32], [u64],
    [i64]); bytes are [list byte]; hashes are strings of bytes with decidable
    equality; maps are [gmap].  A Go error is a value of [error]: the code of
    errors/error.proto and what it wraps, without its text.  A function that may fail
    returns [result]; one that may panic or loop returns [option].  Code outside the
    repository (go-bt, go-safe-conversion, the native script engine, hash functions) is
    a class of operations in [External] with its documented behaviour as a second
    class of laws, and every such class has a concrete model.  Clocks, database
    faults, rival commits, answers of remote services and the ends of contexts are
    arguments, oracles or calls of an effect signature, never assumed away.
    Goroutines are steps in any order: a theorem about a concurrent part quantifies
    over the orders.  Loops that are not structural carry fuel; the bounds are below.

    ** The files

    - [Prelude] (this file): errors (errors/), results, widths, list, option and
      integer lemmas, tactics and hints.  [External]: third-party operations and laws.
    - Headers.  [NBits]: model/NBit.go, the compact conversions and services/
      blockchain/work.  [BlockHeader]: model/BlockHeader.go and the merkle root of a
      candidate.  [MedianTime]: the contextual header rules of model/Block.go.
      [HeaderSource]: the contract ancestry is read through, its tree semantics, the
      suitable block, and legacy/netsync/header_source.go as a second implementation.
      [Difficulty]: services/blockchain/Difficulty.go with both caches.
      [CatchupDifficulty]: blockvalidation/catchup_difficulty.go.
    - Times.  [MtpCache]: the blockchain service's median-time cache and its readers,
      as a step relation with reorganisations.  [BlockTimestamps]: the median time
      StoreBlock.go stores.  [CandidateTime]: blockassembly/candidate_time.go.
    - Rules.  [BlockReward]: fees, subsidy, supply and the coinbase rules.  [TxRules]:
      finality, context-free rules, money range, BIP68 and the adapter to the engine.
      [Extend] and [Validator]: previous outputs and the validator's checks.
    - The store.  [Utxo]: values every store shares.  [UtxoSql], [UtxoSqlOps],
      [UtxoSqlMarks], [UtxoSqlLifecycle]: the operations of stores/utxo/sql over one
      record of tables, with statement faults, rollbacks and rival commits.
      [UtxoSqlSpend], [UtxoSqlUnspend], [UtxoSqlInvariant], [UtxoSqlReach],
      [UtxoSqlGuarantees]: their theorems, from single batches to all reachable states.
    - Over any store.  [SpendCreate]: stores/utxo/spend_and_create.go and
      spend_and_create_multi.go over the classes [SequentialStore] and [MultiStore];
      [SpendCreateTheorems] and [SpendMultiTheorems] need only the laws of those.
      [ConflictWalks], [Conflicts], [ConflictTheorems]: process_conflicting.go and
      conflict_ancestry.go over the class [UtxoStore].
    - The pipeline.  [Effects]: programs as trees of calls, with histories and a
      handler.  [Pipeline]: ValidateWithOptions and validateInternal of services/
      validator/Validator.go; [PipelineTheorems], [PipelineGuarantees].
    - Duplicates in a block.  [CountingSort] and [Ordered]: shared passes and facts.
      [NodeIndex] and [NodeIndexTheorems]: the index of model/block_node_index.go.
      [InpointDedup] and [InpointDedupTheorems]: model/inpoint_dedup.go and the scan of
      model/Block.go.
    - Bodies.  [Merkle]: merkle trees over any list.  [GoSubtree]: the third-party
      subtree package as a class with laws.  [BodyBinding]: the merkle root of
      model/Block.go, shapes and repeated transactions.  [BindingPass]: blockvalidation/
      quick_validate_bind.go and the anchored reads.  [BodyBindingTheorems],
      [QuarantineTheorems]: their theorems.  [MerkleProof], [MerkleProofTheorems]:
      util/merkleproof.
    - Block assembly.  [Queue], [QueueTheorems]: subtreeprocessor/queue.go, every atomic
      access a step.  [Assembly]: the subtree processor (SubtreeProcessor.go) as programs
      over its state, the map of inpoints an object in a heap; [AssemblyTheorems] its
      filling and re-chaining, [AssemblyOwned] what an operation leaves alone,
      [AssemblyReach] loading, removal and the pass over the queue.  [Movement]: a block
      forward, a block back and deferred_block_drain.go; [MovementTheorems] the block,
      [MovementDrain] the queue after it, [MovementBack] the way back.
      [AssemblyGuarantees]: the reachable states and the promises.  [SortedSet],
      [SortedSetTheorems]: sorted_hash_set.go, the set of a block's transactions.
    - Scheduling of block validation.  [ForkManager]: fork_manager.go, every operation
      under its lock; [ForkManagerTheorems] its count and links.  [BlockQueue],
      [BlockQueueTheorems]: block_priority.go, the queue of blocks and the classifier.
      [BlockWorkers]: the worker loop of blockvalidation/Server.go, one move per stretch
      under a lock; [BlockWorkersTheorems] its runs.
    - Files.  [UtxoFile], [UtxoFileTheorems]: the record formats of services/utxopersister,
      a reader being the bytes that are left.

    ** What the theorems show

    - Spends: no batch, fault, retry or rival makes an output spent twice or erases a
      recorded spend; an answer of success is evidence of the recorded spend; each
      item is answered once; a transaction spent in part is undone and nothing else.
    - The tables: on an engine that serialises transactions, in every reachable state a
      delete-at-height is only on a record that may go; what the pruner removes was due in
      the state its statement saw, with stable spenders when that is asked for.
    - Spend and create: record and spends stay together, alone and in lists, at every
      order of the calls and every end of the context, but for a resubmission whose
      creation is refused.
    - Conflicts: walks end and collect exactly what is reachable; a run reports what
      it flipped, is covered by its intent, and never displaces a confirmed loser.
    - Pipeline: what acceptance is evidence of, when spends may be undone and the
      record unlocked, which double spends leave a record, and how long it may take.
    - Difficulty and times: the calculator answers what the tree alone determines
      whatever its caches hold; the catch-up precheck agrees with it; a median time is the
      chain's below every height that changed without being cut from the cache; a
      candidate's timestamp passes the validator's rules.
    - Money: the coinbase pays at most subsidy and fees over unbounded integers, and
      the native checks are exactly the money rules.
    - Duplicates: the hash-free index is a finite map, and the parallel input check
      answers what the sequential scan answers.
    - Bodies: the chunked pass and the check of the loaded block agree, what passes is
      what the header commits to, and two bodies that pass are one up to collisions;
      forged blobs are named and removed, or the attempt fails closed; a proof made
      from a block verifies, and a verifying proof is for a transaction of it.
    - Block assembly: the lock-free queue is first-in first-out, bounded and never misses
      its oldest entry, at every interleaving; every state the subtree processor reaches
      passes its own check; a block takes out what it holds, what loses to it and what
      descends from that, keeps everything else and the queue, and when it fails the
      subtrees, what was held, the queue and the tip are those of before; parallel and sequential building agree; a block taken back puts its
      transactions first; the frozen set of a block is the finite set of what was put.
    - Scheduling of block validation: the queue is a map from hashes to items, [Get] hands
      out the first processable block of its order, the blocks at work never pass their
      bound, a refused start means another worker has the block, no two workers have the
      same block while the cleanup spares what is at work, and no wakeup is lost as long as
      no block changes its branch while it is at work.
    - Files: a record read back is the record written, and cutting a stream into frames to
      decode them later is reading it.

    Where the code departs from its comments the theorem states what the code does:
    the wrapped duration of the modern adjustment, the two places where median times
    of branches mix, the deadlock that is not retried, the conflict rollback that
    leaves work to an operator, the resubmission that frees live inputs, the counters a
    failed block forgets, the marks a drain ignores, the other sources of a block that
    are gone once it is taken, the branch that is cleaned up or left behind while its block
    is validated, the height two PostgreSQL clients leave on a record with an unspent output.

    ** Fuel and bounds

    Testnet restoration walks at most the height of the start block.  The rollback of
    spends, the chunks of the marks and [equal_runs] have the length of their list,
    [decode_hashes] the length of the blob, sigop counting the length of the script.
    The walks over spenders have one unit per level and end when it reaches the number
    of hashes there are.  The hand-off ends by the clock: [retry_fuel], the
    back-offs that fit its window plus two, is where the model stops, and its theorem is for
    that and every larger fuel.  Retry loops have the code's own numbers (three attempts).  The
    supply loop runs over 64 halvings, after which the subsidy is zero.  [find_from] and
    [place_from] make one round per bucket, [double_shards] 13 (8192 shards),
    [raise_bits] 12, [put_chunks] one per entry.  For each a lemma shows that it does
    not run out on the inputs the theorems speak of.
    Merkle roots and [block_path] have the length of their list, which every level halves.
    [forEachDrainChunk] has one unit for every batch that waits or may come, since each
    turn takes one; [append_chunks] and [search] one for every hash.  [chunks] has the number of
    chunks the code computes.  The fuel of the queue's [Get] bounds its calls to itself;
    one turn is enough when no other goroutine comes in between.
    [appendScript] makes one round per chunk of 64 KiB and one more.

    ** Not modelled

    Request decoding and plumbing (gRPC, HTTP, Kafka, libp2p), the peers of the legacy
    network, the daemon, settings, metrics and logging; the script engine (native
    code); the Aerospike store, whose spend logic is a script run by the database
    server; the bulk PostgreSQL variants of the SQL statements, and what READ COMMITTED lets
    happen inside a transaction (transactions of several statements run as on SQLite; the
    race this hides is [setDAH_race]); the other files of
    the persisters and the consolidation of block ranges; of block assembly the maps on disk, memory-mapped subtrees, the sizing of
    subtrees (floating point), announcements, the size cap, whole reorganisations and resets
    and the service around the processor; of block validation the catch-up and what
    validating one block does, but for the rules named above; and of the large services the parts not named
    above. *)

From Stdlib Require Import Strings.Byte.
From Stdlib Require Export ZArith Lia.
From stdpp Require Export base tactics numbers option gmap sets countable.
From stdpp Require Export list_basics list.

#[global] Open Scope Z_scope.
#[global] Set Default Goal Selector "!".

(** ** Errors

    The numeric codes of errors/error.proto that the modelled code raises or
    inspects, with the source's names. *)
Inductive ERR :=
  | ERR_UNKNOWN | ERR_INVALID_ARGUMENT | ERR_THRESHOLD_EXCEEDED | ERR_NOT_FOUND
  | ERR_PROCESSING | ERR_CONFIGURATION | ERR_CONTEXT | ERR_CONTEXT_CANCELED
  | ERR_EXTERNAL | ERR_ERROR
  | ERR_BLOCK_NOT_FOUND | ERR_BLOCK_INVALID | ERR_BLOCK_EXISTS
  | ERR_BLOCK_INVALID_FORMAT | ERR_BLOCK_PARENT_NOT_MINED
  | ERR_BLOCK_COINBASE_MISSING_HEIGHT | ERR_BLOCK_ASSEMBLY_RESET
  | ERR_BLOCK_INCOMPLETE | ERR_BLOCK_HEADER_CONTEXT | ERR_BLOCK_ERROR
  | ERR_SUBTREE_NOT_FOUND | ERR_SUBTREE_INVALID | ERR_SUBTREE_SERIALIZE_ERROR
  | ERR_SUBTREE_DESERIALIZE_ERROR | ERR_SUBTREE_INVALID_FORMAT
  | ERR_SUBTREE_EXISTS | ERR_SUBTREE_ERROR
  | ERR_TX_NOT_FOUND | ERR_TX_INVALID | ERR_TX_INVALID_DOUBLE_SPEND
  | ERR_TX_EXISTS | ERR_TX_MISSING_PARENT | ERR_TX_LOCK_TIME
  | ERR_TX_CONFLICTING | ERR_TX_LOCKED | ERR_TX_COINBASE_IMMATURE
  | ERR_TX_POLICY | ERR_TX_CONSENSUS | ERR_TX_CREATING | ERR_TX_UNLOCK_FAILED
  | ERR_TX_REJECTED_CONFLICTING | ERR_TX_ERROR
  | ERR_SERVICE_UNAVAILABLE | ERR_SERVICE_NOT_STARTED | ERR_SERVICE_RATE_LIMITED
  | ERR_SERVICE_NOT_READY | ERR_SERVICE_ERROR
  | ERR_STORAGE_UNAVAILABLE | ERR_STORAGE_NOT_STARTED | ERR_STORAGE_ERROR
  | ERR_UTXO_SPENT | ERR_UTXO_NON_FINAL | ERR_UTXO_FROZEN | ERR_UTXO_NOT_FOUND
  | ERR_UTXO_MISMATCH | ERR_UTXO_INVALID_SIZE | ERR_UTXO_UNSPENT
  | ERR_UTXO_WALK_LIMIT_EXCEEDED | ERR_UTXO_ERROR
  | ERR_KAFKA_DECODE_ERROR | ERR_KAFKA_ERROR
  | ERR_BLOB_EXISTS | ERR_BLOB_NOT_FOUND | ERR_BLOB_FOOTER_SIZE_MISMATCH
  | ERR_BLOB_ERROR
  | ERR_STATE_INITIALIZATION | ERR_CATCHUP_IN_PROGRESS | ERR_STATE_ERROR
  | ERR_NETWORK_ERROR | ERR_INVALID_SUBNET | ERR_INVALID_IP
  | ERR_NETWORK_TIMEOUT | ERR_NETWORK_CONNECTION_REFUSED
  | ERR_NETWORK_INVALID_RESPONSE | ERR_NETWORK_PEER_MALICIOUS
  | ERR_BLOCK_CORRUPT | ERR_BLOCK_POLICY_DECLINED | ERR_BLOCK_BODY_MISMATCH.

(** The wire number of a code. *)
Definition ERR_number (c : ERR) : Z :=
  match c with
  | ERR_UNKNOWN => 0
  | ERR_INVALID_ARGUMENT => 1
  | ERR_THRESHOLD_EXCEEDED => 2
  | ERR_NOT_FOUND => 3
  | ERR_PROCESSING => 4
  | ERR_CONFIGURATION => 5
  | ERR_CONTEXT => 6
  | ERR_CONTEXT_CANCELED => 7
  | ERR_EXTERNAL => 8
  | ERR_ERROR => 9
  | ERR_BLOCK_NOT_FOUND => 10
  | ERR_BLOCK_INVALID => 11
  | ERR_BLOCK_EXISTS => 12
  | ERR_BLOCK_INVALID_FORMAT => 13
  | ERR_BLOCK_PARENT_NOT_MINED => 14
  | ERR_BLOCK_COINBASE_MISSING_HEIGHT => 15
  | ERR_BLOCK_ASSEMBLY_RESET => 16
  | ERR_BLOCK_INCOMPLETE => 17
  | ERR_BLOCK_HEADER_CONTEXT => 18
  | ERR_BLOCK_ERROR => 19
  | ERR_SUBTREE_NOT_FOUND => 20
  | ERR_SUBTREE_INVALID => 21
  | ERR_SUBTREE_SERIALIZE_ERROR => 22
  | ERR_SUBTREE_DESERIALIZE_ERROR => 23
  | ERR_SUBTREE_INVALID_FORMAT => 24
  | ERR_SUBTREE_EXISTS => 25
  | ERR_SUBTREE_ERROR => 29
  | ERR_TX_NOT_FOUND => 30
  | ERR_TX_INVALID => 31
  | ERR_TX_INVALID_DOUBLE_SPEND => 32
  | ERR_TX_EXISTS => 33
  | ERR_TX_MISSING_PARENT => 34
  | ERR_TX_LOCK_TIME => 35
  | ERR_TX_CONFLICTING => 36
  | ERR_TX_LOCKED => 37
  | ERR_TX_COINBASE_IMMATURE => 38
  | ERR_TX_POLICY => 39
  | ERR_TX_CONSENSUS => 40
  | ERR_TX_CREATING => 41
  | ERR_TX_UNLOCK_FAILED => 42
  | ERR_TX_REJECTED_CONFLICTING => 43
  | ERR_TX_ERROR => 49
  | ERR_SERVICE_UNAVAILABLE => 50
  | ERR_SERVICE_NOT_STARTED => 51
  | ERR_SERVICE_RATE_LIMITED => 52
  | ERR_SERVICE_NOT_READY => 53
  | ERR_SERVICE_ERROR => 59
  | ERR_STORAGE_UNAVAILABLE => 60
  | ERR_STORAGE_NOT_STARTED => 61
  | ERR_STORAGE_ERROR => 69
  | ERR_UTXO_SPENT => 70
  | ERR_UTXO_NON_FINAL => 71
  | ERR_UTXO_FROZEN => 72
  | ERR_UTXO_NOT_FOUND => 73
  | ERR_UTXO_MISMATCH => 74
  | ERR_UTXO_INVALID_SIZE => 75
  | ERR_UTXO_UNSPENT => 76
  | ERR_UTXO_WALK_LIMIT_EXCEEDED => 77
  | ERR_UTXO_ERROR => 79
  | ERR_KAFKA_DECODE_ERROR => 80
  | ERR_KAFKA_ERROR => 89
  | ERR_BLOB_EXISTS => 90
  | ERR_BLOB_NOT_FOUND => 91
  | ERR_BLOB_FOOTER_SIZE_MISMATCH => 92
  | ERR_BLOB_ERROR => 99
  | ERR_STATE_INITIALIZATION => 100
  | ERR_CATCHUP_IN_PROGRESS => 101
  | ERR_STATE_ERROR => 109
  | ERR_NETWORK_ERROR => 110
  | ERR_INVALID_SUBNET => 111
  | ERR_INVALID_IP => 112
  | ERR_NETWORK_TIMEOUT => 113
  | ERR_NETWORK_CONNECTION_REFUSED => 114
  | ERR_NETWORK_INVALID_RESPONSE => 115
  | ERR_NETWORK_PEER_MALICIOUS => 116
  | ERR_BLOCK_CORRUPT => 120
  | ERR_BLOCK_POLICY_DECLINED => 121
  | ERR_BLOCK_BODY_MISMATCH => 122
  end.

(** [ERR_name]: the code a wire number stands for, if any. *)
Definition ERR_of_number (n : Z) : option ERR :=
  match n with
  | 0 => Some ERR_UNKNOWN
  | 1 => Some ERR_INVALID_ARGUMENT
  | 2 => Some ERR_THRESHOLD_EXCEEDED
  | 3 => Some ERR_NOT_FOUND
  | 4 => Some ERR_PROCESSING
  | 5 => Some ERR_CONFIGURATION
  | 6 => Some ERR_CONTEXT
  | 7 => Some ERR_CONTEXT_CANCELED
  | 8 => Some ERR_EXTERNAL
  | 9 => Some ERR_ERROR
  | 10 => Some ERR_BLOCK_NOT_FOUND
  | 11 => Some ERR_BLOCK_INVALID
  | 12 => Some ERR_BLOCK_EXISTS
  | 13 => Some ERR_BLOCK_INVALID_FORMAT
  | 14 => Some ERR_BLOCK_PARENT_NOT_MINED
  | 15 => Some ERR_BLOCK_COINBASE_MISSING_HEIGHT
  | 16 => Some ERR_BLOCK_ASSEMBLY_RESET
  | 17 => Some ERR_BLOCK_INCOMPLETE
  | 18 => Some ERR_BLOCK_HEADER_CONTEXT
  | 19 => Some ERR_BLOCK_ERROR
  | 20 => Some ERR_SUBTREE_NOT_FOUND
  | 21 => Some ERR_SUBTREE_INVALID
  | 22 => Some ERR_SUBTREE_SERIALIZE_ERROR
  | 23 => Some ERR_SUBTREE_DESERIALIZE_ERROR
  | 24 => Some ERR_SUBTREE_INVALID_FORMAT
  | 25 => Some ERR_SUBTREE_EXISTS
  | 29 => Some ERR_SUBTREE_ERROR
  | 30 => Some ERR_TX_NOT_FOUND
  | 31 => Some ERR_TX_INVALID
  | 32 => Some ERR_TX_INVALID_DOUBLE_SPEND
  | 33 => Some ERR_TX_EXISTS
  | 34 => Some ERR_TX_MISSING_PARENT
  | 35 => Some ERR_TX_LOCK_TIME
  | 36 => Some ERR_TX_CONFLICTING
  | 37 => Some ERR_TX_LOCKED
  | 38 => Some ERR_TX_COINBASE_IMMATURE
  | 39 => Some ERR_TX_POLICY
  | 40 => Some ERR_TX_CONSENSUS
  | 41 => Some ERR_TX_CREATING
  | 42 => Some ERR_TX_UNLOCK_FAILED
  | 43 => Some ERR_TX_REJECTED_CONFLICTING
  | 49 => Some ERR_TX_ERROR
  | 50 => Some ERR_SERVICE_UNAVAILABLE
  | 51 => Some ERR_SERVICE_NOT_STARTED
  | 52 => Some ERR_SERVICE_RATE_LIMITED
  | 53 => Some ERR_SERVICE_NOT_READY
  | 59 => Some ERR_SERVICE_ERROR
  | 60 => Some ERR_STORAGE_UNAVAILABLE
  | 61 => Some ERR_STORAGE_NOT_STARTED
  | 69 => Some ERR_STORAGE_ERROR
  | 70 => Some ERR_UTXO_SPENT
  | 71 => Some ERR_UTXO_NON_FINAL
  | 72 => Some ERR_UTXO_FROZEN
  | 73 => Some ERR_UTXO_NOT_FOUND
  | 74 => Some ERR_UTXO_MISMATCH
  | 75 => Some ERR_UTXO_INVALID_SIZE
  | 76 => Some ERR_UTXO_UNSPENT
  | 77 => Some ERR_UTXO_WALK_LIMIT_EXCEEDED
  | 79 => Some ERR_UTXO_ERROR
  | 80 => Some ERR_KAFKA_DECODE_ERROR
  | 89 => Some ERR_KAFKA_ERROR
  | 90 => Some ERR_BLOB_EXISTS
  | 91 => Some ERR_BLOB_NOT_FOUND
  | 92 => Some ERR_BLOB_FOOTER_SIZE_MISMATCH
  | 99 => Some ERR_BLOB_ERROR
  | 100 => Some ERR_STATE_INITIALIZATION
  | 101 => Some ERR_CATCHUP_IN_PROGRESS
  | 109 => Some ERR_STATE_ERROR
  | 110 => Some ERR_NETWORK_ERROR
  | 111 => Some ERR_INVALID_SUBNET
  | 112 => Some ERR_INVALID_IP
  | 113 => Some ERR_NETWORK_TIMEOUT
  | 114 => Some ERR_NETWORK_CONNECTION_REFUSED
  | 115 => Some ERR_NETWORK_INVALID_RESPONSE
  | 116 => Some ERR_NETWORK_PEER_MALICIOUS
  | 120 => Some ERR_BLOCK_CORRUPT
  | 121 => Some ERR_BLOCK_POLICY_DECLINED
  | 122 => Some ERR_BLOCK_BODY_MISMATCH
  | _ => None
  end.

Lemma ERR_of_number_number c : ERR_of_number (ERR_number c) = Some c.
Proof. by destruct c. Qed.

#[export] Instance ERR_eq_dec : EqDecision ERR.
Proof.
  refine (λ a b, match decide (ERR_number a = ERR_number b) with
                 | left H => left _ | right H => right _ end).
  - apply (inj Some). rewrite <- !ERR_of_number_number. by rewrite H.
  - congruence.
Defined.

#[local] Set Warnings "-register-all".

(** An error value: its code and the error it wraps.  Messages, source
    positions and stack traces are not modelled: no modelled code branches on
    them. *)
Inductive error := Error (code : ERR) (wrapped : option error).

Definition err (c : ERR) : error := Error c None.
Definition err_wrap (c : ERR) (w : error) : error := Error c (Some w).
Definition err_code (e : error) : ERR := let 'Error c _ := e in c.

#[export] Instance error_eq_dec : EqDecision error.
Proof.
  refine (fix go (a b : error) : Decision (a = b) :=
    match a, b with
    | Error c1 w1, Error c2 w2 =>
        match decide (c1 = c2), w1, w2 with
        | left Hc, None, None => left _
        | left Hc, Some x, Some y =>
            match go x y with left Hx => left _ | right Hx => right _ end
        | _, _, _ => right _
        end
    end); congruence.
Defined.

(** errors.Error.Is: does any error of the chain carry the target's code?  The
    walk is cut at [maxIsChainDepth] links. *)
Definition maxIsChainDepth : Z := 2^20.

Fixpoint is_from (depth : Z) (e : error) (target : ERR) : bool :=
  if depth <? maxIsChainDepth then
    let 'Error code wrapped := e in
    if bool_decide (code = target) then true
    else match wrapped with
         | None => false
         | Some next => is_from (depth + 1) next target
         end
  else false.

Definition error_Is (e : error) (target : ERR) : bool := is_from 0 e target.

Lemma is_from_mono e c d d' : d ≤ d' → is_from d' e c = true → is_from d e c = true.
Proof.
  revert e d d'. fix IH 1. intros [code [w|]] d d' Hd; simpl;
    (destruct (Z.ltb_spec d' maxIsChainDepth); [|done]); (destruct (Z.ltb_spec d maxIsChainDepth); [|lia]);
    case_bool_decide; try done.
  intros Hw. eapply (IH w); [|exact Hw]. lia.
Qed.

(** Wrapping an error adds at most the code it is wrapped with. *)
Lemma error_Is_wrap e c c' : c ≠ c' → error_Is e c' = false → error_Is (err_wrap c e) c' = false.
Proof.
  intros Hc He. unfold error_Is, err_wrap. cbn. rewrite bool_decide_false by done.
  apply not_true_iff_false. intros H. apply (is_from_mono _ _ 0) in H; [|lia]. unfold error_Is in He. congruence.
Qed.

(** A Go run-time panic (a nil dereference or an index out of range), which no
    modelled caller recovers from. *)
Definition panic : error := err ERR_UNKNOWN.

(** ** Results: a Go function returning [(T, error)] where the value is only
    meaningful when the error is nil. *)
Inductive result (A : Type) :=
  | Ok (a : A)
  | Err (e : error).
Arguments Ok {A} a.
Arguments Err {A} e.

Definition bindR {A B} (r : result A) (f : A → result B) : result B :=
  match r with Ok a => f a | Err e => Err e end.

(** [if err != nil { return nil, errors.NewX(..., err) }] *)
Definition wrapR {A} (c : ERR) (r : result A) : result A :=
  match r with Ok a => Ok a | Err e => Err (err_wrap c e) end.

(** An error of another package: its text alone survives, under code 0. *)
Definition foreignR {A} (r : result A) : result A :=
  match r with Ok a => Ok a | Err _ => Err (err ERR_UNKNOWN) end.

Definition is_ok {A} (r : result A) : bool :=
  match r with Ok _ => true | Err _ => false end.

Declare Scope go_scope.
Delimit Scope go_scope with go.
#[global] Open Scope go_scope.

Notation "'let?' x ':=' r 'in' k" := (bindR r (fun x => k))
  (at level 200, x pattern, r at level 100, k at level 200) : go_scope.
Notation "'guard?' b 'else' e 'in' k" := (if b then k else Err e)
  (at level 200, b at level 100, e at level 100, k at level 200) : go_scope.

Lemma wrapR_Ok {A} c (r : result A) a : wrapR c r = Ok a ↔ r = Ok a.
Proof. by destruct r. Qed.

Lemma bindR_Ok {A B} (r : result A) (f : A → result B) b :
  bindR r f = Ok b ↔ ∃ a, r = Ok a ∧ f a = Ok b.
Proof.
  destruct r; simpl; split; [eauto | intros (?&?&?); congruence | congruence
                            | intros (?&?&?); congruence].
Qed.

Lemma bindR_Err {A B} (r : result A) (f : A → result B) e :
  bindR r f = Err e ↔ r = Err e ∨ ∃ a, r = Ok a ∧ f a = Err e.
Proof.
  destruct r; simpl; split.
  - eauto.
  - intros [?|(?&?&?)]; congruence.
  - intros [= ->]; auto.
  - intros [?|(?&?&?)]; congruence.
Qed.

(** Invert every [Ok]-valued bind in the context. *)
Ltac invert_ok :=
  repeat match goal with
  | H : bindR _ _ = Ok _ |- _ => apply bindR_Ok in H as (?&?&H)
  | H : Ok _ = Ok _ |- _ => injection H as H
  | H : Err _ = Ok _ |- _ => discriminate H
  | H : Ok _ = Err _ |- _ => discriminate H
  end.

(** ** Computations over a state that end with a result *)
Definition SM (S A : Type) : Type := S → result A * S.

#[export] Instance SM_ret S : MRet (SM S) := λ A a s, (Ok a, s).
#[export] Instance SM_bind S : MBind (SM S) := λ A B f m s,
  match m s with
  | (Ok a, s) => f a s
  | (Err e, s) => (Err e, s)
  end.

Definition fail {S A} (e : error) : SM S A := λ s, (Err e, s).
Definition of_result {S A} (r : result A) : SM S A := λ s, (r, s).

(** [if err != nil { return errors.New...(err) }] *)
Definition wrapM {S A} (c : ERR) (m : SM S A) : SM S A := λ s,
  match m s with
  | (Ok a, s) => (Ok a, s)
  | (Err e, s) => (Err (err_wrap c e), s)
  end.

(** [for _, x := range l { if err := f(x); err != nil { return err } }] *)
Fixpoint each {S A} (f : A → SM S unit) (l : list A) : SM S unit :=
  match l with
  | [] => mret tt
  | x :: l => _ ← f x; each f l
  end.

Fixpoint traverse {S A B} (f : A → SM S B) (l : list A) : SM S (list B) :=
  match l with
  | [] => mret []
  | x :: l => y ← f x; ys ← traverse f l; mret (y :: ys)
  end.

(** ** Machine integers *)
Definition u8 (z : Z) : Z := z mod 2^8.
Definition u16 (z : Z) : Z := z mod 2^16.
Definition u32 (z : Z) : Z := z mod 2^32.
Definition u64 (z : Z) : Z := z mod 2^64.
Definition i64 (z : Z) : Z := (z + 2^63) mod 2^64 - 2^63.
Definition i32 (z : Z) : Z := (z + 2^31) mod 2^32 - 2^31.

Notation is_u32 z := (0 ≤ z < 2^32).
Notation is_u64 z := (0 ≤ z < 2^64).
Notation is_i64 z := (-2^63 ≤ z < 2^63).

Lemma u32_small z : is_u32 z → u32 z = z.
Proof. apply Z.mod_small. Qed.
Lemma u64_small z : is_u64 z → u64 z = z.
Proof. apply Z.mod_small. Qed.
Lemma i64_small z : is_i64 z → i64 z = z.
Proof. intros. unfold i64. rewrite Z.mod_small; lia. Qed.
Lemma u32_range z : is_u32 (u32 z).
Proof. apply Z.mod_pos_bound. lia. Qed.
Lemma u64_range z : is_u64 (u64 z).
Proof. apply Z.mod_pos_bound. lia. Qed.
Lemma i64_range z : is_i64 (i64 z).
Proof. unfold i64. pose proof (Z.mod_pos_bound (z + 2^63) (2^64)). lia. Qed.

(** ** Single bits: [n & (1 << k) == 0] *)
Lemma land_bit_zero n k : 0 ≤ k → (Z.land n (2^k) =? 0) = negb (Z.testbit n k).
Proof.
  intros Hk. destruct (Z.testbit n k) eqn:E; simpl.
  - apply Z.eqb_neq. intros H0.
    assert (Z.testbit (Z.land n (2^k)) k = true) as H.
    { rewrite Z.land_spec, E, Z.pow2_bits_true by lia. done. }
    rewrite H0, Z.bits_0 in H. done.
  - apply Z.eqb_eq. apply Z.bits_inj'. intros i Hi.
    rewrite Z.land_spec, Z.bits_0.
    destruct (decide (i = k)) as [->|Hne]; [by rewrite E|].
    rewrite Z.pow2_bits_false by lia. apply andb_false_r.
Qed.

Lemma land_shifted_bit_zero n k : 0 ≤ k → (Z.land n (Z.shiftl 1 k) =? 0) = negb (Z.testbit n k).
Proof. intros Hk. rewrite Z.shiftl_1_l. by apply land_bit_zero. Qed.

(** ** Bytes *)
Notation byte := Corelib.Init.Byte.byte.

#[export] Instance byte_eq_dec : EqDecision byte := Byte.byte_eq_dec.

Definition byte_to_Z (b : byte) : Z := Z.of_N (Byte.to_N b).
Definition byte_of_Z (z : Z) : byte :=
  default Byte.x00 (Byte.of_N (Z.to_N (z mod 256))).

#[export] Instance byte_countable : Countable byte :=
  inj_countable Byte.to_N Byte.of_N Byte.of_to_N.

Lemma byte_to_Z_range b : 0 ≤ byte_to_Z b < 256.
Proof.
  unfold byte_to_Z. pose proof (Byte.to_N_bounded b). lia.
Qed.

Lemma byte_to_of_Z z : byte_to_Z (byte_of_Z z) = z mod 256.
Proof.
  unfold byte_of_Z, byte_to_Z.
  pose proof (Z.mod_pos_bound z 256 ltac:(lia)) as Hr.
  destruct (Byte.of_N (Z.to_N (z mod 256))) as [b|] eqn:E; simpl.
  - apply Byte.to_of_N in E. rewrite E, Z2N.id; lia.
  - apply Byte.of_N_None_iff in E. lia.
Qed.

Lemma byte_of_to_Z b : byte_of_Z (byte_to_Z b) = b.
Proof.
  unfold byte_of_Z. pose proof (byte_to_Z_range b) as Hr.
  rewrite Z.mod_small by lia. unfold byte_to_Z.
  rewrite N2Z.id, Byte.of_to_N. done.
Qed.

(** [binary.LittleEndian.PutUint*] and [Uint*] on [n] bytes. *)
Fixpoint le_encode (n : nat) (z : Z) : list byte :=
  match n with
  | O => []
  | S n => byte_of_Z z :: le_encode n (z / 256)
  end.

Fixpoint le_decode (l : list byte) : Z :=
  match l with
  | [] => 0
  | b :: l => byte_to_Z b + 256 * le_decode l
  end.

(** [new(big.Int).SetBytes]: big-endian magnitude. *)
Definition be_decode (l : list byte) : Z := le_decode (rev l).

Lemma length_le_encode n z : length (le_encode n z) = n.
Proof. revert z; induction n; simpl; auto. Qed.

Lemma le_decode_range l : 0 ≤ le_decode l < 256 ^ Z.of_nat (length l).
Proof.
  induction l as [|b l IH]; simpl; [lia|].
  pose proof (byte_to_Z_range b).
  rewrite Nat2Z.inj_succ, Z.pow_succ_r by lia. lia.
Qed.

Lemma le_decode_encode n z :
  le_decode (le_encode n z) = z mod 256 ^ Z.of_nat n.
Proof.
  revert z; induction n as [|n IH]; intros z.
  - simpl. by rewrite Z.mod_1_r.
  - cbn [le_encode le_decode]. rewrite IH, byte_to_of_Z, Nat2Z.inj_succ.
    rewrite Z.pow_succ_r by lia.
    rewrite Z.rem_mul_r; [done | lia | apply Z.pow_pos_nonneg; lia].
Qed.

Lemma le_decode_encode_small n z :
  0 ≤ z < 256 ^ Z.of_nat n → le_decode (le_encode n z) = z.
Proof. intros. rewrite le_decode_encode. by apply Z.mod_small. Qed.

Lemma le_encode_decode l : le_encode (length l) (le_decode l) = l.
Proof.
  induction l as [|b l IH]; [done|]. cbn [length le_encode le_decode].
  pose proof (byte_to_Z_range b).
  replace ((byte_to_Z b + 256 * le_decode l) / 256) with (le_decode l)
    by (rewrite Z.mul_comm, Z.div_add by lia; rewrite Z.div_small; lia).
  rewrite IH. f_equal.
  rewrite <- (byte_of_to_Z b) at 2. unfold byte_of_Z.
  by rewrite Z.mul_comm, Z.mod_add by lia.
Qed.

Lemma le_encode_decode_n n l : length l = n → le_encode n (le_decode l) = l.
Proof. intros <-. apply le_encode_decode. Qed.

Lemma le_decode_app l k :
  le_decode (l ++ k) = le_decode l + 256 ^ Z.of_nat (length l) * le_decode k.
Proof.
  induction l as [|b l IH]; [simpl; lia|].
  cbn [app length le_decode]. rewrite IH, Nat2Z.inj_succ, Z.pow_succ_r by lia. ring.
Qed.

Lemma le_decode_zeros n : le_decode (replicate n Byte.x00) = 0.
Proof.
  induction n as [|n IH]; [done|]. cbn [replicate le_decode]. by rewrite IH.
Qed.

Lemma le_decode_take n l :
  le_decode (take n l) = le_decode l mod 256 ^ Z.of_nat n.
Proof.
  rewrite <- (take_drop n l) at 2. rewrite le_decode_app.
  pose proof (le_decode_range (take n l)) as Hr.
  destruct (Nat.le_gt_cases n (length l)).
  - rewrite length_take, Nat.min_l in Hr |- * by done.
    rewrite Z.mul_comm, Z.mod_add by (apply Z.pow_nonzero; lia).
    symmetry. by apply Z.mod_small.
  - rewrite drop_ge by lia. simpl. rewrite Z.mul_0_r, Z.add_0_r. symmetry.
    apply Z.mod_small. rewrite length_take, Nat.min_r in Hr by lia.
    split; [lia|]. eapply Z.lt_le_trans; [apply Hr|].
    apply Z.pow_le_mono_r; lia.
Qed.

(** [b[i:j]] for in-range bounds. *)
Definition slice {A} (i j : nat) (l : list A) : list A := take (j - i) (drop i l).

Lemma length_slice {A} i j (l : list A) :
  (j ≤ length l)%nat → length (slice i j l) = (j - i)%nat.
Proof. intros. unfold slice. rewrite length_take, length_drop. lia. Qed.

(** ** Hashes: [chainhash.Hash] is a 32-byte array. *)
Definition Hash : Type := { l : list byte | bool_decide (length l = 32%nat) }.

#[export] Instance Hash_eq_dec : EqDecision Hash.
Proof. unfold Hash. apply _. Defined.
#[export] Instance Hash_countable : Countable Hash.
Proof. unfold Hash. apply _. Defined.

Definition hash_bytes (h : Hash) : list byte := `h.
Definition mk_hash (l : list byte) (H : length l = 32%nat) : Hash :=
  l ↾ bool_decide_pack _ H.
Definition zero_hash : Hash := mk_hash (replicate 32 Byte.x00) eq_refl.

Lemma length_hash_bytes h : length (hash_bytes h) = 32%nat.
Proof. destruct h as [l H]. exact (bool_decide_unpack _ H). Qed.

Lemma hash_bytes_inj h1 h2 : hash_bytes h1 = hash_bytes h2 → h1 = h2.
Proof. apply (sig_eq_pi _). Qed.

Lemma mk_hash_bytes h H : mk_hash (hash_bytes h) H = h.
Proof. by apply hash_bytes_inj. Qed.

(** [bn.SetBytes(bt.ReverseBytes(hash[:]))]: the number a hash stands for. *)
Definition hash_to_Z (h : Hash) : Z := le_decode (hash_bytes h).

(** The first 32 bytes of a list as a hash, for building examples. *)
Definition hash_of_Z (z : Z) : Hash := mk_hash (le_encode 32 z) (length_le_encode 32 z).

Lemma hash_of_to_Z h : hash_of_Z (hash_to_Z h) = h.
Proof. apply hash_bytes_inj, (le_encode_decode_n 32), length_hash_bytes. Qed.

Lemma slice_skip {A} n i j (l k : list A) :
  length l = n → (n ≤ i)%nat → slice i j (l ++ k) = slice (i - n) (j - n) k.
Proof.
  intros <- Hi. unfold slice. rewrite drop_app_ge by done.
  f_equal. lia.
Qed.

Lemma slice_here {A} n (l k : list A) : length l = n → slice 0 n (l ++ k) = l.
Proof. intros <-. unfold slice. rewrite drop_0, Nat.sub_0_r. apply take_app_length. Qed.

(** A slice is what a decomposition of the list shows at that place. *)
Lemma slice_split {A} i j (l : list A) : (i ≤ j)%nat →
  drop i l = slice i j l ++ drop j l.
Proof.
  intros. unfold slice. rewrite <- (take_drop (j - i) (drop i l)) at 1.
  rewrite drop_drop. do 2 f_equal. lia.
Qed.

(** ** Lists *)
Lemma list_filter_none {A} (P : A → Prop) `{∀ x, Decision (P x)} (l : list A) :
  (∀ x, x ∈ l → ¬ P x) → filter P l = [].
Proof.
  induction l as [|a l IH]; intros Hl; [done|].
  rewrite filter_cons, decide_False by (apply Hl; set_solver).
  apply IH. set_solver.
Qed.

Lemma list_filter_all {A} (P : A → Prop) `{∀ x, Decision (P x)} (l : list A) :
  (∀ x, x ∈ l → P x) → filter P l = l.
Proof.
  induction l as [|a l IH]; intros Hl; [done|].
  rewrite filter_cons, decide_True by (apply Hl; set_solver).
  f_equal. apply IH. set_solver.
Qed.

(** The loop [for i := 0; i < len(l); i += n] over [l[i:end]].  A chunk is never
    empty, so the length of the list is enough fuel. *)
Fixpoint chunks_from {A} (fuel n : nat) (l : list A) : list (list A) :=
  match fuel, l with
  | O, _ | _, [] => []
  | S fuel, _ => take n l :: chunks_from fuel n (drop n l)
  end.

Definition chunks {A} (n : nat) (l : list A) : list (list A) := chunks_from (length l) n l.

Lemma chunks_concat {A} (n : nat) (l : list A) : (0 < n)%nat → mjoin (chunks n l) = l.
Proof.
  intros Hn. unfold chunks. assert (H : (length l ≤ length l)%nat) by done. revert H.
  generalize (length l) at 2 3 as fuel. intros fuel. revert l.
  induction fuel as [|fuel IH]; intros l Hl; [by destruct l; simpl in Hl; [|lia]|].
  destruct l as [|x l]; [done|]. cbn [chunks_from]. change (mjoin (?a :: ?b)) with (a ++ mjoin b).
  rewrite IH; [apply take_drop|]. rewrite length_drop. simpl in *. lia.
Qed.

(** ** Clamping, as the code writes it *)
Lemma if_gt_min x hi : (if x >? hi then hi else x) = Z.min x hi.
Proof. destruct (Z.gtb_spec x hi); lia. Qed.

Lemma if_clamp_hi_lo x lo hi : lo ≤ hi →
  (if x >? hi then hi else if x <? lo then lo else x) = Z.max lo (Z.min hi x).
Proof. intros. destruct (Z.gtb_spec x hi), (Z.ltb_spec x lo); lia. Qed.

Lemma if_clamp_lo_hi x lo hi : lo ≤ hi →
  (if x <? lo then lo else if x >? hi then hi else x) = Z.max lo (Z.min hi x).
Proof. intros. destruct (Z.gtb_spec x hi), (Z.ltb_spec x lo); lia. Qed.

(** The running values of an accumulator over a loop. *)
Fixpoint scan_left {A B} (f : B → A → B) (acc : B) (l : list A) : list B :=
  match l with
  | [] => []
  | a :: l => f acc a :: scan_left f (f acc a) l
  end.

(** ** Sums *)
Definition sum_Z (l : list Z) : Z := foldr Z.add 0 l.

Lemma sum_Z_cons x l : sum_Z (x :: l) = x + sum_Z l.
Proof. done. Qed.

Lemma sum_Z_app l k : sum_Z (l ++ k) = sum_Z l + sum_Z k.
Proof. induction l; simpl; lia. Qed.

Lemma sum_Z_nonneg l : Forall (λ x, 0 ≤ x) l → 0 ≤ sum_Z l.
Proof. induction 1; simpl; lia. Qed.

Lemma sum_Z_const c l : Forall (λ x, x = c) l → sum_Z l = Z.of_nat (length l) * c.
Proof. induction 1; simpl; lia. Qed.

Lemma sum_Z_u64_nonneg {A} (f : A → Z) l :
  Forall (λ x, is_u64 (f x)) l → 0 ≤ sum_Z (f <$> l).
Proof. induction 1; [done|]. rewrite fmap_cons. simpl in *. unfold sum_Z in *. lia. Qed.

(** ** Indexed lists *)
Lemma forall_lookup_cons {A} (P : nat → A → Prop) (i : nat) (x : A) (l : list A) :
  (∀ j y, (x :: l) !! j = Some y → P (i + j)%nat y) ↔
  P i x ∧ (∀ j y, l !! j = Some y → P (S i + j)%nat y).
Proof.
  split.
  - intros H. split; [rewrite <- (Nat.add_0_r i); by apply (H 0%nat)|].
    intros j y Hj. replace (S i + j)%nat with (i + S j)%nat by lia. by apply (H (S j)).
  - intros [H0 H] [|j] y Hj; [rewrite Nat.add_0_r; simpl in Hj; congruence|].
    replace (i + S j)%nat with (S i + j)%nat by lia. by apply H.
Qed.

Lemma lookup_seqZ_fmap {A} (f : Z → A) (a n : Z) (i : nat) :
  Z.of_nat i < n → (f <$> seqZ a n) !! i = Some (f (a + Z.of_nat i)).
Proof. intros Hi. rewrite list_lookup_fmap, lookup_seqZ_lt by lia. done. Qed.

(** ** Automation

    [go] resolves the range goals machine integers leave behind and rewrites the
    lengths of encoded fields. *)
Create HintDb go.

#[export] Hint Resolve u32_range u64_range i64_range byte_to_Z_range le_decode_range
  sum_Z_nonneg sum_Z_u64_nonneg : go.
#[export] Hint Rewrite @length_app @length_le_encode @length_hash_bytes @length_fmap : go.
#[export] Hint Rewrite byte_to_of_Z byte_of_to_Z mk_hash_bytes ERR_of_number_number : go.

(** Lengths of serialised records, and goals about them. *)
Ltac go_length := autorewrite with go; first [done | simpl; lia].
