(* ===== verification/External.v ===== *)
(** * Code outside the repository

    The third-party packages the modelled code calls are operations of type
    classes; what the code relies on is stated as laws of a companion class.
    Each law is the documented behaviour of the package.  At the end of the
    file every class has one concrete model, so that the theorems that assume
    the laws can be applied to concrete inputs. *)

From S2P Require Import Prelude.

(** github.com/bsv-blockchain/go-safe-conversion: checked narrowing. *)
Class SafeConversion := {
  BigWordToUint32 : Z → result Z;
  UintToUint32 : Z → result Z;
  Int64ToUint32 : Z → result Z;
  Uint32ToInt32 : Z → result Z;
}.

Class SafeConversionSpec (S : SafeConversion) : Prop := {
  BigWordToUint32_fits w : is_u32 w → BigWordToUint32 w = Ok w;
  UintToUint32_fits w : is_u32 w → UintToUint32 w = Ok w;
  UintToUint32_overflow w : 2^32 ≤ w → ∃ e, UintToUint32 w = Err e;
  Int64ToUint32_fits w : is_u32 w → Int64ToUint32 w = Ok w;
  Int64ToUint32_misfit w : w < 0 ∨ 2^32 ≤ w → ∃ e, Int64ToUint32 w = Err e;
  Uint32ToInt32_fits w : 0 ≤ w < 2^31 → Uint32ToInt32 w = Ok w;
  Uint32ToInt32_overflow w : 2^31 ≤ w → ∃ e, Uint32ToInt32 w = Err e;
}.

(** github.com/bsv-blockchain/go-bt/v2: byte order reversal. *)
Class GoBT := { ReverseBytes : list byte → list byte }.
Class GoBTSpec (G : GoBT) : Prop := {
  ReverseBytes_spec l : ReverseBytes l = rev l
}.

(** github.com/bsv-blockchain/go-bt/v2/chainhash: double SHA-256, single
    SHA-256 and the length-checked constructor. *)
Class Chainhash := {
  DoubleHashH : list byte → Hash;
  HashH : list byte → Hash;
  NewHash : list byte → result Hash;
}.

Class ChainhashSpec (C : Chainhash) : Prop := {
  NewHash_ok l (H : length l = 32%nat) : NewHash l = Ok (mk_hash l H);
  NewHash_bad l : length l ≠ 32%nat → ∃ e, NewHash l = Err e;
}.

Lemma NewHash_hash_bytes `{ChainhashSpec} h : NewHash (hash_bytes h) = Ok h.
Proof.
  rewrite (NewHash_ok _ (length_hash_bytes h)). by rewrite mk_hash_bytes.
Qed.

(** ** The standard library's SHA-256. *)
Class Crypto := { sha256_Sum256 : list byte → Hash }.

(** util/sha256d.go *)
Definition Sha256d `{Crypto} (b : list byte) : list byte :=
  let first := sha256_Sum256 b in
  let second := sha256_Sum256 (hash_bytes first) in
  hash_bytes second.

(** ** github.com/bsv-blockchain/go-bt/v2: transactions

    The fields of [bt.Input], [bt.Output] and [bt.Tx] the modelled code reads;
    a script pointer may be nil, and so may an output pointer. *)
Record TxInput := mkInput {
  PreviousTxID : Hash;
  PreviousTxOutIndex : Z;
  PreviousTxSatoshis : Z;
  PreviousTxScript : option (list byte);
  UnlockingScript : option (list byte);
  SequenceNumber : Z;
}.

Record TxOutput := mkOutput {
  Satoshis : Z;
  LockingScript : option (list byte);
}.

Record Tx := mkTx {
  TxVersion : Z;
  Inputs : list TxInput;
  Outputs : list (option TxOutput);
  LockTime : Z;
}.

(** The methods of [bt.Tx] and [bt.VarInt] the code calls.  [IsExtended] and
    [IsCoinbase] are documented predicates, [VarIntBytes] is the
    variable-length integer encoding. *)
Class BtTx := {
  TxIDChainHash : Tx → Hash;
  IsCoinbase : Tx → bool;
  IsExtended : Tx → bool;
  TxSize : Tx → Z;
  ExtendedBytes : Tx → list byte;
  VarIntBytes : Z → list byte;
}.

(** bt.DefaultSequenceNumber: an input that opts out of lock times. *)
Definition DefaultSequenceNumber : Z := 0xffffffff.

(** bscript opcodes. *)
Definition OpFALSE : byte := Byte.x00.
Definition OpRETURN : byte := Byte.x6a.
Definition Op0 : Z := 0x00.
Definition OpPUSHDATA1 : Z := 0x4c.
Definition OpPUSHDATA2 : Z := 0x4d.
Definition OpPUSHDATA4 : Z := 0x4e.
Definition OpCHECKSIG : Z := 0xac.
Definition OpCHECKSIGVERIFY : Z := 0xad.
Definition OpCHECKMULTISIG : Z := 0xae.
Definition OpCHECKMULTISIGVERIFY : Z := 0xaf.
Definition OpINVALIDOPCODE : Z := 0xff.

(** ** github.com/bsv-blockchain/go-subtree: its sentinel hashes, and the parent
    outpoints of a transaction's inputs, grouped by parent. *)
Class Subtree := {
  CoinbasePlaceholderHashValue : Hash;
  FrozenBytesTxHash : Hash;
  GetParentTxHashes : list TxInput → list Hash;
  GetTxInpoints : list TxInput → list (Hash * Z);
}.

Class SubtreeSpec (S : Subtree) : Prop := {
  GetParentTxHashes_spec ins h :
    h ∈ GetParentTxHashes ins ↔ h ∈ map PreviousTxID ins;
  GetTxInpoints_spec ins h v :
    (h, v) ∈ GetTxInpoints ins ↔ (h, v) ∈ map (λ i, (PreviousTxID i, PreviousTxOutIndex i)) ins;
}.

(** ** github.com/bitcoin-sv/bdk: the native transaction validator

    What [errors.As] finds in an engine error: an ABI error, the code of a DoS
    error, the code of a script error; and whether its text is non-empty. *)
Record BdkError := mkBdkError {
  as_abi : bool;
  as_dos : option Z;
  as_script : option Z;
  has_text : bool;
}.

Class BdkEngine := {
  NativeValidate (extendedTX : list byte) (utxoHeights : list Z) (blockHeight : Z)
    (consensus : bool) : option BdkError;
  DOS_ERR_OK : Z; DOS_ERR_COUNT : Z;
  DOS_ERR_NOT_STANDARD : Z; DOS_ERR_SIGOPS_POLICY : Z;
  DOS_ERR_NOT_FREE_CONSOLIDATION : Z; DOS_ERR_INSUFFICIENT_FEE : Z;
  SCRIPT_ERR_CGO_EXCEPTION : Z; SCRIPT_ERR_OP_COUNT : Z;
  SCRIPT_ERR_SCRIPTNUM_MINENCODE : Z; SCRIPT_ERR_SCRIPT_SIZE : Z;
  SCRIPT_ERR_PUBKEY_COUNT : Z; SCRIPT_ERR_STACK_SIZE : Z;
}.

(** ** Concrete models

    A 32-byte "hash" that reduces its argument modulo a 256-bit prime, and
    identity conversions with their range checks. *)
Definition model_hash (l : list byte) : Hash := hash_of_Z (le_decode l mod (2^256 - 189)).

Definition model_Chainhash : Chainhash := {|
  DoubleHashH := model_hash;
  HashH := model_hash;
  NewHash l := match decide (length l = 32%nat) with
               | left H => Ok (mk_hash l H)
               | right _ => Err (err ERR_ERROR)
               end
|}.

Lemma model_Chainhash_spec : ChainhashSpec model_Chainhash.
Proof.
  split; intros l; simpl.
  - intros H. destruct (decide _) as [H'|]; [|done]. f_equal. by apply hash_bytes_inj.
  - intros H. destruct (decide _); [done|eauto].
Qed.

Definition to_u32 (z : Z) : result Z :=
  if (0 <=? z) && (z <? 2^32) then Ok z else Err (err ERR_ERROR).

Definition model_SafeConversion : SafeConversion :=
  {| BigWordToUint32 := to_u32; UintToUint32 := to_u32; Int64ToUint32 := to_u32;
     Uint32ToInt32 z := if z <? 2^31 then Ok z else Err (err ERR_ERROR) |}.

Lemma to_u32_fits z : is_u32 z → to_u32 z = Ok z.
Proof. intros. unfold to_u32. case_match; [done|]. lia. Qed.
Lemma to_u32_misfit z : z < 0 ∨ 2^32 ≤ z → ∃ e, to_u32 z = Err e.
Proof. intros. unfold to_u32. case_match; [lia|eauto]. Qed.

Lemma model_SafeConversion_spec : SafeConversionSpec model_SafeConversion.
Proof.
  split; simpl; auto using to_u32_fits, to_u32_misfit; intros w Hw.
  - by rewrite (proj2 (Z.ltb_lt _ _)) by lia.
  - rewrite (proj2 (Z.ltb_ge _ _)) by lia. eauto.
Qed.

Definition model_GoBT : GoBT := {| ReverseBytes := @rev byte |}.
Lemma model_GoBT_spec : GoBTSpec model_GoBT.
Proof. by split. Qed.

Definition model_Subtree : Subtree :=
  {| CoinbasePlaceholderHashValue := hash_of_Z (2^256 - 1);
     FrozenBytesTxHash := hash_of_Z (2^256 - 1);
     GetParentTxHashes := map PreviousTxID;
     GetTxInpoints := map (λ i, (PreviousTxID i, PreviousTxOutIndex i)) |}.
Lemma model_Subtree_spec : SubtreeSpec model_Subtree.
Proof. by split. Qed.

Definition model_Crypto : Crypto := {| sha256_Sum256 := model_hash |}.

(** An identifier made of the version and lock time, extended when every input
    carries its script, coinbase when the only input spends the zero hash. *)
Definition model_BtTx : BtTx := {|
  TxIDChainHash tx := hash_of_Z (TxVersion tx + 2^32 * LockTime tx);
  IsCoinbase tx :=
    match Inputs tx with
    | [i] => bool_decide (PreviousTxID i = zero_hash)
    | _ => false
    end;
  IsExtended tx := forallb (λ i, bool_decide (is_Some (PreviousTxScript i))) (Inputs tx);
  TxSize tx := 10 + 41 * Z.of_nat (length (Inputs tx)) + 9 * Z.of_nat (length (Outputs tx));
  ExtendedBytes tx := le_encode 4 (TxVersion tx);
  VarIntBytes z := le_encode 9 z
|}.

(** An engine that refuses transactions of version 13 with DoS code 3, and
    everything else not at all. *)
Definition model_Bdk : BdkEngine := {|
  NativeValidate ext _ _ _ :=
    if le_decode ext =? 13 then Some (mkBdkError false (Some 3) None true) else None;
  DOS_ERR_OK := 0; DOS_ERR_COUNT := 40; DOS_ERR_NOT_STANDARD := 20;
  DOS_ERR_SIGOPS_POLICY := 21; DOS_ERR_NOT_FREE_CONSOLIDATION := 22;
  DOS_ERR_INSUFFICIENT_FEE := 23; SCRIPT_ERR_CGO_EXCEPTION := 99;
  SCRIPT_ERR_OP_COUNT := 1; SCRIPT_ERR_SCRIPTNUM_MINENCODE := 2;
  SCRIPT_ERR_SCRIPT_SIZE := 3; SCRIPT_ERR_PUBKEY_COUNT := 4;
  SCRIPT_ERR_STACK_SIZE := 5
|}.
