(* ===== verification/NBits.v ===== *)
(** * Compact difficulty encodings and proof-of-work amounts

    model/NBit.go ([NBit], [CalculateTarget]), the compact conversions of
    services/blockchain/Difficulty.go ([BigToCompact], [CompactToBig]) and
    services/blockchain/work/work.go ([CalcBlockWork], [CalculateWork],
    [CompareChainWork]).  [big.Int] values are [Z]; [uint32] and [uint64]
    values are [Z] with the wrap-around written out.  The conversions of
    go-safe-conversion and go-bt's [ReverseBytes] are not part of the
    repository: they are the operations of two classes, with their documented
    behaviour as laws. *)

From S2P Require Import Prelude External.

(** ** model/NBit.go *)

(** [type NBit [4]byte], little endian. *)
Record NBit := mkNBit { nb0 : byte; nb1 : byte; nb2 : byte; nb3 : byte }.

#[export] Instance NBit_eq_dec : EqDecision NBit.
Proof. solve_decision. Defined.

Definition NewNBitFromSlice (nBits : list byte) : result NBit :=
  match nBits with
  | [a; b; c; d] => Ok (mkNBit a b c d)
  | _ => Err (err ERR_INVALID_ARGUMENT)
  end.

Definition CloneBytes (b : NBit) : list byte := [nb0 b; nb1 b; nb2 b; nb3 b].

(** [binary.LittleEndian.Uint32(b[:])] *)
Definition nbit_u32 (b : NBit) : Z := le_decode (CloneBytes b).

Definition CalculateTarget (b : NBit) : Z :=
  let nb := nbit_u32 b in
  let exponent := Z.shiftr nb 24 in
  let mantissa := Z.land nb 0x007FFFFF in
  let malformed :=
    negb (mantissa =? 0) &&
      (negb (Z.land nb 0x00800000 =? 0) ||
       ((exponent >? 34) ||
        ((mantissa >? 0xff) && (exponent >? 33)) ||
        ((mantissa >? 0xffff) && (exponent >? 32)))) in
  if malformed then 0
  else if exponent <=? 3
  then Z.shiftr mantissa (8 * (3 - exponent))
  else Z.shiftl mantissa (8 * (exponent - 3)).

(** ** services/blockchain/Difficulty.go: compact conversions *)

(** [len(n.Bytes())]: the byte length of the magnitude of [n]. *)
Definition byte_len (n : Z) : Z :=
  if n =? 0 then 0 else Z.log2 (Z.abs n) / 8 + 1.

(** [n.Bits()[0]]: the low 64-bit word of the magnitude of a non-zero [n]. *)
Definition big_word0 (n : Z) : Z := u64 (Z.abs n).

Definition CompactToBig (compact : Z) : Z :=
  let mantissa := Z.land compact 0x007fffff in
  let isNegative := negb (Z.land compact 0x00800000 =? 0) in
  let exponent := Z.shiftr compact 24 in
  let bn := if exponent <=? 3
            then Z.shiftr mantissa (8 * (3 - exponent))
            else Z.shiftl mantissa (8 * (exponent - 3)) in
  if isNegative then - bn else bn.

Definition uint32ToBytes (value : Z) : list byte := le_encode 4 value.

Section Conversions.
  Context {SC : SafeConversion}.

Definition BigToCompact (n : Z) : result Z :=
  if n =? 0 then Ok 0 else
  let exponent := byte_len n in
  let? mantissa :=
    if exponent <=? 3 then
      let? m := BigWordToUint32 (big_word0 n) in
      Ok (u32 (Z.shiftl m (8 * (3 - exponent))))
    else
      let tn := Z.shiftr n (8 * (exponent - 3)) in
      if negb (tn =? 0) then BigWordToUint32 (big_word0 tn) else Ok 0 in
  let '(mantissa, exponent) :=
    if negb (Z.land mantissa 0x00800000 =? 0)
    then (Z.shiftr mantissa 8, exponent + 1)
    else (mantissa, exponent) in
  let? exponentUint32 := UintToUint32 (u64 (Z.shiftl exponent 24)) in
  let compact := Z.lor exponentUint32 mantissa in
  Ok (if n <? 0 then Z.lor compact 0x00800000 else compact).

End Conversions.

(** ** services/blockchain/work/work.go *)

Definition CalcBlockWork (bits : Z) : Z :=
  let bytesLittleEndian :=
    [byte_of_Z bits; byte_of_Z (Z.shiftr bits 8);
     byte_of_Z (Z.shiftr bits 16); byte_of_Z (Z.shiftr bits 24)] in
  match NewNBitFromSlice bytesLittleEndian with
  | Err _ => 0
  | Ok nBit =>
      let target := CalculateTarget nBit in
      if target <=? 0 then 0
      else Z.shiftl 1 256 / (target + 1)
  end.

(** [CompareChainWork]: -1, 0 or +1. *)
Definition CompareChainWork (a b : list byte) : Z :=
  match be_decode a ?= be_decode b with Lt => -1 | Eq => 0 | Gt => 1 end.

(** [newWork.Bytes()]: minimal big-endian magnitude. *)
Definition big_bytes (n : Z) : list byte :=
  rev (le_encode (Z.to_nat (byte_len n)) (Z.abs n)).

(** [copy(hash[:], b)] into a zero [[32]byte]. *)
Definition copy_into_hash (b : list byte) : list byte :=
  take 32 b ++ replicate (32 - length b) Byte.x00.

Section Work.
  Context {GB : GoBT}.

(** [prevWork] is a little-endian 32-byte hash. *)
Definition CalculateWork (prevWork : list byte) (nBits : NBit) : result (list byte) :=
  let bits := nbit_u32 nBits in
  let work := CalcBlockWork bits in
  let newWork := be_decode (ReverseBytes prevWork) + work in
  let b := ReverseBytes (big_bytes newWork) in
  Ok (copy_into_hash b).

End Work.

(** * Theorems *)

Lemma nbit_u32_range b : is_u32 (nbit_u32 b).
Proof.
  unfold nbit_u32. pose proof (le_decode_range (CloneBytes b)) as H.
  exact H.
Qed.

Lemma NewNBitFromSlice_bytes b : NewNBitFromSlice (CloneBytes b) = Ok b.
Proof. by destruct b. Qed.

Lemma CloneBytes_slice l b : NewNBitFromSlice l = Ok b → CloneBytes b = l.
Proof.
  destruct l as [|? [|? [|? [|? []]]]]; simpl; try done. by intros [= <-].
Qed.

Lemma nbit_of_u32 c : is_u32 c →
  ∃ b, NewNBitFromSlice (uint32ToBytes c) = Ok b ∧ nbit_u32 b = c.
Proof.
  intros Hc. eexists. split; [reflexivity|].
  unfold nbit_u32. cbn [CloneBytes nb0 nb1 nb2 nb3].
  apply (le_decode_encode_small 4). lia.
Qed.

(** Bit masks as arithmetic. *)
Lemma land_mask n k m : m = 2^k - 1 → 0 ≤ k → Z.land n m = n mod 2^k.
Proof.
  intros -> Hk. rewrite <- Z.land_ones by lia. f_equal.
  rewrite Z.ones_equiv. lia.
Qed.

(** The number a mantissa and an exponent stand for. *)
Definition scale (e m : Z) : Z := m * 256 ^ e / 256 ^ 3.

Lemma pow256 k : 0 ≤ k → 256 ^ k = 2 ^ (8 * k).
Proof. intros. change 256 with (2^8). by rewrite <- Z.pow_mul_r by lia. Qed.

Lemma shift_scale e m : 0 ≤ e → 0 ≤ m →
  (if e <=? 3 then Z.shiftr m (8 * (3 - e)) else Z.shiftl m (8 * (e - 3)))
  = scale e m.
Proof.
  intros He Hm. unfold scale. destruct (Z.leb_spec e 3).
  - rewrite Z.shiftr_div_pow2, <- pow256 by lia.
    assert (0 < 256 ^ e) by (apply Z.pow_pos_nonneg; lia).
    replace (256 ^ 3) with (256 ^ (3 - e) * 256 ^ e)
      by (rewrite <- Z.pow_add_r by lia; f_equal; lia).
    rewrite Z.div_mul_cancel_r; [done| |lia].
    pose proof (Z.pow_pos_nonneg 256 (3 - e)); lia.
  - rewrite Z.shiftl_mul_pow2, <- pow256 by lia.
    replace (256 ^ e) with (256 ^ (e - 3) * 256 ^ 3)
      by (rewrite <- Z.pow_add_r by lia; f_equal; lia).
    rewrite Z.mul_assoc, Z.div_mul; lia.
Qed.

Lemma scale_nonneg e m : 0 ≤ e → 0 ≤ m → 0 ≤ scale e m.
Proof.
  intros. unfold scale. apply Z.div_pos; [|lia].
  apply Z.mul_nonneg_nonneg; [lia|]. apply Z.pow_nonneg. lia.
Qed.

(** The three fields of a compact word. *)
Lemma compact_fields c : is_u32 c →
  c = Z.shiftr c 24 * 2^24 + (if Z.testbit c 23 then 2^23 else 0) + c mod 2^23
  ∧ 0 ≤ Z.shiftr c 24 < 256 ∧ 0 ≤ c mod 2^23 < 2^23.
Proof.
  intros Hc. rewrite Z.shiftr_div_pow2 by lia.
  split; [|split; [split; [apply Z.div_pos|apply Z.div_lt_upper_bound]; lia
                  |apply Z.mod_pos_bound; lia]].
  rewrite Z.testbit_odd, Z.shiftr_div_pow2 by lia.
  pose proof (Z.div_mod c (2^23) ltac:(lia)) as H1.
  pose proof (Z.div_mod (c / 2^23) 2 ltac:(lia)) as H2.
  rewrite Z.div_div in H2 by lia. change (2^23 * 2) with (2^24) in H2.
  rewrite Zmod_odd in H2. destruct (Z.odd (c / 2^23)); lia.
Qed.

(** The thresholds of [CalculateTarget] are exactly "does not fit in 256 bits". *)
Lemma mul_pow_ltb m k P : 0 < P → 0 < k → (m * P <? k * P) = (m <? k).
Proof.
  intros HP Hk. destruct (Z.ltb_spec m k).
  - apply Z.ltb_lt, Z.mul_lt_mono_pos_r; lia.
  - apply Z.ltb_ge, Z.mul_le_mono_nonneg_r; lia.
Qed.

Lemma overflow_thresholds e m : 0 ≤ e < 256 → 0 < m < 2^23 →
  ((e >? 34) || ((m >? 0xff) && (e >? 33)) || ((m >? 0xffff) && (e >? 32)))
  = negb (scale e m <? 2^256).
Proof.
  intros He Hm. rewrite <- shift_scale by lia.
  assert (∀ k, k < e → 3 ≤ k →
    e < 35 ∧ (m * 256 ^ (e - 3) <? 2^256) = (m * 256 ^ (e - 3) <? 256 ^ (35 - e) * 256 ^ (e - 3))
    ∨ 35 ≤ e) as Hpow.
  { intros k Hk Hk3. destruct (Z.le_gt_cases 35 e); [auto|left].
    split; [done|]. f_equal. rewrite <- Z.pow_add_r by lia. change 2 with (2^1) at 1.
    rewrite <- Z.pow_mul_r by lia. change 256 with (2^8) at 2.
    rewrite <- Z.pow_mul_r by lia. f_equal. lia. }
  assert (∀ k, 0 ≤ k → 0 < 256 ^ k) as Hpos by (intros; apply Z.pow_pos_nonneg; lia).
  destruct (Z.leb_spec e 3) as [H3|H3].
  - assert (e >? 34 = false) as -> by lia.
    assert (e >? 33 = false) as -> by lia.
    assert (e >? 32 = false) as -> by lia.
    rewrite !andb_false_r. simpl.
    assert (Z.shiftr m (8 * (3 - e)) ≤ m) as Hle.
    { rewrite Z.shiftr_div_pow2 by lia.
      apply Z.div_le_upper_bound; [apply Z.pow_pos_nonneg; lia|].
      pose proof (Z.pow_pos_nonneg 2 (8 * (3 - e))) as Hp.
      generalize dependent (2 ^ (8 * (3 - e))). intros. nia. }
    assert (2^23 < 2^256) by (apply Z.pow_lt_mono_r; lia).
    symmetry. apply negb_false_iff, Z.ltb_lt. lia.
  - rewrite Z.shiftl_mul_pow2, <- pow256 by lia.
    destruct (Hpow 3 ltac:(lia) ltac:(lia)) as [[He35 ->]|He35].
    + destruct (Z.le_gt_cases e 31) as [H31|H31].
      * assert (e >? 34 = false) as -> by lia.
        assert (e >? 33 = false) as -> by lia.
        assert (e >? 32 = false) as -> by lia.
        rewrite !andb_false_r. simpl. symmetry. apply negb_false_iff.
        rewrite mul_pow_ltb by (apply Hpos; lia). apply Z.ltb_lt.
        apply Z.lt_le_trans with (256^3); [lia|apply Z.pow_le_mono_r; lia].
      * rewrite mul_pow_ltb by (apply Hpos; lia).
        assert (e = 32 ∨ e = 33 ∨ e = 34) as [-> | [-> | ->]] by lia.
        -- change (256 ^ (35 - 32)) with (2^24). simpl. rewrite !andb_false_r. lia.
        -- change (256 ^ (35 - 33)) with 65536. simpl.
           rewrite andb_false_r, andb_true_r. lia.
        -- change (256 ^ (35 - 34)) with 256. simpl. rewrite !andb_true_r. lia.
    + assert (e >? 34 = true) as -> by lia. simpl. symmetry.
      apply negb_true_iff, Z.ltb_ge.
      assert (2^256 ≤ 256 ^ (e - 3)) as Hle.
      { change (2^256) with (256^32). apply Z.pow_le_mono_r; lia. }
      pose proof (Hpos (e - 3) ltac:(lia)) as Hp.
      revert Hle Hp. generalize (256 ^ (e - 3)) (2^256). intros. nia.
Qed.

Lemma CalculateTarget_eq b :
  CalculateTarget b =
    let v := scale (nbit_u32 b / 2^24) (nbit_u32 b mod 2^23) in
    if Z.testbit (nbit_u32 b) 23 then 0 else if v <? 2^256 then v else 0.
Proof.
  pose proof (nbit_u32_range b) as Hr. pose proof (compact_fields _ Hr) as (_ & He & Hm).
  unfold CalculateTarget. revert Hr He Hm. generalize (nbit_u32 b) as nb. clear b.
  intros nb Hr He Hm.
  rewrite (land_mask nb 23 0x7fffff) by lia.
  change 0x00800000 with (2^23). rewrite land_bit_zero, negb_involutive by lia.
  rewrite shift_scale by lia.
  rewrite <- Z.shiftr_div_pow2 by lia. set (e := Z.shiftr nb 24) in *.
  set (m := nb mod 2^23) in *. cbv zeta.
  destruct (Z.eqb_spec m 0) as [H0|H0]; cbn [negb andb].
  - rewrite H0. unfold scale. rewrite Z.mul_0_l, Z.div_0_l by lia.
    by destruct (Z.testbit nb 23).
  - destruct (Z.testbit nb 23); cbn [negb orb]; [done|].
    rewrite overflow_thresholds by lia.
    by destruct (scale e m <? 2^256).
Qed.

Lemma CalculateTarget_range b : 0 ≤ CalculateTarget b < 2^256.
Proof.
  rewrite CalculateTarget_eq. cbv zeta.
  pose proof (nbit_u32_range b) as Hr.
  assert (0 ≤ scale (nbit_u32 b / 2^24) (nbit_u32 b mod 2^23)).
  { apply scale_nonneg; [apply Z.div_pos|apply Z.mod_pos_bound]; lia. }
  destruct (Z.testbit _ _); [lia|]. case_match eqn:E; lia.
Qed.

Lemma CompactToBig_spec c : is_u32 c →
  CompactToBig c =
    (if Z.testbit c 23 then -1 else 1) * scale (c / 2^24) (c mod 2^23).
Proof.
  intros Hc. pose proof (compact_fields _ Hc) as (_ & He & Hm).
  unfold CompactToBig. rewrite (land_mask c 23 0x7fffff) by lia.
  change 0x00800000 with (2^23). rewrite land_bit_zero, negb_involutive by lia.
  rewrite shift_scale by lia. rewrite Z.shiftr_div_pow2 by lia.
  destruct (Z.testbit c 23); lia.
Qed.

(** The target of a compact word is [mantissa * 256^(exponent - 3)], rounded
    down, when the sign bit is clear and that number fits in 256 bits, and 0
    otherwise; and it is what the block-assembly decoder [CompactToBig] gives
    for the same word, cut to the 256-bit non-negative range. *)
Theorem CalculateTarget_spec b :
  CalculateTarget b =
    (let v := scale (nbit_u32 b / 2^24) (nbit_u32 b mod 2^23) in
     if Z.testbit (nbit_u32 b) 23 then 0 else if v <? 2^256 then v else 0) ∧
  CalculateTarget b =
    (let v := CompactToBig (nbit_u32 b) in
     if (0 <=? v) && (v <? 2^256) then v else 0).
Proof.
  split; [apply CalculateTarget_eq|].
  pose proof (nbit_u32_range b) as Hr.
  rewrite CalculateTarget_eq, CompactToBig_spec by done. cbv zeta.
  assert (0 ≤ scale (nbit_u32 b / 2^24) (nbit_u32 b mod 2^23)).
  { apply scale_nonneg; [apply Z.div_pos|apply Z.mod_pos_bound]; lia. }
  destruct (Z.testbit _ _).
  - case_match eqn:E; [|done]. apply andb_prop in E as [E _].
    apply Z.leb_le in E. lia.
  - rewrite Z.mul_1_l. assert (0 <=? scale (nbit_u32 b / 2^24) (nbit_u32 b mod 2^23) = true)
      as -> by lia. done.
Qed.

Lemma byte_len_bounds n : 0 < n →
  0 < byte_len n ∧ 256 ^ (byte_len n - 1) ≤ n < 256 ^ byte_len n.
Proof.
  intros Hn. unfold byte_len. rewrite Z.abs_eq by lia.
  destruct (Z.eqb_spec n 0); [lia|].
  pose proof (Z.log2_nonneg n). pose proof (Z.log2_spec n Hn) as [Hlo Hhi].
  pose proof (Z.div_mod (Z.log2 n) 8 ltac:(lia)) as Hd.
  pose proof (Z.mod_pos_bound (Z.log2 n) 8 ltac:(lia)).
  assert (0 ≤ Z.log2 n / 8) by (apply Z.div_pos; lia).
  split; [lia|]. rewrite !pow256 by lia. split.
  - eapply Z.le_trans; [|exact Hlo]. apply Z.pow_le_mono_r; lia.
  - eapply Z.lt_le_trans; [exact Hhi|]. apply Z.pow_le_mono_r; lia.
Qed.

(** Packing an exponent and a 23-bit mantissa. *)
Lemma pack_fields e m : 0 ≤ e < 256 → 0 ≤ m < 2^23 →
  let c := Z.lor (Z.shiftl e 24) m in
  is_u32 c ∧ c / 2^24 = e ∧ c mod 2^23 = m ∧ Z.testbit c 23 = false.
Proof.
  intros He Hm c. assert (c = e * 2^24 + m) as Hc.
  { subst c. rewrite <- Z.shiftl_mul_pow2 by lia. rewrite <- Z.add_lor_land.
    enough (Z.land (Z.shiftl e 24) m = 0) as -> by lia.
    apply Z.bits_inj'. intros i Hi. rewrite Z.land_spec, Z.bits_0.
    destruct (decide (i < 24)).
    - by rewrite Z.shiftl_spec_low by lia.
    - rewrite <- (Z.mod_small m (2^24)) by lia.
      rewrite Z.mod_pow2_bits_high by lia. apply andb_false_r. }
  rewrite Hc. clear c Hc. split; [lia|]. split; [|split].
  - rewrite Z.div_add_l by lia. rewrite (Z.div_small m) by lia. lia.
  - change (2^24) with (2 * 2^23). rewrite Z.mul_assoc, Z.add_comm, Z.mod_add by lia.
    apply Z.mod_small. lia.
  - rewrite Z.testbit_odd, Z.shiftr_div_pow2 by lia.
    change (2^24) with (2 * 2^23). rewrite Z.mul_assoc, Z.div_add_l by lia.
    rewrite (Z.div_small m) by lia. rewrite Z.add_0_r, Z.odd_mul. apply andb_false_r.
Qed.

Section CompactTheorems.
  Context {SC : SafeConversion} (SCS : SafeConversionSpec SC).
  Context {GB : GoBT} (GBS : GoBTSpec GB).

(** The first mantissa [BigToCompact] computes: the leading three bytes. *)
Lemma BigToCompact_mantissa n : 0 < n →
  let e := byte_len n in
  ∃ m, (if e <=? 3 then
          let? m := BigWordToUint32 (big_word0 n) in
          Ok (u32 (Z.shiftl m (8 * (3 - e))))
        else
          let tn := Z.shiftr n (8 * (e - 3)) in
          if negb (tn =? 0) then BigWordToUint32 (big_word0 tn) else Ok 0) = Ok m
       ∧ 2^16 ≤ m < 2^24
       ∧ m * 256 ^ e ≤ n * 256 ^ 3 < (m + 1) * 256 ^ e
       ∧ (e ≤ 3 → m * 256 ^ e = n * 256 ^ 3 ∧ (256 ^ (3 - e) | m)).
Proof.
  intros Hn e. destruct (byte_len_bounds n Hn) as (He & Hlo & Hhi). fold e in He, Hlo, Hhi.
  assert (0 < 256 ^ (e - 1)) by (apply Z.pow_pos_nonneg; lia).
  assert (256 ^ e = 256 * 256 ^ (e - 1)) as He1
    by (rewrite <- Z.pow_succ_r by lia; f_equal; lia).
  destruct (Z.leb_spec e 3) as [H3|H3].
  - assert (256 ^ e ≤ 256 ^ 3) by (apply Z.pow_le_mono_r; lia).
    assert (256 ^ 3 = 256 ^ (3 - e) * 256 ^ e) as H33
      by (rewrite <- Z.pow_add_r by lia; f_equal; lia).
    assert (0 < 256 ^ (3 - e)) by (apply Z.pow_pos_nonneg; lia).
    assert (big_word0 n = n) as ->.
    { unfold big_word0. rewrite Z.abs_eq, u64_small; lia. }
    rewrite BigWordToUint32_fits by lia. cbn [bindR].
    rewrite Z.shiftl_mul_pow2, <- pow256 by lia.
    assert (n * 256 ^ (3 - e) < 2^24).
    { change (2^24) with (256^3). rewrite H33, (Z.mul_comm (256 ^ (3 - e))).
      apply Z.mul_lt_mono_pos_r; lia. }
    rewrite u32_small by lia.
    exists (n * 256 ^ (3 - e)).
    assert (n * 256 ^ (3 - e) * 256 ^ e = n * 256 ^ 3) as Heq by (rewrite H33; ring).
    repeat split; try lia.
    + change (2^16) with (256^2).
      replace (256^2) with (256 ^ (e - 1) * 256 ^ (3 - e))
        by (rewrite <- Z.pow_add_r by lia; f_equal; lia).
      apply Z.mul_le_mono_nonneg_r; lia.
    + exists n. ring.
  - assert (0 < 256 ^ (e - 3)) as Hp by (apply Z.pow_pos_nonneg; lia).
    cbv zeta. rewrite Z.shiftr_div_pow2, <- pow256 by lia.
    assert (256 ^ e = 256 ^ 3 * 256 ^ (e - 3)) as H33
      by (rewrite <- Z.pow_add_r by lia; f_equal; lia).
    pose proof (Z.div_mod n (256 ^ (e - 3)) ltac:(lia)) as Hdm.
    pose proof (Z.mod_pos_bound n (256 ^ (e - 3)) Hp) as Hmod.
    set (m := n / 256 ^ (e - 3)) in *.
    assert (m < 2^24).
    { subst m. apply Z.div_lt_upper_bound; [lia|]. change (2^24) with (256^3). lia. }
    assert (2^16 ≤ m).
    { subst m. apply Z.div_le_lower_bound; [lia|]. change (2^16) with (256^2).
      rewrite <- Z.pow_add_r by lia. replace (e - 3 + 2) with (e - 1) by lia. lia. }
    destruct (Z.eqb_spec m 0); [lia|]. cbn [negb].
    assert (big_word0 m = m) as ->.
    { unfold big_word0. rewrite Z.abs_eq, u64_small; lia. }
    rewrite BigWordToUint32_fits by lia.
    exists m. split; [done|]. split; [lia|]. split; [|lia].
    rewrite H33. generalize dependent (256 ^ (e - 3)). intros. nia.
Qed.

(** The mantissa and exponent after the sign-bit normalisation. *)
Lemma normalise_mantissa n m0 e0 : 0 < e0 ≤ 32 → 2^16 ≤ m0 < 2^24 →
  m0 * 256 ^ e0 ≤ n * 256 ^ 3 < (m0 + 1) * 256 ^ e0 →
  (e0 ≤ 3 → m0 * 256 ^ e0 = n * 256 ^ 3 ∧ (256 ^ (3 - e0) | m0)) →
  ∃ m e, (if Z.testbit m0 23 then (Z.shiftr m0 8, e0 + 1) else (m0, e0)) = (m, e) ∧
    0 < e ≤ 33 ∧ 2^15 ≤ m < 2^23 ∧
    m * 256 ^ e ≤ n * 256 ^ 3 < (m + 1) * 256 ^ e ∧
    (e < 3 → m * 256 ^ e = n * 256 ^ 3).
Proof.
  intros He Hm Hb Hx.
  assert (Z.testbit m0 23 = (2^23 <=? m0)) as ->.
  { rewrite Z.testbit_odd, Z.shiftr_div_pow2 by lia.
    destruct (Z.leb_spec (2^23) m0).
    - replace (m0 / 2^23) with 1; [done|].
      apply Z.div_unique with (m0 - 2^23); lia.
    - by rewrite Z.div_small by lia. }
  destruct (Z.leb_spec (2^23) m0).
  2: { exists m0, e0. repeat split; lia. }
  rewrite Z.shiftr_div_pow2 by lia. change (2^8) with 256.
  exists (m0 / 256), (e0 + 1). split; [done|].
  assert (256 ^ (e0 + 1) = 256 * 256 ^ e0) as -> by (rewrite Z.pow_add_r by lia; lia).
  assert (0 < 256 ^ e0) by (apply Z.pow_pos_nonneg; lia).
  pose proof (Z.div_mod m0 256 ltac:(lia)). pose proof (Z.mod_pos_bound m0 256 ltac:(lia)).
  assert (2^15 ≤ m0 / 256) by (apply Z.div_le_lower_bound; lia).
  assert (m0 / 256 < 2^23) by (apply Z.div_lt_upper_bound; lia).
  split; [lia|]. split; [lia|]. split.
  - generalize dependent (256 ^ e0). intros. nia.
  - intros Hlt. assert (e0 = 1) as -> by lia. destruct Hx as [Hx1 [k Hk]]; [lia|].
    change (256 ^ (3 - 1)) with (256 * 256) in Hk.
    assert (m0 / 256 = k * 256) as ->.
    { rewrite Hk, Z.mul_assoc, Z.div_mul by lia. done. }
    rewrite <- Hx1, Hk. ring.
Qed.

Lemma BigToCompact_ok n : 0 ≤ n < 2^256 →
  ∃ c b, BigToCompact n = Ok c ∧ NewNBitFromSlice (uint32ToBytes c) = Ok b ∧
    CalculateTarget b ≤ n ∧ (n - CalculateTarget b) * 2^15 ≤ n.
Proof.
  intros [Hn0 Hn]. destruct (Z.eq_dec n 0) as [->|Hnz].
  { exists 0. eexists. split; [done|]. split; [reflexivity|]. vm_compute. split; discriminate. }
  destruct (BigToCompact_mantissa n ltac:(lia)) as (m0 & Hm & Hm0 & Hb & Hx).
  destruct (byte_len_bounds n ltac:(lia)) as (He & Hlo & _).
  unfold BigToCompact. destruct (Z.eqb_spec n 0); [lia|].
  cbv zeta in Hm |- *. rewrite Hm. cbn [bindR].
  set (e0 := byte_len n) in *. clear Hm.
  assert (e0 ≤ 32) as He32.
  { destruct (Z.le_gt_cases e0 32); [done|].
    assert (256^32 ≤ 256 ^ (e0 - 1)) by (apply Z.pow_le_mono_r; lia).
    change (2^256) with (256^32) in Hn. lia. }
  change 0x00800000 with (2^23). rewrite land_bit_zero, negb_involutive by lia.
  destruct (normalise_mantissa n m0 e0) as (m & e & -> & He' & Hm & Hb' & Hx'); [lia..|done|].
  destruct (pack_fields e m ltac:(lia) ltac:(lia)) as (Hc & Hce & Hcm & Hcs).
  assert (Z.shiftl e 24 = e * 2^24) as Hsh by (apply Z.shiftl_mul_pow2; lia).
  rewrite u64_small by (rewrite Hsh; lia).
  rewrite UintToUint32_fits by (rewrite Hsh; lia). cbn [bindR].
  destruct (Z.ltb_spec n 0); [lia|].
  destruct (nbit_of_u32 _ Hc) as (b & Hb1 & Hb2).
  eexists _, b. split; [reflexivity|]. split; [exact Hb1|].
  rewrite CalculateTarget_eq, Hb2, Hce, Hcm, Hcs. cbv zeta.
  assert (scale e m * 256 ^ 3 = m * 256 ^ e) as Hsc.
  { unfold scale. destruct (Z.le_gt_cases 3 e).
    - replace (256 ^ e) with (256 ^ (e - 3) * 256 ^ 3)
        by (rewrite <- Z.pow_add_r by lia; f_equal; lia).
      rewrite Z.mul_assoc, Z.div_mul by lia. done.
    - rewrite Hx' by lia. by rewrite Z.div_mul by lia. }
  assert (0 < 256 ^ e) by (apply Z.pow_pos_nonneg; lia).
  assert (scale e m ≤ n) by lia.
  assert (scale e m <? 2^256 = true) as -> by (apply Z.ltb_lt; lia).
  split; [done|]. generalize dependent (256 ^ e). intros. nia.
Qed.

(** Encoding any 256-bit target succeeds, and decoding the result gives the
    target rounded down by less than one part in 2^15: the encoder never makes a
    target easier. *)
Theorem BigToCompact_rounds_down n : 0 ≤ n < 2^256 →
  ∃ c b, BigToCompact n = Ok c ∧ NewNBitFromSlice (uint32ToBytes c) = Ok b ∧
    CalculateTarget b ≤ n ∧ (n - CalculateTarget b) * 2^15 ≤ n.
Proof.
  apply BigToCompact_ok.
Qed.

(** *** Work *)

Lemma length_CloneBytes b : length (CloneBytes b) = 4%nat.
Proof. done. Qed.

Lemma CalcBlockWork_target b :
  CalcBlockWork (nbit_u32 b) =
    let t := CalculateTarget b in if t =? 0 then 0 else 2^256 / (t + 1).
Proof.
  unfold CalcBlockWork.
  assert ([byte_of_Z (nbit_u32 b); byte_of_Z (Z.shiftr (nbit_u32 b) 8);
           byte_of_Z (Z.shiftr (nbit_u32 b) 16); byte_of_Z (Z.shiftr (nbit_u32 b) 24)]
          = CloneBytes b) as ->.
  { rewrite <- (le_encode_decode_n 4 (CloneBytes b)) by done. fold (nbit_u32 b).
    cbn [le_encode]. rewrite !Z.shiftr_div_pow2 by lia.
    rewrite !Z.div_div by lia. done. }
  rewrite NewNBitFromSlice_bytes. pose proof (CalculateTarget_range b) as [H0 _].
  rewrite Z.shiftl_1_l. cbv zeta.
  destruct (Z.leb_spec (CalculateTarget b) 0), (Z.eqb_spec (CalculateTarget b) 0); [done|lia..|done].
Qed.

(** [(~t / (t + 1)) + 1] over 256-bit words, bitcoin-sv's [GetBlockProof]. *)
Definition GetBlockProof (t : Z) : Z :=
  if t =? 0 then 0 else (2^256 - 1 - t) / (t + 1) + 1.

(** The work of a block is bitcoin-sv's [GetBlockProof] of its target. *)
Theorem CalcBlockWork_GetBlockProof b :
  CalcBlockWork (nbit_u32 b) = GetBlockProof (CalculateTarget b).
Proof.
  rewrite CalcBlockWork_target. unfold GetBlockProof. cbv zeta.
  pose proof (CalculateTarget_range b) as [H0 H1].
  destruct (Z.eqb_spec (CalculateTarget b) 0); [done|].
  replace (2^256) with ((2^256 - 1 - CalculateTarget b) + 1 * (CalculateTarget b + 1)) at 1 by lia.
  by rewrite Z.div_add by lia.
Qed.

Lemma CalcBlockWork_nonneg b : 0 ≤ CalcBlockWork (nbit_u32 b).
Proof.
  rewrite CalcBlockWork_target. pose proof (CalculateTarget_range b). cbv zeta.
  destruct (Z.eqb_spec (CalculateTarget b) 0); [lia|]. apply Z.div_pos; lia.
Qed.

(** A smaller positive target is at least as much work, and any positive
    target is some work. *)
Theorem CalcBlockWork_antitone b1 b2 :
  0 < CalculateTarget b1 ≤ CalculateTarget b2 →
  1 ≤ CalcBlockWork (nbit_u32 b2) ≤ CalcBlockWork (nbit_u32 b1).
Proof.
  intros [H1 H2]. rewrite !CalcBlockWork_target. cbv zeta.
  pose proof (CalculateTarget_range b2) as [_ H3].
  destruct (Z.eqb_spec (CalculateTarget b1) 0), (Z.eqb_spec (CalculateTarget b2) 0); try lia.
  split.
  - apply Z.div_le_lower_bound; lia.
  - apply Z.div_le_compat_l; lia.
Qed.

Lemma le_decode_big_bytes n : 0 ≤ n → le_decode (rev (big_bytes n)) = n.
Proof.
  intros Hn. unfold big_bytes. rewrite rev_involutive, Z.abs_eq by lia.
  apply le_decode_encode_small. destruct (Z.eq_dec n 0) as [->|].
  - split; [lia|]. apply Z.pow_pos_nonneg; lia.
  - pose proof (byte_len_bounds n ltac:(lia)). rewrite Z2Nat.id; lia.
Qed.

Lemma le_decode_copy_into_hash l :
  le_decode (copy_into_hash l) = le_decode l mod 2^256.
Proof.
  unfold copy_into_hash. rewrite le_decode_app, le_decode_zeros, Z.mul_0_r, Z.add_0_r.
  change (2^256) with (256 ^ Z.of_nat 32). apply le_decode_take.
Qed.

(** The chain work of a block is its parent's plus the block's own work, as
    a 32-byte little-endian number (modulo 2^256). *)
Theorem CalculateWork_accumulates prev b :
  ∃ h, CalculateWork prev b = Ok h ∧ length h = 32%nat ∧
    le_decode h = (le_decode prev + CalcBlockWork (nbit_u32 b)) mod 2^256.
Proof.
  unfold CalculateWork. eexists. split; [reflexivity|].
  rewrite !ReverseBytes_spec. unfold be_decode. rewrite rev_involutive.
  pose proof (CalcBlockWork_nonneg b). pose proof (le_decode_range prev).
  split.
  - unfold copy_into_hash. rewrite length_app, length_take, length_replicate. lia.
  - by rewrite le_decode_copy_into_hash, le_decode_big_bytes by lia.
Qed.

End CompactTheorems.

(** ** Concrete inputs *)
Lemma BigToCompact_rounds_down_witness :
  ∃ c b, BigToCompact (SC := model_SafeConversion) 0x123456789 = Ok c ∧
    NewNBitFromSlice (uint32ToBytes c) = Ok b ∧ CalculateTarget b ≤ 0x123456789.
Proof.
  destruct (BigToCompact_rounds_down model_SafeConversion_spec 0x123456789)
    as (c & b & H1 & H2 & H3 & _); [split; [done|by vm_compute]|].
  by exists c, b.
Defined.

Lemma CalcBlockWork_antitone_witness :
  1 ≤ CalcBlockWork (nbit_u32 (mkNBit Byte.xff Byte.xff Byte.x7f Byte.x20))
    ≤ CalcBlockWork (nbit_u32 (mkNBit Byte.xff Byte.xff Byte.x00 Byte.x1d)).
Proof. apply CalcBlockWork_antitone. by vm_compute. Defined.

Lemma CalculateWork_accumulates_witness :
  ∃ h, CalculateWork (GB := model_GoBT) (le_encode 32 10)
         (mkNBit Byte.xff Byte.xff Byte.x7f Byte.x20) = Ok h ∧
       length h = 32%nat ∧ le_decode h = 12.
Proof.
  destruct (CalculateWork_accumulates model_GoBT_spec (le_encode 32 10)
    (mkNBit Byte.xff Byte.xff Byte.x7f Byte.x20)) as (h & H1 & H2 & H3).
  exists h. split; [exact H1|]. split; [exact H2|]. rewrite H3. by vm_compute.
Defined.
