(* ===== verification/BlockHeader.v ===== *)
(** * Block headers

    model/BlockHeader.go: the 80-byte serialisation and its inverse, the
    proof-of-work checks against a header's own target and against the
    network's limit, and the header derived from a mining candidate
    (util/build_merkle_root_from_coinbase.go). *)

From S2P Require Import Prelude External NBits.

(** The fields of go-chaincfg's [Params] the modelled code reads. *)
Record ChainParams := mkParams {
  PowLimit : option Z;
  PowLimitBits : Z;
  NoDifficultyAdjustment : bool;
  ReduceMinDifficulty : bool;
  GenerateSupported : bool;
  IsSTN : bool;                     (* [Net == wire.STN] *)
  TargetTimePerBlock : Z;           (* whole seconds *)
  DaaForkHeight : Z;
  UahfForkHeight : Z;
  BIP0034Height : Z;
  BIP0065Height : Z;
  BIP0066Height : Z;
  CSVHeight : Z;
  GenesisActivationHeight : Z;
  SubsidyReductionInterval : Z;
  MaxCoinbaseScriptSigSize : Z;
  CoinbaseMaturity : Z;
  Checkpoints : list (Z * option Hash);  (* [Height], [Hash] *)
}.

(** [type BlockHeader struct].  A header value of the model carries both hash
    pointers; a nil header and a header missing one of them are made explicit
    where the code tests for them. *)
Record BlockHeader := mkHeader {
  Version : Z;
  HashPrevBlock : Hash;
  HashMerkleRoot : Hash;
  Timestamp : Z;
  Bits : NBit;
  Nonce : Z;
}.

#[export] Instance BlockHeader_eq_dec : EqDecision BlockHeader.
Proof. solve_decision. Defined.

(** The integer fields are [uint32]. *)
Definition header_wf (bh : BlockHeader) : Prop :=
  is_u32 (Version bh) ∧ is_u32 (Timestamp bh) ∧ is_u32 (Nonce bh).

Definition BlockHeaderSize : nat := 80.

Definition Bytes (bh : BlockHeader) : list byte :=
  le_encode 4 (Version bh) ++
  hash_bytes (HashPrevBlock bh) ++
  hash_bytes (HashMerkleRoot bh) ++
  le_encode 4 (Timestamp bh) ++
  CloneBytes (Bits bh) ++
  le_encode 4 (Nonce bh).

Section Header.
  Context {CH : Chainhash} {GB : GoBT} {CR : Crypto}.

Definition NewBlockHeaderFromBytes (headerBytes : list byte) : result BlockHeader :=
  guard? bool_decide (length headerBytes = BlockHeaderSize) else err ERR_PROCESSING in
  let? hashPrevBlock := wrapR ERR_PROCESSING (NewHash (slice 4 36 headerBytes)) in
  let? hashMerkleRoot := wrapR ERR_PROCESSING (NewHash (slice 36 68 headerBytes)) in
  let? nBit := NewNBitFromSlice (slice 72 76 headerBytes) in
  Ok (mkHeader (le_decode (take 4 headerBytes)) hashPrevBlock hashMerkleRoot
        (le_decode (slice 68 72 headerBytes)) nBit (le_decode (drop 76 headerBytes))).

Definition header_hash (bh : BlockHeader) : Hash := DoubleHashH (Bytes bh).

(** The boolean, the hash and the error of [HasMetTargetDifficulty]. *)
Definition HasMetTargetDifficulty (bh : BlockHeader) : bool * Hash * option error :=
  let target := CalculateTarget (Bits bh) in
  let hash := header_hash bh in
  let bn := be_decode (ReverseBytes (hash_bytes hash)) in
  if bn <=? target then (true, hash, None)
  else (false, hash, Some (err ERR_PROCESSING)).

(** [None] is the nil ceiling. *)
Definition PowLimitCeiling (params : option ChainParams) : option Z :=
  match params with
  | None => None
  | Some params =>
      match PowLimit params with
      | None => None
      | Some ceiling =>
          if negb (PowLimitBits params =? 0) then
            match NewNBitFromSlice (le_encode 4 (PowLimitBits params)) with
            | Ok nBit =>
                let bitsTarget := CalculateTarget nBit in
                if bitsTarget >? ceiling then Some bitsTarget else Some ceiling
            | Err _ => Some ceiling
            end
          else Some ceiling
      end
  end.

Definition HasMetPowLimit (bh : option BlockHeader) (params : option ChainParams)
  : result unit :=
  match bh, params with
  | Some bh, Some params =>
      match PowLimit params with
      | None => Ok ()
      | Some _ =>
          let target := CalculateTarget (Bits bh) in
          if target =? 0 then Ok ()
          else match PowLimitCeiling (Some params) with
               | None => Ok ()
               | Some ceiling =>
                   if target >? ceiling then Err (err ERR_BLOCK_INVALID) else Ok ()
               end
      end
  | _, _ => Ok ()
  end.

(** util.BuildMerkleRootFromCoinbase *)
Definition BuildMerkleRootFromCoinbase (coinbaseHash : list byte)
    (merkleBranches : list (list byte)) : list byte :=
  fold_left (λ acc branch, Sha256d (acc ++ branch)) merkleBranches coinbaseHash.

End Header.

(** * Theorems *)

Section HeaderTheorems.
  Context {CH : Chainhash} {GB : GoBT} {CR : Crypto}.
  Context (CHS : ChainhashSpec CH) (GBS : GoBTSpec GB).

Lemma length_Bytes bh : length (Bytes bh) = BlockHeaderSize.
Proof.
  unfold Bytes. go_length.
Qed.

(** The fields of a serialised header, by offset. *)
Ltac slice_field :=
  unfold Bytes;
  repeat first
    [ rewrite (slice_skip 4) by (rewrite ?length_le_encode; done || lia)
    | rewrite (slice_skip 32) by go_length ];
  cbn [Nat.sub]; apply slice_here;
  rewrite ?length_le_encode, ?length_hash_bytes; done.

Lemma Bytes_fields bh :
  slice 4 36 (Bytes bh) = hash_bytes (HashPrevBlock bh) ∧
  slice 36 68 (Bytes bh) = hash_bytes (HashMerkleRoot bh) ∧
  slice 68 72 (Bytes bh) = le_encode 4 (Timestamp bh) ∧
  slice 72 76 (Bytes bh) = CloneBytes (Bits bh) ∧
  take 4 (Bytes bh) = le_encode 4 (Version bh) ∧
  drop 76 (Bytes bh) = le_encode 4 (Nonce bh).
Proof.
  split; [slice_field|]. split; [slice_field|]. split; [slice_field|].
  split; [slice_field|]. split.
  - unfold Bytes. by rewrite take_app_length' by done.
  - unfold Bytes. do 4 rewrite app_assoc. apply drop_app_length'.
    go_length.
Qed.

Lemma NewBlockHeaderFromBytes_Bytes bh :
  header_wf bh → NewBlockHeaderFromBytes (Bytes bh) = Ok bh.
Proof.
  intros (Hv & Ht & Hn). unfold NewBlockHeaderFromBytes.
  rewrite bool_decide_true by apply length_Bytes.
  destruct (Bytes_fields bh) as (-> & -> & -> & -> & -> & ->).
  rewrite !NewHash_hash_bytes. cbn [wrapR bindR].
  rewrite NewNBitFromSlice_bytes. cbn [bindR].
  rewrite !le_decode_encode_small by done. by destruct bh.
Qed.

Lemma Bytes_NewBlockHeaderFromBytes l :
  length l = BlockHeaderSize →
  ∃ bh, NewBlockHeaderFromBytes l = Ok bh ∧ header_wf bh ∧ Bytes bh = l.
Proof.
  intros Hl. unfold BlockHeaderSize in Hl. unfold NewBlockHeaderFromBytes.
  rewrite bool_decide_true by done.
  assert (length (slice 4 36 l) = 32%nat) as Hp by (rewrite length_slice; lia).
  assert (length (slice 36 68 l) = 32%nat) as Hm by (rewrite length_slice; lia).
  assert (length (slice 72 76 l) = 4%nat) as Hb by (rewrite length_slice; lia).
  assert (length (slice 68 72 l) = 4%nat) as Ht by (rewrite length_slice; lia).
  rewrite (NewHash_ok _ Hp), (NewHash_ok _ Hm). cbn [wrapR bindR].
  destruct (NewNBitFromSlice (slice 72 76 l)) as [nb|] eqn:Hnb.
  2: { destruct (slice 72 76 l) as [|? [|? [|? [|? []]]]]; done. }
  cbn [bindR]. eexists. split; [reflexivity|].
  apply CloneBytes_slice in Hnb. split.
  - pose proof (le_decode_range (take 4 l)) as R1.
    pose proof (le_decode_range (slice 68 72 l)) as R2.
    pose proof (le_decode_range (drop 76 l)) as R3.
    rewrite length_take, Nat.min_l in R1 by lia. rewrite Ht in R2.
    rewrite length_drop, Hl in R3. done.
  - unfold Bytes. cbn [Version HashPrevBlock HashMerkleRoot Timestamp Bits Nonce].
    rewrite Hnb. unfold hash_bytes, mk_hash. cbn [proj1_sig].
    rewrite !le_encode_decode_n by (rewrite ?length_take, ?length_drop; lia).
    rewrite <- !slice_split by lia. change (take 4 l) with (take (4 - 0) l).
    apply take_drop.
Qed.

(** Parsing is the exact inverse of serialising: [l] parses to [bh] when and
    only when [bh] has 32-bit fields and serialises to [l]; every 80-byte string
    parses and every other length is refused with a processing error. *)
Theorem NewBlockHeaderFromBytes_spec l :
  (∀ bh, NewBlockHeaderFromBytes l = Ok bh ↔ header_wf bh ∧ Bytes bh = l) ∧
  (length l = BlockHeaderSize → ∃ bh, NewBlockHeaderFromBytes l = Ok bh) ∧
  (length l ≠ BlockHeaderSize → NewBlockHeaderFromBytes l = Err (err ERR_PROCESSING)).
Proof.
  assert (Hbad : length l ≠ BlockHeaderSize →
                 NewBlockHeaderFromBytes l = Err (err ERR_PROCESSING))
    by (intros; unfold NewBlockHeaderFromBytes; by rewrite bool_decide_false).
  split; [|split; [|done]].
  - intros bh. split.
    + intros Hok. destruct (decide (length l = BlockHeaderSize)) as [Hl|Hl].
      * destruct (Bytes_NewBlockHeaderFromBytes l Hl) as (bh' & H & ? & ?).
        rewrite Hok in H. by injection H as ->.
      * rewrite (Hbad Hl) in Hok. done.
    + intros [Hwf <-]. by apply NewBlockHeaderFromBytes_Bytes.
  - intros Hl. destruct (Bytes_NewBlockHeaderFromBytes l Hl) as (bh & ? & _). eauto.
Qed.

(** Two distinct headers never share a serialisation, so only a collision of
    the hash function can give them the same hash. *)
Lemma Bytes_inj bh1 bh2 : header_wf bh1 → header_wf bh2 →
  Bytes bh1 = Bytes bh2 → bh1 = bh2.
Proof.
  intros H1 H2 E. apply NewBlockHeaderFromBytes_Bytes in H1, H2.
  rewrite E in H1. congruence.
Qed.

(** The proof-of-work check returns the header's hash, is positive exactly
    when the hash read as a little-endian number does not exceed the target of
    the header's own bits, and carries an error exactly when negative. *)
Theorem HasMetTargetDifficulty_spec bh :
  let '(ok, h, e) := HasMetTargetDifficulty bh in
  h = header_hash bh ∧ (ok = true ↔ e = None) ∧
  (ok = true ↔ hash_to_Z h ≤ CalculateTarget (Bits bh)).
Proof.
  unfold HasMetTargetDifficulty. rewrite ReverseBytes_spec.
  unfold be_decode. rewrite rev_involutive. fold (hash_to_Z (header_hash bh)).
  destruct (Z.leb_spec (hash_to_Z (header_hash bh)) (CalculateTarget (Bits bh)));
    (split; [done|]); split; split; try done; lia.
Qed.

(** The ceiling is the looser of the two declared limits. *)
Lemma PowLimitCeiling_max params limit : PowLimit params = Some limit →
  is_u32 (PowLimitBits params) → PowLimitBits params ≠ 0 →
  ∃ nb, NewNBitFromSlice (le_encode 4 (PowLimitBits params)) = Ok nb ∧
        PowLimitCeiling (Some params) = Some (Z.max limit (CalculateTarget nb)).
Proof.
  intros Hl Hb Hnz. destruct (nbit_of_u32 _ Hb) as (nb & Hnb & _).
  exists nb. split; [done|]. unfold PowLimitCeiling. rewrite Hl.
  destruct (Z.eqb_spec (PowLimitBits params) 0); [done|]. cbn [negb].
  change (le_encode 4 (PowLimitBits params)) with (uint32ToBytes (PowLimitBits params)).
  rewrite Hnb. f_equal.
  destruct (Z.gtb_spec (CalculateTarget nb) limit); f_equal; lia.
Qed.

(** On a network that declares both forms of its limit, a header is refused
    exactly when its target exceeds the looser of the two. *)
Theorem HasMetPowLimit_spec bh params limit nb :
  PowLimit params = Some limit →
  NewNBitFromSlice (le_encode 4 (PowLimitBits params)) = Ok nb →
  PowLimitBits params ≠ 0 →
  HasMetPowLimit (Some bh) (Some params) =
    if CalculateTarget (Bits bh) <=? Z.max (Z.max limit (CalculateTarget nb)) 0
    then Ok () else Err (err ERR_BLOCK_INVALID).
Proof.
  intros Hl Hnb Hnz. unfold HasMetPowLimit, PowLimitCeiling. rewrite Hl.
  pose proof (CalculateTarget_range (Bits bh)) as [Hr _].
  pose proof (CalculateTarget_range nb) as [Hr' _].
  destruct (Z.eqb_spec (CalculateTarget (Bits bh)) 0) as [H0|H0].
  { rewrite H0. destruct (Z.leb_spec 0 (Z.max (Z.max limit (CalculateTarget nb)) 0)); [done|lia]. }
  destruct (Z.eqb_spec (PowLimitBits params) 0); [done|]. cbn [negb]. rewrite Hnb. cbv zeta.
  destruct (Z.gtb_spec (CalculateTarget nb) limit);
    (case_match eqn:E1; case_match eqn:E2; [|done|done|]; lia).
Qed.

(** util.BuildMerkleRootFromCoinbase *)
Lemma BuildMerkleRootFromCoinbase_app c b1 b2 :
  BuildMerkleRootFromCoinbase c (b1 ++ b2) =
  BuildMerkleRootFromCoinbase (BuildMerkleRootFromCoinbase c b1) b2.
Proof. apply fold_left_app. Qed.

End HeaderTheorems.

(** ** Concrete inputs *)
Definition ex_params : ChainParams := {|
  PowLimit := Some (2^255 - 1); PowLimitBits := 0x207fffff;
  NoDifficultyAdjustment := true; ReduceMinDifficulty := true;
  GenerateSupported := false; IsSTN := false; TargetTimePerBlock := 600;
  DaaForkHeight := 0; UahfForkHeight := 0; BIP0034Height := 2;
  BIP0065Height := 2; BIP0066Height := 2; CSVHeight := 2;
  GenesisActivationHeight := 100; SubsidyReductionInterval := 150;
  MaxCoinbaseScriptSigSize := 100;
  CoinbaseMaturity := 100; Checkpoints := [] |}.

Definition ex_header : BlockHeader :=
  mkHeader 1 zero_hash zero_hash 1000 (mkNBit Byte.xff Byte.xff Byte.x7f Byte.x20) 7.

Lemma NewBlockHeaderFromBytes_spec_witness :
  NewBlockHeaderFromBytes (CH := model_Chainhash) (Bytes ex_header) = Ok ex_header ∧
  NewBlockHeaderFromBytes (CH := model_Chainhash) [Byte.x01] = Err (err ERR_PROCESSING).
Proof.
  split.
  - apply (NewBlockHeaderFromBytes_spec model_Chainhash_spec (Bytes ex_header)).
    split; [|done]. unfold header_wf; simpl; lia.
  - by apply (NewBlockHeaderFromBytes_spec model_Chainhash_spec [Byte.x01]).
Defined.

Lemma HasMetTargetDifficulty_spec_witness :
  ∃ h, HasMetTargetDifficulty (CH := model_Chainhash) (GB := model_GoBT) ex_header
       = (true, h, None) ∧ hash_to_Z h ≤ CalculateTarget (Bits ex_header).
Proof.
  pose proof (HasMetTargetDifficulty_spec (CH := model_Chainhash) model_GoBT_spec ex_header)
    as Hs.
  destruct (HasMetTargetDifficulty ex_header) as [[ok h] e] eqn:E.
  destruct Hs as (_ & He & Ht).
  assert (ok = true) as -> by
    (change ok with (fst (fst (ok, h, e))); rewrite <- E; vm_compute; reflexivity).
  exists h. split; [by rewrite (proj1 He)|by apply Ht].
Defined.

Lemma HasMetPowLimit_spec_witness :
  HasMetPowLimit (Some ex_header) (Some ex_params) = Ok ().
Proof.
  rewrite (HasMetPowLimit_spec ex_header ex_params (2^255 - 1)
    (mkNBit Byte.xff Byte.xff Byte.x7f Byte.x20)); [|done..].
  by vm_compute.
Defined.
