(* ===== verification/MedianTime.v ===== *)
(** * Median time past and the contextual header rules

    model/Block.go: [CalculateMedianTimestamp], [CheckBlockVersion],
    [MedianTimeWindow] and [CheckHeaderContextual].  Times are whole seconds;
    the wall clock [time.Now()] is an argument. *)

From stdpp Require Import sorting.
From stdpp Require Import list.
From S2P Require Import Prelude External NBits BlockHeader.

(** settings.MedianTimeSpan *)
Definition medianTimeBlocks : nat := 11.

(** [sort.Slice] by [Before], then the middle element. *)
Definition CalculateMedianTimestamp (timestamps : list Z) : result Z :=
  let n := length timestamps in
  if bool_decide (n = 0%nat) then Err (err ERR_INVALID_ARGUMENT)
  else match merge_sort Z.le timestamps !! (n / 2)%nat with
       | Some t => Ok t
       | None => Err panic
       end.

(** ** Block versions (BIP34, BIP66, BIP65) *)
Definition heightAtOrAfterActivation (h activation : Z) : bool :=
  if activation <? 0 then false else h >=? activation.

Definition CheckBlockVersion (version height : Z) (params : ChainParams) : result unit :=
  if height =? 0 then Ok () else
  let v := i32 version in
  if ((v <? 2) && heightAtOrAfterActivation height (BIP0034Height params)) ||
     ((v <? 3) && heightAtOrAfterActivation height (BIP0066Height params)) ||
     ((v <? 4) && heightAtOrAfterActivation height (BIP0065Height params))
  then Err (err ERR_BLOCK_INVALID) else Ok ().

(** ** The median-time-past window *)

(** A [*BlockHeader] handed in by a caller: nil, missing one of its two hash
    pointers, or complete. *)
Inductive HeaderRef :=
  | NilHeader
  | PartialHeader (prev : option Hash) (timestamp : Z)
  | FullHeader (h : BlockHeader).

Definition ref_prev (r : HeaderRef) : option Hash :=
  match r with
  | NilHeader => None | PartialHeader p _ => p | FullHeader h => Some (HashPrevBlock h)
  end.

Definition ref_time (r : HeaderRef) : Z :=
  match r with NilHeader => 0 | PartialHeader _ t => t | FullHeader h => Timestamp h end.

Definition is_nil_header (r : HeaderRef) : bool :=
  match r with NilHeader => true | _ => false end.

Section Median.
  Context {CH : Chainhash} {SC : SafeConversion}.

(** [hashableHeader(bh) && bh.Hash().IsEqual(p)] *)
Definition ref_has_hash (r : HeaderRef) (p : Hash) : bool :=
  match r with FullHeader h => bool_decide (header_hash h = p) | _ => false end.

(** One iteration of [verifyMedianWindowLinkage]. *)
Definition verify_link (child parent : HeaderRef) : result unit :=
  match child, parent with
  | FullHeader c, FullHeader p =>
      if bool_decide (HashPrevBlock c = header_hash p) then Ok () else Err (err ERR_PROCESSING)
  | _, _ => Err (err ERR_PROCESSING)
  end.

Fixpoint verifyMedianWindowLinkage (window : list HeaderRef) (newestFirst : bool)
  : result unit :=
  match window with
  | a :: ((b :: _) as rest) =>
      let? _ := if newestFirst then verify_link a b else verify_link b a in
      verifyMedianWindowLinkage rest newestFirst
  | _ => Ok ()
  end.

Definition MedianTimeWindow (prev : option Hash) (currentChain : list HeaderRef)
  : result (list HeaderRef) :=
  let currentChainLength := length currentChain in
  if bool_decide (currentChainLength = 0%nat) then Err (err ERR_BLOCK_HEADER_CONTEXT) else
  let pruneLength := if bool_decide (currentChainLength < medianTimeBlocks)%nat
                     then currentChainLength else medianTimeBlocks in
  match prev with
  | None => Err (err ERR_BLOCK_HEADER_CONTEXT)
  | Some p =>
      let? (window, newestFirst) :=
        if from_option (λ r, ref_has_hash r p) false (head currentChain)
        then Ok (take pruneLength currentChain, true)
        else if from_option (λ r, ref_has_hash r p) false (last currentChain)
        then Ok (drop (currentChainLength - pruneLength) currentChain, false)
        else Err (err ERR_BLOCK_HEADER_CONTEXT) in
      guard? negb (existsb is_nil_header window) else err ERR_BLOCK_HEADER_CONTEXT in
      let? _ := wrapR ERR_BLOCK_HEADER_CONTEXT
                  (verifyMedianWindowLinkage window newestFirst) in
      if bool_decide (pruneLength < medianTimeBlocks)%nat then
        let oldest := if newestFirst : bool then window !! (pruneLength - 1)%nat else head window in
        if bool_decide (oldest ≫= ref_prev = Some zero_hash)
        then Ok window else Err (err ERR_BLOCK_HEADER_CONTEXT)
      else Ok window
  end.

(** The recorded [b.medianTimestamp], when the code assigns it, and the verdict. *)
Definition CheckHeaderContextual (now : Z) (params : ChainParams)
    (hdr : BlockHeader) (height : Z) (currentChain : list HeaderRef)
  : option Z * result unit :=
  match wrapR ERR_PROCESSING (Int64ToUint32 (now + 2 * 60 * 60)) with
  | Err e => (None, Err e)
  | Ok twoHoursToTheFuture =>
      if Timestamp hdr >? twoHoursToTheFuture then (None, Err (err ERR_BLOCK_INVALID)) else
      let version_check :=
        wrapR ERR_BLOCK_INVALID (CheckBlockVersion (Version hdr) height params) in
      match currentChain with
      | [] => (None, version_check)
      | _ =>
          match (let? lastTimeStamps := MedianTimeWindow (Some (HashPrevBlock hdr)) currentChain in
                 let? medianTimestamp := CalculateMedianTimestamp (map ref_time lastTimeStamps) in
                 Int64ToUint32 medianTimestamp) with
          | Err e => (None, Err e)
          | Ok m =>
              if (Timestamp hdr <=? m) && negb (GenerateSupported params)
              then (Some m, Err (err ERR_BLOCK_INVALID))
              else (Some m, version_check)
          end
      end
  end.

(** * Theorems *)

(** A run of headers in which each names the next as its parent, the first
    having hash [p]. *)
Fixpoint linked_from (p : Hash) (hs : list BlockHeader) : Prop :=
  match hs with
  | [] => True
  | h :: hs => header_hash h = p ∧ linked_from (HashPrevBlock h) hs
  end.

(** The run ends at a block whose parent is the zero hash. *)
Definition reaches_genesis (hs : list BlockHeader) : Prop :=
  HashPrevBlock <$> last hs = Some zero_hash.

Lemma verify_link_Ok r1 r2 u : verify_link r1 r2 = Ok u →
  ∃ c p, r1 = FullHeader c ∧ r2 = FullHeader p ∧ HashPrevBlock c = header_hash p.
Proof. destruct r1, r2; simpl; try done. case_bool_decide; naive_solver. Qed.

(** A verified newest-first window that starts with the header of hash [p] is a
    linked run. *)
Lemma verify_newest_Ok w p u :
  from_option (λ r, ref_has_hash r p) false (head w) = true →
  verifyMedianWindowLinkage w true = Ok u →
  ∃ hs, w = FullHeader <$> hs ∧ linked_from p hs.
Proof.
  revert p. induction w as [|a w IH]; intros p Hh Hv; [by exists []|].
  destruct a as [| |a]; simpl in Hh; [done..|]. apply bool_decide_eq_true in Hh.
  destruct w as [|b w]; [by exists [a]|].
  cbn [verifyMedianWindowLinkage] in Hv. invert_ok.
  match goal with H : verify_link _ _ = _ |- _ =>
    apply verify_link_Ok in H as (c & q & [= <-] & -> & Hl) end.
  destruct (IH (HashPrevBlock a)) as (hs & Hw & Hlk); [by simpl; rewrite bool_decide_true|done|].
  exists (a :: hs). rewrite Hw. done.
Qed.

Lemma verify_oldest_snoc w a b u :
  verifyMedianWindowLinkage (w ++ [a; b]) false = Ok u →
  verify_link b a = Ok tt ∧ verifyMedianWindowLinkage (w ++ [a]) false = Ok tt.
Proof.
  induction w as [|c w IH]; cbn [app verifyMedianWindowLinkage].
  - intros. invert_ok. by destruct x.
  - destruct w as [|d w]; cbn [app] in *; intros; invert_ok; destruct x.
    + destruct (IH H) as [? ?]. split; [done|]. by rewrite H0.
    + destruct (IH H) as [? ?]. split; [done|]. by rewrite H0.
Qed.

Lemma verify_oldest_Ok w p u :
  from_option (λ r, ref_has_hash r p) false (last w) = true →
  verifyMedianWindowLinkage w false = Ok u →
  ∃ hs, w = FullHeader <$> rev hs ∧ linked_from p hs.
Proof.
  revert p u. induction w as [|b w IH] using rev_ind; intros p u Hh Hv; [by exists []|].
  rewrite last_snoc in Hh.
  destruct b as [| |b]; simpl in Hh; [done..|]. apply bool_decide_eq_true in Hh.
  destruct w as [|a w _] using rev_ind; [by exists [b]|].
  rewrite <- app_assoc in Hv. apply verify_oldest_snoc in Hv as [Hl Hv].
  apply verify_link_Ok in Hl as (c & q & [= <-] & -> & Hl).
  destruct (IH (HashPrevBlock b) tt) as (hs & Hw & Hlk);
    [by rewrite last_snoc; simpl; rewrite bool_decide_true|done|].
  exists (b :: hs). cbn [rev]. by rewrite fmap_app, <- Hw.
Qed.

Lemma verify_newest_linked hs p : linked_from p hs →
  verifyMedianWindowLinkage (FullHeader <$> hs) true = Ok ().
Proof.
  revert p. induction hs as [|a hs IH]; intros p; [done|].
  destruct hs as [|b hs]; [done|]. intros [_ Hl].
  cbn [fmap list_fmap verifyMedianWindowLinkage verify_link].
  destruct (Hl) as [Hb _]. rewrite bool_decide_true by done. exact (IH _ Hl).
Qed.

Lemma existsb_nil_full hs : existsb is_nil_header (FullHeader <$> hs) = false.
Proof. by induction hs. Qed.

Lemma linked_from_take n hs p : linked_from p hs → linked_from p (take n hs).
Proof.
  revert n p; induction hs as [|h hs IH]; intros [|n] p; simpl; try done.
  intros []; auto.
Qed.

End Median.

Lemma median_Ok l m : CalculateMedianTimestamp l = Ok m →
  merge_sort Z.le l !! (length l / 2)%nat = Some m.
Proof.
  unfold CalculateMedianTimestamp. case_bool_decide; [done|].
  case_match; naive_solver.
Qed.

Lemma median_total l : l ≠ [] → ∃ m, CalculateMedianTimestamp l = Ok m.
Proof.
  intros Hl. unfold CalculateMedianTimestamp.
  assert (length l ≠ 0%nat) by (by destruct l). rewrite bool_decide_false by done.
  destruct (lookup_lt_is_Some_2 (merge_sort Z.le l) (length l / 2)) as [m ->]; [|eauto].
  rewrite (Permutation_length (merge_sort_Permutation Z.le l)).
  apply Nat.div_lt; lia.
Qed.

(** The middle element of the sorted list splits the list. *)
Lemma sorted_middle_rank (l : list Z) (i : nat) (m : Z) :
  StronglySorted Z.le l → l !! i = Some m →
  (length (filter (λ t, t < m)%Z l) ≤ i < length (filter (λ t, t ≤ m)%Z l))%nat.
Proof.
  intros Hs Hi.
  assert (Hlen : length (take i l) = i)
    by (rewrite length_take; apply lookup_lt_Some in Hi; lia).
  pose proof (take_drop_middle l i m Hi) as Hl. rewrite <- Hl in Hs |- *.
  apply StronglySorted_app in Hs as (Hcross & H1 & H2).
  apply StronglySorted_inv in H2 as [_ H2]. rewrite Forall_forall in H2.
  rewrite !filter_app, !length_app, !filter_cons.
  rewrite (decide_False (P := m < m)) by lia. rewrite (decide_True (P := m ≤ m)) by lia.
  rewrite (list_filter_none (λ t, t < m) (drop (S i) l))
    by (intros x Hx; specialize (H2 _ Hx); simpl; lia).
  rewrite (list_filter_all (λ t, t ≤ m) (take i l))
    by (intros x Hx; apply (Hcross x m Hx); set_solver).
  pose proof (length_filter (λ t, t < m) (take i l)). simpl. lia.
Qed.

Lemma merge_sort_perm_eq (l k : list Z) : l ≡ₚ k → merge_sort Z.le l = merge_sort Z.le k.
Proof.
  intros Hp. apply (StronglySorted_unique Z.le); try apply StronglySorted_merge_sort; try apply _.
  by rewrite !merge_sort_Permutation.
Qed.

Lemma median_In (l : list Z) (m : Z) : CalculateMedianTimestamp l = Ok m → m ∈ l.
Proof.
  intros Hi%median_Ok. rewrite <- (merge_sort_Permutation Z.le l).
  by eapply list_elem_of_lookup_2.
Qed.

(** The median is a function of the multiset of timestamps (the headers'
    order does not matter), is one of them, and has rank n/2. *)
Theorem CalculateMedianTimestamp_spec (l : list Z) : l ≠ [] →
  ∃ m, CalculateMedianTimestamp l = Ok m ∧ m ∈ l ∧
    (length (filter (λ t, t < m)%Z l) ≤ length l / 2 < length (filter (λ t, t ≤ m)%Z l))%nat ∧
    ∀ k, k ≡ₚ l → CalculateMedianTimestamp k = Ok m.
Proof.
  intros Hl. destruct (median_total l Hl) as [m Hm]. exists m. split; [done|].
  pose proof (merge_sort_Permutation Z.le l) as Hp.
  pose proof (median_Ok l m Hm) as Hi. split; [|split].
  - by apply median_In.
  - pose proof (sorted_middle_rank _ _ _ (StronglySorted_merge_sort Z.le l) Hi) as Hr.
    by rewrite !Hp in Hr.
  - intros k Hk. rewrite <- Hm. unfold CalculateMedianTimestamp.
    by rewrite (merge_sort_perm_eq _ _ Hk), (Permutation_length Hk).
Qed.

Section Window.
  Context {CH : Chainhash} {SC : SafeConversion}.

Lemma ref_has_hash_head h hs p :
  from_option (λ r, ref_has_hash r p) false (head (FullHeader <$> h :: hs)) =
  bool_decide (header_hash h = p).
Proof. done. Qed.

Lemma MedianTimeWindow_linked (p : Hash) (hs : list BlockHeader) :
  hs ≠ [] → linked_from p hs → (11 ≤ length hs)%nat ∨ reaches_genesis hs →
  MedianTimeWindow (Some p) (FullHeader <$> hs) = Ok (FullHeader <$> take 11 hs).
Proof.
  intros Hne Hl Hlen. unfold MedianTimeWindow, medianTimeBlocks.
  rewrite length_fmap. rewrite bool_decide_false by (by destruct hs).
  destruct hs as [|h hs]; [done|]. rewrite ref_has_hash_head.
  rewrite bool_decide_true by (by destruct Hl). cbn [bindR].
  set (k := if bool_decide _ then _ else _).
  assert (Hk : take k (FullHeader <$> h :: hs) = FullHeader <$> take 11 (h :: hs)).
  { subst k. case_bool_decide; [|by rewrite fmap_take].
    rewrite !take_ge; [done|lia|rewrite length_fmap; lia]. }
  rewrite Hk, existsb_nil_full. cbn [negb].
  rewrite (verify_newest_linked _ p) by (by apply linked_from_take). cbn [wrapR bindR].
  subst k. case_bool_decide as Hs; [rewrite bool_decide_true by done|by rewrite bool_decide_false by lia].
  destruct Hlen as [?|Hg]; [lia|]. rewrite bool_decide_true; [done|].
  rewrite (take_ge (h :: hs)) by lia.
  rewrite Nat.sub_1_r, list_lookup_fmap, <- last_lookup.
  unfold reaches_genesis in Hg. by destruct (last (h :: hs)).
Qed.

(** Fed a newest-first run that is linked from the parent, the window is the
    eleven headers nearest the parent, or the whole run when that reaches
    genesis. *)
Theorem MedianTimeWindow_newest (p : Hash) (hs : list BlockHeader) :
  hs ≠ [] → linked_from p hs → (11 ≤ length hs)%nat ∨ reaches_genesis hs →
  MedianTimeWindow (Some p) (FullHeader <$> hs) = Ok (FullHeader <$> take 11 hs).
Proof. apply MedianTimeWindow_linked. Qed.

(** The two anchored selections. *)
Lemma select_newest (p : Hash) (chain : list HeaderRef) (k : nat) :
  (0 < k ≤ length chain)%nat →
  from_option (λ r, ref_has_hash r p) false (head chain) = true →
  from_option (λ r, ref_has_hash r p) false (head (take k chain)) = true.
Proof. by destruct chain, k; simpl; try lia. Qed.

Lemma select_oldest (p : Hash) (chain : list HeaderRef) (k : nat) :
  (0 < k ≤ length chain)%nat →
  from_option (λ r, ref_has_hash r p) false (last chain) = true →
  from_option (λ r, ref_has_hash r p) false (last (drop (length chain - k) chain)) = true.
Proof.
  intros Hk. rewrite !last_lookup, lookup_drop, length_drop.
  by replace (length chain - k + pred (length chain - (length chain - k)))%nat
    with (pred (length chain)) by lia.
Qed.

Lemma select_linked (p : Hash) (chain w : list HeaderRef) (k : nat) (nf : bool) :
  (0 < k ≤ length chain)%nat →
  (if from_option (λ r, ref_has_hash r p) false (head chain) then Ok (take k chain, true)
   else if from_option (λ r, ref_has_hash r p) false (last chain)
   then Ok (drop (length chain - k) chain, false)
   else Err (err ERR_BLOCK_HEADER_CONTEXT)) = Ok (w, nf) →
  verifyMedianWindowLinkage w nf = Ok () →
  length w = k ∧ (k = length chain → w = chain) ∧
  ∃ hs, w = FullHeader <$> (if nf then hs else rev hs) ∧ linked_from p hs.
Proof.
  intros Hk Hw Hv.
  destruct (from_option _ false (head chain)) eqn:Eh;
    [|destruct (from_option _ false (last chain)) eqn:El; [|done]];
    injection Hw as <- <-.
  - split; [rewrite length_take; lia|]. split; [intros ->; by rewrite take_ge|].
    by eapply verify_newest_Ok; [apply select_newest|].
  - split; [rewrite length_drop; lia|]. split; [intros ->; by rewrite Nat.sub_diag|].
    by eapply verify_oldest_Ok; [apply select_oldest|].
Qed.

Lemma oldest_is_last (hs : list BlockHeader) (nf : bool) (k : nat) :
  k = length hs →
  (if nf then (FullHeader <$> (if nf then hs else rev hs)) !! (k - 1)%nat
   else head (FullHeader <$> (if nf then hs else rev hs))) ≫= ref_prev
  = HashPrevBlock <$> last hs.
Proof.
  intros ->. destruct nf.
  - rewrite Nat.sub_1_r, list_lookup_fmap, <- last_lookup. by destruct (last hs).
  - destruct hs as [|h hs _] using rev_ind; [done|].
    by rewrite rev_app_distr, last_snoc.
Qed.

(** Whatever run the caller supplies, an accepted window is a linked run of
    complete headers that starts at the block's parent; it has eleven headers,
    or it is the whole supplied run and ends at genesis. *)
Theorem MedianTimeWindow_sound (prev : option Hash) (chain window : list HeaderRef) :
  MedianTimeWindow prev chain = Ok window →
  ∃ p hs, prev = Some p ∧ hs ≠ [] ∧ linked_from p hs ∧
    (window = FullHeader <$> hs ∨ window = FullHeader <$> rev hs) ∧
    (length hs = 11%nat ∨ (length hs < 11)%nat ∧ window = chain ∧ reaches_genesis hs).
Proof.
  unfold MedianTimeWindow, medianTimeBlocks. intros H.
  case_bool_decide as Hn; [done|]. destruct prev as [p|]; [|done].
  set (k := if bool_decide _ then _ else _) in H.
  assert (Hk : (k = 11 ∧ 11 ≤ length chain ∨ k = length chain ∧ k < 11)%nat)
    by (subst k; case_bool_decide; lia).
  clearbody k. apply bindR_Ok in H as ([w nf] & Hw & H).
  destruct (existsb is_nil_header w); [done|]. cbn [negb] in H.
  apply bindR_Ok in H as ([] & Hv & H).
  destruct (verifyMedianWindowLinkage w nf) as [[]|] eqn:E; [clear Hv|done].
  destruct (select_linked p chain w k nf) as (Hlen & Hall & hs & -> & Hl); [lia|done..|].
  rewrite oldest_is_last in H
    by (rewrite <- Hlen, length_fmap; by destruct nf; rewrite ?length_rev).
  assert (Hlk : length hs = k) by (rewrite <- Hlen, length_fmap; by destruct nf; rewrite ?length_rev).
  assert (window = FullHeader <$> (if nf then hs else rev hs) ∧ ((k < 11)%nat → reaches_genesis hs))
    as [-> Hg] by (repeat case_bool_decide; naive_solver).
  exists p, hs. split_and!; [done|intros ->; simpl in *; lia|done|by destruct nf; auto|].
  destruct Hk as [[-> _]|[Hkc ?]]; [by left|right]. auto with lia.
Qed.
(** The three rules a contextually valid header satisfies: not more than two
    hours ahead of the wall clock, strictly after the median of the window
    (unless the chain allows fast generation) and a version at or above every
    activated floor. *)
Definition contextual_rules (now : Z) (params : ChainParams) (hdr : BlockHeader)
    (height m : Z) : Prop :=
  Timestamp hdr ≤ now + 7200 ∧
  (GenerateSupported params = true ∨ m < Timestamp hdr) ∧
  CheckBlockVersion (Version hdr) height params = Ok ().

Lemma CheckHeaderContextual_window (SCS : SafeConversionSpec SC)
    (now : Z) (params : ChainParams) (hdr : BlockHeader) (height m : Z)
    (chain w : list HeaderRef) :
  is_u32 (now + 7200) → chain ≠ [] → is_u32 m →
  MedianTimeWindow (Some (HashPrevBlock hdr)) chain = Ok w →
  CalculateMedianTimestamp (map ref_time w) = Ok m →
  snd (CheckHeaderContextual now params hdr height chain) = Ok () ↔
  contextual_rules now params hdr height m.
Proof.
  intros Hnow Hne Hm Hw Hmed. unfold CheckHeaderContextual, contextual_rules.
  change (2 * 60 * 60) with 7200. rewrite Int64ToUint32_fits by done. cbn [wrapR].
  destruct (Z.gtb_spec (Timestamp hdr) (now + 7200)); [simpl; split; [done|lia]|].
  destruct chain as [|r chain]; [done|].
  rewrite Hw. cbn [bindR]. rewrite Hmed. cbn [bindR]. rewrite Int64ToUint32_fits by done.
  destruct (Z.leb_spec (Timestamp hdr) m), (GenerateSupported params);
    cbn [andb negb snd]; destruct (CheckBlockVersion _ _ _) as [[]|]; simpl;
    (split; [intros Hv | intros (? & [?|?] & ?)]); try done; try lia;
    split_and!; auto.
Qed.

(** On the parent's linked ancestors in newest-first order, a header passes
    the contextual checks exactly when it satisfies the three rules against the
    median of the eleven nearest ancestors. *)
Theorem CheckHeaderContextual_spec (SCS : SafeConversionSpec SC)
    (now : Z) (params : ChainParams) (hdr : BlockHeader) (height : Z)
    (hs : list BlockHeader) :
  is_u32 (now + 7200) → hs ≠ [] → Forall header_wf hs →
  linked_from (HashPrevBlock hdr) hs → (11 ≤ length hs)%nat ∨ reaches_genesis hs →
  ∃ m, CalculateMedianTimestamp (Timestamp <$> take 11 hs) = Ok m ∧
    (snd (CheckHeaderContextual now params hdr height (FullHeader <$> hs)) = Ok () ↔
     contextual_rules now params hdr height m).
Proof.
  intros Hnow Hne Hwf Hl Hlen.
  assert (Htimes : map ref_time (FullHeader <$> take 11 hs) = Timestamp <$> take 11 hs)
    by (symmetry; apply (list_fmap_compose FullHeader ref_time)).
  destruct (median_total (Timestamp <$> take 11 hs)) as [m Hm]; [by destruct hs|].
  exists m. split; [done|].
  apply CheckHeaderContextual_window with (FullHeader <$> take 11 hs); try done.
  - by destruct hs.
  - apply median_In in Hm. apply list_elem_of_fmap in Hm as (h & -> & Hh).
    rewrite Forall_forall in Hwf. apply (Hwf h), (subseteq_take 11), Hh.
  - by apply MedianTimeWindow_linked.
  - by rewrite Htimes.
Qed.

End Window.

(** ** Concrete inputs *)
Definition ex_genesis : BlockHeader :=
  mkHeader 1 zero_hash zero_hash 1000 (mkNBit Byte.xff Byte.xff Byte.x7f Byte.x20) 7.
Definition ex_child : BlockHeader :=
  mkHeader 4 (header_hash (CH := model_Chainhash) ex_genesis) zero_hash 1600
    (mkNBit Byte.xff Byte.xff Byte.x7f Byte.x20) 9.
Lemma CalculateMedianTimestamp_spec_witness :
  ∃ m, CalculateMedianTimestamp [5; 1; 9; 7] = Ok m ∧ m ∈ [5; 1; 9; 7].
Proof.
  destruct (CalculateMedianTimestamp_spec [5; 1; 9; 7]) as (m & ? & ? & _); [done|eauto].
Defined.

Lemma MedianTimeWindow_newest_witness :
  MedianTimeWindow (CH := model_Chainhash)
    (Some (header_hash (CH := model_Chainhash) ex_child))
    [FullHeader ex_child; FullHeader ex_genesis]
  = Ok [FullHeader ex_child; FullHeader ex_genesis].
Proof.
  apply (MedianTimeWindow_newest (CH := model_Chainhash) _ [ex_child; ex_genesis]);
    [done|done|by right].
Defined.

Lemma MedianTimeWindow_sound_witness :
  ∃ p hs, Some (header_hash (CH := model_Chainhash) ex_genesis) = Some p ∧
    linked_from (CH := model_Chainhash) p hs ∧ reaches_genesis hs.
Proof.
  destruct (MedianTimeWindow_sound (CH := model_Chainhash)
    (Some (header_hash (CH := model_Chainhash) ex_genesis))
    [FullHeader ex_genesis] [FullHeader ex_genesis])
    as (p & hs & Hp & _ & Hl & Hw & Hlen); [vm_compute; reflexivity|].
  exists p, hs. split; [exact Hp|]. split; [exact Hl|].
  destruct Hlen as [Hlen|(_ & _ & Hg)]; [|exact Hg].
  destruct Hw as [Hw|Hw]; apply (f_equal length) in Hw; revert Hw;
    rewrite length_fmap, ?length_rev, Hlen; discriminate.
Defined.

Lemma CheckHeaderContextual_spec_witness :
  ∃ m, CalculateMedianTimestamp [1600; 1000] = Ok m ∧
    (snd (CheckHeaderContextual (CH := model_Chainhash) (SC := model_SafeConversion)
       2000 ex_params
       (mkHeader 4 (header_hash (CH := model_Chainhash) ex_child) zero_hash 1601
          (Bits ex_child) 3) 2 [FullHeader ex_child; FullHeader ex_genesis]) = Ok () ↔
     contextual_rules 2000 ex_params
       (mkHeader 4 (header_hash (CH := model_Chainhash) ex_child) zero_hash 1601
          (Bits ex_child) 3) 2 m).
Proof.
  apply (CheckHeaderContextual_spec (CH := model_Chainhash) model_SafeConversion_spec
           2000 ex_params _ 2 [ex_child; ex_genesis]);
    [lia|done| |done|by right].
  repeat constructor; unfold header_wf; simpl; lia.
Defined.
