(* ===== verification/HeaderSource.v ===== *)
(** * Sources of stored headers

    The contract the difficulty calculator reads ancestry through
    (services/blockchain/Difficulty.go, [HeaderSource]) as a class of
    operations and, as its specification, a tree of blocks; the median-of-three
    selection (util/sort_for_difficulty.go, stores/blockchain/sql/
    GetSuitableBlock.go); and the source the legacy header cache builds on top
    of the store (services/legacy/netsync/header_source.go), with the proof
    that it implements the same contract for the extended tree. *)

From S2P Require Import Prelude External NBits BlockHeader.

(** model.SuitableBlock *)
Record SuitableBlock := mkSuitable {
  sb_Hash : list byte;
  sb_Height : Z;
  sb_NBits : list byte;
  sb_Time : Z;
  sb_ChainWork : list byte;
}.

(** The two fields of model.BlockHeaderMeta the modelled code reads. *)
Record BlockHeaderMeta := mkMeta { hm_Height : Z; hm_ChainWork : list byte }.

(** [blockchain.HeaderSource]; a header pointer may be nil. *)
Class HeaderSource := {
  GetSuitableBlock : Hash → result (option SuitableBlock);
  GetHashOfAncestorBlock : Hash → nat → result Hash;
  GetBlockHeader : Hash → result (option BlockHeader * BlockHeaderMeta);
  GetBlockHeaders : Hash → nat → result (list (option BlockHeader) * list BlockHeaderMeta);
}.

(** ** Median of three *)

(** [SortForDifficultyAdjustment]: a sorting network on the first three
    elements; fewer than three is an index out of range. *)
Definition SortForDifficultyAdjustment {T} (GetTime : T → Z) (s : list T) : result (list T) :=
  match s with
  | a :: b :: c :: rest =>
      let '(a, c) := if GetTime a >? GetTime c then (c, a) else (a, c) in
      let '(a, b) := if GetTime a >? GetTime b then (b, a) else (a, b) in
      let '(b, c) := if GetTime b >? GetTime c then (c, b) else (b, c) in
      Ok (a :: b :: c :: rest)
  | _ => Err panic
  end.

Definition getMedianBlock (blocks : list SuitableBlock) : result SuitableBlock :=
  guard? bool_decide (length blocks = 3%nat) else err ERR_PROCESSING in
  let? blocks := SortForDifficultyAdjustment sb_Time blocks in
  match blocks !! 1%nat with Some b => Ok b | None => Err panic end.

(** ** The header cache's source *)

(** services/legacy/netsync: [cachedHeader] *)
Record cachedHeader := mkCached {
  ch_header : BlockHeader;
  ch_height : Z;
  ch_chainWork : list byte;
}.

#[export] Instance cachedHeader_eq_dec : EqDecision cachedHeader.
Proof. solve_decision. Defined.

Section Branch.
  Context {CH : Chainhash}.
  Variable trunk : HeaderSource.
  Variable lookup : Hash → option cachedHeader.

Definition branch_meta (c : cachedHeader) : BlockHeaderMeta :=
  mkMeta (u32 (ch_height c)) (ch_chainWork c).

Definition branch_GetBlockHeader (hash : Hash) : result (option BlockHeader * BlockHeaderMeta) :=
  match lookup hash with
  | Some c => Ok (Some (ch_header c), branch_meta c)
  | None => @GetBlockHeader trunk hash
  end.

(** The run the cache holds from [cur], at most [count] long, and where it
    stops. *)
Fixpoint branch_run (cur : Hash) (count : nat) : list cachedHeader * Hash * nat :=
  match count with
  | O => ([], cur, O)
  | S count' =>
      match lookup cur with
      | None => ([], cur, count)
      | Some c =>
          let '(run, cur, remaining) := branch_run (HashPrevBlock (ch_header c)) count' in
          (c :: run, cur, remaining)
      end
  end.

Definition branch_GetBlockHeaders (hash : Hash) (count : nat)
  : result (list (option BlockHeader) * list BlockHeaderMeta) :=
  let '(run, cur, remaining) := branch_run hash count in
  let headers := map (λ c, Some (ch_header c)) run in
  let metas := map branch_meta run in
  if bool_decide (0 < remaining)%nat then
    let? (more, moreMetas) := @GetBlockHeaders trunk cur remaining in
    Ok (headers ++ more, metas ++ moreMetas)
  else Ok (headers, metas).

Fixpoint branch_GetHashOfAncestorBlock (cur : Hash) (depth : nat) : result Hash :=
  match depth with
  | O => Ok cur
  | S depth' =>
      match lookup cur with
      | None => @GetHashOfAncestorBlock trunk cur depth
      | Some c => branch_GetHashOfAncestorBlock (HashPrevBlock (ch_header c)) depth'
      end
  end.

(** A suitable-block candidate built from a header pointer and its meta; a nil
    header panics when it is hashed. *)
Definition branch_candidate (header : option BlockHeader) (m : BlockHeaderMeta)
  : result SuitableBlock :=
  match header with
  | None => Err panic
  | Some h => Ok (mkSuitable (hash_bytes (header_hash h)) (hm_Height m)
                    (CloneBytes (Bits h)) (Timestamp h) (hm_ChainWork m))
  end.

Definition branch_GetSuitableBlock (hash : Hash) : result (option SuitableBlock) :=
  match lookup hash with
  | None => @GetSuitableBlock trunk hash
  | Some _ =>
      let? (headers, metas) := branch_GetBlockHeaders hash 3 in
      match headers, metas with
      | [h0; h1; h2], [m0; m1; m2] =>
          let? c2 := branch_candidate h2 m2 in
          let? c1 := branch_candidate h1 m1 in
          let? c0 := branch_candidate h0 m0 in
          let? candidates := SortForDifficultyAdjustment sb_Time [c2; c1; c0] in
          match candidates !! 1%nat with Some b => Ok (Some b) | None => Err panic end
      | _, _ => Err (err ERR_PROCESSING)
      end
  end.

Definition branchSource : HeaderSource := {|
  GetSuitableBlock := branch_GetSuitableBlock;
  GetHashOfAncestorBlock := branch_GetHashOfAncestorBlock;
  GetBlockHeader := branch_GetBlockHeader;
  GetBlockHeaders := branch_GetBlockHeaders;
|}.
End Branch.

(** ** The contract: a tree of blocks *)

Section Contract.
  Context {CH : Chainhash}.

(** A block tree maps the hash of a block to it. *)
Definition Tree : Type := Hash → option cachedHeader.

Definition prev_of (c : cachedHeader) : Hash := HashPrevBlock (ch_header c).

Definition tree_ok (T : Tree) : Prop :=
  ∀ h c, T h = Some c → header_hash (ch_header c) = h.

(** The block of hash [h] and its ancestors, newest first, at most [n]. *)
Fixpoint chain (T : Tree) (h : Hash) (n : nat) : list cachedHeader :=
  match n with
  | O => []
  | S n =>
      match T h with
      | None => []
      | Some c => c :: chain T (prev_of c) n
      end
  end.

(** The hash [d] parents above [h]. *)
Fixpoint walk (T : Tree) (h : Hash) (d : nat) : option Hash :=
  match d with
  | O => match T h with Some _ => Some h | None => None end
  | S d => match T h with Some c => walk T (prev_of c) d | None => None end
  end.

Definition suitable_of (c : cachedHeader) : SuitableBlock :=
  mkSuitable (hash_bytes (header_hash (ch_header c))) (u32 (ch_height c))
    (CloneBytes (Bits (ch_header c))) (Timestamp (ch_header c)) (ch_chainWork c).

(** The median-time block of [h] and its two parents. *)
Definition tree_suitable (T : Tree) (h : Hash) : result SuitableBlock :=
  getMedianBlock (suitable_of <$> rev (chain T h 3)).

(** What a source promises about a tree.  Nothing is promised about the errors
    for a hash the tree does not hold, except that no header is returned. *)
Class HeaderSourceSpec (S : HeaderSource) (T : Tree) : Prop := {
  spec_headers h n : is_Some (T h) → (0 < n)%nat →
    GetBlockHeaders h n =
      Ok ((λ c, Some (ch_header c)) <$> chain T h n, branch_meta <$> chain T h n);
  spec_headers_missing h n : T h = None → (0 < n)%nat →
    GetBlockHeaders h n = Ok ([], []) ∨ ∃ e, GetBlockHeaders h n = Err e;
  spec_header h c : T h = Some c →
    GetBlockHeader h = Ok (Some (ch_header c), branch_meta c);
  spec_ancestor h d h' : is_Some (T h) → walk T h d = Some h' →
    GetHashOfAncestorBlock h d = Ok h';
  spec_ancestor_short h d : is_Some (T h) → walk T h d = None →
    ∃ e, GetHashOfAncestorBlock h d = Err e ∧ error_Is e ERR_NOT_FOUND = true;
  spec_suitable h b : is_Some (T h) → tree_suitable T h = Ok b →
    GetSuitableBlock h = Ok (Some b);
  spec_suitable_short h e : is_Some (T h) → tree_suitable T h = Err e →
    ∃ e', GetSuitableBlock h = Err e';
}.

(** The tree that extends [T] with the cached blocks. *)
Definition extend (L T : Tree) : Tree := λ h,
  match L h with Some c => Some c | None => T h end.

(** The cache is rooted in the trunk, agrees with it where they overlap, and no
    trunk block descends from a cached one. *)
Record rooted (L T : Tree) : Prop := {
  rooted_parent h c : L h = Some c → is_Some (extend L T (prev_of c));
  rooted_agree h c c' : L h = Some c → T h = Some c' → c = c';
  rooted_above h c : T h = Some c → T (prev_of c) = None → L (prev_of c) = None;
}.

(** *** Lemmas on chains *)

Lemma chain_None T h n : T h = None → chain T h n = [].
Proof. by destruct n; simpl; [|intros ->]. Qed.

Lemma chain_take T h n m : (n ≤ m)%nat → chain T h n = take n (chain T h m).
Proof.
  revert h m; induction n as [|n IH]; intros h m Hm; [done|].
  destruct m as [|m]; [lia|]. simpl. destruct (T h) as [c|]; [|done].
  cbn [take]. f_equal. apply IH. lia.
Qed.

Lemma length_chain_le T h n : (length (chain T h n) ≤ n)%nat.
Proof.
  revert h; induction n; intros h; simpl; [lia|]. destruct (T h); simpl; [|lia].
  by apply le_n_S.
Qed.

Lemma walk_chain T h d h' : tree_ok T → walk T h d = Some h' →
  ∃ c, chain T h (S d) !! d = Some c ∧ header_hash (ch_header c) = h'.
Proof.
  intros HT. revert h; induction d as [|d IH]; intros h; cbn [walk chain];
    destruct (T h) as [c|] eqn:E; try done.
  - intros [= ->]. exists c. by rewrite (HT _ _ E).
  - intros Hw. destruct (IH _ Hw) as (c' & Hc & Hh). exists c'. split; [exact Hc|done].
Qed.

Lemma walk_is_Some T h d h' : walk T h d = Some h' → is_Some (T h').
Proof.
  revert h; induction d as [|d IH]; intros h; simpl; destruct (T h) eqn:E; try done; eauto.
  intros [= <-]. by rewrite E.
Qed.

(** *** Extending a tree *)
Section Extend.
  Context (L T : Tree) (HR : rooted L T).

Lemma extend_trunk h c : T h = Some c → extend L T h = Some c.
Proof.
  intros E. unfold extend. destruct (L h) as [c'|] eqn:EL; [|done].
  by rewrite (rooted_agree _ _ HR _ _ _ EL E).
Qed.

Lemma extend_above h c : T h = Some c → T (prev_of c) = None →
  extend L T (prev_of c) = None.
Proof. intros E E'. unfold extend. by rewrite (rooted_above _ _ HR _ _ E E'). Qed.

Lemma chain_extend_trunk h n : is_Some (T h) → chain (extend L T) h n = chain T h n.
Proof.
  revert h; induction n as [|n IH]; intros h [c E]; [done|].
  simpl. rewrite (extend_trunk _ _ E), E. f_equal.
  destruct (T (prev_of c)) as [c'|] eqn:E'; [apply IH; eauto|].
  rewrite !chain_None; [done|done|]. by eapply extend_above.
Qed.

Lemma walk_extend_trunk h d : is_Some (T h) → walk (extend L T) h d = walk T h d.
Proof.
  revert h; induction d as [|d IH]; intros h [c E]; simpl; rewrite (extend_trunk _ _ E), E; [done|].
  destruct (T (prev_of c)) as [c'|] eqn:E'; [apply IH; eauto|].
  destruct d; simpl; rewrite (extend_above _ _ E E'), E'; done.
Qed.

Lemma extend_cached h c : L h = Some c → extend L T h = Some c.
Proof. unfold extend. by intros ->. Qed.

(** Where the walk leaves the cache it is in the trunk. *)
Lemma extend_exit h : is_Some (extend L T h) → L h = None → is_Some (T h).
Proof. unfold extend. intros H E. by rewrite E in H. Qed.

End Extend.

(** *** The branch source implements the contract *)
Section Refine.
  Context (trunk : HeaderSource) (L T : Tree).
  Context (HS : HeaderSourceSpec trunk T) (HR : rooted L T) (HL : tree_ok L).

Lemma branch_run_spec h n run cur k :
  is_Some (extend L T h) → branch_run L h n = (run, cur, k) →
  chain (extend L T) h n = run ++ chain T cur k ∧ ((0 < k)%nat → is_Some (T cur)).
Proof.
  revert h run; induction n as [|n IH]; intros h run Hh; cbn [branch_run chain].
  { intros [= <- <- <-]. split; [done|lia]. }
  destruct (L h) as [c|] eqn:E.
  - destruct (branch_run L (HashPrevBlock (ch_header c)) n) as [[run' cur'] k'] eqn:Er.
    intros [= <- <- <-].
    rewrite (extend_cached _ _ _ _ E).
    destruct (IH (prev_of c) run' (rooted_parent _ _ HR _ _ E) Er) as [-> ?]. done.
  - intros [= <- <- <-]. pose proof (extend_exit _ _ _ Hh E) as Ht.
    split; [|done]. by rewrite <- (chain_extend_trunk _ _ HR) by done.
Qed.

Lemma branch_headers h n : is_Some (extend L T h) → (0 < n)%nat →
  branch_GetBlockHeaders trunk L h n =
    Ok ((λ c, Some (ch_header c)) <$> chain (extend L T) h n,
        branch_meta <$> chain (extend L T) h n).
Proof.
  intros Hh Hn. unfold branch_GetBlockHeaders.
  destruct (branch_run L h n) as [[run cur] k] eqn:Er.
  destruct (branch_run_spec _ _ _ _ _ Hh Er) as [-> Hk].
  case_bool_decide.
  - rewrite (spec_headers cur k) by auto. cbn [bindR]. by rewrite !fmap_app.
  - assert (k = 0%nat) as -> by lia. cbn [chain]. by rewrite !app_nil_r.
Qed.

Lemma branch_ancestor h d h' : is_Some (extend L T h) →
  walk (extend L T) h d = Some h' →
  branch_GetHashOfAncestorBlock trunk L h d = Ok h'.
Proof.
  revert h; induction d as [|d IH]; intros h Hh; cbn [walk branch_GetHashOfAncestorBlock].
  { destruct Hh as [c ->]. by intros [= ->]. }
  destruct (L h) as [c|] eqn:E.
  - rewrite (extend_cached _ _ _ _ E).
    apply IH, (rooted_parent _ _ HR _ _ E).
  - pose proof (extend_exit _ _ _ Hh E) as Ht. intros Hw.
    apply spec_ancestor; [done|]. rewrite <- (walk_extend_trunk _ _ HR) by done. exact Hw.
Qed.

Lemma branch_ancestor_short h d : is_Some (extend L T h) →
  walk (extend L T) h d = None →
  ∃ e, branch_GetHashOfAncestorBlock trunk L h d = Err e ∧ error_Is e ERR_NOT_FOUND = true.
Proof.
  revert h; induction d as [|d IH]; intros h Hh; cbn [walk branch_GetHashOfAncestorBlock].
  { by destruct Hh as [c ->]. }
  destruct (L h) as [c|] eqn:E.
  - rewrite (extend_cached _ _ _ _ E).
    apply IH, (rooted_parent _ _ HR _ _ E).
  - pose proof (extend_exit _ _ _ Hh E) as Ht. intros Hw.
    apply spec_ancestor_short; [done|]. rewrite <- (walk_extend_trunk _ _ HR) by done. exact Hw.
Qed.

(** The selection over the three newest blocks of a run. *)
Lemma branch_suitable_eq h c : L h = Some c →
  branch_GetSuitableBlock trunk L h =
    match tree_suitable (extend L T) h with
    | Ok b => Ok (Some b) | Err _ => Err (err ERR_PROCESSING) end.
Proof.
  intros E. unfold branch_GetSuitableBlock, tree_suitable. rewrite E.
  rewrite branch_headers by (lia || (rewrite (extend_cached L T _ _ E); eauto)). cbn [bindR].
  pose proof (length_chain_le (extend L T) h 3) as Hlen.
  destruct (chain (extend L T) h 3) as [|c0 [|c1 [|c2 [|]]]]; simpl in *; try done; [|lia].
  unfold getMedianBlock, SortForDifficultyAdjustment, suitable_of; simpl.
  repeat (match goal with |- context [if ?b then _ else _] => destruct b end; simpl); done.
Qed.

End Refine.

(** If the trunk implements the header-source contract for its tree and the
    cached runs are rooted in it, the branch source implements the same contract
    for the tree extended with the cached headers. *)
Theorem branchSource_refines (trunk : HeaderSource) (L T : Tree) :
  HeaderSourceSpec trunk T → rooted L T → HeaderSourceSpec (branchSource trunk L) (extend L T).
Proof.
  intros HS HR.
  assert (Hnone : ∀ h, extend L T h = None → L h = None ∧ T h = None)
    by (intros h; unfold extend; by destruct (L h)).
  assert (Hcase : ∀ h, is_Some (extend L T h) → (∃ c, L h = Some c) ∨ L h = None ∧ is_Some (T h)).
  { intros h Hh. destruct (L h) eqn:E; [eauto|right]. split; [done|by eapply extend_exit]. }
  assert (Hs : ∀ h, is_Some (T h) → tree_suitable (extend L T) h = tree_suitable T h).
  { intros h Hh. unfold tree_suitable. by rewrite chain_extend_trunk. }
  split; simpl.
  - intros. by apply branch_headers.
  - intros h n Hh Hn. apply Hnone in Hh as [HLh HTh].
    unfold branch_GetBlockHeaders. destruct n as [|n]; [lia|]. cbn [branch_run]. rewrite HLh.
    cbn [map]. rewrite bool_decide_true by lia.
    destruct (spec_headers_missing h (S n) HTh Hn) as [->|[e ->]]; simpl; eauto.
  - intros h c Hh. unfold branch_GetBlockHeader.
    unfold extend in Hh. destruct (L h) as [c'|]; [by injection Hh as ->|by apply spec_header].
  - intros. by apply (branch_ancestor _ _ T).
  - intros. by apply (branch_ancestor_short _ _ T).
  - intros h b Hh Hb. destruct (Hcase h Hh) as [[c E]|[E Ht]].
    + by rewrite (branch_suitable_eq _ _ T HS HR h c E), Hb.
    + unfold branch_GetSuitableBlock. rewrite E. apply spec_suitable; [done|]. by rewrite <- Hs.
  - intros h e Hh Hb. destruct (Hcase h Hh) as [[c E]|[E Ht]].
    + rewrite (branch_suitable_eq _ _ T HS HR h c E), Hb. eauto.
    + unfold branch_GetSuitableBlock. rewrite E. apply (spec_suitable_short h e); [done|].
      by rewrite <- Hs.
Qed.

End Contract.

(** ** The canonical source of a tree *)
Definition tree_source `{Chainhash} (T : Tree) : HeaderSource := {|
  GetSuitableBlock h :=
    match tree_suitable T h with Ok b => Ok (Some b) | Err e => Err e end;
  GetHashOfAncestorBlock h d :=
    match walk T h d with Some h' => Ok h' | None => Err (err ERR_NOT_FOUND) end;
  GetBlockHeader h :=
    match T h with
    | Some c => Ok (Some (ch_header c), branch_meta c) | None => Err (err ERR_NOT_FOUND) end;
  GetBlockHeaders h n :=
    Ok ((λ c, Some (ch_header c)) <$> chain T h n, branch_meta <$> chain T h n);
|}.

#[export] Instance tree_source_spec `{Chainhash} (T : Tree) :
  HeaderSourceSpec (tree_source T) T.
Proof.
  split; simpl; try done.
  - intros h n Hh _. left. by rewrite chain_None.
  - by intros h c ->.
  - by intros h d h' _ ->.
  - intros h d _ ->. eexists. split; [done|]. by vm_compute.
  - by intros h b _ ->.
  - intros h e _ ->. eauto.
Qed.

(** ** Median of three, specified *)
Lemma SortForDifficultyAdjustment_spec {A} (time : A → Z) (x y z : A) :
  ∃ a b c, SortForDifficultyAdjustment time [x; y; z] = Ok [a; b; c] ∧
    [a; b; c] ≡ₚ [x; y; z] ∧ time a ≤ time b ≤ time c.
Proof.
  unfold SortForDifficultyAdjustment.
  repeat (match goal with |- context [if ?u >? ?v then _ else _] =>
            destruct (Z.gtb_spec u v) end);
    eexists _, _, _; (split; [reflexivity|]); (split; [|lia]); solve_Permutation.
Qed.

(** ** Concrete inputs *)
Definition tree_of (l : list (Hash * cachedHeader)) : Tree := λ h,
  match list_find (λ p, p.1 = h) l with Some (_, (_, c)) => Some c | None => None end.

Definition ex_root : BlockHeader :=
  mkHeader 1 zero_hash zero_hash 1000 (mkNBit Byte.xff Byte.xff Byte.x7f Byte.x20) 7.
Definition ex_root_hash : Hash := header_hash (CH := model_Chainhash) ex_root.
Definition ex_tip : BlockHeader :=
  mkHeader 4 ex_root_hash zero_hash 1600 (mkNBit Byte.xff Byte.xff Byte.x7f Byte.x20) 9.
Definition ex_tip_hash : Hash := header_hash (CH := model_Chainhash) ex_tip.
Definition ex_trunk : Tree := tree_of [(ex_root_hash, mkCached ex_root 0 [])].
Definition ex_cache : Tree := tree_of [(ex_tip_hash, mkCached ex_tip 1 [])].

Lemma tree_of_1 (k : Hash) (v : cachedHeader) (h : Hash) (c : cachedHeader) :
  tree_of [(k, v)] h = Some c → h = k ∧ c = v.
Proof.
  unfold tree_of. simpl. destruct (decide (k = h)); naive_solver.
Qed.

Lemma branchSource_refines_witness :
  HeaderSourceSpec (CH := model_Chainhash)
    (branchSource (CH := model_Chainhash) (tree_source (H := model_Chainhash) ex_trunk) ex_cache)
    (extend ex_cache ex_trunk).
Proof.
  apply branchSource_refines; [apply tree_source_spec|].
  split.
  - intros h c [-> ->]%tree_of_1. eexists. vm_compute. reflexivity.
  - intros h c c' [-> ->]%tree_of_1 [Hb _]%tree_of_1. by vm_compute in Hb.
  - intros h c [-> ->]%tree_of_1 _. by vm_compute.
Defined.
