(* ===== verification/Difficulty.v ===== *)
(** * The difficulty calculator

    services/blockchain/Difficulty.go: the modern 144-block adjustment, the
    historical 2016-block retarget with testnet's minimum-difficulty recovery
    and the emergency adjustment, and the two caches the calculator keeps.
    Ancestry is read through [HeaderSource].  Durations are whole seconds;
    [int64] products of a spacing and a small constant cannot overflow, since a
    [time.Duration] holds fewer than 2^34 seconds. *)

From stdpp Require Import sorting.
From stdpp Require Import list.
From S2P Require Import Prelude External NBits BlockHeader MedianTime HeaderSource.

Definition DifficultyAdjustmentWindow : nat := 144.

(** [big.Int.Div]: Euclidean division, which panics on a zero divisor. *)
Definition big_Div (x y : Z) : result Z :=
  if y =? 0 then Err panic
  else if y <? 0 then Ok (- (x / - y)) else Ok (x / y).

(** A [*NBit] and the error [NewNBitFromSlice] returns, with the error dropped. *)
Definition nbit_ptr (l : list byte) : option NBit :=
  match NewNBitFromSlice l with Ok b => Some b | Err _ => None end.

(** ** State *)
Record historicalTestnetTarget := mkTestnetTarget {
  htt_hash : Hash;
  htt_height : Z;
  htt_bits : NBit;
  htt_valid : bool;
}.

Record Difficulty := mkDifficulty {
  powLimitnBits : NBit;
  d_params : ChainParams;              (* settings.ChainCfgParams *)
  DifficultyCache : bool;              (* settings.BlockAssembly.DifficultyCache *)
  lastBlockHash : option Hash;
  lastComputednBits : option NBit;
  lastTestnetTarget : historicalTestnetTarget;
}.

Definition zero_nbit : NBit := mkNBit Byte.x00 Byte.x00 Byte.x00 Byte.x00.

Definition NewDifficulty (params : ChainParams) (cache : bool) : result Difficulty :=
  match nbit_ptr (uint32ToBytes (PowLimitBits params)) with
  | Some bits =>
      Ok (mkDifficulty bits params cache None None
            (mkTestnetTarget zero_hash 0 zero_nbit false))
  | None => Err panic
  end.

Definition ResetCache (d : Difficulty) : Difficulty :=
  mkDifficulty (powLimitnBits d) (d_params d) (DifficultyCache d) None None
    (lastTestnetTarget d).

Definition set_last (d : Difficulty) (h : Hash) (bits : option NBit) : Difficulty :=
  mkDifficulty (powLimitnBits d) (d_params d) (DifficultyCache d) (Some h) bits
    (lastTestnetTarget d).

Definition set_testnet (d : Difficulty) (t : historicalTestnetTarget) : Difficulty :=
  mkDifficulty (powLimitnBits d) (d_params d) (DifficultyCache d) (lastBlockHash d)
    (lastComputednBits d) t.

Section Calculator.
  Context {CH : Chainhash} {SC : SafeConversion}.

(** ** The pure arithmetic *)

Definition ComputeTarget (params : ChainParams) (suitableFirstBlock suitableLastBlock : SuitableBlock)
  : result (option NBit) :=
  let lastSuitableBits := nbit_ptr (sb_NBits suitableLastBlock) in
  if NoDifficultyAdjustment params then Ok lastSuitableBits else
  let firstChainwork := be_decode (sb_ChainWork suitableFirstBlock) in
  let lastChainwork := be_decode (sb_ChainWork suitableLastBlock) in
  let work := lastChainwork - firstChainwork in
  let spacing := TargetTimePerBlock params in
  let duration := u32 (sb_Time suitableLastBlock - sb_Time suitableFirstBlock) in
  let duration := if duration >? 288 * spacing then 288 * spacing
                  else if duration <? 72 * spacing then 72 * spacing
                  else duration in
  let projectedWork := work * spacing in
  if duration =? 0 then Ok lastSuitableBits else
  let? pw := big_Div projectedWork duration in
  let e := 2^256 in
  let nt := e - pw in
  if pw =? 0 then Ok lastSuitableBits else
  let? newTarget := big_Div nt pw in
  match PowLimit params with
  | None => Err panic
  | Some limit =>
      let newTarget := if newTarget >? limit then limit else newTarget in
      let? nBitsUint := BigToCompact newTarget in
      let? nb := NewNBitFromSlice (uint32ToBytes nBitsUint) in
      Ok (Some nb)
  end.

(** The common tail of [calcHistoricalWorkRequired]. *)
Definition clip_and_encode (params : ChainParams) (target : Z) : result (option NBit) :=
  match PowLimit params with
  | None => Err panic
  | Some limit =>
      let target := if target >? limit then limit else target in
      let? compact := BigToCompact target in
      let? nb := NewNBitFromSlice (uint32ToBytes compact) in
      Ok (Some nb)
  end.

Definition interval : Z := 2016.

(** The retarget at an interval boundary. *)
Definition historical_retarget (params : ChainParams) (parent first : BlockHeader)
  : result (option NBit) :=
  let target := CalculateTarget (Bits parent) in
  let timespan := interval * TargetTimePerBlock params in
  let elapsed := Timestamp parent - Timestamp first in
  let elapsed := if elapsed <? Z.quot timespan 4 then Z.quot timespan 4
                 else if elapsed >? timespan * 4 then timespan * 4
                 else elapsed in
  let target := target * elapsed in
  let? target := big_Div target timespan in
  clip_and_encode params target.

(** [slices.Sort] and the middle element. *)
Definition median_u32 (headers : list BlockHeader) : result Z :=
  match merge_sort Z.le (Timestamp <$> headers) !! (length headers / 2)%nat with
  | Some t => Ok t
  | None => Err panic
  end.

(** The emergency difficulty adjustment over a verified window. *)
Definition emergency_adjustment (params : ChainParams) (parent : BlockHeader)
    (headers : list BlockHeader) : result (option NBit) :=
  let target := CalculateTarget (Bits parent) in
  let? recent := median_u32 (take (Nat.min (length headers) medianTimeBlocks) headers) in
  let? older := median_u32 (drop 6 headers) in
  let elapsed := recent - older in
  if elapsed <? 12 * 60 * 60 then Ok (Some (Bits parent)) else
  let target := target + Z.shiftr target 2 in
  clip_and_encode params target.

(** ** Reading ancestry *)

Section Reading.
  Context (src : HeaderSource).

(** Each header of the window is the one its child names, starting from the
    parent. *)
Fixpoint linked_window (expectedHash : Hash) (headers : list (option BlockHeader))
  : result (list BlockHeader) :=
  match headers with
  | [] => Ok []
  | None :: _ => Err (err ERR_STORAGE_ERROR)
  | Some h :: headers =>
      if bool_decide (header_hash h = expectedHash) then
        let? rest := linked_window (HashPrevBlock h) headers in Ok (h :: rest)
      else Err (err ERR_STORAGE_ERROR)
  end.

(** One batch of the restoration walk: the bits it settles on, or where the
    next batch starts. *)
Fixpoint restore_scan (d : Difficulty) (cached : historicalTestnetTarget)
    (headers : list (option BlockHeader)) (expectedHash : Hash) (height : Z)
  : result (NBit + Hash * Z) :=
  match headers with
  | [] => Ok (inr (expectedHash, height))
  | None :: _ => Err (err ERR_STORAGE_ERROR)
  | Some header :: headers =>
      if negb (bool_decide (header_hash header = expectedHash))
      then Err (err ERR_STORAGE_ERROR)
      else
        let height := u32 (height - 1) in
        if (height mod interval =? 0) || negb (bool_decide (Bits header = powLimitnBits d))
        then Ok (inl (Bits header))
        else if htt_valid cached && ((htt_height cached =? height) &&
                  bool_decide (expectedHash = htt_hash cached))
        then Ok (inl (htt_bits cached))
        else restore_scan d cached headers (HashPrevBlock header) height
  end.

(** The batched walk; [None] is fuel running out. *)
Fixpoint restore_loop (fuel : nat) (d : Difficulty) (cached : historicalTestnetTarget)
    (expectedHash : Hash) (height : Z) : option (result NBit) :=
  match fuel with
  | O => None
  | S fuel =>
      let count := Nat.min (Z.to_nat (height mod interval)) 32 in
      match wrapR ERR_STORAGE_ERROR (GetBlockHeaders expectedHash count) with
      | Err e => Some (Err e)
      | Ok (headers, _) =>
          match restore_scan d cached headers expectedHash height with
          | Err e => Some (Err e)
          | Ok (inl bits) => Some (Ok bits)
          | Ok (inr (expectedHash, height)) =>
              if bool_decide (length headers < count)%nat
              then Some (Err (err_wrap ERR_STORAGE_ERROR (err ERR_NOT_FOUND)))
              else restore_loop fuel d cached expectedHash height
          end
      end
  end.

(** Every batch advances by at least one block and none crosses the interval
    start, so this much fuel is enough ([restore_loop_refines]). *)
Definition restore_fuel (height : Z) : nat := S (Z.to_nat (height mod interval)).

Definition remember (d : Difficulty) (parentHash : Hash) (parentHeight : Z) (bits : NBit)
  : result (option NBit) * Difficulty :=
  (Ok (Some bits),
   if DifficultyCache d
   then set_testnet d (mkTestnetTarget parentHash parentHeight bits true) else d).

Definition calcHistoricalWorkRequired (d : Difficulty) (parent : BlockHeader)
    (height blockTime : Z) : result (option NBit) * Difficulty :=
  let params := d_params d in
  if (height + 1) mod interval =? 0 then
    (let? hash := wrapR ERR_STORAGE_ERROR
                    (GetHashOfAncestorBlock (header_hash parent) (Z.to_nat (interval - 1))) in
     let? (first, _) := wrapR ERR_STORAGE_ERROR (GetBlockHeader hash) in
     match first with
     | None => Err (err_wrap ERR_STORAGE_ERROR (err ERR_NOT_FOUND))
     | Some first => historical_retarget params parent first
     end, d)
  else if ReduceMinDifficulty params then
    if blockTime >? Timestamp parent + 2 * TargetTimePerBlock params
    then (Ok (Some (powLimitnBits d)), d)
    else if (height mod interval =? 0) || negb (bool_decide (Bits parent = powLimitnBits d))
    then (Ok (Some (Bits parent)), d)
    else
      let parentHash := header_hash parent in
      let parentHeight := height in
      let cached := if DifficultyCache d then lastTestnetTarget d
                    else mkTestnetTarget zero_hash 0 zero_nbit false in
      let cached := if negb (htt_height cached / interval =? height / interval)
                    then mkTestnetTarget (htt_hash cached) (htt_height cached) (htt_bits cached) false
                    else cached in
      if htt_valid cached &&
         (((htt_height cached =? height) && bool_decide (htt_hash cached = parentHash)) ||
          ((htt_height cached =? u32 (height - 1)) &&
           bool_decide (HashPrevBlock parent = htt_hash cached)))
      then remember d parentHash parentHeight (htt_bits cached)
      else
        match restore_loop (restore_fuel height) d cached (HashPrevBlock parent) height with
        | None => (Err panic, d)                   (* out of fuel: never reached *)
        | Some (Err e) => (Err e, d)
        | Some (Ok bits) => remember d parentHash parentHeight bits
        end
  else
    (if (height <? UahfForkHeight params) || (height <? 6) ||
        bool_decide (Bits parent = powLimitnBits d)
     then Ok (Some (Bits parent))
     else
       let count := Z.to_nat (Z.min (Z.of_nat medianTimeBlocks + 6) (height + 1)) in
       let? (headers, _) := wrapR ERR_STORAGE_ERROR (GetBlockHeaders (header_hash parent) count) in
       guard? bool_decide (length headers = count)
         else err_wrap ERR_STORAGE_ERROR (err ERR_NOT_FOUND) in
       let? headers := linked_window (header_hash parent) headers in
       emergency_adjustment params parent headers, d).

(** The modern adjustment proper, past the last-answer cache. *)
Definition daa_query (d : Difficulty) (blockHeader : BlockHeader)
  : result (option NBit) * Difficulty :=
  let params := d_params d in
  let hash := header_hash blockHeader in
  match (let? lastSuitableBlock := wrapR ERR_STORAGE_ERROR (GetSuitableBlock hash) in
         match lastSuitableBlock with
         | None => Err (err ERR_PROCESSING)
         | Some lastSuitableBlock =>
             let? ancestorHash :=
               match GetHashOfAncestorBlock hash DifficultyAdjustmentWindow with
               | Ok h => Ok h
               | Err e => if error_Is e ERR_NOT_FOUND then Ok hash
                          else Err (err_wrap ERR_STORAGE_ERROR e)
               end in
             let? firstSuitableBlock :=
               wrapR ERR_STORAGE_ERROR (GetSuitableBlock ancestorHash) in
             match firstSuitableBlock with
             | None => Ok None
             | Some firstSuitableBlock =>
                 let? nBits := wrapR ERR_PROCESSING
                   (ComputeTarget params firstSuitableBlock lastSuitableBlock) in
                 Ok (Some nBits)
             end
         end) with
  | Err e => (Err e, d)
  | Ok None => (Ok (Some (powLimitnBits d)), d)
  | Ok (Some nBits) => (Ok nBits, set_last d hash nBits)
  end.

Definition CalcNextWorkRequiredFrom (d : Difficulty) (blockHeader : BlockHeader)
    (blockHeight currentBlockTime : Z) : result (option NBit) * Difficulty :=
  let params := d_params d in
  if NoDifficultyAdjustment params then (Ok (Some (Bits blockHeader)), d) else
  if (blockHeight <? DaaForkHeight params) && negb (IsSTN params)
  then calcHistoricalWorkRequired d blockHeader blockHeight currentBlockTime else
  if ReduceMinDifficulty params &&
     (currentBlockTime >? Timestamp blockHeader + 2 * TargetTimePerBlock params)
  then (Ok (Some (powLimitnBits d)), d) else
  if blockHeight <? Z.of_nat DifficultyAdjustmentWindow + 4
  then (Ok (Some (powLimitnBits d)), d) else
  let hash := header_hash blockHeader in
  match (if negb (ReduceMinDifficulty params) && DifficultyCache d &&
            bool_decide (lastBlockHash d = Some hash)
         then lastComputednBits d else None) with
  | Some cachedBits => (Ok (Some cachedBits), d)
  | None =>
      daa_query d blockHeader
  end.

(** A nil answer is dereferenced: a panic. *)
Definition ValidateBlockHeaderDifficulty (d : Difficulty) (newBlock : BlockHeader)
    (previousHeader : BlockHeader) (previousHeight currentBlockTime : Z)
  : result unit * Difficulty :=
  let '(r, d) := CalcNextWorkRequiredFrom d previousHeader previousHeight currentBlockTime in
  (match r with
   | Err e => Err (err_wrap ERR_ERROR e)
   | Ok None => Err panic
   | Ok (Some expectedNBits) =>
       if bool_decide (Bits newBlock = expectedNBits) then Ok () else Err (err ERR_ERROR)
   end, d).

End Reading.
End Calculator.

(** * Specification *)

(** Same answer, or both an error. *)
Definition res_agree {A} (r r' : result A) : Prop :=
  match r, r' with
  | Ok a, Ok b => a = b
  | Err _, Err _ => True
  | _, _ => False
  end.

Section Spec.
  Context {CH : Chainhash} {SC : SafeConversion}.
  Context (T : Tree) (params : ChainParams) (pow : NBit).

(** The 144-block adjustment for a child of block [h]. *)
Definition daa_required (h : Hash) : result (option NBit) :=
  let? last := tree_suitable T h in
  let? first := tree_suitable T (default h (walk T h DifficultyAdjustmentWindow)) in
  ComputeTarget params first last.

(** The last bits on the way up from [h] that are not the minimum difficulty,
    where [h] is [k] blocks above the start of its interval; the interval's
    first block ends the search. *)
Fixpoint restore (k : nat) (h : Hash) : option NBit :=
  match T h with
  | None => None
  | Some c =>
      match k with
      | O => Some (Bits (ch_header c))
      | S k => if bool_decide (Bits (ch_header c) = pow) then restore k (prev_of c)
               else Some (Bits (ch_header c))
      end
  end.

Definition interval_pos (height : Z) : nat := Z.to_nat (height mod interval).

Definition historical_required (hdr : BlockHeader) (height time : Z) : result (option NBit) :=
  if (height + 1) mod interval =? 0 then
    match walk T (header_hash hdr) 2015 ≫= T with
    | Some first => historical_retarget params hdr (ch_header first)
    | None => Err (err ERR_NOT_FOUND)
    end
  else if ReduceMinDifficulty params then
    if time >? Timestamp hdr + 2 * TargetTimePerBlock params then Ok (Some pow)
    else match restore (interval_pos height) (header_hash hdr) with
         | Some bits => Ok (Some bits)
         | None => Err (err ERR_NOT_FOUND)
         end
  else if (height <? UahfForkHeight params) || (height <? 6) || bool_decide (Bits hdr = pow)
  then Ok (Some (Bits hdr))
  else
    let window := chain T (header_hash hdr) (Z.to_nat (Z.min 17 (height + 1))) in
    if bool_decide (Z.of_nat (length window) = Z.min 17 (height + 1))
    then emergency_adjustment params hdr (ch_header <$> window)
    else Err (err ERR_NOT_FOUND).

(** The bits a child of [hdr] at [height] must carry, as a function of the block
    tree alone. *)
Definition required (hdr : BlockHeader) (height time : Z) : result (option NBit) :=
  if NoDifficultyAdjustment params then Ok (Some (Bits hdr))
  else if (height <? DaaForkHeight params) && negb (IsSTN params)
  then historical_required hdr height time
  else if ReduceMinDifficulty params &&
          (time >? Timestamp hdr + 2 * TargetTimePerBlock params) then Ok (Some pow)
  else if height <? 148 then Ok (Some pow)
  else daa_required (header_hash hdr).

(** What the caches may hold. *)
Definition testnet_ok (t : historicalTestnetTarget) : Prop :=
  htt_valid t = true →
  restore (interval_pos (htt_height t)) (htt_hash t) = Some (htt_bits t).

Definition last_ok (d : Difficulty) : Prop := ∀ h b,
  lastBlockHash d = Some h → lastComputednBits d = Some b → daa_required h = Ok (Some b).

Record cache_ok (d : Difficulty) : Prop := {
  cache_params : d_params d = params;
  cache_pow : powLimitnBits d = pow;
  cache_last : last_ok d;
  cache_testnet : testnet_ok (lastTestnetTarget d);
}.

End Spec.

(** * Theorems *)

Section Refinement.
  Context {CH : Chainhash} {SC : SafeConversion}.
  Context (T : Tree) (params : ChainParams) (pow : NBit) (src : HeaderSource).
  Context (HS : HeaderSourceSpec src T) (HT : tree_ok T).

Lemma interval_pos_pred height k : 0 ≤ height → interval_pos height = S k →
  interval_pos (height - 1) = k ∧ 0 < height.
Proof.
  unfold interval_pos, interval. intros Hh Hk.
  pose proof (Z.div_mod height 2016 ltac:(lia)) as Hd.
  pose proof (Z.mod_pos_bound height 2016 ltac:(lia)).
  assert ((height - 1) mod 2016 = height mod 2016 - 1) as ->.
  { symmetry. apply Z.mod_unique with (height / 2016); lia. }
  lia.
Qed.

Lemma interval_pos_zero height : (height mod interval =? 0) = bool_decide (interval_pos height = 0%nat).
Proof.
  unfold interval_pos, interval. pose proof (Z.mod_pos_bound height 2016 ltac:(lia)).
  case_bool_decide; lia.
Qed.

Lemma restore_missing k h : T h = None → restore T pow k h = None.
Proof. by destruct k; simpl; intros ->. Qed.

(** A scan over the chain from [h] follows [restore]. *)
Lemma restore_scan_refines d cached n h height k :
  powLimitnBits d = pow → testnet_ok T pow cached → is_u32 height →
  interval_pos height = S k → (n ≤ S k)%nat →
  match restore_scan d cached ((λ c, Some (ch_header c)) <$> chain T h n) h height with
  | Ok (inl bits) => restore T pow k h = Some bits
  | Ok (inr (h', height')) =>
      ∃ k', interval_pos height' = S k' ∧ is_u32 height' ∧
        S k = (length (chain T h n) + S k')%nat ∧ restore T pow k h = restore T pow k' h' ∧
        ((length (chain T h n) < n)%nat → T h' = None)
  | Err _ => False
  end.
Proof.
  intros Hpow Hc. revert h height k; induction n as [|n IH]; intros h height k Hr Hk Hn.
  { simpl. exists k. split_and!; auto with lia. }
  cbn [chain]. destruct (T h) as [c|] eqn:E; [|simpl; exists k; split_and!; auto with lia].
  cbn [fmap list_fmap restore_scan]. rewrite (HT _ _ E), bool_decide_true by done. cbn [negb].
  destruct (interval_pos_pred height k) as [Hk' Hpos]; [lia|done|].
  rewrite u32_small by lia. rewrite interval_pos_zero, Hk', Hpow.
  destruct k as [|k]; cbn [restore]; rewrite E.
  { by rewrite bool_decide_true. }
  rewrite bool_decide_false by done. cbn [orb].
  destruct (decide (Bits (ch_header c) = pow)) as [Eb|Eb];
    [rewrite !(bool_decide_true (_ = pow)) by done|by rewrite !(bool_decide_false (_ = pow)) by done].
  cbn [negb].
  destruct (htt_valid cached && ((htt_height cached =? height - 1) && bool_decide (h = htt_hash cached)))
    eqn:Ehit.
  - apply andb_prop in Ehit as [Hv [Hh Hhash]%andb_prop]. apply Z.eqb_eq in Hh.
    apply bool_decide_eq_true in Hhash. specialize (Hc Hv).
    rewrite Hh, Hk', <- Hhash in Hc. cbn [restore] in Hc. rewrite E in Hc.
    by rewrite bool_decide_true in Hc.
  - specialize (IH (prev_of c) (height - 1) k ltac:(lia) Hk' ltac:(lia)).
    fold (prev_of c). destruct (restore_scan _ _ _ _ _) as [[bits|[h' height']]|]; [done| |done].
    destruct IH as (k' & ? & ? & Hlen & -> & Hshort). exists k'. cbn [length].
    split_and!; auto with lia.
Qed.

(** The batched, cached walk computes [restore]. *)
Lemma restore_loop_refines fuel d cached h height k :
  powLimitnBits d = pow → testnet_ok T pow cached → is_u32 height →
  interval_pos height = S k → (S k < fuel)%nat →
  ∃ r, restore_loop src fuel d cached h height = Some r ∧
    match restore T pow k h with Some bits => r = Ok bits | None => ∃ e, r = Err e end.
Proof.
  intros Hpow Hc. revert h height k; induction fuel as [|fuel IH]; intros h height k Hr Hk Hf; [lia|].
  cbn [restore_loop]. fold (interval_pos height). rewrite Hk.
  set (n := Nat.min (S k) 32). assert (0 < n ≤ S k)%nat as Hn by lia.
  destruct (T h) as [c|] eqn:E.
  - rewrite spec_headers by (eauto || lia). cbn [wrapR].
    pose proof (restore_scan_refines d cached n h height k Hpow Hc Hr Hk ltac:(lia)) as Hscan.
    destruct (restore_scan _ _ _ _ _) as [[bits|[h' height']]|]; [|..|done].
    + rewrite Hscan. eauto.
    + destruct Hscan as (k' & Hk' & Hr' & Hlen & -> & Hmiss). rewrite length_fmap.
      case_bool_decide as Hshort.
      * rewrite restore_missing by auto. eauto.
      * apply IH; try done. lia.
  - rewrite restore_missing by done.
    destruct (spec_headers_missing h n E ltac:(lia)) as [->|[e ->]]; cbn [wrapR]; [|eauto].
    cbn [restore_scan length]. rewrite bool_decide_true by lia. eauto.
Qed.

(** What a run of the calculator must establish. *)
Definition refines (out : result (option NBit) * Difficulty) (spec : result (option NBit)) : Prop :=
  res_agree (out.1) spec ∧ cache_ok T params pow (out.2).

Lemma remember_refines d hdr height bits :
  cache_ok T params pow d → restore T pow (interval_pos height) (header_hash hdr) = Some bits →
  refines (remember d (header_hash hdr) height bits) (Ok (Some bits)).
Proof.
  intros Hd Hr. pose proof Hd as [Hp Hpow Hl Ht]. split; [done|]. unfold remember; simpl.
  destruct (DifficultyCache d); [|done]. split; try done. by intros _.
Qed.

(** The chain of a parent the tree holds is linked. *)
Lemma linked_window_chain h n :
  linked_window h ((λ c, Some (ch_header c)) <$> chain T h n) = Ok (ch_header <$> chain T h n).
Proof.
  revert h; induction n as [|n IH]; intros h; [done|]. cbn [chain].
  destruct (T h) as [c|] eqn:E; [|done]. cbn [fmap list_fmap linked_window].
  rewrite (HT _ _ E), bool_decide_true by done. fold (prev_of c). by rewrite IH.
Qed.

Lemma historical_refines d hdr height time c :
  cache_ok T params pow d → T (header_hash hdr) = Some c → ch_header c = hdr →
  is_u32 height →
  refines (calcHistoricalWorkRequired src d hdr height time)
          (historical_required T params pow hdr height time).
Proof.
  intros Hd Hc Hhdr Hr. pose proof Hd as [Hp Hpow Hl Ht].
  unfold calcHistoricalWorkRequired, historical_required. rewrite Hp, Hpow.
  destruct ((height + 1) mod interval =? 0).
  { split; [|done]. cbn [fst]. change (Z.to_nat (interval - 1)) with 2015%nat.
    destruct (walk T (header_hash hdr) 2015) as [h'|] eqn:Ew.
    - rewrite (spec_ancestor _ _ h') by eauto. cbn [wrapR bindR].
      destruct (walk_is_Some _ _ _ _ Ew) as [c' E'].
      rewrite (spec_header h' c') by done. cbn [wrapR bindR mbind option_bind]. rewrite E'.
      by destruct (historical_retarget _ _ _).
    - destruct (spec_ancestor_short (header_hash hdr) 2015) as (e & -> & _); [by eauto|done|done]. }
  destruct (ReduceMinDifficulty params).
  - destruct (time >? _); [by split|].
    unfold testnet_ok in Ht.
    rewrite interval_pos_zero.
    destruct (interval_pos height) as [|k] eqn:Ek; cbn [restore]; rewrite Hc, Hhdr.
    { rewrite bool_decide_true by done. by split. }
    rewrite (bool_decide_false (S k = 0%nat)) by done. cbn [orb].
    destruct (decide (Bits hdr = pow)) as [Eb|Eb];
      [rewrite !(bool_decide_true (_ = pow)) by done
      |rewrite !(bool_decide_false (_ = pow)) by done; by split].
    cbn [negb].
    destruct (interval_pos_pred height k) as [Hk' Hpos]; [lia|done|].
    set (cached := if negb _ then _ else _).
    assert (Hcached : testnet_ok T pow cached).
    { subst cached. by destruct (DifficultyCache d); cbn; case_match. }
    clearbody cached.
    assert (Hrest : ∀ bits, restore T pow k (prev_of c) = Some bits →
              refines (remember d (header_hash hdr) height bits) (Ok (Some bits))).
    { intros bits Hb. apply remember_refines; [done|]. rewrite Ek. cbn [restore].
      by rewrite Hc, Hhdr, bool_decide_true. }
    assert (Hprev : HashPrevBlock hdr = prev_of c) by (unfold prev_of; by rewrite Hhdr).
    case_match eqn:Ehit.
    + apply andb_prop in Ehit as [Hv Ehit]. specialize (Hcached Hv).
      apply orb_prop in Ehit as [[Hh Hhash]%andb_prop|[Hh Hhash]%andb_prop];
        apply Z.eqb_eq in Hh; apply bool_decide_eq_true in Hhash.
      * rewrite Hh, Hhash, Ek in Hcached. cbn [restore] in Hcached.
        rewrite Hc, Hhdr, bool_decide_true in Hcached by done. rewrite Hcached. by apply Hrest.
      * rewrite u32_small in Hh by lia. rewrite Hh, Hk', <- Hhash, Hprev in Hcached.
        rewrite Hcached. by apply Hrest.
    + rewrite Hprev.
      destruct (restore_loop_refines (restore_fuel height) d cached (prev_of c) height k)
        as (r & -> & Hres); try done.
      { unfold restore_fuel. fold (interval_pos height). lia. }
      destruct (restore T pow k (prev_of c)) as [bits|] eqn:Erest.
      * rewrite Hres. by apply Hrest.
      * destruct Hres as [e ->]. by split.
  - destruct (_ || _); [by split|]. split; [|done]. cbn [fst].
    change (Z.of_nat medianTimeBlocks + 6) with 17.
    assert (0 < Z.to_nat (Z.min 17 (height + 1)))%nat as Hn by lia.
    rewrite spec_headers by eauto. cbn [wrapR bindR]. rewrite length_fmap.
    rewrite linked_window_chain.
    repeat case_bool_decide; try lia; try done. cbn [bindR]. by destruct (emergency_adjustment _ _ _).
Qed.

(** The modern branch. *)
Lemma daa_refines d hdr c :
  cache_ok T params pow d → T (header_hash hdr) = Some c →
  res_agree
    (let? last := wrapR ERR_STORAGE_ERROR (GetSuitableBlock (header_hash hdr)) in
     match last with
     | None => Err (err ERR_PROCESSING)
     | Some last =>
         let? ancestorHash :=
           match GetHashOfAncestorBlock (header_hash hdr) DifficultyAdjustmentWindow with
           | Ok h => Ok h
           | Err e => if error_Is e ERR_NOT_FOUND then Ok (header_hash hdr)
                      else Err (err_wrap ERR_STORAGE_ERROR e)
           end in
         let? first := wrapR ERR_STORAGE_ERROR (GetSuitableBlock ancestorHash) in
         match first with
         | None => Ok None
         | Some first =>
             let? nBits := wrapR ERR_PROCESSING (ComputeTarget params first last) in
             Ok (Some nBits)
         end
     end)
    (let? b := daa_required T params (header_hash hdr) in Ok (Some b)).
Proof.
  intros Hd Hc. unfold daa_required.
  destruct (tree_suitable T (header_hash hdr)) as [last|] eqn:El; cbn [bindR].
  2: { destruct (spec_suitable_short (header_hash hdr) e) as [e' ->]; [by eauto|done|done]. }
  rewrite (spec_suitable _ last) by eauto. cbn [wrapR bindR].
  set (anc := default (header_hash hdr) (walk T (header_hash hdr) DifficultyAdjustmentWindow)).
  assert (Hanc : is_Some (T anc)).
  { subst anc. destruct (walk _ _ _) eqn:Ew; simpl; [by eapply walk_is_Some|by eauto]. }
  assert ((match GetHashOfAncestorBlock (header_hash hdr) DifficultyAdjustmentWindow with
           | Ok h => Ok h
           | Err e => if error_Is e ERR_NOT_FOUND then Ok (header_hash hdr)
                      else Err (err_wrap ERR_STORAGE_ERROR e)
           end) = Ok anc) as ->.
  { subst anc. destruct (walk _ _ _) as [h'|] eqn:Ew; simpl.
    - by rewrite (spec_ancestor _ _ h') by eauto.
    - destruct (spec_ancestor_short (header_hash hdr) DifficultyAdjustmentWindow)
        as (e & -> & He); [by eauto|done|]. by rewrite He. }
  cbn [bindR]. destruct (tree_suitable T anc) as [first|] eqn:Ef; cbn [bindR].
  2: { destruct (spec_suitable_short anc e) as [e' ->]; [done|done|done]. }
  rewrite (spec_suitable _ first) by eauto. cbn [wrapR bindR].
  by destruct (ComputeTarget _ _ _).
Qed.

Lemma daa_step d hdr c :
  cache_ok T params pow d → T (header_hash hdr) = Some c →
  refines (daa_query src d hdr) (daa_required T params (header_hash hdr)).
Proof.
  intros Hd Hc. pose proof (daa_refines d hdr c Hd Hc) as Hq. pose proof Hd as [Hp Hpow Hl Ht].
  unfold daa_query. rewrite Hp. revert Hq.
  destruct (let? last := _ in _) as [[nb|]|]; destruct (daa_required _ _ _) as [b|] eqn:Er;
    simpl; try done; intros Hq.
  injection Hq as ->. split; [done|]. split; try done. unfold last_ok; simpl. congruence.
Qed.

Lemma CalcNext_agrees d hdr height time c :
  cache_ok T params pow d → T (header_hash hdr) = Some c → ch_header c = hdr →
  is_u32 height →
  refines (CalcNextWorkRequiredFrom src d hdr height time)
          (required T params pow hdr height time).
Proof.
  intros Hd Hc Hhdr Hr. pose proof Hd as [Hp Hpow Hl Ht].
  unfold CalcNextWorkRequiredFrom, required. rewrite Hp, Hpow.
  destruct (NoDifficultyAdjustment params); [by split|].
  destruct (_ && _); [by eapply historical_refines|].
  destruct (_ && (_ >? _)); [by split|].
  change (Z.of_nat DifficultyAdjustmentWindow + 4) with 148.
  destruct (height <? 148); [by split|]. cbv zeta.
  destruct (negb _ && _ && _) eqn:Ehit; [destruct (lastComputednBits d) as [b|] eqn:Eb|].
  - apply andb_prop in Ehit as [_ Ehit]. apply bool_decide_eq_true in Ehit.
    split; [|done]. by rewrite (Hl _ _ Ehit Eb).
  - by eapply daa_step.
  - by eapply daa_step.
Qed.
End Refinement.

(** ** Whole runs of one calculator *)
Section Runs.
  Context {CH : Chainhash} {SC : SafeConversion}.

(** A question put to the calculator, with the source it reads. *)
Record query := mkQuery {
  q_src : HeaderSource;
  q_parent : BlockHeader;
  q_height : Z;
  q_time : Z;
}.

Inductive request := Ask (q : query) | Reset.

Fixpoint serve (d : Difficulty) (rs : list request) : list (query * result (option NBit)) :=
  match rs with
  | [] => []
  | Reset :: rs => serve (ResetCache d) rs
  | Ask q :: rs =>
      let '(r, d) := CalcNextWorkRequiredFrom (q_src q) d (q_parent q) (q_height q) (q_time q) in
      (q, r) :: serve d rs
  end.

(** The question is about a block of [T] and its source is honest about [T]. *)
Definition query_ok (T : Tree) (q : query) : Prop :=
  HeaderSourceSpec (q_src q) T ∧ is_u32 (q_height q) ∧
  ∃ c, T (header_hash (q_parent q)) = Some c ∧ ch_header c = q_parent q.

Definition request_ok (T : Tree) (r : request) : Prop :=
  match r with Ask q => query_ok T q | Reset => True end.

Lemma NewDifficulty_ok T params cache d : NewDifficulty params cache = Ok d →
  cache_ok T params (powLimitnBits d) d.
Proof. unfold NewDifficulty. case_match; [|done]. by intros [= <-]. Qed.

Lemma ResetCache_ok T params pow d : cache_ok T params pow d → cache_ok T params pow (ResetCache d).
Proof. by intros [? ? ? ?]. Qed.

Lemma serve_ok T params pow d rs :
  tree_ok T → cache_ok T params pow d → Forall (request_ok T) rs →
  Forall (λ '(q, r), res_agree r (required T params pow (q_parent q) (q_height q) (q_time q)))
    (serve d rs).
Proof.
  intros HT Hd Hrs. revert d Hd.
  induction Hrs as [|[q|] rs Hq Hrs IH]; intros d Hd; cbn [serve]; [constructor|..].
  - destruct Hq as (HS & Hh & c & Hc & Hp).
    pose proof (CalcNext_agrees T params pow (q_src q) HS HT d (q_parent q) (q_height q)
                  (q_time q) c Hd Hc Hp Hh) as [Hr Hd'].
    destruct (CalcNextWorkRequiredFrom _ _ _ _ _) as [r d']. constructor; [done|by apply IH].
  - by apply IH, ResetCache_ok.
Qed.

(** The calculator after those questions and resets. *)
Fixpoint served (d : Difficulty) (rs : list request) : Difficulty :=
  match rs with
  | [] => d
  | Reset :: rs => served (ResetCache d) rs
  | Ask q :: rs => served (CalcNextWorkRequiredFrom (q_src q) d (q_parent q) (q_height q) (q_time q)).2 rs
  end.

Lemma served_ok T params pow d rs :
  tree_ok T → cache_ok T params pow d → Forall (request_ok T) rs → cache_ok T params pow (served d rs).
Proof.
  intros HT Hd Hrs. revert d Hd.
  induction Hrs as [|[q|] rs Hq Hrs IH]; intros d Hd; cbn [served]; [done|..]; apply IH.
  - destruct Hq as (HS & Hh & c & Hc & Hp).
    by apply (CalcNext_agrees T params pow (q_src q) HS HT d (q_parent q) (q_height q) (q_time q) c).
  - by apply ResetCache_ok.
Qed.

(** Every answer of a calculator, after any sequence of questions and cache
    resets, is the value the block tree alone determines: neither cache, nor
    the batching of the ancestry reads, nor which honest source was asked,
    shows in an answer. *)
Theorem calculator_answers (T : Tree) (params : ChainParams) (cache : bool) (d : Difficulty)
    (rs : list request) :
  tree_ok T → NewDifficulty params cache = Ok d → Forall (request_ok T) rs →
  Forall (λ '(q, r), res_agree r
            (required T params (powLimitnBits d) (q_parent q) (q_height q) (q_time q)))
    (serve d rs).
Proof. intros. apply serve_ok; [done| |done]. by eapply NewDifficulty_ok. Qed.

(** A block's bits are accepted exactly when they are the required ones. *)
Theorem ValidateBlockHeaderDifficulty_spec (T : Tree) (params : ChainParams) (pow : NBit)
    (src : HeaderSource) (d : Difficulty) (newBlock prev : BlockHeader) (height time : Z)
    (c : cachedHeader) :
  HeaderSourceSpec src T → tree_ok T → cache_ok T params pow d →
  T (header_hash prev) = Some c → ch_header c = prev → is_u32 height →
  fst (ValidateBlockHeaderDifficulty src d newBlock prev height time) = Ok () ↔
  required T params pow prev height time = Ok (Some (Bits newBlock)).
Proof.
  intros HS HT Hd Hc Hp Hh.
  pose proof (CalcNext_agrees T params pow src HS HT d prev height time c Hd Hc Hp Hh) as [Hr _].
  unfold ValidateBlockHeaderDifficulty.
  destruct (CalcNextWorkRequiredFrom _ _ _ _ _) as [[[b|]|e] d'];
    destruct (required _ _ _ _ _ _) as [b'|]; simpl in *; simplify_eq; try done.
  case_bool_decide; split; congruence.
Qed.

End Runs.

(** ** The arithmetic of the two adjustments *)
Section Arithmetic.
  Context {SC : SafeConversion} (SCS : SafeConversionSpec SC).

(** [nb] encodes the target [t] rounded down. *)
Definition encodes (nb : NBit) (t : Z) : Prop :=
  CalculateTarget nb ≤ t ∧ (t - CalculateTarget nb) * 2^15 ≤ t.

(** The value the tail of both routines encodes. *)
Lemma clip_and_encode_spec params limit t :
  PowLimit params = Some limit → 0 ≤ limit < 2^256 → 0 ≤ t →
  ∃ nb, clip_and_encode params t = Ok (Some nb) ∧ encodes nb (Z.min t limit).
Proof.
  intros Hl Hlim Ht. unfold clip_and_encode. rewrite Hl.
  rewrite if_gt_min.
  destruct (BigToCompact_ok SCS (Z.min t limit)) as (c & b & -> & Hb & H1 & H2); [lia|].
  cbn [bindR]. rewrite Hb. cbn [bindR]. by exists b.
Qed.

(** The modern adjustment.  With [D] the time between the two suitable
    blocks, as a 32-bit difference clamped to half and twice the window's
    nominal length, the new target is [(2^256 - W) / W] for [W] the work done
    scaled by [spacing / D], capped by the limit and rounded down by the
    compact form. *)
Theorem ComputeTarget_spec params limit first last :
  let spacing := TargetTimePerBlock params in
  let work := be_decode (sb_ChainWork last) - be_decode (sb_ChainWork first) in
  let D := Z.max (72 * spacing) (Z.min (288 * spacing) (u32 (sb_Time last - sb_Time first))) in
  let W := work * spacing / D in
  NoDifficultyAdjustment params = false → PowLimit params = Some limit →
  0 ≤ limit < 2^256 → 0 < spacing → 0 < W ≤ 2^256 →
  ∃ nb, ComputeTarget params first last = Ok (Some nb) ∧
    encodes nb (Z.min ((2^256 - W) / W) limit).
Proof.
  intros spacing work D W Hno Hl Hlim Hsp HW. unfold ComputeTarget. rewrite Hno. fold spacing work.
  cbv zeta. rewrite if_clamp_hi_lo by lia. fold D. assert (0 < D) by lia.
  rewrite (proj2 (Z.eqb_neq D 0)) by lia. unfold big_Div at 1.
  rewrite (proj2 (Z.eqb_neq D 0)), (proj2 (Z.ltb_ge D 0)) by lia. cbn [bindR]. fold W.
  rewrite (proj2 (Z.eqb_neq W 0)) by lia. unfold big_Div.
  rewrite (proj2 (Z.eqb_neq W 0)), (proj2 (Z.ltb_ge W 0)) by lia. cbn [bindR].
  apply (clip_and_encode_spec params limit); [done|done|]. apply Z.div_pos; lia.
Qed.

(** At a 2016-block boundary the target changes by a factor between a
    quarter and four, never exceeds the limit, and is the parent's target
    scaled by the elapsed time when that lies within the bounds. *)
Theorem historical_retarget_spec params limit parent first :
  let spacing := TargetTimePerBlock params in
  let old := CalculateTarget (Bits parent) in
  let elapsed := Z.max (504 * spacing)
                   (Z.min (8064 * spacing) (Timestamp parent - Timestamp first)) in
  PowLimit params = Some limit → 0 ≤ limit < 2^256 → 0 < spacing →
  ∃ nb, historical_retarget params parent first = Ok (Some nb) ∧
    encodes nb (Z.min (old * elapsed / (2016 * spacing)) limit) ∧
    old / 4 ≤ old * elapsed / (2016 * spacing) ≤ 4 * old.
Proof.
  intros spacing old elapsed Hl Hlim Hsp. unfold historical_retarget, interval. fold spacing old.
  pose proof (CalculateTarget_range (Bits parent)) as [Hold _]. fold old in Hold.
  assert (Z.quot (2016 * spacing) 4 = 504 * spacing) as ->.
  { rewrite Z.quot_div_nonneg by lia. rewrite (Z.mul_comm 504).
    symmetry. apply Z.div_unique with 0; lia. }
  cbv zeta.
  replace (2016 * spacing * 4) with (8064 * spacing) by lia.
  rewrite if_clamp_lo_hi by lia. fold elapsed.
  unfold big_Div.
  rewrite (proj2 (Z.eqb_neq (2016 * spacing) 0)), (proj2 (Z.ltb_ge (2016 * spacing) 0)) by lia.
  cbn [bindR].
  assert (504 * spacing ≤ elapsed ≤ 8064 * spacing) as He by lia.
  destruct (clip_and_encode_spec params limit (old * elapsed / (2016 * spacing)))
    as (nb & Hnb & Henc); [done|done|apply Z.div_pos; nia|].
  exists nb. split; [done|]. split; [done|]. clearbody elapsed old. split.
  - apply Z.div_le_lower_bound; [lia|]. pose proof (Z.div_mod old 4 ltac:(lia)).
    pose proof (Z.mod_pos_bound old 4 ltac:(lia)). nia.
  - apply Z.div_le_upper_bound; [lia|]. nia.
Qed.

(** When the newer suitable block carries an earlier time, the 32-bit
    difference wraps and the duration is clamped to the upper bound of 288
    spacings instead of the lower bound of 72: the target is the one of an
    interval that took twice its nominal time. *)
Lemma ComputeTarget_wrapped_duration params first last :
  let spacing := TargetTimePerBlock params in
  is_u32 (sb_Time first) → is_u32 (sb_Time last) →
  0 < sb_Time first - sb_Time last < 2^31 → 0 < 288 * spacing < 2^31 →
  ComputeTarget params first last =
  ComputeTarget params
    (mkSuitable (sb_Hash first) (sb_Height first) (sb_NBits first) 0 (sb_ChainWork first))
    (mkSuitable (sb_Hash last) (sb_Height last) (sb_NBits last) (288 * spacing) (sb_ChainWork last)).
Proof.
  intros spacing Hf Hl Hd Hs. unfold ComputeTarget. cbn [sb_Hash sb_Height sb_NBits sb_Time sb_ChainWork].
  destruct (NoDifficultyAdjustment params); [done|]. fold spacing.
  rewrite (u32_small (288 * spacing - 0)) by lia.
  assert (u32 (sb_Time last - sb_Time first) = sb_Time last - sb_Time first + 2^32) as ->.
  { unfold u32. symmetry. apply Z.mod_unique with (-1); lia. }
  rewrite (proj2 (Z.gtb_lt (sb_Time last - sb_Time first + 2^32) (288 * spacing))) by lia.
  destruct (Z.gtb_spec (288 * spacing - 0) (288 * spacing)); [lia|].
  rewrite (proj2 (Z.ltb_ge (288 * spacing - 0) (72 * spacing))) by lia.
  by rewrite Z.sub_0_r.
Qed.

End Arithmetic.

(** ** Concrete inputs *)
Definition ex_query : query :=
  mkQuery (tree_source (H := model_Chainhash) (extend ex_cache ex_trunk)) ex_tip 1 3000.

Lemma ex_tree_ok : tree_ok (CH := model_Chainhash) (extend ex_cache ex_trunk).
Proof.
  intros h c. unfold extend. destruct (ex_cache h) as [c'|] eqn:E.
  - intros [= <-]. by apply tree_of_1 in E as [-> ->].
  - by intros [-> ->]%tree_of_1.
Qed.

Lemma ex_query_ok : request_ok (CH := model_Chainhash) (extend ex_cache ex_trunk) (Ask ex_query).
Proof.
  split; [apply tree_source_spec|]. split; [simpl; lia|].
  exists (mkCached ex_tip 1 []). split; [vm_compute; reflexivity|done].
Qed.

Lemma calculator_answers_witness :
  ∃ d, NewDifficulty ex_params true = Ok d ∧
    Forall (λ '(q, r), res_agree r
       (required (CH := model_Chainhash) (SC := model_SafeConversion)
          (extend ex_cache ex_trunk) ex_params (powLimitnBits d)
          (q_parent q) (q_height q) (q_time q)))
      (serve (CH := model_Chainhash) (SC := model_SafeConversion) d
         [Ask ex_query; Reset; Ask ex_query]).
Proof.
  eexists. split; [reflexivity|].
  apply (calculator_answers (CH := model_Chainhash) (SC := model_SafeConversion)
           (extend ex_cache ex_trunk) ex_params true);
    [exact ex_tree_ok|reflexivity|].
  exact (Forall_cons_2 _ _ _ ex_query_ok
           (Forall_cons_2 _ Reset _ I (Forall_cons_2 _ _ _ ex_query_ok (Forall_nil_2 _)))).
Defined.

Lemma ValidateBlockHeaderDifficulty_spec_witness :
  ∃ d, NewDifficulty ex_params true = Ok d ∧
    (fst (ValidateBlockHeaderDifficulty (CH := model_Chainhash) (SC := model_SafeConversion)
       (tree_source (H := model_Chainhash) (extend ex_cache ex_trunk)) d ex_root ex_tip 1 3000) = Ok () ↔
     required (CH := model_Chainhash) (SC := model_SafeConversion) (extend ex_cache ex_trunk)
       ex_params (powLimitnBits d) ex_tip 1 3000 = Ok (Some (Bits ex_root))).
Proof.
  eexists. split; [reflexivity|].
  apply (ValidateBlockHeaderDifficulty_spec (CH := model_Chainhash) (SC := model_SafeConversion)
    _ ex_params _ _ _ ex_root ex_tip 1 3000 (mkCached ex_tip 1 []));
    [apply tree_source_spec|exact ex_tree_ok|by eapply NewDifficulty_ok
    |vm_compute; reflexivity|reflexivity|simpl; lia].
Defined.

Definition ex_suitable (time work : Z) : SuitableBlock :=
  mkSuitable [] 0 [Byte.xff; Byte.xff; Byte.x00; Byte.x1d] time (rev (le_encode 32 work)).

Definition ex_mainnet : ChainParams := {|
  PowLimit := Some (2^224 - 1); PowLimitBits := 0x1d00ffff;
  NoDifficultyAdjustment := false; ReduceMinDifficulty := false;
  GenerateSupported := false; IsSTN := false; TargetTimePerBlock := 600;
  DaaForkHeight := 504031; UahfForkHeight := 478558; BIP0034Height := 227931;
  BIP0065Height := 388381; BIP0066Height := 363725; CSVHeight := 419328;
  GenesisActivationHeight := 620538; SubsidyReductionInterval := 210000;
  MaxCoinbaseScriptSigSize := 100;
  CoinbaseMaturity := 100; Checkpoints := [] |}.

Lemma ComputeTarget_spec_witness :
  ∃ nb, ComputeTarget (SC := model_SafeConversion) ex_mainnet
          (ex_suitable 1000000 0) (ex_suitable 1086400 (144 * 2^40)) = Ok (Some nb) ∧
        CalculateTarget nb ≤ Z.min ((2^256 - 2^40) / 2^40) (2^224 - 1).
Proof.
  destruct (ComputeTarget_spec model_SafeConversion_spec ex_mainnet (2^224 - 1)
    (ex_suitable 1000000 0) (ex_suitable 1086400 (144 * 2^40))) as (nb & H1 & H2 & _);
    [done|done|by vm_compute|done|by vm_compute|].
  exists nb. split; [exact H1|exact H2].
Defined.

Lemma historical_retarget_spec_witness :
  ∃ nb, historical_retarget (SC := model_SafeConversion) ex_mainnet
    (mkHeader 1 zero_hash zero_hash 3000000 (mkNBit Byte.xff Byte.xff Byte.x00 Byte.x1c) 0)
    (mkHeader 1 zero_hash zero_hash 2000000 (mkNBit Byte.xff Byte.xff Byte.x00 Byte.x1c) 0)
    = Ok (Some nb) ∧ CalculateTarget nb ≤ 2^224 - 1.
Proof.
  destruct (historical_retarget_spec model_SafeConversion_spec ex_mainnet (2^224 - 1)
    (mkHeader 1 zero_hash zero_hash 3000000 (mkNBit Byte.xff Byte.xff Byte.x00 Byte.x1c) 0)
    (mkHeader 1 zero_hash zero_hash 2000000 (mkNBit Byte.xff Byte.xff Byte.x00 Byte.x1c) 0))
    as (nb & H1 & (H2 & _) & _); [done|by vm_compute|done|].
  exists nb. split; [exact H1|]. exact (Z.le_trans _ _ _ H2 (Z.le_min_r _ _)).
Defined.
