(* ===== verification/CatchupDifficulty.v ===== *)
(** * Difficulty of a fetched header chain

    services/blockvalidation/catchup_difficulty.go: the precheck that recomputes
    the required bits of a peer's headers from the headers themselves, and the
    proof that it asks for exactly what the store-backed calculator asks for. *)

From S2P Require Import Prelude External NBits BlockHeader MedianTime HeaderSource Difficulty.

Section Catchup.
  Context {SC : SafeConversion}.

Definition powLimitNBit (params : ChainParams) : option NBit :=
  nbit_ptr (uint32ToBytes (PowLimitBits params)).

(** Cumulative chain work per header. *)
Definition add_work (acc : Z) (h : BlockHeader) : Z :=
  acc + CalcBlockWork (nbit_u32 (Bits h)).

Definition cumulative_work (acc : Z) (headers : list BlockHeader) : list Z :=
  scan_left add_work acc headers.

Section Chain.
  Context (params : ChainParams) (anchor : BlockHeaderMeta).
  Context (headers : list BlockHeader) (cumWork : list Z).

Definition catchup_suitable (idx : nat) : result SuitableBlock :=
  match headers !! idx, cumWork !! idx with
  | Some h, Some w =>
      Ok (mkSuitable [] (u32 (hm_Height anchor + 1 + u32 (Z.of_nat idx)))
            (CloneBytes (Bits h)) (Timestamp h) (big_bytes w))
  | _, _ => Err panic
  end.

Definition median3 (idx : nat) : result SuitableBlock :=
  let? a := catchup_suitable (idx - 2) in
  let? b := catchup_suitable (idx - 1) in
  let? c := catchup_suitable idx in
  let? s := SortForDifficultyAdjustment sb_Time [a; b; c] in
  match s !! 1%nat with Some m => Ok m | None => Err panic end.

Definition parent_height (parentIdx : nat) : Z :=
  u32 (hm_Height anchor + 1 + u32 (Z.of_nat parentIdx)).

(** Header [i] against its parent [i - 1]. *)
Definition check_header (i : nat) : result unit :=
  let parentIdx := (i - 1)%nat in
  let firstIdx := Z.of_nat parentIdx - Z.of_nat DifficultyAdjustmentWindow in
  if firstIdx <? 2 then Ok () else
  let parentHeight := parent_height parentIdx in
  if (parentHeight <? DaaForkHeight params) && negb (IsSTN params) then Ok () else
  match headers !! i, headers !! parentIdx with
  | Some header, Some parent =>
      let? expected :=
        if ReduceMinDifficulty params &&
           (Timestamp header >? Timestamp parent + 2 * TargetTimePerBlock params)
        then Ok (powLimitNBit params)
        else if parentHeight <? Z.of_nat DifficultyAdjustmentWindow + 4
        then Ok (powLimitNBit params)
        else
          let? lastSuitable := median3 parentIdx in
          let? firstSuitable := median3 (Z.to_nat firstIdx) in
          wrapR ERR_PROCESSING (ComputeTarget params firstSuitable lastSuitable) in
      match expected with
      | None => Err panic
      | Some expected =>
          if bool_decide (Bits header = expected) then Ok ()
          else Err (err ERR_NETWORK_PEER_MALICIOUS)
      end
  | _, _ => Err panic
  end.

Fixpoint check_headers (idxs : list nat) : result unit :=
  match idxs with
  | [] => Ok ()
  | i :: idxs => let? _ := check_header i in check_headers idxs
  end.
End Chain.

Definition validateHeaderChainDifficulty (params : ChainParams)
    (anchor : option BlockHeaderMeta) (headers : list BlockHeader) : result unit :=
  if NoDifficultyAdjustment params then Ok () else
  match anchor, headers with
  | None, _ | _, [] => Ok ()
  | Some anchor, _ =>
      let cumWork := cumulative_work (be_decode (hm_ChainWork anchor)) headers in
      check_headers params anchor headers cumWork (seq 1 (length headers - 1))
  end.

(** * Theorems *)

(** What [ComputeTarget] reads of a suitable block. *)
Definition same_block (a b : SuitableBlock) : Prop :=
  sb_Time a = sb_Time b ∧ sb_NBits a = sb_NBits b ∧
  be_decode (sb_ChainWork a) = be_decode (sb_ChainWork b).

Lemma ComputeTarget_same params f f' l l' : same_block f f' → same_block l l' →
  ComputeTarget params f l = ComputeTarget params f' l'.
Proof.
  intros (Hf1 & Hf2 & Hf3) (Hl1 & Hl2 & Hl3). unfold ComputeTarget.
  by rewrite Hf1, Hl1, Hl2, Hf3, Hl3.
Qed.

(** The sorting network only looks at times, so it permutes related blocks in
    the same way. *)
Lemma median_same a a' b b' c c' :
  same_block a a' → same_block b b' → same_block c c' →
  ∃ m m', getMedianBlock [a; b; c] = Ok m ∧ getMedianBlock [a'; b'; c'] = Ok m' ∧
          same_block m m'.
Proof.
  intros Ha Hb Hc. pose proof (proj1 Ha) as Ta. pose proof (proj1 Hb) as Tb.
  pose proof (proj1 Hc) as Tc.
  unfold getMedianBlock, SortForDifficultyAdjustment. cbn [length]. rewrite !bool_decide_true by done.
  rewrite ?Ta, ?Tb, ?Tc.
  do 3 (match goal with |- context [if ?u >? ?v then _ else _] => destruct (u >? v) end;
        cbv beta iota; rewrite ?Ta, ?Tb, ?Tc);
    (eexists _, _; split; [reflexivity|]; split; [reflexivity|]; done).
Qed.

Lemma add_work_le acc h : acc ≤ add_work acc h.
Proof. unfold add_work. pose proof (CalcBlockWork_nonneg (Bits h)). lia. Qed.

Lemma cumulative_work_lookup acc headers i :
  (i < length headers)%nat → 0 ≤ acc →
  ∃ w, cumulative_work acc headers !! i = Some w ∧ 0 ≤ w.
Proof.
  unfold cumulative_work.
  revert acc i; induction headers as [|h headers IH]; intros acc i Hi Ha; simpl in Hi; [lia|].
  pose proof (add_work_le acc h). destruct i as [|i]; cbn [scan_left lookup list_lookup].
  - exists (add_work acc h). split; [done|lia].
  - apply IH; lia.
Qed.


(** A run of blocks the tree holds, each the parent of the next, with the stored
    chain work that accumulates from [w0]. *)
Record stored_run `{Chainhash} (T : Tree) (w0 : Z) (bs : list cachedHeader) : Prop := {
  run_stored i c : bs !! i = Some c → T (header_hash (ch_header c)) = Some c;
  run_linked i c c' : bs !! i = Some c → bs !! S i = Some c' →
    prev_of c' = header_hash (ch_header c);
  run_work : (λ c, be_decode (ch_chainWork c)) <$> bs =
    cumulative_work w0 (ch_header <$> bs);
}.

Section Agreement.
  Context {CH : Chainhash}.
  Context (T : Tree) (params : ChainParams) (anchor : BlockHeaderMeta) (bs : list cachedHeader).
Let w0 := be_decode (hm_ChainWork anchor).
Let headers := ch_header <$> bs.
Let cum := cumulative_work w0 headers.
  Context (HR : stored_run T w0 bs).

Lemma run_prev i c c' : bs !! S i = Some c' → bs !! i = Some c →
  T (header_hash (ch_header c')) = Some c' ∧ prev_of c' = header_hash (ch_header c).
Proof.
  intros Hc' Hc. split; [by eapply (run_stored _ _ _ HR)|by eapply (run_linked _ _ _ HR)].
Qed.

Lemma run_walk d i c c' : bs !! i = Some c' → (d ≤ i)%nat → bs !! (i - d)%nat = Some c →
  walk T (header_hash (ch_header c')) d = Some (header_hash (ch_header c)).
Proof.
  revert i c'; induction d as [|d IH]; intros i c' Hc' Hd Hc; cbn [walk];
    rewrite (run_stored _ _ _ HR _ _ Hc').
  - rewrite Nat.sub_0_r in Hc. congruence.
  - destruct i as [|i]; [lia|].
    destruct (lookup_lt_is_Some_2 bs i) as [p Hp]; [apply lookup_lt_Some in Hc'; lia|].
    rewrite (run_linked _ _ _ HR _ _ _ Hp Hc'). apply (IH i); [done|lia|done].
Qed.

Lemma run_candidate idx c : bs !! idx = Some c →
  ∃ s, catchup_suitable anchor headers cum idx = Ok s ∧ same_block s (suitable_of c).
Proof.
  intros Hc. unfold catchup_suitable, headers. rewrite list_lookup_fmap, Hc. cbn [fmap option_fmap option_map].
  destruct (cumulative_work_lookup w0 headers idx) as (w & Hw & Hw0).
  { unfold headers. rewrite length_fmap. by eapply lookup_lt_Some. }
  { unfold w0, be_decode. eapply proj1; eauto with go. }
  fold cum in Hw. rewrite Hw. eexists. split; [reflexivity|].
  split; [done|split; [done|]]. cbn [sb_ChainWork suitable_of].
  unfold be_decode at 1. rewrite le_decode_big_bytes by done.
  pose proof (run_work _ _ _ HR) as Hwork. fold headers cum in Hwork.
  rewrite <- Hwork, list_lookup_fmap, Hc in Hw. by injection Hw.
Qed.

Lemma run_median idx c : (2 ≤ idx)%nat → bs !! idx = Some c →
  ∃ m m', median3 anchor headers cum idx = Ok m ∧
    tree_suitable T (header_hash (ch_header c)) = Ok m' ∧ same_block m m'.
Proof.
  intros Hidx Hc. pose proof (lookup_lt_Some _ _ _ Hc) as Hlt.
  destruct idx as [|[|idx]]; [lia..|].
  destruct (lookup_lt_is_Some_2 bs (S idx)) as [c1 H1]; [lia|].
  destruct (lookup_lt_is_Some_2 bs idx) as [c2 H2]; [lia|].
  destruct (run_candidate _ _ Hc) as (s0 & E0 & S0), (run_candidate _ _ H1) as (s1 & E1 & S1),
    (run_candidate _ _ H2) as (s2 & E2 & S2).
  destruct (median_same _ _ _ _ _ _ S2 S1 S0) as (m & m' & Hm & Hm' & Hs).
  exists m, m'. split_and!; [| |done].
  - unfold median3. replace (S (S idx) - 2)%nat with idx by lia.
    replace (S (S idx) - 1)%nat with (S idx) by lia.
    rewrite E2, E1, E0. cbn [bindR]. exact Hm.
  - unfold tree_suitable. destruct (run_prev _ _ _ Hc H1) as [T0 P0].
    destruct (run_prev _ _ _ H1 H2) as [T1 P1].
    cbn [chain]. rewrite T0, P0, T1, P1, (run_stored _ _ _ HR _ _ H2). exact Hm'.
Qed.

(** One header of the precheck against the calculator's requirement. *)
Lemma check_header_agrees pow i c p :
  hm_Height anchor + Z.of_nat (length bs) < 2^32 → 0 ≤ hm_Height anchor →
  powLimitNBit params = Some pow → NoDifficultyAdjustment params = false →
  (147 ≤ i)%nat → bs !! i = Some c → bs !! (i - 1)%nat = Some p →
  let height := hm_Height anchor + Z.of_nat i in
  DaaForkHeight params ≤ height ∨ IsSTN params = true →
  check_header params anchor headers cum i = Ok () ↔
  required T params pow (ch_header p) height (Timestamp (ch_header c)) = Ok (Some (Bits (ch_header c))).
Proof.
  intros Hlen Hh0 Hpow Hno Hi Hc Hp height Hdaa. pose proof (lookup_lt_Some _ _ _ Hc).
  unfold check_header, required, parent_height. rewrite Hno, Hpow.
  change (Z.of_nat DifficultyAdjustmentWindow) with 144.
  rewrite (proj2 (Z.ltb_ge _ 2)) by lia.
  rewrite (u32_small (Z.of_nat (i - 1))), (u32_small (hm_Height anchor + 1 + Z.of_nat (i - 1))) by lia.
  replace (hm_Height anchor + 1 + Z.of_nat (i - 1)) with height by lia.
  assert ((height <? DaaForkHeight params) && negb (IsSTN params) = false) as ->.
  { destruct Hdaa as [?| ->]; [|by rewrite andb_false_r]. by rewrite (proj2 (Z.ltb_ge _ _)) by lia. }
  unfold headers at 1 2. rewrite !list_lookup_fmap, Hc, Hp. cbn [fmap option_fmap option_map].
  assert (Hb : ∀ b, (match Some b with
                     | Some e => if bool_decide (Bits (ch_header c) = e) then Ok ()
                                 else Err (err ERR_NETWORK_PEER_MALICIOUS)
                     | None => Err panic end) = Ok () ↔ Ok (A := option NBit) (Some b) = Ok (Some (Bits (ch_header c)))).
  { intros b. case_bool_decide; split; congruence. }
  change (144 + 4) with 148.
  destruct (_ && (_ >? _)); [apply Hb|]. destruct (height <? 148); [apply Hb|].
  destruct (lookup_lt_is_Some_2 bs (i - 1 - 144)) as [q Hq]; [lia|].
  destruct (run_median (i - 1) p) as (l & l' & El & El' & Sl); [lia|done|].
  destruct (run_median (i - 1 - 144) q) as (f & f' & Ef & Ef' & Sf); [lia|done|].
  replace (Z.to_nat (Z.of_nat (i - 1) - 144)) with (i - 1 - 144)%nat by lia.
  rewrite El, Ef. cbn [bindR]. unfold daa_required. rewrite El'. cbn [bindR].
  unfold DifficultyAdjustmentWindow. rewrite (run_walk 144 (i - 1) q p) by (done || lia).
  cbn [default from_option]. unfold id. rewrite Ef'. cbn [bindR].
  rewrite (ComputeTarget_same _ _ _ _ _ Sf Sl).
  destruct (ComputeTarget params f' l') as [[b|]|e]; cbn [wrapR bindR]; [apply Hb|done|done].
Qed.

Lemma check_headers_Ok is' : check_headers params anchor headers cum is' = Ok () ↔
  ∀ i, i ∈ is' → check_header params anchor headers cum i = Ok ().
Proof.
  induction is' as [|i is' IH]; cbn [check_headers]; [split; [by intros _ i ?%elem_of_nil|done]|].
  rewrite bindR_Ok. setoid_rewrite elem_of_cons. split.
  - intros ([] & Hi & Hr) j [->|Hj]; [done|]. by apply IH.
  - intros Hall. exists (). split; [by apply Hall; left|]. apply IH. auto.
Qed.

Lemma check_header_skipped i :
  hm_Height anchor + Z.of_nat (length bs) < 2^32 → 0 ≤ hm_Height anchor → (i < length bs)%nat →
  (i < 147)%nat ∨ (hm_Height anchor + Z.of_nat i < DaaForkHeight params ∧ IsSTN params = false) →
  (1 ≤ i)%nat → check_header params anchor headers cum i = Ok ().
Proof.
  intros Hlen Hh0 Hi Hs H1. unfold check_header, parent_height.
  change (Z.of_nat DifficultyAdjustmentWindow) with 144.
  destruct (Z.ltb_spec (Z.of_nat (i - 1) - 144) 2); [done|].
  rewrite (u32_small (Z.of_nat (i - 1))), u32_small by lia.
  destruct Hs as [?|[? ->]]; [lia|]. by rewrite (proj2 (Z.ltb_lt _ _)) by lia.
Qed.
End Agreement.

(** Header by header, against what the tree determines. *)
Lemma precheck_required `{Chainhash} (T : Tree) (params : ChainParams)
    (pow : NBit) (anchor : BlockHeaderMeta) (bs : list cachedHeader) :
  stored_run T (be_decode (hm_ChainWork anchor)) bs →
  0 ≤ hm_Height anchor → hm_Height anchor + Z.of_nat (length bs) < 2^32 →
  powLimitNBit params = Some pow → NoDifficultyAdjustment params = false →
  validateHeaderChainDifficulty params (Some anchor) (ch_header <$> bs) = Ok () ↔
  ∀ i c p, (147 ≤ i)%nat → bs !! i = Some c → bs !! (i - 1)%nat = Some p →
    DaaForkHeight params ≤ hm_Height anchor + Z.of_nat i ∨ IsSTN params = true →
    required T params pow (ch_header p) (hm_Height anchor + Z.of_nat i)
      (Timestamp (ch_header c)) = Ok (Some (Bits (ch_header c))).
Proof.
  intros HR Hh0 Hlen Hpow Hno. unfold validateHeaderChainDifficulty. rewrite Hno.
  destruct bs as [|b0 bs'] eqn:Ebs; [split; [by intros _ i c p|done]|rewrite <- Ebs in *].
  assert (match ch_header <$> bs with
          | [] => Ok ()
          | _ :: _ => check_headers params anchor (ch_header <$> bs)
              (cumulative_work (be_decode (hm_ChainWork anchor)) (ch_header <$> bs))
              (seq 1 (length (ch_header <$> bs) - 1))
          end = check_headers params anchor (ch_header <$> bs)
              (cumulative_work (be_decode (hm_ChainWork anchor)) (ch_header <$> bs))
              (seq 1 (length bs - 1))) as -> by (rewrite length_fmap; by rewrite Ebs).
  rewrite check_headers_Ok. split.
  - intros Hall i c p Hi Hc Hp Hd.
    apply (check_header_agrees T params anchor bs HR pow i c p Hlen Hh0 Hpow Hno Hi Hc Hp Hd).
    apply Hall. apply elem_of_seq. apply lookup_lt_Some in Hc. lia.
  - intros Hreq i [Hi1 Hi2]%elem_of_seq.
    destruct (decide ((147 ≤ i)%nat ∧ (DaaForkHeight params ≤ hm_Height anchor + Z.of_nat i ∨
                       IsSTN params = true))) as [[Hi Hd]|Hskip].
    + destruct (lookup_lt_is_Some_2 bs i) as [c Hc]; [lia|].
      destruct (lookup_lt_is_Some_2 bs (i - 1)) as [p Hp]; [lia|].
      apply (check_header_agrees T params anchor bs HR pow i c p Hlen Hh0 Hpow Hno Hi Hc Hp Hd).
      by apply (Hreq i c p).
    + apply check_header_skipped; try done; [lia|].
      destruct (decide (147 ≤ i)%nat); [right|left; lia].
      destruct (IsSTN params); [tauto|]. split; [lia|done].
Qed.

(** C36: over a fetched run of headers that the tree would store, the in-memory
    precheck accepts exactly when every header it looks at carries the bits that the
    store-backed calculator answers for its parent, height and time, whatever the
    calculator was asked before and whichever of its caches are filled.  The precheck
    looks at a header only when at least 147 of the fetched headers come before it and
    its parent is at or past the DAA fork (or the network is the scaling test network);
    it lets the other headers of the run pass. *)
Theorem validateHeaderChainDifficulty_spec `{Chainhash} (T : Tree) (params : ChainParams)
    (cache : bool) (d0 : Difficulty) (rs : list request) (src : HeaderSource)
    (anchor : BlockHeaderMeta) (bs : list cachedHeader) :
  NewDifficulty params cache = Ok d0 → tree_ok T → Forall (request_ok T) rs → HeaderSourceSpec src T →
  stored_run T (be_decode (hm_ChainWork anchor)) bs →
  0 ≤ hm_Height anchor → hm_Height anchor + Z.of_nat (length bs) < 2^32 →
  NoDifficultyAdjustment params = false →
  validateHeaderChainDifficulty params (Some anchor) (ch_header <$> bs) = Ok () ↔
  ∀ i c p, (147 ≤ i)%nat → bs !! i = Some c → bs !! (i - 1)%nat = Some p →
    DaaForkHeight params ≤ hm_Height anchor + Z.of_nat i ∨ IsSTN params = true →
    (CalcNextWorkRequiredFrom src (served d0 rs) (ch_header p) (hm_Height anchor + Z.of_nat i)
      (Timestamp (ch_header c))).1 = Ok (Some (Bits (ch_header c))).
Proof.
  intros Hnew HT Hrs HS HR Hh0 Hlen Hno.
  assert (Hpow : powLimitNBit params = Some (powLimitnBits d0)).
  { unfold powLimitNBit. unfold NewDifficulty in Hnew. destruct (nbit_ptr _); [by injection Hnew as <-|done]. }
  rewrite (precheck_required T params (powLimitnBits d0) anchor bs HR Hh0 Hlen Hpow Hno).
  assert (Hd : cache_ok T params (powLimitnBits d0) (served d0 rs)).
  { apply served_ok; [done| |done]. by eapply NewDifficulty_ok. }
  split; intros Hall i c p Hi Hc Hp Hdaa; specialize (Hall i c p Hi Hc Hp Hdaa);
    pose proof (lookup_lt_Some _ _ _ Hc);
    destruct (CalcNext_agrees T params (powLimitnBits d0) src HS HT (served d0 rs) (ch_header p)
      (hm_Height anchor + Z.of_nat i) (Timestamp (ch_header c)) p Hd
      (run_stored _ _ _ HR _ _ Hp) eq_refl ltac:(lia)) as [Hr _].
  - rewrite Hall in Hr. destruct (CalcNextWorkRequiredFrom _ _ _ _ _) as [[b|e] d']; simpl in *; [congruence|done].
  - destruct (CalcNextWorkRequiredFrom _ _ _ _ _) as [r d']; simpl in *; subst r.
    destruct (required _ _ _ _ _ _); simpl in Hr; [congruence|done].
Qed.

End Catchup.

(** ** A concrete run of 150 blocks

    All blocks carry the regtest limit, ten minutes apart, on a network that
    does adjust its difficulty. *)
Definition ex_daa_params : ChainParams := {|
  PowLimit := Some (2^255 - 1); PowLimitBits := 0x207fffff;
  NoDifficultyAdjustment := false; ReduceMinDifficulty := false;
  GenerateSupported := false; IsSTN := false; TargetTimePerBlock := 600;
  DaaForkHeight := 0; UahfForkHeight := 0; BIP0034Height := 0;
  BIP0065Height := 0; BIP0066Height := 0; CSVHeight := 0;
  GenesisActivationHeight := 0; SubsidyReductionInterval := 210000;
  MaxCoinbaseScriptSigSize := 100;
  CoinbaseMaturity := 100; Checkpoints := [] |}.

Definition ex_bits : NBit := mkNBit Byte.xff Byte.xff Byte.x7f Byte.x20.

(** Blocks of this run differ in their time, which can stand for the hash. *)
Definition time_Chainhash : Chainhash := {|
  DoubleHashH l := hash_of_Z (le_decode (slice 68 72 l));
  HashH := model_hash;
  NewHash := @NewHash model_Chainhash;
|}.

Fixpoint ex_build (n : nat) (prev : Hash) (time height work : Z) : list cachedHeader :=
  match n with
  | O => []
  | S n =>
      let h := mkHeader 1 prev zero_hash time ex_bits 0 in
      mkCached h height (big_bytes (work + 2))
        :: ex_build n (header_hash (CH := time_Chainhash) h) (time + 600) (height + 1) (work + 2)
  end.

Definition ex_run : list cachedHeader := ex_build 150 zero_hash 1000000 1 0.
Definition ex_run_tree : Tree := λ h,
  match ex_run !! Z.to_nat ((hash_to_Z h - 1000000) / 600) with
  | Some c => if bool_decide (header_hash (CH := time_Chainhash) (ch_header c) = h)
              then Some c else None
  | None => None
  end.

(** A decision procedure for [stored_run]. *)
Definition run_check `{Chainhash} (T : Tree) (w0 : Z) (bs : list cachedHeader) : bool :=
  bool_decide (Forall (λ c, T (header_hash (ch_header c)) = Some c) bs) &&
  bool_decide (Forall (λ cc, prev_of cc.2 = header_hash (ch_header cc.1)) (zip bs (tail bs))) &&
  bool_decide ((λ c, be_decode (ch_chainWork c)) <$> bs = cumulative_work w0 (ch_header <$> bs)).

Lemma run_check_sound `{Chainhash} T w0 bs : run_check T w0 bs = true → stored_run T w0 bs.
Proof.
  unfold run_check. rewrite !andb_true_iff, !bool_decide_eq_true. intros [[Hs Hl] Hw].
  split; [| |exact Hw].
  - intros i c Hi. rewrite Forall_lookup in Hs. exact (Hs i c Hi).
  - intros i c c' Hc Hc'. rewrite Forall_lookup in Hl. apply (Hl i (c, c')).
    apply lookup_zip_with_Some. exists c, c'. rewrite lookup_tail. done.
Qed.

Lemma ex_stored_run : stored_run (H := time_Chainhash) ex_run_tree 0 ex_run.
Proof. apply run_check_sound. vm_compute. reflexivity. Qed.

Lemma ex_run_valid :
  validateHeaderChainDifficulty (SC := model_SafeConversion) ex_daa_params
    (Some (mkMeta 0 [])) (ch_header <$> ex_run) = Ok ().
Proof. vm_compute. reflexivity. Qed.

Definition ex_at (i : nat) : cachedHeader :=
  default (mkCached (mkHeader 1 zero_hash zero_hash 0 ex_bits 0) 0 []) (ex_run !! i).

Lemma ex_at_lookup i : (i < 150)%nat → ex_run !! i = Some (ex_at i).
Proof.
  intros Hi. unfold ex_at. destruct (lookup_lt_is_Some_2 ex_run i) as [c Hc]; [|by rewrite Hc].
  replace (length ex_run) with 150%nat by (vm_compute; reflexivity). exact Hi.
Qed.

Lemma ex_run_tree_ok : tree_ok (CH := time_Chainhash) ex_run_tree.
Proof.
  intros h c. unfold ex_run_tree. destruct (ex_run !! _) as [c'|]; [|done].
  case_bool_decide as Hh; [|done]. by intros [= <-].
Qed.

(** A calculator that was asked about the same parent before, so that its cache is filled. *)
Definition ex_asked : request :=
  Ask (mkQuery (tree_source (H := time_Chainhash) ex_run_tree) (ch_header (ex_at 148)) 149 1090000).

Lemma validateHeaderChainDifficulty_spec_witness :
  ∃ d0, NewDifficulty ex_daa_params true = Ok d0 ∧
  (CalcNextWorkRequiredFrom (CH := time_Chainhash) (SC := model_SafeConversion)
    (tree_source (H := time_Chainhash) ex_run_tree)
    (served (CH := time_Chainhash) (SC := model_SafeConversion) d0 [ex_asked])
    (ch_header (ex_at 148)) 149 (Timestamp (ch_header (ex_at 149)))).1
  = Ok (Some (Bits (ch_header (ex_at 149)))).
Proof.
  eexists. split; [reflexivity|].
  assert (Hasked : request_ok (CH := time_Chainhash) ex_run_tree ex_asked).
  { split; [apply tree_source_spec|]. split; [simpl; lia|]. exists (ex_at 148).
    split; [|reflexivity]. apply (run_stored _ _ _ ex_stored_run 148). apply ex_at_lookup. lia. }
  apply (proj1 (validateHeaderChainDifficulty_spec (H := time_Chainhash) (SC := model_SafeConversion)
    ex_run_tree ex_daa_params true _ [ex_asked] (tree_source (H := time_Chainhash) ex_run_tree) (mkMeta 0 [])
    ex_run eq_refl ex_run_tree_ok (Forall_cons_2 _ _ _ Hasked (Forall_nil_2 _)) (tree_source_spec _) ex_stored_run
    ltac:(simpl; lia) ltac:(vm_compute; reflexivity) eq_refl) ex_run_valid
    149%nat (ex_at 149) (ex_at 148));
    [lia|apply ex_at_lookup; lia|apply ex_at_lookup; lia|left; simpl; lia].
Defined.
