(* ===== verification/Utxo.v ===== *)
(** * UTXO values shared by the stores

    stores/utxo/utils.go, stores/utxo/spend/spending_data.go,
    stores/utxo/duplicate_spend.go and util/utxo_hash.go: which outputs enter
    the UTXO set, how an output is identified and hashed, what a spend record
    is, and the filter that keeps one batch from carrying two claims on one
    output. *)

From stdpp Require Import sorting.
From stdpp Require Import list.
From S2P Require Import Prelude External.

(** ** Spending data: [*SpendingData] is an option, and its [TxID] may be nil. *)
Record SpendingData := mkSpendingData { sd_TxID : option Hash; sd_Vin : Z }.

#[export] Instance SpendingData_eq_dec : EqDecision SpendingData.
Proof. solve_decision. Defined.

Definition NewSpendingData (txID : option Hash) (vin : Z) : option SpendingData :=
  match txID with
  | None => None
  | Some _ => Some (mkSpendingData txID vin)
  end.

Definition sd_Clone (sd : option SpendingData) : option SpendingData :=
  match sd with
  | None => None
  | Some sd => Some (mkSpendingData (sd_TxID sd) (sd_Vin sd))
  end.

(** [Bytes]: nil for a nil receiver, and no hash for a nil [TxID]. *)
Definition sd_Bytes (sd : option SpendingData) : list byte :=
  match sd with
  | None => []
  | Some sd => from_option hash_bytes [] (sd_TxID sd) ++ le_encode 4 (u32 (sd_Vin sd))
  end.

Section SpendingBytes.
  Context {CH : Chainhash}.

Definition NewSpendingDataFromBytes (b : list byte) : result SpendingData :=
  if bool_decide (length b < 36)%nat then Err (err ERR_UNKNOWN) else
  match NewHash (take 32 b) with
  | Err _ => Err (err ERR_UNKNOWN)
  | Ok txID => Ok (mkSpendingData (Some txID) (le_decode (slice 32 36 b)))
  end.
End SpendingBytes.

(** ** Spends

    Both constructors below set the [TxID] and [UTXOHash] pointers. *)
Record Spend := mkSpend {
  sp_TxID : Hash;
  sp_Vout : Z;
  sp_UTXOHash : Hash;
  sp_SpendingData : option SpendingData;
}.

#[export] Instance Spend_eq_dec : EqDecision Spend.
Proof. solve_decision. Defined.

Definition outpoint : Type := Hash * Z.
Definition sp_outpoint (s : Spend) : outpoint := (sp_TxID s, sp_Vout s).

Section Rules.
  Context {CH : Chainhash} {BT : BtTx} .

(** ** Output hashes *)
Definition UTXOHashInto (previousTxid : Hash) (index : Z) (lockingScript : option (list byte))
    (satoshis : Z) : result Hash :=
  match lockingScript with
  | None => Err (err ERR_PROCESSING)
  | Some script =>
      Ok (HashH (hash_bytes previousTxid ++ VarIntBytes index ++ script ++ VarIntBytes satoshis))
  end.

Definition UTXOHash := UTXOHashInto.

Definition UTXOHashFromInput (input : TxInput) : result Hash :=
  match PreviousTxScript input with
  | None => Err (err ERR_PROCESSING)
  | Some _ => UTXOHash (PreviousTxID input) (PreviousTxOutIndex input)
                (PreviousTxScript input) (PreviousTxSatoshis input)
  end.

Definition UTXOHashFromOutput (hash : Hash) (output : option TxOutput) (vOut : Z) : result Hash :=
  match output with
  | None => Err (err ERR_PROCESSING)
  | Some output => UTXOHash hash vOut (LockingScript output) (Satoshis output)
  end.

(** The hash of each live output; a nil slot keeps a nil hash. *)
Fixpoint utxo_hashes_from (txid : Hash) (i : Z) (outputs : list (option TxOutput))
  : result (list (option Hash)) :=
  match outputs with
  | [] => Ok []
  | None :: outputs =>
      let? rest := utxo_hashes_from txid (i + 1) outputs in Ok (None :: rest)
  | Some output :: outputs =>
      if 2^32 <=? i then Err (err_wrap ERR_PROCESSING (err ERR_ERROR)) else
      let? h := wrapR ERR_PROCESSING
                  (UTXOHashInto txid i (LockingScript output) (Satoshis output)) in
      let? rest := utxo_hashes_from txid (i + 1) outputs in
      Ok (Some h :: rest)
  end.

Definition GetUtxoHashes (tx : Tx) (txHash : option Hash) : result (list (option Hash)) :=
  utxo_hashes_from (default (TxIDChainHash tx) txHash) 0 (Outputs tx).

(** ** Which outputs are stored *)
Definition maxScriptSizeBeforeGenesis : nat := Z.to_nat 10000.

Definition ShouldStoreOutputAsUTXO (output : TxOutput) (blockHeight genesisActivationHeight : Z)
  : bool :=
  let b := default [] (LockingScript output) in
  let opFalseOpReturn :=
    bool_decide (1 < length b)%nat && bool_decide (b !! 0%nat = Some OpFALSE) &&
    bool_decide (b !! 1%nat = Some OpRETURN) in
  if opFalseOpReturn then false
  else if blockHeight >=? genesisActivationHeight then true
  else
    let opReturn := bool_decide (0 < length b)%nat && bool_decide (b !! 0%nat = Some OpRETURN) in
    let oversized := bool_decide (maxScriptSizeBeforeGenesis < length b)%nat in
    negb (opReturn || oversized).

Definition HasNoSpendableOutputs (tx : Tx) (isCoinbase : bool)
    (blockHeight genesisActivationHeight : Z) : bool :=
  if isCoinbase || bool_decide (length (Outputs tx) = 0%nat) then false
  else negb (existsb (λ o, match o with
                           | Some output =>
                               ShouldStoreOutputAsUTXO output blockHeight genesisActivationHeight
                           | None => false
                           end) (Outputs tx)).

(** ** The spends of a transaction *)
Fixpoint spends_from (txID : Hash) (i : Z) (inputs : list TxInput) : result (list Spend) :=
  match inputs with
  | [] => Ok []
  | input :: inputs =>
      let? hash := wrapR ERR_PROCESSING (UTXOHashFromInput input) in
      let? rest := spends_from txID (i + 1) inputs in
      Ok (mkSpend (PreviousTxID input) (PreviousTxOutIndex input) hash
            (NewSpendingData (Some txID) i) :: rest)
  end.

Definition GetSpends (tx : Tx) : result (list Spend) :=
  spends_from (TxIDChainHash tx) 0 (Inputs tx).

(** The spends a transaction holds on its parents, named by [hash]; the error of
    an input is returned as it is. *)
Fixpoint parent_spends (hash : Hash) (i : Z) (inputs : list TxInput) : result (list Spend) :=
  match inputs with
  | [] => Ok []
  | input :: inputs =>
      let? utxoHash := UTXOHashFromInput input in
      let? rest := parent_spends hash (i + 1) inputs in
      Ok (mkSpend (PreviousTxID input) (PreviousTxOutIndex input) utxoHash
            (NewSpendingData (Some hash) i) :: rest)
  end.

Definition GetSpendsOutpointOnly (tx : Tx) : result (list Spend) :=
  Ok (imap (λ i input, mkSpend (PreviousTxID input) (PreviousTxOutIndex input) zero_hash
                         (NewSpendingData (Some (TxIDChainHash tx)) (Z.of_nat i)))
        (Inputs tx)).

End Rules.

(** ** Status *)
Inductive UtxoStatus :=
  | Status_OK | Status_SPENT | Status_IMMATURE | Status_NOT_FOUND | Status_ALREADY_EXISTS
  | Status_FROZEN | Status_CONFLICTING | Status_LOCKED.

#[export] Instance UtxoStatus_eq_dec : EqDecision UtxoStatus.
Proof. solve_decision. Defined.

Definition CalculateUtxoStatus (spendingData : option SpendingData)
    (coinbaseSpendingHeight blockHeight : Z) : UtxoStatus :=
  match spendingData with
  | Some _ => Status_SPENT
  | None => if (coinbaseSpendingHeight >? 0) && (coinbaseSpendingHeight >? blockHeight)
            then Status_IMMATURE else Status_OK
  end.

(** ** What a read asks for and returns *)
Inductive FieldName :=
  | F_Tx | F_Inputs | F_Outputs | F_TxInpoints | F_Conflicting | F_ConflictingChildren
  | F_Locked | F_CreatedAt | F_Utxos | F_BlockIDs | F_BlockHeights | F_SubtreeIdxs.

#[export] Instance FieldName_eq_dec : EqDecision FieldName.
Proof. solve_decision. Defined.

(** [meta.Data], as far as it is read here; [TxInpoints] is its two accessors. *)
Record Data := mkData {
  d_Tx : option Tx;
  d_ParentTxHashes : list Hash;
  d_TxInpoints : list outpoint;
  d_BlockIDs : list Z;
  d_ConflictingChildren : list Hash;
  d_SpendingDatas : list (option SpendingData);
  d_Conflicting : bool;
  d_Locked : bool;
  d_CreatedAt : Z;
}.

(** ** The order of hashes *)

(** [bytes.Compare(a, b) < 0] *)
Fixpoint bytes_lt (a b : list byte) : bool :=
  match a, b with
  | _, [] => false
  | [], _ :: _ => true
  | x :: a, y :: b =>
      if byte_to_Z x <? byte_to_Z y then true
      else if byte_to_Z y <? byte_to_Z x then false
      else bytes_lt a b
  end.

Definition hash_le (a b : Hash) : Prop := bytes_lt (hash_bytes b) (hash_bytes a) = false.
#[export] Instance hash_le_dec a b : Decision (hash_le a b).
Proof. unfold hash_le. apply _. Defined.

Lemma byte_to_Z_inj a b : byte_to_Z a = byte_to_Z b → a = b.
Proof. intros E. by rewrite <- (byte_of_to_Z a), E, byte_of_to_Z. Qed.

Lemma bytes_lt_asym a b : bytes_lt a b = true → bytes_lt b a = false.
Proof.
  revert b; induction a as [|x a IH]; intros [|y b]; simpl; try done.
  destruct (Z.ltb_spec (byte_to_Z x) (byte_to_Z y)), (Z.ltb_spec (byte_to_Z y) (byte_to_Z x));
    try done; try lia. apply IH.
Qed.

Lemma bytes_lt_negtrans a b c : bytes_lt b a = false → bytes_lt c b = false → bytes_lt c a = false.
Proof.
  revert b c; induction a as [|x a IH]; intros [|y b] [|z c]; simpl; try done.
  repeat match goal with |- context [?u <? ?v] => destruct (Z.ltb_spec u v) end; try done; try lia.
  apply IH.
Qed.

Lemma bytes_lt_antisym a b : length a = length b → bytes_lt a b = false → bytes_lt b a = false → a = b.
Proof.
  revert b; induction a as [|x a IH]; intros [|y b]; simpl; try done. intros [= Hl].
  destruct (Z.ltb_spec (byte_to_Z x) (byte_to_Z y)), (Z.ltb_spec (byte_to_Z y) (byte_to_Z x));
    try done; try lia. intros H1 H2. f_equal; [apply byte_to_Z_inj; lia|auto].
Qed.

#[export] Instance hash_le_total : Total hash_le.
Proof.
  intros a b. unfold hash_le. destruct (bytes_lt (hash_bytes b) (hash_bytes a)) eqn:E; [right|by left].
  by apply bytes_lt_asym.
Qed.
#[export] Instance hash_le_trans : Transitive hash_le.
Proof. intros a b c H1 H2. by apply (bytes_lt_negtrans _ (hash_bytes b)). Qed.
#[export] Instance hash_le_antisym : AntiSymm eq hash_le.
Proof.
  intros a b H1 H2. apply hash_bytes_inj. apply bytes_lt_antisym; [|done..].
  by rewrite !length_hash_bytes.
Qed.

(** ** Conflict intents: the write-ahead log of conflict resolution. *)
Record ConflictIntent := mkIntent {
  ci_Kind : list byte;                  (* the kind string *)
  ci_BlockHeight : Z;
  ci_BlockHash : Hash;
  ci_TxHashes : list Hash;
  ci_StartedAt : Z;
}.

Definition IntentID `{Chainhash} (ci : ConflictIntent) : Hash :=
  HashH (ci_Kind ci ++ hash_bytes (ci_BlockHash ci) ++ rev (le_encode 4 (u32 (ci_BlockHeight ci)))
         ++ mjoin (map hash_bytes (merge_sort hash_le (ci_TxHashes ci)))).

(** ** Conflicting claims inside one batch *)
Definition sameSpendingData (first next : Spend) : bool :=
  bool_decide (sd_Bytes (sp_SpendingData first) = sd_Bytes (sp_SpendingData next)).

(** Items are generic; [spendForItem] may answer nil.  The result lists the kept
    items and the rejected ones with their error, in order. *)
Section Filter.
  Context {A : Type} (spendForItem : A → option Spend).

Fixpoint filter_claims (firstByOutpoint : gmap outpoint Spend) (items : list A)
  : list A * list (A * error) :=
  match items with
  | [] => ([], [])
  | item :: items =>
      match spendForItem item with
      | None =>
          let '(kept, rejected) := filter_claims firstByOutpoint items in
          (item :: kept, rejected)
      | Some spend =>
          match firstByOutpoint !! sp_outpoint spend with
          | None =>
              let '(kept, rejected) :=
                filter_claims (<[sp_outpoint spend := spend]> firstByOutpoint) items in
              (item :: kept, rejected)
          | Some first =>
              let '(kept, rejected) := filter_claims firstByOutpoint items in
              if sameSpendingData first spend then (item :: kept, rejected)
              else (kept, (item, err ERR_UTXO_SPENT) :: rejected)
          end
      end
  end.

Definition FilterConflictingDuplicateSpendClaims (items : list A) : list A * list (A * error) :=
  filter_claims ∅ items.
End Filter.

(** * Theorems *)

(** A spend record survives its 36-byte form: what the store writes for a
    spend is what it reads back as the spender. *)
Theorem NewSpendingDataFromBytes_Bytes {CH : Chainhash} (CHS : ChainhashSpec CH) (txID : Hash) (vin : Z)
    (rest : list byte) : is_u32 vin →
  NewSpendingDataFromBytes (sd_Bytes (Some (mkSpendingData (Some txID) vin)) ++ rest) =
  Ok (mkSpendingData (Some txID) vin).
Proof.
  intros Hv. unfold sd_Bytes. cbn [sd_TxID sd_Vin from_option]. rewrite u32_small by done.
  pose proof (length_hash_bytes txID) as Hl. rewrite <- app_assoc.
  unfold NewSpendingDataFromBytes.
  rewrite bool_decide_false by (rewrite !length_app, length_le_encode; lia).
  rewrite take_app_length' by done. rewrite NewHash_hash_bytes.
  rewrite (slice_skip 32) by (done || lia). rewrite (slice_here 4) by apply length_le_encode.
  by rewrite le_decode_encode_small.
Qed.

Section Hashes.
  Context {CH : Chainhash} {BT : BtTx}.

Lemma utxo_hashes_lookup txid n outputs hashes :
  utxo_hashes_from txid n outputs = Ok hashes →
  ∀ i o, outputs !! i = Some (Some o) →
  ∃ h, hashes !! i = Some (Some h) ∧
       UTXOHash txid (n + Z.of_nat i) (LockingScript o) (Satoshis o) = Ok h.
Proof.
  revert n hashes; induction outputs as [|[o'|] outputs IH]; intros n hashes; cbn [utxo_hashes_from].
  - by intros _ [|i] o.
  - destruct (2 ^ 32 <=? n); [done|].
    intros (h & Hh & H)%bindR_Ok. apply bindR_Ok in H as (rest & Hr & [= <-]).
    intros [|i] o; simpl; intros Ho.
    + injection Ho as ->. exists h. split; [done|]. rewrite Z.add_0_r.
      unfold UTXOHash. by destruct (UTXOHashInto _ _ _ _); simplify_eq/=.
    + destruct (IH _ _ Hr i o Ho) as (h' & ? & ?). exists h'. split; [done|].
      by replace (n + Z.of_nat (S i)) with (n + 1 + Z.of_nat i) by lia.
  - intros (rest & Hr & [= <-])%bindR_Ok [|i] o; simpl; [done|]. intros Ho.
    destruct (IH _ _ Hr i o Ho) as (h' & ? & ?). exists h'. split; [done|].
    by replace (n + Z.of_nat (S i)) with (n + 1 + Z.of_nat i) by lia.
Qed.

(** The hash an input carries for the output it spends is the hash that was
    stored for that output when its transaction was created. *)
Theorem UTXOHashFromInput_stored (tx : Tx) (hashes : list (option Hash)) (i : nat) (o : TxOutput)
    (input : TxInput) :
  GetUtxoHashes tx None = Ok hashes → Outputs tx !! i = Some (Some o) →
  PreviousTxID input = TxIDChainHash tx → PreviousTxOutIndex input = Z.of_nat i →
  PreviousTxScript input = LockingScript o → PreviousTxSatoshis input = Satoshis o →
  ∃ h, hashes !! i = Some (Some h) ∧ UTXOHashFromInput input = Ok h.
Proof.
  intros Hh Ho Hid Hidx Hs Hsat.
  destruct (utxo_hashes_lookup _ _ _ _ Hh i o Ho) as (h & Hl & Heq). exists h. split; [done|].
  unfold UTXOHashFromInput. rewrite Hs, Hid, Hidx, Hsat.
  rewrite Z.add_0_l in Heq. simpl in Heq. rewrite Heq.
  by unfold UTXOHash, UTXOHashInto in Heq; destruct (LockingScript o).
Qed.
End Hashes.

(** ** The duplicate-claim filter *)
Section FilterTheorems.
  Context {A : Type} (f : A → option Spend).

(** Two items claim one output with different spends. *)
Definition conflicting (x y : A) : Prop :=
  ∃ s t, f x = Some s ∧ f y = Some t ∧ sp_outpoint s = sp_outpoint t ∧
         sd_Bytes (sp_SpendingData s) ≠ sd_Bytes (sp_SpendingData t).

Lemma filter_claims_spec m items kept rejected :
  filter_claims f m items = (kept, rejected) →
  kept ++ rejected.*1 ≡ₚ items ∧
  (∀ x s first, x ∈ kept → f x = Some s → m !! sp_outpoint s = Some first →
     sd_Bytes (sp_SpendingData first) = sd_Bytes (sp_SpendingData s)) ∧
  (∀ x y, x ∈ kept → y ∈ kept → ¬ conflicting x y) ∧
  (∀ x e, (x, e) ∈ rejected → e = err ERR_UTXO_SPENT ∧
     ((∃ y, y ∈ kept ∧ conflicting y x) ∨
      ∃ s first, f x = Some s ∧ m !! sp_outpoint s = Some first ∧
        sd_Bytes (sp_SpendingData first) ≠ sd_Bytes (sp_SpendingData s))).
Proof.
  revert m kept rejected; induction items as [|x items IH]; intros m kept rejected; cbn [filter_claims].
  { intros [= <- <-]. split_and!; [done|set_solver..]. }
  destruct (f x) as [s|] eqn:Ex.
  2: { destruct (filter_claims f m items) as [k r] eqn:E. intros [= <- <-].
       apply IH in E as (Hp & Hm & Hc & Hr). split_and!.
       - by rewrite <- Hp.
       - intros y s first [->|Hy]%elem_of_cons; [congruence|by apply Hm].
       - intros y z [->|Hy]%elem_of_cons [->|Hz]%elem_of_cons (s & t & Hs & Ht & ?);
           [congruence..|]. apply (Hc y z); [done|done|]. exists s, t. auto.
       - intros y e Hy. destruct (Hr y e Hy) as [-> [(z & ? & ?)|?]]; split; auto.
         left. exists z. split; [by right|done]. }
  destruct (m !! sp_outpoint s) as [first|] eqn:Em.
  - destruct (filter_claims f m items) as [k r] eqn:E.
    apply IH in E as (Hp & Hm & Hc & Hr). unfold sameSpendingData.
    case_bool_decide as Hsame; intros [= <- <-].
    + split_and!.
      * by rewrite <- Hp.
      * intros y t first' [->|Hy]%elem_of_cons; [congruence|by apply Hm].
      * assert (Hx : ∀ y, y ∈ k → ∀ t, f y = Some t → sp_outpoint s = sp_outpoint t →
                  sd_Bytes (sp_SpendingData s) = sd_Bytes (sp_SpendingData t)).
        { intros y Hy t Ht Ho. rewrite <- Hsame. apply (Hm y t); [done|done|congruence]. }
        intros y z [->|Hy]%elem_of_cons [->|Hz]%elem_of_cons (t1 & t2 & H1 & H2 & Ho & Hd).
        -- congruence.
        -- rewrite Ex in H1. injection H1 as <-. apply Hd. by apply (Hx z).
        -- rewrite Ex in H2. injection H2 as <-. apply Hd. symmetry. by apply (Hx y).
        -- apply (Hc y z); [done|done|]. exists t1, t2. auto.
      * intros y e Hy. destruct (Hr y e Hy) as [-> [(z & ? & ?)|?]]; split; auto.
        left. exists z. split; [by right|done].
    + split_and!; [|done|done|].
      * cbn [fmap list_fmap fst]. by rewrite <- Permutation_middle, Hp.
      * intros y e [[= -> ->]|Hy]%elem_of_cons; [|by apply Hr]. split; [done|].
        right. exists s, first. auto.
  - destruct (filter_claims f (<[sp_outpoint s:=s]> m) items) as [k r] eqn:E. intros [= <- <-].
    apply IH in E as (Hp & Hm & Hc & Hr).
    assert (Hx : ∀ y, y ∈ k → ∀ t, f y = Some t → sp_outpoint s = sp_outpoint t →
              sd_Bytes (sp_SpendingData s) = sd_Bytes (sp_SpendingData t)).
    { intros y Hy t Ht Ho. apply (Hm y t); [done|done|]. rewrite Ho. apply lookup_insert_eq. }
    split_and!.
    + by rewrite <- Hp.
    + intros y t first [->|Hy]%elem_of_cons Ht Hf; [congruence|]. apply (Hm y t); [done|done|].
      rewrite lookup_insert_ne; [done|]. intros Heq. rewrite <- Heq in Hf. congruence.
    + intros y z [->|Hy]%elem_of_cons [->|Hz]%elem_of_cons (t1 & t2 & H1 & H2 & Ho & Hd).
      * congruence.
      * rewrite Ex in H1. injection H1 as <-. apply Hd. by apply (Hx z).
      * rewrite Ex in H2. injection H2 as <-. apply Hd. symmetry. by apply (Hx y).
      * apply (Hc y z); [done|done|]. exists t1, t2. auto.
    + intros y e Hy. destruct (Hr y e Hy) as [-> [(z & ? & ?)|(t & first & Ht & Hf & Hd)]]; split; auto.
      * left. exists z. split; [by right|done].
      * rewrite lookup_insert_Some in Hf. destruct Hf as [[Ho <-]|[Hne Hf]].
        -- left. exists x. split; [by left|]. exists s, t. auto.
        -- right. exists t, first. auto.
Qed.

(** The filter keeps or rejects every item, keeps no two items that claim
    one output for different spends, and rejects an item only because a kept
    one claims its output for another spend. *)
Theorem FilterConflictingDuplicateSpendClaims_spec (items : list A) :
  let '(kept, rejected) := FilterConflictingDuplicateSpendClaims f items in
  kept ++ rejected.*1 ≡ₚ items ∧
  (∀ x y, x ∈ kept → y ∈ kept → ¬ conflicting x y) ∧
  (∀ x e, (x, e) ∈ rejected → e = err ERR_UTXO_SPENT ∧ ∃ y, y ∈ kept ∧ conflicting y x).
Proof.
  destruct (FilterConflictingDuplicateSpendClaims f items) as [kept rejected] eqn:E.
  apply filter_claims_spec in E as (Hp & _ & Hc & Hr). split_and!; [done|done|].
  intros x e Hx. destruct (Hr x e Hx) as [-> [?|(s & first & _ & Hf & _)]]; [done|].
  by rewrite lookup_empty in Hf.
Qed.
End FilterTheorems.

(** ** Witnesses *)
Lemma NewSpendingDataFromBytes_Bytes_witness :
  NewSpendingDataFromBytes (CH := model_Chainhash)
    (sd_Bytes (Some (mkSpendingData (Some (hash_of_Z 77)) 3)) ++ [])
  = Ok (mkSpendingData (Some (hash_of_Z 77)) 3).
Proof. apply (NewSpendingDataFromBytes_Bytes model_Chainhash_spec). lia. Defined.

Definition ex_utxo_tx : Tx :=
  mkTx 1 [] [None; Some (mkOutput 5000 (Some [OpRETURN; OpFALSE]))] 0.

Lemma UTXOHashFromInput_stored_witness :
  ∃ hashes h, GetUtxoHashes (CH := model_Chainhash) (BT := model_BtTx) ex_utxo_tx None = Ok hashes ∧
    hashes !! 1%nat = Some (Some h) ∧
    UTXOHashFromInput (CH := model_Chainhash) (BT := model_BtTx)
      (mkInput (TxIDChainHash (BtTx := model_BtTx) ex_utxo_tx) 1 5000 (Some [OpRETURN; OpFALSE]) None 0) = Ok h.
Proof.
  eexists.
  destruct (UTXOHashFromInput_stored (CH := model_Chainhash) (BT := model_BtTx) ex_utxo_tx
    [None; Some (model_hash (hash_bytes (TxIDChainHash (BtTx := model_BtTx) ex_utxo_tx) ++
       le_encode 9 1 ++ [OpRETURN; OpFALSE] ++ le_encode 9 5000))] 1
    (mkOutput 5000 (Some [OpRETURN; OpFALSE]))
    (mkInput (TxIDChainHash (BtTx := model_BtTx) ex_utxo_tx) 1 5000 (Some [OpRETURN; OpFALSE]) None 0))
    as (h & H1 & H2); [reflexivity..|].
  exists h. split; [reflexivity|]. split; [exact H1|exact H2].
Defined.
