(* ===== verification/UtxoSql.v ===== *)
(** * The SQL UTXO store

    stores/utxo/sql/sql.go: the spend batch (row by row), the delete-at-height
    recomputation, the unspend and the transaction-level [Spend] with its
    rollback of partial spends (spend_rollback.go).

    The database is the transactions table, whose rows carry what their inputs,
    outputs, block_ids and conflicting_children rows say, the spend state of the
    outputs, and the conflict intents.  A database transaction works on a private view
    of it and replaces the committed contents when it commits; every statement
    may fail, as an oracle indexed by the number of statements executed so far
    decides, and between the read and the update of an output another
    transaction may commit its own spend of that output. *)

From stdpp Require Import sorting.
From stdpp Require Import list.
From S2P Require Import Prelude External Utxo.

(** ** Tables *)
Record tx_row := mkTxRow {
  t_hash : Hash;
  t_frozen : bool;
  t_conflicting : bool;
  t_locked : bool;
  t_blocks : list (Z * Z);              (* block_ids: block id and height *)
  t_unmined_since : option Z;
  t_preserve_until : option Z;
  t_delete_at_height : option Z;
  t_body : Tx;                          (* what the inputs and outputs rows rebuild *)
  t_conflicting_children : list Z;      (* conflicting_children: child ids *)
  t_created_at : Z;                     (* inserted_at, in milliseconds *)
}.

Definition t_has_blocks (t : tx_row) : bool := negb (bool_decide (t_blocks t = [])).

Record output_row := mkOutputRow {
  o_utxo_hash : list byte;
  o_coinbase_spending_height : Z;
  o_spending_data : option (list byte);
  o_frozen : bool;
  o_spendableIn : option Z;
}.

(** A row of [conflict_intents]. *)
Record intent_row := mkIntentRow {
  in_kind : list byte;
  in_block_height : Z;
  in_block_hash : list byte;
  in_tx_hashes : list byte;
  in_started_at : Z;
}.

(** The unique index on [transactions.hash], [transactions] by id, [outputs]
    by (transaction id, idx) and [conflict_intents] by intent id. *)
Record DB := mkDB {
  db_ids : gmap Hash Z;
  db_txs : gmap Z tx_row;
  db_outputs : gmap (Z * Z) output_row;
  db_intents : gmap Hash intent_row;
}.

Definition set_spending (data : option (list byte)) (o : output_row) : output_row :=
  mkOutputRow (o_utxo_hash o) (o_coinbase_spending_height o) data (o_frozen o) (o_spendableIn o).

Definition set_dah (dah : option Z) (t : tx_row) : tx_row :=
  mkTxRow (t_hash t) (t_frozen t) (t_conflicting t) (t_locked t) (t_blocks t) (t_unmined_since t)
    (t_preserve_until t) dah (t_body t) (t_conflicting_children t) (t_created_at t).

Definition set_locked (b : bool) (t : tx_row) : tx_row :=
  mkTxRow (t_hash t) (t_frozen t) (t_conflicting t) b (t_blocks t) (t_unmined_since t)
    (t_preserve_until t) (t_delete_at_height t) (t_body t) (t_conflicting_children t)
    (t_created_at t).

Definition put_output (k : Z * Z) (o : output_row) (db : DB) : DB :=
  mkDB (db_ids db) (db_txs db) (<[k := o]> (db_outputs db)) (db_intents db).

Definition put_tx (id : Z) (t : tx_row) (db : DB) : DB :=
  mkDB (db_ids db) (<[id := t]> (db_txs db)) (db_outputs db) (db_intents db).

(** A nil [[]byte] argument is SQL NULL. *)
Definition bytes_arg (sd : option SpendingData) : option (list byte) :=
  match sd with None => None | Some _ => Some (sd_Bytes sd) end.

(** ** Statements *)
Inductive DbFault := PgDeadlock | SqliteLocked | DbFailure.

#[export] Instance DbFault_eq_dec : EqDecision DbFault.
Proof. solve_decision. Defined.

(** [isDeadlock] on the driver's own error. *)
Definition isDeadlock (f : DbFault) : bool :=
  match f with PgDeadlock | SqliteLocked => true | DbFailure => false end.

(** [isDeadlock] on a teranode error built from a driver error: [errors.New]
    keeps only the text of a foreign error, so the SQLSTATE is gone and only
    the SQLite message check can still match. *)
Definition isDeadlock_wrapped (f : DbFault) : bool :=
  match f with SqliteLocked => true | PgDeadlock | DbFailure => false end.

(** A foreign error wrapped by a teranode constructor carries code 0. *)
Definition storage_error : error := err_wrap ERR_STORAGE_ERROR (err ERR_UNKNOWN).

Record txn := mkTxn { view : DB; committed : DB; ticks : nat }.

Record StoreEnv := mkEnv {
  env_height : Z;                       (* s.GetBlockHeight() *)
  env_retention : Z;                    (* GetUtxoStoreBlockHeightRetention() *)
}.

(** ** Spend batches *)
Record batchSpend := mkBatchSpend {
  bs_spend : Spend;
  bs_blockHeight : Z;
  bs_ignoreConflicting : bool;
  bs_ignoreLocked : bool;
  bs_skipUTXOHashCheck : bool;
}.

(** What an item is told: nil, or an error with the spender a
    [UtxoSpentErrData] carries. *)
Record ItemErr := mkItemErr { ie_error : error; ie_spender : option SpendingData }.

Definition item_err (c : ERR) : ItemErr := mkItemErr (err c) None.
Definition storage_item_err : ItemErr := mkItemErr storage_error None.

Inductive item_step :=
  | StepInvalid (e : ItemErr)
  | StepSpent (transactionID : Z)
  | StepAbort (e : ItemErr)
  | StepRetry.

Section Sql.
  Context {CH : Chainhash}.
  Variable env : StoreEnv.
  Variable fault : nat → option DbFault.
  Variable rival : nat → option (list byte).

Definition tick (s : txn) : txn := mkTxn (view s) (committed s) (S (ticks s)).

Definition stmt {A} (run : DB → A * DB) (s : txn) : (A + DbFault) * txn :=
  match fault (ticks s) with
  | Some f => (inr f, tick s)
  | None => let '(a, db) := run (view s) in
            (inl a, mkTxn db (committed s) (S (ticks s)))
  end.

(** A rival's committed spend of an output that is unspent in both. *)
Definition rival_spend (k : Z * Z) (s : txn) : txn :=
  match rival (ticks s), db_outputs (view s) !! k, db_outputs (committed s) !! k with
  | Some data, Some o, Some o' =>
      if bool_decide (o_spending_data o = None) && bool_decide (o_spending_data o' = None)
      then mkTxn (put_output k (set_spending (Some data) o) (view s))
                 (put_output k (set_spending (Some data) o') (committed s)) (ticks s)
      else s
  | _, _, _ => s
  end.

(** q1 of the spend: the join of an output with its transaction. *)
Definition select_output (hash : Hash) (vout : Z) (db : DB) : option (Z * tx_row * output_row) :=
  match db_ids db !! hash with
  | None => None
  | Some id =>
      match db_txs db !! id, db_outputs db !! (id, vout) with
      | Some t, Some o => Some (id, t, o)
      | _, _ => None
      end
  end.

(** q2 of the spend: the guarded update and its affected-row count. *)
Definition update_unspent (data : option (list byte)) (k : Z * Z) (db : DB) : nat * DB :=
  match db_outputs db !! k with
  | Some o =>
      match o_spending_data o with
      | None => (1%nat, put_output k (set_spending data o) db)
      | Some _ => (0%nat, db)
      end
  | None => (0%nat, db)
  end.

(** The validations between the read and the update, in order. *)
Definition check_spend (item : batchSpend) (t : tx_row) (o : output_row) : option ItemErr :=
  let spend := bs_spend item in
  let spendingDataBytes := default [] (o_spending_data o) in
  if o_frozen o || t_frozen t then Some (item_err ERR_UTXO_FROZEN) else
  if t_conflicting t && negb (bs_ignoreConflicting item) then Some (item_err ERR_TX_CONFLICTING) else
  if t_locked t && negb (bs_ignoreLocked item) then Some (item_err ERR_TX_LOCKED) else
  if match o_spendableIn o with
     | Some h => (h >? 0) && (bs_blockHeight item <? h)
     | None => false
     end then Some (item_err ERR_UTXO_FROZEN) else
  if bool_decide (0 < length spendingDataBytes)%nat &&
     bool_decide (is_Some (sp_SpendingData spend)) &&
     negb (bool_decide (spendingDataBytes = sd_Bytes (sp_SpendingData spend)))
  then match NewSpendingDataFromBytes spendingDataBytes with
       | Err e => Some (mkItemErr (err_wrap ERR_PROCESSING e) None)
       | Ok existing => Some (mkItemErr (err ERR_UTXO_SPENT) (Some existing))
       end else
  if negb (bs_skipUTXOHashCheck item) &&
     negb (bool_decide (o_utxo_hash o = hash_bytes (sp_UTXOHash spend)))
  then Some (item_err ERR_UTXO_MISMATCH) else
  if (o_coinbase_spending_height o >? 0) && (o_coinbase_spending_height o >? bs_blockHeight item)
  then Some (item_err ERR_TX_COINBASE_IMMATURE) else
  None.

Definition process_item (item : batchSpend) (s : txn) : item_step * txn :=
  let spend := bs_spend item in
  match stmt (λ db, (select_output (sp_TxID spend) (sp_Vout spend) db, db)) s with
  | (inr f, s) => (if isDeadlock f then StepRetry else StepAbort storage_item_err, s)
  | (inl None, s) => (StepInvalid (item_err ERR_TX_NOT_FOUND), s)
  | (inl (Some (transactionID, t, o)), s) =>
      match check_spend item t o with
      | Some e => (StepInvalid e, s)
      | None =>
          let k := (transactionID, sp_Vout spend) in
          let spendingDataBytes := default [] (o_spending_data o) in
          match stmt (update_unspent (bytes_arg (sp_SpendingData spend)) k) (rival_spend k s) with
          | (inr f, s) => (if isDeadlock f then StepRetry else StepAbort storage_item_err, s)
          | (inl affected, s) =>
              if bool_decide (affected = 0%nat) then
                if bool_decide (0 < length spendingDataBytes)%nat &&
                   bool_decide (is_Some (sp_SpendingData spend)) &&
                   bool_decide (spendingDataBytes = sd_Bytes (sp_SpendingData spend))
                then (StepSpent transactionID, s)
                else (StepInvalid (mkItemErr (err ERR_UTXO_SPENT) (sp_SpendingData spend)), s)
              else (StepSpent transactionID, s)
          end
      end
  end.

(** The bookkeeping of phase 1.  [replies] are the sends on the items' error
    channels, by batch index. *)
Record phase := mkPhase {
  successItems : list nat;
  spentParentIDs : gset Z;
  validationErrors : list (nat * ItemErr);   (* by batch index, in ascending order *)
  replies : list (nat * option ItemErr);
  aborted : bool;
}.

(** [None]: a deadlock, the batch is to be retried. *)
Fixpoint phase1 (i : nat) (batch : list batchSpend) (p : phase) (s : txn)
  : option phase * txn :=
  match batch with
  | [] => (Some p, s)
  | item :: batch =>
      if aborted p then
        phase1 (S i) batch
          (mkPhase (successItems p) (spentParentIDs p) (validationErrors p)
             (replies p ++ [(i, Some (item_err ERR_STORAGE_ERROR))]) true) s
      else
        match process_item item s with
        | (StepRetry, s) => (None, s)
        | (StepAbort e, s) =>
            phase1 (S i) batch
              (mkPhase (successItems p) (spentParentIDs p) (validationErrors p)
                 (replies p ++ [(i, Some e)]) true) s
        | (StepInvalid e, s) =>
            phase1 (S i) batch
              (mkPhase (successItems p) (spentParentIDs p) (validationErrors p ++ [(i, e)])
                 (replies p) false) s
        | (StepSpent id, s) =>
            phase1 (S i) batch
              (mkPhase (successItems p ++ [i]) ({[id]} ∪ spentParentIDs p) (validationErrors p)
                 (replies p) false) s
        end
  end.

(** ** Delete-at-height *)
Definition unspent_count (id : Z) (db : DB) : nat :=
  size (filter (λ '((i, _), o), i = id ∧ o_spending_data o = None) (db_outputs db)).

Definition dahUnchanged (a b : option Z) : bool :=
  match a, b with
  | None, None => true
  | Some x, Some y => x =? y
  | _, _ => false
  end.

(** The new [delete_at_height] of a transaction with that many unspent outputs. *)
Definition compute_dah (unspent : nat) (t : tx_row) : option Z :=
  let newDAH := u32 (env_height env + 1 + env_retention env) in
  let existingDAH := t_delete_at_height t in
  if t_conflicting t then
    match existingDAH with None => Some newDAH | Some _ => existingDAH end
  else if bool_decide (unspent = 0%nat) && t_has_blocks t &&
          bool_decide (t_unmined_since t = None) then
    match existingDAH with
    | None => Some newDAH
    | Some h => if h <? newDAH then Some newDAH else existingDAH
    end
  else None.

(** [inr] is a failed statement, which the caller sees wrapped in a storage
    error; a missing transaction row is a failed scan. *)
Definition setDAH (transactionID : Z) (s : txn) : option DbFault * txn :=
  if env_retention env =? 0 then (None, s) else
  match stmt (λ db, (match db_txs db !! transactionID with
                     | Some t => Some (unspent_count transactionID db, t)
                     | None => None
                     end, db)) s with
  | (inr f, s) => (Some f, s)
  | (inl None, s) => (Some DbFailure, s)
  | (inl (Some (unspent, t)), s) =>
      if bool_decide (is_Some (t_preserve_until t)) then (None, s) else
      let dah := compute_dah unspent t in
      if dahUnchanged (t_delete_at_height t) dah then (None, s) else
      match stmt (λ db, ((), match db_txs db !! transactionID with
                             | Some t => put_tx transactionID (set_dah dah t) db
                             | None => db
                             end)) s with
      | (inr f, s) => (Some f, s)
      | (inl _, s) => (None, s)
      end
  end.

Fixpoint setDAH_all (ids : list Z) (s : txn) : option DbFault * txn :=
  match ids with
  | [] => (None, s)
  | id :: ids =>
      match setDAH id s with
      | (Some f, s) => (Some f, s)
      | (None, s) => setDAH_all ids s
      end
  end.

(** ** One attempt at a batch *)
Record attempt := mkAttempt {
  at_retry : bool;
  at_replies : list (nat * option ItemErr);
  at_db : DB;
  at_ticks : nat;
}.

(** Answer every item of the batch: its validation error, else what [success]
    says for an item that was spent. *)
Definition validation_replies (p : phase) : list (nat * option ItemErr) :=
  map (λ ie, (ie.1, Some ie.2)) (validationErrors p).

Definition success_replies (p : phase) (r : option ItemErr) : list (nat * option ItemErr) :=
  map (λ i, (i, r)) (successItems p).

Definition trySendSpendBatchPerRow (batch : list batchSpend) (db : DB) (ticks0 : nat) : attempt :=
  let n := length batch in
  match stmt (λ db, ((), db)) (mkTxn db db ticks0) with
  | (inr f, s) =>
      mkAttempt false (map (λ i, (i, Some storage_item_err)) (seq 0 n)) (committed s) (ticks s)
  | (inl _, s) =>
      match phase1 0 batch (mkPhase [] ∅ [] [] false) s with
      | (None, s) => mkAttempt true [] (committed s) (ticks s)
      | (Some p, s) =>
          if aborted p then
            mkAttempt false
              (replies p ++ validation_replies p ++
                 success_replies p (Some (item_err ERR_STORAGE_ERROR)))
              (committed s) (ticks s)
          else
            let sortedSpentParents := merge_sort Z.le (elements (spentParentIDs p)) in
            match setDAH_all sortedSpentParents s with
            | (Some f, s) =>
                if isDeadlock_wrapped f then mkAttempt true [] (committed s) (ticks s)
                else mkAttempt false
                       (validation_replies p ++
                          success_replies p (Some (mkItemErr (err_wrap ERR_STORAGE_ERROR storage_error) None)))
                       (committed s) (ticks s)
            | (None, s) =>
                match stmt (λ db, ((), db)) s with
                | (inr f, s) =>
                    if isDeadlock f then mkAttempt true [] (committed s) (ticks s)
                    else mkAttempt false
                           (validation_replies p ++ success_replies p (Some storage_item_err))
                           (committed s) (ticks s)
                | (inl _, s) =>
                    mkAttempt false (validation_replies p ++ success_replies p None)
                      (view s) (ticks s)
                end
            end
      end
  end.

(** [retrySpendBatch] with [maxRetries = 3]; [cancelled] tells whether the
    store's context ends during the backoff after an attempt. *)
Definition maxRetries : nat := 3.

Fixpoint retry_from (retries : nat) (cancelled : nat → bool) (batch : list batchSpend)
    (db : DB) (ticks0 : nat) : list (nat * option ItemErr) * DB * nat :=
  let a := trySendSpendBatchPerRow batch db ticks0 in
  let all_failed c := map (λ i, (i, Some c)) (seq 0 (length batch)) in
  if negb (at_retry a) then (at_replies a, at_db a, at_ticks a)
  else match retries with
       | O => (all_failed (item_err ERR_STORAGE_ERROR), at_db a, at_ticks a)
       | S retries =>
           if cancelled (at_ticks a)
           then (all_failed storage_item_err, at_db a, at_ticks a)
           else retry_from retries cancelled batch (at_db a) (at_ticks a)
       end.

Definition retrySpendBatch := retry_from maxRetries.

(** [sendSpendBatch]: conflicting claims are rejected up front, the rest is
    tried; the answers are indexed by the item's place in the batch. *)
Definition sendSpendBatch (cancelled : nat → bool) (batch : list batchSpend) (db : DB) (ticks0 : nat)
  : list (nat * option ItemErr) * DB * nat :=
  let '(kept, rejected) :=
    FilterConflictingDuplicateSpendClaims (λ ib, Some (bs_spend ib.2)) (imap pair batch) in
  let refused := map (λ '((i, _), e), (i, Some (mkItemErr e None))) rejected in
  if bool_decide (length kept = 0%nat) then (refused, db, ticks0)
  else
    let '(replies, db, t) := retrySpendBatch cancelled (map snd kept) db ticks0 in
    (refused ++ omap (λ '(j, r), (λ ib, (ib.1, r)) <$> kept !! j) replies, db, t).

(** ** Unspend *)
Inductive UnspendErr :=
  | UnspendRaw (f : DbFault)              (* the driver's error, unwrapped *)
  | UnspendWrapped (f : DbFault)          (* a storage error around it *)
  | UnspendErr_ (e : error).

(** q1 of the unspend: clear the row when it holds exactly this data. *)
Definition clear_owned (hash : Hash) (vout : Z) (data : list byte) (db : DB) : option Z * DB :=
  match db_ids db !! hash with
  | None => (None, db)
  | Some id =>
      match db_outputs db !! (id, vout) with
      | Some o =>
          if bool_decide (o_spending_data o = Some data)
          then (Some id, put_output (id, vout) (set_spending None o) db)
          else (None, db)
      | None => (None, db)
      end
  end.

Definition find_output_tx (hash : Hash) (vout : Z) (db : DB) : option Z :=
  match db_ids db !! hash with
  | None => None
  | Some id => match db_outputs db !! (id, vout) with Some _ => Some id | None => None end
  end.

(** Clear the output when the caller owns its spend; either way find the id of
    the output's transaction. *)
Definition clear_or_find (spend : Spend) (s : txn) : (Z + UnspendErr) * txn :=
  match stmt (clear_owned (sp_TxID spend) (sp_Vout spend) (sd_Bytes (sp_SpendingData spend))) s with
  | (inr f, s) => (inr (UnspendRaw f), s)
  | (inl (Some id), s) => (inl id, s)
  | (inl None, s) =>
      match stmt (λ db, (find_output_tx (sp_TxID spend) (sp_Vout spend) db, db)) s with
      | (inr f, s) => (inr (UnspendRaw f), s)
      | (inl None, s) => (inr (UnspendErr_ (err ERR_NOT_FOUND)), s)
      | (inl (Some id), s) => (inl id, s)
      end
  end.

(** The parent's locked flag, only when the caller supplies one. *)
Definition apply_lock (flagAsLocked : option bool) (transactionID : Z) (s : txn)
  : option UnspendErr * txn :=
  match flagAsLocked with
  | None => (None, s)
  | Some locked =>
      match stmt (λ db, ((), match db_txs db !! transactionID with
                             | Some t => put_tx transactionID (set_locked locked t) db
                             | None => db
                             end)) s with
      | (inr f, s) => (Some (UnspendWrapped f), s)
      | (inl _, s) => (None, s)
      end
  end.

Definition unspend_one (flagAsLocked : option bool) (spend : Spend) (s : txn)
  : option UnspendErr * txn :=
  match sp_SpendingData spend with
  | None => (Some (UnspendErr_ (err ERR_PROCESSING)), s)
  | Some _ =>
      match clear_or_find spend s with
      | (inr e, s) => (Some e, s)
      | (inl transactionID, s) =>
          match apply_lock flagAsLocked transactionID s with
          | (Some e, s) => (Some e, s)
          | (None, s) =>
              match setDAH transactionID s with
              | (Some f, s) => (Some (UnspendWrapped f), s)
              | (None, s) => (None, s)
              end
          end
      end
  end.

Fixpoint unspend_all (flagAsLocked : option bool) (spends : list Spend) (s : txn)
  : option UnspendErr * txn :=
  match spends with
  | [] => (None, s)
  | spend :: spends =>
      match unspend_one flagAsLocked spend s with
      | (Some e, s) => (Some e, s)
      | (None, s) => unspend_all flagAsLocked spends s
      end
  end.

(** The error, the committed database and the statement count.  Cancellation of
    the caller's context is one of the faults. *)
Definition Unspend (spends : list Spend) (flagAsLocked : option bool) (db : DB) (ticks0 : nat)
  : option UnspendErr * DB * nat :=
  match stmt (λ db, ((), db)) (mkTxn db db ticks0) with
  | (inr f, s) => (Some (UnspendRaw f), committed s, ticks s)
  | (inl _, s) =>
      match unspend_all flagAsLocked spends s with
      | (Some e, s) => (Some e, committed s, ticks s)
      | (None, s) =>
          match stmt (λ db, ((), db)) s with
          | (inr f, s) => (Some (UnspendRaw f), committed s, ticks s)
          | (inl _, s) => (None, view s, ticks s)
          end
      end
  end.

(** ** Rolling back *)

(** [isDeadlock] on what [Unspend] returned. *)
Definition unspend_deadlock (e : UnspendErr) : bool :=
  match e with
  | UnspendRaw f => isDeadlock f
  | UnspendWrapped f => isDeadlock_wrapped f
  | UnspendErr_ _ => false
  end.

Definition maxRollbackChunkRetries : nat := 3.
Definition rollbackChunkSize : nat := 200.

(** One chunk with its retries; the boolean is the caller's context ending
    during a backoff. *)
Fixpoint rollback_chunk (retries : nat) (cancelled : nat → bool) (chunk : list Spend)
    (db : DB) (ticks0 : nat) : option UnspendErr * bool * DB * nat :=
  match Unspend chunk None db ticks0 with
  | (None, db, t) => (None, false, db, t)
  | (Some e, db, t) =>
      if negb (unspend_deadlock e) then (Some e, false, db, t)
      else if cancelled t then (Some e, true, db, t)
      else match retries with
           | O => (Some e, false, db, t)
           | S retries => rollback_chunk retries cancelled chunk db t
           end
  end.

Fixpoint rollback_chunks (fuel : nat) (cancelled : nat → bool) (reverted : nat)
    (firstErr : option UnspendErr) (spends : list Spend) (db : DB) (ticks0 : nat)
  : nat * option UnspendErr * DB * nat :=
  match fuel, spends with
  | O, _ | _, [] => (reverted, firstErr, db, ticks0)
  | S fuel, _ =>
      let chunk := take rollbackChunkSize spends in
      match rollback_chunk maxRollbackChunkRetries cancelled chunk db ticks0 with
      | (chunkErr, true, db, t) => (reverted, chunkErr, db, t)
      | (Some e, false, db, t) =>
          rollback_chunks fuel cancelled reverted
            (match firstErr with None => Some e | Some _ => firstErr end)
            (drop rollbackChunkSize spends) db t
      | (None, false, db, t) =>
          rollback_chunks fuel cancelled (reverted + length chunk) firstErr
            (drop rollbackChunkSize spends) db t
      end
  end.

(** Reverted count, first error, database.  A chunk is never empty, so the
    length of the list is enough fuel. *)
Definition rollbackSpendChunks (cancelled : nat → bool) (spentSpends : list Spend)
    (db : DB) (ticks0 : nat) : nat * option UnspendErr * DB * nat :=
  rollback_chunks (length spentSpends) cancelled 0 None spentSpends db ticks0.

(** ** Spending a transaction *)
Context {BT : BtTx}.

Record SpendFlags := mkFlags {
  IgnoreConflicting : bool;
  IgnoreLocked : bool;
  SkipUTXOHashCheck : bool;
  RequireParentOutputs : bool;
}.

(** How a worker's wait for the batcher ends. *)
Inductive wait := Replied (r : option ItemErr) | CtxDone | TimedOut.

(** [SELECT EXISTS(...)] on the spending transaction; [None] is a failed query. *)
Definition spender_exists (tx : Tx) (s : txn) : option bool * txn :=
  match stmt (λ db, (bool_decide (is_Some (db_ids db !! TxIDChainHash tx)), db)) s with
  | (inr _, s) => (None, s)
  | (inl b, s) => (Some b, s)
  end.

(** One worker's verdict on its spend, with the shared [txAlreadyExists] memo. *)
Definition settle (flags : SpendFlags) (tx : Tx) (w : wait) (txAlreadyExists : bool) (s : txn)
  : option ItemErr * bool * txn :=
  match w with
  | CtxDone => (Some (item_err ERR_CONTEXT_CANCELED), txAlreadyExists, s)
  | TimedOut => (Some (item_err ERR_SERVICE_UNAVAILABLE), txAlreadyExists, s)
  | Replied None => (None, txAlreadyExists, s)
  | Replied (Some e) =>
      if error_Is (ie_error e) ERR_TX_NOT_FOUND && negb (RequireParentOutputs flags) then
        if txAlreadyExists then (None, txAlreadyExists, s)
        else match spender_exists tx s with
             | (Some true, s) => (None, true, s)
             | (_, s) => (Some e, txAlreadyExists, s)
             end
      else (Some e, txAlreadyExists, s)
  end.

Fixpoint settle_all (flags : SpendFlags) (tx : Tx) (ws : list wait) (txAlreadyExists : bool)
    (s : txn) : list (option ItemErr) * txn :=
  match ws with
  | [] => ([], s)
  | w :: ws =>
      let '(r, txAlreadyExists, s) := settle flags tx w txAlreadyExists s in
      let '(rs, s) := settle_all flags tx ws txAlreadyExists s in
      (r :: rs, s)
  end.

Definition has_failure (codes : list ERR) (errs : list (option ItemErr)) : bool :=
  existsb (λ r, match r with
                | Some e => existsb (error_Is (ie_error e)) codes
                | None => false
                end) errs.

Definition hasTransientLockFailure := has_failure [ERR_TX_LOCKED].
Definition hasTransientCreatingFailure := has_failure [ERR_TX_CREATING].
Definition hasUnwinnableFailure :=
  has_failure [ERR_UTXO_SPENT; ERR_TX_CONFLICTING; ERR_UTXO_FROZEN; ERR_UTXO_MISMATCH].

(** The spends whose worker recorded success. *)
Definition spent_of (spends : list Spend) (errs : list (option ItemErr)) : list Spend :=
  omap (λ '(sp, r), match r with None => Some sp | Some _ => None end) (zip spends errs).

Definition spend_items (flags : SpendFlags) (blockHeight : Z) (spends : list Spend)
  : list batchSpend :=
  map (λ sp, mkBatchSpend sp blockHeight (IgnoreConflicting flags) (IgnoreLocked flags)
               (SkipUTXOHashCheck flags)) spends.

(** The spends with their errors, the error of the call (its code; the joined
    detail is not kept), and the database.
    [batcher] is the batching queue: what each worker's wait ends with and the
    database and statement count by then. *)
Definition SpendTx (batcher : list batchSpend → DB → nat → list wait * DB * nat)
    (cancelled : nat → bool) (flags : SpendFlags) (tx : Tx) (blockHeight : Z) (db : DB) (ticks0 : nat)
  : result (list (Spend * option ItemErr) * option error) * DB * nat :=
  if blockHeight =? 0 then (Err (err ERR_PROCESSING), db, ticks0) else
  match (if SkipUTXOHashCheck flags then GetSpendsOutpointOnly tx else GetSpends tx) with
  | Err e => (Err e, db, ticks0)
  | Ok spends =>
      if bool_decide (length spends = 0%nat) then (Err (err ERR_PROCESSING), db, ticks0) else
      let '(waits, db, t) := batcher (spend_items flags blockHeight spends) db ticks0 in
      let '(errs, s) := settle_all flags tx waits false (mkTxn db db t) in
      let spentSpends := spent_of spends errs in
      if bool_decide (length spends = length spentSpends)
      then (Ok (zip spends errs, None), committed s, ticks s)
      else
        let '(db, t) :=
          if bool_decide (0 < length spentSpends)%nat &&
             (negb (hasTransientLockFailure errs || hasTransientCreatingFailure errs) ||
              hasUnwinnableFailure errs)
          then
            match spender_exists tx s with
            | (Some false, s) =>
                let '(_, _, db, t) := rollbackSpendChunks cancelled spentSpends (committed s) (ticks s) in
                (db, t)
            | (_, s) => (committed s, ticks s)
            end
          else (committed s, ticks s) in
        (Ok (zip spends errs, Some (err ERR_UTXO_ERROR)), db, t)
  end.

End Sql.

(** ** Concrete inputs for the examples *)
Definition ex_parent : Hash := hash_of_Z 11.
Definition ex_spender : Tx :=
  mkTx 2
    [mkInput ex_parent 0 500 (Some [OpRETURN]) None 0; mkInput ex_parent 1 700 (Some [OpRETURN]) None 0]
    [Some (mkOutput 1000 (Some [OpRETURN]))] 7.
Definition ex_row (frozen : bool) (data : option (list byte)) : output_row :=
  mkOutputRow (hash_bytes zero_hash) 0 data frozen None.
Definition ex_tx_row : tx_row :=
  mkTxRow ex_parent false false false [(7, 90)] None None None (mkTx 1 [] [] 0) [] 0.
Definition ex_db (data : option (list byte)) : DB :=
  mkDB {[ex_parent := 1]}
    {[1 := ex_tx_row]}
    {[(1, 0) := ex_row false data; (1, 1) := ex_row true None]} ∅.
Definition ex_env : StoreEnv := mkEnv 100 288.

Definition ex_spend (vout : Z) : Spend :=
  mkSpend ex_parent vout zero_hash (NewSpendingData (Some (TxIDChainHash (BtTx := model_BtTx) ex_spender)) vout).
Definition ex_item (vout : Z) : batchSpend := mkBatchSpend (ex_spend vout) 101 false false true.

Definition ex_out : list (nat * option ItemErr) * DB * nat :=
  retrySpendBatch (CH := model_Chainhash) ex_env (λ n, if bool_decide (n = 1%nat) then Some SqliteLocked else None)
    (λ _, None) (λ _, false) [ex_item 0; ex_item 1] (ex_db None) 0.

