(* ===== verification/UtxoSqlSpend.v ===== *)
(** * Spend batches of the SQL UTXO store

    What a spend batch may do to the store and tell its callers, under any
    faults, rivals and retries; its exact answers when nothing interferes; and
    the delete-at-height rule. *)

From stdpp Require Import sorting.
From stdpp Require Import list.
From S2P Require Import Prelude External Utxo UtxoSql.

(** [db'] is [db] with some unspent outputs spent and some delete-at-heights
    changed; in particular no recorded spend is lost or altered. *)
Definition output_grows (o o' : output_row) : Prop :=
  o' = set_spending (o_spending_data o') o ∧
  (o_spending_data o ≠ None → o_spending_data o' = o_spending_data o).

Record spend_only (db db' : DB) : Prop := {
  so_ids : db_ids db' = db_ids db;
  so_outputs k : option_Forall2 output_grows (db_outputs db !! k) (db_outputs db' !! k);
  so_txs id : option_Forall2 (λ t t', t' = set_dah (t_delete_at_height t') t)
                (db_txs db !! id) (db_txs db' !! id);
}.

Lemma set_spending_same o : set_spending (o_spending_data o) o = o.
Proof. by destruct o. Qed.
Lemma set_dah_same t : set_dah (t_delete_at_height t) t = t.
Proof. by destruct t. Qed.

#[export] Instance output_grows_preorder : PreOrder output_grows.
Proof.
  split.
  - intros o. split; [by rewrite set_spending_same|done].
  - intros o1 o2 o3 [E1 H1] [E2 H2]. split.
    + rewrite E2, E1 at 1. by destruct o1, o3.
    + intros Hn. rewrite <- (H1 Hn). apply H2. by rewrite (H1 Hn).
Qed.

#[export] Instance spend_only_preorder : PreOrder spend_only.
Proof.
  split.
  - intros db. split; [done|intros k|intros id].
    + destruct (db_outputs db !! k); constructor. reflexivity.
    + destruct (db_txs db !! id); constructor. by rewrite set_dah_same.
  - intros d1 d2 d3 [I1 O1 T1] [I2 O2 T2]. split; [congruence|intros k|intros id].
    + specialize (O1 k). specialize (O2 k).
      destruct O1 as [o1 o2 G1|]; inversion_clear O2; constructor. by etransitivity.
    + specialize (T1 id). specialize (T2 id).
      destruct T1 as [t1 t2 G1|]; inversion T2 as [? t3 G2|]; subst; constructor.
      rewrite G2, G1. by destruct t1, t3.
Qed.

Lemma spend_only_put_output db k o data :
  db_outputs db !! k = Some o → o_spending_data o = None →
  spend_only db (put_output k (set_spending data o) db).
Proof.
  intros Hk Hn. split; [done|intros k'|intros id]; simpl.
  - destruct (decide (k = k')) as [<-|Hne].
    + rewrite lookup_insert_eq, Hk. constructor. split; [by destruct o|done].
    + rewrite lookup_insert_ne by done. destruct (db_outputs db !! k'); constructor. reflexivity.
  - destruct (db_txs db !! id); constructor. by rewrite set_dah_same.
Qed.

Lemma spend_only_put_tx db id t dah :
  db_txs db !! id = Some t → spend_only db (put_tx id (set_dah dah t) db).
Proof.
  intros Hk. split; [done|intros k|intros id']; simpl.
  - destruct (db_outputs db !! k); constructor. reflexivity.
  - destruct (decide (id = id')) as [<-|Hne].
    + rewrite lookup_insert_eq, Hk. constructor. by destruct t.
    + rewrite lookup_insert_ne by done. destruct (db_txs db !! id'); constructor.
      by rewrite set_dah_same.
Qed.

Lemma spend_only_lookup db db' k o : spend_only db db' → db_outputs db !! k = Some o →
  ∃ o', db_outputs db' !! k = Some o' ∧ output_grows o o'.
Proof.
  intros H Hk. pose proof (so_outputs _ _ H k) as Hg. rewrite Hk in Hg.
  inversion Hg; subst. eauto.
Qed.

Lemma spend_only_lookup_inv db db' k o' : spend_only db db' → db_outputs db' !! k = Some o' →
  ∃ o, db_outputs db !! k = Some o ∧ output_grows o o'.
Proof.
  intros H Hk. pose proof (so_outputs _ _ H k) as Hg. rewrite Hk in Hg.
  inversion Hg; subst. eauto.
Qed.

Section Batch.
  Context {CH : Chainhash}.
  Context (env : StoreEnv) (fault : nat → option DbFault) (rival : nat → option (list byte)).

(** The two database states of a running transaction, relative to two
    earlier ones. *)
Record txn_ok (dv dc : DB) (s : txn) : Prop := {
  ok_view : spend_only dv (view s);
  ok_committed : spend_only dc (committed s);
}.

Lemma stmt_inl {A} (run : DB → A * DB) s a s' : stmt fault run s = (inl a, s') →
  run (view s) = (a, view s') ∧ committed s' = committed s.
Proof.
  unfold stmt. destruct (fault _); [done|]. destruct (run (view s)). by intros [= <- <-].
Qed.

Lemma stmt_inr {A} (run : DB → A * DB) s f s' : stmt fault run s = (inr f, s') →
  view s' = view s ∧ committed s' = committed s.
Proof.
  unfold stmt. destruct (fault _); [by intros [= <- <-]|]. by destruct (run (view s)).
Qed.

Lemma rival_spend_ok dv dc k s : txn_ok dv dc s → txn_ok dv dc (rival_spend rival k s).
Proof.
  intros [Hv Hc]. unfold rival_spend.
  destruct (rival _), (db_outputs (view s) !! k) eqn:Ev, (db_outputs (committed s) !! k) eqn:Ec;
    try done.
  destruct (bool_decide (o_spending_data o = None) && _) eqn:E; [|done].
  apply andb_prop in E as [E1 E2]. apply bool_decide_eq_true in E1, E2.
  split; simpl; [transitivity (view s)|transitivity (committed s)]; try done;
    by apply spend_only_put_output.
Qed.

Lemma update_unspent_ok data k db n db' : update_unspent data k db = (n, db') → spend_only db db'.
Proof.
  unfold update_unspent. destruct (db_outputs db !! k) eqn:E; [|by intros [= <- <-]].
  destruct (o_spending_data o) eqn:En; intros [= <- <-]; [done|by apply spend_only_put_output].
Qed.

Lemma process_item_ok dv dc item s r s' : txn_ok dv dc s →
  process_item fault rival item s = (r, s') → txn_ok dv dc s'.
Proof.
  intros Hok. unfold process_item.
  destruct (stmt fault _ s) as [[[[[id t] o]|]|f] s1] eqn:E1.
  - apply stmt_inl in E1 as [[= _ Ev] Ec].
    assert (txn_ok dv dc s1) as Hok1 by (destruct Hok; split; congruence).
    destruct (check_spend _ _ _); [by intros [= <- <-]|].
    destruct (stmt fault _ (rival_spend _ _ _)) as [[n|f] s2] eqn:E2.
    + apply stmt_inl in E2 as [Eu Ec2]. apply update_unspent_ok in Eu.
      pose proof (rival_spend_ok dv dc (id, sp_Vout (bs_spend item)) s1 Hok1) as [Hv Hc].
      assert (txn_ok dv dc s2) by (split; [exact (transitivity Hv Eu)|by rewrite Ec2]).
      destruct (bool_decide (n = 0%nat)); [destruct (_ && _)|]; by intros [= <- <-].
    + apply stmt_inr in E2 as [Ev2 Ec2].
      pose proof (rival_spend_ok dv dc (id, sp_Vout (bs_spend item)) s1 Hok1) as [Hv Hc].
      intros [= <- <-]. split; congruence.
  - apply stmt_inl in E1 as [[= Ev] Ec]. intros [= <- <-]. destruct Hok; split; congruence.
  - apply stmt_inr in E1 as [Ev Ec]. intros [= <- <-]. destruct Hok; split; congruence.
Qed.

Lemma phase1_ok dv dc i batch p s r s' : txn_ok dv dc s →
  phase1 fault rival i batch p s = (r, s') → txn_ok dv dc s'.
Proof.
  revert i p s; induction batch as [|item batch IH]; intros i p s Hok; cbn [phase1];
    [by intros [= <- <-]|].
  destruct (aborted p); [by apply IH|].
  destruct (process_item fault rival item s) as [step s1] eqn:E.
  pose proof (process_item_ok _ _ _ _ _ _ Hok E) as Hok1.
  destruct step; [by apply IH..|by intros [= <- <-]].
Qed.

Lemma setDAH_ok dv dc id s r s' : txn_ok dv dc s → setDAH env fault id s = (r, s') → txn_ok dv dc s'.
Proof.
  intros Hok. unfold setDAH. destruct (env_retention env =? 0); [by intros [= <- <-]|].
  destruct (stmt fault _ s) as [[[[n t]|]|f] s1] eqn:E1;
    [apply stmt_inl in E1 as [[= _ Ev] Ec]|apply stmt_inl in E1 as [[= _ Ev] Ec]
    |apply stmt_inr in E1 as [Ev Ec]];
    (assert (txn_ok dv dc s1) as Hok1 by (destruct Hok; split; congruence));
    [|by intros [= <- <-]..].
  case_bool_decide; [by intros [= <- <-]|]. destruct (dahUnchanged _ _); [by intros [= <- <-]|].
  destruct (stmt fault _ s1) as [[u|f] s2] eqn:E2; intros [= <- <-].
  - apply stmt_inl in E2 as [[= _ Ev2] Ec2]. destruct Hok1 as [Hv Hc]. split; [|congruence].
    rewrite <- Ev2. destruct (db_txs (view s1) !! id) eqn:Et; [|done].
    transitivity (view s1); [done|by apply spend_only_put_tx].
  - apply stmt_inr in E2 as [Ev2 Ec2]. destruct Hok1; split; congruence.
Qed.

Lemma setDAH_all_ok dv dc ids s r s' : txn_ok dv dc s → setDAH_all env fault ids s = (r, s') → txn_ok dv dc s'.
Proof.
  revert s; induction ids as [|id ids IH]; intros s Hok; cbn [setDAH_all]; [by intros [= <- <-]|].
  destruct (setDAH env fault id s) as [[f|] s1] eqn:E; [intros [= <- <-]|intros E'].
  - by eapply setDAH_ok.
  - eapply IH; [|done]. by eapply setDAH_ok.
Qed.

Lemma attempt_ok batch db ticks0 :
  spend_only db (at_db (trySendSpendBatchPerRow env fault rival batch db ticks0)).
Proof.
  unfold trySendSpendBatchPerRow.
  assert (txn_ok db db (mkTxn db db ticks0)) as H0 by (split; reflexivity).
  destruct (stmt fault _ _) as [[u|f] s1] eqn:E1;
    [apply stmt_inl in E1 as [[= _ Ev] Ec]|apply stmt_inr in E1 as [Ev Ec]; simpl; by rewrite Ec].
  simpl in Ev, Ec.
  assert (txn_ok db db s1) as H1 by (destruct H0 as [Hv Hc]; simpl in *; split; congruence).
  destruct (phase1 fault rival 0 batch _ s1) as [[p|] s2] eqn:E2;
    pose proof (phase1_ok _ _ _ _ _ _ _ _ H1 E2) as H2; [|apply H2].
  destruct (aborted p); [apply H2|].
  destruct (setDAH_all env fault _ s2) as [[f|] s3] eqn:E3;
    pose proof (setDAH_all_ok _ _ _ _ _ _ H2 E3) as H3; [destruct (isDeadlock_wrapped f); apply H3|].
  destruct (stmt fault _ s3) as [[u'|f] s4] eqn:E4.
  - apply stmt_inl in E4 as [[= _ Ev4] Ec4]. simpl. rewrite <- Ev4. apply H3.
  - apply stmt_inr in E4 as [Ev4 Ec4]. destruct (isDeadlock f); simpl; rewrite Ec4; apply H3.
Qed.


(** Every index below [i] has been sent to, is a success or has a validation
    error, exactly once; nothing is sent before an abort. *)
Record phase_ok (i : nat) (p : phase) : Prop := {
  po_indices : map fst (replies p) ++ successItems p ++ map fst (validationErrors p) ≡ₚ seq 0 i;
  po_silent : aborted p = false → replies p = [];
  po_errors : Forall (λ r, is_Some r.2) (replies p);
}.

Lemma phase0_ok : phase_ok 0 (mkPhase [] ∅ [] [] false).
Proof. split; simpl; [done|done|constructor]. Qed.

Lemma phase1_phase_ok i batch p s p' s' : phase_ok i p →
  phase1 fault rival i batch p s = (Some p', s') → phase_ok (i + length batch) p'.
Proof.
  revert i p s; induction batch as [|item batch IH]; intros i p s Hp; cbn [phase1 length].
  { intros [= <- <-]. by rewrite Nat.add_0_r. }
  rewrite Nat.add_succ_r, <- Nat.add_succ_l.
  pose proof (po_indices _ _ Hp) as Hi. pose proof (po_silent _ _ Hp) as Hs.
  pose proof (po_errors _ _ Hp) as He.
  assert (Hsnoc : seq 0 (S i) ≡ₚ i :: seq 0 i) by (rewrite seq_S; simpl; by rewrite Permutation_app_comm).
  destruct (aborted p).
  { apply IH. split; simpl; [|done|].
    - rewrite Hsnoc, <- Hi, map_app. simpl. solve_Permutation.
    - apply Forall_app_2; [done|]. constructor; [by eexists|constructor]. }
  specialize (Hs eq_refl).
  destruct (process_item fault rival item s) as [step s1].
  destruct step; [apply IH..|done]; split; simpl; try done;
    try (apply Forall_app_2; [done|]; constructor; [by eexists|constructor]);
    rewrite Hsnoc, <- Hi, ?map_app; simpl; solve_Permutation.
Qed.

Lemma fst_validation_replies p : map fst (validation_replies p) = map fst (validationErrors p).
Proof. unfold validation_replies. rewrite map_map. done. Qed.

Lemma fst_success_replies p r : map fst (success_replies p r) = successItems p.
Proof. unfold success_replies. rewrite map_map. apply map_id. Qed.

Lemma fst_all_replies (n : nat) (r : option ItemErr) :
  map fst (map (λ i, (i, r)) (seq 0 n)) = seq 0 n.
Proof. rewrite map_map. apply map_id. Qed.

(** One attempt answers every item once, or asks for a retry and answers none. *)
Lemma attempt_replies batch db ticks0 :
  let a := trySendSpendBatchPerRow env fault rival batch db ticks0 in
  if at_retry a then at_replies a = [] else map fst (at_replies a) ≡ₚ seq 0 (length batch).
Proof.
  cbv zeta. unfold trySendSpendBatchPerRow.
  destruct (stmt fault _ _) as [[u|f] s1]; [|simpl; by rewrite fst_all_replies].
  destruct (phase1 fault rival 0 batch _ s1) as [[p|] s2] eqn:E; [|done].
  apply phase1_phase_ok in E as [Hi Hs _]; [|apply phase0_ok]. rewrite Nat.add_0_l in Hi.
  destruct (aborted p) eqn:Ea; simpl.
  { rewrite !map_app, fst_validation_replies, fst_success_replies, <- Hi. solve_Permutation. }
  rewrite (Hs eq_refl) in Hi. simpl in Hi.
  assert (Hr : ∀ r, map fst (validation_replies p ++ success_replies p r) ≡ₚ seq 0 (length batch)).
  { intros r. rewrite map_app, fst_validation_replies, fst_success_replies, <- Hi. solve_Permutation. }
  destruct (setDAH_all env fault _ s2) as [[f|] s3]; [by destruct (isDeadlock_wrapped f); simpl|].
  destruct (stmt fault _ s3) as [[u'|f] s4]; [simpl; apply Hr|by destruct (isDeadlock f); simpl].
Qed.


(** What an item's success means: at the start of the transaction its output
    existed and passed every validation, and now it carries the item's spend. *)
Definition item_spent (db0 db : DB) (item : batchSpend) : Prop :=
  ∃ id t o o',
    select_output (sp_TxID (bs_spend item)) (sp_Vout (bs_spend item)) db0 = Some (id, t, o) ∧
    check_spend item t o = None ∧
    db_outputs db !! (id, sp_Vout (bs_spend item)) = Some o' ∧
    o_spending_data o' = Some (sd_Bytes (sp_SpendingData (bs_spend item))).

Lemma item_spent_mono db0 db db' item :
  spend_only db db' → item_spent db0 db item → item_spent db0 db' item.
Proof.
  intros Hle (id & t & o & o' & Hs & Hc & Ho & Hd).
  destruct (spend_only_lookup _ _ _ _ Hle Ho) as (o'' & Ho' & _ & Hkeep).
  exists id, t, o, o''. split_and!; try done. rewrite Hkeep; congruence.
Qed.

Lemma select_output_Some hash vout db id t o : select_output hash vout db = Some (id, t, o) ↔
  db_ids db !! hash = Some id ∧ db_txs db !! id = Some t ∧ db_outputs db !! (id, vout) = Some o.
Proof.
  unfold select_output. split.
  - destruct (db_ids db !! hash) as [id'|]; [|done].
    destruct (db_txs db !! id') eqn:Et, (db_outputs db !! (id', vout)) eqn:Eo; try done.
    by intros [= <- <- <-].
  - by intros (-> & -> & ->).
Qed.

(** Reading a grown database: the same transaction flags and output, up to a
    spend recorded meanwhile. *)
Lemma select_output_grown db db' hash vout id t o :
  spend_only db db' → select_output hash vout db' = Some (id, t, o) →
  ∃ t0 o0, select_output hash vout db = Some (id, t0, o0) ∧
    t = set_dah (t_delete_at_height t) t0 ∧ output_grows o0 o.
Proof.
  intros Hle (Hi & Ht & Ho)%select_output_Some.
  rewrite (so_ids _ _ Hle) in Hi. pose proof (so_txs _ _ Hle id) as Htx. rewrite Ht in Htx.
  inversion Htx as [t0 ? Heq E1 E2|]; subst.
  destruct (spend_only_lookup_inv _ _ _ _ Hle Ho) as (o0 & Ho0 & Hg).
  exists t0, o0. split; [|done]. apply select_output_Some. auto.
Qed.

Lemma check_spend_grown item t0 t o0 o :
  t = set_dah (t_delete_at_height t) t0 → output_grows o0 o →
  check_spend item t o = None → check_spend item t0 o0 = None.
Proof.
  intros -> [-> Hkeep]. unfold check_spend. simpl in *.
  destruct (o_frozen o0 || t_frozen t0); [done|].
  destruct (t_conflicting t0 && _); [done|]. destruct (t_locked t0 && _); [done|].
  destruct (match o_spendableIn o0 with Some h => _ | None => false end); [done|].
  destruct (o_spending_data o0) as [d|] eqn:Ed.
  - by rewrite Hkeep by done.
  - cbn [default from_option length]. rewrite (bool_decide_false (0 < 0)%nat) by lia. cbn [andb].
    destruct (_ && negb _); [by destruct (NewSpendingDataFromBytes _)|done].
Qed.

Lemma process_item_spent db0 dc item s id s' :
  txn_ok db0 dc s → is_Some (sp_SpendingData (bs_spend item)) →
  process_item fault rival item s = (StepSpent id, s') → item_spent db0 (view s') item.
Proof.
  intros Hok Hsd. unfold process_item.
  destruct (stmt fault _ s) as [[[[[id' t] o]|]|f] s1] eqn:E1; [|done|by destruct (isDeadlock f)].
  apply stmt_inl in E1 as [[= Hsel Ev] Ec].
  destruct (check_spend item t o) eqn:Hcheck; [done|].
  assert (Hsel0 := Hsel). apply (select_output_grown db0) in Hsel0 as (t0 & o0 & Hs0 & Ht & Hg);
    [|apply Hok]. pose proof (check_spend_grown _ _ _ _ _ Ht Hg Hcheck) as Hc0.
  apply select_output_Some in Hsel as (_ & _ & Hrow). rewrite Ev in Hrow.
  set (k := (id', sp_Vout (bs_spend item))) in *.
  destruct (stmt fault _ (rival_spend rival k s1)) as [[n|f] s2] eqn:E2; [|by destruct (isDeadlock f)].
  apply stmt_inl in E2 as [Eu _].
  assert (Hrow' : ∃ o', db_outputs (view (rival_spend rival k s1)) !! k = Some o' ∧ output_grows o o').
  { eapply spend_only_lookup; [|done]. apply (rival_spend_ok (view s1) (committed s1)). split; reflexivity. }
  destruct Hrow' as (o' & Hrow' & Hg').
  unfold update_unspent in Eu. rewrite Hrow' in Eu.
  destruct (o_spending_data o') as [d|] eqn:Ed; injection Eu as <- Ev2.
  - rewrite bool_decide_true by done.
    destruct (_ && bool_decide (_ = sd_Bytes _)) eqn:Esame; [intros [= <- <-]|done].
    rewrite !andb_true_iff, !bool_decide_eq_true in Esame. destruct Esame as [[Hlen _] Hsame].
    assert (o_spending_data o = Some (sd_Bytes (sp_SpendingData (bs_spend item)))) as Ho.
    { destruct (o_spending_data o); simpl in *; [congruence|lia]. }
    exists id', t0, o0, o'. split_and!; try done; [by rewrite <- Ev2|].
    destruct Hg' as [_ Hkeep]. rewrite Hkeep; congruence.
  - rewrite bool_decide_false by done. intros [= <- <-].
    exists id', t0, o0, (set_spending (bytes_arg (sp_SpendingData (bs_spend item))) o').
    split_and!; try done; [by rewrite <- Ev2; simpl; rewrite lookup_insert_eq|].
    by destruct Hsd as [sd ->].
Qed.

(** Every success of phase 1 is a recorded spend. *)
Lemma phase1_spent db0 dc batch0 pre batch p s p' s' :
  batch0 = pre ++ batch → Forall (λ it, is_Some (sp_SpendingData (bs_spend it))) batch →
  txn_ok db0 dc s →
  (∀ i, i ∈ successItems p → ∃ item, batch0 !! i = Some item ∧ item_spent db0 (view s) item) →
  phase1 fault rival (length pre) batch p s = (Some p', s') →
  ∀ i, i ∈ successItems p' → ∃ item, batch0 !! i = Some item ∧ item_spent db0 (view s') item.
Proof.
  intros Hb Hsd. revert pre p s Hb.
  induction batch as [|item batch IH]; intros pre p s Hb Hok Hp; cbn [phase1]; [by intros [= <- <-]|].
  inversion_clear Hsd as [|? ? Hitem Hrest]. specialize (IH Hrest (pre ++ [item])).
  rewrite length_app, Nat.add_1_r in IH. rewrite <- app_assoc in IH.
  destruct (aborted p); [by apply IH|].
  destruct (process_item fault rival item s) as [step s1] eqn:E.
  pose proof (process_item_ok _ _ _ _ _ _ Hok E) as Hok1.
  assert (Hle : spend_only (view s) (view s1))
    by (apply (process_item_ok (view s) (committed s) item s step s1); [split; reflexivity|done]).
  assert (Hp1 : ∀ i, i ∈ successItems p → ∃ item, batch0 !! i = Some item ∧ item_spent db0 (view s1) item).
  { intros i Hi. destruct (Hp i Hi) as (it & ? & ?). exists it. split; [done|].
    by eapply item_spent_mono. }
  destruct step; [by apply IH| |by apply IH|done]. apply IH; [done|done|]. simpl.
  intros i [Hi|Hi%list_elem_of_singleton]%elem_of_app; [by apply Hp1|subst i].
  exists item. split; [|exact (process_item_spent _ _ _ _ _ _ Hok Hitem E)]. subst batch0. by rewrite list_lookup_middle.
Qed.

Lemma not_in_all_errors (n : nat) (i : nat) (e : ItemErr) :
  (i, None) ∉ map (λ i, (i, Some e)) (seq 0 n).
Proof. by intros [j [[=] _]]%list_elem_of_In%in_map_iff. Qed.

Lemma not_in_validation_replies p i : (i, None) ∉ validation_replies p.
Proof. by intros [j [[=] _]]%list_elem_of_In%in_map_iff. Qed.

Lemma in_success_replies p i r r' : (i, r') ∈ success_replies p r → r' = r ∧ i ∈ successItems p.
Proof.
  intros [j [[= -> ->] Hj]]%list_elem_of_In%in_map_iff. split; [done|by apply list_elem_of_In].
Qed.

Lemma attempt_spent batch db ticks0 i :
  Forall (λ it, is_Some (sp_SpendingData (bs_spend it))) batch →
  (i, None) ∈ at_replies (trySendSpendBatchPerRow env fault rival batch db ticks0) →
  ∃ item, batch !! i = Some item ∧
    item_spent db (at_db (trySendSpendBatchPerRow env fault rival batch db ticks0)) item.
Proof.
  intros Hsd. unfold trySendSpendBatchPerRow.
  destruct (stmt fault _ _) as [[u|f] s1] eqn:E1; [|by intros ?%not_in_all_errors].
  apply stmt_inl in E1 as [[= _ Ev] Ec]. simpl in Ev, Ec.
  assert (txn_ok db db s1) as H1 by (split; rewrite <- ?Ev, ?Ec; reflexivity).
  destruct (phase1 fault rival 0 batch _ s1) as [[p|] s2] eqn:E2; [|by intros ?%elem_of_nil].
  pose proof (phase1_phase_ok _ _ _ _ _ _ phase0_ok E2) as Hp.
  assert (Hs : ∀ r, (i, None) ∈ validation_replies p ++ success_replies p r →
               r = None ∧ i ∈ successItems p).
  { by intros r [?%not_in_validation_replies|[-> ?]%in_success_replies]%elem_of_app. }
  destruct (aborted p); simpl.
  { intros [Hr|[? _]%Hs]%elem_of_app; [|done].
    pose proof (po_errors _ _ Hp) as He. rewrite Forall_forall in He.
    by destruct (He _ Hr). }
  destruct (setDAH_all env fault _ s2) as [[f|] s3] eqn:E3;
    [destruct (isDeadlock_wrapped f); simpl; [by intros ?%elem_of_nil|by intros [? _]%Hs]|].
  destruct (stmt fault _ s3) as [[u'|f] s4] eqn:E4;
    [|destruct (isDeadlock f); simpl; [by intros ?%elem_of_nil|by intros [? _]%Hs]].
  simpl. intros [_ Hi]%Hs. apply stmt_inl in E4 as [[= _ Ev4] _]. rewrite <- Ev4.
  destruct (phase1_spent db db batch [] batch (mkPhase [] ∅ [] [] false) s1 p s2 eq_refl Hsd H1
    (λ j Hj, False_ind _ (proj1 (elem_of_nil j) Hj)) E2 i Hi) as (item & Hitem & Hspent).
  exists item. split; [done|]. eapply item_spent_mono; [|done].
  apply (setDAH_all_ok (view s2) (committed s2) _ s2 _ s3) in E3; [apply E3|split; reflexivity].
Qed.
End Batch.

(** ** A batch without faults and rivals *)
Section Clean.
  Context {CH : Chainhash} (env : StoreEnv).
Let nofault : nat → option DbFault := λ _, None.
Let norival : nat → option (list byte) := λ _, None.

(** Distinct transactions have distinct ids and a recorded spend is never the
    empty string. *)
Record db_wf (db : DB) : Prop := {
  wf_ids h h' id : db_ids db !! h = Some id → db_ids db !! h' = Some id → h = h';
  wf_spending k o d : db_outputs db !! k = Some o → o_spending_data o = Some d → d ≠ [];
}.

(** The answer an item gets from the state of the database at the start. *)
Definition expected (db : DB) (item : batchSpend) : option ItemErr :=
  match select_output (sp_TxID (bs_spend item)) (sp_Vout (bs_spend item)) db with
  | None => Some (item_err ERR_TX_NOT_FOUND)
  | Some (_, t, o) => check_spend item t o
  end.

Definition item_key (db : DB) (item : batchSpend) : option (Z * Z) :=
  (λ id, (id, sp_Vout (bs_spend item))) <$> db_ids db !! sp_TxID (bs_spend item).

(** The view agrees with the start on the output of [item]. *)
Definition untouched (db : DB) (s : txn) (item : batchSpend) : Prop :=
  db_ids (view s) = db_ids db ∧ db_txs (view s) = db_txs db ∧
  ∀ k, item_key db item = Some k → db_outputs (view s) !! k = db_outputs db !! k.

Lemma untouched_select db s item : untouched db s item →
  select_output (sp_TxID (bs_spend item)) (sp_Vout (bs_spend item)) (view s) =
  select_output (sp_TxID (bs_spend item)) (sp_Vout (bs_spend item)) db.
Proof.
  intros (Hi & Ht & Ho). unfold select_output, item_key in *. rewrite Hi, Ht.
  destruct (db_ids db !! _); [|done]. simpl in Ho. by rewrite (Ho _ eq_refl).
Qed.

Lemma process_item_clean db s item r s' :
  db_wf db → is_Some (sp_SpendingData (bs_spend item)) → untouched db s item →
  process_item nofault norival item s = (r, s') →
  match expected db item with
  | Some e => r = StepInvalid e ∧ view s' = view s
  | None => ∃ id, r = StepSpent id ∧ is_Some (db_txs db !! id) ∧
      db_ids (view s') = db_ids (view s) ∧ db_txs (view s') = db_txs (view s) ∧
      ∀ k, item_key db item ≠ Some k → db_outputs (view s') !! k = db_outputs (view s) !! k
  end.
Proof.
  intros Hwf Hsd Hu. pose proof (untouched_select _ _ _ Hu) as Hsel.
  unfold process_item, stmt, nofault, expected. cbn [view]. rewrite Hsel.
  destruct (select_output _ _ db) as [[[id t] o]|] eqn:Es; [|by intros [= <- <-]].
  destruct (check_spend item t o) eqn:Ec; [by intros [= <- <-]|].
  apply select_output_Some in Es as (Hid & Ht & Ho).
  assert (Hk : item_key db item = Some (id, sp_Vout (bs_spend item)))
    by (unfold item_key; by rewrite Hid).
  destruct Hu as (_ & _ & Hout). unfold rival_spend, norival. cbn [ticks view committed].
  unfold update_unspent. rewrite (Hout _ Hk), Ho.
  destruct (o_spending_data o) as [d|] eqn:Ed.
  - rewrite bool_decide_true by done. cbn [default from_option].
    pose proof (wf_spending _ Hwf _ _ _ Ho Ed) as Hd.
    assert (Hlen : (0 < length d)%nat) by (destruct d; [done|simpl; lia]).
    assert (Hsame : d = sd_Bytes (sp_SpendingData (bs_spend item))).
    { destruct (decide (d = sd_Bytes (sp_SpendingData (bs_spend item)))) as [|Hne]; [done|].
      revert Ec. unfold check_spend. rewrite Ed. cbn [default from_option].
      destruct (_ || _); [done|]. destruct (_ && _); [done|]. destruct (_ && _); [done|].
      destruct (match o_spendableIn o with Some _ => _ | None => _ end); [done|].
      rewrite !bool_decide_true by done. rewrite (bool_decide_false (d = _)) by done.
      cbn [andb negb]. by destruct (NewSpendingDataFromBytes _). }
    rewrite !bool_decide_true by done. intros [= <- <-]. exists id. split_and!; eauto.
  - rewrite bool_decide_false by done. intros [= <- <-]. exists id.
    split_and!; eauto. intros k Hne. simpl. rewrite lookup_insert_ne; [done|congruence].
Qed.

Lemma untouched_step db s s' item item' :
  db_wf db → untouched db s item' →
  sp_outpoint (bs_spend item) ≠ sp_outpoint (bs_spend item') →
  db_ids (view s') = db_ids (view s) → db_txs (view s') = db_txs (view s) →
  (∀ k, item_key db item ≠ Some k → db_outputs (view s') !! k = db_outputs (view s) !! k) →
  untouched db s' item'.
Proof.
  intros Hwf (Hi & Ht & Ho) Hne Ei Et Eo. split_and!; [congruence..|].
  intros k Hk. rewrite Eo; [by apply Ho|].
  intros Hk'. unfold item_key in *. apply Hne.
  destruct (db_ids db !! sp_TxID (bs_spend item)) as [id|] eqn:E1; [|done].
  destruct (db_ids db !! sp_TxID (bs_spend item')) as [id'|] eqn:E2; [|done].
  simpl in *. injection Hk as <-. injection Hk' as -> ?.
  unfold sp_outpoint. f_equal; [by eapply (wf_ids _ Hwf)|done].
Qed.

(** Phase 1 sorts the items by their expected answer. *)
Lemma phase1_clean db i batch p s : db_wf db →
  Forall (λ it, is_Some (sp_SpendingData (bs_spend it))) batch →
  NoDup (sp_outpoint ∘ bs_spend <$> batch) →
  Forall (untouched db s) batch → aborted p = false → db_txs (view s) = db_txs db →
  (∀ id, id ∈ spentParentIDs p → is_Some (db_txs db !! id)) →
  ∃ p' s', phase1 nofault norival i batch p s = (Some p', s') ∧ aborted p' = false ∧
    db_txs (view s') = db_txs db ∧
    (∀ id, id ∈ spentParentIDs p' → is_Some (db_txs db !! id)) ∧
    successItems p ⊆ successItems p' ∧ validationErrors p ⊆ validationErrors p' ∧
    ∀ j item, batch !! j = Some item →
      match expected db item with
      | None => (i + j)%nat ∈ successItems p'
      | Some e => ((i + j)%nat, e) ∈ validationErrors p'
      end.
Proof.
  intros Hwf Hsd. revert i p s. induction Hsd as [|item batch Hitem Hsd IH];
    intros i p s Hnd Hun Hab Htx Hpar; cbn [phase1]; [by exists p, s|].
  rewrite fmap_cons, NoDup_cons in Hnd. destruct Hnd as [Hnotin Hnd].
  inversion_clear Hun as [|? ? Hu Hun']. rewrite Hab.
  destruct (process_item nofault norival item s) as [r s1] eqn:E.
  pose proof (process_item_clean _ _ _ _ _ Hwf Hitem Hu E) as Hr.
  destruct (expected db item) as [e|] eqn:Eexp.
  - destruct Hr as [-> Hview].
    destruct (IH (S i) (mkPhase (successItems p) (spentParentIDs p) (validationErrors p ++ [(i, e)])
                (replies p) false) s1) as (p' & s' & -> & ? & ? & ? & Hss & Hvs & Hall);
      [done| |done|congruence|done|].
    { eapply Forall_impl; [exact Hun'|]. unfold untouched. by rewrite Hview. }
    simpl in *. exists p', s'. split_and!; try done; [set_solver|].
    intros [|j] it; simpl; [intros [= <-]|]; rewrite ?Eexp, ?Nat.add_0_r.
    + apply Hvs. set_solver.
    + rewrite Nat.add_succ_r. apply Hall.
  - destruct Hr as (id & -> & Hid & Ei & Et & Eo).
    destruct (IH (S i) (mkPhase (successItems p ++ [i]) ({[id]} ∪ spentParentIDs p)
                (validationErrors p) (replies p) false) s1)
      as (p' & s' & -> & ? & ? & ? & Hss & Hvs & Hall);
      [done| |done|congruence|set_solver|].
    { rewrite Forall_forall in Hun' |- *. intros it Hit.
      apply (untouched_step db s s1 item it Hwf (Hun' it Hit)); try done.
      intros Heq. apply Hnotin.
      change ((sp_outpoint ∘ bs_spend) item = (sp_outpoint ∘ bs_spend) it) in Heq.
      rewrite Heq. by apply (list_elem_of_fmap_2 (sp_outpoint ∘ bs_spend)). }
    simpl in *. exists p', s'. split_and!; try done; [set_solver|].
    intros [|j] it; simpl; [intros [= <-]|]; rewrite ?Eexp, ?Nat.add_0_r.
    + apply Hss. set_solver.
    + rewrite Nat.add_succ_r. apply Hall.
Qed.

Lemma setDAH_clean id s : is_Some (db_txs (view s) !! id) →
  ∃ s', setDAH env nofault id s = (None, s') ∧
    ∀ id', is_Some (db_txs (view s) !! id') → is_Some (db_txs (view s') !! id').
Proof.
  intros [t Ht]. unfold setDAH, stmt, nofault. destruct (env_retention env =? 0); [by exists s|].
  rewrite Ht. case_bool_decide; [eexists; by split|].
  destruct (dahUnchanged _ _); [eexists; by split|]. cbn [view]. rewrite Ht.
  eexists. split; [reflexivity|]. intros id' Hid'. simpl.
  destruct (decide (id = id')) as [<-|Hne]; [rewrite lookup_insert_eq; eauto|].
  by rewrite lookup_insert_ne.
Qed.

Lemma setDAH_all_clean ids s : Forall (λ id, is_Some (db_txs (view s) !! id)) ids →
  ∃ s', setDAH_all env nofault ids s = (None, s').
Proof.
  revert s; induction ids as [|id ids IH]; intros s Hall; cbn [setDAH_all]; [by exists s|].
  inversion_clear Hall as [|? ? Hid Hids].
  destruct (setDAH_clean id s Hid) as (s' & -> & Hkeep). apply IH.
  eapply Forall_impl; [exact Hids|]. auto.
Qed.

Lemma attempt_clean batch db ticks0 : db_wf db →
  Forall (λ it, is_Some (sp_SpendingData (bs_spend it))) batch →
  NoDup (sp_outpoint ∘ bs_spend <$> batch) →
  let a := trySendSpendBatchPerRow env nofault norival batch db ticks0 in
  at_retry a = false ∧
  ∀ i item, batch !! i = Some item → (i, expected db item) ∈ at_replies a.
Proof.
  intros Hwf Hsd Hnd. cbv zeta. unfold trySendSpendBatchPerRow, stmt.
  change (nofault _) with (@None DbFault). cbn [view committed ticks].
  destruct (phase1_clean db 0 batch (mkPhase [] ∅ [] [] false) (mkTxn db db (S ticks0)))
    as (p & s & -> & Hab & Htx & Hpar & _ & _ & Hall);
    [exact Hwf|exact Hsd|exact Hnd|by apply Forall_forall|reflexivity|reflexivity
    |by intros id ?%elem_of_empty|].
  rewrite Hab.
  destruct (setDAH_all_clean (merge_sort Z.le (elements (spentParentIDs p))) s) as [s' ->].
  { apply Forall_forall. intros id Hid. rewrite merge_sort_Permutation in Hid.
    apply elem_of_elements in Hid. rewrite Htx. auto. }
  change (nofault _) with (@None DbFault). simpl. split; [done|].
  intros i item Hi. specialize (Hall i item Hi). rewrite Nat.add_0_l in Hall.
  rewrite elem_of_app. destruct (expected db item) as [e|].
  - left. apply list_elem_of_In, in_map_iff. exists (i, e). split; [done|by apply list_elem_of_In].
  - right. apply list_elem_of_In, in_map_iff. exists i. split; [done|by apply list_elem_of_In].
Qed.
End Clean.

(** ** The batch with its retries *)
Section Retry.
  Context {CH : Chainhash}.
  Context (env : StoreEnv) (fault : nat → option DbFault) (rival : nat → option (list byte)).

Lemma item_spent_start db0 db1 db2 item :
  spend_only db0 db1 → item_spent db1 db2 item → item_spent db0 db2 item.
Proof.
  intros Hle (id & t & o & o' & Hsel & Hc & Ho & Hd).
  apply (select_output_grown db0) in Hsel as (t0 & o0 & Hsel & Ht & Hg); [|done].
  exists id, t0, o0, o'. split_and!; try done. by eapply check_spend_grown.
Qed.

Lemma retry_from_ok retries cancelled batch db t replies db' t' :
  retry_from env fault rival retries cancelled batch db t = (replies, db', t') →
  spend_only db db' ∧ map fst replies ≡ₚ seq 0 (length batch) ∧
  (Forall (λ it, is_Some (sp_SpendingData (bs_spend it))) batch →
   ∀ i, (i, None) ∈ replies → ∃ item, batch !! i = Some item ∧ item_spent db db' item).
Proof.
  revert db t; induction retries as [|retries IH]; intros db t; cbn [retry_from];
    pose proof (attempt_ok env fault rival batch db t) as Hok;
    pose proof (attempt_replies env fault rival batch db t) as Hrep; cbv zeta in Hrep;
    pose proof (attempt_spent env fault rival batch db t) as Hsp;
    destruct (at_retry (trySendSpendBatchPerRow env fault rival batch db t)); cbn [negb].
  - intros [= <- <- _]. rewrite fst_all_replies. split_and!; [done|done|].
    by intros _ i ?%not_in_all_errors.
  - intros [= <- <- _]. split_and!; [done|done|]. intros Hsd i Hi. by apply Hsp.
  - destruct (cancelled _).
    + intros [= <- <- _]. rewrite fst_all_replies. split_and!; [done|done|].
      by intros _ i ?%not_in_all_errors.
    + intros Hr. apply IH in Hr as (Hle & Hperm & Hspent). split_and!; [by etransitivity|done|].
      intros Hsd i Hi. destruct (Hspent Hsd i Hi) as (item & ? & ?). exists item.
      split; [done|by eapply item_spent_start].
  - intros [= <- <- _]. split_and!; [done|done|]. intros Hsd i Hi. by apply Hsp.
Qed.

(** C1: no spend batch ever overwrites or erases a recorded spend, or changes
    anything of the store but unspent outputs becoming spent and
    delete-at-heights, whatever statements fail, whatever rivals commit in
    between and however often the batch is retried. *)
Theorem retrySpendBatch_no_double_spend (cancelled : nat → bool) (batch : list batchSpend)
    (db db' : DB) (t t' : nat) (replies : list (nat * option ItemErr)) :
  retrySpendBatch env fault rival cancelled batch db t = (replies, db', t') →
  spend_only db db' ∧
  ∀ k o d, db_outputs db !! k = Some o → o_spending_data o = Some d →
    ∃ o', db_outputs db' !! k = Some o' ∧ o_spending_data o' = Some d.
Proof.
  intros (Hle & _ & _)%retry_from_ok. split; [done|].
  intros k o d Hk Hd. destruct (spend_only_lookup _ _ _ _ Hle Hk) as (o' & ? & _ & Hkeep).
  exists o'. split; [done|]. rewrite Hkeep; congruence.
Qed.

(** Every index of the batch is answered once. *)
Definition each_answered_once {A} (replies : list (nat * option ItemErr)) (batch : list A) : Prop :=
  map fst replies ≡ₚ seq 0 (length batch).

(** A spend batch answers each of its items exactly once. *)
Theorem retrySpendBatch_answers_once (cancelled : nat → bool) (batch : list batchSpend)
    (db db' : DB) (t t' : nat) (replies : list (nat * option ItemErr)) :
  retrySpendBatch env fault rival cancelled batch db t = (replies, db', t') →
  each_answered_once replies batch.
Proof. by intros (_ & Hp & _)%retry_from_ok. Qed.

(** An item that is told it succeeded named an output that existed and
    passed every validation, and the committed store now records the item's
    spend of that output. *)
Theorem retrySpendBatch_success (cancelled : nat → bool) (batch : list batchSpend)
    (db db' : DB) (t t' : nat) (replies : list (nat * option ItemErr)) (i : nat) :
  Forall (λ it, is_Some (sp_SpendingData (bs_spend it))) batch →
  retrySpendBatch env fault rival cancelled batch db t = (replies, db', t') →
  (i, None) ∈ replies →
  ∃ item, batch !! i = Some item ∧ item_spent db db' item.
Proof. intros Hsd (_ & _ & Hs)%retry_from_ok. by apply Hs. Qed.

End Retry.

(** Without faults and rivals, on distinct outputs, every item is answered
    by the validations alone, and succeeds exactly when all of them pass. *)
Theorem retrySpendBatch_functional `{Chainhash} (env : StoreEnv) (cancelled : nat → bool)
    (batch : list batchSpend) (db : DB) (t : nat) :
  db_wf db → Forall (λ it, is_Some (sp_SpendingData (bs_spend it))) batch →
  NoDup (sp_outpoint ∘ bs_spend <$> batch) →
  ∀ i item, batch !! i = Some item →
    (i, expected db item) ∈
      (retrySpendBatch env (λ _, None) (λ _, None) cancelled batch db t).1.1.
Proof.
  intros Hwf Hsd Hnd. destruct (attempt_clean env batch db t Hwf Hsd Hnd) as [Hr Hall].
  unfold retrySpendBatch, maxRetries. cbn [retry_from]. by rewrite Hr.
Qed.

(** Nothing of the transaction can be spent any more and it is mined on the
    longest chain. *)
Definition exhausted (db : DB) (id : Z) (t : tx_row) : Prop :=
  unspent_count id db = 0%nat ∧ t_has_blocks t = true ∧ t_unmined_since t = None.

(** Delete-at-height.  Without faults, on a store with a retention period, a
    non-conflicting transaction not held by [preserve_until] is scheduled for
    deletion exactly when it has no unspent output, is in a block and is on the
    longest chain; the height never comes down while that lasts. *)
Theorem setDAH_spec (env : StoreEnv) (s s' : txn) (id : Z) (t : tx_row) :
  db_txs (view s) !! id = Some t → t_conflicting t = false → t_preserve_until t = None →
  env_retention env ≠ 0 →
  setDAH env (λ _, None) id s = (None, s') →
  ∃ t', db_txs (view s') !! id = Some t' ∧ t' = set_dah (t_delete_at_height t') t ∧
    (is_Some (t_delete_at_height t') ↔ exhausted (view s) id t) ∧
    (∀ h h', t_delete_at_height t = Some h → t_delete_at_height t' = Some h' → h ≤ h').
Proof.
  intros Ht Hc Hp Hr. unfold setDAH, stmt. rewrite (proj2 (Z.eqb_neq _ _) Hr), Ht, Hp.
  rewrite bool_decide_false by (by intros [??]). cbn [view].
  set (dah := compute_dah env (unspent_count id (view s)) t).
  assert (Hdah : (is_Some dah ↔ unspent_count id (view s) = 0%nat ∧ t_has_blocks t = true ∧
                   t_unmined_since t = None) ∧
                 ∀ h h', t_delete_at_height t = Some h → dah = Some h' → h ≤ h').
  { subst dah. unfold compute_dah. rewrite Hc.
    destruct (bool_decide (unspent_count id (view s) = 0%nat) && t_has_blocks t &&
              bool_decide (t_unmined_since t = None)) eqn:E.
    - rewrite !andb_true_iff, !bool_decide_eq_true in E. destruct E as [[? ?] ?].
      destruct (t_delete_at_height t) as [h|]; [destruct (Z.ltb_spec h (u32 (env_height env + 1 + env_retention env)))|];
        (split; [by split; [|eexists]|intros; simplify_eq; lia]).
    - split; [|done]. split; [by intros []|]. intros (H1 & H2 & H3).
      rewrite H2, !bool_decide_true in E by done. done. }
  clearbody dah. destruct (dahUnchanged (t_delete_at_height t) dah) eqn:Eu; intros [= <-].
  - exists t. assert (dah = t_delete_at_height t) as ->.
    { destruct dah, (t_delete_at_height t); simpl in Eu; try done. f_equal. lia. }
    split_and!; [done|by rewrite set_dah_same|apply Hdah|apply Hdah].
  - rewrite Ht. exists (set_dah dah t). simpl. rewrite lookup_insert_eq.
    split_and!; [done|done|apply Hdah|apply Hdah].
Qed.

(** ** Witnesses *)
Lemma retrySpendBatch_no_double_spend_witness :
  ∃ o', db_outputs (retrySpendBatch (CH := model_Chainhash) ex_env (λ _, None) (λ _, None) (λ _, false)
          [ex_item 0] (ex_db (Some [Byte.x01])) 0).1.2 !! (1, 0) = Some o' ∧
        o_spending_data o' = Some [Byte.x01].
Proof.
  destruct (retrySpendBatch _ _ _ _ _ _ _) as [[replies db'] t'] eqn:E.
  apply (proj2 (retrySpendBatch_no_double_spend ex_env (λ _, None) (λ _, None) (λ _, false)
    [ex_item 0] (ex_db (Some [Byte.x01])) db' 0 t' replies E) (1, 0) (ex_row false (Some [Byte.x01])));
    vm_compute; reflexivity.
Defined.

Lemma retrySpendBatch_answers_once_witness : map fst ex_out.1.1 ≡ₚ [0%nat; 1%nat].
Proof.
  apply (retrySpendBatch_answers_once (CH := model_Chainhash) ex_env
    (λ n, if bool_decide (n = 1%nat) then Some SqliteLocked else None) (λ _, None) (λ _, false)
    [ex_item 0; ex_item 1] (ex_db None) ex_out.1.2 0 ex_out.2).
  unfold ex_out. by destruct (retrySpendBatch _ _ _ _ _ _ _) as [[??]?].
Defined.

Lemma retrySpendBatch_success_witness :
  ∃ item, [ex_item 0; ex_item 1] !! 0%nat = Some item ∧
    item_spent (CH := model_Chainhash) (ex_db None) ex_out.1.2 item.
Proof.
  apply (retrySpendBatch_success (CH := model_Chainhash) ex_env
    (λ n, if bool_decide (n = 1%nat) then Some SqliteLocked else None) (λ _, None) (λ _, false)
    [ex_item 0; ex_item 1] (ex_db None) ex_out.1.2 0 ex_out.2 ex_out.1.1 0%nat).
  - repeat constructor; eexists; reflexivity.
  - unfold ex_out. by destruct (retrySpendBatch _ _ _ _ _ _ _) as [[??]?].
  - vm_compute. right. left.
Defined.

Lemma ex_db_wf data : data ≠ Some [] → db_wf (ex_db data).
Proof.
  intros Hd. split.
  - intros h h' id. simpl. rewrite !lookup_singleton_Some. naive_solver.
  - intros k o d. simpl. rewrite lookup_insert_Some, lookup_singleton_Some.
    intros [[<- <-]|[_ [<- <-]]]; simpl; [congruence|done].
Qed.

Lemma retrySpendBatch_functional_witness :
  (1%nat, Some (item_err ERR_UTXO_FROZEN)) ∈
    (retrySpendBatch (CH := model_Chainhash) ex_env (λ _, None) (λ _, None) (λ _, false)
       [ex_item 0; ex_item 1] (ex_db None) 0).1.1.
Proof.
  apply (retrySpendBatch_functional (H := model_Chainhash) ex_env (λ _, false)
    [ex_item 0; ex_item 1] (ex_db None) 0) with (item := ex_item 1).
  - by apply ex_db_wf.
  - repeat constructor; eexists; reflexivity.
  - vm_compute. repeat constructor; rewrite ?elem_of_cons, ?elem_of_nil; intuition discriminate.
  - reflexivity.
Defined.

Lemma setDAH_spec_witness :
  ∃ t', db_txs (view (setDAH ex_env (λ _, None) 1 (mkTxn (mkDB {[ex_parent := 1]}
            {[1 := ex_tx_row]} ∅ ∅) (ex_db None) 0)).2) !! 1 = Some t' ∧
        is_Some (t_delete_at_height t').
Proof.
  set (s := mkTxn _ _ _). destruct (setDAH ex_env (λ _, None) 1 s) as [r s'] eqn:E.
  assert (r = None) as -> by (change r with (r, s').1; rewrite <- E; vm_compute; reflexivity).
  destruct (setDAH_spec ex_env s s' 1 ex_tx_row)
    as (t' & H1 & _ & H2 & _); try done.
  exists t'. split; [exact H1|]. apply H2. by vm_compute.
Defined.


(** ** A deadlock while the delete-height is recomputed

    The same PostgreSQL deadlock is retried when a spend statement meets it and
    fails the whole batch when [setDAH] does: [setDAH] wraps the driver's error
    in a storage error, which keeps its text only, so [isDeadlock] no longer
    finds the PostgreSQL code in it. *)
Definition deadlock_at (t n : nat) : option DbFault :=
  if bool_decide (n = t) then Some PgDeadlock else None.

Lemma setDAH_deadlock_not_retried :
  let attempt t := trySendSpendBatchPerRow (CH := model_Chainhash) ex_env (deadlock_at t) (λ _, None)
                     [ex_item 0] (ex_db None) 0 in
  at_retry (attempt 1%nat) = true ∧ at_retry (attempt 2%nat) = true ∧
  at_retry (attempt 3%nat) = false ∧
  map (λ r, ie_error <$> r.2) (at_replies (attempt 3%nat))
    = [Some (err_wrap ERR_STORAGE_ERROR storage_error)].
Proof. vm_compute. auto. Qed.
