(* ===== verification/UtxoSqlUnspend.v ===== *)
(** * Unspending and rolling back in the SQL UTXO store

    [Unspend] is atomic and clears only what its caller owns; a transaction that
    can be spent only in part is undone by [SpendTx]. *)

From stdpp Require Import sorting.
From stdpp Require Import list.
From S2P Require Import Prelude External Utxo UtxoSql UtxoSqlSpend.

(** ** Unspending *)
Section UnspendTheorems.
  Context {CH : Chainhash} (env : StoreEnv) (fault : nat → option DbFault).

(** The output a spend names, and the data it would clear. *)
Definition names (db : DB) (sp : Spend) (k : Z * Z) : Prop :=
  db_ids db !! sp_TxID sp = Some k.1 ∧ sp_Vout sp = k.2.

Definition sp_data (sp : Spend) : list byte := sd_Bytes (sp_SpendingData sp).

(** [db'] is [db] with some outputs cleared, each of which held exactly the
    spending data of a listed spend of that output; flags and heights of
    transactions may differ. *)
Definition output_cleared (db : DB) (spends : list Spend) (k : Z * Z) (o o' : output_row) : Prop :=
  o' = o ∨ o' = set_spending None o ∧
           ∃ sp, sp ∈ spends ∧ names db sp k ∧ o_spending_data o = Some (sp_data sp).

Record cleared_by (spends : list Spend) (db db' : DB) : Prop := {
  cb_ids : db_ids db' = db_ids db;
  cb_outputs k : option_Forall2 (output_cleared db spends k) (db_outputs db !! k) (db_outputs db' !! k);
  cb_txs id : option_Forall2 (λ t t', t' = set_dah (t_delete_at_height t') (set_locked (t_locked t') t))
                (db_txs db !! id) (db_txs db' !! id);
}.

Lemma cleared_by_refl spends db : cleared_by spends db db.
Proof.
  split; [done|intros k|intros id].
  - destruct (db_outputs db !! k); constructor. by left.
  - destruct (db_txs db !! id) as [t|]; constructor. by destruct t.
Qed.

Lemma cleared_by_trans spends d1 d2 d3 :
  cleared_by spends d1 d2 → cleared_by spends d2 d3 → cleared_by spends d1 d3.
Proof.
  intros [I1 O1 T1] [I2 O2 T2]. split; [congruence|intros k|intros id].
  - specialize (O1 k). specialize (O2 k).
    destruct O1 as [o1 o2 G1|]; inversion O2 as [? o3 G2|]; subst; constructor.
    destruct G1 as [->|[-> Hw]], G2 as [->|[-> Hw2]]; [by left| |by right|].
    + right. split; [done|]. destruct Hw2 as (sp & ? & Hn & ?). exists sp.
      unfold names in *. by rewrite I1 in Hn.
    + destruct Hw2 as (sp & _ & _ & ?). done.
  - specialize (T1 id). specialize (T2 id).
    destruct T1 as [t1 t2 G1|]; inversion T2 as [? t3 G2|]; subst; constructor.
    rewrite G2, G1. by destruct t1, t3.
Qed.

Lemma cleared_by_mono spends spends' db db' : spends ⊆ spends' →
  cleared_by spends db db' → cleared_by spends' db db'.
Proof.
  intros Hsub [I O T]. split; [done|intros k|done].
  destruct (O k) as [o o' G|]; constructor. destruct G as [->|[-> (sp & ? & ?)]]; [by left|right].
  split; [done|]. exists sp. auto.
Qed.

Lemma cleared_by_tx spends db id t b dah :
  db_txs db !! id = Some t →
  cleared_by spends db (put_tx id (set_dah dah (set_locked b t)) db).
Proof.
  intros Ht. split; [done|intros k|intros id']; simpl.
  - destruct (db_outputs db !! k); constructor. by left.
  - destruct (decide (id = id')) as [<-|Hne].
    + rewrite lookup_insert_eq, Ht. constructor. by destruct t.
    + rewrite lookup_insert_ne by done. destruct (db_txs db !! id') as [t'|]; constructor.
      by destruct t'.
Qed.

Lemma clear_owned_cleared sp db id db' :
  clear_owned (sp_TxID sp) (sp_Vout sp) (sp_data sp) db = (id, db') → cleared_by [sp] db db'.
Proof.
  unfold clear_owned. destruct (db_ids db !! sp_TxID sp) as [i|] eqn:Ei;
    [|intros [= <- <-]; apply cleared_by_refl].
  destruct (db_outputs db !! (i, sp_Vout sp)) as [o|] eqn:Eo; [|intros [= <- <-]; apply cleared_by_refl].
  case_bool_decide as Hd; intros [= <- <-]; [|apply cleared_by_refl].
  split; [done|intros k|intros id']; simpl.
  - destruct (decide ((i, sp_Vout sp) = k)) as [<-|Hne].
    + rewrite lookup_insert_eq, Eo. constructor. right. split; [done|].
      exists sp. split; [set_solver|]. done.
    + rewrite lookup_insert_ne by done. destruct (db_outputs db !! k); constructor. by left.
  - destruct (db_txs db !! id') as [t|]; constructor. by destruct t.
Qed.

(** The output [sp] names exists and does not hold [sp]'s spend. *)
Definition not_spent_by (db : DB) (sp : Spend) : Prop :=
  ∃ id o, db_ids db !! sp_TxID sp = Some id ∧ db_outputs db !! (id, sp_Vout sp) = Some o ∧
          o_spending_data o ≠ Some (sp_data sp).

Lemma not_spent_by_mono spends db db' sp :
  cleared_by spends db db' → not_spent_by db sp → not_spent_by db' sp.
Proof.
  intros [I O _] (id & o & Hi & Ho & Hd). specialize (O (id, sp_Vout sp)). rewrite Ho in O.
  inversion O as [? o' G E1 E2|]; subst. exists id, o'. split_and!; [congruence|done|].
  destruct G as [->|[-> _]]; done.
Qed.

Lemma setDAH_cleared spends id s s' r : setDAH env fault id s = (r, s') →
  cleared_by spends (view s) (view s') ∧ committed s' = committed s.
Proof.
  unfold setDAH. destruct (env_retention env =? 0);
    [intros [= <- <-]; split; [apply cleared_by_refl|done]|].
  destruct (stmt fault _ s) as [[[[n t]|]|f] s1] eqn:E1;
    [apply stmt_inl in E1 as [[= _ Ev] Ec]|apply stmt_inl in E1 as [[= _ Ev] Ec]
    |apply stmt_inr in E1 as [Ev Ec]];
    [|intros [= <- <-]; rewrite ?Ev, <- ?Ev; split; [apply cleared_by_refl|done]
     |intros [= <- <-]; rewrite ?Ev; split; [apply cleared_by_refl|done]].
  rewrite Ev.
  case_bool_decide; [intros [= <- <-]; split; [apply cleared_by_refl|done]|].
  destruct (dahUnchanged _ _); [intros [= <- <-]; split; [apply cleared_by_refl|done]|].
  destruct (stmt fault _ s1) as [[u|f] s2] eqn:E2; intros [= <- <-].
  - apply stmt_inl in E2 as [[= _ Ev2] Ec2]. rewrite <- Ev2. split; [|congruence].
    destruct (db_txs (view s1) !! id) as [t'|] eqn:Et; [|apply cleared_by_refl].
    replace t' with (set_locked (t_locked t') t') by (by destruct t').
    by apply cleared_by_tx.
  - apply stmt_inr in E2 as [Ev2 Ec2]. rewrite Ev2. split; [apply cleared_by_refl|congruence].
Qed.

(** Finding the transaction of the spend, clearing the output on the way. *)
Lemma clear_or_find_ok sp s found s' : clear_or_find fault sp s = (found, s') →
  cleared_by [sp] (view s) (view s') ∧ committed s' = committed s ∧
  ∀ id, found = inl id → not_spent_by (view s') sp.
Proof.
  unfold clear_or_find. fold (sp_data sp).
  destruct (stmt fault (clear_owned _ _ _) s) as [[r|f] s1] eqn:E1.
  2: { apply stmt_inr in E1 as [Ev Ec]. intros [= <- <-]. rewrite Ev.
       split_and!; [apply cleared_by_refl|done|done]. }
  apply stmt_inl in E1 as [Hc Ec]. pose proof (clear_owned_cleared _ _ _ _ Hc) as Hcl.
  unfold clear_owned in Hc.
  destruct r as [id|].
  - intros [= <- <-]. split_and!; [done|done|]. intros id' [= <-].
    destruct (db_ids (view s) !! sp_TxID sp) as [i|] eqn:Ei; [|done].
    destruct (db_outputs (view s) !! (i, sp_Vout sp)) as [o|] eqn:Eo; [|done].
    case_bool_decide; [|done]. injection Hc as <- Ev. rewrite <- Ev.
    exists i, (set_spending None o). simpl. by rewrite lookup_insert_eq.
  - destruct (stmt fault _ s1) as [[[id|]|f] s2] eqn:E2;
      [apply stmt_inl in E2 as [[= Hf Ev2] Ec2]|apply stmt_inl in E2 as [[= Hf Ev2] Ec2]
      |apply stmt_inr in E2 as [Ev2 Ec2]]; intros [= <- <-];
      (split_and!; [by (rewrite <- Ev2 || rewrite Ev2)|congruence|]); try done.
    intros id' _. rewrite <- Ev2. unfold find_output_tx in Hf.
    assert (view s1 = view s) as Hsame.
    { destruct (db_ids (view s) !! sp_TxID sp) as [i|]; [|by injection Hc].
      destruct (db_outputs (view s) !! (i, sp_Vout sp)); [|by injection Hc].
      case_bool_decide; [done|by injection Hc]. }
    rewrite Hsame in Hf |- *.
    destruct (db_ids (view s) !! sp_TxID sp) as [i|] eqn:Ei; [|done].
    destruct (db_outputs (view s) !! (i, sp_Vout sp)) as [o|] eqn:Eo; [|done].
    exists i, o. split_and!; [done|done|]. by case_bool_decide.
Qed.

Lemma apply_lock_ok spends flag id s e s' : apply_lock fault flag id s = (e, s') →
  cleared_by spends (view s) (view s') ∧ committed s' = committed s.
Proof.
  unfold apply_lock.
  destruct flag as [b|]; [|intros [= <- <-]; split; [apply cleared_by_refl|done]].
  destruct (stmt fault _ s) as [[u|f] s3] eqn:E3; intros [= <- <-].
  - apply stmt_inl in E3 as [[= _ Ev] Ec]. split; [|done]. rewrite <- Ev.
    destruct (db_txs (view s) !! id) as [t|] eqn:Et; [|apply cleared_by_refl].
    replace (set_locked b t) with (set_dah (t_delete_at_height t) (set_locked b t)) by (by destruct t).
    by apply cleared_by_tx.
  - apply stmt_inr in E3 as [Ev Ec]. rewrite Ev. split; [apply cleared_by_refl|done].
Qed.

Lemma unspend_one_ok flag sp s e s' : unspend_one env fault flag sp s = (e, s') →
  cleared_by [sp] (view s) (view s') ∧ committed s' = committed s ∧
  (e = None → not_spent_by (view s') sp).
Proof.
  unfold unspend_one.
  destruct (sp_SpendingData sp) as [sd|] eqn:Esd;
    [|intros [= <- <-]; split_and!; [apply cleared_by_refl|done|done]].
  destruct (clear_or_find fault sp s) as [[id|e'] s1] eqn:Ef;
    apply clear_or_find_ok in Ef as (Hc1 & Ec1 & Hn1);
    [|intros [= <- <-]; split_and!; [done|done|done]].
  specialize (Hn1 _ eq_refl).
  destruct (apply_lock fault flag id s1) as [lockErr s2] eqn:El.
  apply (apply_lock_ok [sp]) in El as [Hc2 Ec2].
  pose proof (not_spent_by_mono _ _ _ _ Hc2 Hn1) as Hn2.
  pose proof (cleared_by_trans _ _ _ _ Hc1 Hc2) as Hc12.
  destruct lockErr as [e'|]; [intros [= <- <-]; split_and!; [done|congruence|done]|].
  destruct (setDAH env fault id s2) as [r s3] eqn:E3.
  apply (setDAH_cleared [sp]) in E3 as [Hc3 Ec3].
  pose proof (cleared_by_trans _ _ _ _ Hc12 Hc3) as Hall.
  destruct r; intros [= <- <-]; split_and!; try done; try congruence.
  intros _. exact (not_spent_by_mono _ _ _ _ Hc3 Hn2).
Qed.

Lemma unspend_all_ok flag spends s e s' : unspend_all env fault flag spends s = (e, s') →
  cleared_by spends (view s) (view s') ∧ committed s' = committed s ∧
  (e = None → ∀ sp, sp ∈ spends → not_spent_by (view s') sp).
Proof.
  revert s; induction spends as [|sp spends IH]; intros s; cbn [unspend_all].
  { intros [= <- <-]. split_and!; [apply cleared_by_refl|done|]. by intros _ sp ?%elem_of_nil. }
  destruct (unspend_one env fault flag sp s) as [[e1|] s1] eqn:E1;
    apply unspend_one_ok in E1 as (Hc1 & Ec1 & Hn1).
  - intros [= <- <-]. split_and!; [|done|done]. eapply cleared_by_mono; [|exact Hc1]. set_solver.
  - intros E2. apply IH in E2 as (Hc2 & Ec2 & Hn2). split_and!; [|congruence|].
    + eapply cleared_by_trans; (eapply cleared_by_mono; [|eassumption]); set_solver.
    + intros -> sp' [->|Hin]%elem_of_cons; [|by apply Hn2].
      eapply not_spent_by_mono; [exact Hc2|by apply Hn1].
Qed.

Lemma Unspend_ok spends flag db t e db' t' : Unspend env fault spends flag db t = (e, db', t') →
  match e with
  | Some _ => db' = db
  | None => cleared_by spends db db' ∧ ∀ sp, sp ∈ spends → not_spent_by db' sp
  end.
Proof.
  unfold Unspend. destruct (stmt fault _ _) as [[u|f] s1] eqn:E1.
  2: { apply stmt_inr in E1 as [_ Ec]. by intros [= <- <- _]. }
  apply stmt_inl in E1 as [[= _ Ev1] Ec1]. simpl in Ev1, Ec1.
  destruct (unspend_all env fault flag spends s1) as [[e2|] s2] eqn:E2;
    apply unspend_all_ok in E2 as (Hc2 & Ec2 & Hn2); [intros [= <- <- _]; congruence|].
  destruct (stmt fault _ s2) as [[u'|f] s3] eqn:E3.
  - apply stmt_inl in E3 as [[= _ Ev3] _]. intros [= <- <- _]. rewrite <- Ev3.
    split; [by rewrite Ev1|by apply Hn2].
  - apply stmt_inr in E3 as [_ Ec3]. intros [= <- <- _]. congruence.
Qed.
End UnspendTheorems.

(** An unspend is atomic, clears only outputs that hold exactly the spend
    the caller names, and on success leaves no named spend in place; a failed
    one changes nothing. *)
Theorem Unspend_spec `{Chainhash} (env : StoreEnv) (fault : nat → option DbFault)
    (spends : list Spend) (flag : option bool) (db : DB) (t : nat) :
  match Unspend env fault spends flag db t with
  | (Some _, db', _) => db' = db
  | (None, db', _) =>
      cleared_by spends db db' ∧ ∀ sp, sp ∈ spends → not_spent_by db' sp
  end.
Proof.
  destruct (Unspend env fault spends flag db t) as [[e db'] t'] eqn:E.
  apply Unspend_ok in E. by destruct e.
Qed.

(** ** Rolling back a partly spent transaction *)
Section Rollback.
  Context {CH : Chainhash} {BT : BtTx} (env : StoreEnv).
Let nofault : nat → option DbFault := λ _, None.

(** Every output belongs to a transaction row. *)
Definition db_fk (db : DB) : Prop :=
  ∀ k o, db_outputs db !! k = Some o → is_Some (db_txs db !! k.1).

(** The output a spend names exists. *)
Definition has_output (db : DB) (sp : Spend) : Prop :=
  ∃ id o, db_ids db !! sp_TxID sp = Some id ∧ db_outputs db !! (id, sp_Vout sp) = Some o.

Lemma cleared_by_fk spends db db' : cleared_by spends db db' → db_fk db → db_fk db'.
Proof.
  intros [_ O T] Hfk k o' Ho'. specialize (O k). rewrite Ho' in O.
  inversion O as [o ? _ E|]; subst. destruct (Hfk k o) as [tx Ht]; [done|].
  specialize (T k.1). rewrite Ht in T. inversion T; subst; eauto.
Qed.

Lemma cleared_by_has_output spends db db' sp :
  cleared_by spends db db' → has_output db sp → has_output db' sp.
Proof.
  intros [I O _] (id & o & Hi & Ho). specialize (O (id, sp_Vout sp)). rewrite Ho in O.
  inversion O as [? o' G E1 E2|]; subst. exists id, o'. split; [congruence|done].
Qed.

Lemma clear_or_find_clean sp s : has_output (view s) sp →
  ∃ id s', clear_or_find nofault sp s = (inl id, s') ∧ db_ids (view s) !! sp_TxID sp = Some id.
Proof.
  intros (id & o & Hi & Ho).
  unfold clear_or_find, stmt, nofault, clear_owned. cbn [view]. rewrite Hi, Ho.
  case_bool_decide; [by eexists _, _|]. unfold find_output_tx. cbn [view]. rewrite Hi, Ho.
  by eexists _, _.
Qed.

Lemma unspend_one_clean sp s : db_fk (view s) → has_output (view s) sp →
  is_Some (sp_SpendingData sp) → ∃ s', unspend_one env nofault None sp s = (None, s').
Proof.
  intros Hfk Hout [sd Hsd]. unfold unspend_one. rewrite Hsd.
  destruct (clear_or_find_clean sp s Hout) as (id & s1 & Ef & Hid). rewrite Ef.
  apply clear_or_find_ok in Ef as (Hc & _ & _). cbn [apply_lock].
  destruct (setDAH_clean env id s1) as (s2 & E2 & _).
  - pose proof (cleared_by_fk _ _ _ Hc Hfk) as Hfk1.
    destruct (cleared_by_has_output _ _ _ _ Hc Hout) as (id' & o & Hi' & Ho).
    rewrite (cb_ids _ _ _ Hc), Hid in Hi'. injection Hi' as <-. exact (Hfk1 _ _ Ho).
  - exists s2. unfold nofault in *. by rewrite E2.
Qed.

Lemma unspend_all_clean spends s : db_fk (view s) →
  Forall (λ sp, has_output (view s) sp ∧ is_Some (sp_SpendingData sp)) spends →
  ∃ s', unspend_all env nofault None spends s = (None, s').
Proof.
  revert s; induction spends as [|sp spends IH]; intros s Hfk Hall; cbn [unspend_all]; [by exists s|].
  inversion_clear Hall as [|? ? [Hout Hsd] Hrest].
  destruct (unspend_one_clean sp s Hfk Hout Hsd) as [s1 E]. rewrite E.
  apply unspend_one_ok in E as (Hc & _ & _). apply IH; [by eapply cleared_by_fk|].
  eapply Forall_impl; [exact Hrest|]. intros sp' [? ?]. split; [|done].
  by eapply cleared_by_has_output.
Qed.

Lemma Unspend_clean spends db t : db_fk db →
  Forall (λ sp, has_output db sp ∧ is_Some (sp_SpendingData sp)) spends →
  ∃ db' t', Unspend env nofault spends None db t = (None, db', t').
Proof.
  intros Hfk Hall. unfold Unspend, stmt at 1. change (nofault _) with (@None DbFault).
  cbn [view committed ticks].
  destruct (unspend_all_clean spends (mkTxn db db (S t))) as [s' E]; [done|done|].
  rewrite E. unfold stmt. change (nofault _) with (@None DbFault). by eexists _, _.
Qed.

Lemma rollback_chunks_step fuel cancelled n e spends db t db1 t1 : spends ≠ [] →
  Unspend env nofault (take rollbackChunkSize spends) None db t = (None, db1, t1) →
  rollback_chunks env nofault (S fuel) cancelled n e spends db t =
  rollback_chunks env nofault fuel cancelled (n + length (take rollbackChunkSize spends)) e
    (drop rollbackChunkSize spends) db1 t1.
Proof.
  intros Hne E. destruct spends as [|sp spends]; [done|].
  cbn [rollback_chunks maxRollbackChunkRetries rollback_chunk]. by rewrite E.
Qed.

Lemma rollback_chunks_clean fuel cancelled n e spends db t :
  (length spends ≤ fuel)%nat → db_fk db →
  Forall (λ sp, has_output db sp ∧ is_Some (sp_SpendingData sp)) spends →
  ∃ db' t', rollback_chunks env nofault fuel cancelled n e spends db t =
      ((n + length spends)%nat, e, db', t') ∧
    cleared_by spends db db' ∧ ∀ sp, sp ∈ spends → not_spent_by db' sp.
Proof.
  revert n spends db t; induction fuel as [|fuel IH]; intros n spends db t Hlen Hfk Hall;
    (destruct (decide (spends = [])) as [->|Hne];
      [exists db, t; cbn; rewrite Nat.add_0_r; split_and!;
         [done|apply cleared_by_refl|by intros sp ?%elem_of_nil]|]).
  { destruct spends; [done|]. simpl in Hlen. lia. }
  set (chunk := take rollbackChunkSize spends).
  assert (Hsplit : chunk ++ drop rollbackChunkSize spends = spends) by apply take_drop.
  rewrite <- Hsplit, Forall_app in Hall. destruct Hall as [Hchunk Hdrop].
  destruct (Unspend_clean chunk db t Hfk Hchunk) as (db1 & t1 & E1).
  pose proof (Unspend_ok env nofault chunk None db t None db1 t1 E1) as [Hc1 Hn1].
  destruct (IH (n + length chunk)%nat (drop rollbackChunkSize spends) db1 t1)
    as (db2 & t2 & E2 & Hc2 & Hn2).
  { rewrite length_drop. destruct spends; [done|]. unfold rollbackChunkSize. simpl in *. lia. }
  { by eapply cleared_by_fk. }
  { eapply Forall_impl; [exact Hdrop|]. intros sp [? ?]. split; [|done].
    by eapply cleared_by_has_output. }
  exists db2, t2. split_and!.
  - rewrite (rollback_chunks_step _ _ _ _ _ _ _ db1 t1 Hne E1). fold chunk. rewrite E2.
    rewrite <- Hsplit at 2. by rewrite length_app, Nat.add_assoc.
  - apply (cleared_by_trans _ _ db1); [apply (cleared_by_mono chunk)|eapply cleared_by_mono];
      [apply subseteq_take|exact Hc1|apply subseteq_drop|exact Hc2].
  - rewrite <- Hsplit. intros sp [Hin|Hin]%elem_of_app; [|by apply Hn2].
    eapply not_spent_by_mono; [exact Hc2|by apply Hn1].
Qed.

Lemma settle_all_committed fault flags tx ws memo s errs s' :
  settle_all fault flags tx ws memo s = (errs, s') → committed s' = committed s.
Proof.
  revert memo s errs; induction ws as [|w ws IH]; intros memo s errs; cbn [settle_all];
    [by intros [= _ <-]|].
  destruct (settle fault flags tx w memo s) as [[r memo1] s1] eqn:E.
  destruct (settle_all fault flags tx ws memo1 s1) as [rs s2] eqn:E2. intros [= _ <-].
  apply IH in E2. rewrite E2. revert E. unfold settle, spender_exists.
  destruct w as [[e|]| |]; try by intros [= _ _ <-].
  destruct (_ && _); [|by intros [= _ _ <-]]. destruct memo; [by intros [= _ _ <-]|].
  destruct (stmt fault _ s) as [[[]|f] s3] eqn:E3; intros [= _ _ <-];
    [apply stmt_inl in E3|apply stmt_inl in E3|apply stmt_inr in E3]; by destruct E3.
Qed.

Lemma in_spent_of spends errs sp : (sp, None) ∈ zip spends errs → sp ∈ spent_of spends errs.
Proof.
  intros Hin. unfold spent_of. apply list_elem_of_omap. by exists (sp, None).
Qed.

Lemma spent_of_subset spends errs : spent_of spends errs ⊆ spends.
Proof.
  intros sp Hin. unfold spent_of in Hin. apply list_elem_of_omap in Hin as ([sp' [e|]] & Hz & E); [done|].
  injection E as ->. apply list_elem_of_lookup in Hz as [i Hz].
  apply lookup_zip_Some in Hz as [Hx _]. by eapply list_elem_of_lookup_2.
Qed.

Lemma spends_from_data txid n inputs spends : spends_from txid n inputs = Ok spends →
  Forall (λ sp, is_Some (sp_SpendingData sp)) spends.
Proof.
  revert n spends; induction inputs as [|input inputs IH]; intros n spends; cbn [spends_from].
  - intros [= <-]. constructor.
  - intros (h & _ & H)%bindR_Ok. apply bindR_Ok in H as (rest & Hr & [= <-]).
    constructor; [by eexists|by eapply IH].
Qed.

Lemma outpoint_only_data tx spends : GetSpendsOutpointOnly tx = Ok spends →
  Forall (λ sp, is_Some (sp_SpendingData sp)) spends.
Proof.
  unfold GetSpendsOutpointOnly. intros [= <-]. apply Forall_forall. intros sp.
  intros (i & input & -> & _)%elem_of_lookup_imap. by eexists.
Qed.

(** Without faults and without a record of the spender, only a positive answer
    counts as a success. *)
Lemma settle_all_clean flags tx ws memo s errs s' :
  db_ids (view s) !! TxIDChainHash tx = None → memo = false →
  settle_all nofault flags tx ws memo s = (errs, s') →
  view s' = view s ∧ length errs = length ws ∧
  ∀ i, errs !! i = Some None → ws !! i = Some (Replied None).
Proof.
  revert memo s errs; induction ws as [|w ws IH]; intros memo s errs Hno Hm; cbn [settle_all];
    [by intros [= <- <-]|].
  assert (Hset : ∃ r s1, settle nofault flags tx w memo s = (r, false, s1) ∧ view s1 = view s ∧
                   (r = None → w = Replied None)).
  { rewrite Hm. unfold settle, spender_exists, stmt, nofault.
    destruct w as [[e|]| |]; try (by eexists _, _).
    destruct (_ && _); [|by eexists _, _]. rewrite Hno. cbn. by eexists _, _. }
  destruct Hset as (r & s1 & -> & Hv & Hr).
  destruct (settle_all nofault flags tx ws false s1) as [rs s2] eqn:E. intros [= <- <-].
  apply IH in E as (Hv2 & Hlen & Hall); [|congruence|done].
  split_and!; [congruence|simpl; by rewrite Hlen|].
  intros [|i]; simpl; [|apply Hall]. intros [= ->]. by rewrite Hr.
Qed.

(** The store-level promise of a failing spend. *)
Definition rollback_wanted (errs : list (option ItemErr)) : bool :=
  negb (hasTransientLockFailure errs || hasTransientCreatingFailure errs) ||
  hasUnwinnableFailure errs.

(** When a transaction can be spent only in part and no transient failure
    forbids the rollback, every spend that had succeeded is undone: no parent
    output is left naming a spender whose record does not exist, and nothing
    but the transaction's own spends is cleared. *)
Theorem SpendTx_rolls_back (batcher : list batchSpend → DB → nat → list wait * DB * nat)
    (cancelled : nat → bool) (flags : SpendFlags) (tx : Tx) (height : Z) (db db2 : DB) (t t2 : nat)
    (l : list (Spend * option ItemErr)) (e : error) :
  (∀ items, let '(waits, db1, _) := batcher items db t in
     db_fk db1 ∧ db_ids db1 !! TxIDChainHash tx = None ∧ length waits = length items ∧
     ∀ i it, items !! i = Some it → waits !! i = Some (Replied None) → has_output db1 (bs_spend it)) →
  SpendTx env (λ _, None) batcher cancelled flags tx height db t = (Ok (l, Some e), db2, t2) →
  rollback_wanted (snd <$> l) = true →
  (∀ sp, (sp, None) ∈ l → not_spent_by db2 sp) ∧
  ∃ items, cleared_by (bs_spend <$> items) (batcher items db t).1.2 db2.
Proof.
  fold nofault. intros Hbat. unfold SpendTx. destruct (height =? 0); [done|].
  destruct (if SkipUTXOHashCheck flags then _ else _) as [spends|] eqn:Esp; [|done].
  assert (Hdata : Forall (λ sp, is_Some (sp_SpendingData sp)) spends).
  { destruct (SkipUTXOHashCheck flags); [by eapply outpoint_only_data|by eapply spends_from_data]. }
  clear Esp. case_bool_decide as Hnil; [done|].
  set (items := spend_items flags height spends).
  assert (Hitems : bs_spend <$> items = spends).
  { unfold items, spend_items. change (map ?f spends) with (f <$> spends).
    rewrite <- list_fmap_compose. apply list_fmap_id. }
  specialize (Hbat items). destruct (batcher items db t) as [[waits db1] t1] eqn:Eb.
  destruct Hbat as (Hfk & Hno & Hwlen & Hout).
  destruct (settle_all nofault flags tx waits false (mkTxn db1 db1 t1)) as [errs s] eqn:Es.
  pose proof (settle_all_committed _ _ _ _ _ _ _ _ Es) as Hcom. simpl in Hcom.
  apply settle_all_clean in Es as (Hview & Helen & Hok); [|done|done]. simpl in Hview.
  case_bool_decide as Hall; [done|].
  assert (Hl : snd <$> zip spends errs = errs).
  { apply snd_zip. rewrite Helen, Hwlen, <- Hitems, length_fmap. done. }
  assert (Hspent : Forall (λ sp, has_output db1 sp ∧ is_Some (sp_SpendingData sp)) (spent_of spends errs)).
  { apply Forall_forall. intros sp Hin. unfold spent_of in Hin.
    apply list_elem_of_omap in Hin as ([sp' [e'|]] & Hz & E); [done|]. injection E as ->.
    apply list_elem_of_lookup in Hz as [i Hz]. apply lookup_zip_Some in Hz as [Hsp Herr].
    rewrite Forall_lookup in Hdata. split; [|by eapply Hdata].
    rewrite <- Hitems, list_lookup_fmap in Hsp. destruct (items !! i) as [it|] eqn:Ei; [|done].
    injection Hsp as <-. eapply Hout; [done|by apply Hok]. }
  destruct (decide (spent_of spends errs = [])) as [Hnone|Hsome].
  { rewrite Hnone. cbn [length]. rewrite (bool_decide_false (0 < 0)%nat) by lia. cbn [andb].
    intros [= <- <- <- <-] _. split.
    - intros sp Hin%in_spent_of. rewrite Hnone in Hin. by apply elem_of_nil in Hin.
    - exists items. rewrite Eb, Hcom. apply cleared_by_refl. }
  rewrite (bool_decide_true (0 < _)%nat) by (by destruct (spent_of spends errs); simpl; [|lia]).
  fold (rollback_wanted errs). cbn [andb].
  intros E Hw.
  assert (Hl' : l = zip spends errs).
  { revert E. destruct (rollback_wanted errs); [|by intros [= <- _ _ _]].
    destruct (spender_exists _ _ _) as [[[]|] ?]; try by intros [= <- _ _ _].
    destruct (rollbackSpendChunks _ _ _ _ _ _) as [[[??]?]?]. by intros [= <- _ _ _]. }
  rewrite Hl', Hl in Hw. rewrite Hw in E. unfold spender_exists, stmt, nofault in E.
  rewrite Hview, Hno in E. cbn in E. rewrite Hcom in E.
  destruct (rollback_chunks_clean (length (spent_of spends errs)) cancelled 0 None
    (spent_of spends errs) db1 (S (ticks s))) as (db3 & t3 & Erb & Hc & Hn); [done|done|done|].
  unfold rollbackSpendChunks, nofault in *. rewrite Erb in E. injection E as _ _ <- _.
  split.
  - intros sp. rewrite Hl'. intros Hin%in_spent_of. by apply Hn.
  - exists items. rewrite Eb, Hitems. cbn. eapply cleared_by_mono; [|exact Hc]. apply spent_of_subset.
Qed.
End Rollback.

(** ** Witnesses *)
Definition ex_batcher (items : list batchSpend) (_ : DB) (t : nat) : list wait * DB * nat :=
  (map (λ it, if bool_decide (sp_outpoint (bs_spend it) = (ex_parent, 0)) then Replied None
              else Replied (Some (item_err ERR_UTXO_FROZEN))) items,
   ex_db (Some (sp_data (ex_spend 0))), t).

Definition ex_flags : SpendFlags := mkFlags false false true false.

Lemma SpendTx_rolls_back_witness :
  ∃ l e db2 t2, SpendTx (BT := model_BtTx) (CH := model_Chainhash) ex_env (λ _, None) ex_batcher
      (λ _, false) ex_flags ex_spender 101 (ex_db None) 0 = (Ok (l, Some e), db2, t2) ∧
    (ex_spend 0, None) ∈ l ∧ not_spent_by db2 (ex_spend 0).
Proof.
  destruct (SpendTx (BT := model_BtTx) (CH := model_Chainhash) ex_env (λ _, None) ex_batcher
      (λ _, false) ex_flags ex_spender 101 (ex_db None) 0) as [[r db2] t2] eqn:E.
  assert (Hr : r = Ok ([(ex_spend 0, None); (ex_spend 1, Some (item_err ERR_UTXO_FROZEN))],
                       Some (err ERR_UTXO_ERROR)))
    by (change r with (r, db2, t2).1.1; rewrite <- E; vm_compute; reflexivity).
  subst r. eexists _, _, db2, t2. split; [reflexivity|]. split; [left|].
  eapply (SpendTx_rolls_back (BT := model_BtTx) (CH := model_Chainhash) ex_env ex_batcher
    (λ _, false) ex_flags ex_spender 101 (ex_db None) db2 0 t2); [|exact E|by vm_compute|left].
  intros items. unfold ex_batcher. split_and!.
  - intros k o Ho. simpl in *. rewrite lookup_insert_Some, lookup_singleton_Some in Ho.
    destruct Ho as [[<- _]|[_ [<- _]]]; by eexists.
  - by vm_compute.
  - by rewrite length_map.
  - intros i it Hi. change (map ?f items) with (f <$> items). rewrite list_lookup_fmap, Hi. simpl.
    case_bool_decide as Ho; [intros _|done]. unfold sp_outpoint in Ho. injection Ho as Ht Hv.
    exists 1, (ex_row false (Some (sp_data (ex_spend 0)))). rewrite Ht, Hv. split; by vm_compute.
Defined.
