(* ===== verification/BlockReward.v ===== *)
(** * Money: fees, subsidy, supply, and the coinbase rules of a block

    util/fees.go, util/block_subsidy.go, util/supply_calculator.go,
    model/checkpoint.go and, of model/Block.go, [bindClassifiedError],
    [IsConsensusCoinbase], [CoinbaseScriptSigLengthInBounds],
    [CheckCoinbaseOnlyBodyBound] and [checkBlockRewardAndFees].  Amounts are
    uint64 with their wrap-around. *)

From S2P Require Import Prelude External NBits BlockHeader.

(** ** Fees of a transaction *)

(** The loop over the outputs; a nil output pointer panics. *)
Fixpoint output_fees (acc : Z) (outs : list (option TxOutput)) : result Z :=
  match outs with
  | [] => Ok acc
  | None :: _ => Err panic
  | Some o :: outs => output_fees (if Satoshis o >? 0 then u64 (acc + Satoshis o) else acc) outs
  end.

Fixpoint input_fees (acc : Z) (ins : list TxInput) : Z :=
  match ins with
  | [] => acc
  | i :: ins => input_fees (u64 (acc + PreviousTxSatoshis i)) ins
  end.

Definition GetFees `{BtTx} (btTx : Tx) : result Z :=
  if IsCoinbase btTx then output_fees 0 (Outputs btTx)
  else if bool_decide (length (Inputs btTx) = 0%nat) then Ok 0
  else
    let inputFees := input_fees 0 (Inputs btTx) in
    let? outputFees := output_fees 0 (Outputs btTx) in
    guard? negb (inputFees <? outputFees) else err ERR_PROCESSING in
    Ok (u64 (inputFees - outputFees)).

(** ** The block subsidy *)
Definition initialSubsidy : Z := 50 * 100000000.
Definition maxHalvings : Z := 64.

Definition GetBlockSubsidyForHeight (height : Z) (params : option ChainParams) : Z :=
  match params with
  | None => 0
  | Some params =>
      if SubsidyReductionInterval params =? 0 then 0
      else
        let halvings := u64 height / u64 (SubsidyReductionInterval params) in
        if halvings >=? maxHalvings then 0 else Z.shiftr initialSubsidy halvings
  end.

(** ** The supply at a height

    The loop breaks at the latest when [halvingPeriod] reaches 64, so 64
    iterations are enough; running out of fuel would be [None]. *)
Fixpoint supply_loop (fuel : nat) (params : ChainParams) (height : Z)
    (currentHeight halvingPeriod totalSupply : Z) : option Z :=
  match fuel with
  | O => None
  | S fuel =>
      if negb (currentHeight <=? height) then Some totalSupply else
      let subsidy := GetBlockSubsidyForHeight currentHeight (Some params) in
      if subsidy =? 0 then Some totalSupply else
      let periodEnd :=
        u32 (u32 (u32 (halvingPeriod + 1) * SubsidyReductionInterval params) - 1) in
      let periodEnd := if periodEnd >? height then height else periodEnd in
      let blocksInPeriod := u32 (u32 (periodEnd - currentHeight) + 1) in
      let totalSupply := u64 (totalSupply + u64 (blocksInPeriod * subsidy)) in
      let currentHeight := u32 (periodEnd + 1) in
      let halvingPeriod := u32 (halvingPeriod + 1) in
      if halvingPeriod >=? 64 then Some totalSupply
      else supply_loop fuel params height currentHeight halvingPeriod totalSupply
  end.

Definition CalculateExpectedSupplyAtHeight (height : Z) (params : option ChainParams)
  : option Z :=
  match params with
  | None => Some 0
  | Some p =>
      if SubsidyReductionInterval p =? 0 then Some 0
      else supply_loop 64 p height 0 0 0
  end.

(** ** Checkpoints *)
Definition HighestCheckpointHeight (checkpoints : list (Z * option Hash)) : Z :=
  foldl (λ highest cp,
           if fst cp <? 0 then highest
           else let h := u32 (fst cp) in if h >? highest then h else highest)
        0 checkpoints.

Definition BelowCheckpoint (checkpoints : list (Z * option Hash)) (height : Z) : bool :=
  let highest := HighestCheckpointHeight checkpoints in
  (highest >? 0) && (height >? 0) && (height <=? highest).

Definition HighestCheckpointHash (checkpoints : list (Z * option Hash)) : option Hash :=
  snd (foldl (λ '(highest, hash) cp,
                if fst cp <? 0 then (highest, hash)
                else let h := u32 (fst cp) in
                     if h >=? highest then (h, snd cp) else (highest, hash))
             (0, None) checkpoints).

(** [tSettings] and [store] are nil or carry the one bit the gate reads. *)
Definition OutpointOnlyEligible (tSettings store : option bool)
    (params : option ChainParams) (height : Z) : bool :=
  match tSettings with
  | Some true =>
      match store with
      | Some true =>
          match params with
          | None => false
          | Some p => BelowCheckpoint (Checkpoints p) height
          end
      | _ => false
      end
  | _ => false
  end.

(** ** The block, as far as these rules read it *)
Record Block := mkBlock {
  Height : Z;
  MerkleRoot : Hash;                       (* [Header.HashMerkleRoot] *)
  CoinbaseTx : option Tx;
  Subtrees : nat;                          (* [len(b.Subtrees)] *)
  SubtreeFees : list (option Z);           (* [SubtreeSlices[i].Fees]; nil = released *)
  TransactionCount : Z;
}.

Definition bindClassifiedError (merkleRootChecked : bool) : error :=
  if merkleRootChecked then err ERR_BLOCK_INVALID else err ERR_BLOCK_CORRUPT.

Definition IsConsensusCoinbase (tx : option Tx) : bool :=
  match tx with
  | None => false
  | Some tx =>
      match Inputs tx with
      | [i] => if negb (PreviousTxOutIndex i =? 0xFFFFFFFF) then false
               else bool_decide (PreviousTxID i = zero_hash)
      | _ => false
      end
  end.

Definition CoinbaseScriptSigLengthInBounds (coinbaseTx : Tx) (params : ChainParams)
  : result bool :=
  match Inputs coinbaseTx with
  | [] => Err panic
  | i :: _ =>
      let scriptSigLen := match UnlockingScript i with
                          | Some us => Z.of_nat (length us) | None => 0 end in
      Ok ((scriptSigLen >=? 2) && (scriptSigLen <=? MaxCoinbaseScriptSigSize params))
  end.

Definition CheckCoinbaseOnlyBodyBound `{BtTx} (b : Block) : result unit :=
  if negb (bool_decide (Subtrees b = 0%nat)) then Ok () else
  match CoinbaseTx b with
  | None => Err panic
  | Some cb =>
      guard? bool_decide (MerkleRoot b = TxIDChainHash cb) else err ERR_BLOCK_CORRUPT in
      guard? negb (TransactionCount b >? 1) else err ERR_BLOCK_CORRUPT in
      Ok ()
  end.

(** The two accumulations with overflow detection. *)
Fixpoint sum_outputs (e : error) (acc : Z) (outs : list (option TxOutput)) : result Z :=
  match outs with
  | [] => Ok acc
  | None :: _ => Err panic
  | Some tx :: outs =>
      let sum := u64 (acc + Satoshis tx) in
      if sum <? acc then Err e else sum_outputs e sum outs
  end.

Fixpoint sum_fees (e : error) (acc : Z) (slices : list (option Z)) : result Z :=
  match slices with
  | [] => Ok acc
  | None :: _ => Err (err ERR_PROCESSING)
  | Some fees :: slices =>
      let sum := u64 (acc + fees) in
      if sum <? acc then Err e else sum_fees e sum slices
  end.

Definition checkBlockRewardAndFees (b : Block) (params : ChainParams)
    (storeSupportsOutpointOnly checkpointConfirmedAncestor merkleRootChecked : bool)
  : result unit :=
  if Height b =? 0 then Ok () else
  if merkleRootChecked && storeSupportsOutpointOnly && checkpointConfirmedAncestor &&
     (Height b <=? HighestCheckpointHeight (Checkpoints params)) then Ok () else
  let e := bindClassifiedError merkleRootChecked in
  match CoinbaseTx b with
  | None => Err panic
  | Some cb =>
      let? coinbaseOutputSatoshis := sum_outputs e 0 (Outputs cb) in
      let? subtreeFees := sum_fees e 0 (SubtreeFees b) in
      let coinbaseReward := GetBlockSubsidyForHeight (Height b) (Some params) in
      let allowedReward := u64 (subtreeFees + coinbaseReward) in
      if allowedReward <? subtreeFees then Err e else
      if coinbaseOutputSatoshis >? allowedReward then Err e else Ok ()
  end.

(** * Theorems *)

(** ** The subsidy schedule *)

(** The reward of the block at [h], by integer halving. *)
Definition subsidy (p : ChainParams) (h : Z) : Z :=
  if h / SubsidyReductionInterval p >=? 64 then 0
  else initialSubsidy / 2 ^ (h / SubsidyReductionInterval p).

(** The coins created by the [n] blocks from height [a] on. *)
Definition created (p : ChainParams) (a n : Z) : Z := sum_Z (subsidy p <$> seqZ a n).

(** The schedules the uint32 arithmetic of the loop covers: 33 halvings end all
    rewards, and their heights fit. *)
Definition schedule_fits (p : ChainParams) : Prop :=
  0 < SubsidyReductionInterval p ∧ 33 * SubsidyReductionInterval p < 2^32.

Lemma GetBlockSubsidyForHeight_eq (p : ChainParams) (h : Z) :
  schedule_fits p → is_u32 h → GetBlockSubsidyForHeight h (Some p) = subsidy p h.
Proof.
  intros [H1 H2] Hh. unfold GetBlockSubsidyForHeight, subsidy, maxHalvings.
  rewrite (proj2 (Z.eqb_neq _ _)) by lia. rewrite !u64_small by lia.
  case_match; [done|]. apply Z.shiftr_div_pow2. apply Z.div_pos; lia.
Qed.

Lemma subsidy_nonneg p h : 0 ≤ subsidy p h.
Proof.
  unfold subsidy, initialSubsidy. case_match; [done|].
  apply Z_div_nonneg_nonneg; [lia|]. apply Z.pow_nonneg. lia.
Qed.

(** One period: all its blocks earn the same, half (rounded down) of the last. *)
Lemma subsidy_period p k h : schedule_fits p → 0 ≤ k →
  k * SubsidyReductionInterval p ≤ h < (k + 1) * SubsidyReductionInterval p →
  subsidy p h = subsidy p (k * SubsidyReductionInterval p).
Proof.
  intros [H1 H2] Hk Hh. unfold subsidy.
  assert (h / SubsidyReductionInterval p = k) as -> by (symmetry; apply (Z.div_unique h _ k (h - k * SubsidyReductionInterval p)); lia).
  by rewrite Z.div_mul by lia.
Qed.

Lemma subsidy_halves p k : schedule_fits p → 0 ≤ k →
  2 * subsidy p ((k + 1) * SubsidyReductionInterval p) ≤ subsidy p (k * SubsidyReductionInterval p).
Proof.
  intros [H1 H2] Hk. unfold subsidy. rewrite !Z.div_mul by lia.
  pose proof (Z.pow_pos_nonneg 2 k ltac:(lia) Hk).
  destruct (Z.geb_spec (k + 1) 64), (Z.geb_spec k 64); try lia.
  - pose proof (Z_div_nonneg_nonneg initialSubsidy (2 ^ k)). unfold initialSubsidy in *. lia.
  - rewrite Z.pow_add_r, Z.pow_1_r, <- Z.div_div by lia.
    apply Z.mul_div_le. lia.
Qed.

Lemma subsidy_first_zero p k : schedule_fits p → 0 ≤ k →
  subsidy p (k * SubsidyReductionInterval p) = 0 ↔ 33 ≤ k.
Proof.
  intros [H1 H2] Hk. unfold subsidy. rewrite Z.div_mul by lia.
  destruct (Z.geb_spec k 64); [lia|].
  split.
  - intros Hz. apply Z.div_small_iff in Hz; [|apply Z.pow_nonzero; lia].
    destruct Hz as [[_ Hz]|Hz]; [|pose proof (Z.pow_pos_nonneg 2 k); lia].
    destruct (Z.le_gt_cases 33 k); [done|].
    pose proof (Z.pow_le_mono_r 2 k 32 ltac:(lia) ltac:(lia)).
    unfold initialSubsidy in *. lia.
  - intros. apply Z.div_small. split; [by unfold initialSubsidy|].
    pose proof (Z.pow_le_mono_r 2 33 k ltac:(lia) ltac:(lia)). unfold initialSubsidy. lia.
Qed.

Lemma subsidy_beyond p k h : schedule_fits p → 33 ≤ k →
  k * SubsidyReductionInterval p ≤ h → subsidy p h = 0.
Proof.
  intros Hs Hk Hh. pose proof Hs as [H1 H2].
  rewrite (subsidy_period p (h / SubsidyReductionInterval p)); [|done|apply Z.div_pos; nia|].
  - apply subsidy_first_zero; [done|apply Z.div_pos; nia|].
    apply Z.le_trans with k; [done|]. apply Z.div_le_lower_bound; lia.
  - pose proof (Z.div_mod h (SubsidyReductionInterval p)).
    pose proof (Z.mod_pos_bound h (SubsidyReductionInterval p)). nia.
Qed.

Lemma created_split p a n m : 0 ≤ n → 0 ≤ m →
  created p a (n + m) = created p a n + created p (a + n) m.
Proof. intros. unfold created. by rewrite seqZ_app, fmap_app, sum_Z_app by done. Qed.

Lemma created_const p a n c : 0 ≤ n → (∀ h, a ≤ h < a + n → subsidy p h = c) →
  created p a n = n * c.
Proof.
  intros Hn Hc. unfold created. rewrite (sum_Z_const c).
  - rewrite length_fmap, length_seqZ. by rewrite Z2Nat.id.
  - apply Forall_fmap, Forall_seqZ. intros h Hh. apply Hc. lia.
Qed.

Lemma created_nonneg p a n : 0 ≤ created p a n.
Proof.
  apply sum_Z_nonneg, Forall_fmap, Forall_true. intros h. apply subsidy_nonneg.
Qed.

(** After [k] full periods, what is still to come is at most twice the next
    period's reward. *)
Lemma created_periods p k : schedule_fits p → 0 ≤ k →
  created p 0 (k * SubsidyReductionInterval p) +
    2 * subsidy p (k * SubsidyReductionInterval p) * SubsidyReductionInterval p
  ≤ 2 * initialSubsidy * SubsidyReductionInterval p.
Proof.
  intros Hs Hk. pose proof Hs as [H1 H2]. revert k Hk. apply natlike_ind.
  - unfold subsidy. rewrite Z.mul_0_l, Z.div_0_l by lia. vm_compute (created _ _ _).
    replace (initialSubsidy / 2 ^ 0) with initialSubsidy by done. simpl. lia.
  - intros k Hk IH. rewrite Z.mul_succ_l, created_split by lia.
    rewrite (created_const _ (0 + k * SubsidyReductionInterval p) _ (subsidy p (k * SubsidyReductionInterval p)));
      [|lia|intros h Hh; apply subsidy_period; [done|done|rewrite Z.mul_add_distr_r; lia]].
    pose proof (subsidy_halves p k Hs Hk). rewrite Z.mul_add_distr_r, Z.mul_1_l in H. nia.
Qed.

(** Nothing is created past the 33rd period, so the bound holds at any height. *)
Lemma created_bound p n : schedule_fits p → 0 ≤ n →
  created p 0 n ≤ 2 * initialSubsidy * SubsidyReductionInterval p.
Proof.
  intros Hs Hn. pose proof Hs as [H1 H2].
  set (k := n / SubsidyReductionInterval p + 1).
  assert (Hk : 0 ≤ k) by (subst k; pose proof (Z.div_pos n (SubsidyReductionInterval p)); lia).
  assert (Hnk : n ≤ k * SubsidyReductionInterval p).
  { subst k. pose proof (Z.div_mod n (SubsidyReductionInterval p)).
    pose proof (Z.mod_pos_bound n (SubsidyReductionInterval p)). nia. }
  pose proof (created_periods p k Hs Hk) as Hb.
  replace (k * SubsidyReductionInterval p) with (n + (k * SubsidyReductionInterval p - n)) in Hb at 1 by lia.
  rewrite created_split in Hb by lia.
  pose proof (created_nonneg p (0 + n) (k * SubsidyReductionInterval p - n)).
  pose proof (subsidy_nonneg p (k * SubsidyReductionInterval p)). nia.
Qed.

Lemma supply_loop_past fuel p height h k total : (0 < fuel)%nat → height < h →
  supply_loop fuel p height h k total = Some total.
Proof.
  intros Hf Hh. destruct fuel; [lia|]. cbn [supply_loop].
  by rewrite (proj2 (Z.leb_gt _ _)) by lia.
Qed.

(** A period's contribution fits in 64 bits and is added exactly. *)
Lemma supply_step p k m : schedule_fits p → 0 ≤ k → 0 ≤ m ≤ SubsidyReductionInterval p →
  u64 (created p 0 (k * SubsidyReductionInterval p) +
       u64 (m * subsidy p (k * SubsidyReductionInterval p)))
  = created p 0 (k * SubsidyReductionInterval p + m).
Proof.
  intros Hs Hk Hm. pose proof Hs as [H1 H2].
  pose proof (created_bound p (k * SubsidyReductionInterval p + m) Hs ltac:(nia)) as Hb.
  rewrite created_split in Hb |- * by nia.
  rewrite (created_const p (0 + k * SubsidyReductionInterval p) m
             (subsidy p (k * SubsidyReductionInterval p))) in Hb |- *
    by (try (intros; apply subsidy_period; [done|done|rewrite Z.mul_add_distr_r]); lia).
  pose proof (created_nonneg p 0 (k * SubsidyReductionInterval p)).
  pose proof (subsidy_nonneg p (k * SubsidyReductionInterval p)).
  assert (0 ≤ m * subsidy p (k * SubsidyReductionInterval p)) by nia.
  unfold initialSubsidy in Hb.
  rewrite (u64_small (m * _)), u64_small by lia. done.
Qed.

Lemma supply_loop_created fuel p height k : schedule_fits p → is_u32 height →
  0 ≤ k ≤ 33 → (35 - k ≤ Z.of_nat fuel) → k * SubsidyReductionInterval p ≤ height + 1 →
  supply_loop fuel p height (k * SubsidyReductionInterval p) k
    (created p 0 (k * SubsidyReductionInterval p)) = Some (created p 0 (height + 1)).
Proof.
  intros Hs Hh. pose proof Hs as [H1 H2]. set (I := SubsidyReductionInterval p) in *.
  revert k. induction fuel as [|fuel IH]; intros k Hk Hf Hle; [lia|].
  destruct (Z.eq_dec (k * I) (height + 1)) as [->|Hne]; [apply supply_loop_past; lia|].
  cbn [supply_loop]. rewrite (proj2 (Z.leb_le _ _)) by lia. cbn [negb].
  rewrite (GetBlockSubsidyForHeight_eq p (k * I)) by (done || nia).
  destruct (Z.eqb_spec (subsidy p (k * I)) 0) as [Hz|Hz].
  { apply subsidy_first_zero in Hz; [|done|lia]. f_equal.
    replace (height + 1) with (k * I + (height + 1 - k * I)) by lia.
    rewrite created_split by nia. rewrite (created_const _ (0 + k * I) _ 0); [lia|lia|].
    intros h Hh'. apply (subsidy_beyond p k); [done..|lia]. }
  assert (Hk' : k < 33) by (destruct (Z.lt_ge_cases k 33); [done|];
    exfalso; apply Hz, subsidy_first_zero; [done|lia|done]).
  fold I. rewrite !(u32_small (k + 1)) by lia.
  rewrite (u32_small ((k + 1) * I)), (u32_small ((k + 1) * I - 1)) by nia.
  replace (k + 1 >=? 64) with false by lia.
  destruct (Z.gtb_spec ((k + 1) * I - 1) height) as [Hend|Hend].
  - rewrite (u32_small (height - k * I)), (u32_small (height - k * I + 1)) by lia.
    pose proof (supply_step p k (height - k * I + 1) Hs ltac:(lia) ltac:(fold I; lia)) as E.
    fold I in E. rewrite E, (u32_small (height + 1)) by nia.
    rewrite supply_loop_past by lia. f_equal. f_equal. lia.
  - replace ((k + 1) * I - 1 - k * I) with (I - 1) by lia.
    rewrite (u32_small (I - 1)) by lia. replace (I - 1 + 1) with I by lia.
    pose proof (supply_step p k I Hs ltac:(lia) ltac:(fold I; lia)) as E. fold I in E.
    rewrite (u32_small I), E by lia.
    replace ((k + 1) * I - 1 + 1) with ((k + 1) * I) by lia. rewrite u32_small by nia.
    replace (k * I + I) with ((k + 1) * I) by lia. apply IH; lia.
Qed.

(** The expected supply is exactly the sum of the subsidies of all blocks up
    to the height, with no 32- or 64-bit overflow and within the loop's 64
    iterations, and it never passes twice the first period's rewards (21
    million coins for a 210,000-block interval). *)
Theorem CalculateExpectedSupplyAtHeight_spec (p : ChainParams) (height : Z) :
  schedule_fits p → is_u32 height →
  CalculateExpectedSupplyAtHeight height (Some p) =
    Some (sum_Z ((λ h, GetBlockSubsidyForHeight h (Some p)) <$> seqZ 0 (height + 1))) ∧
  sum_Z ((λ h, GetBlockSubsidyForHeight h (Some p)) <$> seqZ 0 (height + 1))
    ≤ 2 * initialSubsidy * SubsidyReductionInterval p.
Proof.
  intros Hs Hh. pose proof Hs as [H1 H2].
  assert ((λ h, GetBlockSubsidyForHeight h (Some p)) <$> seqZ 0 (height + 1)
          = subsidy p <$> seqZ 0 (height + 1)) as ->.
  { apply list_fmap_ext. intros i h Hi. apply lookup_seqZ in Hi.
    apply GetBlockSubsidyForHeight_eq; [done|lia]. }
  split; [|apply created_bound; [done|lia]].
  unfold CalculateExpectedSupplyAtHeight. rewrite (proj2 (Z.eqb_neq _ _)) by lia.
  apply (supply_loop_created 64 p height 0); [done|done|lia..].
Qed.

(** ** The reward check *)

(** [a + b] wrapped below [a] exactly when it left 64 bits. *)
Lemma u64_wraps a b : is_u64 a → is_u64 b → (u64 (a + b) <? a) = (2^64 <=? a + b).
Proof.
  intros Ha Hb. unfold u64. destruct (Z.leb_spec (2^64) (a + b)).
  - apply Z.ltb_lt. rewrite <- (Z_mod_plus_full (a + b) (-1) (2^64)), Z.mod_small; lia.
  - rewrite Z.mod_small by lia. apply Z.ltb_ge. lia.
Qed.

(** Both accumulations, on values that fit in 64 bits. *)
Lemma sum_fees_eq e acc (fs : list Z) : is_u64 acc → Forall (λ f, is_u64 f) fs →
  sum_fees e acc (Some <$> fs) =
  if acc + sum_Z fs <? 2^64 then Ok (acc + sum_Z fs) else Err e.
Proof.
  intros Hacc Hfs. revert acc Hacc. induction Hfs as [|f fs Hf Hfs IH]; intros acc Hacc; simpl.
  - rewrite (proj2 (Z.ltb_lt _ _)) by lia. f_equal. lia.
  - assert (0 ≤ sum_Z fs)
      by (apply sum_Z_nonneg; eapply Forall_impl; [exact Hfs|simpl; lia]).
    rewrite u64_wraps by done. destruct (Z.leb_spec (2^64) (acc + f)).
    + by rewrite (proj2 (Z.ltb_ge _ _)) by lia.
    + rewrite u64_small by lia. rewrite IH by lia. by rewrite Z.add_assoc.
Qed.

Lemma sum_outputs_eq e acc (outs : list TxOutput) :
  sum_outputs e acc (Some <$> outs) = sum_fees e acc (Some <$> (Satoshis <$> outs)).
Proof.
  revert acc. induction outs as [|o outs IH]; intros acc; [done|].
  simpl. by case_match.
Qed.

(** The four conditions under which the arithmetic is skipped, or genesis. *)
Definition reward_check_skipped (b : Block) (p : ChainParams)
    (storeSupports confirmedAncestor bound : bool) : bool :=
  (Height b =? 0) ||
  (bound && storeSupports && confirmedAncestor &&
   (Height b <=? HighestCheckpointHeight (Checkpoints p))).

Lemma subsidy_u64 p h : schedule_fits p → 0 ≤ h → is_u64 (subsidy p h).
Proof.
  intros Hs Hh. pose proof Hs as [H1 H2]. split; [apply subsidy_nonneg|].
  unfold subsidy. case_match; [lia|].
  assert (0 < 2 ^ (h / SubsidyReductionInterval p))
    by (apply Z.pow_pos_nonneg; [lia|by apply Z.div_pos]).
  apply Z.div_lt_upper_bound; [done|]. unfold initialSubsidy. nia.
Qed.

(** C4: no inflation.  Over the unbounded integers, a block is accepted exactly
    when its coinbase outputs, its fees and fees plus subsidy all fit in 64
    bits and the coinbase pays out at most fees plus subsidy; otherwise it is
    invalid when its body is bound to its header and corrupt when it is not.
    The check is skipped only for genesis and for a bound body of a confirmed
    ancestor of the checkpoint on a store with outpoint-only spends. *)
Theorem checkBlockRewardAndFees_spec (b : Block) (p : ChainParams)
    (storeSupports confirmedAncestor bound : bool)
    (cb : Tx) (outs : list TxOutput) (fees : list Z) :
  schedule_fits p → is_u32 (Height b) → CoinbaseTx b = Some cb →
  Outputs cb = Some <$> outs → Forall (λ o, is_u64 (Satoshis o)) outs →
  SubtreeFees b = Some <$> fees → Forall (λ f, is_u64 f) fees →
  let paid := sum_Z (Satoshis <$> outs) in
  let allowed := sum_Z fees + GetBlockSubsidyForHeight (Height b) (Some p) in
  checkBlockRewardAndFees b p storeSupports confirmedAncestor bound =
    if reward_check_skipped b p storeSupports confirmedAncestor bound then Ok ()
    else if bool_decide (paid < 2^64 ∧ allowed < 2^64 ∧ paid ≤ allowed) then Ok ()
    else Err (err (if bound then ERR_BLOCK_INVALID else ERR_BLOCK_CORRUPT)).
Proof.
  intros Hs Hh Hcb Houts Hos Hfees Hfs paid allowed.
  assert (Hsub : is_u64 (GetBlockSubsidyForHeight (Height b) (Some p)))
    by (rewrite GetBlockSubsidyForHeight_eq by done; apply subsidy_u64; [done|lia]).
  assert (0 ≤ sum_Z fees) by (apply sum_Z_nonneg; eapply Forall_impl; [exact Hfs|simpl; lia]).
  unfold checkBlockRewardAndFees, reward_check_skipped.
  destruct (Height b =? 0); [done|]. cbn [orb].
  destruct (_ && _ && _ && _); [done|].
  assert (Hes : Err (A := unit) (bindClassifiedError bound)
    = Err (err (if bound then ERR_BLOCK_INVALID else ERR_BLOCK_CORRUPT))) by by destruct bound.
  rewrite Hcb, Houts, Hfees, sum_outputs_eq, !sum_fees_eq; [|done|done|done|by apply Forall_fmap].
  fold paid. rewrite !Z.add_0_l.
  destruct (Z.ltb_spec paid (2^64)); cbn [bindR];
    [|rewrite bool_decide_false by lia; exact Hes].
  destruct (Z.ltb_spec (sum_Z fees) (2^64)); cbn [bindR];
    [|rewrite bool_decide_false by lia; exact Hes].
  rewrite u64_wraps by (done || lia). fold allowed. destruct (Z.leb_spec (2^64) allowed);
    [rewrite bool_decide_false by lia; exact Hes|].
  rewrite u64_small by lia. destruct (Z.gtb_spec paid allowed).
  - by rewrite bool_decide_false by lia.
  - by rewrite bool_decide_true by lia.
Qed.

(** ** Checkpoints and fees *)
Lemma highest_step (cps : list (Z * option Hash)) (acc : Z) (hash : option Hash) :
  Forall (λ cp, fst cp < 2^31) cps → 0 ≤ acc →
  let highest := foldl (λ highest cp, if fst cp <? 0 then highest
                   else let h := u32 (fst cp) in if h >? highest then h else highest) acc cps in
  let pinned := foldl (λ '(highest, hash) cp, if fst cp <? 0 then (highest, hash)
                   else let h := u32 (fst cp) in
                        if h >=? highest then (h, snd cp) else (highest, hash))
                  (acc, hash) cps in
  acc ≤ highest ∧ Forall (λ cp, fst cp ≤ highest) cps ∧ fst pinned = highest ∧
  (pinned = (acc, hash) ∨ pinned ∈ cps).
Proof.
  intros Hc. revert acc hash. induction Hc as [|[h o] cps Hh Hc IH]; intros acc hash Ha;
    cbn [foldl fst snd] in *;
    [split_and!; [lia|constructor|done|by left]|].
  destruct (Z.ltb_spec h 0).
  - destruct (IH acc hash Ha) as (?&?&?&?). split_and!; [done|constructor; simpl; [lia|done]|done|].
    rewrite elem_of_cons. naive_solver.
  - rewrite !u32_small by lia. destruct (Z.gtb_spec h acc), (Z.geb_spec h acc); try lia.
    + destruct (IH h o ltac:(lia)) as (?&?&?&?).
      split_and!; [lia|constructor; simpl; [lia|done]|done|]. rewrite elem_of_cons. naive_solver.
    + assert (h = acc) as -> by lia. destruct (IH acc o Ha) as (?&?&?&?).
      split_and!; [lia|constructor; simpl; [lia|done]|done|]. rewrite elem_of_cons. naive_solver.
    + destruct (IH acc hash Ha) as (?&?&?&?).
      split_and!; [lia|constructor; simpl; [lia|done]|done|]. rewrite elem_of_cons. naive_solver.
Qed.

(** The boundary and the pinned hash are those of one checkpoint, the highest. *)
Lemma HighestCheckpoint_spec (cps : list (Z * option Hash)) :
  Forall (λ cp, fst cp < 2^31) cps →
  Forall (λ cp, fst cp ≤ HighestCheckpointHeight cps) cps ∧
  ((HighestCheckpointHeight cps = 0 ∧ HighestCheckpointHash cps = None) ∨
   (HighestCheckpointHeight cps, HighestCheckpointHash cps) ∈ cps).
Proof.
  intros Hc. destruct (highest_step cps 0 None Hc ltac:(lia)) as (_ & Hall & Hf & Hin).
  split; [done|]. set (pinned := foldl _ (0, None) cps) in Hf, Hin.
  change (HighestCheckpointHash cps) with (snd pinned).
  change (fst pinned = HighestCheckpointHeight cps) in Hf. rewrite <- Hf.
  destruct Hin as [->|Hin]; [by left|]. right. by destruct pinned.
Qed.

Lemma output_fees_eq acc (outs : list TxOutput) :
  0 ≤ acc → Forall (λ o, is_u64 (Satoshis o)) outs →
  acc + sum_Z (Satoshis <$> outs) < 2^64 →
  output_fees acc (Some <$> outs) = Ok (acc + sum_Z (Satoshis <$> outs)).
Proof.
  intros Ha Ho. revert acc Ha. induction Ho as [|o outs Hs Ho IH]; intros acc Ha Hb.
  { simpl. f_equal. lia. }
  rewrite !fmap_cons, sum_Z_cons in *. cbn [output_fees].
  assert (0 ≤ sum_Z (Satoshis <$> outs))
    by (by apply sum_Z_u64_nonneg).
  destruct (Z.gtb_spec (Satoshis o) 0).
  - rewrite u64_small, IH by lia. f_equal. lia.
  - rewrite IH by lia. f_equal. lia.
Qed.

Lemma input_fees_eq acc (ins : list TxInput) :
  0 ≤ acc → Forall (λ i, is_u64 (PreviousTxSatoshis i)) ins →
  acc + sum_Z (PreviousTxSatoshis <$> ins) < 2^64 →
  input_fees acc ins = acc + sum_Z (PreviousTxSatoshis <$> ins).
Proof.
  intros Ha Ho. revert acc Ha. induction Ho as [|o ins Hs Ho IH]; intros acc Ha Hb; [simpl; lia|].
  rewrite fmap_cons, sum_Z_cons in *. cbn [input_fees].
  assert (0 ≤ sum_Z (PreviousTxSatoshis <$> ins))
    by (by apply sum_Z_u64_nonneg).
  rewrite u64_small, IH by lia. lia.
Qed.

(** The fee of a transaction is what its inputs bring less what its outputs
    take, or, for a coinbase, the sum of its outputs; a transaction that takes
    more than it brings is refused, and one without inputs has no fee. *)
Theorem GetFees_spec `{BtTx} (tx : Tx) (outs : list TxOutput) :
  Outputs tx = Some <$> outs →
  Forall (λ o, is_u64 (Satoshis o)) outs → Forall (λ i, is_u64 (PreviousTxSatoshis i)) (Inputs tx) →
  let takes := sum_Z (Satoshis <$> outs) in
  let brings := sum_Z (PreviousTxSatoshis <$> Inputs tx) in
  takes < 2^64 → brings < 2^64 →
  GetFees tx =
    if IsCoinbase tx then Ok takes
    else if bool_decide (Inputs tx = []) then Ok 0
    else if takes <=? brings then Ok (brings - takes) else Err (err ERR_PROCESSING).
Proof.
  intros Ho Hos His takes brings Ht Hb. unfold GetFees. rewrite Ho.
  rewrite output_fees_eq by done. rewrite Z.add_0_l. fold takes.
  destruct (IsCoinbase tx); [done|].
  destruct (decide (Inputs tx = [])) as [Hn|Hn].
  { rewrite Hn, (bool_decide_true ([] = [])) by done. by rewrite bool_decide_true. }
  rewrite (bool_decide_false (Inputs tx = [])) by done.
  rewrite bool_decide_false by (by destruct (Inputs tx)).
  rewrite input_fees_eq by done. rewrite Z.add_0_l. fold brings.
  cbn [bindR].
  assert (0 ≤ takes) by (by apply sum_Z_u64_nonneg).
  destruct (Z.ltb_spec brings takes), (Z.leb_spec takes brings); simpl; try lia; try done.
  by rewrite u64_small by lia.
Qed.

(** ** Concrete inputs *)
Lemma CalculateExpectedSupplyAtHeight_spec_witness :
  CalculateExpectedSupplyAtHeight 400 (Some ex_params) = Some 1251250000000 ∧
  schedule_fits ex_params.
Proof.
  assert (Hs : schedule_fits ex_params) by (split; simpl; lia). split; [|exact Hs].
  destruct (CalculateExpectedSupplyAtHeight_spec ex_params 400 Hs ltac:(lia)) as [-> _].
  vm_compute. reflexivity.
Defined.

Definition ex_coinbase (satoshis : Z) : Tx :=
  mkTx 1 [mkInput zero_hash 0xFFFFFFFF 0 None (Some [Byte.x01; Byte.x02]) 0xFFFFFFFF]
    [Some (mkOutput satoshis None)] 0.

Definition ex_block (satoshis : Z) : Block :=
  mkBlock 7 zero_hash (Some (ex_coinbase satoshis)) 2 [Some 30; Some 12] 9.

Lemma checkBlockRewardAndFees_spec_witness :
  checkBlockRewardAndFees (ex_block 5000000042) ex_params true true true = Ok () ∧
  checkBlockRewardAndFees (ex_block 5000000043) ex_params true true true
    = Err (err ERR_BLOCK_INVALID).
Proof.
  split.
  - rewrite (checkBlockRewardAndFees_spec (ex_block 5000000042) ex_params true true true
      (ex_coinbase 5000000042) [mkOutput 5000000042 None] [30; 12]);
      [reflexivity|split; simpl; lia|simpl; lia|done|done|repeat constructor; simpl; lia|done
      |repeat constructor; simpl; lia].
  - rewrite (checkBlockRewardAndFees_spec (ex_block 5000000043) ex_params true true true
      (ex_coinbase 5000000043) [mkOutput 5000000043 None] [30; 12]);
      [reflexivity|split; simpl; lia|simpl; lia|done|done|repeat constructor; simpl; lia|done
      |repeat constructor; simpl; lia].
Defined.

Lemma GetFees_spec_witness :
  GetFees (H := model_BtTx)
    (mkTx 1 [mkInput (hash_of_Z 5) 0 700 None None 0] [Some (mkOutput 650 None)] 0) = Ok 50.
Proof.
  rewrite (GetFees_spec (H := model_BtTx) _ [mkOutput 650 None]);
    [reflexivity|done|repeat constructor; simpl; lia|repeat constructor; simpl; lia|simpl; lia|simpl; lia].
Defined.
