(* ===== verification/TxRules.v ===== *)
(** * Transaction rules

    util/lock_time.go (finality), model/block_coinbase_common_rules.go (the
    context-free rules and the pre-Genesis sigop count),
    services/validator/TxValidator.go (money range, view cache policy, BIP68)
    and services/validator/ScriptVerifierGoBDK.go (the adapter to the native
    engine and the classification of its errors). *)

From S2P Require Import Prelude External NBits BlockHeader.

(** ** Finality *)
Definition ValidLockTime (lockTime blockHeight blockTime : Z) : result unit :=
  if lockTime <? 500000000 then
    if blockHeight >? lockTime then Ok () else Err (err ERR_TX_LOCK_TIME)
  else if blockTime >? lockTime then Ok () else Err (err ERR_TX_LOCK_TIME).

Definition IsTransactionFinal (tx : Tx) (blockHeight blockTime : Z) : result unit :=
  if bool_decide (length (Inputs tx) = 0%nat) then Err (err ERR_TX_INVALID) else
  let allSequenceNumbersFinal :=
    foldl (λ final i, final && (SequenceNumber i =? DefaultSequenceNumber)) true (Inputs tx) in
  if allSequenceNumbersFinal then Ok () else
  if LockTime tx >? 0 then ValidLockTime (LockTime tx) blockHeight blockTime else Ok ().

(** ** The rules of every transaction *)
Definition maxMoneySatoshis : Z := 21000000 * 100000000.
Definition maxTxSizeConsensusBeforeGenesis : Z := 1000000.
Definition maxTxSizeConsensusAfterGenesis : Z := 1000000000.
Definition maxTxSigOpsCountBeforeGenesis : Z := 20000.
Definition maxPubKeysPerMultiSigBeforeGenesis : Z := 20.

(** The operand length, how many bytes it took, or [None] when they are missing. *)
Definition pushOperandLength (opcode : Z) (rest : list byte) : option (Z * nat) :=
  if opcode =? OpPUSHDATA1 then
    if bool_decide (length rest < 1)%nat then None
    else Some (le_decode (take 1 rest), 1%nat)
  else if opcode =? OpPUSHDATA2 then
    if bool_decide (length rest < 2)%nat then None
    else Some (le_decode (take 2 rest), 2%nat)
  else if opcode =? OpPUSHDATA4 then
    if bool_decide (length rest < 4)%nat then None
    else Some (le_decode (take 4 rest), 4%nat)
  else Some (opcode, 0%nat).

(** Every iteration consumes a byte, so the length of the script is fuel enough. *)
Fixpoint sigops_loop (fuel : nat) (n : Z) (script : list byte) : option Z :=
  match script with
  | [] => Some n
  | b :: script =>
      match fuel with
      | O => None
      | S fuel =>
          let opcode := byte_to_Z b in
          if opcode =? OpINVALIDOPCODE then Some n
          else if (opcode =? OpCHECKSIG) || (opcode =? OpCHECKSIGVERIFY)
          then sigops_loop fuel (u64 (n + 1)) script
          else if (opcode =? OpCHECKMULTISIG) || (opcode =? OpCHECKMULTISIGVERIFY)
          then sigops_loop fuel (u64 (n + maxPubKeysPerMultiSigBeforeGenesis)) script
          else if (opcode >? OpPUSHDATA4) || (opcode =? Op0)
          then sigops_loop fuel n script
          else
            match pushOperandLength opcode script with
            | None => Some n
            | Some (operandLen, prefixLen) =>
                if operandLen >? Z.of_nat (length script - prefixLen) then Some n
                else sigops_loop fuel n (drop (prefixLen + Z.to_nat operandLen) script)
            end
      end
  end.

Definition preGenesisSigOpCount (script : list byte) : option Z :=
  sigops_loop (length script) 0 script.

(** The reject reasons; [None] is the empty string. *)
Inductive TxReason :=
  | VinEmpty | VoutEmpty | Oversize | VoutNegative | VoutTooLarge | VoutTotalTooLarge
  | TooManySigOps.

Fixpoint output_range (totalOut : Z) (outs : list (option TxOutput)) : result (option TxReason) :=
  match outs with
  | [] => Ok None
  | None :: _ => Err panic
  | Some out :: outs =>
      if Satoshis out >? 2^63 - 1 then Ok (Some VoutNegative)
      else if Satoshis out >? maxMoneySatoshis then Ok (Some VoutTooLarge)
      else
        let totalOut := u64 (totalOut + Satoshis out) in
        if totalOut >? maxMoneySatoshis then Ok (Some VoutTotalTooLarge)
        else output_range totalOut outs
  end.

Definition script_sigops (script : option (list byte)) : Z :=
  match script with Some s => default 0 (preGenesisSigOpCount s) | None => 0 end.

Definition tx_sigops (tx : Tx) : Z :=
  foldl (λ n (o : option TxOutput), u64 (n + script_sigops (o ≫= LockingScript)))
    (foldl (λ n i, u64 (n + script_sigops (UnlockingScript i))) 0 (Inputs tx))
    (Outputs tx).

Definition TxCommonRuleViolation `{BtTx} (tx : Tx) (height : Z) (params : ChainParams)
  : result (option TxReason) :=
  if bool_decide (length (Inputs tx) = 0%nat) then Ok (Some VinEmpty) else
  if bool_decide (length (Outputs tx) = 0%nat) then Ok (Some VoutEmpty) else
  let genesisEnabled := height >=? GenesisActivationHeight params in
  let maxTxSize := if negb genesisEnabled then maxTxSizeConsensusBeforeGenesis
                   else maxTxSizeConsensusAfterGenesis in
  if TxSize tx >? maxTxSize then Ok (Some Oversize) else
  let? reason := output_range 0 (Outputs tx) in
  match reason with
  | Some r => Ok (Some r)
  | None =>
      if negb genesisEnabled && (tx_sigops tx >? maxTxSigOpsCountBeforeGenesis)
      then Ok (Some TooManySigOps) else Ok None
  end.

(** The loop of [CheckTransactionContextFree] over the outpoints. *)
Fixpoint outpoints_distinct (seen : gset (Hash * Z)) (ins : list TxInput) : result unit :=
  match ins with
  | [] => Ok ()
  | input :: ins =>
      let op := (PreviousTxID input, PreviousTxOutIndex input) in
      if (snd op =? 0xffffffff) && bool_decide (fst op = zero_hash)
      then Err (err ERR_TX_INVALID)
      else if bool_decide (op ∈ seen) then Err (err ERR_TX_INVALID)
      else outpoints_distinct ({[op]} ∪ seen) ins
  end.

(** [tSettings]: nil settings or nil chain params, or the params and the
    [MaxTxSizePolicy] of a non-nil policy. *)
Definition CheckTransactionContextFree {BT : BtTx} (tx : Tx)
    (tSettings : option (ChainParams * option Z)) (blockHeight : Z) : result unit :=
  match tSettings with
  | None => Err (err ERR_PROCESSING)
  | Some (params, policy) =>
      if IsCoinbase tx then Err (err ERR_TX_INVALID) else
      let? reason := TxCommonRuleViolation tx blockHeight params in
      match reason with
      | Some _ => Err (err ERR_TX_INVALID)
      | None =>
          let? _ := outpoints_distinct ∅ (Inputs tx) in
          match policy with
          | Some MaxTxSizePolicy =>
              if (MaxTxSizePolicy >? 0) && (TxSize tx >? MaxTxSizePolicy)
              then Err (err ERR_TX_POLICY) else Ok ()
          | None => Ok ()
          end
      end
  end.

(** ** BIP68 and the money range: [TxValidator] *)
Definition SequenceLockTimeDisableFlag : Z := Z.shiftl 1 31.
Definition SequenceLockTimeTypeFlag : Z := Z.shiftl 1 22.
Definition SequenceLockTimeMask : Z := 0x0000ffff.
Definition SequenceLockTimeGranularity : Z := 9.

(** Validator.MaxSatoshis *)
Definition MaxSatoshis : Z := 2100000000000000.

(** The sentinel height of a parent that is not mined yet. *)
Definition unconfirmedParentHeight : Z := 0xFFFFFFFF.

(** [type Options struct], the fields the modelled code reads. *)
Record Options := mkOptions {
  SkipPolicyChecks : bool;
  SkipScriptValidation : bool;
  OutpointOnlySpend : bool;
  UnconfirmedParentsAtCandidateHeight : bool;
  CandidateBlockTime : Z;
  CandidateParentMedianTime : Z;
}.

Definition NewDefaultOptions : Options := mkOptions false false false false 0 0.

(** The fields of [TxValidator] its methods read: the chain parameters and the
    [maxcoinsviewcachesize] policy. *)
Record TxValidator := mkTxValidator {
  tv_params : ChainParams;
  MaxCoinsViewCacheSize : Z;
}.

Fixpoint check_inputs (skipPolicy : bool) (maxCoinsViewCacheSize accumulated : Z)
    (ins : list TxInput) : result unit :=
  match ins with
  | [] => Ok ()
  | input :: ins =>
      if negb skipPolicy && (maxCoinsViewCacheSize >? 0) then
        match PreviousTxScript input with
        | None => Err (err ERR_TX_POLICY)
        | Some script =>
            let accumulated := u64 (accumulated + Z.of_nat (length script)) in
            if accumulated >? maxCoinsViewCacheSize then Err (err ERR_TX_POLICY)
            else check_inputs skipPolicy maxCoinsViewCacheSize accumulated ins
        end
      else check_inputs skipPolicy maxCoinsViewCacheSize accumulated ins
  end.

Definition checkInputs (tv : TxValidator) (tx : Tx) (opts : Options) : result unit :=
  check_inputs (SkipPolicyChecks opts) (MaxCoinsViewCacheSize tv) 0 (Inputs tx).

Fixpoint check_output_values (totalOut : Z) (outs : list (option TxOutput)) : result Z :=
  match outs with
  | [] => Ok totalOut
  | None :: _ => Err panic
  | Some out :: outs =>
      if Satoshis out >? 2^63 - 1 then Err (err ERR_TX_INVALID)
      else if Satoshis out >? MaxSatoshis then Err (err ERR_TX_INVALID)
      else
        let totalOut := u64 (totalOut + Satoshis out) in
        if totalOut >? MaxSatoshis then Err (err ERR_TX_INVALID)
        else check_output_values totalOut outs
  end.

Definition checkOutputValues (tx : Tx) : result Z := check_output_values 0 (Outputs tx).

Fixpoint check_input_values (totalIn : Z) (ins : list TxInput) : result Z :=
  match ins with
  | [] => Ok totalIn
  | i :: ins =>
      if PreviousTxSatoshis i >? MaxSatoshis then Err (err ERR_TX_INVALID)
      else
        let totalIn := u64 (totalIn + PreviousTxSatoshis i) in
        if totalIn >? MaxSatoshis then Err (err ERR_TX_INVALID)
        else check_input_values totalIn ins
  end.

Definition checkInputValuesAndInflation (tx : Tx) (totalOut : Z) : result unit :=
  let? totalIn := check_input_values 0 (Inputs tx) in
  if totalIn <? totalOut then Err (err ERR_TX_INVALID) else Ok ().

(** The loop of [sequenceLocks]: the last invalid height and time. *)
Fixpoint sequence_scan (i : nat) (ins : list TxInput) (utxoHeights utxoMTPs : list Z)
    (minHeight minTime : Z) : result (Z * Z) :=
  match ins with
  | [] => Ok (minHeight, minTime)
  | input :: ins =>
      if negb (Z.land (SequenceNumber input) SequenceLockTimeDisableFlag =? 0)
      then sequence_scan (S i) ins utxoHeights utxoMTPs minHeight minTime
      else
        let sequenceMasked := Z.land (SequenceNumber input) SequenceLockTimeMask in
        if negb (Z.land (SequenceNumber input) SequenceLockTimeTypeFlag =? 0) then
          match utxoMTPs !! i with
          | None => Err (err ERR_TX_INVALID)
          | Some utxoMTP =>
              let nTxTime := i64 (i64 (utxoMTP +
                i64 (Z.shiftl sequenceMasked SequenceLockTimeGranularity)) - 1) in
              sequence_scan (S i) ins utxoHeights utxoMTPs minHeight
                (if nTxTime >? minTime then nTxTime else minTime)
          end
        else
          match utxoHeights !! i with
          | None => Err (err ERR_TX_INVALID)
          | Some utxoHeight =>
              let nTxHeight := i64 (i64 (utxoHeight + sequenceMasked) - 1) in
              sequence_scan (S i) ins utxoHeights utxoMTPs
                (if nTxHeight >? minHeight then nTxHeight else minHeight) minTime
          end
  end.

Definition sequenceLocks (tv : TxValidator) (tx : Tx) (blockHeight : Z)
    (utxoHeights utxoMTPs : list Z) (blockMTP : Z) : result unit :=
  if blockHeight <? CSVHeight (tv_params tv) then Ok () else
  if blockHeight >=? GenesisActivationHeight (tv_params tv) then Ok () else
  if TxVersion tx <? 2 then Ok () else
  let? (minHeight, minTime) := sequence_scan 0 (Inputs tx) utxoHeights utxoMTPs (-1) (-1) in
  if blockHeight >? 2^31 - 1 then Err (err ERR_TX_INVALID) else
  if minHeight >=? blockHeight then Err (err ERR_TX_INVALID) else
  if minTime >=? blockMTP then Err (err ERR_TX_INVALID) else Ok ().

Definition ValidateBIP68 := sequenceLocks.

(** ** The adapter to the native engine *)
Definition mempoolHeight : Z := 0x7FFFFFFF.

Definition substituteUnconfirmedHeights (utxoHeights : list Z) (blockHeight : Z)
    (consensus : bool) : list Z :=
  let hasSentinel := existsb (λ h, h =? unconfirmedParentHeight) utxoHeights in
  if negb hasSentinel then utxoHeights
  else
    let substitute := if consensus then mempoolHeight else blockHeight in
    map (λ h, if h =? unconfirmedParentHeight then substitute else h) utxoHeights.

Definition resolveUnconfirmedParentsAtCandidateHeight (utxoHeights : list Z) (blockHeight : Z)
  : list Z := substituteUnconfirmedHeights utxoHeights blockHeight false.

Section Adapter.
  Context {SC : SafeConversion} {BT : BtTx} {BDK : BdkEngine}.

Fixpoint uint2int (arr : list Z) : result (list Z) :=
  match arr with
  | [] => Ok []
  | val :: arr =>
      let? valInt32 := foreignR (Uint32ToInt32 val) in
      let? ret := uint2int arr in
      Ok (valInt32 :: ret)
  end.

Definition bdkBlockHeight (blockHeight : Z) (consensus : bool) : result Z :=
  if consensus then foreignR (Uint32ToInt32 blockHeight)
  else if blockHeight =? 0 then Err (err ERR_INVALID_ARGUMENT)
  else foreignR (Uint32ToInt32 (u32 (blockHeight - 1))).

(** The engine's text as a link with the verdict's code; absent when empty. *)
Definition bdkCause (code : ERR) (e : BdkError) : option error :=
  if has_text e then Some (err code) else None.

Definition bdkPolicyRelatedScriptError (errCode : Z) : bool :=
  (errCode =? SCRIPT_ERR_OP_COUNT) || (errCode =? SCRIPT_ERR_SCRIPTNUM_MINENCODE) ||
  (errCode =? SCRIPT_ERR_SCRIPT_SIZE) || (errCode =? SCRIPT_ERR_PUBKEY_COUNT) ||
  (errCode =? SCRIPT_ERR_STACK_SIZE).

(** A foreign error keeps its text only: a link of code 0. *)
Definition node_fault : error := err_wrap ERR_PROCESSING (err ERR_UNKNOWN).
Definition policy_verdict (e : BdkError) : error :=
  err_wrap ERR_TX_INVALID (Error ERR_TX_POLICY (bdkCause ERR_TX_POLICY e)).
Definition invalid_verdict (e : BdkError) : error :=
  Error ERR_TX_INVALID (bdkCause ERR_TX_INVALID e).

Definition mapBDKValidationError (e : BdkError) (consensus : bool) : error :=
  if as_abi e then node_fault else
  match as_dos e with
  | Some code =>
      if (code =? DOS_ERR_NOT_STANDARD) || (code =? DOS_ERR_SIGOPS_POLICY) ||
         (code =? DOS_ERR_NOT_FREE_CONSOLIDATION) then policy_verdict e
      else if code =? DOS_ERR_INSUFFICIENT_FEE then policy_verdict e
      else if (code <=? DOS_ERR_OK) || (code >=? DOS_ERR_COUNT) then node_fault
      else invalid_verdict e
  | None =>
      match as_script e with
      | Some errCode =>
          if errCode =? SCRIPT_ERR_CGO_EXCEPTION then node_fault
          else if (negb consensus && bdkPolicyRelatedScriptError errCode) ||
                  (consensus && (errCode =? SCRIPT_ERR_STACK_SIZE)) then policy_verdict e
          else invalid_verdict e
      | None => node_fault
      end
  end.

(** [scriptVerifierGoBDK.ValidateTransaction] *)
Definition bdk_ValidateTransaction (tx : Tx) (blockHeight : Z) (consensus : bool)
    (utxoHeights : list Z) : result unit :=
  if IsCoinbase tx then Err (err ERR_TX_INVALID) else
  let utxoHeights := substituteUnconfirmedHeights utxoHeights blockHeight consensus in
  let? intUtxoHeights := wrapR ERR_INVALID_ARGUMENT (uint2int utxoHeights) in
  let? intBlockHeight := wrapR ERR_INVALID_ARGUMENT (bdkBlockHeight blockHeight consensus) in
  match NativeValidate (ExtendedBytes tx) intUtxoHeights intBlockHeight consensus with
  | Some errVerify => Err (mapBDKValidationError errVerify consensus)
  | None => Ok ()
  end.

(** [TxValidator.ValidateTransaction] *)
Definition sentinelGuard (opts : Options) (utxoHeights : list Z) : result unit :=
  if SkipPolicyChecks opts then
    if existsb (λ h, h =? unconfirmedParentHeight) utxoHeights
    then Err (err ERR_TX_INVALID) else Ok ()
  else Ok ().

Definition inflationGuard (opts : Options) (tx : Tx) (totalOut : Z) : result unit :=
  if OutpointOnlySpend opts then Ok () else checkInputValuesAndInflation tx totalOut.

Definition ValidateTransaction (tv : TxValidator) (tx : Tx) (blockHeight : Z)
    (utxoHeights : list Z) (validationOptions : option Options) : result unit :=
  let opts := default NewDefaultOptions validationOptions in
  if IsCoinbase tx then Err (err ERR_TX_INVALID) else
  let? _ := checkInputs tv tx opts in
  if SkipScriptValidation opts then
    let? totalOut := checkOutputValues tx in
    if blockHeight <? GenesisActivationHeight (tv_params tv) then
      let? _ := sentinelGuard opts utxoHeights in
      inflationGuard opts tx totalOut
    else
      let? _ := inflationGuard opts tx totalOut in
      sentinelGuard opts utxoHeights
  else bdk_ValidateTransaction tx blockHeight (SkipPolicyChecks opts) utxoHeights.

End Adapter.

(** * Theorems *)

(** ** Finality *)
Lemma all_final_foldl (b : bool) (ins : list TxInput) :
  foldl (λ final i, final && (SequenceNumber i =? DefaultSequenceNumber)) b ins =
  b && forallb (λ i, SequenceNumber i =? DefaultSequenceNumber) ins.
Proof.
  revert b. induction ins as [|i ins IH]; intros b; simpl; [by rewrite andb_true_r|].
  rewrite IH. by rewrite andb_assoc.
Qed.

(** The rule of the protocol: a transaction is final when every input opted out
    of lock times, when it has no lock time, or when its lock time, a height
    below 500,000,000 and a time from there on, lies strictly before the block. *)
Definition is_final (tx : Tx) (height time : Z) : Prop :=
  Forall (λ i, SequenceNumber i = 0xffffffff) (Inputs tx) ∨ LockTime tx = 0 ∨
  LockTime tx < (if bool_decide (LockTime tx < 500000000) then height else time).

#[export] Instance is_final_dec tx height time : Decision (is_final tx height time).
Proof. unfold is_final. apply _. Defined.

Lemma IsTransactionFinal_eq (tx : Tx) (height time : Z) :
  Inputs tx ≠ [] → 0 ≤ LockTime tx →
  IsTransactionFinal tx height time =
    if decide (is_final tx height time) then Ok () else Err (err ERR_TX_LOCK_TIME).
Proof.
  intros Hin Hlt. unfold IsTransactionFinal.
  rewrite bool_decide_false by (by destruct (Inputs tx)). rewrite all_final_foldl. cbn [andb].
  destruct (forallb _ (Inputs tx)) eqn:Hall.
  - rewrite decide_True; [done|]. left. apply Forall_forall. intros i Hi.
    rewrite forallb_forall in Hall. apply Z.eqb_eq, Hall. by apply list_elem_of_In.
  - assert (¬ Forall (λ i, SequenceNumber i = 0xffffffff) (Inputs tx)).
    { intros HF. apply not_true_iff_false in Hall. apply Hall, forallb_forall. intros i Hi.
      rewrite Forall_forall in HF. apply Z.eqb_eq, HF. by apply list_elem_of_In. }
    unfold ValidLockTime. destruct (Z.gtb_spec (LockTime tx) 0).
    + destruct (Z.ltb_spec (LockTime tx) 500000000) as [Hh|Hh];
        [destruct (Z.gtb_spec height (LockTime tx))|destruct (Z.gtb_spec time (LockTime tx))];
        case_decide as Hf; try done; exfalso.
      all: try (apply Hf; right; right; case_bool_decide; lia).
      all: destruct Hf as [?|[?|Hf]]; [done|lia|case_bool_decide; lia].
    + rewrite decide_True; [done|]. right. left. lia.
Qed.

(** Finality.  The verdict is the protocol's rule, a refusal carries the
    lock-time code, a transaction without inputs is invalid, and finality is
    never lost as height and median time advance. *)
Theorem IsTransactionFinal_spec (tx : Tx) (height time : Z) :
  0 ≤ LockTime tx →
  IsTransactionFinal tx height time =
    (if decide (Inputs tx = []) then Err (err ERR_TX_INVALID)
     else if decide (is_final tx height time) then Ok () else Err (err ERR_TX_LOCK_TIME)) ∧
  ∀ height' time', height ≤ height' → time ≤ time' →
    IsTransactionFinal tx height time = Ok () → IsTransactionFinal tx height' time' = Ok ().
Proof.
  intros Hlt. destruct (decide (Inputs tx = [])) as [Hn|Hn].
  - split; [unfold IsTransactionFinal; by rewrite Hn|].
    intros h' t' _ _. unfold IsTransactionFinal. by rewrite Hn.
  - rewrite IsTransactionFinal_eq by done. split; [done|]. intros h' t' Hh Ht.
    rewrite IsTransactionFinal_eq by done. case_decide as Hf; [intros _|done].
    rewrite decide_True; [done|]. unfold is_final in *. case_bool_decide; intuition lia.
Qed.

(** ** Money range *)

(** The one accumulator loop behind the output checks. *)
Lemma check_output_values_eq (acc : Z) (outs : list TxOutput) :
  0 ≤ acc ≤ MaxSatoshis → Forall (λ o, is_u64 (Satoshis o)) outs →
  check_output_values acc (Some <$> outs) =
    if decide (acc + sum_Z (Satoshis <$> outs) ≤ MaxSatoshis)
    then Ok (acc + sum_Z (Satoshis <$> outs)) else Err (err ERR_TX_INVALID).
Proof.
  intros Ha Ho. revert acc Ha. unfold MaxSatoshis.
  induction Ho as [|o outs Hs Ho IH]; intros acc Ha.
  { simpl. rewrite decide_True by lia. f_equal. lia. }
  rewrite !fmap_cons, sum_Z_cons. cbn [check_output_values]. unfold MaxSatoshis.
  pose proof (sum_Z_u64_nonneg Satoshis outs Ho).
  destruct (Z.gtb_spec (Satoshis o) (2^63 - 1)); [by rewrite decide_False by lia|].
  destruct (Z.gtb_spec (Satoshis o) 2100000000000000); [by rewrite decide_False by lia|].
  rewrite u64_small by lia.
  destruct (Z.gtb_spec (acc + Satoshis o) 2100000000000000); [by rewrite decide_False by lia|].
  rewrite IH by lia. by rewrite Z.add_assoc.
Qed.

Lemma check_input_values_eq (acc : Z) (ins : list TxInput) :
  0 ≤ acc ≤ MaxSatoshis → Forall (λ i, is_u64 (PreviousTxSatoshis i)) ins →
  check_input_values acc ins =
    if decide (acc + sum_Z (PreviousTxSatoshis <$> ins) ≤ MaxSatoshis)
    then Ok (acc + sum_Z (PreviousTxSatoshis <$> ins)) else Err (err ERR_TX_INVALID).
Proof.
  intros Ha Ho. revert acc Ha. unfold MaxSatoshis.
  induction Ho as [|o ins Hs Ho IH]; intros acc Ha.
  { simpl. rewrite decide_True by lia. f_equal. lia. }
  rewrite !fmap_cons, sum_Z_cons. cbn [check_input_values]. unfold MaxSatoshis.
  pose proof (sum_Z_u64_nonneg PreviousTxSatoshis ins Ho).
  destruct (Z.gtb_spec (PreviousTxSatoshis o) 2100000000000000); [by rewrite decide_False by lia|].
  rewrite u64_small by lia.
  destruct (Z.gtb_spec (acc + PreviousTxSatoshis o) 2100000000000000);
    [by rewrite decide_False by lia|].
  rewrite IH by lia. by rewrite Z.add_assoc.
Qed.

Lemma output_range_eq (acc : Z) (outs : list TxOutput) :
  0 ≤ acc ≤ maxMoneySatoshis → Forall (λ o, is_u64 (Satoshis o)) outs →
  ∃ r, output_range acc (Some <$> outs) = Ok r ∧
    (r = None ↔ acc + sum_Z (Satoshis <$> outs) ≤ maxMoneySatoshis).
Proof.
  intros Ha Ho. revert acc Ha. unfold maxMoneySatoshis.
  induction Ho as [|o outs Hs Ho IH]; intros acc Ha.
  { exists None. simpl. split; [done|]. split; [lia|done]. }
  rewrite !fmap_cons, sum_Z_cons. cbn [output_range]. unfold maxMoneySatoshis.
  pose proof (sum_Z_u64_nonneg Satoshis outs Ho).
  destruct (Z.gtb_spec (Satoshis o) (2^63 - 1));
    [eexists; split; [done|]; split; [done|lia]|].
  destruct (Z.gtb_spec (Satoshis o) (21000000 * 100000000));
    [eexists; split; [done|]; split; [done|lia]|].
  rewrite u64_small by lia.
  destruct (Z.gtb_spec (acc + Satoshis o) (21000000 * 100000000));
    [eexists; split; [done|]; split; [done|lia]|].
  destruct (IH (acc + Satoshis o)) as (r & -> & Hr); [lia|]. exists r. split; [done|].
  by rewrite Hr, Z.add_assoc.
Qed.

(** ** The Go-side backstop: [ValidateTransaction] with scripts skipped *)
Definition prev_script_size (i : TxInput) : Z :=
  match PreviousTxScript i with Some s => Z.of_nat (length s) | None => 0 end.

(** The view-cache policy: off in consensus mode or when the limit is 0, else
    every input is extended and the spent scripts fit together. *)
Definition view_cache_ok (skipPolicy : bool) (limit : Z) (ins : list TxInput) : Prop :=
  skipPolicy = true ∨ limit = 0 ∨
  (Forall (λ i, is_Some (PreviousTxScript i)) ins ∧ sum_Z (prev_script_size <$> ins) ≤ limit).

#[export] Instance view_cache_ok_dec sp l ins : Decision (view_cache_ok sp l ins).
Proof. unfold view_cache_ok. apply _. Defined.

(** Go slices and the limit are shorter than 2^63. *)
Definition script_sizes_wf (ins : list TxInput) : Prop :=
  Forall (λ i, prev_script_size i < 2^63) ins.

Lemma prev_script_size_nonneg i : 0 ≤ prev_script_size i.
Proof. unfold prev_script_size. case_match; lia. Qed.

Lemma check_inputs_eq (limit acc : Z) (ins : list TxInput) :
  0 < limit < 2^63 → 0 ≤ acc ≤ limit → script_sizes_wf ins →
  check_inputs false limit acc ins =
    if decide (Forall (λ i, is_Some (PreviousTxScript i)) ins ∧
               acc + sum_Z (prev_script_size <$> ins) ≤ limit)
    then Ok () else Err (err ERR_TX_POLICY).
Proof.
  intros Hl Ha Hwf. revert acc Ha. induction Hwf as [|i ins Hi Hwf IH]; intros acc Ha.
  { simpl. rewrite decide_True; [done|]. split; [constructor|lia]. }
  rewrite fmap_cons, sum_Z_cons. cbn [check_inputs]. rewrite (proj2 (Z.gtb_lt _ _)) by lia.
  cbn [negb andb].
  assert (Hrest : 0 ≤ sum_Z (prev_script_size <$> ins))
    by (apply sum_Z_nonneg, Forall_fmap, Forall_true; intros; apply prev_script_size_nonneg).
  destruct (PreviousTxScript i) as [s|] eqn:Es.
  2: { rewrite decide_False; [done|]. intros [HF%Forall_cons _].
       destruct HF as [[? HF] _]. congruence. }
  assert (Hsz : prev_script_size i = Z.of_nat (length s)) by (unfold prev_script_size; by rewrite Es).
  rewrite <- Hsz. pose proof (prev_script_size_nonneg i). rewrite u64_small by lia.
  destruct (Z.gtb_spec (acc + prev_script_size i) limit).
  - rewrite decide_False; [done|]. lia.
  - rewrite IH by lia. apply decide_ext. rewrite Forall_cons, Es. split.
    + intros [? ?]. split; [split; [eauto|done]|lia].
    + intros [[_ ?] ?]. split; [done|lia].
Qed.

Lemma check_inputs_off (skipPolicy : bool) (limit acc : Z) (ins : list TxInput) :
  skipPolicy = true ∨ limit = 0 → check_inputs skipPolicy limit acc ins = Ok ().
Proof.
  intros Hoff. induction ins as [|i ins IH]; [done|]. cbn [check_inputs].
  destruct Hoff as [-> | ->]; [done|]. rewrite andb_false_r. by apply IH.
Qed.

Lemma checkInputs_spec (tv : TxValidator) (tx : Tx) (opts : Options) :
  0 ≤ MaxCoinsViewCacheSize tv < 2^63 → script_sizes_wf (Inputs tx) →
  checkInputs tv tx opts =
    if decide (view_cache_ok (SkipPolicyChecks opts) (MaxCoinsViewCacheSize tv) (Inputs tx))
    then Ok () else Err (err ERR_TX_POLICY).
Proof.
  intros Hl Hwf. unfold checkInputs, view_cache_ok.
  destruct (decide (SkipPolicyChecks opts = true ∨ MaxCoinsViewCacheSize tv = 0)) as [Hoff|Hon].
  { rewrite check_inputs_off by done. by rewrite decide_True by tauto. }
  destruct (SkipPolicyChecks opts); [tauto|]. rewrite check_inputs_eq by (done || lia).
  apply decide_ext. rewrite Z.add_0_l. intuition congruence.
Qed.

Section Validator.
  Context {SC : SafeConversion} {BT : BtTx} {BDK : BdkEngine}.

(** The money rules of the backstop: outputs within 21 million coins and, unless
    the outpoint-only path carries no input values, inputs within 21 million
    coins that cover the outputs; in consensus mode no unmined parent. *)
Definition money_rules (opts : Options) (tx : Tx) (outs : list TxOutput) (heights : list Z)
  : Prop :=
  sum_Z (Satoshis <$> outs) ≤ MaxSatoshis ∧
  (OutpointOnlySpend opts = true ∨
   (sum_Z (PreviousTxSatoshis <$> Inputs tx) ≤ MaxSatoshis ∧
    sum_Z (Satoshis <$> outs) ≤ sum_Z (PreviousTxSatoshis <$> Inputs tx))) ∧
  (SkipPolicyChecks opts = true → unconfirmedParentHeight ∉ heights).

#[export] Instance money_rules_dec opts tx outs heights : Decision (money_rules opts tx outs heights).
Proof. unfold money_rules. apply _. Defined.

Lemma existsb_sentinel (heights : list Z) :
  existsb (λ h, h =? unconfirmedParentHeight) heights = bool_decide (unconfirmedParentHeight ∈ heights).
Proof.
  apply eq_true_iff_eq. rewrite existsb_exists, bool_decide_eq_true, list_elem_of_In.
  split; [intros (h & ? & ->%Z.eqb_eq); done|]. intros. eexists; split; [done|]. apply Z.eqb_refl.
Qed.

Lemma sentinelGuard_eq opts heights :
  sentinelGuard opts heights =
  if decide (SkipPolicyChecks opts = true → unconfirmedParentHeight ∉ heights)
  then Ok () else Err (err ERR_TX_INVALID).
Proof.
  unfold sentinelGuard. rewrite existsb_sentinel.
  destruct (SkipPolicyChecks opts); repeat case_decide; repeat case_bool_decide; naive_solver.
Qed.

Lemma inflationGuard_eq opts tx totalOut :
  Forall (λ i, is_u64 (PreviousTxSatoshis i)) (Inputs tx) →
  inflationGuard opts tx totalOut =
  if decide (OutpointOnlySpend opts = true ∨
     (sum_Z (PreviousTxSatoshis <$> Inputs tx) ≤ MaxSatoshis ∧
      totalOut ≤ sum_Z (PreviousTxSatoshis <$> Inputs tx)))
  then Ok () else Err (err ERR_TX_INVALID).
Proof.
  intros Hi. unfold inflationGuard, checkInputValuesAndInflation.
  destruct (OutpointOnlySpend opts); [by rewrite decide_True by tauto|].
  rewrite check_input_values_eq by (done || (unfold MaxSatoshis; lia)). rewrite Z.add_0_l.
  destruct (decide (sum_Z _ ≤ MaxSatoshis)); cbn [bindR].
  - destruct (Z.ltb_spec (sum_Z (PreviousTxSatoshis <$> Inputs tx)) totalOut).
    + rewrite decide_False; [done|]. intros [?|[? ?]]; [done|lia].
    + rewrite decide_True; [done|]. right. lia.
  - rewrite decide_False; [done|]. naive_solver.
Qed.

(** C5: no coin is created from nothing.  When script validation is skipped the
    Go-side backstop accepts a regular transaction exactly when the view-cache
    policy and the money rules hold over the unbounded integers; the sums never
    wrap, and the era-dependent order of the checks changes no verdict. *)
Theorem ValidateTransaction_backstop (tv : TxValidator) (tx : Tx) (outs : list TxOutput)
    (blockHeight : Z) (heights : list Z) (opts : Options) :
  SkipScriptValidation opts = true →
  0 ≤ MaxCoinsViewCacheSize tv < 2^63 → script_sizes_wf (Inputs tx) →
  Outputs tx = Some <$> outs → Forall (λ o, is_u64 (Satoshis o)) outs →
  Forall (λ i, is_u64 (PreviousTxSatoshis i)) (Inputs tx) →
  ValidateTransaction tv tx blockHeight heights (Some opts) =
    if IsCoinbase tx then Err (err ERR_TX_INVALID)
    else if decide (view_cache_ok (SkipPolicyChecks opts) (MaxCoinsViewCacheSize tv) (Inputs tx))
    then if decide (money_rules opts tx outs heights) then Ok () else Err (err ERR_TX_INVALID)
    else Err (err ERR_TX_POLICY).
Proof.
  intros Hskip Hl Hwf Ho Hos His. unfold ValidateTransaction. cbn [from_option id].
  destruct (IsCoinbase tx); [done|]. rewrite checkInputs_spec by done.
  destruct (decide (view_cache_ok _ _ _)); [|done]. cbn [bindR]. rewrite Hskip.
  unfold checkOutputValues. rewrite Ho, check_output_values_eq by (done || (unfold MaxSatoshis; lia)).
  rewrite Z.add_0_l. unfold money_rules.
  destruct (decide (sum_Z (Satoshis <$> outs) ≤ MaxSatoshis)); cbn [bindR];
    [|rewrite decide_False; [done|tauto]].
  rewrite sentinelGuard_eq, inflationGuard_eq by done.
  case_match; repeat case_decide; cbn [bindR]; try done; tauto.
Qed.

(** ** The engine path *)

(** The engine judged the transaction: not a fault of its C boundary, and either
    a DoS code of the range this build knows (or named by it), or a script
    error other than a crash of the engine. *)
Definition engine_verdict (e : BdkError) : Prop :=
  as_abi e = false ∧
  match as_dos e with
  | Some code =>
      DOS_ERR_OK < code < DOS_ERR_COUNT ∨ code = DOS_ERR_NOT_STANDARD ∨
      code = DOS_ERR_SIGOPS_POLICY ∨ code = DOS_ERR_NOT_FREE_CONSOLIDATION ∨
      code = DOS_ERR_INSUFFICIENT_FEE
  | None => ∃ code, as_script e = Some code ∧ code ≠ SCRIPT_ERR_CGO_EXCEPTION
  end.

Lemma mapBDKValidationError_verdict (e : BdkError) (consensus : bool) :
  error_Is (mapBDKValidationError e consensus) ERR_TX_INVALID = true ↔ engine_verdict e.
Proof.
  assert (Hn : error_Is node_fault ERR_TX_INVALID = false) by done.
  assert (Hp : error_Is (policy_verdict e) ERR_TX_INVALID = true) by done.
  assert (Hi : error_Is (invalid_verdict e) ERR_TX_INVALID = true) by done.
  unfold mapBDKValidationError, engine_verdict.
  destruct (as_abi e); [rewrite Hn; naive_solver|].
  destruct (as_dos e) as [c|].
  - destruct (Z.eqb_spec c DOS_ERR_NOT_STANDARD), (Z.eqb_spec c DOS_ERR_SIGOPS_POLICY),
      (Z.eqb_spec c DOS_ERR_NOT_FREE_CONSOLIDATION), (Z.eqb_spec c DOS_ERR_INSUFFICIENT_FEE);
      cbn [orb]; rewrite ?Hp; try tauto.
    destruct (Z.leb_spec c DOS_ERR_OK), (Z.geb_spec c DOS_ERR_COUNT); cbn [orb];
      rewrite ?Hn, ?Hi; split; try done; try lia.
    all: intros; split; [done|]; left; lia.
  - destruct (as_script e) as [c|]; [|rewrite Hn; naive_solver].
    destruct (Z.eqb_spec c SCRIPT_ERR_CGO_EXCEPTION); [rewrite Hn; naive_solver|].
    case_match; rewrite ?Hp, ?Hi; naive_solver.
Qed.

Lemma uint2int_code l e : uint2int l = Err e → e = err ERR_UNKNOWN.
Proof.
  revert e. induction l as [|v l IH]; intros e; simpl; [done|].
  unfold foreignR. destruct (Uint32ToInt32 v); simpl; [|congruence].
  destruct (uint2int l); simpl; [done|]. intros [= ->]. by apply IH.
Qed.

Lemma bdkBlockHeight_code h c e : bdkBlockHeight h c = Err e →
  e = err ERR_UNKNOWN ∨ e = err ERR_INVALID_ARGUMENT.
Proof.
  unfold bdkBlockHeight, foreignR. repeat case_match; intros; simplify_eq; auto.
Qed.

(** A transaction is condemned only by a rule that was evaluated.  With
    scripts validated, acceptance means the engine accepted it at the heights
    handed over, with unmined parents translated; a TX_INVALID verdict means
    the transaction is a coinbase or the engine judged it, never that a
    conversion, the C boundary or an unknown error code failed. *)
Theorem ValidateTransaction_engine (tv : TxValidator) (tx : Tx)
    (blockHeight : Z) (heights : list Z) (opts : Options) :
  SkipScriptValidation opts = false →
  let consensus := SkipPolicyChecks opts in
  let asked r := ∃ ints h,
    uint2int (substituteUnconfirmedHeights heights blockHeight consensus) = Ok ints ∧
    bdkBlockHeight blockHeight consensus = Ok h ∧
    NativeValidate (ExtendedBytes tx) ints h consensus = r in
  match ValidateTransaction tv tx blockHeight heights (Some opts) with
  | Ok _ => IsCoinbase tx = false ∧ asked None
  | Err e => error_Is e ERR_TX_INVALID = true →
      IsCoinbase tx = true ∨ ∃ e', asked (Some e') ∧ engine_verdict e'
  end.
Proof.
  intros Hskip consensus asked. subst consensus.
  unfold ValidateTransaction. cbn [from_option id].
  destruct (IsCoinbase tx) eqn:Hcb; [by left|].
  destruct (checkInputs tv tx opts) as [[]|e] eqn:Hci; cbn [bindR].
  2: { intros He. exfalso. revert He. enough (e = err ERR_TX_POLICY) as -> by done.
       revert Hci. unfold checkInputs. generalize 0 as acc. induction (Inputs tx) as [|i l IH];
         intros acc; cbn [check_inputs]; [done|].
       repeat case_match; try congruence; apply IH. }
  rewrite Hskip. unfold bdk_ValidateTransaction. rewrite Hcb.
  destruct (uint2int _) as [ints|e] eqn:Hints; cbn [wrapR bindR].
  2: { apply uint2int_code in Hints as ->. done. }
  destruct (bdkBlockHeight _ _) as [h|e] eqn:Hh; cbn [wrapR bindR].
  2: { by apply bdkBlockHeight_code in Hh as [-> | ->]. }
  destruct (NativeValidate _ _ _ _) as [e'|] eqn:Hv.
  - intros He%mapBDKValidationError_verdict. right. exists e'. split; [|done]. by exists ints, h.
  - split; [done|]. by exists ints, h.
Qed.

End Validator.

(** ** BIP68 *)
(** The relative lock of input [i]: disabled by bit 31; else bit 22 selects
    512-second units after the parent's median time, or blocks after its height. *)
Definition lock_met (heights mtps : list Z) (height mtp : Z) (i : nat) (inp : TxInput) : Prop :=
  Z.testbit (SequenceNumber inp) 31 = true ∨
  if Z.testbit (SequenceNumber inp) 22
  then ∃ m, mtps !! i = Some m ∧ m + 512 * (SequenceNumber inp mod 2^16) ≤ mtp
  else ∃ h, heights !! i = Some h ∧ h + SequenceNumber inp mod 2^16 ≤ height.

Lemma lock_offset n : Z.land n SequenceLockTimeMask = n mod 2^16.
Proof. apply (Z.land_ones n 16). lia. Qed.

Lemma sequence_scan_met (heights mtps : list Z) (H T : Z) (ins : list TxInput) :
  Forall (λ h, is_u32 h) heights → Forall (λ m, is_u32 m) mtps →
  ∀ i mh mt,
  (∃ mh' mt', sequence_scan i ins heights mtps mh mt = Ok (mh', mt') ∧ mh' < H ∧ mt' < T) ↔
  mh < H ∧ mt < T ∧
  ∀ j inp, ins !! j = Some inp → lock_met heights mtps H T (i + j) inp.
Proof.
  intros Hh Hm. induction ins as [|inp ins IH]; intros i mh mt; cbn [sequence_scan].
  { split; [|intros (? & ? & _); eauto]. intros (? & ? & [= <- <-] & ? & ?). by split_and!. }
  rewrite (forall_lookup_cons (lock_met heights mtps H T)).
  unfold SequenceLockTimeDisableFlag, SequenceLockTimeTypeFlag.
  rewrite !land_shifted_bit_zero, lock_offset, !negb_involutive by lia.
  unfold lock_met at 1.
  pose proof (Z.mod_pos_bound (SequenceNumber inp) (2^16) ltac:(lia)) as Hn.
  destruct (Z.testbit (SequenceNumber inp) 31); [rewrite IH; naive_solver|].
  destruct (Z.testbit (SequenceNumber inp) 22).
  - destruct (mtps !! i) as [m|] eqn:Em; [|naive_solver].
    assert (Hmb : is_u32 m) by (rewrite Forall_forall in Hm; eapply Hm, list_elem_of_lookup_2, Em).
    unfold SequenceLockTimeGranularity. rewrite Z.shiftl_mul_pow2 by lia.
    rewrite (i64_small (_ * 2^9)), (i64_small (m + _)), i64_small, IH by lia.
    destruct (Z.gtb_spec (m + SequenceNumber inp mod 2^16 * 2^9 - 1) mt); naive_solver lia.
  - destruct (heights !! i) as [h|] eqn:Eh; [|naive_solver].
    assert (Hhb : is_u32 h) by (rewrite Forall_forall in Hh; eapply Hh, list_elem_of_lookup_2, Eh).
    rewrite (i64_small (h + _)), i64_small, IH by lia.
    destruct (Z.gtb_spec (h + SequenceNumber inp mod 2^16 - 1) mh); naive_solver lia.
Qed.

(** BIP68.  A transaction passes exactly when relative locks are not in force
    (before CSV, from Genesis on, or version below 2), or the height fits in 31
    bits and the lock of every input is met by the block's height and median
    time; a missing height or median time of a locked input is a refusal. *)
Theorem sequenceLocks_spec (tv : TxValidator) (tx : Tx) (blockHeight : Z)
    (heights mtps : list Z) (blockMTP : Z) :
  0 ≤ blockHeight → 0 ≤ blockMTP →
  Forall (λ h, is_u32 h) heights → Forall (λ m, is_u32 m) mtps →
  sequenceLocks tv tx blockHeight heights mtps blockMTP = Ok () ↔
  blockHeight < CSVHeight (tv_params tv) ∨
  GenesisActivationHeight (tv_params tv) ≤ blockHeight ∨ TxVersion tx < 2 ∨
  (blockHeight < 2^31 ∧
   ∀ i inp, Inputs tx !! i = Some inp → lock_met heights mtps blockHeight blockMTP i inp).
Proof.
  intros Hb Ht Hh Hm. unfold sequenceLocks.
  destruct (Z.ltb_spec blockHeight (CSVHeight (tv_params tv))); [tauto|].
  destruct (Z.geb_spec blockHeight (GenesisActivationHeight (tv_params tv))); [tauto|].
  destruct (Z.ltb_spec (TxVersion tx) 2); [tauto|].
  pose proof (sequence_scan_met heights mtps blockHeight blockMTP (Inputs tx) Hh Hm 0 (-1) (-1)) as Hs.
  simpl plus in Hs. split.
  - intros Hok. apply bindR_Ok in Hok as ([mh mt] & Hscan & Hok). right; right; right.
    destruct (Z.gtb_spec blockHeight (2^31 - 1)); [done|].
    destruct (Z.geb_spec mh blockHeight); [done|]. destruct (Z.geb_spec mt blockMTP); [done|].
    split; [lia|]. apply Hs. exists mh, mt. by split_and!.
  - intros [?|[?|[?|[H31 Hall]]]]; [lia..|].
    destruct (proj2 Hs) as (mh & mt & -> & ? & ?); [split_and!; [lia|lia|done]|]. cbn [bindR].
    destruct (Z.gtb_spec blockHeight (2^31 - 1)); [lia|].
    destruct (Z.geb_spec mh blockHeight); [lia|]. by destruct (Z.geb_spec mt blockMTP); [lia|].
Qed.

(** ** The sigop count *)
Lemma sigops_loop_total fuel n script : (length script ≤ fuel)%nat →
  ∃ c, sigops_loop fuel n script = Some c.
Proof.
  revert n script. induction fuel as [|fuel IH]; intros n [|b script] Hlen; simpl in *;
    try (eauto; fail); [lia|].
  repeat case_match; eauto; apply IH; rewrite ?length_drop; lia.
Qed.

(** Each instruction counts for at most twenty, so the total stays far from 2^64. *)
Lemma sigops_loop_bound fuel n script c : 0 ≤ n →
  n + 20 * Z.of_nat (length script) < 2^64 →
  sigops_loop fuel n script = Some c → n ≤ c ≤ n + 20 * Z.of_nat (length script).
Proof.
  revert n script. induction fuel as [|fuel IH]; intros n [|b script] Hn Hlen; simpl;
    try (intros; simplify_eq; lia).
  simpl in Hlen. unfold maxPubKeysPerMultiSigBeforeGenesis. repeat case_match; intros; simplify_eq; try lia.
  all: match goal with H : sigops_loop _ _ _ = Some _ |- _ => apply IH in H end;
    rewrite ?u64_small in * by lia; rewrite ?length_drop in *; lia.
Qed.

(** The pre-Genesis sigop count is total and at most twenty per script byte. *)
Lemma preGenesisSigOpCount_spec (script : list byte) :
  20 * Z.of_nat (length script) < 2^64 →
  ∃ c, preGenesisSigOpCount script = Some c ∧ 0 ≤ c ≤ 20 * Z.of_nat (length script).
Proof.
  intros Hl. destruct (sigops_loop_total (length script) 0 script) as [c Hc]; [done|].
  exists c. split; [done|]. apply sigops_loop_bound in Hc; lia.
Qed.

(** ** The context-free check *)
Definition outpoint (i : TxInput) : Hash * Z := (PreviousTxID i, PreviousTxOutIndex i).

Definition fresh_outpoints (seen : gset (Hash * Z)) (ins : list TxInput) : Prop :=
  NoDup (outpoint <$> ins) ∧ ((zero_hash, 0xffffffff) ∉ outpoint <$> ins) ∧
  Forall (λ i, outpoint i ∉ seen) ins.

Lemma fresh_outpoints_cons seen i ins :
  fresh_outpoints seen (i :: ins) ↔
  outpoint i ≠ (zero_hash, 0xffffffff) ∧ outpoint i ∉ seen ∧
  fresh_outpoints ({[outpoint i]} ∪ seen) ins.
Proof.
  unfold fresh_outpoints.
  rewrite fmap_cons, NoDup_cons, not_elem_of_cons, Forall_cons, !Forall_forall. split.
  - intros ((Hni & Hnd) & (Hz & Hzs) & Hi & Hall). split_and!; try done.
    intros j Hj. rewrite elem_of_union, elem_of_singleton. intros [He|He]; [|by apply (Hall j)].
    apply Hni. rewrite <- He. by apply list_elem_of_fmap_2.
  - intros (Hz & Hi & Hnd & Hzs & Hall). split_and!; try done.
    + intros (j & Hj & Hjl)%list_elem_of_fmap. apply (Hall j Hjl). rewrite Hj. set_solver.
    + intros j Hj. specialize (Hall j Hj). set_solver.
Qed.

Lemma outpoints_distinct_spec (seen : gset (Hash * Z)) (ins : list TxInput) :
  (outpoints_distinct seen ins = Ok () ∧ fresh_outpoints seen ins) ∨
  (outpoints_distinct seen ins = Err (err ERR_TX_INVALID) ∧ ¬ fresh_outpoints seen ins).
Proof.
  revert seen. induction ins as [|i ins IH]; intros seen.
  { left. split; [done|]. split_and!; [constructor|set_solver|constructor]. }
  rewrite fresh_outpoints_cons. cbn [outpoints_distinct fst snd]. fold (outpoint i).
  destruct ((PreviousTxOutIndex i =? 4294967295) && bool_decide (PreviousTxID i = zero_hash)) eqn:Ez.
  { apply andb_true_iff in Ez as [E1%Z.eqb_eq E2%bool_decide_eq_true].
    right. split; [done|]. unfold outpoint. rewrite E1, E2. tauto. }
  assert (Hnz : outpoint i ≠ (zero_hash, 0xffffffff)).
  { intros [= E1 E2]. rewrite E1, E2, Z.eqb_refl, bool_decide_true in Ez by done. done. }
  clear Ez. case_bool_decide; [right; split; [done|tauto]|].
  destruct (IH ({[outpoint i]} ∪ seen)); tauto.
Qed.

Lemma outpoints_distinct_eq (ins : list TxInput) :
  outpoints_distinct ∅ ins =
    if decide (NoDup (outpoint <$> ins) ∧ ((zero_hash, 0xffffffff) ∉ outpoint <$> ins))
    then Ok () else Err (err ERR_TX_INVALID).
Proof.
  assert (Forall (λ i, outpoint i ∉ (∅ : gset (Hash * Z))) ins) by (apply Forall_true; set_solver).
  destruct (outpoints_distinct_spec ∅ ins) as [[-> [? [? ?]]]|[-> Hn]].
  - by rewrite decide_True by tauto.
  - rewrite decide_False; [done|]. intros [? ?]. by apply Hn.
Qed.

Section ContextFree.
  Context {BT : BtTx}.

(** What every transaction must satisfy without looking at its parents. *)
Definition context_free_rules (tx : Tx) (outs : list TxOutput) (p : ChainParams) (height : Z)
  : Prop :=
  Inputs tx ≠ [] ∧ outs ≠ [] ∧
  TxSize tx ≤ (if bool_decide (GenesisActivationHeight p ≤ height)
               then 1000000000 else 1000000) ∧
  sum_Z (Satoshis <$> outs) ≤ maxMoneySatoshis ∧
  (height < GenesisActivationHeight p → tx_sigops tx ≤ 20000) ∧
  NoDup (outpoint <$> Inputs tx) ∧ ((zero_hash, 0xffffffff) ∉ outpoint <$> Inputs tx).

#[export] Instance context_free_rules_dec tx outs p h : Decision (context_free_rules tx outs p h).
Proof. unfold context_free_rules. apply _. Defined.

Lemma TxCommonRuleViolation_spec (tx : Tx) (outs : list TxOutput) (p : ChainParams) (height : Z) :
  Outputs tx = Some <$> outs → Forall (λ o, is_u64 (Satoshis o)) outs →
  ∃ r, TxCommonRuleViolation tx height p = Ok r ∧
    (r = None ↔ Inputs tx ≠ [] ∧ outs ≠ [] ∧
       TxSize tx ≤ (if bool_decide (GenesisActivationHeight p ≤ height)
                    then 1000000000 else 1000000) ∧
       sum_Z (Satoshis <$> outs) ≤ maxMoneySatoshis ∧
       (height < GenesisActivationHeight p → tx_sigops tx ≤ 20000)).
Proof.
  intros Ho Hos. unfold TxCommonRuleViolation. rewrite Ho, length_fmap.
  destruct (Inputs tx) as [|i ins]; [eexists; split; [done|]; split; [done|tauto]|].
  rewrite bool_decide_false by done.
  destruct outs as [|o outs]; [eexists; split; [done|]; split; [done|tauto]|].
  rewrite bool_decide_false by done.
  assert (Hg : (height >=? GenesisActivationHeight p)
               = bool_decide (GenesisActivationHeight p ≤ height))
    by (rewrite Z.geb_leb; case_bool_decide; lia).
  rewrite Hg. unfold maxTxSizeConsensusBeforeGenesis, maxTxSizeConsensusAfterGenesis,
    maxTxSigOpsCountBeforeGenesis.
  replace (if negb (bool_decide (GenesisActivationHeight p ≤ height)) then 1000000 else 1000000000)
    with (if bool_decide (GenesisActivationHeight p ≤ height) then 1000000000 else 1000000)
    by (by case_bool_decide).
  destruct (Z.gtb_spec (TxSize tx)
    (if bool_decide (GenesisActivationHeight p ≤ height) then 1000000000 else 1000000));
    [eexists; split; [done|]; split; [done|lia]|].
  destruct (output_range_eq 0 (o :: outs)) as (r & -> & Hr); [done..|].
  rewrite Z.add_0_l in Hr. cbn [bindR]. destruct r as [r|].
  { eexists; split; [done|]; split; [done|]. intros (_&_&_&Hm&_). by apply Hr in Hm. }
  destruct Hr as [Hr _]. specialize (Hr eq_refl).
  destruct (Z.gtb_spec (tx_sigops tx) 20000); case_bool_decide; cbn [negb andb];
    eexists; (split; [done|]); split; try done; try lia.
  all: intros; split_and!; try done; lia.
Qed.

(** The context-free check accepts a transaction exactly when it is not a
    coinbase, satisfies the common rules of its era, spends distinct non-null
    outpoints and fits the size policy; a breach of the policy alone is a
    policy error, every other breach makes the transaction invalid. *)
Theorem CheckTransactionContextFree_spec (tx : Tx) (outs : list TxOutput) (p : ChainParams)
    (policy : option Z) (height : Z) :
  Outputs tx = Some <$> outs → Forall (λ o, is_u64 (Satoshis o)) outs →
  CheckTransactionContextFree tx (Some (p, policy)) height =
    if IsCoinbase tx then Err (err ERR_TX_INVALID)
    else if decide (context_free_rules tx outs p height)
    then match policy with
         | Some limit => if bool_decide (0 < limit < TxSize tx)
                         then Err (err ERR_TX_POLICY) else Ok ()
         | None => Ok ()
         end
    else Err (err ERR_TX_INVALID).
Proof.
  intros Ho Hos. unfold CheckTransactionContextFree.
  destruct (IsCoinbase tx); [done|].
  destruct (TxCommonRuleViolation_spec tx outs p height Ho Hos) as (r & -> & Hr). cbn [bindR].
  unfold context_free_rules. destruct r as [r|].
  { rewrite decide_False; [done|]. intros (?&?&?&?&?&_).
    enough (Some r = None) by done. apply Hr. by split_and!. }
  destruct Hr as [Hr _]. destruct (Hr eq_refl) as (?&?&?&?&?).
  rewrite outpoints_distinct_eq.
  case_decide; cbn [bindR].
  - rewrite decide_True by tauto. destruct policy as [limit|]; [|done].
    destruct (Z.gtb_spec limit 0), (Z.gtb_spec (TxSize tx) limit); cbn [andb];
      (rewrite bool_decide_true by lia) || (rewrite bool_decide_false by lia); done.
  - rewrite decide_False by tauto. done.
Qed.

End ContextFree.

(** ** Concrete inputs *)
Definition ex_input (vout satoshis sequence : Z) : TxInput :=
  mkInput (hash_of_Z 77) vout satoshis (Some [OpRETURN]) (Some [Byte.xac; Byte.xae]) sequence.

Definition ex_tx (version lockTime : Z) : Tx :=
  mkTx version [ex_input 0 700 5; ex_input 1 50 (2^22 + 3)] [Some (mkOutput 740 None)] lockTime.

Definition ex_tv : TxValidator := mkTxValidator ex_params 0.

Lemma IsTransactionFinal_spec_witness :
  IsTransactionFinal (ex_tx 1 500) 500 0 = Err (err ERR_TX_LOCK_TIME) ∧
  IsTransactionFinal (ex_tx 1 500) 501 0 = Ok () ∧ IsTransactionFinal (ex_tx 1 500) 900 3 = Ok ().
Proof.
  split; [|split].
  - rewrite (proj1 (IsTransactionFinal_spec (ex_tx 1 500) 500 0 ltac:(simpl; lia))). reflexivity.
  - reflexivity.
  - apply (proj2 (IsTransactionFinal_spec (ex_tx 1 500) 501 0 ltac:(simpl; lia)));
      [lia|lia|reflexivity].
Defined.

Lemma ValidateTransaction_backstop_witness :
  ValidateTransaction (SC := model_SafeConversion) (BT := model_BtTx) (BDK := model_Bdk)
    ex_tv (ex_tx 1 0) 50 [7; 9] (Some (mkOptions true true false false 0 0)) = Ok ().
Proof.
  rewrite (ValidateTransaction_backstop (SC := model_SafeConversion) (BT := model_BtTx)
    (BDK := model_Bdk) ex_tv (ex_tx 1 0) [mkOutput 740 None] 50 [7; 9]
    (mkOptions true true false false 0 0));
    [reflexivity|reflexivity|simpl; lia| |reflexivity|repeat constructor; simpl; lia
    |repeat constructor; simpl; lia].
  repeat constructor; simpl; lia.
Defined.

Lemma ValidateTransaction_engine_witness :
  ∃ e, ValidateTransaction (SC := model_SafeConversion) (BT := model_BtTx) (BDK := model_Bdk)
    ex_tv (ex_tx 13 0) 50 [7; 0xFFFFFFFF] (Some (mkOptions true false false false 0 0)) = Err e ∧
  ∃ e', engine_verdict (BDK := model_Bdk) e'.
Proof.
  pose proof (ValidateTransaction_engine (SC := model_SafeConversion) (BT := model_BtTx)
    (BDK := model_Bdk) ex_tv (ex_tx 13 0) 50 [7; 0xFFFFFFFF]
    (mkOptions true false false false 0 0) eq_refl) as H.
  exists (Error ERR_TX_INVALID (Some (err ERR_TX_INVALID))). split; [reflexivity|].
  destruct (H eq_refl) as [H'|(e' & _ & H')]; [discriminate H'|by exists e'].
Defined.

Lemma sequenceLocks_spec_witness :
  sequenceLocks ex_tv (ex_tx 2 0) 50 [45; 49] [1000; 2000] 3536 = Ok () ∧
  sequenceLocks ex_tv (ex_tx 2 0) 50 [46; 49] [1000; 2000] 3536 ≠ Ok ().
Proof.
  split; rewrite (sequenceLocks_spec ex_tv (ex_tx 2 0) 50);
    try (repeat constructor; lia); try lia.
  - right; right; right. split; [lia|]. intros [|[|i]] inp; simpl; intros [= <-].
    + right. simpl. exists 45. split; [reflexivity|vm_compute; done].
    + right. simpl. exists 2000. split; [reflexivity|vm_compute; done].
  - intros [H|[H|[H|[_ H]]]]; [simpl in H; lia..|].
    destruct (H 0%nat (ex_input 0 700 5) eq_refl) as [H'|(h & Hh & H')];
      [discriminate H'|]. simpl in Hh. injection Hh as <-. vm_compute in H'. by apply H'.
Defined.

Lemma CheckTransactionContextFree_spec_witness :
  CheckTransactionContextFree (BT := model_BtTx) (ex_tx 1 0) (Some (ex_params, Some 1000)) 50 = Ok ().
Proof.
  rewrite (CheckTransactionContextFree_spec (BT := model_BtTx) (ex_tx 1 0) [mkOutput 740 None]);
    [|reflexivity|repeat constructor; simpl; lia].
  change (IsCoinbase (BtTx := model_BtTx) (ex_tx 1 0)) with false. cbv iota.
  rewrite decide_True; [reflexivity|].
  split_and!; [done|done|vm_compute; done|vm_compute; done|vm_compute; done| |];
    apply (bool_decide_unpack _); vm_compute; reflexivity.
Defined.
