(* ===== verification/Extend.v ===== *)
(** * Resolving the outputs a transaction spends

    services/validator/Validator.go: [getUtxoBlockHeightsAndExtendTx],
    [extendInputFromPrefetchedParent] and [extendTransaction].  The UTXO store
    is the interface [ParentStore], with the contract of
    [ParentOutputsForValidation] (one positional answer per outpoint) in
    [ParentStoreSpec]. *)

From S2P Require Import Prelude External TxRules.

(** ** The store interface *)
Inductive ParentOutputStatus :=
  | ParentOutputUnknown | ParentOutputMined | ParentOutputNotMined
  | ParentOutputTxNotFound | ParentOutputNoSuchIndex.

Record ParentOutput := mkParentOutput {
  po_Status : ParentOutputStatus;
  po_Satoshis : Z;
  po_LockingScript : option (list byte);
  po_Height : Z;
  po_Err : option error;
}.

Definition Outpoint : Type := Hash * Z.

Class ParentStore := {
  ParentOutputsForValidation : list Outpoint → result (list ParentOutput);
}.

(** The store answers every outpoint at its position, from one ledger. *)
Class ParentStoreSpec (S : ParentStore) := {
  parent_answer : Outpoint → ParentOutput;
  answers_positional ops l :
    ParentOutputsForValidation ops = Ok l → l = parent_answer <$> ops;
}.

(** [meta.Data], the fields read here. *)
Record MetaData := mkMeta {
  BlockHeights : list Z;
  md_Tx : option Tx;
}.

(** ** Writing one input *)
Definition with_output (input : TxInput) (satoshis : Z) (script : option (list byte)) : TxInput :=
  mkInput (PreviousTxID input) (PreviousTxOutIndex input) satoshis script
    (UnlockingScript input) (SequenceNumber input).

Definition set_inputs (tx : Tx) (ins : list TxInput) : Tx :=
  mkTx (TxVersion tx) ins (Outputs tx) (LockTime tx).

Definition lowest_height (heights : list Z) : Z :=
  match heights with
  | [] => unconfirmedParentHeight
  | h :: hs => foldl Z.min h hs
  end.

(** [extendInputFromPrefetchedParent]: the heights and inputs it writes. *)
Definition extendInputFromPrefetchedParent (inputIdx : nat) (input : TxInput)
    (parent : MetaData) (ptx : Tx) (ins : list TxInput) (utxoHeights : list Z)
  : result (list TxInput * list Z) :=
  let utxoHeights := <[inputIdx := lowest_height (BlockHeights parent)]> utxoHeights in
  match Outputs ptx !! Z.to_nat (PreviousTxOutIndex input) with
  | Some (Some o) =>
      Ok (<[inputIdx := with_output input (Satoshis o) (LockingScript o)]> ins, utxoHeights)
  | _ => Err (err ERR_TX_INVALID)
  end.

Record pass := mkPass {
  p_inputs : list TxInput;
  p_heights : list Z;
  p_pending : list (nat * Outpoint);      (* [storeIdxs] and [outpoints] *)
}.

(** The first loop, over the inputs from index [i] on. *)
Fixpoint from_prefetched (prefetched : gmap Hash MetaData) (i : nat) (todo : list TxInput)
    (s : pass) : result pass :=
  match todo with
  | [] => Ok s
  | input :: todo =>
      match prefetched !! PreviousTxID input ≫= λ pf, (λ t, (pf, t)) <$> md_Tx pf with
      | Some (pf, ptx) =>
          let? (ins, heights) := extendInputFromPrefetchedParent i input pf ptx
                                   (p_inputs s) (p_heights s) in
          from_prefetched prefetched (S i) todo (mkPass ins heights (p_pending s))
      | None =>
          from_prefetched prefetched (S i) todo
            (mkPass (p_inputs s) (p_heights s)
               (p_pending s ++ [(i, (PreviousTxID input, PreviousTxOutIndex input))]))
      end
  end.

(** One answer of the second loop: the height it gives, or the verdict. *)
Definition answer_height (a : ParentOutput) : result Z :=
  match po_Err a with
  | Some e => Err (err_wrap ERR_PROCESSING e)
  | None =>
      match po_Status a with
      | ParentOutputTxNotFound => Err (err ERR_TX_MISSING_PARENT)
      | ParentOutputNoSuchIndex => Err (err ERR_TX_INVALID)
      | ParentOutputMined => Ok (po_Height a)
      | ParentOutputNotMined => Ok unconfirmedParentHeight
      | ParentOutputUnknown => Err (err ERR_PROCESSING)
      end
  end.

Fixpoint from_answers (answers : list ParentOutput) (pending : list (nat * Outpoint))
    (s : pass) : result pass :=
  match answers, pending with
  | a :: answers, (i, op) :: pending =>
      let? h := answer_height a in
      from_answers answers pending
        (mkPass (alter (λ input, with_output input (po_Satoshis a) (po_LockingScript a)) i (p_inputs s))
                (<[i := h]> (p_heights s)) (p_pending s))
  | _, _ => Ok s
  end.

Section Extend.
  Context {BT : BtTx} {PS : ParentStore}.

(** The heights, and the transaction as the call leaves it. *)
Definition getUtxoBlockHeightsAndExtendTx (tx : Tx) (prefetched : gmap Hash MetaData)
  : result (list Z * Tx) :=
  let? s := from_prefetched prefetched 0 (Inputs tx)
              (mkPass (Inputs tx) (replicate (length (Inputs tx)) 0) []) in
  if bool_decide (p_pending s = []) then Ok (p_heights s, set_inputs tx (p_inputs s)) else
  let? answers := wrapR ERR_PROCESSING (ParentOutputsForValidation (snd <$> p_pending s)) in
  guard? bool_decide (length answers = length (p_pending s)) else err ERR_PROCESSING in
  let? s := from_answers answers (p_pending s) s in
  Ok (p_heights s, set_inputs tx (p_inputs s)).

Definition extendTransaction (tx : Tx) : result Tx :=
  if IsCoinbase tx then Ok tx else
  let? (_, tx) := getUtxoBlockHeightsAndExtendTx tx ∅ in Ok tx.

End Extend.

(** * Theorems *)
Section Spec.
  Context {BT : BtTx} {PS : ParentStore} {PSS : ParentStoreSpec PS}.

(** What a prefetched parent says of an input, when it carries the parent's
    transaction. *)
Definition resolve_prefetched (prefetched : gmap Hash MetaData) (input : TxInput)
  : option (result (Z * TxInput)) :=
  match prefetched !! PreviousTxID input ≫= λ pf, (λ t, (pf, t)) <$> md_Tx pf with
  | None => None
  | Some (pf, ptx) => Some
      match Outputs ptx !! Z.to_nat (PreviousTxOutIndex input) with
      | Some (Some o) =>
          Ok (lowest_height (BlockHeights pf), with_output input (Satoshis o) (LockingScript o))
      | _ => Err (err ERR_TX_INVALID)
      end
  end.

(** What the ledger says of an input. *)
Definition resolve_stored (input : TxInput) : result (Z * TxInput) :=
  let a := parent_answer (outpoint input) in
  let? h := answer_height a in
  Ok (h, with_output input (po_Satoshis a) (po_LockingScript a)).

(** The reference: every input is resolved by its outpoint alone. *)
Definition resolve (prefetched : gmap Hash MetaData) (input : TxInput) : result (Z * TxInput) :=
  default (resolve_stored input) (resolve_prefetched prefetched input).

(** Slots of [s'] against those of [s]: the same sizes, and equal off [ks]. *)
Definition same_off (ks : list nat) (s s' : pass) : Prop :=
  length (p_inputs s') = length (p_inputs s) ∧
  length (p_heights s') = length (p_heights s) ∧
  ∀ k, k ∉ ks → p_inputs s' !! k = p_inputs s !! k ∧ p_heights s' !! k = p_heights s !! k.

Definition slot (s : pass) (k : nat) (h : Z) (x : TxInput) : Prop :=
  p_inputs s !! k = Some x ∧ p_heights s !! k = Some h.

(** Answers are taken by position, whatever they are. *)
Lemma from_answers_spec (answers : list ParentOutput) (pending : list (nat * Outpoint)) (s s' : pass) :
  length answers = length pending →
  NoDup (fst <$> pending) → length (p_heights s) = length (p_inputs s) →
  from_answers answers pending s = Ok s' →
  same_off (fst <$> pending) s s' ∧
  ∀ j k op a x, pending !! j = Some (k, op) → answers !! j = Some a → p_inputs s !! k = Some x →
    ∃ h, answer_height a = Ok h ∧ slot s' k h (with_output x (po_Satoshis a) (po_LockingScript a)).
Proof.
  revert answers s. induction pending as [|[i op] pending IH]; intros [|a answers] s Hl Hnd Hlen H; try done.
  { injection H as <-. split; [by repeat split|]. by intros j k op a x Hin. }
  rewrite !fmap_cons in *. cbn [fst snd from_answers] in *.
  apply NoDup_cons in Hnd as [Hi Hnd]. apply bindR_Ok in H as (h & Hh & H).
  apply IH in H as ((H1 & H2 & H3) & H4);
    [|by injection Hl|done|by cbn [p_inputs p_heights]; rewrite length_insert, length_alter].
  cbn [p_inputs p_heights] in *. rewrite length_alter, length_insert in *. split.
  - split_and!; [done|done|]. intros k [Hne Hk]%not_elem_of_cons. destruct (H3 k Hk) as [-> ->].
    by rewrite list_lookup_alter_ne, list_lookup_insert_ne by done.
  - intros [|j] k op' a' x Hin Ha Hx.
    + injection Hin as -> ->. injection Ha as ->.
      exists h. split; [done|]. destruct (H3 k Hi) as [E1 E2]. split; [rewrite E1|rewrite E2].
      * by rewrite list_lookup_alter_eq, Hx.
      * apply list_lookup_insert_eq. rewrite Hlen. by apply lookup_lt_Some in Hx.
    + cbn in Hin, Ha. apply (H4 j k op' a' x); [done|done|]. rewrite list_lookup_alter_ne; [done|].
      intros ->. apply Hi. apply (list_elem_of_fmap_2 fst _ (k, op')). by eapply list_elem_of_lookup_2.
Qed.

(** The state after the first loop has handled the inputs from [i] on. *)
Definition collected (prefetched : gmap Hash MetaData) (i : nat) (todo : list TxInput)
    (s s' : pass) (new : list (nat * Outpoint)) : Prop :=
  p_pending s' = p_pending s ++ new ∧
  NoDup (fst <$> new) ∧ Forall (λ k, i ≤ k)%nat (fst <$> new) ∧
  length (p_inputs s') = length (p_inputs s) ∧
  length (p_heights s') = length (p_heights s) ∧
  (∀ k, (k < i)%nat → p_inputs s' !! k = p_inputs s !! k ∧ p_heights s' !! k = p_heights s !! k) ∧
  ∀ j x, todo !! j = Some x →
    match resolve_prefetched prefetched x with
    | Some r => ((i + j)%nat ∉ fst <$> new) ∧ ∃ h y, r = Ok (h, y) ∧ slot s' (i + j) h y
    | None => ((i + j)%nat, outpoint x) ∈ new ∧ p_inputs s' !! (i + j)%nat = Some x
    end.

Lemma from_prefetched_spec (prefetched : gmap Hash MetaData) (i : nat) (todo : list TxInput)
    (s s' : pass) :
  (∀ j x, todo !! j = Some x → p_inputs s !! (i + j)%nat = Some x) →
  length (p_heights s) = length (p_inputs s) →
  from_prefetched prefetched i todo s = Ok s' →
  ∃ new, collected prefetched i todo s s' new.
Proof.
  revert i s. induction todo as [|x todo IH]; intros i s Htodo Hlen H.
  { injection H as <-. exists []. unfold collected. rewrite app_nil_r.
    split_and!; [done|constructor|constructor|done|done|done|]. intros j x Hj. by rewrite lookup_nil in Hj. }
  apply (forall_lookup_cons (λ k x, p_inputs s !! k = Some x)) in Htodo as [Hx Htodo].
  assert (Hlt : (i < length (p_inputs s))%nat) by (by apply lookup_lt_Some in Hx).
  cbn [from_prefetched] in H. unfold collected.
  setoid_rewrite (forall_lookup_cons (λ k x, match resolve_prefetched prefetched x with
    | Some r => (k ∉ fst <$> _) ∧ ∃ h y, r = Ok (h, y) ∧ slot s' k h y
    | None => (k, outpoint x) ∈ _ ∧ p_inputs s' !! k = Some x end)).
  unfold resolve_prefetched at 1.
  destruct (prefetched !! PreviousTxID x ≫= _) as [[pf ptx]|].
  - apply bindR_Ok in H as ([ins hs] & Hext & H). unfold extendInputFromPrefetchedParent in Hext.
    destruct (Outputs ptx !! _) as [[o|]|]; [|done..]. injection Hext as <- <-.
    apply IH in H as (new & Hp & Hnd & Hge & Hli & Hlh & Hold & Hnew); cbn [p_inputs p_heights p_pending] in *.
    2: { intros j y Hj. rewrite list_lookup_insert_ne by lia. by apply Htodo. }
    2: { by rewrite !length_insert. }
    rewrite length_insert in Hli. rewrite length_insert in Hlh. exists new. destruct (Hold i ltac:(lia)) as [E1 E2].
    split_and!; try done.
    + eapply Forall_impl; [exact Hge|simpl; lia].
    + intros k Hk. destruct (Hold k ltac:(lia)) as [-> ->]. by rewrite !list_lookup_insert_ne by lia.
    + intros Hin. rewrite Forall_forall in Hge. specialize (Hge _ Hin). simpl in Hge. lia.
    + eexists _, _. split; [done|]. split; [rewrite E1|rewrite E2]; apply list_lookup_insert_eq; lia.
  - apply IH in H as (new & Hp & Hnd & Hge & Hli & Hlh & Hold & Hnew); cbn [p_inputs p_heights p_pending] in *;
      [|done|done].
    destruct (Hold i ltac:(lia)) as [E1 E2].
    assert (Hi : i ∉ fst <$> new).
    { intros Hin. rewrite Forall_forall in Hge. specialize (Hge _ Hin). simpl in Hge. lia. }
    exists ((i, outpoint x) :: new). rewrite fmap_cons. cbn [fst]. split_and!; try done.
    + by rewrite Hp, <- app_assoc.
    + by apply NoDup_cons.
    + constructor; [lia|]. eapply Forall_impl; [exact Hge|simpl; lia].
    + intros k Hk. apply Hold. lia.
    + rewrite elem_of_cons. by left.
    + by rewrite E1.
    + intros j y Hj. specialize (Hnew j y Hj). destruct (resolve_prefetched prefetched y).
      * destruct Hnew as [Hn ?]. split; [|done]. rewrite not_elem_of_cons. split; [lia|done].
      * rewrite elem_of_cons. naive_solver.
Qed.

(** Nothing stops either loop but an input that does not resolve. *)
Lemma from_prefetched_total (prefetched : gmap Hash MetaData) (i : nat) (todo : list TxInput) (s : pass) :
  Forall (λ x, is_ok (resolve prefetched x) = true) todo →
  ∃ s', from_prefetched prefetched i todo s = Ok s'.
Proof.
  intros Hall. revert i s. induction Hall as [|x todo Hx Hall IH]; intros i s; [by eexists|].
  cbn [from_prefetched]. unfold resolve, resolve_prefetched in Hx.
  destruct (prefetched !! PreviousTxID x ≫= _) as [[pf ptx]|]; [|apply IH].
  unfold extendInputFromPrefetchedParent. simpl in Hx.
  destruct (Outputs ptx !! _) as [[o|]|]; [|done..]. apply IH.
Qed.

Lemma from_answers_total (pending : list (nat * Outpoint)) (s : pass) :
  Forall (λ op, is_ok (answer_height (parent_answer op)) = true) (snd <$> pending) →
  ∃ s', from_answers (parent_answer <$> (snd <$> pending)) pending s = Ok s'.
Proof.
  revert s. induction pending as [|[i op] pending IH]; intros s Hall; [by eexists|].
  rewrite !fmap_cons in *. apply Forall_cons in Hall as [Hop Hall]. cbn [from_answers fst snd] in *.
  destruct (answer_height _); [|done]. by apply IH.
Qed.

(** A result of the whole call. *)
Definition resolved (prefetched : gmap Hash MetaData) (tx : Tx) (hs : list Z) (tx' : Tx) : Prop :=
  ∃ ins, tx' = set_inputs tx ins ∧ length hs = length (Inputs tx) ∧
    length ins = length (Inputs tx) ∧
    ∀ i x, Inputs tx !! i = Some x → ∃ h y,
      resolve prefetched x = Ok (h, y) ∧ hs !! i = Some h ∧ ins !! i = Some y.

(** What a call makes of the questions [ask] and the store's [answers]: an input is
    written from its prefetched parent, or from the answer to the question asked for it. *)
Definition extended_by (prefetched : gmap Hash MetaData) (tx : Tx) (ask : list (nat * Outpoint))
    (answers : list ParentOutput) (hs : list Z) (tx' : Tx) : Prop :=
  ∃ ins, tx' = set_inputs tx ins ∧ length hs = length (Inputs tx) ∧ length ins = length (Inputs tx) ∧
    ∀ i x, Inputs tx !! i = Some x → ∃ h y, hs !! i = Some h ∧ ins !! i = Some y ∧
      match resolve_prefetched prefetched x with
      | Some r => r = Ok (h, y)
      | None => ∃ j a, ask !! j = Some (i, outpoint x) ∧ answers !! j = Some a ∧
          answer_height a = Ok h ∧ y = with_output x (po_Satoshis a) (po_LockingScript a)
      end.

Definition first_pass (prefetched : gmap Hash MetaData) (tx : Tx) : result pass :=
  from_prefetched prefetched 0 (Inputs tx) (mkPass (Inputs tx) (replicate (length (Inputs tx)) 0) []).

Lemma extend_positional (tx : Tx) (prefetched : gmap Hash MetaData) (hs : list Z) (tx' : Tx) :
  getUtxoBlockHeightsAndExtendTx tx prefetched = Ok (hs, tx') →
  ∃ s answers, first_pass prefetched tx = Ok s ∧
    (if bool_decide (p_pending s = []) then answers = []
     else ParentOutputsForValidation (snd <$> p_pending s) = Ok answers) ∧
    length answers = length (p_pending s) ∧
    extended_by prefetched tx (p_pending s) answers hs tx'.
Proof.
  unfold getUtxoBlockHeightsAndExtendTx. fold (first_pass prefetched tx). intros H.
  apply bindR_Ok in H as (s & Hs & H). pose proof Hs as Hs0.
  apply from_prefetched_spec in Hs as (new & Hp & Hnd & _ & Hli & Hlh & _ & Hnew);
    [|done|apply length_replicate]. cbn [p_inputs p_heights p_pending app] in *.
  rewrite length_replicate in Hlh. rewrite Hp in H.
  assert (Hfin : ∃ answers s', hs = p_heights s' ∧ tx' = set_inputs tx (p_inputs s') ∧
    (if bool_decide (new = []) then answers = [] else ParentOutputsForValidation (snd <$> new) = Ok answers) ∧
    length answers = length new ∧ from_answers answers new s = Ok s').
  { case_bool_decide as He.
    - injection H as <- <-. exists [], s. by rewrite He.
    - apply bindR_Ok in H as (l & Hl & H). case_bool_decide as Hlen; [|done].
      destruct (ParentOutputsForValidation _) as [l0|] eqn:Hpo; [|done]. injection Hl as ->.
      apply bindR_Ok in H as (s' & Hs' & H). injection H as <- <-. by exists l, s'. }
  destruct Hfin as (answers & s' & -> & -> & Hask & Hlen & Hs').
  apply from_answers_spec in Hs' as [(L1 & L2 & Hoff) Hin]; [|done|done|congruence].
  exists s, answers. rewrite Hp. split_and!; [done|done|done|].
  exists (p_inputs s'). split_and!; [done|congruence|congruence|].
  intros i x Hx. specialize (Hnew i x Hx).
  destruct (resolve_prefetched prefetched x) as [r|].
  - destruct Hnew as (Hni & h & y & -> & Hy & Hh). destruct (Hoff _ Hni) as [E1 E2].
    exists h, y. simpl in *. by rewrite E1, E2.
  - destruct Hnew as [[j Hj]%list_elem_of_lookup Hx'].
    destruct (lookup_lt_is_Some_2 answers j) as [a Ha]; [rewrite Hlen; by eapply lookup_lt_Some|].
    destruct (Hin _ _ _ _ _ Hj Ha Hx') as (h & Hh & Hy1 & Hy2).
    eexists h, _. split_and!; [done|done|]. by exists j, a.
Qed.

Lemma extend_resolved (tx : Tx) (prefetched : gmap Hash MetaData) (hs : list Z) (tx' : Tx) :
  getUtxoBlockHeightsAndExtendTx tx prefetched = Ok (hs, tx') → resolved prefetched tx hs tx'.
Proof.
  intros (s & answers & _ & Hask & Hlen & ins & -> & L1 & L2 & Hin)%extend_positional.
  exists ins. split_and!; [done..|]. intros i x Hx. destruct (Hin i x Hx) as (h & y & Hh & Hy & Hr).
  exists h, y. split; [|done]. unfold resolve. destruct (resolve_prefetched prefetched x) as [r|]; [done|].
  destruct Hr as (j & a & Hj & Ha & Hah & ->).
  case_bool_decide as He; [by rewrite He in Hj|].
  apply answers_positional in Hask as ->.
  apply list_lookup_fmap_Some in Ha as (op & -> & Hop). apply list_lookup_fmap_Some in Hop as (q & -> & Hq).
  pose proof (eq_trans (eq_sym Hj) Hq) as [= <-].
  simpl. unfold resolve_stored. cbn [snd] in *. by rewrite Hah.
Qed.

Lemma from_prefetched_pending (P : Outpoint → Prop) (prefetched : gmap Hash MetaData) (i : nat)
    (todo : list TxInput) (s s' : pass) :
  from_prefetched prefetched i todo s = Ok s' →
  Forall P (snd <$> p_pending s) →
  Forall (λ x, resolve_prefetched prefetched x = None → P (outpoint x)) todo →
  Forall P (snd <$> p_pending s').
Proof.
  revert i s. induction todo as [|x todo IH]; intros i s H Hs Htodo; [by injection H as <-|].
  apply Forall_cons in Htodo as [Hx Htodo]. cbn [from_prefetched] in H.
  unfold resolve_prefetched in Hx. destruct (prefetched !! PreviousTxID x ≫= _) as [[pf ptx]|].
  - apply bindR_Ok in H as ([ins hs] & _ & H). by eapply IH.
  - eapply IH; [exact H| |done]. cbn [p_pending]. rewrite fmap_app. apply Forall_app. split; [done|].
    constructor; [by apply Hx|constructor].
Qed.

Lemma resolve_unprefetched prefetched x : resolve_prefetched prefetched x = None →
  is_ok (resolve prefetched x) = true → is_ok (answer_height (parent_answer (outpoint x))) = true.
Proof.
  unfold resolve. intros ->. simpl. unfold resolve_stored. by destruct (answer_height _).
Qed.

(** Previous outputs are never taken from the submitter.  A successful call
    leaves every input with the height, value and script that its prefetched
    parent or the store's ledger gives for its outpoint, in input order and
    changing nothing else; the value and script the transaction arrived with
    play no part; and when every outpoint resolves and the store answers, the
    call succeeds. *)
Theorem getUtxoBlockHeightsAndExtendTx_spec (tx : Tx) (prefetched : gmap Hash MetaData) :
  (∀ hs tx', getUtxoBlockHeightsAndExtendTx tx prefetched = Ok (hs, tx') →
     resolved prefetched tx hs tx') ∧
  (∀ x satoshis script, resolve prefetched (with_output x satoshis script) = resolve prefetched x) ∧
  ((∀ ops, is_ok (ParentOutputsForValidation ops) = true) →
   Forall (λ x, is_ok (resolve prefetched x) = true) (Inputs tx) →
   ∃ hs tx', getUtxoBlockHeightsAndExtendTx tx prefetched = Ok (hs, tx')).
Proof.
  split; [apply extend_resolved|]. split; [done|]. intros Hstore Hall.
  unfold getUtxoBlockHeightsAndExtendTx. destruct (from_prefetched_total prefetched 0 (Inputs tx)
    (mkPass (Inputs tx) (replicate (length (Inputs tx)) 0) []) Hall) as [s Hs].
  rewrite Hs. cbn [bindR]. case_bool_decide; [eauto|].
  specialize (Hstore (snd <$> p_pending s)).
  destruct (ParentOutputsForValidation _) as [l|] eqn:Hl; [|done]. cbn [wrapR bindR].
  apply answers_positional in Hl as ->. rewrite bool_decide_true by (by rewrite !length_fmap).
  destruct (from_answers_total (p_pending s) s) as [s' ->]; [|cbn [bindR]; eauto].
  eapply (from_prefetched_pending (λ op, is_ok (answer_height (parent_answer op)) = true));
    [exact Hs|constructor|].
  eapply Forall_impl; [exact Hall|]. intros x Hx Hn. by apply (resolve_unprefetched prefetched).
Qed.

End Spec.

(** ** Concrete inputs *)

(** A ledger in which output 0 of any transaction is mined at height 7 and
    output 1 is not mined. *)
Definition ex_answer (op : Outpoint) : ParentOutput :=
  if snd op =? 0 then mkParentOutput ParentOutputMined 600 (Some [Byte.x51]) 7 None
  else mkParentOutput ParentOutputNotMined 800 (Some [Byte.x52]) 0 None.

Definition ex_parents : ParentStore :=
  {| ParentOutputsForValidation ops := Ok (ex_answer <$> ops) |}.

Definition ex_parents_spec : ParentStoreSpec ex_parents.
Proof. refine {| parent_answer := ex_answer |}. by intros ops l [= <-]. Defined.

Lemma getUtxoBlockHeightsAndExtendTx_spec_witness :
  resolved (PSS := ex_parents_spec) ∅ (ex_tx 1 0) [7; 0xFFFFFFFF]
    (set_inputs (ex_tx 1 0)
       [with_output (ex_input 0 700 5) 600 (Some [Byte.x51]);
        with_output (ex_input 1 50 (2^22 + 3)) 800 (Some [Byte.x52])]).
Proof.
  apply (proj1 (getUtxoBlockHeightsAndExtendTx_spec (PSS := ex_parents_spec) (ex_tx 1 0) ∅)).
  vm_compute. reflexivity.
Defined.
