(* ===== verification/Validator.v ===== *)
(** * The validator's checks around the transaction rules

    services/validator/Validator.go: [selectFinalityComparisonTime],
    [precheckTransaction], [EnsureMTPLoaded], [readMTPsLocked] and
    [validateTransaction]; check_extended.go: [CheckExtendedTransaction];
    stored_at_height.go: [CheckStoredTxAtHeight] and [InputParents].  The RPC to
    the blockchain service is an argument; loaders are serialised by
    [mtpLoadMu], so a load is one step between the two critical sections. *)

From S2P Require Import Prelude External NBits BlockHeader BlockReward TxRules Extend.

(** utxo.BlockState *)
Record BlockState := mkBlockState { bs_Height : Z; bs_MedianTime : Z }.

Record mtpLoadWindow := mkWindow { w_From : Z; w_To : Z }.

(** The fields of [Validator] its checks read. *)
Record ValidatorState := mkValidator {
  v_tx : TxValidator;                       (* [txValidator]; its params are the settings' *)
  v_supportsOutpointOnly : bool;            (* [utxoStore.SupportsOutpointOnlySpend()] *)
  v_hasClient : bool;                       (* [blockchainClient != nil] *)
  v_state : BlockState;                     (* [GetBlockState()] *)
  mtpStore : list Z;
  mtpLoadWindows : list mtpLoadWindow;
}.

Definition v_params (v : ValidatorState) : ChainParams := tv_params (v_tx v).

(** ** Which time finality is compared with *)
Definition selectFinalityComparisonTime (opts : Options) (blockHeight csvHeight : Z)
    (blockState : BlockState) : result (Z * bool) :=
  if negb (SkipPolicyChecks opts) then
    if bs_MedianTime blockState =? 0 then Err (err ERR_PROCESSING)
    else Ok (bs_MedianTime blockState, false)
  else if blockHeight <? csvHeight then
    if CandidateBlockTime opts =? 0 then Ok (0, true)
    else Ok (CandidateBlockTime opts, false)
  else
    if CandidateParentMedianTime opts =? 0 then Err (err ERR_PROCESSING)
    else Ok (CandidateParentMedianTime opts, false).

Section Checks.
  Context {SC : SafeConversion} {BT : BtTx} {BDK : BdkEngine} {PS : ParentStore}.

Definition precheckTransaction (v : ValidatorState) (tx : Tx) (blockHeight : Z)
    (blockState : BlockState) (opts : Options) : result unit :=
  let highest := HighestCheckpointHeight (Checkpoints (v_params v)) in
  if IsCoinbase tx then Err (err ERR_PROCESSING) else
  if OutpointOnlySpend opts && negb (SkipScriptValidation opts) then Err (err ERR_PROCESSING) else
  if OutpointOnlySpend opts && (blockHeight >? highest) then Err (err ERR_PROCESSING) else
  if OutpointOnlySpend opts && (bs_Height blockState >? highest) then Err (err ERR_PROCESSING) else
  if OutpointOnlySpend opts && negb (v_supportsOutpointOnly v) then Err (err ERR_PROCESSING) else
  let? (comparisonTime, skipFinality) :=
    selectFinalityComparisonTime opts blockHeight (CSVHeight (v_params v)) blockState in
  if negb skipFinality
  then wrapR ERR_UTXO_NON_FINAL (IsTransactionFinal tx blockHeight comparisonTime)
  else Ok ().

(** ** The in-memory median times *)
Definition mtpReorgOverlap : Z := 12.

Definition store_len (v : ValidatorState) : Z := u32 (Z.of_nat (length (mtpStore v))).

Definition with_mtpStore (v : ValidatorState) (store : list Z) : ValidatorState :=
  mkValidator (v_tx v) (v_supportsOutpointOnly v) (v_hasClient v) (v_state v) store
    (mtpLoadWindows v).

(** Fast path: covered, and in no window a loader is about to patch. *)
Definition covered_and_settled (v : ValidatorState) (needed : Z) : bool :=
  (store_len v >? needed) &&
  negb (existsb (λ w, (needed >=? w_From w) && (needed <? w_To w)) (mtpLoadWindows v)).

(** The patch of the overlap: an entry that differs is overwritten. *)
Fixpoint patch_overlap (n : nat) (i fromHeight : Z) (fetched store : list Z) : result (list Z) :=
  match n with
  | O => Ok store
  | S n =>
      match store !! Z.to_nat i, fetched !! Z.to_nat (i - fromHeight) with
      | Some old, Some new =>
          patch_overlap n (i + 1) fromHeight fetched
            (if negb (old =? new) then <[Z.to_nat i := new]> store else store)
      | _, _ => Err panic
      end
  end.

(** [fetch] is [blockchainClient.GetMedianTimePastRange]; the window published
    for the time of the call is removed on every return. *)
Definition EnsureMTPLoaded (fetch : Z → Z → result (list Z)) (v : ValidatorState)
    (blockHeight : Z) : ValidatorState * result unit :=
  let csvHeight := CSVHeight (v_params v) in
  if negb (v_hasClient v) || (blockHeight =? 0) || (blockHeight <? csvHeight) then (v, Ok ()) else
  let needed := blockHeight in
  if covered_and_settled v needed then (v, Ok ()) else
  let currentLen := store_len v in
  if currentLen >? needed then (v, Ok ()) else
  let fromHeight := if currentLen >? mtpReorgOverlap then u32 (currentLen - mtpReorgOverlap) else 0 in
  match wrapR ERR_PROCESSING (fetch fromHeight needed) with
  | Err e => (v, Err e)
  | Ok fetched =>
      let expected := u32 (u32 (needed - fromHeight) + 1) in
      if negb (u32 (Z.of_nat (length fetched)) =? expected) then (v, Err (err ERR_PROCESSING)) else
      match patch_overlap (Z.to_nat (currentLen - fromHeight)) fromHeight fromHeight fetched (mtpStore v) with
      | Err e => (v, Err e)
      | Ok store =>
          (with_mtpStore v (store ++ drop (Z.to_nat (currentLen - fromHeight)) fetched), Ok ())
      end
  end.

Definition readMTPsLocked (v : ValidatorState) (blockMTPHeight : Z) (utxoHeights : list Z)
  : result (list Z * Z) :=
  if store_len v <=? blockMTPHeight then Err (err ERR_PROCESSING) else
  let storeLen := store_len v in
  match mtpStore v !! Z.to_nat blockMTPHeight with
  | None => Err panic
  | Some blockMTP =>
      Ok (map (λ h, if h >=? storeLen then blockMTP
                    else default 0 (mtpStore v !! Z.to_nat h)) utxoHeights, blockMTP)
  end.

(** ** The two phases *)

(** [isExtended] is [tx.IsExtended()] at the time of the call. *)
Definition validateTransaction (v : ValidatorState) (tx : Tx) (isExtended : bool)
    (blockHeight : Z) (utxoHeights : list Z) (opts : Options) : result unit :=
  let? tx := if negb (OutpointOnlySpend opts) && negb isExtended
             then extendTransaction tx else Ok tx in
  let utxoHeights :=
    if UnconfirmedParentsAtCandidateHeight opts
    then resolveUnconfirmedParentsAtCandidateHeight utxoHeights blockHeight else utxoHeights in
  let? _ := ValidateTransaction (v_tx v) tx blockHeight utxoHeights (Some opts) in
  if OutpointOnlySpend opts || negb (SkipPolicyChecks opts) || negb (v_hasClient v) ||
     (blockHeight <? CSVHeight (v_params v)) then Ok () else
  let? (utxoMTPs, blockMTP) := readMTPsLocked v blockHeight utxoHeights in
  ValidateBIP68 (v_tx v) tx blockHeight utxoHeights utxoMTPs blockMTP.

Definition CheckExtendedTransaction (v : ValidatorState) (tx : Tx) (blockHeight : Z)
    (utxoHeights : list Z) (opts : Options) : result unit :=
  if OutpointOnlySpend opts then Err (err ERR_PROCESSING) else
  if negb (bool_decide (length utxoHeights = length (Inputs tx))) then Err (err ERR_PROCESSING) else
  if existsb (λ i, bool_decide (PreviousTxScript i = None)) (Inputs tx) then Err (err ERR_PROCESSING) else
  let blockState := v_state v in
  let blockHeight := if blockHeight =? 0 then u32 (bs_Height blockState + 1) else blockHeight in
  let? _ := precheckTransaction v tx blockHeight blockState opts in
  wrapR ERR_PROCESSING (validateTransaction v tx true blockHeight utxoHeights opts).

End Checks.

(** ** Checks on a stored transaction at another height *)
Record InputParent := mkInputParent { ip_IsCoinbase : bool; ip_Height : Z }.

Definition immatureCoinbase (parent : InputParent) (blockHeight : Z) (params : ChainParams)
  : result unit :=
  let maturity := u32 (CoinbaseMaturity params) in
  if ip_IsCoinbase parent && (blockHeight <? u32 (ip_Height parent + maturity))
  then Err (err ERR_TX_COINBASE_IMMATURE) else Ok ().

Fixpoint parents_mature (parents : list InputParent) (blockHeight : Z) (params : ChainParams)
  : result unit :=
  match parents with
  | [] => Ok ()
  | parent :: parents =>
      let? _ := wrapR ERR_TX_INVALID (immatureCoinbase parent blockHeight params) in
      parents_mature parents blockHeight params
  end.

Definition CheckStoredTxAtHeight (tx : Tx) (parents : list InputParent) (blockHeight : Z)
    (params : ChainParams) (opts : Options) : result unit :=
  if negb (bool_decide (length parents = length (Inputs tx))) then Err (err ERR_PROCESSING) else
  let? _ := parents_mature parents blockHeight params in
  let? (comparisonTime, skipFinality) :=
    selectFinalityComparisonTime opts blockHeight (CSVHeight params) (mkBlockState 0 0) in
  if negb skipFinality
  then wrapR ERR_TX_INVALID (wrapR ERR_UTXO_NON_FINAL
         (IsTransactionFinal tx blockHeight comparisonTime))
  else Ok ().

(** [get] is [utxoStore.Get] with the coinbase flag and the block heights. *)
Definition readInputParent (get : Hash → result (bool * list Z)) (hash : Hash) : result InputParent :=
  let? (isCoinbase, heights) := get hash in
  match heights with
  | h :: hs => Ok (mkInputParent isCoinbase (foldl Z.min h hs))
  | [] => if isCoinbase : bool then Err (err ERR_PROCESSING) else Ok (mkInputParent false 0)
  end.

Fixpoint input_parents (get : Hash → result (bool * list Z)) (read : gmap Hash InputParent)
    (ins : list TxInput) : result (list InputParent) :=
  match ins with
  | [] => Ok []
  | input :: ins =>
      let hash := PreviousTxID input in
      let? (parent, read) :=
        match read !! hash with
        | Some parent => Ok (parent, read)
        | None => let? parent := wrapR ERR_PROCESSING (readInputParent get hash) in
                  Ok (parent, <[hash := parent]> read)
        end in
      let? parents := input_parents get read ins in
      Ok (parent :: parents)
  end.

Definition InputParents (get : Hash → result (bool * list Z)) (tx : Tx) : result (list InputParent) :=
  input_parents get ∅ (Inputs tx).

(** * Theorems *)

(** ** Finality in its three contexts *)

(** The time the transaction's lock is compared with, 0 when the caller or the
    store has none: the tip's median time for a submitted transaction, the
    block's own time before CSV, its parent's median time from CSV on. *)
Definition finality_time (opts : Options) (height csv : Z) (bs : BlockState) : Z :=
  if SkipPolicyChecks opts
  then if height <? csv then CandidateBlockTime opts else CandidateParentMedianTime opts
  else bs_MedianTime bs.

(** Finality is decided against that time; only a block before CSV whose time the
    caller did not supply is let through unchecked. *)
Definition finality_rule (opts : Options) (height csv : Z) (bs : BlockState) (tx : Tx) : Prop :=
  (SkipPolicyChecks opts = true ∧ height < csv ∧ CandidateBlockTime opts = 0) ∨
  (finality_time opts height csv bs ≠ 0 ∧ Inputs tx ≠ [] ∧
   is_final tx height (finality_time opts height csv bs)).

Lemma final_iff (tx : Tx) (height time : Z) : 0 ≤ LockTime tx →
  IsTransactionFinal tx height time = Ok () ↔ Inputs tx ≠ [] ∧ is_final tx height time.
Proof.
  intros Hl. destruct (decide (Inputs tx = [])) as [Hn|Hn].
  - unfold IsTransactionFinal. rewrite Hn. simpl. split; [done|]. naive_solver.
  - rewrite IsTransactionFinal_eq by done. case_decide; naive_solver.
Qed.

(** One shape for both callers: select the time, then check. *)
Lemma finality_step (opts : Options) (height csv : Z) (bs : BlockState) (tx : Tx)
    (check : Z → result unit) :
  0 ≤ LockTime tx →
  (∀ t, check t = Ok () ↔ IsTransactionFinal tx height t = Ok ()) →
  (let? (comparisonTime, skipFinality) := selectFinalityComparisonTime opts height csv bs in
   if negb skipFinality then check comparisonTime else Ok ()) = Ok () ↔
  finality_rule opts height csv bs tx.
Proof.
  intros Hl Hc. unfold selectFinalityComparisonTime, finality_rule, finality_time.
  setoid_rewrite (final_iff tx height _ Hl) in Hc.
  destruct (SkipPolicyChecks opts); cbn [negb].
  - destruct (Z.ltb_spec height csv).
    + destruct (Z.eqb_spec (CandidateBlockTime opts) 0); cbn [bindR negb]; [naive_solver|].
      rewrite Hc. naive_solver.
    + destruct (Z.eqb_spec (CandidateParentMedianTime opts) 0); cbn [bindR negb];
        [naive_solver lia|]. rewrite Hc. naive_solver lia.
  - destruct (Z.eqb_spec (bs_MedianTime bs) 0); cbn [bindR negb]; [naive_solver|].
    rewrite Hc. naive_solver.
Qed.

Lemma parents_mature_Ok (parents : list InputParent) (height : Z) (p : ChainParams) :
  parents_mature parents height p = Ok () ↔
  Forall (λ q, ip_IsCoinbase q = true → u32 (ip_Height q + u32 (CoinbaseMaturity p)) ≤ height) parents.
Proof.
  induction parents as [|q parents IH]; cbn [parents_mature]; [by split|].
  rewrite Forall_cons, <- IH. unfold immatureCoinbase.
  destruct (ip_IsCoinbase q); cbn [andb]; [|cbn [wrapR bindR]; naive_solver].
  destruct (Z.ltb_spec height (u32 (ip_Height q + u32 (CoinbaseMaturity p)))); cbn [wrapR bindR];
    naive_solver lia.
Qed.

(** A stored transaction is admitted into a block of another height exactly
    when every coinbase it spends has matured there and it is final there
    against the block's own times; a breach makes it invalid. *)
Theorem CheckStoredTxAtHeight_spec (tx : Tx) (parents : list InputParent) (height : Z)
    (p : ChainParams) (opts : Options) :
  0 ≤ LockTime tx → 0 ≤ CoinbaseMaturity p →
  Forall (λ q, 0 ≤ ip_Height q ∧ ip_Height q + CoinbaseMaturity p < 2^32) parents →
  length parents = length (Inputs tx) → SkipPolicyChecks opts = true →
  (CheckStoredTxAtHeight tx parents height p opts = Ok () ↔
     Forall (λ q, ip_IsCoinbase q = true → ip_Height q + CoinbaseMaturity p ≤ height) parents ∧
     finality_rule opts height (CSVHeight p) (mkBlockState 0 0) tx) ∧
  (∀ e, CheckStoredTxAtHeight tx parents height p opts = Err e →
     err_code e = ERR_TX_INVALID ∨
     (CSVHeight p ≤ height ∧ CandidateParentMedianTime opts = 0 ∧ e = err ERR_PROCESSING)).
Proof.
  intros Hl Hm Hq Hlen Hskip. unfold CheckStoredTxAtHeight.
  rewrite bool_decide_true by done. cbn [negb]. split.
  - rewrite <- (finality_step opts height (CSVHeight p) (mkBlockState 0 0) tx
      (λ t, wrapR ERR_TX_INVALID (wrapR ERR_UTXO_NON_FINAL (IsTransactionFinal tx height t))));
      [|done|intros t; by rewrite !wrapR_Ok].
    rewrite bindR_Ok.
    assert (Heq : parents_mature parents height p = Ok () ↔
      Forall (λ q, ip_IsCoinbase q = true → ip_Height q + CoinbaseMaturity p ≤ height) parents).
    { rewrite parents_mature_Ok, !Forall_forall. rewrite Forall_forall in Hq.
      split; intros H q Hin Hc; specialize (H q Hin Hc); specialize (Hq q Hin);
        revert H; rewrite (u32_small (CoinbaseMaturity p)), u32_small by lia; done. }
    rewrite <- Heq. split; [intros ([] & ? & ?); done|]. intros [??]. by exists ().
  - intros e [He|([] & _ & He)]%bindR_Err.
    { left. clear -He. revert He. induction parents as [|q parents IH]; cbn [parents_mature]; [done|].
      destruct (immatureCoinbase q height p); cbn [wrapR bindR]; [done|]. by intros [= <-]. }
    unfold selectFinalityComparisonTime in He. rewrite Hskip in He. cbn [negb] in He.
    destruct (Z.ltb_spec height (CSVHeight p)).
    + left. destruct (CandidateBlockTime opts =? 0); cbn [bindR negb] in He; [done|].
      destruct (IsTransactionFinal _ _ _); [done|]. by injection He as <-.
    + destruct (Z.eqb_spec (CandidateParentMedianTime opts) 0); cbn [bindR negb] in He.
      * right. injection He as <-. done.
      * left. destruct (IsTransactionFinal _ _ _); [done|]. by injection He as <-.
Qed.

(** ** The median times kept in memory *)
(** Patching [n] entries from [i] on, when the fetched values start at [from]. *)
Lemma patch_overlap_spec (M : Z → Z) (n : nat) (i from count : Z) (store : list Z) :
  0 ≤ from ≤ i → i + Z.of_nat n ≤ Z.of_nat (length store) → i + Z.of_nat n - from ≤ count →
  ∃ store', patch_overlap n i from (M <$> seqZ from count) store = Ok store' ∧
    length store' = length store ∧
    ∀ k, store' !! k = if bool_decide (i ≤ Z.of_nat k < i + Z.of_nat n)
                       then Some (M (Z.of_nat k)) else store !! k.
Proof.
  intros Hf. revert i Hf store. induction n as [|n IH]; intros i Hf store Hl Hc; cbn [patch_overlap].
  { exists store. split_and!; [done|done|]. intros k. by rewrite bool_decide_false by lia. }
  destruct (lookup_lt_is_Some_2 store (Z.to_nat i)) as [old Hold]; [lia|]. rewrite Hold.
  rewrite lookup_seqZ_fmap by lia.
  set (store1 := if negb _ then _ else _).
  assert (H1 : length store1 = length store ∧
    ∀ k, store1 !! k = if bool_decide (Z.of_nat k = i) then Some (M i) else store !! k).
  { subst store1. replace (from + Z.of_nat (Z.to_nat (i - from))) with i by lia.
    destruct (Z.eqb_spec old (M i)) as [->|Hne]; cbn [negb].
    - split; [done|]. intros k. case_bool_decide; [|done]. subst i. by rewrite Nat2Z.id in Hold.
    - split; [by rewrite length_insert|]. intros k. case_bool_decide.
      + subst i. rewrite Nat2Z.id. apply list_lookup_insert_eq. lia.
      + rewrite list_lookup_insert_ne; [done|]. lia. }
  destruct H1 as [Hlen Hk].
  destruct (IH (i + 1) ltac:(lia) store1 ltac:(lia) ltac:(lia)) as (store' & -> & Hl' & Hk').
  exists store'. split_and!; [done|congruence|]. intros k. rewrite Hk', Hk.
  repeat case_bool_decide; try done; try lia. by subst i.
Qed.

(** The store repairs itself.  Given the chain's median times by height, a
    load that extends the store fetches from twelve below its end, and if the
    entries older than that are still the chain's, the whole store is the
    chain's afterwards, up to and including the requested height; a failed load
    changes nothing. *)
Theorem EnsureMTPLoaded_spec (v : ValidatorState) (fetch : Z → Z → result (list Z)) (M : Z → Z)
    (blockHeight : Z) :
  let len := Z.of_nat (length (mtpStore v)) in
  v_hasClient v = true → 0 < blockHeight → CSVHeight (v_params v) ≤ blockHeight →
  blockHeight + 1 < 2^32 → len ≤ blockHeight →
  (∀ k, Z.of_nat k < len - 12 → mtpStore v !! k = Some (M (Z.of_nat k))) →
  (let from := Z.max 0 (len - 12) in
   fetch from blockHeight = Ok (M <$> seqZ from (blockHeight - from + 1)) →
   EnsureMTPLoaded fetch v blockHeight
     = (with_mtpStore v (M <$> seqZ 0 (blockHeight + 1)), Ok ())) ∧
  (∀ v' e, EnsureMTPLoaded fetch v blockHeight = (v', Err e) → v' = v).
Proof.
  intros len Hc Hpos Hcsv Hb Hlen Hold.
  assert (Hsl : store_len v = len) by (apply u32_small; lia).
  unfold EnsureMTPLoaded. rewrite Hc, (proj2 (Z.eqb_neq _ _)) by lia.
  rewrite (proj2 (Z.ltb_ge _ _)) by lia. cbn [negb orb].
  unfold covered_and_settled. rewrite Hsl.
  replace (len >? blockHeight) with false by lia. cbn [andb].
  assert (Hfrom : (if len >? mtpReorgOverlap then u32 (len - mtpReorgOverlap) else 0) = Z.max 0 (len - 12)).
  { unfold mtpReorgOverlap. destruct (Z.gtb_spec len 12); [rewrite u32_small by lia; lia|lia]. }
  rewrite Hfrom. split.
  - set (from := Z.max 0 (len - 12)). intros Hf. assert (Hr : 0 ≤ from ≤ len) by lia.
    rewrite Hf. cbn [wrapR]. rewrite length_fmap, length_seqZ.
    rewrite (u32_small (blockHeight - from)), (u32_small (blockHeight - from + 1)),
      u32_small, Z2Nat.id, Z.eqb_refl by lia. cbn [negb].
    destruct (patch_overlap_spec M (Z.to_nat (len - from)) from from (blockHeight - from + 1)
                (mtpStore v)) as (store' & -> & Hl & Hk); [lia|fold len; lia|lia|].
    f_equal. f_equal. apply list_eq. intros k.
    destruct (decide (k < length store')%nat) as [Hlt|Hge].
    + rewrite lookup_app_l, Hk, lookup_seqZ_fmap by (done || lia). rewrite Z.add_0_l.
      case_bool_decide; [done|]. apply Hold. lia.
    + rewrite lookup_app_r, lookup_drop by lia.
      destruct (decide (Z.of_nat k < blockHeight + 1)).
      * rewrite !lookup_seqZ_fmap by lia. f_equal. f_equal. lia.
      * rewrite !lookup_ge_None_2; [done|rewrite length_fmap, length_seqZ; lia..].
  - intros v' e. destruct (fetch _ _) as [l|]; cbn [wrapR]; [|by intros [= <-]].
    repeat case_match; by intros [= <-].
Qed.

(** ** The whole check of an extended transaction *)
Section Whole.
  Context {SC : SafeConversion} {BT : BtTx} {BDK : BdkEngine} {PS : ParentStore}.

(** The height the transaction is checked at, and its parents' heights there. *)
Definition effective_height (v : ValidatorState) (blockHeight : Z) : Z :=
  if blockHeight =? 0 then u32 (bs_Height (v_state v) + 1) else blockHeight.

Definition effective_heights (opts : Options) (height : Z) (heights : list Z) : list Z :=
  if UnconfirmedParentsAtCandidateHeight opts
  then (λ h, if h =? unconfirmedParentHeight then height else h) <$> heights else heights.

(** The median time a parent's height stands for: the block's own when the store
    does not reach that height. *)
Definition parent_mtp (v : ValidatorState) (blockMTP h : Z) : Z :=
  default blockMTP (mtpStore v !! Z.to_nat h).

(** In consensus mode, on a node with a blockchain client, from CSV on: the
    store covers the block, and BIP68 holds with its values. *)
Definition bip68_rule (v : ValidatorState) (opts : Options) (tx : Tx) (height : Z)
    (heights : list Z) : Prop :=
  SkipPolicyChecks opts = true → v_hasClient v = true → CSVHeight (v_params v) ≤ height →
  ∃ blockMTP, mtpStore v !! Z.to_nat height = Some blockMTP ∧
    (height < GenesisActivationHeight (v_params v) → 2 ≤ TxVersion tx →
     height < 2^31 ∧ ∀ i inp, Inputs tx !! i = Some inp →
       lock_met heights (parent_mtp v blockMTP <$> heights) height blockMTP i inp).

Lemma resolve_heights (opts : Options) (height : Z) (heights : list Z) :
  (if UnconfirmedParentsAtCandidateHeight opts
   then resolveUnconfirmedParentsAtCandidateHeight heights height else heights)
  = effective_heights opts height heights.
Proof.
  unfold effective_heights. destruct (UnconfirmedParentsAtCandidateHeight opts); [|done].
  unfold resolveUnconfirmedParentsAtCandidateHeight, substituteUnconfirmedHeights.
  destruct (existsb _ heights) eqn:He; [done|]. cbn [negb].
  induction heights as [|h hs IH]; [done|]. cbn [existsb] in He. apply orb_false_iff in He as [Hh He].
  rewrite fmap_cons, Hh. f_equal. by apply IH.
Qed.

Lemma readMTPsLocked_spec (v : ValidatorState) (height : Z) (heights : list Z) mtps blockMTP :
  0 ≤ height → Z.of_nat (length (mtpStore v)) < 2^32 → Forall (λ h, is_u32 h) heights →
  readMTPsLocked v height heights = Ok (mtps, blockMTP) ↔
  mtpStore v !! Z.to_nat height = Some blockMTP ∧ mtps = parent_mtp v blockMTP <$> heights.
Proof.
  intros Hh Hl Hhs. unfold readMTPsLocked. assert (Hs : store_len v = Z.of_nat (length (mtpStore v)))
    by (apply u32_small; lia).
  destruct (Z.leb_spec (store_len v) height).
  - split; [done|]. intros [Hm _]. apply lookup_lt_Some in Hm. lia.
  - destruct (mtpStore v !! Z.to_nat height) as [m|] eqn:Em; [|naive_solver].
    assert (Hmap : ∀ b, map (λ h, if h >=? store_len v then b
                     else default 0 (mtpStore v !! Z.to_nat h)) heights = parent_mtp v b <$> heights).
    { intros b. apply map_ext_Forall. eapply Forall_impl; [exact Hhs|]. intros h Hb. simpl.
      unfold parent_mtp. destruct (Z.geb_spec h (store_len v)).
      - by rewrite (lookup_ge_None_2 (mtpStore v)) by lia.
      - destruct (lookup_lt_is_Some_2 (mtpStore v) (Z.to_nat h)) as [x ->]; [lia|done]. }
    rewrite Hmap. naive_solver.
Qed.

Lemma unextended_inputs (ins : list TxInput) :
  existsb (λ i, bool_decide (PreviousTxScript i = None)) ins = false ↔
  Forall (λ i, is_Some (PreviousTxScript i)) ins.
Proof.
  induction ins as [|i ins IH]; simpl; [by split|].
  rewrite orb_false_iff, bool_decide_eq_false, Forall_cons, IH, not_eq_None_Some. done.
Qed.

Lemma precheck_Ok (v : ValidatorState) (tx : Tx) (height : Z) (bs : BlockState) (opts : Options) :
  OutpointOnlySpend opts = false → 0 ≤ LockTime tx →
  precheckTransaction v tx height bs opts = Ok () ↔
  IsCoinbase tx = false ∧ finality_rule opts height (CSVHeight (v_params v)) bs tx.
Proof.
  intros Ho Hl. unfold precheckTransaction. rewrite Ho. cbn [andb].
  destruct (IsCoinbase tx); [naive_solver|].
  rewrite (finality_step opts height (CSVHeight (v_params v)) bs tx
    (λ t, wrapR ERR_UTXO_NON_FINAL (IsTransactionFinal tx height t)));
    [naive_solver|done|intros t; by rewrite wrapR_Ok].
Qed.

Lemma phase2_Ok (v : ValidatorState) (tx : Tx) (height : Z) (heights : list Z) (opts : Options) :
  OutpointOnlySpend opts = false → is_u32 height → Forall (λ h, is_u32 h) heights →
  Z.of_nat (length (mtpStore v)) < 2^32 → Forall (λ m, is_u32 m) (mtpStore v) →
  (if OutpointOnlySpend opts || negb (SkipPolicyChecks opts) || negb (v_hasClient v) ||
      (height <? CSVHeight (v_params v)) then Ok () else
   let? (utxoMTPs, blockMTP) := readMTPsLocked v height heights in
   ValidateBIP68 (v_tx v) tx height heights utxoMTPs blockMTP) = Ok () ↔
  bip68_rule v opts tx height heights.
Proof.
  intros Ho Hh Hhs Hl Hm. unfold bip68_rule. rewrite Ho. cbn [orb].
  destruct (SkipPolicyChecks opts); [|naive_solver].
  destruct (v_hasClient v); [|naive_solver]. cbn [negb orb].
  destruct (Z.ltb_spec height (CSVHeight (v_params v))); [naive_solver lia|].
  rewrite bindR_Ok. unfold ValidateBIP68.
  assert (Hseq : ∀ blockMTP, mtpStore v !! Z.to_nat height = Some blockMTP →
    sequenceLocks (v_tx v) tx height heights (parent_mtp v blockMTP <$> heights) blockMTP = Ok () ↔
    (height < GenesisActivationHeight (v_params v) → 2 ≤ TxVersion tx →
     height < 2^31 ∧ ∀ i inp, Inputs tx !! i = Some inp →
       lock_met heights (parent_mtp v blockMTP <$> heights) height blockMTP i inp)).
  { intros b Hb. rewrite Forall_forall in Hm.
    assert (Hbb : is_u32 b) by (eapply Hm, list_elem_of_lookup_2, Hb).
    rewrite sequenceLocks_spec; [fold (v_params v)|lia|lia|done|].
    - destruct (Z.lt_ge_cases height (GenesisActivationHeight (v_params v))),
        (Z.lt_ge_cases (TxVersion tx) 2); intuition lia.
    - apply Forall_fmap, Forall_true. intros h. simpl. unfold parent_mtp.
      destruct (mtpStore v !! Z.to_nat h) eqn:E; [|done]. eapply Hm, list_elem_of_lookup_2, E. }
  split.
  - intros ([mtps b] & Hr & Hs) _ _ _. apply readMTPsLocked_spec in Hr as [Hb ->]; [|lia|done|done].
    exists b. split; [done|]. by apply Hseq.
  - intros H1. destruct (H1 eq_refl eq_refl ltac:(lia)) as (b & Hb & Hlocks).
    exists (parent_mtp v b <$> heights, b). split; [by apply readMTPsLocked_spec; [lia|..]|].
    by apply Hseq.
Qed.

(** The check of an extended transaction against a candidate block passes
    exactly when the call is well formed (a height per input, every input
    extended, no outpoint-only spending), the transaction is no coinbase, it is
    final against the time of its context, the transaction rules accept it with
    its parents' effective heights, and BIP68 holds with the stored median
    times. *)
Theorem CheckExtendedTransaction_spec (v : ValidatorState) (tx : Tx) (blockHeight : Z)
    (heights : list Z) (opts : Options) :
  0 ≤ LockTime tx → is_u32 blockHeight → Forall (λ h, is_u32 h) heights →
  Z.of_nat (length (mtpStore v)) < 2^32 → Forall (λ m, is_u32 m) (mtpStore v) →
  let height := effective_height v blockHeight in
  let parents := effective_heights opts height heights in
  CheckExtendedTransaction v tx blockHeight heights opts = Ok () ↔
  OutpointOnlySpend opts = false ∧ length heights = length (Inputs tx) ∧
  Forall (λ i, is_Some (PreviousTxScript i)) (Inputs tx) ∧
  IsCoinbase tx = false ∧
  finality_rule opts height (CSVHeight (v_params v)) (v_state v) tx ∧
  ValidateTransaction (v_tx v) tx height parents (Some opts) = Ok () ∧
  bip68_rule v opts tx height parents.
Proof.
  intros Hlt Hb Hhs Hl Hm height parents.
  assert (Hh : is_u32 height).
  { subst height. unfold effective_height. case_match; auto with go. }
  assert (Hps : Forall (λ h, is_u32 h) parents).
  { subst parents. unfold effective_heights. case_match; [|done]. apply Forall_fmap.
    eapply Forall_impl; [exact Hhs|]. intros h Hr. simpl. by case_match. }
  unfold CheckExtendedTransaction. destruct (OutpointOnlySpend opts) eqn:Ho; [naive_solver|].
  case_bool_decide as Hlen; cbn [negb]; [|naive_solver].
  destruct (existsb _ (Inputs tx)) eqn:He.
  { split; [done|]. intros (_ & _ & Hs & _). apply unextended_inputs in Hs. congruence. }
  apply unextended_inputs in He. fold (effective_height v blockHeight). fold height.
  rewrite bindR_Ok.
  assert (Hv : wrapR ERR_PROCESSING (validateTransaction v tx true height heights opts) = Ok () ↔
    ValidateTransaction (v_tx v) tx height parents (Some opts) = Ok () ∧
    bip68_rule v opts tx height parents).
  { rewrite wrapR_Ok. unfold validateTransaction. rewrite Ho. cbn [negb andb bindR].
    rewrite resolve_heights. fold parents. rewrite <- phase2_Ok by done. rewrite Ho. cbn [orb].
    rewrite bindR_Ok. split; [intros ([] & ? & ?); done|intros []; by exists ()]. }
  split.
  - intros ([] & Hp & Hrest). apply Hv in Hrest. revert Hp Hrest. intros Hp [? ?].
    apply precheck_Ok in Hp as [? ?]; [|done|done]. by split_and!.
  - intros (_ & _ & _ & ? & ? & ? & ?). exists (). split; [by apply precheck_Ok|by apply Hv].
Qed.

End Whole.

(** ** Concrete inputs *)
Definition ex_validator : ValidatorState :=
  mkValidator ex_tv true true (mkBlockState 20 1500) (seqZ 1000 15) [].

Lemma CheckStoredTxAtHeight_spec_witness :
  CheckStoredTxAtHeight (ex_tx 1 0) [mkInputParent true 7; mkInputParent false 9] 107 ex_params
    (mkOptions true false false false 0 1600) = Ok () ∧
  CheckStoredTxAtHeight (ex_tx 1 0) [mkInputParent true 8; mkInputParent false 9] 107 ex_params
    (mkOptions true false false false 0 1600) ≠ Ok ().
Proof.
  split.
  - apply (proj1 (CheckStoredTxAtHeight_spec (ex_tx 1 0)
      [mkInputParent true 7; mkInputParent false 9] 107 ex_params
      (mkOptions true false false false 0 1600) ltac:(simpl; lia) ltac:(simpl; lia)
      ltac:(repeat constructor; simpl; lia) eq_refl eq_refl)).
    split; [repeat constructor; simpl; done|]. right. split_and!; [done|done|]. right. by left.
  - intros H. apply (proj1 (CheckStoredTxAtHeight_spec (ex_tx 1 0)
      [mkInputParent true 8; mkInputParent false 9] 107 ex_params
      (mkOptions true false false false 0 1600) ltac:(simpl; lia) ltac:(simpl; lia)
      ltac:(repeat constructor; simpl; lia) eq_refl eq_refl)) in H as [H _].
    apply Forall_cons in H as [H _]. specialize (H eq_refl). simpl in H. lia.
Defined.

Lemma EnsureMTPLoaded_spec_witness :
  EnsureMTPLoaded (λ from to, Ok (Z.add 2000 <$> seqZ from (to - from + 1))) ex_validator 17
  = (with_mtpStore ex_validator (seqZ 1000 3 ++ seqZ 2003 15), Ok ()) ∧
  EnsureMTPLoaded (λ from to, Ok (Z.add 1000 <$> seqZ from (to - from + 1))) ex_validator 17
  = (with_mtpStore ex_validator (Z.add 1000 <$> seqZ 0 18), Ok ()).
Proof.
  split; [reflexivity|].
  apply (proj1 (EnsureMTPLoaded_spec ex_validator
    (λ from to, Ok (Z.add 1000 <$> seqZ from (to - from + 1))) (Z.add 1000) 17
    eq_refl ltac:(lia) ltac:(simpl; lia) ltac:(lia) ltac:(simpl; lia)
    ltac:(intros [|[|[|k]]]; simpl; [done|done|done|lia]))).
  reflexivity.
Defined.

Definition ex_opts : Options := mkOptions true true false false 0 1600.

Lemma CheckExtendedTransaction_spec_witness :
  CheckExtendedTransaction (SC := model_SafeConversion) (BT := model_BtTx) (BDK := model_Bdk)
    (PS := ex_parents) ex_validator (ex_tx 1 0) 13 [10; 9] ex_opts = Ok ().
Proof.
  apply (CheckExtendedTransaction_spec (SC := model_SafeConversion) (BT := model_BtTx)
    (BDK := model_Bdk) (PS := ex_parents) ex_validator (ex_tx 1 0) 13 [10; 9] ex_opts).
  - simpl; lia.
  - lia.
  - repeat constructor; lia.
  - simpl; lia.
  - repeat constructor; lia.
  - split_and!; [done|done|repeat constructor; by eexists|done| |reflexivity|].
    + right. split_and!; [done|done|]. right. by left.
    + intros _ _ _. exists 1013. split; [reflexivity|]. intros _ H2. simpl in H2. lia.
Defined.
