(* ===== verification/UtxoSqlOps.v ===== *)
(** * The other operations of the SQL UTXO store

    stores/utxo/sql/sql.go, alert_system.go, remove_block_ids.go,
    remove_conflicting_child.go, conflict_wal.go and the pruner service: create,
    read, mined marks, flags, preservation, freezing, deletion and the conflict
    intents.

    An operation is a computation over the connection's state that ends with a
    result.  A statement outside a transaction commits at once; before it, and
    before a transaction begins, [others] may have committed anything.  A
    transaction of several statements runs as on an engine that serialises
    transactions (SQLite). *)

From stdpp Require Import sorting.
From stdpp Require Import list.
From S2P Require Import Prelude External BlockHeader BlockReward Utxo UtxoSql.

(** ** Computations over the connection *)
Abbreviation M := (SM txn).

(** A driver error returned as it is. *)
Definition driver_error : error := err ERR_UNKNOWN.

Definition roll_back (s : txn) : txn := mkTxn (committed s) (committed s) (ticks s).
Definition commit (s : txn) : txn := mkTxn (view s) (view s) (ticks s).

(** ** Rows *)
Definition set_conflicting (b : bool) (dah : option Z) (t : tx_row) : tx_row :=
  mkTxRow (t_hash t) (t_frozen t) b (t_locked t) (t_blocks t) (t_unmined_since t)
    (t_preserve_until t) dah (t_body t) (t_conflicting_children t) (t_created_at t).
Definition set_blocks (bs : list (Z * Z)) (t : tx_row) : tx_row :=
  mkTxRow (t_hash t) (t_frozen t) (t_conflicting t) (t_locked t) bs (t_unmined_since t)
    (t_preserve_until t) (t_delete_at_height t) (t_body t) (t_conflicting_children t)
    (t_created_at t).
Definition set_unmined (h : option Z) (t : tx_row) : tx_row :=
  mkTxRow (t_hash t) (t_frozen t) (t_conflicting t) (t_locked t) (t_blocks t) h
    (t_preserve_until t) (t_delete_at_height t) (t_body t) (t_conflicting_children t)
    (t_created_at t).
Definition set_preserve (h dah : option Z) (t : tx_row) : tx_row :=
  mkTxRow (t_hash t) (t_frozen t) (t_conflicting t) (t_locked t) (t_blocks t) (t_unmined_since t)
    h dah (t_body t) (t_conflicting_children t) (t_created_at t).
Definition set_children (l : list Z) (t : tx_row) : tx_row :=
  mkTxRow (t_hash t) (t_frozen t) (t_conflicting t) (t_locked t) (t_blocks t) (t_unmined_since t)
    (t_preserve_until t) (t_delete_at_height t) (t_body t) l (t_created_at t).
Definition set_frozen (b : bool) (o : output_row) : output_row :=
  mkOutputRow (o_utxo_hash o) (o_coinbase_spending_height o) (o_spending_data o) b
    (o_spendableIn o).

(** The transaction ids [WHERE hash IN (...)] selects. *)
Definition ids_in (hashes : list Hash) (db : DB) : gset Z :=
  list_to_set (omap (λ h, db_ids db !! h) hashes).

(** [UPDATE transactions SET ... WHERE]: the new values are computed from the
    row and the tables before the statement.  The number of rows it changed. *)
Definition update_txs (sel : Z → tx_row → bool) (f : Z → tx_row → tx_row) (db : DB) : nat * DB :=
  (size (filter (λ '(id, t), sel id t = true) (db_txs db)),
   mkDB (db_ids db) (map_imap (λ id t, Some (if sel id t then f id t else t)) (db_txs db))
     (db_outputs db) (db_intents db)).

Definition in_ids (ids : gset Z) (id : Z) (_ : tx_row) : bool := bool_decide (id ∈ ids).

Definition fully_spent (id : Z) (db : DB) : bool := bool_decide (unspent_count id db = 0%nat).

(** [DELETE FROM transactions WHERE]: the rows that refer to a deleted
    transaction go with it (ON DELETE CASCADE). *)
Definition delete_txs (sel : Z → tx_row → bool) (db : DB) : nat * DB :=
  let gone := filter (λ '(id, t), sel id t = true) (db_txs db) in
  (size gone,
   mkDB (filter (λ '(_, id), gone !! id = None) (db_ids db))
     (filter (λ '(id, t), sel id t = false) (db_txs db))
     (filter (λ '((id, _), _), gone !! id = None) (db_outputs db)) (db_intents db)).

(** [ORDER BY idx] *)
Definition by_idx (a b : Z * output_row) : Prop := a.1 ≤ b.1.
#[export] Instance by_idx_dec a b : Decision (by_idx a b).
Proof. unfold by_idx. apply _. Defined.

(** ** What a read returns *)
Definition contains (bins : list FieldName) (item : FieldName) : bool := bool_decide (item ∈ bins).

Definition needsBlockIDsQuery (bins : list FieldName) : bool :=
  contains bins F_BlockIDs || contains bins F_BlockHeights || contains bins F_SubtreeIdxs.

Inductive inputsQueryScope := inputsQueryNone | inputsQueryOutpoints | inputsQueryFull.

#[export] Instance inputsQueryScope_eq_dec : EqDecision inputsQueryScope.
Proof. solve_decision. Defined.

Definition inputsScopeFor (bins : list FieldName) : inputsQueryScope :=
  if contains bins F_Tx || contains bins F_Inputs then inputsQueryFull
  else if contains bins F_TxInpoints then inputsQueryOutpoints
  else inputsQueryNone.

Definition needsOutputsQuery (bins : list FieldName) : bool :=
  contains bins F_Tx || contains bins F_Outputs.

Record SpendResponse := mkSpendResponse {
  sr_Status : UtxoStatus;
  sr_SpendingData : option SpendingData;
  sr_LockTime : Z;
}.

(** ** What is created *)
Record MinedBlockInfo := mkMinedBlockInfo {
  mb_BlockID : Z;
  mb_BlockHeight : Z;
  mb_SubtreeIdx : Z;
  mb_OnLongestChain : bool;
  mb_UnsetMined : bool;
}.

Record CreateOptions := mkCreateOptions {
  co_MinedBlockInfos : list MinedBlockInfo;
  co_TxID : option Hash;
  co_IsCoinbase : option bool;
  co_Frozen : bool;
  co_Conflicting : bool;
  co_Locked : bool;
  co_SkipExtendedInputs : bool;
}.

Definition maxINClauseSize : nat := 400.

(** stores/utxo/pruner_unmined.go *)
Definition BackdatedUnminedSince (currentBlockHeight unminedTxRetention : Z) : Z :=
  if currentBlockHeight <=? unminedTxRetention then 1
  else currentBlockHeight - unminedTxRetention.

Definition ReAssignedUtxoSpendableAfterBlocks : Z := 1000.

Section Ops.
  Context {CH : Chainhash} {BT : BtTx} {ST : Subtree}.
  Variable env : StoreEnv.
  Variable fault : nat → option DbFault.
  Variable others : nat → DB → DB.
  Variable cancelled : nat → bool.      (* [ctx.Done()] between statements *)

(** A statement of the open transaction, with the error its failure becomes. *)
Definition query {A} (e : error) (run : DB → A * DB) : M A := λ s,
  match stmt fault run s with
  | (inr _, s) => (Err e, s)
  | (inl a, s) => (Ok a, s)
  end.

(** What the connection sees when it next goes to the database. *)
Definition arrive (s : txn) : txn :=
  let db := others (ticks s) (committed s) in mkTxn db db (ticks s).

Definition finish {A} (r : result A * txn) : result A * txn :=
  match r with
  | (Ok a, s) => (Ok a, commit s)
  | (Err e, s) => (Err e, roll_back s)
  end.

(** [s.db.Exec] and [s.db.Query]: a statement on its own. *)
Definition auto {A} (e : error) (run : DB → A * DB) : M A := λ s,
  finish (query e run (arrive s)).

(** [Begin], the body, [Commit], with the deferred [Rollback], on an engine that runs
    transactions one after another, as SQLite does: nothing of others falls between the
    statements.  Under READ COMMITTED (PostgreSQL) it may; [setDAH_between] in
    UtxoSqlReach is the place where that changes what the operations leave. *)
Definition transaction {A} (e_begin e_commit : error) (body : M A) : M A := λ s,
  finish ((_ ← query e_begin (λ db, (tt, db));
           a ← body;
           _ ← query e_commit (λ db, (tt, db));
           mret a) (arrive s)).

Definition check_ctx : M unit := λ s,
  if cancelled (ticks s) then (Err driver_error, s) else (Ok tt, s).

(** [setDAH] inside an operation's transaction. *)
Definition setDAH_M (transactionID : Z) : M unit := λ s,
  match setDAH env fault transactionID s with
  | (Some _, s) => (Err storage_error, s)
  | (None, s) => (Ok tt, s)
  end.

Definition read {A} (f : DB → A) (db : DB) : A * DB := (f db, db).
Definition write (f : DB → DB) (db : DB) : unit * DB := (tt, f db).

(** ** Reading *)
Definition spend_response (utxoHash : option Hash) (vout : Z) (t : tx_row) (o : output_row)
  : result SpendResponse :=
  guard? negb (match utxoHash with
               | Some h => negb (bool_decide (o_utxo_hash o = hash_bytes h))
               | None => false
               end) else err ERR_UTXO_MISMATCH in
  let? spendingData :=
    match default [] (o_spending_data o) with
    | [] => Ok None
    | bytes => let? sd := NewSpendingDataFromBytes bytes in Ok (Some sd)
    end in
  let status := CalculateUtxoStatus spendingData (o_coinbase_spending_height o) (env_height env) in
  let frozen := o_frozen o || t_frozen t in
  let spendingData := if frozen then NewSpendingData (Some FrozenBytesTxHash) vout
                      else spendingData in
  let status := if frozen then Status_FROZEN else status in
  let status := if t_conflicting t then Status_CONFLICTING else status in
  let status := if t_locked t then Status_LOCKED else status in
  let status := match o_spendableIn o with
                | Some h => if env_height env <? h then Status_IMMATURE else status
                | None => status
                end in
  Ok (mkSpendResponse status spendingData (o_coinbase_spending_height o)).

Definition GetSpend (txid : Hash) (vout : Z) (utxoHash : option Hash) : M SpendResponse :=
  row ← auto driver_error (read (select_output txid vout));
  match row with
  | None => mret (mkSpendResponse Status_NOT_FOUND None 0)
  | Some (_, t, o) => of_result (spend_response utxoHash vout t o)
  end.

(** The rows of one transaction's outputs, by index. *)
Definition outputs_of (id : Z) (db : DB) : list (Z * output_row) :=
  merge_sort by_idx
    (omap (λ '((i, vout), o), if bool_decide (i = id) then Some (vout, o) else None)
       (map_to_list (db_outputs db))).

Definition spending_slot (frozen : bool) (vout : Z) (o : output_row)
  : result (option SpendingData) :=
  if frozen || o_frozen o then Ok (NewSpendingData (Some FrozenBytesTxHash) vout)
  else match o_spending_data o with
       | None => Ok None
       | Some bytes =>
           let? sd := wrapR ERR_PROCESSING (NewSpendingDataFromBytes bytes) in Ok (Some sd)
       end.

(** The slice grows to cover each index in turn; [acc] has the slots filled so
    far. *)
Fixpoint spending_slots (frozen : bool) (acc : list (option SpendingData))
    (rows : list (Z * output_row)) : result (list (option SpendingData)) :=
  match rows with
  | [] => Ok acc
  | (vout, o) :: rows =>
      guard? negb (vout <? 0) else err ERR_PROCESSING in
      let? sd := spending_slot frozen vout o in
      let acc := acc ++ replicate (S (Z.to_nat vout) - length acc) None in
      spending_slots frozen (<[Z.to_nat vout := sd]> acc) rows
  end.

Definition conflicting_children_of (hash : Hash) (db : DB) : list Hash :=
  match db_ids db !! hash with
  | None => []
  | Some id =>
      match db_txs db !! id with
      | None => []
      | Some t => omap (λ c, t_hash <$> db_txs db !! c) (t_conflicting_children t)
      end
  end.

(** [getUnbatched]: the row, then one query per table the fields need. *)
Definition Get (hash : Hash) (bins : list FieldName) : M Data :=
  row ← auto driver_error (read (λ db, id ← db_ids db !! hash; pair id <$> db_txs db !! id));
  match row with
  | None => fail (err_wrap ERR_TX_NOT_FOUND (err ERR_UNKNOWN))
  | Some (id, t) =>
      let body db := t_body <$> db_txs db !! id in
      let when (b : bool) {A} (f : DB → A) (dflt : A) : M A :=
        if b then auto driver_error (read f) else mret dflt in
      let scope := inputsScopeFor bins in
      inputs ← when (negb (bool_decide (scope = inputsQueryNone)))
                 (λ db, from_option Inputs [] (body db)) [];
      outputs ← when (needsOutputsQuery bins) (λ db, from_option Outputs [] (body db)) [];
      blocks ← when (needsBlockIDsQuery bins)
                 (λ db, from_option t_blocks [] (db_txs db !! id)) [];
      children ← when (contains bins F_ConflictingChildren) (conflicting_children_of hash) [];
      rows ← when (contains bins F_Utxos) (outputs_of id) [];
      slots ← of_result (spending_slots (t_frozen t) [] rows);
      mret (mkData
        (if contains bins F_Tx || contains bins F_Outputs
         then Some (mkTx (TxVersion (t_body t))
                      (if bool_decide (scope = inputsQueryFull) then inputs else []) outputs
                      (LockTime (t_body t)))
         else None)
        (if contains bins F_TxInpoints then GetParentTxHashes inputs else [])
        (if contains bins F_TxInpoints then GetTxInpoints inputs else [])
        (merge_sort Z.le (map fst blocks)) children slots (t_conflicting t) (t_locked t)
        (t_created_at t))
  end.

End Ops.
