(* ===== verification/UtxoSqlMarks.v ===== *)
(** * Flags and marks of the SQL UTXO store

    stores/utxo/sql/sql.go: [SetConflicting], [SetLocked], [SetMinedMulti],
    [MarkTransactionsOnLongestChain], [PreserveTransactions] and
    [ProcessExpiredPreservations]; remove_block_ids.go and
    remove_conflicting_child.go. *)

From stdpp Require Import sorting.
From stdpp Require Import list.
From S2P Require Import Prelude External BlockHeader BlockReward Utxo UtxoSql UtxoSqlOps.

(** ** Conflicting *)
Definition parentHashesOf (tx : Tx) : list Hash := map PreviousTxID (Inputs tx).

(** COALESCE(delete_at_height, dah) *)
Definition coalesce {A} (a b : option A) : option A := match a with Some _ => a | None => b end.

(** [qUpdate] of [SetConflicting]: the id of the row it found. *)
Definition update_conflicting (setValue : bool) (deleteAtHeight : option Z) (hash : Hash) (db : DB)
  : option Z * DB :=
  match db_ids db !! hash with
  | None => (None, db)
  | Some id =>
      match db_txs db !! id with
      | None => (None, db)
      | Some t =>
          let dah := if setValue
                     then if bool_decide (is_Some (t_preserve_until t)) then t_delete_at_height t
                          else coalesce (t_delete_at_height t) deleteAtHeight
                     else deleteAtHeight in
          (Some id, put_tx id (set_conflicting setValue dah t) db)
      end
  end.

(** The insert into [conflicting_children]: a parent the store does not hold
    violates the NOT NULL constraint. *)
Definition insert_child (parent : Hash) (child : Z) (db : DB) : bool * DB :=
  match db_ids db !! parent with
  | None => (false, db)
  | Some id =>
      match db_txs db !! id with
      | None => (false, db)
      | Some t =>
          (true, if bool_decide (child ∈ t_conflicting_children t) then db
                 else put_tx id (set_children (t_conflicting_children t ++ [child]) t) db)
      end
  end.

(** The rows one row of [block_ids] is taken from or added to. *)
Definition remove_block (blockID : Z) (t : tx_row) : tx_row :=
  set_blocks (filter (λ b, b.1 ≠ blockID) (t_blocks t)) t.

Definition insert_block (blockID blockHeight : Z) (t : tx_row) : tx_row :=
  if bool_decide (blockID ∈ map fst (t_blocks t)) then t
  else set_blocks (t_blocks t ++ [(blockID, blockHeight)]) t.

(** ** The delete-at-height rules, as the CASE expressions write them *)

(** [SetMinedMulti] on the longest chain. *)
Definition mined_dah (newDAH : Z) (spent : bool) (t : tx_row) : option Z :=
  if bool_decide (is_Some (t_preserve_until t)) then t_delete_at_height t
  else match t_delete_at_height t with
       | Some h => if h <? newDAH then Some newDAH else Some h
       | None => if spent then Some newDAH else None
       end.

(** [SetMinedMulti] off the longest chain. *)
Definition fork_dah (newDAH : Z) (spent : bool) (t : tx_row) : option Z :=
  if bool_decide (is_Some (t_preserve_until t)) then t_delete_at_height t
  else if t_conflicting t then coalesce (t_delete_at_height t) (Some newDAH)
  else if bool_decide (t_unmined_since t = None) && spent then
    match t_delete_at_height t with
    | Some h => if h <? newDAH then Some newDAH else Some h
    | None => Some newDAH
    end
  else None.

(** [setUnlockedBulk] *)
Definition unlock_dah (newDAH : Z) (spent : bool) (t : tx_row) : option Z :=
  let dah := t_delete_at_height t in
  if bool_decide (is_Some (t_preserve_until t)) then dah
  else if t_conflicting t && bool_decide (dah = None) then Some newDAH
  else if t_conflicting t then dah
  else if spent && t_has_blocks t && bool_decide (t_unmined_since t = None) &&
          match dah with None => true | Some h => h <? newDAH end then Some newDAH
  else if spent && t_has_blocks t && bool_decide (t_unmined_since t = None) then dah
  else None.

(** [MarkTransactionsOnLongestChain(true)]: [height1] is the current height plus
    one. *)
Definition longest_dah (height1 retention : Z) (spent : bool) (t : tx_row) : option Z :=
  let top := foldr Z.max 0 (map snd (t_blocks t)) in
  let newDAH := (if top >? height1 then top else height1) + retention in
  if bool_decide (is_Some (t_preserve_until t)) then t_delete_at_height t
  else if t_conflicting t then coalesce (t_delete_at_height t) (Some newDAH)
  else if t_has_blocks t && spent then
    match t_delete_at_height t with
    | Some h => if h <? newDAH then Some newDAH else Some h
    | None => Some newDAH
    end
  else None.

(** [ProcessExpiredPreservations] *)
Definition expired_dah (deleteAtHeight : Z) (spent : bool) (t : tx_row) : option Z :=
  if t_conflicting t then Some deleteAtHeight
  else if bool_decide (t_unmined_since t = None) && t_has_blocks t && spent
  then Some deleteAtHeight else None.

Inductive MarkOutcome := MarkDone | MarkErrors | MarkCancelled | MarkFatal.

Section Marks.
  Context {CH : Chainhash} {BT : BtTx} {ST : Subtree}.
  Variable env : StoreEnv.
  Variable fault : nat → option DbFault.
  Variable others : nat → DB → DB.
  Variable cancelled : nat → bool.
  Variable postgres : bool.             (* [s.engine] *)
  Variable UnminedTxRetention : Z.

Let query {A} := @query fault A.
Let auto {A} := @auto fault others A.
Let transaction {A} := @transaction fault others A.

(** The recorded spenders of its outputs; a nil slot is skipped. *)
Fixpoint spending_children (hash : Hash) (vOut : Z) (outputs : list (option TxOutput))
  : M (list Hash) :=
  match outputs with
  | [] => mret []
  | None :: outputs => spending_children hash (vOut + 1) outputs
  | Some output :: outputs =>
      _ ← of_result (guard? vOut <? 2^32 else driver_error in Ok tt);
      utxoHash ← of_result (UTXOHashFromOutput hash (Some output) vOut);
      resp ← GetSpend env fault others hash vOut (Some utxoHash);
      rest ← spending_children hash (vOut + 1) outputs;
      let child := if bool_decide (sr_Status resp = Status_SPENT)
                   then sd ← sr_SpendingData resp; sd_TxID sd else None in
      mret (option_list child ++ rest)
  end.

(** The read pass for one transaction: its parents, its spends and its spending
    children. *)
Definition read_conflicting (hash : Hash) : M (list Hash * list Spend * list Hash) :=
  txMeta ← Get fault others hash [F_Tx];
  match d_Tx txMeta with
  | None => fail driver_error
  | Some tx =>
      spends ← of_result (parent_spends hash 0 (Inputs tx));
      children ← spending_children hash 0 (Outputs tx);
      mret (parentHashesOf tx, spends, children)
  end.

Definition updateParentConflictingChildren (transactionID : Z) (parentHashes : list Hash) : M unit :=
  each (λ parentHash,
    ok ← query storage_error (insert_child parentHash transactionID);
    if ok : bool then mret tt else fail storage_error) parentHashes.

Definition write_conflicting (setValue : bool) (deleteAtHeight : option Z)
    (item : Hash * list Hash) : M unit :=
  found ← query storage_error (update_conflicting setValue deleteAtHeight item.1);
  match found with
  | None => fail storage_error
  | Some transactionID => updateParentConflictingChildren transactionID item.2
  end.

Definition SetConflicting (txHashes : list Hash) (setValue : bool) : M (list Spend * list Hash) :=
  let deleteAtHeight :=
    if (env_retention env >? 0) && setValue
    then Some (u32 (env_height env + 1 + env_retention env)) else None in
  reads ← traverse read_conflicting txHashes;
  _ ← transaction driver_error storage_error
        (each (write_conflicting setValue deleteAtHeight)
           (zip txHashes (map (λ r, r.1.1) reads)));
  mret (mjoin (map (λ r, r.1.2) reads), mjoin (map snd reads)).

(** ** Locked *)
Definition locked_row (t : tx_row) : tx_row := set_dah None (set_locked true t).

Definition unlock_bulk (hashes : list Hash) (db : DB) : nat * DB :=
  let ids := ids_in hashes db in
  if env_retention env =? 0 then update_txs (in_ids ids) (λ _, set_locked false) db
  else
    let newDAH := u32 (env_height env + 1 + env_retention env) in
    update_txs (in_ids ids)
      (λ id t, set_dah (unlock_dah newDAH (fully_spent id db) t) (set_locked false t)) db.

Definition setUnlockedBulk (txHashes : list Hash) : M unit :=
  each (λ chunk,
    _ ← check_ctx cancelled;
    _ ← auto storage_error (unlock_bulk chunk);
    mret tt) (chunks maxINClauseSize txHashes).

(** Unlocking one row of SQLite's transaction. *)
Definition unlock_one (txHash : Hash) : M unit :=
  found ← query storage_error (λ db,
    match db_ids db !! txHash with
    | None => (None, db)
    | Some id =>
        match db_txs db !! id with
        | None => (None, db)
        | Some t => (Some id, put_tx id (set_locked false t) db)
        end
    end);
  match found with
  | None => fail storage_error
  | Some transactionID => setDAH_M env fault transactionID
  end.

Definition SetLocked (txHashes : list Hash) (setValue : bool) : M unit :=
  if setValue then
    if postgres then
      _ ← auto storage_error (λ db, update_txs (in_ids (ids_in txHashes db)) (λ _, locked_row) db);
      mret tt
    else
      each (λ txHash,
        _ ← auto storage_error (λ db, update_txs (in_ids (ids_in [txHash] db)) (λ _, locked_row) db);
        mret tt) txHashes
  else if postgres then setUnlockedBulk txHashes
  else transaction driver_error storage_error (each unlock_one txHashes).

(** ** Mined *)

(** Step 2: the block rows. *)
Definition write_blocks (hashes : list Hash) (info : MinedBlockInfo) (db : DB) : nat * DB :=
  update_txs (in_ids (ids_in hashes db))
    (λ _, if mb_UnsetMined info then remove_block (mb_BlockID info)
          else insert_block (mb_BlockID info) (mb_BlockHeight info)) db.

(** Step 3 on the longest chain. *)
Definition mark_mined (hashes : list Hash) (newDAH : Z) (db : DB) : nat * DB :=
  update_txs (in_ids (ids_in hashes db))
    (λ id t, let t' := set_unmined None (set_locked false t) in
             if env_retention env >? 0
             then set_dah (mined_dah newDAH (fully_spent id db) t) t' else t') db.

(** Step 3 off the longest chain: unlock, stamp what lost its last block, then
    the delete-at-height. *)
Definition stamp_unmined (hashes : list Hash) (unminedSince : Z) (db : DB) : nat * DB :=
  update_txs (λ id t, in_ids (ids_in hashes db) id t && negb (t_has_blocks t) &&
                      bool_decide (t_unmined_since t = None))
    (λ _, set_unmined (Some unminedSince)) db.

Definition mark_fork (hashes : list Hash) (newDAH : Z) (db : DB) : nat * DB :=
  update_txs (in_ids (ids_in hashes db)) (λ id t, set_dah (fork_dah newDAH (fully_spent id db) t) t) db.

Definition block_ids_of (hashes : list Hash) (db : DB) : gmap Hash (list Z) :=
  list_to_map (omap (λ h, t ← (id ← db_ids db !! h; db_txs db !! id);
                          Some (h, merge_sort Z.le (map fst (t_blocks t)))) hashes).

Definition update_mined (hashes : list Hash) (info : MinedBlockInfo) : M unit :=
  let retention := env_retention env in
  let newDAH := mb_BlockHeight info + retention in
  if mb_OnLongestChain info then
    _ ← query storage_error (mark_mined hashes newDAH); mret tt
  else
    _ ← query storage_error (λ db, update_txs (in_ids (ids_in hashes db)) (λ _, set_locked false) db);
    _ ← (if mb_UnsetMined info
         then query storage_error
                (stamp_unmined hashes (BackdatedUnminedSince (env_height env) UnminedTxRetention))
         else mret 0%nat);
    _ ← (if retention >? 0 then query storage_error (mark_fork hashes newDAH) else mret 0%nat);
    mret tt.

Definition setMinedMultiChunk (hashes : list Hash) (info : MinedBlockInfo)
  : M (gmap Hash (list Z)) :=
  transaction driver_error storage_error (
    existing ← query storage_error (read (λ db, filter (λ h, is_Some (db_ids db !! h)) hashes));
    if negb (mb_UnsetMined info) && negb (bool_decide (length existing = length hashes))
    then fail (err ERR_TX_NOT_FOUND)
    else if bool_decide (length existing = 0%nat) then mret ∅
    else
      _ ← query storage_error (write_blocks existing info);
      _ ← update_mined existing info;
      query storage_error (read (block_ids_of existing))).

Fixpoint set_mined_chunks (groups : list (list Hash)) (info : MinedBlockInfo)
    (resultMap : gmap Hash (list Z)) : M (gmap Hash (list Z)) :=
  match groups with
  | [] => mret resultMap
  | group :: groups =>
      _ ← check_ctx cancelled;
      chunkResult ← (λ s, match setMinedMultiChunk group info s with
                          | (Err e, s) => (Err (err_wrap ERR_STORAGE_ERROR e), s)
                          | r => r
                          end);
      set_mined_chunks groups info (chunkResult ∪ resultMap)
  end.

Definition SetMinedMulti (hashes : list Hash) (info : MinedBlockInfo) : M (gmap Hash (list Z)) :=
  set_mined_chunks (chunks maxINClauseSize hashes) info ∅.

(** ** The longest chain *)
Definition mark_longest (hashes : list Hash) (db : DB) : nat * DB :=
  update_txs (in_ids (ids_in hashes db))
    (λ id t, let t' := set_unmined None t in
             if env_retention env >? 0
             then set_dah (longest_dah (env_height env + 1) (env_retention env)
                             (fully_spent id db) t) t'
             else t') db.

Definition mark_off (hashes : list Hash) (db : DB) : nat * DB :=
  let unminedSince := BackdatedUnminedSince (env_height env) UnminedTxRetention in
  update_txs (in_ids (ids_in hashes db))
    (λ _ t, set_unmined (coalesce (t_unmined_since t) (Some unminedSince)) t) db.

(** A failed chunk is counted and the next one tried; [failed] and [missing] are
    the counters. *)
Fixpoint mark_chunks (onLongestChain : bool) (groups : list (list Hash)) (failed missing : nat)
    (s : txn) : bool * nat * nat * txn :=
  match groups with
  | [] => (false, failed, missing, s)
  | group :: groups =>
      if cancelled (ticks s) then (true, failed, missing, s) else
      match auto storage_error (if onLongestChain then mark_longest group else mark_off group) s with
      | (Err _, s) => mark_chunks onLongestChain groups (failed + 1) missing s
      | (Ok rowsAffected, s) =>
          if bool_decide (rowsAffected < length group)%nat then
            match auto driver_error
                    (read (λ db, length (filter (λ h, db_ids db !! h = None) group))) s with
            | (Err _, s) => mark_chunks onLongestChain groups failed missing s
            | (Ok absent, s) => mark_chunks onLongestChain groups failed (missing + absent) s
            end
          else mark_chunks onLongestChain groups failed missing s
      end
  end.

(** [MarkFatal] ends the process: a transaction moved off the longest chain has
    no record.  Shortfalls whose missing hashes could not be listed only count
    in the log. *)
Definition MarkTransactionsOnLongestChain (txHashes : list Hash) (onLongestChain : bool) (s : txn)
  : MarkOutcome * txn :=
  if bool_decide (length txHashes = 0%nat) then (MarkDone, s) else
  match mark_chunks onLongestChain (chunks maxINClauseSize txHashes) 0 0 s with
  | (true, _, _, s) => (MarkCancelled, s)
  | (false, failed, missing, s) =>
      if bool_decide (0 < missing)%nat && negb onLongestChain then (MarkFatal, s)
      else if bool_decide (0 < failed)%nat then (MarkErrors, s)
      else (MarkDone, s)
  end.

(** ** Preservation *)
Definition preserve_rows (hashes : list Hash) (preserveUntilHeight : Z) (db : DB) : nat * DB :=
  update_txs (λ id t, in_ids (ids_in hashes db) id t &&
                      (bool_decide (is_Some (t_delete_at_height t)) ||
                       bool_decide (is_Some (t_preserve_until t))))
    (λ _, set_preserve (Some preserveUntilHeight) None) db.

Definition PreserveTransactions (txIDs : list Hash) (preserveUntilHeight : Z) : M unit :=
  each (λ chunk, _ ← auto storage_error (preserve_rows chunk preserveUntilHeight); mret tt)
    (chunks maxINClauseSize txIDs).

Definition preservation_over (currentHeight : Z) (t : tx_row) : bool :=
  match t_preserve_until t with Some h => h <=? currentHeight | None => false end.

Definition expire_rows (currentHeight : Z) (db : DB) : nat * DB :=
  let retention := env_retention env in
  update_txs (λ _, preservation_over currentHeight)
    (λ id t, set_preserve None
               (if retention =? 0 then t_delete_at_height t
                else expired_dah (u32 (currentHeight + retention)) (fully_spent id db) t) t) db.

Definition ProcessExpiredPreservations (currentHeight : Z) : M unit :=
  _ ← auto storage_error (expire_rows currentHeight); mret tt.

(** ** Removals *)
Definition on_row (hash : Hash) (f : tx_row → tx_row) (db : DB) : DB :=
  match db_ids db !! hash with
  | None => db
  | Some id => match db_txs db !! id with
               | None => db
               | Some t => put_tx id (f t) db
               end
  end.

Definition remove_block_ids (r : option Hash * list Z) : M unit :=
  match r.1 with
  | None => fail (err ERR_INVALID_ARGUMENT)
  | Some h => each (λ blockID, query storage_error (write (on_row h (remove_block blockID)))) r.2
  end.

Definition RemoveBlockIDs (removals : list (option Hash * list Z)) : M unit :=
  if bool_decide (length removals = 0%nat) then mret tt
  else transaction storage_error storage_error (each remove_block_ids removals).

Definition remove_child (parent child : Hash) (db : DB) : DB :=
  match db_ids db !! child with
  | None => db
  | Some id => on_row parent (λ t, set_children (filter (λ c, c ≠ id) (t_conflicting_children t)) t) db
  end.

Definition remove_conflicting_child (r : option Hash * option Hash) : M unit :=
  match r with
  | (Some parent, Some child) => query storage_error (write (remove_child parent child))
  | _ => fail (err ERR_INVALID_ARGUMENT)
  end.

Definition RemoveFromConflictingChildren (removals : list (option Hash * option Hash)) : M unit :=
  if bool_decide (length removals = 0%nat) then mret tt
  else transaction storage_error storage_error (each remove_conflicting_child removals).

End Marks.
