(* ===== verification/UtxoSqlLifecycle.v ===== *)
(** * From creation to deletion in the SQL UTXO store

    stores/utxo/sql/sql.go: [Create] (row by row) and [Delete];
    alert_system.go: freezing and reassignment; conflict_wal.go: the conflict
    intents; stores/utxo/Interface.go: [ConflictIntent.IntentID]; and the
    deletion of due records, stores/utxo/sql/pruner/pruner_service.go. *)

From stdpp Require Import sorting.
From stdpp Require Import list.
From S2P Require Import Prelude External BlockHeader BlockReward Utxo UtxoSql UtxoSqlOps UtxoSqlMarks.

(** ** Conflict intents *)
Definition encodeIntentHashes (hashes : list Hash) : list byte :=
  mjoin (map hash_bytes hashes).

(** The fuel is the length of the blob: every round drops 32 bytes. *)
Fixpoint decode_hashes (fuel : nat) (buf : list byte) : list Hash :=
  match fuel, buf with
  | O, _ | _, [] => []
  | S fuel, _ => hash_of_Z (le_decode (take 32 buf)) :: decode_hashes fuel (drop 32 buf)
  end.

Definition decodeIntentHashes (buf : list byte) : result (list Hash) :=
  guard? bool_decide (length buf mod 32 = 0)%nat else err ERR_STORAGE_ERROR in
  Ok (decode_hashes (length buf) buf).

(** ** Rows of a new transaction *)

(** The slots past the last live output are not rebuilt. *)
Fixpoint trim_outputs (outputs : list (option TxOutput)) : list (option TxOutput) :=
  match outputs with
  | [] => []
  | o :: outputs =>
      match o, trim_outputs outputs with
      | None, [] => []
      | _, rest => o :: rest
      end
  end.

Definition stored_input (skipExtended : bool) (input : TxInput) : TxInput :=
  if skipExtended
  then mkInput (PreviousTxID input) (PreviousTxOutIndex input) 0 None (UnlockingScript input)
         (SequenceNumber input)
  else input.

Definition stored_tx (skipExtended : bool) (tx : Tx) : Tx :=
  mkTx (TxVersion tx) (map (stored_input skipExtended) (Inputs tx)) (trim_outputs (Outputs tx))
    (LockTime tx).

(** The driver's answer to an insert: done, a unique constraint, or another
    constraint. *)
Inductive insert_result := Inserted | UniqueViolation | OtherViolation.

#[export] Instance insert_result_eq_dec : EqDecision insert_result.
Proof. solve_decision. Defined.

Definition insert_tx (id : Z) (t : tx_row) (db : DB) : insert_result * DB :=
  if bool_decide (is_Some (db_ids db !! t_hash t)) || bool_decide (is_Some (db_txs db !! id))
  then (UniqueViolation, db)
  else (Inserted, mkDB (<[t_hash t := id]> (db_ids db)) (<[id := t]> (db_txs db)) (db_outputs db)
                    (db_intents db)).

Definition insert_output (k : Z * Z) (o : output_row) (db : DB) : insert_result * DB :=
  if bool_decide (is_Some (db_outputs db !! k)) then (UniqueViolation, db)
  else (Inserted, put_output k o db).

Definition insert_block_row (id : Z) (info : MinedBlockInfo) (db : DB) : insert_result * DB :=
  match db_txs db !! id with
  | None => (OtherViolation, db)
  | Some t =>
      if bool_decide (mb_BlockID info ∈ map fst (t_blocks t)) then (UniqueViolation, db)
      else (Inserted, put_tx id (insert_block (mb_BlockID info) (mb_BlockHeight info) t) db)
  end.

Section Lifecycle.
  Context {CH : Chainhash} {BT : BtTx} {ST : Subtree}.
  Variable env : StoreEnv.
  Variable params : ChainParams.
  Variable fault : nat → option DbFault.
  Variable others : nat → DB → DB.
  Variable serial : nat → Z.            (* the sequence behind [transactions.id] *)
  Variable clock : nat → Z.             (* CURRENT_TIMESTAMP *)

Let query {A} := @query fault A.
Let auto {A} := @auto fault others A.
Let transaction {A} := @transaction fault others A.

(** [classifyInsertError], and the same cases of the transaction row. *)
Definition insert (run : DB → insert_result * DB) : M unit :=
  r ← query storage_error run;
  match r with
  | Inserted => mret tt
  | UniqueViolation => fail (err_wrap ERR_TX_EXISTS (err ERR_UNKNOWN))
  | OtherViolation => fail storage_error
  end.

(** ** Create *)
Definition unspendableMinedTxDAH (tx : Tx) (blockHeight : Z) (options : CreateOptions) : option Z :=
  if co_Conflicting options || bool_decide (length (co_MinedBlockInfos options) = 0%nat) then None
  else if env_retention env =? 0 then None
  else if existsb (λ o, match o with
                        | Some output =>
                            ShouldStoreOutputAsUTXO output blockHeight (GenesisActivationHeight params)
                        | None => false
                        end) (Outputs tx) then None
  else Some (blockHeight + env_retention env).

(** An input without its unlocking script violates a NOT NULL constraint. *)
Definition insert_input (input : TxInput) : M unit :=
  insert (λ db, (match UnlockingScript input with Some _ => Inserted | None => OtherViolation end, db)).

Fixpoint createOutputsPerRow (transactionID : Z) (txHash : Hash) (coinbaseSpendingHeight : Z)
    (i : Z) (outputs : list (option TxOutput)) : M unit :=
  match outputs with
  | [] => mret tt
  | None :: outputs => createOutputsPerRow transactionID txHash coinbaseSpendingHeight (i + 1) outputs
  | Some output :: outputs =>
      _ ← of_result (guard? i <? 2^32 else driver_error in Ok tt);
      utxoHash ← of_result (UTXOHashFromOutput txHash (Some output) i);
      _ ← insert (insert_output (transactionID, i)
                    (mkOutputRow (hash_bytes utxoHash) coinbaseSpendingHeight None false None));
      createOutputsPerRow transactionID txHash coinbaseSpendingHeight (i + 1) outputs
  end.

(** The row inserted first; its blocks and children come with later inserts. *)
Definition new_row (txHash : Hash) (tx : Tx) (blockHeight : Z) (options : CreateOptions) (now : Z)
  : tx_row :=
  mkTxRow txHash (co_Frozen options) (co_Conflicting options) (co_Locked options) []
    (if bool_decide (length (co_MinedBlockInfos options) = 0%nat) then Some blockHeight else None)
    None (unspendableMinedTxDAH tx blockHeight options)
    (stored_tx (co_SkipExtendedInputs options) tx) [] now.

Definition create_rows (txHash : Hash) (tx : Tx) (blockHeight : Z) (options : CreateOptions)
    (transactionID now : Z) : M unit :=
  let isCoinbase := default (IsCoinbase tx) (co_IsCoinbase options) in
  let coinbaseSpendingHeight :=
    if isCoinbase then u32 (blockHeight + u32 (CoinbaseMaturity params)) else 0 in
  _ ← insert (insert_tx transactionID (new_row txHash tx blockHeight options now));
  _ ← each insert_input (Inputs tx);
  _ ← createOutputsPerRow transactionID txHash coinbaseSpendingHeight 0 (Outputs tx);
  _ ← each (λ info, insert (insert_block_row transactionID info)) (co_MinedBlockInfos options);
  if co_Conflicting options
  then updateParentConflictingChildren fault transactionID (parentHashesOf tx)
  else mret tt.

Definition createWithRetry (tx : Tx) (blockHeight : Z) (options : CreateOptions) : M unit := λ s,
  (_ ← of_result (if co_SkipExtendedInputs options then Ok 0 else wrapR ERR_PROCESSING (GetFees tx));
   transaction driver_error driver_error
     (create_rows (default (TxIDChainHash tx) (co_TxID options)) tx blockHeight options
        (serial (ticks s)) (clock (ticks s)))) s.

(** ** Delete: the dependent rows, then the transaction. *)
Definition delete_outputs (hash : Hash) (db : DB) : DB :=
  mkDB (db_ids db) (db_txs db)
    (filter (λ '((id, _), _), db_ids db !! hash ≠ Some id) (db_outputs db)) (db_intents db).

Definition empty_body (t : tx_row) : tx_row :=
  mkTxRow (t_hash t) (t_frozen t) (t_conflicting t) (t_locked t) (t_blocks t) (t_unmined_since t)
    (t_preserve_until t) (t_delete_at_height t)
    (mkTx (TxVersion (t_body t)) [] (Outputs (t_body t)) (LockTime (t_body t)))
    (t_conflicting_children t) (t_created_at t).

Definition Delete (hash : Hash) : M unit :=
  transaction driver_error driver_error (
    _ ← query driver_error (write (on_row hash (set_blocks [])));
    _ ← query driver_error (write (delete_outputs hash));
    _ ← query driver_error (write (on_row hash empty_body));
    _ ← query driver_error (λ db, delete_txs (in_ids (ids_in [hash] db)) db);
    mret tt).

(** ** Freezing *)
Definition check_freeze (spend : Spend) : M Z :=
  row ← auto driver_error (read (select_output (sp_TxID spend) (sp_Vout spend)));
  match row with
  | None => fail driver_error
  | Some (id, _, o) =>
      match o_spending_data o with
      | Some bytes =>
          _ ← of_result (wrapR ERR_PROCESSING (NewSpendingDataFromBytes bytes));
          fail (err ERR_UTXO_SPENT)
      | None => if o_frozen o then fail (err ERR_UTXO_FROZEN) else mret id
      end
  end.

Definition check_unfreeze (spend : Spend) : M Z :=
  row ← auto driver_error (read (select_output (sp_TxID spend) (sp_Vout spend)));
  match row with
  | None => fail driver_error
  | Some (id, _, o) => if o_frozen o then mret id else fail (err ERR_UTXO_FROZEN)
  end.

(** [txHashIDMap]: the last id read for each transaction. *)
Definition txHashIDMap (spends : list Spend) (ids : list Z) : gmap Hash Z :=
  foldl (λ m '(spend, id), <[sp_TxID spend := id]> m) ∅ (zip spends ids).

(** [UPDATE outputs SET ... WHERE transaction_id AND idx AND ...] *)
Definition update_output (k : Z * Z) (sel : output_row → bool) (f : output_row → output_row)
    (db : DB) : DB :=
  match db_outputs db !! k with
  | Some o => if sel o then put_output k (f o) db else db
  | None => db
  end.

Definition is_unspent (o : output_row) : bool := bool_decide (o_spending_data o = None).

Definition freeze_each (check : Spend → M Z) (sel : output_row → bool) (frozen : bool)
    (spends : list Spend) : M unit :=
  ids ← traverse check spends;
  each (λ spend,
    let id := default 0 (txHashIDMap spends ids !! sp_TxID spend) in
    auto driver_error (write (update_output (id, sp_Vout spend) sel (set_frozen frozen)))) spends.

Definition FreezeUTXOs : list Spend → M unit := freeze_each check_freeze is_unspent true.

Definition UnFreezeUTXOs : list Spend → M unit :=
  freeze_each check_unfreeze (λ o, is_unspent o && o_frozen o) false.

(** [setting] is the configured delay, [None] without settings. *)
Definition ReAssignUTXO (utxo newUtxo : Spend) (setting : option Z) : M unit :=
  id ← check_unfreeze utxo;
  let reassignBlocks :=
    match setting with
    | Some n => if n >? 0 then n else ReAssignedUtxoSpendableAfterBlocks
    | None => ReAssignedUtxoSpendableAfterBlocks
    end in
  let spendableIn := u32 (env_height env + reassignBlocks) in
  auto driver_error (write (update_output (id, sp_Vout utxo) (λ o, is_unspent o && o_frozen o)
    (λ o, mkOutputRow (hash_bytes (sp_UTXOHash newUtxo)) (o_coinbase_spending_height o)
            (o_spending_data o) false (Some spendableIn)))).

(** ** Conflict intents *)
Definition intent_row_of (ci : ConflictIntent) : intent_row :=
  mkIntentRow (ci_Kind ci) (ci_BlockHeight ci) (hash_bytes (ci_BlockHash ci))
    (encodeIntentHashes (ci_TxHashes ci)) (ci_StartedAt ci).

Definition set_intents (f : gmap Hash intent_row → gmap Hash intent_row) (db : DB) : DB :=
  mkDB (db_ids db) (db_txs db) (db_outputs db) (f (db_intents db)).

Definition BeginConflictIntent (ci : ConflictIntent) : M unit :=
  auto storage_error (write (set_intents (λ m,
    match m !! IntentID ci with
    | Some _ => m
    | None => <[IntentID ci := intent_row_of ci]> m
    end))).

Definition CompleteConflictIntent (intentID : Hash) : M unit :=
  auto storage_error (write (set_intents (delete intentID))).

Definition decode_intent (row : intent_row) : result ConflictIntent :=
  let? bh := wrapR ERR_STORAGE_ERROR (foreignR (NewHash (in_block_hash row))) in
  let? hashes := wrapR ERR_STORAGE_ERROR (decodeIntentHashes (in_tx_hashes row)) in
  Ok (mkIntent (in_kind row) (u32 (in_block_height row)) bh hashes (in_started_at row)).

Definition PendingConflictIntents : M (list ConflictIntent) :=
  rows ← auto storage_error (read (λ db, map snd (map_to_list (db_intents db))));
  of_result (foldr (λ row rest, let? ci := decode_intent row in let? rest := rest in Ok (ci :: rest))
               (Ok []) rows).

(** ** Deleting what is due *)

(** The rows [clearUnminedDeleteAtHeight] updates; its failure is only logged. *)
Definition due (blockHeight : Z) (t : tx_row) : bool :=
  match t_delete_at_height t with Some h => h <=? blockHeight | None => false end.

Definition clear_unmined (blockHeight : Z) (db : DB) : nat * DB :=
  update_txs (λ _ t, due blockHeight t && bool_decide (is_Some (t_unmined_since t)) &&
                     negb (t_conflicting t) && bool_decide (t_preserve_until t = None))
    (λ _, set_dah None) db.

Definition clearUnminedDeleteAtHeight (blockHeight : Z) : M unit := λ s,
  (Ok tt, (auto storage_error (clear_unmined blockHeight) s).2).

(** The spender named by an output is mined, and in a block that deep. *)
Definition stable_spender (db : DB) (stableHeight : Z) (data : list byte) : bool :=
  existsb (λ '(_, child),
    bool_decide (hash_bytes (t_hash child) = take 32 data) &&
    bool_decide (t_unmined_since child = None) &&
    existsb (λ '(_, height), height <=? stableHeight) (t_blocks child)) (map_to_list (db_txs db)).

Definition has_unstable_child (db : DB) (stableHeight id : Z) : bool :=
  existsb (λ '((i, _), o),
    bool_decide (i = id) &&
    match o_spending_data o with
    | Some data => negb (stable_spender db stableHeight data)
    | None => false
    end) (map_to_list (db_outputs db)).

Definition tombstoned (defensiveEnabled : bool) (blockHeight safetyWindow : Z) (db : DB)
    (id : Z) (t : tx_row) : bool :=
  due blockHeight t && (bool_decide (t_unmined_since t = None) || t_conflicting t) &&
  (negb defensiveEnabled || negb (has_unstable_child db (blockHeight - safetyWindow) id)).

Definition deleteTombstoned (defensiveEnabled : bool) (blockHeight safetyWindow : Z) : M nat :=
  _ ← clearUnminedDeleteAtHeight blockHeight;
  auto storage_error (λ db, delete_txs (tombstoned defensiveEnabled blockHeight safetyWindow db) db).

End Lifecycle.
