(* ===== verification/UtxoSqlInvariant.v ===== *)
(** * What every operation of the SQL UTXO store preserves

    The tables stay consistent (the hash index and the foreign keys), and a
    delete-at-height is only ever on a record that may go: a conflicting one, one
    whose outputs are all spent, or one that never had a spendable output; never
    on a preserved one, and never when the retention is zero.  The rules are
    those of a predicate transformer for the store's computations. *)

From stdpp Require Import sorting.
From stdpp Require Import list.
From S2P Require Import Prelude External BlockHeader BlockReward Utxo UtxoSql.
From S2P Require Import UtxoSqlSpend UtxoSqlOps UtxoSqlMarks UtxoSqlLifecycle.

(** ** Preserving a property of the committed database *)
Section Preserve.
  Context (I : DB → Prop).

(** Inside a transaction: the committed database is not touched, and a
    successful computation leaves a good view. *)
Definition keeps {A} (m : M A) : Prop := ∀ s r s', I (view s) → m s = (r, s') →
  committed s' = committed s ∧ match r with Ok _ => I (view s') | Err _ => True end.

(** A whole operation. *)
Definition safe {A} (m : M A) : Prop := ∀ s r s', I (committed s) → m s = (r, s') →
  I (committed s').

Lemma keeps_ret {A} (a : A) : keeps (mret a).
Proof. by intros s r s' Hs [= <- <-]. Qed.
Lemma keeps_fail {A} e : keeps (fail (S := txn) (A := A) e).
Proof. by intros s r s' Hs [= <- <-]. Qed.
Lemma keeps_of_result {A} (x : result A) : keeps (of_result x).
Proof. intros s r s' Hs [= <- <-]. by destruct x. Qed.

Lemma keeps_bind {A B} (m : M A) (f : A → M B) : keeps m → (∀ a, keeps (f a)) → keeps (m ≫= f).
Proof.
  intros Hm Hf s r s' Hs E. unfold mbind, SM_bind in E.
  destruct (m s) as [[a|e] s1] eqn:Em; destruct (Hm _ _ _ Hs Em) as [Hc Hv].
  - destruct (Hf a _ _ _ Hv E) as [Hc' Hv']. by rewrite Hc', Hc.
  - by injection E as <- <-.
Qed.

Lemma keeps_each {A} (f : A → M unit) l : (∀ x, keeps (f x)) → keeps (each f l).
Proof.
  intros Hf. induction l as [|x l IH]; simpl; [apply keeps_ret|].
  apply keeps_bind; [apply Hf|]. by intros [].
Qed.

Lemma keeps_if {A} (b : bool) (m n : M A) : keeps m → keeps n → keeps (if b then m else n).
Proof. by destruct b. Qed.

Lemma safe_ret {A} (a : A) : safe (mret a).
Proof. by intros s r s' Hs [= <- <-]. Qed.
Lemma safe_fail {A} e : safe (fail (S := txn) (A := A) e).
Proof. by intros s r s' Hs [= <- <-]. Qed.
Lemma safe_of_result {A} (x : result A) : safe (of_result x).
Proof. by intros s r s' Hs [= <- <-]. Qed.
Lemma safe_bind {A B} (m : M A) (f : A → M B) : safe m → (∀ a, safe (f a)) → safe (m ≫= f).
Proof.
  intros Hm Hf s r s' Hs E. unfold mbind, SM_bind in E.
  destruct (m s) as [[a|e] s1] eqn:Em; pose proof (Hm _ _ _ Hs Em) as Hc.
  - exact (Hf a _ _ _ Hc E).
  - by injection E as <- <-.
Qed.
Lemma safe_each {A} (f : A → M unit) l : (∀ x, safe (f x)) → safe (each f l).
Proof.
  intros Hf. induction l as [|x l IH]; simpl; [apply safe_ret|].
  apply safe_bind; [apply Hf|]. by intros [].
Qed.
Lemma safe_traverse {A B} (f : A → M B) l : (∀ x, safe (f x)) → safe (traverse f l).
Proof.
  intros Hf. induction l as [|x l IH]; simpl; [apply safe_ret|].
  apply safe_bind; [apply Hf|]. intros. apply safe_bind; [done|]. intros. apply safe_ret.
Qed.
Lemma safe_if {A} (b : bool) (m n : M A) : safe m → safe n → safe (if b then m else n).
Proof. by destruct b. Qed.

Section Statements.
  Context (fault : nat → option DbFault) (others : nat → DB → DB) (cancelled : nat → bool).
  Context (others_ok : ∀ n db, I db → I (others n db)).

Lemma keeps_query {A} e (run : DB → A * DB) : (∀ db, I db → I (run db).2) →
  keeps (query fault e run).
Proof.
  intros Hr s r s' Hs E. unfold query in E.
  destruct (stmt fault run s) as [[a|f] s1] eqn:Es; injection E as <- <-.
  - apply stmt_inl in Es as [Ev Ec]. split; [done|]. specialize (Hr _ Hs). by rewrite Ev in Hr.
  - by apply stmt_inr in Es as [_ Ec].
Qed.

Lemma finish_ok {A} (m : M A) s r s' : keeps m → I (committed s) →
  finish (m (arrive others s)) = (r, s') → I (committed s').
Proof.
  intros Hm Hs E. specialize (others_ok (ticks s) _ Hs).
  destruct (m (arrive others s)) as [[a|e] s1] eqn:Em; simpl in E; injection E as <- <-;
    destruct (Hm (arrive others s) _ _ others_ok Em) as [Hc Hv]; simpl; [done|]. by rewrite Hc.
Qed.

Lemma safe_auto {A} e (run : DB → A * DB) : (∀ db, I db → I (run db).2) →
  safe (auto fault others e run).
Proof. intros Hr s r s' Hs E. eapply finish_ok; [by apply (keeps_query e run)|done|exact E]. Qed.

Lemma safe_transaction {A} e1 e2 (body : M A) : keeps body →
  safe (transaction fault others e1 e2 body).
Proof.
  intros Hb s r s' Hs E. unfold transaction in E. eapply finish_ok; [|done|exact E].
  repeat (apply keeps_bind; [first [by apply keeps_query | done]|intros]). apply keeps_ret.
Qed.

Lemma safe_check_ctx : safe (check_ctx cancelled).
Proof. intros s r s' Hs. unfold check_ctx. by destruct (cancelled _); intros [= <- <-]. Qed.
End Statements.
End Preserve.

(** A first step that reaches a stronger property for the rest to keep. *)
Lemma keeps_bind_to {A B} (I J : DB → Prop) (m : M A) (f : A → M B) :
  (∀ s r s', I (view s) → m s = (r, s') →
     committed s' = committed s ∧ match r with Ok _ => J (view s') | Err _ => True end) →
  (∀ db, J db → I db) → (∀ a, keeps J (f a)) → keeps I (m ≫= f).
Proof.
  intros Hm HJ Hf s r s' Hs E. unfold mbind, SM_bind in E.
  destruct (m s) as [[a|e] s1] eqn:Em; destruct (Hm _ _ _ Hs Em) as [Hc Hv].
  - destruct (Hf a _ _ _ Hv E) as [Hc' Hv']. rewrite Hc', Hc. split; [done|].
    destruct r; [by apply HJ|done].
  - injection E as <- <-. by split.
Qed.

Create HintDb store.
#[export] Hint Resolve keeps_ret keeps_fail keeps_of_result safe_ret safe_fail safe_of_result : store.

(** ** The invariant *)
Definition no_unspent (id : Z) (db : DB) : Prop := ∀ vout o,
  db_outputs db !! (id, vout) = Some o → o_spending_data o ≠ None.

Lemma unspent_count_zero id db : unspent_count id db = 0%nat ↔ no_unspent id db.
Proof.
  unfold unspent_count. rewrite map_size_empty_iff. split.
  - intros H vout o Ho En.
    assert (Hf : filter (λ '((i, _), o), i = id ∧ o_spending_data o = None) (db_outputs db)
                   !! (id, vout) = Some o) by (by apply map_lookup_filter_Some).
    by rewrite H in Hf.
  - intros H. apply map_empty. intros [i vout]. apply map_lookup_filter_None_2. right.
    intros o Ho [-> En]. by apply (H vout o).
Qed.

Section Invariant.
  Context (genesisActivationHeight retention : Z).

(** A record none of whose outputs could be spent at some height. *)
Definition carrier (t : tx_row) : Prop := ∃ height,
  Forall (λ o, match o with
               | Some output =>
                   ShouldStoreOutputAsUTXO output height genesisActivationHeight = false
               | None => True
               end) (Outputs (t_body t)).

Record dah_ok (db : DB) (id : Z) (t : tx_row) : Prop := {
  dah_retention : retention = 0 → t_delete_at_height t = None;
  dah_spent : is_Some (t_delete_at_height t) → t_conflicting t = false →
    no_unspent id db ∨ carrier t;
  dah_preserve : is_Some (t_preserve_until t) → t_delete_at_height t = None;
}.

Record Inv (db : DB) : Prop := {
  inv_ids h id : db_ids db !! h = Some id → ∃ t, db_txs db !! id = Some t ∧ t_hash t = h;
  inv_hash id t : db_txs db !! id = Some t → db_ids db !! t_hash t = Some id;
  inv_fk id vout o : db_outputs db !! (id, vout) = Some o → is_Some (db_txs db !! id);
  inv_dah id t : db_txs db !! id = Some t → dah_ok db id t;
}.

(** Only the dah-relevant fields of a row matter. *)
Lemma dah_ok_none db id t : t_delete_at_height t = None → dah_ok db id t.
Proof. intros H. split; rewrite ?H; [done| |done]. intros [x Hx]. discriminate. Qed.

Lemma dah_ok_same db id t t' : dah_ok db id t →
  t_delete_at_height t' = t_delete_at_height t → t_preserve_until t' = t_preserve_until t →
  t_conflicting t' = t_conflicting t → Outputs (t_body t') = Outputs (t_body t) → dah_ok db id t'.
Proof.
  intros [H1 H2 H3] Ed Ep Ec Eb. split; rewrite ?Ed, ?Ep, ?Ec; [done| |done].
  intros Hd Hc. destruct (H2 Hd Hc) as [|[h Hh]]; [by left|right; exists h; by rewrite Eb].
Qed.

(** A row that gets a height it may have. *)
Lemma dah_ok_set db id t dah : dah_ok db id t → (retention = 0 → dah = None) →
  (is_Some (t_preserve_until t) → dah = None ∨ dah = t_delete_at_height t) →
  (is_Some dah → t_conflicting t = false → is_Some (t_delete_at_height t) ∨ no_unspent id db) →
  dah_ok db id (set_dah dah t).
Proof.
  intros [H1 H2 H3] Hr Hp Hs. split; simpl; [done| |].
  - intros Hd Hc. destruct (Hs Hd Hc) as [H|H]; [|by left]. by apply H2.
  - intros Hp'. destruct (Hp Hp') as [-> | ->]; auto.
Qed.

(** Spending outputs, or taking them away, never hurts. *)
Lemma dah_ok_outputs db db' id t : dah_ok db id t → (no_unspent id db → no_unspent id db') →
  dah_ok db' id t.
Proof. intros [H1 H2 H3] Hn. split; try done. intros Hd Hc. destruct (H2 Hd Hc); auto. Qed.

Lemma Inv_update sel f db : Inv db →
  (∀ id t, db_txs db !! id = Some t → sel id t = true → dah_ok db id t →
     t_hash (f id t) = t_hash t ∧ dah_ok db id (f id t)) →
  Inv (update_txs sel f db).2.
Proof.
  intros [H1 H2 H3 H4] Hf. split; simpl.
  - intros h id Hid. destruct (H1 _ _ Hid) as (t & Ht & Hh). eexists.
    split; [rewrite map_lookup_imap, Ht; reflexivity|]. simpl.
    destruct (sel id t) eqn:E; [|done]. by rewrite (proj1 (Hf id t Ht E (H4 _ _ Ht))).
  - intros id t'. rewrite map_lookup_imap. destruct (db_txs db !! id) as [t|] eqn:Ht; simpl; [|done].
    intros [= <-]. destruct (sel id t) eqn:E; [|by apply H2].
    rewrite (proj1 (Hf id t Ht E (H4 _ _ Ht))). by apply H2.
  - intros id vout o Ho. rewrite map_lookup_imap. destruct (H3 _ _ _ Ho) as [t ->]. by eexists.
  - intros id t'. rewrite map_lookup_imap. destruct (db_txs db !! id) as [t|] eqn:Ht; simpl; [|done].
    intros [= <-]. destruct (sel id t) eqn:E.
    + by apply (dah_ok_outputs db); [apply Hf; auto|].
    + by apply (dah_ok_outputs db); [apply H4|].
Qed.

Lemma Inv_put_tx db id t t' : Inv db → db_txs db !! id = Some t → t_hash t' = t_hash t →
  dah_ok db id t' → Inv (put_tx id t' db).
Proof.
  intros [H1 H2 H3 H4] Ht Hh Hd. split; simpl.
  - intros h i Hi. destruct (H1 _ _ Hi) as (u & Hu & Hhu).
    destruct (decide (i = id)) as [->|Hne].
    + exists t'. rewrite lookup_insert_eq. split; [done|congruence].
    + exists u. by rewrite lookup_insert_ne by done.
  - intros i u. destruct (decide (i = id)) as [->|Hne].
    + rewrite lookup_insert_eq. intros [= <-]. rewrite Hh. by apply H2.
    + rewrite lookup_insert_ne by done. apply H2.
  - intros i vout o Ho. apply lookup_insert_is_Some'. right. exact (H3 _ _ _ Ho).
  - intros i u. destruct (decide (i = id)) as [->|Hne].
    + rewrite lookup_insert_eq. intros [= <-]. by apply (dah_ok_outputs db).
    + rewrite lookup_insert_ne by done. intros Hu. by apply (dah_ok_outputs db); [apply H4|].
Qed.

(** Same rows and same or fewer unspent outputs. *)
Lemma Inv_outputs db db' : Inv db → db_ids db' = db_ids db → db_txs db' = db_txs db →
  (∀ id vout o', db_outputs db' !! (id, vout) = Some o' → is_Some (db_outputs db !! (id, vout)) ∧
     (o_spending_data o' = None →
      ∃ o, db_outputs db !! (id, vout) = Some o ∧ o_spending_data o = None)) →
  Inv db'.
Proof.
  intros [H1 H2 H3 H4] Ei Et Ho. split; rewrite ?Ei, ?Et; try done.
  - intros id vout o Hk. destruct (Ho _ _ _ Hk) as [[o0 H0] _]. exact (H3 _ _ _ H0).
  - intros id t Ht. apply (dah_ok_outputs db); [by apply H4|]. intros Hn vout o Hk En.
    destruct (proj2 (Ho _ _ _ Hk) En) as (o0 & H0 & En0). by apply (Hn vout o0).
Qed.

(** ** The delete-at-height rules *)
Definition dah_allowed (db : DB) (id : Z) (t : tx_row) (dah : option Z) : Prop :=
  (is_Some (t_preserve_until t) → dah = t_delete_at_height t) ∧
  (is_Some dah → t_conflicting t = false → is_Some (t_delete_at_height t) ∨ no_unspent id db).

Lemma fully_spent_true id db : fully_spent id db = true → no_unspent id db.
Proof. intros H. apply bool_decide_eq_true in H. by apply unspent_count_zero. Qed.

Lemma mined_dah_allowed db id t n : dah_allowed db id t (mined_dah n (fully_spent id db) t).
Proof.
  unfold mined_dah. split; intros Hd.
  - by rewrite bool_decide_true.
  - intros Hc. case_bool_decide; [by left|]. destruct (t_delete_at_height t); [by left; eexists|].
    destruct (fully_spent id db) eqn:E; [right; by apply fully_spent_true|by destruct Hd].
Qed.

Lemma fork_dah_allowed db id t n : dah_allowed db id t (fork_dah n (fully_spent id db) t).
Proof.
  unfold fork_dah. split; intros Hd.
  - by rewrite bool_decide_true.
  - intros Hc. case_bool_decide; [by left|]. rewrite Hc in *.
    destruct (bool_decide _ && _) eqn:E; [|by destruct Hd].
    apply andb_prop in E as [_ E]. right. by apply fully_spent_true.
Qed.

Lemma unlock_dah_allowed db id t n : dah_allowed db id t (unlock_dah n (fully_spent id db) t).
Proof.
  unfold unlock_dah. split; intros Hd.
  - by rewrite bool_decide_true.
  - intros Hc. case_bool_decide; [by left|]. rewrite Hc in *. cbn [andb] in *.
    destruct (fully_spent id db) eqn:E; [right; by apply fully_spent_true|by destruct Hd].
Qed.

Lemma longest_dah_allowed db id t n r : dah_allowed db id t (longest_dah n r (fully_spent id db) t).
Proof.
  unfold longest_dah. split; intros Hd.
  - by rewrite bool_decide_true.
  - intros Hc. case_bool_decide; [by left|]. rewrite Hc in *.
    destruct (t_has_blocks t && _) eqn:E; [|by destruct Hd].
    apply andb_prop in E as [_ E]. right. by apply fully_spent_true.
Qed.

Lemma dah_ok_allowed db id t t' dah : retention ≠ 0 → dah_ok db id t → dah_allowed db id t dah →
  t_preserve_until t' = t_preserve_until t → t_conflicting t' = t_conflicting t →
  t_body t' = t_body t → dah_ok db id (set_dah dah t').
Proof.
  intros Hr [H1 H2 H3] [Hp Hs] Ep Ec Eb. split; simpl; rewrite ?Ep, ?Ec; [done| |].
  - intros Hd Hc. destruct (Hs Hd Hc) as [H|H]; [|by left].
    unfold carrier; simpl. rewrite Eb. by apply H2.
  - intros Hp'. rewrite (Hp Hp'). by apply H3.
Qed.
End Invariant.

#[export] Hint Resolve mined_dah_allowed fork_dah_allowed unlock_dah_allowed longest_dah_allowed : store.

(** A row update that only touches what the invariant does not look at. *)
Ltac same_row := first
  [ by (split; [done|]; match goal with H : dah_ok _ _ _ _ _ |- _ => by eapply dah_ok_same; [exact H|..] end)
  | match goal with H : dah_ok _ _ _ _ _ |- _ => by eapply dah_ok_same; [exact H|..] end ].

Section Statements.
  Context (G : Z) (env : StoreEnv) (unminedRetention : Z).
  Context `{CH : Chainhash} {BT : BtTx} {ST : Subtree}.

Abbreviation good := (Inv G (env_retention env)).

(** *** The row updates *)
Lemma Inv_unlock hashes db : good db →
  good (update_txs (in_ids (ids_in hashes db)) (λ _, set_locked false) db).2.
Proof. intros. apply Inv_update; [done|]. intros. same_row. Qed.

Lemma Inv_unlock_bulk hashes db : good db → good (unlock_bulk env hashes db).2.
Proof.
  intros. unfold unlock_bulk. destruct (Z.eqb_spec (env_retention env) 0); [by apply Inv_unlock|].
  apply Inv_update; [done|]. intros id t Ht _ Hd. split; [done|].
  eapply dah_ok_allowed; eauto with store.
Qed.

Lemma Inv_lock hashes db : good db →
  good (update_txs (in_ids (ids_in hashes db)) (λ _, locked_row) db).2.
Proof. intros. apply Inv_update; [done|]. intros. split; [done|]. by apply dah_ok_none. Qed.

Lemma Inv_write_blocks hashes info db : good db → good (write_blocks hashes info db).2.
Proof.
  intros. apply Inv_update; [done|]. intros.
  unfold remove_block, insert_block. destruct (mb_UnsetMined info); [same_row|].
  case_bool_decide; [done|same_row].
Qed.

Lemma Inv_mark_mined hashes n db : good db → good (mark_mined env hashes n db).2.
Proof.
  intros. apply Inv_update; [done|]. intros id t Ht _ Hd.
  destruct (Z.gtb_spec (env_retention env) 0); [|same_row].
  split; [done|]. eapply dah_ok_allowed; eauto with store; lia.
Qed.

Lemma Inv_stamp_unmined hashes h db : good db → good (stamp_unmined hashes h db).2.
Proof. intros. apply Inv_update; [done|]. intros. same_row. Qed.

Lemma Inv_mark_fork hashes n db : env_retention env >? 0 = true → good db →
  good (mark_fork hashes n db).2.
Proof.
  intros Hr ?. apply Inv_update; [done|]. intros id t Ht _ Hd.
  split; [done|]. eapply dah_ok_allowed; eauto with store; lia.
Qed.

Lemma Inv_mark_longest hashes db : good db → good (mark_longest env hashes db).2.
Proof.
  intros. apply Inv_update; [done|]. intros id t Ht _ Hd.
  destruct (Z.gtb_spec (env_retention env) 0); [|same_row].
  split; [done|]. eapply dah_ok_allowed; eauto with store; lia.
Qed.

Lemma Inv_mark_off hashes db : good db → good (mark_off env unminedRetention hashes db).2.
Proof. intros. apply Inv_update; [done|]. intros. same_row. Qed.

Lemma Inv_preserve_rows hashes h db : good db → good (preserve_rows hashes h db).2.
Proof. intros. apply Inv_update; [done|]. intros. split; [done|]. by apply dah_ok_none. Qed.

Lemma Inv_expire_rows h db : good db → good (expire_rows env h db).2.
Proof.
  intros. apply Inv_update; [done|]. intros id t Ht Hs Hd. split; [done|].
  assert (Hp : is_Some (t_preserve_until t))
    by (unfold preservation_over in Hs; destruct (t_preserve_until t); [by eexists|done]).
  destruct (Z.eqb_spec (env_retention env) 0) as [E|Hr].
  - apply dah_ok_none. simpl. by eapply dah_preserve.
  - split; simpl; [done| |by intros [x Hx]].
    intros [x Hx] Hc. left. unfold expired_dah in Hx. rewrite Hc in Hx.
    destruct (bool_decide _ && _ && fully_spent id db) eqn:E; [|done].
    apply andb_prop in E as [_ E]. by apply fully_spent_true.
Qed.

Lemma Inv_clear_unmined h db : good db → good (clear_unmined h db).2.
Proof. intros. apply Inv_update; [done|]. intros. split; [done|]. by apply dah_ok_none. Qed.

(** *** Single rows *)
Lemma Inv_on_row hash f db : good db →
  (∀ db id t, dah_ok G (env_retention env) db id t →
     t_hash (f t) = t_hash t ∧ dah_ok G (env_retention env) db id (f t)) →
  good (on_row hash f db).
Proof.
  intros Hi Hf. unfold on_row. destruct (db_ids db !! hash) as [id|]; [|done].
  destruct (db_txs db !! id) as [t|] eqn:Ht; [|done].
  destruct (Hf db id t (inv_dah _ _ _ Hi _ _ Ht)). by apply (Inv_put_tx _ _ _ _ t).
Qed.

Lemma Inv_update_conflicting b dah hash db : (env_retention env = 0 → dah = None) →
  (b = false → dah = None) → good db → good (update_conflicting b dah hash db).2.
Proof.
  intros Hr Hf Hi. unfold update_conflicting. destruct (db_ids db !! hash) as [id|]; [|done].
  destruct (db_txs db !! id) as [t|] eqn:Ht; [|done]. simpl.
  pose proof (inv_dah _ _ _ Hi _ _ Ht) as Hd.
  apply (Inv_put_tx _ _ _ _ t); [done..|]. destruct b; [|by apply dah_ok_none, Hf].
  split; simpl; [|done|].
  - intros E. rewrite (dah_retention _ _ _ _ _ Hd E), (Hr E). by destruct (bool_decide _).
  - intros Hp. rewrite bool_decide_true by done. by apply (dah_preserve _ _ _ _ _ Hd).
Qed.

Lemma Inv_insert_child parent child db : good db → good (insert_child parent child db).2.
Proof.
  intros Hi. unfold insert_child. destruct (db_ids db !! parent) as [id|]; [|done].
  destruct (db_txs db !! id) as [t|] eqn:Ht; [|done]. simpl. case_bool_decide; [done|].
  apply (Inv_put_tx _ _ _ _ t); [done..|]. pose proof (inv_dah _ _ _ Hi _ _ Ht). same_row.
Qed.

Lemma Inv_remove_child parent child db : good db → good (remove_child parent child db).
Proof.
  intros. unfold remove_child. destruct (db_ids db !! child); [|done].
  apply Inv_on_row; [done|]. intros. same_row.
Qed.

Lemma Inv_set_intents f db : good db → good (set_intents f db).
Proof. intros Hi. apply (Inv_outputs _ _ db); try done. intros id vout o Ho. split; eauto. Qed.

(** *** Outputs *)
Lemma Inv_update_output k sel f db : (∀ o, o_spending_data (f o) = o_spending_data o) →
  good db → good (update_output k sel f db).
Proof.
  intros Hf Hi. unfold update_output. destruct (db_outputs db !! k) as [o|] eqn:Ho; [|done].
  destruct (sel o); [|done]. apply (Inv_outputs _ _ db); try done. intros id vout o'. simpl.
  destruct (decide (k = (id, vout))) as [->|Hne].
  - rewrite lookup_insert_eq. intros [= <-]. rewrite Ho, Hf. eauto.
  - rewrite lookup_insert_ne by done. intros Ho'. split; eauto.
Qed.

Lemma Inv_fewer_outputs db P `{!∀ x, Decision (P x)} : good db →
  good (mkDB (db_ids db) (db_txs db) (filter P (db_outputs db)) (db_intents db)).
Proof.
  intros Hi. apply (Inv_outputs _ _ db); try done. simpl. intros id vout o Ho.
  apply map_lookup_filter_Some_1_1 in Ho. split; eauto.
Qed.

Lemma Inv_delete_outputs hash db : good db → good (delete_outputs hash db).
Proof. intros. unfold delete_outputs. by apply Inv_fewer_outputs. Qed.

(** *** Deletion *)
Lemma gone_None sel (txs : gmap Z tx_row) id t : txs !! id = Some t →
  (filter (λ '(id, t), sel id t = true) txs !! id = None ↔ sel id t = false).
Proof.
  intros Ht. rewrite map_lookup_filter_None. split.
  - intros [H|H]; [congruence|]. specialize (H _ Ht). by destruct (sel id t).
  - intros E. right. intros t' Ht'. rewrite Ht in Ht'. injection Ht' as <-. by rewrite E.
Qed.

Lemma Inv_delete_txs sel db : good db → good (delete_txs sel db).2.
Proof.
  intros [H1 H2 H3 H4]. split; simpl.
  - intros h id Hid. apply map_lookup_filter_Some in Hid as [Hid Hg].
    destruct (H1 _ _ Hid) as (t & Ht & Hh). exists t. split; [|done].
    apply map_lookup_filter_Some. split; [done|]. by apply (gone_None sel (db_txs db)).
  - intros id t Ht. apply map_lookup_filter_Some in Ht as [Ht Hs].
    apply map_lookup_filter_Some. split; [by apply H2|].
    by apply (gone_None sel (db_txs db) _ _ Ht).
  - intros id vout o Ho. apply map_lookup_filter_Some in Ho as [Ho Hg].
    destruct (H3 _ _ _ Ho) as [t Ht]. exists t. apply map_lookup_filter_Some. split; [done|].
    by apply (gone_None sel (db_txs db)).
  - intros id t Ht. apply map_lookup_filter_Some in Ht as [Ht Hs].
    apply (dah_ok_outputs _ _ db); [by apply H4|]. intros Hn vout o Ho. simpl in Ho.
    apply map_lookup_filter_Some in Ho as [Ho _]. by apply (Hn vout o).
Qed.
End Statements.

(** ** Recomputing the height of one transaction *)
Section Recompute.
  Context (G : Z) (env : StoreEnv) (fault : nat → option DbFault).

Abbreviation good := (Inv G (env_retention env)).

(** The invariant, but for the height of one transaction. *)
Record good_but (id : Z) (db : DB) : Prop := {
  gb_ids h i : db_ids db !! h = Some i → ∃ t, db_txs db !! i = Some t ∧ t_hash t = h;
  gb_hash i t : db_txs db !! i = Some t → db_ids db !! t_hash t = Some i;
  gb_fk i vout o : db_outputs db !! (i, vout) = Some o → is_Some (db_txs db !! i);
  gb_dah i t : db_txs db !! i = Some t → i ≠ id → dah_ok G (env_retention env) db i t;
  gb_retention t : db_txs db !! id = Some t → env_retention env = 0 → t_delete_at_height t = None;
  gb_preserve t : db_txs db !! id = Some t → is_Some (t_preserve_until t) →
    t_delete_at_height t = None;
}.

Lemma good_good_but id db : good db → good_but id db.
Proof.
  intros [H1 H2 H3 H4]. split; try done; [auto| |]; intros t Ht; by destruct (H4 _ _ Ht).
Qed.

Lemma good_but_row id db : good_but id db →
  (∀ t, db_txs db !! id = Some t → dah_ok G (env_retention env) db id t) → good db.
Proof.
  intros [H1 H2 H3 H4 _ _] Hr. split; try done. intros i t Ht.
  destruct (decide (i = id)) as [->|]; auto.
Qed.

(** Replace the row itself. *)
Lemma good_but_put id db t t' : good_but id db → db_txs db !! id = Some t → t_hash t' = t_hash t →
  (env_retention env = 0 → t_delete_at_height t' = None) →
  (is_Some (t_preserve_until t') → t_delete_at_height t' = None) → good_but id (put_tx id t' db).
Proof.
  intros [H1 H2 H3 H4 _ _] Ht Hh Hr Hp. split; simpl.
  - intros h i Hi. destruct (H1 _ _ Hi) as (u & Hu & Hhu). destruct (decide (i = id)) as [->|Hne].
    + exists t'. rewrite lookup_insert_eq. split; [done|congruence].
    + exists u. by rewrite lookup_insert_ne by done.
  - intros i u. destruct (decide (i = id)) as [->|Hne].
    + rewrite lookup_insert_eq. intros [= <-]. rewrite Hh. by apply H2.
    + rewrite lookup_insert_ne by done. apply H2.
  - intros i vout o Ho. apply lookup_insert_is_Some'. right. exact (H3 _ _ _ Ho).
  - intros i u Hu Hne. rewrite lookup_insert_ne in Hu by done.
    by apply (dah_ok_outputs _ _ db); [apply H4|].
  - rewrite lookup_insert_eq. by intros ? [= <-].
  - rewrite lookup_insert_eq. by intros ? [= <-].
Qed.

(** Any change of one output of the transaction. *)
Lemma good_but_put_output id vout o o' db : good_but id db → db_outputs db !! (id, vout) = Some o →
  good_but id (put_output (id, vout) o' db).
Proof.
  intros [H1 H2 H3 H4 H5 H6] Ho. split; simpl; try done.
  - intros i v u. destruct (decide ((id, vout) = (i, v))) as [[= <- <-]|Hne].
    + intros _. exact (H3 _ _ _ Ho).
    + rewrite lookup_insert_ne by done. apply H3.
  - intros i t Ht Hne. apply (dah_ok_outputs _ _ db); [by apply H4|]. intros Hn v u. simpl.
    rewrite lookup_insert_ne by congruence. apply Hn.
Qed.

Lemma compute_dah_ok db id t : env_retention env ≠ 0 →
  t_preserve_until t = None →
  dah_ok G (env_retention env) db id (set_dah (compute_dah env (unspent_count id db) t) t).
Proof.
  intros Hr Hp. split; simpl; [done| |].
  - unfold compute_dah. intros Hd Hc. rewrite Hc in Hd. left.
    destruct (bool_decide _ && _ && _) eqn:E; [|by destruct Hd].
    apply andb_prop in E as [E _]. apply andb_prop in E as [E _].
    apply bool_decide_eq_true in E. by apply unspent_count_zero.
  - rewrite Hp. by intros [].
Qed.

Lemma setDAH_committed id s r s' : setDAH env fault id s = (r, s') → committed s' = committed s.
Proof.
  unfold setDAH. destruct (_ =? _); [by intros [= <- <-]|].
  destruct (stmt fault _ s) as [[[[n t]|]|f] s1] eqn:E1;
    [apply stmt_inl in E1 as [_ E1]..|apply stmt_inr in E1 as [_ E1]];
    [|by intros [= <- <-]|by intros [= <- <-]].
  case_bool_decide; [by intros [= <- <-]|]. destruct (dahUnchanged _ _); [by intros [= <- <-]|].
  destruct (stmt fault _ s1) as [[u|f] s2] eqn:E2;
    [apply stmt_inl in E2 as [_ E2]|apply stmt_inr in E2 as [_ E2]];
    intros [= <- <-]; congruence.
Qed.

Lemma setDAH_good id s s' : good_but id (view s) → setDAH env fault id s = (None, s') →
  good (view s') ∧ committed s' = committed s.
Proof.
  intros Hb. unfold setDAH. destruct (Z.eqb_spec (env_retention env) 0) as [Hr|Hr].
  { intros [= <-]. split; [|done]. apply (good_but_row _ _ Hb). intros t Ht.
    apply dah_ok_none. by apply (gb_retention _ _ Hb). }
  destruct (stmt fault _ s) as [[[[n t]|]|f] s1] eqn:E1; try done.
  apply stmt_inl in E1 as [E1 Ec1].
  assert (Ev : view s1 = view s) by (by destruct (db_txs (view s) !! id); injection E1).
  assert (Ht : db_txs (view s1) !! id = Some t ∧ n = unspent_count id (view s1)).
  { rewrite Ev. destruct (db_txs (view s) !! id); [|done]. by injection E1 as <- <- _. }
  clear E1. rewrite <- Ev in Hb. destruct Ht as [Ht ->].
  case_bool_decide as Hp.
  { intros [= <-]. split; [|done]. apply (good_but_row _ _ Hb). intros u Hu. apply dah_ok_none.
    apply (gb_preserve _ _ Hb u Hu). congruence. }
  assert (Hpn : t_preserve_until t = None) by (by apply eq_None_not_Some).
  pose proof (compute_dah_ok (view s1) id t Hr Hpn) as Hok.
  destruct (dahUnchanged _ _) eqn:Eu.
  { intros [= <-]. split; [|done]. apply (good_but_row _ _ Hb). intros u Hu.
    rewrite Ht in Hu. injection Hu as <-.
    assert (t_delete_at_height t = compute_dah env (unspent_count id (view s1)) t) as Ed.
    { destruct (t_delete_at_height t), (compute_dah _ _ _); try done. simpl in Eu. f_equal. lia. }
    by rewrite <- Ed, set_dah_same in Hok. }
  destruct (stmt fault _ s1) as [[[]|f] s2] eqn:E2; [|done]. intros [= <-].
  apply stmt_inl in E2 as [E2 Ec2]. rewrite Ht in E2. injection E2 as E2. rewrite <- E2.
  split; [|congruence].
  apply (good_but_row id).
  - apply (good_but_put _ _ t); try done; apply Hok.
  - simpl. rewrite lookup_insert_eq. intros u [= <-]. by apply (dah_ok_outputs _ _ (view s1)).
Qed.

Lemma keeps_setDAH id : keeps good (setDAH_M env fault id).
Proof.
  intros s r s' Hs. unfold setDAH_M. destruct (setDAH env fault id s) as [[f|] s1] eqn:E;
    intros [= <- <-].
  - split; [|done]. by apply setDAH_committed in E.
  - apply setDAH_good in E as [Hv Hc]; [done|by apply good_good_but].
Qed.
End Recompute.

(** Take a computation apart down to its statements. *)
Ltac store_parts := repeat first
  [ apply keeps_bind | apply safe_bind | apply keeps_if | apply safe_if
  | progress intros
  | match goal with
    | |- keeps _ (match ?x with _ => _ end) => destruct x
    | |- safe _ (match ?x with _ => _ end) => destruct x
    | |- keeps _ (let _ := _ in _) => cbv zeta
    | |- safe _ (let _ := _ in _) => cbv zeta
    end
  | solve [eauto with store] ].
