(* ===== verification/UtxoSqlReach.v ===== *)
(** * The reachable states of the SQL UTXO store

    On an engine that runs transactions one after another (SQLite) every
    operation of the store preserves the invariant of UtxoSqlInvariant, whatever
    its statements' faults and whatever other operations commit before its
    transactions and between its statements outside them; so every database
    reached from an empty one by any interleaving of operations has it.  What
    the pruner deletes is described for any engine.  The end of the file shows
    what READ COMMITTED (PostgreSQL) breaks. *)

From stdpp Require Import sorting relations.
From stdpp Require Import list.
From S2P Require Import Prelude External BlockHeader BlockReward Utxo UtxoSql.
From S2P Require Import UtxoSqlSpend UtxoSqlUnspend UtxoSqlOps UtxoSqlMarks UtxoSqlLifecycle UtxoSqlInvariant.

(** ** Spending and unspending *)
Section SpendUnspend.
  Context (G : Z) {CH : Chainhash} (env : StoreEnv) (fault : nat → option DbFault).
  Context (rival : nat → option (list byte)).

Abbreviation good := (Inv G (env_retention env)).

Definition both (s : txn) : Prop := good (view s) ∧ good (committed s).

Lemma Inv_spend_output k o data db : good db → db_outputs db !! k = Some o →
  good (put_output k (set_spending (Some data) o) db).
Proof.
  intros Hi Ho. apply (Inv_outputs _ _ db); try done. intros id vout o'. simpl.
  destruct (decide (k = (id, vout))) as [->|Hne].
  - rewrite lookup_insert_eq. intros [= <-]. rewrite Ho. split; [by eexists|done].
  - rewrite lookup_insert_ne by done. intros Ho'. split; eauto.
Qed.

Lemma Inv_update_unspent data k db : is_Some data → good db → good (update_unspent data k db).2.
Proof.
  intros [d ->] Hi. unfold update_unspent. destruct (db_outputs db !! k) as [o|] eqn:Ho; [|done].
  destruct (o_spending_data o); [done|]. by apply Inv_spend_output.
Qed.

Lemma rival_spend_both k s : both s → both (rival_spend rival k s).
Proof.
  intros [Hv Hc]. unfold rival_spend.
  destruct (rival _), (db_outputs (view s) !! k) eqn:Ev, (db_outputs (committed s) !! k) eqn:Ec;
    try done.
  destruct (_ && _); [|done]. by split; apply Inv_spend_output.
Qed.

Lemma stmt_both {A} (run : DB → A * DB) s r s' : (∀ db, good db → good (run db).2) → both s →
  stmt fault run s = (r, s') → both s'.
Proof.
  intros Hr [Hv Hc] E. destruct r as [a|f].
  - apply stmt_inl in E as [Ev Ec]. specialize (Hr _ Hv). rewrite Ev in Hr. split; [done|by rewrite Ec].
  - apply stmt_inr in E as [Ev Ec]. split; [by rewrite Ev|by rewrite Ec].
Qed.

(** An item with no spender would write NULL, which spends nothing. *)
Lemma Inv_update_unspent_any data k db : good db → good (update_unspent data k db).2.
Proof.
  intros Hi. destruct data as [d|]; [by apply Inv_update_unspent|]. unfold update_unspent.
  destruct (db_outputs db !! k) as [o|] eqn:Ho; [|done].
  destruct (o_spending_data o) eqn:En; [done|]. simpl.
  apply (Inv_outputs _ _ db); try done. intros id vout o'. simpl.
  destruct (decide (k = (id, vout))) as [->|Hne].
  - rewrite lookup_insert_eq. intros [= <-]. rewrite Ho. eauto.
  - rewrite lookup_insert_ne by done. intros Ho'. split; eauto.
Qed.

Lemma process_item_both item s r s' : both s → process_item fault rival item s = (r, s') → both s'.
Proof.
  intros Hb. unfold process_item.
  destruct (stmt fault _ s) as [[[[[id t] o]|]|f] s1] eqn:E1;
    apply stmt_both in E1; try done; [|by intros [= <- <-]..].
  destruct (check_spend _ _ _); [by intros [= <- <-]|].
  destruct (stmt fault _ (rival_spend _ _ _)) as [[n|f] s2] eqn:E2;
    apply stmt_both in E2;
    [|by intros; apply Inv_update_unspent_any|by apply rival_spend_both
     | |by intros; apply Inv_update_unspent_any|by apply rival_spend_both].
  - destruct (bool_decide _); [destruct (_ && _)|]; by intros [= <- <-].
  - by intros [= <- <-].
Qed.

Lemma phase1_both i batch p s r s' : both s → phase1 fault rival i batch p s = (r, s') → both s'.
Proof.
  revert i p s; induction batch as [|item batch IH]; intros i p s Hok; cbn [phase1];
    [by intros [= <- <-]|].
  destruct (aborted p); [by apply IH|].
  destruct (process_item fault rival item s) as [step s1] eqn:E.
  pose proof (process_item_both _ _ _ _ Hok E) as Hok1.
  destruct step; [by apply IH..|by intros [= <- <-]].
Qed.

Lemma setDAH_all_both ids s s' : both s → setDAH_all env fault ids s = (None, s') → both s'.
Proof.
  revert s; induction ids as [|id ids IH]; intros s Hb; cbn [setDAH_all]; [by intros [= <-]|].
  destruct (setDAH env fault id s) as [[f|] s1] eqn:E; [done|].
  apply (setDAH_good G) in E as [Hv Hc]; [|by apply good_good_but, Hb].
  apply IH. split; [done|]. rewrite Hc. apply Hb.
Qed.

Lemma setDAH_all_committed ids s r s' : setDAH_all env fault ids s = (r, s') →
  committed s' = committed s.
Proof.
  revert s; induction ids as [|id ids IH]; intros s; cbn [setDAH_all]; [by intros [= <- <-]|].
  destruct (setDAH env fault id s) as [[f|] s1] eqn:E; apply setDAH_committed in E as <-;
    [by intros [= <- <-]|apply IH].
Qed.

Lemma attempt_good batch db t : good db →
  good (at_db (trySendSpendBatchPerRow env fault rival batch db t)).
Proof.
  intros Hi. unfold trySendSpendBatchPerRow.
  destruct (stmt fault _ _) as [[u|f] s1] eqn:E1; apply stmt_both in E1; try done; [|apply E1].
  destruct (phase1 fault rival 0 batch _ s1) as [[p|] s2] eqn:E2; apply phase1_both in E2;
    try done; [|apply E2].
  destruct (aborted p); [apply E2|].
  destruct (setDAH_all env fault _ s2) as [[f|] s3] eqn:E3.
  { apply setDAH_all_committed in E3. destruct (isDeadlock_wrapped f); simpl; rewrite E3; apply E2. }
  apply setDAH_all_both in E3; [|done].
  destruct (stmt fault _ s3) as [[u'|f] s4] eqn:E4; apply stmt_both in E4; try done;
    [apply E4|destruct (isDeadlock f); apply E4].
Qed.

Lemma retrySpendBatch_good cancelled batch db t : good db →
  good (retrySpendBatch env fault rival cancelled batch db t).1.2.
Proof.
  unfold retrySpendBatch. generalize maxRetries. intros retries. revert db t.
  induction retries as [|retries IH]; intros db t Hi; cbn [retry_from];
    pose proof (attempt_good batch db t Hi);
    destruct (negb _); try done. destruct (cancelled _); [done|]. by apply IH.
Qed.

Lemma sendSpendBatch_good cancelled batch db t : good db →
  good (sendSpendBatch env fault rival cancelled batch db t).1.2.
Proof.
  intros Hi. unfold sendSpendBatch. destruct (FilterConflictingDuplicateSpendClaims _ _) as [kept rej].
  destruct (bool_decide _); [done|].
  pose proof (retrySpendBatch_good cancelled (map snd kept) db t Hi).
  by destruct (retrySpendBatch _ _ _ _ _ _ _) as [[? ?] ?].
Qed.
End SpendUnspend.

(** ** Unspending *)
Section Unspending.
  Context (G : Z) {CH : Chainhash} {BT : BtTx} (env : StoreEnv) (fault : nat → option DbFault).

Abbreviation good := (Inv G (env_retention env)).

Lemma clear_or_find_good sp s id s' : good (view s) → clear_or_find fault sp s = (inl id, s') →
  good_but G env id (view s') ∧ committed s' = committed s.
Proof.
  intros Hi. unfold clear_or_find.
  destruct (stmt fault (clear_owned _ _ _) s) as [[[i|]|f] s1] eqn:E1; [| |done];
    apply stmt_inl in E1 as [E1 Ec1]; unfold clear_owned in E1.
  - intros [= <- <-]. split; [|done].
    destruct (db_ids (view s) !! sp_TxID sp) as [j|]; [|done].
    destruct (db_outputs (view s) !! (j, sp_Vout sp)) as [o|] eqn:Eo; [|done].
    case_bool_decide; [|done]. injection E1 as <- <-.
    eapply good_but_put_output; [by apply good_good_but|exact Eo].
  - assert (view s1 = view s) as Ev.
    { destruct (db_ids (view s) !! sp_TxID sp) as [j|]; [|by injection E1].
      destruct (db_outputs (view s) !! (j, sp_Vout sp)); [|by injection E1].
      case_bool_decide; [done|by injection E1]. }
    destruct (stmt fault _ s1) as [[[i|]|f] s2] eqn:E2; try done.
    apply stmt_inl in E2 as [[= _ Ev2] Ec2]. intros [= <- <-].
    split; [|congruence]. rewrite <- Ev2, Ev. by apply good_good_but.
Qed.

Lemma apply_lock_good flag id s s' : good_but G env id (view s) →
  apply_lock fault flag id s = (None, s') → good_but G env id (view s') ∧ committed s' = committed s.
Proof.
  intros Hb. unfold apply_lock. destruct flag as [b|]; [|by intros [= <-]].
  destruct (stmt fault _ s) as [[u|f] s1] eqn:E1; [|done]. intros [= <-].
  apply stmt_inl in E1 as [[= _ Ev] Ec]. split; [|done]. rewrite <- Ev.
  destruct (db_txs (view s) !! id) as [t|] eqn:Et; [|done].
  apply (good_but_put _ _ _ _ t); try done.
  - exact (gb_retention _ _ _ _ Hb _ Et).
  - exact (gb_preserve _ _ _ _ Hb _ Et).
Qed.

Lemma unspend_all_good flag spends s s' : good (view s) →
  unspend_all env fault flag spends s = (None, s') → good (view s') ∧ committed s' = committed s.
Proof.
  revert s; induction spends as [|sp spends IH]; intros s Hi; cbn [unspend_all]; [by intros [= <-]|].
  unfold unspend_one. destruct (sp_SpendingData sp); [|done].
  destruct (clear_or_find fault sp s) as [[id|e] s1] eqn:E1; [|done].
  apply clear_or_find_good in E1 as [Hb1 Ec1]; [|done].
  destruct (apply_lock fault flag id s1) as [[e|] s2] eqn:E2; [done|].
  apply apply_lock_good in E2 as [Hb2 Ec2]; [|done].
  destruct (setDAH env fault id s2) as [[f|] s3] eqn:E3; [done|].
  apply (setDAH_good G) in E3 as [Hg Ec3]; [|done]. intros E.
  apply IH in E as [? Ec]; [|done]. split; [done|congruence].
Qed.

Lemma Unspend_good spends flag db t : good db → good (Unspend env fault spends flag db t).1.2.
Proof.
  intros Hi. unfold Unspend. destruct (stmt fault _ _) as [[u|f] s1] eqn:E1.
  2: { apply stmt_inr in E1 as [_ Ec]. simpl. by rewrite Ec. }
  apply stmt_inl in E1 as [[= _ Ev] Ec].
  destruct (unspend_all env fault flag spends s1) as [[e|] s2] eqn:E2.
  { apply unspend_all_ok in E2 as (_ & Ec2 & _). simpl. by rewrite Ec2, Ec. }
  apply unspend_all_good in E2 as [Hv Ec2]; [|by rewrite <- Ev].
  destruct (stmt fault _ s2) as [[u'|f] s3] eqn:E3; simpl.
  - apply stmt_inl in E3 as [[= _ Ev3] _]. by rewrite <- Ev3.
  - apply stmt_inr in E3 as [_ Ec3]. by rewrite Ec3, Ec2, Ec.
Qed.

Lemma rollback_chunk_good retries cancelled chunk db t : good db →
  good (rollback_chunk env fault retries cancelled chunk db t).1.2.
Proof.
  revert db t; induction retries as [|retries IH]; intros db t Hi; cbn [rollback_chunk];
    pose proof (Unspend_good chunk None db t Hi) as Hu;
    destruct (Unspend env fault chunk None db t) as [[[e|] db1] t1]; try done;
    destruct (negb _); try done; destruct (cancelled t1); try done. by apply IH.
Qed.

Lemma rollback_chunks_good fuel cancelled n e spends db t : good db →
  good (rollback_chunks env fault fuel cancelled n e spends db t).1.2.
Proof.
  revert n e spends db t; induction fuel as [|fuel IH]; intros n e spends db t Hi; [done|].
  destruct spends as [|sp spends]; [done|]. cbn [rollback_chunks].
  pose proof (rollback_chunk_good maxRollbackChunkRetries cancelled
                (take rollbackChunkSize (sp :: spends)) db t Hi) as Hc.
  destruct (rollback_chunk _ _ _ _ _ _ _) as [[[o b] db1] t1].
  destruct o, b; try done; by apply IH.
Qed.

Lemma spender_exists_committed tx s r s' : spender_exists fault tx s = (r, s') →
  committed s' = committed s.
Proof.
  unfold spender_exists. destruct (stmt fault _ s) as [[b|f] s1] eqn:E1; intros [= <- <-].
  - by apply stmt_inl in E1 as [_ Ec].
  - by apply stmt_inr in E1 as [_ Ec].
Qed.

(** The spend of a transaction, over a batcher that preserves the invariant. *)
Lemma SpendTx_good batcher cancelled flags tx h db t :
  (∀ items db t, good db → good (batcher items db t).1.2) → good db →
  good (SpendTx env fault batcher cancelled flags tx h db t).1.2.
Proof.
  intros Hb Hi. unfold SpendTx. destruct (h =? 0); [done|].
  destruct (if SkipUTXOHashCheck flags then _ else _) as [spends|e]; [|done].
  destruct (bool_decide _); [done|].
  pose proof (Hb (spend_items flags h spends) db t Hi) as Hb1.
  destruct (batcher _ _ _) as [[waits db1] t1]. simpl in Hb1.
  destruct (settle_all fault flags tx waits false _) as [errs s1] eqn:Es.
  apply settle_all_committed in Es. simpl in Es. rewrite <- Es in Hb1.
  destruct (bool_decide _); [done|]. destruct (_ && _); [|done].
  destruct (spender_exists fault tx s1) as [r s2] eqn:Ee.
  apply spender_exists_committed in Ee. rewrite <- Ee in Hb1. destruct r as [[|]|]; try done.
  pose proof (rollback_chunks_good (length (spent_of spends errs)) cancelled 0 None
                (spent_of spends errs) (committed s2) (ticks s2) Hb1) as Hr.
  unfold rollbackSpendChunks. by destruct (rollback_chunks _ _ _ _ _ _ _ _ _) as [[[ ] ?] ?].
Qed.
End Unspending.

Section Operations.
  Context (G : Z) (env : StoreEnv) (unminedRetention : Z).
  Context `{CH : Chainhash} {BT : BtTx} {ST : Subtree}.
  Context (params : ChainParams) (fault : nat → option DbFault) (others : nat → DB → DB).
  Context (cancelled : nat → bool) (postgres : bool) (serial clock : nat → Z).
  Context (genesis : GenesisActivationHeight params = G).

Abbreviation good := (Inv G (env_retention env)).
  Context (others_good : ∀ n db, good db → good (others n db)).

Lemma keeps_read {A} e (f : DB → A) : keeps good (query fault e (read f)).
Proof. by apply keeps_query. Qed.
Lemma safe_read {A} e (f : DB → A) : safe good (auto fault others e (read f)).
Proof. by apply safe_auto. Qed.
Lemma keeps_write e f : (∀ db, good db → good (f db)) → keeps good (query fault e (write f)).
Proof. intros. by apply keeps_query. Qed.
Lemma safe_write e f : (∀ db, good db → good (f db)) → safe good (auto fault others e (write f)).
Proof. intros. by apply safe_auto. Qed.
Hint Resolve keeps_read safe_read keeps_write safe_write : store.

(** *** Reads *)
Lemma safe_GetSpend txid vout h : safe good (GetSpend env fault others txid vout h).
Proof. unfold GetSpend. store_parts. Qed.

Lemma safe_Get hash bins : safe good (Get fault others hash bins).
Proof. unfold Get. store_parts. Qed.
Hint Resolve safe_GetSpend safe_Get : store.

(** *** Conflicting and locked *)
Lemma safe_spending_children hash vOut outputs :
  safe good (spending_children env fault others hash vOut outputs).
Proof. revert vOut. induction outputs as [|[o|] outputs IH]; simpl; store_parts. Qed.
Hint Resolve safe_spending_children : store.

Lemma safe_read_conflicting hash : safe good (read_conflicting env fault others hash).
Proof. unfold read_conflicting. store_parts. Qed.

Lemma keeps_updateParent id parents :
  keeps good (updateParentConflictingChildren fault id parents).
Proof.
  apply keeps_each. intros p. apply keeps_bind; [apply keeps_query, Inv_insert_child|].
  intros []; auto with store.
Qed.
Hint Resolve keeps_updateParent safe_read_conflicting : store.

Lemma safe_SetConflicting hashes b : safe good (SetConflicting env fault others hashes b).
Proof.
  unfold SetConflicting. apply safe_bind; [apply safe_traverse; auto with store|intros reads].
  apply safe_bind; [|store_parts]. apply safe_transaction; [done|]. apply keeps_each. intros item.
  unfold write_conflicting. apply keeps_bind; [|store_parts].
  apply keeps_query. intros db. apply Inv_update_conflicting.
  - intros ->. done.
  - intros ->. by rewrite andb_false_r.
Qed.

Lemma safe_auto_unit {A} e (run : DB → A * DB) : (∀ db, good db → good (run db).2) →
  safe good (_ ← auto fault others e run; mret tt).
Proof. intros. apply safe_bind; [by apply safe_auto|intros; apply safe_ret]. Qed.

Lemma safe_SetLocked hashes b :
  safe good (SetLocked env fault others cancelled postgres hashes b).
Proof.
  unfold SetLocked. apply safe_if; apply safe_if.
  - apply safe_auto_unit. intros. by apply Inv_lock.
  - apply safe_each. intros h. apply safe_auto_unit. intros. by apply Inv_lock.
  - apply safe_each. intros c. apply safe_bind; [apply safe_check_ctx|intros _].
    apply safe_auto_unit. intros. by apply Inv_unlock_bulk.
  - apply safe_transaction; [done|]. apply keeps_each. intros h. apply keeps_bind.
    + apply keeps_query. intros db Hi. destruct (db_ids db !! h) as [id|]; [|done].
      destruct (db_txs db !! id) as [t|] eqn:Ht; [|done]. simpl.
      apply (Inv_put_tx _ _ _ _ t); [done..|]. pose proof (inv_dah _ _ _ Hi _ _ Ht). same_row.
    + intros [id|]; [apply keeps_setDAH|apply keeps_fail].
Qed.

(** *** Mined *)
Lemma keeps_query_unit {A} e (run : DB → A * DB) : (∀ db, good db → good (run db).2) →
  keeps good (_ ← query fault e run; mret tt).
Proof. intros. apply keeps_bind; [by apply keeps_query|intros; apply keeps_ret]. Qed.

Lemma keeps_update_mined hashes info :
  keeps good (update_mined env fault unminedRetention hashes info).
Proof.
  unfold update_mined. apply keeps_if.
  - apply keeps_query_unit. intros. by apply Inv_mark_mined.
  - apply keeps_bind; [apply keeps_query; intros; by apply Inv_unlock|intros _].
    apply keeps_bind.
    { apply keeps_if; [|apply keeps_ret]. apply keeps_query. intros. by apply Inv_stamp_unmined. }
    intros _. apply keeps_bind; [|intros; apply keeps_ret].
    destruct (env_retention env >? 0) eqn:E; [|apply keeps_ret].
    apply keeps_query. intros. by apply Inv_mark_fork.
Qed.

Lemma safe_setMinedMultiChunk hashes info :
  safe good (setMinedMultiChunk env fault others unminedRetention hashes info).
Proof.
  apply safe_transaction; [done|]. apply keeps_bind; [apply keeps_read|intros existing].
  apply keeps_if; [apply keeps_fail|]. apply keeps_if; [apply keeps_ret|].
  apply keeps_bind; [apply keeps_query; intros; by apply Inv_write_blocks|intros _].
  apply keeps_bind; [apply keeps_update_mined|intros; apply keeps_read].
Qed.

Lemma safe_SetMinedMulti hashes info :
  safe good (SetMinedMulti env fault others cancelled unminedRetention hashes info).
Proof.
  unfold SetMinedMulti. generalize (chunks maxINClauseSize hashes). intros groups.
  generalize (∅ : gmap Hash (list Z)). induction groups as [|c groups IH]; intros m; simpl;
    [apply safe_ret|].
  apply safe_bind; [apply safe_check_ctx|intros _]. apply safe_bind; [|intros; apply IH].
  intros s r s' Hs E. destruct (setMinedMultiChunk _ _ _ _ _ _ _) as [r1 s1] eqn:E1.
  apply safe_setMinedMultiChunk in E1; [|done]. destruct r1; by injection E as _ <-.
Qed.

(** *** The longest chain and preservation *)
Lemma mark_chunks_good onLongestChain groups failed missing s r s' : good (committed s) →
  mark_chunks env fault others cancelled unminedRetention onLongestChain groups failed missing s
    = (r, s') → good (committed s').
Proof.
  revert failed missing s; induction groups as [|c groups IH]; intros failed missing s Hs; simpl;
    [by intros [= _ <-]|].
  destruct (cancelled _); [by intros [= _ <-]|].
  destruct (auto fault others storage_error _ s) as [[n|e] s1] eqn:E1;
    apply safe_auto with (I := good) in E1; try done;
    try (intros; destruct onLongestChain; [by apply Inv_mark_longest|by apply Inv_mark_off]);
    [|by apply IH].
  destruct (bool_decide _); [|by apply IH].
  destruct (auto fault others driver_error _ s1) as [[a|e] s2] eqn:E2;
    apply safe_read in E2; try done; by apply IH.
Qed.

Lemma MarkTransactionsOnLongestChain_good hashes b s : good (committed s) →
  good (committed (MarkTransactionsOnLongestChain env fault others cancelled unminedRetention
                     hashes b s).2).
Proof.
  intros Hs. unfold MarkTransactionsOnLongestChain. destruct (bool_decide _); [done|].
  destruct (mark_chunks _ _ _ _ _ _ _ _ _ s) as [[[c f] m] s1] eqn:E.
  apply mark_chunks_good in E; [|done]. destruct c; [done|].
  destruct (_ && _); [done|]. by destruct (bool_decide _).
Qed.

Lemma safe_PreserveTransactions hashes h : safe good (PreserveTransactions fault others hashes h).
Proof.
  apply safe_each. intros c. apply safe_auto_unit. intros. by apply Inv_preserve_rows.
Qed.

Lemma safe_ProcessExpiredPreservations h :
  safe good (ProcessExpiredPreservations env fault others h).
Proof. apply safe_auto_unit. intros. by apply Inv_expire_rows. Qed.

(** *** Removals, freezing, intents *)
Lemma safe_RemoveBlockIDs removals : safe good (RemoveBlockIDs fault others removals).
Proof.
  apply safe_if; [apply safe_ret|]. apply safe_transaction; [done|]. apply keeps_each.
  intros [[h|] ids]; [|apply keeps_fail]. apply keeps_each. intros b.
  apply keeps_write. intros. apply Inv_on_row; [done|]. intros. same_row.
Qed.

Lemma safe_RemoveFromConflictingChildren removals :
  safe good (RemoveFromConflictingChildren fault others removals).
Proof.
  apply safe_if; [apply safe_ret|]. apply safe_transaction; [done|]. apply keeps_each.
  intros [[p|] [c|]]; try apply keeps_fail. apply keeps_write. intros. by apply Inv_remove_child.
Qed.

Lemma safe_freeze_each check sel b spends : (∀ sp, safe good (check sp)) →
  safe good (freeze_each fault others check sel b spends).
Proof.
  intros. apply safe_bind; [by apply safe_traverse|intros ids]. apply safe_each. intros sp.
  apply safe_write. intros. by apply Inv_update_output.
Qed.

Lemma safe_check_freeze sp : safe good (check_freeze fault others sp).
Proof. unfold check_freeze. store_parts. Qed.
Lemma safe_check_unfreeze sp : safe good (check_unfreeze fault others sp).
Proof. unfold check_unfreeze. store_parts. Qed.

Lemma safe_ReAssignUTXO utxo newUtxo n : safe good (ReAssignUTXO env fault others utxo newUtxo n).
Proof.
  apply safe_bind; [apply safe_check_unfreeze|intros id]. apply safe_write. intros.
  by apply Inv_update_output.
Qed.

Lemma safe_intents f : safe good (auto fault others storage_error (write (set_intents f))).
Proof. apply safe_write. intros. by apply Inv_set_intents. Qed.

(** *** Deletion *)
Lemma safe_Delete hash : safe good (Delete fault others hash).
Proof.
  apply safe_transaction; [done|].
  repeat (apply keeps_bind; [|intros ?]); [..|apply keeps_ret].
  - apply keeps_write. intros. apply Inv_on_row; [done|]. intros. same_row.
  - apply keeps_write. intros. by apply Inv_delete_outputs.
  - apply keeps_write. intros. apply Inv_on_row; [done|]. intros. same_row.
  - apply keeps_query. intros. by apply Inv_delete_txs.
Qed.

Lemma safe_deleteTombstoned defensive h w : safe good (deleteTombstoned fault others defensive h w).
Proof.
  apply safe_bind.
  - intros s r s' Hs [= _ <-].
    destruct (auto fault others storage_error (clear_unmined h) s) as [r1 s1] eqn:E.
    apply safe_auto with (I := good) in E; try done. intros. by apply Inv_clear_unmined.
  - intros _. apply safe_auto; [done|]. intros. by apply Inv_delete_txs.
Qed.

(** *** Creation *)

(** The new transaction may take unspent outputs. *)
Definition open_row (id : Z) (db : DB) : Prop :=
  good db ∧ ∃ t, db_txs db !! id = Some t ∧ (t_delete_at_height t = None ∨ carrier G t).

Lemma keeps_insert (I : DB → Prop) run : (∀ db, I db → I (run db).2) → keeps I (insert fault run).
Proof.
  intros. apply keeps_bind; [by apply keeps_query|]. intros []; [apply keeps_ret|apply keeps_fail..].
Qed.

Lemma trim_outputs_Forall (P : option TxOutput → Prop) l : Forall P l → Forall P (trim_outputs l).
Proof.
  induction 1 as [|o l Ho Hl IH]; simpl; [constructor|].
  destruct o, (trim_outputs l); auto using Forall.
Qed.

Lemma new_row_open txHash tx h options now :
  let t := new_row env params txHash tx h options now in
  (env_retention env = 0 → t_delete_at_height t = None) ∧
  (t_delete_at_height t = None ∨ carrier G t).
Proof.
  cbn zeta. unfold new_row, unspendableMinedTxDAH. simpl.
  destruct (co_Conflicting options || _); [by auto|].
  destruct (Z.eqb_spec (env_retention env) 0); [by auto|].
  destruct (existsb _ (Outputs tx)) eqn:E; [by auto|]. split; [done|right].
  exists h. simpl. apply trim_outputs_Forall. apply Forall_forall. intros [o|] Ho; [|done].
  rewrite <- genesis. destruct (ShouldStoreOutputAsUTXO _ _ _) eqn:Es; [|done].
  exfalso. apply not_true_iff_false in E. apply E, existsb_exists. exists (Some o).
  split; [by apply list_elem_of_In|done].
Qed.

Lemma insert_tx_open id txHash tx h options now db r db' : good db →
  insert_tx id (new_row env params txHash tx h options now) db = (r, db') → r = Inserted →
  open_row id db'.
Proof.
  intros Hi. unfold insert_tx. destruct (bool_decide _ || _) eqn:E; [by intros [= <- <-]|].
  apply orb_false_elim in E as [E1 E2]. apply bool_decide_eq_false in E1, E2.
  apply eq_None_not_Some in E1, E2. intros [= <- <-] _.
  destruct (new_row_open txHash tx h options now) as [Hr Ho].
  set (t := new_row _ _ _ _ _ _ _) in *. simpl in E1. destruct Hi as [H1 H2 H3 H4].
  split; [|exists t; split; [apply lookup_insert_eq|done]]. split; simpl.
  - intros h' i. destruct (decide (txHash = h')) as [<-|Hne].
    + rewrite lookup_insert_eq. intros [= <-]. exists t. by rewrite lookup_insert_eq.
    + rewrite lookup_insert_ne by done. intros Hh. destruct (H1 _ _ Hh) as (u & Hu & Hhu).
      exists u. by rewrite lookup_insert_ne by congruence.
  - intros i u. destruct (decide (id = i)) as [<-|Hne].
    + rewrite lookup_insert_eq. intros [= <-]. by rewrite lookup_insert_eq.
    + rewrite lookup_insert_ne by done. intros Hu. pose proof (H2 _ _ Hu).
      rewrite lookup_insert_ne; [done|]. intros E. simpl in E. congruence.
  - intros i v o Hk. apply lookup_insert_is_Some'. right. exact (H3 _ _ _ Hk).
  - intros i u. destruct (decide (id = i)) as [<-|Hne].
    + rewrite lookup_insert_eq. intros [= <-]. split; [done| |by intros []]. intros [x Hx] _.
      right. destruct Ho as [Ho|Ho]; [congruence|done].
    + rewrite lookup_insert_ne by done. intros Hu. by apply (dah_ok_outputs _ _ db); [apply H4|].
Qed.

Lemma open_row_dah_ok id db db' t : good db → db_txs db !! id = Some t →
  t_delete_at_height t = None ∨ carrier G t → dah_ok G (env_retention env) db' id t.
Proof.
  intros Hi Ht Ho. destruct (inv_dah _ _ _ Hi _ _ Ht) as [H1 H2 H3]. split; try done.
  intros [x Hx] _. right. destruct Ho as [Ho|Ho]; [congruence|done].
Qed.

Lemma insert_output_open id vout o db : open_row id db →
  open_row id (insert_output (id, vout) o db).2.
Proof.
  intros [Hi (t & Ht & Ho)]. unfold insert_output. case_bool_decide as E; [by split; eauto|].
  apply eq_None_not_Some in E. simpl. split; [|exists t; by split].
  destruct Hi as [H1 H2 H3 H4]. split; simpl; try done.
  - intros i v u. destruct (decide ((id, vout) = (i, v))) as [[= <- <-]|Hne].
    + intros _. by eexists.
    + rewrite lookup_insert_ne by done. apply H3.
  - intros i u Hu. destruct (decide (i = id)) as [->|Hne].
    + rewrite Ht in Hu. injection Hu as <-. by eapply (open_row_dah_ok id db).
    + apply (dah_ok_outputs _ _ db); [by apply H4|]. intros Hn v w. simpl.
      rewrite lookup_insert_ne by congruence. apply Hn.
Qed.

(** Updating a row without touching what matters keeps the new row open. *)
Lemma open_row_put id i t u db : open_row id db → db_txs db !! i = Some t →
  t_hash u = t_hash t → t_delete_at_height u = t_delete_at_height t →
  t_preserve_until u = t_preserve_until t → t_conflicting u = t_conflicting t →
  t_body u = t_body t → open_row id (put_tx i u db).
Proof.
  intros [Hi (t0 & Ht0 & Ho)] Ht Eh Ed Ep Ec Eb. split.
  - apply (Inv_put_tx _ _ _ _ t); [done..|]. eapply dah_ok_same; [by eapply inv_dah|..]; try done.
    by rewrite Eb.
  - simpl. destruct (decide (i = id)) as [->|Hne].
    + exists u. rewrite lookup_insert_eq. split; [done|]. rewrite Ht in Ht0. injection Ht0 as <-.
      rewrite Ed. destruct Ho as [Ho|[h Hh]]; [by left|right; exists h; by rewrite Eb].
    + exists t0. by rewrite lookup_insert_ne by done.
Qed.

Lemma createOutputs_open id txHash csh i outputs :
  keeps (open_row id) (createOutputsPerRow fault id txHash csh i outputs).
Proof.
  revert i. induction outputs as [|[o|] outputs IH]; intros i; simpl; [apply keeps_ret| |apply IH].
  apply keeps_bind; [apply keeps_of_result|intros _].
  apply keeps_bind; [apply keeps_of_result|intros hash].
  apply keeps_bind; [|intros; apply IH]. apply keeps_insert. intros. by apply insert_output_open.
Qed.

Lemma insert_block_row_open id info db : open_row id db → open_row id (insert_block_row id info db).2.
Proof.
  intros Hi. unfold insert_block_row. destruct (db_txs db !! id) as [t|] eqn:Ht; [|done].
  case_bool_decide as E; [done|]. simpl. unfold insert_block. rewrite bool_decide_false by done.
  by apply (open_row_put _ _ t).
Qed.

Lemma updateParent_open id parents :
  keeps (open_row id) (updateParentConflictingChildren fault id parents).
Proof.
  apply keeps_each. intros p. apply keeps_bind; [apply keeps_query|].
  - intros db Hi. unfold insert_child. destruct (db_ids db !! p) as [i|]; [|done].
    destruct (db_txs db !! i) as [t|] eqn:Ht; [|done]. simpl. case_bool_decide; [done|].
    by apply (open_row_put _ _ t).
  - intros []; [apply keeps_ret|apply keeps_fail].
Qed.

(** The first insert opens the row. *)
Lemma insert_tx_reaches id txHash tx h options now s r s' : good (view s) →
  insert fault (insert_tx id (new_row env params txHash tx h options now)) s = (r, s') →
  committed s' = committed s ∧ match r with Ok _ => open_row id (view s') | Err _ => True end.
Proof.
  intros Hs E. unfold insert, query, mbind, SM_bind in E.
  destruct (stmt fault _ s) as [[x|f] s1] eqn:E1.
  - apply stmt_inl in E1 as [E1 Ec]. destruct x; injection E as <- <-; (split; [done|]); [|done..].
    by apply (insert_tx_open _ _ _ _ _ _ _ _ _ Hs E1).
  - apply stmt_inr in E1 as [_ Ec]. injection E as <- <-. by split.
Qed.

Lemma keeps_create_rows txHash tx h options id now :
  keeps good (create_rows env params fault txHash tx h options id now).
Proof.
  unfold create_rows. cbv zeta. apply (keeps_bind_to _ (open_row id)); [|by intros db []|].
  { intros s r s'. apply insert_tx_reaches. }
  intros _. apply keeps_bind; [apply keeps_each; intros i; by apply keeps_insert|intros _].
  apply keeps_bind; [apply createOutputs_open|intros _].
  apply keeps_bind; [|intros _; apply keeps_if; [apply updateParent_open|apply keeps_ret]].
  apply keeps_each. intros info. apply keeps_insert. intros. by apply insert_block_row_open.
Qed.

Lemma safe_createWithRetry tx h options :
  safe good (createWithRetry env params fault others serial clock tx h options).
Proof.
  intros s r s' Hs E. unfold createWithRetry in E.
  revert E. apply (safe_bind good); [apply safe_of_result|intros fee|done].
  apply safe_transaction; [done|]. apply keeps_create_rows.
Qed.
End Operations.

(** ** Reachable databases

    One call of an operation: its environment, what fails, what rivals and the
    database's sequence and clock do, and what others commit meanwhile. *)
Record world := mkWorld {
  w_height : Z;
  w_fault : nat → option DbFault;
  w_rival : nat → option (list byte);
  w_others : nat → DB → DB;
  w_cancelled : nat → bool;
  w_serial : nat → Z;
  w_clock : nat → Z;
}.

Inductive operation :=
  | OpSpend (batch : list batchSpend)
  | OpUnspend (spends : list Spend) (flagAsLocked : option bool)
  | OpSpendTx (tx : Tx) (blockHeight : Z) (flags : SpendFlags)
      (waits : list batchSpend → DB → nat → list wait)
  | OpCreate (tx : Tx) (blockHeight : Z) (options : CreateOptions)
  | OpSetConflicting (hashes : list Hash) (value : bool)
  | OpSetLocked (hashes : list Hash) (value postgres : bool)
  | OpSetMinedMulti (hashes : list Hash) (info : MinedBlockInfo) (unminedTxRetention : Z)
  | OpMarkOnLongestChain (hashes : list Hash) (value : bool) (unminedTxRetention : Z)
  | OpPreserve (hashes : list Hash) (height : Z)
  | OpExpirePreservations (height : Z)
  | OpRemoveBlockIDs (removals : list (option Hash * list Z))
  | OpRemoveChildren (removals : list (option Hash * option Hash))
  | OpFreeze (spends : list Spend)
  | OpUnFreeze (spends : list Spend)
  | OpReAssign (utxo newUtxo : Spend) (setting : option Z)
  | OpDelete (hash : Hash)
  | OpPrune (defensiveEnabled : bool) (blockHeight safetyWindow : Z)
  | OpBeginIntent (intent : ConflictIntent)
  | OpCompleteIntent (intentID : Hash).

Section Reach.
  Context `{CH : Chainhash} {BT : BtTx} {ST : Subtree}.
  Context (params : ChainParams) (retention : Z).

Definition run_op (w : world) (o : operation) (db : DB) : DB :=
  let env := mkEnv (w_height w) retention in
  let f := w_fault w in
  let ot := w_others w in
  let c := w_cancelled w in
  let start := mkTxn db db 0 in
  match o with
  | OpSpend batch => (sendSpendBatch env f (w_rival w) c batch db 0).1.2
  | OpUnspend spends flag => (Unspend env f spends flag db 0).1.2
  | OpSpendTx tx h flags waits =>
      (SpendTx env f (λ items db t,
         let '(_, db', t') := sendSpendBatch env f (w_rival w) c items db t in
         (waits items db' t', db', t')) c flags tx h db 0).1.2
  | OpCreate tx h options =>
      committed (createWithRetry env params f ot (w_serial w) (w_clock w) tx h options start).2
  | OpSetConflicting hs b => committed (SetConflicting env f ot hs b start).2
  | OpSetLocked hs b pg => committed (SetLocked env f ot c pg hs b start).2
  | OpSetMinedMulti hs info u => committed (SetMinedMulti env f ot c u hs info start).2
  | OpMarkOnLongestChain hs b u =>
      committed (MarkTransactionsOnLongestChain env f ot c u hs b start).2
  | OpPreserve hs h => committed (PreserveTransactions f ot hs h start).2
  | OpExpirePreservations h => committed (ProcessExpiredPreservations env f ot h start).2
  | OpRemoveBlockIDs l => committed (RemoveBlockIDs f ot l start).2
  | OpRemoveChildren l => committed (RemoveFromConflictingChildren f ot l start).2
  | OpFreeze l => committed (FreezeUTXOs f ot l start).2
  | OpUnFreeze l => committed (UnFreezeUTXOs f ot l start).2
  | OpReAssign u n x => committed (ReAssignUTXO env f ot u n x start).2
  | OpDelete h => committed (Delete f ot h start).2
  | OpPrune d h s => committed (deleteTombstoned f ot d h s start).2
  | OpBeginIntent i => committed (BeginConflictIntent f ot i start).2
  | OpCompleteIntent i => committed (CompleteConflictIntent f ot i start).2
  end.

(** One operation, between whose statements others move the database along [O]. *)
Definition step (O : relation DB) (db db' : DB) : Prop :=
  ∃ w o, (∀ n d, O d (w_others w n d)) ∧ db' = run_op w o db.

(** Operations that others' operations interleave, to any depth. *)
Fixpoint runs (depth : nat) : relation DB :=
  match depth with
  | O => eq
  | S depth => rtc (step (runs depth))
  end.

Definition empty_db : DB := mkDB ∅ ∅ ∅ ∅.

Abbreviation good := (Inv (GenesisActivationHeight params) retention).

Lemma good_empty : good empty_db.
Proof. split; [intros h id|intros id t|intros id v o|intros id t]; intros H; simpl in H;
  by rewrite lookup_empty in H. Qed.

Lemma run_op_good w o db : (∀ n d, good d → good (w_others w n d)) → good db → good (run_op w o db).
Proof.
  intros Ho Hi.
  assert (Hsafe : ∀ {A} (m : M A), safe good m → good (committed (m (mkTxn db db 0)).2)).
  { intros A m Hm. destruct (m (mkTxn db db 0)) as [r s'] eqn:E.
    exact (Hm (mkTxn db db 0) r s' Hi E). }
  set (env := mkEnv (w_height w) retention).
  destruct o; cbn [run_op]; fold env.
  - by apply (sendSpendBatch_good _ env).
  - by apply (Unspend_good _ env).
  - apply (SpendTx_good _ env); [|done]. intros items d t Hd.
    pose proof (sendSpendBatch_good _ env (w_fault w) (w_rival w) (w_cancelled w) items d t Hd).
    by destruct (sendSpendBatch _ _ _ _ _ _ _) as [[? ?] ?].
  - apply Hsafe. by apply (safe_createWithRetry (GenesisActivationHeight params) env).
  - apply Hsafe. by apply (safe_SetConflicting _ env).
  - apply Hsafe. by apply (safe_SetLocked _ env).
  - apply Hsafe. by apply (safe_SetMinedMulti _ env).
  - by apply (MarkTransactionsOnLongestChain_good _ env).
  - apply Hsafe. by apply (safe_PreserveTransactions _ env).
  - apply Hsafe. by apply (safe_ProcessExpiredPreservations _ env).
  - apply Hsafe. by apply (safe_RemoveBlockIDs _ env).
  - apply Hsafe. by apply (safe_RemoveFromConflictingChildren _ env).
  - apply Hsafe. apply (safe_freeze_each _ env); [done|]. intros. by apply (safe_check_freeze _ env).
  - apply Hsafe. apply (safe_freeze_each _ env); [done|]. intros. by apply (safe_check_unfreeze _ env).
  - apply Hsafe. by apply (safe_ReAssignUTXO _ env).
  - apply Hsafe. by apply (safe_Delete _ env).
  - apply Hsafe. by apply (safe_deleteTombstoned _ env).
  - apply Hsafe. by apply (safe_intents _ env).
  - apply Hsafe. by apply (safe_intents _ env).
Qed.

Lemma runs_good depth db db' : runs depth db db' → good db → good db'.
Proof.
  revert db db'; induction depth as [|depth IH]; intros db db'; simpl; [by intros ->|].
  induction 1 as [|d d1 d2 (w & o & Ho & ->) _ IHr]; intros Hi; [done|]. apply IHr.
  apply run_op_good; [|done]. intros n d1 Hd. by apply (IH d1).
Qed.
End Reach.

(** ** Theorems *)
Record tables_consistent (db : DB) : Prop := {
  tc_index h id : db_ids db !! h = Some id ↔ ∃ t, db_txs db !! id = Some t ∧ t_hash t = h;
  tc_outputs id vout o : db_outputs db !! (id, vout) = Some o → is_Some (db_txs db !! id);
}.

Definition quiet_world (height first : Z) : world :=
  mkWorld height (λ _, None) (λ _, None) (λ _ db, db) (λ _, false) (λ n, first + Z.of_nat n) Z.of_nat.

Section Theorems.
  Context `{CH : Chainhash} {BT : BtTx} {ST : Subtree}.

Lemma good_consistent genesis retention db : Inv genesis retention db → tables_consistent db.
Proof.
  intros [H1 H2 H3 _]. split; [|done]. intros h id. split; [apply H1|]. intros (t & Ht & <-). by apply H2.
Qed.

(** C3: on an engine that runs transactions one after another (SQLite), in every
    reachable state a delete-at-height is only on a record that may go
    (conflicting, with no unspent output, or with outputs nobody could ever
    spend), never on a preserved one, and nowhere when the retention is zero.
    Under READ COMMITTED (PostgreSQL) this fails: [setDAH_race]. *)
Theorem reachable_delete_heights (params : ChainParams) (retention : Z) (depth : nat) (db : DB)
    (id : Z) (t : tx_row) (height : Z) :
  runs params retention depth empty_db db →
  db_txs db !! id = Some t → t_delete_at_height t = Some height →
  retention ≠ 0 ∧ t_preserve_until t = None ∧
  (t_conflicting t = true ∨ no_unspent id db ∨ carrier (GenesisActivationHeight params) t).
Proof.
  intros H Ht Hd. apply runs_good in H; [|apply good_empty].
  destruct (inv_dah _ _ _ H _ _ Ht) as [H1 H2 H3]. rewrite Hd in *. split_and!.
  - intros E. by specialize (H1 E).
  - apply eq_None_not_Some. intros Hp. by specialize (H3 Hp).
  - destruct (t_conflicting t) eqn:Ec; [by left|right]. apply H2; [by eexists|done].
Qed.

(** The outputs of a row that is deleted go; those of the others stay. *)
Lemma delete_txs_cascade sel db id t vout : db_txs db !! id = Some t → sel id t = true →
  db_outputs (delete_txs sel db).2 !! (id, vout) = None.
Proof.
  intros Ht Hs. apply map_lookup_filter_None. right. intros o _. cbn. rewrite (proj2 (map_lookup_filter_Some _ _ id t)); done.
Qed.

Lemma delete_txs_other sel db id vout : (∀ t, db_txs db !! id = Some t → sel id t = false) →
  db_outputs (delete_txs sel db).2 !! (id, vout) = db_outputs db !! (id, vout).
Proof.
  intros Hs. apply option_eq. intros o. unfold delete_txs. cbn [snd db_outputs]. rewrite map_lookup_filter_Some. split; [tauto|].
  intros Ho. split; [done|]. apply map_lookup_filter_None. right. intros t Ht. by rewrite Hs.
Qed.

Lemma existsb_map {A B} `{Countable A} (f : A * B → bool) (m : gmap A B) :
  existsb f (map_to_list m) = true ↔ ∃ k v, m !! k = Some v ∧ f (k, v) = true.
Proof.
  rewrite existsb_exists. split.
  - intros ([k v] & Hin & Hf). exists k, v. split; [|done].
    by apply elem_of_map_to_list, list_elem_of_In.
  - intros (k & v & Hk & Hf). exists (k, v). split; [|done].
    by apply list_elem_of_In, elem_of_map_to_list.
Qed.

Lemma tombstoned_stable db h w id t vout o data : tombstoned true h w db id t = true →
  db_outputs db !! (id, vout) = Some o → o_spending_data o = Some data →
  stable_spender db (h - w) data = true.
Proof.
  intros Ht Ho Hd. apply andb_prop in Ht as [_ Ht]. simpl in Ht.
  destruct (stable_spender db (h - w) data) eqn:E; [done|]. exfalso.
  apply negb_true_iff, not_true_iff_false in Ht. apply Ht. apply existsb_map.
  exists (id, vout), o. split; [done|]. rewrite Hd, E. by rewrite bool_decide_true.
Qed.

(** A statement on its own runs on what others have committed by then, or fails. *)
Lemma auto_seen {A} fault others e (run : DB → A * DB) s :
  let db := others (ticks s) (committed s) in
  let db' := committed (auto fault others e run s).2 in db' = db ∨ db' = (run db).2.
Proof.
  cbv zeta. unfold auto, query, arrive. destruct (stmt fault run _) as [[a|f] s1] eqn:E; cbn.
  - right. apply stmt_inl in E as [E _]. simpl in E. by rewrite E.
  - left. by apply stmt_inr in E as [_ E].
Qed.

Lemma stable_spender_mined db n data : stable_spender db n data = true →
  ∃ cid child, db_txs db !! cid = Some child ∧ hash_bytes (t_hash child) = take 32 data ∧
    t_unmined_since child = None ∧ Exists (λ b, b.2 ≤ n) (t_blocks child).
Proof.
  intros (cid & c & Hc & Hs)%existsb_map.
  apply andb_prop in Hs as [Hs Hb]. apply andb_prop in Hs as [Hh Hu].
  apply bool_decide_eq_true in Hh, Hu. apply existsb_exists in Hb as ([b hb] & Hin & Hb).
  exists cid, c. split_and!; [done..|]. apply Exists_exists. exists (b, hb).
  split; [by apply list_elem_of_In|]. simpl. lia.
Qed.

(** What entitles the pruner to remove a record of [db]. *)
Record prunable (defensive : bool) (blockHeight safetyWindow : Z) (db : DB) (id : Z) (t : tx_row) : Prop := {
  pr_due : due blockHeight t = true;
  pr_settled : t_unmined_since t = None ∨ t_conflicting t = true;
  pr_stable vout o data : defensive = true → db_outputs db !! (id, vout) = Some o → o_spending_data o = Some data →
    ∃ cid child, db_txs db !! cid = Some child ∧ hash_bytes (t_hash child) = take 32 data ∧
      t_unmined_since child = None ∧ Exists (λ b, b.2 ≤ blockHeight - safetyWindow) (t_blocks child);
}.

Lemma tombstoned_prunable defensive h w db id t : tombstoned defensive h w db id t = true → prunable defensive h w db id t.
Proof.
  intros Ht. pose proof Ht as Ht'. unfold tombstoned in Ht'.
  apply andb_prop in Ht' as [Ht' _]. apply andb_prop in Ht' as [Hd Hu]. split; [done| |].
  - apply orb_prop in Hu as [Hu|Hu]; [left; by apply bool_decide_eq_true in Hu|by right].
  - intros vout o data -> Ho Hs. by eapply stable_spender_mined, tombstoned_stable.
Qed.

(** A due record of a store that keeps the invariant. *)
Lemma due_dead G retention db h id t : Inv G retention db → db_txs db !! id = Some t → due h t = true →
  t_preserve_until t = None ∧ (t_conflicting t = true ∨ no_unspent id db ∨ carrier G t).
Proof.
  intros Hi Ht Hd. destruct (inv_dah _ _ _ Hi _ _ Ht) as [_ H2 H3].
  assert (Hs : is_Some (t_delete_at_height t)) by (unfold due in Hd; destruct (t_delete_at_height t); [by eexists|done]).
  split; [apply eq_None_not_Some; intros Hp; rewrite (H3 Hp) in Hs; by destruct Hs|].
  destruct (t_conflicting t) eqn:Ec; [by left|right]. by apply H2.
Qed.

(** C2: whatever other clients commit between its two statements, the pruner
    leaves the store as its DELETE statement found it, less records that were
    due there and on the longest chain or conflicting; in defensive mode (off by
    default) every spender these recorded was mined, and deep enough.  What it
    removes goes with its outputs and nothing else does.  If the store was
    reached, and is changed, by this store's operations on an engine that
    serialises transactions, what is removed was not preserved either, and was
    conflicting, without an unspent output, or never had a spendable one. *)
Theorem pruner_deletes_only_dead (params : ChainParams) (retention : Z) (depth : nat) (db : DB)
    (w : world) (defensive : bool) (blockHeight safetyWindow : Z) :
  let db' := run_op params retention w (OpPrune defensive blockHeight safetyWindow) db in
  ∃ n1 n2 cleared seen,
    (cleared = w_others w n1 db ∨ cleared = (clear_unmined blockHeight (w_others w n1 db)).2) ∧
    seen = w_others w n2 cleared ∧
    db_intents db' = db_intents seen ∧
    (∀ id, (db_txs db' !! id = db_txs seen !! id ∧ ∀ vout, db_outputs db' !! (id, vout) = db_outputs seen !! (id, vout)) ∨
      ∃ t, db_txs seen !! id = Some t ∧ db_txs db' !! id = None ∧ (∀ vout, db_outputs db' !! (id, vout) = None) ∧
        prunable defensive blockHeight safetyWindow seen id t ∧
        (runs params retention depth empty_db db → (∀ n d, runs params retention depth d (w_others w n d)) →
          t_preserve_until t = None ∧
          (t_conflicting t = true ∨ no_unspent id seen ∨ carrier (GenesisActivationHeight params) t))).
Proof.
  cbv zeta. unfold run_op, deleteTombstoned, mbind, SM_bind, clearUnminedDeleteAtHeight.
  set (s1 := (auto (w_fault w) (w_others w) storage_error (clear_unmined blockHeight) _).2).
  pose proof (auto_seen (w_fault w) (w_others w) storage_error (clear_unmined blockHeight) (mkTxn db db 0)) as H1.
  fold s1 in H1. cbn [ticks committed] in H1.
  set (run := λ d : DB, delete_txs (tombstoned defensive blockHeight safetyWindow d) d).
  pose proof (auto_seen (w_fault w) (w_others w) storage_error run s1) as H2. cbv zeta in H2.
  set (seen := w_others w (ticks s1) (committed s1)) in *.
  exists 0%nat, (ticks s1), (committed s1), seen. split; [exact H1|]. split; [done|].
  assert (runs params retention depth empty_db db → (∀ n d, runs params retention depth d (w_others w n d)) →
    Inv (GenesisActivationHeight params) retention seen) as Hinv.
  { intros Hr Ho. apply runs_good in Hr; [|apply good_empty].
    assert (∀ n d, Inv (GenesisActivationHeight params) retention d → Inv (GenesisActivationHeight params) retention (w_others w n d)) as Hgo
      by (intros n d; apply runs_good with depth; apply Ho).
    apply Hgo. destruct H1 as [->| ->]; [by apply Hgo|by apply (Inv_clear_unmined _ (mkEnv 0 retention)), Hgo]. }
  destruct H2 as [E|E]; cbv zeta in E; fold seen in E; cbn [mbind] in *; rewrite E; [by split; [|left]|].
  split; [done|]. intros id. unfold run. destruct (db_txs seen !! id) as [t|] eqn:Ht; cycle 1.
  { left. split; [by apply map_lookup_filter_None; left|]. intros vout. apply delete_txs_other. intros t. by rewrite Ht. }
  destruct (tombstoned defensive blockHeight safetyWindow seen id t) eqn:Et.
  - right. exists t. split_and!; [done|..].
    + apply map_lookup_filter_None. right. intros u. rewrite Ht. intros [= <-]. by rewrite Et.
    + intros vout. by eapply delete_txs_cascade.
    + by apply tombstoned_prunable.
    + intros Hr Ho. eapply due_dead; [by apply Hinv|done|]. by eapply pr_due, tombstoned_prunable.
  - left. split; [by apply map_lookup_filter_Some|]. intros vout. apply delete_txs_other. intros u. rewrite Ht. by intros [= <-].
Qed.

End Theorems.

(** ** A transaction is created, double-spent and pruned *)
Definition reach_tx : Tx :=
  mkTx 1 [mkInput (hash_of_Z 5) 0 700 (Some [Byte.xac]) (Some [Byte.x51]) 0]
    [Some (mkOutput 650 (Some [Byte.xac]))] 0.

Definition plain_options : CreateOptions := mkCreateOptions [] None None false false false false.

Definition run_ex (first : Z) : operation → DB → DB :=
  run_op (CH := model_Chainhash) (BT := model_BtTx) (ST := model_Subtree) ex_params 10
    (quiet_world 500 first).
Abbreviation runs_ex := (runs (CH := model_Chainhash) (BT := model_BtTx) (ST := model_Subtree) ex_params 10).

Definition reach_parent : Tx :=
  mkTx 5 [] [Some (mkOutput 700 (Some [Byte.xac]))] 0.

(** The parent, its spender, and the spender marked as conflicting. *)
Definition reach_db1 : DB :=
  run_ex 0 (OpCreate reach_parent 500 (mkCreateOptions [] None None false false false true)) empty_db.
Definition reach_db2 : DB := run_ex 100 (OpCreate reach_tx 500 plain_options) reach_db1.
Definition reach_db : DB := run_ex 200 (OpSetConflicting [hash_of_Z 1] true) reach_db2.

Lemma step_quiet first o db :
  step (CH := model_Chainhash) (BT := model_BtTx) (ST := model_Subtree) ex_params 10 eq db
    (run_ex first o db).
Proof. by exists (quiet_world 500 first), o. Qed.

Lemma reach_db_reachable : runs_ex 1 empty_db reach_db.
Proof.
  apply (rtc_l _ _ reach_db1); [apply step_quiet|]. apply (rtc_l _ _ reach_db2); [apply step_quiet|].
  apply rtc_once, step_quiet.
Qed.

Lemma reach_db_consistent : tables_consistent reach_db.
Proof. eapply good_consistent, runs_good, good_empty. exact reach_db_reachable. Qed.

Definition reach_id : Z := default 0 (db_ids reach_db !! hash_of_Z 1).

Definition reach_row : tx_row :=
  match db_txs reach_db !! reach_id with
  | Some t => t
  | None => mkTxRow zero_hash false false false [] None None None reach_tx [] 0
  end.

Example reach_row_due : t_delete_at_height reach_row = Some 511.
Proof. vm_compute. reflexivity. Qed.

Lemma reach_row_lookup : db_txs reach_db !! reach_id = Some reach_row.
Proof.
  assert (match db_txs reach_db !! reach_id with Some _ => true | None => false end = true) as H
    by (vm_compute; reflexivity).
  unfold reach_row. by destruct (db_txs reach_db !! reach_id).
Qed.

Definition reach_pruned : DB :=
  run_op (CH := model_Chainhash) (BT := model_BtTx) (ST := model_Subtree) ex_params 10
    (quiet_world 600 300) (OpPrune true 600 0) reach_db.

Lemma reachable_delete_heights_witness :
  t_preserve_until reach_row = None ∧
  (t_conflicting reach_row = true ∨ no_unspent reach_id reach_db ∨
   carrier (GenesisActivationHeight ex_params) reach_row).
Proof.
  exact (proj2 (reachable_delete_heights ex_params 10 1 reach_db reach_id reach_row 511
    reach_db_reachable reach_row_lookup reach_row_due)).
Defined.

(** The conflicting spender is removed; what entitles the pruner to it. *)
Lemma pruner_deletes_only_dead_witness : db_txs reach_pruned !! reach_id = None ∧
  ∃ seen t, prunable true 600 0 seen reach_id t ∧ t_preserve_until t = None.
Proof.
  assert (db_txs reach_pruned !! reach_id = None) as Hgone.
  { assert (match db_txs reach_pruned !! reach_id with Some _ => true | None => false end = false) as H
      by (vm_compute; reflexivity). by destruct (db_txs reach_pruned !! reach_id). }
  split; [exact Hgone|].
  destruct (pruner_deletes_only_dead (CH := model_Chainhash) (BT := model_BtTx) (ST := model_Subtree) ex_params 10 1 reach_db
    (quiet_world 600 300) true 600 0) as (n1 & n2 & cleared & seen & Hc & -> & _ & Hrows).
  change (w_others (quiet_world 600 300) n1 reach_db) with reach_db in Hc.
  assert (is_Some (db_txs cleared !! reach_id)) as Hsome.
  { destruct Hc as [->| ->].
    - rewrite reach_row_lookup. by eexists.
    - assert (match db_txs (clear_unmined 600 reach_db).2 !! reach_id with Some _ => true | None => false end = true) as H
        by (vm_compute; reflexivity). destruct (db_txs (clear_unmined 600 reach_db).2 !! reach_id); [by eexists|done]. }
  destruct (Hrows reach_id) as [[E _]|(t & _ & _ & _ & Hp & Hd)].
  - exfalso. apply (is_Some_None (A := tx_row)). rewrite <- Hgone.
    change (db_txs reach_pruned !! reach_id = db_txs cleared !! reach_id) in E. rewrite E. exact Hsome.
  - exists cleared, t. split; [exact Hp|]. apply Hd; [exact reach_db_reachable|]. intros n d. apply rtc_refl.
Defined.

(** ** [setDAH] under READ COMMITTED

    On PostgreSQL others commit between the SELECT and the UPDATE of [setDAH];
    [others] is what they do to the rows the transaction has not written. *)
Definition setDAH_between (env : StoreEnv) (others : DB → DB) (id : Z) (db : DB) : DB :=
  match db_txs db !! id with
  | None => others db
  | Some t =>
      let dah := compute_dah env (unspent_count id db) t in
      if (env_retention env =? 0) || bool_decide (is_Some (t_preserve_until t)) ||
         dahUnchanged (t_delete_at_height t) dah then others db
      else match db_txs (others db) !! id with
           | Some t => put_tx id (set_dah dah t) (others db)
           | None => others db
           end
  end.

(** When nobody does anything it is [setDAH]. *)
Lemma setDAH_between_alone env id s : view (setDAH env (λ _, None) id s).2 = setDAH_between env (λ db, db) id (view s).
Proof.
  unfold setDAH, setDAH_between, stmt. destruct (env_retention env =? 0); [by destruct (db_txs (view s) !! id)|].
  destruct (db_txs (view s) !! id) as [t|] eqn:Et; [|done]. cbn [orb]. destruct (bool_decide _); [done|].
  cbn [orb]. destruct (dahUnchanged _ _); [done|]. cbn. by rewrite Et.
Qed.

(** A mined transaction of two outputs, the first of them spent. *)
Definition race_tx : Tx := mkTx 6 [] [Some (mkOutput 700 (Some [Byte.xac])); Some (mkOutput 800 (Some [Byte.xac]))] 0.
Definition race_spend (vout : Z) : Spend :=
  mkSpend (hash_of_Z 6) vout zero_hash (NewSpendingData (Some (hash_of_Z (7 + vout))) 0).
Definition race_db : DB :=
  run_ex 200 (OpSpend [mkBatchSpend (race_spend 0) 501 false false true])
    (run_ex 0 (OpCreate race_tx 500 (mkCreateOptions [mkMinedBlockInfo 1 500 0 true false] None None false false false true)) empty_db).
Definition race_id : Z := default 0 (db_ids race_db !! hash_of_Z 6).

(** One client spends the second output and recomputes the delete-at-height;
    meanwhile another unspends the first. *)
Definition race_result : DB :=
  setDAH_between (mkEnv 500 10) (run_ex 300 (OpUnspend [race_spend 0] None)) race_id
    (update_unspent (bytes_arg (sp_SpendingData (race_spend 1))) (race_id, 1) race_db).2.

Definition unspent_at (db : DB) (k : Z * Z) : bool :=
  match db_outputs db !! k with Some o => bool_decide (o_spending_data o = None) | None => false end.

(** The record is left with an unspent output and a height to be deleted at, and
    once that height is there the pruner removes it with the output. *)
Lemma setDAH_race :
  unspent_at race_result (race_id, 0) = true ∧
  (t ← db_txs race_result !! race_id; t_delete_at_height t) = Some 511 ∧
  (t_conflicting <$> db_txs race_result !! race_id) = Some false ∧
  unspent_at (run_ex 400 (OpPrune false 600 0) race_result) (race_id, 0) = false.
Proof. split_and!; vm_compute; reflexivity. Qed.
