(* ===== verification/UtxoSqlGuarantees.v ===== *)
(** * What single operations of the SQL UTXO store guarantee

    The two ways of unlocking agree; a frozen output cannot be spent; a
    reassigned one only after its delay; the conflict intents round-trip. *)

From stdpp Require Import sorting.
From stdpp Require Import list.
From S2P Require Import Prelude External BlockHeader BlockReward Utxo UtxoSql.
From S2P Require Import UtxoSqlSpend UtxoSqlOps UtxoSqlMarks UtxoSqlLifecycle UtxoSqlInvariant UtxoSqlReach.

Definition no_fault : nat → option DbFault := λ _, None.
Definition alone : nat → DB → DB := λ _ db, db.
Definition never : nat → bool := λ _, false.

(** ** Updating disjoint groups of rows *)
Definition update_rows (hashes : list Hash) (f : DB → Z → tx_row → tx_row) (db : DB) : DB :=
  (update_txs (in_ids (ids_in hashes db)) (f db) db).2.

(** [f] reads no transaction row but its own. *)
Definition row_local (f : DB → Z → tx_row → tx_row) : Prop := ∀ db db',
  db_outputs db = db_outputs db' → f db = f db'.

Lemma elem_of_ids_in hashes db id : id ∈ ids_in hashes db ↔ ∃ h, h ∈ hashes ∧ db_ids db !! h = Some id.
Proof. unfold ids_in. rewrite elem_of_list_to_set, list_elem_of_omap. done. Qed.

Lemma ids_in_app l k db : ids_in (l ++ k) db = ids_in l db ∪ ids_in k db.
Proof. apply leibniz_equiv. unfold ids_in. by rewrite omap_app, list_to_set_app. Qed.

Lemma map_imap_compose {A B C} (f : Z → A → option B) (g : Z → B → option C) (m : gmap Z A) :
  map_imap g (map_imap f m) = map_imap (λ k a, f k a ≫= g k) m.
Proof.
  apply map_eq. intros k. rewrite !map_lookup_imap. by destruct (m !! k).
Qed.

Lemma update_rows_app f l k db : row_local f → ids_in l db ## ids_in k db →
  update_rows k f (update_rows l f db) = update_rows (l ++ k) f db.
Proof.
  intros Hl Hd. unfold update_rows, update_txs. cbn [snd db_ids db_outputs db_intents db_txs].
  f_equal. rewrite map_imap_compose. apply map_eq. intros id. rewrite !map_lookup_imap.
  destruct (db_txs db !! id) as [t|]; [|done]. cbn. f_equal. unfold in_ids.
  change (ids_in k _) with (ids_in k db). rewrite ids_in_app.
  rewrite (Hl (mkDB _ _ _ _) db) by done.
  specialize (Hd id).
  assert (bool_decide (id ∈ ids_in l db ∪ ids_in k db)
          = bool_decide (id ∈ ids_in l db) || bool_decide (id ∈ ids_in k db)) as ->.
  { rewrite <- bool_decide_or. apply bool_decide_ext. apply elem_of_union. }
  case_bool_decide; case_bool_decide; try done. by destruct Hd.
Qed.

Lemma update_rows_nil f db : update_rows [] f db = db.
Proof.
  unfold update_rows, update_txs. destruct db as [i t o w]. simpl. f_equal.
  apply map_eq. intros id. rewrite map_lookup_imap. destruct (t !! id); [|done]. done.
Qed.

(** Group after group is all at once. *)
Lemma update_rows_groups f groups db : row_local f → NoDup (mjoin groups) →
  (∀ h h' id, db_ids db !! h = Some id → db_ids db !! h' = Some id → h = h') →
  foldl (λ db l, update_rows l f db) db groups = update_rows (mjoin groups) f db.
Proof.
  intros Hl. revert db. induction groups as [|l groups IH]; intros db Hn Hinj;
    [by rewrite update_rows_nil|].
  cbn [foldl]. change (mjoin (l :: groups)) with (l ++ mjoin groups) in *.
  apply NoDup_app in Hn as (Hn1 & Hdis & Hn2).
  rewrite IH; [|done|exact Hinj]. apply update_rows_app; [done|]. intros id H1 H2.
  apply elem_of_ids_in in H1 as (h1 & Hin1 & E1), H2 as (h2 & Hin2 & E2).
  rewrite (Hinj _ _ _ E1 E2) in Hin1. by apply (Hdis h2).
Qed.

(** ** Unlocking *)
Section Unlock.
  Context (env : StoreEnv).

(** The row both paths leave. *)
Definition unlocked_row (db : DB) (id : Z) (t : tx_row) : tx_row :=
  let t' := set_locked false t in
  if env_retention env =? 0 then t'
  else set_dah (unlock_dah (u32 (env_height env + 1 + env_retention env)) (fully_spent id db) t) t'.

Lemma unlocked_row_local : row_local unlocked_row.
Proof.
  intros db db' E. unfold unlocked_row, fully_spent, unspent_count. by rewrite E.
Qed.

Lemma unlock_bulk_rows hashes db : (unlock_bulk env hashes db).2 = update_rows hashes unlocked_row db.
Proof.
  unfold unlock_bulk, update_rows, unlocked_row. by destruct (env_retention env =? 0).
Qed.

(** The CASE expression is the rule of [setDAH]. *)
Lemma unlock_dah_compute id db t : t_preserve_until t = None →
  unlock_dah (u32 (env_height env + 1 + env_retention env)) (fully_spent id db) t =
  compute_dah env (unspent_count id db) (set_locked false t).
Proof.
  intros Hp. unfold unlock_dah, compute_dah, fully_spent. rewrite Hp. rewrite bool_decide_false by by intros [].
  cbn [t_conflicting set_locked t_delete_at_height t_unmined_since].
  change (t_has_blocks (set_locked false t)) with (t_has_blocks t).
  destruct (t_conflicting t), (t_delete_at_height t) as [h|]; cbn [andb]; try done.
  all: destruct (bool_decide _ && _ && _); cbn [andb]; done.
Qed.

(** [setDAH] without faults, after the row's lock is cleared. *)
Lemma setDAH_unlocked id t s : db_txs (view s) !! id = Some (set_locked false t) →
  ∃ n, setDAH env no_fault id s =
    (None, mkTxn (if env_retention env =? 0 then view s
                  else put_tx id (unlocked_row (view s) id t) (view s)) (committed s) n).
Proof.
  intros Ht. unfold setDAH, unlocked_row. destruct (Z.eqb_spec (env_retention env) 0) as [Hr|Hr].
  { exists (ticks s). by destruct s. }
  unfold stmt, no_fault. rewrite Ht. cbn [view committed ticks].
  assert (Hsame : ∀ dah, dah = t_delete_at_height t →
    put_tx id (set_dah dah (set_locked false t)) (view s) = view s).
  { intros dah ->. destruct (view s) as [a b c d]. unfold put_tx. simpl in *. f_equal.
    apply insert_id. rewrite Ht. by destruct t. }
  case_bool_decide as Hp.
  { eexists. rewrite Hsame; [done|]. unfold unlock_dah. by rewrite bool_decide_true by exact Hp. }
  apply eq_None_not_Some in Hp. simpl in Hp. rewrite unlock_dah_compute by done.
  destruct (dahUnchanged _ _) eqn:Eu.
  - eexists. rewrite Hsame; [done|]. symmetry. simpl in Eu.
    destruct (t_delete_at_height t), (compute_dah _ _ _); try done. simpl in Eu. f_equal. lia.
  - rewrite Ht. by eexists.
Qed.

Lemma unlock_one_row h id s : db_ids (view s) !! h = Some id → is_Some (db_txs (view s) !! id) →
  ∃ n, unlock_one env no_fault h s =
    (Ok tt, mkTxn (update_rows [h] (unlocked_row) (view s)) (committed s) n).
Proof.
  intros Hh [t Ht]. unfold unlock_one, query, mbind, SM_bind.
  unfold stmt at 1. unfold no_fault at 1. rewrite Hh, Ht. cbn [view committed ticks].
  unfold setDAH_M. set (s1 := mkTxn _ _ _).
  destruct (setDAH_unlocked id t s1) as [n E]; [apply lookup_insert_eq|]. rewrite E.
  exists n. do 2 f_equal.
  assert (update_rows [h] unlocked_row (view s) = put_tx id (unlocked_row (view s) id t) (view s)) as ->.
  { unfold update_rows, update_txs, put_tx. simpl. f_equal. apply map_eq. intros i.
    rewrite map_lookup_imap. unfold in_ids, ids_in. simpl. rewrite Hh. simpl.
    destruct (decide (id = i)) as [<-|Hne].
    - rewrite Ht, lookup_insert_eq. simpl. by rewrite bool_decide_true by set_solver.
    - rewrite lookup_insert_ne by done. destruct (db_txs (view s) !! i); [|done]. simpl.
      by rewrite bool_decide_false by set_solver. }
  subst s1. simpl. unfold unlocked_row, put_tx. simpl.
  change (fully_spent id (mkDB _ _ _ _)) with (fully_spent id (view s)).
  destruct (env_retention env =? 0); [done|]. by rewrite insert_insert_eq.
Qed.
End Unlock.

Definition held (db : DB) (h : Hash) : Prop :=
  ∃ id, db_ids db !! h = Some id ∧ is_Some (db_txs db !! id).

Lemma update_rows_held f l db h : held (update_rows l f db) h ↔ held db h.
Proof.
  unfold held, update_rows. simpl. split; intros (id & Hid & [t Ht]); exists id; (split; [done|]).
  - rewrite map_lookup_imap in Ht. destruct (db_txs db !! id); [by eexists|done].
  - rewrite map_lookup_imap, Ht. by eexists.
Qed.

Section UnlockPaths.
  Context (env : StoreEnv).

Lemma each_unlock_one l s : Forall (held (view s)) l →
  ∃ n, each (unlock_one env no_fault) l s =
    (Ok tt, mkTxn (foldl (λ db g, update_rows g (unlocked_row env) db) (view s)
                     (map (λ h, [h]) l)) (committed s) n).
Proof.
  revert s. induction l as [|h l IH]; intros s Hl; [exists (ticks s); by destruct s|].
  apply Forall_cons in Hl as [(id & Hid & Ht) Hl].
  destruct (unlock_one_row env h id s Hid Ht) as [n E].
  cbn [each map foldl]. unfold mbind, SM_bind. rewrite E.
  edestruct IH as [n' E']; [|rewrite E'; by eexists].
  eapply Forall_impl; [exact Hl|]. intros h'. cbn [view]. apply update_rows_held.
Qed.

Lemma each_unlock_bulk groups s : view s = committed s →
  ∃ n, each (λ chunk, _ ← check_ctx never;
                      _ ← auto no_fault alone storage_error (unlock_bulk env chunk); mret tt) groups s =
    (Ok tt, let db := foldl (λ db g, update_rows g (unlocked_row env) db) (committed s) groups in
            mkTxn db db n).
Proof.
  revert s. induction groups as [|g groups IH]; intros s Hs.
  { exists (ticks s). destruct s; simpl in *. by subst. }
  cbn [each foldl]. unfold mbind, SM_bind, check_ctx, never, auto, query, arrive, alone, stmt, no_fault.
  cbn [view committed ticks].
  destruct (unlock_bulk env g (committed s)) as [k db1] eqn:E.
  assert (db1 = update_rows g (unlocked_row env) (committed s)) as ->
    by (by rewrite <- unlock_bulk_rows, E).
  cbn [finish commit view ticks]. apply (IH (mkTxn _ _ _)). done.
Qed.
End UnlockPaths.

Lemma mjoin_singletons {A} (l : list A) : mjoin (map (λ x, [x]) l) = l.
Proof. induction l as [|x l IH]; [done|]. cbn. by f_equal. Qed.

(** Unlocking by the bulk update and by one row after another leave the same
    store, with the locks cleared and every delete-at-height recomputed by the
    rule of [setDAH]. *)
Theorem SetLocked_paths_agree (env : StoreEnv) (hashes : list Hash) (db : DB) (t : nat) :
  tables_consistent db → NoDup hashes → Forall (λ h, is_Some (db_ids db !! h)) hashes →
  let db' := update_rows hashes (unlocked_row env) db in
  (∃ n, SetLocked env no_fault alone never true hashes false (mkTxn db db t) =
        (Ok tt, mkTxn db' db' n)) ∧
  (∃ n, SetLocked env no_fault alone never false hashes false (mkTxn db db t) =
        (Ok tt, mkTxn db' db' n)).
Proof.
  intros Hc Hn Hall db'.
  assert (Hinj : ∀ h h' id, db_ids db !! h = Some id → db_ids db !! h' = Some id → h = h').
  { intros h h' id H1 H2. apply (tc_index _ Hc) in H1 as (t1 & Ht1 & <-).
    apply (tc_index _ Hc) in H2 as (t2 & Ht2 & <-). congruence. }
  assert (Hheld : Forall (held db) hashes).
  { eapply Forall_impl; [exact Hall|]. intros h [id Hid]. exists id. split; [done|].
    apply (tc_index _ Hc) in Hid as (u & Hu & _). by eexists. }
  split; cbn [SetLocked].
  - edestruct (each_unlock_bulk env (chunks maxINClauseSize hashes) (mkTxn db db t)) as [n E];
      [done|]. exists n. etransitivity; [exact E|]. cbn [committed].
    rewrite update_rows_groups, chunks_concat; [done|by vm_compute; lia|..]; try done.
    + apply unlocked_row_local.
    + by rewrite chunks_concat by (vm_compute; lia).
  - unfold transaction, arrive, alone, query, mbind, SM_bind, stmt, no_fault. cbn [view committed ticks].
    destruct (each_unlock_one env hashes (mkTxn db db (S t))) as [n E]; [done|].
    fold no_fault. rewrite E. cbn [view committed ticks finish commit].
    rewrite update_rows_groups, mjoin_singletons; try done; [by eexists|apply unlocked_row_local|].
    by rewrite mjoin_singletons.
Qed.

(** ** Freezing *)
Lemma auto_alone {A} e (run : DB → A * DB) s :
  auto no_fault alone e run s =
  let '(a, db) := run (committed s) in (Ok a, mkTxn db db (S (ticks s))).
Proof.
  unfold auto, query, arrive, alone, stmt, no_fault. cbn [view committed ticks].
  by destruct (run (committed s)).
Qed.

Lemma each_write_alone {A} e (f : A → DB → DB) l s : view s = committed s →
  ∃ n, each (λ x, auto no_fault alone e (write (f x))) l s =
    (Ok tt, let db := foldl (λ db x, f x db) (committed s) l in mkTxn db db n).
Proof.
  revert s. induction l as [|x l IH]; intros s Hs.
  { exists (ticks s). destruct s; simpl in *. by subst. }
  cbn [each foldl]. unfold mbind, SM_bind. rewrite auto_alone. cbn [write].
  by apply (IH (mkTxn _ _ _)).
Qed.

(** What a check answers on its own. *)
Definition read_only {A} (m : M A) (f : DB → result A) : Prop := ∀ s,
  ∃ n, m s = (f (committed s), mkTxn (committed s) (committed s) n).

Lemma traverse_read_only {A B} (m : A → M B) (f : A → DB → result B) l s :
  (∀ x, read_only (m x) (f x)) → view s = committed s →
  ∃ r n, traverse m l s = (r, mkTxn (committed s) (committed s) n) ∧
    ∀ ys, r = Ok ys → Forall2 (λ x y, f x (committed s) = Ok y) l ys.
Proof.
  intros Hm. revert s. induction l as [|x l IH]; intros s Hs.
  { exists (Ok []), (ticks s). split; [destruct s; simpl in *; by subst|]. intros ys [= <-]. constructor. }
  cbn [traverse]. unfold mbind, SM_bind. destruct (Hm x s) as [n E]. rewrite E.
  destruct (f x (committed s)) as [y|e] eqn:Ef; [|by exists (Err e), n].
  destruct (IH (mkTxn (committed s) (committed s) n) eq_refl) as (r & n' & E' & Hr).
  rewrite E'. cbn [committed] in *. destruct r as [ys|e]; [|by exists (Err e), n'].
  exists (Ok (y :: ys)), n'. split; [done|]. intros ? [= <-]. constructor; auto.
Qed.

Definition frozen_check (want : bool) (sp : Spend) (db : DB) : result Z :=
  match select_output (sp_TxID sp) (sp_Vout sp) db with
  | None => Err driver_error
  | Some (id, _, o) => if o_frozen o then Ok id else Err (err ERR_UTXO_FROZEN)
  end.

Lemma check_unfreeze_read `{Chainhash} sp :
  read_only (check_unfreeze no_fault alone sp) (frozen_check true sp).
Proof.
  intros s. exists (S (ticks s)). unfold check_unfreeze, mbind, SM_bind, frozen_check.
  rewrite auto_alone. cbn [read].
  destruct (select_output _ _ _) as [[[id t] o]|]; [|done]. by destruct (o_frozen o).
Qed.

Definition free_check `{Chainhash} (sp : Spend) (db : DB) : result Z :=
  match select_output (sp_TxID sp) (sp_Vout sp) db with
  | None => Err driver_error
  | Some (id, _, o) =>
      match o_spending_data o with
      | Some bytes =>
          let? _ := wrapR ERR_PROCESSING (NewSpendingDataFromBytes bytes) in Err (err ERR_UTXO_SPENT)
      | None => if o_frozen o then Err (err ERR_UTXO_FROZEN) else Ok id
      end
  end.

Lemma check_freeze_read `{Chainhash} sp : read_only (check_freeze no_fault alone sp) (free_check sp).
Proof.
  intros s. exists (S (ticks s)). unfold check_freeze, mbind, SM_bind, free_check.
  rewrite auto_alone. cbn [read].
  destruct (select_output _ _ _) as [[[id t] o]|]; [|done].
  destruct (o_spending_data o) as [bytes|]; [|by destruct (o_frozen o)].
  unfold of_result. by destruct (NewSpendingDataFromBytes bytes).
Qed.

(** The id map names every spend's transaction. *)
Lemma txHashIDMap_lookup db spends ids :
  Forall2 (λ sp id, db_ids db !! sp_TxID sp = Some id) spends ids →
  ∀ sp, sp ∈ spends → txHashIDMap spends ids !! sp_TxID sp = db_ids db !! sp_TxID sp.
Proof.
  unfold txHashIDMap. intros H sp Hin. apply Forall2_flip in H as H'. clear H'.
  enough (∀ m, (m !! sp_TxID sp = db_ids db !! sp_TxID sp ∨ sp ∈ spends) →
    foldl (λ (m : gmap Hash Z) '(spend, id), <[sp_TxID spend := id]> m) m (zip spends ids)
      !! sp_TxID sp = db_ids db !! sp_TxID sp) as Hgen by (by apply Hgen; right).
  clear Hin. induction H as [|sp' id spends ids Hid _ IH]; intros m Hm; cbn [zip foldl].
  { destruct Hm as [Hm|Hm]; [done|by apply elem_of_nil in Hm]. }
  apply IH. destruct (decide (sp_TxID sp' = sp_TxID sp)) as [E|Hne].
  - left. rewrite <- E, lookup_insert_eq. done.
  - destruct Hm as [Hm|Hm].
    + left. by rewrite lookup_insert_ne by done.
    + apply elem_of_cons in Hm as [->|Hm]; [done|by right].
Qed.

(** Updating outputs one after another. *)
Definition update_outputs (keys : list (Z * Z)) (sel : output_row → bool)
    (f : output_row → output_row) (db : DB) : DB :=
  foldl (λ db k, update_output k sel f db) db keys.

Lemma update_output_lookup k sel f db k' :
  db_outputs (update_output k sel f db) !! k' =
  (λ o, if bool_decide (k' = k) && sel o then f o else o) <$> db_outputs db !! k'.
Proof.
  unfold update_output. destruct (db_outputs db !! k) as [o|] eqn:E.
  - destruct (sel o) eqn:Es; simpl; destruct (decide (k' = k)) as [->|Hne].
    + rewrite lookup_insert_eq, E, bool_decide_true by done. simpl. by rewrite Es.
    + rewrite lookup_insert_ne, bool_decide_false by done. by destruct (_ !! k').
    + rewrite E, bool_decide_true by done. simpl. by rewrite Es.
    + rewrite bool_decide_false by done. by destruct (_ !! k').
  - destruct (decide (k' = k)) as [->|Hne]; [by rewrite E|].
    rewrite bool_decide_false by done. by destruct (_ !! k').
Qed.

Lemma update_output_rest k sel f db :
  db_ids (update_output k sel f db) = db_ids db ∧ db_txs (update_output k sel f db) = db_txs db.
Proof.
  unfold update_output. destruct (db_outputs db !! k) as [o|]; [|done]. by destruct (sel o).
Qed.

Lemma update_outputs_frozen keys b sel db k : (∀ o c, sel (set_frozen c o) = true → sel o = true) →
  db_ids (update_outputs keys sel (set_frozen b) db) = db_ids db ∧
  db_txs (update_outputs keys sel (set_frozen b) db) = db_txs db ∧
  db_outputs (update_outputs keys sel (set_frozen b) db) !! k =
    (λ o, if bool_decide (k ∈ keys) && sel o then set_frozen b o else o) <$> db_outputs db !! k.
Proof.
  intros Hsel. unfold update_outputs. revert db. induction keys as [|k0 keys IH]; intros db; cbn [foldl].
  { split_and!; [done..|]. by destruct (_ !! k). }
  destruct (IH (update_output k0 sel (set_frozen b) db)) as (-> & -> & ->).
  destruct (update_output_rest k0 sel (set_frozen b) db) as [-> ->]. split_and!; [done..|].
  rewrite update_output_lookup. destruct (db_outputs db !! k) as [o|]; [|done]. simpl. f_equal.
  assert (bool_decide (k ∈ k0 :: keys) = bool_decide (k = k0) || bool_decide (k ∈ keys)) as ->.
  { rewrite <- bool_decide_or. apply bool_decide_ext. apply elem_of_cons. }
  destruct (sel o) eqn:Es.
  - destruct (bool_decide (k = k0)), (bool_decide (k ∈ keys)); simpl; rewrite ?Es; try done.
    by destruct (sel (set_frozen b o)).
  - rewrite !andb_false_r. destruct (bool_decide (k ∈ keys)); simpl; [|done]. by rewrite Es.
Qed.

Lemma Forall2_elem_l {A B} (P : A → B → Prop) l k x : Forall2 P l k → x ∈ l → ∃ y, P x y.
Proof.
  induction 1 as [|a b l k Hab _ IH]; intros Hin; [by apply elem_of_nil in Hin|].
  apply elem_of_cons in Hin as [->|Hin]; eauto.
Qed.

Lemma foldl_fmap_key {A B C} (key : A → B) (f : C → B → C) l c :
  foldl f c (map key l) = foldl (λ c x, f c (key x)) c l.
Proof. revert c. induction l; simpl; auto. Qed.

(** The write pass, once the ids are known. *)
Lemma freeze_writes sel b spends ids s : view s = committed s →
  Forall2 (λ sp id, db_ids (committed s) !! sp_TxID sp = Some id) spends ids →
  ∃ n keys, each (λ spend,
      let id := default 0 (txHashIDMap spends ids !! sp_TxID spend) in
      auto no_fault alone driver_error
        (write (update_output (id, sp_Vout spend) sel (set_frozen b)))) spends s =
    (Ok tt, let db := update_outputs keys sel (set_frozen b) (committed s) in mkTxn db db n) ∧
    (∀ k, k ∈ keys ↔ ∃ sp, sp ∈ spends ∧ db_ids (committed s) !! sp_TxID sp = Some k.1 ∧ sp_Vout sp = k.2).
Proof.
  intros Hs Hids.
  set (key sp := (default 0 (txHashIDMap spends ids !! sp_TxID sp), sp_Vout sp)).
  destruct (each_write_alone driver_error
              (λ sp, update_output (key sp) sel (set_frozen b)) spends s Hs) as [n E].
  exists n, (map key spends). split.
  - etransitivity; [exact E|]. cbv zeta. unfold update_outputs.
    by rewrite (foldl_fmap_key key (λ db k, update_output k sel (set_frozen b) db)).
  - intros k. rewrite list_elem_of_fmap. pose proof (txHashIDMap_lookup _ _ _ Hids) as Hm. split.
    + intros (sp & -> & Hin). exists sp. split; [done|]. unfold key. simpl.
      destruct (Forall2_elem_l _ _ _ _ Hids Hin) as [id Hid]. by rewrite (Hm _ Hin), Hid.
    + intros (sp & Hin & Hid & Hv). exists sp. split; [|done]. destruct k as [i v]. simpl in *.
      unfold key. rewrite (Hm _ Hin), Hid. simpl. by subst.
Qed.

Lemma free_check_Ok `{Chainhash} sp db id : free_check sp db = Ok id →
  ∃ t o, select_output (sp_TxID sp) (sp_Vout sp) db = Some (id, t, o) ∧
    o_spending_data o = None ∧ o_frozen o = false.
Proof.
  unfold free_check. destruct (select_output _ _ _) as [[[i t] o]|]; [|done].
  destruct (o_spending_data o) as [d|] eqn:Ed; [by destruct (NewSpendingDataFromBytes d)|].
  destruct (o_frozen o) eqn:Ef; [done|]. intros [= <-]. eauto.
Qed.

Lemma select_output_id hash vout db id t o : select_output hash vout db = Some (id, t, o) →
  db_ids db !! hash = Some id ∧ db_txs db !! id = Some t ∧ db_outputs db !! (id, vout) = Some o.
Proof.
  unfold select_output. destruct (db_ids db !! hash) as [i|]; [|done].
  destruct (db_txs db !! i) eqn:Et, (db_outputs db !! (i, vout)) eqn:Eo; try done.
  by intros [= <- <- <-].
Qed.

(** Freezing is all or nothing: it is refused, and nothing changes, unless
    every named output is there, unspent and not yet frozen; then exactly those
    outputs become frozen, and any later attempt to spend one of them is refused
    as frozen, whatever flags it carries. *)
Theorem FreezeUTXOs_stops_spends `{Chainhash} (spends : list Spend) (db : DB) (t : nat) (r : result unit)
    (s' : txn) :
  FreezeUTXOs no_fault alone spends (mkTxn db db t) = (r, s') →
  match r with
  | Err _ => committed s' = db
  | Ok _ =>
      db_ids (committed s') = db_ids db ∧ db_txs (committed s') = db_txs db ∧
      (∀ k, (∀ sp, sp ∈ spends → db_ids db !! sp_TxID sp = Some k.1 → sp_Vout sp ≠ k.2) →
         db_outputs (committed s') !! k = db_outputs db !! k) ∧
      ∀ item, sp_outpoint (bs_spend item) ∈ map sp_outpoint spends →
        expected (committed s') item = Some (item_err ERR_UTXO_FROZEN)
  end.
Proof.
  unfold FreezeUTXOs, freeze_each, mbind, SM_bind.
  destruct (traverse_read_only (check_freeze no_fault alone) free_check spends (mkTxn db db t))
    as (r1 & n & E & Hr); [apply check_freeze_read|done|]. rewrite E. cbn [committed] in *.
  destruct r1 as [ids|e]; [|by intros [= <- <-]]. specialize (Hr _ eq_refl).
  assert (Hids : Forall2 (λ sp id, db_ids db !! sp_TxID sp = Some id) spends ids).
  { eapply Forall2_impl; [exact Hr|]. intros sp id Hc.
    apply free_check_Ok in Hc as (u & o & Hs & _). by apply select_output_id in Hs as [? _]. }
  destruct (freeze_writes is_unspent true spends ids (mkTxn db db n) eq_refl Hids)
    as (n' & keys & E' & Hk). intros Hres.
  pose proof (eq_trans (eq_sym Hres) E') as [= -> ->]. cbn [committed] in *. clear E E' Hres.
  pose proof (λ k, update_outputs_frozen keys true is_unspent db k (λ _ _ H, H)) as Hu.
  destruct (Hu (0, 0)) as (Ei & Et & _). split_and!; [done..| |].
  - intros k Hno. destruct (Hu k) as (_ & _ & ->). rewrite bool_decide_false; [by destruct (_ !! k)|].
    intros (sp & Hin & Hid & Hv)%Hk. by apply (Hno sp).
  - intros item (sp & Eo & Hin)%list_elem_of_fmap.
    destruct (Forall2_elem_l _ _ _ _ Hr Hin) as [id Hc].
    apply free_check_Ok in Hc as (u & o & Hs & Hd & _).
    apply select_output_id in Hs as (Hid & Hrow & Hout). injection Eo as E1 E2.
    unfold expected, select_output. rewrite Ei, Et, E1, Hid, Hrow, E2.
    destruct (Hu (id, sp_Vout sp)) as (_ & _ & ->). rewrite Hout. simpl.
    rewrite bool_decide_true by (apply Hk; eauto). unfold is_unspent.
    rewrite bool_decide_true by done. done.
Qed.

(** ** Conflict intents *)
(** The intent id does not depend on the order in which the transactions are
    given, so a repeated operation finds its own record. *)
Theorem IntentID_order_independent `{Chainhash} (ci : ConflictIntent) (hashes : list Hash) (startedAt : Z) :
  hashes ≡ₚ ci_TxHashes ci →
  IntentID (mkIntent (ci_Kind ci) (ci_BlockHeight ci) (ci_BlockHash ci) hashes startedAt) = IntentID ci.
Proof.
  intros Hp. unfold IntentID. cbn [ci_Kind ci_BlockHeight ci_BlockHash ci_TxHashes].
  enough (merge_sort hash_le hashes = merge_sort hash_le (ci_TxHashes ci)) as -> by done.
  apply (Sorted_unique hash_le).
  - apply (Sorted_merge_sort hash_le).
  - apply (Sorted_merge_sort hash_le).
  - by rewrite !merge_sort_Permutation.
Qed.

Lemma decode_hashes_encode fuel l : (32 * length l ≤ fuel)%nat →
  decode_hashes fuel (encodeIntentHashes l) = l.
Proof.
  revert fuel; induction l as [|h l IH]; intros fuel Hf; [by destruct fuel|].
  unfold encodeIntentHashes in *. simpl map. change (mjoin (?a :: ?b)) with (a ++ mjoin b).
  simpl in Hf. destruct fuel as [|fuel]; [lia|]. simpl.
  destruct (hash_bytes h ++ mjoin (map hash_bytes l)) as [|x k] eqn:E.
  { apply (f_equal length) in E. rewrite length_app, length_hash_bytes in E. simpl in E. lia. }
  rewrite <- E. rewrite take_app_length', drop_app_length' by (by rewrite length_hash_bytes).
  rewrite IH by lia. f_equal. change (hash_of_Z (hash_to_Z h) = h). apply hash_of_to_Z.
Qed.

Lemma length_encodeIntentHashes l : length (encodeIntentHashes l) = (32 * length l)%nat.
Proof.
  induction l as [|h l IH]; [done|]. unfold encodeIntentHashes in *. simpl map.
  change (mjoin (?a :: ?b)) with (a ++ mjoin b). rewrite length_app, IH, length_hash_bytes. simpl. lia.
Qed.

Lemma decode_intent_row `{ChainhashSpec} ci : is_u32 (ci_BlockHeight ci) →
  decode_intent (intent_row_of ci) = Ok ci.
Proof.
  intros Hh. unfold decode_intent. simpl. rewrite NewHash_hash_bytes. simpl.
  unfold decodeIntentHashes. rewrite length_encodeIntentHashes.
  rewrite bool_decide_true by (rewrite Nat.mul_comm; apply Nat.Div0.mod_mul).
  rewrite decode_hashes_encode by lia. simpl. rewrite u32_small by done. by destruct ci.
Qed.

(** An intent that was begun on a store with no pending ones is pending, read
    back as it was written; completing it leaves none. *)
Theorem conflict_intent_roundtrip `{ChainhashSpec} (ci : ConflictIntent) (db : DB) (t : nat) :
  is_u32 (ci_BlockHeight ci) → db_intents db = ∅ →
  ∃ s1 s2 s3, BeginConflictIntent no_fault alone ci (mkTxn db db t) = (Ok tt, s1) ∧
    PendingConflictIntents no_fault alone s1 = (Ok [ci], s2) ∧
    CompleteConflictIntent no_fault alone (IntentID ci) s2 = (Ok tt, s3) ∧
    committed s3 = db.
Proof.
  intros Hh He. unfold BeginConflictIntent, PendingConflictIntents, CompleteConflictIntent.
  rewrite auto_alone. cbn [write committed]. set (db1 := set_intents _ db).
  assert (Hdb1 : db_intents db1 = {[IntentID ci := intent_row_of ci]})
    by (unfold db1, set_intents; simpl; by rewrite He, lookup_empty).
  do 3 eexists. split; [done|]. unfold mbind, SM_bind. rewrite auto_alone.
  cbn [read committed ticks]. rewrite Hdb1, map_to_list_singleton. cbn [map snd foldr].
  unfold of_result. rewrite decode_intent_row by done. split; [done|].
  rewrite auto_alone. cbn [write committed ticks]. split; [done|].
  change (set_intents (delete (IntentID ci)) db1)
    with (mkDB (db_ids db) (db_txs db) (db_outputs db) (delete (IntentID ci) (db_intents db1))).
  rewrite Hdb1, delete_singleton_eq, <- He. by destruct db.
Qed.

(** ** Creation *)
Section Create.
  Context `{CH : Chainhash} {BT : BtTx} {ST : Subtree}.
  Context (env : StoreEnv) (params : ChainParams) (fault : nat → option DbFault).
  Context (db0 : DB) (txHash : Hash) (options : CreateOptions) (csh id : Z).

(** The new transaction is there with its flags; nothing of the outputs that were
    there is gone. *)
Definition created (db : DB) : Prop :=
  db_outputs db0 ⊆ db_outputs db ∧ db_ids db !! txHash = Some id ∧
  ∃ t, db_txs db !! id = Some t ∧ t_frozen t = co_Frozen options ∧
    t_conflicting t = co_Conflicting options ∧ t_locked t = co_Locked options.

Definition new_output (i : Z) (o : TxOutput) (db : DB) : Prop :=
  ∃ hash, UTXOHashFromOutput txHash (Some o) i = Ok hash ∧
    db_outputs db !! (id, i) = Some (mkOutputRow (hash_bytes hash) csh None false None).

(** The live outputs among [outputs], numbered from [i], are stored. *)
Definition stored (i : Z) (outputs : list (option TxOutput)) (db : DB) : Prop :=
  ∀ n o, outputs !! n = Some (Some o) → new_output (i + Z.of_nat n) o db.

Lemma created_put db i t u : created db → db_txs db !! i = Some t → t_frozen u = t_frozen t →
  t_conflicting u = t_conflicting t → t_locked u = t_locked t → created (put_tx i u db).
Proof.
  intros (Hsub & Hid & t0 & Ht0 & H1 & H2 & H3) Ht E1 E2 E3. split_and!; [done..|]. simpl.
  destruct (decide (i = id)) as [->|Hne].
  - exists u. rewrite lookup_insert_eq. rewrite Ht in Ht0. injection Ht0 as ->.
    split_and!; congruence.
  - exists t0. by rewrite lookup_insert_ne.
Qed.

Lemma stored_same i outputs db db' : db_outputs db ⊆ db_outputs db' →
  stored i outputs db → stored i outputs db'.
Proof.
  intros Hsub Hs n o Hn. destruct (Hs n o Hn) as (h & Hh & Ho). exists h. split; [done|].
  by eapply lookup_weaken.
Qed.

(** Everything the later inserts keep. *)
Definition after_outputs (outputs : list (option TxOutput)) (db : DB) : Prop :=
  created db ∧ stored 0 outputs db.

Lemma after_outputs_put outputs db i t u : after_outputs outputs db → db_txs db !! i = Some t →
  t_frozen u = t_frozen t → t_conflicting u = t_conflicting t → t_locked u = t_locked t →
  after_outputs outputs (put_tx i u db).
Proof.
  intros [Hc Hs] Ht E1 E2 E3. split; [by eapply created_put|]. by eapply stored_same; [|exact Hs].
Qed.

Lemma keeps_after_blocks outputs infos :
  keeps (after_outputs outputs) (each (λ info, insert fault (insert_block_row id info)) infos).
Proof.
  apply keeps_each. intros info. apply keeps_insert. intros db Hd. unfold insert_block_row.
  destruct (db_txs db !! id) as [t|] eqn:Ht; [|done]. case_bool_decide as E; [done|]. simpl.
  unfold insert_block. rewrite bool_decide_false by done. by apply (after_outputs_put _ _ _ t).
Qed.

Lemma keeps_after_parents outputs parents :
  keeps (after_outputs outputs) (updateParentConflictingChildren fault id parents).
Proof.
  apply keeps_each. intros p. apply keeps_bind; [apply keeps_query|].
  - intros db Hd. unfold insert_child. destruct (db_ids db !! p) as [i|]; [|done].
    destruct (db_txs db !! i) as [t|] eqn:Ht; [|done]. simpl. case_bool_decide; [done|].
    by apply (after_outputs_put _ _ _ t).
  - intros []; [apply keeps_ret|apply keeps_fail].
Qed.

Lemma insert_output_sub k o db : db_outputs db ⊆ db_outputs (insert_output k o db).2.
Proof.
  unfold insert_output. case_bool_decide as E; [done|]. simpl. apply insert_subseteq.
  by apply eq_None_not_Some.
Qed.

(** Inserting the outputs stores them all, and keeps what was stored before. *)
Lemma createOutputs_stores (before : list (option TxOutput)) outputs s r s' :
  after_outputs before (view s) →
  createOutputsPerRow fault id txHash csh (Z.of_nat (length before)) outputs s = (r, s') →
  committed s' = committed s ∧
  match r with Ok _ => after_outputs (before ++ outputs) (view s') | Err _ => True end.
Proof.
  revert before s. induction outputs as [|[o|] outputs IH]; intros before s Hs; cbn [createOutputsPerRow].
  - intros [= <- <-]. by rewrite app_nil_r.
  - unfold mbind, SM_bind, of_result.
    destruct (Z.of_nat (length before) <? 2^32); [|by intros [= <- <-]].
    destruct (UTXOHashFromOutput txHash (Some o) (Z.of_nat (length before))) as [hash|e] eqn:Eh;
      [|by intros [= <- <-]].
    unfold insert, query, mbind, SM_bind. destruct (stmt fault _ s) as [[x|f] s1] eqn:E1.
    2: { apply stmt_inr in E1 as [_ Ec]. by intros [= <- <-]. }
    apply stmt_inl in E1 as [E1 Ec].
    destruct x; [|by intros [= <- <-]..]. intros E.
    replace (Z.of_nat (length before) + 1) with (Z.of_nat (length (before ++ [Some o]))) in E
      by (rewrite length_app; simpl; lia).
    apply IH in E as [Ec' Hr]; [rewrite <- app_assoc in Hr; split; [congruence|done]|].
    pose proof (insert_output_sub (id, Z.of_nat (length before))
      (mkOutputRow (hash_bytes hash) csh None false None) (view s)) as Hsub. rewrite E1 in Hsub.
    unfold insert_output in E1. case_bool_decide; [done|]. injection E1 as E1.
    destruct Hs as [(Hs1 & Hs2 & Hs3) Hst]. split.
    + split_and!; [by etransitivity|by rewrite <- E1|by rewrite <- E1].
    + intros n o' Hn. apply lookup_app_Some in Hn as [Hn|[Hl Hn]].
      * by apply (stored_same _ _ _ _ Hsub Hst).
      * destruct (n - length before)%nat as [|m] eqn:Em; simpl in Hn; [|by destruct m].
        injection Hn as <-. exists hash. replace (0 + Z.of_nat n) with (Z.of_nat (length before)) by lia.
        split; [done|]. rewrite <- E1. apply lookup_insert_eq.
  - replace (Z.of_nat (length before) + 1) with (Z.of_nat (length (before ++ [@None TxOutput])))
      by (rewrite length_app; simpl; lia).
    intros E. apply IH in E as [Ec' Hr]; [by rewrite <- app_assoc in Hr|].
    destruct Hs as [Hc Hst]. split; [done|]. intros n o Hn.
    apply lookup_app_Some in Hn as [Hn|[Hl Hn]]; [by apply Hst|].
    destruct (n - length before)%nat as [|[|m]]; by simpl in Hn.
Qed.
End Create.

Section CreateTheorem.
  Context `{CH : Chainhash} {BT : BtTx} {ST : Subtree}.

(** The block height from which a new output may be spent. *)
Definition spendable_from (params : ChainParams) (tx : Tx) (blockHeight : Z) (options : CreateOptions) : Z :=
  if default (IsCoinbase tx) (co_IsCoinbase options)
  then u32 (blockHeight + u32 (CoinbaseMaturity params)) else 0.

Lemma keeps_created_rows env params fault db0 txHash tx h options id now s r s' :
  view s = db0 → create_rows env params fault txHash tx h options id now s = (r, s') →
  committed s' = committed s ∧
  match r with
  | Ok _ => after_outputs db0 txHash options (spendable_from params tx h options) id (Outputs tx) (view s')
  | Err _ => True
  end.
Proof.
  intros Hv. unfold create_rows. cbv zeta. fold (spendable_from params tx h options).
  set (csh := spendable_from params tx h options).
  set (fin := after_outputs db0 txHash options csh id (Outputs tx)).
  intros E.
  unfold mbind at 1, SM_bind at 1 in E. destruct (insert fault _ s) as [[u|e] s1] eqn:E1; cycle 1.
  { injection E as <- <-. unfold insert, query, mbind, SM_bind in E1.
    destruct (stmt fault _ s) as [[x|f] s2] eqn:E2;
      [apply stmt_inl in E2 as [_ Ec]; destruct x|apply stmt_inr in E2 as [_ Ec]];
      by injection E1 as _ <-. }
  unfold insert, query, mbind, SM_bind in E1.
  destruct (stmt fault _ s) as [[x|f] s2] eqn:E2; [|done]. apply stmt_inl in E2 as [E2 Ec].
  destruct x; [|done..]. injection E1 as _ <-.
  assert (H0 : after_outputs db0 txHash options csh id [] (view s2)).
  { unfold insert_tx in E2. destruct (bool_decide _ || _); [done|]. injection E2 as <-.
    split; [|intros n o Hn; by rewrite lookup_nil in Hn]. subst db0. split_and!; [done|apply lookup_insert_eq|].
    eexists. split; [apply lookup_insert_eq|done]. }
  assert (Hk : ∀ s r s', after_outputs db0 txHash options csh id [] (view s) →
    (_ ← each (insert_input fault) (Inputs tx);
     _ ← createOutputsPerRow fault id txHash csh 0 (Outputs tx);
     _ ← each (λ info, insert fault (insert_block_row id info)) (co_MinedBlockInfos options);
     if co_Conflicting options then updateParentConflictingChildren fault id (parentHashesOf tx)
     else mret tt) s = (r, s') →
    committed s' = committed s ∧ match r with Ok _ => fin (view s') | Err _ => True end).
  { clear E E2 H0. intros s0 r0 s0' Hs0 E.
    assert (Hin : keeps (after_outputs db0 txHash options csh id []) (each (insert_input fault) (Inputs tx)))
      by (apply keeps_each; intros i; by apply keeps_insert).
    unfold mbind at 1, SM_bind at 1 in E. destruct (each (insert_input fault) _ s0) as [[w|e] s3] eqn:E3;
      destruct (Hin _ _ _ Hs0 E3) as [Hc3 Hv3]; [|by injection E as <- <-].
    unfold mbind at 1, SM_bind at 1 in E.
    destruct (createOutputsPerRow _ _ _ _ _ _ s3) as [x s4] eqn:E4.
    pose proof (createOutputs_stores fault db0 txHash options csh id [] (Outputs tx) s3 x s4 Hv3 E4)
      as [Hc4 Hv4].
    destruct x as [w'|e]; [|injection E as <- <-; split; [congruence|done]].
    rewrite <- Hc3, <- Hc4. revert E. apply (keeps_bind fin); [apply keeps_after_blocks| |done].
    intros _. apply keeps_if; [apply keeps_after_parents|apply keeps_ret]. }
  destruct (Hk s2 r s' H0 E) as [Hc Hr]. split; [congruence|done].
Qed.

(** A transaction that was created is there, no output that was there before
    is touched, and each of its live outputs can be spent by whoever names its
    hash, except while the transaction is frozen, conflicting or locked, or,
    for a coinbase, before it is mature. *)
Theorem createWithRetry_outputs_spendable (env : StoreEnv) (params : ChainParams)
    (fault : nat → option DbFault) (serial clock : nat → Z) (tx : Tx) (blockHeight : Z)
    (options : CreateOptions) (db : DB) (t : nat) (s' : txn) (n : nat) (o : TxOutput) (hash : Hash)
    (item : batchSpend) :
  createWithRetry env params fault alone serial clock tx blockHeight options (mkTxn db db t) = (Ok tt, s') →
  Outputs tx !! n = Some (Some o) →
  let txHash := default (TxIDChainHash tx) (co_TxID options) in
  UTXOHashFromOutput txHash (Some o) (Z.of_nat n) = Ok hash →
  sp_outpoint (bs_spend item) = (txHash, Z.of_nat n) → sp_UTXOHash (bs_spend item) = hash →
  db_outputs db ⊆ db_outputs (committed s') ∧
  expected (committed s') item =
    if co_Frozen options then Some (item_err ERR_UTXO_FROZEN)
    else if co_Conflicting options && negb (bs_ignoreConflicting item)
    then Some (item_err ERR_TX_CONFLICTING)
    else if co_Locked options && negb (bs_ignoreLocked item) then Some (item_err ERR_TX_LOCKED)
    else let from := spendable_from params tx blockHeight options in
         if (from >? 0) && (from >? bs_blockHeight item)
         then Some (item_err ERR_TX_COINBASE_IMMATURE) else None.
Proof.
  intros E Ho txHash Hh Hp Hi. unfold createWithRetry, mbind, SM_bind, of_result in E.
  destruct (if co_SkipExtendedInputs options then _ else _) as [fee|e]; [|done].
  unfold transaction, mbind, SM_bind, arrive, alone in E. cbn [ticks committed] in E.
  destruct (query fault driver_error _ _) as [[u|e] s1] eqn:E1; [|done].
  unfold query in E1. destruct (stmt fault _ _) as [[v|f] s2] eqn:E2; [|done]. injection E1 as _ <-.
  apply stmt_inl in E2 as [[= _ Ev] Ec]. simpl in Ev.
  destruct (create_rows _ _ _ _ _ _ _ _ _ s2) as [[w|e] s3] eqn:E3; [|done].
  apply (keeps_created_rows _ _ _ db) in E3 as [_ Hs3]; [|done].
  unfold query in E. destruct (stmt fault _ s3) as [[x|f] s4] eqn:E4; [|done].
  apply stmt_inl in E4 as [[= _ Ev4] _]. injection E as _ <-. simpl. rewrite <- Ev4.
  destruct Hs3 as [(Hsub & Hid & row & Hrow & E5 & E6 & E7) Hst]. split; [done|].
  destruct (Hst n o Ho) as (hash' & Hh' & Hout). rewrite Z.add_0_l in Hh', Hout. fold txHash in Hh', Hid.
  assert (hash' = hash) as -> by congruence.
  unfold expected, select_output. unfold sp_outpoint in Hp. injection Hp as -> ->.
  rewrite Hid, Hrow, Hout. unfold check_spend. simpl. rewrite E5, E6, E7, Hi.
  rewrite (bool_decide_true (hash_bytes hash = _)) by done. rewrite andb_false_r.
  by destruct (co_Frozen options), (co_Conflicting options), (bs_ignoreConflicting item),
    (co_Locked options), (bs_ignoreLocked item).
Qed.
End CreateTheorem.

(** ** The children a conflicting mark reports *)
Section Children.
  Context `{CH : Chainhash} {BT : BtTx} {ST : Subtree}.
  Context (env : StoreEnv) (fault : nat → option DbFault) (db : DB) (hash : Hash) (id : Z) (row : tx_row).
  Context (Hid : db_ids db !! hash = Some id) (Hrow : db_txs db !! id = Some row).
  Context (Hflag : t_conflicting row = true ∨ t_locked row = true).

Lemma safe_same_read {A} e (f : DB → A) : safe (.= db) (auto fault alone e (read f)).
Proof. apply safe_auto; [by intros n d ->|by intros d ->]. Qed.

Lemma spend_response_flagged h vout o resp : spend_response env h vout row o = Ok resp →
  sr_Status resp ≠ Status_SPENT.
Proof.
  unfold spend_response. destruct (negb (match h with Some _ => _ | None => _ end)); [|done].
  intros (sd & _ & [= <-])%bindR_Ok. cbn [sr_Status].
  destruct (o_spendableIn o) as [n|]; [destruct (env_height env <? n); [done|]|];
    destruct Hflag as [-> | ->]; by destruct (t_locked row).
Qed.

Lemma GetSpend_flagged vout h s resp s' : committed s = db →
  GetSpend env fault alone hash vout h s = (Ok resp, s') →
  committed s' = db ∧ sr_Status resp ≠ Status_SPENT.
Proof.
  intros Hs. unfold GetSpend, mbind, SM_bind, auto, query, arrive, alone, stmt.
  cbn [ticks]. destruct (fault (ticks s)) as [f|]; [done|].
  cbn [read view committed ticks]. unfold select_output. rewrite Hs, Hid, Hrow. cbn [finish commit view].
  destruct (db_outputs db !! (id, vout)) as [o|]; [|by intros [= <- <-]].
  intros [= E <-]. split; [done|]. by eapply spend_response_flagged.
Qed.

Lemma spending_children_flagged vOut outputs s l s' : committed s = db →
  spending_children env fault alone hash vOut outputs s = (Ok l, s') → l = [].
Proof.
  revert vOut s l s'. induction outputs as [|[o|] outputs IH]; intros vOut s l s' Hs; cbn [spending_children].
  - by intros [= <- <-].
  - unfold mbind, SM_bind, of_result. destruct (vOut <? 2^32); [|done].
    destruct (UTXOHashFromOutput hash (Some o) vOut) as [h|e]; [|done].
    destruct (GetSpend env fault alone hash vOut (Some h) s) as [[resp|e] s1] eqn:E; [|done].
    apply GetSpend_flagged in E as [Hs1 Hne]; [|done].
    destruct (spending_children _ _ _ _ _ outputs s1) as [[rest|e] s2] eqn:E2; [|done].
    apply IH in E2 as ->; [|done]. rewrite bool_decide_false by done. by intros [= <- <-].
  - by eapply IH.
Qed.

Lemma read_conflicting_flagged s r s' : committed s = db →
  read_conflicting env fault alone hash s = (Ok r, s') → r.2 = [].
Proof.
  intros Hs. unfold read_conflicting, mbind, SM_bind, of_result.
  destruct (Get fault alone hash [F_Tx] s) as [[m|e] s1] eqn:E; [|done].
  assert (committed s1 = db) as Hs1.
  { revert E. apply (safe_bind (.= db)); [apply safe_same_read| |done]. intros [[i t]|]; [|apply safe_fail].
    cbv zeta. repeat first [apply safe_bind; [|intro] | apply safe_if | apply safe_ret | apply safe_of_result
                           | apply safe_same_read]. }
  destruct (d_Tx m) as [tx|]; [|done]. destruct (parent_spends hash 0 (Inputs tx)); [|done].
  destruct (spending_children _ _ _ _ _ _ s1) as [[l|e] s2] eqn:E2; [|done].
  apply spending_children_flagged in E2 as ->; [|done]. by intros [= <- <-].
Qed.

(** Marking or unmarking a transaction that is already conflicting or locked
    reports no spending children, even though its outputs have recorded spenders:
    they are read with [GetSpend], whose status is then not SPENT.  A cascade over
    this store therefore stops there, and clearing a flag never cascades. *)
Theorem SetConflicting_hides_children value t spends children s' :
  SetConflicting env fault alone [hash] value (mkTxn db db t) = (Ok (spends, children), s') →
  children = [].
Proof.
  unfold SetConflicting. cbn [traverse]. unfold mbind, SM_bind.
  destruct (read_conflicting env fault alone hash _) as [[r|e] s1] eqn:E; [|done].
  apply read_conflicting_flagged in E; [|done].
  unfold mret, SM_ret. cbn [map zip]. destruct (transaction _ _ _ _ _ s1) as [[u|e] s2]; [|done]. intros [= _ <- _].
  by rewrite E.
Qed.
End Children.

(** ** The example of [UtxoSqlReach] *)
Definition quiet_env : StoreEnv := mkEnv 500 10.

Lemma SetLocked_paths_agree_witness :
  let db' := update_rows [hash_of_Z 1] (unlocked_row quiet_env) reach_db in
  (∃ n, SetLocked quiet_env no_fault alone never true [hash_of_Z 1] false
          (mkTxn reach_db reach_db 0) = (Ok tt, mkTxn db' db' n)) ∧
  (∃ n, SetLocked quiet_env no_fault alone never false [hash_of_Z 1] false
          (mkTxn reach_db reach_db 0) = (Ok tt, mkTxn db' db' n)).
Proof.
  apply (SetLocked_paths_agree quiet_env [hash_of_Z 1] reach_db 0).
  - exact reach_db_consistent.
  - apply NoDup_singleton.
  - repeat constructor. assert (match db_ids reach_db !! hash_of_Z 1 with Some _ => true | None => false end = true) as H
      by (vm_compute; reflexivity).
    destruct (db_ids reach_db !! hash_of_Z 1); [by eexists|done].
Defined.

Definition freeze_spends : list Spend := [mkSpend (hash_of_Z 1) 0 zero_hash None].

Definition frozen_run : result unit * txn :=
  FreezeUTXOs (CH := model_Chainhash) no_fault alone freeze_spends (mkTxn reach_db reach_db 0).

Lemma FreezeUTXOs_stops_spends_witness :
  (match frozen_run.1 with Ok _ => true | Err _ => false end = true) ∧
  match frozen_run.1 with
  | Err _ => True
  | Ok _ => expected (CH := model_Chainhash) (committed frozen_run.2)
              (mkBatchSpend (mkSpend (hash_of_Z 1) 0 (hash_of_Z 9) None) 600 true true false)
            = Some (item_err ERR_UTXO_FROZEN)
  end.
Proof.
  split; [vm_compute; reflexivity|].
  pose proof (FreezeUTXOs_stops_spends (H := model_Chainhash) freeze_spends reach_db 0 frozen_run.1
    frozen_run.2 (surjective_pairing _)) as H.
  destruct frozen_run.1; [|exact I].
  apply (proj2 (proj2 (proj2 H))). apply list_elem_of_singleton. reflexivity.
Defined.

Definition ex_intent : ConflictIntent :=
  mkIntent [Byte.x66] 500 (hash_of_Z 5) [hash_of_Z 1; hash_of_Z 2] 7.

Lemma IntentID_order_independent_witness :
  @IntentID model_Chainhash (mkIntent [Byte.x66] 500 (hash_of_Z 5) [hash_of_Z 2; hash_of_Z 1] 8)
  = @IntentID model_Chainhash ex_intent.
Proof.
  apply (IntentID_order_independent (H := model_Chainhash) ex_intent [hash_of_Z 2; hash_of_Z 1] 8).
  apply perm_swap.
Defined.

Lemma conflict_intent_roundtrip_witness :
  ∃ s1 s2 s3,
    BeginConflictIntent (CH := model_Chainhash) no_fault alone ex_intent (mkTxn empty_db empty_db 0) = (Ok tt, s1) ∧
    PendingConflictIntents (CH := model_Chainhash) no_fault alone s1 = (Ok [ex_intent], s2) ∧
    CompleteConflictIntent no_fault alone (@IntentID model_Chainhash ex_intent) s2 = (Ok tt, s3) ∧
    committed s3 = empty_db.
Proof.
  apply (conflict_intent_roundtrip (H := model_Chainhash_spec) ex_intent empty_db 0).
  - split; cbn; lia.
  - reflexivity.
Defined.

Definition create_run : result unit * txn :=
  createWithRetry (CH := model_Chainhash) (BT := model_BtTx) quiet_env ex_params no_fault alone
    (λ n, 50 + Z.of_nat n) Z.of_nat reach_tx 500 plain_options (mkTxn reach_db1 reach_db1 0).

Lemma createWithRetry_outputs_spendable_witness :
  match UTXOHashFromOutput (CH := model_Chainhash) (BT := model_BtTx) (hash_of_Z 1) (Some (mkOutput 650 (Some [Byte.xac]))) 0 with
  | Ok hash =>
      expected (CH := model_Chainhash) (committed create_run.2)
        (mkBatchSpend (mkSpend (hash_of_Z 1) 0 hash None) 501 false false false) = None
  | Err _ => False
  end.
Proof.
  destruct (UTXOHashFromOutput _ _ _) as [hash|e] eqn:E; [|vm_compute in E; discriminate].
  apply (createWithRetry_outputs_spendable (CH := model_Chainhash) (BT := model_BtTx) quiet_env ex_params
    no_fault (λ n, 50 + Z.of_nat n) Z.of_nat reach_tx 500 plain_options reach_db1 0 create_run.2 0
    (mkOutput 650 (Some [Byte.xac])) hash).
  - assert (create_run.1 = Ok tt) as H by (vm_compute; reflexivity).
    rewrite <- H. apply (surjective_pairing create_run).
  - reflexivity.
  - exact E.
  - reflexivity.
  - reflexivity.
Defined.

(** The conflicting transaction of the example. *)
Definition hidden_run : result (list Spend * list Hash) * txn :=
  SetConflicting (CH := model_Chainhash) (BT := model_BtTx) (ST := model_Subtree) quiet_env no_fault alone
    [hash_of_Z 1] false (mkTxn reach_db reach_db 0).

Lemma SetConflicting_hides_children_witness :
  (match hidden_run.1 with Ok _ => true | Err _ => false end = true) ∧
  match hidden_run.1 with Ok (_, children) => children = [] | Err _ => True end.
Proof.
  split; [vm_compute; reflexivity|].
  assert (Hid : db_ids reach_db !! hash_of_Z 1 = Some reach_id).
  { assert (match db_ids reach_db !! hash_of_Z 1 with Some _ => true | None => false end = true) as H
      by (vm_compute; reflexivity).
    unfold reach_id. destruct (db_ids reach_db !! hash_of_Z 1); [reflexivity|discriminate H]. }
  assert (Hc : t_conflicting reach_row = true) by (vm_compute; reflexivity).
  destruct hidden_run as [[[spends children]|e] s'] eqn:E; [|exact I].
  unfold hidden_run in E.
  exact (SetConflicting_hides_children (CH := model_Chainhash) (BT := model_BtTx) (ST := model_Subtree)
    quiet_env no_fault reach_db (hash_of_Z 1) reach_id reach_row
    Hid reach_row_lookup (or_introl Hc) false 0 spends children s' E).
Defined.
