(* ===== verification/SpendCreate.v ===== *)
(** * Spending and creating in one call

    stores/utxo/spend_and_create.go: [SequentialSpendAndCreate], the spend, the
    creation and the rollback every store delegates to; stores/utxo/
    spend_and_create_multi.go: a list of transactions written level by level, or,
    below a checkpoint, in a wave of creations and a wave of spends.  The store is
    the interface [SequentialStore], or [MultiStore] for a list. *)

From stdpp Require Import list.
From S2P Require Import Prelude External Utxo UtxoSql UtxoSqlOps.

(** ** Options

    [CreateOptions] of stores/utxo/Interface.go; what [Create] alone reads is in
    [so_create]. *)
Record StoreOptions := mkStoreOptions {
  so_create : CreateOptions;
  so_IgnoreFlags : SpendFlags;
  so_CreateOnly : bool;
  so_SpendOnly : bool;
  so_BelowCheckpoint : bool;
  so_TxIDs : option (list Hash);
  so_SubtreeIdxs : option (list Z);
}.

Definition ParseCreateOptions (options : StoreOptions) : result StoreOptions :=
  guard? negb (so_CreateOnly options && so_SpendOnly options) else err ERR_INVALID_ARGUMENT in
  Ok options.

(** An error of [Create]: whether a context's own error is in its chain, and
    whether a link of it carries the data of [MarkCreateOutcomeUnknown]. *)
Record CreateError := mkCreateError {
  ce_error : error;
  ce_context : bool;
  ce_marked : bool;
}.

(** errors/error_utils.go *)
Definition IsContextError (e : CreateError) : bool :=
  bool_decide (err_code (ce_error e) = ERR_CONTEXT_CANCELED) ||
  bool_decide (err_code (ce_error e) = ERR_CONTEXT) || ce_context e.

Definition MarkCreateOutcomeUnknown (e : CreateError) : CreateError :=
  mkCreateError (ce_error e) (ce_context e) true.

Definition IsCreateOutcomeUnknown (e : CreateError) : bool := IsContextError e || ce_marked e.

(** ** One transaction *)

(** The spends of a call, each with its error; [None] is a nil slice. *)
Definition Spends : Type := option (list (Spend * option error)).

Class SequentialStore (S : Type) := {
  sq_Create : Tx → Z → CreateOptions → S → (Data + CreateError) * S;
  sq_Spend : Tx → Z → SpendFlags → S → Spends * option error * S;
  sq_Unspend : list Spend → SM S unit;
}.

Section Sequential.
  Context {S : Type} {SS : SequentialStore S}.
  Variable rollback_done : nat → bool.  (* the rollback's bound ends in that backoff *)

(** [unspendWithRetry] *)
Definition unspendAttempts : nat := 3.

Fixpoint unspend_attempts (attempts retries : nat) (spends : list Spend) (s : S) : result unit * S :=
  match attempts with
  | O => (Ok tt, s)
  | Datatypes.S attempts =>
      match sq_Unspend spends s with
      | (Ok _, s) => (Ok tt, s)
      | (Err e, s) =>
          if bool_decide (attempts = 0%nat) then (Err (err_wrap ERR_PROCESSING e), s)
          else if rollback_done retries then (Err (err_wrap ERR_PROCESSING e), s)
          else unspend_attempts attempts (Datatypes.S retries) spends s
      end
  end.

Definition unspendWithRetry (spends : list Spend) (s : S) : result unit * S :=
  unspend_attempts unspendAttempts 0 spends s.

Definition spends_list (spends : Spends) : list Spend := map fst (default [] spends).

(** What follows the spend. *)
Definition create_or_undo (tx : Tx) (blockHeight : Z) (options : StoreOptions) (spends : Spends)
    (s : S) : option Data * Spends * option error * S :=
  match sq_Create tx blockHeight (so_create options) s with
  | (inl md, s) => (Some md, spends, None, s)
  | (inr e, s) =>
      let ce := ce_error e in
      if error_Is ce ERR_TX_EXISTS then (None, spends, Some ce, s)
      else if IsCreateOutcomeUnknown e then (None, spends, Some ce, s)
      else if bool_decide (0 < length (spends_list spends))%nat then
        match unspendWithRetry (spends_list spends) s with
        | (Err _, s) => (None, spends, Some (err_wrap ERR_PROCESSING ce), s)
        | (Ok _, s) => (None, None, Some ce, s)
        end
      else (None, None, Some ce, s)
  end.

Definition SequentialSpendAndCreate (tx : Tx) (blockHeight : Z) (options : StoreOptions) (s : S)
  : option Data * Spends * option error * S :=
  match ParseCreateOptions options with
  | Err e => (None, None, Some e, s)
  | Ok options =>
      if so_CreateOnly options then create_or_undo tx blockHeight options None s
      else
        match sq_Spend tx blockHeight (so_IgnoreFlags options) s with
        | (spends, Some e, s) => (None, spends, Some e, s)
        | (spends, None, s) =>
            if so_SpendOnly options then (None, spends, None, s)
            else create_or_undo tx blockHeight options spends s
        end
  end.
End Sequential.

(** ** A list of transactions *)
Inductive MultiTxStatus :=
  | MultiTxNotAttempted | MultiTxCreated | MultiTxExisted | MultiTxFailed | MultiTxParentFailed.

#[export] Instance MultiTxStatus_eq_dec : EqDecision MultiTxStatus.
Proof. solve_decision. Defined.

Record MultiResult := mkMultiResult {
  mr_Status : MultiTxStatus;
  mr_Meta : option Data;
  mr_Spends : Spends;
  mr_Err : option error;
}.

Definition not_attempted : MultiResult := mkMultiResult MultiTxNotAttempted None None None.
Definition parent_failed : MultiResult :=
  mkMultiResult MultiTxParentFailed None None (Some (err ERR_PROCESSING)).

(** The refusal of a list; the refused mark of the error is not read here. *)
Definition refused : error := err ERR_INVALID_ARGUMENT.

Section CheckList.
  Context {BT : BtTx}.

(** The first pass: positions by id. *)
Fixpoint positions (i : nat) (txs : list (option Tx)) (txids : list Hash) (position : gmap Hash nat)
  : result (gmap Hash nat) :=
  match txs, txids with
  | [], _ => Ok position
  | None :: _, _ => Err refused
  | Some tx :: txs, txid :: txids =>
      if IsCoinbase tx then Err refused else
      if bool_decide (is_Some (position !! txid)) then Err refused else
      positions (S i) txs txids (<[txid := i]> position)
  | Some _ :: _, [] => Err panic
  end.

(** One input of transaction [i]: the outpoints spent so far and the parents
    recorded so far, in order and once each (what [lastChild] is for). *)
Definition check_input (txs : list (option Tx)) (position : gmap Hash nat) (i : nat)
    (acc : gset outpoint * list nat) (input : TxInput) : result (gset outpoint * list nat) :=
  let '(spent, parents) := acc in
  let op := (PreviousTxID input, PreviousTxOutIndex input) in
  if bool_decide (op ∈ spent) then Err refused else
  let spent := {[op]} ∪ spent in
  match position !! PreviousTxID input with
  | None => Ok (spent, parents)
  | Some p =>
      if bool_decide (i ≤ p)%nat then Err refused else
      match txs !! p with
      | Some (Some parent) =>
          if PreviousTxOutIndex input >=? Z.of_nat (length (Outputs parent)) then Err refused
          else Ok (spent, if bool_decide (p ∈ parents) then parents else parents ++ [p])
      | _ => Err panic
      end
  end.

Fixpoint check_inputs_from (txs : list (option Tx)) (position : gmap Hash nat) (i : nat)
    (acc : gset outpoint * list nat) (inputs : list TxInput) : result (gset outpoint * list nat) :=
  match inputs with
  | [] => Ok acc
  | input :: inputs =>
      let? acc := check_input txs position i acc input in
      check_inputs_from txs position i acc inputs
  end.

Fixpoint parents_from (txs : list (option Tx)) (position : gmap Hash nat) (i : nat)
    (spent : gset outpoint) (todo : list (option Tx)) : result (list (list nat)) :=
  match todo with
  | [] => Ok []
  | None :: _ => Err panic
  | Some tx :: todo =>
      let? (spent, parents) := check_inputs_from txs position i (spent, []) (Inputs tx) in
      let? rest := parents_from txs position (S i) spent todo in
      Ok (parents :: rest)
  end.

Definition checkSpendAndCreateMultiList (txs : list (option Tx)) (txids : list Hash)
  : result (list (list nat)) :=
  let? position := positions 0 txs txids ∅ in
  parents_from txs position 0 ∅ txs.

Record MultiList := mkMultiList {
  ml_Options : StoreOptions;
  ml_TxIDs : list Hash;
  ml_ParentsInList : list (list nat);
}.

Fixpoint tx_ids (txs : list (option Tx)) : result (list Hash) :=
  match txs with
  | [] => Ok []
  | None :: _ => Err refused
  | Some tx :: txs => let? ids := tx_ids txs in Ok (TxIDChainHash tx :: ids)
  end.

Definition PrepareSpendAndCreateMulti (txs : list (option Tx)) (options : StoreOptions)
  : result MultiList :=
  let? options := match ParseCreateOptions options with Ok o => Ok o | Err e => Err (err_wrap ERR_INVALID_ARGUMENT e) end in
  guard? bool_decide (co_TxID (so_create options) = None) else refused in
  guard? bool_decide (co_IsCoinbase (so_create options) = None) else refused in
  guard? negb (so_CreateOnly options || so_SpendOnly options) else refused in
  guard? match so_TxIDs options with
         | Some ids => bool_decide (length ids = length txs)
         | None => true
         end else refused in
  guard? match so_SubtreeIdxs options with
         | Some idxs => negb (bool_decide (co_MinedBlockInfos (so_create options) = [])) &&
                        bool_decide (length idxs = length txs)
         | None => true
         end else refused in
  if bool_decide (txs = []) then Ok (mkMultiList options [] []) else
  let? txids := match so_TxIDs options with Some ids => Ok ids | None => tx_ids txs end in
  let? parentsInList := checkSpendAndCreateMultiList txs txids in
  Ok (mkMultiList options txids parentsInList).
End CheckList.

(** [listItems.option]: the options transaction [i] is written with. *)
Definition with_subtree_idx (idx : Z) (info : MinedBlockInfo) : MinedBlockInfo :=
  mkMinedBlockInfo (mb_BlockID info) (mb_BlockHeight info) idx (mb_OnLongestChain info)
    (mb_UnsetMined info).

Definition item_option (l : MultiList) (i : nat) : StoreOptions :=
  let base := ml_Options l in
  let c := so_create base in
  let infos :=
    match so_SubtreeIdxs base ≫= (.!! i) with
    | Some idx => map (with_subtree_idx idx) (co_MinedBlockInfos c)
    | None => co_MinedBlockInfos c
    end in
  mkStoreOptions
    (mkCreateOptions infos (ml_TxIDs l !! i) (co_IsCoinbase c) (co_Frozen c) (co_Conflicting c)
       (co_Locked c) (co_SkipExtendedInputs c))
    (so_IgnoreFlags base) (so_CreateOnly base) (so_SpendOnly base) false None None.

Definition create_only (o : StoreOptions) : StoreOptions :=
  mkStoreOptions (so_create o) (so_IgnoreFlags o) true (so_SpendOnly o) (so_BelowCheckpoint o)
    (so_TxIDs o) (so_SubtreeIdxs o).

Definition spend_only (o : StoreOptions) : StoreOptions :=
  let f := so_IgnoreFlags o in
  mkStoreOptions (so_create o)
    (mkFlags (IgnoreConflicting f) (IgnoreLocked f) (SkipUTXOHashCheck f) true)
    (so_CreateOnly o) true (so_BelowCheckpoint o) (so_TxIDs o) (so_SubtreeIdxs o).

(** ** Writing a list *)
Class MultiStore (S : Type) := {
  ms_SpendAndCreate : Tx → Z → StoreOptions → S → option Data * Spends * option error * S;
}.

Definition failedParent (results : list MultiResult) (parents : list nat) : bool :=
  existsb (λ p, match results !! p with
                | Some r => bool_decide (mr_Status r = MultiTxFailed) ||
                            bool_decide (mr_Status r = MultiTxParentFailed)
                | None => false
                end) parents.

Definition answer (md : option Data) (spends : Spends) (e : option error) : MultiResult :=
  match e with
  | None => mkMultiResult MultiTxCreated md spends None
  | Some e => if error_Is e ERR_TX_EXISTS then mkMultiResult MultiTxExisted None spends None
              else mkMultiResult MultiTxFailed None spends (Some e)
  end.

(** The level of each transaction: one more than its parents' highest. *)
Definition level_of (level : list nat) (parents : list nat) : nat :=
  foldl Nat.max 0%nat (map (λ p, S (default 0%nat (level !! p))) parents).

Fixpoint levels (level : list nat) (parents : list (list nat)) : list nat :=
  match parents with
  | [] => level
  | ps :: parents => levels (level ++ [level_of level ps]) parents
  end.

Definition members_of (level : list nat) (k : nat) : list nat :=
  filter (λ i, level !! i = Some k) (seq 0 (length level)).

Section Write.
  Context {S : Type} {MS : MultiStore S}.

  (** The order in which the goroutines of a round make their calls. *)
  Variable schedule : list nat → list nat.
  (** The caller's context has ended, by the number of calls made. *)
  Variable ctx_done : nat → bool.

  Variable txs : list Tx.
  Variable blockHeight : Z.
  Variable l : MultiList.

(** The store, the results, and the number of calls made. *)
Record writing := mkWriting { wr_store : S; wr_results : list MultiResult; wr_calls : nat }.

Definition call (i : nat) (options : StoreOptions) (answer_of : MultiResult → option Data → Spends → option error → MultiResult)
    (w : writing) : writing :=
  match txs !! i with
  | None => w
  | Some tx =>
      let '(md, spends, e, s) := ms_SpendAndCreate tx blockHeight options (wr_store w) in
      mkWriting s (alter (λ r, answer_of r md spends e) i (wr_results w)) (Datatypes.S (wr_calls w))
  end.

Definition parents (i : nat) : list nat := default [] (ml_ParentsInList l !! i).

(** One level: the skipped are decided before the calls, by members of earlier
    levels, so the order of the goroutines is immaterial to them. *)
Definition mark_failed (members : list nat) (results : list MultiResult) : list MultiResult :=
  foldl (λ rs i, if failedParent rs (parents i) then <[i := parent_failed]> rs else rs) results members.

Definition write_level (members : list nat) (w : writing) : writing :=
  let runnable := filter (λ i, failedParent (wr_results w) (parents i) = false) members in
  foldl (λ w i, call i (item_option l i) (λ _, answer) w)
    (mkWriting (wr_store w) (mark_failed members (wr_results w)) (wr_calls w))
    (schedule runnable).

Definition ctx_err : error := err ERR_UNKNOWN.

Fixpoint write_levels (byLevel : list (list nat)) (w : writing) : option error * writing :=
  match byLevel with
  | [] => (None, w)
  | members :: byLevel =>
      if ctx_done (wr_calls w) then (Some ctx_err, w)
      else write_levels byLevel (write_level members w)
  end.

Definition fresh_results : list MultiResult := replicate (length txs) not_attempted.

Definition write_by_level (s : S) : option error * writing :=
  let level := levels [] (ml_ParentsInList l) in
  let maxLevel := foldl Nat.max 0%nat level in
  write_levels (map (members_of level) (seq 0 (Datatypes.S maxLevel))) (mkWriting s fresh_results 0).

(** [runDetachedWave]: a member that has not started when the context ends is
    skipped. *)
Fixpoint run_wave (members : list nat) (run : nat → writing → writing) (skipped : list nat)
    (w : writing) : list nat * writing :=
  match members with
  | [] => (skipped, w)
  | i :: members =>
      if ctx_done (wr_calls w) then run_wave members run (skipped ++ [i]) w
      else run_wave members run skipped (run i w)
  end.

Definition first_call (i : nat) (w : writing) : writing :=
  if bool_decide (parents i = []) then call i (item_option l i) (λ _, answer) w
  else call i (create_only (item_option l i)) (λ _ md _ e, answer md None e) w.

Definition spend_answer (r : MultiResult) (_ : option Data) (spends : Spends) (e : option error)
  : MultiResult :=
  match e with
  | Some e => mkMultiResult MultiTxFailed (mr_Meta r) spends (Some e)
  | None => mkMultiResult (mr_Status r) (mr_Meta r) spends (mr_Err r)
  end.

Definition second_call (i : nat) (w : writing) : writing :=
  call i (spend_only (item_option l i)) spend_answer w.

Definition clear (which : nat → MultiResult → bool) (results : list MultiResult) : list MultiResult :=
  imap (λ i r, if which i r then not_attempted else r) results.

Definition status_is (st : MultiTxStatus) (r : MultiResult) : bool := bool_decide (mr_Status r = st).

Definition has_parents (i : nat) : bool := negb (bool_decide (parents i = [])).

(** Between the waves: descendants of a failed call, in list order, and the
    members of the spend wave. *)
Definition mark_descendants (results : list MultiResult) : list MultiResult :=
  foldl (λ rs i, if default true (status_is MultiTxFailed <$> rs !! i) then rs
                 else if failedParent rs (parents i) then <[i := parent_failed]> rs else rs)
    results (seq 0 (length txs)).

Definition to_spend (results : list MultiResult) : list nat :=
  filter (λ i, default true (status_is MultiTxFailed <$> results !! i) ||
               default true (status_is MultiTxParentFailed <$> results !! i) ||
               negb (has_parents i) = false) (seq 0 (length txs)).

Definition writeCreateThenSpend (s : S) : option error * writing :=
  let '(skipped, w) :=
    run_wave (schedule (seq 0 (length txs))) first_call [] (mkWriting s fresh_results 0) in
  let with_results rs := mkWriting (wr_store w) rs (wr_calls w) in
  if negb (bool_decide (skipped = [])) then
    (Some ctx_err, with_results
       (clear (λ i r, has_parents i && negb (status_is MultiTxFailed r)) (wr_results w)))
  else
    let marked := mark_descendants (wr_results w) in
    let toSpend := to_spend marked in
    if ctx_done (wr_calls w) then
      (Some ctx_err, with_results (clear (λ i _, bool_decide (i ∈ toSpend)) marked))
    else
      let '(skipped, w) := run_wave (schedule toSpend) second_call [] (with_results marked) in
      if negb (bool_decide (skipped = [])) then
        (Some ctx_err, mkWriting (wr_store w)
           (clear (λ i _, bool_decide (i ∈ skipped)) (wr_results w)) (wr_calls w))
      else (None, w).
End Write.

Definition DefaultSpendAndCreateMulti {S} {MS : MultiStore S} {BT : BtTx}
    (schedule : list nat → list nat) (ctx_done : nat → bool) (txs : list (option Tx))
    (blockHeight : Z) (options : StoreOptions) (s : S)
  : result (list MultiResult * option error) * S :=
  match PrepareSpendAndCreateMulti txs options with
  | Err e => (Err e, s)
  | Ok l =>
      let live := omap id txs in
      if bool_decide (txs = []) then (Ok ([], None), s)
      else
        let '(e, w) := if so_BelowCheckpoint (ml_Options l)
                       then writeCreateThenSpend schedule ctx_done live blockHeight l s
                       else write_by_level schedule ctx_done live blockHeight l s in
        (Ok (wr_results w, e), wr_store w)
  end.
