(* ===== verification/SpendCreateTheorems.v ===== *)
(** * What spending and creating in one call guarantees

    The laws of a store's three operations, and what [SequentialSpendAndCreate]
    makes of them; and which lists of transactions are accepted. *)

From stdpp Require Import list.
From S2P Require Import Prelude External Utxo UtxoSql UtxoSqlOps SpendCreate.

(** ** One transaction

    A store takes a missing output for one spent long ago when the spender already
    has a record, unless parents are required; so a spend is only sure of a
    transaction without a record, of one that had its inputs, or of one whose
    parents are required.

    [stored]: a record of that transaction is there; [pending]: a write of one may
    still be committed, by a batch its caller no longer waits for; [spent]: every
    output the transaction spends is recorded as spent by it. *)
Section Observe.
  Context {S : Type} (stored pending spent : S → Hash → Prop).

Definition present (s : S) (h : Hash) : Prop := stored s h ∨ pending s h.

(** No record, written or on its way, has an input that others could spend. *)
Definition backed (s : S) : Prop := ∀ h, present s h → spent s h.

Definition spends_of (h : Hash) (spends : list Spend) : Prop :=
  Forall (λ sp, sd_TxID <$> sp_SpendingData sp = Some (Some h)) spends.

Class SequentialSpec (SS : SequentialStore S) (BT : BtTx) : Prop := {
  spend_ok tx n fl s l s' : sq_Spend tx n fl s = (l, None, s') →
    spends_of (TxIDChainHash tx) (spends_list l) ∧ (0 < length (spends_list l))%nat ∧
    (RequireParentOutputs fl = true ∨ (present s (TxIDChainHash tx) → spent s (TxIDChainHash tx)) →
     spent s' (TxIDChainHash tx));
  spend_error tx n fl s l e s' : sq_Spend tx n fl s = (l, Some e, s') → error_Is e ERR_TX_EXISTS = false;
  spend_frame tx n fl s l e s' : sq_Spend tx n fl s = (l, e, s') →
    (∀ h, stored s' h ↔ stored s h) ∧ (∀ h, pending s' h ↔ pending s h) ∧
    ∀ h, spent s h → h ≠ TxIDChainHash tx ∨ present s h → spent s' h;
  create_frame tx n o s r s' : sq_Create tx n o s = (r, s') →
    ∀ h, (spent s' h ↔ spent s h) ∧
         (h ≠ default (TxIDChainHash tx) (co_TxID o) → present s' h ↔ present s h);
  create_keeps tx n o s r s' h : sq_Create tx n o s = (r, s') → stored s h → stored s' h;
  create_stores tx n o s r s' : sq_Create tx n o s = (r, s') →
    match r with inl _ => True | inr e => error_Is (ce_error e) ERR_TX_EXISTS = true end →
    stored s' (default (TxIDChainHash tx) (co_TxID o));
  create_fails tx n o s e s' : sq_Create tx n o s = (inr e, s') →
    error_Is (ce_error e) ERR_TX_EXISTS = false → IsCreateOutcomeUnknown e = false →
    ∀ h, present s' h ↔ present s h;
  unspend_frame l h s r s' : sq_Unspend l s = (r, s') → spends_of h l →
    (∀ k, stored s' k ↔ stored s k) ∧ (∀ k, pending s' k ↔ pending s k) ∧
    ∀ k, k ≠ h → spent s k → spent s' k;
  unspend_ok l h s s' : sq_Unspend l s = (Ok tt, s') → spends_of h l → (0 < length l)%nat →
    ¬ spent s' h;
}.
End Observe.

Section Sequential.
  Context {S : Type} {stored pending spent : S → Hash → Prop} {SS : SequentialStore S} {BT : BtTx}.
  Context {Spec : SequentialSpec stored pending spent SS BT}.
  Context (rollback_done : nat → bool).

Abbreviation present := (present stored pending).
Abbreviation backed := (backed stored pending spent).

Lemma present_iff s s' h : (∀ h, stored s' h ↔ stored s h) → (∀ h, pending s' h ↔ pending s h) →
  present s' h ↔ present s h.
Proof. intros H1 H2. unfold present. by rewrite H1, H2. Qed.

Lemma unspend_attempts_ok n k h l s r s' : spends_of h l → (0 < length l)%nat → n ≠ 0%nat →
  unspend_attempts rollback_done n k l s = (r, s') →
  (∀ x, present s' x ↔ present s x) ∧ (∀ x, stored s' x ↔ stored s x) ∧
  (∀ x, x ≠ h → spent s x → spent s' x) ∧ (r = Ok tt → ¬ spent s' h).
Proof.
  intros Hl Hlen. revert k s r. induction n as [|n IH]; intros k s r Hn; [done|]. cbn [unspend_attempts].
  destruct (sq_Unspend l s) as [[[]|e] s1] eqn:E;
    destruct (unspend_frame _ _ _ _ _ _ _ _ E Hl) as (H1 & H2 & H3).
  { intros [= <- <-]. split_and!; [intros; by apply present_iff|done|done|].
    intros _. by eapply unspend_ok. }
  case_bool_decide as Hz; [intros [= <- <-]; split_and!; [intros; by apply present_iff|done..]|].
  destruct (rollback_done k); [intros [= <- <-]; split_and!; [intros; by apply present_iff|done..]|].
  intros (A & B & C & D)%IH; [|done]. split_and!; [| | |done].
  - intros x. rewrite A. by apply present_iff.
  - intros x. by rewrite B.
  - intros x Hx Hs. apply C; [done|]. by apply H3.
Qed.

(** The creation fails, and neither because the record is there nor with its outcome unknown. *)
Definition create_refused (tx : Tx) (n : Z) (o : StoreOptions) (s s' : S) : Prop :=
  ∃ ce, sq_Create tx n (so_create o) s = (inr ce, s') ∧
    error_Is (ce_error ce) ERR_TX_EXISTS = false ∧ IsCreateOutcomeUnknown ce = false.

(** The creation, after the inputs were spent. *)
Lemma create_or_undo_ok tx n o l s md sps e s' :
  default (TxIDChainHash tx) (co_TxID (so_create o)) = TxIDChainHash tx → spent s (TxIDChainHash tx) →
  spends_of (TxIDChainHash tx) (spends_list l) → (0 < length (spends_list l))%nat →
  create_or_undo rollback_done tx n o l s = (md, sps, e, s') →
  (∀ x, x ≠ TxIDChainHash tx → (present s' x ↔ present s x) ∧ (spent s x → spent s' x)) ∧
  (stored s (TxIDChainHash tx) → stored s' (TxIDChainHash tx)) ∧
  match e with
  | None => stored s' (TxIDChainHash tx) ∧ spent s' (TxIDChainHash tx) ∧ sps = l
  | Some _ =>
      spent s' (TxIDChainHash tx) ∧ sps = l ∨
      (present s' (TxIDChainHash tx) ↔ present s (TxIDChainHash tx)) ∧
      (sps = None → ¬ spent s' (TxIDChainHash tx)) ∧ ∃ s1, create_refused tx n o s s1
  end.
Proof.
  intros Hid Hs Hl Hlen. unfold create_or_undo, create_refused.
  destruct (sq_Create tx n (so_create o) s) as [[m|ce] s1] eqn:Ec.
  all: pose proof (create_frame _ _ _ _ _ _ _ _ _ Ec) as Hf; pose proof (create_stores _ _ _ _ _ _ _ _ _ Ec) as Hst;
    pose proof (λ h, create_keeps _ _ _ _ _ _ _ _ _ h Ec) as Hk; rewrite Hid in Hf, Hst.
  { intros [= <- <- <- <-]. split_and!; [|by apply Hk|by apply Hst|by apply Hf|done].
    intros x Hx. destruct (Hf x) as [H1 H2]. split; [by apply H2|by apply H1]. }
  assert (Hoth : ∀ x, x ≠ TxIDChainHash tx → (present s1 x ↔ present s x) ∧ (spent s x → spent s1 x)).
  { intros x Hx. destruct (Hf x) as [H1 H2]. split; [by apply H2|by apply H1]. }
  destruct (error_Is (ce_error ce) ERR_TX_EXISTS) eqn:Ex.
  { intros [= <- <- <- <-]. split_and!; [done|by apply Hk|]. left. split; [by apply Hf|done]. }
  destruct (IsCreateOutcomeUnknown ce) eqn:Eu.
  { intros [= <- <- <- <-]. split_and!; [done|by apply Hk|]. left. split; [by apply Hf|done]. }
  rewrite bool_decide_true by done.
  pose proof (create_fails _ _ _ _ _ _ _ _ _ Ec Ex Eu) as Hp.
  destruct (unspendWithRetry _ _ s1) as [r s2] eqn:Er.
  apply (unspend_attempts_ok _ _ _ _ _ _ _ Hl Hlen) in Er as (A & B & C & D); [|done].
  destruct r as [[]|e1]; intros [= <- <- <- <-]; (split; [|split; [|right; split; [|split]]]).
  all: try (intros x Hx; destruct (Hoth x Hx) as [H1 H2]; split; [by rewrite A|]; intros ?; by apply C, H2).
  all: try (by rewrite A). all: try (by intros ?; apply B, Hk). all: try (by exists s1, ce).
  - intros _. by apply D.
  - intros ->. simpl in Hlen. lia.
Qed.

(** C6: what a spend and create leaves, whether or not the transaction has a record
    already, when every record had its inputs before.  No other record is touched and
    none of the others loses its inputs.  A success leaves the inputs spent, and the
    record stored unless only the spend was asked for.  A failure removes no record; if
    there is one afterwards, or a creation that may yet commit one, its inputs are spent
    and, when it is new, the live spends are handed back, with one exception: the
    transaction had a record before the call, and the creation was refused for another
    reason.  Nil spends after a spend that succeeded mean that they were undone, and
    that the call left no record that was not there. *)
Theorem SequentialSpendAndCreate_spec tx n o s md sps e s' :
  let id := TxIDChainHash tx in
  so_CreateOnly o = false → default id (co_TxID (so_create o)) = id → backed s →
  SequentialSpendAndCreate rollback_done tx n o s = (md, sps, e, s') →
  (∀ h, h ≠ id → (present s' h ↔ present s h) ∧ (present s h → spent s' h)) ∧
  (stored s id → stored s' id) ∧
  match e with
  | None => spent s' id ∧ (so_SpendOnly o = false → stored s' id)
  | Some _ =>
      (present s' id →
        spent s' id ∧ (present s id ∨ is_Some sps) ∨
        present s id ∧ ∃ l s1 s2, sq_Spend tx n (so_IgnoreFlags o) s = (l, None, s1) ∧ create_refused tx n o s1 s2) ∧
      (∀ l s1, sq_Spend tx n (so_IgnoreFlags o) s = (l, None, s1) → sps = None →
        ¬ spent s' id ∧ (present s' id ↔ present s id))
  end.
Proof.
  intros id Hc Hid Hb. unfold SequentialSpendAndCreate, ParseCreateOptions. rewrite Hc. cbn [andb negb].
  rewrite Hc. destruct (sq_Spend tx n (so_IgnoreFlags o) s) as [[l e1] s1] eqn:Es.
  destruct (spend_frame _ _ _ _ _ _ _ _ _ _ Es) as (F1 & F2 & F3).
  assert (Hp1 : ∀ h, present s1 h ↔ present s h) by (intros; by apply present_iff).
  assert (Hb1 : ∀ h, present s h → spent s1 h) by (intros h Hh; apply F3; auto).
  destruct e1 as [e1|].
  { intros [= <- <- <- <-]. split_and!; [by intros h _; rewrite Hp1; auto|by rewrite F1| |by intros].
    rewrite Hp1. intros Hh. left. auto. }
  apply (spend_ok stored pending spent) in Es as (H2 & H3 & H1); specialize (H1 (or_intror (Hb id))).
  destruct (so_SpendOnly o) eqn:Eso.
  { intros [= <- <- <- <-]. split_and!; [by intros h _; rewrite Hp1; auto|by rewrite F1|done|done]. }
  intros Ec. pose proof (create_or_undo_ok _ _ _ _ _ _ _ _ _ Hid H1 H2 H3 Ec) as (A & K & B).
  assert (Hsps : is_Some l) by (destruct l; [by eexists|simpl in H3; lia]).
  split_and!.
  - intros h Hh. destruct (A h Hh) as [A1 A2]. rewrite A1, Hp1. auto.
  - rewrite <- F1. done.
  - destruct e; [|tauto]. split.
    + intros Hh. destruct B as [[? ->]|(Hq & _ & s2 & Hr)]; [by left; auto|].
      right. apply Hq, Hp1 in Hh. split; [done|]. by exists l, s1, s2.
    + intros l' s1' [= <- <-] ->. destruct B as [[_ Hl]|(Hq & Hn & _)]; [by destruct Hsps; congruence|].
      split; [by apply Hn|]. fold id in Hq. by rewrite Hq, Hp1.
Qed.

(** A transaction that already has a record is not safe.  If it is submitted
    again, its creation fails with an error that is neither already-exists nor of
    unknown outcome, and the rollback succeeds, the record stays and its inputs
    are unspent. *)
Theorem resubmission_frees_inputs tx n o s l s1 ce s2 s3 :
  so_CreateOnly o = false → so_SpendOnly o = false →
  stored s (TxIDChainHash tx) →
  sq_Spend tx n (so_IgnoreFlags o) s = (l, None, s1) →
  sq_Create tx n (so_create o) s1 = (inr ce, s2) →
  error_Is (ce_error ce) ERR_TX_EXISTS = false → IsCreateOutcomeUnknown ce = false →
  unspendWithRetry rollback_done (spends_list l) s2 = (Ok tt, s3) →
  SequentialSpendAndCreate rollback_done tx n o s = (None, None, Some (ce_error ce), s3) ∧
  stored s3 (TxIDChainHash tx) ∧ ¬ spent s3 (TxIDChainHash tx) ∧ ¬ backed s3.
Proof.
  intros Hc Hso Hst Es Ec Ex Eu Er.
  pose proof (spend_ok _ _ _ _ _ _ _ _ _ Es) as (H2 & H3 & _).
  pose proof (spend_frame _ _ _ _ _ _ _ _ _ _ Es) as (F1 & _ & _).
  pose proof Er as Er'.
  apply (unspend_attempts_ok _ _ _ _ _ _ _ H2 H3) in Er' as (_ & B & _ & D); [|done].
  assert (Hst3 : stored s3 (TxIDChainHash tx)).
  { apply B, (create_keeps _ _ _ _ _ _ _ _ _ _ Ec). by apply F1. }
  split_and!; [|done|by apply D|].
  - unfold SequentialSpendAndCreate, ParseCreateOptions. rewrite Hc. cbn [andb negb]. rewrite Hc, Es, Hso.
    unfold create_or_undo. rewrite Ec, Ex, Eu. rewrite bool_decide_true by done. by rewrite Er.
  - intros Hb. apply D; [done|]. apply Hb. by left.
Qed.
End Sequential.

(** ** Which lists are accepted *)
Section Lists.
  Context {BT : BtTx}.

Definition tx_outpoints (tx : Tx) : list outpoint :=
  map (λ i, (PreviousTxID i, PreviousTxOutIndex i)) (Inputs tx).

(** The output, if it is of a transaction in the list, is of one before [i] that
    has it. *)
Definition earlier (txs : list Tx) (txids : list Hash) (i : nat) (op : outpoint) : Prop :=
  ∀ p, txids !! p = Some op.1 →
    (p < i)%nat ∧ ∃ parent, txs !! p = Some parent ∧ op.2 < Z.of_nat (length (Outputs parent)).

Record list_ok (txs : list Tx) (txids : list Hash) : Prop := {
  lo_coinbase : Forall (λ tx, IsCoinbase tx = false) txs;
  lo_txids : NoDup txids;
  lo_outpoints : NoDup (mjoin (map tx_outpoints txs));
  lo_parents i tx op : txs !! i = Some tx → op ∈ tx_outpoints tx → earlier txs txids i op;
}.

(** The parents in the list, once each. *)
Definition parents_in_list (txids : list Hash) (tx : Tx) (ps : list nat) : Prop :=
  NoDup ps ∧ ∀ p, p ∈ ps ↔ ∃ op, op ∈ tx_outpoints tx ∧ txids !! p = Some op.1.

Lemma positions_ok k txs txids (pos : gmap Hash nat) : length txids = length txs →
  let fine := Forall (λ tx, IsCoinbase tx = false) txs ∧ NoDup txids ∧ ∀ h, h ∈ txids → pos !! h = None in
  match positions k (map Some txs) txids pos with
  | Ok pos' => fine ∧ ∀ h p, pos' !! h = Some p ↔ pos !! h = Some p ∨ ∃ j, txids !! j = Some h ∧ p = (k + j)%nat
  | Err e => e = refused ∧ ¬ fine
  end.
Proof.
  revert k txids pos. induction txs as [|tx txs IH]; intros k [|id ids] pos; simpl; try done.
  { intros _. split.
    - split_and!; [constructor..|]. by intros h ?%elem_of_nil.
    - intros h p. split; [by left|]. intros [?|(j & Hj & _)]; [done|]. by rewrite lookup_nil in Hj. }
  intros [= Hlen]. destruct (IsCoinbase tx) eqn:Ecb.
  { split; [done|]. intros (Hf & _). apply Forall_cons in Hf as [? _]. congruence. }
  case_bool_decide as Hd.
  { split; [done|]. intros (_ & _ & Hn). rewrite Hn in Hd by left. by destruct Hd. }
  assert (Hnone : pos !! id = None) by (by apply eq_None_not_Some).
  specialize (IH (S k) ids (<[id:=k]> pos) Hlen).
  destruct (positions _ _ _ _) as [pos'|e].
  - destruct IH as [(Hf & Hn & Hi) Hp]. assert (id ∉ ids) as Hni.
    { intros Hin. specialize (Hi _ Hin). by rewrite lookup_insert in Hi; destruct (decide (id = id)). }
    split; [split_and!|].
    + by constructor.
    + by constructor.
    + intros h [->|Hin]%elem_of_cons; [done|]. specialize (Hi h Hin).
      by apply lookup_insert_None in Hi as [? _].
    + intros h p. rewrite Hp, lookup_insert_Some. split.
      * intros [[[<- <-]|[_ ?]]|(j & Hj & ->)]; [right; exists 0%nat; split; [done|lia]|by left|].
        right. exists (S j). split; [done|lia].
      * intros [Hh|([|j] & Hj & ->)].
        -- left. right. split; [|done]. intros ->. congruence.
        -- left. left. injection Hj as ->. split; [done|lia].
        -- right. exists j. split; [done|lia].
  - destruct IH as [-> Hbad]. split; [done|]. intros (Hf & Hn & Hi). apply Hbad.
    apply Forall_cons in Hf as [_ Hf]. apply NoDup_cons in Hn as [Hni Hn]. split_and!; [done..|].
    intros h Hin. rewrite lookup_insert_None. split; [apply Hi; by right|]. by intros ->.
Qed.

Section Inputs.
  Context (txs : list Tx) (txids : list Hash) (position : gmap Hash nat).
  Context (Hlen : length txids = length txs).
  Context (Hpos : ∀ h p, position !! h = Some p ↔ txids !! p = Some h).

Lemma check_input_ok i spent ps input :
  let op := (PreviousTxID input, PreviousTxOutIndex input) in
  match check_input (map Some txs) position i (spent, ps) input with
  | Ok (spent', ps') => op ∉ spent ∧ spent' = {[op]} ∪ spent ∧ earlier txs txids i op ∧
      (NoDup ps → NoDup ps') ∧ ∀ p, p ∈ ps' ↔ p ∈ ps ∨ txids !! p = Some op.1
  | Err e => e = refused ∧ ¬ (op ∉ spent ∧ earlier txs txids i op)
  end.
Proof.
  cbv zeta. unfold check_input. case_bool_decide as Hin; [split; [done|tauto]|].
  destruct (position !! PreviousTxID input) as [p|] eqn:Ep.
  2: { assert (∀ p, txids !! p ≠ Some (PreviousTxID input)) as Hno.
       { intros p Hp. apply Hpos in Hp. congruence. }
       split_and!; [done|done|intros p Hp; by apply Hno in Hp|done|].
       intros p. split; [by left|]. intros [?|Hp]; [done|]. by apply Hno in Hp. }
  pose proof Ep as Ep'. apply Hpos in Ep.
  assert (Hone : ∀ q, txids !! q = Some (PreviousTxID input) → q = p).
  { intros q Hq. apply Hpos in Hq. congruence. }
  case_bool_decide as Hle.
  { split; [done|]. intros [_ He]. apply He in Ep as [? _]. lia. }
  rewrite list_lookup_fmap. destruct (txs !! p) as [parent|] eqn:Et; simpl.
  2: { apply lookup_lt_Some in Ep. apply lookup_ge_None in Et. lia. }
  destruct (Z.geb_spec (PreviousTxOutIndex input) (Z.of_nat (length (Outputs parent)))).
  { split; [done|]. intros [_ He]. apply He in Ep as [_ (x & Hx & Hlt)]. simpl in Hlt.
    assert (x = parent) as -> by congruence. lia. }
  split_and!; [done|done| | |].
  - intros q Hq%Hone. subst q. split; [lia|]. eauto.
  - case_bool_decide; [done|]. intros Hn. apply NoDup_app. split_and!; [done| |apply NoDup_singleton].
    by intros x Hx ->%list_elem_of_singleton.
  - intros q. case_bool_decide as Hp.
    + split; [by left|]. intros [?|Hq%Hone]; [done|]. by subst.
    + rewrite elem_of_app, list_elem_of_singleton. split; intros [?|Hq]; [by left|right|by left|right].
      * by subst q.
      * by apply Hone.
Qed.

Lemma check_inputs_ok i spent ps inputs :
  let ops := map (λ i, (PreviousTxID i, PreviousTxOutIndex i)) inputs in
  let fine := NoDup ops ∧ (∀ op, op ∈ ops → op ∉ spent ∧ earlier txs txids i op) in
  match check_inputs_from (map Some txs) position i (spent, ps) inputs with
  | Ok (spent', ps') => fine ∧ spent' = list_to_set ops ∪ spent ∧ (NoDup ps → NoDup ps') ∧
      ∀ p, p ∈ ps' ↔ p ∈ ps ∨ ∃ op, op ∈ ops ∧ txids !! p = Some op.1
  | Err e => e = refused ∧ ¬ fine
  end.
Proof.
  revert spent ps. induction inputs as [|input inputs IH]; intros spent ps; cbn [check_inputs_from map].
  { split_and!; [constructor|by intros ? ?%elem_of_nil|set_solver|done|].
    intros p. split; [by left|]. intros [?|(op & Hop & _)]; [done|]. by apply elem_of_nil in Hop. }
  pose proof (check_input_ok i spent ps input) as Hi. cbv zeta in *.
  destruct (check_input _ _ _ _ _) as [[s1 p1]|e]; cbn [bindR].
  2: { destruct Hi as [-> Hbad]. split; [done|]. intros [_ Hall]. apply Hbad. apply Hall. by left. }
  destruct Hi as (Hni & -> & He & Hd & Hp). specialize (IH ({[(PreviousTxID input, PreviousTxOutIndex input)]} ∪ spent) p1).
  destruct (check_inputs_from _ _ _ _ _) as [[s2 p2]|e].
  - destruct IH as ([Hn Hall] & -> & Hd2 & Hp2). split_and!.
    + constructor; [|done]. intros Hin. by apply Hall in Hin as [Hin _]; set_solver.
    + intros op [->|Hin]%elem_of_cons; [done|]. apply Hall in Hin as [? ?]. set_solver.
    + cbn [list_to_set]. set_solver.
    + auto.
    + intros p. rewrite Hp2, Hp. setoid_rewrite elem_of_cons. split.
      * intros [[?|?]|(op & ? & ?)]; [by left|right; eauto|right; eauto].
      * intros [?|(op & [->|?] & ?)]; [tauto|left; by right|right; eauto].
  - destruct IH as [-> Hbad]. split; [done|]. intros [Hn Hall]. apply Hbad.
    apply NoDup_cons in Hn as [Hno Hn]. split; [done|]. intros op Hin.
    destruct (Hall op (list_elem_of_further _ _ _ Hin)) as [? ?]. split; [|done].
    intros [->%elem_of_singleton|?]%elem_of_union; done.
Qed.

Lemma parents_from_ok k spent (todo : list Tx) :
  (∀ j tx, todo !! j = Some tx → txs !! (k + j)%nat = Some tx) →
  let ops := mjoin (map tx_outpoints todo) in
  let fine := NoDup ops ∧ (∀ op, op ∈ ops → op ∉ spent) ∧
    ∀ j tx op, todo !! j = Some tx → op ∈ tx_outpoints tx → earlier txs txids (k + j) op in
  match parents_from (map Some txs) position k spent (map Some todo) with
  | Ok l => fine ∧ length l = length todo ∧
      ∀ j tx ps, todo !! j = Some tx → l !! j = Some ps → parents_in_list txids tx ps
  | Err e => e = refused ∧ ¬ fine
  end.
Proof.
  revert k spent. induction todo as [|tx todo IH]; intros k spent Hall; cbn [parents_from map].
  { split_and!; [constructor|by intros ? ?%elem_of_nil|done|done|done]. }
  pose proof (check_inputs_ok k spent [] (Inputs tx)) as Hi. cbv zeta in *.
  fold (tx_outpoints tx) in Hi.
  change (mjoin (tx_outpoints tx :: map tx_outpoints todo)) with
    (tx_outpoints tx ++ mjoin (map tx_outpoints todo)).
  destruct (check_inputs_from _ _ _ _ _) as [[s1 p1]|e]; cbn [bindR].
  2: { destruct Hi as [-> Hbad]. split; [done|]. intros (Hn & Hs & He). apply Hbad.
       apply NoDup_app in Hn as (Hn & _). split; [done|]. intros op Hin. split; [apply Hs, elem_of_app; by left|].
       rewrite <- (Nat.add_0_r k). by eapply (He 0%nat tx). }
  destruct Hi as ([Hn He] & -> & Hd & Hp).
  specialize (IH (S k) (list_to_set (tx_outpoints tx) ∪ spent)).
  destruct (parents_from _ _ _ _ _) as [l|e]; cbn [bindR].
  - destruct IH as ((Hn2 & Hs2 & He2) & Hl & Hps).
    { intros j t Hj. rewrite Nat.add_succ_comm. by apply Hall. }
    split_and!.
    + apply NoDup_app. split_and!; [done| |done]. intros op Hin Hin2. apply Hs2 in Hin2.
      apply Hin2, elem_of_union_l. by apply elem_of_list_to_set.
    + intros op [Hin|Hin]%elem_of_app; [by apply He|]. apply Hs2 in Hin. set_solver.
    + intros [|j] t op Hj Hop; [injection Hj as <-; rewrite Nat.add_0_r; by apply He|].
      rewrite <- Nat.add_succ_comm. by eapply He2.
    + simpl. by rewrite Hl.
    + intros [|j] t ps Hj Hl'; simpl in *; [|by eapply Hps]. injection Hj as <-. injection Hl' as <-.
      split; [apply Hd; constructor|]. intros p. rewrite Hp. split; [|by right].
      intros [?%elem_of_nil|?]; done.
  - destruct IH as [-> Hbad]. { intros j t Hj. rewrite Nat.add_succ_comm. by apply Hall. }
    split; [done|]. intros (Hn2 & Hs2 & He2). apply Hbad. apply NoDup_app in Hn2 as (_ & Hdis & Hn2).
    split_and!; [done| |].
    + intros op Hin [Hin2%elem_of_list_to_set|Hin2]%elem_of_union; [by eapply Hdis|].
      eapply Hs2; [|exact Hin2]. apply elem_of_app. by right.
    + intros j t op Hj Hop. rewrite Nat.add_succ_comm. by eapply (He2 (S j)).
Qed.
End Inputs.

Lemma check_list_cases (txs : list Tx) (txids : list Hash) :
  length txids = length txs →
  match checkSpendAndCreateMultiList (map Some txs) txids with
  | Ok l => list_ok txs txids ∧ Forall2 (parents_in_list txids) txs l
  | Err e => e = refused ∧ ¬ list_ok txs txids
  end.
Proof.
  intros Hlen. unfold checkSpendAndCreateMultiList.
  pose proof (positions_ok 0 txs txids ∅ Hlen) as Hp. cbv zeta in Hp.
  destruct (positions _ _ _ _) as [position|e]; cbn [bindR].
  2: { destruct Hp as [-> Hbad]. split; [done|]. intros [H1 H2 _ _]. apply Hbad. split_and!; [done..|].
       intros. apply lookup_empty. }
  destruct Hp as [(H1 & H2 & _) Hpos].
  assert (Hpos' : ∀ h p, position !! h = Some p ↔ txids !! p = Some h).
  { intros h p. rewrite Hpos, lookup_empty. split; [|by right; exists p].
    intros [?|(j & Hj & ->)]; [done|]. done. }
  pose proof (parents_from_ok txs txids position Hlen Hpos' 0 ∅ txs (λ j tx H, H)) as Hq. cbv zeta in Hq.
  destruct (parents_from _ _ _ _ _) as [l|e].
  - destruct Hq as ((Hn & _ & He) & Hl & Hps). split; [by constructor|].
    apply Forall2_same_length_lookup_2; [done|]. intros j tx ps. apply Hps.
  - destruct Hq as [-> Hbad]. split; [done|]. intros [_ _ Hn Hpar]. apply Hbad. split_and!; [done|set_solver|done].
Qed.

Lemma tx_ids_some (txs : list Tx) : tx_ids (map Some txs) = Ok (map TxIDChainHash txs).
Proof. induction txs as [|tx txs IH]; cbn; [done|]. by rewrite IH. Qed.

(** The refusal checks accept exactly the lists the contract describes: no
    coinbase, no transaction twice, no outpoint spent twice, and every output
    spent inside the list is one of an earlier transaction that has it.  An
    accepted list comes with the parents of each transaction in the list, once
    each; any other is refused, and the checks never panic. *)
Theorem checkSpendAndCreateMultiList_spec (txs : list Tx) (txids : list Hash) :
  length txids = length txs →
  match checkSpendAndCreateMultiList (map Some txs) txids with
  | Ok l => list_ok txs txids ∧ Forall2 (parents_in_list txids) txs l
  | Err e => e = refused ∧ ¬ list_ok txs txids
  end.
Proof. apply check_list_cases. Qed.
End Lists.

(** ** Witnesses: a store that keeps the ids recorded and the ids whose inputs are
    spent, and refuses to create while it is sick. *)
Record ledger := mkLedger { lg_records : gset Hash; lg_spent : gset Hash; lg_sick : bool }.

Definition lg_stored (s : ledger) (h : Hash) : Prop := h ∈ lg_records s.
Definition lg_pending (_ : ledger) (_ : Hash) : Prop := False.
Definition lg_has_spent (s : ledger) (h : Hash) : Prop := h ∈ lg_spent s.

Definition lg_meta (tx : Tx) : Data := mkData (Some tx) [] [] [] [] [] false false 0.

Definition lg_spends (id : Hash) (tx : Tx) : list Spend :=
  imap (λ vin i, mkSpend (PreviousTxID i) (PreviousTxOutIndex i) zero_hash (NewSpendingData (Some id) (Z.of_nat vin)))
    (Inputs tx).

Definition lg_spenders (l : list Spend) : gset Hash :=
  list_to_set (omap (λ sp, sp_SpendingData sp ≫= sd_TxID) l).

Section Ledger.
  Context (BT : BtTx).

#[local] Instance ledger_store : SequentialStore ledger := {|
  sq_Create tx _ o s :=
    let id := default (TxIDChainHash tx) (co_TxID o) in
    if lg_sick s then (inr (mkCreateError (err ERR_STORAGE_ERROR) false false), s)
    else if bool_decide (id ∈ lg_records s) then (inr (mkCreateError (err ERR_TX_EXISTS) false false), s)
    else (inl (lg_meta tx), mkLedger ({[id]} ∪ lg_records s) (lg_spent s) (lg_sick s));
  sq_Spend tx _ _ s :=
    if bool_decide (Inputs tx = []) then (None, Some (err ERR_TX_INVALID), s)
    else (Some (map (λ sp, (sp, None)) (lg_spends (TxIDChainHash tx) tx)), None,
          mkLedger (lg_records s) ({[TxIDChainHash tx]} ∪ lg_spent s) (lg_sick s));
  sq_Unspend l s := (Ok tt, mkLedger (lg_records s) (lg_spent s ∖ lg_spenders l) (lg_sick s));
|}.

Lemma lg_spenders_of h l : spends_of h l → ∀ k, k ∈ lg_spenders l ↔ (0 < length l)%nat ∧ k = h.
Proof.
  unfold spends_of, lg_spenders. intros Hl k. rewrite elem_of_list_to_set, list_elem_of_omap. split.
  - intros (sp & Hsp & E). rewrite Forall_forall in Hl. specialize (Hl sp Hsp).
    destruct l; [by apply elem_of_nil in Hsp|]. split; [simpl; lia|].
    destruct (sp_SpendingData sp); [|done]. cbn in *. congruence.
  - intros [Hlen ->]. destruct l as [|sp l]; [simpl in Hlen; lia|]. exists sp. split; [by left|].
    apply Forall_cons in Hl as [Hl _]. destruct (sp_SpendingData sp); [|done]. by injection Hl.
Qed.

Lemma ledger_spec : SequentialSpec lg_stored lg_pending lg_has_spent ledger_store BT.
Proof.
  split; unfold lg_stored, lg_pending, lg_has_spent; cbn.
  - intros tx n fl s l s'. case_bool_decide as Hi; [done|]. intros [= <- <-]. unfold spends_list. cbn.
    rewrite map_map, map_id. unfold lg_spends. split_and!; [| |set_solver].
    + apply Forall_lookup. intros k x. rewrite list_lookup_imap. by intros (i & _ & ->)%fmap_Some.
    + rewrite length_imap. destruct (Inputs tx); [done|simpl; lia].
  - intros tx n fl s l e s'. case_bool_decide; [|done]. by intros [= _ <- _].
  - intros tx n fl s l e s'. case_bool_decide; intros [= _ _ <-]; cbn; [done|]. set_solver.
  - intros tx n o s r s'. destruct (lg_sick s); [by intros [= _ <-]|]. case_bool_decide; [by intros [= _ <-]|].
    intros [= _ <-] h. cbn. unfold present. set_solver.
  - intros tx n o s r s' h. destruct (lg_sick s); [by intros [= _ <-]|]. case_bool_decide; [by intros [= _ <-]|].
    intros [= _ <-]. set_solver.
  - intros tx n o s r s'. destruct (lg_sick s); [by intros [= <- <-]|].
    case_bool_decide; intros [= <- <-]; [done|]. cbn. set_solver.
  - intros tx n o s e s'. destruct (lg_sick s); [by intros [= <- <-]|].
    case_bool_decide; [|done]. by intros [= <- <-].
  - intros l h s r s' [= _ <-] Hl. cbn. split_and!; [done|done|].
    intros k Hk Hs. apply elem_of_difference. split; [done|]. by rewrite (lg_spenders_of _ _ Hl k); intros [_ ?].
  - intros l h s s' [= <-] Hl Hlen. cbn. rewrite elem_of_difference, (lg_spenders_of _ _ Hl h). tauto.
Qed.
End Ledger.

(** Transaction [22] spends the only output of transaction [21]. *)
Definition ex_chain_tx (id parent vout : Z) : Tx :=
  mkTx id [mkInput (hash_of_Z parent) vout 700 None None 0] [Some (mkOutput 600 None)] 0.

Definition ex_options : StoreOptions :=
  mkStoreOptions (mkCreateOptions [] None None false false false false) (mkFlags false false false false)
    false false false None None.

Definition ex_ledger (sick : bool) (records : list Hash) : ledger :=
  mkLedger (list_to_set records) (list_to_set records) sick.

Definition ledger_run (id : Z) (s : ledger) : option Data * Spends * option error * ledger :=
  SequentialSpendAndCreate (SS := ledger_store model_BtTx) (λ _, false) (ex_chain_tx id 21 0) 100 ex_options s.

Lemma ex_backed sick l : backed lg_stored lg_pending lg_has_spent (ex_ledger sick l).
Proof. by intros h [?|?]. Qed.

(** A first submission that succeeds, one whose creation the store refuses, and the
    resubmission of a recorded transaction whose creation is refused: the exception. *)
Lemma SequentialSpendAndCreate_spec_witness :
  let s' := (ledger_run 22 (ex_ledger false [])).2 in
  let undone := (ledger_run 22 (ex_ledger true [])).2 in
  let again := (ledger_run 22 (ex_ledger true [hash_of_Z 22])).2 in
  lg_has_spent s' (hash_of_Z 22) ∧ lg_stored s' (hash_of_Z 22) ∧
  ¬ lg_has_spent undone (hash_of_Z 22) ∧ lg_records undone = ∅ ∧
  lg_stored again (hash_of_Z 22) ∧ ¬ lg_has_spent again (hash_of_Z 22).
Proof.
  pose proof (SequentialSpendAndCreate_spec (Spec := ledger_spec model_BtTx) (λ _, false)
    (ex_chain_tx 22 21 0) 100 ex_options) as H.
  destruct (H (ex_ledger false []) _ _ _ _ eq_refl eq_refl (ex_backed _ _) eq_refl) as (_ & _ & B1 & B2).
  destruct (H (ex_ledger true []) _ _ _ _ eq_refl eq_refl (ex_backed _ _) eq_refl) as (_ & _ & _ & B3).
  destruct (H (ex_ledger true [hash_of_Z 22]) _ _ _ _ eq_refl eq_refl (ex_backed _ _) eq_refl) as (_ & K & _ & B4).
  split; [exact B1|]. split; [exact (B2 eq_refl)|]. split; [exact (proj1 (B3 _ _ eq_refl eq_refl))|].
  split; [vm_compute; reflexivity|]. split; [|exact (proj1 (B4 _ _ eq_refl eq_refl))].
  apply K. by apply elem_of_list_to_set; left.
Defined.

Lemma resubmission_frees_inputs_witness :
  let '(_, spends, e, s') := ledger_run 22 (ex_ledger true [hash_of_Z 22]) in
  spends = None ∧ e = Some (err ERR_STORAGE_ERROR) ∧ lg_stored s' (hash_of_Z 22) ∧ ¬ lg_has_spent s' (hash_of_Z 22).
Proof.
  assert (Hst : lg_stored (ex_ledger true [hash_of_Z 22]) (TxIDChainHash (BtTx := model_BtTx) (ex_chain_tx 22 21 0))).
  { by apply elem_of_list_to_set; left. }
  destruct (resubmission_frees_inputs (Spec := ledger_spec model_BtTx) (λ _, false)
    (ex_chain_tx 22 21 0) 100 ex_options (ex_ledger true [hash_of_Z 22]) _ _ _ _ _ eq_refl eq_refl
    Hst eq_refl eq_refl eq_refl eq_refl eq_refl) as (E & H1 & H2 & _).
  unfold ledger_run. rewrite E. split; [reflexivity|]. split; [reflexivity|]. split; [exact H1|exact H2].
Defined.

Lemma checkSpendAndCreateMultiList_spec_witness :
  list_ok (BT := model_BtTx) [ex_chain_tx 21 9 0; ex_chain_tx 22 21 0] [hash_of_Z 21; hash_of_Z 22] ∧
  ¬ list_ok (BT := model_BtTx) [ex_chain_tx 22 21 0; ex_chain_tx 21 9 0] [hash_of_Z 22; hash_of_Z 21].
Proof.
  pose proof (checkSpendAndCreateMultiList_spec (BT := model_BtTx)) as H.
  pose proof (H [ex_chain_tx 21 9 0; ex_chain_tx 22 21 0] [hash_of_Z 21; hash_of_Z 22] eq_refl) as H1.
  pose proof (H [ex_chain_tx 22 21 0; ex_chain_tx 21 9 0] [hash_of_Z 22; hash_of_Z 21] eq_refl) as H2.
  split; [exact (proj1 H1)|exact (proj2 H2)].
Defined.
