(* ===== verification/SpendMultiTheorems.v ===== *)
(** * What the results of a list mean

    stores/utxo/spend_and_create_multi.go: a list written level by level, or in a
    wave of creations and a wave of spends, for any order of the calls of a round
    and wherever the caller's context ends; and that a store which spends and then
    creates, as SpendCreate has it, gives the calls their laws. *)

From stdpp Require Import list.
From S2P Require Import Prelude External Utxo UtxoSql UtxoSqlOps SpendCreate SpendCreateTheorems.

(** ** What the results of a list mean *)
Definition txid_of `{BtTx} (tx : Tx) (o : StoreOptions) : Hash :=
  default (TxIDChainHash tx) (co_TxID (so_create o)).

Definition there (e : option error) : Prop :=
  match e with None => True | Some e => error_Is e ERR_TX_EXISTS = true end.

(** A call never removes a record, and never frees what another transaction spent.
    The laws are about calls that give the transaction its own id. *)
Class MultiSpec {S} (stored present spent : S → Hash → Prop) (MS : MultiStore S) (BT : BtTx) : Prop := {
  ms_frame tx n o s md sps e s' : txid_of tx o = TxIDChainHash tx → ms_SpendAndCreate tx n o s = (md, sps, e, s') →
    (∀ h, stored s h → stored s' h) ∧
    ∀ h, h ≠ txid_of tx o → (present s' h → present s h) ∧ (spent s h → spent s' h);
  ms_whole tx n o s md sps e s' : txid_of tx o = TxIDChainHash tx → ms_SpendAndCreate tx n o s = (md, sps, e, s') →
    so_CreateOnly o = false → so_SpendOnly o = false → (present s (txid_of tx o) → spent s (txid_of tx o)) →
    there e → stored s' (txid_of tx o) ∧ spent s' (txid_of tx o);
  ms_create tx n o s md sps e s' : txid_of tx o = TxIDChainHash tx → ms_SpendAndCreate tx n o s = (md, sps, e, s') →
    so_CreateOnly o = true → so_SpendOnly o = false → there e → stored s' (txid_of tx o);
  ms_spend tx n o s md sps s' : txid_of tx o = TxIDChainHash tx → ms_SpendAndCreate tx n o s = (md, sps, None, s') →
    so_CreateOnly o = false → so_SpendOnly o = true → RequireParentOutputs (so_IgnoreFlags o) = true →
    spent s' (txid_of tx o);
}.

Definition good (r : MultiResult) : Prop :=
  mr_Status r = MultiTxCreated ∨ mr_Status r = MultiTxExisted.

Definition failing (r : MultiResult) : Prop :=
  mr_Status r = MultiTxFailed ∨ mr_Status r = MultiTxParentFailed.

Lemma failedParent_true results ps :
  failedParent results ps = true ↔ ∃ p r, p ∈ ps ∧ results !! p = Some r ∧ failing r.
Proof.
  unfold failedParent. rewrite existsb_exists. split.
  - intros (p & Hp & H). apply list_elem_of_In in Hp. destruct (results !! p) as [r|] eqn:E; [|done].
    exists p, r. split_and!; [done..|]. by apply orb_true_iff in H as [H%bool_decide_eq_true|H%bool_decide_eq_true]; [left|right].
  - intros (p & r & Hp & E & H). exists p. split; [by apply list_elem_of_In|]. rewrite E.
    apply orb_true_iff. by destruct H; [left|right]; apply bool_decide_true.
Qed.

Lemma failedParent_ext rs rs' ps : (∀ p, p ∈ ps → rs !! p = rs' !! p) →
  failedParent rs ps = failedParent rs' ps.
Proof.
  intros H. apply eq_true_iff_eq. rewrite !failedParent_true.
  by split; intros (p & r & Hp & E & Hf); exists p, r; split_and!; try done; rewrite <- E, H.
Qed.

(** What [position]-checked parents give: each is earlier in the list. *)
Definition ordered (l : MultiList) : Prop :=
  ∀ i ps p, ml_ParentsInList l !! i = Some ps → p ∈ ps → (p < i)%nat.

Section Levels.

Lemma level_of_lt level ps p k : p ∈ ps → level !! p = Some k → (k < level_of level ps)%nat.
Proof.
  intros Hp Hk. unfold level_of.
  assert (Hgen : ∀ (xs : list nat) a, (a ≤ foldl Nat.max a xs)%nat ∧ ∀ x, x ∈ xs → (x ≤ foldl Nat.max a xs)%nat).
  { induction xs as [|x xs IH]; intros a; simpl; [split; [done|by intros ? ?%elem_of_nil]|].
    destruct (IH (Nat.max a x)) as [H1 H2]. split; [lia|].
    intros y [->|Hy]%elem_of_cons; [lia|by apply H2]. }
  apply (proj2 (Hgen _ 0%nat) (S k)). apply list_elem_of_fmap. exists p. split; [|done]. by rewrite Hk.
Qed.

Lemma levels_app level parents : ∃ rest, levels level parents = level ++ rest ∧
  length rest = length parents ∧
  ∀ i ps, parents !! i = Some ps →
    rest !! i = Some (level_of (level ++ take i rest) ps).
Proof.
  revert level. induction parents as [|ps parents IH]; intros level; cbn [levels].
  { exists []. by rewrite app_nil_r. }
  destruct (IH (level ++ [level_of level ps])) as (rest & E & Hl & Hi).
  exists (level_of level ps :: rest). rewrite E, <- app_assoc. split_and!; [done|simpl; by rewrite Hl|].
  intros [|i] qs; simpl; [by intros [= ->]; rewrite app_nil_r|]. intros Hq. rewrite (Hi i qs Hq).
  by rewrite <- app_assoc.
Qed.

Lemma levels_length parents : length (levels [] parents) = length parents.
Proof. by destruct (levels_app [] parents) as (rest & -> & ? & _). Qed.

(** A parent's level is below its child's. *)
Lemma levels_lt l i ps p : ordered l → ml_ParentsInList l !! i = Some ps → p ∈ ps →
  ∃ a b, levels [] (ml_ParentsInList l) !! p = Some a ∧ levels [] (ml_ParentsInList l) !! i = Some b ∧ (a < b)%nat.
Proof.
  intros Ho Hi Hp. destruct (levels_app [] (ml_ParentsInList l)) as (rest & -> & Hl & Hlev). simpl.
  pose proof (Ho _ _ _ Hi Hp) as Hlt. pose proof (lookup_lt_Some _ _ _ Hi) as Hil.
  destruct (lookup_lt_is_Some_2 rest p) as [a Ha]; [lia|]. exists a. eexists. split_and!; [done|by apply Hlev|].
  apply (level_of_lt _ _ p); [done|]. simpl. by rewrite lookup_take_lt.
Qed.
End Levels.

Section Writing.
  Context {S : Type} {stored present spent : S → Hash → Prop} {MS : MultiStore S} {BT : BtTx}.
  Context {Spec : MultiSpec stored present spent MS BT}.
  Context (schedule : list nat → list nat) (Hschedule : ∀ l, schedule l ≡ₚ l).
  Context (ctx_done : nat → bool) (txs : list Tx) (blockHeight : Z) (l : MultiList).
  Context (Hright : ml_TxIDs l = map TxIDChainHash txs) (Hnodup : NoDup (ml_TxIDs l)).
  Context (Hlen : length (ml_ParentsInList l) = length txs) (Hord : ordered l).
  Context (Hc0 : so_CreateOnly (ml_Options l) = false) (Hs0 : so_SpendOnly (ml_Options l) = false).

Abbreviation ids := (ml_TxIDs l).
Abbreviation parents := (parents l).

Lemma Hids : length ids = length txs.
Proof. by rewrite Hright, length_map. Qed.

Lemma right_id i tx o : txs !! i = Some tx → txid_of tx o = default (TxIDChainHash tx) (ids !! i) →
  txid_of tx o = TxIDChainHash tx.
Proof. intros Ht ->. rewrite Hright. change (map ?f ?x) with (f <$> x). by rewrite list_lookup_fmap, Ht. Qed.

(** The transactions of the list a call's transaction depends on are stored;
    a call that only creates needs none of them. *)
Definition ready (i : nat) (o : StoreOptions) (s : S) : Prop :=
  so_CreateOnly o = true ∨ ∀ p h, p ∈ parents i → ids !! p = Some h → stored s h.

(** The transactions written by one call that spends and creates. *)
Context (whole : nat → Prop).

(** Any property of the store that ready calls keep. *)
Context (I : S → Prop).
Context (HI : ∀ i tx o s md sps e s', txs !! i = Some tx → ids !! i = Some (txid_of tx o) →
  ready i o s → I s → ms_SpendAndCreate tx blockHeight o s = (md, sps, e, s') → I s').

(** [D]: the transactions whose inputs a good result answers for. *)
Record sound (D : nat → Prop) (w : writing) : Prop := {
  sd_len : length (wr_results w) = length txs;
  sd_keep : I (wr_store w);
  sd_good i h r : ids !! i = Some h → wr_results w !! i = Some r → good r →
    stored (wr_store w) h ∧ (D i → spent (wr_store w) h);
}.

(** A transaction no call was made for yet is as it was found: if a record of it is
    there, or on its way, its inputs are spent. *)
Definition untouched (w : writing (S := S)) : Prop :=
  ∀ i h, whole i → ids !! i = Some h → wr_results w !! i = Some not_attempted →
    present (wr_store w) h → spent (wr_store w) h.

Definition good_at (w : writing (S := S)) (p : nat) : Prop := ∃ r, wr_results w !! p = Some r ∧ good r.

Lemma sound_ready D w i o : sound D w → (so_CreateOnly o = true ∨ ∀ p, p ∈ parents i → good_at w p) →
  ready i o (wr_store w).
Proof.
  intros Hs [?|H]; [by left|right]. intros p h Hp Hh. destruct (H p Hp) as (r & Hr & Hg).
  by eapply (sd_good _ _ Hs).
Qed.

(** What a call may answer. *)
Definition answers_well (D : nat → Prop) (o : StoreOptions)
    (ans : MultiResult → option Data → Spends → option error → MultiResult) (i : nat) (w : writing) : Prop :=
  ∀ tx md sps e s', txs !! i = Some tx → txid_of tx o = default (TxIDChainHash tx) (ids !! i) →
    ms_SpendAndCreate tx blockHeight o (wr_store w) = (md, sps, e, s') →
    ∀ r, wr_results w !! i = Some r → good (ans r md sps e) →
    stored s' (txid_of tx o) ∧ (D i → spent s' (txid_of tx o)).

Lemma call_sound D D' i o ans w :
  (∀ tx, txs !! i = Some tx → txid_of tx o = default (TxIDChainHash tx) (ids !! i)) →
  ready i o (wr_store w) →
  (∀ j, j ≠ i → D' j → D j) → answers_well D' o ans i w → sound D w →
  sound D' (call txs blockHeight i o ans w) ∨ (txs !! i = None ∧ call txs blockHeight i o ans w = w).
Proof.
  intros Hid Hr HD Ha Hs. unfold call. destruct (txs !! i) as [tx|] eqn:Et; [left|by right].
  specialize (Hid _ eq_refl).
  destruct (ms_SpendAndCreate tx blockHeight o (wr_store w)) as [[[md sps] e] s'] eqn:E.
  destruct (ids !! i) as [h|] eqn:Eh.
  2: { pose proof Hids. apply lookup_lt_Some in Et. apply lookup_ge_None in Eh. lia. }
  pose proof (right_id i tx o Et) as Hown. rewrite Eh in Hown.
  cbn in Hid, Hown. pose proof (ms_frame _ _ _ _ _ _ _ _ (Hown Hid) E) as [F1 F2]. rewrite Hid in F2.
  assert (Hoth : ∀ j k, j ≠ i → ids !! j = Some k → k ≠ h).
  { intros j k Hne Hj ->. apply Hne. by eapply NoDup_lookup. }
  split; cbn.
  - rewrite length_alter. apply Hs.
  - eapply (HI i tx o); [done|by rewrite Hid|done|by apply Hs|exact E].
  - intros j k r Hj Hrj Hg. destruct (decide (j = i)) as [->|Hne].
    + assert (k = h) as -> by congruence. rewrite list_lookup_alter_eq in Hrj.
      apply fmap_Some in Hrj as (r0 & E0 & ->). rewrite <- Hid. eapply Ha; [done| |exact E|exact E0|done]. by rewrite Hid, Eh.
    + rewrite list_lookup_alter_ne in Hrj by done. destruct (sd_good _ _ Hs _ _ _ Hj Hrj Hg) as [H1 H2].
      split; [by apply F1|]. intros HDj. apply F2; [by eapply Hoth|by apply H2, HD].
Qed.

Lemma call_untouched i o ans w :
  (∀ tx, txs !! i = Some tx → txid_of tx o = default (TxIDChainHash tx) (ids !! i)) →
  (∀ r md sps e, mr_Status (ans r md sps e) ≠ MultiTxNotAttempted) →
  untouched w → untouched (call txs blockHeight i o ans w).
Proof.
  intros Hid Ha Hw. unfold call. destruct (txs !! i) as [tx|] eqn:Et; [|done].
  specialize (Hid _ eq_refl).
  destruct (ms_SpendAndCreate tx blockHeight o (wr_store w)) as [[[md sps] e] s'] eqn:E.
  pose proof (ms_frame _ _ _ _ _ _ _ _ (right_id i tx o Et Hid) E) as [_ F].
  intros j k Hj Hk. cbn. destruct (decide (j = i)) as [->|Hne].
  { rewrite list_lookup_alter_eq. intros (r & _ & Hr)%fmap_Some. by destruct (Ha r md sps e); rewrite <- Hr. }
  rewrite list_lookup_alter_ne by done. intros Hr.
  assert (k ≠ txid_of tx o) as Hoth.
  { intros ->. apply Hne. eapply NoDup_lookup; [done..|]. rewrite Hid.
    destruct (ids !! i) eqn:Ei; [done|]. pose proof Hids. apply lookup_ge_None in Ei. apply lookup_lt_Some in Et. lia. }
  intros Hp. apply F; [done|]. apply (Hw j k Hj Hk Hr). by apply F.
Qed.

Lemma call_others i o ans w j : j ≠ i →
  wr_results (call txs blockHeight i o ans w) !! j = wr_results w !! j.
Proof.
  intros Hj. unfold call. destruct (txs !! i); [|done].
  destruct (ms_SpendAndCreate _ _ _ _) as [[[md sps] e] s']. simpl. by rewrite list_lookup_alter_ne.
Qed.

Lemma call_own i o ans w tx : txs !! i = Some tx →
  ∃ md sps e, wr_results (call txs blockHeight i o ans w) !! i =
              (λ r, ans r md sps e) <$> wr_results w !! i.
Proof.
  intros Ht. unfold call. rewrite Ht. destruct (ms_SpendAndCreate _ _ _ _) as [[[md sps] e] s']. simpl.
  exists md, sps, e. by rewrite list_lookup_alter_eq.
Qed.

Lemma item_option_id i tx : txs !! i = Some tx →
  txid_of tx (item_option l i) = default (TxIDChainHash tx) (ids !! i).
Proof. done. Qed.

Lemma answer_good md sps e : good (answer md sps e) → there e.
Proof. unfold answer, good, there. destruct e as [e|]; [|done]. destruct (error_Is e ERR_TX_EXISTS); naive_solver. Qed.

Lemma answer_status md sps e : mr_Status (answer md sps e) ≠ MultiTxNotAttempted ∧
  mr_Status (answer md sps e) ≠ MultiTxParentFailed.
Proof. unfold answer. destruct e as [e|]; [|done]. by destruct (error_Is e ERR_TX_EXISTS). Qed.

(** ** Level by level *)
Lemma whole_answers_well D i w : whole i → untouched w → wr_results w !! i = Some not_attempted →
  answers_well D (item_option l i) (λ _, answer) i w.
Proof.
  intros Hwh Hu Hna tx md sps e s' Ht Hid E r Hr Hg%answer_good.
  destruct (ms_whole _ _ _ _ _ _ _ _ (right_id _ _ _ Ht Hid) E Hc0 Hs0) as [H1 H2]; [|done|auto].
  apply (Hu i); [done| |done]. rewrite Hid.
  destruct (ids !! i) eqn:Ei; [done|]. pose proof Hids. apply lookup_ge_None in Ei. apply lookup_lt_Some in Ht. lia.
Qed.

Lemma calls_sound js w : NoDup js → sound (λ _, True) w → untouched w →
  (∀ j, j ∈ js → whole j ∧ wr_results w !! j = Some not_attempted) →
  (∀ j, j ∈ js → is_Some (txs !! j) ∧ ∀ p, p ∈ parents j → p ∉ js ∧ good_at w p) →
  let w' := foldl (λ w i, call txs blockHeight i (item_option l i) (λ _, answer) w) w js in
  sound (λ _, True) w' ∧ untouched w' ∧
  (∀ x, x ∉ js → wr_results w' !! x = wr_results w !! x) ∧
  ∀ j, j ∈ js → ∃ r, wr_results w' !! j = Some r ∧ mr_Status r ≠ MultiTxNotAttempted ∧
    mr_Status r ≠ MultiTxParentFailed.
Proof.
  revert w. induction js as [|j js IH]; intros w Hn Hs Hu Hwh Hr; cbn [foldl].
  { split_and!; [done|done|done|by intros ? ?%elem_of_nil]. }
  apply NoDup_cons in Hn as [Hj Hn]. destruct (Hr j) as [[tx Ht] Hpar]; [by left|].
  destruct (Hwh j) as [Hj1 Hj2]; [by left|].
  set (w1 := call txs blockHeight j (item_option l j) (λ _, answer) w).
  assert (Hs1 : sound (λ _, True) w1).
  { destruct (call_sound (λ _, True) (λ _, True) j (item_option l j) (λ _, answer) w) as [?|[? _]];
      [by intros; apply item_option_id| |done|by apply whole_answers_well|done|done|].
    { eapply sound_ready; [done|]. right. intros p Hp. by apply Hpar. }
    congruence. }
  assert (Hu1 : untouched w1) by (apply call_untouched; [done|intros; apply answer_status|done]).
  specialize (IH w1 Hn Hs1 Hu1). cbv zeta in IH. destruct IH as (A & A' & B & C).
  { intros k Hk. unfold w1. rewrite call_others by (by intros ->). apply Hwh. by right. }
  { intros k Hk. destruct (Hr k) as [Hk1 Hk2]; [by right|]. split; [done|]. intros p Hp.
    destruct (Hk2 p Hp) as [Hpn (r & Hr1 & Hg)]. apply not_elem_of_cons in Hpn as [Hpj Hpn].
    split; [done|]. exists r. split; [|done]. unfold w1. by rewrite call_others. }
  split_and!; [done|done| |].
  - intros x Hx. apply not_elem_of_cons in Hx as [Hxj Hx]. rewrite B by done. unfold w1. by rewrite call_others.
  - intros k [->|Hk]%elem_of_cons; [|by apply C]. rewrite B by done.
    destruct (call_own j (item_option l j) (λ _, answer) w tx Ht) as (md & sps & e & E).
    unfold w1. rewrite E.
    destruct (lookup_lt_is_Some_2 (wr_results w) j) as [r Er].
    { rewrite (sd_len _ _ Hs). by eapply lookup_lt_Some. }
    rewrite Er. eexists. split; [done|]. apply answer_status.
Qed.
Lemma mark_failed_from members results ms rs x : ms ⊆ members →
  (∀ i p, i ∈ members → p ∈ parents i → p ∉ members) →
  (∀ y, y ∉ members → rs !! y = results !! y) → length rs = length txs →
  foldl (λ rs i, if failedParent rs (parents i) then <[i := parent_failed]> rs else rs) rs ms !! x =
  if decide (x ∈ ms ∧ failedParent results (parents x) = true ∧ (x < length txs)%nat)
  then Some parent_failed else rs !! x.
Proof.
  intros Hsub Hpar. revert rs. induction ms as [|i ms IH]; intros rs Hrs Hl; cbn [foldl].
  { rewrite decide_False; [done|]. by intros [?%elem_of_nil _]. }
  assert (Hi : i ∈ members) by (apply Hsub; by left).
  assert (Hsub' : ms ⊆ members) by (intros y Hy; apply Hsub; by right).
  assert (Hf : failedParent rs (parents i) = failedParent results (parents i)).
  { apply failedParent_ext. intros p Hp. apply Hrs. by eapply Hpar. }
  rewrite IH; [|exact Hsub'| |by (destruct (failedParent rs (parents i)); rewrite ?length_insert)].
  2: { intros y Hy. rewrite <- Hrs by done. destruct (failedParent rs (parents i)); [|done].
       apply list_lookup_insert_ne. by intros ->. }
  rewrite Hf. destruct (failedParent results (parents i)) eqn:E.
  - destruct (decide (x = i)) as [->|Hne].
    + destruct (decide (i < length txs)%nat) as [Hlt|Hge].
      * rewrite (decide_True (P := i ∈ i :: ms ∧ _)) by (split_and!; [by left|done..]).
        case_decide; [done|]. apply list_lookup_insert_eq. lia.
      * rewrite !decide_False by (by intros (_ & _ & ?)). rewrite list_insert_ge by lia. done.
    + rewrite list_lookup_insert_ne by done. apply decide_ext. rewrite elem_of_cons.
      split; [tauto|]. intros ([?|?] & ? & ?); [congruence|done].
  - apply decide_ext. rewrite elem_of_cons. split; [tauto|].
    intros ([->|?] & ? & ?); [congruence|done].
Qed.

Abbreviation level := (levels [] (ml_ParentsInList l)).

Record level_inv (k : nat) (w : writing (S := S)) : Prop := {
  li_sound : sound (λ _, True) w;
  li_untouched : untouched w;
  li_done j lv r : level !! j = Some lv → wr_results w !! j = Some r →
    ((lv < k)%nat → mr_Status r ≠ MultiTxNotAttempted) ∧ ((k ≤ lv)%nat → r = not_attempted);
  li_failed i r : wr_results w !! i = Some r → mr_Status r = MultiTxParentFailed →
    ∃ p r', p ∈ parents i ∧ wr_results w !! p = Some r' ∧ failing r';
}.

Lemma members_elem k j : j ∈ members_of level k ↔ level !! j = Some k.
Proof.
  unfold members_of. rewrite list_elem_of_filter, elem_of_seq. split; [tauto|].
  intros H. split; [done|]. apply lookup_lt_Some in H. lia.
Qed.

Lemma parents_level i p : p ∈ parents i → ∃ a b, level !! p = Some a ∧ level !! i = Some b ∧ (a < b)%nat.
Proof.
  unfold SpendCreate.parents. destruct (ml_ParentsInList l !! i) as [ps|] eqn:E; [|by intros ?%elem_of_nil].
  intros Hp. by eapply levels_lt.
Qed.

Lemma parents_apart k i p : i ∈ members_of level k → p ∈ parents i → p ∉ members_of level k.
Proof.
  rewrite !members_elem. intros Hi Hp Hpk. destruct (parents_level _ _ Hp) as (a & b & ? & ? & ?).
  simplify_eq. lia.
Qed.
(** ** One level: the skipped, then the calls *)
Section Level.
  Context (k : nat) (w : writing (S := S)) (Hw : level_inv k w).

Abbreviation members := (members_of level k).
Abbreviation marked := (mark_failed l members (wr_results w)).

Definition runnable : list nat :=
  filter (λ i, failedParent (wr_results w) (parents i) = false) members.

Lemma elem_of_runnable j : j ∈ runnable ↔ j ∈ members ∧ failedParent (wr_results w) (parents j) = false.
Proof. unfold runnable. rewrite list_elem_of_filter. tauto. Qed.

Lemma marked_lookup x : marked !! x =
  if decide (x ∈ members ∧ failedParent (wr_results w) (parents x) = true ∧ (x < length txs)%nat)
  then Some parent_failed else wr_results w !! x.
Proof.
  apply (mark_failed_from members); [done| |done|apply (sd_len _ _ (li_sound _ _ Hw))].
  intros i p. apply parents_apart.
Qed.

Lemma marked_length : length marked = length txs.
Proof.
  rewrite <- (sd_len _ _ (li_sound _ _ Hw)). unfold mark_failed.
  generalize (wr_results w). generalize members. intros ms. induction ms as [|m ms IH]; intros r0; [done|].
  simpl. rewrite IH. by destruct (failedParent _ _); rewrite ?length_insert.
Qed.

Lemma level_lt j lv : level !! j = Some lv → (j < length txs)%nat.
Proof. intros H%lookup_lt_Some. rewrite levels_length in H. lia. Qed.

Lemma marked_failing p r : wr_results w !! p = Some r → failing r →
  ∃ r', marked !! p = Some r' ∧ failing r'.
Proof.
  intros Hp Hf. rewrite marked_lookup. case_decide; [|by eauto].
  exists parent_failed. split; [done|by right].
Qed.

Lemma marked_sound : sound (λ _, True) (mkWriting (wr_store w) marked (wr_calls w)).
Proof.
  destruct Hw as [Hs _ _ _]. split; cbn; [apply marked_length|apply Hs|].
  intros i h r Hi Hr Hg. rewrite marked_lookup in Hr. case_decide; [|by eapply (sd_good _ _ Hs)].
  injection Hr as <-. by destruct Hg.
Qed.

Lemma marked_untouched : untouched (mkWriting (wr_store w) marked (wr_calls w)).
Proof.
  intros i h Hi Hh Hr. cbn in Hr. rewrite marked_lookup in Hr. case_decide; [done|].
  by eapply (li_untouched _ _ Hw).
Qed.

Lemma runnable_attempted j : j ∈ runnable → marked !! j = Some not_attempted.
Proof.
  intros [Hj Hf]%elem_of_runnable. rewrite marked_lookup, decide_False by (intros (_ & ? & _); congruence).
  apply members_elem in Hj. destruct (lookup_lt_is_Some_2 (wr_results w) j) as [r Er].
  { rewrite (sd_len _ _ (li_sound _ _ Hw)). by eapply level_lt. }
  rewrite Er. f_equal. by eapply (li_done _ _ Hw).
Qed.

(** The parents of a member were decided in earlier levels; those of a runnable
    member are good. *)
Lemma runnable_parents j p : j ∈ runnable → p ∈ parents j →
  p ∉ members ∧ good_at (mkWriting (wr_store w) marked (wr_calls w)) p.
Proof.
  intros [Hjm Hjf]%elem_of_runnable Hp. pose proof (parents_apart k j p Hjm Hp) as Hpm. split; [done|].
  destruct (parents_level _ _ Hp) as (a & b & Ha & Hb & Hab).
  apply members_elem in Hjm. assert (b = k) as -> by congruence.
  destruct (lookup_lt_is_Some_2 (wr_results w) p) as [r Er].
  { rewrite (sd_len _ _ (li_sound _ _ Hw)). by eapply level_lt. }
  exists r. split; [cbn; rewrite marked_lookup, decide_False; [done|tauto]|].
  destruct (li_done _ _ Hw _ _ _ Ha Er) as [Hna _]. specialize (Hna Hab).
  destruct (mr_Status r) eqn:Est; [done|by left|by right|exfalso..];
    assert (failedParent (wr_results w) (parents j) = true) as Ht
      by (apply failedParent_true; exists p, r; split_and!; [done..|]; first [by left|by right]); congruence.
Qed.

Lemma write_level_step : (∀ i, whole i) →
  level_inv (Datatypes.S k) (write_level schedule txs blockHeight l members w).
Proof.
  intros Hwh.
  destruct (calls_sound (schedule runnable) (mkWriting (wr_store w) marked (wr_calls w))) as (A & A' & B & C).
  { rewrite Hschedule. apply NoDup_filter, NoDup_filter, NoDup_seq. }
  { apply marked_sound. }
  { apply marked_untouched. }
  { intros j Hj. rewrite Hschedule in Hj. split; [done|]. by apply runnable_attempted. }
  { intros j Hj. rewrite Hschedule in Hj. split.
    - apply elem_of_runnable in Hj as [Hj _]. apply members_elem in Hj.
      apply lookup_lt_is_Some. by eapply level_lt.
    - intros p Hp. destruct (runnable_parents j p Hj Hp) as [Hpm Hg]. split; [|done].
      rewrite Hschedule, elem_of_runnable. tauto. }
  unfold write_level. fold runnable.
  set (w' := foldl _ _ _) in *.
  assert (B' : ∀ x, x ∉ runnable → wr_results w' !! x = marked !! x)
    by (intros x Hx; rewrite B; [done|by rewrite Hschedule]).
  split; [done|done| |].
  - intros j lv r Hj Hr. destruct (decide (j ∈ runnable)) as [Hjr|Hjr].
    + destruct (C j) as (r' & Er & H1 & H2); [by rewrite Hschedule|]. rewrite Er in Hr. injection Hr as <-.
      apply elem_of_runnable in Hjr as [Hjm _]. apply members_elem in Hjm.
      split; [done|]. intros. simplify_eq. lia.
    + rewrite (B' j Hjr), marked_lookup in Hr. case_decide as Hm.
      * injection Hr as <-. destruct Hm as [Hm _]. apply members_elem in Hm.
        split; [done|]. intros. simplify_eq. lia.
      * destruct (li_done _ _ Hw _ _ _ Hj Hr) as [H1 H2]. split; intros Hk; [|apply H2; lia].
        destruct (decide (lv = k)) as [->|]; [|apply H1; lia]. exfalso. apply Hm.
        split_and!; [by apply members_elem| |by eapply level_lt]. apply not_false_iff_true.
        intros Hff. apply Hjr, elem_of_runnable. split; [by apply members_elem|done].
  - intros i r Hr Hst. destruct (decide (i ∈ runnable)) as [Hir|Hir].
    { destruct (C i) as (r' & Er & _ & H2); [by rewrite Hschedule|]. congruence. }
    rewrite (B' i Hir), marked_lookup in Hr.
    assert (∃ p r', p ∈ parents i ∧ p ∉ runnable ∧ wr_results w !! p = Some r' ∧ failing r')
      as (p & r' & Hp & Hpr & Er & Hfr); [|destruct (marked_failing p r' Er Hfr) as (r'' & ? & ?);
        exists p, r''; by rewrite B'].
    case_decide as Hm.
    + destruct Hm as (Hm & (p & r' & Hp & Er & Hfr)%failedParent_true & _). exists p, r'. split_and!; [done| |done..].
      rewrite elem_of_runnable. intros [? _]. by apply (parents_apart k i p).
    + destruct (li_failed _ _ Hw _ _ Hr Hst) as (p & r' & Hp & Er & Hfr). exists p, r'. split_and!; [done| |done..].
      rewrite elem_of_runnable. intros [Hpk _]. apply members_elem in Hpk.
      destruct (li_done _ _ Hw _ _ _ Hpk Er) as [_ H2]. rewrite H2 in Hfr by done. by destruct Hfr.
Qed.
End Level.

Lemma write_levels_inv n k w e w' : (∀ i, whole i) → level_inv k w →
  write_levels schedule ctx_done txs blockHeight l (map (members_of level) (seq k n)) w = (e, w') →
  ∃ k', level_inv k' w' ∧ (e = None → k' = (k + n)%nat).
Proof.
  intros Hwh. revert k w. induction n as [|n IH]; intros k w Hw; cbn [seq map write_levels].
  { intros [= <- <-]. exists k. split; [done|]. intros _. lia. }
  destruct (ctx_done (wr_calls w)); [intros [= <- <-]; by exists k|].
  intros E. apply IH in E as (k' & ? & Hk); [|by apply write_level_step].
  exists k'. split; [done|]. intros He. rewrite Hk by done. lia.
Qed.

(** What a whole list's results mean. *)
Record list_sound (e : option error) (w : writing (S := S)) : Prop := {
  ls_sound : sound (λ _, True) w;
  ls_failed i r : wr_results w !! i = Some r → mr_Status r = MultiTxParentFailed →
    ∃ p r', p ∈ parents i ∧ wr_results w !! p = Some r' ∧ failing r';
  ls_attempted i r : e = None → wr_results w !! i = Some r → mr_Status r ≠ MultiTxNotAttempted;
}.

Lemma fresh_lookup i r : fresh_results txs !! i = Some r → r = not_attempted.
Proof. unfold fresh_results. intros [? _]%lookup_replicate. done. Qed.

Lemma fresh_sound D s n : I s → sound D (mkWriting s (fresh_results txs) n).
Proof.
  intros Hs. split; cbn; [apply length_replicate|done|].
  intros i h r _ ->%fresh_lookup Hg. by destruct Hg.
Qed.

(** What is already there, of a transaction one call is to write, has its inputs. *)
Definition whole_before (s : S) : Prop :=
  ∀ i h, whole i → ids !! i = Some h → present s h → spent s h.

Lemma write_by_level_sound s e w : (∀ i, whole i) → whole_before s → I s →
  write_by_level schedule ctx_done txs blockHeight l s = (e, w) → list_sound e w.
Proof.
  intros Hwh Hb Hs E. unfold write_by_level in E.
  assert (H0 : level_inv 0 (mkWriting s (fresh_results txs) 0)).
  { split; cbn; [by apply fresh_sound|by intros i h Hi Hh _; apply (Hb i)| |].
    - intros j lv r _ ->%fresh_lookup. split; [lia|done].
    - by intros i r ->%fresh_lookup. }
  apply (write_levels_inv _ _ _ _ _ Hwh H0) in E as (k & [A _ B C] & Hk). split; [done|done|].
  intros i r He Hr. destruct (lookup_lt_is_Some_2 level i) as [lv Hlv].
  { rewrite levels_length, Hlen, <- (sd_len _ _ A). by eapply lookup_lt_Some. }
  apply (B i lv r Hlv Hr). rewrite (Hk He).
  assert (Hmax : ∀ (xs : list nat) a x, x ∈ xs → (x ≤ foldl Nat.max a xs)%nat).
  { assert (Hge : ∀ (xs : list nat) a, (a ≤ foldl Nat.max a xs)%nat).
    { induction xs as [|y xs IH]; intros a; simpl; [done|]. specialize (IH (Nat.max a y)). lia. }
    induction xs as [|y xs IH]; intros a x; simpl; [by intros ?%elem_of_nil|].
    intros [->|Hx]%elem_of_cons; [|by apply IH]. specialize (Hge xs (Nat.max a y)). lia. }
  specialize (Hmax level 0%nat lv). rewrite list_elem_of_lookup in Hmax. specialize (Hmax (ex_intro _ i Hlv)). lia.
Qed.

(** ** Two waves *)
Lemma run_wave_inv (P : list nat → list nat → writing (S := S) → Prop) (all : list nat) run todo done sk w sk' w' :
  P done sk w → todo ⊆ all → NoDup (done ++ todo) →
  (∀ done sk w i, i ∈ all → i ∉ done → P done sk w → P (done ++ [i]) sk (run i w)) →
  (∀ done sk w i, i ∈ all → P done sk w → P done (sk ++ [i]) w) →
  run_wave ctx_done todo run sk w = (sk', w') →
  ∃ done', P done' sk' w' ∧ sk ⊆ sk' ∧ ∀ i, i ∈ done ++ todo → i ∈ done' ∨ i ∈ sk'.
Proof.
  intros HP Hsub Hn Hrun Hskip. revert done sk w HP Hn.
  induction todo as [|i todo IH]; intros done sk w HP Hn; cbn [run_wave].
  { intros [= <- <-]. exists done. rewrite app_nil_r. split_and!; [done|done|auto]. }
  assert (Hi : i ∈ all) by (apply Hsub; by left).
  assert (Hsub' : todo ⊆ all) by (intros y Hy; apply Hsub; by right).
  destruct (ctx_done (wr_calls w)); intros E.
  - apply (IH Hsub' done) in E as (d & HPd & Hs & Hc); [|by apply Hskip|].
    2: { apply NoDup_app in Hn as (H1 & H2 & H3%NoDup_cons). apply NoDup_app. split_and!; [done| |tauto].
         intros x Hx Hx2. apply (H2 x Hx). by right. }
    exists d. split_and!; [done|intros x Hx; apply Hs, elem_of_app; by left|].
    intros x. rewrite elem_of_app, elem_of_cons. intros [Hx|[->|Hx]].
    + apply Hc, elem_of_app. by left.
    + right. apply Hs, elem_of_app. right. by left.
    + apply Hc, elem_of_app. by right.
  - assert (Hni : i ∉ done).
    { intros Hd. apply NoDup_app in Hn as (_ & H2 & _). apply (H2 i Hd). by left. }
    apply (IH Hsub' (done ++ [i])) in E as (d & HPd & Hs & Hc); [|by apply Hrun|by rewrite <- app_assoc].
    exists d. split_and!; [done|done|]. intros x Hx. apply Hc. by rewrite <- app_assoc.
Qed.

Lemma parents_lt i p : p ∈ parents i → (p < i)%nat.
Proof.
  unfold SpendCreate.parents. destruct (ml_ParentsInList l !! i) as [ps|] eqn:E; [|by intros ?%elem_of_nil].
  intros Hp. by eapply Hord.
Qed.

(** A member's verdict once its ancestors have theirs. *)
Definition settled_as (rs : list MultiResult) (i : nat) (r : MultiResult) : MultiResult :=
  if bool_decide (mr_Status r = MultiTxFailed) then r
  else if failedParent rs (parents i) then parent_failed else r.

Lemma mark_descendants_from (rs0 rs : list MultiResult) k m : (k + m ≤ length txs)%nat →
  length rs = length txs → length rs0 = length txs →
  (∀ i, (k ≤ i)%nat → rs !! i = rs0 !! i) →
  (∀ i r, (i < k)%nat → rs0 !! i = Some r → rs !! i = Some (settled_as rs i r)) →
  let rs' := foldl (λ rs i, if default true (status_is MultiTxFailed <$> rs !! i) then rs
                 else if failedParent rs (parents i) then <[i := parent_failed]> rs else rs) rs (seq k m) in
  length rs' = length txs ∧ (∀ i, (k + m ≤ i)%nat → rs' !! i = rs0 !! i) ∧
  ∀ i r, (i < k + m)%nat → rs0 !! i = Some r → rs' !! i = Some (settled_as rs' i r).
Proof.
  revert k rs. induction m as [|m IH]; intros k rs Hkm Hl Hl0 Hge Hlt; cbn [seq foldl].
  { rewrite Nat.add_0_r. by split_and!. }
  set (rs1 := if default true _ then rs else _).
  destruct (lookup_lt_is_Some_2 rs0 k) as [r0 Hr0]; [lia|].
  assert (Hk : rs !! k = Some r0) by (rewrite <- Hr0; by apply Hge).
  assert (E1 : rs1 = <[k := settled_as rs k r0]> rs).
  { unfold rs1, settled_as. rewrite Hk. cbn. unfold status_is. case_bool_decide; [by rewrite list_insert_id|].
    destruct (failedParent _ _); [done|]. by rewrite list_insert_id. }
  assert (Hfp : ∀ j, (j ≤ k)%nat → failedParent rs1 (parents j) = failedParent rs (parents j)).
  { intros j Hj. apply failedParent_ext. intros p Hp. apply parents_lt in Hp. rewrite E1.
    apply list_lookup_insert_ne. lia. }
  rewrite <- Nat.add_succ_comm. apply (IH (Datatypes.S k) rs1); [lia|by rewrite E1, length_insert|done| |].
  - intros i Hi. rewrite E1, list_lookup_insert_ne by lia. apply Hge. lia.
  - intros i r Hi Hr. unfold settled_as. rewrite Hfp by lia. fold (settled_as rs i r).
    destruct (decide (i = k)) as [->|Hne].
    + assert (r = r0) as -> by congruence. rewrite E1. apply list_lookup_insert_eq. lia.
    + rewrite E1, list_lookup_insert_ne by lia. apply Hlt; [lia|done].
Qed.

Lemma mark_descendants_spec rs0 : length rs0 = length txs →
  let rs := mark_descendants txs l rs0 in
  length rs = length txs ∧ ∀ i r, rs0 !! i = Some r → rs !! i = Some (settled_as rs i r).
Proof.
  intros Hl. destruct (mark_descendants_from rs0 rs0 0 (length txs)) as (H1 & H2 & H3); [done..|lia|].
  split; [done|]. intros i r Hr. apply H3; [|done]. rewrite <- Hl. by eapply lookup_lt_Some.
Qed.

(** The first wave. *)
Definition no_parents (i : nat) : Prop := parents i = [].

Record first_inv (done : list nat) (w : writing (S := S)) : Prop := {
  fi_sound : sound no_parents w;
  fi_untouched : untouched w;
  fi_rest i : i ∉ done → (i < length txs)%nat → wr_results w !! i = Some not_attempted;
  fi_status i r : wr_results w !! i = Some r → mr_Status r ≠ MultiTxParentFailed;
  fi_done i r : i ∈ done → wr_results w !! i = Some r → mr_Status r ≠ MultiTxNotAttempted;
}.

Lemma create_only_id i tx : txid_of tx (create_only (item_option l i)) = default (TxIDChainHash tx) (ids !! i).
Proof. done. Qed.

Lemma first_call_inv done w i : (∀ i, parents i = [] → whole i) → (i < length txs)%nat → i ∉ done →
  first_inv done w → first_inv (done ++ [i]) (first_call txs blockHeight l i w).
Proof.
  intros Hwh Hlt Hni [A U R B C]. pose proof Hlt as [tx Ht]%lookup_lt_is_Some_2.
  assert (∃ o ans, first_call txs blockHeight l i w = call txs blockHeight i o ans w ∧
    (∀ r md sps e, mr_Status (ans r md sps e) ≠ MultiTxNotAttempted ∧ mr_Status (ans r md sps e) ≠ MultiTxParentFailed) ∧
    (∀ tx, txs !! i = Some tx → txid_of tx o = default (TxIDChainHash tx) (ids !! i)) ∧
    sound no_parents (call txs blockHeight i o ans w)) as (o & ans & -> & Hans & Hid & Hs).
  { unfold first_call. case_bool_decide as Hp.
    - exists (item_option l i), (λ _, answer). split_and!; [done|intros; apply answer_status|done|].
      destruct (call_sound no_parents no_parents i (item_option l i) (λ _, answer) w) as [?|[? _]];
        [done| |done|apply whole_answers_well; auto|done|done|congruence].
      right. intros p h Hpi. rewrite Hp in Hpi. by apply elem_of_nil in Hpi.
    - exists (create_only (item_option l i)), (λ _ md _ e, answer md None e).
      split_and!; [done|intros; apply answer_status|done|].
      destruct (call_sound no_parents no_parents i (create_only (item_option l i))
        (λ _ md _ e, answer md None e) w) as [?|[? _]]; [done|by left|done| |done|done|congruence].
      intros tx' md sps e s' Ht' Hid E r Hr Hg%answer_good. split; [|done].
      by eapply (ms_create _ _ _ _ _ _ _ _ (right_id _ _ _ Ht' Hid) E). }
  split; [done|apply call_untouched; [done|intros; apply Hans|done]| | |].
  - intros j [Hj Hji]%not_elem_of_app Hjl. rewrite list_elem_of_singleton in Hji.
    rewrite call_others by done. by apply R.
  - intros j r. destruct (decide (j = i)) as [->|Hne]; [|rewrite call_others by done; apply B].
    destruct (call_own i o ans w tx Ht) as (md & sps & e & ->). intros (r0 & _ & ->)%fmap_Some. apply Hans.
  - intros j r [Hj|Hj%list_elem_of_singleton]%elem_of_app.
    + destruct (decide (j = i)) as [->|Hne]; [|rewrite call_others by done; by apply C].
      destruct (call_own i o ans w tx Ht) as (md & sps & e & ->). intros (r0 & _ & ->)%fmap_Some. apply Hans.
    + subst j. destruct (call_own i o ans w tx Ht) as (md & sps & e & ->). intros (r0 & _ & ->)%fmap_Some. apply Hans.
Qed.

Lemma parents_bound i p : p ∈ parents i → (p < length txs)%nat.
Proof.
  intros Hp. pose proof (parents_lt i p Hp). unfold SpendCreate.parents in Hp.
  destruct (ml_ParentsInList l !! i) eqn:E; [|by apply elem_of_nil in Hp].
  apply lookup_lt_Some in E. lia.
Qed.

Section SecondWave.
  Context (w0 : writing (S := S)) (Hw0 : first_inv (seq 0 (length txs)) w0).

Abbreviation settled := (mark_descendants txs l (wr_results w0)).

Lemma settled_length : length settled = length txs.
Proof. apply mark_descendants_spec, Hw0. Qed.

(** A result of the first wave and what the descendants' marking makes of it. *)
Lemma settled_cases i r : settled !! i = Some r → ∃ r0, wr_results w0 !! i = Some r0 ∧
  (mr_Status r0 = MultiTxFailed ∧ r = r0 ∨ mr_Status r0 ≠ MultiTxFailed ∧
   (failedParent settled (parents i) = true ∧ r = parent_failed ∨
    failedParent settled (parents i) = false ∧ r = r0 ∧ good r)).
Proof.
  intros Hr. destruct (lookup_lt_is_Some_2 (wr_results w0) i) as [r0 Hr0].
  { rewrite (sd_len _ _ (fi_sound _ _ Hw0)), <- settled_length. by eapply lookup_lt_Some. }
  exists r0. split; [done|]. destruct (mark_descendants_spec (wr_results w0)) as [_ H]; [apply Hw0|].
  rewrite (H _ _ Hr0) in Hr. injection Hr as <-. unfold settled_as.
  case_bool_decide as Hf; [by left|right]. split; [done|].
  destruct (failedParent settled (parents i)) eqn:E; [by left|right]. split_and!; [done..|].
  pose proof (fi_status _ _ Hw0 _ _ Hr0). assert (mr_Status r0 ≠ MultiTxNotAttempted).
  { eapply (fi_done _ _ Hw0 i); [|done]. apply elem_of_seq. apply lookup_lt_Some in Hr0.
    rewrite (sd_len _ _ (fi_sound _ _ Hw0)) in Hr0. lia. }
  unfold good. destruct (mr_Status r0); try done; by auto.
Qed.

Lemma settled_sound : sound no_parents (mkWriting (wr_store w0) settled (wr_calls w0)).
Proof.
  destruct Hw0 as [Hs _ _ _ _]. split; cbn; [apply settled_length|apply Hs|].
  intros i h r Hi (r0 & Hr0 & [[Hf ->]|(_ & [[_ ->]|(_ & -> & _)])])%settled_cases Hg;
    [by destruct Hg; congruence|by destruct Hg|]. by eapply (sd_good _ _ Hs).
Qed.

Abbreviation spenders := (to_spend txs l settled).

Lemma elem_of_spenders i : i ∈ spenders ↔ ∃ r, settled !! i = Some r ∧ good r ∧ parents i ≠ [].
Proof.
  unfold to_spend. rewrite list_elem_of_filter, elem_of_seq, !orb_false_iff, negb_false_iff.
  unfold has_parents. rewrite negb_true_iff, bool_decide_eq_false. split.
  - intros [[[H1 H2] H3] Hi]. destruct (lookup_lt_is_Some_2 settled i) as [r Hr]; [rewrite settled_length; lia|].
    rewrite Hr in H1, H2. cbn in H1, H2. apply bool_decide_eq_false in H1, H2. exists r. split_and!; [done| |done].
    destruct (settled_cases _ _ Hr) as (r0 & _ & [[? ->]|(_ & [[_ ->]|(_ & _ & ?)])]); done.
  - intros (r & Hr & Hg & Hp). rewrite Hr. cbn. unfold status_is. rewrite !bool_decide_eq_false.
    apply lookup_lt_Some in Hr. rewrite settled_length in Hr.
    split_and!; [by destruct Hg; congruence|by destruct Hg; congruence|done|lia|lia].
Qed.

Lemma spender_parents i p : i ∈ spenders → p ∈ parents i → ∃ r, settled !! p = Some r ∧ good r.
Proof.
  intros (r & Hr & Hg & _)%elem_of_spenders Hp.
  destruct (lookup_lt_is_Some_2 settled p) as [rp Hrp]; [rewrite settled_length; by eapply parents_bound|].
  exists rp. split; [done|]. destruct (settled_cases _ _ Hr) as (r0 & _ & [[Hf ->]|(_ & [[_ ->]|(Hff & _ & _)])]);
    [by destruct Hg; congruence|by destruct Hg|].
  assert (¬ failing rp) as Hnf.
  { intros Hf. rewrite (proj2 (failedParent_true _ _)) in Hff; [done|]. by exists p, rp. }
  destruct (settled_cases _ _ Hrp) as (r1 & _ & [[? ->]|(_ & [[_ ->]|(_ & _ & ?)])]); [|by destruct Hnf; right|done].
  destruct Hnf. by left.
Qed.

Definition answered (done : list nat) (i : nat) : Prop := parents i = [] ∨ i ∈ done.

Record second_inv (done : list nat) (w : writing (S := S)) : Prop := {
  si_sound : sound (answered done) w;
  si_stored p h r : settled !! p = Some r → good r → ids !! p = Some h → stored (wr_store w) h;
  si_rest i : i ∉ done → wr_results w !! i = settled !! i;
  si_done i r : i ∈ done → wr_results w !! i = Some r → good r ∨ mr_Status r = MultiTxFailed;
  si_sub : done ⊆ spenders;
}.

Lemma spend_answer_good r md sps e : good (spend_answer r md sps e) → e = None ∧ good r.
Proof. unfold spend_answer, good. destruct e; naive_solver. Qed.

Lemma second_call_inv done w i : i ∈ spenders → i ∉ done → second_inv done w →
  second_inv (done ++ [i]) (second_call txs blockHeight l i w).
Proof.
  intros Hi Hni [A B C D F]. pose proof Hi as (r0 & Hr0 & Hg0 & _)%elem_of_spenders.
  pose proof Hr0 as Hlt%lookup_lt_Some. rewrite settled_length in Hlt.
  apply lookup_lt_is_Some_2 in Hlt as [tx Ht].
  assert (Hown : wr_results w !! i = Some r0) by (by rewrite C).
  unfold second_call. split.
  - destruct (call_sound (answered done) (answered (done ++ [i])) i (spend_only (item_option l i)) spend_answer w)
      as [?|[? _]]; [done| | | |done|done|congruence].
    + right. intros p h Hp Hh. destruct (spender_parents i p Hi Hp) as (r & Hr & Hg). by eapply B.
    + intros j Hj [?|Hin]; [by left|right]. apply elem_of_app in Hin as [?|?%list_elem_of_singleton]; done.
    + intros tx' md sps e s' Ht' Hid E r Hr [-> Hg]%spend_answer_good.
      pose proof (right_id _ _ _ Ht' Hid) as Hown'.
      split; [|intros _; by apply (ms_spend _ _ _ _ _ _ _ Hown' E)].
      destruct (ids !! i) as [h|] eqn:Eh; [|pose proof Hids; apply lookup_ge_None in Eh; apply lookup_lt_Some in Ht; lia].
      rewrite Hid.
      eapply (proj1 (ms_frame _ _ _ _ _ _ _ _ Hown' E)). by eapply (sd_good _ _ A).
  - intros p h r Hp Hg Hh. unfold call. rewrite Ht.
    destruct (ms_SpendAndCreate _ _ _ _) as [[[md sps] e] s'] eqn:E. cbn.
    eapply (proj1 (ms_frame _ _ _ _ _ _ _ _ (right_id i tx (spend_only (item_option l i)) Ht eq_refl) E)). by eapply B.
  - intros j [Hj Hji]%not_elem_of_app. rewrite call_others; [by apply C|].
    intros ->. by apply Hji, list_elem_of_singleton.
  - intros j r Hj. destruct (decide (j = i)) as [->|Hne].
    + destruct (call_own i (spend_only (item_option l i)) spend_answer w tx Ht) as (md & sps & e & ->).
      rewrite Hown. intros [= <-]. destruct e; [by right|by left].
    + rewrite call_others by done. apply D. apply elem_of_app in Hj as [?|?%list_elem_of_singleton]; done.
  - intros x [?|Hx]%elem_of_app; [by apply F|]. apply list_elem_of_singleton in Hx. by subst x.
Qed.
End SecondWave.

(** Emptied results answer for nothing. *)
Lemma clear_lookup which rs i r : clear which rs !! i = Some r →
  ∃ r0, rs !! i = Some r0 ∧ (which i r0 = true ∧ r = not_attempted ∨ which i r0 = false ∧ r = r0).
Proof.
  unfold clear. rewrite list_lookup_imap. intros (r0 & Hr0 & ->)%fmap_Some. exists r0. split; [done|].
  destruct (which i r0); auto.
Qed.

Lemma clear_sound (D D' : nat → Prop) which rs s n :
  sound D (mkWriting s rs n) → (∀ i r, rs !! i = Some r → good r → which i r = false → D' i → D i) →
  sound D' (mkWriting s (clear which rs) n).
Proof.
  intros Hs Hd. split; cbn; [|apply Hs|].
  { unfold clear. rewrite length_imap. apply (sd_len _ _ Hs). }
  intros i h r Hi (r0 & Hr0 & [[_ ->]|[Hw ->]])%clear_lookup Hg; [by destruct Hg|].
  destruct (sd_good _ _ Hs i h r0) as [H1 H2]; [done..|]. split; [done|]. intros Hi'. apply H2. by eapply Hd.
Qed.

Lemma sound_calls D w n : sound D w → sound D (mkWriting (wr_store w) (wr_results w) n).
Proof. intros Hs. split; apply Hs. Qed.

Lemma sound_weaken D D' w : sound D w →
  (∀ i r, wr_results w !! i = Some r → good r → D' i → D i) → sound D' w.
Proof.
  intros Hs Hd. split; [apply Hs..|]. intros i h r Hi Hr Hg. destruct (sd_good _ _ Hs i h r) as [H1 H2]; [done..|].
  split; [done|]. intros H. by eapply H2, Hd.
Qed.

Lemma second_failed w0 (Hw0 : first_inv (seq 0 (length txs)) w0) done w i r :
  second_inv w0 done w → wr_results w !! i = Some r → mr_Status r = MultiTxParentFailed →
  ∃ p r', p ∈ parents i ∧ p ∉ to_spend txs l (mark_descendants txs l (wr_results w0)) ∧
    wr_results w !! p = Some r' ∧ failing r'.
Proof.
  intros [_ _ C D F] Hr Hst. destruct (decide (i ∈ done)) as [Hi|Hi].
  { destruct (D i r Hi Hr) as [[H|H]|H]; congruence. }
  rewrite (C i Hi) in Hr. destruct (settled_cases w0 Hw0 i r Hr) as (r0 & Hr0 & Hc).
  destruct Hc as [[? ->]|(_ & [[Hff _]|(_ & _ & Hg)])]; [congruence| |by destruct Hg; congruence].
  apply failedParent_true in Hff as (p & r' & Hp & Hr' & Hf). exists p, r'.
  assert (p ∉ to_spend txs l (mark_descendants txs l (wr_results w0))) as Hn.
  { intros (rp & Hrp & Hgp & _)%(elem_of_spenders w0 Hw0). simplify_eq. destruct Hf, Hgp; congruence. }
  split_and!; [done|done| |done]. rewrite C; [done|]. by intros ?%F.
Qed.

Lemma first_wave s skipped w : (∀ i, parents i = [] → whole i) → whole_before s → I s →
  run_wave ctx_done (schedule (seq 0 (length txs))) (first_call txs blockHeight l) [] (mkWriting s (fresh_results txs) 0)
    = (skipped, w) →
  ∃ done, first_inv done w ∧ (skipped = [] → first_inv (seq 0 (length txs)) w).
Proof.
  intros Hwh Hb Hs E. apply (run_wave_inv (λ d _ w, first_inv d w) (seq 0 (length txs))) with (done := []) in E
    as (d & Hd & _ & Hc).
  - exists d. split; [done|]. intros ->. destruct Hd as [A U R B C]. split; [done|done| |done|].
    { intros i Hi Hil. destruct Hi. apply elem_of_seq. lia. }
    intros i r Hi. apply C.
    destruct (Hc i) as [?|?%elem_of_nil]; [simpl; by rewrite Hschedule|done|done].
  - split; [by apply fresh_sound|by intros i h Hi Hh _; apply (Hb i)| |by intros i r ->%fresh_lookup|by intros i r ?%elem_of_nil].
    intros i _ Hil. by apply lookup_replicate.
  - intros i. by rewrite Hschedule.
  - simpl. rewrite Hschedule. apply NoDup_seq.
  - intros done sk w1 i Hi Hni Hw1. apply first_call_inv; [done| |done|done]. apply elem_of_seq in Hi. lia.
  - done.
Qed.

Lemma second_start w0 (Hw0 : first_inv (seq 0 (length txs)) w0) :
  second_inv w0 [] (mkWriting (wr_store w0) (mark_descendants txs l (wr_results w0)) (wr_calls w0)).
Proof.
  pose proof (settled_sound w0 Hw0) as Hss. split.
  - apply (sound_weaken no_parents); [done|]. intros i r _ _ [?|?%elem_of_nil]; done.
  - intros p h r Hp Hg Hh. by eapply (sd_good _ _ Hss p h r).
  - done.
  - by intros i r ?%elem_of_nil.
  - by intros i ?%elem_of_nil.
Qed.

Lemma second_wave w0 (Hw0 : first_inv (seq 0 (length txs)) w0) skipped w :
  let settled := mark_descendants txs l (wr_results w0) in
  run_wave ctx_done (schedule (to_spend txs l settled)) (second_call txs blockHeight l) []
    (mkWriting (wr_store w0) settled (wr_calls w0)) = (skipped, w) →
  ∃ done, second_inv w0 done w ∧ skipped ⊆ to_spend txs l settled ∧
    ∀ i, i ∈ to_spend txs l settled → i ∈ done ∨ i ∈ skipped.
Proof.
  intros settled E.
  apply (run_wave_inv (λ d sk w, second_inv w0 d w ∧ sk ⊆ to_spend txs l settled)
           (to_spend txs l settled)) with (done := []) in E as (d & [Hd Hsk] & _ & Hc).
  - exists d. split_and!; [done|done|]. intros i Hi. apply Hc. simpl. by rewrite Hschedule.
  - split; [by apply second_start|by intros ? ?%elem_of_nil].
  - intros i. by rewrite Hschedule.
  - simpl. rewrite Hschedule. apply NoDup_filter, NoDup_seq.
  - intros done sk w1 i Hi Hni [Hw1 Hsk]. split; [|done]. by apply second_call_inv.
  - intros done sk w1 i Hi [Hw1 Hsk]. split; [done|].
    intros x [?|Hx]%elem_of_app; [by apply Hsk|]. apply list_elem_of_singleton in Hx. by subst x.
Qed.

Lemma second_good w0 (Hw0 : first_inv (seq 0 (length txs)) w0) done w i r :
  second_inv w0 done w → wr_results w !! i = Some r → good r → parents i ≠ [] → i ∉ done →
  i ∈ to_spend txs l (mark_descendants txs l (wr_results w0)).
Proof.
  intros Hd Hr Hg Hp Hi. apply elem_of_spenders; [done|]. exists r.
  by rewrite <- (si_rest _ _ _ Hd i Hi).
Qed.

(** The members whose spends never ran are emptied. *)
Lemma cleared_second w0 (Hw0 : first_inv (seq 0 (length txs)) w0) done w (which : nat → bool) n e :
  let spenders := to_spend txs l (mark_descendants txs l (wr_results w0)) in
  second_inv w0 done w → (∀ i, i ∈ spenders → i ∈ done ∨ which i = true) →
  (∀ i, which i = true → i ∈ spenders) →
  list_sound (Some e) (mkWriting (wr_store w) (clear (λ i _, which i) (wr_results w)) n).
Proof.
  intros spenders Hd Hc Hsub. split; cbn; [|intros i r Hr Hst|done].
  - apply (clear_sound (answered done)); [by apply sound_calls, Hd|]. intros i r Hr Hg Hw _.
    destruct (decide (parents i = [])) as [?|Hp]; [by left|right].
    destruct (decide (i ∈ done)) as [?|Hi]; [done|].
    destruct (Hc i) as [?|Hx]; [by eapply second_good|done|congruence].
  - apply clear_lookup in Hr as (r0 & Hr0 & [[_ ->]|[_ ->]]); [done|].
    destruct (second_failed w0 Hw0 done w i r0 Hd Hr0 Hst) as (p & r' & Hp & Hn & Hr' & Hf).
    exists p, r'. split_and!; [done| |done]. unfold clear. rewrite list_lookup_imap, Hr'. simpl.
    destruct (which p) eqn:E; [|done]. by apply Hsub in E.
Qed.

Lemma finished_second w0 (Hw0 : first_inv (seq 0 (length txs)) w0) done w :
  second_inv w0 done w → to_spend txs l (mark_descendants txs l (wr_results w0)) ⊆ done →
  list_sound None w.
Proof.
  intros Hd Hc. split; [|intros i r Hr Hst|intros i r _ Hr].
  - apply (sound_weaken (answered done)); [apply Hd|]. intros i r Hr Hg _.
    destruct (decide (parents i = [])) as [?|Hp]; [by left|right].
    destruct (decide (i ∈ done)) as [?|Hi]; [done|]. by eapply Hc, second_good.
  - destruct (second_failed w0 Hw0 done w i r Hd Hr Hst) as (p & r' & ? & _ & ? & ?). eauto.
  - destruct (decide (i ∈ done)) as [Hi|Hi].
    + destruct (si_done _ _ _ Hd i r Hi Hr) as [[?|?]|?]; congruence.
    + rewrite (si_rest _ _ _ Hd i Hi) in Hr. destruct (settled_cases w0 Hw0 i r Hr) as (r0 & _ & Hx).
      destruct Hx as [[? ->]|(_ & [[_ ->]|(_ & _ & Hg)])]; [congruence|done|destruct Hg; congruence].
Qed.

Lemma writeCreateThenSpend_sound s e w : (∀ i, parents i = [] → whole i) → whole_before s → I s →
  writeCreateThenSpend schedule ctx_done txs blockHeight l s = (e, w) → list_sound e w.
Proof.
  intros Hwh Hb Hs. unfold writeCreateThenSpend.
  destruct (run_wave ctx_done (schedule (seq 0 _)) _ _ _) as [skipped w1] eqn:E1.
  apply first_wave in E1 as (d1 & Hd1 & Hall); [|done..].
  case_bool_decide as Hsk; cbn [negb].
  2: { intros [= <- <-]. split; cbn; [|intros i r Hr Hst|done].
       - apply (clear_sound no_parents); [by apply sound_calls, Hd1|].
         intros i r _ Hg Hw _. apply andb_false_iff in Hw as [Hw|Hw].
         + unfold has_parents in Hw. apply negb_false_iff, bool_decide_eq_true in Hw. done.
         + apply negb_false_iff, bool_decide_eq_true in Hw. destruct Hg; congruence.
       - apply clear_lookup in Hr as (r0 & Hr0 & [[_ ->]|[_ ->]]); [done|].
         by destruct (fi_status _ _ Hd1 _ _ Hr0). }
  specialize (Hall Hsk). clear d1 Hd1. set (settled := mark_descendants txs l (wr_results w1)).
  destruct (ctx_done (wr_calls w1)).
  { intros [= <- <-]. apply (cleared_second w1 Hall [] _ (λ i, bool_decide (i ∈ to_spend txs l settled)) _ _
      (second_start w1 Hall)); intros i; [right; by apply bool_decide_eq_true|by rewrite bool_decide_eq_true]. }
  destruct (run_wave _ (schedule (to_spend txs l settled)) _ _ _) as [skipped2 w2] eqn:E2.
  apply (second_wave w1 Hall) in E2 as (d2 & Hd2 & Hsk2 & Hc2).
  case_bool_decide as Hz; cbn [negb]; intros [= <- <-].
  - apply (finished_second w1 Hall d2); [done|]. intros i Hi.
    destruct (Hc2 i Hi) as [?|Hx]; [done|]. rewrite Hz in Hx. by apply elem_of_nil in Hx.
  - apply (cleared_second w1 Hall d2 _ (λ i, bool_decide (i ∈ skipped2)) _ _ Hd2);
      intros i; rewrite bool_decide_eq_true; [apply Hc2|apply Hsk2].
Qed.
End Writing.

(** What an accepted list satisfies. *)
Lemma Prepare_ok `{BtTx} (txs : list Tx) options l :
  match so_TxIDs options with Some ids => ids = map TxIDChainHash txs | None => True end →
  PrepareSpendAndCreateMulti (map Some txs) options = Ok l →
  ml_TxIDs l = map TxIDChainHash txs ∧ NoDup (ml_TxIDs l) ∧ length (ml_ParentsInList l) = length txs ∧
  ordered l ∧ so_CreateOnly (ml_Options l) = false ∧ so_SpendOnly (ml_Options l) = false.
Proof.
  intros Hright. unfold PrepareSpendAndCreateMulti, ParseCreateOptions.
  destruct (so_CreateOnly options && so_SpendOnly options) eqn:Eb; [done|]. cbn [negb bindR].
  do 2 (case_bool_decide; [|done]). destruct (so_CreateOnly options || so_SpendOnly options) eqn:Eo; [done|].
  apply orb_false_iff in Eo as [Ec Es]. cbn [negb].
  rewrite length_map.
  destruct (match so_TxIDs options with Some _ => _ | None => _ end) eqn:Et; [|done].
  destruct (match so_SubtreeIdxs options with Some _ => _ | None => _ end) eqn:Ex; [|done].
  destruct (decide (map Some txs = [])) as [Hn|Hn];
    [rewrite (bool_decide_true (map Some txs = [])) by done|rewrite (bool_decide_false (map Some txs = [])) by done].
  { intros [= <-]. destruct txs; [|done]. split_and!; [done|constructor|done|by intros ? ? ? ?|done|done]. }
  assert (∃ txids, match so_TxIDs options with Some ids => Ok ids | None => tx_ids (map Some txs) end = Ok txids ∧
    txids = map TxIDChainHash txs) as (txids & -> & Hr).
  { destruct (so_TxIDs options) as [ids|]; [by exists ids|]. rewrite tx_ids_some. by eexists. }
  assert (Hlen : length txids = length txs) by (by rewrite Hr, length_map).
  cbn [bindR]. pose proof (check_list_cases txs txids Hlen) as Hc.
  destruct (checkSpendAndCreateMultiList _ _) as [parents|e]; cbn [bindR]; [|done]. intros [= <-]. cbn.
  destruct Hc as [[_ Hnd _ Hpar] Hps]. split_and!; [done|done|by apply Forall2_length in Hps| |done|done].
  intros i ps p Hi Hp.
  destruct (lookup_lt_is_Some_2 txs i) as [tx Htx].
  { rewrite (Forall2_length _ _ _ Hps). by eapply lookup_lt_Some. }
  destruct (Forall2_lookup_lr _ _ _ _ _ _ Hps Htx Hi) as [_ Hiff].
  destruct (proj1 (Hiff p) Hp) as (op & Hop & Hid). exact (proj1 (Hpar i tx op Htx Hop p Hid)).
Qed.

Lemma omap_id_some {A} (l : list A) : omap id (map Some l) = l.
Proof. induction l as [|x l IH]; cbn; [done|]. by rewrite IH. Qed.

(** ** A list over a store that spends and then creates *)
Section SequentialList.
  Context {S : Type} {stored pending spent : S → Hash → Prop} {SS : SequentialStore S} {BT : BtTx}.
  Context {Spec : SequentialSpec stored pending spent SS BT}.
  Context (rollback_done : nat → bool).

#[local] Instance sequential_multi : MultiStore S :=
  {| ms_SpendAndCreate := SequentialSpendAndCreate rollback_done |}.

(** What the part after the spend keeps, with or without spends to undo. *)
Lemma create_or_undo_frame tx n o l s md sps e s' :
  default (TxIDChainHash tx) (co_TxID (so_create o)) = TxIDChainHash tx →
  spends_list l = [] ∨ spends_of (TxIDChainHash tx) (spends_list l) →
  create_or_undo rollback_done tx n o l s = (md, sps, e, s') →
  (∀ h, stored s h → stored s' h) ∧
  (∀ h, h ≠ TxIDChainHash tx →
    (present stored pending s' h → present stored pending s h) ∧ (spent s h → spent s' h)) ∧
  (there e → stored s' (TxIDChainHash tx) ∧ (spent s (TxIDChainHash tx) → spent s' (TxIDChainHash tx))).
Proof.
  intros Hid Hl. unfold create_or_undo.
  destruct (sq_Create tx n (so_create o) s) as [r s1] eqn:Ec.
  pose proof (create_frame _ _ _ _ _ _ _ _ _ Ec) as Hf. pose proof (create_stores _ _ _ _ _ _ _ _ _ Ec) as Hst.
  pose proof (λ h, create_keeps _ _ _ _ _ _ _ _ _ h Ec) as Hk. rewrite Hid in Hst, Hf.
  assert (Hsp : ∀ h, spent s h → spent s1 h) by (intros h; apply Hf).
  assert (Hpr : ∀ h, h ≠ TxIDChainHash tx →
    (present stored pending s1 h → present stored pending s h) ∧ (spent s h → spent s1 h)).
  { intros h Hh. split; [by apply Hf|apply Hsp]. }
  destruct r as [m|ce]; [intros [= <- <- <- <-]; split_and!; auto|].
  destruct (error_Is (ce_error ce) ERR_TX_EXISTS) eqn:Ex; [intros [= <- <- <- <-]; split_and!; auto|].
  destruct (IsCreateOutcomeUnknown ce);
    [intros [= <- <- <- <-]; split_and!; [done|auto|unfold there; congruence]|].
  case_bool_decide as Hlen;
    [|intros [= <- <- <- <-]; split_and!; [done|auto|unfold there; congruence]].
  destruct Hl as [Hl|Hl]; [rewrite Hl in Hlen; simpl in Hlen; lia|].
  destruct (unspendWithRetry _ _ s1) as [r s2] eqn:Er.
  apply (unspend_attempts_ok _ _ _ _ _ _ _ _ Hl Hlen) in Er as (A & B & C & _); [|done].
  assert (∀ h, stored s h → stored s2 h) by (intros h Hh; by apply B, Hk).
  assert (∀ h, h ≠ TxIDChainHash tx →
    (present stored pending s2 h → present stored pending s h) ∧ (spent s h → spent s2 h)).
  { intros h Hh. destruct (Hpr h Hh) as [P1 P2]. split; [rewrite A; done|auto]. }
  assert (error_Is (err_wrap ERR_PROCESSING (ce_error ce)) ERR_TX_EXISTS = false) by by apply error_Is_wrap.
  destruct r as [[]|e1]; intros [= <- <- <- <-];
    (split_and!; [done|done|intros Ht; exfalso; unfold there in Ht; congruence]).
Qed.

(** A call, by what it is asked for. *)
Lemma sequential_call tx n o s md sps e s' : txid_of tx o = TxIDChainHash tx →
  SequentialSpendAndCreate rollback_done tx n o s = (md, sps, e, s') →
  (∀ h, stored s h → stored s' h) ∧
  (∀ h, h ≠ TxIDChainHash tx →
    (present stored pending s' h → present stored pending s h) ∧ (spent s h → spent s' h)) ∧
  (so_SpendOnly o = false → there e → stored s' (TxIDChainHash tx)) ∧
  (so_CreateOnly o = false → so_SpendOnly o = true ∧ e = None ∨ so_SpendOnly o = false ∧ there e →
   RequireParentOutputs (so_IgnoreFlags o) = true ∨
     (present stored pending s (TxIDChainHash tx) → spent s (TxIDChainHash tx)) →
   spent s' (TxIDChainHash tx)).
Proof.
  intros Hid E. unfold SequentialSpendAndCreate, ParseCreateOptions in E.
  destruct (so_CreateOnly o) eqn:Ec, (so_SpendOnly o) eqn:Es; cbn [andb negb] in E.
  - injection E as <- <- <- <-. by split_and!.
  - rewrite Ec in E. apply create_or_undo_frame in E as (A & B & C); [|done|by left].
    split_and!; [done|done| |done]. intros _ Ht. by apply C.
  - rewrite Ec in E. destruct (sq_Spend tx n (so_IgnoreFlags o) s) as [[l e1] s1] eqn:E1.
    destruct (spend_frame _ _ _ _ _ _ _ _ _ _ E1) as (F1 & F2 & F3). rewrite Es in E.
    destruct e1 as [e1|]; injection E as <- <- <- <-;
      (split_and!; [intros h; apply F1|intros h Hh; split; [by apply present_iff|by auto]|done|]);
      intros _ [[_ ?]|[? _]]; try done.
    by apply (spend_ok stored pending spent) in E1 as (_ & _ & ?).
  - rewrite Ec in E. destruct (sq_Spend tx n (so_IgnoreFlags o) s) as [[l e1] s1] eqn:E1.
    destruct (spend_frame _ _ _ _ _ _ _ _ _ _ E1) as (F1 & F2 & F3). rewrite Es in E.
    assert (Hp : ∀ h, present stored pending s1 h ↔ present stored pending s h) by (intros; by apply present_iff).
    destruct e1 as [e1|].
    { injection E as <- <- <- <-. apply (spend_error stored pending spent) in E1.
      split_and!; [intros h; apply F1|intros h Hh; split; [by apply present_iff|by auto]|unfold there; congruence|].
      intros _ [[? _]|[_ Ht]]; [done|]. unfold there in Ht. congruence. }
    apply (spend_ok stored pending spent) in E1 as (G1 & G2 & G3).
    apply create_or_undo_frame in E as (A & B & C); [|done|by right].
    split_and!; [intros h Hh; by apply A, F1| | |].
    + intros h Hh. destruct (B h Hh) as [B1 B2]. split; [rewrite <- Hp; done|auto].
    + intros _ Ht. by apply C.
    + intros _ [[? _]|[_ Ht]] Hq; [done|]. apply C; [done|]. by apply G3.
Qed.

Lemma sequential_multi_spec : MultiSpec stored (present stored pending) spent sequential_multi BT.
Proof.
  split; intros tx n o s md sps.
  1-3: intros e s' Hid E; pose proof Hid as Hid';
    destruct (sequential_call _ _ _ _ _ _ _ _ Hid E) as (A & B & C & D); rewrite Hid'; auto.
  intros s' Hid E Hc Hs Hf. destruct (sequential_call _ _ _ _ _ _ _ _ Hid E) as (_ & _ & _ & D).
  rewrite Hid. auto.
Qed.
End SequentialList.

(** What the results of a list mean, in both orders of writing, for any
    schedule of the calls and wherever the caller's context ends.  A refused list
    writes nothing.  A transaction reported created or existing has its record,
    with its inputs spent; one is skipped only below a failed parent of the list;
    without an error none is left out.  Every call that spends is made when the
    transaction's parents in the list are stored, so a property of the store that
    such calls keep is kept. *)
Theorem DefaultSpendAndCreateMulti_sound {S : Type} {stored present spent : S → Hash → Prop} {MS : MultiStore S}
    {BT : BtTx} {Spec : MultiSpec stored present spent MS BT} (schedule : list nat → list nat)
    (ctx_done : nat → bool) (txs : list Tx) (blockHeight : Z) (options : StoreOptions) (I : S → Prop) (s : S) :
  (∀ l, schedule l ≡ₚ l) → I s →
  match so_TxIDs options with Some ids => ids = map TxIDChainHash txs | None => True end →
  match PrepareSpendAndCreateMulti (map Some txs) options,
        DefaultSpendAndCreateMulti schedule ctx_done (map Some txs) blockHeight options s with
  | Err e, (r, s') => r = Err e ∧ s' = s
  | Ok l, (r, s') =>
      (∀ i tx o s md sps e s', txs !! i = Some tx → ml_TxIDs l !! i = Some (txid_of tx o) →
         ready (stored := stored) l i o s → I s →
         ms_SpendAndCreate tx blockHeight o s = (md, sps, e, s') → I s') →
      (∀ i h, so_BelowCheckpoint (ml_Options l) = false ∨ parents l i = [] →
         ml_TxIDs l !! i = Some h → present s h → spent s h) →
      I s' ∧ ∃ results e, r = Ok (results, e) ∧ length results = length txs ∧
        ∀ i h m, ml_TxIDs l !! i = Some h → results !! i = Some m →
          (good m → stored s' h ∧ spent s' h) ∧
          (mr_Status m = MultiTxParentFailed → ∃ p m', p ∈ parents l i ∧ results !! p = Some m' ∧ failing m') ∧
          (e = None → mr_Status m ≠ MultiTxNotAttempted)
  end.
Proof.
  intros Hsch Hs Hopt. unfold DefaultSpendAndCreateMulti.
  destruct (PrepareSpendAndCreateMulti (map Some txs) options) as [l|e] eqn:Ep; [|done].
  apply (Prepare_ok _ _ _ Hopt) in Ep as (Hids & Hnd & Hlen & Hord & Hc & Hso). rewrite omap_id_some.
  case_bool_decide as Hn.
  { intros _ _. split; [done|]. exists [], None. destruct txs; [|done].
    split_and!; [done|done|]. intros i h m _ Hm. by rewrite lookup_nil in Hm. }
  destruct (if so_BelowCheckpoint (ml_Options l) then _ else _) as [e w] eqn:E. intros HI Hb.
  assert (list_sound (stored := stored) (spent := spent) txs l I e w) as [Hsd Hf Ha].
  { destruct (so_BelowCheckpoint (ml_Options l)).
    - eapply writeCreateThenSpend_sound with (whole := λ i, parents l i = []); eauto. intros i h Hi. apply Hb. by right.
    - eapply write_by_level_sound with (whole := λ _, True); eauto. intros i h _. apply Hb. by left. }
  split; [apply Hsd|]. exists (wr_results w), e. split_and!; [done|apply Hsd|].
  intros i h m Hi Hm. split_and!.
  - intros Hg. destruct (sd_good _ _ _ _ _ Hsd i h m Hi Hm Hg). auto.
  - intros Hst. by eapply Hf.
  - intros He. by eapply Ha.
Qed.

(** ** Witness: a chain of two transactions, in both orders of writing *)
Definition ex_chain : list Tx := [ex_chain_tx 21 9 0; ex_chain_tx 22 21 0].

Definition ex_list_options (below : bool) : StoreOptions :=
  mkStoreOptions (so_create ex_options) (so_IgnoreFlags ex_options) false false below None None.

Definition multi_run (below : bool) : result (list MultiResult * option error) * ledger :=
  DefaultSpendAndCreateMulti
    (MS := sequential_multi (SS := ledger_store model_BtTx) (λ _, false)) (BT := model_BtTx)
    (@rev nat) (λ _, false) (map Some ex_chain) 100 (ex_list_options below) (ex_ledger false []).

Lemma ex_prepared below : PrepareSpendAndCreateMulti (BT := model_BtTx) (map Some ex_chain) (ex_list_options below) =
  Ok (mkMultiList (ex_list_options below) [hash_of_Z 21; hash_of_Z 22] [[]; [0%nat]]).
Proof. destruct below; vm_compute; reflexivity. Qed.

Lemma ex_created below : ∃ rs m, (multi_run below).1 = Ok (rs, None) ∧ rs !! 1%nat = Some m ∧
  mr_Status m = MultiTxCreated.
Proof. destruct below; do 2 eexists; (split; [vm_compute; reflexivity|split; reflexivity]). Qed.

Lemma DefaultSpendAndCreateMulti_sound_witness :
  (lg_stored (multi_run true).2 (hash_of_Z 22) ∧ lg_has_spent (multi_run true).2 (hash_of_Z 22)) ∧
  lg_stored (multi_run false).2 (hash_of_Z 22) ∧ lg_has_spent (multi_run false).2 (hash_of_Z 22).
Proof.
  cut (∀ below, lg_stored (multi_run below).2 (hash_of_Z 22) ∧ lg_has_spent (multi_run below).2 (hash_of_Z 22)).
  { intros H. split; apply H. }
  intros below. pose proof (DefaultSpendAndCreateMulti_sound
    (Spec := sequential_multi_spec (Spec := ledger_spec model_BtTx) (λ _, false))
    (@rev nat) (λ _, false) ex_chain 100 (ex_list_options below) (λ _, True) (ex_ledger false [])
    (λ l, Permutation_sym (Permutation_rev l)) I I) as H.
  rewrite ex_prepared in H. fold (multi_run below) in H. rewrite (surjective_pairing (multi_run below)) in H.
  destruct H as (_ & rs & e & E & _ & Hall); [done|by intros i h _ _ [Hh|Hh]|].
  destruct (ex_created below) as (rs' & m & E' & Hm & Hst). rewrite E in E'. injection E' as <- ->.
  destruct (Hall 1%nat (hash_of_Z 22) m eq_refl Hm) as (Hg & _). apply Hg. by left.
Defined.
