(* ===== verification/Effects.v ===== *)
(** * Programs that call out

    Code whose meaning lies in the calls it makes to other services: a tree of
    calls and continuations over a signature of effects.  A property holds of a
    program when it holds of every history of calls and answers, whatever the
    services answer and whatever else happens between two calls; a handler runs
    a program against a state. *)

From stdpp Require Import list.
From S2P Require Import Prelude.

Section Programs.
  Context {E : Type → Type}.

Inductive prog (A : Type) : Type :=
  | Ret (a : A)
  | Do {X : Type} (e : E X) (k : X → prog A).

Arguments Ret {A} a.
Arguments Do {A X} e k.

(** A call made, with its answer. *)
Inductive event : Type :=
  | Ev {X : Type} (e : E X) (x : X).

Fixpoint bind {A B} (f : A → prog B) (p : prog A) : prog B :=
  match p with
  | Ret a => f a
  | Do e k => Do e (λ x, bind f (k x))
  end.

#[global] Instance prog_ret : MRet prog := @Ret.
#[global] Instance prog_bind : MBind prog := @bind.

Definition invoke {X} (e : E X) : prog X := Do e Ret.

(** ** What holds after every history that extends [h] *)
Fixpoint holds {A} (p : prog A) (h : list event) (Q : list event → A → Prop) : Prop :=
  match p with
  | Ret a => Q h a
  | Do e k => ∀ x, holds (k x) (h ++ [Ev e x]) Q
  end.

Lemma holds_bind {A B} (f : A → prog B) (p : prog A) h Q :
  holds (p ≫= f) h Q ↔ holds p h (λ h a, holds (f a) h Q).
Proof. revert h. induction p as [a|X e k IH]; intros h; cbn; [done|]. by setoid_rewrite IH. Qed.

Lemma holds_call {A X} (e : E X) (f : X → prog A) h Q :
  (∀ x, holds (f x) (h ++ [Ev e x]) Q) → holds (invoke e ≫= f) h Q.
Proof. done. Qed.

Lemma holds_mono {A} (p : prog A) h (Q R : list event → A → Prop) :
  (∀ h a, Q h a → R h a) → holds p h Q → holds p h R.
Proof. intros HQ. revert h. induction p as [a|X e k IH]; intros h; cbn; eauto. Qed.

Lemma holds_and {A} (p : prog A) h (Q R : list event → A → Prop) :
  holds p h Q → holds p h R → holds p h (λ h a, Q h a ∧ R h a).
Proof. revert h. induction p as [a|X e k IH]; intros h; cbn; eauto. Qed.

(** A program only adds to the history. *)
Lemma holds_extends {A} (p : prog A) h : holds p h (λ h' _, ∃ l, h' = h ++ l).
Proof.
  revert h. induction p as [a|X e k IH]; intros h; cbn; [exists []; by rewrite app_nil_r|].
  intros x. eapply holds_mono; [|apply IH]. intros h' b [l ->]. exists (Ev e x :: l). by rewrite <- app_assoc.
Qed.

(** The calls a program makes do not depend on what was called before it. *)
Lemma holds_shift {A} (p : prog A) h (Q : list event → A → Prop) :
  holds p [] (λ l a, Q (h ++ l) a) ↔ holds p h Q.
Proof.
  assert (∀ h l, holds p l (λ l a, Q (h ++ l) a) ↔ holds p (h ++ l) Q) as H; [|by rewrite H, app_nil_r].
  clear h. induction p as [a|X e k IH]; intros h l; cbn; [done|].
  setoid_rewrite IH. by setoid_rewrite app_assoc.
Qed.

(** ** Rules about single calls: what each call may rely on *)
Definition allowed (ok : list event → event → Prop) (h : list event) : Prop :=
  ∀ before ev after, h = before ++ ev :: after → ok before ev.

Lemma allowed_nil ok : allowed ok [].
Proof. intros b ev a H. by apply app_cons_not_nil in H. Qed.

Lemma allowed_snoc ok h ev : allowed ok (h ++ [ev]) ↔ allowed ok h ∧ ok h ev.
Proof.
  split.
  - intros H. split; [|by apply (H h ev [])].
    intros b e a ->. apply (H b e (a ++ [ev])). by rewrite <- app_assoc.
  - intros [H1 H2] b e a Heq. destruct (exists_last (l := e :: a)) as (init & x & Ei); [done|].
    rewrite Ei, app_assoc in Heq. apply app_inj_tail in Heq as [-> <-].
    destruct init as [|e' init]; [injection Ei as -> _; by rewrite app_nil_r in H2|].
    injection Ei as -> _. by apply (H1 b e' init).
Qed.

Lemma allowed_prefix ok h h' : allowed ok (h ++ h') → allowed ok h.
Proof. intros H b ev a ->. apply (H b ev (a ++ h')). by rewrite <- app_assoc. Qed.

(** A program that makes only calls of one kind. *)
Fixpoint only {A} (P : event → Prop) (p : prog A) : Prop :=
  match p with
  | Ret _ => True
  | Do e k => ∀ x, P (Ev e x) ∧ only P (k x)
  end.

Lemma only_bind {A B} P (f : A → prog B) (p : prog A) : only P p → (∀ a, only P (f a)) → only P (p ≫= f).
Proof. intros Hp Hf. induction p as [a|X e k IH]; cbn; [apply Hf|]. intros x. destruct (Hp x). auto. Qed.

Lemma only_invoke {X} P (e : E X) : (∀ x, P (Ev e x)) → only P (invoke e).
Proof. cbn. auto. Qed.

Lemma only_mono {A} (P P' : event → Prop) (p : prog A) : (∀ ev, P ev → P' ev) → only P p → only P' p.
Proof. intros HP. induction p as [a|X e k IH]; cbn; [done|]. intros H x. destruct (H x). auto. Qed.

Lemma only_holds {A} P (p : prog A) h : only P p → holds p h (λ h' _, ∃ l, h' = h ++ l ∧ Forall P l).
Proof.
  revert h. induction p as [a|X e k IH]; intros h; cbn; [exists []; by rewrite app_nil_r|].
  intros H x. destruct (H x) as [H1 H2]. eapply holds_mono; [|by apply IH].
  intros h' b (l & -> & Hl). exists (Ev e x :: l). split; [by rewrite <- app_assoc|by constructor].
Qed.

Lemma allowed_app ok h l : allowed ok h → (∀ before ev after, l = before ++ ev :: after → ok (h ++ before) ev) →
  allowed ok (h ++ l).
Proof.
  intros Hh. induction l as [|ev l IH] using rev_ind; [by rewrite app_nil_r|].
  intros Hl. rewrite app_assoc, allowed_snoc. split; [|by apply (Hl l ev [])].
  apply IH. intros b e a ->. apply (Hl b e (a ++ [ev])). by rewrite <- app_assoc.
Qed.

Lemma only_allowed {A} ok P (p : prog A) h : only P p → (∀ h ev, P ev → ok h ev) → allowed ok h →
  holds p h (λ h _, allowed ok h).
Proof.
  intros Hp HP Hh. eapply holds_mono; [|by apply only_holds]. intros h' a (l & -> & Hl).
  apply allowed_app; [done|]. intros b ev c ->. apply HP. by apply Forall_app in Hl as [_ [? _]%Forall_cons].
Qed.

(** ** Running against a state *)
Class Handler (W : Type) := handle : ∀ X, E X → W → X * W.

Fixpoint run {W} {H : Handler W} {A} (p : prog A) (w : W) : A * W :=
  match p with
  | Ret a => (a, w)
  | Do e k => let '(x, w) := handle _ e w in run (k x) w
  end.

(** The history of a run. *)
Fixpoint calls {W} {H : Handler W} {A} (p : prog A) (w : W) : list event :=
  match p with
  | Ret _ => []
  | Do e k => let '(x, w) := handle _ e w in Ev e x :: calls (k x) w
  end.

Lemma holds_run {W} {H : Handler W} {A} (p : prog A) (w : W) h Q :
  holds p h Q → Q (h ++ calls p w) (run p w).1.
Proof.
  revert w h. induction p as [a|X e k IH]; intros w h; cbn; [by rewrite app_nil_r|].
  intros Hp. destruct (handle X e w) as [x w1] eqn:E1. specialize (IH x w1 _ (Hp x)).
  by rewrite <- app_assoc in IH.
Qed.
End Programs.

Arguments prog E A : clear implicits.
Arguments event E : clear implicits.
Arguments Ret {E A} a.
Arguments Do {E A X} e k.
Arguments Ev {E X} e x.

(** [only]: through binds and case distinctions, down to the calls. *)
Ltac only_calls tac :=
  repeat match goal with
  | |- only _ (mbind _ _) => apply only_bind; [|intros ?]
  | |- only _ (invoke _) => apply only_invoke; intros ?; solve [tac]
  | |- only _ (Ret _) => exact I
  | |- only _ (match ?x with _ => _ end) => destruct x
  end.
