(* ===== verification/Pipeline.v ===== *)
(** * Validating a transaction from end to end

    services/validator/Validator.go: [ValidateWithOptions], [validateInternal] with
    its error branches, [spendAndCreateInUtxoStore], [sendToBlockAssembler] and the
    bounded retry of the hand-off, [unwindShed], [verifyRecordDeleted],
    [unlockLockedTxOnExit], [twoPhaseCommitTransaction] and the announcements of
    rejected transactions.  The UTXO store, block assembly, the message queues, the
    clock and the caller's cancellation are calls of [effect]; the checks are those of
    [Validator] and [Extend].  Counters and log lines are left out. *)

From stdpp Require Import list.
From S2P Require Import Prelude External NBits BlockHeader Utxo UtxoSql UtxoSqlOps BlockReward TxRules Extend Validator SpendCreate Effects.

(** ** Errors: errors/errors.go

    [SetWrappedErr] appends at the end of the chain.  It leaves out an error that is
    in the chain already; pointers are not modelled, and no test of a code can tell. *)
Fixpoint SetWrappedErr (e w : error) : error :=
  let 'Error c o := e in
  Error c (Some (match o with None => w | Some n => SetWrappedErr n w end)).

Definition Join (errs : list error) : option error :=
  match errs with
  | [] => None
  | e :: errs => Some (foldl SetWrappedErr e errs)
  end.

Definition maxAggregatedSpendErrs : nat := 10.

Definition JoinCapped (maxErrs : nat) (errs : list error) : option error :=
  let kept := take maxErrs errs in
  Join (if bool_decide (maxErrs < length errs)%nat then kept ++ [err ERR_ERROR] else kept).

(** ** Data *)

(** [meta.Data] with the fee it carries. *)
Record TxMeta := mkTxMeta { tm_Data : Data; tm_Fee : Z }.

(** services/blockassembly/data.go *)
Record AssemblyData := mkAssemblyData {
  ad_TxID : Hash;
  ad_Fee : Z;
  ad_Size : Z;
  ad_TxInpoints : list Utxo.outpoint;
}.

(** services/validator/options.go: the options its checks read, and the others. *)
Record PipelineOptions := mkPipelineOptions {
  po_checks : Options;
  SkipUtxoCreation : bool;
  AddTXToBlockAssembly : bool;
  CreateConflicting : bool;
  po_IgnoreLocked : bool;
  SkipTxMetaPublishing : bool;
  InBlock : bool;
  WaitForBlockAssembly : bool;
  PrefetchedParents : gmap Hash MetaData;
}.

(** The settings, and which clients the service was built with; durations are in
    nanoseconds. *)
Record PipelineSettings := mkPipelineSettings {
  BlockAssemblyDisabled : bool;
  TxLockedMaxRetries : Z;
  BlockAssemblyShedRetryTimeout : Z;
  QueueFullWaitTimeout : Z;
  HandoffRoundTripSlack : Z;
  KafkaMaxMessageBytes : Z;
  hasTxMetaProducer : bool;
  hasRejectedProducer : bool;
  hasPolicyRejectedProducer : bool;
}.

(** ** The calls

    [E_State] reads the validator's own memory; [E_GetMeta] answers [ERR_TX_NOT_FOUND] when there is no record; [E_ReadParent] is
    [Get] with the coinbase flag and the block heights; [E_MarkConflicting] is
    [MarkConflictingRecursively], which also tells what it marked when it fails;
    [E_Running] is whether the blockchain service is in the state RUNNING; [E_Wait] is
    a wait of that length, and whether the caller's context ended first. *)
Inductive effect : Type → Type :=
  | E_State : effect ValidatorState
  | E_ParentOutputs (outpoints : list Outpoint) : effect (result (list ParentOutput))
  | E_SpendAndCreate (tx : Tx) (blockHeight : Z) (options : StoreOptions)
      : effect (option TxMeta * Spends * option error)
  | E_GetMeta (hash : Hash) : effect (result TxMeta)
  | E_ReadParent (hash : Hash) : effect (result (bool * list Z))
  | E_MarkConflicting (hashes : list Hash) : effect (result (list Spend) * list Hash)
  | E_SetLocked (hashes : list Hash) (value : bool) : effect (result unit)
  | E_Unspend (spends : list Spend) : effect (result unit)
  | E_DeleteComplete (hash : Hash) : effect (result unit)
  | E_BlockAssemblyStore (data : AssemblyData) : effect (result unit)
  | E_Running : effect (result bool)
  | E_PublishTxMeta (hash : Hash) (inBlock : bool) : effect unit
  | E_DeleteTxMeta (hashes : list Hash) : effect unit
  | E_PublishRejected (hash : Hash) : effect unit
  | E_PublishPolicyRejected (hash : Hash) (conflicting : bool) : effect unit
  | E_Now : effect Z
  | E_Wait (duration : Z) : effect bool.

Notation program := (prog effect).

(** The metadata and the error a call of the validator returns. *)
Definition verdict : Type := option TxMeta * option error.

Section Pipeline.
  Context {SC : SafeConversion} {BT : BtTx} {BDK : BdkEngine} {ST : Subtree}.
  Variable settings : PipelineSettings.

(** ** Failed spends *)
Definition spendConflicts (e : error) : bool :=
  bool_decide (err_code e = ERR_UTXO_SPENT) || bool_decide (err_code e = ERR_TX_CONFLICTING).

Definition spendsImmatureCoinbase (e : error) : bool :=
  bool_decide (err_code e = ERR_TX_COINBASE_IMMATURE).

Definition failed_spends (spends : Spends) : list error := omap snd (default [] spends).

(** The parents of the double spends, each read once, up to the first that is a
    coinbase not yet mature. *)
Fixpoint immature_parent (params : ChainParams) (blockHeight : Z) (read : gset Hash)
    (spends : list (Spend * option error)) : program (result (option error)) :=
  match spends with
  | [] => Ret (Ok None)
  | (spend, e) :: spends =>
      let parentHash := sp_TxID spend in
      if negb (default false (spendConflicts <$> e)) || bool_decide (parentHash ∈ read)
      then immature_parent params blockHeight read spends
      else
        answer ← invoke (E_ReadParent parentHash);
        match wrapR ERR_PROCESSING (readInputParent (λ _, answer) parentHash) with
        | Err e => Ret (Err e)
        | Ok parent =>
            match immatureCoinbase parent blockHeight params with
            | Err e => Ret (Ok (Some (err_wrap ERR_TX_COINBASE_IMMATURE e)))
            | Ok _ => immature_parent params blockHeight ({[parentHash]} ∪ read) spends
            end
        end
  end.

(** [CreateInUtxoStore] with the options of the conflicting fallback. *)
Definition conflicting_options (opts : PipelineOptions) : StoreOptions :=
  mkStoreOptions
    (mkCreateOptions [] None None false true false (OutpointOnlySpend (po_checks opts)))
    (mkFlags false false false false) true false false None None.

Definition sendTxMetaDeletesToKafka (hashes : list Hash) : program unit :=
  if negb (hasTxMetaProducer settings) || bool_decide (hashes = []) then Ret ()
  else invoke (E_DeleteTxMeta hashes).

(** A double spend of a block, kept as a conflicting record; [e] is the error of the
    spend.  When the record exists already, [err] holds the answer of [GetMeta] by the
    time the final error is made, so that error wraps nothing. *)
Definition save_conflicting (tx : Tx) (blockHeight : Z) (opts : PipelineOptions) (e : error)
  : program verdict :=
  '(md, _, createErr) ← invoke (E_SpendAndCreate tx blockHeight (conflicting_options opts));
  match createErr with
  | None => Ret (md, Some (err_wrap ERR_TX_CONFLICTING e))
  | Some ce =>
      if error_Is ce ERR_TX_EXISTS then
        stored ← invoke (E_GetMeta (TxIDChainHash tx));
        match stored with
        | Err e => Ret (None, Some (err_wrap ERR_PROCESSING e))
        | Ok md =>
            if negb (d_Conflicting (tm_Data md)) then
              '(r, marked) ← invoke (E_MarkConflicting [TxIDChainHash tx]);
              _ ← sendTxMetaDeletesToKafka marked;
              match r with
              | Err e => Ret (None, Some (err_wrap ERR_PROCESSING e))
              | Ok _ => Ret (Some md, Some (err ERR_TX_CONFLICTING))
              end
            else Ret (Some md, Some (err ERR_TX_CONFLICTING))
        end
      else Ret (None, Some (err_wrap ERR_PROCESSING ce))
  end.

(** The branch of [ErrUtxoError]. *)
Definition utxo_error (params : ChainParams) (tx : Tx) (blockHeight : Z) (opts : PipelineOptions)
    (spends : Spends) (e : error) : program verdict :=
  let checks := po_checks opts in
  let failedSpends := failed_spends spends in
  let firstImmature := head (filter spendsImmatureCoinbase failedSpends) in
  let blockVerdict := CreateConflicting opts && negb (SkipScriptValidation checks) &&
                      negb (OutpointOnlySpend checks) in
  let search := blockVerdict && bool_decide (firstImmature = None) in
  found ← (if search then immature_parent params blockHeight ∅ (default [] spends)
           else Ret (Ok None));
  match found with
  | Err e => Ret (None, Some (err_wrap ERR_PROCESSING e))
  | Ok found =>
      let immatureSpend := if search then found else firstImmature in
      let everyFailedSpendConflicts :=
        forallb spendConflicts failedSpends && bool_decide (found = None) in
      let saveAsConflicting :=
        CreateConflicting opts && negb (bool_decide (failedSpends = [])) && everyFailedSpendConflicts in
      let e := match JoinCapped maxAggregatedSpendErrs failedSpends with
               | Some w => SetWrappedErr e w
               | None => e
               end in
      if saveAsConflicting then save_conflicting tx blockHeight opts e
      else
        let e := if negb (bool_decide (failedSpends = [])) && everyFailedSpendConflicts
                 then err_wrap ERR_TX_REJECTED_CONFLICTING e else e in
        if bool_decide (is_Some immatureSpend) && blockVerdict
        then Ret (None, Some (err_wrap ERR_TX_INVALID e))
        else Ret (None, Some (err_wrap ERR_PROCESSING e))
  end.

(** A record that proves an earlier full validation. *)
Definition blessed (m : Data) : bool :=
  negb (bool_decide (d_BlockIDs m = [])) && negb (d_Conflicting m) && negb (d_Locked m).

Definition spend_failed (params : ChainParams) (tx : Tx) (blockHeight : Z) (opts : PipelineOptions)
    (spends : Spends) (e : error) : program verdict :=
  if error_Is e ERR_TX_EXISTS then
    stored ← invoke (E_GetMeta (TxIDChainHash tx));
    match stored with
    | Err e => Ret (None, Some (err_wrap ERR_PROCESSING e))
    | Ok md => Ret (Some md, None)
    end
  else if error_Is e ERR_UTXO_ERROR then utxo_error params tx blockHeight opts spends e
  else if error_Is e ERR_TX_NOT_FOUND then
    stored ← invoke (E_GetMeta (TxIDChainHash tx));
    match stored with
    | Ok md => if blessed (tm_Data md) then Ret (Some md, None)
               else Ret (None, Some (err_wrap ERR_PROCESSING e))
    | Err _ => Ret (None, Some (err_wrap ERR_PROCESSING e))
    end
  else Ret (None, Some (err_wrap ERR_PROCESSING e)).

(** ** Undoing a shed *)
Definition shedUnwindVerifyAttempts : nat := 3.
Definition shedUnwindVerifyBackoff : Z := 5000000.

Fixpoint verify_attempts (attempts : nat) (first : bool) (lastErr : error) (hash : Hash)
  : program (result bool) :=
  match attempts with
  | O => Ret (Err lastErr)
  | S attempts =>
      ended ← (if first then Ret false else invoke (E_Wait shedUnwindVerifyBackoff));
      if ended : bool then Ret (Err ctx_err)
      else
        stored ← invoke (E_GetMeta hash);
        match stored with
        | Ok _ => Ret (Ok false)
        | Err e => if error_Is e ERR_TX_NOT_FOUND then Ret (Ok true)
                   else verify_attempts attempts false e hash
        end
  end.

Definition verifyRecordDeleted (hash : Hash) : program (result bool) :=
  verify_attempts shedUnwindVerifyAttempts true (err ERR_UNKNOWN) hash.

(** From the second check on; [pendingErr] is a failed deletion that left nothing
    that can be mined. *)
Definition unspend_unowned (hash : Hash) (spentUtxos : list Spend) (pendingErr : option error)
  : program (option error) :=
  if bool_decide (spentUtxos = []) then Ret pendingErr
  else
    gone ← verifyRecordDeleted hash;
    match gone with
    | Err e => Ret (Some e)
    | Ok false => Ret (Some (err ERR_PROCESSING))
    | Ok true =>
        r ← invoke (E_Unspend spentUtxos);
        match r with
        | Err e => Ret (Some e)
        | Ok _ => Ret pendingErr
        end
    end.

Definition unwindShed (tx : Tx) (spentUtxos : list Spend) (createdRecord : bool)
  : program (option error) :=
  let txHash := TxIDChainHash tx in
  if negb createdRecord then unspend_unowned txHash spentUtxos None
  else
    deleted ← invoke (E_DeleteComplete txHash);
    gone ← verifyRecordDeleted txHash;
    match gone, deleted with
    | Ok true, Err e => unspend_unowned txHash spentUtxos (Some e)
    | Ok true, Ok _ => unspend_unowned txHash spentUtxos None
    | Ok false, Err e => Ret (Some e)
    | Ok false, Ok _ => Ret (Some (err ERR_PROCESSING))
    | Err e, _ => Ret (Some e)
    end.

(** ** The hand-off to block assembly *)
Definition kafkaShedRetryBackoff : Z := 5000000.
Definition defaultBlockAssemblyShedRetryTimeout : Z := 2000000000.
Definition defaultHandoffRoundTripSlack : Z := 500000000.

Definition shedRetryTimeout : Z :=
  if BlockAssemblyShedRetryTimeout settings >? 0 then BlockAssemblyShedRetryTimeout settings
  else defaultBlockAssemblyShedRetryTimeout.

Definition handoffRoundTripSlack : Z :=
  if HandoffRoundTripSlack settings >? 0 then HandoffRoundTripSlack settings
  else defaultHandoffRoundTripSlack.

Definition handoffFloor : Z := Z.max 0 (QueueFullWaitTimeout settings) + handoffRoundTripSlack.

Definition sendToBlockAssembler (data : AssemblyData) : program (option error) :=
  r ← invoke (E_BlockAssemblyStore data);
  match r with
  | Ok _ => Ret None
  | Err e => if error_Is e ERR_THRESHOLD_EXCEEDED then Ret (Some e)
             else Ret (Some (err_wrap ERR_SERVICE_ERROR e))
  end.

Inductive handed :=
  | HandedOff                    (* block assembly took the transaction *)
  | HandOffFailed (e : error)
  | HandOffCancelled (e : error) (* the caller went away while waiting *)
  | HandOffUnfinished.           (* still retrying after [fuel] rounds *)

(** The loop ends by the clock alone: nothing in the code counts its rounds.  A run of
    more than [fuel] rounds has an outcome of its own. *)
Fixpoint retry_hand_off (fuel : nat) (data : AssemblyData) (retryDeadline : Z) (e : error)
  : program handed :=
  if negb (error_Is e ERR_THRESHOLD_EXCEEDED) then Ret (HandOffFailed e) else
  match fuel with
  | O => Ret HandOffUnfinished
  | S fuel =>
      now ← invoke E_Now;
      if negb (now <? retryDeadline) then Ret (HandOffFailed e) else
      ended ← invoke (E_Wait kafkaShedRetryBackoff);
      if ended : bool then Ret (HandOffCancelled (err_wrap ERR_PROCESSING ctx_err)) else
      now ← invoke E_Now;
      if negb (now <? retryDeadline) then Ret (HandOffFailed e) else
      r ← sendToBlockAssembler data;
      match r with
      | None => Ret HandedOff
      | Some e => retry_hand_off fuel data retryDeadline e
      end
  end.

Definition hand_off (fuel : nat) (opts : PipelineOptions) (data : AssemblyData) : program handed :=
  retryDeadline ← (if WaitForBlockAssembly opts
                   then now ← invoke E_Now; Ret (now + (shedRetryTimeout - handoffFloor))
                   else Ret 0);
  r ← sendToBlockAssembler data;
  match r with
  | None => Ret HandedOff
  | Some e =>
      if WaitForBlockAssembly opts && error_Is e ERR_THRESHOLD_EXCEEDED
      then retry_hand_off fuel data retryDeadline e
      else Ret (HandOffFailed e)
  end.

(** More rounds than the backoffs the window holds. *)
Definition retry_fuel : nat :=
  S (S (Z.to_nat ((shedRetryTimeout - handoffFloor) / kafkaShedRetryBackoff))).

(** util.TxMetaDataFromTx and util.TxMetaDataFromTxNoFee *)
Definition txMetaDataFromTx (tx : Tx) (fee : Z) : TxMeta :=
  let ins := if IsCoinbase tx then [] else Inputs tx in
  mkTxMeta (mkData (Some tx) (GetParentTxHashes ins) (GetTxInpoints ins) [] [] [] false false 0) fee.

Definition TxMetaDataFromTx (tx : Tx) : result TxMeta :=
  let? fee := GetFees tx in Ok (txMetaDataFromTx tx fee).

Definition TxMetaDataFromTxNoFee (tx : Tx) : result TxMeta := Ok (txMetaDataFromTx tx 0).

Definition assembly_data (tx : Tx) (md : TxMeta) : AssemblyData :=
  mkAssemblyData (TxIDChainHash tx) (tm_Fee md) (TxSize tx)
    (if bool_decide (d_ParentTxHashes (tm_Data md) = []) then GetTxInpoints (Inputs tx)
     else d_TxInpoints (tm_Data md)).

(** ** The two-phase commit *)
Definition twoPhaseCommitTransaction (tx : Tx) : program (option error) :=
  r ← invoke (E_SetLocked [TxIDChainHash tx] false);
  match r with
  | Ok _ => Ret None
  | Err e => Ret (Some (err_wrap ERR_TX_UNLOCK_FAILED e))
  end.

Definition set_unlocked (m : TxMeta) : TxMeta :=
  let d := tm_Data m in
  mkTxMeta (mkData (d_Tx d) (d_ParentTxHashes d) (d_TxInpoints d) (d_BlockIDs d)
    (d_ConflictingChildren d) (d_SpendingDatas d) (d_Conflicting d) false (d_CreatedAt d)) (tm_Fee m).

(** [persisted] is the metadata of the created record; [same] is whether the caller
    is given that very object. *)
Definition unlockLockedTxOnExit (tx : Tx) (persisted : option TxMeta) (same delivered : bool)
    (v : verdict) : program verdict :=
  match persisted with
  | None => Ret v
  | Some m =>
      if negb (d_Locked (tm_Data m)) || negb delivered || bool_decide (is_Some v.2) then Ret v
      else
        r ← twoPhaseCommitTransaction tx;
        match r with
        | Some e => Ret (v.1, Some e)
        | None => Ret (if same then set_unlocked <$> v.1 else v.1, v.2)
        end
  end.

(** ** The body *)
Definition spend_options (addToBlockAssembly : bool) (opts : PipelineOptions) : StoreOptions :=
  let outpointOnly := OutpointOnlySpend (po_checks opts) in
  mkStoreOptions
    (mkCreateOptions [] None None false false (negb (SkipUtxoCreation opts) && addToBlockAssembly) outpointOnly)
    (mkFlags false (po_IgnoreLocked opts) outpointOnly false)
    false (SkipUtxoCreation opts) false None None.

Definition spendAndCreateInUtxoStore (tx : Tx) (blockHeight : Z) (addToBlockAssembly : bool)
    (opts : PipelineOptions) : program (option TxMeta * Spends * option error) :=
  '(md, spends, e) ← invoke (E_SpendAndCreate tx blockHeight (spend_options addToBlockAssembly opts));
  Ret (md, spends, option_map (err_wrap ERR_PROCESSING) e).

(** What a failed hand-off leaves: an error, or nothing for a transaction of a block. *)
Definition hand_off_failed (tx : Tx) (spends : Spends) (opts : PipelineOptions) (e : error)
  : program (option error) :=
  if error_Is e ERR_THRESHOLD_EXCEEDED then
    if InBlock opts then Ret None
    else
      _ ← unwindShed tx (spends_list spends) (negb (SkipUtxoCreation opts));
      Ret (Some e)
  else Ret (Some (err_wrap ERR_PROCESSING e)).

Definition deliver (tx : Tx) (md : TxMeta) (spends : Spends) (opts : PipelineOptions)
  : program (option error) :=
  r ← hand_off retry_fuel opts (assembly_data tx md);
  match r with
  | HandedOff => Ret None
  | HandOffCancelled e => Ret (Some e)
  | HandOffFailed e => hand_off_failed tx spends opts e
  | HandOffUnfinished => Ret (Some ctx_err) (* the clock stands still: the code goes on retrying *)
  end.

Definition publish_txmeta (tx : Tx) (opts : PipelineOptions) : program unit :=
  if hasTxMetaProducer settings && negb (SkipTxMetaPublishing opts)
  then invoke (E_PublishTxMeta (TxIDChainHash tx) (InBlock opts)) else Ret ().

(** After the spend and the creation: the verdict, and whether the transaction was
    delivered or had nothing to be delivered to. *)
Definition after_persist (tx : Tx) (persisted : option TxMeta) (spends : Spends)
    (addToBlockAssembly : bool) (opts : PipelineOptions) : program (verdict * bool) :=
  let r := if negb (SkipUtxoCreation opts) then match persisted with Some m => Ok m | None => Err panic end
           else wrapR ERR_PROCESSING (if OutpointOnlySpend (po_checks opts) then TxMetaDataFromTxNoFee tx
                                      else TxMetaDataFromTx tx) in
  match r with
  | Err e => Ret ((None, Some e), negb addToBlockAssembly)
  | Ok md =>
      failed ← (if addToBlockAssembly then deliver tx md spends opts else Ret None);
      match failed with
      | Some e => Ret ((None, Some e), false)
      | None => _ ← publish_txmeta tx opts; Ret ((Some md, None), true)
      end
  end.

(** The previous outputs: one question to the store for the inputs whose parents
    were not prefetched. *)
Definition extend_from_store (tx : Tx) (prefetched : gmap Hash MetaData)
  : program (result (list Z * Tx)) :=
  match from_prefetched prefetched 0 (Inputs tx)
          (mkPass (Inputs tx) (replicate (length (Inputs tx)) 0) []) with
  | Err e => Ret (Err e)
  | Ok s =>
      answers ← (if bool_decide (p_pending s = []) then Ret (Ok [])
                 else invoke (E_ParentOutputs (snd <$> p_pending s)));
      let PS := {| ParentOutputsForValidation := λ _, answers |} in
      Ret (getUtxoBlockHeightsAndExtendTx tx prefetched)
  end.

(** [validateTransaction], which extends a transaction that is not extended. *)
Definition run_checks (tx : Tx) (blockHeight : Z) (utxoHeights : list Z)
    (opts : Options) : program (result unit) :=
  answers ← (if negb (OutpointOnlySpend opts) && negb (IsExtended tx) && negb (bool_decide (Inputs tx = []))
             then invoke (E_ParentOutputs (map (λ i, (PreviousTxID i, PreviousTxOutIndex i)) (Inputs tx)))
             else Ret (Ok []));
  v ← invoke E_State;
  let PS := {| ParentOutputsForValidation := λ _, answers |} in
  Ret (validateTransaction v tx (IsExtended tx) blockHeight utxoHeights opts).

(** The checks before anything is written: the transaction as extended, and the
    height it is validated at. *)
Definition checks (tx : Tx) (blockHeight : Z) (opts : PipelineOptions)
  : program (result (ValidatorState * Tx * Z)) :=
  v ← invoke E_State;
  let blockHeight := if blockHeight =? 0 then u32 (bs_Height (v_state v) + 1) else blockHeight in
  match precheckTransaction v tx blockHeight (v_state v) (po_checks opts) with
  | Err e => Ret (Err e)
  | Ok _ =>
      extended ← (if negb (OutpointOnlySpend (po_checks opts)) then extend_from_store tx (PrefetchedParents opts)
                  else Ret (Ok ([], tx)));
      match wrapR ERR_PROCESSING extended with
      | Err e => Ret (Err e)
      | Ok (utxoHeights, tx) =>
          r ← run_checks tx blockHeight utxoHeights (po_checks opts);
          match wrapR ERR_PROCESSING r with
          | Err e => Ret (Err e)
          | Ok _ => Ret (Ok (v, tx, blockHeight))
          end
      end
  end.

Definition write (v : ValidatorState) (tx : Tx) (blockHeight : Z) (opts : PipelineOptions) : program verdict :=
  let addToBlockAssembly := negb (BlockAssemblyDisabled settings) && AddTXToBlockAssembly opts in
  '(persisted, spends, e) ← spendAndCreateInUtxoStore tx blockHeight addToBlockAssembly opts;
  match e with
  | Some e => spend_failed (v_params v) tx blockHeight opts spends e
  | None =>
      '(r, delivered) ← after_persist tx persisted spends addToBlockAssembly opts;
      unlockLockedTxOnExit tx persisted (negb (SkipUtxoCreation opts)) delivered r
  end.

Definition validateInternal (tx : Tx) (blockHeight : Z) (opts : PipelineOptions) : program verdict :=
  r ← checks tx blockHeight opts;
  match r with
  | Err e => Ret (None, Some e)
  | Ok (v, tx, blockHeight) => write v tx blockHeight opts
  end.

(** ** Announcing a rejection *)
Definition publishRejectedTx (hasClient : bool) (tx : Tx) (conflicting : bool) : program unit :=
  if negb (hasPolicyRejectedProducer settings) then Ret () else
  running ← (if hasClient then invoke E_Running else Ret (Ok true));
  match running with
  | Ok true =>
      if (KafkaMaxMessageBytes settings >? 0) && (TxSize tx >? KafkaMaxMessageBytes settings) then Ret ()
      else invoke (E_PublishPolicyRejected (TxIDChainHash tx) conflicting)
  | _ => Ret ()
  end.

(** Whether the announcement of an invalid transaction ended the call. *)
Definition announce_invalid (hasClient : bool) (tx : Tx) (e : error) : program bool :=
  if hasRejectedProducer settings && error_Is e ERR_TX_INVALID then
    running ← (if hasClient then invoke E_Running else Ret (Ok true));
    match running with
    | Ok true => _ ← invoke (E_PublishRejected (TxIDChainHash tx)); Ret false
    | _ => Ret true
    end
  else Ret false.

Definition announce (hasClient : bool) (tx : Tx) (md : option TxMeta) (e : error) : program unit :=
  stop ← announce_invalid hasClient tx e;
  if stop : bool then Ret () else
  _ ← (if error_Is e ERR_TX_POLICY then publishRejectedTx hasClient tx false else Ret ());
  if bool_decide (md = None) && error_Is e ERR_TX_REJECTED_CONFLICTING
  then publishRejectedTx hasClient tx true else Ret ().

(** ** The entry point *)
Definition txLockedBaseBackoff : Z := 10000000.
Definition txLockedMaxSafeRetries : Z := 10.

Definition maxRetries : Z :=
  if TxLockedMaxRetries settings <? 0 then 0
  else if TxLockedMaxRetries settings >? txLockedMaxSafeRetries then txLockedMaxSafeRetries
  else TxLockedMaxRetries settings.

(** The attempts, [remaining] of them retries; the flag is whether the caller went away
    during a backoff. *)
Fixpoint attempts (remaining : nat) (attempt : Z) (tx : Tx) (blockHeight : Z) (opts : PipelineOptions)
  : program (verdict * bool) :=
  v ← validateInternal tx blockHeight opts;
  match v.2 with
  | None => Ret (v, false)
  | Some e =>
      if negb (error_Is e ERR_TX_LOCKED) && negb (error_Is e ERR_TX_CREATING) then Ret (v, false) else
      match remaining with
      | O => Ret (v, false)
      | S remaining =>
          ended ← invoke (E_Wait (2 ^ attempt * txLockedBaseBackoff));
          if ended : bool then Ret ((v.1, Some ctx_err), true)
          else attempts remaining (attempt + 1) tx blockHeight opts
      end
  end.

Definition ValidateWithOptions (hasClient : bool) (tx : Tx) (blockHeight : Z) (opts : PipelineOptions)
  : program verdict :=
  '(v, cancelled) ← attempts (Z.to_nat maxRetries) 0 tx blockHeight opts;
  match v.2 with
  | Some e => if cancelled : bool then Ret v else _ ← announce hasClient tx v.1 e; Ret v
  | None => Ret v
  end.
End Pipeline.
