(* ===== verification/PipelineTheorems.v ===== *)
(** * What the validation of a transaction guarantees

    Whatever the services answer: what a call may do to the store and when, what a
    verdict is evidence of, how long the hand-off waits, and what is announced. *)

From stdpp Require Import list.
From S2P Require Import Prelude External NBits BlockHeader Utxo UtxoSql UtxoSqlOps BlockReward TxRules Extend Validator SpendCreate Effects Pipeline.

Notation event := (event effect).

(** ** Kinds of calls *)
Definition is_read (ev : event) : bool :=
  let 'Ev e _ := ev in
  match e with E_State | E_ParentOutputs _ | E_GetMeta _ | E_ReadParent _ | E_Running | E_Now => true | _ => false end.

(** Block assembly answered that it took the transaction. *)
Definition took (ev : event) : Prop :=
  let 'Ev e x := ev in
  match e in effect X return X → Prop with
  | E_BlockAssemblyStore _ => λ r, r = Ok tt
  | _ => λ _, False
  end x.

(** Block assembly answered that its queue is full. *)
Definition shed (ev : event) : Prop :=
  let 'Ev e x := ev in
  match e in effect X return X → Prop with
  | E_BlockAssemblyStore _ => λ r, ∃ e, r = Err e ∧ error_Is e ERR_THRESHOLD_EXCEEDED = true
  | _ => λ _, False
  end x.

(** The store answered that it has no record of the transaction. *)
Definition absent (hash : Hash) (ev : event) : Prop :=
  let 'Ev e x := ev in
  match e in effect X return X → Prop with
  | E_GetMeta h => λ r, h = hash ∧ ∃ e, r = Err e ∧ error_Is e ERR_TX_NOT_FOUND = true
  | _ => λ _, False
  end x.

(** The spend and creation of the call, with its answer. *)
Definition spent_as (tx : Tx) (r : option TxMeta * Spends * option error) (ev : event) : Prop :=
  let 'Ev e x := ev in
  match e in effect X return X → Prop with
  | E_SpendAndCreate tx' _ o => λ x, tx' = tx ∧ x = r ∧ co_Conflicting (so_create o) = false
  | _ => λ _, False
  end x.

Definition seen (P : event → Prop) (h : list event) : Prop := ∃ ev, ev ∈ h ∧ P ev.

Lemma seen_snoc P h ev : seen P (h ++ [ev]) ↔ seen P h ∨ P ev.
Proof.
  unfold seen. split.
  - intros (x & [Hx|Hx%list_elem_of_singleton]%elem_of_app & HP); [left; eauto|right; by subst].
  - intros [(x & Hx & HP)|HP]; [exists x|exists ev]; rewrite elem_of_app, ?list_elem_of_singleton; auto.
Qed.

Lemma seen_app P h h' : seen P h → seen P (h ++ h').
Proof. intros (x & Hx & HP). exists x. rewrite elem_of_app. auto. Qed.

#[local] Arguments error_Is : simpl never.
#[local] Arguments retry_fuel : simpl never.
#[local] Hint Resolve seen_app : core.

(** Calls that write nothing to the store and hand nothing over. *)
Definition is_quiet (ev : event) : bool :=
  let 'Ev e _ := ev in
  match e with
  | E_SpendAndCreate _ _ _ | E_MarkConflicting _ | E_SetLocked _ _ | E_Unspend _ | E_DeleteComplete _
  | E_BlockAssemblyStore _ => false
  | _ => true
  end.

Lemma holds_seen {A} P (p : program A) h : seen P h → holds p h (λ h _, seen P h).
Proof. intros HP. eapply holds_mono; [|apply holds_extends]. intros h' a [l ->]. by apply seen_app. Qed.

Section Guarantees.
  Context {SC : SafeConversion} {BT : BtTx} {BDK : BdkEngine} {ST : Subtree}.
  Context (settings : PipelineSettings).

Lemma checks_reads tx n opts : only (λ ev, is_read ev = true) (checks tx n opts).
Proof. unfold checks, extend_from_store, run_checks. only_calls done. Qed.

(** ** The rules of one validation *)
Section Rules.
  Context (add : bool) (opts : PipelineOptions) (tx : Tx).

(** A transaction is unlocked only once block assembly took it, or shed it while it
    was part of a block. *)
Definition unlock_rule (before : list event) (ev : event) : Prop :=
  let 'Ev e _ := ev in
  match e with
  | E_SetLocked hashes value =>
      hashes = [TxIDChainHash tx] ∧ value = false ∧
      (add = true → seen took before ∨ InBlock opts = true ∧ seen shed before)
  | _ => True
  end.

(** The store's work is undone only after a shed outside a block; the record is
    deleted only if this call created it, and inputs are freed only right after the
    store answered that it has no record of the transaction. *)
Definition undo_rule (before : list event) (ev : event) : Prop :=
  let 'Ev e _ := ev in
  match e with
  | E_DeleteComplete hash =>
      hash = TxIDChainHash tx ∧ InBlock opts = false ∧ SkipUtxoCreation opts = false ∧ seen shed before
  | E_Unspend spends =>
      InBlock opts = false ∧ seen shed before ∧
      (∃ h last, before = h ++ [last] ∧ absent (TxIDChainHash tx) last) ∧
      ∃ md sps, seen (spent_as tx (md, sps, None)) before ∧ spends = spends_list sps
  | _ => True
  end.

(** A record is created as conflicting, or marked so, only for a block, and only
    after a spend whose every failure is a double spend. *)
Definition double_spend (before : list event) : Prop :=
  CreateConflicting opts = true ∧
  ∃ md sps e, seen (spent_as tx (md, sps, Some e)) before ∧
    failed_spends sps ≠ [] ∧ Forall (λ e, spendConflicts e = true) (failed_spends sps).

Lemma double_spend_app h l : double_spend h → double_spend (h ++ l).
Proof. intros (H1 & md & sps & e & H2 & H3). split; [done|]. exists md, sps, e. auto. Qed.

Definition conflict_rule (before : list event) (ev : event) : Prop :=
  let 'Ev e _ := ev in
  match e with
  | E_SpendAndCreate _ _ o => co_Conflicting (so_create o) = true → double_spend before
  | E_MarkConflicting hashes => hashes = [TxIDChainHash tx] ∧ double_spend before
  | _ => True
  end.

Definition rules (before : list event) (ev : event) : Prop :=
  unlock_rule before ev ∧ undo_rule before ev ∧ conflict_rule before ev.

Lemma quiet_rules before ev : is_quiet ev = true → rules before ev.
Proof. destruct ev as [X [] x]; done. Qed.

Lemma quiet_allowed {A} (p : program A) h : only (λ ev, is_quiet ev = true) p →
  allowed rules h → holds p h (λ h _, allowed rules h).
Proof. intros Hp. apply (only_allowed _ _ _ _ Hp). apply quiet_rules. Qed.

Lemma unruled {X} (e : effect X) x h : allowed rules h →
  match e with E_SetLocked _ _ | E_DeleteComplete _ | E_Unspend _ | E_SpendAndCreate _ _ _ | E_MarkConflicting _ => False
             | _ => True end →
  allowed rules (h ++ [Ev e x]).
Proof. intros Hh He. apply allowed_snoc. split; [done|]. by destruct e. Qed.

(** ** The hand-off *)
Definition handed_well (h : list event) (r : handed) : Prop :=
  match r with
  | HandedOff => seen took h
  | HandOffFailed e => error_Is e ERR_THRESHOLD_EXCEEDED = true → seen shed h
  | HandOffCancelled _ | HandOffUnfinished => True
  end.

Lemma send_well data h : allowed rules h →
  holds (sendToBlockAssembler data) h (λ h r, allowed rules h ∧
    handed_well h match r with None => HandedOff | Some e => HandOffFailed e end).
Proof.
  intros Hh. unfold sendToBlockAssembler. cbn. intros r.
  assert (allowed rules (h ++ [Ev (E_BlockAssemblyStore data) r])) by (by apply unruled).
  destruct r as [[]|e]; cbn; [split; [done|]; apply seen_snoc; by right|].
  destruct (error_Is e ERR_THRESHOLD_EXCEEDED) eqn:Ee; cbn.
  - split; [done|]. intros _. apply seen_snoc. right. by exists e.
  - split; [done|]. by rewrite error_Is_wrap.
Qed.

Lemma retry_well fuel data deadline e h : allowed rules h → seen shed h →
  holds (retry_hand_off fuel data deadline e) h (λ h r, allowed rules h ∧ handed_well h r).
Proof.
  revert e h. induction fuel as [|fuel IH]; intros e h Hh Hs; cbn [retry_hand_off].
  { destruct (negb _); cbn; by split. }
  destruct (negb _); [cbn; by split|]. cbn. intros now.
  assert (Hh1 : allowed rules (h ++ [Ev E_Now now])) by (by apply unruled).
  destruct (negb _); [cbn; split; [done|]; intros _; by apply seen_app|]. cbn. intros ended.
  assert (Hh2 := unruled (E_Wait kafkaShedRetryBackoff) ended _ Hh1 I).
  destruct ended; [cbn; by split|]. cbn. intros now'.
  assert (Hh3 := unruled E_Now now' _ Hh2 I).
  assert (Hs3 : seen shed (((h ++ [Ev E_Now now]) ++ [Ev (E_Wait kafkaShedRetryBackoff) false]) ++ [Ev E_Now now']))
    by (by rewrite !seen_snoc; auto).
  destruct (negb _); [cbn; by split|].
  change (holds (sendToBlockAssembler data ≫= λ r, match r with None => Ret HandedOff
    | Some e => retry_hand_off fuel data deadline e end)
    (((h ++ [Ev E_Now now]) ++ [Ev (E_Wait kafkaShedRetryBackoff) false]) ++ [Ev E_Now now'])
    (λ h r, allowed rules h ∧ handed_well h r)).
  apply holds_bind. eapply holds_mono; [|apply holds_and; [by apply send_well|by apply holds_seen, Hs3]].
  intros h' [e'|] [[Hh' Hw] Hs']; cbn; [by apply IH|by split].
Qed.

Lemma hand_off_well fuel data h : allowed rules h →
  holds (hand_off settings fuel opts data) h (λ h r, allowed rules h ∧ handed_well h r).
Proof.
  intros Hh. unfold hand_off. apply holds_bind.
  eapply holds_mono; [|apply (quiet_allowed _ h); [only_calls done|done]].
  intros h1 deadline Hh1. cbv beta. apply holds_bind. eapply holds_mono; [|by apply send_well].
  intros h2 [e|] [Hh2 Hw]; cbn; [|by split].
  destruct (WaitForBlockAssembly opts && _) eqn:E; [|by split].
  apply andb_true_iff in E as [_ E]. apply retry_well; [done|]. by apply Hw.
Qed.

(** ** The unwinding of a shed *)
Lemma verify_attempts_well n first e h : allowed rules h →
  holds (verify_attempts n first e (TxIDChainHash tx)) h (λ h r, allowed rules h ∧
    (r = Ok true → ∃ h0 last, h = h0 ++ [last] ∧ absent (TxIDChainHash tx) last)).
Proof.
  revert first e h. induction n as [|n IH]; intros first e h Hh; cbn [verify_attempts]; [by split|].
  apply holds_bind. eapply holds_mono; [|apply (quiet_allowed _ h); [only_calls done|done]].
  intros h1 [|] Hh1; [by split|]. cbn. intros stored.
  assert (Hh2 := unruled (E_GetMeta (TxIDChainHash tx)) stored _ Hh1 I).
  destruct stored as [m|e']; [by split|]. destruct (error_Is e' ERR_TX_NOT_FOUND) eqn:E; [|by apply IH].
  cbn. split; [done|]. intros _. do 2 eexists. split; [done|]. split; [done|]. by exists e'.
Qed.

Context (Hblock : InBlock opts = false).

Lemma unspend_unowned_well spends pending h : allowed rules h → seen shed h →
  (∃ md sps, seen (spent_as tx (md, sps, None)) h ∧ spends = spends_list sps) →
  holds (unspend_unowned (TxIDChainHash tx) spends pending) h (λ h _, allowed rules h).
Proof.
  intros Hh Hs (md & sps & Hsp & ->). unfold unspend_unowned. case_bool_decide; [done|].
  apply holds_bind. eapply holds_mono; [|apply holds_and; [by apply verify_attempts_well|
    apply holds_and; [by apply holds_seen, Hs|by apply holds_seen, Hsp]]].
  intros h1 [[|]|e] [[Hh1 Hg] [Hs1 Hsp1]]; cbn; [|done|done]. intros r.
  assert (allowed rules (h1 ++ [Ev (E_Unspend (spends_list sps)) r])); [|by destruct r].
  apply allowed_snoc. split; [done|]. split_and!; [done| |done]. split_and!; [done|done|by apply Hg|eauto].
Qed.

Lemma unwindShed_well sps md h : allowed rules h → seen shed h → seen (spent_as tx (md, sps, None)) h →
  holds (unwindShed tx (spends_list sps) (negb (SkipUtxoCreation opts))) h (λ h _, allowed rules h).
Proof.
  intros Hh Hs Hsp. unfold unwindShed. destruct (SkipUtxoCreation opts) eqn:Ek; cbn [negb].
  { apply unspend_unowned_well; eauto. }
  apply holds_call. intros deleted.
  assert (Hh1 : allowed rules (h ++ [Ev (E_DeleteComplete (TxIDChainHash tx)) deleted])) by (by apply allowed_snoc).
  set (h1 := h ++ _) in *.
  assert (Hs1 : seen shed h1) by (by apply seen_app). assert (Hsp1 := seen_app _ _ [Ev (E_DeleteComplete (TxIDChainHash tx)) deleted] Hsp).
  apply holds_bind. eapply holds_mono; [|apply holds_and; [by apply verify_attempts_well|
    apply holds_and; [by apply holds_seen, Hs1|by apply holds_seen, Hsp1]]].
  intros h2 gone [[Hh2 _] [Hs2 Hsp2]]. destruct gone as [[|]|e], deleted as [[]|e'];
    first [exact Hh2|apply unspend_unowned_well; [done|done|by exists md, sps]].
Qed.
End Rules.

(** ** The whole of one validation *)
Section Whole.
  Context (add : bool) (opts : PipelineOptions) (tx : Tx).

Abbreviation rules := (rules add opts tx).

Lemma deliver_well md sps p h : allowed rules h → seen (spent_as tx (p, sps, None)) h →
  holds (deliver settings tx md sps opts) h (λ h r, allowed rules h ∧
    (r = None → seen took h ∨ InBlock opts = true ∧ seen shed h)).
Proof.
  intros Hh Hsp. unfold deliver. apply holds_bind.
  eapply holds_mono; [|apply holds_and; [by apply hand_off_well|by apply holds_seen, Hsp]].
  intros h1 [|e|e|] [[Hh1 Hw] Hsp1]; cbn in *; [by auto| |done|done]. unfold hand_off_failed.
  destruct (error_Is e ERR_THRESHOLD_EXCEEDED) eqn:Ee; [|done].
  destruct (InBlock opts) eqn:Eb; [cbn; auto|]. apply holds_bind.
  eapply holds_mono; [|apply (unwindShed_well add opts tx Eb sps p); [done|by apply Hw|done]].
  cbn. done.
Qed.

Lemma after_persist_well p sps h : allowed rules h → seen (spent_as tx (p, sps, None)) h →
  holds (after_persist settings tx p sps add opts) h (λ h r, allowed rules h ∧
    (r.2 = true → add = true → seen took h ∨ InBlock opts = true ∧ seen shed h)).
Proof.
  intros Hh Hsp. unfold after_persist. destruct (if negb (SkipUtxoCreation opts) then _ else _) as [md|e].
  2: { cbn [holds snd]. split; [done|]. by destruct add. }
  apply holds_bind. set (P := λ (h : list event) (r : option error), allowed rules h ∧
    (r = None → add = true → seen took h ∨ InBlock opts = true ∧ seen shed h)).
  apply (holds_mono _ _ P).
  2: { pose proof (deliver_well md sps p h Hh Hsp) as HD. unfold P. clear P.
       destruct add; [|by split]. eapply holds_mono; [|exact HD].
       intros h' r [H1 H2]. auto. }
  intros h1 [e|] [Hh1 Hw]; [by split|]. apply holds_bind.
  eapply holds_mono; [|apply holds_and; [apply (quiet_allowed add opts tx _ h1); [|done]|apply holds_extends]].
  - intros h2 [] [Hh2 [l ->]]. cbn. split; [done|]. intros _ Ha. destruct (Hw eq_refl Ha) as [?|[? ?]]; auto.
  - unfold publish_txmeta. only_calls done.
Qed.

Lemma unlock_well p same delivered v h : allowed rules h →
  (delivered = true → add = true → seen took h ∨ InBlock opts = true ∧ seen shed h) →
  holds (unlockLockedTxOnExit tx p same delivered v) h (λ h _, allowed rules h).
Proof.
  intros Hh Hd. unfold unlockLockedTxOnExit. destruct p as [m|]; [|done].
  destruct (_ || _ || _) eqn:E; [done|]. apply orb_false_iff in E as [[_ Hdel%negb_false_iff]%orb_false_iff _].
  cbn. intros r. assert (allowed rules (h ++ [Ev (E_SetLocked [TxIDChainHash tx] false) r])).
  { apply allowed_snoc. split; [done|]. split_and!; [|done|done]. split_and!; [done|done|auto]. }
  by destruct r.
Qed.

(** ** The branches of a failed spend *)
Lemma immature_parent_reads params n read spends :
  only (λ ev, is_read ev = true) (immature_parent params n read spends).
Proof.
  revert read. induction spends as [|[sp e] spends IH]; intros read; cbn [immature_parent]; [done|].
  destruct (_ || _); [apply IH|]. apply only_bind; [by apply only_invoke|]. intros answer.
  destruct (wrapR _ _) as [parent|]; [|done]. destruct (immatureCoinbase _ _ _); [apply IH|done].
Qed.

Lemma read_quiet ev : is_read ev = true → is_quiet ev = true.
Proof. by destruct ev as [X [] x]. Qed.

Lemma save_conflicting_well n e h : allowed rules h → double_spend opts tx h →
  holds (save_conflicting settings tx n opts e) h (λ h _, allowed rules h).
Proof.
  intros Hh Hd. unfold save_conflicting. cbn. intros [[md sps] ce].
  assert (Hh1 : allowed rules (h ++ [Ev (E_SpendAndCreate tx n (conflicting_options opts)) (md, sps, ce)])).
  { apply allowed_snoc. split; [done|]. split_and!; [done|done|]. by intros _. }
  destruct ce as [ce|]; [|done]. destruct (error_Is ce ERR_TX_EXISTS); [|done]. cbn. intros stored.
  assert (Hh2 := unruled add opts tx (E_GetMeta (TxIDChainHash tx)) stored _ Hh1 I).
  destruct stored as [m|]; [|done]. destruct (negb _); [|done]. cbn. intros [r marked].
  apply holds_bind.
  eapply holds_mono; [|apply (quiet_allowed add opts tx)].
  - intros h3 [] Hh3. by destruct r.
  - unfold sendTxMetaDeletesToKafka. only_calls done.
  - apply allowed_snoc. split; [done|]. split_and!; [done|done|]. split; [done|]. by do 2 apply double_spend_app.
Qed.

Lemma utxo_error_well params n md sps e0 e h : allowed rules h → seen (spent_as tx (md, sps, Some e0)) h →
  holds (utxo_error settings params tx n opts sps e) h (λ h _, allowed rules h).
Proof.
  intros Hh Hsp. unfold utxo_error. apply holds_bind.
  eapply holds_mono; [|apply holds_and; [apply (quiet_allowed add opts tx _ h); [|done]|by apply holds_seen, Hsp]].
  2: { destruct (_ && _); [|done]. eapply only_mono; [apply read_quiet|apply immature_parent_reads]. }
  intros h1 [found|] [Hh1 Hsp1]; [|done].
  destruct (CreateConflicting opts && _ && _) eqn:Es; [|by repeat case_match].
  apply andb_true_iff in Es as [[Hc Hne]%andb_true_iff [Hall _]%andb_true_iff].
  apply save_conflicting_well; [done|]. split; [done|]. exists md, sps, e0. split_and!; [done| |].
  - by apply negb_true_iff, bool_decide_eq_false in Hne.
  - apply Forall_forall. intros x Hx. rewrite forallb_forall in Hall. by apply Hall, list_elem_of_In.
Qed.

Lemma spend_failed_well params n md sps e0 e h : allowed rules h → seen (spent_as tx (md, sps, Some e0)) h →
  holds (spend_failed settings params tx n opts sps e) h (λ h _, allowed rules h).
Proof.
  intros Hh Hsp. unfold spend_failed. destruct (error_Is e ERR_TX_EXISTS).
  { apply (quiet_allowed add opts tx); [only_calls done|done]. }
  destruct (error_Is e ERR_UTXO_ERROR); [by eapply utxo_error_well|].
  apply (quiet_allowed add opts tx); [only_calls done|done].
Qed.

End Whole.

Definition adds (opts : PipelineOptions) : bool :=
  negb (BlockAssemblyDisabled settings) && AddTXToBlockAssembly opts.

Lemma write_well opts tx v n h : allowed (rules (adds opts) opts tx) h →
  holds (write settings v tx n opts) h (λ h _, allowed (rules (adds opts) opts tx) h).
Proof.
  intros Hh. unfold write, spendAndCreateInUtxoStore. cbn. intros [[md sps] e].
  assert (Hh1 : allowed (rules (adds opts) opts tx) (h ++ [Ev (E_SpendAndCreate tx n (spend_options (adds opts) opts)) (md, sps, e)])).
  { apply allowed_snoc. split; [done|]. by split_and!. }
  assert (Hsp : seen (spent_as tx (md, sps, e)) (h ++ [Ev (E_SpendAndCreate tx n (spend_options (adds opts) opts)) (md, sps, e)])).
  { apply seen_snoc. right. done. }
  destruct e as [e|]; cbn; [by eapply spend_failed_well|]. apply holds_bind.
  eapply holds_mono; [|by apply after_persist_well]. intros h1 [r delivered] [Hh2 Hd].
  by apply unlock_well.
Qed.

(** ** The checks *)

(** Two transactions that differ only in what is known of the spent outputs. *)
Definition strip (i : TxInput) : Hash * Z * option (list byte) * Z :=
  (PreviousTxID i, PreviousTxOutIndex i, UnlockingScript i, SequenceNumber i).

Definition same_but_previous (tx tx' : Tx) : Prop :=
  TxVersion tx' = TxVersion tx ∧ Outputs tx' = Outputs tx ∧ LockTime tx' = LockTime tx ∧
  map strip (Inputs tx') = map strip (Inputs tx).

Lemma from_prefetched_strip prefetched i todo s s' :
  (∀ k input, todo !! k = Some input → strip <$> p_inputs s !! (i + k)%nat = Some (strip input)) →
  from_prefetched prefetched i todo s = Ok s' → map strip (p_inputs s') = map strip (p_inputs s).
Proof.
  revert i s. induction todo as [|input todo IH]; intros i s Hi; cbn [from_prefetched]; [by intros [= <-]|].
  pose proof (Hi 0%nat input eq_refl) as H0. rewrite Nat.add_0_r in H0.
  apply fmap_Some in H0 as (x & Hx & Hxs).
  destruct (prefetched !! PreviousTxID input ≫= _) as [[pf ptx]|]; cbn [bindR].
  2: { intros H. apply IH in H; [done|]. intros k y Hk. rewrite Nat.add_succ_comm. by apply (Hi (S k)). }
  unfold extendInputFromPrefetchedParent. destruct (Outputs ptx !! _) as [[o|]|]; [|done|done]. cbn [bindR].
  assert (E : map strip (<[i := with_output input (Satoshis o) (LockingScript o)]> (p_inputs s)) = map strip (p_inputs s)).
  { change (strip <$> <[i := with_output input (Satoshis o) (LockingScript o)]> (p_inputs s) = strip <$> p_inputs s).
    rewrite list_fmap_insert. apply list_insert_id. rewrite list_lookup_fmap, Hx. cbn. by rewrite <- Hxs. }
  intros H. apply IH in H; [cbn [p_inputs] in H; by rewrite H|].
  intros k y Hk. cbn [p_inputs]. rewrite Nat.add_succ_comm, list_lookup_insert_ne by lia. by apply (Hi (S k)).
Qed.

Lemma from_answers_strip answers pending s s' :
  from_answers answers pending s = Ok s' → map strip (p_inputs s') = map strip (p_inputs s).
Proof.
  revert pending s. induction answers as [|a answers IH]; intros [|[i op] pending] s; cbn [from_answers];
    try (by intros [= <-]).
  intros (z & _ & H)%bindR_Ok. apply IH in H. rewrite H. cbn [p_inputs].
  apply list_eq. intros j. change (map strip ?l) with (strip <$> l). rewrite !list_lookup_fmap.
  destruct (decide (j = i)) as [->|Hne]; [|by rewrite list_lookup_alter_ne].
  rewrite list_lookup_alter_eq. by destruct (p_inputs s !! i).
Qed.

Lemma extended_same `{ParentStore} tx prefetched hs tx' :
  getUtxoBlockHeightsAndExtendTx tx prefetched = Ok (hs, tx') → same_but_previous tx tx'.
Proof.
  unfold getUtxoBlockHeightsAndExtendTx. intros (s & Hs & Hr)%bindR_Ok.
  apply from_prefetched_strip in Hs; [|intros k input Hk; cbn [p_inputs]; by rewrite Nat.add_0_l, Hk]. cbn [p_inputs] in Hs.
  case_bool_decide; [injection Hr as <- <-; by split_and!|].
  apply bindR_Ok in Hr as (answers & _ & Hr). case_bool_decide; [|done]. cbn [bindR] in Hr.
  apply bindR_Ok in Hr as (s' & Hs' & [= <- <-]). apply from_answers_strip in Hs'.
  split_and!; [done..|]. cbn. by rewrite Hs'.
Qed.

(** The calls that extend a transaction: every input whose parent was handed in as
    metadata is written from that parent, every other from the store's answer to the
    question asked for it, and nothing that arrived with the transaction plays a part. *)
Definition extended_from_store (prefetched : gmap Hash MetaData) (tx : Tx) (ext : list event)
    (heights : list Z) (tx' : Tx) : Prop :=
  ∃ ask answers, length answers = length ask ∧ extended_by prefetched tx ask answers heights tx' ∧
    ext = (if bool_decide (ask = []) then [] else [Ev (E_ParentOutputs (snd <$> ask)) (Ok answers)]).

(** The checks of the extended transaction: its parents are read once more when it
    still lacks a script, and the validator's state is read. *)
Definition checked_by (tx : Tx) (n : Z) (heights : list Z) (o : Options) (chk : list event) : Prop :=
  ∃ answers v asked, chk = asked ++ [Ev E_State v] ∧
    asked = (if negb (OutpointOnlySpend o) && negb (IsExtended tx) && negb (bool_decide (Inputs tx = []))
             then [Ev (E_ParentOutputs (map (λ i, (PreviousTxID i, PreviousTxOutIndex i)) (Inputs tx))) answers]
             else []) ∧
    validateTransaction (PS := {| ParentOutputsForValidation := λ _, answers |}) v tx (IsExtended tx) n heights o = Ok ().

(** What passing the checks means, call by call: the state read first accepted the
    transaction as submitted, the transaction was extended from the recorded answers,
    and every rule accepted the result at that height. *)
Definition passed (tx : Tx) (n : Z) (opts : PipelineOptions) (reads : list event)
    (v : ValidatorState) (tx' : Tx) (n' : Z) : Prop :=
  same_but_previous tx tx' ∧
  n' = (if n =? 0 then u32 (bs_Height (v_state v) + 1) else n) ∧
  precheckTransaction v tx n' (v_state v) (po_checks opts) = Ok () ∧
  ∃ ext chk heights, reads = Ev E_State v :: ext ++ chk ∧
    (if OutpointOnlySpend (po_checks opts) then ext = [] ∧ heights = [] ∧ tx' = tx
     else extended_from_store (PrefetchedParents opts) tx ext heights tx') ∧
    checked_by tx' n' heights (po_checks opts) chk.

Lemma extend_from_store_ok tx prefetched :
  holds (extend_from_store tx prefetched) [] (λ l r, ∀ hs tx', r = Ok (hs, tx') →
    same_but_previous tx tx' ∧ extended_from_store prefetched tx l hs tx').
Proof.
  unfold extend_from_store. fold (first_pass prefetched tx).
  destruct (first_pass prefetched tx) as [s|e] eqn:Es; [|done].
  assert (Hany : ∀ (PS : ParentStore) hs tx', getUtxoBlockHeightsAndExtendTx tx prefetched = Ok (hs, tx') →
    same_but_previous tx tx' ∧ ∃ answers,
      (if bool_decide (p_pending s = []) then answers = []
       else ParentOutputsForValidation (snd <$> p_pending s) = Ok answers) ∧
      length answers = length (p_pending s) ∧ extended_by prefetched tx (p_pending s) answers hs tx').
  { intros PS hs tx' H. split; [by eapply extended_same|].
    destruct (extend_positional tx prefetched hs tx' H) as (s' & answers & Hs' & H').
    rewrite Es in Hs'. injection Hs' as <-. by exists answers. }
  case_bool_decide as He; cbn; [|intros answers0]; intros hs tx' Hr;
    destruct (Hany _ _ _ Hr) as (Hsame & answers & Hask & Hlen & Hext); (split; [done|]);
    exists (p_pending s), answers; split_and!; try done.
  - by rewrite bool_decide_true.
  - rewrite bool_decide_false by done. cbn in Hask. by rewrite Hask.
Qed.

Lemma run_checks_ok tx n heights o :
  holds (run_checks tx n heights o) [] (λ l r, r = Ok () → checked_by tx n heights o l).
Proof.
  unfold run_checks, checked_by. destruct (_ && _ && _); cbn.
  - intros answers v Hr. by exists answers, v, [Ev (E_ParentOutputs
      (map (λ i, (PreviousTxID i, PreviousTxOutIndex i)) (Inputs tx))) answers].
  - intros v Hr. by exists (Ok []), v, [].
Qed.

Lemma checks_ok tx n opts :
  holds (checks tx n opts) [] (λ l r, ∀ v tx' n', r = Ok (v, tx', n') → passed tx n opts l v tx' n').
Proof.
  unfold checks. apply holds_call. intros v. cbv zeta. set (n1 := if n =? 0 then _ else _).
  destruct (precheckTransaction _ _ _ _ _) as [[]|e] eqn:Ep; [|done]. apply holds_bind.
  set (P := λ (l : list event) (r : result (list Z * Tx)), ∃ ext, l = [Ev E_State v] ++ ext ∧
    ∀ hs tx', r = Ok (hs, tx') → same_but_previous tx tx' ∧
      if OutpointOnlySpend (po_checks opts) then ext = [] ∧ hs = [] ∧ tx' = tx
      else extended_from_store (PrefetchedParents opts) tx ext hs tx').
  apply (holds_mono _ _ P).
  2: { unfold P. destruct (OutpointOnlySpend (po_checks opts)); cbn [negb].
       - exists []. split; [done|]. by intros hs tx' [= <- <-].
       - apply holds_shift. eapply holds_mono; [|apply extend_from_store_ok]. intros l r Hr. by exists l. }
  intros h1 [[hs tx']|e] (ext & -> & HP); cbn [wrapR]; [|done]. destruct (HP hs tx' eq_refl) as [Hsame Hext].
  apply holds_bind, holds_shift. eapply holds_mono; [|apply run_checks_ok].
  intros chk [[]|e] Hr; cbn [wrapR]; [|done]. intros ? ? ? [= <- <- <-].
  split_and!; [done|done|done|]. exists ext, chk, hs. split_and!; [by rewrite <- app_assoc|done|by apply Hr].
Qed.

Lemma validateInternal_rules tx n opts :
  holds (validateInternal settings tx n opts) [] (λ h _, ∃ tx', same_but_previous tx tx' ∧
    allowed (rules (adds opts) opts tx') h).
Proof.
  unfold validateInternal. apply holds_bind.
  eapply holds_mono; [|apply holds_and; [apply only_holds, checks_reads|apply checks_ok]].
  intros h r [(l & -> & Hl) Hok].
  assert (Hh : ∀ tx', allowed (rules (adds opts) opts tx') ([] ++ l)).
  { intros tx'. apply allowed_app; [apply allowed_nil|]. intros b ev c ->. apply quiet_rules, read_quiet.
    by apply Forall_app in Hl as [_ [? _]%Forall_cons]. }
  destruct r as [[[v tx'] n']|e]; [|exists tx; split; [by split_and!|apply Hh]].
  destruct (Hok v tx' n' eq_refl) as [Hsame _].
  eapply holds_mono; [|apply write_well, Hh]. intros h' a Hr. by exists tx'.
Qed.

Lemma allowed_impl (P Q : list event → event → Prop) h :
  (∀ b ev, P b ev → Q b ev) → allowed P h → allowed Q h.
Proof. intros H HP b ev a Hh. by apply H, (HP b ev a). Qed.

(** A transaction is unlocked only once block assembly took it, or shed it while
    it was part of a block; nothing else unlocks, and nothing ever locks.  So no
    transaction that no template holds becomes spendable, whatever fails. *)
Theorem unlocked_only_when_delivered tx n opts :
  holds (validateInternal settings tx n opts) [] (λ h _, ∃ tx', same_but_previous tx tx' ∧
    allowed (unlock_rule (adds opts) opts tx') h).
Proof.
  eapply holds_mono; [|apply validateInternal_rules]. intros h a (tx' & Hs & H). exists tx'.
  split; [done|]. eapply allowed_impl; [|exact H]. by intros b ev [? _].
Qed.

(** C7: the store's work is undone only after block assembly shed the transaction
    outside a block.  The record is deleted only if this call created it, and the
    inputs freed are those this call spent, right after the store answered that it has
    no record of the transaction: no record that is still there loses its inputs. *)
Theorem shed_frees_no_live_inputs tx n opts :
  holds (validateInternal settings tx n opts) [] (λ h _, ∃ tx', same_but_previous tx tx' ∧
    allowed (undo_rule opts tx') h).
Proof.
  eapply holds_mono; [|apply validateInternal_rules]. intros h a (tx' & Hs & H). exists tx'.
  split; [done|]. eapply allowed_impl; [|exact H]. by intros b ev (_ & ? & _).
Qed.

(** A record is written as conflicting, or marked so, only on behalf of a block
    and only when every failed spend of the transaction, of which there is one, is a
    double spend; another failure (an immature coinbase, a frozen output) is never
    recorded as a conflict. *)
Theorem conflicts_only_double_spends tx n opts :
  holds (validateInternal settings tx n opts) [] (λ h _, ∃ tx', same_but_previous tx tx' ∧
    allowed (conflict_rule opts tx') h).
Proof.
  eapply holds_mono; [|apply validateInternal_rules]. intros h a (tx' & Hs & H). exists tx'.
  split; [done|]. eapply allowed_impl; [|exact H]. by intros b ev (_ & _ & ?).
Qed.
End Guarantees.
