(* ===== verification/PipelineGuarantees.v ===== *)
(** * What a verdict of the validator is evidence of

    Acceptance, the bounds of the hand-off and of the retries, and what is announced;
    over the rules of PipelineTheorems. *)

From stdpp Require Import list.
From S2P Require Import Prelude External NBits BlockHeader Utxo UtxoSql UtxoSqlOps BlockReward TxRules Extend Validator SpendCreate Effects Pipeline PipelineTheorems.

#[local] Arguments error_Is : simpl never.
#[local] Arguments retry_fuel : simpl never.

(** ** Acceptance *)

(** The store answered with that metadata. *)
Definition stored_as (hash : Hash) (m : TxMeta) (ev : event) : Prop :=
  let 'Ev e x := ev in
  match e in effect X return X → Prop with
  | E_GetMeta h => λ r, h = hash ∧ r = Ok m
  | _ => λ _, False
  end x.

(** The spend and creation of the call, at its height and with its options, with its answer. *)
Definition spent_with (tx : Tx) (n : Z) (o : StoreOptions) (r : option TxMeta * Spends * option error)
    (ev : event) : Prop :=
  let 'Ev e x := ev in
  match e in effect X return X → Prop with
  | E_SpendAndCreate tx' n' o' => λ x, tx' = tx ∧ n' = n ∧ o' = o ∧ x = r
  | _ => λ _, False
  end x.

Definition unlocked (hash : Hash) (ev : event) : Prop :=
  let 'Ev e x := ev in
  match e in effect X return X → Prop with
  | E_SetLocked hashes value => λ r, hashes = [hash] ∧ value = false ∧ r = Ok tt
  | _ => λ _, False
  end x.

Section Acceptance.
  Context {SC : SafeConversion} {BT : BtTx} {BDK : BdkEngine} {ST : Subtree}.
  Context (settings : PipelineSettings) (opts : PipelineOptions) (tx : Tx).

(** What accepts a transaction: this call spent its inputs (and created its record,
    unless the options skip the creation), handed it over and unlocked it; or the store
    holds a record of it already, whatever state that record is in; or its parents are
    gone and its own record is mined, not conflicting and not locked. *)
Definition written (n : Z) (h : list event) : Prop :=
  ∃ p sps, seen (spent_with tx n (spend_options (adds settings opts) opts) (p, sps, None)) h ∧
    (adds settings opts = true → seen took h ∨ InBlock opts = true ∧ seen shed h) ∧
    (∀ m, p = Some m → d_Locked (tm_Data m) = true → seen (unlocked (TxIDChainHash tx)) h).

Definition known (n : Z) (h : list event) (md : option TxMeta) : Prop :=
  ∃ p sps e m, seen (spent_with tx n (spend_options (adds settings opts) opts) (p, sps, Some e)) h ∧ md = Some m ∧
    seen (stored_as (TxIDChainHash tx) m) h ∧
    (error_Is (err_wrap ERR_PROCESSING e) ERR_TX_EXISTS = true ∨
     error_Is (err_wrap ERR_PROCESSING e) ERR_TX_NOT_FOUND = true ∧ blessed (tm_Data m) = true).

Definition accepted (n : Z) (h : list event) (md : option TxMeta) : Prop := written n h ∨ known n h md.

Lemma save_conflicting_refuses n e h :
  holds (save_conflicting settings tx n opts e) h (λ _ r, is_Some r.2).
Proof.
  unfold save_conflicting. apply holds_call. intros [[md sps] [ce|]]; [|by eexists].
  destruct (error_Is ce ERR_TX_EXISTS); [|by eexists]. apply holds_call. intros [m|]; [|by eexists].
  destruct (negb _); [|by eexists]. apply holds_call. intros [r marked]. apply holds_bind.
  eapply holds_mono; [|apply holds_extends]. intros h1 _ _. destruct r; by eexists.
Qed.

Lemma utxo_error_refuses params n sps e h :
  holds (utxo_error settings params tx n opts sps e) h (λ _ r, is_Some r.2).
Proof.
  unfold utxo_error. apply holds_bind. eapply holds_mono; [|apply holds_extends].
  intros h1 [found|e1] _; [|by eexists].
  destruct (CreateConflicting opts && _ && _); [apply save_conflicting_refuses|].
  destruct (bool_decide (is_Some _) && _); by eexists.
Qed.

Lemma spend_failed_known params n p sps e h :
  seen (spent_with tx n (spend_options (adds settings opts) opts) (p, sps, Some e)) h →
  holds (spend_failed settings params tx n opts sps (err_wrap ERR_PROCESSING e)) h
    (λ h r, r.2 = None → known n h r.1).
Proof.
  intros Hsp. unfold spend_failed. destruct (error_Is _ ERR_TX_EXISTS) eqn:Ex.
  { apply holds_call. intros [m|]; [|done]. intros _. exists p, sps, e, m.
    split_and!; [by apply seen_app|done| |by left]. apply seen_snoc. by right. }
  destruct (error_Is _ ERR_UTXO_ERROR).
  { eapply holds_mono; [|apply utxo_error_refuses]. intros h' r [? ?]. congruence. }
  destruct (error_Is _ ERR_TX_NOT_FOUND) eqn:En; [|done].
  apply holds_call. intros [m|]; [|done]. destruct (blessed (tm_Data m)) eqn:Eb; [|done].
  intros _. exists p, sps, e, m. split_and!; [by apply seen_app|done| |by right]. apply seen_snoc. by right.
Qed.

Lemma after_persist_delivered p sps add h :
  holds (after_persist settings tx p sps add opts) h (λ _ r, r.1.2 = None → r.2 = true).
Proof.
  unfold after_persist. destruct (if negb (SkipUtxoCreation opts) then _ else _); [|done].
  apply holds_bind. eapply holds_mono; [|apply holds_extends]. intros h1 [e|] _; [done|].
  apply holds_bind. eapply holds_mono; [|apply holds_extends]. done.
Qed.

Lemma unlock_seen p same v h :
  holds (unlockLockedTxOnExit tx p same true v) h (λ h r, r.2 = None → v.2 = None ∧
    ∀ m, p = Some m → d_Locked (tm_Data m) = true → seen (unlocked (TxIDChainHash tx)) h).
Proof.
  unfold unlockLockedTxOnExit. destruct p as [m|]; [|cbn; intros ->; split; [done|]; by intros m].
  destruct (d_Locked (tm_Data m)) eqn:El; cbn [negb orb].
  2: { cbn. intros ->. split; [done|]. intros m' [= ->]. congruence. }
  destruct v as [md [e|]]; cbn; [done|]. intros [[]|e]; cbn; [|done].
  intros _. split; [done|]. intros m' _ _. apply seen_snoc. by right.
Qed.

Lemma write_accepts v n h : allowed (rules (adds settings opts) opts tx) h →
  holds (write settings v tx n opts) h (λ h r, r.2 = None → accepted n h r.1).
Proof.
  intros Hh. unfold write, spendAndCreateInUtxoStore. cbn. intros [[p sps] e].
  set (h1 := h ++ _).
  assert (Hsw : seen (spent_with tx n (spend_options (adds settings opts) opts) (p, sps, e)) h1)
    by (apply seen_snoc; by right).
  assert (Hsp : seen (spent_as tx (p, sps, e)) h1) by (apply seen_snoc; by right).
  assert (Hh1 : allowed (rules (adds settings opts) opts tx) h1).
  { apply allowed_snoc. split; [done|]. by split_and!. }
  destruct e as [e|]; cbn.
  { eapply holds_mono; [|by eapply spend_failed_known]. intros h' r H Hr. right. auto. }
  apply holds_bind. eapply holds_mono; [|apply holds_and; [by apply after_persist_well|
    apply holds_and; [apply after_persist_delivered|by apply holds_seen, Hsw]]].
  intros h2 [r delivered] [[_ Hd] [Hdel Hsp2]]. destruct delivered.
  - eapply holds_mono; [|apply holds_and; [apply unlock_seen|apply holds_extends]].
    intros h3 r' [Hu [l ->]] Hr. destruct (Hu Hr) as [Hr1 Hun]. left. exists p, sps.
    split_and!; [by apply seen_app| |done]. intros Ha.
    destruct (Hd eq_refl Ha) as [?|[? ?]]; [left|right; split; [done|]]; by apply seen_app.
  - assert (Hr : is_Some r.2) by (destruct r as [md [e|]]; [by eexists|by specialize (Hdel eq_refl)]).
    unfold unlockLockedTxOnExit. destruct p as [m|]; rewrite ?orb_true_r; cbn; destruct Hr; congruence.
Qed.
End Acceptance.

Section Validation.
  Context {SC : SafeConversion} {BT : BtTx} {BDK : BdkEngine} {ST : Subtree}.
  Context (settings : PipelineSettings).

(** C8: a transaction that fails a check is refused before anything is written.  An
    accepted one passed the rules against the calls actually made: every input was
    rewritten from the metadata the caller prefetched or from the store's answer to the
    question asked for it (never from what the submitter supplied), except that an
    outpoint-only validation extends nothing, and the rules were run on the result at
    the height derived from the state read first.  Then either one spend and creation
    at that height with these options succeeded, block assembly took the transaction
    if it had to (or shed it inside a block) and a locked record was unlocked; or the
    store said that it holds the record already, in whatever state; or the parents
    are gone and the transaction's own record is mined, not conflicting and not locked. *)
Theorem validateInternal_accepts tx n opts :
  holds (validateInternal settings tx n opts) [] (λ h r,
    ∃ reads rest, h = reads ++ rest ∧ Forall (λ ev, is_read ev = true) reads ∧
      (rest = [] ∧ (∃ e, r = (None, Some e)) ∨
       ∃ v tx' n', passed tx n opts reads v tx' n' ∧ (r.2 = None → accepted settings opts tx' n' h r.1))).
Proof.
  unfold validateInternal. apply holds_bind.
  eapply holds_mono; [|apply holds_and; [apply only_holds, checks_reads|apply checks_ok]].
  intros h r [(l & -> & Hl) Hok]. destruct r as [[[v tx'] n']|e].
  2: { exists l, []. split_and!; [by rewrite app_nil_r|done|]. left. by eauto. }
  specialize (Hok v tx' n' eq_refl).
  eapply holds_mono; [|apply holds_and; [apply (write_accepts settings opts tx' v n')|apply holds_extends]].
  - intros h' r [Hr [rest ->]]. exists l, rest. split_and!; [done|done|]. right. by exists v, tx', n'.
  - apply allowed_app; [apply allowed_nil|]. intros b ev c ->. apply quiet_rules, read_quiet.
    by apply Forall_app in Hl as [_ [? _]%Forall_cons].
Qed.
End Validation.

(** ** How long the hand-off waits *)



Definition clock_reading (ev : event) : option Z :=
  let 'Ev e x := ev in
  match e in effect X return X → option Z with E_Now => Some | _ => λ _, None end x.




Lemma seen_cons P ev h : P ev ∨ seen P h → seen P (ev :: h).
Proof. intros [H|(x & Hx & H)]; [exists ev|exists x]; rewrite elem_of_cons; auto. Qed.

Section HandOff.
  Context (settings : PipelineSettings).






End HandOff.

(** ** The whole call: retries and announcements *)

(** A spend and creation other than that of a conflicting record. *)
Definition is_primary (ev : event) : bool :=
  let 'Ev e _ := ev in
  match e with E_SpendAndCreate _ _ o => negb (co_Conflicting (so_create o)) | _ => false end.

Definition publishes (ev : event) : bool :=
  let 'Ev e _ := ev in
  match e with E_PublishRejected _ | E_PublishPolicyRejected _ _ => true | _ => false end.

Definition inner (ev : event) : bool := negb (is_primary ev) && negb (publishes ev).

Fixpoint primaries (h : list event) : nat :=
  match h with
  | [] => 0%nat
  | ev :: h => if is_primary ev then S (primaries h) else primaries h
  end.

Lemma primaries_app h h' : primaries (h ++ h') = (primaries h + primaries h')%nat.
Proof. induction h as [|ev h IH]; cbn; [done|]. rewrite IH. by destruct (is_primary ev). Qed.

Lemma inner_primaries l : Forall (λ ev, inner ev = true) l → primaries l = 0%nat.
Proof.
  induction 1 as [|ev l Hev _ IH]; cbn; [done|]. unfold inner in Hev.
  apply andb_true_iff in Hev as [H _]. by destruct (is_primary ev).
Qed.

(** The blockchain service answered that it is running. *)
Definition running (ev : event) : Prop :=
  let 'Ev e x := ev in
  match e in effect X return X → Prop with E_Running => λ r, r = Ok true | _ => λ _, False end x.

Definition rejected_published (hash : Hash) (ev : event) : Prop :=
  let 'Ev e _ := ev in match e with E_PublishRejected h => h = hash | _ => False end.

Definition policy_published (hash : Hash) (conflicting : bool) (ev : event) : Prop :=
  let 'Ev e _ := ev in match e with E_PublishPolicyRejected h c => h = hash ∧ c = conflicting | _ => False end.

Section Inner.
  Context {SC : SafeConversion} {BT : BtTx} {BDK : BdkEngine} {ST : Subtree}.
  Context (settings : PipelineSettings).

Abbreviation only_inner := (only (λ ev, inner ev = true)).

Lemma retry_inner fuel data deadline e : only_inner (retry_hand_off fuel data deadline e).
Proof.
  revert e. induction fuel as [|fuel IH]; intros e; cbn [retry_hand_off]; [by destruct (negb _)|].
  unfold sendToBlockAssembler. only_calls done. apply IH.
Qed.

Lemma verify_inner n first e hash : only_inner (verify_attempts n first e hash).
Proof.
  revert first e. induction n as [|n IH]; intros first e; cbn [verify_attempts]; [done|].
  only_calls done. apply IH.
Qed.

Lemma unwind_inner tx spends created : only_inner (unwindShed tx spends created).
Proof.
  assert (H : ∀ pending, only_inner (unspend_unowned (TxIDChainHash tx) spends pending)).
  { intros pending. unfold unspend_unowned. case_bool_decide; [done|].
    apply only_bind; [apply verify_inner|]. intros gone. only_calls done. }
  unfold unwindShed. destruct (negb created); [apply H|]. apply only_bind; [by apply only_invoke|]. intros deleted.
  apply only_bind; [apply verify_inner|]. intros [[|]|e]; destruct deleted; first [apply H|done].
Qed.

Lemma after_persist_inner tx p sps add opts : only_inner (after_persist settings tx p sps add opts).
Proof.
  unfold after_persist. destruct (if negb (SkipUtxoCreation opts) then _ else _) as [md|]; [|done].
  apply only_bind; [|intros [e|]; [done|unfold publish_txmeta; only_calls done]].
  destruct add; [|done]. unfold deliver, hand_off, sendToBlockAssembler, hand_off_failed. only_calls done.
  all: first [apply retry_inner|apply unwind_inner].
Qed.

Lemma spend_failed_inner params tx n opts sps e : only_inner (spend_failed settings params tx n opts sps e).
Proof.
  unfold spend_failed. destruct (error_Is e ERR_TX_EXISTS); [only_calls done|].
  destruct (error_Is e ERR_UTXO_ERROR); [|only_calls done]. unfold utxo_error.
  apply only_bind.
  { destruct (_ && _); [|done]. eapply only_mono; [|apply immature_parent_reads]. by intros [X [] x]. }
  intros [found|]; [|done]. destruct (CreateConflicting opts && _ && _); [|by destruct (bool_decide (is_Some _) && _)].
  unfold save_conflicting, sendTxMetaDeletesToKafka. only_calls done.
Qed.

(** One validation spends once at most and announces nothing. *)
Lemma validate_once tx n opts h :
  holds (validateInternal settings tx n opts) h (λ h' _, ∃ l, h' = h ++ l ∧ (primaries l ≤ 1)%nat ∧
    Forall (λ ev, publishes ev = false) l).
Proof.
  assert (Hin : ∀ l, Forall (λ ev, inner ev = true) l → Forall (λ ev, publishes ev = false) l).
  { intros l Hl. eapply Forall_impl; [exact Hl|]. unfold inner. intros ev [_ ?%negb_true_iff]%andb_true_iff. done. }
  unfold validateInternal. apply holds_bind.
  eapply holds_mono; [|apply only_holds, checks_reads]. intros h1 r (l & -> & Hl).
  assert (Hl' : Forall (λ ev, inner ev = true) l) by (eapply Forall_impl; [exact Hl|by intros [X [] x]]).
  destruct r as [[[v tx'] n']|e]; [|exists l; split_and!; [done|rewrite inner_primaries; [lia|done]|auto]].
  unfold write, spendAndCreateInUtxoStore. cbn [holds mbind prog_bind bind invoke]. intros [[p sps] e].
  assert (Hfin : ∀ (q : program verdict), only_inner q →
    holds q ((h ++ l) ++ [Ev (E_SpendAndCreate tx' n' (spend_options (adds settings opts) opts)) (p, sps, e)])
      (λ h' _, ∃ l, h' = h ++ l ∧ (primaries l ≤ 1)%nat ∧ Forall (λ ev, publishes ev = false) l)).
  { intros q Hq. eapply holds_mono; [|by apply only_holds]. intros h' a (l' & -> & Hl2).
    exists (l ++ [Ev (E_SpendAndCreate tx' n' (spend_options (adds settings opts) opts)) (p, sps, e)] ++ l').
    split_and!; [by rewrite !app_assoc| |].
    - rewrite !primaries_app, (inner_primaries l), (inner_primaries l') by done. cbn. lia.
    - apply Forall_app. split; [auto|]. apply Forall_app. split; [by constructor|auto]. }
  apply Hfin. destruct e as [e|]; cbn; [apply spend_failed_inner|].
  apply only_bind; [apply after_persist_inner|]. intros [v' delivered].
  unfold unlockLockedTxOnExit, twoPhaseCommitTransaction. only_calls done.
Qed.

Lemma maxRetries_bound : 0 ≤ maxRetries settings ≤ 10.
Proof. unfold maxRetries, txLockedMaxSafeRetries. repeat case_match; lia. Qed.

(** The attempts; a caller that went away is told so. *)
Lemma attempts_bounded left k tx n opts h :
  holds (attempts settings left k tx n opts) h (λ h' r, ∃ l, h' = h ++ l ∧ (primaries l ≤ S left)%nat ∧
    Forall (λ ev, publishes ev = false) l ∧ (r.2 = true → r.1.2 = Some ctx_err)).
Proof.
  revert k h. induction left as [|left IH]; intros k h; cbn [attempts]; apply holds_bind;
    (eapply holds_mono; [|apply validate_once]); intros h1 [md [e|]] (l & -> & Hp & Hl); cbn [snd];
    try (exists l; split_and!; [done|lia|done|done]);
    (destruct (_ && _); [exists l; split_and!; [done|lia|done|done]|]).
  { exists l. split_and!; [done|lia|done|done]. }
  apply holds_call. intros [|].
  { exists (l ++ [Ev (E_Wait (2 ^ k * txLockedBaseBackoff)) true]). rewrite app_assoc.
    split_and!; [done|rewrite primaries_app; cbn; lia| |done]. apply Forall_app. split; [done|by constructor]. }
  eapply holds_mono; [|apply IH]. intros h2 r (l2 & -> & Hp2 & Hl2 & Hr).
  exists (l ++ [Ev (E_Wait (2 ^ k * txLockedBaseBackoff)) false] ++ l2).
  split_and!; [by rewrite !app_assoc|rewrite !primaries_app; cbn; lia| |done].
  apply Forall_app. split; [done|]. apply Forall_app. split; [by constructor|done].
Qed.
End Inner.

Section Announcements.
  Context {SC : SafeConversion} {BT : BtTx} {BDK : BdkEngine} {ST : Subtree}.
  Context (settings : PipelineSettings) (hasClient : bool) (tx : Tx).

Abbreviation id := (TxIDChainHash tx).

(** What may be announced of a verdict, given the calls made to announce it. *)
Record announced (md : option TxMeta) (e : error) (l : list event) : Prop := {
  an_primary : primaries l = 0%nat;
  an_about ev : ev ∈ l → publishes ev = true → rejected_published id ev ∨ ∃ c, policy_published id c ev;
  an_running : (∃ ev, ev ∈ l ∧ publishes ev = true) → hasClient = true → seen running l;
  an_rejected : seen (rejected_published id) l ↔ hasRejectedProducer settings = true ∧
    error_Is e ERR_TX_INVALID = true ∧ (hasClient = true → seen running l);
  an_policy c : seen (policy_published id c) l → hasPolicyRejectedProducer settings = true ∧
    (KafkaMaxMessageBytes settings > 0 → TxSize tx ≤ KafkaMaxMessageBytes settings) ∧
    if c then md = None ∧ error_Is e ERR_TX_REJECTED_CONFLICTING = true else error_Is e ERR_TX_POLICY = true;
}.

Lemma seen_cons_iff P ev h : seen P (ev :: h) ↔ P ev ∨ seen P h.
Proof.
  split; [|apply seen_cons]. intros (x & [->|Hx]%elem_of_cons & HP); [by left|right; by exists x].
Qed.

Lemma seen_nil P : seen P [] ↔ False.
Proof. split; [|done]. by intros (x & ?%elem_of_nil & _). Qed.

Lemma seen_app_iff P h h' : seen P (h ++ h') ↔ seen P h ∨ seen P h'.
Proof. unfold seen. setoid_rewrite elem_of_app. naive_solver. Qed.

(** One publication on the policy topic, or none. *)
Record policy_part (c : bool) (l : list event) : Prop := {
  pp_primary : primaries l = 0%nat;
  pp_rejected hash : ¬ seen (rejected_published hash) l;
  pp_about ev : ev ∈ l → publishes ev = true → policy_published id c ev ∧
    (hasClient = true → seen running l) ∧ hasPolicyRejectedProducer settings = true ∧
    (KafkaMaxMessageBytes settings > 0 → TxSize tx ≤ KafkaMaxMessageBytes settings);
}.

Lemma policy_part_nil c : policy_part c [].
Proof. split; [done|by intros ? ?%seen_nil|by intros ? ?%elem_of_nil]. Qed.

Lemma policy_part_running c r : policy_part c [Ev E_Running r].
Proof.
  split; [done| |].
  - intros hash [H|H%seen_nil]%seen_cons_iff; done.
  - by intros ev ->%list_elem_of_singleton.
Qed.

Lemma publish_policy_ok c h :
  holds (publishRejectedTx settings hasClient tx c) h (λ h' _, ∃ l, h' = h ++ l ∧ policy_part c l).
Proof.
  unfold publishRejectedTx. destruct (hasPolicyRejectedProducer settings) eqn:Ep; cbn [negb].
  2: { exists []. rewrite app_nil_r. split; [done|apply policy_part_nil]. }
  assert (Hsz : ∀ q, q = (if hasClient then [Ev E_Running (Ok true)] else []) →
    holds (if (KafkaMaxMessageBytes settings >? 0) && (TxSize tx >? KafkaMaxMessageBytes settings) then Ret ()
      else invoke (E_PublishPolicyRejected id c)) (h ++ q) (λ h' _, ∃ l, h' = h ++ l ∧ policy_part c l)).
  { intros q Hq. destruct (_ && _) eqn:Es; cbn.
    - exists q. split; [done|]. subst q. destruct hasClient; [apply policy_part_running|apply policy_part_nil].
    - intros []. exists (q ++ [Ev (E_PublishPolicyRejected id c) ()]). rewrite app_assoc. split; [done|].
      assert (Hno : primaries q = 0%nat ∧ (∀ hash, ¬ seen (rejected_published hash) q) ∧ (∀ ev, ev ∈ q → publishes ev = false) ∧
        (hasClient = true → seen running q)).
      { subst q. destruct hasClient; (split_and!; [done| | |]).
        - intros hash [H|H%seen_nil]%seen_cons_iff; done.
        - by intros ev ->%list_elem_of_singleton.
        - intros _. apply seen_cons_iff. by left.
        - by intros ? ?%seen_nil.
        - by intros ? ?%elem_of_nil.
        - done. }
      destruct Hno as (H1 & H2 & H3 & H4). split.
      + rewrite primaries_app, H1. done.
      + intros hash [H|[H|H%seen_nil]%seen_cons_iff]%seen_app_iff; [by eapply H2|done|done].
      + intros ev [Hev|Hev]%elem_of_app Hp; [rewrite (H3 ev Hev) in Hp; done|]. apply list_elem_of_singleton in Hev as ->.
        split_and!; [done|intros Hc; apply seen_app_iff; left; auto|done|].
        intros Hm. apply andb_false_iff in Es as [Es|Es]; rewrite Z.gtb_ltb in Es; apply Z.ltb_ge in Es; lia. }
  destruct hasClient; [|apply holds_bind; cbn [holds]; specialize (Hsz [] eq_refl); by rewrite app_nil_r in Hsz].
  apply holds_bind. cbn [holds invoke]. intros r. destruct r as [[]|e]; [by apply Hsz| |];
    (cbn; eexists; split; [done|]; apply policy_part_running).
Qed.

Lemma policy_part_seen c c' l : policy_part c l → seen (policy_published id c') l →
  c' = c ∧ hasPolicyRejectedProducer settings = true ∧
  (KafkaMaxMessageBytes settings > 0 → TxSize tx ≤ KafkaMaxMessageBytes settings).
Proof.
  intros [_ _ H] (ev & Hev & Hp). assert (publishes ev = true) as Hpub by (by destruct ev as [X [] x]).
  destruct (H ev Hev Hpub) as (Hc & _ & H1 & H2). split_and!; [|done|done].
  destruct ev as [X [] x]; try done. cbn in *. by destruct Hp as [_ <-], Hc as [_ ->].
Qed.

(** The announcement of an invalid transaction. *)
Lemma announce_invalid_ok e h :
  holds (announce_invalid settings hasClient tx e) h (λ h' stop, ∃ l, h' = h ++ l ∧ primaries l = 0%nat ∧
    (∀ ev, ev ∈ l → publishes ev = true → rejected_published id ev ∧ (hasClient = true → seen running l)) ∧
    (∀ c, ¬ seen (policy_published id c) l) ∧
    if stop : bool then hasClient = true ∧ ¬ seen running l ∧ ¬ seen (rejected_published id) l
    else seen (rejected_published id) l ↔ hasRejectedProducer settings = true ∧ error_Is e ERR_TX_INVALID = true).
Proof.
  unfold announce_invalid. destruct (hasRejectedProducer settings && _) eqn:Er.
  2: { exists []. rewrite app_nil_r. split_and!; [done|done|by intros ? ?%elem_of_nil|by intros ? ?%seen_nil|].
       rewrite seen_nil. apply andb_false_iff in Er. split; [done|]. intros [? ?]. destruct Er; congruence. }
  apply andb_true_iff in Er as [Er1 Er2]. destruct hasClient; apply holds_bind; cbn [holds invoke].
  - intros [[]|e']; cbn.
    + intros []. exists [Ev E_Running (Ok true); Ev (E_PublishRejected id) ()]. rewrite <- app_assoc.
      split_and!; [done|done| | |].
      * intros ev [->|Hev]%elem_of_cons; [done|]. apply list_elem_of_singleton in Hev as ->. split; [done|]. intros _. apply seen_cons_iff. by left.
      * intros c. rewrite !seen_cons_iff, seen_nil. cbn. tauto.
      * rewrite !seen_cons_iff, seen_nil. cbn. tauto.
    + exists [Ev E_Running (Ok false)]. split_and!; [done|done|by intros ev ->%list_elem_of_singleton| |done| |];
        first [rewrite seen_cons_iff, seen_nil|intros c; rewrite seen_cons_iff, seen_nil]; cbn; naive_solver.
    + exists [Ev E_Running (Err e')]. split_and!; [done|done|by intros ev ->%list_elem_of_singleton| |done| |];
        first [rewrite seen_cons_iff, seen_nil|intros c; rewrite seen_cons_iff, seen_nil]; cbn; naive_solver.
  - cbn. intros []. exists [Ev (E_PublishRejected id) ()]. split_and!; [done|done|by intros ev ->%list_elem_of_singleton| |].
    + intros c. rewrite !seen_cons_iff, seen_nil. cbn. tauto.
    + rewrite !seen_cons_iff, seen_nil. cbn. tauto.
Qed.

Lemma announced_parts md e l1 l2 l3 : primaries l1 = 0%nat →
  (∀ ev, ev ∈ l1 → publishes ev = true → rejected_published id ev ∧ (hasClient = true → seen running l1)) →
  (∀ c, ¬ seen (policy_published id c) l1) →
  (seen (rejected_published id) l1 ↔ hasRejectedProducer settings = true ∧ error_Is e ERR_TX_INVALID = true) →
  policy_part false l2 → (error_Is e ERR_TX_POLICY = false → l2 = []) →
  policy_part true l3 → (l3 ≠ [] → md = None ∧ error_Is e ERR_TX_REJECTED_CONFLICTING = true) →
  announced md e (l1 ++ l2 ++ l3).
Proof.
  intros Hp1 Ha1 Hn1 Hr1 H2 E2 H3 E3. pose proof H2 as [Hp2 Hn2 Ha2]. pose proof H3 as [Hp3 Hn3 Ha3].
  assert (Hrun : ∀ l, (hasClient = true → seen running l) → l = l1 ∨ l = l2 ∨ l = l3 → hasClient = true →
    seen running (l1 ++ l2 ++ l3)).
  { intros l Hl Hor Hc. rewrite !seen_app_iff. destruct Hor as [->|[->| ->]]; auto. }
  split.
  - rewrite !primaries_app. lia.
  - intros ev [Hev|[Hev|Hev]%elem_of_app]%elem_of_app Hp; [left; by apply Ha1|right; exists false; by apply Ha2|right; exists true; by apply Ha3].
  - intros (ev & [Hev|[Hev|Hev]%elem_of_app]%elem_of_app & Hp).
    + apply (Hrun l1); [by apply (Ha1 ev)|auto].
    + apply (Hrun l2); [by apply (Ha2 ev)|auto].
    + apply (Hrun l3); [by apply (Ha3 ev)|auto].
  - rewrite seen_app_iff, seen_app_iff. split.
    + intros [H|[H|H]]; [|by apply Hn2 in H|by apply Hn3 in H]. destruct (proj1 Hr1 H) as [? ?]. split_and!; [done|done|].
      destruct H as (ev & Hev & Hx). apply (Hrun l1); [|auto].
      apply (Ha1 ev Hev). by destruct ev as [X [] x].
    + intros (? & ? & _). left. by apply Hr1.
  - intros c. rewrite !seen_app_iff. intros [H|[H|H]]; [by apply Hn1 in H| |].
    + assert (l2 ≠ []) by (intros ->; by apply seen_nil in H).
      destruct (policy_part_seen _ _ _ H2 H) as (-> & ? & ?). split_and!; [done|done|].
      destruct (error_Is e ERR_TX_POLICY); [done|]. by destruct (E2 eq_refl).
    + assert (l3 ≠ []) by (intros ->; by apply seen_nil in H).
      destruct (policy_part_seen _ _ _ H3 H) as (-> & ? & ?). split_and!; [done|done|by apply E3|by apply E3].
Qed.

Lemma announce_ok md e h :
  holds (announce settings hasClient tx md e) h (λ h' _, ∃ l, h' = h ++ l ∧ announced md e l).
Proof.
  unfold announce. apply holds_bind. eapply holds_mono; [|apply announce_invalid_ok].
  intros h1 [|] (l1 & -> & Hp1 & Ha1 & Hn1 & Hr1).
  { cbn. exists l1. split; [done|]. destruct Hr1 as (Hc & Hr & Hrej).
    assert (Hpub : ∀ ev, ev ∈ l1 → publishes ev = true → False).
    { intros ev Hev Hp. destruct (Ha1 ev Hev Hp) as [_ Hx]. auto. }
    split; [done|by intros ev Hev Hp; left; apply Ha1|by intros (ev & Hev & Hp); destruct (Hpub ev)| |by intros c ?%Hn1].
    split; [done|]. intros (_ & _ & H). by destruct Hr; apply H. }
  apply holds_bind. set (P := λ (h' : list event) (_ : unit), ∃ l2, h' = (h ++ l1) ++ l2 ∧ policy_part false l2 ∧
    (error_Is e ERR_TX_POLICY = false → l2 = [])).
  apply (holds_mono _ _ P).
  2: { destruct (error_Is e ERR_TX_POLICY).
       - eapply holds_mono; [|apply publish_policy_ok]. intros h' a (l2 & -> & Hl2). by exists l2.
       - exists []. rewrite app_nil_r. split_and!; [done|apply policy_part_nil|done]. }
  intros h2 _ (l2 & -> & Hl2 & E2). destruct (bool_decide (md = None) && _) eqn:Ec.
  - apply andb_true_iff in Ec as [Hm%bool_decide_eq_true Hc].
    eapply holds_mono; [|apply publish_policy_ok]. intros h' a (l3 & -> & Hl3). exists (l1 ++ l2 ++ l3).
    split; [by rewrite !app_assoc|]. apply announced_parts; auto.
  - cbn. exists (l1 ++ l2 ++ []). split; [by rewrite !app_assoc, app_nil_r|].
    apply announced_parts; auto using policy_part_nil. done.
Qed.

(** A call spends at most eleven times, once more than it is set to retry; and what
    it announces is its verdict.  Without an error nothing is announced.  With one, the
    transaction is announced as rejected exactly when the error says it is invalid,
    the topic is configured and the node is running; its bytes are published on the
    policy topic only for a policy rejection, or, marked as conflicting, for a double
    spend that was not stored, and only while the node is running and they fit. *)
Theorem ValidateWithOptions_spec n opts :
  holds (ValidateWithOptions settings hasClient tx n opts) [] (λ h r,
    (primaries h ≤ S (Z.to_nat (maxRetries settings)))%nat ∧ (primaries h ≤ 11)%nat ∧
    ∃ work told, h = work ++ told ∧ Forall (λ ev, publishes ev = false) work ∧
      match r.2 with
      | None => told = []
      | Some e => announced r.1 e told ∨ e = ctx_err ∧ told = []
      end).
Proof.
  unfold ValidateWithOptions. apply holds_bind. eapply holds_mono; [|apply attempts_bounded].
  intros h [[md [e|]] cancelled] (l & -> & Hp & Hl & Hc); cbn [fst snd] in *;
    pose proof (maxRetries_bound settings).
  - destruct cancelled.
    + specialize (Hc eq_refl). injection Hc as ->. cbn. split_and!; [done|lia|]. exists l, []. rewrite app_nil_r. auto.
    + apply holds_bind. eapply holds_mono; [|apply announce_ok]. intros h' _ (told & -> & Han). cbn.
      rewrite primaries_app, (an_primary _ _ _ Han). split_and!; [lia|lia|]. exists l, told. auto.
  - cbn. split_and!; [done|lia|]. exists l, []. by rewrite app_nil_r.
Qed.
End Announcements.

(** A double spend of a block whose record exists already is answered with an error
    that wraps nothing: the error of the spend was overwritten by the answer of the
    read in between. *)
Lemma existing_conflict_loses_cause {ST : Subtree} {BT : BtTx} settings tx n opts e h :
  holds (save_conflicting settings tx n opts e) h (λ h' r, ∀ md e', r = (Some md, Some e') →
    e' = err_wrap ERR_TX_CONFLICTING e ∧ length h' = S (length h) ∨ e' = err ERR_TX_CONFLICTING).
Proof.
  unfold save_conflicting. apply holds_call. intros [[md sps] [ce|]].
  2: { cbn. intros m e' [= _ <-]. left. split; [done|]. rewrite length_app. cbn. lia. }
  destruct (error_Is ce ERR_TX_EXISTS); [|done]. apply holds_call. intros [m|]; [|done].
  destruct (negb _); [|by intros m' e' [= _ <-]; right]. apply holds_call. intros [r marked]. apply holds_bind.
  eapply holds_mono; [|apply holds_extends]. intros h1 _ _. destruct r; [|done]. intros m' e' [= _ <-]. by right.
Qed.

(** ** Witnesses: a node whose block assembly always sheds *)
Definition ex_settings : PipelineSettings :=
  mkPipelineSettings false 3 515000000 0 0 0 true true true.

Definition ex_pipeline_options (wait : bool) : PipelineOptions :=
  mkPipelineOptions NewDefaultOptions false true false false false false wait ∅.

Definition ex_meta (locked : bool) (tx : Tx) : TxMeta :=
  mkTxMeta (mkData (Some tx) [hash_of_Z 21] [(hash_of_Z 21, 0)] [] [] [] false locked 0) 100.

Definition ex_spends : Spends :=
  Some [(mkSpend (hash_of_Z 21) 0 zero_hash (NewSpendingData (Some (hash_of_Z 22)) 0), None)].

(** The clock, and whether the record is there. *)
Record ex_node := mkExNode { en_clock : Z; en_record : bool }.

#[local] Instance ex_handler : Handler (E := effect) ex_node := λ X e w,
  match e in effect X return X * ex_node with
  | E_State => (ex_validator, w)
  | E_SpendAndCreate tx _ _ => ((Some (ex_meta true tx), ex_spends, None), mkExNode (en_clock w) true)
  | E_BlockAssemblyStore _ => (Err (err ERR_THRESHOLD_EXCEEDED), w)
  | E_GetMeta h => (if en_record w then Err (err ERR_STORAGE_ERROR) else Err (err ERR_TX_NOT_FOUND), w)
  | E_DeleteComplete _ => (Ok tt, mkExNode (en_clock w) false)
  | E_Now => (en_clock w, w)
  | E_Wait d => (false, mkExNode (en_clock w + d) (en_record w))
  | E_ParentOutputs _ => (Ok [], w)
  | E_ReadParent _ => (Ok (false, []), w)
  | E_MarkConflicting _ => ((Ok [], []), w)
  | E_SetLocked _ _ => (Ok tt, w)
  | E_Unspend _ => (Ok tt, w)
  | E_Running => (Ok true, w)
  | E_PublishTxMeta _ _ => (tt, w)
  | E_DeleteTxMeta _ => (tt, w)
  | E_PublishRejected _ => (tt, w)
  | E_PublishPolicyRejected _ _ => (tt, w)
  end.



Inductive step := Spends_and_creates | Hands_over | Deletes | Asks | Unspends | Otherwise.

Definition step_of (ev : event) : step :=
  let 'Ev e _ := ev in
  match e with
  | E_SpendAndCreate _ _ _ => Spends_and_creates
  | E_BlockAssemblyStore _ => Hands_over
  | E_DeleteComplete _ => Deletes
  | E_GetMeta _ => Asks
  | E_Unspend _ => Unspends
  | _ => Otherwise
  end.

(** Shed at once: the record is removed, its absence is verified twice, and only then
    are the inputs freed. *)
Example shed_trace :
  map step_of (calls (write (BT := model_BtTx) (ST := model_Subtree) ex_settings ex_validator (ex_tx 1 0) 20
    (ex_pipeline_options false)) (mkExNode 7 false))
  = [Spends_and_creates; Hands_over; Deletes; Asks; Asks; Unspends].
Proof. vm_compute. reflexivity. Qed.
