(* ===== verification/Merkle.v ===== *)
(** * Merkle roots

    The tree of the block header: pairs are hashed level by level, and the last entry
    of an odd level is hashed with itself.  The code computes it whole
    (util/merkleproof/merkle_proof.go, [computeTopRoot]), by subtrees
    (model/Block.go, [blockMerkleRoot]) and along one path; the facts here are about
    the tree alone, for any hash of two children. *)

From S2P Require Import Prelude.

Section Merkle.
  Context {A : Type} (H : A → A → A).

(** The pairs hashed at one level, and the level above. *)
Fixpoint pairs (l : list A) : list (A * A) :=
  match l with
  | [] => []
  | [x] => [(x, x)]
  | x :: y :: l => (x, y) :: pairs l
  end.

Definition level (l : list A) : list A := uncurry H <$> pairs l.

Fixpoint reduce (fuel : nat) (l : list A) : option A :=
  match l, fuel with
  | [], _ => None
  | [x], _ => Some x
  | _, O => None
  | _, S fuel => reduce fuel (level l)
  end.

(** Every level is shorter than the one below. *)
Definition merkle_root (l : list A) : option A := reduce (length l) l.

(** Everything that is hashed on the way. *)
Fixpoint hashed (fuel : nat) (l : list A) : list (A * A) :=
  match l, fuel with
  | [], _ | [_], _ | _, O => []
  | _, S fuel => pairs l ++ hashed fuel (level l)
  end.

Definition all_pairs (l : list A) : list (A * A) := hashed (length l) l.

(** A root hashed with itself up to a greater height. *)
Definition lift (n : nat) (x : A) : A := Nat.iter n (λ x, H x x) x.

Definition up (n : nat) (l : list A) : list A := Nat.iter n level l.

(** Lists two entries at a time. *)
Lemma pair_ind (P : list A → Prop) :
  P [] → (∀ x, P [x]) → (∀ x y l, P l → P (x :: y :: l)) → ∀ l, P l.
Proof.
  intros H0 H1 H2 l. enough (P l ∧ ∀ x, P (x :: l)) by naive_solver.
  induction l as [|y l [IH1 IH2]]; split; auto.
Qed.

(** ** Lengths *)
Lemma length_pairs l : length (pairs l) = Nat.div2 (S (length l)).
Proof. induction l as [| |x y l IH] using pair_ind; simpl in *; auto. Qed.

Lemma length_level l : length (level l) = Nat.div2 (S (length l)).
Proof. unfold level. by rewrite length_fmap, length_pairs. Qed.

Lemma div2_bounds n : (2 * Nat.div2 (S n) = n ∨ 2 * Nat.div2 (S n) = S n)%nat.
Proof.
  pose proof (Nat.div2_odd (S n)) as E. destruct (Nat.odd (S n)); simpl Nat.b2n in E; lia.
Qed.

Lemma level_shorter l : (2 ≤ length l)%nat → (length (level l) < length l)%nat.
Proof. rewrite length_level. intros. pose proof (div2_bounds (length l)). lia. Qed.

Lemma level_nonempty l : l ≠ [] → level l ≠ [].
Proof. by destruct l as [|x [|y l]]. Qed.

(** ** The fuel is enough *)
Lemma reduce_fuel f l : (length l ≤ S f)%nat → reduce f l = merkle_root l.
Proof.
  unfold merkle_root. revert f l.
  enough (Hg : ∀ n f g l, (length l ≤ n)%nat → (length l ≤ S f)%nat → (length l ≤ S g)%nat →
            reduce f l = reduce g l) by (intros; eapply Hg; eauto).
  induction n as [|n IH]; intros f g l Hn Hf Hg.
  { destruct l; [by destruct f, g|simpl in Hn; lia]. }
  destruct l as [|x [|y l]]; [by destruct f, g..|].
  destruct f as [|f], g as [|g]; try (simpl in *; lia).
  pose proof (level_shorter (x :: y :: l) ltac:(simpl; lia)).
  change (reduce f (level (x :: y :: l)) = reduce g (level (x :: y :: l))).
  simpl in Hn. apply IH; simpl in *; lia.
Qed.

Lemma merkle_root_level l : (2 ≤ length l)%nat → merkle_root l = merkle_root (level l).
Proof.
  intros Hl. pose proof (level_shorter _ Hl). rewrite <- (reduce_fuel (length l - 1) (level l)) by lia.
  unfold merkle_root. destruct l as [|x [|y l]]; [simpl in Hl; lia..|].
  cbn [length]. replace (S (S (length l)) - 1)%nat with (S (length l)) by lia. done.
Qed.

Lemma merkle_root_one x : merkle_root [x] = Some x.
Proof. done. Qed.

Lemma merkle_root_some l : l ≠ [] → ∃ r, merkle_root l = Some r.
Proof.
  remember (length l) as n eqn:En. revert l En.
  induction n as [n IH] using lt_wf_ind; intros l -> Hl.
  destruct (decide (2 ≤ length l)%nat) as [H2|].
  - rewrite merkle_root_level by done. eapply IH; [apply (level_shorter _ H2)|done|by apply level_nonempty].
  - destruct l as [|x [|]]; [done|by eexists|simpl in *; lia].
Qed.

(** ** Trees put together from subtrees *)
Lemma level_app l1 l2 : Nat.Even (length l1) → level (l1 ++ l2) = level l1 ++ level l2.
Proof.
  intros He. unfold level. rewrite <- fmap_app. f_equal.
  induction l1 as [| |x y l1 IH] using pair_ind; [done| |].
  - destruct He as [k Hk]. simpl in Hk. lia.
  - simpl. f_equal. apply IH. destruct He as [k Hk]. exists (k - 1)%nat. simpl in Hk. lia.
Qed.

Lemma up_S n l : up (S n) l = up n (level l).
Proof. unfold up. by rewrite Nat.iter_succ_r. Qed.

Lemma lift_S n x : lift (S n) x = lift n (H x x).
Proof. unfold lift. by rewrite Nat.iter_succ_r. Qed.

(** [n] levels above a list whose length is [k] times [2^n]. *)
Lemma up_app n k l1 l2 : length l1 = (k * 2 ^ n)%nat →
  up n (l1 ++ l2) = up n l1 ++ up n l2 ∧ length (up n l1) = k.
Proof.
  revert l1 l2. induction n as [|n IH]; intros l1 l2 E.
  { split; [done|]. change (up 0 l1) with l1. simpl in E. lia. }
  rewrite !up_S. cbn [Nat.pow] in E. rewrite level_app by (exists (k * 2 ^ n)%nat; lia).
  apply IH. rewrite length_level, E.
  pose proof (div2_bounds (k * (2 * 2 ^ n))). lia.
Qed.

Lemma up_one n x : up n [x] = [lift n x].
Proof. revert x. induction n as [|n IH]; intros x; [done|]. by rewrite up_S, lift_S, <- IH. Qed.

(** The height of a tree. *)
Definition height (l : list A) : nat := Nat.log2_up (length l).

Lemma height_level l : (2 ≤ length l)%nat → height l = S (height (level l)).
Proof.
  intros Hl. unfold height. rewrite length_level.
  pose proof (div2_bounds (length l)) as E. set (k := Nat.div2 (S (length l))) in *.
  destruct (decide (k = 1%nat)) as [E1|].
  { rewrite E1. replace (length l) with 2%nat by lia. done. }
  assert (1 < k)%nat as Hk by lia. destruct (Nat.log2_up_spec k Hk) as [Hlo Hhi].
  pose proof (Nat.log2_up_pos k Hk). destruct (Nat.log2_up k) as [|b] eqn:Eb; [lia|].
  simpl Nat.pred in Hlo. apply Nat.log2_up_unique; [lia|]. simpl Nat.pred.
  cbn [Nat.pow] in *. lia.
Qed.

(** A tree that fits [n] levels: its root, lifted to height [n]. *)
Lemma up_root n l r : merkle_root l = Some r → (length l ≤ 2 ^ n)%nat →
  up n l = [lift (n - height l) r].
Proof.
  revert l. induction n as [|n IH]; intros l Hr Hl.
  { destruct l as [|x [|]]; simpl in *; [done|by injection Hr as ->|lia]. }
  destruct (decide (2 ≤ length l)%nat) as [H2|].
  - rewrite up_S, height_level by done. cbn [Nat.sub]. apply IH.
    + by rewrite <- merkle_root_level.
    + rewrite length_level. pose proof (div2_bounds (length l)). cbn [Nat.pow] in Hl. lia.
  - destruct l as [|x [|]]; [done| |simpl in *; lia]. injection Hr as ->.
    by rewrite up_one.
Qed.

(** A full one. *)
Lemma height_full n l : length l = (2 ^ n)%nat → height l = n.
Proof. intros E. unfold height. rewrite E. apply Nat.log2_up_pow2. lia. Qed.

(** A root can be computed from any level below it. *)
Lemma merkle_root_up n l : (2 ^ n < length l)%nat → merkle_root l = merkle_root (up n l).
Proof.
  revert l. induction n as [|n IH]; intros l Hl; [done|].
  cbn [Nat.pow] in Hl. assert (1 ≤ 2 ^ n)%nat by (pose proof (Nat.pow_nonzero 2 n); lia).
  rewrite up_S, merkle_root_level by lia. apply IH.
  rewrite length_level. pose proof (div2_bounds (length l)). lia.
Qed.

(** ** A tree cut into subtrees of [2^n] leaves, of which the last may be short

    The roots of the subtrees, the last one lifted, are the leaves of a tree with the
    same root. *)
Lemma up_full_subtrees n (fulls : list (list A)) l : Forall (λ c, length c = (2 ^ n)%nat) fulls →
  up n (concat fulls ++ l) = (concat (map (up n) fulls)) ++ up n l.
Proof.
  induction 1 as [|c fulls E _ IH]; [done|]. simpl. rewrite <- !(assoc_L (++)).
  destruct (up_app n 1 c (concat fulls ++ l)) as [-> _]; [rewrite E; lia|]. by rewrite IH.
Qed.

Lemma length_up_full n (fulls : list (list A)) : Forall (λ c, length c = (2 ^ n)%nat) fulls →
  length (concat fulls) = (length fulls * 2 ^ n)%nat.
Proof. induction 1 as [|c fulls E _ IH]; [done|]. simpl. rewrite length_app. lia. Qed.

Theorem merkle_root_subtrees n fulls last roots r :
  fulls ≠ [] → Forall (λ c, length c = (2 ^ n)%nat) fulls →
  last ≠ [] → (length last ≤ 2 ^ n)%nat →
  Forall2 (λ c x, merkle_root c = Some x) fulls roots → merkle_root last = Some r →
  merkle_root (concat fulls ++ last) = merkle_root (roots ++ [lift (n - height last) r]).
Proof.
  intros Hne Hf Hl Hn Hroots Hr. rewrite (merkle_root_up n).
  - f_equal. rewrite up_full_subtrees by done. rewrite (up_root n last r) by done. f_equal.
    clear Hne. induction Hroots as [|c x fulls roots Hc _ IH]; [done|].
    inversion Hf as [|? ? E Hf']; subst. simpl.
    rewrite (up_root n c x), (height_full n c), Nat.sub_diag by (done || lia). simpl. f_equal; auto.
  - rewrite length_app, (length_up_full n fulls) by done. destruct fulls; [done|].
    destruct last; [done|]. simpl. lia.
Qed.

(** ** One path *)
Definition sibling (l : list A) (i : nat) : option A :=
  match l !! (if Nat.even i then S i else pred i) with
  | Some y => Some y
  | None => l !! i
  end.

(** What a step from an entry to its parent hashes, [left] when the sibling is left. *)
Definition climb (x : A) (step : A * bool) : A :=
  if step.2 then H step.1 x else H x step.1.

Lemma level_lookup l i x y : l !! i = Some x → sibling l i = Some y →
  level l !! Nat.div2 i = Some (climb x (y, negb (Nat.even i))).
Proof.
  unfold sibling, level, climb. revert i.
  induction l as [|z|z1 z2 l IH] using pair_ind; intros i Hx Hy; [done| |].
  - destruct i as [|i]; [|done]. simpl in *. by simplify_eq.
  - destruct i as [|[|i]]; simpl in *; [by simplify_eq..|].
    apply IH; [done|]. destruct (Nat.even i) eqn:Ei; [done|]. destruct i; [done|]. simpl in *. done.
Qed.

Lemma sibling_some (l : list A) i : (i < length l)%nat → ∃ y, sibling l i = Some y.
Proof.
  intros Hi. unfold sibling. case_match; [eauto|]. by apply lookup_lt_is_Some_2.
Qed.

(** ** A root commits to its leaves

    Two lists with one root, neither of which repeats a leaf after its first, are
    equal, unless two different pairs are hashed to the same value or a leaf of one
    is a hash inside the tree of the other. *)
Definition collision (ps : list (A * A)) : Prop :=
  ∃ p q : A * A, p ∈ ps ∧ q ∈ ps ∧ p ≠ q ∧ uncurry H p = uncurry H q.

Definition leaf_is_node (l : list A) (ps : list (A * A)) : Prop :=
  ∃ (x : A) (p : A * A), x ∈ l ∧ p ∈ ps ∧ x = uncurry H p.

Lemma hashed_fuel f l : (length l ≤ S f)%nat → hashed f l = all_pairs l.
Proof.
  unfold all_pairs. revert f l.
  enough (Hg : ∀ n f g l, (length l ≤ n)%nat → (length l ≤ S f)%nat → (length l ≤ S g)%nat →
            hashed f l = hashed g l) by (intros; eapply Hg; eauto).
  induction n as [|n IH]; intros f g l Hn Hf Hg.
  { destruct l; [by destruct f, g|simpl in Hn; lia]. }
  destruct l as [|x [|y l]]; [by destruct f, g..|].
  destruct f as [|f], g as [|g]; try (simpl in *; lia).
  pose proof (level_shorter (x :: y :: l) ltac:(simpl; lia)).
  change (pairs (x :: y :: l) ++ hashed f (level (x :: y :: l)) =
          pairs (x :: y :: l) ++ hashed g (level (x :: y :: l))).
  f_equal. apply IH; simpl in *; lia.
Qed.

Lemma all_pairs_level l : (2 ≤ length l)%nat → all_pairs l = pairs l ++ all_pairs (level l).
Proof.
  intros Hl. pose proof (level_shorter _ Hl). rewrite <- (hashed_fuel (length l - 1) (level l)) by lia.
  unfold all_pairs. destruct l as [|x [|y l]]; [simpl in Hl; lia..|].
  cbn [length]. replace (S (S (length l)) - 1)%nat with (S (length l)) by lia. done.
Qed.

Lemma elem_of_level x l : x ∈ level l → ∃ p : A * A, p ∈ pairs l ∧ x = uncurry H p.
Proof. unfold level. intros (p & -> & Hp)%list_elem_of_fmap. eauto. Qed.

Lemma elem_of_pairs (p : A * A) l : p ∈ pairs l → p.1 ∈ l ∧ p.2 ∈ l.
Proof.
  induction l as [|z|z1 z2 l IH] using pair_ind; [by intros ?%not_elem_of_nil| |].
  - intros ->%list_elem_of_singleton. simpl. set_solver.
  - intros [->|Hp]%elem_of_cons; [simpl; set_solver|]. destruct (IH Hp). set_solver.
Qed.

(** What a tree hashes above its leaves is itself a hash. *)
Lemma hashed_inside (l : list A) (p : A * A) : p ∈ all_pairs (level l) → (2 ≤ length l)%nat →
  ∃ q : A * A, q ∈ all_pairs l ∧ p.1 = uncurry H q.
Proof.
  remember (length l) as n eqn:En. revert l p En.
  induction n as [n IH] using lt_wf_ind; intros l p -> Hp Hl.
  rewrite (all_pairs_level l) by done.
  destruct (decide (2 ≤ length (level l))%nat) as [H2|].
  - rewrite all_pairs_level in Hp by done. apply elem_of_app in Hp as [Hp|Hp].
    + destruct (elem_of_pairs _ _ Hp) as [[q [Hq ->]]%elem_of_level _]. exists q. set_solver.
    + destruct (IH _ (level_shorter _ Hl) (level l) p eq_refl Hp H2) as (q & Hq & ->).
      exists q. set_solver.
  - destruct (level l) as [|x [|]]; simpl in *; [by apply not_elem_of_nil in Hp..|lia].
Qed.

(** A root is a hash, unless it is a leaf. *)
Lemma root_is_hash l r : merkle_root l = Some r → (2 ≤ length l)%nat →
  ∃ p : A * A, p ∈ all_pairs l ∧ r = uncurry H p.
Proof.
  remember (length l) as n eqn:En. revert l En.
  induction n as [n IH] using lt_wf_ind; intros l -> Hr Hl.
  rewrite all_pairs_level by done. rewrite merkle_root_level in Hr by done.
  destruct (decide (2 ≤ length (level l))%nat) as [H2|].
  - destruct (IH _ (level_shorter _ Hl) _ eq_refl Hr H2) as (p & Hp & ->). exists p. set_solver.
  - destruct l as [|x [|y [|z [|w l]]]]; simpl in *; try lia. injection Hr as <-.
    exists (x, y). set_solver.
Qed.

Lemma pairs_NoDup l : NoDup l → NoDup (pairs l).
Proof.
  induction l as [|z|z1 z2 l IH] using pair_ind; intros Hd; [constructor|apply NoDup_singleton|].
  inversion Hd as [|? ? H1 Hd1]; subst. inversion Hd1 as [|? ? H2 Hd2]; subst.
  constructor; [|by apply IH]. intros [Hp _]%elem_of_pairs. simpl in Hp. set_solver.
Qed.

(** Equal images under the hash are a collision or equal. *)
Context `{!EqDecision A}.

Lemma fmap_uncurry_inj (ps qs all : list (A * A)) : ps ⊆ all → qs ⊆ all →
  uncurry H <$> ps = uncurry H <$> qs → ps = qs ∨ collision all.
Proof.
  revert qs. induction ps as [|p ps IH]; intros [|q qs] Hp Hq E; try done; [by left|].
  injection E as E1 E2.
  destruct (decide (p = q)) as [->|Hpq]; [|right; exists p, q; set_solver].
  destruct (IH qs) as [->|]; [set_solver..|done|by left|by right].
Qed.

Lemma NoDup_hashes (ps all : list (A * A)) : NoDup ps → ps ⊆ all →
  NoDup (uncurry H <$> ps) ∨ collision all.
Proof.
  induction 1 as [|p ps Hp Hd IH]; intros Hs; [left; constructor|].
  destruct IH as [IH|]; [set_solver| |by right].
  destruct (decide (uncurry H p ∈ uncurry H <$> ps)) as [Hi|]; [|left; by constructor].
  apply list_elem_of_fmap in Hi as (q & E & Hq). right. exists p, q. set_solver.
Qed.

(** The head may be repeated; nothing else may. *)
Lemma level_NoDup_tail l : NoDup (tail l) → (2 ≤ length l)%nat →
  NoDup (tail (level l)) ∨ collision (all_pairs l).
Proof.
  intros Hd Hl. rewrite all_pairs_level by done. destruct l as [|x [|y l]]; simpl in Hl; try lia.
  simpl in Hd. inversion Hd; subst. apply NoDup_hashes; [by apply pairs_NoDup|]. set_solver.
Qed.

Lemma pairs_inj l k : NoDup l → NoDup k → pairs l = pairs k → l = k.
Proof.
  revert k. induction l as [|x|x y l IH] using pair_ind; intros [|x' [|y' k]] Hl Hk E; try done.
  - by injection E as ->.
  - injection E as -> -> _. inversion Hk; set_solver.
  - injection E as -> -> _. inversion Hl; set_solver.
  - injection E as -> -> E. inversion Hl as [|? ? _ Hl1]; inversion Hl1; subst.
    inversion Hk as [|? ? _ Hk1]; inversion Hk1; subst. f_equal. f_equal. by apply IH.
Qed.

Lemma pairs_inj_tail l k : (2 ≤ length l)%nat → (2 ≤ length k)%nat →
  NoDup (tail l) → NoDup (tail k) → pairs l = pairs k → l = k.
Proof.
  destruct l as [|x [|y l]], k as [|x' [|y' k]]; simpl; try lia. intros _ _ Hl Hk E.
  injection E as -> -> E. inversion Hl; inversion Hk; subst. do 2 f_equal. by apply pairs_inj.
Qed.

Lemma collision_mono ps qs : ps ⊆ qs → collision ps → collision qs.
Proof. intros Hs (p & q & ? & ? & ?). exists p, q. set_solver. Qed.

(** A leaf one level up that is a hash of the other tree: the leaves below are. *)
Lemma leaf_above l k : (2 ≤ length l)%nat → (2 ≤ length k)%nat →
  leaf_is_node (level l) (all_pairs (level k)) →
  collision (all_pairs l ++ all_pairs k) ∨ leaf_is_node l (all_pairs k).
Proof.
  intros Hl Hk (x & q & (p & Hp & ->)%elem_of_level & Hq & E).
  destruct (decide (p = q)) as [->|Hpq].
  - right. destruct (hashed_inside k q Hq Hk) as (q' & Hq' & E').
    exists q.1, q'. split_and!; [by apply (elem_of_pairs q l)|done|done].
  - left. exists p, q. rewrite (all_pairs_level l), (all_pairs_level k) by done. set_solver.
Qed.

Theorem merkle_root_commits l k : l ≠ [] → k ≠ [] → NoDup (tail l) → NoDup (tail k) →
  merkle_root l = merkle_root k →
  l = k ∨ collision (all_pairs l ++ all_pairs k) ∨
  leaf_is_node l (all_pairs k) ∨ leaf_is_node k (all_pairs l).
Proof.
  remember (length l) as n eqn:En. revert l k En.
  induction n as [n IH] using lt_wf_ind; intros l k -> Hl Hk Dl Dk E.
  assert (∀ j : list A, j ≠ [] → ¬ (2 ≤ length j)%nat → ∃ x, j = [x]) as Hone.
  { intros [|x [|]] ??; simpl in *; [done|by eexists|lia]. }
  destruct (decide (2 ≤ length l)%nat) as [Ll|Ll]; destruct (decide (2 ≤ length k)%nat) as [Lk|Lk].
  - rewrite (merkle_root_level l), (merkle_root_level k) in E by done.
    destruct (level_NoDup_tail l) as [Dl'|]; [done..| |right; left; eapply collision_mono; [|done]; set_solver].
    destruct (level_NoDup_tail k) as [Dk'|]; [done..| |right; left; eapply collision_mono; [|done]; set_solver].
    destruct (IH _ (level_shorter _ Ll) (level l) (level k) eq_refl) as [E'|[Hc|[Hn|Hn]]];
      auto using level_nonempty.
    + destruct (fmap_uncurry_inj (pairs l) (pairs k) (all_pairs l ++ all_pairs k)) as [Ep|];
        [rewrite (all_pairs_level l) by done; set_solver|rewrite (all_pairs_level k) by done; set_solver
        |done| |by right; left].
      left. by apply pairs_inj_tail.
    + right; left. eapply collision_mono; [|done]. rewrite (all_pairs_level l), (all_pairs_level k) by done. set_solver.
    + destruct (leaf_above l k); auto.
    + destruct (leaf_above k l) as [Hc|]; auto. right; left. eapply collision_mono; [|done]. set_solver.
  - destruct (Hone k Hk Lk) as [x ->]. rewrite merkle_root_one in E.
    destruct (root_is_hash l x E Ll) as (p & Hp & ->). right; right; right. exists (uncurry H p), p. set_solver.
  - destruct (Hone l Hl Ll) as [x ->]. rewrite merkle_root_one in E. symmetry in E.
    destruct (root_is_hash k x E Lk) as (p & Hp & ->). right; right; left. exists (uncurry H p), p. set_solver.
  - destruct (Hone l Hl Ll) as [x ->], (Hone k Hk Lk) as [y ->]. left. rewrite !merkle_root_one in E. by simplify_eq.
Qed.
End Merkle.
