(* ===== verification/GoSubtree.v ===== *)
(** * github.com/bsv-blockchain/go-subtree: subtrees of a block

    What the modelled code reads of a [subtree.Subtree] and the functions it calls, with
    their documented behaviour as laws: the root of a subtree is the merkle root of
    its nodes, unless the file it was read from claimed one; a short subtree can be
    lifted to a greater height; the first node can be replaced by the coinbase; and a
    proof is a path to the root. *)

From S2P Require Import Prelude External Merkle.

Record Node := mkNode { node_Hash : Hash; node_Fee : Z; node_SizeInBytes : Z }.

(** [st_claimed] is the root read from the header of a file, and [st_capacity] how many
    nodes fit. *)
Record SubtreeData := mkSubtree {
  st_Nodes : list Node;
  st_Height : nat;
  st_capacity : nat;
  st_claimed : option Hash;
}.

#[export] Instance Hash_inhabited : Inhabited Hash := populate zero_hash.
#[export] Instance Node_eq_dec : EqDecision Node.
Proof. solve_decision. Defined.
#[export] Instance SubtreeData_eq_dec : EqDecision SubtreeData.
Proof. solve_decision. Defined.

Definition Length (st : SubtreeData) : Z := Z.of_nat (length (st_Nodes st)).
Definition node_hashes (st : SubtreeData) : list Hash := map node_Hash (st_Nodes st).

(** Two children, as [chainhash.DoubleHashH] of their concatenation. *)
Definition hash_pair `{Chainhash} (a b : Hash) : Hash := DoubleHashH (hash_bytes a ++ hash_bytes b).

Class GoSubtree := {
  IsPowerOfTwo : Z → bool;
  RootHash : SubtreeData → option Hash;
  RootHashWithReplaceRootNode : SubtreeData → Hash → Z → Z → result Hash;
  RootHashPadded : SubtreeData → nat → result Hash;
  ReplaceRootNode : SubtreeData → Hash → Z → Z → SubtreeData;
  GetMerkleProof : SubtreeData → Z → result (list Hash);
  BuildMerkleTreeStoreFromBytes : list Node → result (list Hash);
  NewIncompleteTreeByLeafCount : Z → result SubtreeData;
  AddNode : SubtreeData → Hash → Z → Z → result SubtreeData;
}.

(** A subtree whose claim, when it carries one, is the root of its nodes. *)
Definition anchored `{Chainhash} (st : SubtreeData) (r : Hash) : Prop :=
  merkle_root hash_pair (node_hashes st) = Some r ∧ (st_claimed st = None ∨ st_claimed st = Some r).

(** The path of one leaf: a step up hashes the entry with its sibling, which is on the
    left of an odd entry. *)
Fixpoint climb_path `{Chainhash} (x : Hash) (i : nat) (path : list Hash) : Hash :=
  match path with
  | [] => x
  | y :: path => climb_path (climb hash_pair x (y, negb (Nat.even i))) (Nat.div2 i) path
  end.

Class GoSubtreeSpec `{Chainhash} (S : GoSubtree) : Prop := {
  IsPowerOfTwo_spec n : IsPowerOfTwo n = true ↔ ∃ k : nat, n = 2 ^ Z.of_nat k;
  RootHash_claimed st r : st_claimed st = Some r → RootHash st = Some r;
  RootHash_computed st : st_claimed st = None → RootHash st = merkle_root hash_pair (node_hashes st);
  RootHashWithReplaceRootNode_spec st h fee size : st_Nodes st ≠ [] →
    ∃ r, RootHashWithReplaceRootNode st h fee size = Ok r ∧
         merkle_root hash_pair (h :: tail (node_hashes st)) = Some r;
  RootHashPadded_spec st r n : anchored st r → (length (st_Nodes st) ≤ 2 ^ n)%nat →
    RootHashPadded st n = Ok (lift hash_pair (n - height (node_hashes st)) r);
  ReplaceRootNode_spec st h fee size : st_Nodes st ≠ [] →
    let st' := ReplaceRootNode st h fee size in
    node_hashes st' = h :: tail (node_hashes st) ∧ st_Height st' = st_Height st ∧ st_claimed st' = None;
  GetMerkleProof_spec st r (i : nat) x : anchored st r → node_hashes st !! i = Some x →
    ∃ path, GetMerkleProof st (Z.of_nat i) = Ok path ∧
            length path = height (node_hashes st) ∧ climb_path x i path = r;
  BuildMerkleTreeStoreFromBytes_spec nodes r :
    merkle_root hash_pair (map node_Hash nodes) = Some r →
    ∃ store, BuildMerkleTreeStoreFromBytes nodes = Ok store ∧ last store = Some r;
  NewIncompleteTreeByLeafCount_spec n st : NewIncompleteTreeByLeafCount n = Ok st →
    st_Nodes st = [] ∧ st_claimed st = None;
  NewIncompleteTreeByLeafCount_total n : (0 < n)%nat →
    ∃ st, NewIncompleteTreeByLeafCount (Z.of_nat n) = Ok st ∧ (n ≤ st_capacity st)%nat;
  AddNode_spec st h fee size st' : AddNode st h fee size = Ok st' →
    st_Nodes st' = st_Nodes st ++ [mkNode h fee size] ∧
    st_claimed st' = None ∧ st_capacity st' = st_capacity st;
}.

(** ** A concrete model *)
Definition model_root `{Chainhash} (l : list Hash) : result Hash :=
  match merkle_root hash_pair l with Some r => Ok r | None => Err (err ERR_ERROR) end.

Fixpoint model_path `{Chainhash} (fuel : nat) (l : list Hash) (i : nat) : list Hash :=
  match l, fuel with
  | [], _ | [_], _ | _, O => []
  | _, S fuel => default zero_hash (sibling l i) :: model_path fuel (level hash_pair l) (Nat.div2 i)
  end.

Definition model_GoSubtree `{Chainhash} : GoSubtree := {|
  IsPowerOfTwo n := (0 <? n) && bool_decide (n = 2 ^ Z.log2 n);
  RootHash st := match st_claimed st with
                 | Some r => Some r
                 | None => merkle_root hash_pair (node_hashes st)
                 end;
  RootHashWithReplaceRootNode st h _ _ := model_root (h :: tail (node_hashes st));
  RootHashPadded st n :=
    let? r := model_root (node_hashes st) in
    Ok (lift hash_pair (n - height (node_hashes st)) r);
  ReplaceRootNode st h fee size :=
    mkSubtree (mkNode h fee size :: tail (st_Nodes st)) (st_Height st) (st_capacity st) None;
  GetMerkleProof st i := Ok (model_path (length (st_Nodes st)) (node_hashes st) (Z.to_nat i));
  BuildMerkleTreeStoreFromBytes nodes :=
    let? r := model_root (map node_Hash nodes) in Ok (map node_Hash nodes ++ [r]);
  NewIncompleteTreeByLeafCount n :=
    if 0 <? n then Ok (mkSubtree [] (Nat.log2_up (Z.to_nat n)) (Z.to_nat n) None) else Err (err ERR_ERROR);
  AddNode st h fee size :=
    Ok (mkSubtree (st_Nodes st ++ [mkNode h fee size]) (st_Height st) (st_capacity st) None);
|}.

Lemma model_path_spec `{Chainhash} fuel l i x r : (length l ≤ S fuel)%nat →
  merkle_root hash_pair l = Some r → l !! i = Some x →
  climb_path x i (model_path fuel l i) = r ∧ length (model_path fuel l i) = height l.
Proof.
  revert l i x. induction fuel as [|fuel IH]; intros l i x Hl Hr Hx.
  { destruct l as [|y [|]]; simpl in Hl, Hx; [done| |lia].
    destruct i; [|done]. rewrite merkle_root_one in Hr. by simplify_eq/=. }
  destruct l as [|y [|z l]]; [done| |].
  { destruct i; [|done]. rewrite merkle_root_one in Hr. by simplify_eq/=. }
  set (k := y :: z :: l) in *. assert (2 ≤ length k)%nat by (subst k; simpl; lia).
  change (model_path (S fuel) k i) with
    (default zero_hash (sibling k i) :: model_path fuel (level hash_pair k) (Nat.div2 i)).
  destruct (sibling_some k i) as [s Hs]; [by eapply lookup_lt_Some|]. rewrite Hs. change (default zero_hash (Some s)) with s.
  cbn [climb_path length].
  pose proof (level_lookup hash_pair k i x s Hx Hs) as Hup.
  pose proof (level_shorter hash_pair k ltac:(done)).
  rewrite merkle_root_level in Hr by done.
  destruct (IH (level hash_pair k) (Nat.div2 i) _ ltac:(lia) Hr Hup) as [E1 E2].
  rewrite E2. split; [exact E1|].
  by rewrite (height_level hash_pair k).
Qed.

Lemma model_GoSubtree_spec `{Chainhash} : GoSubtreeSpec model_GoSubtree.
Proof.
  split; simpl.
  - intros n. rewrite andb_true_iff, bool_decide_eq_true, Z.ltb_lt. split.
    + intros [? E]. exists (Z.to_nat (Z.log2 n)). rewrite Z2Nat.id by apply Z.log2_nonneg. done.
    + intros [k ->]. rewrite Z.log2_pow2 by lia. split; [|done]. by apply Z.pow_pos_nonneg; lia.
  - by intros st r ->.
  - by intros st ->.
  - intros st h fee size _. destruct (merkle_root_some hash_pair (h :: tail (node_hashes st))) as [r E]; [done|].
    exists r. unfold model_root. by rewrite E.
  - intros st r n [E _] _. unfold model_root. by rewrite E.
  - intros st h fee size Hne. unfold node_hashes. by destruct (st_Nodes st).
  - intros st r i x [E _] Hx. rewrite Nat2Z.id. eexists; split; [done|].
    destruct (model_path_spec (length (st_Nodes st)) (node_hashes st) i x r) as [-> ->]; [|done..].
    unfold node_hashes. rewrite length_map. lia.
  - intros nodes r E. unfold model_root. rewrite E. simpl. eexists; split; [done|]. by rewrite last_snoc.
  - intros n st. case_match; [|done]. by intros [= <-].
  - intros n Hn. rewrite (proj2 (Z.ltb_lt _ _)) by lia. eexists; split; [done|]. simpl. lia.
  - by intros st h fee size st' [= <-].
Qed.
