(* ===== verification/BodyBinding.v ===== *)
(** * Is this body the one the header commits to?

    model/subtree_body_shape.go, model/check_duplicate_txs.go, model/
    subtree_meta_reader.go (the two checks of a subtree against its key), and of
    model/Block.go [CheckMerkleRoot], [blockMerkleRoot] and [checkBodyBoundToHeader]; of
    services/blockvalidation, [checkSubtreeBodyBinding] (quick_validate.go) and the
    binding pass [bindSubtreeBodyToHeader] (quick_validate_bind.go), which reads the
    block a chunk of subtrees at a time.  A nil pointer is [None]. *)

From S2P Require Import Prelude External Merkle GoSubtree BlockReward.

(** Of a [model.Block], what its body is bound with. *)
Record Body := mkBody {
  bd_MerkleRoot : Hash;                        (* [Header.HashMerkleRoot] *)
  bd_CoinbaseTx : option Tx;
  bd_Subtrees : list Hash;
  bd_SubtreeSlices : list (option SubtreeData);
}.

Section Binding.
  Context {CH : Chainhash} {BT : BtTx} {SUB : Subtree} {GS : GoSubtree}.

(** ** A subtree and its key *)
Definition ValidateSubtreeMatchesKey (subtree : option SubtreeData) (key : option Hash) : result unit :=
  match subtree, key with
  | None, _ | _, None => Err (err ERR_PROCESSING)
  | Some st, Some key =>
      match RootHash st with
      | None => Err (err ERR_PROCESSING)
      | Some r => guard? bool_decide (r = key) else err ERR_PROCESSING in Ok tt
      end
  end.

Definition ValidateSubtreeNodesMatchKey (subtree : option SubtreeData) (key : option Hash) : result unit :=
  match subtree, key with
  | None, _ | _, None => Err (err ERR_PROCESSING)
  | Some st, Some key =>
      guard? negb (bool_decide (st_Nodes st = [])) else err ERR_PROCESSING in
      let? store := wrapR ERR_PROCESSING (BuildMerkleTreeStoreFromBytes (st_Nodes st)) in
      match last store with
      | None => Err (err ERR_PROCESSING)
      | Some computed =>
          guard? bool_decide (computed = key) else err ERR_PROCESSING in
          match RootHash st with
          | None => Err (err ERR_PROCESSING)
          | Some r => guard? bool_decide (r = key) else err ERR_PROCESSING in Ok tt
          end
      end
  end.

(** ** The shape of a body, and the root of its subtrees' roots *)
Definition CheckSubtreeShape (idx : nat) (length targetLength : Z) (isLast : bool) : result unit :=
  guard? negb ((idx =? 0)%nat && negb (IsPowerOfTwo targetLength)) else err ERR_BLOCK_CORRUPT in
  guard? negb (negb isLast && negb (length =? targetLength)) else err ERR_BLOCK_CORRUPT in
  guard? negb (isLast && (length >? targetLength)) else err ERR_BLOCK_CORRUPT in
  Ok tt.

Fixpoint add_roots (st : SubtreeData) (seen : gset Hash) (roots : list Hash) : result SubtreeData :=
  match roots with
  | [] => Ok st
  | hash :: roots =>
      guard? negb (bool_decide (hash ∈ seen)) else err ERR_BLOCK_CORRUPT in
      let? st := wrapR ERR_PROCESSING (AddNode st hash 1 0) in
      add_roots st ({[hash]} ∪ seen) roots
  end.

Definition ComposeSubtreeRootsToMerkleRoot (roots : list Hash) : result Hash :=
  let? st := wrapR ERR_PROCESSING (NewIncompleteTreeByLeafCount (Z.of_nat (length roots))) in
  let? st := add_roots st ∅ roots in
  match RootHash st with
  | None => Err panic
  | Some calculated => wrapR ERR_PROCESSING (NewHash (hash_bytes calculated))
  end.

(** The loop over the slices; [n] is how many there are. *)
Fixpoint check_shapes (allLoaded : bool) (n i : nat) (targetLength : Z) (slices : list (option SubtreeData))
  : result unit :=
  match slices with
  | [] => Ok tt
  | sub :: slices =>
      let isLast := (i =? n - 1)%nat in
      match sub with
      | None => if negb allLoaded && negb isLast then check_shapes allLoaded n (S i) targetLength slices
                else Err (err ERR_PROCESSING)
      | Some st =>
          let? _ := CheckSubtreeShape i (Length st) targetLength isLast in
          check_shapes allLoaded n (S i) targetLength slices
      end
  end.

Definition set_last (l : list Hash) (h : Hash) : list Hash := <[(length l - 1)%nat := h]> l.

Definition blockMerkleRoot (hashes : list Hash) (slices : list (option SubtreeData)) (allLoaded : bool)
  : result Hash :=
  match hashes with
  | [h] => Ok h
  | _ =>
      match slices with
      | [] => Err panic
      | None :: _ => Err (err ERR_PROCESSING)
      | Some firstSubtree :: _ =>
          let targetLength := Length firstSubtree in
          let targetHeight := st_Height firstSubtree in
          let? _ := check_shapes allLoaded (length slices) 0 targetLength slices in
          match last slices with
          | Some (Some lst) =>
              if Length lst <? targetLength then
                let? liftedRoot := wrapR ERR_PROCESSING (RootHashPadded lst targetHeight) in
                ComposeSubtreeRootsToMerkleRoot (set_last hashes liftedRoot)
              else ComposeSubtreeRootsToMerkleRoot hashes
          | _ => Err (err ERR_PROCESSING)
          end
      end
  end.

(** The root of the first subtree with the coinbase in place of the placeholder. *)
Definition first_root (st : SubtreeData) (coinbaseTx : option Tx) : result Hash :=
  match coinbaseTx with
  | None => Err panic
  | Some tx => wrapR ERR_PROCESSING (RootHashWithReplaceRootNode st (TxIDChainHash tx) 0 (u64 (TxSize tx)))
  end.

(** [firstRootMemo]: the subtree and the coinbase a root was computed from.  The code
    compares the pointers of the subtrees, whose nodes do not change meanwhile. *)
Record firstRootMemo := mkMemo { memo_subtree : SubtreeData; memo_coinbase : Hash; memo_root : Hash }.

Definition memo_hit (memo : option firstRootMemo) (st : SubtreeData) (coinbaseTx : option Tx) : result (option Hash) :=
  match memo with
  | None => Ok None
  | Some m =>
      if negb (bool_decide (memo_subtree m = st)) then Ok None
      else match coinbaseTx with
           | None => Err panic
           | Some tx => Ok (if bool_decide (memo_coinbase m = TxIDChainHash tx) then Some (memo_root m) else None)
           end
  end.

Fixpoint slice_roots (memo : option firstRootMemo) (coinbaseTx : option Tx) (sIdx : nat)
    (slices : list (option SubtreeData)) : result (list Hash) :=
  match slices with
  | [] => Ok []
  | None :: _ => Err (err ERR_PROCESSING)
  | Some st :: slices =>
      let? h := match sIdx with
                | O => let? hit := memo_hit memo st coinbaseTx in
                       match hit with Some r => Ok r | None => first_root st coinbaseTx end
                | S _ => match RootHash st with None => Err (err ERR_PROCESSING) | Some r => Ok r end
                end in
      let? hs := slice_roots memo coinbaseTx (S sIdx) slices in
      Ok (h :: hs)
  end.

(** [memo] is what the block carries; the check consumes it. *)
Definition CheckMerkleRoot (b : Body) (memo : option firstRootMemo) : result unit :=
  guard? bool_decide (length (bd_Subtrees b) = length (bd_SubtreeSlices b)) else err ERR_STORAGE_ERROR in
  let? hashes := slice_roots memo (bd_CoinbaseTx b) 0 (bd_SubtreeSlices b) in
  let? calculated :=
    (if (0 <? length hashes)%nat then blockMerkleRoot hashes (bd_SubtreeSlices b) true
     else match bd_CoinbaseTx b with None => Err panic | Some tx => Ok (TxIDChainHash tx) end) in
  guard? bool_decide (bd_MerkleRoot b = calculated) else err ERR_BLOCK_CORRUPT in
  Ok tt.

(** With only the first and the last subtree loaded; the memo it leaves. *)
Definition checkBodyBoundToHeader (b : Body) (first lst : option SubtreeData) : result firstRootMemo :=
  match first with
  | None => Err (err ERR_PROCESSING)
  | Some st =>
      match st_Nodes st with
      | [] => Err (err ERR_PROCESSING)
      | node :: _ =>
          guard? bool_decide (node_Hash node = CoinbasePlaceholderHashValue) else err ERR_BLOCK_CORRUPT in
          let? rootHash := first_root st (bd_CoinbaseTx b) in
          match bd_Subtrees b, bd_CoinbaseTx b with
          | [], _ | _, None => Err panic
          | _ :: keys, Some tx =>
              let hashes := rootHash :: keys in
              let slices := <[(length keys)%nat := lst]> (first :: replicate (length keys) None) in
              let? calculated := blockMerkleRoot hashes slices false in
              guard? bool_decide (bd_MerkleRoot b = calculated) else err ERR_BLOCK_CORRUPT in
              Ok (mkMemo st (TxIDChainHash tx) rootHash)
          end
      end
  end.

(** ** Repeated transactions *)
Fixpoint dedup_nodes (atOrigin : bool) (seen : gset Hash) (nodes : list Node) : result (gset Hash) :=
  match nodes with
  | [] => Ok seen
  | node :: nodes =>
      if atOrigin && bool_decide (node_Hash node = CoinbasePlaceholderHashValue)
      then dedup_nodes false seen nodes
      else
        guard? negb (bool_decide (node_Hash node ∈ seen)) else err ERR_BLOCK_CORRUPT in
        dedup_nodes false ({[node_Hash node]} ∪ seen) nodes
  end.

(** [SubtreeTxDeduper.Add] *)
Definition Add (seen : gset Hash) (subIdx : nat) (subtree : option SubtreeData) : result (gset Hash) :=
  match subtree with
  | None => Ok seen
  | Some st => dedup_nodes (subIdx =? 0)%nat seen (st_Nodes st)
  end.

Fixpoint dedup_slices (seen : gset Hash) (subIdx : nat) (slices : list (option SubtreeData)) : result (gset Hash) :=
  match slices with
  | [] => Ok seen
  | st :: slices => let? seen := Add seen subIdx st in dedup_slices seen (S subIdx) slices
  end.

Definition CheckSubtreeSlicesForDuplicateTxs (slices : list (option SubtreeData)) : result unit :=
  let? _ := dedup_slices ∅ 0 slices in Ok tt.

(** ** [checkSubtreeBodyBinding]: on the slices of a whole block *)

(** All but the last have the first one's length. *)
Fixpoint check_sizes (subtreeSize : Z) (slices : list (option SubtreeData)) : result unit :=
  match slices with
  | [] | [_] => Ok tt
  | None :: _ => Err panic
  | Some st :: slices =>
      guard? bool_decide (Length st = subtreeSize) else err ERR_BLOCK_CORRUPT in
      check_sizes subtreeSize slices
  end.

Definition check_uniform (slices : list (option SubtreeData)) : result unit :=
  match slices with
  | Some st :: _ => check_sizes (Length st) slices
  | None :: _ :: _ => Err panic
  | _ => Ok tt
  end.

Definition check_placeholder (slices : list (option SubtreeData)) : result unit :=
  match slices with
  | [] => Ok tt
  | None :: _ => Err (err ERR_PROCESSING)
  | Some first :: _ =>
      match st_Nodes first with
      | [] => Err (err ERR_BLOCK_CORRUPT)
      | node :: _ =>
          guard? bool_decide (node_Hash node = CoinbasePlaceholderHashValue) else err ERR_BLOCK_CORRUPT in Ok tt
      end
  end.

Definition IsBlockCorrupt (e : error) : bool := error_Is e ERR_BLOCK_CORRUPT.

Definition checkSubtreeBodyBinding (b : Body) (memo : option firstRootMemo) : result unit :=
  let? _ := check_uniform (bd_SubtreeSlices b) in
  let? _ := match CheckMerkleRoot b memo with
            | Ok _ => Ok tt
            | Err e => Err (if IsBlockCorrupt e then e else err_wrap ERR_PROCESSING e)
            end in
  let? _ := check_placeholder (bd_SubtreeSlices b) in
  let? _ := CheckSubtreeSlicesForDuplicateTxs (bd_SubtreeSlices b) in
  guard? IsConsensusCoinbase (bd_CoinbaseTx b) else err ERR_BLOCK_INVALID in
  Ok tt.
End Binding.
