(* ===== verification/BindingPass.v ===== *)
(** * Binding a body before anything is written

    services/blockvalidation/quick_validate_bind.go and, of quick_validate.go, the
    reads: every subtree of the block is read from the local store and its nodes are
    hashed again ([readSubtreeStructure]), a chunk at a time, and what survives a chunk
    is one root per subtree and the set of transactions ([bindSubtreeBodyToHeader]).
    A blob that does not hash to its key is named on the error, with its sibling when
    that is forged too, and removed at the entry point of the route
    ([quarantineSubtreeKeyMismatch]).

    The store's answers are arguments.  The errors of concurrent reads are recorded
    in any order. *)

From S2P Require Import Prelude External Merkle GoSubtree BlockReward Pipeline BodyBinding.

Inductive FileType := FileTypeSubtree | FileTypeSubtreeToCheck | FileTypeSubtreeData.

#[export] Instance FileType_eq_dec : EqDecision FileType.
Proof. solve_decision. Defined.

Record subtreeBlobRef := mkRef { ref_hash : Hash; ref_fileType : FileType }.

#[export] Instance subtreeBlobRef_eq_dec : EqDecision subtreeBlobRef.
Proof. solve_decision. Defined.
#[export] Instance FileType_countable : Countable FileType.
Proof.
  refine (inj_countable' (λ t, match t with FileTypeSubtree => 0 | FileTypeSubtreeToCheck => 1 | FileTypeSubtreeData => 2 end)
            (λ n, match n with 0 => FileTypeSubtree | 1 => FileTypeSubtreeToCheck | _ => FileTypeSubtreeData end) _).
  by intros [].
Defined.
#[export] Instance subtreeBlobRef_countable : Countable subtreeBlobRef.
Proof. by refine (inj_countable' (λ r, (ref_hash r, ref_fileType r)) (λ p, mkRef p.1 p.2) _); intros []. Defined.

(** An error with the two marks of quick_validate_bind.go: the blobs it names, and
    whether one of them could not be confirmed removed or audited. *)
Record marked := mkMarked {
  mk_error : error;
  mk_refs : list subtreeBlobRef;
  mk_unquarantined : bool;
}.

Definition unmarked (e : error) : marked := mkMarked e [] false.

(** Replaces the refs; an empty list marks nothing. *)
Definition markSubtreeKeyMismatch (m : marked) (refs : list subtreeBlobRef) : marked :=
  match refs with
  | [] => m
  | _ => mkMarked (mk_error m) refs (mk_unquarantined m)
  end.

Definition markUnquarantinedLocalSubtree (m : marked) : marked :=
  mkMarked (mk_error m) (mk_refs m) true.

Section Reads.
  Context {CH : Chainhash} {GS : GoSubtree}.

(** The store of blobs, and the deserialisation of one ([subtreepkg]). *)
  Context (Exists_ : Hash → FileType → result bool)
          (GetIoReader : Hash → FileType → result (list byte))
          (Get_ : Hash → FileType → result (list byte))
          (newSubtreeFromBytes : list byte → result SubtreeData).

Definition findLocalSubtreeFile (subtreeHash : Hash) : result (option FileType) :=
  let? exists_ := Exists_ subtreeHash FileTypeSubtreeToCheck in
  if exists_ : bool then Ok (Some FileTypeSubtreeToCheck)
  else
    let? exists_ := Exists_ subtreeHash FileTypeSubtree in
    Ok (if exists_ : bool then Some FileTypeSubtree else None).

Definition subtreeSiblingFileType (t : FileType) : FileType :=
  match t with FileTypeSubtree => FileTypeSubtreeToCheck | _ => FileTypeSubtree end.

Definition rejectKeyMismatchAndAuditSibling (subtreeHash : Hash) (readFileType : FileType) (anchorErr : error)
  : marked :=
  let e := unmarked (err_wrap ERR_PROCESSING anchorErr) in
  let refs := [mkRef subtreeHash readFileType] in
  let sibling := subtreeSiblingFileType readFileType in
  match Exists_ subtreeHash sibling with
  | Err _ => markUnquarantinedLocalSubtree (markSubtreeKeyMismatch e refs)
  | Ok false => markSubtreeKeyMismatch e refs
  | Ok true =>
      match Get_ subtreeHash sibling with
      | Err _ => markUnquarantinedLocalSubtree (markSubtreeKeyMismatch e refs)
      | Ok siblingBytes =>
          match newSubtreeFromBytes siblingBytes with
          | Err _ => markSubtreeKeyMismatch e (refs ++ [mkRef subtreeHash sibling])
          | Ok siblingSubtree =>
              match ValidateSubtreeNodesMatchKey (Some siblingSubtree) (Some subtreeHash) with
              | Err _ => markSubtreeKeyMismatch e (refs ++ [mkRef subtreeHash sibling])
              | Ok _ => markSubtreeKeyMismatch e refs
              end
          end
      end
  end.

Definition readFullSubtreeAnchored (subtreeHash : Hash) : SubtreeData + marked :=
  match Get_ subtreeHash FileTypeSubtree with
  | Err e => inr (unmarked (err_wrap ERR_NOT_FOUND e))
  | Ok fullSubtreeBytes =>
      match newSubtreeFromBytes fullSubtreeBytes with
      | Err e => inr (unmarked (err_wrap ERR_PROCESSING e))
      | Ok fullSubtree =>
          match ValidateSubtreeNodesMatchKey (Some fullSubtree) (Some subtreeHash) with
          | Err e => inr (markSubtreeKeyMismatch (unmarked (err_wrap ERR_PROCESSING e))
                            [mkRef subtreeHash FileTypeSubtree])
          | Ok _ => inl fullSubtree
          end
      end
  end.

(** In the mode [subtreeReadAnchorOnly]; the mapped file and its fallback to the heap
    read the same bytes. *)
Definition readSubtreeStructure (subtreeHash : Hash) : SubtreeData + marked :=
  match findLocalSubtreeFile subtreeHash with
  | Err e => inr (unmarked (err_wrap ERR_STORAGE_ERROR e))
  | Ok None => inr (unmarked (err ERR_NOT_FOUND))
  | Ok (Some localFileType) =>
      match GetIoReader subtreeHash localFileType with
      | Err e => inr (unmarked (err_wrap ERR_NOT_FOUND e))
      | Ok bytes =>
          match newSubtreeFromBytes bytes with
          | Err e => inr (unmarked (err_wrap ERR_PROCESSING e))
          | Ok subtree =>
              if Length subtree =? 0 then inr (unmarked (err ERR_PROCESSING))
              else
                match ValidateSubtreeNodesMatchKey (Some subtree) (Some subtreeHash) with
                | Err e => inr (rejectKeyMismatchAndAuditSibling subtreeHash localFileType e)
                | Ok _ =>
                    if bool_decide (localFileType = FileTypeSubtree) then inl subtree
                    else
                      match Exists_ subtreeHash FileTypeSubtree with
                      | Err e => inr (unmarked (err_wrap ERR_STORAGE_ERROR e))
                      | Ok false => inl subtree
                      | Ok true =>
                          match readFullSubtreeAnchored subtreeHash with
                          | inr m => inr m
                          | inl _ => inl subtree
                          end
                      end
                end
          end
      end
  end.
End Reads.

(** ** The verdicts of many reads *)
Record subtreeReadVerdicts := mkVerdicts {
  mismatches : list subtreeBlobRef;
  firstMismatch : option marked;
  firstOtherErr : option error;
  anyUnquarantined : bool;
}.

Definition no_verdicts : subtreeReadVerdicts := mkVerdicts [] None None false.

Definition record_ (v : subtreeReadVerdicts) (m : marked) : subtreeReadVerdicts :=
  match mk_refs m with
  | [] => mkVerdicts (mismatches v) (firstMismatch v)
            (match firstOtherErr v with None => Some (mk_error m) | e => e end) (anyUnquarantined v)
  | refs => mkVerdicts (mismatches v ++ refs)
              (match firstMismatch v with None => Some m | e => e end)
              (firstOtherErr v) (anyUnquarantined v || mk_unquarantined m)
  end.

Definition failed (v : subtreeReadVerdicts) : bool :=
  bool_decide (is_Some (firstMismatch v)) || bool_decide (is_Some (firstOtherErr v)).

Fixpoint dedupe_from (seen out : list subtreeBlobRef) (refs : list subtreeBlobRef) : list subtreeBlobRef :=
  match refs with
  | [] => out
  | r :: refs => if bool_decide (r ∈ seen) then dedupe_from seen out refs
                 else dedupe_from (r :: seen) (out ++ [r]) refs
  end.

Definition dedupeSubtreeBlobRefs (refs : list subtreeBlobRef) : list subtreeBlobRef :=
  if (length refs <? 2)%nat then refs else dedupe_from [] [] refs.

(** The two errors of the collector are never the same value: each slot holds one
    class. *)
Definition combineSweepMismatchError (firstMismatch : marked) (refs : list subtreeBlobRef) (anyUnquarantined : bool)
    (otherErr : option error) : marked :=
  let combined := markSubtreeKeyMismatch firstMismatch refs in
  let combined :=
    match otherErr with
    | None => combined
    | Some o => markSubtreeKeyMismatch
                  (mkMarked (err_wrap ERR_PROCESSING (SetWrappedErr (mk_error combined) o))
                     (mk_refs combined) (mk_unquarantined combined)) refs
    end in
  if anyUnquarantined then markUnquarantinedLocalSubtree combined else combined.

Definition verdicts_err (v : subtreeReadVerdicts) : option marked :=
  match firstMismatch v with
  | Some m => Some (combineSweepMismatchError m (dedupeSubtreeBlobRefs (mismatches v)) (anyUnquarantined v)
                      (firstOtherErr v))
  | None => unmarked <$> firstOtherErr v
  end.

(** ** [bindSubtreeBodyToHeader] *)
Section Bind.
  Context {CH : Chainhash} {BT : BtTx} {SUB : Subtree} {GS : GoSubtree}.

(** The reads, and the order in which the failures of a chunk are recorded. *)
  Context (read : Hash → SubtreeData + marked) (arrivals : list marked → list marked).

(** What survives a chunk; [bs_roots] grows in the order of the subtrees. *)
Record bind_state := mkBind {
  bs_roots : list Hash;
  bs_deduper : option (gset Hash);
  bs_targetLength : Z;
  bs_targetHeight : nat;
}.

Definition open_first (s : bind_state) (subtree : SubtreeData) : result bind_state :=
  match st_Nodes subtree with
  | [] => Err (err ERR_BLOCK_CORRUPT)
  | node :: _ =>
      guard? bool_decide (node_Hash node = CoinbasePlaceholderHashValue) else err ERR_BLOCK_CORRUPT in
      Ok (mkBind (bs_roots s) (Some ∅) (Length subtree) (st_Height subtree))
  end.

Definition bound_root (b : Body) (s : bind_state) (idx : nat) (subtree : SubtreeData) : result Hash :=
  if (idx =? 0)%nat then first_root subtree (bd_CoinbaseTx b)
  else if (idx =? length (bd_Subtrees b) - 1)%nat && (Length subtree <? bs_targetLength s)
  then wrapR ERR_PROCESSING (RootHashPadded subtree (bs_targetHeight s))
  else match RootHash subtree with None => Err (err ERR_PROCESSING) | Some r => Ok r end.

Definition bind_subtree (b : Body) (s : bind_state) (idx : nat) (subtree : SubtreeData) : result bind_state :=
  let numSubtrees := length (bd_Subtrees b) in
  let? s := (if (idx =? 0)%nat then open_first s subtree else Ok s) in
  let? _ := (if (1 <? numSubtrees)%nat
             then CheckSubtreeShape idx (Length subtree) (bs_targetLength s) (idx =? numSubtrees - 1)%nat
             else Ok tt) in
  match bs_deduper s with
  | None => Err (err ERR_PROCESSING)
  | Some seen =>
      let? seen := Add seen idx (Some subtree) in
      let? root := bound_root b s idx subtree in
      Ok (mkBind (bs_roots s ++ [root]) (Some seen) (bs_targetLength s) (bs_targetHeight s))
  end.

Fixpoint bind_all (b : Body) (s : bind_state) (idx : nat) (subtrees : list SubtreeData) : result bind_state :=
  match subtrees with
  | [] => Ok s
  | subtree :: subtrees => let? s := bind_subtree b s idx subtree in bind_all b s (S idx) subtrees
  end.

Definition structures (answers : list (SubtreeData + marked)) : list SubtreeData :=
  omap (λ a, match a with inl st => Some st | inr _ => None end) answers.
Definition failures (answers : list (SubtreeData + marked)) : list marked :=
  omap (λ a, match a with inl _ => None | inr m => Some m end) answers.

Record pass := mkPass {
  ps_verdicts : subtreeReadVerdicts;
  ps_firstCheckErr : option error;
  ps_state : bind_state;
}.

(** Once anything has failed the later chunks are only read. *)
Definition bind_chunk (b : Body) (p : pass) (idx : nat) (chunk : list Hash) : pass :=
  let answers := map read chunk in
  let v := foldl record_ (ps_verdicts p) (arrivals (failures answers)) in
  if failed v || bool_decide (is_Some (ps_firstCheckErr p)) then mkPass v (ps_firstCheckErr p) (ps_state p)
  else match bind_all b (ps_state p) idx (structures answers) with
       | Ok s => mkPass v None s
       | Err e => mkPass v (Some e) (ps_state p)
       end.

Fixpoint bind_chunks (b : Body) (p : pass) (idx : nat) (l : list (list Hash)) : pass :=
  match l with
  | [] => p
  | chunk :: l => bind_chunks b (bind_chunk b p idx chunk) (idx + length chunk) l
  end.

Definition bind_start : pass := mkPass no_verdicts None (mkBind [] None 0 0).

Definition composed_root (b : Body) (roots : list Hash) : result Hash :=
  match roots with
  | [] => Err panic
  | root :: _ =>
      if (1 <? length (bd_Subtrees b))%nat then
        match ComposeSubtreeRootsToMerkleRoot roots with
        | Ok r => Ok r
        | Err e => Err (if IsBlockCorrupt e then e else err_wrap ERR_PROCESSING e)
        end
      else Ok root
  end.

Definition bind_verdict (b : Body) (p : pass) : result unit + marked :=
  if failed (ps_verdicts p) then
    match verdicts_err (ps_verdicts p) with Some m => inr m | None => inl (Ok tt) end
  else
    match ps_firstCheckErr p with
    | Some e => inl (Err e)
    | None =>
        inl (let? composed := composed_root b (bs_roots (ps_state p)) in
             guard? bool_decide (bd_MerkleRoot b = composed) else err ERR_BLOCK_CORRUPT in
             guard? IsConsensusCoinbase (bd_CoinbaseTx b) else err ERR_BLOCK_INVALID in
             Ok tt)
    end.

(** [inr] is a failure of the reads, with its marks. *)
Definition bindSubtreeBodyToHeader (SubtreeBatchSize : Z) (b : Body) : result unit + marked :=
  if bool_decide (bd_Subtrees b = []) then inl (Ok tt)
  else
    let chunkWidth := if SubtreeBatchSize <? 1 then 1 else SubtreeBatchSize in
    bind_verdict b (bind_chunks b bind_start 0 (chunks (Z.to_nat chunkWidth) (bd_Subtrees b))).
End Bind.

(** ** [quarantineSubtreeKeyMismatch] *)
Section Quarantine.

(** The answers of the store and the context, by the number of calls so far: whether
    the context has ended, whether [Del] fails, whether it removes the blob anyway,
    and whether the probe after it fails.  A probe that answers, answers the truth. *)
  Context (cancelled : nat → bool) (del_error : nat → option error) (removes : nat → bool)
          (exists_error : nat → option error).

Definition quarantineDeleteAttempts : nat := 3.

(** [disk] is the blobs there are, [n] the number of attempts made so far. *)
Record qstate := mkQ { q_disk : gset subtreeBlobRef; q_n : nat }.

Fixpoint delete_attempts (attempts : nat) (ref : subtreeBlobRef) (s : qstate) : bool * qstate :=
  match attempts with
  | O => (false, s)
  | S attempts =>
      let n := q_n s in
      if cancelled n then (false, s)
      else
        let s := mkQ (if removes n then q_disk s ∖ {[ref]} else q_disk s) (S n) in
        let gone := match del_error n with Some e => error_Is e ERR_NOT_FOUND | None => true end in
        let absent := match exists_error n with Some _ => false | None => negb (bool_decide (ref ∈ q_disk s)) end in
        if gone && absent then (true, s) else delete_attempts attempts ref s
  end.

Definition deleteSubtreeBlobConfirmed (ref : subtreeBlobRef) (s : qstate) : bool * qstate :=
  delete_attempts quarantineDeleteAttempts ref s.

Fixpoint quarantine_all (refs : list subtreeBlobRef) (unconfirmed : nat) (s : qstate) : nat * qstate :=
  match refs with
  | [] => (unconfirmed, s)
  | ref :: refs =>
      let '(confirmed, s) := deleteSubtreeBlobConfirmed ref s in
      quarantine_all refs (if confirmed : bool then unconfirmed else S unconfirmed) s
  end.

Definition quarantineSubtreeKeyMismatch (m : marked) (s : qstate) : marked * qstate :=
  match mk_refs m with
  | [] => (m, s)
  | refs =>
      let '(unconfirmed, s) := quarantine_all refs 0 s in
      ((if (0 <? unconfirmed)%nat then markUnquarantinedLocalSubtree m else m), s)
  end.
End Quarantine.
