(* ===== verification/BodyBindingTheorems.v ===== *)
(** * What binding a body to its header establishes

    The root composed of subtree roots is the root of the whole list of transactions;
    the chunked binding pass accepts what the check of the whole block accepts; and
    together with the scan for repeated transactions the header commits to one body. *)

From S2P Require Import Prelude External Merkle GoSubtree BlockReward Pipeline BodyBinding BindingPass.

Section Theorems.
  Context {CH : Chainhash} {BT : BtTx} {SUB : Subtree} {GS : GoSubtree}.
  Context (CHS : ChainhashSpec CH) (GSS : GoSubtreeSpec GS).

Notation root l := (merkle_root hash_pair l).

(** ** Composing roots *)
Lemma add_roots_ok st seen roots st' : add_roots st seen roots = Ok st' →
  node_hashes st' = node_hashes st ++ roots ∧ (roots ≠ [] → st_claimed st' = None) ∧
  NoDup roots ∧ (∀ r, r ∈ roots → r ∉ seen).
Proof.
  revert st seen. induction roots as [|r roots IH]; intros st seen E; simpl in E.
  { simplify_eq. rewrite app_nil_r. repeat split; [done|constructor|set_solver]. }
  case_bool_decide as Hr; simpl in E; [done|].
  apply bindR_Ok in E as (st1 & Ea%wrapR_Ok & E).
  destruct (AddNode_spec _ _ _ _ _ Ea) as (En & Ec & _).
  destruct (IH _ _ E) as (Eh & Hc & Hd & Hs). unfold node_hashes in *. rewrite Eh, En, map_app.
  rewrite <- (assoc_L (++)). repeat split; try done.
  - intros _. destruct roots; [|by apply Hc]. by simplify_eq/=.
  - constructor; [|done]. intros Hin%Hs. set_solver.
  - intros r' [->|Hin]%elem_of_cons; [done|]. apply Hs in Hin. set_solver.
Qed.

Lemma Compose_ok roots r : roots ≠ [] → ComposeSubtreeRootsToMerkleRoot roots = Ok r →
  root roots = Some r ∧ NoDup roots.
Proof.
  intros Hne E. unfold ComposeSubtreeRootsToMerkleRoot in E.
  apply bindR_Ok in E as (st & En%wrapR_Ok & E). apply bindR_Ok in E as (st' & Ea & E).
  destruct (NewIncompleteTreeByLeafCount_spec _ _ En) as [En0 _].
  destruct (add_roots_ok _ _ _ _ Ea) as (Eh & Hc & Hd & _). split; [|done].
  assert (node_hashes st' = roots) as Eh' by (rewrite Eh; unfold node_hashes; by rewrite En0).
  rewrite (RootHash_computed st') in E by auto. rewrite Eh' in E.
  destruct (root roots) as [c|]; [|done]. apply (proj1 (wrapR_Ok _ _ _)) in E.
  rewrite NewHash_hash_bytes in E by done. by simplify_eq.
Qed.

(** ** Shapes *)
Lemma guard_Ok {A} (b : bool) e (k : result A) x : (if b then k else Err e) = Ok x ↔ b = true ∧ k = Ok x.
Proof. destruct b; naive_solver. Qed.

Lemma CheckSubtreeShape_ok idx len tl isLast : CheckSubtreeShape idx len tl isLast = Ok tt ↔
  (idx = 0%nat → ∃ k : nat, tl = 2 ^ Z.of_nat k) ∧ (isLast = false → len = tl) ∧ (isLast = true → len ≤ tl).
Proof.
  unfold CheckSubtreeShape. rewrite !guard_Ok.
  rewrite !negb_true_iff, !andb_false_iff, !negb_false_iff, Nat.eqb_neq, Z.eqb_eq, Z.gtb_ltb, Z.ltb_ge.
  rewrite IsPowerOfTwo_spec.
  destruct isLast, (decide (idx = 0%nat)); intuition congruence.
Qed.

Definition shapes (num : nat) (tl : Z) (idx : nat) (sts : list SubtreeData) : Prop :=
  ∀ i st, sts !! i = Some st →
    CheckSubtreeShape (idx + i) (Length st) tl (idx + i =? num - 1)%nat = Ok tt.

Lemma shapes_cons num tl idx st sts : shapes num tl idx (st :: sts) ↔
  CheckSubtreeShape idx (Length st) tl (idx =? num - 1)%nat = Ok tt ∧ shapes num tl (S idx) sts.
Proof.
  unfold shapes. split.
  - intros Hs. split; [specialize (Hs 0%nat st eq_refl); by rewrite Nat.add_0_r in Hs|].
    intros i x Hx. specialize (Hs (S i) x Hx). by rewrite Nat.add_succ_r in Hs.
  - intros [H0 Hs] [|i] x Hx; simpl in Hx; [simplify_eq; by rewrite Nat.add_0_r|].
    rewrite Nat.add_succ_r. by apply Hs.
Qed.

Lemma check_shapes_some n i tl sts : check_shapes true n i tl (Some <$> sts) = Ok tt ↔ shapes n tl i sts.
Proof.
  revert i. induction sts as [|st sts IH]; intros i; [done|]. rewrite shapes_cons, <- IH.
  rewrite fmap_cons. cbn [check_shapes]. destruct (CheckSubtreeShape _ _ _ _) as [[]|]; simpl; naive_solver.
Qed.

(** A block of two subtrees or more of the right shape: full ones of [2^k] and a last
    one that fits. *)
Lemma shapes_cut st0 sts : let all := st0 :: sts in sts ≠ [] → shapes (length all) (Length st0) 0 all →
  ∃ k mids lst, all = mids ++ [lst] ∧ mids ≠ [] ∧ length (st_Nodes st0) = (2 ^ k)%nat ∧
    Forall (λ st, length (st_Nodes st) = (2 ^ k)%nat) mids ∧ (length (st_Nodes lst) ≤ 2 ^ k)%nat.
Proof.
  intros all Hne Hs.
  destruct (exists_last (l := all)) as (mids & lst & E); [done|]. exists (Nat.log2 (length (st_Nodes st0))), mids, lst.
  assert (length all = S (length mids)) as El by (rewrite E, length_app; simpl; lia).
  destruct (proj1 (CheckSubtreeShape_ok _ _ _ _) (Hs 0%nat st0 eq_refl)) as [[k Hk] _]; [done|].
  assert (length (st_Nodes st0) = 2 ^ k)%nat as E0.
  { unfold Length in Hk. apply Nat2Z.inj. rewrite Hk, Nat2Z.inj_pow. done. }
  rewrite E0, Nat.log2_pow2 by lia.
  assert (mids ≠ []) as Hm by (intros ->; destruct sts; [done|simpl in El; lia]).
  assert (∀ i st, all !! i = Some st → (i < length mids)%nat → length (st_Nodes st) = 2 ^ k)%nat as Hfull.
  { intros i st Hi Hlt. destruct (proj1 (CheckSubtreeShape_ok _ _ _ _) (Hs i st Hi)) as (_ & Hf & _).
    rewrite El in Hf. cbn [Nat.add] in Hf. rewrite (proj2 (Nat.eqb_neq _ _)) in Hf by lia.
    specialize (Hf eq_refl). unfold Length in Hf. lia. }
  split_and!; try done.
  - apply Forall_lookup. intros i st Hi. apply (Hfull i); [|by eapply lookup_lt_Some].
    rewrite E. by apply lookup_app_l_Some.
  - assert (all !! length mids = Some lst) as Hl by (rewrite E; by apply list_lookup_middle).
    destruct (proj1 (CheckSubtreeShape_ok _ _ _ _) (Hs _ _ Hl)) as (_ & _ & Hlast).
    rewrite El in Hlast. cbn [Nat.add] in Hlast. rewrite (proj2 (Nat.eqb_eq _ _)) in Hlast by lia.
    specialize (Hlast eq_refl). unfold Length in Hlast. lia.
Qed.

(** ** Subtrees that are what they claim to be

    The claim of each is the root of its nodes, and the heights are those of their
    lengths, as for everything read from a file. *)
Definition sound (st : SubtreeData) (r : Hash) : Prop :=
  anchored st r ∧ st_Height st = height (node_hashes st) ∧ st_Nodes st ≠ [].

Lemma Length_nonzero st : st_Nodes st ≠ [] → (Length st =? 0) = false.
Proof. unfold Length. destruct (st_Nodes st); [done|]. intros _. by apply Z.eqb_neq. Qed.

Lemma length_node_hashes st : length (node_hashes st) = length (st_Nodes st).
Proof. apply length_map. Qed.

Lemma node_hashes_nonempty st : st_Nodes st ≠ [] → node_hashes st ≠ [].
Proof. unfold node_hashes. by destruct (st_Nodes st). Qed.

Lemma sound_RootHash st r : sound st r → RootHash st = Some r.
Proof.
  intros ([Hr [Hc|Hc]] & _). { by rewrite RootHash_computed. } by apply RootHash_claimed.
Qed.

(** The leaves of a body: the coinbase in place of the placeholder. *)
Definition leaves (cb : Hash) (sts : list SubtreeData) : list Hash :=
  cb :: tail (concat (map node_hashes sts)).

Lemma leaves_first cb st0 sts : st_Nodes st0 ≠ [] →
  leaves cb (st0 :: sts) = (cb :: tail (node_hashes st0)) ++ concat (map node_hashes sts).
Proof.
  intros Hn%node_hashes_nonempty. unfold leaves. simpl. by destruct (node_hashes st0).
Qed.

(** The root of each subtree as the tree of the block takes it. *)
Definition effective (st0 : SubtreeData) (all : list SubtreeData) (hs : list Hash) : list Hash :=
  match last all, last hs with
  | Some lst, Some r => if Length lst <? Length st0
                        then set_last hs (lift hash_pair (st_Height st0 - height (node_hashes lst)) r)
                        else hs
  | _, _ => hs
  end.

Lemma set_last_snoc (l : list Hash) x y : set_last (l ++ [x]) y = l ++ [y].
Proof.
  unfold set_last. rewrite length_app. simpl. rewrite Nat.add_sub.
  rewrite insert_app_r_alt by lia. by rewrite Nat.sub_diag.
Qed.

(** The composed root is the root of the leaves. *)
Lemma composed_flat cb st0 sts r0 rs : sts ≠ [] → Forall2 sound sts rs →
  st_Nodes st0 ≠ [] → st_Height st0 = height (node_hashes st0) →
  root (cb :: tail (node_hashes st0)) = Some r0 →
  shapes (length (st0 :: sts)) (Length st0) 0 (st0 :: sts) →
  root (effective st0 (st0 :: sts) (r0 :: rs)) = root (leaves cb (st0 :: sts)).
Proof.
  intros Hne Hs Hn0 Hh0 Hr0 Hsh.
  destruct (shapes_cut _ _ Hne Hsh) as (k & mids & lst & E & Hm & H0 & Hmids & Hl).
  destruct mids as [|x mids]; [done|]. simplify_eq E. intros -> ->.
  apply Forall2_app_inv_l in Hs as (rm & rl & Hrm & Hrl & ->).
  inversion Hrl as [|? r ? ? Hlst Hnil]; subst. inversion Hnil; subst.
  destruct Hlst as ([Hr _] & _ & Hnl).
  assert (height (node_hashes x) = k) as Hk by (apply height_full; by rewrite length_node_hashes).
  trans (root ((r0 :: rm) ++ [lift hash_pair (k - height (node_hashes lst)) r])).
  - f_equal. unfold effective.
    change (x :: mids ++ [lst]) with ((x :: mids) ++ [lst]). change (r0 :: rm ++ [r]) with ((r0 :: rm) ++ [r]).
    rewrite !last_snoc, set_last_snoc, Hh0, Hk. case_match eqn:El; [done|].
    assert (height (node_hashes lst) = k) as ->; [|by rewrite Nat.sub_diag].
    apply height_full. rewrite length_node_hashes. unfold Length in El. lia.
  - rewrite leaves_first, map_app, concat_app by done. simpl map. simpl concat.
    rewrite app_nil_r, (assoc_L (++)).
    change ((cb :: tail (node_hashes x)) ++ concat (map node_hashes mids)) with
      (concat ((cb :: tail (node_hashes x)) :: map node_hashes mids)).
    symmetry. apply merkle_root_subtrees; try done.
    + apply Forall_cons. split.
      * pose proof (length_node_hashes x). apply node_hashes_nonempty in Hn0.
        destruct (node_hashes x); [done|]. simpl in *. lia.
      * apply Forall_map. inversion Hmids; subst. eapply Forall_impl; [done|].
        intros st ?. simpl. by rewrite length_node_hashes.
    + by apply node_hashes_nonempty.
    + by rewrite length_node_hashes.
    + constructor; [done|]. clear -Hrm. induction Hrm as [|st z ? ? Hst]; constructor; [apply Hst|done].
Qed.

(** ** What both checks come down to *)
Definition placeholder_first (st0 : SubtreeData) : Prop :=
  node_Hash <$> head (st_Nodes st0) = Some CoinbasePlaceholderHashValue.

Definition accepted (b : Body) (tx : Tx) (st0 : SubtreeData) (sts : list SubtreeData) (hs : list Hash) : Prop :=
  let all := st0 :: sts in
  placeholder_first st0 ∧
  (sts ≠ [] → shapes (length all) (Length st0) 0 all) ∧
  (∃ seen, dedup_slices ∅ 0 (Some <$> all) = Ok seen) ∧
  match sts with
  | [] => head hs = Some (bd_MerkleRoot b)
  | _ => ComposeSubtreeRootsToMerkleRoot (effective st0 all hs) = Ok (bd_MerkleRoot b)
  end ∧
  IsConsensusCoinbase (Some tx) = true.

(** A memo holds the root it was computed as. *)
Definition memo_ok (memo : option firstRootMemo) : Prop :=
  ∀ m, memo = Some m → st_Nodes (memo_subtree m) ≠ [] ∧
    root (memo_coinbase m :: tail (node_hashes (memo_subtree m))) = Some (memo_root m).

Lemma first_root_ok st tx r : st_Nodes st ≠ [] → root (TxIDChainHash tx :: tail (node_hashes st)) = Some r →
  first_root st (Some tx) = Ok r.
Proof.
  intros Hn Hr. unfold first_root.
  destruct (RootHashWithReplaceRootNode_spec st (TxIDChainHash tx) 0 (u64 (TxSize tx)) Hn) as (r' & -> & Hr').
  simpl. congruence.
Qed.

Lemma memo_hit_ok memo st tx r : memo_ok memo → st_Nodes st ≠ [] →
  root (TxIDChainHash tx :: tail (node_hashes st)) = Some r →
  (let? hit := memo_hit memo st (Some tx) in
   match hit with Some r => Ok r | None => first_root st (Some tx) end) = Ok r.
Proof.
  intros Hm Hn Hr. unfold memo_hit. destruct memo as [m|]; simpl; [|by apply first_root_ok].
  case_bool_decide as E; simpl; [|by apply first_root_ok].
  case_bool_decide as Ec; simpl; [|by apply first_root_ok].
  destruct (Hm m eq_refl) as [_ Hr']. rewrite E, Ec in Hr'. congruence.
Qed.

Lemma slice_roots_rest memo cb idx sts rs : Forall2 sound sts rs →
  slice_roots memo cb (S idx) (Some <$> sts) = Ok rs.
Proof.
  intros Hs. revert idx. induction Hs as [|st r sts rs Hst _ IH]; intros idx; [done|].
  rewrite fmap_cons. cbn [slice_roots]. rewrite (sound_RootHash st r) by done. simpl. by rewrite IH.
Qed.

Lemma slice_roots_ok memo tx st0 sts r0 rs : memo_ok memo → st_Nodes st0 ≠ [] →
  root (TxIDChainHash tx :: tail (node_hashes st0)) = Some r0 → Forall2 sound sts rs →
  slice_roots memo (Some tx) 0 (Some <$> (st0 :: sts)) = Ok (r0 :: rs).
Proof.
  intros Hm Hn Hr Hs. rewrite fmap_cons. cbn [slice_roots].
  rewrite (memo_hit_ok memo st0 tx r0) by done. simpl.
  by rewrite (slice_roots_rest _ _ _ sts rs).
Qed.

Lemma bindR_tt {A B} (r : result A) (k : result B) x :
  (let? _ := r in k) = Ok x ↔ (∃ a, r = Ok a) ∧ k = Ok x.
Proof. rewrite bindR_Ok. naive_solver. Qed.

(** With sound subtrees the lift succeeds. *)
Lemma lift_ok st0 lst r : sound lst r → length (st_Nodes st0) = (2 ^ st_Height st0)%nat →
  (length (st_Nodes lst) ≤ length (st_Nodes st0))%nat →
  RootHashPadded lst (st_Height st0) = Ok (lift hash_pair (st_Height st0 - height (node_hashes lst)) r).
Proof. intros (Ha & _ & _) E Hl. apply RootHashPadded_spec; [done|lia]. Qed.

Lemma Forall2_last {A B} (P : A → B → Prop) l k y : Forall2 P l k → last l = Some y →
  ∃ z, last k = Some z ∧ P y z.
Proof.
  induction 1 as [|a c l k Hac Hlk IH]; [done|]. rewrite !last_cons.
  destruct (last l) as [y'|] eqn:E.
  - intros [= ->]. destruct (IH eq_refl) as (z & -> & Hz). eauto.
  - intros [= ->]. apply last_None in E as ->. inversion Hlk; subst. eauto.
Qed.

Lemma shapes_first_full st0 sts : sts ≠ [] → st_Height st0 = height (node_hashes st0) →
  shapes (length (st0 :: sts)) (Length st0) 0 (st0 :: sts) →
  length (st_Nodes st0) = (2 ^ st_Height st0)%nat.
Proof.
  intros Hne Hh Hs. destruct (shapes_cut _ _ Hne Hs) as (k & ? & ? & _ & _ & E & _).
  rewrite Hh, E. unfold height. by rewrite length_node_hashes, E, Nat.log2_up_pow2 by lia.
Qed.

Lemma shapes_last st0 sts lst : sts ≠ [] → shapes (length (st0 :: sts)) (Length st0) 0 (st0 :: sts) →
  last (st0 :: sts) = Some lst → (length (st_Nodes lst) ≤ length (st_Nodes st0))%nat.
Proof.
  intros Hne Hs Hl. destruct (shapes_cut _ _ Hne Hs) as (k & ? & ? & E & _ & E0 & _ & ?).
  rewrite E, last_snoc in Hl. simplify_eq. lia.
Qed.

Lemma blockMerkleRoot_iff allLoaded st0 all slices lst r0 rs rl r :
  rs ≠ [] → last all = Some lst → last (r0 :: rs) = Some rl → sound lst rl → last (Some st0 :: slices) = Some (Some lst) →
  (check_shapes allLoaded (length (Some st0 :: slices)) 0 (Length st0) (Some st0 :: slices) = Ok tt →
   length (st_Nodes st0) = (2 ^ st_Height st0)%nat ∧ (length (st_Nodes lst) ≤ length (st_Nodes st0))%nat) →
  blockMerkleRoot (r0 :: rs) (Some st0 :: slices) allLoaded = Ok r ↔
  check_shapes allLoaded (length (Some st0 :: slices)) 0 (Length st0) (Some st0 :: slices) = Ok tt ∧
  ComposeSubtreeRootsToMerkleRoot (effective st0 all (r0 :: rs)) = Ok r.
Proof.
  intros Hne Hl Hrl Hsl Hsll Hlen. unfold blockMerkleRoot. destruct rs as [|r1 rs]; [done|].
  rewrite Hsll. destruct (check_shapes _ _ _ _ _) as [[]|e]; cbn [bindR]; [|split; [done|by intros [? _]]].
  destruct (Hlen eq_refl) as [E0 Hle]. unfold effective. rewrite Hl, Hrl.
  match goal with |- ?Q ↔ _ ∧ ?R => enough (Q ↔ R) by tauto end.
  case_match; [|done]. by rewrite (lift_ok st0 lst rl).
Qed.

Lemma Forall2_sound_last st0 sts r0 rs : sts ≠ [] → Forall2 sound sts rs →
  ∃ lst rl, last (st0 :: sts) = Some lst ∧ last sts = Some lst ∧ last (r0 :: rs) = Some rl ∧ sound lst rl.
Proof.
  intros Hne Hs. destruct (exists_last Hne) as (init & lst & ->).
  destruct (Forall2_last sound _ rs lst Hs) as (rl & Hrl & Hsl); [by rewrite last_snoc|].
  exists lst, rl. rewrite app_comm_cons, !last_snoc, last_cons, Hrl. done.
Qed.

Lemma blockMerkleRoot_ok st0 sts r0 rs r : sts ≠ [] → Forall2 sound sts rs →
  st_Height st0 = height (node_hashes st0) →
  blockMerkleRoot (r0 :: rs) (Some <$> (st0 :: sts)) true = Ok r ↔
  shapes (length (st0 :: sts)) (Length st0) 0 (st0 :: sts) ∧
  ComposeSubtreeRootsToMerkleRoot (effective st0 (st0 :: sts) (r0 :: rs)) = Ok r.
Proof.
  intros Hne Hs Hh. destruct (Forall2_sound_last st0 sts r0 rs Hne Hs) as (lst & rl & Hl & Hl' & Hrl & Hsl).
  rewrite <- check_shapes_some, fmap_cons.
  assert (length (st0 :: sts) = length (Some st0 :: (Some <$> sts))) as El by (simpl; by rewrite length_fmap).
  rewrite El. eapply blockMerkleRoot_iff; [|done|done|done| |].
  - intros ->. by apply Forall2_nil_inv_r in Hs.
  - rewrite <- fmap_cons, fmap_last, Hl. done.
  - rewrite <- El, <- fmap_cons, check_shapes_some. intros Hsh.
    split; [by eapply shapes_first_full|by eapply shapes_last].
Qed.

(** ** The check of the whole block *)
Lemma check_uniform_ok st0 sts : (sts ≠ [] → shapes (length (st0 :: sts)) (Length st0) 0 (st0 :: sts)) →
  check_uniform (Some <$> (st0 :: sts)) = Ok tt.
Proof.
  intros Hs. rewrite fmap_cons. unfold check_uniform. rewrite <- fmap_cons.
  destruct (decide (sts = [])) as [->|Hne]; [done|].
  destruct (shapes_cut _ _ Hne (Hs Hne)) as (k & mids & lst & -> & _ & E0 & Hm & _).
  clear Hs. induction Hm as [|st mids E _ IH]; [done|].
  change (check_sizes (Length st0) (Some st :: (Some <$> mids ++ [lst])) = Ok tt).
  destruct mids as [|m mids]; cbn [app fmap list_fmap] in *; cbn [check_sizes];
    rewrite bool_decide_eq_true_2 by (unfold Length; congruence); done.
Qed.

(** A body whose subtrees are loaded and sound. *)
Record readable (b : Body) (tx : Tx) (st0 : SubtreeData) (sts : list SubtreeData) (r0 : Hash) (rs : list Hash) : Prop := {
  ld_keys : length (bd_Subtrees b) = length (st0 :: sts);
  ld_coinbase : bd_CoinbaseTx b = Some tx;
  ld_nodes : st_Nodes st0 ≠ [];
  ld_height : st_Height st0 = height (node_hashes st0);
  ld_first : root (TxIDChainHash tx :: tail (node_hashes st0)) = Some r0;
  ld_sound : Forall2 sound sts rs;
}.

Definition loaded (b : Body) (tx : Tx) (st0 : SubtreeData) (sts : list SubtreeData) (r0 : Hash) (rs : list Hash) : Prop :=
  bd_SubtreeSlices b = Some <$> (st0 :: sts) ∧ readable b tx st0 sts r0 rs.

Lemma CheckMerkleRoot_iff b memo tx st0 sts r0 rs : loaded b tx st0 sts r0 rs → memo_ok memo →
  CheckMerkleRoot b memo = Ok tt ↔
  (sts ≠ [] → shapes (length (st0 :: sts)) (Length st0) 0 (st0 :: sts)) ∧
  match sts with
  | [] => head (r0 :: rs) = Some (bd_MerkleRoot b)
  | _ => ComposeSubtreeRootsToMerkleRoot (effective st0 (st0 :: sts) (r0 :: rs)) = Ok (bd_MerkleRoot b)
  end.
Proof.
  intros [Esl [Elen Ecb Hn Hh Hr0 Hs]] Hm. unfold CheckMerkleRoot.
  rewrite Esl, Ecb, length_fmap, bool_decide_eq_true_2 by done.
  rewrite (slice_roots_ok memo tx st0 sts r0 rs) by done. cbn [bindR length Nat.ltb Nat.leb].
  destruct sts as [|st1 sts].
  - inversion Hs; subst. cbn [blockMerkleRoot bindR head]. rewrite guard_Ok, bool_decide_eq_true.
    split; [intros [-> _]; split; [by intros []|done]|intros [_ [= ->]]; done].
  - split.
    + intros (r & Hb & E%guard_Ok)%bindR_Ok. rewrite blockMerkleRoot_ok in Hb by done.
      rewrite bool_decide_eq_true in E. destruct E as [-> _]. naive_solver.
    + intros [Hsh Hc]. specialize (Hsh ltac:(done)).
      rewrite (proj2 (blockMerkleRoot_ok st0 (st1 :: sts) r0 rs (bd_MerkleRoot b) ltac:(done) Hs Hh) (conj Hsh Hc)).
      simpl. by rewrite bool_decide_eq_true_2.
Qed.

Lemma check_placeholder_iff st0 sts : check_placeholder (Some <$> (st0 :: sts)) = Ok tt ↔ placeholder_first st0.
Proof.
  rewrite fmap_cons. unfold placeholder_first. simpl. destruct (st_Nodes st0) as [|node nodes]; simpl; [done|].
  rewrite guard_Ok, bool_decide_eq_true. split; [intros [E _]; congruence|intros [= ->]; done].
Qed.

Lemma checkSubtreeBodyBinding_iff b memo tx st0 sts r0 rs : loaded b tx st0 sts r0 rs → memo_ok memo →
  checkSubtreeBodyBinding b memo = Ok tt ↔ accepted b tx st0 sts (r0 :: rs).
Proof.
  intros Hld Hm. unfold checkSubtreeBodyBinding, accepted, CheckSubtreeSlicesForDuplicateTxs.
  pose proof (CheckMerkleRoot_iff b memo tx st0 sts r0 rs Hld Hm) as Hck.
  destruct Hld as [Esl Hrd]. rewrite Esl, (ld_coinbase _ _ _ _ _ _ Hrd).
  rewrite !bindR_tt, guard_Ok, <- (check_placeholder_iff st0 sts).
  assert ((∃ a, match CheckMerkleRoot b memo with
                | Ok _ => Ok tt
                | Err e => Err (if IsBlockCorrupt e then e else err_wrap ERR_PROCESSING e)
                end = Ok a) ↔ CheckMerkleRoot b memo = Ok tt) as ->
    by (destruct (CheckMerkleRoot b memo) as [[]|e]; split; [done|eauto|by intros [? ?]|done]).
  rewrite Hck. split.
  - intros (_ & [Hsh Hc] & [[] Hp] & [? [[seen Hd] _]%bindR_tt] & Hcb & _). eauto 10.
  - intros (Hp & Hsh & [seen Hd] & Hc & Hcb). split_and!; eauto.
    + exists tt. by apply check_uniform_ok.
    + exists tt. rewrite Hd. done.
Qed.

(** ** The binding pass *)

(** The roots of the subtrees after the first, as they are collected one by one. *)
Definition eff_one (tl : Z) (th : nat) (lst : SubtreeData) (r : Hash) : Hash :=
  if Length lst <? tl then lift hash_pair (th - height (node_hashes lst)) r else r.

Fixpoint eff_rest (tl : Z) (th : nat) (sts : list SubtreeData) (rs : list Hash) : list Hash :=
  match sts, rs with
  | [lst], [r] => [eff_one tl th lst r]
  | _ :: sts, r :: rs => r :: eff_rest tl th sts rs
  | _, _ => []
  end.

Lemma eff_rest_snoc tl th sts rs lst r : length sts = length rs →
  eff_rest tl th (sts ++ [lst]) (rs ++ [r]) = rs ++ [eff_one tl th lst r].
Proof.
  revert rs. induction sts as [|st sts IH]; intros [|r1 rs] E; simpl in E; try lia; [done|].
  injection E as E. specialize (IH rs E). simpl. destruct sts as [|st2 sts], rs as [|r2 rs]; try done.
  all: simpl in *; congruence.
Qed.

Lemma effective_rest st0 sts r0 rs : sts ≠ [] → length sts = length rs →
  effective st0 (st0 :: sts) (r0 :: rs) = r0 :: eff_rest (Length st0) (st_Height st0) sts rs.
Proof.
  intros Hne E. destruct (exists_last (l := sts)) as (init & lst & ->); [done|].
  destruct rs as [|r rs _] using rev_ind; [by rewrite length_app in E; simpl in E; lia|].
  rewrite !length_app in E. simpl in E. rewrite eff_rest_snoc by lia.
  unfold effective, eff_one. rewrite !app_comm_cons, !last_snoc. case_match; [|done].
  by rewrite set_last_snoc.
Qed.

Lemma bindR_assoc {A B C} (r : result A) (f : A → result B) (g : B → result C) :
  bindR (bindR r f) g = bindR r (λ x, bindR (f x) g).
Proof. by destruct r. Qed.

Lemma bound_root_ok b s idx st r : sound st r → idx ≠ 0%nat → bs_targetLength s = Z.of_nat (2 ^ bs_targetHeight s) →
  bound_root b s idx st =
  Ok (if (idx =? length (bd_Subtrees b) - 1)%nat then eff_one (bs_targetLength s) (bs_targetHeight s) st r else r).
Proof.
  intros Hst Hidx Etl. unfold bound_root, eff_one. rewrite (proj2 (Nat.eqb_neq _ _)) by done.
  destruct (idx =? _)%nat; simpl; [|by rewrite (sound_RootHash st r)].
  case_match eqn:El; [|by rewrite (sound_RootHash st r)].
  destruct Hst as (Ha & _ & _). rewrite (RootHashPadded_spec st r) by (done || unfold Length in *; lia). done.
Qed.

Lemma bind_all_iff b tl th roots seen idx sts rs s' :
  Forall2 sound sts rs → idx ≠ 0%nat → (idx + length sts = length (bd_Subtrees b))%nat →
  tl = Z.of_nat (2 ^ th) →
  bind_all b (mkBind roots (Some seen) tl th) idx sts = Ok s' ↔
  shapes (length (bd_Subtrees b)) tl idx sts ∧
  ∃ seen', dedup_slices seen idx (Some <$> sts) = Ok seen' ∧
    s' = mkBind (roots ++ eff_rest tl th sts rs) (Some seen') tl th.
Proof.
  intros Hs. revert idx roots seen. induction Hs as [|st r sts rs Hst Hs IH]; intros idx roots seen Hidx En Etl.
  { simpl. rewrite app_nil_r. split; [intros [= <-]; split; [done|eauto]|intros (_ & ? & [= <-] & ->); done]. }
  rewrite shapes_cons, fmap_cons. cbn [bind_all dedup_slices length] in *. unfold bind_subtree.
  rewrite (proj2 (Nat.eqb_neq _ _)) by done. cbn [bindR bs_deduper bs_targetLength bs_targetHeight bs_roots].
  rewrite (proj2 (Nat.ltb_lt _ _)) by lia.
  destruct (CheckSubtreeShape _ _ _ _) as [[]|e] eqn:Esh; cbn [bindR]; [|split; [done|by intros [[? _] _]]].
  destruct (Add seen idx (Some st)) as [seen1|e]; cbn [bindR]; [|split; [done|by intros (_ & ? & ? & _)]].
  rewrite (bound_root_ok b _ idx st r) by done. cbn [bindR].
  destruct (idx =? _)%nat eqn:El.
  - apply Nat.eqb_eq in El. destruct sts; [|simpl in En; lia]. inversion Hs; subst rs. simpl.
    split; [intros [= <-]; split; [by split|eauto]|intros (_ & ? & [= <-] & ->); done].
  - apply Nat.eqb_neq in El. cbn [bs_targetLength bs_targetHeight].
    rewrite IH by lia. destruct sts as [|st1 sts]; [simpl in En; lia|].
    inversion Hs as [|? r1 ? rs1]; subst rs. 
    assert ((roots ++ [r]) ++ eff_rest tl th (st1 :: sts) (r1 :: rs1) =
            roots ++ eff_rest tl th (st :: st1 :: sts) (r :: r1 :: rs1)) as -> by (by rewrite <- (assoc_L (++))).
    tauto.
Qed.

(** The whole pass when every subtree was read. *)
Definition bind_whole (b : Body) (sts : list SubtreeData) : result unit :=
  let? s := bind_all b (mkBind [] None 0 0) 0 sts in
  let? composed := composed_root b (bs_roots s) in
  guard? bool_decide (bd_MerkleRoot b = composed) else err ERR_BLOCK_CORRUPT in
  guard? IsConsensusCoinbase (bd_CoinbaseTx b) else err ERR_BLOCK_INVALID in
  Ok tt.

Lemma open_first_iff s st0 s' : open_first s st0 = Ok s' ↔
  placeholder_first st0 ∧ s' = mkBind (bs_roots s) (Some ∅) (Length st0) (st_Height st0).
Proof.
  unfold open_first, placeholder_first. destruct (st_Nodes st0) as [|node nodes]; simpl; [naive_solver|].
  rewrite guard_Ok, bool_decide_eq_true. split; [intros [-> [= <-]]|intros [[= ->] ->]]; done.
Qed.

Lemma first_length st0 : st_Height st0 = height (node_hashes st0) →
  (∃ k : nat, Length st0 = 2 ^ Z.of_nat k) → Length st0 = Z.of_nat (2 ^ st_Height st0).
Proof.
  intros Hh [k E]. assert (length (st_Nodes st0) = 2 ^ k)%nat as E0.
  { unfold Length in E. apply Nat2Z.inj. by rewrite E, Nat2Z.inj_pow. }
  unfold Length. rewrite Hh, (height_full k (node_hashes st0)), E0; [done|by rewrite length_node_hashes].
Qed.

Lemma bind_whole_iff b tx st0 sts r0 rs : readable b tx st0 sts r0 rs →
  bind_whole b (st0 :: sts) = Ok tt ↔ accepted b tx st0 sts (r0 :: rs).
Proof.
  intros [Elen Ecb Hn Hh Hr0 Hs]. pose proof (Forall2_length _ _ _ Hs) as El.
  unfold bind_whole, accepted. cbn [bind_all]. unfold bind_subtree. cbn [Nat.eqb].
  destruct (open_first (mkBind [] None 0 0) st0) as [s1|e] eqn:Eo; cbn [bindR].
  2:{ split; [done|]. intros (Hp & _).
      rewrite (proj2 (open_first_iff _ _ _) (conj Hp eq_refl)) in Eo. done. }
  apply open_first_iff in Eo as [Hp ->]. cbn [bs_deduper bs_targetLength bs_targetHeight bs_roots].
  rewrite Elen, Ecb, fmap_cons. cbn [dedup_slices].
  unfold bound_root. cbn [Nat.eqb]. rewrite Ecb, (first_root_ok st0 tx r0) by done.
  destruct sts as [|st1 sts].
  - inversion Hs; subst. cbn [length Nat.ltb Nat.leb bindR]. destruct (Add ∅ 0 (Some st0)) as [seen|]; cbn [bindR].
    2:{ split; [done|]. by intros (_ & _ & [? ?] & _). }
    unfold composed_root. rewrite Elen. cbn [bind_all bindR bs_roots app length Nat.ltb Nat.leb dedup_slices head fmap list_fmap].
    rewrite !guard_Ok, bool_decide_eq_true.
    split; [intros (E & Hc & _); split_and!; eauto; congruence|intros (_ & _ & _ & [= E] & Hc); done].
  - set (rest := st1 :: sts) in *.
    assert ((1 <? length (st0 :: rest))%nat = true) as -> by done. rewrite shapes_cons.
    destruct (CheckSubtreeShape 0 _ _ _) as [[]|e] eqn:Esh; cbn [bindR].
    2:{ split; [done|]. intros (_ & Hsh & _). by destruct (Hsh ltac:(done)) as [? _]. }
    destruct (Add ∅ 0 (Some st0)) as [seen|e]; cbn [bindR]; [|split; [done|by intros (_ & _ & [? ?] & _)]].
    assert (Length st0 = Z.of_nat (2 ^ st_Height st0)) as Etl.
    { apply first_length; [done|]. by apply (proj1 (CheckSubtreeShape_ok _ _ _ _) Esh). }
    rewrite bindR_Ok. setoid_rewrite (bind_all_iff b (Length st0) (st_Height st0) ([] ++ [r0]) seen 1 rest rs);
      [|done|done|by rewrite Elen|done].
    rewrite Elen. unfold composed_root. rewrite Elen. rewrite effective_rest by done.
    assert ((1 <? length (st0 :: rest))%nat = true) as -> by done. split.
    + intros (s' & [Hsh (seen' & Hd & ->)] & E). cbn [bs_roots app] in E.
      destruct (ComposeSubtreeRootsToMerkleRoot _) as [r|] eqn:Ec; [|done]. cbn [bindR] in E.
      rewrite !guard_Ok, bool_decide_eq_true in E. destruct E as (-> & Hcb & _). split_and!; eauto.
    + intros (_ & Hsh & [seen' Hd] & Hc & Hcb). destruct (Hsh ltac:(done)) as [_ Hsh'].
      eexists; split; [split; [done|eauto]|]. cbn [bs_roots app]. rewrite Hc. cbn [bindR].
      by rewrite bool_decide_eq_true_2, Hcb.
Qed.

(** ** Chunks *)
Section Reading.
  Context (read : Hash → SubtreeData + marked) (arrivals : list marked → list marked).
  Context (Harr : ∀ l, arrivals l ≡ₚ l).

Lemma structures_inl sts : structures (inl <$> sts) = sts.
Proof. induction sts as [|st sts IH]; [done|]. unfold structures in *. simpl. by f_equal. Qed.

Lemma failures_inl (sts : list SubtreeData) : failures (inl <$> sts) = [].
Proof. induction sts as [|st sts IH]; [done|]. apply IH. Qed.

Lemma arrivals_nil : arrivals [] = [].
Proof. apply Permutation_nil_r. apply Harr. Qed.

Lemma bind_all_app b s idx l1 l2 :
  bind_all b s idx (l1 ++ l2) = bindR (bind_all b s idx l1) (λ s, bind_all b s (idx + length l1) l2).
Proof.
  revert s idx. induction l1 as [|st l1 IH]; intros s idx; simpl; [by rewrite Nat.add_0_r|].
  destruct (bind_subtree b s idx st); simpl; [|done]. rewrite IH. by rewrite Nat.add_succ_r.
Qed.

(** Chunks that were all read run the loop over their concatenation. *)
Lemma bind_chunks_read b v s idx l sts : failed v = false → map read (mjoin l) = inl <$> sts →
  let p := bind_chunks read arrivals b (mkPass v None s) idx l in
  ps_verdicts p = v ∧
  match bind_all b s idx sts with
  | Ok s' => ps_firstCheckErr p = None ∧ ps_state p = s'
  | Err e => ps_firstCheckErr p = Some e
  end.
Proof.
  intros Hv. assert (∀ l v s e idx sts, failed v = false → map read (mjoin l) = inl <$> sts →
    let p := bind_chunks read arrivals b (mkPass v (Some e) s) idx l in
    ps_verdicts p = v ∧ ps_firstCheckErr p = Some e) as Hstop.
  { clear -Harr. induction l as [|chunk l IH]; intros v s e idx sts Hv Hr; [done|].
    cbn [mjoin list_join] in Hr. rewrite map_app in Hr.
    symmetry in Hr. apply fmap_app_inv in Hr as (s1 & s2 & E1 & E2 & ->).
    cbn [bind_chunks]. unfold bind_chunk. cbn [ps_verdicts ps_firstCheckErr ps_state].
    rewrite E1, failures_inl, arrivals_nil. cbn [foldl]. rewrite Hv.
    rewrite bool_decide_eq_true_2 by eauto. cbn [orb]. eapply IH; [done|exact E2]. }
  revert s idx sts. induction l as [|chunk l IH]; intros s idx sts Hr.
  { destruct sts; [done|]. done. }
  cbn [mjoin list_join] in Hr. rewrite map_app in Hr.
  symmetry in Hr. apply fmap_app_inv in Hr as (s1 & s2 & E1 & E2 & ->).
  cbn [bind_chunks]. unfold bind_chunk. cbn [ps_verdicts ps_firstCheckErr ps_state].
  rewrite E1, failures_inl, structures_inl, arrivals_nil. cbn [foldl]. rewrite Hv, bool_decide_eq_false_2 by (by intros [? ?]).
  cbn [orb]. rewrite bind_all_app.
  assert (length chunk = length s1) as -> by (apply (f_equal length) in E1; by rewrite length_fmap, length_map in E1).
  destruct (bind_all b s idx s1) as [s'|e] eqn:Eb; cbn [bindR].
  - by apply IH.
  - eapply Hstop; [done|exact E2].
Qed.

Lemma chunk_width_pos (w : Z) : (0 < Z.to_nat (if (w <? 1)%Z then 1%Z else w))%nat.
Proof. case_match; lia. Qed.

Lemma bind_read width b sts : bd_Subtrees b ≠ [] → map read (bd_Subtrees b) = inl <$> sts →
  bindSubtreeBodyToHeader read arrivals width b = inl (bind_whole b sts).
Proof.
  intros Hne Hr. unfold bindSubtreeBodyToHeader. rewrite bool_decide_eq_false_2 by done.
  unfold bind_verdict, bind_whole.
  destruct (bind_chunks_read b no_verdicts (mkBind [] None 0 0) 0
    (chunks (Z.to_nat (if width <? 1 then 1 else width)) (bd_Subtrees b)) sts) as [Ev Ep]; [done| |].
  { by rewrite chunks_concat by apply chunk_width_pos. }
  unfold bind_start. rewrite Ev. cbn [failed no_verdicts firstMismatch firstOtherErr].
  destruct (bind_all _ _ _ sts) as [s|e]; cbn [bindR]; [destruct Ep as [-> ->]|rewrite Ep]; done.
Qed.

Lemma record_failed v m : failed (record_ v m) = true.
Proof.
  unfold record_, failed. destruct (mk_refs m) as [|r refs]; cbn [firstMismatch firstOtherErr].
  - apply orb_true_iff; right. apply bool_decide_eq_true_2. case_match; eauto.
  - apply orb_true_iff; left. apply bool_decide_eq_true_2. case_match; eauto.
Qed.

Lemma records_failed v l : failed v = true ∨ l ≠ [] → failed (foldl record_ v l) = true.
Proof.
  revert v. induction l as [|m l IH]; intros v [Hv|Hl]; [done..| |]; simpl; apply IH; left; apply record_failed.
Qed.

Lemma bind_chunks_failed b p idx l : failed (ps_verdicts p) = true →
  failed (ps_verdicts (bind_chunks read arrivals b p idx l)) = true.
Proof.
  revert p idx. induction l as [|chunk l IH]; intros p idx Hp; [done|]. cbn [bind_chunks]. apply IH.
  unfold bind_chunk. rewrite (records_failed _ _ (or_introl Hp)). simpl. by apply records_failed; left.
Qed.

(** The pass answers only when every subtree was read. *)
Lemma bind_chunks_all_read b p idx l : failed (ps_verdicts (bind_chunks read arrivals b p idx l)) = false →
  ∃ sts, map read (mjoin l) = inl <$> sts.
Proof.
  revert p idx. induction l as [|chunk l IH]; intros p idx Hf; [by exists []|].
  cbn [bind_chunks] in Hf. destruct (IH _ _ Hf) as [s2 E2].
  destruct (failed (ps_verdicts (bind_chunk read arrivals b p idx chunk))) eqn:Ec.
  { by rewrite bind_chunks_failed in Hf. }
  assert (failures (map read chunk) = []) as Hnf.
  { apply Permutation_nil_r. rewrite <- (Harr (failures _)).
    destruct (arrivals (failures (map read chunk))) as [|m ms] eqn:Ea; [done|].
    unfold bind_chunk in Ec. rewrite Ea in Ec. rewrite (records_failed _ (m :: ms)) in Ec by (by right).
    cbn [orb ps_verdicts] in Ec. by rewrite (records_failed _ (m :: ms)) in Ec by (by right). }
  assert (∃ s1, map read chunk = inl <$> s1) as [s1 E1].
  { clear -Hnf. induction (map read chunk) as [|[st|m] a IH]; [by exists []| |done].
    destruct (IH Hnf) as [s ->]. by exists (st :: s). }
  exists (s1 ++ s2). cbn [mjoin list_join]. rewrite map_app, fmap_app, E1. by f_equal.
Qed.

Lemma bind_ok_read width b : bd_Subtrees b ≠ [] →
  bindSubtreeBodyToHeader read arrivals width b = inl (Ok tt) →
  ∃ sts, map read (bd_Subtrees b) = inl <$> sts ∧ bind_whole b sts = Ok tt.
Proof.
  intros Hne Hb. unfold bindSubtreeBodyToHeader in Hb. rewrite bool_decide_eq_false_2 in Hb by done.
  set (l := chunks _ _) in Hb. unfold bind_verdict in Hb.
  destruct (failed (ps_verdicts (bind_chunks read arrivals b bind_start 0 l))) eqn:Ef.
  { exfalso. revert Hb Ef. generalize (ps_verdicts (bind_chunks read arrivals b bind_start 0 l)) as v.
    intros v. unfold verdicts_err, failed. destruct (firstMismatch v); [done|].
    destruct (firstOtherErr v); [done|]. intros _. by rewrite bool_decide_eq_false_2, bool_decide_eq_false_2 by (by intros []). }
  destruct (bind_chunks_all_read b bind_start 0 l Ef) as [sts Hr].
  unfold l in Hr. rewrite chunks_concat in Hr by apply chunk_width_pos.
  exists sts. split; [done|]. pose proof (bind_read width b sts Hne Hr) as E.
  unfold bindSubtreeBodyToHeader in E. rewrite bool_decide_eq_false_2 in E by done. fold l in E.
  unfold bind_verdict in E. rewrite Ef in E. rewrite E in Hb. by injection Hb.
Qed.

(** C12: the pass that reads a block a chunk of subtrees at a time, whatever the size of
    the chunks and the order its reads finish in, accepts exactly the bodies the check
    of the whole block accepts: the placeholder first, full subtrees of a power of two
    and a last one that fits, no repeated transaction, a composed root that is the
    header's, and a coinbase. *)
Theorem binding_pass_agrees width b memo tx st0 sts r0 rs :
  loaded b tx st0 sts r0 rs → memo_ok memo → map read (bd_Subtrees b) = inl <$> (st0 :: sts) →
  bindSubtreeBodyToHeader read arrivals width b = inl (Ok tt) ↔ checkSubtreeBodyBinding b memo = Ok tt.
Proof.
  intros Hld Hm Hr.
  rewrite (bind_read width b (st0 :: sts)); [|by intros E; rewrite E in Hr|done].
  rewrite (checkSubtreeBodyBinding_iff b memo tx st0 sts r0 rs), <- (bind_whole_iff b tx st0 sts r0 rs) by (done || apply Hld).
  split; [by intros [= ->]|by intros ->].
Qed.
End Reading.

(** ** Repeated transactions *)
Lemma dedup_nodes_ok seen nodes seen' : dedup_nodes false seen nodes = Ok seen' →
  NoDup (map node_Hash nodes) ∧ (∀ h, h ∈ map node_Hash nodes → h ∉ seen) ∧
  seen' = list_to_set (map node_Hash nodes) ∪ seen.
Proof.
  revert seen. induction nodes as [|node nodes IH]; intros seen E; simpl in *.
  { simplify_eq. repeat split; [constructor|set_solver|set_solver]. }
  case_bool_decide as Hn; simpl in E; [done|]. destruct (IH _ E) as (Hd & Hs & ->).
  repeat split; [|set_solver|set_solver]. constructor; [|done]. intros Hin%Hs. set_solver.
Qed.

Lemma dedup_slices_ok seen idx sts seen' : dedup_slices seen (S idx) (Some <$> sts) = Ok seen' →
  NoDup (concat (map node_hashes sts)) ∧ ∀ h, h ∈ concat (map node_hashes sts) → h ∉ seen.
Proof.
  revert seen idx. induction sts as [|st sts IH]; intros seen idx E; simpl in *.
  { split; [constructor|set_solver]. }
  apply bindR_Ok in E as (seen1 & (Hd & Hs & ->)%dedup_nodes_ok & E).
  destruct (IH _ _ E) as [Hd' Hs']. fold (node_hashes st) in *. split.
  - apply NoDup_app. split_and!; [done| |done]. intros h Hh Hh'%Hs'. set_solver.
  - intros h [Hh|Hh]%elem_of_app; [by apply Hs|]. apply Hs' in Hh. set_solver.
Qed.

Lemma accepted_NoDup b tx st0 sts hs cb : accepted b tx st0 sts hs →
  NoDup (tail (leaves cb (st0 :: sts))).
Proof.
  intros (Hp & _ & [seen Hd] & _). unfold placeholder_first in Hp. unfold leaves. simpl. simpl in Hd.
  unfold node_hashes at 1. destruct (st_Nodes st0) as [|node nodes]; [done|]. injection Hp as Hp. simpl in *.
  rewrite bool_decide_eq_true_2 in Hd by done. simpl in Hd.
  apply bindR_Ok in Hd as (seen1 & (Hd1 & _ & ->)%dedup_nodes_ok & (Hd2 & Hs)%dedup_slices_ok).
  apply NoDup_app. split_and!; [done| |done]. intros h Hh Hh'%Hs. set_solver.
Qed.

Lemma accepted_root b tx st0 sts r0 rs : readable b tx st0 sts r0 rs → accepted b tx st0 sts (r0 :: rs) →
  root (leaves (TxIDChainHash tx) (st0 :: sts)) = Some (bd_MerkleRoot b).
Proof.
  intros [_ _ Hn Hh Hr0 Hs] (_ & Hsh & _ & Hc & _).
  destruct sts as [|st1 sts].
  - unfold leaves. simpl. rewrite app_nil_r. simpl in Hc. congruence.
  - apply Compose_ok in Hc as [Hc _].
    + rewrite <- Hc. symmetry. by apply composed_flat; auto.
    + rewrite effective_rest by (done || by eapply Forall2_length). done.
Qed.

(** ** What is read is what its key commits to *)
Lemma ValidateSubtreeNodesMatchKey_ok st key :
  ValidateSubtreeNodesMatchKey (Some st) (Some key) = Ok tt ↔ st_Nodes st ≠ [] ∧ anchored st key.
Proof.
  unfold ValidateSubtreeNodesMatchKey, anchored. rewrite guard_Ok, negb_true_iff, bool_decide_eq_false.
  match goal with |- ?P ∧ ?Q ↔ ?P ∧ ?R => enough (P → Q ↔ R) by tauto end. intros Hn.
  destruct (merkle_root_some hash_pair (node_hashes st)) as [r Hr]; [by apply node_hashes_nonempty|].
  destruct (BuildMerkleTreeStoreFromBytes_spec (st_Nodes st) r Hr) as (store & -> & Hl).
  cbn [wrapR bindR]. rewrite Hl, guard_Ok, bool_decide_eq_true, Hr.
  destruct (st_claimed st) as [c|] eqn:Ec.
  - rewrite (RootHash_claimed st c Ec), guard_Ok, bool_decide_eq_true. naive_solver.
  - rewrite (RootHash_computed st Ec), Hr, guard_Ok, bool_decide_eq_true. naive_solver.
Qed.

Lemma bind_whole_coinbase b st0 sts : bd_CoinbaseTx b = None → bind_whole b (st0 :: sts) ≠ Ok tt.
Proof.
  intros Ecb. unfold bind_whole. cbn [bind_all]. unfold bind_subtree, bound_root. rewrite Ecb. cbn [Nat.eqb].
  destruct (open_first _ st0) as [s|]; [|done]. cbn [bindR].
  destruct (1 <? length (bd_Subtrees b))%nat; [destruct (CheckSubtreeShape _ _ _ _)|]; cbn [bindR]; try done;
    (destruct (bs_deduper s); [|done]); by destruct (Add _ _ _).
Qed.

Section Store.
  Context (Exists_ : Hash → FileType → result bool)
          (GetIoReader Get_ : Hash → FileType → result (list byte))
          (newSubtreeFromBytes : list byte → result SubtreeData).

(** Deserialising derives the height from the number of leaves. *)
  Context (Hheight : ∀ bytes st, newSubtreeFromBytes bytes = Ok st → st_Height st = height (node_hashes st)).

Lemma readSubtreeStructure_sound h st :
  readSubtreeStructure Exists_ GetIoReader Get_ newSubtreeFromBytes h = inl st → sound st h.
Proof.
  unfold readSubtreeStructure. intros E.
  destruct (findLocalSubtreeFile Exists_ h) as [[t|]|]; [|done..].
  destruct (GetIoReader h t) as [bytes|]; [|done].
  destruct (newSubtreeFromBytes bytes) as [st'|] eqn:Ed; [|done]. case_match; [done|].
  destruct (ValidateSubtreeNodesMatchKey _ _) as [[]|] eqn:Ev; [|done].
  assert (st' = st) as ->.
  { case_bool_decide; [by simplify_eq|]. destruct (Exists_ h FileTypeSubtree) as [[]|]; [|by simplify_eq|done].
    destruct (readFullSubtreeAnchored _ _ h); by simplify_eq. }
  apply ValidateSubtreeNodesMatchKey_ok in Ev as [Hn Ha]. split_and!; eauto.
Qed.

(** C13: whatever the store answers and in whatever chunks and order it is read, a body
    the pass accepts is the one the header commits to: each list of nodes hashes to
    its key, the header's root is the merkle root of the coinbase followed by all
    other transactions in order, none of those is repeated, and the coinbase is one
    by the rules of consensus. *)
Theorem bound_body_is_committed arrivals width b :
  (∀ l, arrivals l ≡ₚ l) → bd_Subtrees b ≠ [] →
  bindSubtreeBodyToHeader (readSubtreeStructure Exists_ GetIoReader Get_ newSubtreeFromBytes) arrivals width b
    = inl (Ok tt) →
  ∃ tx sts, bd_CoinbaseTx b = Some tx ∧ IsConsensusCoinbase (Some tx) = true ∧
    Forall2 (λ key st, root (node_hashes st) = Some key) (bd_Subtrees b) sts ∧
    root (leaves (TxIDChainHash tx) sts) = Some (bd_MerkleRoot b) ∧
    NoDup (tail (leaves (TxIDChainHash tx) sts)).
Proof.
  intros Harr Hne Hb. destruct (bind_ok_read _ _ Harr width b Hne Hb) as (all & Hr & Hw).
  assert (Forall2 sound all (bd_Subtrees b)) as Hall.
  { clear -Hr Hheight GSS. revert all Hr. induction (bd_Subtrees b) as [|h hs IH]; intros [|st all] Hr; try done.
    injection Hr as Eh Hr. constructor; [by apply readSubtreeStructure_sound|by apply IH]. }
  destruct (bd_Subtrees b) as [|key keys] eqn:Ek; [done|]. inversion Hall as [|st0 ? sts ? Hst0 Hsts]; subst all.
  destruct Hst0 as (Ha0 & Hh0 & Hn0).
  destruct (bd_CoinbaseTx b) as [tx|] eqn:Ecb.
  2:{ exfalso. by apply (bind_whole_coinbase b st0 sts). }
  destruct (merkle_root_some hash_pair (TxIDChainHash tx :: tail (node_hashes st0))) as [r0 Hr0]; [done|].
  assert (readable b tx st0 sts r0 keys) as Hrd.
  { split; try done. rewrite Ek. simpl. f_equal. symmetry. by eapply Forall2_length. }
  pose proof (proj1 (bind_whole_iff b tx st0 sts r0 keys Hrd) Hw) as Hacc.
  exists tx, (st0 :: sts). split_and!; [done|apply Hacc| |by eapply accepted_root|by eapply accepted_NoDup].
  constructor; [apply Ha0|]. clear -Hsts. induction Hsts as [|st h ? ? Hst]; constructor; [apply Hst|done].
Qed.
End Store.

(** C14: a header commits to one body.  Two bodies with the same root that pass the check
    have the same coinbase and the same transactions in the same order, unless two
    different pairs of hashes with the same hash occur in their trees, or a
    transaction of one is the hash of two children in the tree of the other.  The
    scan for repeated transactions is needed for this: the root alone does not see
    that the end of a level is repeated. *)
Theorem one_body_per_header b1 b2 memo1 memo2 tx1 tx2 st1 st2 sts1 sts2 r1 r2 rs1 rs2 :
  loaded b1 tx1 st1 sts1 r1 rs1 → loaded b2 tx2 st2 sts2 r2 rs2 → memo_ok memo1 → memo_ok memo2 →
  bd_MerkleRoot b1 = bd_MerkleRoot b2 →
  checkSubtreeBodyBinding b1 memo1 = Ok tt → checkSubtreeBodyBinding b2 memo2 = Ok tt →
  let l1 := leaves (TxIDChainHash tx1) (st1 :: sts1) in
  let l2 := leaves (TxIDChainHash tx2) (st2 :: sts2) in
  l1 = l2 ∨ collision hash_pair (all_pairs hash_pair l1 ++ all_pairs hash_pair l2) ∨
  leaf_is_node hash_pair l1 (all_pairs hash_pair l2) ∨ leaf_is_node hash_pair l2 (all_pairs hash_pair l1).
Proof.
  intros L1 L2 M1 M2 E B1 B2 l1 l2.
  rewrite (checkSubtreeBodyBinding_iff b1 memo1 tx1 st1 sts1 r1 rs1) in B1 by done.
  rewrite (checkSubtreeBodyBinding_iff b2 memo2 tx2 st2 sts2 r2 rs2) in B2 by done.
  apply merkle_root_commits; [apply _|done|done|by eapply accepted_NoDup|by eapply accepted_NoDup|].
  unfold l1, l2. rewrite (accepted_root b1 tx1 st1 sts1 r1 rs1 (proj2 L1) B1).
  rewrite (accepted_root b2 tx2 st2 sts2 r2 rs2 (proj2 L2) B2). congruence.
Qed.

(** ** The early check, with only the first and the last subtree loaded *)
Lemma check_shapes_partial n i tl (l : list (option SubtreeData)) :
  (i + length l = n)%nat → last l ≠ Some None →
  check_shapes false n i tl l = Ok tt ↔
  ∀ j st, l !! j = Some (Some st) → CheckSubtreeShape (i + j) (Length st) tl (i + j =? n - 1)%nat = Ok tt.
Proof.
  revert i. induction l as [|o l IH]; intros i En Hl; [done|].
  assert (last l ≠ Some None) as Hl' by (intros E; by rewrite last_cons, E in Hl).
  simpl in En. specialize (IH (S i) ltac:(lia) Hl').
  assert ((∀ j st, (o :: l) !! j = Some (Some st) → CheckSubtreeShape (i + j) (Length st) tl (i + j =? n - 1)%nat = Ok tt) ↔
          (∀ st, o = Some st → CheckSubtreeShape i (Length st) tl (i =? n - 1)%nat = Ok tt) ∧
          check_shapes false n (S i) tl l = Ok tt) as ->.
  { rewrite IH. split.
    - intros Hs. split; [intros st ->; specialize (Hs 0%nat st eq_refl); by rewrite Nat.add_0_r in Hs|].
      intros j st Hj. specialize (Hs (S j) st Hj). by rewrite Nat.add_succ_r in Hs.
    - intros [H0 Hs] [|j] st Hj; simpl in Hj; [injection Hj as ->; rewrite Nat.add_0_r; by apply H0|].
      rewrite Nat.add_succ_r. by apply Hs. }
  cbn [check_shapes]. destruct o as [st|].
  - destruct (CheckSubtreeShape _ _ _ _) as [[]|] eqn:E; cbn [bindR].
    + split; [intros Hc; split; [intros st1 [= <-]; exact E|exact Hc]|intros [_ Hc]; exact Hc].
    + split; [done|]. intros [H0 _]. specialize (H0 st eq_refl). congruence.
  - destruct l as [|x l]; [by destruct Hl|]. rewrite (proj2 (Nat.eqb_neq i (n - 1))) by (simpl in En; lia).
    cbn [negb andb]. split; [by split|by intros [_ ?]].
Qed.

(** The slices the early check has. *)
Definition boundary (st0 : SubtreeData) (sts : list SubtreeData) : list (option SubtreeData) :=
  <[length sts := last (st0 :: sts)]> (Some st0 :: replicate (length sts) None).

Lemma boundary_snoc st0 init lst :
  boundary st0 (init ++ [lst]) = Some st0 :: replicate (length init) None ++ [Some lst].
Proof.
  unfold boundary. rewrite app_comm_cons, last_snoc, length_app, Nat.add_1_r, replicate_S_end.
  change (Some st0 :: <[length init:=Some lst]> (replicate (length init) None ++ [None]) =
          Some st0 :: replicate (length init) None ++ [Some lst]). f_equal.
  rewrite insert_app_r_alt by (by rewrite length_replicate).
  by rewrite length_replicate, Nat.sub_diag.
Qed.

(** The shapes the early check sees: of the first and the last subtree. *)
Lemma boundary_shapes st0 init lst : check_shapes false (length (st0 :: init ++ [lst])) 0 (Length st0) (boundary st0 (init ++ [lst])) = Ok tt ↔
  CheckSubtreeShape 0 (Length st0) (Length st0) false = Ok tt ∧
  CheckSubtreeShape (S (length init)) (Length lst) (Length st0) true = Ok tt.
Proof.
  rewrite boundary_snoc. set (n := length (st0 :: init ++ [lst])).
  assert (n = S (S (length init))) as En by (unfold n; simpl; rewrite length_app; simpl; lia).
  rewrite check_shapes_partial.
  2:{ simpl. rewrite length_app, length_replicate. simpl. lia. }
  2:{ rewrite app_comm_cons, last_snoc. done. }
  split.
  - intros Hs. split.
    + specialize (Hs 0%nat st0 eq_refl). by rewrite En in Hs.
    + specialize (Hs (S (length init)) lst). rewrite En in Hs. cbn [Nat.add Nat.sub] in Hs.
      rewrite Nat.eqb_refl in Hs. apply Hs. simpl. apply list_lookup_middle. by rewrite length_replicate.
  - intros [H0 Hl] [|j] st Hj; simpl in Hj; [injection Hj as <-; by rewrite En|].
    apply lookup_app_Some in Hj as [[? _]%lookup_replicate|[Hge Hj]]; [done|].
    rewrite length_replicate in Hge, Hj. destruct (j - length init)%nat eqn:Ej; [|done]. injection Hj as <-.
    assert (j = length init) as -> by lia. rewrite En. cbn [Nat.add Nat.sub]. by rewrite Nat.eqb_refl.
Qed.

(** Together with the lengths in between, those of the whole block. *)
Lemma boundary_shapes_all st0 init lst :
  shapes (length (st0 :: init ++ [lst])) (Length st0) 0 (st0 :: init ++ [lst]) ↔
  (CheckSubtreeShape 0 (Length st0) (Length st0) false = Ok tt ∧
   CheckSubtreeShape (S (length init)) (Length lst) (Length st0) true = Ok tt) ∧
  Forall (λ st, Length st = Length st0) init.
Proof.
  assert (length (st0 :: init ++ [lst]) = S (S (length init))) as En by (simpl; rewrite length_app; simpl; lia).
  rewrite En. unfold shapes. split.
  - intros Hs. split; [split|].
    + specialize (Hs 0%nat st0 eq_refl). done.
    + specialize (Hs (S (length init)) lst). cbn [Nat.add Nat.sub] in Hs. rewrite Nat.eqb_refl in Hs.
      apply Hs. simpl. by apply list_lookup_middle.
    + apply Forall_lookup. intros j st Hj. pose proof (lookup_lt_Some _ _ _ Hj).
      specialize (Hs (S j) st). cbn [Nat.add Nat.sub] in Hs. rewrite (proj2 (Nat.eqb_neq _ _)) in Hs by lia.
      apply CheckSubtreeShape_ok in Hs; [by apply Hs|]. simpl. by apply lookup_app_l_Some.
  - intros [[H0 Hl] Hi] [|j] st Hj; simpl in Hj; [by injection Hj as <-|]. cbn [Nat.add Nat.sub].
    apply lookup_app_Some in Hj as [Hj|[Hge Hj]].
    + pose proof (lookup_lt_Some _ _ _ Hj). rewrite (proj2 (Nat.eqb_neq _ _)) by lia.
      apply CheckSubtreeShape_ok. split_and!; [done| |done]. intros _. by eapply (proj1 (Forall_lookup _ _) Hi).
    + destruct (j - length init)%nat eqn:Ej; [|done]. injection Hj as <-.
      assert (j = length init) as -> by lia. by rewrite Nat.eqb_refl.
Qed.

Lemma blockMerkleRoot_early st0 sts r0 rs r : sts ≠ [] → Forall2 sound sts rs →
  st_Height st0 = height (node_hashes st0) →
  blockMerkleRoot (r0 :: rs) (boundary st0 sts) false = Ok r ∧
    Forall (λ st, Length st = Length st0) (removelast sts) ↔
  shapes (length (st0 :: sts)) (Length st0) 0 (st0 :: sts) ∧
  ComposeSubtreeRootsToMerkleRoot (effective st0 (st0 :: sts) (r0 :: rs)) = Ok r.
Proof.
  intros Hne Hs Hh. destruct (exists_last Hne) as (init & lst & ->). rewrite removelast_last.
  destruct (Forall2_sound_last st0 _ r0 rs Hne Hs) as (lst' & rl & Hl & Hl' & Hrl & Hsl).
  rewrite last_snoc in Hl'. injection Hl' as <-.
  rewrite boundary_shapes_all, <- boundary_shapes.
  assert (length (st0 :: init ++ [lst]) = length (boundary st0 (init ++ [lst]))) as ->.
  { unfold boundary. by rewrite length_insert, !length_cons, length_replicate. }
  rewrite boundary_snoc, (blockMerkleRoot_iff false st0 (st0 :: init ++ [lst]) _ lst r0 rs rl r); [tauto|..].
  - intros ->. by apply Forall2_nil_inv_r, app_nil in Hs as [_ ?].
  - done.
  - done.
  - done.
  - by rewrite app_comm_cons, last_snoc.
  - rewrite <- boundary_snoc. unfold boundary at 1. rewrite length_insert, length_cons, length_replicate.
    change (S (length (init ++ [lst]))) with (length (st0 :: init ++ [lst])).
    intros [H0 H1]%boundary_shapes. apply CheckSubtreeShape_ok in H0 as [Hk _], H1 as (_ & _ & H1).
    pose proof (first_length st0 Hh (Hk eq_refl)). specialize (H1 eq_refl). unfold Length in *. lia.
Qed.

(** The check that runs when only the first and the last subtree are loaded, with the
    keys in place of the other roots, says of a body what the check of the loaded block
    says, except for the lengths in between, which the loading checks; and the root it
    leaves behind for the later check is the one that check would compute. *)
Theorem early_check_agrees b memo tx st0 sts r0 rs :
  loaded b tx st0 sts r0 rs → memo_ok memo → tail (bd_Subtrees b) = rs → placeholder_first st0 →
  let early := checkBodyBoundToHeader b (Some st0) (last (st0 :: sts)) in
  (CheckMerkleRoot b memo = Ok tt ↔
   (∃ m, early = Ok m) ∧ Forall (λ st, Length st = Length st0) (removelast sts)) ∧
  (∀ m, early = Ok m → memo_ok (Some m) ∧ (CheckMerkleRoot b (Some m) = Ok tt ↔ CheckMerkleRoot b memo = Ok tt)).
Proof.
  intros Hld Hm Hk Hp early.
  assert (∀ m, early = Ok m ↔ blockMerkleRoot (r0 :: rs) (boundary st0 sts) false = Ok (bd_MerkleRoot b) ∧
            m = mkMemo st0 (TxIDChainHash tx) r0) as Hearly.
  { intros m. unfold early, checkBodyBoundToHeader. destruct Hld as [_ [Elen Ecb Hn Hh Hr0 Hs]].
    unfold placeholder_first in Hp. destruct (st_Nodes st0) as [|node nodes] eqn:En; [done|]. injection Hp as Hp.
    rewrite bool_decide_eq_true_2 by done. rewrite Ecb, (first_root_ok st0 tx r0) by (done || by rewrite En). cbn [bindR].
    destruct (bd_Subtrees b) as [|key keys]; [done|]. simpl in Hk. subst keys.
    assert (length rs = length sts) as -> by (symmetry; by eapply Forall2_length).
    fold (boundary st0 sts). destruct (blockMerkleRoot _ _ _) as [c|]; cbn [bindR]; [|split; [done|by intros [? _]]].
    rewrite guard_Ok, bool_decide_eq_true. naive_solver. }
  assert (memo_ok (Some (mkMemo st0 (TxIDChainHash tx) r0))) as Hm0.
  { intros m [= <-]. simpl. split; apply Hld. }
  split.
  - rewrite (CheckMerkleRoot_iff b memo tx st0 sts r0 rs) by done.
    assert ((∃ m, early = Ok m) ↔ blockMerkleRoot (r0 :: rs) (boundary st0 sts) false = Ok (bd_MerkleRoot b)) as ->
      by (setoid_rewrite Hearly; naive_solver).
    destruct Hld as [_ [Elen Ecb Hn Hh Hr0 Hs]]. destruct sts as [|st1 sts].
    + inversion Hs; subst rs. simpl. split; [intros [_ [= <-]]; by split|intros [[= <-] _]; split; [by intros []|done]].
    + rewrite (blockMerkleRoot_early st0 (st1 :: sts)) by done. split; [intros [Hsh ?]; split; [by apply Hsh|done]|intros [??]; auto].
  - intros m [_ ->]%Hearly. split; [done|].
    by rewrite !(CheckMerkleRoot_iff b _ tx st0 sts r0 rs) by done.
Qed.
End Theorems.

(** ** A concrete block: two subtrees of capacity two, the last one short *)
Section Concrete.
#[local] Existing Instances model_Chainhash model_BtTx model_Subtree model_GoSubtree.

Definition ex_coinbase : Tx := mkTx 1 [mkInput zero_hash 0xffffffff 0 None (Some []) 0] [] 0.
Definition ex_st0 : SubtreeData :=
  mkSubtree [mkNode CoinbasePlaceholderHashValue 0 0; mkNode (hash_of_Z 11) 0 0] 1 2 None.
Definition ex_st1 : SubtreeData := mkSubtree [mkNode (hash_of_Z 12) 0 0] 0 1 None.
Definition the_root (l : list Hash) : Hash := default zero_hash (merkle_root hash_pair l).
Definition ex_r0 : Hash := the_root [TxIDChainHash ex_coinbase; hash_of_Z 11].
Definition ex_body : Body :=
  mkBody (the_root [TxIDChainHash ex_coinbase; hash_of_Z 11; hash_of_Z 12]) (Some ex_coinbase)
    [the_root (node_hashes ex_st0); hash_of_Z 12] [Some ex_st0; Some ex_st1].

Lemma ex_loaded : loaded ex_body ex_coinbase ex_st0 [ex_st1] ex_r0 [hash_of_Z 12].
Proof.
  split; [done|]. split; [done|done|done|done|vm_compute; reflexivity|].
  apply Forall2_cons; split; [|constructor]. split; [split; [reflexivity|by left]|split; [reflexivity|done]].
Qed.

Definition ex_read (h : Hash) : SubtreeData + marked :=
  inl (if bool_decide (h = hash_of_Z 12) then ex_st1 else ex_st0).

Lemma binding_pass_agrees_witness :
  bindSubtreeBodyToHeader ex_read (λ l, l) 1 ex_body = inl (Ok tt) ∧
  checkSubtreeBodyBinding ex_body None = Ok tt.
Proof.
  assert (bindSubtreeBodyToHeader ex_read (λ l, l) 1 ex_body = inl (Ok tt)) as E by (vm_compute; reflexivity).
  split; [exact E|].
  apply (binding_pass_agrees model_GoSubtree_spec ex_read (λ l, l) (λ l, Permutation_refl l) 1 ex_body None
    ex_coinbase ex_st0 [ex_st1] ex_r0 [hash_of_Z 12] ex_loaded); [by intros ?|vm_compute; reflexivity|exact E].
Defined.

Definition ex_bytes (bytes : list byte) : result SubtreeData :=
  match bytes with [] => Err (err ERR_ERROR) | b :: _ => Ok (if bool_decide (b = Byte.x01) then ex_st1 else ex_st0) end.
Definition ex_get (h : Hash) (t : FileType) : result (list byte) :=
  Ok [if bool_decide (h = hash_of_Z 12) then Byte.x01 else Byte.x00].

Lemma bound_body_is_committed_witness : ∃ tx sts, bd_CoinbaseTx ex_body = Some tx ∧ IsConsensusCoinbase (Some tx) = true ∧
    Forall2 (λ key st, merkle_root hash_pair (node_hashes st) = Some key) (bd_Subtrees ex_body) sts ∧
    merkle_root hash_pair (leaves (TxIDChainHash tx) sts) = Some (bd_MerkleRoot ex_body) ∧
    NoDup (tail (leaves (TxIDChainHash tx) sts)).
Proof.
  apply (bound_body_is_committed model_Chainhash_spec model_GoSubtree_spec (λ _ _, Ok true) ex_get ex_get ex_bytes) with (λ l, l) 2.
  - intros [|c bytes] st; [done|]. cbn [ex_bytes]. case_bool_decide; intros [= <-]; reflexivity.
  - reflexivity.
  - done.
  - vm_compute. reflexivity.
Defined.

Lemma one_body_per_header_witness :
  let l := leaves (TxIDChainHash ex_coinbase) [ex_st0; ex_st1] in
  l = l ∨ collision hash_pair (all_pairs hash_pair l ++ all_pairs hash_pair l) ∨
  leaf_is_node hash_pair l (all_pairs hash_pair l) ∨ leaf_is_node hash_pair l (all_pairs hash_pair l).
Proof.
  apply (one_body_per_header model_Chainhash_spec model_GoSubtree_spec ex_body ex_body None None ex_coinbase ex_coinbase
    ex_st0 ex_st0 [ex_st1] [ex_st1] ex_r0 ex_r0 [hash_of_Z 12] [hash_of_Z 12] ex_loaded ex_loaded);
    [by intros ?|by intros ?|done|vm_compute; reflexivity|vm_compute; reflexivity].
Defined.

Lemma early_check_agrees_witness :
  CheckMerkleRoot ex_body None = Ok tt ∧
  ∃ m, checkBodyBoundToHeader ex_body (Some ex_st0) (Some ex_st1) = Ok m ∧ CheckMerkleRoot ex_body (Some m) = Ok tt.
Proof.
  assert (CheckMerkleRoot ex_body None = Ok tt) as E by (vm_compute; reflexivity). split; [exact E|].
  destruct (early_check_agrees model_GoSubtree_spec ex_body None ex_coinbase ex_st0 [ex_st1] ex_r0
    [hash_of_Z 12] ex_loaded) as [H1 H2]; [by intros ?|reflexivity|reflexivity|].
  destruct (proj1 H1 E) as [[m Hm] _]. exists m. split; [exact Hm|]. by apply (proj2 (H2 m Hm)).
Defined.

(** A body with its last transaction repeated has the root of the honest one: the root
    accepts both, and the scan refuses the second. *)
Definition ex_mutated : Body :=
  mkBody (bd_MerkleRoot ex_body) (Some ex_coinbase) (bd_Subtrees ex_body)
    [Some ex_st0; Some (mkSubtree [mkNode (hash_of_Z 12) 0 0; mkNode (hash_of_Z 12) 0 0] 1 2 None)].

Example mutated_body_same_root :
  CheckMerkleRoot ex_mutated None = Ok tt ∧ CheckMerkleRoot ex_body None = Ok tt ∧
  checkSubtreeBodyBinding ex_mutated None = Err (err ERR_BLOCK_CORRUPT) ∧
  checkSubtreeBodyBinding ex_body None = Ok tt.
Proof. vm_compute. done. Qed.
End Concrete.
