(* ===== verification/QuarantineTheorems.v ===== *)
(** * Forged blobs are named and removed

    Whatever the chunks, the order of the reads and the other failures of a binding pass,
    its error names exactly the blobs of the block that do not hash to their keys; and
    the entry point of the route removes them all, or marks the error so that the run
    is aborted. *)

From S2P Require Import Prelude External Merkle GoSubtree BlockReward Pipeline BodyBinding BindingPass BodyBindingTheorems.

(** ** The collector *)
Definition well_recorded (v : subtreeReadVerdicts) : Prop :=
  (firstMismatch v = None ↔ mismatches v = []) ∧
  ∀ m, firstMismatch v = Some m → mk_refs m ≠ [] ∧ (mk_unquarantined m = true → anyUnquarantined v = true).

Lemma record_spec v m : well_recorded v →
  well_recorded (record_ v m) ∧ mismatches (record_ v m) = mismatches v ++ mk_refs m ∧
  anyUnquarantined (record_ v m) = anyUnquarantined v || (mk_unquarantined m && negb (bool_decide (mk_refs m = []))).
Proof.
  intros [Hn Hm]. unfold record_. destruct (mk_refs m) as [|r refs] eqn:Er.
  - split_and!; [done|by rewrite app_nil_r|].
    rewrite bool_decide_eq_true_2 by done. cbn. by rewrite andb_false_r, orb_false_r.
  - split_and!; [|done|rewrite bool_decide_eq_false_2 by done; cbn; by rewrite andb_true_r]. split; cbn [firstMismatch mismatches].
    + destruct (firstMismatch v); [|destruct (mismatches v)]; split; try done; by intros [_ ?]%app_nil.
    + intros m'. destruct (firstMismatch v) as [m0|] eqn:E0.
      * intros [= <-]. destruct (Hm m0 eq_refl) as [? Hu]. split; [done|]. cbn. intros ->%Hu. done.
      * intros [= <-]. rewrite Er. split; [done|]. cbn. intros ->. by rewrite orb_true_r.
Qed.

Lemma records_spec v l : well_recorded v →
  well_recorded (foldl record_ v l) ∧ mismatches (foldl record_ v l) = mismatches v ++ concat (map mk_refs l) ∧
  (anyUnquarantined v = false → (∀ m, m ∈ l → mk_unquarantined m = false) →
   anyUnquarantined (foldl record_ v l) = false).
Proof.
  revert v. induction l as [|m l IH]; intros v Hv; simpl; [by rewrite app_nil_r|].
  destruct (record_spec v m Hv) as (Hv' & Em & Eu). destruct (IH _ Hv') as (? & -> & Hu).
  split_and!; [done|by rewrite Em, (assoc_L (++))|]. intros E0 Hl. apply Hu.
  - rewrite Eu, E0, (Hl m) by set_solver. done.
  - intros m' Hm'. apply Hl. set_solver.
Qed.

Lemma elem_of_refs l r : r ∈ concat (map mk_refs l) ↔ ∃ m, m ∈ l ∧ r ∈ mk_refs m.
Proof. induction l as [|m l IH]; simpl; [set_solver|]. rewrite elem_of_app, IH. set_solver. Qed.

Lemma dedupe_from_spec seen out refs r : (∀ x, x ∈ seen ↔ x ∈ out) →
  r ∈ dedupe_from seen out refs ↔ r ∈ out ∨ r ∈ refs.
Proof.
  revert seen out. induction refs as [|x refs IH]; intros seen out Hs; simpl; [set_solver|].
  case_bool_decide as Hx; rewrite IH by set_solver; set_solver.
Qed.

Lemma dedupe_spec refs r : r ∈ dedupeSubtreeBlobRefs refs ↔ r ∈ refs.
Proof. unfold dedupeSubtreeBlobRefs. case_match; [done|]. rewrite dedupe_from_spec; set_solver. Qed.

Lemma dedupe_nonempty refs : refs ≠ [] → dedupeSubtreeBlobRefs refs ≠ [].
Proof.
  destruct refs as [|r refs]; [done|]. intros _ E.
  assert (r ∈ dedupeSubtreeBlobRefs (r :: refs)) as Hr by (apply dedupe_spec; set_solver).
  rewrite E in Hr. set_solver.
Qed.

Lemma mark_refs m refs : refs ≠ [] → mk_refs (markSubtreeKeyMismatch m refs) = refs ∧
  mk_unquarantined (markSubtreeKeyMismatch m refs) = mk_unquarantined m.
Proof. by destruct refs. Qed.

Lemma combine_spec m refs anyU o : refs ≠ [] →
  let c := combineSweepMismatchError m refs anyU o in
  mk_refs c = refs ∧ mk_unquarantined c = anyU || mk_unquarantined m.
Proof.
  intros Hne. unfold combineSweepMismatchError.
  destruct (mark_refs m refs Hne) as [E1 E2].
  destruct o as [o|]; [destruct (mark_refs (mkMarked (err_wrap ERR_PROCESSING
      (SetWrappedErr (mk_error (markSubtreeKeyMismatch m refs)) o)) (mk_refs (markSubtreeKeyMismatch m refs))
      (mk_unquarantined (markSubtreeKeyMismatch m refs))) refs Hne) as [E3 E4]|];
    destruct anyU; simpl; rewrite ?E3, ?E4; simpl; rewrite ?E1, ?E2; done.
Qed.

Lemma verdicts_err_refs v r : well_recorded v →
  r ∈ (match verdicts_err v with Some m => mk_refs m | None => [] end) ↔ r ∈ mismatches v.
Proof.
  intros [Hn Hm]. unfold verdicts_err. destruct (firstMismatch v) as [m|] eqn:E.
  - assert (mismatches v ≠ []) as Hne by (intros ?%Hn; done).
    destruct (combine_spec m (dedupeSubtreeBlobRefs (mismatches v)) (anyUnquarantined v) (firstOtherErr v)) as [-> _];
      [by apply dedupe_nonempty|apply dedupe_spec].
  - rewrite (proj1 Hn eq_refl). by destruct (firstOtherErr v).
Qed.

(** ** The pass *)
Section Pass.
  Context {CH : Chainhash} {BT : BtTx} {SUB : Subtree} {GS : GoSubtree}.
  Context (read : Hash → SubtreeData + marked) (arrivals : list marked → list marked).
  Context (Harr : ∀ l, arrivals l ≡ₚ l).

Definition failed_at (hs : list Hash) (m : marked) : Prop := ∃ h, h ∈ hs ∧ read h = inr m.

Lemma failures_elem hs m : m ∈ failures (map read hs) ↔ failed_at hs m.
Proof.
  unfold failures, failed_at. rewrite list_elem_of_omap. split.
  - intros (a & (h & -> & Hh)%list_elem_of_fmap & E). exists h. destruct (read h); by simplify_eq.
  - intros (h & Hh & E). exists (inr m). split; [|done]. rewrite <- E. by apply list_elem_of_fmap_2.
Qed.

Lemma bind_chunks_verdicts b p idx l : well_recorded (ps_verdicts p) →
  let v := ps_verdicts (bind_chunks read arrivals b p idx l) in
  well_recorded v ∧
  (∀ r, r ∈ mismatches v ↔ r ∈ mismatches (ps_verdicts p) ∨ ∃ m, failed_at (mjoin l) m ∧ r ∈ mk_refs m) ∧
  (anyUnquarantined (ps_verdicts p) = false → (∀ m, failed_at (mjoin l) m → mk_unquarantined m = false) →
   anyUnquarantined v = false).
Proof.
  revert p idx. induction l as [|chunk l IH]; intros p idx Hw; cbn [bind_chunks].
  { split_and!; [done| |done]. intros r. unfold failed_at. set_solver. }
  assert (ps_verdicts (bind_chunk read arrivals b p idx chunk) =
          foldl record_ (ps_verdicts p) (arrivals (failures (map read chunk)))) as Ev.
  { unfold bind_chunk. case_match; [done|]. by destruct (bind_all _ _ _ _). }
  destruct (records_spec (ps_verdicts p) (arrivals (failures (map read chunk))) Hw) as (Hw' & Em & Hu').
  rewrite <- Ev in Hw', Em, Hu'.
  destruct (IH (bind_chunk read arrivals b p idx chunk) (idx + length chunk)%nat Hw') as (Hw2 & Hm2 & Hu2).
  assert (∀ m, m ∈ arrivals (failures (map read chunk)) ↔ failed_at chunk m) as Hc.
  { intros m. rewrite (Harr _). apply failures_elem. }
  assert (∀ m, failed_at (mjoin (chunk :: l)) m ↔ failed_at chunk m ∨ failed_at (mjoin l) m) as Hj.
  { intros m. unfold failed_at. cbn [mjoin list_join]. set_solver. }
  split_and!; [done| |].
  - intros r. rewrite Hm2, Em, elem_of_app, elem_of_refs. setoid_rewrite Hj. setoid_rewrite Hc.
    clear. firstorder.
  - intros H0 Hall. apply Hu2; [apply Hu'; [done|]|].
    + intros m Hm%Hc. apply Hall, Hj. auto.
    + intros m Hm. apply Hall, Hj. auto.
Qed.

Definition named (x : result unit + marked) : list subtreeBlobRef :=
  match x with inl _ => [] | inr m => mk_refs m end.

(** The error of a pass names what its reads named. *)
Lemma bind_names width b r :
  r ∈ named (bindSubtreeBodyToHeader read arrivals width b) ↔
  ∃ m, failed_at (bd_Subtrees b) m ∧ r ∈ mk_refs m.
Proof.
  unfold bindSubtreeBodyToHeader. case_bool_decide as He; [rewrite He; unfold failed_at; simpl; set_solver|].
  set (l := chunks _ _).
  assert (mjoin l = bd_Subtrees b) as El by (by apply chunks_concat, chunk_width_pos).
  destruct (bind_chunks_verdicts b bind_start 0 l) as (Hw & Hm & _); [by split; [split|]|].
  rewrite El in Hm. cbn [bind_start ps_verdicts no_verdicts mismatches] in Hm.
  set (p := bind_chunks read arrivals b bind_start 0 l) in *.
  assert (r ∈ mismatches (ps_verdicts p) ↔ ∃ m, failed_at (bd_Subtrees b) m ∧ r ∈ mk_refs m) as <- by (rewrite Hm; set_solver).
  rewrite <- verdicts_err_refs by done. unfold bind_verdict.
  destruct (failed (ps_verdicts p)) eqn:Ef; [by destruct (verdicts_err _)|].
  assert (verdicts_err (ps_verdicts p) = None) as ->.
  { unfold failed in Ef. apply orb_false_iff in Ef as [E1%bool_decide_eq_false E2%bool_decide_eq_false].
    unfold verdicts_err. destruct (firstMismatch _); [by destruct E1|]. destruct (firstOtherErr _); [by destruct E2|done]. }
  by destruct (ps_firstCheckErr p).
Qed.
End Pass.

(** ** The reads *)
Section Reads.
  Context {CH : Chainhash} {GS : GoSubtree}.
  Context (Exists_ : Hash → FileType → result bool)
          (GetIoReader Get_ : Hash → FileType → result (list byte))
          (newSubtreeFromBytes : list byte → result SubtreeData).

(** The blobs a subtree can be stored as. *)
Definition structure_type (t : FileType) : Prop := t = FileTypeSubtree ∨ t = FileTypeSubtreeToCheck.

(** The store answers for a key: a blob is there or not, and its bytes are those of a
    subtree with nodes. *)
Definition answers (h : Hash) : Prop := ∀ t, structure_type t →
  (Exists_ h t = Ok false) ∨
  (Exists_ h t = Ok true ∧ ∃ bytes st, GetIoReader h t = Ok bytes ∧ Get_ h t = Ok bytes ∧
     newSubtreeFromBytes bytes = Ok st ∧ st_Nodes st ≠ []).

(** A blob that does not answer to its key. *)
Definition forged (r : subtreeBlobRef) : Prop :=
  structure_type (ref_fileType r) ∧ Exists_ (ref_hash r) (ref_fileType r) = Ok true ∧
  ∃ bytes st, Get_ (ref_hash r) (ref_fileType r) = Ok bytes ∧ newSubtreeFromBytes bytes = Ok st ∧
    ¬ anchored st (ref_hash r).

Notation read := (readSubtreeStructure Exists_ GetIoReader Get_ newSubtreeFromBytes).

(** A read names blobs of its own key only. *)
Lemma read_own_key h r : r ∈ (match read h with inl _ => [] | inr m => mk_refs m end) → ref_hash r = h.
Proof.
  assert (∀ t e, r ∈ mk_refs (rejectKeyMismatchAndAuditSibling Exists_ Get_ newSubtreeFromBytes h t e) → ref_hash r = h) as Hrej.
  { intros t e. unfold rejectKeyMismatchAndAuditSibling.
    repeat case_match; cbn [markSubtreeKeyMismatch markUnquarantinedLocalSubtree mk_refs app]; set_solver. }
  unfold readSubtreeStructure, readFullSubtreeAnchored.
  repeat case_match; cbn [unmarked markSubtreeKeyMismatch mk_refs] in *; try set_solver; by apply Hrej.
Qed.

  Context (GSS : GoSubtreeSpec GS).

Lemma Validate_cases st h : st_Nodes st ≠ [] →
  (ValidateSubtreeNodesMatchKey (Some st) (Some h) = Ok tt ∧ anchored st h) ∨
  (∃ e, ValidateSubtreeNodesMatchKey (Some st) (Some h) = Err e) ∧ ¬ anchored st h.
Proof.
  intros Hn. destruct (ValidateSubtreeNodesMatchKey (Some st) (Some h)) as [[]|e] eqn:E.
  - left. split; [done|]. by apply ValidateSubtreeNodesMatchKey_ok in E as [_ ?].
  - right. split; [eauto|]. intros Ha.
    assert (ValidateSubtreeNodesMatchKey (Some st) (Some h) = Ok tt) as E'
      by (by apply ValidateSubtreeNodesMatchKey_ok). congruence.
Qed.


(** One key: the read names exactly its forged blobs, and no doubt is left. *)
Ltac forged_absurd :=
  exfalso; match goal with H : ex _ |- _ => destruct H as (? & ? & ? & ? & ?) end;
  repeat match goal with
  | H1 : ?x = Ok ?a, H2 : ?x = Ok ?b |- _ => rewrite H1 in H2; injection H2 as <-; clear H1
  end; contradiction.

Lemma read_names h r : answers h → ref_hash r = h →
  r ∈ (match read h with inl _ => [] | inr m => mk_refs m end) ↔ forged r.
Proof.
  intros Ha <-. destruct r as [h t]. simpl in *. unfold forged. simpl.
  unfold readSubtreeStructure, findLocalSubtreeFile.
  destruct (Ha FileTypeSubtreeToCheck (or_intror eq_refl)) as [Ec|(Ec & bc & sc & Erc & Egc & Edc & Hnc)];
    destruct (Ha FileTypeSubtree (or_introl eq_refl)) as [Ef|(Ef & bf & sf & Erf & Egf & Edf & Hnf)];
    rewrite Ec; cbn [bindR]; rewrite ?Ef; cbn [bindR].
  - cbn [mk_refs unmarked]. split; [set_solver|]. intros ([->| ->] & ? & _); congruence.
  - rewrite Erf, Edf, Length_nonzero by done.
    destruct (Validate_cases sf h Hnf) as [[-> Hok]|[[e ->] Hbad]].
    + rewrite bool_decide_eq_true_2 by done. split; [set_solver|].
      intros ([->| ->] & ? & ?); [forged_absurd|congruence].
    + unfold rejectKeyMismatchAndAuditSibling. cbn [subtreeSiblingFileType]. rewrite Ec. cbn [markSubtreeKeyMismatch mk_refs].
      rewrite list_elem_of_singleton. split.
      * intros [= ->]. unfold structure_type; eauto 10.
      * intros ([->| ->] & ? & ?); congruence.
  - rewrite Erc, Edc, Length_nonzero by done.
    destruct (Validate_cases sc h Hnc) as [[-> Hok]|[[e ->] Hbad]].
    + rewrite bool_decide_eq_false_2 by done. rewrite ?Ef. split; [set_solver|].
      intros ([->| ->] & ? & ?); [congruence|forged_absurd].
    + unfold rejectKeyMismatchAndAuditSibling. cbn [subtreeSiblingFileType]. rewrite ?Ef. cbn [markSubtreeKeyMismatch mk_refs].
      rewrite list_elem_of_singleton. split.
      * intros [= ->]. unfold structure_type; eauto 10.
      * intros ([->| ->] & ? & ?); congruence.
  - rewrite Erc, Edc, Length_nonzero by done.
    destruct (Validate_cases sc h Hnc) as [[-> Hok]|[[e ->] Hbad]].
    + rewrite bool_decide_eq_false_2 by done. rewrite ?Ef. unfold readFullSubtreeAnchored. rewrite Egf, Edf.
      destruct (Validate_cases sf h Hnf) as [[-> Hok']|[[e ->] Hbad']].
      * split; [set_solver|]. intros ([->| ->] & ? & ?); forged_absurd.
      * cbn [markSubtreeKeyMismatch mk_refs]. rewrite list_elem_of_singleton. split.
        -- intros [= ->]. unfold structure_type; eauto 10.
        -- intros ([->| ->] & ? & ?); [done|forged_absurd].
    + unfold rejectKeyMismatchAndAuditSibling. cbn [subtreeSiblingFileType]. rewrite Ef, Egf, Edf.
      destruct (Validate_cases sf h Hnf) as [[-> Hok']|[[e' ->] Hbad']]; cbn [markSubtreeKeyMismatch mk_refs app].
      * rewrite list_elem_of_singleton. split.
        -- intros [= ->]. unfold structure_type; eauto 10.
        -- intros ([->| ->] & ? & ?); [forged_absurd|done].
      * rewrite !elem_of_cons, elem_of_nil. split.
        -- intros [[= ->]|[[= ->]|[]]]; unfold structure_type; eauto 10.
        -- intros ([->| ->] & ? & ?); auto.
Qed.
End Reads.

(** ** The quarantine *)
Section Quarantine.
  Context (cancelled : nat → bool) (del_error : nat → option error) (removes : nat → bool)
          (exists_error : nat → option error).

(** Only the blob is removed, and a confirmation is the truth. *)
Lemma delete_attempts_spec n ref s :
  let '(confirmed, s') := delete_attempts cancelled del_error removes exists_error n ref s in
  (∀ r, r ∈ q_disk s' → r ∈ q_disk s) ∧ (∀ r, r ∈ q_disk s → r = ref ∨ r ∈ q_disk s') ∧
  (confirmed = true → ref ∉ q_disk s') ∧ (q_n s' ≤ q_n s + n)%nat.
Proof.
  revert s. induction n as [|n IH]; intros s; cbn [delete_attempts].
  { split_and!; [done|by right|done|lia]. }
  destruct (cancelled (q_n s)); [split_and!; [done|by right|done|lia]|].
  set (s1 := mkQ _ _).
  assert ((∀ r, r ∈ q_disk s1 → r ∈ q_disk s) ∧ (∀ r, r ∈ q_disk s → r = ref ∨ r ∈ q_disk s1) ∧
          q_n s1 = S (q_n s)) as (H1 & H2 & H3).
  { subst s1. cbn. destruct (removes (q_n s)); split_and!; try done; try (by right); [set_solver|].
    intros r Hr. destruct (decide (r = ref)); [by left|right; set_solver]. }
  clearbody s1. destruct (_ && _) eqn:Eg.
  - apply andb_true_iff in Eg as [_ Ea]. destruct (exists_error _); [done|].
    apply negb_true_iff, bool_decide_eq_false in Ea. split_and!; [done..|]. lia.
  - specialize (IH s1). destruct (delete_attempts _ _ _ _ n ref s1) as [ok s2].
    destruct IH as (H4 & H5 & H6 & H7). split_and!; [by auto| |done|lia].
    intros r [->|Hr]%H2; [by left|by apply H5].
Qed.

Lemma quarantine_all_spec refs k s :
  let '(unconfirmed, s') := quarantine_all cancelled del_error removes exists_error refs k s in
  (∀ r, r ∈ q_disk s' → r ∈ q_disk s) ∧ (∀ r, r ∈ q_disk s → r ∈ refs ∨ r ∈ q_disk s') ∧
  (k ≤ unconfirmed)%nat ∧ (unconfirmed = 0%nat → ∀ r, r ∈ refs → r ∉ q_disk s') ∧
  (q_n s' ≤ q_n s + quarantineDeleteAttempts * length refs)%nat.
Proof.
  revert k s. induction refs as [|ref refs IH]; intros k s; cbn [quarantine_all length].
  { split_and!; [done|by right|done|set_solver|lia]. }
  unfold deleteSubtreeBlobConfirmed. pose proof (delete_attempts_spec quarantineDeleteAttempts ref s) as Hd.
  destruct (delete_attempts _ _ _ _ _ ref s) as [ok s1]. destruct Hd as (H1 & H2 & H3 & H4).
  specialize (IH (if ok then k else S k) s1).
  destruct (quarantine_all _ _ _ _ refs _ s1) as [u s2]. destruct IH as (H5 & H6 & H7 & H8 & H9). split_and!.
  - auto.
  - intros r [->|[?|?]%H6]%H2; set_solver.
  - destruct ok; lia.
  - intros -> r [->|Hr]%elem_of_cons; [|by apply H8].
    intros Hin. destruct ok; [|lia]. by apply H3, H5.
  - lia.
Qed.
End Quarantine.

(** C15: if the store answers for the keys of a block, the binding pass names exactly the
    blobs that do not hash to their keys, in every chunk and under both file types,
    whatever else fails and in whatever order the reads finish; the entry point of the
    route then removes nothing else, in at most three attempts each, and either every
    forged blob is gone or the error is marked so that the run aborts instead of
    falling through to the loader that cannot see them. *)
Theorem forged_blobs_quarantined {CH : Chainhash} {BT : BtTx} {SUB : Subtree} {GS : GoSubtree}
    (GSS : GoSubtreeSpec GS) Exists_ GetIoReader Get_ newSubtreeFromBytes arrivals width b
    cancelled del_error removes exists_error :
  (∀ l, arrivals l ≡ₚ l) →
  (∀ h, h ∈ bd_Subtrees b → answers Exists_ GetIoReader Get_ newSubtreeFromBytes h) →
  let found r := ref_hash r ∈ bd_Subtrees b ∧ forged Exists_ Get_ newSubtreeFromBytes r in
  let x := bindSubtreeBodyToHeader (readSubtreeStructure Exists_ GetIoReader Get_ newSubtreeFromBytes) arrivals width b in
  (∀ r, r ∈ named x ↔ found r) ∧
  ∀ m s, x = inr m →
    let '(m', s') := quarantineSubtreeKeyMismatch cancelled del_error removes exists_error m s in
    (∀ r, r ∈ q_disk s → found r ∨ r ∈ q_disk s') ∧ (∀ r, r ∈ q_disk s' → r ∈ q_disk s) ∧
    (mk_unquarantined m' = true ∨ ∀ r, found r → r ∉ q_disk s') ∧
    (q_n s' ≤ q_n s + quarantineDeleteAttempts * length (mk_refs m))%nat.
Proof.
  intros Harr Hans found x.
  assert (∀ r, r ∈ named x ↔ found r) as Hnamed.
  { intros r. unfold x, found. rewrite bind_names by done. split.
    - intros (m & (h & Hh & E) & Hr).
      assert (ref_hash r = h) as <-.
      { apply (read_own_key Exists_ GetIoReader Get_ newSubtreeFromBytes h r). by rewrite E. }
      split; [done|]. apply (read_names Exists_ GetIoReader Get_ newSubtreeFromBytes GSS (ref_hash r) r); auto. by rewrite E.
    - intros [Hh Hf]. pose proof (proj2 (read_names Exists_ GetIoReader Get_ newSubtreeFromBytes GSS (ref_hash r) r (Hans _ Hh) eq_refl) Hf) as Hr.
      destruct (readSubtreeStructure _ _ _ _ (ref_hash r)) as [|m] eqn:E; [set_solver|].
      exists m. split; [|done]. by exists (ref_hash r). }
  split; [done|]. intros m s E. rewrite E in Hnamed. cbn [named] in Hnamed.
  unfold quarantineSubtreeKeyMismatch. pose proof (quarantine_all_spec cancelled del_error removes exists_error (mk_refs m) 0 s) as Hq.
  destruct (mk_refs m) as [|r0 refs].
  { split_and!; [by right|done| |simpl; lia]. right. intros r Hr%Hnamed. set_solver. }
  destruct (quarantine_all _ _ _ _ _ _ _) as [u s']. destruct Hq as (H1 & H2 & _ & H4 & H5). split_and!.
  - intros r [?%Hnamed|?]%H2; auto.
  - done.
  - destruct (0 <? u)%nat eqn:Eu; [by left|]. right. intros r Hr%Hnamed. apply H4; [|done]. apply Nat.ltb_ge in Eu. lia.
  - done.
Qed.

(** ** A concrete store: the second subtree of the block is forged under one file type *)
Section Concrete.
#[local] Existing Instances model_Chainhash model_BtTx model_Subtree model_GoSubtree.

Definition forged_get (h : Hash) (t : FileType) : result (list byte) :=
  Ok [if bool_decide (h = hash_of_Z 12) && bool_decide (t = FileTypeSubtree) then Byte.x01 else Byte.x00].
Definition forged_ref : subtreeBlobRef := mkRef (hash_of_Z 12) FileTypeSubtreeToCheck.
Definition forged_disk : qstate :=
  mkQ {[forged_ref; mkRef (hash_of_Z 12) FileTypeSubtree]} 0.

Lemma forged_blobs_quarantined_witness :
  ∃ m, bindSubtreeBodyToHeader (readSubtreeStructure (λ _ _, Ok true) forged_get forged_get ex_bytes) (λ l, l) 1 ex_body
         = inr m ∧ forged_ref ∈ mk_refs m ∧
    let '(m', s') := quarantineSubtreeKeyMismatch (λ _, false) (λ _, None) (λ _, true) (λ _, None) m forged_disk in
    mk_unquarantined m' = false ∧ forged_ref ∉ q_disk s' ∧ mkRef (hash_of_Z 12) FileTypeSubtree ∈ q_disk s'.
Proof.
  destruct (forged_blobs_quarantined model_GoSubtree_spec (λ _ _, Ok true) forged_get forged_get ex_bytes (λ l, l) 1 ex_body
    (λ _, false) (λ _, None) (λ _, true) (λ _, None)) as [H1 H2].
  - reflexivity.
  - intros h _ t _. right. split; [done|]. unfold forged_get.
    destruct (_ && _); eexists _, _; (split_and!; [done|done|reflexivity|done]).
  - set (m := mkMarked (err_wrap ERR_PROCESSING (err ERR_PROCESSING)) [forged_ref] false).
    assert (bindSubtreeBodyToHeader (readSubtreeStructure (λ _ _, Ok true) forged_get forged_get ex_bytes) (λ l, l) 1 ex_body
            = inr m) as E by (vm_compute; reflexivity).
    rewrite E in H1, H2. exists m. split; [exact E|]. specialize (H2 m forged_disk eq_refl).
    split; [apply list_elem_of_here|].
    assert (quarantineSubtreeKeyMismatch (λ _, false) (λ _, None) (λ _, true) (λ _, None) m forged_disk =
            (m, mkQ (q_disk forged_disk ∖ {[forged_ref]}) 1)) as Eq by (vm_compute; reflexivity).
    rewrite Eq in H2 |- *. destruct H2 as (_ & _ & [Hu|Hgone] & _); [discriminate Hu|].
    split; [reflexivity|]. split.
    + apply Hgone, H1. apply list_elem_of_here.
    + apply elem_of_difference. split; [apply elem_of_union_r, elem_of_singleton_2; reflexivity|].
      intros Hin%elem_of_singleton. discriminate Hin.
Defined.
End Concrete.
