(* ===== verification/MerkleProof.v ===== *)
(** * Merkle proofs

    util/merkleproof/merkle_proof.go: the proof that a transaction is in a block of the
    main chain, put together from the path inside its subtree, the levels a short final
    subtree is lifted by, and the path among the subtrees; its verification.  The
    repository's answers are arguments; the roots of a block may come from a cache. *)

From S2P Require Import Prelude External Merkle GoSubtree BodyBinding.

Record MerkleProof := mkProof {
  mp_TxID : Hash;
  mp_BlockHash : Hash;
  mp_BlockHeight : Z;
  mp_MerkleRoot : Hash;
  mp_SubtreeIndex : Z;
  mp_TxIndexInSubtree : Z;
  mp_SubtreeRoot : Hash;
  mp_SubtreeProof : list Hash;
  mp_BlockProof : list Hash;
  mp_Flags : list Z;
}.

Record TxMetaData := mkTxMetaData {
  md_BlockIDs : list Z;
  md_BlockHeights : list Z;
  md_SubtreeIdxs : list Z;
}.

(** Of a [model.Block], what a proof is made from. *)
Record BlockRef := mkBlockRef {
  br_Hash : Hash;
  br_Subtrees : list Hash;
  br_CoinbaseTx : option Tx;
}.

Record BlockRoots := mkRoots {
  FirstRoot : option Hash;
  LastRoot : option Hash;
  TargetHeight : nat;
}.

(** [MerkleProofConstructor]; the header's merkle root stands for the header. *)
Record Repository := mkRepo {
  GetTxMeta : Hash → result TxMetaData;
  GetBlockByID : Z → result BlockRef;
  GetBlockHeader : Hash → result Hash;
  GetSubtree : Hash → result SubtreeData;
  IsBlockOnMainChain : Z → Z → result bool;
}.

(** [BlockRootsCache]: what it holds, when there is one. *)
Definition RootsCache : Type := option (gmap Hash BlockRoots).

Section MerkleProof.
  Context {CH : Chainhash} {BT : BtTx} {SUB : Subtree} {GS : GoSubtree}.

(** ** Verification *)

(** One step; without a flag the sibling is on the right. *)
Definition combine_flag (flag : option Z) (currentHash proofHash : Hash) : Hash :=
  match flag with
  | Some 0 => hash_pair proofHash currentHash
  | _ => hash_pair currentHash proofHash
  end.

Fixpoint apply_proof (currentHash : Hash) (i : nat) (flags : list Z) (proof : list Hash) : Hash :=
  match proof with
  | [] => currentHash
  | proofHash :: proof => apply_proof (combine_flag (flags !! i) currentHash proofHash) (S i) flags proof
  end.

Definition VerifyMerkleProof (proof : option MerkleProof) : result (bool * option Hash) :=
  match proof with
  | None => Err (err ERR_INVALID_ARGUMENT)
  | Some p =>
      if negb (bool_decide (apply_proof (mp_TxID p) 0 (mp_Flags p) (mp_SubtreeProof p) = mp_SubtreeRoot p))
      then Ok (false, None)
      else if negb (bool_decide (apply_proof (mp_SubtreeRoot p) (length (mp_SubtreeProof p)) (mp_Flags p) (mp_BlockProof p)
                                 = mp_MerkleRoot p))
      then Ok (false, None)
      else Ok (true, Some (mp_BlockHash p))
  end.

Definition VerifyMerkleProofForCoinbase (proof : option MerkleProof) : result (bool * option Hash) :=
  match proof with
  | None => Err (err ERR_INVALID_ARGUMENT)
  | Some p =>
      if negb (mp_SubtreeIndex p =? 0) || negb (mp_TxIndexInSubtree p =? 0) then Err (err ERR_ERROR)
      else VerifyMerkleProof proof
  end.

(** ** The path among the subtrees *)
Fixpoint next_level (l : list Hash) : list Hash :=
  match l with
  | [] => []
  | [x] => [hash_pair x x]
  | x :: y :: l => hash_pair x y :: next_level l
  end.

Fixpoint block_path (fuel : nat) (currentLevel : list Hash) (currentIndex : nat) : list Hash * list Z :=
  match fuel with
  | O => ([], [])
  | S fuel =>
      if (length currentLevel <=? 1)%nat then ([], [])
      else
        let siblingIndex := Z.to_nat (Z.lxor (Z.of_nat currentIndex) 1) in
        let '(hash, flag) :=
          if (siblingIndex <? length currentLevel)%nat
          then (currentLevel !!! siblingIndex, if (siblingIndex <? currentIndex)%nat then 0 else 1)
          else (currentLevel !!! currentIndex, 1) in
        let '(proof, flags) := block_path fuel (next_level currentLevel) (Nat.div2 currentIndex) in
        (hash :: proof, flag :: flags)
  end.

Definition GenerateBlockMerkleProof (subtrees : list Hash) (subtreeIndex : Z) : result (list Hash * list Z) :=
  if bool_decide (subtrees = []) then Err (err ERR_PROCESSING)
  else if (subtreeIndex <? 0) || (subtreeIndex >=? Z.of_nat (length subtrees)) then Err (err ERR_PROCESSING)
  else if (length subtrees =? 1)%nat then Ok ([], [])
  else Ok (block_path (length subtrees) subtrees (Z.to_nat subtreeIndex)).

(** ** The roots of a block *)
Definition hasCoinbasePlaceholder (st : SubtreeData) : bool :=
  match st_Nodes st with
  | [] => false
  | node :: _ => bool_decide (node_Hash node = CoinbasePlaceholderHashValue)
  end.

Definition buildEffectiveRoots (subtrees : list Hash) (firstRoot lastRoot : option Hash) (lastIdx : Z) : list Hash :=
  let effective := match firstRoot with Some r => <[0%nat := r]> subtrees | None => subtrees end in
  match lastRoot with Some r => <[Z.to_nat lastIdx := r]> effective | None => effective end.

Definition computeTopRoot (roots : list Hash) : result Hash :=
  match roots with
  | [] => Err (err ERR_PROCESSING)
  | [r] => Ok r
  | _ =>
      let? store := wrapR ERR_PROCESSING (BuildMerkleTreeStoreFromBytes (map (λ r, mkNode r 0 0) roots)) in
      match last store with Some root => Ok root | None => Err panic end
  end.

Definition blockRootsFromCache (cache : RootsCache) (blockHash : Hash) : option BlockRoots :=
  cache ≫= lookup blockHash.

Context (repo : Repository).

(** [firstSubtree] is the transaction's own subtree when that is the first; the
    root, the length to lift to (zero without a final subtree) and the height. *)
Definition deriveFirstSubtreeRoot (block : BlockRef) (subtreeData : SubtreeData) (subtreeIdx lastIdx : Z)
  : result (option Hash * Z * nat) :=
  let? firstSubtree :=
    (if negb (subtreeIdx =? 0)
     then wrapR ERR_PROCESSING (GetSubtree repo (default zero_hash (head (br_Subtrees block))))
     else Ok subtreeData) in
  let? firstRoot :=
    (match br_CoinbaseTx block with
     | Some tx => if hasCoinbasePlaceholder firstSubtree
                  then let? r := wrapR ERR_PROCESSING
                         (RootHashWithReplaceRootNode firstSubtree (TxIDChainHash tx) 0 (u64 (TxSize tx))) in
                       Ok (Some r)
                  else Ok None
     | None => Ok None
     end) in
  Ok (if lastIdx >? 0 then (firstRoot, Length firstSubtree, st_Height firstSubtree) else (firstRoot, 0, 0%nat)).

Definition deriveBlockRoots (block : BlockRef) (subtreeData : SubtreeData) (subtreeIdx lastIdx : Z) : result BlockRoots :=
  let? derived := deriveFirstSubtreeRoot block subtreeData subtreeIdx lastIdx in
  let '(firstRoot, targetLength, targetHeight) := derived in
  if targetLength =? 0 then Ok (mkRoots firstRoot None targetHeight)
  else
    let? lastSubtree :=
      (if negb (subtreeIdx =? lastIdx)
       then wrapR ERR_PROCESSING (GetSubtree repo (br_Subtrees block !!! Z.to_nat lastIdx))
       else Ok subtreeData) in
    if Length lastSubtree <? targetLength then
      let? r := wrapR ERR_PROCESSING (RootHashPadded lastSubtree targetHeight) in
      Ok (mkRoots firstRoot (Some r) targetHeight)
    else Ok (mkRoots firstRoot None targetHeight).

(** ** [ConstructMerkleProof] *)
Fixpoint find_main_chain (ids heights idxs : list Z) : result (option (Z * Z * Z)) :=
  match ids, heights, idxs with
  | id :: ids, h :: heights, s :: idxs =>
      let? onChain := wrapR ERR_PROCESSING (IsBlockOnMainChain repo id h) in
      if onChain : bool then Ok (Some (id, h, s)) else find_main_chain ids heights idxs
  | _, _, _ => Ok None
  end.

Fixpoint index_of (txID : Hash) (i : nat) (nodes : list Node) : option nat :=
  match nodes with
  | [] => None
  | node :: nodes => if bool_decide (node_Hash node = txID) then Some i else index_of txID (S i) nodes
  end.

Definition tx_index (txID : Hash) (block : BlockRef) (subtreeIdx : Z) (subtreeData : SubtreeData) : option nat :=
  match index_of txID 0 (st_Nodes subtreeData) with
  | Some i => Some i
  | None =>
      match br_CoinbaseTx block with
      | Some tx => if (subtreeIdx =? 0) && bool_decide (txID = TxIDChainHash tx) && hasCoinbasePlaceholder subtreeData
                   then Some 0%nat else None
      | None => None
      end
  end.

(** Cached, or derived, checked against the header and then cached. *)
Definition block_roots (cache : RootsCache) (block : BlockRef) (headerRoot : Hash) (subtreeData : SubtreeData)
    (subtreeIdx lastIdx : Z) : result BlockRoots * RootsCache :=
  match blockRootsFromCache cache (br_Hash block) with
  | Some roots => (Ok roots, cache)
  | None =>
      match deriveBlockRoots block subtreeData subtreeIdx lastIdx with
      | Err e => (Err e, cache)
      | Ok roots =>
          match computeTopRoot (buildEffectiveRoots (br_Subtrees block) (FirstRoot roots) (LastRoot roots) lastIdx) with
          | Err e => (Err e, cache)
          | Ok topRoot =>
              if bool_decide (topRoot = headerRoot) then (Ok roots, <[br_Hash block := roots]> <$> cache)
              else (Err (err ERR_PROCESSING), cache)
          end
      end
  end.

(** One flag per level: 1 when the sibling is on the right. *)
Fixpoint parity_flags (levelIndex : nat) (n : nat) : list Z :=
  match n with
  | O => []
  | S n => (if Nat.even levelIndex then 1 else 0) :: parity_flags (Nat.div2 levelIndex) n
  end.

(** The levels a root is lifted by: each sibling is the entry itself. *)
Fixpoint lift_levels (n : nat) (current : Hash) : list Hash :=
  match n with
  | O => []
  | S n => current :: lift_levels n (hash_pair current current)
  end.

(** [bits.Len(uint(n - 1))] *)
Definition bits_len (n : Z) : nat := if n <=? 0 then 0%nat else S (Z.to_nat (Z.log2 n)).

Definition assemble_proof (txID : Hash) (block : BlockRef) (blockHeight subtreeIdx lastIdx : Z) (txIndexInSubtree : nat)
    (subtreeHash headerRoot : Hash) (subtreeData : SubtreeData) (roots : BlockRoots) : result MerkleProof :=
  let effectiveRoots := buildEffectiveRoots (br_Subtrees block) (FirstRoot roots) (LastRoot roots) lastIdx in
  let? proofSubtree :=
    (if (subtreeIdx =? 0) && bool_decide (is_Some (FirstRoot roots)) then
       match br_CoinbaseTx block with
       | Some tx => Ok (ReplaceRootNode subtreeData (TxIDChainHash tx) 0 (u64 (TxSize tx)))
       | None => Err panic
       end
     else Ok subtreeData) in
  let? subtreeProof := wrapR ERR_PROCESSING (GetMerkleProof proofSubtree (Z.of_nat txIndexInSubtree)) in
  let? blockPath := wrapR ERR_PROCESSING (GenerateBlockMerkleProof effectiveRoots subtreeIdx) in
  let '(blockProof, blockFlags) := blockPath in
  let subtreeFlags := parity_flags txIndexInSubtree (length subtreeProof) in
  let subtreeRootForProof :=
    match FirstRoot roots with Some r => if subtreeIdx =? 0 then r else subtreeHash | None => subtreeHash end in
  let? lifted :=
    match LastRoot roots with
    | Some lastRoot =>
        if subtreeIdx =? lastIdx then
          match RootHash proofSubtree with
          | None => Err panic
          | Some current =>
              let n := (TargetHeight roots - bits_len (Length proofSubtree - 1))%nat in
              Ok (subtreeProof ++ lift_levels n current, subtreeFlags ++ replicate n 1, lastRoot)
          end
        else Ok (subtreeProof, subtreeFlags, subtreeRootForProof)
    | None => Ok (subtreeProof, subtreeFlags, subtreeRootForProof)
    end in
  let '(subtreeProof, subtreeFlags, subtreeRootForProof) := lifted in
  Ok (mkProof txID (br_Hash block) blockHeight headerRoot subtreeIdx (Z.of_nat txIndexInSubtree) subtreeRootForProof
        subtreeProof blockProof (subtreeFlags ++ blockFlags)).

Definition ConstructMerkleProof (cache : RootsCache) (txID : option Hash) : result MerkleProof * RootsCache :=
  match txID with
  | None => (Err (err ERR_INVALID_ARGUMENT), cache)
  | Some txID =>
      match GetTxMeta repo txID with
      | Err e => (Err (if error_Is e ERR_TX_NOT_FOUND || error_Is e ERR_NOT_FOUND then err ERR_NOT_FOUND
                       else err_wrap ERR_PROCESSING e), cache)
      | Ok meta =>
          if (length (md_BlockIDs meta) =? 0)%nat || (length (md_BlockHeights meta) =? 0)%nat
             || (length (md_SubtreeIdxs meta) =? 0)%nat then (Err (err ERR_NOT_FOUND), cache)
          else if negb (length (md_BlockHeights meta) =? length (md_BlockIDs meta))%nat
               || negb (length (md_SubtreeIdxs meta) =? length (md_BlockIDs meta))%nat
          then (Err (err ERR_PROCESSING), cache)
          else
            match find_main_chain (md_BlockIDs meta) (md_BlockHeights meta) (md_SubtreeIdxs meta) with
            | Err e => (Err e, cache)
            | Ok None => (Err (err ERR_TX_NOT_FOUND), cache)
            | Ok (Some (blockID, blockHeight, subtreeIdx)) =>
                match GetBlockByID repo blockID with
                | Err e => (Err (err_wrap ERR_PROCESSING e), cache)
                | Ok block =>
                    if (subtreeIdx <? 0) || (subtreeIdx >=? Z.of_nat (length (br_Subtrees block)))
                    then (Err (err ERR_PROCESSING), cache)
                    else
                      let subtreeHash := br_Subtrees block !!! Z.to_nat subtreeIdx in
                      match GetSubtree repo subtreeHash with
                      | Err e => (Err (err_wrap ERR_PROCESSING e), cache)
                      | Ok subtreeData =>
                          match tx_index txID block subtreeIdx subtreeData with
                          | None => (Err (err ERR_PROCESSING), cache)
                          | Some txIndexInSubtree =>
                              let lastIdx := Z.of_nat (length (br_Subtrees block)) - 1 in
                              match GetBlockHeader repo (br_Hash block) with
                              | Err e => (Err (err_wrap ERR_PROCESSING e), cache)
                              | Ok headerRoot =>
                                  let '(r, cache) := block_roots cache block headerRoot subtreeData subtreeIdx lastIdx in
                                  (let? roots := r in
                                   assemble_proof txID block blockHeight subtreeIdx lastIdx txIndexInSubtree subtreeHash
                                     headerRoot subtreeData roots, cache)
                              end
                          end
                      end
                end
            end
      end
  end.
End MerkleProof.
