(* ===== verification/MerkleProofTheorems.v ===== *)
(** * Merkle proofs verify, and only for what is in the block

    A proof made from a repository that serves a block of the main chain verifies
    against the block's header, from the cache as from the subtrees; and a proof that
    verifies starts at a hash of the block's tree, or exhibits a collision. *)

From S2P Require Import Prelude External Merkle GoSubtree BlockReward Pipeline BodyBinding BindingPass BodyBindingTheorems MerkleProof.

Section Paths.
  Context {CH : Chainhash}.

Lemma next_level_eq l : next_level l = level hash_pair l.
Proof. induction l as [| |x y l IH] using pair_ind; [done..|]. cbn [next_level]. by rewrite IH. Qed.

(** The sibling the code picks. *)
Lemma sibling_index i : Z.to_nat (Z.lxor (Z.of_nat i) 1) = if Nat.even i then S i else pred i.
Proof.
  assert (∀ k b, Z.lxor (2 * k + Z.b2z b) 1 = 2 * k + Z.b2z (negb b)) as Hx.
  { intros k b. apply Z.bits_inj. intros n. rewrite Z.lxor_spec.
    destruct (Z.le_gt_cases 0 n) as [Hn|Hn]; [|by rewrite !Z.testbit_neg_r].
    destruct (decide (n = 0)) as [->|].
    - rewrite !Z.testbit_0_r. by destruct b.
    - replace n with (Z.succ (n - 1)) by lia. rewrite !Z.testbit_succ_r by lia.
      replace 1 with (2 * 0 + Z.b2z true) at 2 by done. rewrite Z.testbit_succ_r by lia.
      by rewrite Z.testbit_0_l, xorb_false_r. }
  destruct (Nat.even i) eqn:E.
  - apply Nat.even_spec in E as [k ->]. specialize (Hx (Z.of_nat k) false). simpl Z.b2z in Hx.
    replace (Z.of_nat (2 * k)) with (2 * Z.of_nat k + 0) by lia. rewrite Hx. simpl. lia.
  - assert (Nat.odd i = true) as Eo by (by rewrite <- Nat.negb_even, E). apply Nat.odd_spec in Eo as [k ->].
    specialize (Hx (Z.of_nat k) true). simpl Z.b2z in Hx.
    replace (Z.of_nat (2 * k + 1)) with (2 * Z.of_nat k + 1) by lia. rewrite Hx. lia.
Qed.

(** The path among the subtrees is the path of the tree, with the parities as flags. *)
Lemma block_path_eq fuel l i : (length l ≤ S fuel)%nat → (i < length l)%nat →
  block_path fuel l i = (model_path fuel l i, parity_flags i (length (model_path fuel l i))).
Proof.
  revert l i. induction fuel as [|fuel IH]; intros l i Hl Hi.
  { destruct l as [|x [|]]; simpl in *; [done|done|lia]. }
  cbn [block_path]. destruct (Nat.leb_spec (length l) 1) as [H1|H1].
  { destruct l as [|x [|]]; simpl in *; [done|done|lia]. }
  destruct l as [|x [|y l]]; [simpl in *; lia..|]. set (k := x :: y :: l) in *.
  change (model_path (S fuel) k i) with (default zero_hash (sibling k i) :: model_path fuel (level hash_pair k) (Nat.div2 i)).
  rewrite next_level_eq, sibling_index.
  pose proof (level_shorter hash_pair k ltac:(lia)) as Hsh.
  rewrite IH; [|lia|].
  2:{ rewrite length_level. pose proof (div2_bounds (length k)).
      pose proof (Nat.div2_odd i) as Eo. destruct (Nat.odd i); simpl Nat.b2n in Eo; lia. }
  cbn [length parity_flags]. unfold sibling.
  destruct (lookup_lt_is_Some_2 k i Hi) as [z Hz].
  destruct (Nat.ltb_spec (if Nat.even i then S i else pred i) (length k)) as [Hs|Hs].
  - destruct (lookup_lt_is_Some_2 k _ Hs) as [w Hw]. rewrite Hw. cbn [default].
    rewrite (list_lookup_total_correct _ _ _ Hw).
    destruct (Nat.even i) eqn:Ei; [rewrite (proj2 (Nat.ltb_ge _ _)) by lia; done|].
    destruct i as [|i]; [done|]. cbn [Nat.pred]. rewrite (proj2 (Nat.ltb_lt _ _)) by lia. done.
  - rewrite (lookup_ge_None_2 k _ Hs), Hz. cbn [default]. rewrite (list_lookup_total_correct _ _ _ Hz).
    destruct (Nat.even i) eqn:Ei; [done|]. lia.
Qed.

Lemma apply_parity x i pre post path :
  apply_proof x (length pre) (pre ++ parity_flags i (length path) ++ post) path = climb_path x i path.
Proof.
  revert x i pre. induction path as [|y path IH]; intros x i pre; [done|].
  cbn [length parity_flags apply_proof climb_path app]. rewrite list_lookup_middle by done.
  specialize (IH (combine_flag (Some (if Nat.even i then 1 else 0)) x y) (Nat.div2 i)
                 (pre ++ [if Nat.even i then 1 else 0])).
  rewrite length_app in IH. simpl in IH. rewrite Nat.add_1_r, <- (assoc_L (++)) in IH. simpl in IH.
  etrans; [exact IH|]. f_equal. unfold climb. by destruct (Nat.even i).
Qed.

Lemma apply_lift x n pre post :
  apply_proof x (length pre) (pre ++ replicate n 1 ++ post) (lift_levels n x) = lift hash_pair n x.
Proof.
  revert x pre. induction n as [|n IH]; intros x pre; [done|].
  cbn [lift_levels replicate apply_proof app]. rewrite list_lookup_middle by done. rewrite lift_S.
  specialize (IH (hash_pair x x) (pre ++ [1])). rewrite length_app in IH. simpl in IH.
  by rewrite Nat.add_1_r, <- (assoc_L (++)) in IH.
Qed.

Lemma apply_proof_app x i flags p1 p2 :
  apply_proof x i flags (p1 ++ p2) = apply_proof (apply_proof x i flags p1) (i + length p1) flags p2.
Proof.
  revert x i. induction p1 as [|y p1 IH]; intros x i; simpl; [by rewrite Nat.add_0_r|].
  rewrite IH. by rewrite Nat.add_succ_r.
Qed.

Lemma length_lift_levels n x : length (lift_levels n x) = n.
Proof. revert x. induction n; intros x; simpl; auto. Qed.

Lemma length_parity_flags i n : length (parity_flags i n) = n.
Proof. revert i. induction n; intros i; simpl; auto. Qed.

Lemma Z_log2_nat n : (0 < n)%nat → Z.log2 (Z.of_nat n) = Z.of_nat (Nat.log2 n).
Proof.
  intros Hn. pose proof (Nat.log2_spec n Hn) as [Hlo Hhi]. apply Z.log2_unique; [lia|].
  replace (Z.succ (Z.of_nat (Nat.log2 n))) with (Z.of_nat (S (Nat.log2 n))) by lia.
  rewrite <- !(Nat2Z.inj_pow 2). lia.
Qed.

Lemma bits_len_height {A} (l : list A) : l ≠ [] → bits_len (Z.of_nat (length l) - 1) = Nat.log2_up (length l).
Proof.
  destruct l as [|x l]; [done|]. intros _. cbn [length]. unfold bits_len.
  destruct l as [|y l]; [done|]. cbn [length]. rewrite (proj2 (Z.leb_gt _ _)) by lia.
  unfold Nat.log2_up. cbn [Nat.compare Nat.pred]. f_equal.
  replace (Z.of_nat (S (S (length l))) - 1) with (Z.of_nat (S (length l))) by lia.
  rewrite Z_log2_nat by lia. lia.
Qed.

(** The three parts of a proof, in turn. *)
Lemma apply_parts x i path n r j bpath top :
  climb_path x i path = r → climb_path (lift hash_pair n r) j bpath = top →
  let proof := path ++ lift_levels n r in
  let flags := (parity_flags i (length path) ++ replicate n 1) ++ parity_flags j (length bpath) in
  apply_proof x 0 flags proof = lift hash_pair n r ∧
  apply_proof (lift hash_pair n r) (length proof) flags bpath = top.
Proof.
  intros E1 E2. cbv zeta. split.
  - rewrite apply_proof_app. pose proof (apply_parity x i [] (replicate n 1 ++ parity_flags j (length bpath)) path) as Ep.
    cbn [app length] in Ep. rewrite <- (assoc_L (++)). rewrite Ep, E1.
    pose proof (apply_lift r n (parity_flags i (length path)) (parity_flags j (length bpath))) as El.
    by rewrite length_parity_flags in El.
  - pose proof (apply_parity (lift hash_pair n r) j (parity_flags i (length path) ++ replicate n 1) [] bpath) as Ep.
    rewrite app_nil_r, length_app, length_parity_flags, length_replicate in Ep.
    by rewrite length_app, length_lift_levels, Ep.
Qed.

Lemma index_of_spec txID k nodes :
  match index_of txID k nodes with
  | Some i => ∃ j, i = (k + j)%nat ∧ map node_Hash nodes !! j = Some txID
  | None => txID ∉ map node_Hash nodes
  end.
Proof.
  revert k. induction nodes as [|node nodes IH]; intros k; simpl; [apply not_elem_of_nil|].
  case_bool_decide as E.
  - exists 0%nat. split; [lia|]. by rewrite <- E.
  - specialize (IH (S k)). destruct (index_of txID (S k) nodes) as [i|].
    + destruct IH as (j & -> & Hj). exists (S j). split; [lia|done].
    + intros [Hx|Hx]%elem_of_cons; [congruence|done].
Qed.
End Paths.

(** ** What a path can start from *)
Section Walk.
  Context {CH : Chainhash}.

(** The pairs a verification hashes. *)
Definition step_pair (flag : option Z) (x y : Hash) : Hash * Hash :=
  match flag with Some 0 => (y, x) | _ => (x, y) end.

Fixpoint path_pairs (x : Hash) (i : nat) (flags : list Z) (proof : list Hash) : list (Hash * Hash) :=
  match proof with
  | [] => []
  | y :: proof => step_pair (flags !! i) x y :: path_pairs (combine_flag (flags !! i) x y) (S i) flags proof
  end.

Lemma combine_step flag x y : combine_flag flag x y = uncurry hash_pair (step_pair flag x y).
Proof. by destruct flag as [[]|]. Qed.

Lemma pairs_up_all m l : (m < height l)%nat → pairs (up hash_pair m l) ⊆ all_pairs hash_pair l.
Proof.
  revert l. induction m as [|m IH]; intros l Hm.
  all: assert (2 ≤ length l)%nat as Hl by
    (unfold height in Hm; destruct l as [|? [|]]; cbn in Hm |- *; lia).
  all: rewrite all_pairs_level by done.
  - intros p Hp. apply elem_of_app. by left.
  - rewrite up_S. intros p Hp. apply elem_of_app. right. apply (IH (level hash_pair l)); [|done].
    rewrite (height_level hash_pair l) in Hm by done. lia.
Qed.

(** A path that ends at level [j] starts [length proof] levels further down, at a leaf
    that is a hash, or in a collision. *)
Lemma walk_down l x i flags proof j : apply_proof x i flags proof ∈ up hash_pair j l → (j ≤ height l)%nat →
  let ps := path_pairs x i flags proof in
  collision hash_pair (all_pairs hash_pair l ++ ps) ∨
  if decide (length proof ≤ j)%nat then x ∈ up hash_pair (j - length proof) l else leaf_is_node hash_pair l ps.
Proof.
  cbv zeta. intros H Hj. revert x i H. induction proof as [|y proof IH]; intros x i H.
  { right. rewrite decide_True by (simpl; lia). cbn [length]. by rewrite Nat.sub_0_r. }
  cbn [apply_proof path_pairs length] in *.
  destruct (IH _ _ H) as [Hc|Hx].
  { left. revert Hc. apply collision_mono. intros p. rewrite !elem_of_app, elem_of_cons. tauto. }
  destruct (decide (length proof ≤ j)%nat) as [Hle|Hgt].
  2:{ rewrite decide_False by lia. right. destruct Hx as (a & p & ? & ? & ?). exists a, p. rewrite elem_of_cons. auto. }
  destruct (decide (S (length proof) ≤ j)%nat) as [Hle'|Hgt'].
  - replace (j - length proof)%nat with (S (j - S (length proof))) in Hx by lia.
    change (up hash_pair (S (j - S (length proof))) l) with (level hash_pair (up hash_pair (j - S (length proof)) l)) in Hx.
    apply elem_of_level in Hx as (q & Hq & E). rewrite combine_step in E.
    destruct (decide (step_pair (flags !! i) x y = q)) as [Eq|Hne].
    + right. apply elem_of_pairs in Hq; [|apply hash_pair]. rewrite <- Eq in Hq. destruct (flags !! i) as [[]|]; apply Hq.
    + left. exists (step_pair (flags !! i) x y), q. split_and!; [|apply elem_of_app; left|done|done].
      * apply elem_of_app. right. apply list_elem_of_here.
      * apply (pairs_up_all (j - S (length proof)) l); [lia|done].
  - right. replace (j - length proof)%nat with 0%nat in Hx by lia.
    exists (combine_flag (flags !! i) x y), (step_pair (flags !! i) x y).
    split_and!; [exact Hx|apply list_elem_of_here|apply combine_step].
Qed.

Lemma VerifyMerkleProof_root p ok : VerifyMerkleProof (Some p) = Ok (true, ok) →
  apply_proof (mp_TxID p) 0 (mp_Flags p) (mp_SubtreeProof p ++ mp_BlockProof p) = mp_MerkleRoot p ∧ ok = Some (mp_BlockHash p).
Proof.
  unfold VerifyMerkleProof. case_bool_decide as E1; [|done]. case_bool_decide as E2; [|done]. cbn [negb].
  intros [= <-]. split; [|done]. by rewrite apply_proof_app, E1.
Qed.

(** C26: only what is in the block has a proof.  A proof that verifies against the
    merkle root of a list of transactions, and whose two parts are together as long as
    their tree is high, is for one of them, unless two different pairs with the same hash
    occur in the tree and on the path.  A shorter one may be for an inner hash of the tree, and
    a longer one needs a transaction that is the hash of a pair of the path. *)
Theorem VerifyMerkleProof_sound p l ok : l ≠ [] → merkle_root hash_pair l = Some (mp_MerkleRoot p) →
  VerifyMerkleProof (Some p) = Ok (true, ok) →
  let proof := mp_SubtreeProof p ++ mp_BlockProof p in
  let ps := path_pairs (mp_TxID p) 0 (mp_Flags p) proof in
  ok = Some (mp_BlockHash p) ∧
  (collision hash_pair (all_pairs hash_pair l ++ ps) ∨
   (length proof = height l → mp_TxID p ∈ l) ∧
   ((length proof < height l)%nat → ∃ q, q ∈ all_pairs hash_pair l ∧ mp_TxID p = uncurry hash_pair q) ∧
   ((height l < length proof)%nat → leaf_is_node hash_pair l ps)).
Proof.
  intros Hne Hr Hv proof ps. apply VerifyMerkleProof_root in Hv as [Ha ->]. split; [done|].
  assert (length l ≤ 2 ^ height l)%nat as Hlen.
  { unfold height. destruct (length l) as [|[|n]] eqn:E; [simpl; lia..|]. rewrite <- E. apply Nat.log2_up_spec. lia. }
  assert (apply_proof (mp_TxID p) 0 (mp_Flags p) proof ∈ up hash_pair (height l) l) as Hin.
  { unfold proof. rewrite Ha, (up_root hash_pair (height l) l _ Hr Hlen), Nat.sub_diag. apply list_elem_of_here. }
  destruct (walk_down l _ _ _ proof (height l) Hin ltac:(lia)) as [Hc|Hx]; [by left|].
  right. split_and!; intros E.
  - rewrite decide_True in Hx by lia. by rewrite E, Nat.sub_diag in Hx.
  - rewrite decide_True in Hx by lia. replace (height l - length proof)%nat with (S (height l - length proof - 1)) in Hx by lia.
    apply elem_of_level in Hx as (q & Hq & Hh). exists q. split; [|exact Hh].
    eapply pairs_up_all; [|exact Hq]. lia.
  - by rewrite decide_False in Hx by lia.
Qed.
End Walk.

Section Construct.
  Context {CH : Chainhash} {BT : BtTx} {SUB : Subtree} {GS : GoSubtree} (GSS : GoSubtreeSpec GS).
  Context (repo : Repository).

Notation root l := (merkle_root hash_pair l).

(** A repository that serves a block: its subtrees under their keys, and the header
    whose root is that of its transactions. *)
Record serves (block : BlockRef) (tx : Tx) (headerRoot : Hash) (st0 : SubtreeData) (sts : list SubtreeData)
    (key0 : Hash) (keys : list Hash) (r0 : Hash) : Prop := {
  sv_keys : br_Subtrees block = key0 :: keys;
  sv_subtrees : Forall2 (λ st key, GetSubtree repo key = Ok st ∧ sound st key) (st0 :: sts) (key0 :: keys);
  sv_coinbase : br_CoinbaseTx block = Some tx;
  sv_placeholder : placeholder_first st0;
  sv_first : root (TxIDChainHash tx :: tail (node_hashes st0)) = Some r0;
  sv_shapes : sts ≠ [] → shapes (length (st0 :: sts)) (Length st0) 0 (st0 :: sts);
  sv_header : GetBlockHeader repo (br_Hash block) = Ok headerRoot;
  sv_root : root (leaves (TxIDChainHash tx) (st0 :: sts)) = Some headerRoot;
}.

(** The roots of a block that its two boundary subtrees determine. *)
Definition last_root (st0 : SubtreeData) (sts : list SubtreeData) (keys : list Hash) : option Hash :=
  match last sts, last keys with
  | Some lst, Some r => if Length lst <? Length st0
                        then Some (lift hash_pair (st_Height st0 - height (node_hashes lst)) r) else None
  | _, _ => None
  end.

Definition true_roots (st0 : SubtreeData) (sts : list SubtreeData) (keys : list Hash) (r0 : Hash) : BlockRoots :=
  mkRoots (Some r0) (last_root st0 sts keys) (match sts with [] => 0%nat | _ => st_Height st0 end).

Lemma computeTopRoot_ok roots r : root roots = Some r → computeTopRoot roots = Ok r.
Proof.
  intros Hr. destruct roots as [|x [|y roots]]; [done|rewrite merkle_root_one in Hr; simpl; congruence|].
  destruct (BuildMerkleTreeStoreFromBytes_spec (map (λ r, mkNode r 0 0) (x :: y :: roots)) r) as (store & E & Hl).
  { rewrite map_map. simpl. by rewrite map_id. }
  unfold computeTopRoot. rewrite E. cbn [wrapR bindR]. by rewrite Hl.
Qed.

Lemma GenerateBlockMerkleProof_ok roots i x r : root roots = Some r → roots !! i = Some x →
  ∃ path, GenerateBlockMerkleProof roots (Z.of_nat i) = Ok (path, parity_flags i (length path)) ∧
          climb_path x i path = r.
Proof.
  intros Hr Hx. pose proof (lookup_lt_Some _ _ _ Hx) as Hi. unfold GenerateBlockMerkleProof.
  rewrite bool_decide_eq_false_2 by (by intros ->).
  assert ((Z.of_nat i <? 0) || (Z.of_nat i >=? Z.of_nat (length roots)) = false) as -> by lia.
  destruct (Nat.eqb_spec (length roots) 1) as [H1|H1].
  - destruct roots as [|y [|]]; simpl in H1; try lia. destruct i; [|simpl in Hi; lia].
    exists []. split; [done|]. rewrite merkle_root_one in Hr. simpl in Hx |- *. congruence.
  - rewrite Nat2Z.id, block_path_eq by lia. eexists; split; [done|].
    by apply (model_path_spec (length roots) roots i x r); [lia|..].
Qed.

Section Block.
  Context (block : BlockRef) (tx : Tx) (headerRoot : Hash) (st0 : SubtreeData) (sts : list SubtreeData)
          (key0 : Hash) (keys : list Hash) (r0 : Hash).
  Context (Hsv : serves block tx headerRoot st0 sts key0 keys r0).

Definition lastIdx : Z := Z.of_nat (length (br_Subtrees block)) - 1.

Lemma sv_sound : Forall2 sound sts keys ∧ sound st0 key0 ∧ length sts = length keys.
Proof.
  destruct (Forall2_cons_1 _ _ _ _ _ (sv_subtrees _ _ _ _ _ _ _ _ Hsv)) as [[_ H0] Hs]. split_and!; [|done|].
  - eapply Forall2_impl; [done|]. by intros ?? [_ ?].
  - by eapply Forall2_length.
Qed.

Lemma sv_first_root : sound st0 key0 → RootHashWithReplaceRootNode st0 (TxIDChainHash tx) 0 (u64 (TxSize tx)) = Ok r0.
Proof.
  intros (_ & _ & Hn). destruct (RootHashWithReplaceRootNode_spec st0 (TxIDChainHash tx) 0 (u64 (TxSize tx)) Hn) as (r & -> & Hr).
  rewrite (sv_first _ _ _ _ _ _ _ _ Hsv) in Hr. by injection Hr as ->.
Qed.

Lemma sv_hasPlaceholder : hasCoinbasePlaceholder st0 = true.
Proof.
  pose proof (sv_placeholder _ _ _ _ _ _ _ _ Hsv) as Hp. unfold placeholder_first, hasCoinbasePlaceholder in *.
  destruct (st_Nodes st0); [done|]. injection Hp as Hp. by apply bool_decide_eq_true_2.
Qed.

Lemma sv_lastIdx : lastIdx = Z.of_nat (length sts).
Proof.
  unfold lastIdx. rewrite (sv_keys _ _ _ _ _ _ _ _ Hsv). destruct sv_sound as (_ & _ & El). cbn [length]. lia.
Qed.

Lemma deriveFirst_ok idx st : (st0 :: sts) !! idx = Some st →
  deriveFirstSubtreeRoot repo block st (Z.of_nat idx) lastIdx =
  Ok (if lastIdx >? 0 then (Some r0, Length st0, st_Height st0) else (Some r0, 0, 0%nat)).
Proof.
  intros Hst. destruct sv_sound as (_ & H0 & _). unfold deriveFirstSubtreeRoot.
  assert ((if negb (Z.of_nat idx =? 0) then wrapR ERR_PROCESSING (GetSubtree repo (default zero_hash (head (br_Subtrees block))))
           else Ok st) = Ok st0) as ->.
  { destruct idx as [|idx]; simpl; [by injection Hst as ->|].
    rewrite (sv_keys _ _ _ _ _ _ _ _ Hsv). simpl.
    destruct (Forall2_cons_1 _ _ _ _ _ (sv_subtrees _ _ _ _ _ _ _ _ Hsv)) as [[-> _] _]. done. }
  cbn [bindR]. rewrite (sv_coinbase _ _ _ _ _ _ _ _ Hsv), sv_hasPlaceholder, sv_first_root by done. done.
Qed.

Lemma derive_ok idx st : (st0 :: sts) !! idx = Some st →
  deriveBlockRoots repo block st (Z.of_nat idx) lastIdx = Ok (true_roots st0 sts keys r0).
Proof.
  intros Hst. destruct sv_sound as (Hs & H0 & El). unfold deriveBlockRoots.
  rewrite (deriveFirst_ok idx st Hst). cbn [bindR]. unfold true_roots, last_root.
  destruct (decide (sts = [])) as [Es|Hne].
  - rewrite sv_lastIdx, Es. done.
  - assert (0 < length sts)%nat as Hpos by (by destruct sts; [|simpl; lia]).
    assert (match sts with [] => 0%nat | _ => st_Height st0 end = st_Height st0) as -> by (by destruct sts).
    assert (lastIdx >? 0 = true) as -> by (rewrite sv_lastIdx; lia).
    assert (st_Nodes st0 ≠ []) as Hn0 by apply H0.
    rewrite (Length_nonzero st0) by done.
    destruct (Forall2_sound_last st0 sts r0 keys Hne Hs) as (lst & rl & _ & Hl & Hrl & Hsl).
    assert (last keys = Some rl) as Ek.
    { rewrite last_cons in Hrl. destruct (last keys) as [rl'|] eqn:Ek; [done|]. apply last_None in Ek as ->. simpl in El. lia. }
    assert ((if negb (Z.of_nat idx =? lastIdx)
             then wrapR ERR_PROCESSING (GetSubtree repo (br_Subtrees block !!! Z.to_nat lastIdx)) else Ok st) = Ok lst) as ->.
    { rewrite last_lookup in Hl. rewrite last_lookup in Ek. rewrite sv_lastIdx.
      destruct (Z.eqb_spec (Z.of_nat idx) (Z.of_nat (length sts))) as [Ei|]; cbn [negb].
      - apply Nat2Z.inj in Ei as ->. destruct (length sts); [lia|]. simpl in Hst, Hl. congruence.
      - rewrite Nat2Z.id, (sv_keys _ _ _ _ _ _ _ _ Hsv). rewrite <- El in Ek.
        destruct (length sts) as [|q]; [lia|]. change ((key0 :: keys) !!! S q) with (keys !!! q).
        rewrite (list_lookup_total_correct _ _ _ Ek).
        destruct (Forall2_cons_1 _ _ _ _ _ (sv_subtrees _ _ _ _ _ _ _ _ Hsv)) as [_ Hall].
        destruct (Forall2_lookup_lr _ _ _ _ _ _ Hall Hl Ek) as [-> _]. done. }
    cbn [bindR]. rewrite Hl, Ek. case_match eqn:Esh; [|done].
    rewrite (lift_ok GSS st0 lst rl); [done|done| |unfold Length in Esh; lia].
    apply (shapes_first_full GSS st0 sts); [done|apply H0|by apply (sv_shapes _ _ _ _ _ _ _ _ Hsv)].
Qed.

Lemma effective_ok : buildEffectiveRoots (br_Subtrees block) (FirstRoot (true_roots st0 sts keys r0))
    (LastRoot (true_roots st0 sts keys r0)) lastIdx = effective st0 (st0 :: sts) (r0 :: keys).
Proof.
  destruct sv_sound as (Hs & _ & El). rewrite sv_lastIdx, (sv_keys _ _ _ _ _ _ _ _ Hsv). unfold true_roots, buildEffectiveRoots. cbn [FirstRoot LastRoot].
  change (<[0%nat:=r0]> (key0 :: keys)) with (r0 :: keys). rewrite Nat2Z.id. unfold last_root, effective.
  destruct (decide (sts = [])) as [Es|Hne].
  { rewrite Es in El |- *. destruct keys; [|done]. simpl. by rewrite Z.ltb_irrefl. }
  destruct (Forall2_sound_last st0 sts r0 keys Hne Hs) as (lst & rl & -> & -> & Hrl & _). rewrite Hrl.
  assert (last keys = Some rl) as ->.
  { rewrite last_cons in Hrl. destruct (last keys) as [rl'|] eqn:Ek; [done|]. apply last_None in Ek. rewrite Ek in El.
    destruct sts; done. }
  destruct (Length lst <? Length st0); [|done]. unfold set_last. cbn [length]. by rewrite El, Nat.sub_succ, Nat.sub_0_r.
Qed.

Lemma effective_root : root (effective st0 (st0 :: sts) (r0 :: keys)) = Some headerRoot.
Proof.
  destruct sv_sound as (Hs & (_ & Hh & Hn) & El). rewrite <- (sv_root _ _ _ _ _ _ _ _ Hsv).
  destruct (decide (sts = [])) as [Es|Hne].
  - rewrite Es in El |- *. assert (keys = []) as -> by (by destruct keys). unfold effective. cbn [last]. rewrite Z.ltb_irrefl.
    rewrite merkle_root_one. unfold leaves. simpl map. simpl concat. rewrite app_nil_r.
    by rewrite (sv_first _ _ _ _ _ _ _ _ Hsv).
  - apply (composed_flat GSS); try done; [apply Hsv|]. by apply (sv_shapes _ _ _ _ _ _ _ _ Hsv).
Qed.

(** A cache holds nothing but true roots. *)
Definition cache_ok (cache : RootsCache) : Prop :=
  ∀ roots, blockRootsFromCache cache (br_Hash block) = Some roots → roots = true_roots st0 sts keys r0.

Lemma block_roots_ok cache idx st : cache_ok cache → (st0 :: sts) !! idx = Some st →
  ∃ cache', block_roots repo cache block headerRoot st (Z.of_nat idx) lastIdx = (Ok (true_roots st0 sts keys r0), cache') ∧
            cache_ok cache'.
Proof.
  intros Hc Hst. unfold block_roots. destruct (blockRootsFromCache cache (br_Hash block)) as [roots|] eqn:E.
  { rewrite (Hc roots E). eauto. }
  rewrite (derive_ok idx st Hst), effective_ok, (computeTopRoot_ok _ headerRoot effective_root).
  rewrite bool_decide_eq_true_2 by done. eexists; split; [done|].
  intros roots. unfold blockRootsFromCache. destruct cache as [m|]; simpl; [|done].
  rewrite lookup_insert_eq. by intros [= <-].
Qed.

(** ** The proof *)

(** The leaves of a subtree of the block, the coinbase in its place. *)
Definition leaves_at (idx : nat) (st : SubtreeData) : list Hash :=
  match idx with O => TxIDChainHash tx :: tail (node_hashes st) | _ => node_hashes st end.

Definition root_at (idx : nat) : Hash := (r0 :: keys) !!! idx.

Lemma tx_index_ok idx st txID : (st0 :: sts) !! idx = Some st → txID ∈ leaves_at idx st →
  txID ≠ CoinbasePlaceholderHashValue →
  ∃ i, tx_index txID block (Z.of_nat idx) st = Some i ∧ leaves_at idx st !! i = Some txID.
Proof.
  intros Hst Hin Hp. unfold tx_index. pose proof (index_of_spec txID 0 (st_Nodes st)) as Hi.
  destruct (index_of txID 0 (st_Nodes st)) as [i|].
  - destruct Hi as (j & -> & Hj). exists j. split; [done|]. destruct idx as [|idx]; [|exact Hj].
    injection Hst as <-. pose proof (sv_placeholder _ _ _ _ _ _ _ _ Hsv) as Hf. unfold placeholder_first in Hf.
    unfold leaves_at, node_hashes. destruct (st_Nodes st0) as [|node nodes]; [done|]. injection Hf as Hf.
    destruct j as [|j]; [simpl in Hj; congruence|exact Hj].
  - destruct idx as [|idx]; [|done]. injection Hst as <-. simpl in Hin. apply elem_of_cons in Hin as [->|Hin].
    + rewrite (sv_coinbase _ _ _ _ _ _ _ _ Hsv), sv_hasPlaceholder, bool_decide_eq_true_2 by done. by exists 0%nat.
    + destruct Hi. unfold node_hashes in Hin. destruct (st_Nodes st0); [done|]. by apply elem_of_cons; right.
Qed.

Lemma root_at_sound idx st : (st0 :: sts) !! S idx = Some st → sound st (root_at (S idx)).
Proof.
  intros Hst. destruct sv_sound as (Hs & _ & _). simpl in Hst.
  destruct (Forall2_lookup_l _ _ _ _ _ Hs Hst) as (k & Hk & Hks).
  unfold root_at. change ((r0 :: keys) !!! S idx) with (keys !!! idx). by rewrite (list_lookup_total_correct _ _ _ Hk).
Qed.

Lemma proofSubtree_ok idx st : (st0 :: sts) !! idx = Some st →
  ∃ ps, (if (Z.of_nat idx =? 0) && bool_decide (is_Some (FirstRoot (true_roots st0 sts keys r0))) then
           match br_CoinbaseTx block with
           | Some tx => Ok (ReplaceRootNode st (TxIDChainHash tx) 0 (u64 (TxSize tx)))
           | None => Err panic
           end
         else Ok st) = Ok ps ∧ anchored ps (root_at idx) ∧ node_hashes ps = leaves_at idx st ∧ (idx ≠ 0%nat → ps = st).
Proof.
  intros Hst. destruct idx as [|idx].
  - injection Hst as <-. rewrite bool_decide_eq_true_2 by (by eexists).
    rewrite (sv_coinbase _ _ _ _ _ _ _ _ Hsv). eexists. split; [done|].
    destruct sv_sound as (_ & (_ & _ & Hn) & _).
    destruct (ReplaceRootNode_spec st0 (TxIDChainHash tx) 0 (u64 (TxSize tx)) Hn) as (E & _ & Ec).
    split_and!; [|exact E|done]. split; [|by left]. rewrite E. apply (sv_first _ _ _ _ _ _ _ _ Hsv).
  - rewrite (proj2 (Z.eqb_neq (Z.of_nat (S idx)) 0)) by lia. cbn [andb]. exists st. split_and!; [done| |done..].
    by apply (root_at_sound idx st Hst).
Qed.

(** The entry of the effective roots a proof climbs from. *)
Lemma entry_ok idx st : (st0 :: sts) !! idx = Some st →
  effective st0 (st0 :: sts) (r0 :: keys) !! idx =
    Some (match last_root st0 sts keys with
          | Some r => if Z.of_nat idx =? lastIdx then r else root_at idx
          | None => root_at idx
          end).
Proof.
  intros Hst. rewrite <- effective_ok. destruct sv_sound as (_ & _ & El).
  unfold buildEffectiveRoots, true_roots. cbn [FirstRoot LastRoot].
  rewrite (sv_keys _ _ _ _ _ _ _ _ Hsv), sv_lastIdx, Nat2Z.id. change (<[0%nat:=r0]> (key0 :: keys)) with (r0 :: keys).
  pose proof (lookup_lt_Some _ _ _ Hst) as Hlt. cbn [length] in Hlt.
  assert ((r0 :: keys) !! idx = Some (root_at idx)) as Hk.
  { apply list_lookup_lookup_total_lt. cbn [length]. lia. }
  destruct (last_root st0 sts keys) as [r|]; [|done].
  destruct (Z.eqb_spec (Z.of_nat idx) (Z.of_nat (length sts))) as [E|E].
  - apply Nat2Z.inj in E as ->. apply list_lookup_insert_eq. cbn [length]. lia.
  - rewrite list_lookup_insert_ne by lia. done.
Qed.

(** What [RootHash] gives of an anchored subtree. *)
Lemma RootHash_ok ps r : anchored ps r → RootHash ps = Some r.
Proof.
  intros [Hr [Hc|Hc]]; [rewrite RootHash_computed by done; exact Hr|by apply RootHash_claimed].
Qed.

Lemma last_root_ok st r : (st0 :: sts) !! length sts = Some st → last_root st0 sts keys = Some r →
  length sts ≠ 0%nat ∧ r = lift hash_pair (TargetHeight (true_roots st0 sts keys r0) - bits_len (Length st - 1)) (root_at (length sts)).
Proof.
  intros Hst Hr. destruct (decide (sts = [])) as [Es|Hne]; [by unfold last_root in Hr; rewrite Es in Hr|].
  assert (0 < length sts)%nat as Hpos by (by destruct sts; [|simpl; lia]). split; [lia|].
  assert (TargetHeight (true_roots st0 sts keys r0) = st_Height st0) as -> by (by destruct sts).
  destruct sv_sound as (Hs & _ & El). unfold last_root in Hr. rewrite !last_lookup in Hr.
  assert (st_Nodes st ≠ []) as Hn.
  { destruct (length sts) as [|q] eqn:E; [lia|]. apply (root_at_sound q st Hst). }
  unfold root_at. unfold Length. rewrite (bits_len_height (st_Nodes st)) by done.
  change (Nat.log2_up (length (st_Nodes st))) with (Nat.log2_up (length (st_Nodes st))).
  replace (Nat.log2_up (length (st_Nodes st))) with (height (node_hashes st)) by (unfold height; by rewrite length_node_hashes).
  rewrite <- El in Hr. destruct (length sts) as [|q]; [lia|]. simpl in Hst, Hr. rewrite Hst in Hr.
  change ((r0 :: keys) !!! S q) with (keys !!! q).
  destruct (keys !! q) as [k|] eqn:Ek; [|done]. rewrite (list_lookup_total_correct _ _ _ Ek).
  destruct (Length st <? Length st0); [|done]. by injection Hr as <-.
Qed.

Lemma assemble_ok idx st i txID h : (st0 :: sts) !! idx = Some st → leaves_at idx st !! i = Some txID →
  ∃ p, assemble_proof txID block h (Z.of_nat idx) lastIdx i (br_Subtrees block !!! idx) headerRoot st
         (true_roots st0 sts keys r0) = Ok p ∧
       mp_TxID p = txID ∧ mp_BlockHash p = br_Hash block ∧ mp_BlockHeight p = h ∧ mp_MerkleRoot p = headerRoot ∧
       VerifyMerkleProof (Some p) = Ok (true, Some (br_Hash block)).
Proof.
  intros Hst Hi. destruct (proofSubtree_ok idx st Hst) as (ps & Eps & Ha & Ep & Hps).
  rewrite <- Ep in Hi. destruct (GetMerkleProof_spec ps (root_at idx) i txID Ha Hi) as (path & Epath & _ & Hclimb).
  pose proof (entry_ok idx st Hst) as Hentry.
  destruct (GenerateBlockMerkleProof_ok _ idx _ headerRoot effective_root Hentry) as (bpath & Ebpath & Hb).
  pose proof (lookup_lt_Some _ _ _ Hst) as Hlt. cbn [length] in Hlt.
  (* the lifted part *)
  set (n := match last_root st0 sts keys with
            | Some _ => if Z.of_nat idx =? lastIdx
                        then (TargetHeight (true_roots st0 sts keys r0) - bits_len (Length ps - 1))%nat else 0%nat
            | None => 0%nat end).
  assert (match last_root st0 sts keys with
          | Some r => if Z.of_nat idx =? lastIdx then r else root_at idx | None => root_at idx end
          = lift hash_pair n (root_at idx)) as En.
  { subst n. destruct (last_root st0 sts keys) as [r|] eqn:Er; [|done].
    destruct (Z.eqb_spec (Z.of_nat idx) lastIdx) as [E|]; [|done]. rewrite sv_lastIdx in E. apply Nat2Z.inj in E as ->.
    destruct (last_root_ok st r Hst Er) as [Hn0 ->]. by rewrite (Hps Hn0). }
  rewrite En in Hb. destruct (apply_parts txID i path n (root_at idx) idx bpath headerRoot Hclimb Hb) as [V1 V2].
  exists (mkProof txID (br_Hash block) h headerRoot (Z.of_nat idx) (Z.of_nat i) (lift hash_pair n (root_at idx))
    (path ++ lift_levels n (root_at idx)) bpath
    ((parity_flags i (length path) ++ replicate n 1) ++ parity_flags idx (length bpath))).
  split_and!; [|done..|].
  2:{ unfold VerifyMerkleProof. cbn [mp_TxID mp_Flags mp_SubtreeProof mp_SubtreeRoot mp_BlockProof mp_MerkleRoot mp_BlockHash].
      rewrite V1, V2, !bool_decide_eq_true_2 by done. done. }
  unfold assemble_proof. rewrite Eps. cbn [bindR]. rewrite Epath. cbn [wrapR bindR].
  rewrite effective_ok, Ebpath. cbn [wrapR bindR].
  assert ((match FirstRoot (true_roots st0 sts keys r0) with
           | Some r => if Z.of_nat idx =? 0 then r else br_Subtrees block !!! idx
           | None => br_Subtrees block !!! idx end) = root_at idx) as ->.
  { cbn [true_roots FirstRoot]. rewrite (sv_keys _ _ _ _ _ _ _ _ Hsv). destruct idx as [|idx]; [done|].
    by rewrite (proj2 (Z.eqb_neq (Z.of_nat (S idx)) 0)) by lia. }
  change (LastRoot (true_roots st0 sts keys r0)) with (last_root st0 sts keys).
  rewrite (RootHash_ok ps (root_at idx) Ha). rewrite <- En. subst n.
  destruct (last_root st0 sts keys) as [r|]; [destruct (Z.of_nat idx =? lastIdx)|];
    cbn [bindR replicate lift_levels]; by rewrite ?app_nil_r.
Qed.
End Block.

(** C25: the proof of a transaction verifies.  For a transaction of a block of the main chain
    that the repository serves (the coinbase and transactions of every subtree, a
    short final one included), the proof is made, whether the roots come from the
    cache or from the subtrees, and verifies against the header of the block; the roots
    put into the cache are those of the block. *)
Theorem ConstructMerkleProof_verifies block tx headerRoot st0 sts key0 keys r0 cache txID meta blockID h idx st :
  serves block tx headerRoot st0 sts key0 keys r0 →
  cache_ok block st0 sts keys r0 cache →
  GetTxMeta repo txID = Ok meta → md_BlockIDs meta ≠ [] →
  length (md_BlockHeights meta) = length (md_BlockIDs meta) → length (md_SubtreeIdxs meta) = length (md_BlockIDs meta) →
  find_main_chain repo (md_BlockIDs meta) (md_BlockHeights meta) (md_SubtreeIdxs meta) = Ok (Some (blockID, h, Z.of_nat idx)) →
  GetBlockByID repo blockID = Ok block →
  (st0 :: sts) !! idx = Some st → txID ∈ leaves_at tx idx st → txID ≠ CoinbasePlaceholderHashValue →
  ∃ p cache', ConstructMerkleProof repo cache (Some txID) = (Ok p, cache') ∧
    mp_TxID p = txID ∧ mp_BlockHash p = br_Hash block ∧ mp_BlockHeight p = h ∧ mp_MerkleRoot p = headerRoot ∧
    VerifyMerkleProof (Some p) = Ok (true, Some (br_Hash block)) ∧
    cache_ok block st0 sts keys r0 cache'.
Proof.
  intros Hsv Hc Hmeta Hne Hh Hs Hf Hb Hst Hin Hp.
  destruct (tx_index_ok _ _ _ _ _ _ _ _ Hsv idx st txID Hst Hin Hp) as (i & Hi & Hli).
  destruct (block_roots_ok _ _ _ _ _ _ _ _ Hsv cache idx st Hc Hst) as (cache' & Hroots & Hc').
  destruct (assemble_ok _ _ _ _ _ _ _ _ Hsv idx st i txID h Hst Hli) as (p & Hp1 & E1 & E2 & E3 & E4 & E5).
  exists p, cache'. split_and!; [|done..].
  pose proof (lookup_lt_Some _ _ _ Hst) as Hlt. cbn [length] in Hlt.
  pose proof (sv_lastIdx _ _ _ _ _ _ _ _ Hsv) as Hlast. unfold lastIdx in Hlast.
  destruct (Forall2_lookup_l _ _ _ _ _ (sv_subtrees _ _ _ _ _ _ _ _ Hsv) Hst) as (key & Hkey & Hget & _).
  unfold ConstructMerkleProof. rewrite Hmeta, Hh, Hs, Nat.eqb_refl.
  rewrite (proj2 (Nat.eqb_neq (length (md_BlockIDs meta)) 0)) by (by destruct (md_BlockIDs meta)).
  cbn [orb negb]. rewrite Hf, Hb.
  assert ((Z.of_nat idx <? 0) || (Z.of_nat idx >=? Z.of_nat (length (br_Subtrees block))) = false) as -> by lia.
  rewrite Nat2Z.id, (sv_keys _ _ _ _ _ _ _ _ Hsv), (list_lookup_total_correct _ _ _ Hkey), Hget, Hi.
  rewrite (sv_header _ _ _ _ _ _ _ _ Hsv). rewrite <- (sv_keys _ _ _ _ _ _ _ _ Hsv).
  rewrite (sv_keys _ _ _ _ _ _ _ _ Hsv) in Hp1. rewrite (list_lookup_total_correct _ _ _ Hkey) in Hp1.
  change (Z.of_nat (length (br_Subtrees block)) - 1) with (lastIdx block). rewrite Hroots. cbn [bindR].
  by rewrite Hp1.
Qed.
End Construct.

(** ** The two subtrees of [ex_body], with a final one that is lifted *)
Section Concrete.
#[local] Existing Instances model_Chainhash model_BtTx model_Subtree model_GoSubtree.

Definition ex_block : BlockRef := mkBlockRef (hash_of_Z 77) (bd_Subtrees ex_body) (Some ex_coinbase).
Definition ex_meta : TxMetaData := mkTxMetaData [3; 5] [9; 8] [0; 1].
Definition ex_repo : Repository :=
  mkRepo (λ _, Ok ex_meta) (λ _, Ok ex_block) (λ _, Ok (bd_MerkleRoot ex_body))
    (λ h, Ok (if bool_decide (h = hash_of_Z 12) then ex_st1 else ex_st0)) (λ id _, Ok (id =? 5)).

Lemma ex_serves : serves ex_repo ex_block ex_coinbase (bd_MerkleRoot ex_body) ex_st0 [ex_st1]
  (the_root (node_hashes ex_st0)) [hash_of_Z 12] ex_r0.
Proof.
  split; [reflexivity| |reflexivity..|vm_compute; reflexivity| |reflexivity|vm_compute; reflexivity].
  - apply Forall2_cons. split; [|apply Forall2_cons; split; [|constructor]].
    all: split; [vm_compute; reflexivity|split; [split; [reflexivity|by left]|split; [reflexivity|done]]].
  - intros _ [|[|i]] st; [intros [= <-]; reflexivity..|done].
Qed.

Lemma ConstructMerkleProof_verifies_witness : ∃ p cache', 
  ConstructMerkleProof ex_repo (Some ∅) (Some (hash_of_Z 12)) = (Ok p, cache') ∧
  mp_TxID p = hash_of_Z 12 ∧ mp_BlockHash p = hash_of_Z 77 ∧ mp_BlockHeight p = 8 ∧
  mp_MerkleRoot p = bd_MerkleRoot ex_body ∧ VerifyMerkleProof (Some p) = Ok (true, Some (hash_of_Z 77)) ∧
  cache_ok ex_block ex_st0 [ex_st1] [hash_of_Z 12] ex_r0 cache'.
Proof.
  apply (ConstructMerkleProof_verifies model_GoSubtree_spec ex_repo ex_block ex_coinbase (bd_MerkleRoot ex_body)
    ex_st0 [ex_st1] (the_root (node_hashes ex_st0)) [hash_of_Z 12] ex_r0 (Some ∅) (hash_of_Z 12) ex_meta 5 8 1 ex_st1 ex_serves);
    [by intros ?|done..|apply list_elem_of_here|by vm_compute].
Defined.

Definition ex_proof : MerkleProof :=
  mkProof (hash_of_Z 11) (hash_of_Z 77) 8 ex_r0 0 1 ex_r0 [TxIDChainHash ex_coinbase] [] [0].

Lemma VerifyMerkleProof_sound_witness :
  let l := [TxIDChainHash ex_coinbase; hash_of_Z 11] in
  let proof := mp_SubtreeProof ex_proof ++ mp_BlockProof ex_proof in
  let ps := path_pairs (mp_TxID ex_proof) 0 (mp_Flags ex_proof) proof in
  Some (hash_of_Z 77) = Some (mp_BlockHash ex_proof) ∧
  (collision hash_pair (all_pairs hash_pair l ++ ps) ∨
   (length proof = height l → mp_TxID ex_proof ∈ l) ∧
   ((length proof < height l)%nat → ∃ q, q ∈ all_pairs hash_pair l ∧ mp_TxID ex_proof = uncurry hash_pair q) ∧
   ((height l < length proof)%nat → leaf_is_node hash_pair l ps)).
Proof.
  apply (VerifyMerkleProof_sound ex_proof [TxIDChainHash ex_coinbase; hash_of_Z 11] (Some (hash_of_Z 77)));
    [done|vm_compute; reflexivity|vm_compute; reflexivity].
Defined.
End Concrete.
