(* ===== verification/CountingSort.v ===== *)
(** * Grouping by a small key: the counting sort the code writes out

    model/block_node_index.go ([putChunk]) and model/inpoint_dedup.go ([finish]) group
    entries by shard or partition with the same three passes: count the keys, turn
    the counts into start offsets, and place each entry at the next free position of
    its key.  The group of a key is what [filter] gives, in order. *)

From stdpp Require Import list.
From S2P Require Import Prelude.

Section CountingSort.
  Context {A : Type} (key : A → nat).

Definition count_keys (n : nat) (l : list A) : list nat :=
  foldl (λ ends e, alter Datatypes.S (key e) ends) (replicate n 0%nat) l.

(** Each count becomes the sum of those before it. *)
Fixpoint starts (pos : nat) (ends : list nat) : list nat :=
  match ends with
  | [] => []
  | c :: ends => pos :: starts (pos + c) ends
  end.

Definition place (s : list A * list nat) (e : A) : list A * list nat :=
  (<[default 0%nat (s.2 !! key e) := e]> s.1, alter Datatypes.S (key e) s.2).

(** The sorted entries and the end of each key; [out] is the scratch written over. *)
Definition counting_sort (n : nat) (out l : list A) : list A * list nat :=
  foldl place (out, starts 0 (count_keys n l)) l.

Definition group_of (sorted : list A * list nat) (k : nat) : list A :=
  slice (match k with O => 0%nat | Datatypes.S k => default 0%nat (sorted.2 !! k) end)
        (default 0%nat (sorted.2 !! k)) sorted.1.

(** ** Correctness *)
Definition with_key (k : nat) (l : list A) : list A := filter (λ e, key e = k) l.
Definition below (k : nat) (l : list A) : nat := length (filter (λ e, (key e < k)%nat) l).

Lemma below_S k l : below (Datatypes.S k) l = (below k l + length (with_key k l))%nat.
Proof.
  unfold below, with_key. induction l as [|e l IH]; [done|]. rewrite !filter_cons.
  repeat case_decide; cbn [length]; lia.
Qed.

Lemma below_mono i j l : (i ≤ j)%nat → (below i l ≤ below j l)%nat.
Proof. induction 1 as [|j _ IH]; [done|]. rewrite below_S. lia. Qed.

Lemma below_all n l : Forall (λ e, (key e < n)%nat) l → below n l = length l.
Proof. intros H. unfold below. rewrite list_filter_all; [done|]. by apply Forall_forall. Qed.

Lemma below_0 l : below 0 l = 0%nat.
Proof. unfold below. rewrite list_filter_none; [done|]. intros; lia. Qed.

Lemma length_count_keys n l : length (count_keys n l) = n.
Proof.
  unfold count_keys. rewrite <- (length_replicate n 0%nat) at 2. generalize (replicate n 0%nat).
  induction l as [|e l IH]; intros c; cbn; [done|]. by rewrite IH, length_alter.
Qed.

Lemma lookup_count_keys n l k : (k < n)%nat → count_keys n l !! k = Some (length (with_key k l)).
Proof.
  intros Hk. unfold count_keys.
  assert (H : ∀ (c : list nat) x, c !! k = Some x → foldl (λ ends e, alter Datatypes.S (key e) ends) c l !! k =
    Some (x + length (with_key k l))%nat); [|by apply (H _ 0%nat), lookup_replicate_2].
  clear Hk. unfold with_key. induction l as [|e l IH]; intros c x Hx; cbn [foldl]; [cbn; by rewrite Nat.add_0_r|].
  rewrite filter_cons. case_decide as He.
  - subst k. rewrite (IH _ (Datatypes.S x)); [f_equal; cbn; lia|]. rewrite list_lookup_alter_eq, Hx. done.
  - apply IH. by rewrite list_lookup_alter_ne.
Qed.

Lemma length_starts pos c : length (starts pos c) = length c.
Proof. revert pos. induction c as [|x c IH]; intros pos; cbn; auto. Qed.

Lemma lookup_starts n l k : (k < n)%nat → starts 0 (count_keys n l) !! k = Some (below k l).
Proof.
  assert (H : ∀ (c : list nat) (j pos : nat), (∀ i, (i < length c)%nat → c !! i = Some (length (with_key (j + i) l))) → pos = below j l →
    ∀ i, (i < length c)%nat → starts pos c !! i = Some (below (j + i) l)).
  { induction c as [|x c IH]; intros j pos Hc Hp i Hi; [cbn in Hi; lia|]. cbn.
    destruct i as [|i]; [cbn; by rewrite Nat.add_0_r, Hp|]. cbn.
    pose proof (Hc 0%nat ltac:(cbn; lia)) as [= ->]. rewrite Nat.add_0_r.
    rewrite (IH (Datatypes.S j)); [f_equal; f_equal; lia| | |cbn in Hi; lia].
    - intros i' Hi'. pose proof (Hc (Datatypes.S i') ltac:(cbn; lia)) as H. rewrite lookup_cons_ne_0 in H by lia.
      etrans; [exact H|]. do 3 f_equal. lia.
    - by rewrite below_S, Hp. }
  intros Hk. apply (H _ 0%nat); rewrite ?length_count_keys; [|by rewrite below_0|done].
  intros i Hi. by apply lookup_count_keys.
Qed.

(** After the entries [done_] of [l]: what is written, and where each key goes on. *)
Definition placed (n : nat) (l done_ : list A) (s : list A * list nat) : Prop :=
  length s.1 = length l ∧
  (∀ k, (k < n)%nat → s.2 !! k = Some (below k l + length (with_key k done_))%nat) ∧
  (∀ k i x, (k < n)%nat → with_key k done_ !! i = Some x → s.1 !! (below k l + i)%nat = Some x).

Lemma place_placed n l done_ e rest s : l = done_ ++ e :: rest → Forall (λ e, (key e < n)%nat) l →
  placed n l done_ s → placed n l (done_ ++ [e]) (place s e).
Proof.
  intros Hl Hn (Hlen & Hnext & Hout).
  assert (Hke : (key e < n)%nat).
  { rewrite Hl in Hn. by apply Forall_app in Hn as [_ [? _]%Forall_cons]. }
  assert (Hcnt : ∀ k, with_key k l = with_key k done_ ++ with_key k (e :: rest))
    by (intros k; subst l; apply filter_app).
  assert (He : with_key (key e) (e :: rest) = e :: with_key (key e) rest)
    by (unfold with_key; by rewrite filter_cons_True).
  assert (Hsnoc : ∀ k, with_key k (done_ ++ [e]) = with_key k done_ ++ if decide (key e = k) then [e] else [])
    by (intros k; unfold with_key; rewrite filter_app, filter_cons; by case_decide).
  assert (Hpos : (below (key e) l + length (with_key (key e) done_) < length l)%nat).
  { rewrite <- (below_all n l Hn). pose proof (below_mono (Datatypes.S (key e)) n l ltac:(lia)) as H.
    rewrite below_S, Hcnt, length_app, He in H. cbn in H. lia. }
  unfold place, placed. cbn [fst snd]. rewrite (Hnext (key e) Hke). cbn [default].
  split_and!; [by rewrite length_insert| |].
  - intros k Hk. rewrite Hsnoc, length_app. destruct (decide (key e = k)) as [<-|Hne].
    + rewrite list_lookup_alter_eq, Hnext by done. cbn. f_equal. lia.
    + rewrite list_lookup_alter_ne, Hnext by done. cbn. f_equal. lia.
  - intros k i x Hk. rewrite Hsnoc. intros [Hi|[Hge Hi]]%lookup_app_Some.
    + rewrite list_lookup_insert_ne; [by apply Hout|]. cbn in *. intros Heq.
      pose proof (lookup_lt_Some _ _ _ Hi) as Hlt.
      assert (Hle : (length (with_key k done_) ≤ length (with_key k l))%nat) by (rewrite Hcnt, length_app; lia).
      destruct (Nat.lt_trichotomy (key e) k) as [Hkk|[<-|Hkk]]; [|lia|].
      * pose proof (below_mono (Datatypes.S (key e)) k l ltac:(lia)) as H.
        rewrite below_S, Hcnt, length_app, He in H. cbn in H. lia.
      * pose proof (below_mono (Datatypes.S k) (key e) l ltac:(lia)) as H. rewrite below_S in H. lia.
    + destruct (decide (key e = k)) as [<-|]; [|done]. apply list_lookup_singleton_Some in Hi as [Hi <-].
      replace i with (length (with_key (key e) done_)) by lia. by rewrite list_lookup_insert_eq by (cbn; rewrite Hlen; done).
Qed.

Lemma counting_sort_placed n out l : length out = length l → Forall (λ e, (key e < n)%nat) l →
  placed n l l (counting_sort n out l).
Proof.
  intros Hlen Hn. unfold counting_sort.
  assert (H : ∀ rest done_ s, l = done_ ++ rest → placed n l done_ s → placed n l l (foldl place s rest)).
  { induction rest as [|e rest IH]; intros done_ s Hl Hs; cbn; [by rewrite Hl, app_nil_r in *|].
    apply (IH (done_ ++ [e])); [by rewrite <- app_assoc|]. by eapply place_placed. }
  apply (H l []); [done|]. split_and!; [done| |by intros k i x].
  intros k Hk. cbn [snd]. rewrite lookup_starts by done. f_equal. cbn. lia.
Qed.

Lemma group_of_spec n out l k : length out = length l → Forall (λ e, (key e < n)%nat) l → (k < n)%nat →
  group_of (counting_sort n out l) k = with_key k l.
Proof.
  intros Hlen Hn Hk. destruct (counting_sort_placed n out l Hlen Hn) as (H1 & H2 & H3).
  set (s := counting_sort n out l) in *. unfold group_of.
  assert (Hend : default 0%nat (s.2 !! k) = below (Datatypes.S k) l) by (rewrite H2, below_S by done; done).
  assert (Hstart : match k with 0%nat => 0%nat | Datatypes.S k => default 0%nat (s.2 !! k) end = below k l).
  { destruct k as [|k]; [|by rewrite H2, below_S by lia].
    by rewrite below_0. }
  rewrite Hend, Hstart. apply list_eq_same_length with (n := length (with_key k l)); [done| |].
  - rewrite length_slice; [|rewrite H1, <- (below_all n l Hn); apply below_mono; lia]. rewrite below_S. lia.
  - intros i x y Hi Hx Hy. apply H3 in Hy; [|done]. unfold slice in Hx.
    rewrite lookup_take_Some, lookup_drop in Hx. destruct Hx as [Hx _]. congruence.
Qed.

(** The start offsets with the end of the last group. *)
Lemma lookup_offsets n l k : Forall (λ e, (key e < n)%nat) l → (k ≤ n)%nat →
  starts 0 (count_keys n l ++ [0%nat]) !! k = Some (below k l).
Proof.
  intros Hn Hk.
  assert (Happ : ∀ c pos, starts pos (c ++ [0%nat]) = starts pos c ++ [(pos + sum_list c)%nat]).
  { induction c as [|x c IH]; intros pos; cbn; [by rewrite Nat.add_0_r|]. rewrite IH. do 3 f_equal. unfold id. lia. }
  rewrite Happ. destruct (decide (k < n)%nat) as [Hlt|Hge].
  - rewrite lookup_app_l by (by rewrite length_starts, length_count_keys). by apply lookup_starts.
  - replace k with n by lia. rewrite lookup_app_r, length_starts, length_count_keys, Nat.sub_diag
      by (by rewrite length_starts, length_count_keys). cbn. f_equal.
    assert (Hsum : ∀ c : list nat, length c = n → (∀ i, (i < n)%nat → c !! i = Some (length (with_key i l))) →
      ∀ j, (j ≤ n)%nat → sum_list (take j c) = below j l).
    { intros c Hc Hl j. induction j as [|j IH]; intros Hj; [by rewrite take_0, below_0|].
      rewrite (take_S_r _ _ (length (with_key j l))) by (apply Hl; lia).
      rewrite sum_list_with_app, IH, below_S by lia. cbn. unfold id. lia. }
    specialize (Hsum (count_keys n l) (length_count_keys n l)).
    rewrite <- Hsum with (j := n); [|by intros; apply lookup_count_keys|done].
    by rewrite take_ge by (by rewrite length_count_keys).
Qed.

(** Neighbouring groups together. *)
Lemma sorted_slice n out l a b : length out = length l → Forall (λ e, (key e < n)%nat) l → (a ≤ b)%nat → (b ≤ n)%nat →
  slice (below a l) (below b l) (counting_sort n out l).1 ≡ₚ filter (λ e, (a ≤ key e < b)%nat) l.
Proof.
  intros Hlen Hn Hab. induction Hab as [|b Hab IH]; intros Hb.
  - unfold slice. rewrite Nat.sub_diag, take_0. rewrite list_filter_none; [done|]. intros; lia.
  - specialize (IH ltac:(lia)). pose proof (group_of_spec n out l b Hlen Hn ltac:(lia)) as Hg.
    destruct (counting_sort_placed n out l Hlen Hn) as (_ & Hends & _).
    assert (Hgroup : slice (below b l) (below (Datatypes.S b) l) (counting_sort n out l).1 = with_key b l).
    { rewrite <- Hg. unfold group_of. f_equal; [destruct b as [|b]; [by rewrite below_0|]|].
      - rewrite Hends by lia. by rewrite below_S.
      - rewrite Hends by lia. by rewrite below_S. }
    assert (Hsplit : slice (below a l) (below (Datatypes.S b) l) (counting_sort n out l).1 =
      slice (below a l) (below b l) (counting_sort n out l).1 ++
      slice (below b l) (below (Datatypes.S b) l) (counting_sort n out l).1).
    { unfold slice. pose proof (below_mono a b l Hab). pose proof (below_mono b (Datatypes.S b) l ltac:(lia)).
      replace (below b l) with (below a l + (below b l - below a l))%nat at 3 by lia. rewrite <- drop_drop.
      rewrite take_take_drop. f_equal. lia. }
    rewrite Hsplit, Hgroup, IH. clear - Hab. unfold with_key. induction l as [|e l IH]; [done|]. rewrite !filter_cons.
    destruct (decide (key e = b)) as [<-|Hne].
    + rewrite decide_False, decide_True by lia. rewrite <- IH. by rewrite Permutation_middle.
    + repeat case_decide; try lia; [|done]. cbn. by rewrite IH.
Qed.
End CountingSort.
