(* ===== verification/Ordered.v ===== *)
(** * The least number with a property, and ascending lists

    Facts about reporting the first of something, shared by the two duplicate checks
    of a block. *)

From Stdlib Require Export Sorting.Sorted.
From stdpp Require Import list.
From S2P Require Import Prelude.

(** [d] is the least number with the property, if there is one. *)
Definition least (P : Z → Prop) (d : option Z) : Prop :=
  match d with
  | Some d => P d ∧ ∀ i, P i → d ≤ i
  | None => ∀ i, ¬ P i
  end.

Lemma least_unique P d1 d2 : least P d1 → least P d2 → d1 = d2.
Proof.
  destruct d1 as [d1|], d2 as [d2|]; cbn; [|by intros [Hd _] Hn; destruct (Hn d1)|by intros Hn [Hd _]; destruct (Hn d2)|done].
  intros [H1 H1'] [H2 H2']. f_equal. apply Z.le_antisymm; auto.
Qed.

Lemma least_iff (P Q : Z → Prop) d : (∀ i, P i ↔ Q i) → least P d → least Q d.
Proof. intros Hiff. destruct d as [d|]; cbn; [|by setoid_rewrite <- Hiff]. intros [H1 H2]. split; [by apply Hiff|]. intros i ?%Hiff. auto. Qed.

Lemma least_or P Q d1 d2 : least P d1 → least Q d2 →
  least (λ i, P i ∨ Q i) (match d1, d2 with
    | Some d1, Some d2 => Some (if d1 <? d2 then d1 else d2)
    | Some d1, None => Some d1
    | None, _ => d2 end).
Proof.
  destruct d1 as [d1|], d2 as [d2|]; cbn.
  - intros [H1 H1'] [H2 H2']. destruct (Z.ltb_spec d1 d2); (split; [by (left + right)|]); intros i [Hi|Hi];
      specialize (H1' i); specialize (H2' i); [auto|specialize (H2' Hi); lia|specialize (H1' Hi); lia|auto].
  - intros [H1 H1'] H2. split; [by left|]. intros i [Hi|Hi]; [auto|by destruct (H2 i)].
  - intros H1 [H2 H2']. split; [by right|]. intros i [Hi|Hi]; [by destruct (H1 i)|auto].
  - intros H1 H2 i [Hi|Hi]; [by apply (H1 i)|by apply (H2 i)].
Qed.

(** ** Ascending lists *)
Lemma ascending_snoc l (i : Z) : StronglySorted Z.lt (l ++ [i]) → StronglySorted Z.lt l ∧ ∀ j, j ∈ l → j < i.
Proof.
  induction l as [|x l IH]; cbn; [split; [constructor|]; intros j Hj; by apply elem_of_nil in Hj|].
  intros [Hs Hx]%StronglySorted_inv. destruct (IH Hs) as [H1 H2]. apply Forall_app in Hx as [Hx [Hxi _]%Forall_cons].
  split; [by constructor|]. intros j [->|Hj]%elem_of_cons; auto.
Qed.

Lemma seqZ_ascending a n : StronglySorted Z.lt (seqZ a n).
Proof.
  destruct (Z.le_gt_cases n 0) as [Hn|Hn]; [rewrite seqZ_nil by lia; constructor|].
  rewrite <- (Z2Nat.id n) by lia. generalize (Z.to_nat n). clear. intros n. revert a.
  induction n as [|n IH]; intros a; [constructor|]. rewrite Nat2Z.inj_succ, seqZ_cons by lia. constructor.
  - rewrite Z.pred_succ. apply IH.
  - apply Forall_forall. intros x Hx%elem_of_seqZ. lia.
Qed.

Lemma filter_ascending (P : Z → Prop) `{∀ x, Decision (P x)} l : StronglySorted Z.lt l → StronglySorted Z.lt (filter P l).
Proof.
  induction 1 as [|x l Hl IH Hx]; [constructor|]. rewrite filter_cons. case_decide; [|done]. constructor; [done|].
  apply Forall_forall. intros y [_ Hy]%list_elem_of_filter. by apply (proj1 (Forall_forall _ _) Hx).
Qed.
