(* ===== verification/NodeIndex.v ===== *)
(** * The in-memory index of a block's transactions

    model/block_node_index.go, [nodeIndex]: a sharded open-addressing table that
    stores no hashes, only 16-bit fingerprints and 32-bit indexes into the node arrays
    of the block, which are read through [hashAt].  The locks of the shards make each
    operation on a shard one step; the prefetching loads of [putGroup] and [getBatch]
    answer nothing and are left out, as is the padding. *)

From stdpp Require Import list.
From S2P Require Import Prelude CountingSort.

Definition nodeBucketSlots : nat := 10.

(** [fps[slot]] and [idxs[slot]]; fingerprint 0 is a free slot. *)
Record slot := mkSlot { sl_fp : Z; sl_idx : Z }.
#[export] Instance slot_inhabited : Inhabited slot := populate (mkSlot 0 0).
Notation nodeBucket := (list slot).
Definition empty_bucket : nodeBucket := replicate nodeBucketSlots (mkSlot 0 0).

Record nodeShard := mkShard { buckets : list nodeBucket; sh_n : nat }.

Record nodeIndex := mkIndex { shards : list nodeShard; shardMask : Z; frozen : bool }.

(** [(entries*10 + 59) / 60], at least one. *)
Definition numNodeBuckets (entries : nat) : nat :=
  Nat.max 1 ((entries * 10 + nodeBucketSlots * 6 - 1) / (nodeBucketSlots * 6)).

Definition maxNodeShards : nat := 8192.

(** Thirteen doublings reach [maxNodeShards]. *)
Fixpoint double_shards (fuel numShards capacity : nat) : nat :=
  match fuel with
  | O => numShards
  | S fuel =>
      if (numShards <? maxNodeShards)%nat && (numShards * 2048 <? capacity)%nat
      then double_shards fuel (numShards * 2) capacity else numShards
  end.

(** The square root of a float64 is exact below 2^52, and [capacity] is at most
    [math.MaxInt32]. *)
Definition newNodeIndex (capacity : nat) : nodeIndex :=
  let numShards := double_shards 13 1 capacity in
  let mean := (capacity / numShards)%nat in
  let perShard := (mean + 6 * Nat.sqrt mean + 8)%nat in
  mkIndex (replicate numShards (mkShard (replicate (numNodeBuckets perShard) empty_bucket) 0))
    (Z.of_nat numShards - 1) false.

(** The home bucket is the high word of [h * len(s.buckets)]. *)
Definition home (h : Z) (nb : nat) : nat := Z.to_nat (h * Z.of_nat nb / 2^64).

Definition fingerprint (h : Z) : Z := if u16 h =? 0 then 1 else u16 h.

Definition shardIndex (mask h : Z) : nat := Z.to_nat (Z.land (Z.shiftr h 16) mask).

Section Index.
  Context (hashAt : Z → Hash) (hash : Hash → Z).

(** ** One shard *)
Inductive finding :=
  | Found (b slot : nat)
  | FirstFree (b slot : nat)
  | ShardFull.          (* panics *)

Fixpoint scan_bucket (bk : nodeBucket) (fp : Z) (k : Hash) (n : nat) : option (bool * nat) :=
  match bk with
  | [] => None
  | s :: bk =>
      if sl_fp s =? 0 then Some (false, n)
      else if (sl_fp s =? fp) && bool_decide (hashAt (sl_idx s) = k) then Some (true, n)
      else scan_bucket bk fp k (S n)
  end.

Definition next_bucket (b nb : nat) : nat := if (S b =? nb)%nat then 0%nat else S b.

Fixpoint find_from (rounds : nat) (bs : list nodeBucket) (fp : Z) (k : Hash) (b : nat) : finding :=
  match rounds with
  | O => ShardFull
  | S rounds =>
      match scan_bucket (bs !!! b) fp k 0 with
      | Some (true, slot) => Found b slot
      | Some (false, slot) => FirstFree b slot
      | None => find_from rounds bs fp k (next_bucket b (length bs))
      end
  end.

Definition find (s : nodeShard) (k : Hash) (h : Z) : finding :=
  let nb := length (buckets s) in
  find_from nb (buckets s) (fingerprint h) k (home h nb).

Definition write_slot (bs : list nodeBucket) (b n : nat) (x : slot) : list nodeBucket :=
  alter (λ bk, <[n := x]> bk) b bs.

Fixpoint free_slot (bk : nodeBucket) (n : nat) : option nat :=
  match bk with
  | [] => None
  | s :: bk => if sl_fp s =? 0 then Some n else free_slot bk (S n)
  end.

(** The loop of [grow] that looks for a free slot; it has no bound of its own, and
    [rounds] is one for each bucket. *)
Fixpoint place_from (rounds : nat) (bs : list nodeBucket) (x : slot) (b : nat) : option (list nodeBucket) :=
  match rounds with
  | O => None
  | S rounds =>
      match free_slot (bs !!! b) 0 with
      | Some n => Some (write_slot bs b n x)
      | None => place_from rounds bs x (next_bucket b (length bs))
      end
  end.

(** The entries of a bucket up to its first free slot. *)
Fixpoint taken (bk : nodeBucket) : list slot :=
  match bk with
  | [] => []
  | s :: bk => if sl_fp s =? 0 then [] else s :: taken bk
  end.

Definition rehash (bs : option (list nodeBucket)) (x : slot) : option (list nodeBucket) :=
  bs ≫= λ bs,
    let h := hash (hashAt (sl_idx x)) in
    place_from (length bs) bs (mkSlot (fingerprint h) (sl_idx x)) (home h (length bs)).

(** [None] is an endless loop. *)
Definition grow (s : nodeShard) : option nodeShard :=
  let old := buckets s in
  bs ← foldl rehash (Some (replicate (2 * length old) empty_bucket)) (old ≫= taken);
  Some (mkShard bs (sh_n s)).

(** [None] is a panic or an endless loop; otherwise whether the hash was added. *)
Definition insert_key (s : nodeShard) (k : Hash) (h idx : Z) : option (bool * nodeShard) :=
  match find s k h with
  | Found _ _ => Some (false, s)
  | ShardFull => None
  | FirstFree b slot =>
      '(s, b, slot) ← (if (length (buckets s) * (nodeBucketSlots - 1) <? sh_n s + 1)%nat
                       then s ← grow s;
                            match find s k h with
                            | Found b slot | FirstFree b slot => Some (s, b, slot)
                            | ShardFull => None
                            end
                       else Some (s, b, slot));
      Some (true, mkShard (write_slot (buckets s) b slot (mkSlot (fingerprint h) idx)) (S (sh_n s)))
  end.

(** ** The index *)
Definition Put (x : nodeIndex) (k : Hash) (idx : Z) : option (result unit * nodeIndex) :=
  if frozen x then Some (Err (err ERR_PROCESSING), x)
  else
    let h := hash k in
    let i := shardIndex (shardMask x) h in
    s ← shards x !! i;
    '(added, s) ← insert_key s k h idx;
    Some (if added : bool then Ok tt else Err (err ERR_TX_EXISTS),
          mkIndex (<[i := s]> (shards x)) (shardMask x) (frozen x)).

Definition Get (x : nodeIndex) (k : Hash) : option (option Z) :=
  let h := hash k in
  s ← shards x !! shardIndex (shardMask x) h;
  match find s k h with
  | Found b slot => Some (Some (sl_idx ((buckets s !!! b) !!! slot)))
  | FirstFree _ _ => Some None
  | ShardFull => None
  end.

Definition Freeze (x : nodeIndex) : nodeIndex := mkIndex (shards x) (shardMask x) true.

Definition Length (x : nodeIndex) : nat := sum_list (sh_n <$> shards x).

(** The answers come in the order of the questions; on a frozen index the lookups
    themselves are those of [Get]. *)
Definition getBatch (x : nodeIndex) (ks : list Hash) : option (list (option Z)) := mapM (Get x) ks.

(** *** A range of indexes *)
Record nodePut := mkPut { np_h : Z; np_idx : Z }.

Definition putRangeChunk : nat := 2^18.

Fixpoint putEach (x : nodeIndex) (idxs : list Z) : option (result unit * Z * nodeIndex) :=
  match idxs with
  | [] => Some (Ok tt, 0, x)
  | idx :: idxs =>
      '(r, x) ← Put x (hashAt idx) idx;
      match r with
      | Ok _ => putEach x idxs
      | Err e => Some (Err e, idx, x)
      end
  end.

(** The entries of one shard in order; the first that was there already. *)
Definition put_one (acc : option (nodeShard * option Z)) (e : nodePut) : option (nodeShard * option Z) :=
  '(s, dup) ← acc;
  '(added, s) ← insert_key s (hashAt (np_idx e)) (np_h e) (np_idx e);
  Some (s, if negb added && bool_decide (dup = None) then Some (np_idx e) else dup).

Definition putGroup (s : nodeShard) (group : list nodePut) : option (nodeShard * option Z) :=
  foldl put_one (Some (s, None)) group.

Definition put_shard (sorted : list nodePut * list nat)
    (acc : option (nodeIndex * option Z)) (i : nat) : option (nodeIndex * option Z) :=
  '(x, dup) ← acc;
  let group := group_of sorted i in
  if bool_decide (group = []) then Some (x, dup)
  else
    s ← shards x !! i;
    '(s, d) ← putGroup s group;
    Some (mkIndex (<[i := s]> (shards x)) (shardMask x) (frozen x),
          match d, dup with
          | Some d, Some dup => Some (if d <? dup then d else dup)
          | Some d, None => Some d
          | None, _ => dup
          end).

(** [scratch] is what the pool left in the output array. *)
Definition putChunk (x : nodeIndex) (scratch : list nodePut) (lo : Z) (n : nat)
  : option (nodeIndex * option Z) :=
  let shard_of e := shardIndex (shardMask x) (np_h e) in
  let numShards := length (shards x) in
  let in_ := map (λ idx, mkPut (hash (hashAt idx)) idx) (map u32 (seqZ lo (Z.of_nat n))) in
  let out := take n (scratch ++ replicate n (mkPut 0 0)) in
  let sorted := counting_sort shard_of numShards out in_ in
  let first := default 0%nat (shard_of <$> head in_) in
  foldl (put_shard sorted) (Some (x, None))
    (map (λ k, Z.to_nat (Z.land (Z.of_nat (first + k)) (shardMask x))) (seq 0 numShards)).

Fixpoint put_chunks (fuel : nat) (x : nodeIndex) (scratch : list nodePut) (lo : Z) (n : nat)
  : option (result unit * Z * nodeIndex) :=
  match n, fuel with
  | O, _ => Some (Ok tt, 0, x)
  | _, O => None
  | _, S fuel =>
      '(x, dup) ← putChunk x scratch lo (Nat.min putRangeChunk n);
      match dup with
      | Some d => Some (Err (err ERR_TX_EXISTS), d, x)
      | None => put_chunks fuel x scratch (u32 (lo + Z.of_nat putRangeChunk)) (n - putRangeChunk)
      end
  end.

(** The result, and the index it failed at. *)
Definition putRange (x : nodeIndex) (scratch : list nodePut) (lo : Z) (n : nat)
  : option (result unit * Z * nodeIndex) :=
  if frozen x then Some (Err (err ERR_PROCESSING), 0, x)
  else if (n <=? 0)%nat then Some (Ok tt, 0, x)
  else if (n <? 2 * length (shards x))%nat then putEach x (map u32 (seqZ lo (Z.of_nat n)))
  else put_chunks n x scratch lo n.
End Index.
