(* ===== verification/NodeIndexTheorems.v ===== *)
(** * The node index answers what a map would

    For any hash function into 64 bits: the table of a shard refines a finite map
    through insertion and growth, so a lookup is exact whatever fingerprints collide,
    the panic of [find] and the endless loop of [grow] are out of reach, and a range
    of puts reports its first duplicate. *)

From stdpp Require Import list.
From S2P Require Import Prelude CountingSort Ordered NodeIndex.

(** ** Buckets as one row of slots *)
Section Rows.
Definition wide (bs : list nodeBucket) : Prop := Forall (λ bk, length bk = nodeBucketSlots) bs.

Abbreviation row := (@concat slot).

Lemma length_row bs : wide bs → length (row bs) = (10 * length bs)%nat.
Proof.
  induction 1 as [|bk bs Hbk _ IH]; [done|]. cbn [concat]. rewrite length_app, Hbk, IH.
  unfold nodeBucketSlots. cbn [length]. lia.
Qed.

Lemma row_lookup bs b bk n : wide bs → bs !! b = Some bk → (n < 10)%nat → row bs !! (10 * b + n)%nat = bk !! n.
Proof.
  intros Hw. revert b. induction Hw as [|bk0 bs Hbk Hw IH]; intros b Hb Hn; [done|]. unfold nodeBucketSlots in Hbk.
  cbn [concat]. destruct b as [|b].
  - injection Hb as ->. by rewrite lookup_app_l by lia.
  - rewrite lookup_app_r by lia. replace (10 * S b + n - length bk0)%nat with (10 * b + n)%nat by lia. by apply IH.
Qed.

Lemma row_total bs b n : wide bs → (b < length bs)%nat → (n < 10)%nat → row bs !!! (10 * b + n)%nat = (bs !!! b) !!! n.
Proof.
  intros Hw Hb Hn. destruct (lookup_lt_is_Some_2 bs b Hb) as [bk Hbk].
  rewrite (list_lookup_total_correct _ _ _ Hbk). apply list_lookup_total_correct. rewrite (row_lookup _ _ bk) by done.
  apply list_lookup_lookup_total_lt. by rewrite (Forall_lookup_1 _ _ _ _ Hw Hbk).
Qed.

Lemma wide_write bs b n x : wide bs → wide (write_slot bs b n x).
Proof.
  intros Hw. apply Forall_lookup. intros i bk. unfold write_slot. rewrite list_lookup_alter. case_decide as Hi.
  - subst i. intros (bk0 & E & ->)%fmap_Some. rewrite length_insert.
    by apply (Forall_lookup_1 _ _ _ _ Hw E).
  - intros Hbk. by apply (Forall_lookup_1 _ _ _ _ Hw Hbk).
Qed.

Lemma row_write bs b n x : wide bs → (b < length bs)%nat → (n < 10)%nat →
  row (write_slot bs b n x) = <[(10 * b + n)%nat := x]> (row bs).
Proof.
  intros Hw. revert b. induction Hw as [|bk0 bs Hbk Hw IH]; intros b Hb Hn; [cbn in Hb; lia|].
  unfold nodeBucketSlots in Hbk. destruct b as [|b]; cbn [write_slot alter list_alter concat].
  - by rewrite insert_app_l by lia.
  - rewrite insert_app_r_alt by lia. f_equal. unfold write_slot in IH. rewrite IH by (cbn in Hb; lia).
    f_equal. lia.
Qed.

Lemma length_write bs b n x : length (write_slot bs b n x) = length bs.
Proof. apply length_alter. Qed.

Lemma wide_empty n : wide (replicate n empty_bucket).
Proof. by apply Forall_replicate. Qed.

(** *** The probe that [find] and [grow] share: the first slot that stops it *)
Fixpoint scan (stop : slot → bool) (bk : nodeBucket) (n : nat) : option nat :=
  match bk with
  | [] => None
  | s :: bk => if stop s then Some n else scan stop bk (S n)
  end.

Fixpoint probe (stop : slot → bool) (rounds : nat) (bs : list nodeBucket) (b : nat) : option (nat * nat) :=
  match rounds with
  | O => None
  | S rounds =>
      match scan stop (bs !!! b) 0 with
      | Some n => Some (b, n)
      | None => probe stop rounds bs (next_bucket b (length bs))
      end
  end.

Lemma scan_spec stop bk n0 :
  match scan stop bk n0 with
  | Some n => (n0 ≤ n < n0 + length bk)%nat ∧ stop (bk !!! (n - n0)%nat) = true ∧
              ∀ i, (i < n - n0)%nat → stop (bk !!! i) = false
  | None => ∀ i, (i < length bk)%nat → stop (bk !!! i) = false
  end.
Proof.
  revert n0. induction bk as [|s bk IH]; intros n0; cbn [scan]; [by intros i; cbn; lia|].
  destruct (stop s) eqn:Es.
  { rewrite Nat.sub_diag. cbn. split_and!; [lia|lia|done|lia]. }
  specialize (IH (S n0)). destruct (scan stop bk (S n0)) as [n|].
  - destruct IH as (Hn & Hs & Hl). split_and!; [cbn; lia|cbn; lia| |].
    + replace (n - n0)%nat with (S (n - S n0)) by lia. exact Hs.
    + intros [|i] Hi; [exact Es|]. apply (Hl i). lia.
  - intros [|i] Hi; [exact Es|]. apply (IH i). cbn in Hi. lia.
Qed.

Lemma next_bucket_lt b nb : (b < nb)%nat → (next_bucket b nb < nb)%nat.
Proof. unfold next_bucket. destruct (Nat.eqb_spec (S b) nb); lia. Qed.

Lemma next_bucket_mod b nb d : (b < nb)%nat → (10 ≤ d)%nat →
  ((10 * b + d) mod (10 * nb) = (10 * next_bucket b nb + (d - 10)) mod (10 * nb))%nat.
Proof.
  intros Hb Hd. unfold next_bucket. destruct (Nat.eqb_spec (S b) nb) as [<-|Hne].
  - replace (10 * b + d)%nat with ((d - 10) + 1 * (10 * S b))%nat by lia. rewrite Nat.Div0.mod_add. f_equal; lia.
  - f_equal. lia.
Qed.

(** The positions from a bucket on, around the row. *)
Definition around (nb b d : nat) : nat := ((10 * b + d) mod (10 * nb))%nat.

Lemma around_lt nb b d : (0 < nb)%nat → (around nb b d < 10 * nb)%nat.
Proof. intros. apply Nat.mod_upper_bound. lia. Qed.

Lemma around_inj nb b d d' : (d < 10 * nb)%nat → (d' < 10 * nb)%nat → around nb b d = around nb b d' → d = d'.
Proof.
  unfold around. intros H1 H2 H. pose proof (Nat.div_mod_eq (10 * b + d) (10 * nb)).
  pose proof (Nat.div_mod_eq (10 * b + d') (10 * nb)).
  set (q := ((10 * b + d) / (10 * nb))%nat) in *. set (q' := ((10 * b + d') / (10 * nb))%nat) in *.
  set (N := (10 * nb)%nat) in *. destruct (Nat.lt_trichotomy q q') as [?|[?|?]]; nia.
Qed.

Lemma around_hits nb b j : (b < nb)%nat → (j < 10 * nb)%nat → ∃ d, (d < 10 * nb)%nat ∧ j = around nb b d.
Proof.
  intros Hb Hj. unfold around. destruct (decide (10 * b ≤ j)%nat).
  - exists (j - 10 * b)%nat. split; [lia|]. rewrite Nat.mod_small; lia.
  - exists (j + 10 * nb - 10 * b)%nat. split; [lia|].
    replace (10 * b + (j + 10 * nb - 10 * b))%nat with (j + 1 * (10 * nb))%nat by lia.
    by rewrite Nat.Div0.mod_add, Nat.mod_small.
Qed.

Lemma probe_spec stop rounds bs b : wide bs → (b < length bs)%nat →
  match probe stop rounds bs b with
  | Some (b', n) => (b' < length bs)%nat ∧ (n < 10)%nat ∧ ∃ d, (d < 10 * rounds)%nat ∧
      (10 * b' + n)%nat = around (length bs) b d ∧ stop ((bs !!! b') !!! n) = true ∧
      ∀ d', (d' < d)%nat → stop (row bs !!! around (length bs) b d') = false
  | None => ∀ d, (d < 10 * rounds)%nat → stop (row bs !!! around (length bs) b d) = false
  end.
Proof.
  intros Hw. revert b. induction rounds as [|rounds IH]; intros b Hb; cbn [probe]; [intros d; lia|].
  assert (Hlen : length (bs !!! b) = 10%nat).
  { destruct (lookup_lt_is_Some_2 bs b Hb) as [bk Hbk]. rewrite (list_lookup_total_correct _ _ _ Hbk).
    apply (Forall_lookup_1 _ _ _ _ Hw Hbk). }
  assert (Hhere : ∀ d, (d < 10)%nat → row bs !!! around (length bs) b d = (bs !!! b) !!! d).
  { intros d Hd. unfold around. rewrite Nat.mod_small by lia. by apply row_total. }
  pose proof (scan_spec stop (bs !!! b) 0) as Hscan. destruct (scan stop (bs !!! b) 0) as [n|].
  - destruct Hscan as (Hn & Hs & Hl). rewrite Nat.sub_0_r in *. split_and!; [done|lia|].
    exists n. split_and!; [lia| |done|].
    + unfold around. rewrite Nat.mod_small; lia.
    + intros d' Hd'. rewrite Hhere by lia. by apply Hl.
  - assert (Hskip : ∀ d, (d < 10)%nat → stop (row bs !!! around (length bs) b d) = false)
      by (intros d Hd; rewrite Hhere by done; apply Hscan; lia).
    assert (Hnext : ∀ d, (10 ≤ d)%nat → around (length bs) b d = around (length bs) (next_bucket b (length bs)) (d - 10))
      by (intros d Hd; unfold around; by apply next_bucket_mod).
    specialize (IH _ (next_bucket_lt _ _ Hb)). destruct (probe stop rounds bs _) as [[b' n]|].
    + destruct IH as (Hb' & Hn & d & Hd & Heq & Hs & Hl). split_and!; [done|done|].
      exists (d + 10)%nat. split_and!; [lia| |done|].
      * rewrite Hnext by lia. by rewrite Nat.add_sub.
      * intros d' Hd'. destruct (decide (d' < 10)%nat); [auto|]. rewrite Hnext by lia. apply Hl. lia.
    + intros d Hd. destruct (decide (d < 10)%nat); [auto|]. rewrite Hnext by lia. apply IH. lia.
Qed.
End Rows.

Notation row := (@concat slot).

(** ** The table of one shard *)
Section Shard.
  Context (hashAt : Z → Hash) (hash : Hash → Z).
  Hypothesis hash_u64 : ∀ k, is_u64 (hash k).

Definition occupied (L : list slot) (j : nat) : Prop := sl_fp (L !!! j) ≠ 0.
Definition home_of (nb : nat) (k : Hash) : nat := home (hash k) nb.

Lemma fingerprint_nonzero h : fingerprint h ≠ 0.
Proof. unfold fingerprint. destruct (Z.eqb_spec (u16 h) 0); lia. Qed.

Lemma home_lt nb k : (0 < nb)%nat → (home_of nb k < nb)%nat.
Proof.
  intros Hnb. unfold home_of, home. pose proof (hash_u64 k).
  apply Nat2Z.inj_lt. rewrite Z2Nat.id by (apply Z.div_pos; nia). apply Z.div_lt_upper_bound; nia.
Qed.

(** The slots are the map: every entry sits where a search from its home finds it,
    behind occupied slots only. *)
Record table_ok (L : list slot) (nb : nat) (m : gmap Hash Z) : Prop := {
  tk_len : length L = (10 * nb)%nat;
  tk_entry j : (j < 10 * nb)%nat → occupied L j →
    m !! hashAt (sl_idx (L !!! j)) = Some (sl_idx (L !!! j)) ∧
    sl_fp (L !!! j) = fingerprint (hash (hashAt (sl_idx (L !!! j))));
  tk_reach j : (j < 10 * nb)%nat → occupied L j → ∃ d, (d < 10 * nb)%nat ∧
    j = around nb (home_of nb (hashAt (sl_idx (L !!! j)))) d ∧
    ∀ d', (d' < d)%nat → occupied L (around nb (home_of nb (hashAt (sl_idx (L !!! j)))) d');
  tk_key k i : m !! k = Some i → hashAt i = k ∧ ∃ j, (j < 10 * nb)%nat ∧ occupied L j ∧ sl_idx (L !!! j) = i;
  tk_one j1 j2 : (j1 < 10 * nb)%nat → (j2 < 10 * nb)%nat → occupied L j1 → occupied L j2 →
    sl_idx (L !!! j1) = sl_idx (L !!! j2) → j1 = j2;
  tk_count : length (filter (λ e, sl_fp e ≠ 0) L) = size m;
}.

Lemma total_insert (L : list slot) j x i : (j < length L)%nat →
  <[j := x]> L !!! i = if decide (j = i) then x else L !!! i.
Proof.
  intros Hj. destruct (decide (j = i)) as [<-|Hne].
  - by apply list_lookup_total_insert_eq.
  - by apply list_lookup_total_insert_ne.
Qed.

Lemma free_exists L nb m : table_ok L nb m → (size m < 10 * nb)%nat → ∃ j, (j < 10 * nb)%nat ∧ ¬ occupied L j.
Proof.
  intros Ht Hlt. rewrite <- (tk_count _ _ _ Ht) in Hlt. rewrite <- (tk_len _ _ _ Ht) in *. clear Ht.
  induction L as [|e L IH]; [cbn in Hlt; lia|]. rewrite filter_cons in Hlt.
  destruct (decide (sl_fp e ≠ 0)) as [He|He].
  - cbn [length] in Hlt. destruct IH as (j & Hj & Hf); [lia|]. exists (S j). split; [cbn; lia|done].
  - exists 0%nat. split; [cbn; lia|]. unfold occupied. cbn. tauto.
Qed.

Lemma filter_insert_free L j x : (j < length L)%nat → ¬ occupied L j → sl_fp x ≠ 0 →
  length (filter (λ e, sl_fp e ≠ 0) (<[j := x]> L)) = S (length (filter (λ e, sl_fp e ≠ 0) L)).
Proof.
  revert j. induction L as [|e L IH]; intros j Hj Hf Hx; [cbn in Hj; lia|]. destruct j as [|j].
  - unfold occupied in Hf. cbn in Hf. cbn [insert list_insert]. rewrite !filter_cons.
    rewrite decide_True, decide_False by tauto. done.
  - cbn [insert list_insert]. rewrite !filter_cons. cbn in Hj.
    assert (Hf' : ¬ occupied L j) by exact Hf. case_decide; cbn [length]; by rewrite IH by (done || lia).
Qed.

Lemma table_empty nb : table_ok (concat (replicate nb empty_bucket)) nb ∅.
Proof.
  set (L := concat _). assert (HL : ∀ j, ¬ occupied L j).
  { intros j Hj. unfold occupied in Hj. destruct (L !! j) as [e|] eqn:E.
    - rewrite (list_lookup_total_correct _ _ _ E) in Hj. apply list_elem_of_lookup_2 in E.
      unfold L in E. apply list_elem_of_In, in_concat in E as (bk & Hbk & He).
      apply list_elem_of_In, elem_of_replicate in Hbk as [-> _].
      apply list_elem_of_In, elem_of_replicate in He as [-> _]. done.
    - rewrite list_lookup_total_alt, E in Hj. done. }
  split.
  - unfold L. rewrite length_row by apply wide_empty. by rewrite length_replicate.
  - intros j _ Hj. by destruct (HL j).
  - intros j _ Hj. by destruct (HL j).
  - intros k i. by rewrite lookup_empty.
  - intros j1 j2 _ _ Hj. by destruct (HL j1).
  - rewrite map_size_empty. rewrite list_filter_none; [done|]. intros x Hx.
    apply list_elem_of_lookup in Hx as [j Hj]. specialize (HL j). unfold occupied in HL.
    by rewrite (list_lookup_total_correct _ _ _ Hj) in HL.
Qed.

Lemma table_insert L nb m i d : table_ok L nb m → (0 < nb)%nat → m !! hashAt i = None →
  let j := around nb (home_of nb (hashAt i)) d in
  (d < 10 * nb)%nat → ¬ occupied L j →
  (∀ d', (d' < d)%nat → occupied L (around nb (home_of nb (hashAt i)) d')) →
  table_ok (<[j := mkSlot (fingerprint (hash (hashAt i))) i]> L) nb (<[hashAt i := i]> m).
Proof.
  intros Ht Hnb Hm j Hd Hfree Hpre. assert (Hj : (j < 10 * nb)%nat) by (by apply around_lt).
  assert (Hjl : (j < length L)%nat) by (by rewrite (tk_len _ _ _ Ht)).
  set (x := mkSlot _ _). assert (Hx : sl_fp x ≠ 0) by apply fingerprint_nonzero.
  assert (Hgrow : ∀ j', occupied L j' → occupied (<[j := x]> L) j').
  { intros j' Ho. unfold occupied. rewrite total_insert by done. by case_decide. }
  assert (Hkey : ∀ j', (j' < 10 * nb)%nat → occupied L j' → hashAt (sl_idx (L !!! j')) ≠ hashAt i).
  { intros j' Hj' Ho Heq. destruct (tk_entry _ _ _ Ht j' Hj' Ho) as [H _]. rewrite Heq in H. congruence. }
  split.
  - by rewrite length_insert, (tk_len _ _ _ Ht).
  - intros j' Hj'. unfold occupied. rewrite total_insert by done. case_decide as Hjj; intros Ho.
    + split; [apply lookup_insert_eq|done].
    + rewrite lookup_insert_ne by (apply not_eq_sym; auto). by apply (tk_entry _ _ _ Ht).
  - intros j' Hj'. unfold occupied at 1. rewrite total_insert by done. case_decide as Hjj; intros Ho.
    + subst j'. exists d. split_and!; [done|done|]. intros d' Hd'. by apply Hgrow, Hpre.
    + destruct (tk_reach _ _ _ Ht j' Hj' Ho) as (d0 & H1 & H2 & H3). exists d0. split_and!; [done|done|].
      intros d' Hd'. by apply Hgrow, H3.
  - intros k i'. rewrite lookup_insert_Some. intros [[<- <-]|[Hne Hk]].
    + split; [done|]. exists j. unfold occupied. rewrite total_insert, decide_True by done. done.
    + destruct (tk_key _ _ _ Ht k i' Hk) as [He (j' & Hj' & Ho & Hi)]. split; [done|]. exists j'.
      split_and!; [done|auto|]. rewrite total_insert by done. rewrite decide_False; [done|]. intros <-. done.
  - intros j1 j2 H1 H2. unfold occupied. rewrite !total_insert by done. repeat case_decide; intros Ho1 Ho2 Heq; subst.
    + done.
    + exfalso. apply (Hkey j2 H2 Ho2). by rewrite <- Heq.
    + exfalso. apply (Hkey j1 H1 Ho1). by rewrite Heq.
    + by apply (tk_one _ _ _ Ht).
  - rewrite filter_insert_free, (tk_count _ _ _ Ht), map_size_insert_None by done. done.
Qed.

(** *** [find] *)
Definition free (x : slot) : bool := sl_fp x =? 0.
Definition stops (k : Hash) (x : slot) : bool :=
  free x || ((sl_fp x =? fingerprint (hash k)) && bool_decide (hashAt (sl_idx x) = k)).

Lemma scan_bucket_eq k bk n :
  scan_bucket hashAt bk (fingerprint (hash k)) k n =
  (λ i, (negb (free (bk !!! (i - n)%nat)), i)) <$> scan (stops k) bk n.
Proof.
  revert n. induction bk as [|x bk IH]; intros n; [done|]. cbn [scan_bucket scan]. unfold stops at 1.
  change (sl_fp x =? 0) with (free x). destruct (free x) eqn:Hx; cbn [orb].
  { cbn [fmap option_fmap option_map]. rewrite Nat.sub_diag. change ((x :: bk) !!! 0%nat) with x. by rewrite Hx. }
  destruct (_ && _); cbn [orb].
  { cbn [fmap option_fmap option_map]. rewrite Nat.sub_diag. change ((x :: bk) !!! 0%nat) with x. by rewrite Hx. }
  rewrite IH. pose proof (scan_spec (stops k) bk (S n)) as Hs. destruct (scan _ _ _) as [i|]; [|done].
  destruct Hs as ([H1 _] & _). cbn [fmap option_fmap option_map]. by replace (i - n)%nat with (S (i - S n)) by lia.
Qed.

Lemma find_from_eq rounds bs k b :
  find_from hashAt rounds bs (fingerprint (hash k)) k b =
  match probe (stops k) rounds bs b with
  | None => ShardFull
  | Some (b, n) => if free ((bs !!! b) !!! n) then FirstFree b n else Found b n
  end.
Proof.
  revert b. induction rounds as [|rounds IH]; intros b; [done|]. cbn [find_from probe].
  rewrite scan_bucket_eq. destruct (scan _ _ _) as [n|]; cbn; [|apply IH].
  rewrite Nat.sub_0_r. by destruct (free _).
Qed.

Lemma stops_false L k j : stops k (L !!! j) = false → occupied L j.
Proof. unfold stops, free, occupied. intros [H _]%orb_false_iff. by apply Z.eqb_neq. Qed.

Lemma find_spec s k m : wide (buckets s) → table_ok (concat (buckets s)) (length (buckets s)) m →
  (size m < 10 * length (buckets s))%nat →
  match find hashAt s k (hash k) with
  | Found b n => m !! k = Some (sl_idx ((buckets s !!! b) !!! n))
  | FirstFree b n => m !! k = None ∧ (b < length (buckets s))%nat ∧ (n < 10)%nat ∧
      ∃ d, (d < 10 * length (buckets s))%nat ∧
        (10 * b + n)%nat = around (length (buckets s)) (home_of (length (buckets s)) k) d ∧
        ¬ occupied (concat (buckets s)) (10 * b + n) ∧
        ∀ d', (d' < d)%nat → occupied (concat (buckets s)) (around (length (buckets s)) (home_of (length (buckets s)) k) d')
  | ShardFull => False
  end.
Proof.
  intros Hw Ht Hlt. set (bs := buckets s) in *. set (nb := length bs) in *. set (L := concat bs) in *.
  assert (Hnb : (0 < nb)%nat) by lia. pose proof (home_lt nb k Hnb) as Hh.
  unfold find. fold bs nb. rewrite find_from_eq. fold (home_of nb k).
  pose proof (probe_spec (stops k) nb bs (home_of nb k) Hw Hh) as Hp.
  destruct (probe _ _ _ _) as [[b n]|].
  - destruct Hp as (Hb & Hn & d & Hd & Heq & Hs & Hbefore). fold nb L in Heq, Hbefore.
    assert (Hat : (bs !!! b) !!! n = L !!! (10 * b + n)%nat) by (by rewrite <- row_total).
    assert (Hj : (10 * b + n < 10 * nb)%nat) by (unfold nb; lia).
    unfold free. destruct (Z.eqb_spec (sl_fp ((bs !!! b) !!! n)) 0) as [Hfree|Hocc].
    + split_and!; [|done|done|].
      2: { exists d. split_and!; [done|done| |].
        - unfold occupied. rewrite <- Hat. intros Hne. by apply Hne.
        - intros d' Hd'. by apply (stops_false L k), Hbefore. }
      destruct (m !! k) as [i|] eqn:Em; [exfalso|done].
      destruct (tk_key _ _ _ Ht k i Em) as [Hk (j & Hj1 & Ho & Hi)].
      destruct (tk_reach _ _ _ Ht j Hj1 Ho) as (d0 & Hd0 & Hj0 & Hpre). rewrite Hi, Hk in Hj0, Hpre.
      assert (Hstop : stops k (L !!! j) = true).
      { unfold stops. apply orb_true_iff. right. destruct (tk_entry _ _ _ Ht j Hj1 Ho) as [_ ->].
        rewrite Hi, Hk, Z.eqb_refl. by apply bool_decide_eq_true. }
      destruct (Nat.lt_trichotomy d0 d) as [Hlt'|[->|Hgt]].
      * rewrite Hj0, Hbefore in Hstop by done. done.
      * rewrite <- Heq in Hj0. subst j. unfold occupied in Ho. by rewrite <- Hat in Ho.
      * specialize (Hpre d Hgt). rewrite <- Heq in Hpre. unfold occupied in Hpre. by rewrite <- Hat in Hpre.
    + assert (Ho : occupied L (10 * b + n)) by (unfold occupied; by rewrite <- Hat).
      destruct (tk_entry _ _ _ Ht _ Hj Ho) as [Hm _]. rewrite Hat. rewrite Hat in Hs. unfold stops, free in Hs.
      rewrite (proj2 (Z.eqb_neq _ _)) in Hs by (by rewrite <- Hat). cbn in Hs.
      apply andb_true_iff in Hs as [_ Hk%bool_decide_eq_true]. by rewrite <- Hk at 1.
  - destruct (free_exists L nb m Ht Hlt) as (j & Hj & Hf). apply Hf.
    destruct (around_hits nb (home_of nb k) j Hh Hj) as (d & Hd & ->). by apply (stops_false L k), Hp.
Qed.

(** *** [grow] *)
Lemma free_slot_eq bk n : free_slot bk n = scan free bk n.
Proof. revert n. induction bk as [|x bk IH]; intros n; cbn; [done|]. unfold free at 1. by rewrite IH. Qed.

Lemma place_from_eq rounds bs x b :
  place_from rounds bs x b = (λ '(b, n), write_slot bs b n x) <$> probe free rounds bs b.
Proof.
  revert b. induction rounds as [|rounds IH]; intros b; cbn; [done|].
  rewrite free_slot_eq. destruct (scan free _ 0); [done|]. apply IH.
Qed.

Lemma rehash_ok bs m i fp : wide bs → (0 < length bs)%nat → table_ok (concat bs) (length bs) m →
  (size m < 10 * length bs)%nat → m !! hashAt i = None →
  ∃ bs', rehash hashAt hash (Some bs) (mkSlot fp i) = Some bs' ∧ wide bs' ∧ length bs' = length bs ∧
    table_ok (concat bs') (length bs) (<[hashAt i := i]> m).
Proof.
  intros Hw Hnb Ht Hlt Hm. unfold rehash. cbn [mbind option_bind sl_idx]. rewrite place_from_eq.
  fold (home_of (length bs) (hashAt i)). pose proof (home_lt (length bs) (hashAt i) Hnb) as Hh.
  pose proof (probe_spec free (length bs) bs _ Hw Hh) as Hp. destruct (probe _ _ _ _) as [[b n]|].
  - destruct Hp as (Hb & Hn & d & Hd & Heq & Hs & Hbefore). cbn. eexists. split; [done|].
    split_and!; [by apply wide_write|apply length_write|]. rewrite row_write by done. rewrite Heq.
    apply table_insert; [done|done|done|done| |].
    + rewrite <- Heq. unfold occupied. rewrite row_total by done. unfold free in Hs.
      apply Z.eqb_eq in Hs. intros H. by apply H.
    + intros d' Hd'. unfold occupied. apply Z.eqb_neq. by apply Hbefore.
  - destruct (free_exists _ _ _ Ht Hlt) as (j & Hj & Hf). exfalso. apply Hf.
    destruct (around_hits _ _ j Hh Hj) as (d & Hd & ->). unfold occupied. apply Z.eqb_neq. by apply Hp.
Qed.

(** The map after the entries are put one after another. *)
Definition put_all (es : list slot) (m : gmap Hash Z) : gmap Hash Z :=
  foldl (λ m e, <[hashAt (sl_idx e) := sl_idx e]> m) m es.

Lemma put_all_lookup es m k i : NoDup (hashAt ∘ sl_idx <$> es) → (∀ e, e ∈ es → m !! hashAt (sl_idx e) = None) →
  put_all es m !! k = Some i ↔ m !! k = Some i ∨ ∃ e, e ∈ es ∧ hashAt (sl_idx e) = k ∧ sl_idx e = i.
Proof.
  revert m. induction es as [|e es IH]; intros m Hnd Hm; cbn.
  { split; [auto|]. intros [?|(e & He & _)]; [done|]. by apply elem_of_nil in He. }
  apply NoDup_cons in Hnd as [He Hnd]. fold (put_all es (<[hashAt (sl_idx e):=sl_idx e]> m)). rewrite IH; [|done|].
  - rewrite lookup_insert_Some. split.
    + intros [[[<- <-]|[_ Hk]]|(e' & He' & H)]; [right; exists e; by rewrite elem_of_cons; auto|by left|].
      right. exists e'. rewrite elem_of_cons. auto.
    + intros [Hk|(e' & [->|He']%elem_of_cons & <- & <-)]; [|by left; left|by right; exists e'].
      left. right. split; [|done]. intros <-. rewrite Hm in Hk by apply elem_of_cons, or_introl, eq_refl. done.
  - intros e' He'. rewrite lookup_insert_ne; [apply Hm; by apply elem_of_cons; right|].
    intros Heq. apply He. apply list_elem_of_fmap. by exists e'.
Qed.

Lemma rehash_all es bs m : wide bs → (0 < length bs)%nat → table_ok (concat bs) (length bs) m →
  NoDup (hashAt ∘ sl_idx <$> es) → (∀ e, e ∈ es → m !! hashAt (sl_idx e) = None) →
  (size m + length es ≤ 10 * length bs)%nat →
  ∃ bs', foldl (rehash hashAt hash) (Some bs) es = Some bs' ∧ wide bs' ∧ length bs' = length bs ∧
    table_ok (concat bs') (length bs) (put_all es m).
Proof.
  revert bs m. induction es as [|[fp i] es IH]; intros bs m Hw Hnb Ht Hnd Hm Hsize; cbn [foldl].
  { by exists bs. }
  apply NoDup_cons in Hnd as [He Hnd]. assert (Hi : m !! hashAt i = None) by (apply (Hm (mkSlot fp i)), elem_of_cons; by left).
  cbn in Hsize. destruct (rehash_ok bs m i fp Hw Hnb Ht ltac:(lia) Hi) as (bs1 & -> & Hw1 & Hl1 & Ht1).
  rewrite <- Hl1 in Ht1. destruct (IH bs1 (<[hashAt i := i]> m)) as (bs2 & H1 & H2 & H3 & H4); [done|lia|done|done| | |].
  - intros e He'. rewrite lookup_insert_ne; [apply Hm; by apply elem_of_cons; right|].
    intros Heq. apply He. apply list_elem_of_fmap. by exists e.
  - rewrite map_size_insert_None by done. lia.
  - exists bs2. rewrite <- Hl1. by split_and!.
Qed.

(** The entries of a bucket come before its free slots. *)
Lemma bucket_prefix L nb m b n n' : table_ok L nb m → (b < nb)%nat → (n < n')%nat → (n' < 10)%nat →
  occupied L (10 * b + n') → occupied L (10 * b + n).
Proof.
  intros Ht Hb Hn Hn' Ho. destruct (tk_reach _ _ _ Ht (10 * b + n') ltac:(lia) Ho) as (d & Hd & Heq & Hpre).
  set (h := home_of nb _) in *. unfold around in Heq.
  pose proof (Nat.div_mod_eq (10 * h + d) (10 * nb)) as Hdiv. rewrite <- Heq in Hdiv.
  set (q := ((10 * h + d) / (10 * nb))%nat) in *.
  assert (Hd' : (n' ≤ d)%nat) by lia. specialize (Hpre (d - (n' - n))%nat ltac:(lia)). unfold around in Hpre.
  replace (10 * h + (d - (n' - n)))%nat with (10 * b + n + q * (10 * nb))%nat in Hpre by lia.
  by rewrite Nat.Div0.mod_add, Nat.mod_small in Hpre by lia.
Qed.

Abbreviation entries := (filter (λ e, sl_fp e ≠ 0)).

Lemma taken_filter bk :
  (∀ n n', (n < n')%nat → (n' < length bk)%nat → occupied bk n' → occupied bk n) → taken bk = entries bk.
Proof.
  induction bk as [|x bk IH]; intros H; [done|]. cbn [taken]. rewrite filter_cons.
  destruct (Z.eqb_spec (sl_fp x) 0) as [Hx|Hx].
  - rewrite decide_False by tauto. rewrite list_filter_none; [done|].
    intros e [i Hi]%list_elem_of_lookup He. apply (H 0%nat (S i)); [lia| | |done].
    + apply lookup_lt_Some in Hi. cbn. lia.
    + unfold occupied. change ((x :: bk) !!! S i) with (bk !!! i). by rewrite (list_lookup_total_correct _ _ _ Hi).
  - rewrite decide_True by done. f_equal. apply IH. intros n n' Hn Hn'. apply (H (S n) (S n')); cbn; lia.
Qed.

Lemma taken_all bs nb m : wide bs → nb = length bs → table_ok (concat bs) nb m → bs ≫= taken = entries (concat bs).
Proof.
  intros Hw -> Ht. assert (Hb : Forall (λ bk, taken bk = entries bk) bs).
  { apply Forall_lookup. intros b bk Hbk. pose proof (Forall_lookup_1 _ _ _ _ Hw Hbk) as Hlen. cbn in Hlen.
    unfold nodeBucketSlots in Hlen. pose proof (lookup_lt_Some _ _ _ Hbk) as Hlt.
    apply taken_filter. intros n n' Hn Hn' Ho.
    assert (Hat : ∀ i, (i < 10)%nat → bk !!! i = concat bs !!! (10 * b + i)%nat).
    { intros i Hi. rewrite row_total by done. by rewrite (list_lookup_total_correct _ _ _ Hbk). }
    unfold occupied in *. rewrite Hat in Ho by lia. rewrite Hat by lia. apply (bucket_prefix _ _ _ _ _ n' Ht); [done|done|lia|done]. }
  clear Ht Hw. induction Hb as [|bk bs Hbk _ IH]; [done|].
  cbn [concat]. rewrite filter_app, bind_cons. by rewrite Hbk, IH.
Qed.

Lemma NoDup_filter_at {A} (P : A → Prop) `{∀ x, Decision (P x)} (l : list A) :
  (∀ i j x, l !! i = Some x → l !! j = Some x → P x → i = j) → NoDup (filter P l).
Proof.
  induction l as [|x l IH]; intros Hl; [constructor|]. rewrite filter_cons.
  assert (NoDup (filter P l)) by (apply IH; intros i j y Hi Hj Hy; by injection (Hl (S i) (S j) y Hi Hj Hy)).
  case_decide; [|done]. constructor; [|done]. intros [_ [i Hi]%list_elem_of_lookup]%list_elem_of_filter.
  by specialize (Hl 0%nat (S i) x eq_refl Hi ltac:(done)).
Qed.

Lemma elem_of_row (L : list slot) e : e ∈ L ↔ ∃ j, (j < length L)%nat ∧ L !!! j = e.
Proof.
  rewrite list_elem_of_lookup. split.
  - intros [j Hj]. exists j. split; [by apply lookup_lt_Some in Hj|]. by apply list_lookup_total_correct.
  - intros (j & Hj & <-). exists j. by apply list_lookup_lookup_total_lt.
Qed.

Lemma entries_distinct L nb m : table_ok L nb m → NoDup (hashAt ∘ sl_idx <$> entries L).
Proof.
  intros Ht. pose proof (tk_len _ _ _ Ht) as Hlen. apply NoDup_fmap_2_strong.
  - intros x y [Hx (j & Hj & <-)%elem_of_row]%list_elem_of_filter [Hy (j' & Hj' & <-)%elem_of_row]%list_elem_of_filter Heq.
    cbn in Heq. rewrite Hlen in *. destruct (tk_entry _ _ _ Ht j Hj Hx) as [H1 _], (tk_entry _ _ _ Ht j' Hj' Hy) as [H2 _].
    f_equal. apply (tk_one _ _ _ Ht); [done|done|done|done|]. rewrite Heq in H1. congruence.
  - apply NoDup_filter_at. intros i j x Hi Hj Hx.
    pose proof (lookup_lt_Some _ _ _ Hi). pose proof (lookup_lt_Some _ _ _ Hj).
    apply list_lookup_total_correct in Hi, Hj. rewrite Hlen in *.
    apply (tk_one _ _ _ Ht); [done|done| | |by rewrite Hi, Hj]; unfold occupied; by rewrite ?Hi, ?Hj.
Qed.

Lemma put_all_entries L nb m : table_ok L nb m → put_all (entries L) ∅ = m.
Proof.
  intros Ht. apply map_eq. intros k. apply option_eq. intros i.
  rewrite put_all_lookup by (by eapply entries_distinct || by intros; rewrite lookup_empty).
  rewrite lookup_empty. split.
  - intros [?|(e & [He (j & Hj & <-)%elem_of_row]%list_elem_of_filter & <- & <-)]; [done|].
    rewrite (tk_len _ _ _ Ht) in Hj. by apply (tk_entry _ _ _ Ht).
  - intros Hk. right. destruct (tk_key _ _ _ Ht k i Hk) as [He (j & Hj & Ho & <-)]. exists (L !!! j).
    split_and!; [|done|done]. apply list_elem_of_filter. split; [done|]. apply elem_of_row. exists j.
    by rewrite (tk_len _ _ _ Ht).
Qed.

Lemma grow_ok s m : wide (buckets s) → (0 < length (buckets s))%nat →
  table_ok (concat (buckets s)) (length (buckets s)) m →
  ∃ s', grow hashAt hash s = Some s' ∧ wide (buckets s') ∧ length (buckets s') = (2 * length (buckets s))%nat ∧
    table_ok (concat (buckets s')) (length (buckets s')) m ∧ sh_n s' = sh_n s.
Proof.
  intros Hw Hnb Ht. unfold grow. rewrite (taken_all _ _ m Hw eq_refl Ht).
  assert (Hsize : size m = length (entries (concat (buckets s)))) by (by rewrite (tk_count _ _ _ Ht)).
  assert (Hle : (length (entries (concat (buckets s))) ≤ 10 * length (buckets s))%nat).
  { rewrite <- (length_row _ Hw). apply length_filter. }
  set (nb' := (2 * length (buckets s))%nat).
  destruct (rehash_all (entries (concat (buckets s))) (replicate nb' empty_bucket) ∅) as (bs' & -> & H1 & H2 & H3).
  - apply wide_empty.
  - rewrite length_replicate. lia.
  - rewrite length_replicate. apply table_empty.
  - by eapply entries_distinct.
  - intros. apply lookup_empty.
  - rewrite length_replicate, map_size_empty. lia.
  - cbn. rewrite length_replicate in *. eexists. split; [done|]. cbn. rewrite H2. split_and!; [done|done| |done].
    by rewrite (put_all_entries _ _ _ Ht) in H3.
Qed.

(** *** The shard *)
Record shard_ok (s : nodeShard) (m : gmap Hash Z) : Prop := {
  sk_wide : wide (buckets s);
  sk_table : table_ok (concat (buckets s)) (length (buckets s)) m;
  sk_n : sh_n s = size m;
  sk_load : (size m ≤ 9 * length (buckets s))%nat;
  sk_pos : (0 < length (buckets s))%nat;
}.

Lemma lookup_ok s m k : shard_ok s m →
  match find hashAt s k (hash k) with
  | Found b n => m !! k = Some (sl_idx ((buckets s !!! b) !!! n))
  | FirstFree b n => m !! k = None
  | ShardFull => False
  end.
Proof.
  intros [Hw Ht _ Hl Hp]. pose proof (find_spec s k m Hw Ht ltac:(lia)) as H.
  destruct (find _ _ _ _); [done|by destruct H|done].
Qed.

Lemma write_ok s m i b n d : shard_ok s m → m !! hashAt i = None → (b < length (buckets s))%nat → (n < 10)%nat →
  (d < 10 * length (buckets s))%nat →
  (10 * b + n)%nat = around (length (buckets s)) (home_of (length (buckets s)) (hashAt i)) d →
  ¬ occupied (concat (buckets s)) (10 * b + n) →
  (∀ d', (d' < d)%nat → occupied (concat (buckets s)) (around (length (buckets s)) (home_of (length (buckets s)) (hashAt i)) d')) →
  (size m + 1 ≤ 9 * length (buckets s))%nat →
  shard_ok (mkShard (write_slot (buckets s) b n (mkSlot (fingerprint (hash (hashAt i))) i)) (S (sh_n s)))
    (<[hashAt i := i]> m).
Proof.
  intros [Hw Ht Hn Hl Hp] Hm Hb Hn10 Hd Heq Hf Hpre Hload. split; cbn.
  - by apply wide_write.
  - rewrite length_write, row_write by done. rewrite Heq in *. by apply table_insert.
  - by rewrite map_size_insert_None, Hn.
  - rewrite length_write, map_size_insert_None by done. lia.
  - by rewrite length_write.
Qed.

Lemma insert_ok s m i : shard_ok s m →
  match m !! hashAt i with
  | Some _ => insert_key hashAt hash s (hashAt i) (hash (hashAt i)) i = Some (false, s)
  | None => ∃ s', insert_key hashAt hash s (hashAt i) (hash (hashAt i)) i = Some (true, s') ∧
      shard_ok s' (<[hashAt i := i]> m)
  end.
Proof.
  intros Hs. pose proof Hs as [Hw Ht Hn Hl Hp]. unfold insert_key.
  pose proof (find_spec s (hashAt i) m Hw Ht ltac:(lia)) as Hf.
  destruct (find hashAt s (hashAt i) _) as [b n|b n|]; [by rewrite Hf| |done].
  destruct Hf as (Hm & Hb & Hn10 & d & Hd & Heq & Hfree & Hpre). rewrite Hm. rewrite Hn.
  destruct (Nat.ltb_spec (length (buckets s) * (nodeBucketSlots - 1)) (size m + 1)) as [Hbig|Hsmall];
    unfold nodeBucketSlots in *.
  - destruct (grow_ok s m Hw Hp Ht) as (s1 & -> & Hw1 & Hlen1 & Ht1 & Hn1). cbn [mbind option_bind].
    assert (Hs1 : shard_ok s1 m) by (split; [done|done|congruence|lia|lia]).
    pose proof (find_spec s1 (hashAt i) m Hw1 Ht1 ltac:(lia)) as Hf1.
    destruct (find hashAt s1 (hashAt i) _) as [b1 n1|b1 n1|]; [congruence| |done].
    destruct Hf1 as (_ & Hb1 & Hn101 & d1 & Hd1 & Heq1 & Hfree1 & Hpre1). cbn [mbind option_bind].
    eexists. split; [done|]. apply (write_ok s1 m i b1 n1 d1); auto. lia.
  - cbn [mbind option_bind]. eexists. split; [done|]. apply (write_ok s m i b n d); auto. lia.
Qed.
End Shard.

(** ** The sharded index *)
Section Index.
  Context (hashAt : Z → Hash) (hash : Hash → Z).
  Hypothesis hash_u64 : ∀ k, is_u64 (hash k).

(** The part of a map that belongs to shard [i]. *)
Definition part (mask : Z) (i : nat) (m : gmap Hash Z) : gmap Hash Z :=
  filter (λ kv, shardIndex mask (hash kv.1) = i) m.

Record index_ok (x : nodeIndex) (m : gmap Hash Z) : Prop := {
  ix_mask : ∃ a : nat, shardMask x = Z.ones (Z.of_nat a) ∧ length (shards x) = (2 ^ a)%nat;
  ix_shard i s : shards x !! i = Some s → shard_ok hashAt hash s (part (shardMask x) i m);
}.

Abbreviation shard_of x k := (shardIndex (shardMask x) (hash k)).

Lemma shardIndex_lt (a : nat) h : (shardIndex (Z.ones (Z.of_nat a)) h < 2 ^ a)%nat.
Proof.
  unfold shardIndex. rewrite Z.land_ones by lia. pose proof (Z.mod_pos_bound (Z.shiftr h 16) (2 ^ Z.of_nat a) ltac:(lia)).
  apply Nat2Z.inj_lt. rewrite Z2Nat.id by lia. rewrite Nat2Z.inj_pow. lia.
Qed.

Lemma shard_here x m k : index_ok x m → ∃ s, shards x !! shard_of x k = Some s.
Proof.
  intros [(a & Ha & Hlen) _]. apply lookup_lt_is_Some. rewrite Hlen, Ha. apply shardIndex_lt.
Qed.

Lemma part_lookup mask m k : part mask (shardIndex mask (hash k)) m !! k = m !! k.
Proof.
  unfold part. destruct (m !! k) as [v|] eqn:E.
  - by apply map_lookup_filter_Some.
  - apply map_lookup_filter_None. by left.
Qed.

Lemma part_insert mask i m k v : m !! k = None →
  part mask i (<[k := v]> m) =
  if decide (shardIndex mask (hash k) = i) then <[k := v]> (part mask i m) else part mask i m.
Proof.
  intros Hk. unfold part. case_decide as Hi.
  - by rewrite map_filter_insert_True.
  - rewrite map_filter_insert_False by done. by rewrite delete_id.
Qed.

Lemma index_replace x m k v s : index_ok x m → m !! k = None →
  shard_ok hashAt hash s (<[k := v]> (part (shardMask x) (shard_of x k) m)) →
  index_ok (mkIndex (<[shard_of x k := s]> (shards x)) (shardMask x) (frozen x)) (<[k := v]> m).
Proof.
  intros [Hmask Hshard] Hk Hs. split; cbn.
  - by rewrite length_insert.
  - intros i s' Hi. rewrite part_insert by done. apply list_lookup_insert_Some in Hi as [(<- & <- & _)|[Hne Hi]].
    + by rewrite decide_True.
    + rewrite decide_False by done. by apply Hshard.
Qed.

Lemma Put_ok x m i : index_ok x m → frozen x = false →
  match m !! hashAt i with
  | Some _ => Put hashAt hash x (hashAt i) i = Some (Err (err ERR_TX_EXISTS), x)
  | None => ∃ x', Put hashAt hash x (hashAt i) i = Some (Ok tt, x') ∧ index_ok x' (<[hashAt i := i]> m) ∧
      frozen x' = false
  end.
Proof.
  intros Hx Hfr. destruct (shard_here x m (hashAt i) Hx) as [s Hs]. unfold Put. cbv zeta.
  pose proof (ix_shard _ _ Hx _ _ Hs) as Hok. rewrite Hfr, Hs. cbn [mbind option_bind].
  pose proof (insert_ok hashAt hash hash_u64 s _ i Hok) as Hins. rewrite part_lookup in Hins.
  destruct (m !! hashAt i) as [v|] eqn:Em.
  - rewrite Hins. cbn. rewrite list_insert_id by done. by destruct x; cbn in *; subst.
  - destruct Hins as (s' & -> & Hs'). cbn. eexists. split_and!; [done| |done].
    replace false with (frozen x). by apply index_replace.
Qed.

Lemma Get_ok x m k : index_ok x m → Get hashAt hash x k = Some (m !! k).
Proof.
  intros Hx. destruct (shard_here x m k Hx) as [s Hs]. unfold Get. rewrite Hs. cbn [mbind option_bind].
  pose proof (ix_shard _ _ Hx _ _ Hs) as Hok. pose proof (lookup_ok hashAt hash hash_u64 s _ k Hok) as Hf.
  rewrite part_lookup in Hf. by destruct (find _ _ _ _); rewrite ?Hf.
Qed.

Lemma getBatch_ok x m ks : index_ok x m → getBatch hashAt hash x ks = Some ((m !!.) <$> ks).
Proof.
  intros Hx. unfold getBatch. induction ks as [|k ks IH]; [done|]. cbn. rewrite (Get_ok x m k Hx). cbn.
  by rewrite IH.
Qed.

Lemma sum_list_cons n l : sum_list (n :: l) = (n + sum_list l)%nat.
Proof. done. Qed.

Lemma sum_list_plus {A} (f g : A → nat) l :
  sum_list ((λ x, f x + g x) <$> l)%nat = (sum_list (f <$> l) + sum_list (g <$> l))%nat.
Proof. induction l as [|x l IH]; [done|]. rewrite !fmap_cons, !sum_list_cons. lia. Qed.

Lemma sum_indicator j a n : (a ≤ j < a + n)%nat →
  sum_list ((λ i, if decide (j = i) then 1 else 0)%nat <$> seq a n) = 1%nat.
Proof.
  revert a. induction n as [|n IH]; intros a Hj; [lia|]. cbn [seq]. rewrite fmap_cons, sum_list_cons. case_decide as Ha.
  - subst a. assert (H : ∀ b n, (j < b)%nat → sum_list ((λ i, if decide (j = i) then 1 else 0)%nat <$> seq b n) = 0%nat).
    { clear. intros b n. revert b. induction n as [|n IH]; intros b Hb; [done|].
      cbn [seq]. rewrite fmap_cons, sum_list_cons, decide_False by lia. apply IH. lia. }
    rewrite (H (S j)) by lia. lia.
  - rewrite IH by lia. lia.
Qed.

Lemma size_parts mask n m : (∀ k, is_Some (m !! k) → (shardIndex mask (hash k) < n)%nat) →
  sum_list ((λ i, size (part mask i m)) <$> seq 0 n) = size m.
Proof.
  induction m as [|k v m Hk IH] using map_ind; intros Hn.
  - rewrite map_size_empty. assert (H : ∀ l : list nat, sum_list ((λ i, size (part mask i ∅)) <$> l) = 0%nat); [|apply H].
    induction l as [|i l IH]; [done|]. rewrite fmap_cons, sum_list_cons, IH. unfold part.
    by rewrite map_filter_empty, map_size_empty.
  - rewrite map_size_insert_None by done.
    assert (Hadd : ∀ i, size (part mask i (<[k := v]> m)) =
      ((if decide (shardIndex mask (hash k) = i) then 1 else 0) + size (part mask i m))%nat).
    { intros i. rewrite part_insert by done. case_decide as Hi; [|done]. subst i.
      by rewrite map_size_insert_None by (by rewrite part_lookup). }
    erewrite (list_fmap_ext _ _ (seq 0 n)); [|intros i y _; apply Hadd].
    rewrite sum_list_plus, sum_indicator, IH; [done| |].
    + intros k' Hk'. apply Hn. apply lookup_insert_is_Some'. by right.
    + split; [lia|]. cbn. apply Hn. rewrite lookup_insert_eq. by eexists.
Qed.

Lemma Length_ok x m : index_ok x m → Length x = size m.
Proof.
  intros Hx. pose proof Hx as [(a & Ha & Hlen) Hshard]. rewrite <- (size_parts (shardMask x) (length (shards x))).
  2: { intros k _. rewrite Hlen, Ha. apply shardIndex_lt. }
  unfold Length. f_equal. apply list_eq. intros i. rewrite !list_lookup_fmap.
  destruct (shards x !! i) as [s|] eqn:Hs.
  - rewrite lookup_seq_lt by (by apply lookup_lt_Some in Hs). cbn. f_equal. apply (sk_n _ _ _ _ (Hshard i s Hs)).
  - apply lookup_ge_None_1 in Hs. by rewrite lookup_seq_ge.
Qed.

Lemma double_shards_pow fuel a c : ∃ b : nat, double_shards fuel (2 ^ a) c = (2 ^ b)%nat.
Proof.
  revert a. induction fuel as [|fuel IH]; intros a; cbn [double_shards]; [by exists a|].
  case_match; [|by exists a]. replace (2 ^ a * 2)%nat with (2 ^ S a)%nat by (cbn; lia). apply IH.
Qed.

Lemma new_ok capacity : index_ok (newNodeIndex capacity) ∅.
Proof.
  unfold newNodeIndex. destruct (double_shards_pow 13 0 capacity) as [b Hb]. cbn [Nat.pow] in Hb. rewrite Hb.
  split; cbn.
  - exists b. rewrite length_replicate. split; [|done]. rewrite Z.ones_equiv, Nat2Z.inj_pow. lia.
  - intros i s [-> _]%lookup_replicate. unfold part. rewrite map_filter_empty.
    set (nb := numNodeBuckets _). assert (0 < nb)%nat by (unfold nb, numNodeBuckets; lia).
    split; cbn [buckets sh_n].
    + apply wide_empty.
    + rewrite length_replicate. apply table_empty.
    + by rewrite map_size_empty.
    + rewrite map_size_empty. lia.
    + by rewrite length_replicate.
Qed.
End Index.

(** ** Ranges *)
Lemma putRangeChunk_pos : (0 < putRangeChunk)%nat.
Proof. unfold putRangeChunk. apply Nat.neq_0_lt_0, Nat.pow_nonzero. lia. Qed.

#[local] Opaque putRangeChunk.

Section Ranges.
  Context (hashAt : Z → Hash) (hash : Hash → Z).
  Hypothesis hash_u64 : ∀ k, is_u64 (hash k).

Abbreviation index_ok := (index_ok hashAt hash).

(** The index is of a node that is in the map, or whose hash an earlier index of the
    list has. *)
Definition repeated (m : gmap Hash Z) (l : list Z) (i : Z) : Prop :=
  i ∈ l ∧ (is_Some (m !! hashAt i) ∨ ∃ j, j ∈ l ∧ j < i ∧ hashAt j = hashAt i).

Definition put_new (m : gmap Hash Z) (i : Z) : gmap Hash Z :=
  if decide (is_Some (m !! hashAt i)) then m else <[hashAt i := i]> m.

Definition put_idxs (m : gmap Hash Z) (l : list Z) : gmap Hash Z := foldl put_new m l.

Definition first_repeat (m : gmap Hash Z) (l : list Z) : option Z :=
  snd (foldl (λ '(m, dup) i,
    (put_new m i, if decide (is_Some (m !! hashAt i) ∧ dup = None) then Some i else dup)) (m, None) l).

Lemma put_idxs_lookup m l k : is_Some (put_idxs m l !! k) ↔ is_Some (m !! k) ∨ ∃ j, j ∈ l ∧ hashAt j = k.
Proof.
  revert m. induction l as [|i l IH]; intros m; cbn; [split; [auto|intros [?|(j & Hj & _)]; [done|by apply elem_of_nil in Hj]]|].
  fold (put_idxs (put_new m i) l). rewrite IH. unfold put_new. case_decide as Hi.
  - split; [intros [?|(j & ? & ?)]; [by left|right; exists j; rewrite elem_of_cons; auto]|].
    intros [?|(j & [->|?]%elem_of_cons & <-)]; [by left|by left|right; by exists j].
  - rewrite lookup_insert_is_Some'. split.
    + intros [[<-|?]|(j & ? & ?)]; [right; exists i|by left|right; exists j]; rewrite elem_of_cons; auto.
    + intros [?|(j & [->|?]%elem_of_cons & <-)]; [by left; right|by left; left|right; by exists j].
Qed.

Lemma put_idxs_snoc m l i : put_idxs m (l ++ [i]) = put_new (put_idxs m l) i.
Proof. unfold put_idxs. by rewrite foldl_app. Qed.

Lemma first_repeat_snoc m l i : first_repeat m (l ++ [i]) =
  if decide (is_Some (put_idxs m l !! hashAt i) ∧ first_repeat m l = None) then Some i else first_repeat m l.
Proof.
  unfold first_repeat. rewrite foldl_app. cbn.
  assert (H : ∀ l m d, fst (foldl (λ '(m, dup) i,
    (put_new m i, if decide (is_Some (m !! hashAt i) ∧ dup = None) then Some i else dup)) (m, d) l) = put_idxs m l).
  { clear. induction l as [|i l IH]; intros m d; [done|]. cbn. by rewrite IH. }
  specialize (H l m None). destruct (foldl _ _ l) as [m1 d1]. cbn in *. by subst m1.
Qed.

Lemma first_repeat_least m l : StronglySorted Z.lt l → least (repeated m l) (first_repeat m l).
Proof.
  induction l as [|i l IH] using rev_ind; intros Hs; [cbn; intros i [Hi _]; by apply elem_of_nil in Hi|].
  destruct (ascending_snoc _ _ Hs) as [Hl Hlt]. specialize (IH Hl). rewrite first_repeat_snoc.
  assert (Hrep : ∀ j, repeated m (l ++ [i]) j ↔ repeated m l j ∨ j = i ∧ is_Some (put_idxs m l !! hashAt i)).
  { intros j. unfold repeated. rewrite put_idxs_lookup. setoid_rewrite elem_of_app. setoid_rewrite list_elem_of_singleton.
    split.
    - intros [[Hj| ->] [Hm|(j' & [Hj'| ->] & Hlt' & Heq)]].
      + left. split; [done|by left].
      + left. split; [done|right; by exists j'].
      + specialize (Hlt j Hj). lia.
      + right. auto.
      + right. split; [done|]. right. by exists j'.
      + lia.
    - intros [[Hj [Hm|(j' & Hj' & Hlt' & Heq)]]|[-> [Hm|(j' & Hj' & Heq)]]]; [auto| |auto|].
      + split; [by left|]. right. exists j'. auto.
      + split; [by right|]. right. exists j'. auto. }
  eapply least_iff; [intros j; symmetry; apply Hrep|]. case_decide as Hd.
  - destruct Hd as [Hi Hnone]. rewrite Hnone in IH. split; [right; auto|]. intros j [Hj|[-> _]]; [by destruct (IH j)|done].
  - destruct (first_repeat m l) as [d|].
    + destruct IH as [H1 H2]. split; [by left|]. intros j [Hj|[-> Hj]]; [auto|].
      destruct H1 as [H1 _]. specialize (Hlt d H1). lia.
    + intros j [Hj|[-> Hj]]; [by apply (IH j)|]. apply Hd. auto.
Qed.

Lemma seqZ_u32 lo n : 0 ≤ lo → lo + Z.of_nat n ≤ 2 ^ 32 → map u32 (seqZ lo (Z.of_nat n)) = seqZ lo (Z.of_nat n).
Proof.
  intros H1 H2. rewrite <- (map_id (seqZ lo (Z.of_nat n))) at 2. apply map_ext_in.
  intros x Hx%list_elem_of_In%elem_of_seqZ. apply u32_small. lia.
Qed.

(** *** One after another *)
Lemma putEach_ok x m idxs : index_ok x m → frozen x = false → StronglySorted Z.lt idxs →
  ∃ r d x' m', putEach hashAt hash x idxs = Some (r, d, x') ∧ index_ok x' m' ∧
    match first_repeat m idxs with
    | None => r = Ok tt ∧ m' = put_idxs m idxs ∧ frozen x' = false
    | Some i => r = Err (err ERR_TX_EXISTS) ∧ d = i
    end.
Proof.
  intros Hx Hf Hs.
  assert (H : ∀ l pre x, index_ok x (put_idxs m pre) → frozen x = false → first_repeat m pre = None →
    idxs = pre ++ l → ∃ r d x' m', putEach hashAt hash x l = Some (r, d, x') ∧ index_ok x' m' ∧
    match first_repeat m idxs with
    | None => r = Ok tt ∧ m' = put_idxs m idxs ∧ frozen x' = false
    | Some i => r = Err (err ERR_TX_EXISTS) ∧ d = i
    end); [|by apply (H idxs [])].
  clear x Hx Hf. induction l as [|i l IH]; intros pre x Hx Hf Hpre Heq; cbn [putEach].
  { exists (Ok tt), 0, x, (put_idxs m idxs). rewrite Heq, app_nil_r, Hpre in *. by split_and!. }
  pose proof (Put_ok hashAt hash hash_u64 x _ i Hx Hf) as Hput. destruct (put_idxs m pre !! hashAt i) as [v|] eqn:Em.
  - rewrite Hput. cbn. exists (Err (err ERR_TX_EXISTS)), i, x, (put_idxs m pre). split_and!; [done|done|].
    assert (Hfi : first_repeat m (pre ++ [i]) = Some i) by (rewrite first_repeat_snoc, Em, decide_True by auto; done).
    replace (first_repeat m idxs) with (Some i); [done|]. clear - Hfi Heq. subst idxs.
    rewrite (app_assoc pre [i] l : pre ++ i :: l = _). revert Hfi. generalize (pre ++ [i]). clear pre.
    induction l as [|j l IHl] using rev_ind; intros pre Hp; [by rewrite app_nil_r|].
    rewrite app_assoc, first_repeat_snoc. rewrite <- (IHl pre Hp). by rewrite decide_False by (intros [_ [=]]).
  - destruct Hput as (x' & -> & Hx' & Hf'). cbn. apply (IH (pre ++ [i])); [|done| |by rewrite <- app_assoc].
    + rewrite put_idxs_snoc. unfold put_new. rewrite Em, decide_False; [done|]. by intros [? ?].
    + rewrite first_repeat_snoc, Em, decide_False; [done|]. by intros [[? ?] _].
Qed.

(** *** A chunk, grouped by shard *)
Abbreviation entry := (λ i, mkPut (hash (hashAt i)) i).

Lemma putGroup_ok s m idxs : shard_ok hashAt hash s m →
  ∃ s', putGroup hashAt hash s (map entry idxs) = Some (s', first_repeat m idxs) ∧
    shard_ok hashAt hash s' (put_idxs m idxs).
Proof.
  intros Hs. induction idxs as [|i l IH] using rev_ind; [by exists s|].
  destruct IH as (s1 & Hg & Hs1). unfold putGroup in *. rewrite map_app, foldl_app, Hg. cbn.
  pose proof (insert_ok hashAt hash hash_u64 s1 _ i Hs1) as Hins. rewrite put_idxs_snoc, first_repeat_snoc. unfold put_new.
  destruct (put_idxs m l !! hashAt i) as [v|] eqn:Em.
  - rewrite Hins. cbn. exists s1. rewrite (decide_True (P := is_Some (Some v))) by (by eexists). split; [|done].
    do 2 f_equal. destruct (first_repeat m l) as [d|].
    + rewrite decide_False by (intros [_ [=]]). done.
    + by rewrite decide_True by (split; [by eexists|done]).
  - destruct Hins as (s2 & -> & Hs2). cbn. exists s2. rewrite decide_False by (by intros [[? ?] _]).
    rewrite decide_False by (by intros [? ?]). done.
Qed.

Section Chunk.
  Context (mask : Z).
Abbreviation shard_at := (λ i, shardIndex mask (hash (hashAt i))).
Abbreviation in_shard k := (filter (λ i, shard_at i = k)).

Lemma part_put_idxs k m l : part hash mask k (put_idxs m l) = put_idxs (part hash mask k m) (in_shard k l).
Proof.
  induction l as [|i l IH] using rev_ind; [done|]. rewrite filter_app, put_idxs_snoc. unfold put_new.
  rewrite filter_cons. destruct (decide (shard_at i = k)) as [<-|Hne].
  - rewrite put_idxs_snoc, <- IH. unfold put_new. rewrite part_lookup. case_decide as Hi; [done|].
    rewrite part_insert, decide_True; [done|done|]. by apply eq_None_not_Some.
  - rewrite app_nil_r, <- IH. case_decide as Hi; [done|].
    rewrite part_insert, decide_False; [done|done|]. by apply eq_None_not_Some.
Qed.

Lemma part_repeated k m l i :
  repeated (part hash mask k m) (in_shard k l) i ↔ repeated m l i ∧ shard_at i = k.
Proof.
  unfold repeated. setoid_rewrite list_elem_of_filter. split.
  - intros [[<- Hi] Hr]. split; [|done]. split; [done|]. rewrite part_lookup in Hr.
    destruct Hr as [?|(j & [_ ?] & ? & ?)]; [by left|right; by exists j].
  - intros [[Hi Hr] <-]. split; [done|]. rewrite part_lookup.
    destruct Hr as [?|(j & ? & ? & Heq)]; [by left|right]. exists j. by rewrite Heq.
Qed.
End Chunk.

Lemma length_pos_entries l k mask : map entry (filter (λ i, shardIndex mask (hash (hashAt i)) = k) l) =
  with_key (λ e, shardIndex mask (np_h e)) k (map entry l).
Proof.
  unfold with_key. induction l as [|i l IH]; [done|]. cbn [map]. rewrite !filter_cons. cbn [np_h].
  case_decide; cbn [map]; by rewrite IH.
Qed.

(** After the shards [done_]: theirs hold the new entries, and the duplicate is the
    least of theirs. *)
Record chunk_inv (x : nodeIndex) (m : gmap Hash Z) (l : list Z) (done_ : list nat) (x' : nodeIndex) (dup : option Z) : Prop := {
  ch_mask : shardMask x' = shardMask x;
  ch_len : length (shards x') = length (shards x);
  ch_frozen : frozen x' = frozen x;
  ch_shard k s : shards x' !! k = Some s →
    shard_ok hashAt hash s (part hash (shardMask x) k (if decide (k ∈ done_) then put_idxs m l else m));
  ch_dup : least (λ i, repeated m l i ∧ shardIndex (shardMask x) (hash (hashAt i)) ∈ done_) dup;
}.

Lemma put_shard_ok x m l out done_ x' dup k : StronglySorted Z.lt l → length out = length l →
  (∀ i, (shardIndex (shardMask x) (hash (hashAt i)) < length (shards x))%nat) →
  (k < length (shards x))%nat → k ∉ done_ → chunk_inv x m l done_ x' dup →
  let sorted := counting_sort (λ e, shardIndex (shardMask x) (np_h e)) (length (shards x)) out (map entry l) in
  ∃ x'' dup', put_shard hashAt hash sorted (Some (x', dup)) k = Some (x'', dup') ∧
    chunk_inv x m l (done_ ++ [k]) x'' dup'.
Proof.
  intros Hs Hout Hin Hk Hnew [Hm Hlen Hfr Hsh Hdup] sorted. unfold put_shard. cbn [mbind option_bind].
  assert (Hgroup : group_of sorted k = map entry (filter (λ i, shardIndex (shardMask x) (hash (hashAt i)) = k) l)).
  { unfold sorted. rewrite group_of_spec; [by rewrite <- length_pos_entries|by rewrite length_map| |done].
    apply Forall_forall. intros e He%list_elem_of_fmap. destruct He as (i & -> & _). apply Hin. }
  rewrite Hgroup. set (li := filter _ l).
  assert (Hli : least (λ i, repeated m l i ∧ shardIndex (shardMask x) (hash (hashAt i)) = k)
                  (first_repeat (part hash (shardMask x) k m) li)).
  { eapply least_iff; [intros i; apply (part_repeated (shardMask x) k m l i)|]. apply first_repeat_least, filter_ascending, Hs. }
  assert (Hpart : part hash (shardMask x) k (put_idxs m l) = put_idxs (part hash (shardMask x) k m) li)
    by apply part_put_idxs.
  assert (Hdone : ∀ P : nat → Prop, P k → (∀ j, j ∈ done_ → P j) → ∀ j, j ∈ done_ ++ [k] → P j).
  { intros P Hpk Hpd j [?| ->%list_elem_of_singleton]%elem_of_app; auto. }
  assert (Hleast : ∀ d, least (λ i, (repeated m l i ∧ shardIndex (shardMask x) (hash (hashAt i)) = k) ∨
      (repeated m l i ∧ shardIndex (shardMask x) (hash (hashAt i)) ∈ done_)) d →
      least (λ i, repeated m l i ∧ shardIndex (shardMask x) (hash (hashAt i)) ∈ done_ ++ [k]) d).
  { intros d. apply least_iff. intros i. rewrite elem_of_app, list_elem_of_singleton. tauto. }
  case_bool_decide as Hempty.
  - assert (Hnil : li = []) by (by destruct li). exists x', dup. split; [done|]. split; [done|done|done| |].
    + intros j s Hj. specialize (Hsh j s Hj). destruct (decide (j = k)) as [->|Hne].
      * rewrite decide_False in Hsh by done. rewrite decide_True by (rewrite elem_of_app, list_elem_of_singleton; by right).
        rewrite Hpart, Hnil. done.
      * erewrite decide_ext; [exact Hsh|]. rewrite elem_of_app, list_elem_of_singleton. tauto.
    + apply Hleast. rewrite Hnil in Hli. by apply (least_or _ _ None dup).
  - destruct (lookup_lt_is_Some_2 (shards x') k ltac:(by rewrite Hlen)) as [s Hsk]. rewrite Hsk. cbn [mbind option_bind].
    pose proof (Hsh k s Hsk) as Hok. rewrite decide_False in Hok by done.
    destruct (putGroup_ok s _ li Hok) as (s' & -> & Hs'). cbn [mbind option_bind].
    do 2 eexists. split; [done|]. split; cbn; [done|by rewrite length_insert|done| |].
    + intros j sj Hj. apply list_lookup_insert_Some in Hj as [(<- & <- & _)|[Hne Hj]].
      * rewrite decide_True by (rewrite elem_of_app, list_elem_of_singleton; by right). by rewrite Hpart.
      * specialize (Hsh j sj Hj). erewrite decide_ext; [exact Hsh|].
        rewrite elem_of_app, list_elem_of_singleton. split; [intros [?|?]; [done|congruence]|by left].
    + apply Hleast. by apply least_or.
Qed.

Lemma put_shards_ok x m l out todo done_ x' dup : StronglySorted Z.lt l → length out = length l →
  (∀ i, (shardIndex (shardMask x) (hash (hashAt i)) < length (shards x))%nat) →
  Forall (λ k, (k < length (shards x))%nat) todo → NoDup (done_ ++ todo) → chunk_inv x m l done_ x' dup →
  ∃ x'' dup', foldl (put_shard hashAt hash
      (counting_sort (λ e, shardIndex (shardMask x) (np_h e)) (length (shards x)) out (map entry l)))
      (Some (x', dup)) todo = Some (x'', dup') ∧ chunk_inv x m l (done_ ++ todo) x'' dup'.
Proof.
  intros Hs Hout Hin. revert done_ x' dup. induction todo as [|k todo IH]; intros done_ x' dup Hk Hnd Hinv; cbn [foldl].
  { exists x', dup. by rewrite app_nil_r. }
  apply Forall_cons in Hk as [Hk Htodo]. pose proof Hnd as (_ & Hdis & _)%NoDup_app.
  destruct (put_shard_ok x m l out done_ x' dup k Hs Hout Hin Hk) as (x1 & d1 & -> & H1); [|done|].
  { intros Hd. apply (Hdis k Hd). by apply elem_of_cons; left. }
  destruct (IH (done_ ++ [k]) x1 d1) as (x2 & d2 & Hf & H2); [done|by rewrite <- app_assoc|done|].
  exists x2, d2. split; [done|]. by rewrite <- app_assoc in H2.
Qed.

(** The shards in the order of a chunk are all of them, once. *)
Lemma shard_order (a first : nat) :
  let ks := map (λ k, Z.to_nat (Z.land (Z.of_nat (first + k)) (Z.ones (Z.of_nat a)))) (seq 0 (2 ^ a)) in
  NoDup ks ∧ Forall (λ k, (k < 2 ^ a)%nat) ks ∧ ∀ j, (j < 2 ^ a)%nat → j ∈ ks.
Proof.
  set (f := λ k, Z.to_nat (Z.land (Z.of_nat (first + k)) (Z.ones (Z.of_nat a)))). cbn.
  assert (Hf : ∀ k, f k = ((first + k) mod 2 ^ a)%nat).
  { intros k. unfold f. rewrite Z.land_ones by lia. apply Nat2Z.inj. rewrite Z2Nat.id by (apply Z.mod_pos_bound; lia).
    rewrite Nat2Z.inj_mod, Nat2Z.inj_pow. done. }
  assert (Hpos : (0 < 2 ^ a)%nat) by (apply Nat.neq_0_lt_0, Nat.pow_nonzero; lia).
  assert (Hnd : NoDup (map f (seq 0 (2 ^ a)))).
  { apply (NoDup_fmap_2_strong f); [|apply NoDup_seq]. intros k k' Hk%elem_of_seq Hk'%elem_of_seq Heq. rewrite !Hf in Heq.
    pose proof (Nat.div_mod_eq (first + k) (2 ^ a)). pose proof (Nat.div_mod_eq (first + k') (2 ^ a)).
    set (q := ((first + k) / 2 ^ a)%nat) in *. set (q' := ((first + k') / 2 ^ a)%nat) in *.
    set (N := (2 ^ a)%nat) in *. destruct (Nat.lt_trichotomy q q') as [?|[?|?]]; nia. }
  assert (Hlt : Forall (λ k, (k < 2 ^ a)%nat) (map f (seq 0 (2 ^ a)))).
  { apply Forall_forall. intros k (i & -> & _)%list_elem_of_fmap. rewrite Hf. apply Nat.mod_upper_bound. lia. }
  split_and!; [done|done|]. intros j Hj.
  assert (Hperm : map f (seq 0 (2 ^ a)) ≡ₚ seq 0 (2 ^ a)).
  { apply submseteq_length_Permutation; [|by rewrite length_map]. apply NoDup_submseteq; [done|].
    intros k Hk. apply elem_of_seq. split; [lia|]. by apply (proj1 (Forall_forall _ _) Hlt). }
  rewrite Hperm. apply elem_of_seq. lia.
Qed.

Lemma putChunk_ok x m scratch lo n : index_ok x m → 0 ≤ lo → lo + Z.of_nat n ≤ 2 ^ 32 →
  let l := seqZ lo (Z.of_nat n) in
  ∃ x', putChunk hashAt hash x scratch lo n = Some (x', first_repeat m l) ∧ index_ok x' (put_idxs m l) ∧
    frozen x' = frozen x.
Proof.
  intros Hx H1 H2 l. pose proof Hx as [(a & Ha & Hlen) Hshard]. unfold putChunk. rewrite seqZ_u32 by done. fold l.
  set (out := take n _). set (first := default 0%nat _).
  assert (Hout : length out = length l).
  { unfold out, l. rewrite length_take, length_app, length_replicate, length_seqZ. lia. }
  destruct (shard_order a first) as (Hnd & Hlt & Hall). rewrite <- Ha, <- Hlen in Hnd, Hlt, Hall.
  destruct (put_shards_ok x m l out (map (λ k, Z.to_nat (Z.land (Z.of_nat (first + k)) (shardMask x)))
    (seq 0 (length (shards x)))) [] x None) as (x' & dup & Hfold & [Hm Hl Hf Hsh Hdup]).
  - apply seqZ_ascending.
  - done.
  - intros i. rewrite Ha, Hlen. apply shardIndex_lt.
  - done.
  - done.
  - split; [done|done|done| |by intros i [_ ?%elem_of_nil]]. intros k s Hs. by apply Hshard.
  - exists x'. split_and!; [|split|done].
    + etrans; [exact Hfold|]. do 2 f_equal. eapply least_unique; [exact Hdup|].
      eapply least_iff; [|apply first_repeat_least, seqZ_ascending]. intros i. split; [|by intros []]. intros Hi.
      split; [done|]. apply Hall. rewrite Ha, Hlen. apply shardIndex_lt.
    + exists a. by rewrite Hm, Hl.
    + intros k s Hs. rewrite Hm. specialize (Hsh k s Hs). rewrite decide_True in Hsh; [done|].
      apply Hall. rewrite <- Hl. by apply lookup_lt_Some in Hs.
Qed.

Lemma first_repeat_app m l1 l2 : first_repeat m (l1 ++ l2) =
  match first_repeat m l1 with Some d => Some d | None => first_repeat (put_idxs m l1) l2 end.
Proof.
  induction l2 as [|i l2 IH] using rev_ind; [rewrite app_nil_r; by destruct (first_repeat m l1)|].
  rewrite app_assoc, !first_repeat_snoc, IH. destruct (first_repeat m l1) as [d|].
  - by rewrite decide_False by (intros [_ [=]]).
  - unfold put_idxs. by rewrite foldl_app.
Qed.

Lemma put_chunks_ok fuel x m scratch lo n : index_ok x m → frozen x = false → 0 ≤ lo → lo + Z.of_nat n ≤ 2 ^ 32 →
  (n ≤ fuel)%nat →
  ∃ r d x' m', put_chunks hashAt hash fuel x scratch lo n = Some (r, d, x') ∧ index_ok x' m' ∧
    match first_repeat m (seqZ lo (Z.of_nat n)) with
    | None => r = Ok tt ∧ m' = put_idxs m (seqZ lo (Z.of_nat n)) ∧ frozen x' = false
    | Some i => r = Err (err ERR_TX_EXISTS) ∧ d = i
    end.
Proof.
  revert x m lo n. induction fuel as [|fuel IH]; intros x m lo n Hx Hf H1 H2 Hfuel.
  { replace n with 0%nat by lia. exists (Ok tt), 0, x, m. by split_and!. }
  destruct (decide (n = 0%nat)) as [->|Hn]; [exists (Ok tt), 0, x, m; by split_and!|].
  set (c := Nat.min putRangeChunk n).
  assert (Hunfold : put_chunks hashAt hash (S fuel) x scratch lo n =
    '(x, dup) ← putChunk hashAt hash x scratch lo c;
    match dup with
    | Some d => Some (Err (err ERR_TX_EXISTS), d, x)
    | None => put_chunks hashAt hash fuel x scratch (u32 (lo + Z.of_nat putRangeChunk)) (n - putRangeChunk)
    end) by (by destruct n).
  rewrite Hunfold. clear Hunfold. destruct (putChunk_ok x m scratch lo c Hx H1 ltac:(lia)) as (x1 & -> & Hx1 & Hf1).
  cbn [mbind option_bind].
  assert (Hsplit : seqZ lo (Z.of_nat n) =
    seqZ lo (Z.of_nat c) ++ seqZ (lo + Z.of_nat c) (Z.of_nat (n - putRangeChunk))).
  { rewrite <- seqZ_app by lia. f_equal. lia. }
  rewrite Hsplit, first_repeat_app. destruct (first_repeat m (seqZ lo (Z.of_nat c))) as [d|].
  { exists (Err (err ERR_TX_EXISTS)), d, x1. eexists. by split_and!. }
  destruct (decide (n ≤ putRangeChunk)%nat) as [Hlast|Hmore].
  - replace (n - putRangeChunk)%nat with 0%nat by lia. rewrite (seqZ_nil (lo + Z.of_nat c)), app_nil_r by lia.
    exists (Ok tt), 0, x1. eexists. split_and!; [by destruct fuel|done|]. cbn. by rewrite Hf1.
  - pose proof putRangeChunk_pos.
    replace c with putRangeChunk in * by lia. rewrite u32_small by lia.
    destruct (IH x1 _ (lo + Z.of_nat putRangeChunk) (n - putRangeChunk)%nat Hx1) as (r & d & x2 & m2 & Hp & Hx2 & Hr);
      [congruence|lia|lia|lia|]. exists r, d, x2, m2. split_and!; [done|done|].
    destruct (first_repeat _ (seqZ (lo + _) _)); [done|]. unfold put_idxs in *. by rewrite foldl_app.
Qed.

Lemma putRange_ok x m scratch lo n : index_ok x m → frozen x = false → 0 ≤ lo → lo + Z.of_nat n ≤ 2 ^ 32 →
  ∃ r d x' m', putRange hashAt hash x scratch lo n = Some (r, d, x') ∧ index_ok x' m' ∧
    match first_repeat m (seqZ lo (Z.of_nat n)) with
    | None => r = Ok tt ∧ m' = put_idxs m (seqZ lo (Z.of_nat n)) ∧ frozen x' = false
    | Some i => r = Err (err ERR_TX_EXISTS) ∧ d = i
    end.
Proof.
  intros Hx Hf H1 H2. unfold putRange. rewrite Hf. destruct (Nat.leb_spec n 0).
  { replace n with 0%nat by lia. exists (Ok tt), 0, x, m. by split_and!. }
  destruct (n <? 2 * length (shards x))%nat; [|by apply put_chunks_ok].
  rewrite seqZ_u32 by done. apply putEach_ok; [done|done|]. apply seqZ_ascending.
Qed.
End Ranges.

(** ** The index refines a map *)
Section Refinement.
  Context (hashAt : Z → Hash) (hash : Hash → Z).
  Hypothesis hash_u64 : ∀ k, is_u64 (hash k).

(** C34: whatever the hash function and however fingerprints collide, the index answers
    what a map from hashes to indexes would: [Put] adds a hash once and refuses it
    after, [Get] is exact, also for hashes that are not there, [Length] is the number
    of entries, and a range of puts is refused exactly when a hash repeats, at the
    first index that repeats one.  The table never fills up and growing it ends. *)
Theorem nodeIndex_refines : 
  (∀ capacity, index_ok hashAt hash (newNodeIndex capacity) ∅) ∧
  ∀ x m, index_ok hashAt hash x m →
    (∀ k, Get hashAt hash x k = Some (m !! k)) ∧ Length x = size m ∧
    index_ok hashAt hash (Freeze x) m ∧
    (frozen x = false → ∀ i, ∃ x', match m !! hashAt i with
      | Some _ => Put hashAt hash x (hashAt i) i = Some (Err (err ERR_TX_EXISTS), x') ∧ x' = x
      | None => Put hashAt hash x (hashAt i) i = Some (Ok tt, x') ∧ index_ok hashAt hash x' (<[hashAt i := i]> m)
      end) ∧
    (frozen x = false → ∀ scratch lo n, 0 ≤ lo → lo + Z.of_nat n ≤ 2 ^ 32 →
      ∃ r d x' m', putRange hashAt hash x scratch lo n = Some (r, d, x') ∧ index_ok hashAt hash x' m' ∧
        ((r = Ok tt ∧ (∀ i, ¬ repeated hashAt m (seqZ lo (Z.of_nat n)) i) ∧
          m' = put_idxs hashAt m (seqZ lo (Z.of_nat n)) ∧ frozen x' = false) ∨
         (r = Err (err ERR_TX_EXISTS) ∧ repeated hashAt m (seqZ lo (Z.of_nat n)) d ∧
          ∀ i, repeated hashAt m (seqZ lo (Z.of_nat n)) i → d ≤ i))).
Proof.
  split; [apply new_ok|]. intros x m Hx. split_and!.
  - intros k. by apply Get_ok.
  - by apply (Length_ok hashAt hash).
  - by destruct Hx.
  - intros Hf i. pose proof (Put_ok hashAt hash hash_u64 x m i Hx Hf) as Hp. destruct (m !! hashAt i); [by exists x|].
    destruct Hp as (x' & ? & ? & _). by exists x'.
  - intros Hf scratch lo n H1 H2.
    destruct (putRange_ok hashAt hash hash_u64 x m scratch lo n Hx Hf H1 H2) as (r & d & x' & m' & Hp & Hx' & Hr).
    exists r, d, x', m'. split_and!; [done|done|].
    pose proof (first_repeat_least hashAt m (seqZ lo (Z.of_nat n)) (seqZ_ascending _ _)) as Hl.
    destruct (first_repeat _ _ _) as [i|]; [right; by destruct Hr as [-> ->]|left]. by destruct Hr as (-> & -> & ->).
Qed.
End Refinement.

(** ** Concrete inputs: every hash collides *)
Definition ex_hashAt (i : Z) : Hash := hash_of_Z (i + 1).
Definition ex_index_hash (k : Hash) : Z := 7.

Lemma nodeIndex_refines_witness :
  Get ex_hashAt ex_index_hash (newNodeIndex 4) (ex_hashAt 3) = Some None ∧
  ∃ x', Put ex_hashAt ex_index_hash (newNodeIndex 4) (ex_hashAt 3) 3 = Some (Ok tt, x') ∧
    Get ex_hashAt ex_index_hash x' (ex_hashAt 3) = Some (Some 3) ∧ Get ex_hashAt ex_index_hash x' (ex_hashAt 4) = Some None.
Proof.
  destruct (nodeIndex_refines ex_hashAt ex_index_hash ltac:(unfold ex_index_hash; lia)) as [Hnew Hops].
  destruct (Hops _ _ (Hnew 4%nat)) as (Hget & _ & _ & Hput & _). split; [by rewrite Hget|].
  destruct (Hput eq_refl 3) as [x' [Hp Hx']]. exists x'. split; [exact Hp|].
  destruct (Hops _ _ Hx') as (Hget' & _). rewrite !Hget'. split; vm_compute; reflexivity.
Defined.

(** Two subtrees with a transaction in common, in one range: the second is found. *)
Example ex_duplicate_found :
  (λ r, (r.1.1, r.1.2)) <$>
    putRange (λ i, hash_of_Z (if i =? 5 then 2 else i)) ex_index_hash (newNodeIndex 4) [] 0 8
  = Some (Err (err ERR_TX_EXISTS), 5).
Proof. vm_compute. reflexivity. Qed.
