(* ===== verification/InpointDedup.v ===== *)
(** * Two transactions of a block that spend one outpoint

    model/inpoint_dedup.go: the inputs of a block as short entries of a seeded hash
    and a transaction index, grouped by the top bits of the hash; equal hashes are
    compared against the real inputs.  The goroutines of [detect] are steps on the
    shared atomics, in any order; the partitions a worker takes and the order it
    takes their groups in only restrict which steps come first. *)

From stdpp Require Import list sorting.
From S2P Require Import Prelude External CountingSort Ordered.

Notation Inpoint := (Hash * Z)%type.

(** [w] is 32 or 64, the width of the transaction index. *)
Record dedupEntry := mkEntry { de_hi : Z; de_lo : Z; de_tx : Z }.

#[export] Instance dedupEntry_eq_dec : EqDecision dedupEntry.
Proof. solve_decision. Defined.

Definition key (e : dedupEntry) : Z := Z.lor (Z.shiftl (de_hi e) 32) (de_lo e).

(** The entries of a run grouped by partition, and where each partition starts, with
    the end of the last; a run without entries has no offsets. *)
Record dedupRun := mkRun { run_entries : list dedupEntry; run_offs : option (list nat) }.

Definition dedupMaxPartitionBits : nat := 12.

(** Raises [pbits] while [more] allows it. *)
Fixpoint raise_bits (fuel pbits : nat) (more : nat → bool) : nat :=
  match fuel with
  | O => pbits
  | S fuel => if more pbits then raise_bits fuel (S pbits) more else pbits
  end.

Section Dedup.
  Context (hash : Inpoint → Z).

(** The partition bits and the width. *)
Definition newInpointDedup (numRuns expectedInputs totalTxs : Z) : nat * Z :=
  (raise_bits dedupMaxPartitionBits 0 (λ pbits,
     (pbits <? dedupMaxPartitionBits)%nat && (Z.shiftr expectedInputs (Z.of_nat pbits) >? 2^16) &&
     (u64 (numRuns * (2 ^ (Z.of_nat pbits + 1) + 1)) <=? expectedInputs)),
   if totalTxs <=? 2^32 - 1 then 32 else 64).

Definition partition (pbits : nat) (k : Z) : nat :=
  if (pbits =? 0)%nat then 0%nat else Z.to_nat (Z.shiftr k (64 - Z.of_nat pbits)).

Definition addTx (w : Z) (entries : list dedupEntry) (tx : Z) (inpoints : list Inpoint) : list dedupEntry :=
  entries ++ map (λ i, let k := hash i in mkEntry (u32 (Z.shiftr k 32)) (u32 k) (tx mod 2^w)) inpoints.

(** [None] is [tooBig]. *)
Definition finish (pbits : nat) (entries : list dedupEntry) : option dedupRun :=
  if bool_decide (entries = []) then Some (mkRun [] None)
  else if (Z.of_nat (length entries) >? 2^32 - 1) then None
  else
    let part e := partition pbits (key e) in
    let np := (2 ^ pbits)%nat in
    let sorted := counting_sort part np entries entries in
    Some (mkRun sorted.1 (Some (starts 0 (count_keys part np entries ++ [0%nat])))).

(** The entries of one subtree: its transactions in order. *)
Definition run_of (w : Z) (txs : list (Z * list Inpoint)) : list dedupEntry :=
  foldl (λ entries t, addTx w entries t.1 t.2) [] txs.

(** ** [detect] *)
Definition total_entries (runs : list dedupRun) : nat := sum_list (map (λ r, length (run_entries r)) runs).

Definition group_bits (pbits : nat) (runs : list dedupRun) : nat :=
  raise_bits pbits 0 (λ gbits,
    (gbits <? pbits)%nat && (Z.shiftr (Z.of_nat (total_entries runs)) (Z.of_nat gbits) >? 2^16)).

(** [run.entries[run.offs[p<<shift]:run.offs[(p+1)<<shift]]] *)
Definition run_slice (shift p : nat) (r : dedupRun) : list dedupEntry :=
  match run_offs r with
  | None => []
  | Some offs => slice (offs !!! (p * 2 ^ shift)%nat) (offs !!! ((p + 1) * 2 ^ shift)%nat) (run_entries r)
  end.

Definition entry_le (a b : dedupEntry) : Prop := key a < key b ∨ key a = key b ∧ de_tx a ≤ de_tx b.

#[export] Instance entry_le_dec a b : Decision (entry_le a b).
Proof. apply _. Defined.

Definition partition_buffer (shift p : nat) (runs : list dedupRun) : list dedupEntry :=
  merge_sort entry_le (runs ≫= run_slice shift p).

(** The loop over [j]: the entries with a hash, and the rest. *)
Fixpoint same_key (k : Z) (buf : list dedupEntry) : list dedupEntry * list dedupEntry :=
  match buf with
  | [] => ([], [])
  | e :: rest => if key e =? k then let '(same, rest) := same_key k rest in (e :: same, rest) else ([], buf)
  end.

(** The loop over [i]. *)
Fixpoint equal_runs (fuel : nat) (buf : list dedupEntry) : list (list dedupEntry) :=
  match fuel, buf with
  | S fuel, e :: rest =>
      let '(same, rest) := same_key (key e) rest in (e :: same) :: equal_runs fuel rest
  | _, _ => []
  end.

(** The groups of two entries or more, of every partition. *)
Definition candidates (pbits : nat) (runs : list dedupRun) : list (list dedupEntry) :=
  let gbits := group_bits pbits runs in
  let shift := (pbits - gbits)%nat in
  p ← seq 0 (2 ^ gbits);
  let buf := partition_buffer shift p runs in
  filter (λ g, (2 ≤ length g)%nat) (equal_runs (length buf) buf).

Definition group_bound (g : list dedupEntry) : Z :=
  default 0 (de_tx <$> g !! Nat.min 1 (length g - 1)).

(** [seen] and the inputs of one transaction with the group's hash; whether one was
    there already. *)
Fixpoint take_inputs (k : Z) (seen : gset Inpoint) (inpoints : list Inpoint) : gset Inpoint + unit :=
  match inpoints with
  | [] => inl seen
  | i :: inpoints =>
      if negb (hash i =? k) then take_inputs k seen inpoints
      else if bool_decide (i ∈ seen) then inr tt
      else take_inputs k ({[i]} ∪ seen) inpoints
  end.

Fixpoint verify_from (resolve : Z → result (list Inpoint)) (k : Z) (seen : gset Inpoint) (prev : option Z)
    (group : list dedupEntry) : result (option Z) :=
  match group with
  | [] => Ok None
  | e :: group =>
      if bool_decide (prev = Some (de_tx e)) then verify_from resolve k seen prev group
      else
        match resolve (de_tx e) with
        | Err e => Err e
        | Ok inpoints =>
            match take_inputs k seen inpoints with
            | inr _ => Ok (Some (de_tx e))
            | inl seen => verify_from resolve k seen (Some (de_tx e)) group
            end
        end
  end.

Definition verifyGroup (resolve : Z → result (list Inpoint)) (group : list dedupEntry) : result (option Z) :=
  verify_from resolve (default 0 (key <$> head group)) ∅ None group.

(** *** The shared state of the workers

    [text_before] compares the texts of two errors. *)
  Context (text_before : error → error → bool).

Record failure := mkFailure { fl_bound : Z; fl_first : Z; fl_error : error }.

Record dstate := mkState {
  ds_todo : list (list dedupEntry);      (* groups no worker has come to *)
  ds_running : list (list dedupEntry);   (* groups being verified *)
  ds_earliest : option Z;                (* [none] is no duplicate yet *)
  ds_failed : option failure;            (* [errBound], [errFirst] and [firstErr] *)
}.

(** The two tests before a group is verified. *)
Definition skips (s : dstate) (g : list dedupEntry) : bool :=
  default false ((λ e, e <=? group_bound g) <$> ds_earliest s) ||
  default false ((λ f, fl_bound f <? group_bound g) <$> ds_failed s).

Definition failGroup (old : option failure) (new : failure) : option failure :=
  match old with
  | None => Some new
  | Some f =>
      if (fl_bound new <? fl_bound f) ||
         ((fl_bound new =? fl_bound f) &&
          ((fl_first new <? fl_first f) ||
           ((fl_first new =? fl_first f) && text_before (fl_error new) (fl_error f))))
      then Some new else old
  end.

Definition settle (s : dstate) (rest : list (list dedupEntry)) (g : list dedupEntry) (r : result (option Z)) : dstate :=
  match r with
  | Err e =>
      mkState (ds_todo s) rest (ds_earliest s)
        (failGroup (ds_failed s) (mkFailure (group_bound g) (default 0 (de_tx <$> head g)) e))
  | Ok None => mkState (ds_todo s) rest (ds_earliest s) (ds_failed s)
  | Ok (Some tx) =>
      mkState (ds_todo s) rest
        (Some (match ds_earliest s with Some cur => if tx >=? cur then cur else tx | None => tx end)) (ds_failed s)
  end.

(** The tests read the atomics before the group is verified, so a group may be
    verified although the tests would skip it by then. *)
Inductive dstep (resolves : (Z → result (list Inpoint)) → Prop) : dstate → dstate → Prop :=
  | DSkip s l1 g l2 : ds_todo s = l1 ++ g :: l2 → skips s g = true →
      dstep resolves s (mkState (l1 ++ l2) (ds_running s) (ds_earliest s) (ds_failed s))
  | DStart s l1 g l2 : ds_todo s = l1 ++ g :: l2 →
      dstep resolves s (mkState (l1 ++ l2) (g :: ds_running s) (ds_earliest s) (ds_failed s))
  | DFinish s l1 g l2 resolve : ds_running s = l1 ++ g :: l2 → resolves resolve →
      dstep resolves s (settle s (l1 ++ l2) g (verifyGroup resolve g)).

Definition detect_start (pbits : nat) (runs : list dedupRun) : dstate :=
  mkState (candidates pbits runs) [] None None.

(** After [wg.Wait]; [ctxErr] is what the context ended with. *)
Definition detect_result (ctxErr : option error) (s : dstate) : result (option Z) :=
  match ctxErr with
  | Some e => Err e
  | None =>
      match ds_failed s, ds_earliest s with
      | Some f, None => Err (fl_error f)
      | Some f, Some e => if fl_bound f <? e then Err (fl_error f) else Ok (Some e)
      | None, e => Ok e
      end
  end.
End Dedup.

(** ** The sequential check of the disk-backed map: model/Block.go, [checkDuplicateInputs]

    Every input goes into the map as it comes; the first that is there already ends
    the scan. *)
Fixpoint set_inputs (seen : gset Inpoint) (inpoints : list Inpoint) : gset Inpoint + unit :=
  match inpoints with
  | [] => inl seen
  | i :: inpoints => if bool_decide (i ∈ seen) then inr tt else set_inputs ({[i]} ∪ seen) inpoints
  end.

Fixpoint scan_block (seen : gset Inpoint) (txs : list (Z * list Inpoint)) : option Z :=
  match txs with
  | [] => None
  | (tx, inpoints) :: txs =>
      match set_inputs seen inpoints with
      | inr _ => Some tx
      | inl seen => scan_block seen txs
      end
  end.
