(* ===== verification/InpointDedupTheorems.v ===== *)
(** * The batched duplicate check agrees with the sequential one

    For any hash function, any number of partitions and any schedule of the workers,
    the verdict of [detect] is the transaction a scan of the block in order stops at. *)

From stdpp Require Import list sorting.
From S2P Require Import Prelude External CountingSort Ordered InpointDedup.

Notation block := (list (Z * list Inpoint)).

(** ** What a duplicate is *)
Definition spent_in (T : block) : list Inpoint := T ≫= snd.

(** Transaction [t] spends an outpoint that a transaction before it, or an input of
    its own before that one, spends. *)
Definition doubles (T : block) (t : Z) : Prop :=
  ∃ T1 ins T2 pre i post, T = T1 ++ (t, ins) :: T2 ∧ ins = pre ++ i :: post ∧ (i ∈ spent_in T1 ∨ i ∈ pre).

Definition ascending (T : block) : Prop := StronglySorted Z.lt (fst <$> T).

(** The block with only the inputs that satisfy a test. *)
Definition only_inputs (P : Inpoint → bool) (T : block) : block :=
  (λ t, (t.1, filter (λ i, P i = true) t.2)) <$> T.

Section Scans.
Lemma spent_in_cons t T : spent_in (t :: T) = t.2 ++ spent_in T.
Proof. done. Qed.

Lemma spent_in_app T1 T2 : spent_in (T1 ++ T2) = spent_in T1 ++ spent_in T2.
Proof. unfold spent_in. apply bind_app. Qed.

Lemma only_spent P T : spent_in (only_inputs P T) = filter (λ i, P i = true) (spent_in T).
Proof.
  unfold spent_in, only_inputs. induction T as [|t T IH]; [done|]. rewrite fmap_cons, !bind_cons, filter_app. by rewrite IH.
Qed.

Lemma filter_split {A} (P : A → Prop) `{∀ x, Decision (P x)} (l pre post : list A) i :
  filter P l = pre ++ i :: post → ∃ pre' post', l = pre' ++ i :: post' ∧ filter P pre' = pre ∧ P i.
Proof.
  revert pre. induction l as [|x l IH]; intros pre Heq; [by destruct pre|]. rewrite filter_cons in Heq.
  case_decide as Hx.
  - destruct pre as [|y pre]; cbn in Heq.
    + injection Heq as -> _. by exists [], l.
    + injection Heq as <- Heq. destruct (IH pre Heq) as (pre' & post' & -> & <- & Hi). exists (x :: pre'), post'.
      split_and!; [done|by rewrite filter_cons_True|done].
  - destruct (IH pre Heq) as (pre' & post' & -> & <- & Hi). exists (x :: pre'), post'.
    split_and!; [done|by rewrite filter_cons_False|done].
Qed.

(** A duplicate is a duplicate among the inputs of one hash. *)
Lemma doubles_only P T t : doubles (only_inputs P T) t ↔
  ∃ T1 ins T2 pre i post, T = T1 ++ (t, ins) :: T2 ∧ ins = pre ++ i :: post ∧ (i ∈ spent_in T1 ∨ i ∈ pre) ∧ P i = true.
Proof.
  split.
  - intros (T1' & ins' & T2' & pre & i & post & HT & Hins & Hi). unfold only_inputs in HT.
    apply fmap_app_inv in HT as (T1 & Tr & HT1 & HTr & ->). symmetry in HTr.
    apply fmap_cons_inv in HTr as (x & T2 & Hx & HT2 & ->). destruct x as [t0 ins]. cbn in Hx. injection Hx as -> ->.
    destruct (filter_split _ _ _ _ _ Hins) as (pre' & post' & -> & <- & HPi).
    exists T1, (pre' ++ i :: post'), T2, pre', i, post'. split_and!; [done|done| |done]. subst T1'.
    fold (only_inputs P T1) in Hi. rewrite only_spent in Hi.
    destruct Hi as [[_ Hi]%list_elem_of_filter|[_ Hi]%list_elem_of_filter]; auto.
  - intros (T1 & ins & T2 & pre & i & post & -> & -> & Hi & HPi). unfold only_inputs. rewrite fmap_app, fmap_cons. cbn.
    do 3 eexists. exists (filter (λ i, P i = true) pre), i, (filter (λ i, P i = true) post).
    split_and!; [done|by rewrite filter_app, filter_cons_True|]. fold (only_inputs P T1). rewrite only_spent.
    destruct Hi as [Hi|Hi]; [left|right]; by apply list_elem_of_filter.
Qed.

Lemma doubles_by_hash (h : Inpoint → Z) T t : doubles T t ↔ ∃ k, doubles (only_inputs (λ i, h i =? k) T) t.
Proof.
  setoid_rewrite doubles_only. split.
  - intros (T1 & ins & T2 & pre & i & post & -> & -> & Hi). exists (h i).
    exists T1, (pre ++ i :: post), T2, pre, i, post. split_and!; [done|done|done|apply Z.eqb_refl].
  - intros (k & T1 & ins & T2 & pre & i & post & -> & -> & Hi & _).
    by exists T1, (pre ++ i :: post), T2, pre, i, post.
Qed.

Lemma set_inputs_spec seen ins :
  match set_inputs seen ins with
  | inl seen' => seen' = list_to_set ins ∪ seen ∧ ∀ pre i post, ins = pre ++ i :: post → i ∉ seen ∧ i ∉ pre
  | inr _ => ∃ pre i post, ins = pre ++ i :: post ∧ (i ∈ seen ∨ i ∈ pre)
  end.
Proof.
  revert seen. induction ins as [|i ins IH]; intros seen; cbn [set_inputs].
  { split; [set_solver|]. intros pre i post H. by destruct pre. }
  case_bool_decide as Hi; [by exists [], i, ins; auto|].
  specialize (IH ({[i]} ∪ seen)). destruct (set_inputs _ ins) as [seen'|].
  - destruct IH as [-> Hno]. split; [set_solver|]. intros [|x pre] j post Heq; cbn in Heq.
    + injection Heq as <- <-. split; [done|]. apply not_elem_of_nil.
    + injection Heq as <- ->. destruct (Hno pre j post eq_refl) as [H1 H2].
      split; [set_solver|]. rewrite elem_of_cons. intros [->|?]; [set_solver|done].
  - destruct IH as (pre & j & post & -> & Hj). exists (i :: pre), j, post. split; [done|].
    rewrite elem_of_cons. destruct Hj as [[->%elem_of_singleton|?]%elem_of_union|?]; auto.
Qed.

(** The scan stops at the first transaction that spends something again. *)
Lemma scan_block_least T : ascending T → least (doubles T) (scan_block ∅ T).
Proof.
  intros Hasc.
  assert (H : ∀ Tr Td, T = Td ++ Tr → (∀ t, ¬ doubles Td t) → least (doubles T) (scan_block (list_to_set (spent_in Td)) Tr));
    [|by apply (H T []); [done|intros t (T1 & ? & ? & ? & ? & ? & Heq & _); by destruct T1]].
  induction Tr as [|[t ins] Tr IH]; intros Td HT Hno; cbn [scan_block].
  { rewrite app_nil_r in HT. by subst Td. }
  assert (Hcase : ∀ t', doubles (Td ++ (t, ins) :: Tr) t' → t' < t → doubles Td t').
  { intros t' (T1 & ins' & T2 & pre & i & post & Heq & Hins & Hi) Hlt.
    unfold ascending in Hasc. rewrite HT in Hasc. apply app_eq_inv in Heq as [(l & -> & Heq)|(l & -> & Heq)].
    - destruct l as [|x l]; cbn in Heq.
      + injection Heq as -> _ _. lia.
      + injection Heq as <- ->. by exists T1, ins', l, pre, i, post.
    - exfalso. destruct l as [|x l]; cbn in Heq; [injection Heq as -> _ _; lia|]. injection Heq as <- Heq. subst Tr.
      rewrite fmap_app in Hasc. clear - Hasc Hlt. induction Td as [|y Td IH].
      + cbn in Hasc. apply StronglySorted_inv in Hasc as [_ Hf]. rewrite fmap_app in Hf.
        apply Forall_app in Hf as [_ [Hf _]%Forall_cons]. cbn in Hf. lia.
      + apply IH. by apply StronglySorted_inv in Hasc as [? _]. }
  pose proof (set_inputs_spec (list_to_set (spent_in Td)) ins) as Hs. destruct (set_inputs _ ins) as [seen'|].
  - destruct Hs as [-> Hfresh].
    assert (Hsp : list_to_set ins ∪ list_to_set (spent_in Td) = (list_to_set (spent_in (Td ++ [(t, ins)])) : gset Inpoint))
      by (rewrite spent_in_app, spent_in_cons; cbn; rewrite app_nil_r; set_solver).
    rewrite Hsp. apply IH; [by rewrite <- app_assoc|]. intros t' (T1 & ins' & T2 & pre & i & post & Heq & Hins & Hi).
    destruct T2 as [|x T2] using rev_ind.
    + apply app_inj_tail in Heq as [<- [= -> ->]]. destruct (Hfresh pre i post Hins) as [H1 H2].
      rewrite elem_of_list_to_set in H1. by destruct Hi.
    + rewrite app_comm_cons, app_assoc in Heq. apply app_inj_tail in Heq as [-> _]. apply (Hno t').
      by exists T1, ins', T2, pre, i, post.
  - destruct Hs as (pre & i & post & -> & Hi). rewrite elem_of_list_to_set in Hi. rewrite HT. split.
    + by exists Td, (pre ++ i :: post), Tr, pre, i, post.
    + intros t' Ht'. destruct (Z.le_gt_cases t t') as [?|Hlt]; [done|]. by destruct (Hno t'); apply Hcase.
Qed.
End Scans.

Lemma raise_bits_le fuel start more cap : (start ≤ cap)%nat → (∀ b, more b = true → (b < cap)%nat) →
  (start ≤ raise_bits fuel start more ≤ cap)%nat.
Proof.
  intros Hs Hm. revert start Hs. induction fuel as [|fuel IH]; intros start Hs; cbn [raise_bits]; [lia|].
  destruct (more start) eqn:E; [|lia]. specialize (IH (S start) ltac:(specialize (Hm _ E); lia)). lia.
Qed.

(** ** The groups are the entries of one hash *)
Section Groups.
  Context (hash : Inpoint → Z).
  Hypothesis hash_u64 : ∀ i, is_u64 (hash i).
  Context (w : Z).

Definition entry_of (t : Z) (i : Inpoint) : dedupEntry :=
  mkEntry (u32 (Z.shiftr (hash i) 32)) (u32 (hash i)) (t mod 2^w).

Definition entries_of (T : block) : list dedupEntry := T ≫= λ t, entry_of t.1 <$> t.2.

Lemma key_entry t i : key (entry_of t i) = hash i.
Proof.
  unfold key, entry_of. cbn. pose proof (hash_u64 i) as Hh. set (h := hash i) in *.
  rewrite (u32_small (Z.shiftr h 32)).
  2: { rewrite Z.shiftr_div_pow2 by lia. split; [apply Z.div_pos; lia|]. apply Z.div_lt_upper_bound; lia. }
  apply Z.bits_inj'. intros n Hn. rewrite Z.lor_spec. unfold u32. destruct (Z.le_gt_cases 32 n).
  - rewrite Z.shiftl_spec, Z.mod_pow2_bits_high, Z.shiftr_spec, orb_false_r by lia. f_equal. lia.
  - rewrite Z.shiftl_spec_low, Z.mod_pow2_bits_low by lia. done.
Qed.

Lemma run_of_eq T : run_of hash w T = entries_of T.
Proof.
  unfold run_of, entries_of.
  assert (H : ∀ acc, foldl (λ es t, addTx hash w es t.1 t.2) acc T = acc ++ (T ≫= λ t, entry_of t.1 <$> t.2)).
  { induction T as [|t T IH]; intros acc; [by rewrite app_nil_r|]. cbn [foldl]. rewrite IH, bind_cons, app_assoc. done. }
  apply H.
Qed.

Lemma entries_u64 T : Forall (λ e, is_u64 (key e)) (entries_of T).
Proof.
  apply Forall_forall. intros e (t & He & _)%list_elem_of_bind. apply list_elem_of_fmap in He as (i & -> & _).
  by rewrite key_entry.
Qed.

Section Partitions.
  Context (pbits : nat).
  Hypothesis pbits_fit : (pbits ≤ 64)%nat.

Lemma partition_lt e : is_u64 (key e) → (partition pbits (key e) < 2 ^ pbits)%nat.
Proof.
  intros He. unfold partition. destruct (Nat.eqb_spec pbits 0) as [->|Hp]; [cbn; lia|].
  rewrite Z.shiftr_div_pow2 by lia. apply Nat2Z.inj_lt. rewrite Z2Nat.id by (apply Z.div_pos; lia).
  rewrite Nat2Z.inj_pow. apply Z.div_lt_upper_bound; [lia|]. rewrite <- Z.pow_add_r by lia.
  replace (64 - Z.of_nat pbits + Z.of_nat pbits) with 64 by lia. lia.
Qed.

Abbreviation part e := (partition pbits (key e)).

Lemma finish_slice T r a b : finish pbits (run_of hash w T) = Some r → (a ≤ b)%nat → (b ≤ 2 ^ pbits)%nat →
  match run_offs r with
  | None => []
  | Some offs => slice (offs !!! a) (offs !!! b) (run_entries r)
  end ≡ₚ filter (λ e, (a ≤ part e < b)%nat) (entries_of T).
Proof.
  rewrite run_of_eq. unfold finish. intros Hr Hab Hb. case_bool_decide as He.
  { injection Hr as <-. rewrite He. done. }
  case_match; [done|]. injection Hr as <-. cbn [run_offs run_entries].
  assert (Hn : Forall (λ e, (part e < 2 ^ pbits)%nat) (entries_of T)).
  { eapply Forall_impl; [apply entries_u64|]. cbn. intros e. apply partition_lt. }
  pose proof (lookup_offsets _ _ _ a Hn ltac:(lia)) as Ha. pose proof (lookup_offsets _ _ _ b Hn Hb) as Hbb.
  rewrite (list_lookup_total_correct _ _ _ Ha), (list_lookup_total_correct _ _ _ Hbb).
  by apply sorted_slice.
Qed.

Lemma run_slice_eq T r shift p : finish pbits (run_of hash w T) = Some r →
  ((p + 1) * 2 ^ shift ≤ 2 ^ pbits)%nat →
  run_slice shift p r ≡ₚ filter (λ e, (part e / 2 ^ shift)%nat = p) (entries_of T).
Proof.
  intros Hr Hp. unfold run_slice. rewrite (finish_slice T r _ _ Hr) by lia.
  assert (Hiff : ∀ e, (p * 2 ^ shift ≤ part e < (p + 1) * 2 ^ shift)%nat ↔ (part e / 2 ^ shift)%nat = p).
  { intros e. assert (Hpos : (2 ^ shift ≠ 0)%nat) by (apply Nat.pow_nonzero; lia). split.
    - intros [H1 H2]. symmetry. apply (Nat.div_unique _ _ _ (part e - p * 2 ^ shift)); lia.
    - intros <-. pose proof (Nat.div_mod_eq (part e) (2 ^ shift)). pose proof (Nat.mod_upper_bound (part e) (2 ^ shift) Hpos). lia. }
  rewrite (list_filter_iff _ _ _ Hiff). done.
Qed.

Lemma buffer_eq Ts runs shift p : Forall2 (λ T r, finish pbits (run_of hash w T) = Some r) Ts runs →
  ((p + 1) * 2 ^ shift ≤ 2 ^ pbits)%nat →
  partition_buffer shift p runs ≡ₚ filter (λ e, (part e / 2 ^ shift)%nat = p) (entries_of (mjoin Ts)).
Proof.
  intros Hruns Hp. unfold partition_buffer. rewrite merge_sort_Permutation.
  induction Hruns as [|T r Ts runs Hr _ IH]; [done|]. rewrite bind_cons, IH, (run_slice_eq T) by done.
  unfold entries_of. cbn [mjoin list_join]. by rewrite bind_app, filter_app.
Qed.

#[local] Instance entry_le_total : Total entry_le.
Proof. intros a b. unfold entry_le. lia. Qed.

#[local] Instance entry_le_trans : Transitive entry_le.
Proof. intros a b c. unfold entry_le. lia. Qed.

Lemma same_key_sorted k buf : StronglySorted entry_le buf → Forall (λ e, k ≤ key e) buf →
  same_key k buf = (filter (λ e, key e = k) buf, filter (λ e, key e ≠ k) buf).
Proof.
  induction buf as [|e buf IH]; [done|]. intros [Hs He]%StronglySorted_inv [Hk Hbuf]%Forall_cons. cbn [same_key].
  rewrite !filter_cons. destruct (Z.eqb_spec (key e) k) as [Heq|Hne].
  - rewrite IH, decide_True, decide_False by (done || tauto). done.
  - rewrite decide_False, decide_True by done. assert (Hlt : Forall (λ x, key x ≠ k) buf).
    { eapply Forall_impl; [exact He|]. intros x. unfold entry_le. cbn. lia. }
    rewrite list_filter_none, list_filter_all; [done| |]; intros x Hx; by apply (proj1 (Forall_forall _ _) Hlt).
Qed.

Lemma sorted_filter (P : dedupEntry → Prop) `{∀ x, Decision (P x)} l :
  StronglySorted entry_le l → StronglySorted entry_le (filter P l).
Proof.
  induction 1 as [|x l Hl IH Hx]; [constructor|]. rewrite filter_cons. case_decide; [|done]. constructor; [done|].
  apply Forall_forall. intros y [_ Hy]%list_elem_of_filter. by apply (proj1 (Forall_forall _ _) Hx).
Qed.

(** The groups of a sorted buffer: one for each hash, complete. *)
Lemma equal_runs_spec fuel buf : StronglySorted entry_le buf → (length buf ≤ fuel)%nat →
  ∀ g, g ∈ equal_runs fuel buf ↔ ∃ k, g = filter (λ e, key e = k) buf ∧ g ≠ [].
Proof.
  revert buf. induction fuel as [|fuel IH]; intros buf Hs Hlen g; (destruct buf as [|e buf]; [|]); cbn [equal_runs].
  1, 3: rewrite elem_of_nil; split; [done|]; intros (k & -> & Hne); by destruct Hne.
  { cbn in Hlen. lia. }
  pose proof Hs as [Hs' He]%StronglySorted_inv. cbn in Hlen.
  assert (Hge : Forall (λ x, key e ≤ key x) buf) by (eapply Forall_impl; [exact He|]; intros x; unfold entry_le; cbn; lia).
  rewrite same_key_sorted by done. rewrite elem_of_cons.
  assert (Hfirst : e :: filter (λ x, key x = key e) buf = filter (λ x, key x = key e) (e :: buf))
    by (by rewrite filter_cons_True).
  rewrite IH; [|by apply sorted_filter|etrans; [apply length_filter|lia]].
  assert (Hother : ∀ k, k ≠ key e → filter (λ x, key x = k) (filter (λ x, key x ≠ key e) buf) =
    filter (λ x, key x = k) (e :: buf)).
  { intros k Hk. rewrite filter_cons_False by auto. rewrite list_filter_filter. apply list_filter_iff. intros x. split; [by intros []|]. intros <-. done. }
  split.
  - intros [Hg|(k & Hg & Hne)]; [exists (key e); rewrite Hg, <- Hfirst; by split|]. destruct (decide (k = key e)) as [->|Hk].
    + exfalso. apply Hne. rewrite Hg. apply list_filter_none. intros x [Hx _]%list_elem_of_filter. done.
    + exists k. split; [|done]. by rewrite Hg, Hother.
  - intros (k & Hg & Hne). destruct (decide (k = key e)) as [->|Hk]; [left; by rewrite Hg, Hfirst|right].
    exists k. split; [|done]. by rewrite Hother.
Qed.

(** What the workers are given: for each hash that two entries or more have, all its
    entries, once for each time it comes up. *)
Lemma candidates_spec Ts runs g : Forall2 (λ T r, finish pbits (run_of hash w T) = Some r) Ts runs →
  g ∈ candidates pbits runs → ∃ k, g ≡ₚ filter (λ e, key e = k) (entries_of (mjoin Ts)) ∧
    StronglySorted entry_le g ∧ (2 ≤ length g)%nat.
Proof.
  intros Hruns Hg. unfold candidates in Hg. set (gbits := group_bits pbits runs) in *. cbn zeta in Hg.
  assert (Hgb : (0 ≤ gbits ≤ pbits)%nat).
  { unfold gbits, group_bits. apply raise_bits_le; [lia|]. intros b [Hb _]%andb_true_iff. by apply Nat.ltb_lt in Hb. }
  apply list_elem_of_bind in Hg as (p & Hg & Hp%elem_of_seq). apply list_elem_of_filter in Hg as [Hlen Hg].
  assert (Hfit : ((p + 1) * 2 ^ (pbits - gbits) ≤ 2 ^ pbits)%nat).
  { replace pbits with (gbits + (pbits - gbits))%nat at 2 by lia. rewrite Nat.pow_add_r. apply Nat.mul_le_mono_r. lia. }
  pose proof (buffer_eq Ts runs _ p Hruns Hfit) as Hbuf. set (buf := partition_buffer _ p runs) in *.
  assert (Hsorted : StronglySorted entry_le buf) by (apply StronglySorted_merge_sort; apply _).
  apply equal_runs_spec in Hg as (k & -> & Hne); [|done|done]. exists k. split_and!; [|by apply sorted_filter|done].
  rewrite Hbuf. rewrite list_filter_filter. destruct (filter (λ e, key e = k) buf) as [|e0 l0] eqn:E; [done|].
  assert (He0 : e0 ∈ buf ∧ key e0 = k).
  { assert (e0 ∈ filter (λ e, key e = k) buf) as [? ?]%list_elem_of_filter by (rewrite E; apply elem_of_cons; by left). done. }
  destruct He0 as [He0 <-]. rewrite Hbuf in He0. apply list_elem_of_filter in He0 as [He0 _].
  rewrite (list_filter_iff _ (λ e, key e = key e0)); [done|]. intros x. split; [by intros []|]. intros Hx. split; [done|]. by rewrite Hx.
Qed.

Lemma candidates_complete Ts runs k : Forall2 (λ T r, finish pbits (run_of hash w T) = Some r) Ts runs →
  (2 ≤ length (filter (λ e, key e = k) (entries_of (mjoin Ts))))%nat →
  ∃ g, g ∈ candidates pbits runs ∧ g ≡ₚ filter (λ e, key e = k) (entries_of (mjoin Ts)).
Proof.
  intros Hruns Hlen. set (E := entries_of (mjoin Ts)) in *.
  assert (Hex : ∃ e0, e0 ∈ E ∧ key e0 = k).
  { destruct (filter (λ e, key e = k) E) as [|e0 l0] eqn:Eq; [cbn in Hlen; lia|].
    assert (e0 ∈ filter (λ e, key e = k) E) as [? ?]%list_elem_of_filter by (rewrite Eq; apply elem_of_cons; by left). eauto. }
  destruct Hex as (e0 & He0 & <-). unfold candidates. set (gbits := group_bits pbits runs). cbn zeta.
  assert (Hgb : (0 ≤ gbits ≤ pbits)%nat).
  { unfold gbits, group_bits. apply raise_bits_le; [lia|]. intros b [Hb _]%andb_true_iff. by apply Nat.ltb_lt in Hb. }
  set (shift := (pbits - gbits)%nat). set (p := (part e0 / 2 ^ shift)%nat).
  assert (Hu : is_u64 (key e0)) by (apply (proj1 (Forall_forall _ _) (entries_u64 (mjoin Ts)) e0 He0)).
  assert (Hpow : (2 ^ pbits = 2 ^ gbits * 2 ^ shift)%nat) by (rewrite <- Nat.pow_add_r; f_equal; unfold shift; lia).
  assert (Hshift : (2 ^ shift ≠ 0)%nat) by (apply Nat.pow_nonzero; lia).
  assert (Hp : (p < 2 ^ gbits)%nat).
  { unfold p. apply Nat.Div0.div_lt_upper_bound. pose proof (partition_lt e0 Hu). lia. }
  assert (Hfit : ((p + 1) * 2 ^ shift ≤ 2 ^ pbits)%nat) by (rewrite Hpow; apply Nat.mul_le_mono_r; lia).
  pose proof (buffer_eq Ts runs shift p Hruns Hfit) as Hbuf. fold E in Hbuf. set (buf := partition_buffer shift p runs) in *.
  assert (Hperm : filter (λ e, key e = key e0) buf ≡ₚ filter (λ e, key e = key e0) E).
  { rewrite Hbuf, list_filter_filter. rewrite (list_filter_iff _ (λ e, key e = key e0)); [done|].
    intros x. split; [by intros []|]. intros Hx. split; [done|]. by rewrite Hx. }
  exists (filter (λ e, key e = key e0) buf). split; [|done]. apply list_elem_of_bind. exists p.
  split; [|apply elem_of_seq; lia]. fold buf. apply list_elem_of_filter. split; [by rewrite Hperm|].
  apply equal_runs_spec; [apply StronglySorted_merge_sort; apply _|done|]. exists (key e0). split; [done|].
  intros Hnil. rewrite Hnil in Hperm. rewrite <- Hperm in Hlen. cbn in Hlen. lia.
Qed.
End Partitions.
End Groups.

(** ** Verifying a group is scanning the inputs of its hash *)
Section Verify.
  Context (hash : Inpoint → Z).
  Hypothesis hash_u64 : ∀ i, is_u64 (hash i).
  Context (w : Z).

Abbreviation of_key k := (only_inputs (λ i, hash i =? k)).

(** The transactions of the entries of a hash, in order. *)
Definition txs_of (k : Z) (T : block) : list Z :=
  T ≫= λ t, replicate (length (filter (λ i, (hash i =? k) = true) t.2)) t.1.

Definition fits (T : block) : Prop := Forall (λ t, 0 ≤ t.1 < 2 ^ w) T.

Lemma txs_entries k T : fits T →
  map de_tx (filter (λ e, key e = k) (entries_of hash w T)) = txs_of k T.
Proof.
  unfold entries_of, txs_of. induction 1 as [|[t ins] T Ht _ IH]; [done|].
  rewrite !bind_cons, filter_app, map_app, IH. f_equal. cbn [fst snd] in *. clear IH.
  induction ins as [|i ins IHi]; [done|]. rewrite fmap_cons, !filter_cons, key_entry by done.
  destruct (Z.eqb_spec (hash i) k).
  - rewrite decide_True, decide_True by done. cbn. rewrite IHi. f_equal. by apply Z.mod_small.
  - by rewrite decide_False, decide_False by done.
Qed.

Lemma txs_sorted k T : ascending T → StronglySorted Z.le (txs_of k T).
Proof.
  unfold ascending, txs_of. induction T as [|[t ins] T IH]; [constructor|]. rewrite fmap_cons, bind_cons.
  intros [Hs Ht]%StronglySorted_inv. specialize (IH Hs). cbn [fst snd] in *.
  assert (Hle : Forall (Z.le t) (T ≫= λ t, replicate (length (filter (λ i, (hash i =? k) = true) t.2)) t.1)).
  { apply Forall_forall. intros x (t' & [-> _]%elem_of_replicate & Ht')%list_elem_of_bind.
    apply Z.lt_le_incl. apply (proj1 (Forall_forall _ _) Ht). apply list_elem_of_fmap. by exists t'. }
  generalize (length (filter (λ i, (hash i =? k) = true) ins)). intros n.
  induction n as [|n IHn]; [done|]. constructor; [done|]. apply Forall_app. split; [|done].
  apply Forall_forall. intros x [-> _]%elem_of_replicate. done.
Qed.

Lemma group_txs k g T : ascending T → fits T → g ≡ₚ filter (λ e, key e = k) (entries_of hash w T) →
  StronglySorted entry_le g → map de_tx g = txs_of k T.
Proof.
  intros Hasc Hfit Hg Hs. assert (Hkey : Forall (λ e, key e = k) g).
  { apply Forall_forall. intros e. rewrite Hg. by intros [? _]%list_elem_of_filter. }
  apply (StronglySorted_unique Z.le); [|by apply txs_sorted|by rewrite <- txs_entries, Hg].
  clear Hg. induction Hs as [|e g Hs IH He]; [constructor|]. apply Forall_cons in Hkey as [Hk Hkey]. cbn. constructor; [auto|].
  apply Forall_forall. intros x (y & -> & Hy)%list_elem_of_fmap.
  pose proof (proj1 (Forall_forall _ _) He y Hy) as Hle. pose proof (proj1 (Forall_forall _ _) Hkey y Hy) as Hky.
  cbn in Hky. unfold entry_le in Hle. lia.
Qed.

Lemma take_inputs_eq k seen ins : take_inputs hash k seen ins = set_inputs seen (filter (λ i, (hash i =? k) = true) ins).
Proof.
  revert seen. induction ins as [|i ins IH]; intros seen; [done|]. cbn [take_inputs]. rewrite filter_cons.
  destruct (hash i =? k); cbn [negb]; [|by rewrite decide_False by done].
  rewrite decide_True by done. cbn [set_inputs]. case_bool_decide; [done|apply IH].
Qed.

Lemma verify_skip resolve k seen t n es rest : map de_tx es = replicate n t ++ rest →
  ∃ es', map de_tx es' = rest ∧
    verify_from hash resolve k seen (Some t) es = verify_from hash resolve k seen (Some t) es'.
Proof.
  revert es. induction n as [|n IH]; intros es Hes; [by exists es|]. destruct es as [|e es]; [done|].
  injection Hes as He Hes. destruct (IH es Hes) as (es' & H1 & H2). exists es'. split; [done|].
  cbn [verify_from]. by rewrite bool_decide_eq_true_2 by (by rewrite He).
Qed.

(** What a resolver may answer: the inputs, or an error. *)
Definition answers (T : block) (resolve : Z → result (list Inpoint)) : Prop :=
  ∀ t, t ∈ T → resolve t.1 = Ok t.2 ∨ ∃ e, resolve t.1 = Err e.

Lemma verify_from_spec resolve k T es seen prev : answers T resolve → ascending T → map de_tx es = txs_of k T →
  (∀ p, prev = Some p → Forall (λ t, p < t.1) T) →
  verify_from hash resolve k seen prev es = Ok (scan_block seen (of_key k T)) ∨
  ∃ e t, verify_from hash resolve k seen prev es = Err e ∧ t ∈ T ∧ resolve t.1 = Err e.
Proof.
  revert es seen prev. induction T as [|[t ins] T IH]; intros es seen prev Hans Hasc Hes Hprev.
  { apply map_eq_nil in Hes as ->. by left. }
  unfold ascending in Hasc. rewrite fmap_cons in Hasc. apply StronglySorted_inv in Hasc as [Hasc Ht].
  assert (Hans' : answers T resolve) by (intros t' Ht'; apply Hans, elem_of_cons; by right).
  assert (Hnext : Forall (λ t', t < t'.1) T) by (rewrite Forall_fmap in Ht; exact Ht).
  unfold txs_of in Hes. rewrite bind_cons in Hes. fold (txs_of k T) in Hes. cbn [fst snd] in Hes.
  unfold only_inputs. rewrite fmap_cons. cbn [scan_block fst snd]. fold (of_key k T).
  set (ins_k := filter _ ins) in *.
  assert (Htail : ∀ es seen prev, map de_tx es = txs_of k T → (∀ p, prev = Some p → Forall (λ t, p < t.1) T) →
    verify_from hash resolve k seen prev es = Ok (scan_block seen (of_key k T)) ∨
    ∃ e t', verify_from hash resolve k seen prev es = Err e ∧ t' ∈ (t, ins) :: T ∧ resolve t'.1 = Err e).
  { intros es' seen' prev' H1 H2. destruct (IH es' seen' prev' Hans' Hasc H1 H2) as [?|(e & t' & ? & ? & ?)]; [by left|right].
    exists e, t'. rewrite elem_of_cons. auto. }
  destruct ins_k as [|i ins_k'] eqn:Ei; cbn [length replicate app] in Hes.
  { apply Htail; [done|]. intros p Hp. by apply Hprev, Forall_cons in Hp as [_ ?]. }
  destruct es as [|e es]; [done|]. injection Hes as He Hes. cbn [verify_from].
  rewrite bool_decide_eq_false_2.
  2: { intros ->. specialize (Hprev _ eq_refl). apply Forall_cons in Hprev as [H _]. cbn in H. lia. }
  rewrite He. destruct (Hans (t, ins) ltac:(apply elem_of_cons; by left)) as [Hr|[e' Hr]]; cbn in Hr; rewrite Hr.
  2: { right. exists e', (t, ins). split_and!; [done|apply elem_of_cons; by left|done]. }
  rewrite take_inputs_eq. fold ins_k. rewrite Ei. destruct (set_inputs seen (i :: ins_k')) as [seen'|]; [|by left].
  destruct (verify_skip resolve k seen' t _ _ _ Hes) as (es' & Hes' & ->). apply Htail; [done|]. by intros p [= <-].
Qed.

(** The second transaction of a group is no later than its duplicate. *)
Lemma bound_le k T d : ascending T → doubles (of_key k T) d →
  ∃ j, (1 ≤ j)%nat ∧ txs_of k T !! j = Some d.
Proof.
  intros Hasc (T1 & ins & T2 & pre & i & post & -> & -> & Hi & Hk)%doubles_only.
  unfold txs_of. rewrite bind_app, bind_cons. fold (txs_of k T1). cbn [fst snd].
  rewrite filter_app, filter_cons_True, length_app by done. cbn [length].
  destruct Hi as [Hi|Hi].
  - assert (Hpos : (0 < length (txs_of k T1))%nat).
    { apply list_elem_of_bind in Hi as (t & Hit & Ht). destruct (txs_of k T1) eqn:E; [|cbn; lia]. exfalso.
      assert (t.1 ∈ txs_of k T1) as Hin; [|rewrite E in Hin; by apply elem_of_nil in Hin].
      apply list_elem_of_bind. exists t. split; [|done]. apply elem_of_replicate. split; [done|].
      intros H0%length_zero_iff_nil. assert (i ∈ filter (λ i, (hash i =? k) = true) t.2) as Hin by (by apply list_elem_of_filter).
      rewrite H0 in Hin. by apply elem_of_nil in Hin. }
    exists (length (txs_of k T1)). split; [done|]. rewrite lookup_app_r, Nat.sub_diag by done.
    by rewrite Nat.add_succ_r.
  - assert (Hpos : (0 < length (filter (λ i, (hash i =? k)%Z = true) pre))%nat).
    { assert (i ∈ filter (λ i, (hash i =? k) = true) pre) as Hin by (by apply list_elem_of_filter).
      destruct (filter _ pre); [by apply elem_of_nil in Hin|cbn; lia]. }
    exists (S (length (txs_of k T1))). split; [lia|]. rewrite lookup_app_r by lia.
    rewrite lookup_app_l by (rewrite length_replicate; lia). apply lookup_replicate. split; [done|lia].
Qed.

Lemma group_bound_le k g T d : ascending T → fits T → g ≡ₚ filter (λ e, key e = k) (entries_of hash w T) →
  StronglySorted entry_le g → doubles (of_key k T) d → group_bound g ≤ d.
Proof.
  intros Hasc Hfit Hg Hs Hd. destruct (bound_le k T d Hasc Hd) as (j & Hj & Hlook).
  pose proof (group_txs k g T Hasc Hfit Hg Hs) as Htx. pose proof (txs_sorted k T Hasc) as Hsort. rewrite <- Htx in *.
  assert (Hlen : (j < length g)%nat) by (apply lookup_lt_Some in Hlook; by rewrite length_map in Hlook).
  unfold group_bound. rewrite Nat.min_l by lia. destruct g as [|e0 [|e1 g]]; cbn in Hlen; [lia|lia|]. cbn.
  destruct j as [|[|j]]; [lia|by injection Hlook as <-|]. cbn in Hsort, Hlook.
  apply StronglySorted_inv in Hsort as [[_ Hf]%StronglySorted_inv _].
  apply (proj1 (Forall_forall _ _) Hf). by apply list_elem_of_lookup_2 in Hlook.
Qed.

Lemma group_exists k T d : ascending T → fits T → doubles (of_key k T) d →
  (2 ≤ length (filter (λ e, key e = k) (entries_of hash w T)))%nat.
Proof.
  intros Hasc Hfit Hd. destruct (bound_le k T d Hasc Hd) as (j & Hj & Hlook). apply lookup_lt_Some in Hlook.
  rewrite <- txs_entries, length_map in Hlook by done. lia.
Qed.

Lemma verify_group_spec resolve k g T : answers T resolve → ascending T → fits T →
  g ≡ₚ filter (λ e, key e = k) (entries_of hash w T) → StronglySorted entry_le g → (2 ≤ length g)%nat →
  verifyGroup hash resolve g = Ok (scan_block ∅ (of_key k T)) ∨
  ∃ e t, verifyGroup hash resolve g = Err e ∧ t ∈ T ∧ resolve t.1 = Err e.
Proof.
  intros Hans Hasc Hfit Hg Hs Hlen. unfold verifyGroup.
  assert (Hk : default 0 (key <$> head g) = k).
  { destruct g as [|e g]; [cbn in Hlen; lia|]. cbn. assert (e ∈ e :: g) as He by (apply elem_of_cons; by left).
    rewrite Hg in He. by apply list_elem_of_filter in He as [? _]. }
  rewrite Hk. apply verify_from_spec; [done|done|by apply group_txs|done].
Qed.
End Verify.

(** ** Any schedule *)
Section Schedules.
  Context (hash : Inpoint → Z) (text_before : error → error → bool).
  Hypothesis hash_u64 : ∀ i, is_u64 (hash i).
  Context (w : Z) (T : block) (resolves : (Z → result (list Inpoint)) → Prop).
  Hypothesis T_ascending : ascending T.
  Hypothesis T_fits : fits w T.
  Hypothesis resolves_answer : ∀ resolve, resolves resolve → answers T resolve.

Abbreviation of_key k := (only_inputs (λ i, hash i =? k) T).
Abbreviation dstep := (dstep hash text_before resolves).

Definition group_of_key (g : list dedupEntry) (k : Z) : Prop :=
  g ≡ₚ filter (λ e, key e = k) (entries_of hash w T) ∧ StronglySorted entry_le g ∧ (2 ≤ length g)%nat.

(** A duplicate among the inputs of a hash is still to be looked for, or a verdict at
    or below it is known. *)
Record dedup_inv (s : dstate) : Prop := {
  di_groups g : g ∈ ds_todo s ++ ds_running s → ∃ k, group_of_key g k;
  di_earliest e : ds_earliest s = Some e → doubles T e;
  di_failed f : ds_failed s = Some f → ∃ resolve t, resolves resolve ∧ t ∈ T ∧ resolve t.1 = Err (fl_error f);
  di_found k d : doubles (of_key k) d →
    (∃ g, group_of_key g k ∧ g ∈ ds_todo s ++ ds_running s) ∨
    (∃ e, ds_earliest s = Some e ∧ e ≤ d) ∨ (∃ f, ds_failed s = Some f ∧ fl_bound f ≤ d);
}.

Lemma skips_true s g d : skips s g = true → group_bound g ≤ d →
  (∃ e, ds_earliest s = Some e ∧ e ≤ d) ∨ (∃ f, ds_failed s = Some f ∧ fl_bound f ≤ d).
Proof.
  unfold skips. intros [H|H]%orb_true_iff Hb.
  - destruct (ds_earliest s) as [e|]; cbn in H; [|done]. left. exists e. split; [done|]. lia.
  - destruct (ds_failed s) as [f|]; cbn in H; [|done]. right. exists f. split; [done|]. lia.
Qed.

Lemma failGroup_bound old new : ∃ f, failGroup text_before old new = Some f ∧ fl_bound f ≤ fl_bound new ∧
  (∀ f0, old = Some f0 → fl_bound f ≤ fl_bound f0) ∧ (f = new ∨ old = Some f).
Proof.
  unfold failGroup. destruct old as [f|]; [|exists new; split_and!; [done|lia|done|by left]].
  destruct (_ || _) eqn:E.
  - exists new. split_and!; [done|lia| |by left]. intros f0 [= <-].
    apply orb_true_iff in E as [?|[? _]%andb_true_iff]; lia.
  - exists f. apply orb_false_iff in E as [E _]. split_and!; [done|lia| |by right]. intros f0 [= <-]. lia.
Qed.

Lemma settle_ok s l1 g l2 resolve : resolves resolve → ds_running s = l1 ++ g :: l2 → dedup_inv s →
  dedup_inv (settle text_before s (l1 ++ l2) g (verifyGroup hash resolve g)).
Proof.
  intros Hr Hrun [Hg He Hf Hd].
  assert (Hin : ∀ g', g' ∈ ds_todo s ++ l1 ++ l2 → g' ∈ ds_todo s ++ ds_running s)
    by (rewrite Hrun; intros g'; rewrite !elem_of_app, elem_of_cons; tauto).
  assert (Hout : ∀ g', g' ∈ ds_todo s ++ ds_running s → g' = g ∨ g' ∈ ds_todo s ++ l1 ++ l2)
    by (rewrite Hrun; intros g'; rewrite !elem_of_app, elem_of_cons; tauto).
  destruct (Hg g) as (k0 & Hk1 & Hk2 & Hk3); [rewrite Hrun; rewrite !elem_of_app, elem_of_cons; tauto|].
  destruct (verify_group_spec hash hash_u64 w resolve k0 g T (resolves_answer _ Hr) T_ascending T_fits Hk1 Hk2 Hk3)
    as [->|(e' & t & -> & Ht & Hrt)]; cbn [settle].
  - assert (Hleast : ∀ k, group_of_key g k → least (doubles (of_key k)) (scan_block ∅ (of_key k0))).
    { intros k [Hk _]. assert (k = k0) as ->.
      { destruct g as [|e g]; [cbn in Hk3; lia|]. assert (He' : e ∈ e :: g) by (apply elem_of_cons; by left).
        pose proof He' as He0. rewrite Hk in He'. rewrite Hk1 in He0.
        apply list_elem_of_filter in He' as [<- _], He0 as [<- _]. done. }
      apply scan_block_least. unfold ascending, only_inputs. rewrite <- list_fmap_compose. exact T_ascending. }
    destruct (scan_block ∅ (of_key k0)) as [tx|].
    + split; cbn.
      * intros g' Hg'. by apply Hg, Hin.
      * intros e [= <-]. destruct (Hleast k0) as [Htx _]; [by split_and!|].
        destruct (ds_earliest s) as [cur|] eqn:Ec; [destruct (tx >=? cur)|]; [by apply He| |];
          apply (doubles_by_hash hash); by exists k0.
      * done.
      * intros k d Hkd. destruct (Hd k d Hkd) as [(g' & Hg' & [->|Hg'in]%Hout)|[(e & He' & Hle)|Hfail]].
        -- right. left. eexists. split; [done|]. destruct (Hleast k Hg') as [_ Hmin]. specialize (Hmin d Hkd).
           destruct (ds_earliest s) as [cur|]; [|done]. case_match; lia.
        -- left. by exists g'.
        -- right. left. eexists. split; [done|]. rewrite He'. case_match; lia.
        -- by right; right.
    + split; cbn; [intros g' Hg'; by apply Hg, Hin|done|done|].
      intros k d Hkd. destruct (Hd k d Hkd) as [(g' & Hg' & [->|Hg'in]%Hout)|Hother]; [|left; by exists g'|by right].
      by destruct (Hleast k Hg' d).
  - destruct (failGroup_bound (ds_failed s) (mkFailure (group_bound g) (default 0 (de_tx <$> head g)) e'))
      as (f & Hff & Hb & Hold & Hwhich). split; cbn; [intros g' Hg'; by apply Hg, Hin|done| |].
    + intros f'. rewrite Hff. intros [= <-]. destruct Hwhich as [->|Hfo]; [by exists resolve, t|by apply Hf].
    + intros k d Hkd. rewrite Hff. destruct (Hd k d Hkd) as [(g' & Hg' & [->|Hg'in]%Hout)|[He'|(f0 & Hf0 & Hle)]].
      * right. right. exists f. split; [done|]. cbn in Hb. destruct Hg' as (H1 & H2 & H3).
        pose proof (group_bound_le hash hash_u64 w k g T d T_ascending T_fits H1 H2 Hkd). lia.
      * left. by exists g'.
      * by right; left.
      * right. right. exists f. split; [done|]. specialize (Hold f0 Hf0). lia.
Qed.

Lemma dstep_ok s s' : dstep s s' → dedup_inv s → dedup_inv s'.
Proof.
  intros [s0 l1 g l2 Htodo Hskip|s0 l1 g l2 Htodo|s0 l1 g l2 resolve Hrun Hr] Hinv; [| |by apply settle_ok].
  - destruct Hinv as [Hg He Hf Hd]. rewrite Htodo in Hg, Hd. split; cbn; [|done|done|].
    + intros g' Hg'. apply Hg. rewrite !elem_of_app, elem_of_cons in *. tauto.
    + intros k d Hkd. destruct (Hd k d Hkd) as [(g' & Hg' & Hin)|?]; [|by right].
      rewrite !elem_of_app, elem_of_cons in Hin. destruct (decide (g' = g)) as [->|Hne].
      * right. apply (skips_true s0 g); [done|]. destruct Hg' as (H1 & H2 & H3).
        exact (group_bound_le hash hash_u64 w k g T d T_ascending T_fits H1 H2 Hkd).
      * left. exists g'. split; [done|]. rewrite !elem_of_app. tauto.
  - destruct Hinv as [Hg He Hf Hd]. rewrite Htodo in Hg, Hd. split; cbn; [|done|done|].
    + intros g' Hg'. apply Hg. rewrite !elem_of_app, !elem_of_cons in *. tauto.
    + intros k d Hkd. destruct (Hd k d Hkd) as [(g' & Hg' & Hin)|?]; [|by right].
      left. exists g'. split; [done|]. rewrite !elem_of_app, !elem_of_cons in *. tauto.
Qed.

(** Every step brings the end nearer. *)
Definition left_to_do (s : dstate) : nat := (2 * length (ds_todo s) + length (ds_running s))%nat.

Lemma dstep_decreases s s' : dstep s s' → (left_to_do s' < left_to_do s)%nat.
Proof.
  intros [s0 l1 g l2 H _|s0 l1 g l2 H|s0 l1 g l2 resolve H _]; unfold left_to_do; cbn.
  - rewrite H, !length_app. cbn. lia.
  - rewrite H, !length_app. cbn. lia.
  - unfold settle. destruct (verifyGroup _ _ _) as [[tx|]|e]; cbn; rewrite H, !length_app; cbn; lia.
Qed.

Lemma finished_result s : dedup_inv s → ds_todo s = [] → ds_running s = [] →
  match detect_result None s with
  | Ok r => least (doubles T) r
  | Err e => ∃ resolve t, resolves resolve ∧ t ∈ T ∧ resolve t.1 = Err e
  end.
Proof.
  intros [Hg He Hf Hd] Ht Hr.
  assert (Hacc : ∀ d, doubles T d → (∃ e, ds_earliest s = Some e ∧ e ≤ d) ∨ (∃ f, ds_failed s = Some f ∧ fl_bound f ≤ d)).
  { intros d (k & Hkd)%(doubles_by_hash hash). destruct (Hd k d Hkd) as [(g & _ & Hin)|?]; [|done].
    rewrite Ht, Hr in Hin. by apply elem_of_nil in Hin. }
  unfold detect_result. destruct (ds_failed s) as [f|] eqn:Ef, (ds_earliest s) as [e|] eqn:Ee.
  - destruct (Z.ltb_spec (fl_bound f) e) as [Hlt|Hge]; [by apply Hf|]. split; [by apply He|].
    intros d Hdd. destruct (Hacc d Hdd) as [(e' & [= <-] & ?)|(f' & [= <-] & ?)]; lia.
  - by apply Hf.
  - split; [by apply He|]. intros d Hdd. by destruct (Hacc d Hdd) as [(e' & [= <-] & ?)|(f' & ? & ?)].
  - intros d Hdd. by destruct (Hacc d Hdd) as [(e' & ? & ?)|(f' & ? & ?)].
Qed.
End Schedules.

Section Detect.
  Context (hash : Inpoint → Z) (text_before : error → error → bool).
  Hypothesis hash_u64 : ∀ i, is_u64 (hash i).

(** C35: for any hash, any seed, any number of partitions and any order in which the
    workers take and finish the groups, a verdict of the batched check is that of the
    scan that puts every input of the block into one map: the first transaction that
    spends an outpoint again, or none.  It gives no verdict only when the inputs of a
    transaction could not be read, and then with that error. *)
Theorem detect_agrees_with_scan (numRuns expectedInputs totalTxs : Z) (subtrees : list block) (runs : list dedupRun)
    (resolves : (Z → result (list Inpoint)) → Prop) (s : dstate) :
  let '(pbits, w) := newInpointDedup numRuns expectedInputs totalTxs in
  ascending (mjoin subtrees) → Forall (λ t, 0 ≤ t.1 < totalTxs) (mjoin subtrees) → totalTxs ≤ 2 ^ 64 →
  Forall2 (λ T r, finish pbits (run_of hash w T) = Some r) subtrees runs →
  (∀ resolve, resolves resolve → answers (mjoin subtrees) resolve) →
  rtc (dstep hash text_before resolves) (detect_start pbits runs) s → ds_todo s = [] → ds_running s = [] →
  match detect_result None s with
  | Ok r => r = scan_block ∅ (mjoin subtrees)
  | Err e => ∃ resolve t, resolves resolve ∧ t ∈ mjoin subtrees ∧ resolve t.1 = Err e
  end.
Proof.
  destruct (newInpointDedup numRuns expectedInputs totalTxs) as [pbits w] eqn:Enew.
  intros Hasc Hin Htot Hruns Hans Hsteps Htodo Hrun. unfold newInpointDedup in Enew.
  pose proof (f_equal fst Enew) as Ep. pose proof (f_equal snd Enew) as Ew. cbn [fst snd] in Ep, Ew. clear Enew.
  assert (Hp : (0 ≤ pbits ≤ 12)%nat).
  { rewrite <- Ep. apply raise_bits_le; [lia|]. intros b [[Hb _]%andb_true_iff _]%andb_true_iff.
    by apply Nat.ltb_lt in Hb. }
  assert (Hfit : fits w (mjoin subtrees)).
  { rewrite <- Ew. eapply Forall_impl; [exact Hin|]. cbn. intros t Ht. destruct (Z.leb_spec totalTxs (2 ^ 32 - 1)); lia. }
  assert (Hstart : dedup_inv hash w (mjoin subtrees) resolves (detect_start pbits runs)).
  { split; cbn [detect_start ds_todo ds_running ds_earliest ds_failed]; [|done|done|].
    - intros g Hg. rewrite app_nil_r in Hg. apply (candidates_spec hash hash_u64 w pbits ltac:(lia) subtrees runs g Hruns Hg).
    - intros k d Hd. left. pose proof (group_exists hash hash_u64 w k _ d Hasc Hfit Hd) as Hlen.
      destruct (candidates_complete hash hash_u64 w pbits ltac:(lia) subtrees runs k Hruns Hlen) as (g & Hg & Hperm).
      exists g. rewrite app_nil_r. split; [|done].
      destruct (candidates_spec hash hash_u64 w pbits ltac:(lia) subtrees runs g Hruns Hg) as (k' & _ & Hs & Hl). by split_and!. }
  assert (Hinv : dedup_inv hash w (mjoin subtrees) resolves s).
  { clear Htodo Hrun. induction Hsteps as [s|s1 s2 s3 H12 _ IH]; [done|]. apply IH. by eapply dstep_ok. }
  pose proof (finished_result hash w _ _ s Hinv Htodo Hrun) as Hres. destruct (detect_result None s) as [r|e]; [|done].
  eapply least_unique; [exact Hres|]. by apply scan_block_least.
Qed.
End Detect.

(** ** Concrete inputs: every hash collides *)
Definition ex_input (n : Z) : Inpoint := (hash_of_Z n, 0).
Definition ex_subtrees : list block := [[(0, [ex_input 1]); (1, [ex_input 2])]; [(2, [ex_input 1])]].
Definition ex_hash (i : Inpoint) : Z := 5.
Definition ex_runs : list dedupRun := omap (λ T, finish 0 (run_of ex_hash 32 T)) ex_subtrees.
Definition ex_resolve (t : Z) : result (list Inpoint) :=
  if t =? 1 then Ok [ex_input 2] else Ok [ex_input 1].
Definition ex_text (e1 e2 : error) : bool := false.

Lemma detect_agrees_with_scan_witness : ∃ s,
  rtc (dstep ex_hash ex_text (λ r, r = ex_resolve)) (detect_start 0 ex_runs) s ∧
  detect_result None s = Ok (Some 2) ∧ scan_block ∅ (mjoin ex_subtrees) = Some 2.
Proof.
  set (g := default [] (head (candidates 0 ex_runs))).
  assert (Hc : candidates 0 ex_runs = [g]) by (vm_compute; reflexivity).
  set (s1 := mkState [] [g] None None).
  set (s2 := settle ex_text s1 [] g (verifyGroup ex_hash ex_resolve g)).
  assert (Hsteps : rtc (dstep ex_hash ex_text (λ r, r = ex_resolve)) (detect_start 0 ex_runs) s2).
  { unfold detect_start. rewrite Hc. eapply rtc_l; [apply (DStart _ _ _ _ [] g []); reflexivity|].
    eapply rtc_l; [apply (DFinish _ _ _ _ [] g [] ex_resolve); reflexivity|]. apply rtc_refl. }
  exists s2. split; [exact Hsteps|].
  assert (Hr : detect_result None s2 = Ok (Some 2)) by (vm_compute; reflexivity). split; [exact Hr|].
  pose proof (detect_agrees_with_scan ex_hash ex_text ltac:(unfold ex_hash; lia) 2 3 3 ex_subtrees ex_runs
    (λ r, r = ex_resolve) s2) as H. change (newInpointDedup 2 3 3) with (0%nat, 32) in H. cbv iota beta in H.
  rewrite Hr in H. symmetry. apply H; [| |lia| |intros r ->|exact Hsteps|vm_compute; reflexivity|vm_compute; reflexivity].
  - repeat constructor; lia.
  - repeat constructor; cbn; lia.
  - repeat constructor.
  - intros t Ht. left. cbn in Ht. rewrite !elem_of_cons, elem_of_nil in Ht. by destruct Ht as [->|[->|[->|[]]]].
Defined.
