(* ===== verification/ConflictWalks.v ===== *)
(** * Walks over conflicting transactions

    stores/utxo/process_conflicting.go: the breadth-first walks that conflict
    resolution makes over spenders and conflicting children.  They are written
    against the part of the store's interface they use; a walk's loop carries
    fuel, one unit for each level. *)

From stdpp Require Import relations.
From stdpp Require Import list.
From S2P Require Import Prelude External Utxo.

(** ** The store, as conflict resolution uses it

    stores/utxo/Interface.go.  [st_Get] may answer nil for a missing record;
    [st_SpendOnly] is [SpendAndCreate] with the flags spend-only, ignore
    conflicting and ignore locked, and answers the spends with their own errors
    beside the error of the call; [st_BlockIDs] is [BatchDecorate] for the block
    ids. *)
Class UtxoStore (S : Type) := {
  st_Get : Hash → list FieldName → SM S (option Data);
  st_SetConflicting : list Hash → bool → SM S (list Spend * list Hash);
  st_SetLocked : list Hash → bool → SM S unit;
  st_Unspend : list Spend → bool → SM S unit;
  st_SpendOnly : Tx → Z → S → list (Spend * option error) * option error * S;
  st_BlockIDs : list Hash → SM S (list (Hash * result (option (list Z))));
  st_BeginIntent : ConflictIntent → SM S unit;
  st_CompleteIntent : Hash → SM S unit;
}.

(** The loops stop by themselves; running out of fuel is a failure of the model. *)
Definition out_of_fuel : error := err ERR_ERROR.

Definition spenders_of (m : Data) : list Hash :=
  omap (λ sd, match sd with Some sd => sd_TxID sd | None => None end) (d_SpendingDatas m).

Definition conflictingWalkChildren (m : Data) : list Hash :=
  d_ConflictingChildren m ++ spenders_of m.

(** [visited], [order]: the hashes not seen before, in order. *)
Fixpoint fresh (visited : gset Hash) (l : list Hash) : gset Hash * list Hash :=
  match l with
  | [] => (visited, [])
  | h :: l =>
      if bool_decide (h ∈ visited) then fresh visited l
      else let '(visited, order) := fresh ({[h]} ∪ visited) l in (visited, h :: order)
  end.

Section Walks.
  Context {S : Type} {US : UtxoStore S} {ST : Subtree}.
  Variable keys : gset Hash → list Hash.      (* the order a map is ranged over *)

(** ** One root *)
Definition visit (maxNodes : Z) (acc : gset Hash * list Hash) (child : Hash)
  : result (gset Hash * list Hash) :=
  let '(visited, nextLevel) := acc in
  if bool_decide (child ∈ visited) then Ok acc else
  let visited := {[child]} ∪ visited in
  guard? negb ((maxNodes >? 0) && (Z.of_nat (size visited) >? maxNodes))
    else err ERR_UTXO_WALK_LIMIT_EXCEEDED in
  Ok (visited, if bool_decide (child = FrozenBytesTxHash) then nextLevel else nextLevel ++ [child]).

Fixpoint visit_all (maxNodes : Z) (acc : gset Hash * list Hash) (children : list Hash)
  : result (gset Hash * list Hash) :=
  match children with
  | [] => Ok acc
  | child :: children => let? acc := visit maxNodes acc child in visit_all maxNodes acc children
  end.

Definition walk_read (h : Hash) : SM S (option Data) := st_Get h [F_Utxos; F_ConflictingChildren].

Fixpoint walk (fuel : nat) (maxNodes : Z) (visited : gset Hash) (level : list Hash)
  : SM S (gset Hash) :=
  match level, fuel with
  | [], _ => mret visited
  | _, O => fail out_of_fuel
  | _, Datatypes.S fuel =>
      results ← traverse walk_read level;
      acc ← of_result (visit_all maxNodes (visited, [])
                         (mjoin (map (from_option conflictingWalkChildren []) results)));
      walk fuel maxNodes acc.1 acc.2
  end.

Definition GetConflictingChildren (fuel : nat) (hash : Hash) (maxNodes : Z) : SM S (list Hash) :=
  if bool_decide (hash = CoinbasePlaceholderHashValue) then mret []
  else
    visited ← walk fuel maxNodes {[hash]} [hash];
    mret (keys (visited ∖ {[hash]})).

(** ** Many roots *)
Definition distinctWalkRoots (passes : list (list Hash)) : Z :=
  Z.of_nat (size (list_to_set (C := gset Hash)
    (filter (λ h, h ≠ CoinbasePlaceholderHashValue) (mjoin passes)))).

Definition MaxInt : Z := 2^63 - 1.

Definition multiRootWalkBudget (maxNodes roots : Z) : Z :=
  if maxNodes <=? 0 then 0
  else
    let perRoot := Z.max 1 roots in
    if perRoot >? MaxInt / maxNodes then 0 else maxNodes * perRoot.

Record multiRootWalk := mkWalk { w_visited : gset Hash; w_missing : list Hash }.

(** [add], for a list of hashes: the new ones in order. *)
Fixpoint walk_add (budget : Z) (visited : gset Hash) (l : list Hash)
  : result (gset Hash * list Hash) :=
  match l with
  | [] => Ok (visited, [])
  | h :: l =>
      if bool_decide (h ∈ visited) then walk_add budget visited l
      else
        let visited := {[h]} ∪ visited in
        guard? negb ((budget >? 0) && (Z.of_nat (size visited) >? budget))
          else err ERR_UTXO_WALK_LIMIT_EXCEEDED in
        let? rest := walk_add budget visited l in
        Ok (rest.1, h :: rest.2)
  end.

Definition read_level (h : Hash) : SM S (option Data) := λ s,
  match walk_read h s with
  | (Err e, s) => if error_Is e ERR_TX_NOT_FOUND then (Ok None, s) else (Err e, s)
  | r => r
  end.

Fixpoint walk_levels (fuel : nat) (budget : Z) (w : multiRootWalk) (children level : list Hash)
  : SM S (multiRootWalk * list Hash) :=
  match level, fuel with
  | [], _ => mret (w, children)
  | _, O => fail out_of_fuel
  | _, Datatypes.S fuel =>
      levelMetas ← traverse read_level level;
      let missing := omap (λ '(h, m), match m with None => Some h | Some _ => None end)
                       (zip level levelMetas) in
      added ← of_result (walk_add budget (w_visited w)
                           (mjoin (map (from_option conflictingWalkChildren []) levelMetas)));
      walk_levels fuel budget (mkWalk added.1 (w_missing w ++ missing)) (children ++ added.2)
        (filter (λ h, h ≠ FrozenBytesTxHash) added.2)
  end.

Definition walkPass (fuel : nat) (budget : Z) (w : multiRootWalk) (pass : list Hash)
  : SM S (multiRootWalk * list Hash) :=
  added ← of_result (walk_add budget (w_visited w)
                       (filter (λ h, h ≠ CoinbasePlaceholderHashValue) pass));
  walk_levels fuel budget (mkWalk added.1 (w_missing w)) [] added.2.

Fixpoint walk_passes (fuel : nat) (budget : Z) (w : multiRootWalk) (passes : list (list Hash))
  : SM S (multiRootWalk * list (list Hash)) :=
  match passes with
  | [] => mret (w, [])
  | pass :: passes =>
      r ← walkPass fuel budget w pass;
      rest ← walk_passes fuel budget r.1 passes;
      mret (rest.1, r.2 :: rest.2)
  end.

Definition GetConflictingChildrenFromRoots (fuel : nat) (passes : list (list Hash)) (maxNodes : Z)
  : SM S (list (list Hash) * list Hash) :=
  let budget := multiRootWalkBudget maxNodes (distinctWalkRoots passes) in
  r ← walk_passes fuel budget (mkWalk ∅ []) passes;
  mret (r.2, w_missing r.1).

(** ** Locking a cone *)
Definition lock_read (h : Hash) : SM S (option Data) :=
  _ ← st_SetLocked [h] true; st_Get h [F_Utxos].

Fixpoint lock_visit (visited : gset Hash) (l : list Hash) : result (gset Hash * list Hash) :=
  match l with
  | [] => Ok (visited, [])
  | h :: l =>
      if bool_decide (h ∈ visited) then lock_visit visited l
      else guard? negb (bool_decide (h = CoinbasePlaceholderHashValue)) else err ERR_PROCESSING in
           let? rest := lock_visit ({[h]} ∪ visited) l in
           Ok (rest.1, h :: rest.2)
  end.

Fixpoint lock_levels (fuel : nat) (visited : gset Hash) (level : list Hash) : SM S (gset Hash) :=
  match level, fuel with
  | [], _ => mret visited
  | _, O => fail out_of_fuel
  | _, Datatypes.S fuel =>
      results ← traverse lock_read level;
      acc ← of_result (lock_visit visited (mjoin (map (from_option spenders_of []) results)));
      lock_levels fuel acc.1 acc.2
  end.

Definition GetAndLockChildren (fuel : nat) (hash : Hash) : SM S (list Hash) :=
  if bool_decide (hash = CoinbasePlaceholderHashValue) then fail (err ERR_PROCESSING)
  else
    visited ← lock_levels fuel {[hash]} [hash];
    mret (keys (visited ∖ {[hash]})).

(** ** Marking and unmarking a cone

    On error the caller still learns what may have been flipped. *)
Fixpoint mark_levels (fuel : nat) (visited : gset Hash) (spends : list Spend)
    (order toProcess : list Hash) (s : S) : result (list Spend) * list Hash * S :=
  match toProcess, fuel with
  | [], _ => (Ok spends, order, s)
  | _, O => (Err out_of_fuel, order, s)
  | _, Datatypes.S fuel =>
      match st_SetConflicting toProcess true s with
      | (Err e, s) => (Err e, order, s)
      | (Ok (affected, children), s) =>
          let '(visited, next) := fresh visited children in
          mark_levels fuel visited (spends ++ affected) (order ++ next) next s
      end
  end.

Definition MarkConflictingRecursively (fuel : nat) (hashes : list Hash) (s : S)
  : result (list Spend) * list Hash * S :=
  let '(visited, order) := fresh ∅ hashes in mark_levels fuel visited [] order hashes s.

Fixpoint unmark_levels (fuel : nat) (visited : gset Hash) (order toProcess : list Hash)
  : SM S (list Hash) :=
  match toProcess, fuel with
  | [], _ => mret order
  | _, O => fail out_of_fuel
  | _, Datatypes.S fuel =>
      r ← st_SetConflicting toProcess false;
      let '(visited, next) := fresh visited r.2 in
      unmark_levels fuel visited (order ++ next) next
  end.

Definition UnmarkConflictingRecursively (fuel : nat) (hashes : list Hash) : SM S (list Hash) :=
  let '(visited, order) := fresh ∅ hashes in unmark_levels fuel visited order hashes.

(** ** Counter-conflicting transactions *)

(** A missing record is an error, whether it comes as one or as nil. *)
Definition get_present (h : Hash) (bins : list FieldName) : SM S Data :=
  m ← st_Get h bins;
  match m with
  | None => fail (err ERR_TX_NOT_FOUND)
  | Some m => mret m
  end.

Definition parent_spenders (parent : Hash) : SM S (Hash * list (option Hash)) :=
  m ← get_present parent [F_Utxos];
  mret (parent, map (λ sd, match sd with Some sd => sd_TxID sd | None => None end)
                  (d_SpendingDatas m)).

(** The spenders recorded for the inpoints, each once. *)
Fixpoint counter_spenders (parentTxs : gmap Hash (list (option Hash))) (seen : gset Hash)
    (inpoints : list outpoint) : result (list Hash) :=
  match inpoints with
  | [] => Ok []
  | (parent, index) :: inpoints =>
      match parentTxs !! parent with
      | None => counter_spenders parentTxs seen inpoints
      | Some ids =>
          match ids !! Z.to_nat index with
          | None => Err (err ERR_PROCESSING)
          | Some None => counter_spenders parentTxs seen inpoints
          | Some (Some spender) =>
              if bool_decide (spender ∈ seen) then counter_spenders parentTxs seen inpoints
              else
                let? rest := counter_spenders parentTxs ({[spender]} ∪ seen) inpoints in
                Ok (spender :: rest)
          end
      end
  end.

Definition spender_cone (fuel : nat) (maxNodes : Z) (spender : Hash) : SM S (list Hash) :=
  children ← GetConflictingChildren fuel spender maxNodes;
  if bool_decide (FrozenBytesTxHash ∈ children) then fail (err ERR_PROCESSING)
  else mret children.

Definition GetCounterConflictingTxHashes (fuel : nat) (txHash : Hash) (maxNodes : Z)
  : SM S (list Hash) :=
  txMeta ← get_present txHash [F_TxInpoints];
  parents ← traverse parent_spenders (keys (list_to_set (d_ParentTxHashes txMeta)));
  spenders ← of_result (counter_spenders (list_to_map parents) ∅ (d_TxInpoints txMeta));
  cones ← traverse (spender_cone fuel maxNodes) spenders;
  mret (keys ({[txHash]} ∪ list_to_set spenders ∪ list_to_set (mjoin cones))).

(** The stores' own [GetCounterConflicting]: unbounded. *)
Definition GetCounterConflicting (fuel : nat) (hash : Hash) : SM S (list Hash) :=
  GetCounterConflictingTxHashes fuel hash 0.

End Walks.

(** ** The walk visits what is reachable *)
Lemma visited_skip (V : gset Hash) c l : c ∈ V → V ∪ list_to_set (c :: l) = V ∪ list_to_set l.
Proof. intros. rewrite list_to_set_cons. set_solver. Qed.

Lemma visited_add (V : gset Hash) c l : V ∪ list_to_set (c :: l) = {[c]} ∪ V ∪ list_to_set l.
Proof. rewrite list_to_set_cons. set_solver. Qed.
Section WalkTheorems.
  Context {S : Type} {US : UtxoStore S} {ST : Subtree}.
  Context (I : S → Prop) (graph : Hash → list Hash).

(** The store answers the walk's reads, the same way each time. *)
Definition reads_graph : Prop := ∀ h s, I s →
  ∃ m s', walk_read h s = (Ok m, s') ∧ I s' ∧ from_option conflictingWalkChildren [] m = graph h.

(** The frozen sentinel is not a record and is not followed. *)
Definition follows (a b : Hash) : Prop := a ≠ FrozenBytesTxHash ∧ b ∈ graph a.

Context (Hreads : reads_graph).

Lemma read_level_graph level s : I s →
  ∃ ms s', traverse walk_read level s = (Ok ms, s') ∧ I s' ∧
    mjoin (map (from_option conflictingWalkChildren []) ms) = mjoin (map graph level).
Proof.
  revert s. induction level as [|h level IH]; intros s Hs; [by exists [], s|].
  destruct (Hreads h s Hs) as (m & s1 & E1 & Hs1 & Eg).
  destruct (IH s1 Hs1) as (ms & s2 & E2 & Hs2 & Egs).
  exists (m :: ms), s2. cbn [traverse]. unfold mbind, SM_bind. rewrite E1, E2. split_and!; [done..|].
  cbn [map]. change (mjoin (?a :: ?b)) with (a ++ mjoin b). by rewrite Egs, Eg.
Qed.

(** What [visit_all] does to the visited set and the next level. *)
Lemma visit_all_spec maxNodes visited next children :
  match visit_all maxNodes (visited, next) children with
  | Ok (visited', next') =>
      visited' = visited ∪ list_to_set children ∧
      (∃ new, next' = next ++ new ∧
         ∀ h, h ∈ new ↔ h ∈ children ∧ h ∉ visited ∧ h ≠ FrozenBytesTxHash) ∧
      (maxNodes > 0 → Z.of_nat (size visited) ≤ maxNodes → Z.of_nat (size visited') ≤ maxNodes)
  | Err e => e = err ERR_UTXO_WALK_LIMIT_EXCEEDED ∧ maxNodes > 0 ∧
      Z.of_nat (size (visited ∪ list_to_set children)) > maxNodes
  end.
Proof.
  revert visited next. induction children as [|c children IH]; intros visited next; cbn [visit_all].
  { split_and!; [by rewrite list_to_set_nil, union_empty_r_L| |done]. exists [].
    rewrite app_nil_r. split; [done|]. intros h. rewrite elem_of_nil. tauto. }
  unfold visit. case_bool_decide as Hc; cbn [bindR].
  - specialize (IH visited next). rewrite visited_skip by done.
    destruct (visit_all _ _ _) as [[v n]|e]; [|done].
    destruct IH as (-> & (new & -> & Hnew) & Hsz). split_and!; [done| |done].
    exists new. split; [done|]. intros h. rewrite Hnew, elem_of_cons. split; [tauto|].
    intros ([->|] & ? & ?); tauto.
  - rewrite visited_add.
    destruct ((maxNodes >? 0) && (Z.of_nat (size ({[c]} ∪ visited)) >? maxNodes)) eqn:Eb; cbn [negb bindR].
    + apply andb_prop in Eb as [Eb1 Eb2]. split_and!; [done|lia|].
      assert (size ({[c]} ∪ visited) ≤ size ({[c]} ∪ visited ∪ list_to_set children))%nat
        by (apply subseteq_size, union_subseteq_l). lia.
    + specialize (IH ({[c]} ∪ visited)
        (if bool_decide (c = FrozenBytesTxHash) then next else next ++ [c])).
      destruct (visit_all _ _ _) as [[v n]|e]; [|done].
      destruct IH as (-> & (new & -> & Hnew) & Hsz). split_and!; [done| |].
      * assert (Hnew' : ∀ h, h ∈ new ↔ (h ∈ children ∧ h ≠ c ∧ h ∉ visited ∧ h ≠ FrozenBytesTxHash))
          by (intros h; rewrite Hnew, elem_of_union, elem_of_singleton; tauto).
        case_bool_decide as Hf.
        -- exists new. split; [done|]. intros h. rewrite Hnew', elem_of_cons. split; [tauto|].
           intros ([->|] & ? & ?); [done|]. split_and!; try done. by intros ->.
        -- exists (c :: new). split; [by rewrite <- app_assoc|]. intros h.
           rewrite !elem_of_cons, Hnew'. split.
           ++ intros [->|]; tauto.
           ++ intros ([->|] & ? & ?); [by left|]. destruct (decide (h = c)); tauto.
      * intros Hm _. apply Hsz; [done|].
        destruct (Z.gtb_spec maxNodes 0), (Z.gtb_spec (Z.of_nat (size ({[c]} ∪ visited))) maxNodes);
          try done; lia.
Qed.

Section Root.
  Context (root : Hash) (universe : gset Hash) (maxNodes : Z).
  Context (Hroot : root ∈ universe) (Hclosed : ∀ h, h ∈ universe → ∀ c, c ∈ graph h → c ∈ universe).

(** The state of the loop. *)
Record walk_inv (visited : gset Hash) (level : list Hash) : Prop := {
  wi_root : root ∈ visited;
  wi_reach h : h ∈ visited → rtc follows root h;
  wi_universe : visited ⊆ universe;
  wi_level h : h ∈ level → h ∈ visited ∧ h ≠ FrozenBytesTxHash;
  wi_done h : h ∈ visited → h ∉ level → h ≠ FrozenBytesTxHash → ∀ c, c ∈ graph h → c ∈ visited;
  wi_budget : maxNodes > 0 → Z.of_nat (size visited) ≤ maxNodes;
}.

Lemma elem_of_level_children level c : c ∈ mjoin (map graph level) ↔ ∃ h, h ∈ level ∧ c ∈ graph h.
Proof.
  rewrite list_elem_of_join. split.
  - intros (l & Hc & (h & -> & Hh)%list_elem_of_fmap). eauto.
  - intros (h & Hh & Hc). exists (graph h). split; [done|]. apply list_elem_of_fmap. eauto.
Qed.

Lemma walk_inv_step visited level visited' next : walk_inv visited level →
  visit_all maxNodes (visited, []) (mjoin (map graph level)) = Ok (visited', next) →
  walk_inv visited' next ∧ (next ≠ [] → (size visited < size visited')%nat).
Proof.
  intros [H1 H2 H3 H4 H5 H6] E.
  pose proof (visit_all_spec maxNodes visited [] (mjoin (map graph level))) as Hv. rewrite E in Hv.
  destruct Hv as (-> & (new & -> & Hnew) & Hsz). simpl in *.
  split; [split|].
  - set_solver.
  - intros h [Hh|Hh]%elem_of_union; [by apply H2|].
    apply elem_of_list_to_set, elem_of_level_children in Hh as (p & Hp & Hc).
    destruct (H4 p Hp) as [Hpv Hpf]. eapply rtc_r; [by apply H2|]. by split.
  - intros h [Hh|Hh]%elem_of_union; [by apply H3|].
    apply elem_of_list_to_set, elem_of_level_children in Hh as (p & Hp & Hc).
    destruct (H4 p Hp) as [Hpv Hpf]. by apply (Hclosed p); [apply H3|].
  - intros h (Hc & Hv & Hf)%Hnew. set_solver.
  - intros h Hh Hn Hf c Hc. destruct (decide (h ∈ visited)) as [Hv|Hv].
    + destruct (decide (h ∈ level)) as [Hl|Hl]; [|by apply elem_of_union_l, (H5 h)].
      apply elem_of_union_r, elem_of_list_to_set, elem_of_level_children. eauto.
    + exfalso. apply Hn, Hnew. split_and!; [|done..]. set_solver.
  - intros Hm. apply Hsz; auto.
  - intros Hne. destruct new as [|h new]; [done|].
    destruct (proj1 (Hnew h)) as (Hc & Hv & _); [by left|].
    assert (size ({[h]} ∪ visited) ≤ size (visited ∪ list_to_set (mjoin (map graph level))))%nat
      as Hle by (apply subseteq_size; set_solver).
    rewrite size_union, size_singleton in Hle by set_solver. lia.
Qed.

Lemma walk_inv_fuel visited level : walk_inv visited level → (size visited ≤ size universe)%nat.
Proof. intros H. apply subseteq_size, (wi_universe _ _ H). Qed.

(** Enough fuel for the levels that are left. *)
Lemma walk_total fuel visited level s : I s → walk_inv visited level →
  (size universe < fuel + size visited)%nat →
  ∃ r s', walk fuel maxNodes visited level s = (r, s') ∧ I s' ∧
    match r with
    | Ok visited' => walk_inv visited' []
    | Err e => e = err ERR_UTXO_WALK_LIMIT_EXCEEDED ∧ maxNodes > 0 ∧
        ∃ X : gset Hash, Z.of_nat (size X) > maxNodes ∧ ∀ h, h ∈ X → rtc follows root h
    end.
Proof.
  revert visited level s. induction fuel as [|fuel IH]; intros visited level s Hs Hi Hf.
  { pose proof (walk_inv_fuel _ _ Hi). lia. }
  destruct level as [|h level]; [by exists (Ok visited), s|].
  cbn [walk]. destruct (read_level_graph (h :: level) s Hs) as (ms & s1 & E1 & Hs1 & Eg).
  unfold mbind, SM_bind, of_result. rewrite E1, Eg.
  destruct (visit_all maxNodes (visited, []) (mjoin (map graph (h :: level)))) as [[v n]|e] eqn:Ev.
  - destruct (walk_inv_step _ _ _ _ Hi Ev) as [Hi' Hgrow]. cbn [fst snd].
    destruct n as [|h' n].
    + exists (Ok v), s1. split_and!; [by destruct fuel|done..].
    + apply IH; [done..|]. specialize (Hgrow ltac:(done)). lia.
  - pose proof (visit_all_spec maxNodes visited [] (mjoin (map graph (h :: level)))) as Hv.
    rewrite Ev in Hv. destruct Hv as (-> & Hm & Hsz). eexists (Err _), s1.
    split_and!; [done..|]. eexists. split; [exact Hsz|].
    intros x [Hx|Hx]%elem_of_union; [by apply (wi_reach _ _ Hi)|].
    apply elem_of_list_to_set, elem_of_level_children in Hx as (p & Hp & Hc).
    destruct (wi_level _ _ Hi p Hp) as [Hpv Hpf].
    eapply rtc_r; [by apply (wi_reach _ _ Hi)|]. by split.
Qed.

(** A finished walk has visited exactly what is reachable. *)
Lemma walk_inv_reach visited : walk_inv visited [] → ∀ h, h ∈ visited ↔ rtc follows root h.
Proof.
  intros Hi h. split; [apply (wi_reach _ _ Hi)|]. intros Hr.
  assert (Hgen : ∀ a, rtc follows a h → a ∈ visited → h ∈ visited).
  { clear Hr. intros a. induction 1 as [a|a b c [Hf Hg] _ IH]; [done|]. intros Ha. apply IH.
    apply (wi_done _ _ Hi a); [done|apply not_elem_of_nil|done..]. }
  apply (Hgen root Hr), (wi_root _ _ Hi).
Qed.
End Root.
End WalkTheorems.

(** *** The theorem, and a store that is just a graph *)
Section WalkResult.
  Context {S : Type} {US : UtxoStore S} {ST : Subtree}.

(** C39: given fuel for the transactions it can reach, the walk always ends.
    Either it returns, each once, exactly the transactions reachable from the
    root over recorded spenders and conflicting children, the root excepted and
    within the limit; or there are more of them than a positive limit allows, and
    it fails with the limit error.  So without a limit it always returns them
    all. *)
Theorem GetConflictingChildren_reachable (keys : gset Hash → list Hash) (I : S → Prop)
    (graph : Hash → list Hash) (root : Hash) (universe : gset Hash) (fuel : nat) (maxNodes : Z) (s : S) :
  (∀ X, keys X ≡ₚ elements X) →
  reads_graph I graph → I s →
  root ∈ universe → (∀ h, h ∈ universe → ∀ c, c ∈ graph h → c ∈ universe) →
  root ≠ CoinbasePlaceholderHashValue → root ≠ FrozenBytesTxHash →
  (size universe ≤ fuel)%nat →
  ∃ r s', GetConflictingChildren keys fuel root maxNodes s = (r, s') ∧ I s' ∧
    match r with
    | Ok children => NoDup children ∧
        (∀ h, h ∈ children ↔ h ≠ root ∧ rtc (follows graph) root h) ∧
        (maxNodes > 0 → Z.of_nat (length children) < maxNodes)
    | Err e => e = err ERR_UTXO_WALK_LIMIT_EXCEEDED ∧ maxNodes > 0 ∧
        ∃ X : gset Hash, Z.of_nat (size X) > maxNodes ∧ ∀ h, h ∈ X → rtc (follows graph) root h
    end.
Proof.
  intros Hkeys Hreads Hs Hin Hclosed Hp Hf Hfuel.
  unfold GetConflictingChildren. rewrite bool_decide_false by done.
  assert (Hi : walk_inv graph root universe maxNodes {[root]} [root]).
  { split.
    - by apply elem_of_singleton.
    - intros h ->%elem_of_singleton. done.
    - by apply singleton_subseteq_l.
    - intros h ->%list_elem_of_singleton. split; [by apply elem_of_singleton|done].
    - intros h ->%elem_of_singleton Hn. by destruct Hn; apply list_elem_of_singleton.
    - rewrite size_singleton. lia. }
  destruct (walk_total I graph Hreads root universe maxNodes Hin Hclosed fuel {[root]} [root] s Hs Hi)
    as (r & s' & E & Hs' & Hr); [rewrite size_singleton; lia|].
  unfold mbind, SM_bind. rewrite E. destruct r as [visited|e]; [|by exists (Err e), s'].
  exists (Ok (keys (visited ∖ {[root]}))), s'. split; [done|]. split; [done|].
  pose proof (walk_inv_reach _ _ _ _ _ Hr) as Hreach. split_and!.
  - rewrite Hkeys. apply NoDup_elements.
  - intros h. rewrite Hkeys, elem_of_elements, elem_of_difference, elem_of_singleton, Hreach. tauto.
  - intros Hm. rewrite Hkeys. change (length (elements ?X)) with (size X).
    pose proof (wi_budget _ _ _ _ _ _ Hr Hm) as Hb. pose proof (wi_root _ _ _ _ _ _ Hr) as Hr0.
    rewrite size_difference by (by apply singleton_subseteq_l). rewrite size_singleton.
    assert (size visited ≠ 0%nat) by (apply size_non_empty_iff; set_solver). lia.
Qed.
End WalkResult.

(** A store that only answers reads, with the children of a graph. *)
Definition graph_store (graph : Hash → list Hash) : UtxoStore unit := {|
  st_Get h _ s := (Ok (Some (mkData None [] [] [] (graph h) [] false false 0)), s);
  st_SetConflicting _ _ s := (Ok ([], []), s);
  st_SetLocked _ _ s := (Ok tt, s);
  st_Unspend _ _ s := (Ok tt, s);
  st_SpendOnly _ _ s := ([], None, s);
  st_BlockIDs _ s := (Ok [], s);
  st_BeginIntent _ s := (Ok tt, s);
  st_CompleteIntent _ s := (Ok tt, s);
|}.

Definition walk_graph (h : Hash) : list Hash :=
  if bool_decide (h = hash_of_Z 1) then [hash_of_Z 2; hash_of_Z 3]
  else if bool_decide (h = hash_of_Z 2) then [hash_of_Z 3; hash_of_Z 1] else [].

Definition walk_universe : gset Hash := {[hash_of_Z 1; hash_of_Z 2; hash_of_Z 3]}.

Lemma GetConflictingChildren_reachable_witness :
  ∃ r s', @GetConflictingChildren unit (graph_store walk_graph) model_Subtree elements 3 (hash_of_Z 1) 0 tt
          = (r, s') ∧ True ∧
    match r with
    | Ok children => NoDup children ∧
        (∀ h, h ∈ children ↔ h ≠ hash_of_Z 1 ∧ rtc (follows (ST := model_Subtree) walk_graph) (hash_of_Z 1) h) ∧
        (0 > 0 → Z.of_nat (length children) < 0)
    | Err e => e = err ERR_UTXO_WALK_LIMIT_EXCEEDED ∧ 0 > 0 ∧
        ∃ X : gset Hash, Z.of_nat (size X) > 0 ∧
          ∀ h, h ∈ X → rtc (follows (ST := model_Subtree) walk_graph) (hash_of_Z 1) h
    end.
Proof.
  apply (GetConflictingChildren_reachable (US := graph_store walk_graph) (ST := model_Subtree) elements
    (λ _, True) walk_graph (hash_of_Z 1) walk_universe 3 0 tt).
  - reflexivity.
  - intros h [] _. eexists _, tt. split_and!; [reflexivity|done|]. cbn. apply app_nil_r.
  - exact I.
  - unfold walk_universe. set_solver.
  - intros h Hh c. unfold walk_graph. unfold walk_universe in *.
    repeat case_bool_decide; set_solver.
  - refine (bool_decide_eq_true_1 (hash_of_Z 1 ≠ _) _). vm_compute. reflexivity.
  - refine (bool_decide_eq_true_1 (hash_of_Z 1 ≠ _) _). vm_compute. reflexivity.
  - assert (size walk_universe = 3%nat) as E by (vm_compute; reflexivity). lia.
Defined.
