(* ===== verification/Conflicts.v ===== *)
(** * Conflict resolution

    stores/utxo/process_conflicting.go and conflict_ancestry.go:
    [ProcessConflicting] replaces the spends of the losing transactions by those
    of the winning ones in five steps, with a write-ahead intent, an ancestry
    guard and a compensating rollback; [ReverseProcessConflicting] undoes it for a
    block that is moved back.  Both are written against the store's interface. *)

From stdpp Require Import relations.
From stdpp Require Import list.
From S2P Require Import Prelude External Utxo ConflictWalks.

(** ** The progress of a run: what the deferred functions read *)
Record progress := mkProgress {
  pr_step1Committed : bool;
  pr_step2Committed : bool;
  pr_step4Committed : bool;
  pr_step5Failed : bool;
  pr_markedAsNotSpendable : list Hash;
  pr_step3SuccessfulSpends : list Spend;
  pr_allMarkedHashes : list Hash;
}.

Definition no_progress : progress := mkProgress false false false false [] [] [].

(** What the caller learns; [oc_refused] are the refusal callbacks and
    [oc_manual] the escalation of a failed rollback. *)
Record outcome := mkOutcome {
  oc_result : result (list Hash);       (* the keys of the losing map *)
  oc_marked : list Hash;
  oc_refused : list Hash;
  oc_manual : bool;
}.

Definition ForwardKind : list byte :=
  [Byte.x66; Byte.x6f; Byte.x72; Byte.x77; Byte.x61; Byte.x72; Byte.x64].
Definition ReverseKind : list byte :=
  [Byte.x72; Byte.x65; Byte.x76; Byte.x65; Byte.x72; Byte.x73; Byte.x65].

(** The ids in order of first appearance. *)
Fixpoint distinct_ids (seen : gset Z) (l : list Z) : list Z :=
  match l with
  | [] => []
  | x :: l => if bool_decide (x ∈ seen) then distinct_ids seen l
              else x :: distinct_ids ({[x]} ∪ seen) l
  end.

(** [isOlderCounter] *)
Definition isOlderCounter (aCreatedAt : Z) (aHash : Hash) (bCreatedAt : Z) (bHash : Hash) : bool :=
  let by_hash := bytes_lt (hash_bytes aHash) (hash_bytes bHash) in
  if (aCreatedAt =? 0) && (bCreatedAt =? 0) then by_hash
  else if aCreatedAt =? 0 then false
  else if bCreatedAt =? 0 then true
  else if aCreatedAt <? bCreatedAt then true
  else if aCreatedAt >? bCreatedAt then false
  else by_hash.

Section Conflicts.
  Context {S : Type} {US : UtxoStore S} {ST : Subtree} {CH : Chainhash} {BT : BtTx}.
  Variable keys : gset Hash → list Hash.
  Variable fuel : nat.
  Variable ctx_done : nat → bool.       (* the context ends before that attempt of step 5 *)

(** ** The ancestry guard *)
Definition AncestryCheck : Type := list Z → Hash → result bool.

(** The losers with no usable block ids are kept; the others come with theirs. *)
Fixpoint split_resolved (metas : list (Hash * result (option (list Z))))
  : result (list Hash * list (Hash * list Z)) :=
  match metas with
  | [] => Ok ([], [])
  | (h, r) :: metas =>
      match r with
      | Err e =>
          guard? error_Is e ERR_TX_NOT_FOUND else err_wrap ERR_PROCESSING e in
          let? rest := split_resolved metas in Ok (h :: rest.1, rest.2)
      | Ok None | Ok (Some []) => let? rest := split_resolved metas in Ok (h :: rest.1, rest.2)
      | Ok (Some ids) => let? rest := split_resolved metas in Ok (rest.1, (h, ids) :: rest.2)
      end
  end.

(** One question per loser, once the union is known to hold an ancestor. *)
Fixpoint attribute (check : AncestryCheck) (blockHash : Hash) (resolved : list (Hash * list Z))
  : result (list Hash * list Hash) :=
  match resolved with
  | [] => Ok ([], [])
  | (h, ids) :: resolved =>
      let? onAncestry := wrapR ERR_PROCESSING (check ids blockHash) in
      let? rest := attribute check blockHash resolved in
      Ok (if onAncestry : bool then (rest.1, h :: rest.2) else (h :: rest.1, rest.2))
  end.

Definition decide_losers (check : AncestryCheck) (blockHash : Hash)
    (metas : list (Hash * result (option (list Z)))) : result (list Hash * list Hash) :=
  let? classes := split_resolved metas in
  let unionBlockIDs := distinct_ids ∅ (mjoin (map snd classes.2)) in
  if bool_decide (unionBlockIDs = []) then Ok (classes.1, []) else
  let? anyOnAncestry := wrapR ERR_PROCESSING (check unionBlockIDs blockHash) in
  if anyOnAncestry : bool then
    let? split := attribute check blockHash classes.2 in
    Ok (classes.1 ++ split.1, split.2)
  else Ok (classes.1 ++ map fst classes.2, []).

Definition filterAncestryConfirmedLosers (losers : list Hash) (winners : gset Hash)
    (blockHash : Hash) (check : AncestryCheck) : SM S (list Hash * list Hash) :=
  let kept := filter (λ h, h ∈ winners) losers in
  let toCheck := filter (λ h, h ∉ winners) losers in
  if bool_decide (toCheck = []) then mret (kept, [])
  else
    metas ← wrapM ERR_PROCESSING (st_BlockIDs toCheck);
    r ← of_result (decide_losers check blockHash metas);
    mret (kept ++ r.1, r.2).

(** ** Step 0: the winning transactions and their counter-conflicting sets *)
Definition read_winner (processed : gset Hash) (txHash : Hash) : SM S (option Tx * list Hash) :=
  m ← wrapM ERR_PROCESSING (st_Get txHash [F_Tx; F_BlockIDs; F_Conflicting]);
  match m with
  | None => fail (err ERR_TX_NOT_FOUND)
  | Some m =>
      if negb (d_Conflicting m) && bool_decide (txHash ∉ processed) then fail (err ERR_PROCESSING)
      else
        losers ← wrapM ERR_PROCESSING (GetCounterConflicting keys fuel txHash);
        mret (d_Tx m, losers)
  end.

Definition read_winners (processed : gset Hash) (txHashes : list Hash)
  : SM S (list (option Tx * list Hash)) :=
  if bool_decide (CoinbasePlaceholderHashValue ∈ txHashes) then fail (err ERR_PROCESSING)
  else traverse (read_winner processed) txHashes.

(** ** Step 3: spend the winners; every spend without an error of its own counts *)
Definition successful (spends : list (Spend * option error)) : list Spend :=
  omap (λ '(sp, e), match e with None => Some sp | Some _ => None end) spends.

Fixpoint spend_winners (blockHeight : Z) (txs : list (option Tx)) (done : list Spend) (s : S)
  : option error * list Spend * S :=
  match txs with
  | [] => (None, done, s)
  | None :: _ => (Some panic, done, s)
  | Some tx :: txs =>
      let '(spends, e, s) := st_SpendOnly tx blockHeight s in
      let done := done ++ successful spends in
      match e with
      | Some e => (Some e, done, s)
      | None => spend_winners blockHeight txs done s
      end
  end.

(** ** Step 5 *)
Definition step5Attempts : nat := 3.

Fixpoint lock_attempts (attempts n : nat) (hashes : list Hash) (value : bool) (last : result unit)
    (s : S) : result unit * S :=
  match attempts with
  | O => (last, s)
  | Datatypes.S attempts =>
      if bool_decide (0 < n)%nat && ctx_done n then (Err (err_wrap ERR_PROCESSING (err ERR_UNKNOWN)), s)
      else match st_SetLocked hashes value s with
           | (Ok _, s) => (Ok tt, s)
           | (Err e, s) => lock_attempts attempts (Datatypes.S n) hashes value (Err e) s
           end
  end.

Definition setLockedWithRetry (hashes : list Hash) (value : bool) (s : S) : result unit * S :=
  lock_attempts step5Attempts 0 hashes value (Ok tt) s.

(** ** The five steps *)
Definition commit_steps (blockHeight : Z) (conflictingTxHashes : list Hash)
    (winningTxs : list (option Tx)) (losingTxHashes : list Hash) (s : S)
  : result unit * progress * S :=
  match MarkConflictingRecursively fuel losingTxHashes s with
  | (Err e, marked, s) => (Err e, mkProgress false false false false [] [] marked, s)
  | (Ok affectedParentSpends, marked, s) =>
      let markedAsNotSpendable := keys (list_to_set (map sp_TxID affectedParentSpends)) in
      let at_step4 done4 failed5 spends :=
        mkProgress true true done4 failed5 markedAsNotSpendable spends marked in
      match st_Unspend affectedParentSpends true s with
      | (Err e, s) => (Err (err_wrap ERR_PROCESSING e), at_step4 false false [], s)
      | (Ok _, s) =>
          match spend_winners blockHeight winningTxs [] s with
          | (Some e, done, s) => (Err e, at_step4 false false done, s)
          | (None, done, s) =>
              match st_SetConflicting conflictingTxHashes false s with
              | (Err e, s) => (Err e, at_step4 false false done, s)
              | (Ok _, s) =>
                  match setLockedWithRetry markedAsNotSpendable false s with
                  | (Err e, s) => (Err e, at_step4 true true done, s)
                  | (Ok _, s) => (Ok tt, at_step4 true false done, s)
                  end
              end
          end
      end
  end.
(** ** The compensating rollback: every sub-step runs, their errors are joined *)
Definition attempt {A} (c : ERR) (m : SM S A) (s : S) : list error * S :=
  match m s with
  | (Ok _, s) => ([], s)
  | (Err e, s) => ([err_wrap c e], s)
  end.

(** Spend one marked transaction again. *)
Definition respend (blockHeight : Z) (h : Hash) (s : S) : list error * S :=
  if bool_decide (h = CoinbasePlaceholderHashValue) then ([], s) else
  match st_Get h [F_Tx] s with
  | (Err e, s) => ([err_wrap ERR_PROCESSING e], s)
  | (Ok m, s) =>
      match m ≫= d_Tx with
      | None => ([err ERR_PROCESSING], s)
      | Some tx =>
          let '(_, e, s) := st_SpendOnly tx blockHeight s in
          match e with
          | Some e => ([err_wrap ERR_PROCESSING e], s)
          | None => ([], s)
          end
      end
  end.

Fixpoint respend_all (blockHeight : Z) (hashes : list Hash) (s : S) : list error * S :=
  match hashes with
  | [] => ([], s)
  | h :: hashes =>
      let '(e1, s) := respend blockHeight h s in
      let '(e2, s) := respend_all blockHeight hashes s in (e1 ++ e2, s)
  end.

Definition only {A} (b : bool) (m : S → list A * S) (s : S) : list A * S :=
  if b then m s else ([], s).

Definition rollbackProcessConflicting (conflictingTxHashes : list Hash) (p : progress)
    (blockHeight : Z) (s : S) : list error * S :=
  let '(e1, s) := only (pr_step4Committed p)
                    (attempt ERR_PROCESSING (st_SetConflicting conflictingTxHashes true)) s in
  let '(e2, s) := only (negb (bool_decide (pr_step3SuccessfulSpends p = [])))
                    (attempt ERR_PROCESSING (st_Unspend (pr_step3SuccessfulSpends p) false)) s in
  let '(e3, s) := only (pr_step2Committed p) (respend_all blockHeight (pr_allMarkedHashes p)) s in
  let '(e4, s) := only (negb (bool_decide (pr_allMarkedHashes p = [])))
                    (attempt ERR_PROCESSING (st_SetConflicting (pr_allMarkedHashes p) false)) s in
  let '(e5, s) := only (pr_step2Committed p && negb (bool_decide (pr_markedAsNotSpendable p = [])))
                    (attempt ERR_PROCESSING (st_SetLocked (pr_markedAsNotSpendable p) false)) s in
  (e1 ++ e2 ++ e3 ++ e4 ++ e5, s).

(** ** ProcessConflicting *)
Definition refuse (refused : list Hash) (s : S) : outcome * S :=
  (mkOutcome (Ok []) [] refused false, s).

(** The deferred rollback and the error it leaves. *)
Definition after_steps (blockHeight : Z) (conflictingTxHashes losingTxHashes : list Hash)
    (r : result unit) (p : progress) (s : S) : outcome * S :=
  match r with
  | Ok _ => (mkOutcome (Ok losingTxHashes) (pr_allMarkedHashes p) [] false, s)
  | Err e =>
      if negb (pr_step1Committed p) || pr_step5Failed p
      then (mkOutcome (Err e) (pr_allMarkedHashes p) [] false, s)
      else
        let '(errs, s) := rollbackProcessConflicting conflictingTxHashes p blockHeight s in
        if bool_decide (errs = []) then (mkOutcome (Err e) (pr_allMarkedHashes p) [] false, s)
        else (mkOutcome (Err (err ERR_PROCESSING)) (pr_allMarkedHashes p) [] true, s)
  end.

Definition process_body (blockHeight : Z) (blockHash : Hash) (conflictingTxHashes : list Hash)
    (processed : gset Hash) (guard : option AncestryCheck) (s : S) : outcome * S :=
  let failed e (s : S) := (mkOutcome (Err e) [] [] false, s) in
  match read_winners processed conflictingTxHashes s with
  | (Err e, s) => failed e s
  | (Ok winners, s) =>
      let losing := keys (list_to_set (mjoin (map snd winners))) in
      match match guard with
            | None => (Ok (losing, []), s)
            | Some check =>
                filterAncestryConfirmedLosers losing (list_to_set conflictingTxHashes) blockHash check s
            end with
      | (Err e, s) => failed e s
      | (Ok (kept, refused), s) =>
          if bool_decide (refused = []) then
            let '(r, p, s) :=
              commit_steps blockHeight conflictingTxHashes (map fst winners) kept s in
            after_steps blockHeight conflictingTxHashes losing r p s
          else refuse refused s
      end
  end.

Definition forward_intent (blockHeight : Z) (blockHash : Hash) (txHashes : list Hash) (now : Z)
  : ConflictIntent := mkIntent ForwardKind blockHeight blockHash txHashes now.

Definition ProcessConflicting (now blockHeight : Z) (blockHash : Hash)
    (conflictingTxHashes : list Hash) (processed : gset Hash) (guard : option AncestryCheck) (s : S)
  : outcome * S :=
  let walIntent := forward_intent blockHeight blockHash conflictingTxHashes now in
  match st_BeginIntent walIntent s with
  | (Err e, s) => (mkOutcome (Err (err_wrap ERR_PROCESSING e)) [] [] false, s)
  | (Ok _, s) =>
      let '(o, s) := process_body blockHeight blockHash conflictingTxHashes processed guard s in
      match oc_result o with
      | Ok _ => (o, (st_CompleteIntent (IntentID walIntent) s).2)
      | Err _ => (o, s)
      end
  end.

(** ** ReverseProcessConflicting *)
Fixpoint isReverseFullyApplied (inputs : list TxInput) (demotedHash : Hash) : SM S bool :=
  match inputs with
  | [] => mret true
  | input :: inputs =>
      parentMeta ← wrapM ERR_PROCESSING (st_Get (PreviousTxID input) [F_Utxos]);
      match parentMeta with
      | None => mret false
      | Some parentMeta =>
          match d_SpendingDatas parentMeta !! Z.to_nat (PreviousTxOutIndex input) with
          | None | Some None => mret false
          | Some (Some sd) =>
              match sd_TxID sd with
              | None => mret false
              | Some spender =>
                  if bool_decide (spender = demotedHash) then mret false else
                  spenderMeta ← wrapM ERR_PROCESSING (st_Get spender [F_Conflicting]);
                  match spenderMeta with
                  | None => mret false
                  | Some m => if d_Conflicting m then mret false
                              else isReverseFullyApplied inputs demotedHash
                  end
              end
          end
      end
  end.

Definition candidateSpendsOutput (inpoints : list outpoint) (parentHash : Hash) (vout : Z) : bool :=
  existsb (λ '(h, i), (i =? vout) && bool_decide (h = parentHash)) inpoints.

(** The best candidate so far, with its creation time. *)
Fixpoint best_counter (demotedSet seen : gset Hash) (parentHash : Hash) (vout : Z)
    (best : option (Hash * Z)) (candidates : list Hash) : SM S (option (Hash * Z)) :=
  match candidates with
  | [] => mret best
  | candidate :: candidates =>
      if bool_decide (candidate ∈ demotedSet) || bool_decide (candidate ∈ seen)
      then best_counter demotedSet seen parentHash vout best candidates
      else
        m ← wrapM ERR_PROCESSING (st_Get candidate [F_TxInpoints; F_Conflicting; F_CreatedAt]);
        let best := match m with
                    | Some m =>
                        if d_Conflicting m && candidateSpendsOutput (d_TxInpoints m) parentHash vout &&
                           match best with
                           | None => true
                           | Some (h, at_) => isOlderCounter (d_CreatedAt m) candidate at_ h
                           end
                        then Some (candidate, d_CreatedAt m) else best
                    | None => best
                    end in
        best_counter demotedSet seen parentHash vout best candidates
  end.

Fixpoint select_counters (demotedSet seen : gset Hash) (inputs : list TxInput) : SM S (list Hash) :=
  match inputs with
  | [] => mret []
  | input :: inputs =>
      parentMeta ← wrapM ERR_PROCESSING (st_Get (PreviousTxID input) [F_ConflictingChildren]);
      best ← match parentMeta with
             | None => mret None
             | Some m => best_counter demotedSet seen (PreviousTxID input) (PreviousTxOutIndex input)
                           None (d_ConflictingChildren m)
             end;
      match best with
      | None => select_counters demotedSet seen inputs
      | Some (h, _) =>
          rest ← select_counters demotedSet ({[h]} ∪ seen) inputs;
          mret (h :: rest)
      end
  end.

Definition selectCountersForDemotedTx (demotedTx : Tx) (demotedSet : gset Hash) : SM S (list Hash) :=
  select_counters demotedSet ∅ (Inputs demotedTx).

Definition spendsForTx (tx : Tx) : result (list Spend) := parent_spends (TxIDChainHash tx) 0 (Inputs tx).

(** Steps 4 and 5 for one counter: the hashes whose flag was cleared. *)
Definition promote (blockHeight : Z) (counter : Hash) : SM S (list Hash) :=
  m ← wrapM ERR_PROCESSING (st_Get counter [F_Tx]);
  match m ≫= d_Tx with
  | None => mret []
  | Some tx =>
      _ ← wrapM ERR_PROCESSING (λ s, let '(_, e, s) := st_SpendOnly tx blockHeight s in
                                    (match e with Some e => Err e | None => Ok tt end, s));
      wrapM ERR_PROCESSING (UnmarkConflictingRecursively fuel [counter])
  end.

(** One demoted transaction: the result, and the hashes its cascade marked. *)
Definition reverse_one (blockHeight : Z) (demotedSet : gset Hash) (demotedHash : Hash) (s : S)
  : result (list Hash) * list Hash * S :=
  match wrapM ERR_PROCESSING (st_Get demotedHash [F_Tx; F_Conflicting]) s with
  | (Err e, s) => (Err e, [], s)
  | (Ok m, s) =>
      match m, m ≫= d_Tx with
      | Some m, Some tx =>
          match (if d_Conflicting m
                 then wrapM ERR_PROCESSING (isReverseFullyApplied (Inputs tx) demotedHash)
                 else mret false) s with
          | (Err e, s) => (Err e, [], s)
          | (Ok true, s) => (Ok [], [], s)
          | (Ok false, s) =>
              match selectCountersForDemotedTx tx demotedSet s with
              | (Err e, s) => (Err e, [], s)
              | (Ok counters, s) =>
                  match MarkConflictingRecursively fuel [demotedHash] s with
                  | (Err e, marked, s) => (Err (err_wrap ERR_PROCESSING e), marked, s)
                  | (Ok _, marked, s) =>
                      match (spends ← of_result (wrapR ERR_PROCESSING (spendsForTx tx));
                             _ ← wrapM ERR_PROCESSING (st_Unspend spends false);
                             traverse (promote blockHeight) counters) s with
                      | (Err e, s) => (Err e, marked, s)
                      | (Ok unmarked, s) => (Ok (mjoin unmarked), marked, s)
                      end
                  end
              end
          end
      | _, _ => (Ok [], [], s)
      end
  end.

Fixpoint reverse_all (blockHeight : Z) (demotedSet cascaded touched : gset Hash)
    (demoted : list Hash) (s : S) : result unit * gset Hash * gset Hash * S :=
  match demoted with
  | [] => (Ok tt, cascaded, touched, s)
  | h :: demoted =>
      if bool_decide (h = CoinbasePlaceholderHashValue)
      then reverse_all blockHeight demotedSet cascaded touched demoted s
      else
        let '(r, marked, s) := reverse_one blockHeight demotedSet h s in
        let cascaded := cascaded ∪ list_to_set marked in
        let touched := touched ∪ list_to_set marked in
        match r with
        | Err e => (Err e, cascaded, touched, s)
        | Ok unmarked =>
            reverse_all blockHeight demotedSet cascaded (touched ∪ list_to_set unmarked) demoted s
        end
  end.

(** The result with all touched hashes, and the cascade (on error, what may have
    been flipped). *)
Definition ReverseProcessConflicting (now blockHeight : Z) (blockHash : Hash)
    (demotedTxHashes : list Hash) (s : S) : result (list Hash) * list Hash * S :=
  if bool_decide (demotedTxHashes = []) then (Ok [], [], s) else
  let walIntent := mkIntent ReverseKind blockHeight blockHash demotedTxHashes now in
  match st_BeginIntent walIntent s with
  | (Err e, s) => (Err (err_wrap ERR_PROCESSING e), [], s)
  | (Ok _, s) =>
      match reverse_all blockHeight (list_to_set demotedTxHashes) ∅ ∅ demotedTxHashes s with
      | (Err e, cascaded, _, s) => (Err e, keys cascaded, s)
      | (Ok _, cascaded, touched, s) =>
          (Ok (keys touched), keys cascaded, (st_CompleteIntent (IntentID walIntent) s).2)
      end
  end.
End Conflicts.
