(* ===== verification/ConflictTheorems.v ===== *)
(** * What conflict resolution guarantees

    The laws a store keeps for conflict resolution, on two observations of its
    state (the conflicting flag of each record and the pending intents), and what
    [ProcessConflicting] promises over any store that keeps them. *)

From stdpp Require Import list.
From S2P Require Import Prelude External Utxo ConflictWalks Conflicts.

(** ** The contract *)
Section Contract.
  Context {S : Type} (flag : S → Hash → option bool) (pending : S → gset Hash).

(** Neither observation changes. *)
Definition same (s s' : S) : Prop := (∀ h, flag s' h = flag s h) ∧ pending s' = pending s.

(** No flag outside [l] changes. *)
Definition flags_outside (l : list Hash) (s s' : S) : Prop := ∀ h, h ∉ l → flag s' h = flag s h.

Class StoreSpec (US : UtxoStore S) (CH : Chainhash) : Prop := {
  get_same h bins s r s' : st_Get h bins s = (r, s') → same s s';
  get_flag h bins s m s' : st_Get h bins s = (Ok (Some m), s') → flag s h = Some (d_Conflicting m);
  block_ids_keys l s r s' : st_BlockIDs l s = (Ok r, s') → map fst r = l;
  block_ids_same l s r s' : st_BlockIDs l s = (r, s') → same s s';
  set_conflicting_ok l b s r s' : st_SetConflicting l b s = (Ok r, s') →
    (∀ h, flag s' h = if bool_decide (h ∈ l) then Some b else flag s h) ∧ pending s' = pending s;
  (* a write that fails may have been done in part *)
  set_conflicting_err l b s e s' : st_SetConflicting l b s = (Err e, s') →
    (∀ h, flag s' h = flag s h ∨ h ∈ l ∧ flag s' h = Some b) ∧ pending s' = pending s;
  set_locked_same l b s r s' : st_SetLocked l b s = (r, s') → same s s';
  unspend_same l b s r s' : st_Unspend l b s = (r, s') → same s s';
  spend_same tx n s sp e s' : st_SpendOnly tx n s = (sp, e, s') → same s s';
  begin_ok ci s s' : st_BeginIntent ci s = (Ok tt, s') →
    (∀ h, flag s' h = flag s h) ∧ pending s' = {[IntentID ci]} ∪ pending s;
  begin_err ci s e s' : st_BeginIntent ci s = (Err e, s') → same s s';
  complete_ok id s s' : st_CompleteIntent id s = (Ok tt, s') →
    (∀ h, flag s' h = flag s h) ∧ pending s' = pending s ∖ {[id]};
  complete_err id s e s' : st_CompleteIntent id s = (Err e, s') → same s s';
}.

#[export] Instance same_preorder : PreOrder same.
Proof.
  split; [done|]. intros s1 s2 s3 [F1 P1] [F2 P2]. split; [|congruence]. intros h. by rewrite F2.
Qed.
End Contract.

(** ** The guard *)
Lemma elem_of_distinct_ids seen l x : x ∈ distinct_ids seen l ↔ x ∈ l ∧ x ∉ seen.
Proof.
  revert seen. induction l as [|y l IH]; intros seen; cbn [distinct_ids].
  { rewrite elem_of_nil. tauto. }
  case_bool_decide as Hy; rewrite ?elem_of_cons, IH, ?elem_of_cons, ?elem_of_union, ?elem_of_singleton.
  - split; [tauto|]. intros [[->|] ?]; tauto.
  - destruct (decide (x = y)) as [->|]; tauto.
Qed.

Definition usable (r : result (option (list Z))) : option (list Z) :=
  match r with Ok (Some (i :: l)) => Some (i :: l) | _ => None end.

Lemma split_resolved_elem metas a b : split_resolved metas = Ok (a, b) →
  (∀ h, h ∈ a ↔ ∃ r, (h, r) ∈ metas ∧ usable r = None) ∧
  (∀ h ids, (h, ids) ∈ b ↔ ∃ r, (h, r) ∈ metas ∧ usable r = Some ids).
Proof.
  assert (Hcons : ∀ (h h' : Hash) r' metas (P : _ → Prop),
    (∃ r, (h, r) ∈ (h', r') :: metas ∧ P (usable r)) ↔
    (h = h' ∧ P (usable r')) ∨ ∃ r, (h, r) ∈ metas ∧ P (usable r)).
  { intros h h' r' l P. setoid_rewrite elem_of_cons. split.
    - intros (r & [[= -> ->]|?] & ?); eauto.
    - intros [[-> ?]|(r & ? & ?)]; eauto. }
  revert a b. induction metas as [|[h r] metas IH]; intros a b; cbn [split_resolved].
  { intros [= <- <-]. setoid_rewrite elem_of_nil. split; intros; (split; [done|]); by intros (?&?&?). }
  set (sp := split_resolved metas) in *.
  assert (Hkeep : usable r = None → bindR sp (λ rest, Ok (h :: rest.1, rest.2)) = Ok (a, b) →
    (∀ h0, h0 ∈ a ↔ ∃ r0, (h0, r0) ∈ (h, r) :: metas ∧ usable r0 = None) ∧
    (∀ h0 ids, (h0, ids) ∈ b ↔ ∃ r0, (h0, r0) ∈ (h, r) :: metas ∧ usable r0 = Some ids)).
  { intros Hu ([a1 b1] & E & [= <- <-])%bindR_Ok. destruct (IH _ _ E) as [H1 H2]. split.
    - intros h0. rewrite (Hcons _ _ _ _ (.= None)), elem_of_cons, H1, Hu. tauto.
    - intros h0 ids. rewrite (Hcons _ _ _ _ (.= Some ids)), H2, Hu. split; [tauto|]. by intros [[_ ?]|]. }
  destruct r as [[[|i ids]|]|e]; [by apply Hkeep| |by apply Hkeep|].
  - intros ([a1 b1] & E & [= <- <-])%bindR_Ok. destruct (IH _ _ E) as [H1 H2]. split.
    + intros h0. rewrite (Hcons _ _ _ _ (.= None)), H1. split; [tauto|]. by intros [[_ ?]|].
    + intros h0 ids0. rewrite (Hcons _ _ _ _ (.= Some ids0)), elem_of_cons, H2. cbn [usable].
      split; intros [H|H]; [left; split; congruence|by right|left; destruct H; congruence|by right].
  - destruct (error_Is e ERR_TX_NOT_FOUND); [by apply Hkeep|done].
Qed.

Lemma attribute_elem check blockHash resolved x y :
  attribute check blockHash resolved = Ok (x, y) →
  (∀ h, h ∈ x ↔ ∃ ids, (h, ids) ∈ resolved ∧ check ids blockHash = Ok false) ∧
  (∀ h, h ∈ y ↔ ∃ ids, (h, ids) ∈ resolved ∧ check ids blockHash = Ok true) ∧
  (∀ h ids, (h, ids) ∈ resolved → ∃ v, check ids blockHash = Ok v).
Proof.
  revert x y. induction resolved as [|[h ids] resolved IH]; intros x y; cbn [attribute].
  { intros [= <- <-]. setoid_rewrite elem_of_nil.
    split_and!; [intros h; split; [done|by intros (?&?&?)]..|done]. }
  intros (v & Ev%wrapR_Ok & ([x1 y1] & E & Exy)%bindR_Ok)%bindR_Ok.
  destruct (IH _ _ E) as (H1 & H2 & H3). cbn [fst snd] in Exy.
  assert (Hcons : ∀ h0 w, (∃ ids0, (h0, ids0) ∈ (h, ids) :: resolved ∧ check ids0 blockHash = Ok w) ↔
    (h0 = h ∧ v = w) ∨ ∃ ids0, (h0, ids0) ∈ resolved ∧ check ids0 blockHash = Ok w).
  { intros h0 w. split.
    - intros (ids0 & [[= -> ->]|Hin]%elem_of_cons & Hc); [left; split; congruence|eauto].
    - intros [[-> ->]|(ids0 & Hin & Hc)]; eexists; (split; [|eassumption]); apply elem_of_cons; auto. }
  split_and!.
  - intros h0. rewrite Hcons, <- H1. destruct v; injection Exy as <- <-; rewrite ?elem_of_cons; intuition congruence.
  - intros h0. rewrite Hcons, <- H2. destruct v; injection Exy as <- <-; rewrite ?elem_of_cons; intuition congruence.
  - intros h0 ids0 [[= -> ->]|]%elem_of_cons; [by exists v|eauto].
Qed.
(** [on_chain] tells the block ids on the ancestry of the block that is processed. *)
Definition confirmed_in (on_chain : Z → bool) (r : result (option (list Z))) : bool :=
  match r with Ok (Some ids) => existsb on_chain ids | _ => false end.

Lemma confirmed_usable on_chain r :
  confirmed_in on_chain r = match usable r with Some ids => existsb on_chain ids | None => false end.
Proof. by destruct r as [[[|i ids]|]|e]. Qed.

(** Every loser is kept or refused, and both come from the losers. *)
Lemma decide_losers_all check blockHash metas kept refused :
  decide_losers check blockHash metas = Ok (kept, refused) →
  ∀ h, h ∈ map fst metas ↔ h ∈ kept ∨ h ∈ refused.
Proof.
  unfold decide_losers. intros ([a b] & Es & E)%bindR_Ok h.
  destruct (split_resolved_elem _ _ _ Es) as [Ha Hb]. cbn [fst snd] in E.
  assert (Hall : h ∈ map fst metas ↔ h ∈ a ∨ h ∈ map fst b).
  { rewrite Ha. rewrite !list_elem_of_fmap. split.
    - intros ([h' r] & -> & Hin). destruct (usable r) as [ids|] eqn:Eu; [right|left; eauto].
      exists (h', ids). split; [done|]. apply Hb. eauto.
    - intros [(r & Hin & _)|([h' ids] & -> & (r & Hin & _)%Hb)]; by eexists (_, r). }
  rewrite Hall. case_bool_decide as Hu.
  - injection E as <- <-. rewrite elem_of_nil. split; [|tauto].
    intros [?|([h' ids] & -> & Hin)%list_elem_of_fmap]; [by left|].
    pose proof Hin as (r & _ & Eu)%Hb. destruct r as [[[|i ids']|]|]; try done.
    injection Eu as <-. exfalso.
    assert (i ∈ distinct_ids ∅ (mjoin (map snd b))) as Hx; [|rewrite Hu in Hx; by apply elem_of_nil in Hx].
    apply elem_of_distinct_ids. split; [|apply not_elem_of_empty]. apply list_elem_of_join.
    exists (i :: ids'). split; [by left|]. apply list_elem_of_fmap. by exists (h', i :: ids').
  - apply bindR_Ok in E as (v & Ev%wrapR_Ok & E). destruct v.
    + apply bindR_Ok in E as ([x y] & Eat & [= <- <-]). destruct (attribute_elem _ _ _ _ _ Eat) as (Hx & Hy & Hd).
      cbn [fst snd]. rewrite elem_of_app, Hx, Hy, list_elem_of_fmap. split.
      * intros [?|([h' ids] & -> & Hin)]; [by left; left|].
        destruct (Hd _ _ Hin) as [[|] Hv]; [right|left; right]; eauto.
      * intros [[?|(ids & Hin & _)]|(ids & Hin & _)]; [by left|right; by eexists (_, ids)..].
    + injection E as <- <-. rewrite elem_of_app, elem_of_nil. tauto.
Qed.

(** With a truthful answer about ancestry, the refused ones are the confirmed. *)
Lemma decide_losers_spec check blockHash on_chain metas kept refused :
  (∀ ids, check ids blockHash = Ok (existsb on_chain ids)) →
  decide_losers check blockHash metas = Ok (kept, refused) →
  ∀ h, h ∈ refused ↔ ∃ r, (h, r) ∈ metas ∧ confirmed_in on_chain r = true.
Proof.
  intros Hcheck. unfold decide_losers. intros ([a b] & Es & E)%bindR_Ok h.
  destruct (split_resolved_elem _ _ _ Es) as [Ha Hb]. cbn [fst snd] in E.
  assert (Hall : (∃ r, (h, r) ∈ metas ∧ confirmed_in on_chain r = true) ↔
                 ∃ ids, (h, ids) ∈ b ∧ existsb on_chain ids = true).
  { split.
    - intros (r & Hin & Hc). rewrite confirmed_usable in Hc. destruct (usable r) as [ids|] eqn:Eu; [|done].
      exists ids. split; [|done]. apply Hb. eauto.
    - intros (ids & (r & Hin & Eu)%Hb & Hc). exists r. by rewrite confirmed_usable, Eu. }
  rewrite Hall. clear Hall Ha.
  assert (Hsub : ∀ ids, (h, ids) ∈ b → existsb on_chain ids = true →
                 existsb on_chain (distinct_ids ∅ (mjoin (map snd b))) = true).
  { intros ids Hin (i & Hi & Ho)%existsb_exists. apply existsb_exists. exists i. split; [|done].
    apply list_elem_of_In, elem_of_distinct_ids. split; [|apply not_elem_of_empty].
    apply list_elem_of_join. exists ids. split; [by apply list_elem_of_In|].
    apply list_elem_of_fmap. by exists (h, ids). }
  case_bool_decide as Hu.
  - injection E as <- <-. rewrite elem_of_nil. split; [done|]. intros (ids & Hin & Hc).
    specialize (Hsub _ Hin Hc). by rewrite Hu in Hsub.
  - apply bindR_Ok in E as (v & Ev%wrapR_Ok & E). rewrite Hcheck in Ev. destruct v.
    + apply bindR_Ok in E as ([x y] & Eat & [= <- <-]). destruct (attribute_elem _ _ _ _ _ Eat) as (_ & Hy & _).
      cbn [fst snd]. rewrite Hy. setoid_rewrite Hcheck. split; intros (ids & ? & Hc); exists ids; split; congruence.
    + injection E as <- <-. rewrite elem_of_nil. split; [done|]. intros (ids & Hin & Hc).
      rewrite (Hsub _ Hin Hc) in Ev. done.
Qed.

Section Theorems.
  Context {S : Type} {US : UtxoStore S} {CH : Chainhash} {ST : Subtree} {BT : BtTx}.
  Context (flag : S → Hash → option bool) (pending : S → gset Hash).
  Context {Spec : StoreSpec flag pending US CH}.
  Variable keys : gset Hash → list Hash.
  Variable fuel : nat.
  Variable ctx_done : nat → bool.

Abbreviation same := (same flag pending).

(** ** Reads *)
Definition reads {A} (m : SM S A) : Prop := ∀ s r s', m s = (r, s') → same s s'.

Lemma reads_ret {A} (a : A) : reads (mret a).
Proof. by intros s r s' [= <- <-]. Qed.
Lemma reads_fail {A} e : reads (fail (A := A) e).
Proof. by intros s r s' [= <- <-]. Qed.
Lemma reads_of_result {A} (x : result A) : reads (of_result x).
Proof. by intros s r s' [= <- <-]. Qed.
Lemma reads_get h bins : reads (st_Get h bins).
Proof. intros s r s' E. by eapply get_same. Qed.
Lemma reads_bind {A B} (m : SM S A) (f : A → SM S B) : reads m → (∀ a, reads (f a)) → reads (m ≫= f).
Proof.
  intros Hm Hf s r s' E. unfold mbind, SM_bind in E. destruct (m s) as [[a|e] s1] eqn:Em;
    apply Hm in Em; [etransitivity; [exact Em|by eapply Hf]|by injection E as <- <-].
Qed.
Lemma reads_wrap {A} c (m : SM S A) : reads m → reads (wrapM c m).
Proof.
  intros Hm s r s' E. unfold wrapM in E. destruct (m s) as [[a|e] s1] eqn:Em; apply Hm in Em;
    by injection E as <- <-.
Qed.
Lemma reads_traverse {A B} (f : A → SM S B) l : (∀ x, reads (f x)) → reads (traverse f l).
Proof.
  intros Hf. induction l as [|x l IH]; cbn [traverse]; [apply reads_ret|].
  apply reads_bind; [done|intros]. apply reads_bind; [done|intros]. apply reads_ret.
Qed.
Lemma reads_if {A} (b : bool) (m n : SM S A) : reads m → reads n → reads (if b then m else n).
Proof. by destruct b. Qed.
Hint Resolve reads_ret reads_fail reads_of_result reads_get reads_wrap reads_traverse : core.

Ltac reads_parts := repeat first
  [ apply reads_bind | apply reads_if | match goal with |- ∀ _, _ => intro end
  | match goal with |- reads (match ?x with _ => _ end) => destruct x end
  | solve [eauto] ].

Lemma reads_walk k maxNodes visited level : reads (walk k maxNodes visited level).
Proof.
  revert visited level. induction k as [|k IH]; intros visited [|h level]; cbn [walk]; auto.
  unfold walk_read. reads_parts.
Qed.

Hint Resolve reads_walk : core.

Lemma reads_GetConflictingChildren k h n : reads (GetConflictingChildren keys k h n).
Proof. unfold GetConflictingChildren. apply reads_if; [auto|]. apply reads_bind; [apply reads_walk|auto]. Qed.
Hint Resolve reads_GetConflictingChildren : core.

Lemma reads_GetCounterConflicting k h : reads (GetCounterConflicting keys k h).
Proof.
  unfold GetCounterConflicting, GetCounterConflictingTxHashes, spender_cone, parent_spenders, get_present.
  reads_parts; apply reads_traverse; reads_parts.
Qed.
Hint Resolve reads_GetCounterConflicting : core.

Lemma reads_read_winners processed l : reads (read_winners keys fuel processed l).
Proof.
  unfold read_winners. apply reads_if; [auto|]. apply reads_traverse. intros h.
  unfold read_winner. reads_parts.
Qed.

Lemma reads_block_ids l : reads (st_BlockIDs l).
Proof. intros s r s' E. by eapply block_ids_same. Qed.
Hint Resolve reads_block_ids : core.

Lemma reads_filter losers winners bh check :
  reads (filterAncestryConfirmedLosers losers winners bh check).
Proof. unfold filterAncestryConfirmedLosers. reads_parts. Qed.

(** The reading of a winner checks its flag. *)
Lemma read_winner_flag processed h s r s' : read_winner keys fuel processed h s = (Ok r, s') →
  flag s h = Some true ∨ (h ∈ processed ∧ is_Some (flag s h)).
Proof.
  unfold read_winner, mbind, SM_bind, wrapM.
  destruct (st_Get h _ s) as [[[m|]|e] s1] eqn:E; try done.
  apply (get_flag flag pending) in E. destruct (d_Conflicting m); [by left|]. cbn [negb andb].
  case_bool_decide as Hp; [done|]. intros _. right. split; [exact Hp|rewrite E; by eexists].
Qed.

(** ** Writes *)
Lemma mark_levels_flags k visited spends order toProcess s r order' s' :
  (∀ h, h ∈ toProcess → h ∈ order) →
  mark_levels k visited spends order toProcess s = (r, order', s') →
  pending s' = pending s ∧ (∀ h, h ∈ order → h ∈ order') ∧
  (∀ h, h ∉ order' → flag s' h = flag s h) ∧
  (∀ sps, r = Ok sps → ∀ h, h ∈ order' → h ∈ order ∧ h ∉ toProcess ∧ flag s' h = flag s h ∨ flag s' h = Some true).
Proof.
  revert visited spends order toProcess s.
  induction k as [|k IH]; intros visited spends order toProcess s Hsub; destruct toProcess as [|x l];
    cbn [mark_levels].
  - intros [= <- <- <-]. split_and!; try done. intros _ _ h Hh. left. split_and!; [done| |done].
    apply not_elem_of_nil.
  - intros [= <- <- <-]. by split_and!.
  - intros [= <- <- <-]. split_and!; try done. intros _ _ h Hh. left. split_and!; [done| |done].
    apply not_elem_of_nil.
  - destruct (st_SetConflicting (x :: l) true s) as [[[aff children]|e] s1] eqn:E.
    2: { apply (set_conflicting_err flag pending) in E as [Hf Hp]. intros [= <- <- <-]. split_and!; try done.
         intros h Hh. destruct (Hf h) as [|[Hl _]]; [done|]. by destruct Hh; apply Hsub. }
    apply (set_conflicting_ok flag pending) in E as [Hf Hp].
    destruct (fresh visited children) as [visited' next] eqn:Efr. intros Hm.
    apply IH in Hm as (Hp' & Hin & Hout & Hok); [|intros h Hh; apply elem_of_app; by right].
    split_and!; [congruence| | |].
    + intros h Hh. apply Hin, elem_of_app. by left.
    + intros h Hh. rewrite Hout by done. rewrite Hf, bool_decide_false; [done|].
      intros Hl. apply Hh, Hin, elem_of_app. left. by apply Hsub.
    + intros sps -> h Hh. destruct (Hok sps eq_refl h Hh) as [(Ho & Hn & Hsame)|]; [|by right].
      rewrite Hsame, Hf. case_bool_decide as Hl; [by right|].
      apply elem_of_app in Ho as [Ho|Ho]; [by left|done].
Qed.

Lemma fresh_elem visited l visited' order h : fresh visited l = (visited', order) →
  (h ∈ order ↔ h ∈ l ∧ h ∉ visited).
Proof.
  revert visited visited' order. induction l as [|x l IH]; intros visited visited' order; cbn [fresh].
  { intros [= <- <-]. rewrite elem_of_nil. tauto. }
  case_bool_decide as Hx.
  - intros E. rewrite (IH _ _ _ E), elem_of_cons. split; [tauto|]. intros [[->|] ?]; tauto.
  - destruct (fresh ({[x]} ∪ visited) l) as [v k] eqn:E. intros [= <- <-].
    rewrite elem_of_cons, (IH _ _ _ E), elem_of_union, elem_of_singleton, elem_of_cons.
    destruct (decide (h = x)) as [->|]; tauto.
Qed.

(** Marking flips exactly the hashes it lists, and lists those it was given. *)
Lemma MarkConflictingRecursively_flags hashes s r order s' :
  MarkConflictingRecursively fuel hashes s = (r, order, s') →
  pending s' = pending s ∧ (∀ h, h ∈ hashes → h ∈ order) ∧ (∀ h, h ∉ order → flag s' h = flag s h) ∧
  (∀ sps, r = Ok sps → ∀ h, h ∈ order → flag s' h = Some true).
Proof.
  unfold MarkConflictingRecursively. destruct (fresh ∅ hashes) as [visited order0] eqn:E.
  assert (Hin : ∀ h, h ∈ order0 ↔ h ∈ hashes).
  { intros h. rewrite (fresh_elem _ _ _ _ h E). split; [tauto|]. intros. split; [done|]. set_solver. }
  intros Hm. apply mark_levels_flags in Hm as (Hp & Hi & Ho & Hok); [|intros h; apply Hin].
  split_and!; [done| |done|].
  - intros h Hh. by apply Hi, Hin.
  - intros sps Hr h Hh. destruct (Hok sps Hr h Hh) as [(H1 & H2 & _)|]; [|done].
    by destruct H2; apply Hin.
Qed.


(** ** What the guard is asked about *)
Lemma filter_losers_all losers winners bh check s kept refused s' :
  filterAncestryConfirmedLosers losers winners bh check s = (Ok (kept, refused), s') →
  (∀ h, h ∈ losers ↔ h ∈ kept ∨ h ∈ refused) ∧ (∀ h, h ∈ refused → h ∉ winners).
Proof.
  unfold filterAncestryConfirmedLosers.
  assert (Hsplit : ∀ h, h ∈ losers ↔ h ∈ filter (λ h, h ∈ winners) losers ∨ h ∈ filter (λ h, h ∉ winners) losers).
  { intros h. rewrite !list_elem_of_filter. destruct (decide (h ∈ winners)); tauto. }
  case_bool_decide as Hc.
  { intros [= <- <- <-]. split; [|by intros h ?%elem_of_nil]. intros h. by rewrite Hsplit, Hc. }
  unfold mbind, SM_bind, wrapM, of_result. destruct (st_BlockIDs _ s) as [[metas|e] s1] eqn:E; [|done].
  apply (block_ids_keys flag pending) in E.
  destruct (decide_losers check bh metas) as [[a b]|e] eqn:Ed; [|done].
  pose proof (decide_losers_all _ _ _ _ _ Ed) as Hd. rewrite E in Hd.
  intros [= <- <- <-]. cbn [fst snd]. split.
  - intros h. rewrite elem_of_app, Hsplit, Hd. tauto.
  - intros h Hh. assert (h ∈ filter (λ h, h ∉ winners) losers) as Hf by (apply Hd; by right).
    by apply list_elem_of_filter in Hf as [Hf _].
Qed.

(** The store's answers, when no block is added meanwhile. *)
Definition answers_ids (ids : Hash → result (option (list Z))) : Prop :=
  ∀ l s r s', st_BlockIDs l s = (Ok r, s') → r = map (λ h, (h, ids h)) l.

Lemma filter_losers_spec ids on_chain losers winners bh check s kept refused s' :
  answers_ids ids → (∀ l, check l bh = Ok (existsb on_chain l)) →
  filterAncestryConfirmedLosers losers winners bh check s = (Ok (kept, refused), s') →
  ∀ h, h ∈ refused ↔ h ∈ losers ∧ h ∉ winners ∧ confirmed_in on_chain (ids h) = true.
Proof.
  intros Hids Hcheck. unfold filterAncestryConfirmedLosers.
  case_bool_decide as Hc.
  { intros [= <- <- <-] h. rewrite elem_of_nil. split; [done|]. intros (Hl & Hw & _).
    apply (elem_of_nil (A := Hash) h). rewrite <- Hc. by apply list_elem_of_filter. }
  unfold mbind, SM_bind, wrapM, of_result. destruct (st_BlockIDs _ s) as [[metas|e] s1] eqn:E; [|done].
  apply Hids in E as ->.
  destruct (decide_losers _ _ _) as [[a b]|e] eqn:Ed; [|done].
  intros [= <- <- <-] h. cbn [fst snd]. rewrite (decide_losers_spec _ _ _ _ _ _ Hcheck Ed).
  setoid_rewrite list_elem_of_fmap. split.
  - intros (r & (h' & [= -> ->] & Hf) & Hr). by apply list_elem_of_filter in Hf as [? ?].
  - intros (Hl & Hw & Hr). exists (ids h). split; [|done]. exists h. split; [done|].
    by apply list_elem_of_filter.
Qed.

(** ** Frames: only the flags of [X] may have changed *)
Definition touches (X : Hash → Prop) (s s' : S) : Prop :=
  pending s' = pending s ∧ ∀ h, ¬ X h → flag s' h = flag s h.

#[local] Instance touches_preorder X : PreOrder (touches X).
Proof.
  split; [done|]. intros s1 s2 s3 [P1 F1] [P2 F2]. split; [congruence|]. intros h Hh. by rewrite F2, F1.
Qed.

Lemma touches_same X s s' : same s s' → touches X s s'.
Proof. intros [F P]. split; [done|]. intros h _. apply F. Qed.

Lemma touches_set_conflicting (X : Hash → Prop) l b s r s' : (∀ h, h ∈ l → X h) →
  st_SetConflicting l b s = (r, s') → touches X s s'.
Proof.
  intros Hl E. destruct r as [r|e].
  - apply (set_conflicting_ok flag pending) in E as [F P]. split; [done|]. intros h Hh.
    rewrite F, bool_decide_false; [done|]. auto.
  - apply (set_conflicting_err flag pending) in E as [F P]. split; [done|]. intros h Hh.
    destruct (F h) as [|[? _]]; [done|]. by destruct Hh; apply Hl.
Qed.

Lemma reads_touches {A} (m : SM S A) X s r s' : reads m → m s = (r, s') → touches X s s'.
Proof. intros Hm E. apply touches_same. by eapply Hm. Qed.

Lemma spend_winners_same n txs done s e done' s' :
  spend_winners n txs done s = (e, done', s') → same s s'.
Proof.
  revert done s. induction txs as [|[tx|] txs IH]; intros done s; cbn [spend_winners]; [by intros [= <- <- <-]| |by intros [= <- <- <-]].
  destruct (st_SpendOnly tx n s) as [[sp e1] s1] eqn:E. apply (spend_same flag pending) in E.
  destruct e1; [by intros [= <- <- <-]|]. intros H. etransitivity; [exact E|by eapply IH].
Qed.

Lemma lock_attempts_same k n hashes v last s r s' :
  lock_attempts ctx_done k n hashes v last s = (r, s') → same s s'.
Proof.
  revert n last s. induction k as [|k IH]; intros n last s; cbn [lock_attempts]; [by intros [= <- <-]|].
  destruct (_ && _); [by intros [= <- <-]|].
  destruct (st_SetLocked hashes v s) as [[[]|e] s1] eqn:E; apply (set_locked_same flag pending) in E.
  - by intros [= <- <-].
  - intros H. etransitivity; [exact E|by eapply IH].
Qed.

(** ** The five steps and their rollback *)
Lemma commit_steps_flags n txs wtxs losing s r p s' : (∀ h, h ∈ txs → h ∈ losing) →
  commit_steps keys fuel ctx_done n txs wtxs losing s = (r, p, s') →
  touches (.∈ pr_allMarkedHashes p) s s' ∧ (∀ h, h ∈ losing → h ∈ pr_allMarkedHashes p) ∧
  (r = Ok tt → ∀ h, h ∈ pr_allMarkedHashes p → flag s' h = Some (negb (bool_decide (h ∈ txs)))) ∧
  (pr_step1Committed p = true → ∀ h, h ∈ pr_allMarkedHashes p → is_Some (flag s' h)).
Proof.
  intros Hsub. unfold commit_steps.
  destruct (MarkConflictingRecursively fuel losing s) as [[mr marked] s1] eqn:Em.
  destruct (MarkConflictingRecursively_flags _ _ _ _ _ Em) as (Hp & Hin & Hout & Hok).
  assert (Ht : touches (.∈ marked) s s1) by done.
  destruct mr as [affected|e]; [|intros [= <- <- <-]; done].
  destruct (st_Unspend affected true s1) as [[u|e] s2] eqn:Eu; apply (unspend_same flag pending) in Eu;
    [|intros [= <- <- <-]; split_and!; [etransitivity; [exact Ht|by apply touches_same]|done..|];
      intros _ h Hh; rewrite (proj1 Eu); erewrite Hok by done; done].
  destruct (spend_winners n wtxs [] s2) as [[e done] s3] eqn:Ew. apply spend_winners_same in Ew.
  assert (H13 : same s1 s3) by (etransitivity; eassumption).
  assert (Ht3 : touches (.∈ marked) s s3) by (etransitivity; [exact Ht|by apply touches_same]).
  assert (Hs3 : ∀ h, h ∈ marked → is_Some (flag s3 h))
    by (intros h Hh; rewrite (proj1 H13); erewrite Hok by done; done).
  destruct e as [e|]; [intros [= <- <- <-]; by split_and!|].
  destruct (st_SetConflicting txs false s3) as [[x|e] s4] eqn:Ec.
  2: { pose proof Ec as Ec'. apply (set_conflicting_err flag pending) in Ec as [Fc _].
       intros [= <- <- <-]. split_and!; try done.
       - etransitivity; [exact Ht3|]. eapply touches_set_conflicting; [|exact Ec']. auto.
       - intros _ h Hh. destruct (Fc h) as [->|[_ ->]]; [by apply Hs3|done]. }
  assert (Ht4 : touches (.∈ marked) s s4).
  { etransitivity; [exact Ht3|]. eapply touches_set_conflicting; [|exact Ec]. auto. }
  apply (set_conflicting_ok flag pending) in Ec as [Fc _].
  unfold setLockedWithRetry.
  destruct (lock_attempts ctx_done _ _ _ _ _ s4) as [rl s5] eqn:El. apply lock_attempts_same in El.
  assert (Ht5 : touches (.∈ marked) s s5) by (etransitivity; [exact Ht4|by apply touches_same]).
  assert (Hs5 : ∀ h, h ∈ marked → is_Some (flag s5 h))
    by (intros h Hh; rewrite (proj1 El), Fc; case_bool_decide; [done|by apply Hs3]).
  destruct rl as [[]|e]; intros [= <- <- <-]; cbn; split_and!; try done.
  intros _ h Hh. rewrite (proj1 El), Fc. case_bool_decide; [done|].
  rewrite (proj1 H13). by eapply Hok.
Qed.

Lemma respend_same n h s e s' : respend n h s = (e, s') → same s s'.
Proof.
  unfold respend. case_bool_decide; [by intros [= <- <-]|].
  destruct (st_Get h [F_Tx] s) as [[m|e1] s1] eqn:E; apply (get_same flag pending) in E;
    [|by intros [= <- <-]].
  destruct (m ≫= d_Tx) as [tx|]; [|by intros [= <- <-]].
  destruct (st_SpendOnly tx n s1) as [[sp e1] s2] eqn:Es. apply (spend_same flag pending) in Es.
  destruct e1; intros [= <- <-]; by etransitivity.
Qed.

Lemma respend_all_same n l s e s' : respend_all n l s = (e, s') → same s s'.
Proof.
  revert s e. induction l as [|h l IH]; intros s e; cbn [respend_all]; [by intros [= <- <-]|].
  destruct (respend n h s) as [e1 s1] eqn:E1. destruct (respend_all n l s1) as [e2 s2] eqn:E2.
  intros [= <- <-]. etransitivity; [by eapply respend_same|by eapply IH].
Qed.

Lemma attempt_inv {A} c (m : SM S A) s e s' : attempt c m s = (e, s') →
  ∃ r, m s = (r, s') ∧ (e = [] → ∃ a, r = Ok a).
Proof.
  unfold attempt. destruct (m s) as [[a|e1] s1]; intros [= <- <-]; eexists; split; eauto. done.
Qed.

Lemma only_inv {A} b (m : S → list A * S) s e s' : only b m s = (e, s') →
  (b = true ∧ m s = (e, s')) ∨ (b = false ∧ e = [] ∧ s' = s).
Proof. destruct b; cbn; [by left|]. intros [= <- <-]. by right. Qed.

(** These flags can be cleared wherever the store has the transactions. *)
Definition clears (l : list Hash) : Prop := ∀ s, (∀ h, h ∈ l → is_Some (flag s h)) →
  ∃ r s', st_SetConflicting l false s = (Ok r, s').

(** A rollback leaves the flags of what was marked cleared, the winners' with
    the others. *)
Lemma rollback_flags txs p n s errs s' : (∀ h, h ∈ txs → h ∈ pr_allMarkedHashes p) →
  rollbackProcessConflicting txs p n s = (errs, s') →
  touches (.∈ pr_allMarkedHashes p) s s' ∧
  (clears (pr_allMarkedHashes p) → (∀ h, h ∈ pr_allMarkedHashes p → is_Some (flag s h)) →
   ∀ h, h ∈ pr_allMarkedHashes p → flag s' h = Some false).
Proof.
  intros Hsub. unfold rollbackProcessConflicting. set (X := (.∈ pr_allMarkedHashes p)).
  destruct (only (pr_step4Committed p) _ s) as [e1 s1] eqn:E1.
  destruct (only _ _ s1) as [e2 s2] eqn:E2. destruct (only _ _ s2) as [e3 s3] eqn:E3.
  destruct (only _ _ s3) as [e4 s4] eqn:E4. destruct (only _ _ s4) as [e5 s5] eqn:E5.
  intros [= <- <-].
  assert (T1 : touches X s s1).
  { apply only_inv in E1 as [[_ (r & E & _)%attempt_inv]|(_ & _ & ->)]; [|done].
    by eapply touches_set_conflicting. }
  assert (T2 : same s1 s2).
  { apply only_inv in E2 as [[_ (r & E & _)%attempt_inv]|(_ & _ & ->)]; [|done]. by eapply unspend_same. }
  assert (T3 : same s2 s3).
  { apply only_inv in E3 as [[_ E]|(_ & _ & ->)]; [|done]. by eapply respend_all_same. }
  assert (Hkept : ∀ h, is_Some (flag s h) → is_Some (flag s3 h)).
  { intros h Hh. rewrite (proj1 T3), (proj1 T2).
    apply only_inv in E1 as [[_ ([r|e] & E & _)%attempt_inv]|(_ & _ & ->)]; [| |done].
    - apply (set_conflicting_ok flag pending) in E as [F _]. rewrite F. destruct (bool_decide (h ∈ txs)); [by eexists|done].
    - apply (set_conflicting_err flag pending) in E as [F _]. destruct (F h) as [->|[_ ->]]; done. }
  assert (T5 : same s4 s5).
  { apply only_inv in E5 as [[_ (r & E & _)%attempt_inv]|(_ & _ & ->)]; [|done]. by eapply set_locked_same. }
  assert (T4 : touches X s3 s4 ∧
    (clears (pr_allMarkedHashes p) → (∀ h, X h → is_Some (flag s3 h)) → ∀ h, X h → flag s4 h = Some false)).
  { apply only_inv in E4 as [[_ (r & E & _)%attempt_inv]|(Hb & _ & ->)].
    - split; [by eapply touches_set_conflicting; [|exact E]|]. intros Hc Hs h Hh.
      destruct (Hc s3 Hs) as (a & s'' & Ea). assert (r = Ok a) as -> by congruence.
      apply (set_conflicting_ok flag pending) in E as [F _]. by rewrite F, bool_decide_true.
    - split; [done|]. intros _ _ h Hh. apply negb_false_iff, bool_decide_eq_true in Hb.
      unfold X in Hh. rewrite Hb in Hh. by apply elem_of_nil in Hh. }
  split.
  - etransitivity; [exact T1|]. etransitivity; [by apply touches_same|].
    etransitivity; [by apply touches_same|]. etransitivity; [apply T4|by apply touches_same].
  - intros Hc Hs h Hh. rewrite (proj1 T5). apply T4; auto.
Qed.

(** ** A winner is in its own counter-conflicting set *)
Context (Hkeys : ∀ X, keys X ≡ₚ elements X).

Lemma elem_of_keys X h : h ∈ keys X ↔ h ∈ X.
Proof. by rewrite Hkeys, elem_of_elements. Qed.

Lemma SM_bind_Ok {A B} (m : SM S A) (f : A → SM S B) s b s' :
  (m ≫= f) s = (Ok b, s') → ∃ a s1, m s = (Ok a, s1) ∧ f a s1 = (Ok b, s').
Proof. unfold mbind, SM_bind. destruct (m s) as [[a|e] s1]; [by eauto|done]. Qed.

Lemma GetCounterConflicting_own h s l s' : GetCounterConflicting keys fuel h s = (Ok l, s') → h ∈ l.
Proof.
  unfold GetCounterConflicting, GetCounterConflictingTxHashes.
  intros (m & s1 & _ & (ps & s2 & _ & (sps & s3 & _ & (cs & s4 & _ & [= <- <-])%SM_bind_Ok)%SM_bind_Ok)%SM_bind_Ok)%SM_bind_Ok.
  apply elem_of_keys, elem_of_union_l, elem_of_union_l, elem_of_singleton. done.
Qed.

Lemma wrapM_Ok {A} c (m : SM S A) s a s' : wrapM c m s = (Ok a, s') → m s = (Ok a, s').
Proof. unfold wrapM. by destruct (m s) as [[?|?] ?]. Qed.

Lemma read_winner_own processed h s tx losers s' :
  read_winner keys fuel processed h s = (Ok (tx, losers), s') → h ∈ losers.
Proof.
  unfold read_winner. intros (m & s1 & _ & E)%SM_bind_Ok. destruct m as [m|]; [|done].
  destruct (_ && _); [done|]. apply SM_bind_Ok in E as (l & s2 & El%wrapM_Ok & [= _ <- _]).
  by eapply GetCounterConflicting_own.
Qed.

Lemma read_winners_own processed txs s ws s' : read_winners keys fuel processed txs s = (Ok ws, s') →
  ∀ h, h ∈ txs → h ∈ mjoin (map snd ws).
Proof.
  unfold read_winners. case_bool_decide; [done|]. clear H.
  revert s ws. induction txs as [|x txs IH]; intros s ws; cbn [traverse]; [by intros _ h ?%elem_of_nil|].
  intros ([tx l] & s1 & E1 & (rest & s2 & E2 & [= <- <-])%SM_bind_Ok)%SM_bind_Ok h Hh.
  change (h ∈ l ++ mjoin (map snd rest)). apply elem_of_app.
  apply elem_of_cons in Hh as [->|Hh]; [left; by eapply read_winner_own|right; by eapply IH].
Qed.

(** ** ProcessConflicting between its begin and its completion *)
Definition body_ok (txs : list Hash) (o : outcome) (s s' : S) : Prop :=
  touches (.∈ oc_marked o) s s' ∧
  match oc_result o with
  | Err _ => oc_refused o = []
  | Ok losing =>
      (oc_refused o ≠ [] ∧ losing = [] ∧ oc_marked o = []) ∨
      (oc_refused o = [] ∧ (∀ h, h ∈ txs → h ∈ losing) ∧ (∀ h, h ∈ losing → h ∈ oc_marked o) ∧
       ∀ h, h ∈ oc_marked o → flag s' h = Some (negb (bool_decide (h ∈ txs))))
  end.

Lemma after_steps_ok n txs losing kept wtxs s r p s1 o s' :
  (∀ h, h ∈ txs → h ∈ losing) → (∀ h, h ∈ losing → h ∈ kept) →
  commit_steps keys fuel ctx_done n txs wtxs kept s = (r, p, s1) →
  after_steps n txs losing r p s1 = (o, s') → body_ok txs o s s'.
Proof.
  intros Ht Hl E. apply commit_steps_flags in E as (Htouch & Hin & Hok & _); [|by auto].
  unfold after_steps, body_ok. destruct r as [[]|e].
  - intros [= <- <-]. cbn. split; [done|]. right. split_and!; auto.
  - destruct (_ || _); [by intros [= <- <-]|].
    destruct (rollbackProcessConflicting txs p n s1) as [errs s2] eqn:Er.
    apply rollback_flags in Er as [Hr _]; [|by auto].
    case_bool_decide; intros [= <- <-]; (split; [by etransitivity|done]).
Qed.

Lemma process_body_ok n bh txs processed guard s o s' :
  process_body keys fuel ctx_done n bh txs processed guard s = (o, s') → body_ok txs o s s'.
Proof.
  unfold process_body. destruct (read_winners keys fuel processed txs s) as [[ws|e] s1] eqn:Ew.
  2: { intros [= <- <-]. split; [|done]. eapply reads_touches; [apply reads_read_winners|exact Ew]. }
  pose proof (read_winners_own _ _ _ _ _ Ew) as Hown.
  apply (reads_touches _ (λ _, False)) in Ew as H01; [|apply reads_read_winners].
  set (losing := keys _).
  assert (Hlosing : ∀ h, h ∈ txs → h ∈ losing)
    by (intros h Hh; by apply elem_of_keys, elem_of_list_to_set, Hown).
  destruct (match guard with None => _ | Some _ => _ end) as [[[kept refused]|e] s2] eqn:Eg.
  all: assert (touches (λ _, False) s s2) as H02 by
    (etransitivity; [exact H01|]; destruct guard;
       [eapply reads_touches; [apply reads_filter|exact Eg]|by simplify_eq]).
  2: { intros [= <- <-]. split; [|done]. split; [apply H02|]. intros h _. apply H02; tauto. }
  case_bool_decide as Href; [|intros [= <- <-]; cbn].
  2: { split; [split; [apply H02|intros h _; apply H02; tauto]|]. by left. }
  assert (Hkept : ∀ h, h ∈ losing → h ∈ kept).
  { intros h Hh. destruct guard as [check|]; [|by injection Eg as <- <- <-].
    apply filter_losers_all in Eg as [Hall _]. apply Hall in Hh as [?|Hh]; [done|].
    rewrite Href in Hh. by apply elem_of_nil in Hh. }
  destruct (commit_steps _ _ _ _ _ _ _ s2) as [[r p] s3] eqn:Ec. intros Ea.
  destruct (after_steps_ok _ _ _ _ _ _ _ _ _ _ _ Hlosing Hkept Ec Ea) as [Htouch Hrest].
  split; [|done]. etransitivity; [|exact Htouch]. split; [apply H02|]. intros h _. apply H02; tauto.
Qed.

(** ** What it promises *)
Abbreviation Process := (ProcessConflicting keys fuel ctx_done).

(** [ProcessConflicting] is its body between a recorded intent and its completion. *)
Lemma ProcessConflicting_parts now n bh txs processed guard s o s' :
  Process now n bh txs processed guard s = (o, s') →
  let wal := forward_intent n bh txs now in
  (∃ e, st_BeginIntent wal s = (Err e, s') ∧ o = mkOutcome (Err (err_wrap ERR_PROCESSING e)) [] [] false) ∨
  ∃ s1 s2, st_BeginIntent wal s = (Ok tt, s1) ∧
    process_body keys fuel ctx_done n bh txs processed guard s1 = (o, s2) ∧
    match oc_result o with
    | Ok _ => ∃ r, st_CompleteIntent (IntentID wal) s2 = (r, s')
    | Err _ => s' = s2
    end.
Proof.
  unfold ProcessConflicting. set (wal := forward_intent n bh txs now). cbv zeta.
  destruct (st_BeginIntent wal s) as [[[]|e] s1] eqn:Eb; [|intros [= <- <-]; left; eauto].
  destruct (process_body _ _ _ _ _ _ _ _ s1) as [o1 s2] eqn:Ep. intros E. right. exists s1, s2.
  destruct (oc_result o1) eqn:Er; injection E as <- <-; rewrite Er; split_and!; try done.
  destruct (st_CompleteIntent _ s2) as [r s3]. by exists r.
Qed.

Lemma begin_flags wal s r s' : st_BeginIntent wal s = (r, s') → ∀ h, flag s' h = flag s h.
Proof.
  destruct r as [[]|e]; intros E; [by eapply begin_ok in E as [? _]|by eapply begin_err in E as [? _]].
Qed.

Lemma complete_flags id s r s' : st_CompleteIntent id s = (r, s') → ∀ h, flag s' h = flag s h.
Proof.
  destruct r as [[]|e]; intros E; [by eapply complete_ok in E as [? _]|by eapply complete_err in E as [? _]].
Qed.

(** C10: whatever happens, only transactions reported back as marked can have had
    their conflicting flag changed, so evicting those from a cache is enough.  On
    success without a refusal every loser was marked, the winners are no longer
    conflicting and everything else that was marked is; on a refusal no flag
    changed and no loser is reported. *)
Theorem ProcessConflicting_effects now n bh txs processed guard s o s' :
  Process now n bh txs processed guard s = (o, s') →
  flags_outside flag (oc_marked o) s s' ∧
  match oc_result o with
  | Ok losing =>
      if bool_decide (oc_refused o = []) then
        (∀ h, h ∈ txs → h ∈ losing) ∧ (∀ h, h ∈ losing → h ∈ oc_marked o) ∧
        ∀ h, h ∈ oc_marked o → flag s' h = Some (negb (bool_decide (h ∈ txs)))
      else losing = [] ∧ oc_marked o = [] ∧ ∀ h, flag s' h = flag s h
  | Err _ => oc_refused o = []
  end.
Proof.
  intros [(e & Eb & ->)|(s1 & s2 & Eb & Ep & Er)]%ProcessConflicting_parts.
  { split; [|done]. intros h _. by eapply begin_flags. }
  apply process_body_ok in Ep as [[_ Htouch] Hres]. pose proof (begin_flags _ _ _ _ Eb) as Fb.
  destruct (oc_result o) as [losing|e].
  - destruct Er as [r Ec]. pose proof (complete_flags _ _ _ _ Ec) as Fc. split.
    { intros h Hh. by rewrite Fc, Htouch, Fb. }
    destruct Hres as [(Hr & -> & Hm)|(Hr & Hin & Hl & Hf)].
    + rewrite bool_decide_false by done. split_and!; [done..|]. intros h.
      rewrite Fc, Htouch, Fb; [done|]. rewrite Hm. apply not_elem_of_nil.
    + rewrite bool_decide_true by done. split_and!; [done..|]. intros h Hh. by rewrite Fc, Hf.
  - subst s'. split; [|done]. intros h Hh. by rewrite Htouch, Fb.
Qed.

(** The write-ahead intent covers the whole operation.  If recording it fails
    nothing is done; if the operation fails later the intent is still pending, for
    the replay on restart; after a success it is gone, unless its removal fails.
    No other intent is added or removed. *)
Theorem ProcessConflicting_intent now n bh txs processed guard s o s' :
  Process now n bh txs processed guard s = (o, s') →
  let wal := forward_intent n bh txs now in
  match oc_result o with
  | Err _ => same s s' ∧ oc_marked o = [] ∧ (∃ e, st_BeginIntent wal s = (Err e, s')) ∨
             pending s' = {[IntentID wal]} ∪ pending s
  | Ok _ => pending s' = pending s ∖ {[IntentID wal]} ∨
            pending s' = {[IntentID wal]} ∪ pending s ∧
            ∃ s2 e, st_CompleteIntent (IntentID wal) s2 = (Err e, s')
  end.
Proof.
  intros [(e & Eb & ->)|(s1 & s2 & Eb & Ep & Er)]%ProcessConflicting_parts; cbv zeta.
  { left. split_and!; [by eapply begin_err|done|by eexists]. }
  apply process_body_ok in Ep as [[Hp _] _]. apply (begin_ok flag pending) in Eb as [_ Pb].
  destruct (oc_result o).
  - destruct Er as [[[]|e] Ec].
    + left. apply (complete_ok flag pending) in Ec as [_ Pc]. rewrite Pc, Hp, Pb. set_solver.
    + right. split; [|by eexists _, _]. apply (complete_err flag pending) in Ec as [_ Pc]. congruence.
  - subst s'. right. congruence.
Qed.

(** C11: the ancestry guard is all or nothing.  If one of the transactions a winner
    would displace is confirmed on the chain being built (and is not a winner
    itself), no flag changes: the call reports success with no loser and names the
    confirmed transaction as refused, unless a read fails. *)
Theorem guard_protects_confirmed now n bh txs processed check ids on_chain s s1 ws s2 loser o s' :
  answers_ids ids → (∀ l, check l bh = Ok (existsb on_chain l)) →
  st_BeginIntent (forward_intent n bh txs now) s = (Ok tt, s1) →
  read_winners keys fuel processed txs s1 = (Ok ws, s2) →
  loser ∈ mjoin (map snd ws) → loser ∉ txs → confirmed_in on_chain (ids loser) = true →
  Process now n bh txs processed (Some check) s = (o, s') →
  (∀ h, flag s' h = flag s h) ∧ oc_marked o = [] ∧
  (oc_result o = Ok [] ∧ loser ∈ oc_refused o ∨ ∃ e, oc_result o = Err e).
Proof.
  intros Hids Hcheck Eb Ew Hloser Hwin Hconf E.
  apply ProcessConflicting_parts in E as [(e & Eb' & _)|(s1' & s3 & Eb' & Ep & Er)]; [congruence|].
  assert (s1' = s1) as -> by congruence. pose proof (begin_flags _ _ _ _ Eb) as Fb. clear Eb Eb'.
  unfold process_body in Ep. rewrite Ew in Ep.
  apply (reads_touches _ (λ _, False)) in Ew as [_ F12]; [|apply reads_read_winners].
  destruct (filterAncestryConfirmedLosers _ _ _ _ s2) as [[[kept refused]|e] s4] eqn:Eg.
  all: apply (reads_touches _ (λ _, False)) in Eg as H24; [|apply reads_filter].
  all: destruct H24 as [_ F24].
  2: { injection Ep as <- <-. cbn in Er. subst s'. split_and!; [|done|by right; eexists].
       intros h. rewrite F24, F12, Fb; tauto. }
  assert (Hr : loser ∈ refused).
  { apply (filter_losers_spec _ _ _ _ _ _ _ _ _ _ Hids Hcheck Eg).
    split_and!; [by apply elem_of_keys, elem_of_list_to_set|by rewrite elem_of_list_to_set|done]. }
  rewrite bool_decide_false in Ep by (intros ->; by apply elem_of_nil in Hr).
  injection Ep as <- <-. cbn in Er. destruct Er as [r Ec].
  split_and!; [|done|by left]. intros h. rewrite (complete_flags _ _ _ _ Ec), F24, F12, Fb; tauto.
Qed.

(** A rolled-back run cannot be replayed.  After a step up to the fourth fails
    and the rollback has run, the intent is still pending, but the winners, which
    step 1 marks together with the losers, have lost their conflicting flag, if
    only the store can clear flags; so every later run for them that does not already
    know them as processed fails and changes no flag. *)
Theorem rolled_back_run_is_refused now n bh txs processed s s1 ws s2 e p s3 errs s4 :
  txs ≠ [] →
  st_BeginIntent (forward_intent n bh txs now) s = (Ok tt, s1) →
  read_winners keys fuel processed txs s1 = (Ok ws, s2) →
  commit_steps keys fuel ctx_done n txs (map fst ws) (keys (list_to_set (mjoin (map snd ws)))) s2 =
    (Err e, p, s3) →
  pr_step1Committed p = true → pr_step5Failed p = false →
  rollbackProcessConflicting txs p n s3 = (errs, s4) → clears (pr_allMarkedHashes p) →
  (Process now n bh txs processed None s).2 = s4 ∧
  IntentID (forward_intent n bh txs now) ∈ pending s4 ∧
  (∀ h, h ∈ txs → flag s4 h = Some false) ∧
  ∀ now' n' bh' guard o s5, Process now' n' bh' txs ∅ guard s4 = (o, s5) →
    (∃ e', oc_result o = Err e') ∧ ∀ h, flag s5 h = flag s4 h.
Proof.
  intros Htxs Eb Ew Ec Hp1 Hp5 Erb Hclear.
  assert (Hsub : ∀ h, h ∈ txs → h ∈ keys (list_to_set (mjoin (map snd ws))))
    by (intros h Hh; apply elem_of_keys, elem_of_list_to_set; by eapply read_winners_own).
  pose proof (commit_steps_flags _ _ _ _ _ _ _ _ Hsub Ec) as ([P23 _] & Hin & _ & Hsome).
  pose proof (rollback_flags _ _ _ _ _ _ (λ h Hh, Hin h (Hsub h Hh)) Erb) as [[P34 _] Hf].
  assert (Hwin : ∀ h, h ∈ txs → flag s4 h = Some false)
    by (intros h Hh; apply Hf; auto).
  split_and!; [| |exact Hwin|].
  - unfold ProcessConflicting. rewrite Eb. unfold process_body. rewrite Ew.
    rewrite bool_decide_true by done. rewrite Ec. unfold after_steps. rewrite Hp1, Hp5, Erb. cbn [negb orb].
    by case_bool_decide.
  - apply (begin_ok flag pending) in Eb as [_ Pb].
    apply (reads_touches _ (λ _, False)) in Ew as [P12 _]; [|apply reads_read_winners].
    rewrite P34, P23, P12, Pb. set_solver.
  - intros now' n' bh' guard o s5 E.
    apply ProcessConflicting_parts in E as [(e' & Eb' & ->)|(s1' & s3' & Eb' & Ep & Er)].
    { split; [by eexists|by eapply begin_flags]. }
    pose proof (begin_flags _ _ _ _ Eb') as Fb. unfold process_body in Ep.
    destruct (read_winners keys fuel ∅ txs s1') as [[ws'|e'] s6] eqn:Ew'.
    2: { injection Ep as <- <-. cbn in Er. subst s5. split; [by eexists|]. intros h.
         apply (reads_touches _ (λ _, False)) in Ew' as [_ F]; [|apply reads_read_winners].
         rewrite F, Fb; tauto. }
    exfalso. destruct txs as [|h txs]; [done|]. unfold read_winners in Ew'.
    case_bool_decide; [done|]. cbn [traverse] in Ew'. apply SM_bind_Ok in Ew' as (a & s7 & Ea & _).
    apply read_winner_flag in Ea as [Ha|[Ha _]]; [|by apply not_elem_of_empty in Ha].
    rewrite Fb, Hwin in Ha by left. done.
Qed.

(** ** Undoing it for a block that moves back *)
Lemma unmark_levels_flags k visited order toProcess s r s' : (∀ h, h ∈ toProcess → h ∈ order) →
  unmark_levels k visited order toProcess s = (r, s') →
  pending s' = pending s ∧ (∀ h, flag s' h = flag s h ∨ flag s' h = Some false) ∧
  (∀ out, r = Ok out → (∀ h, h ∈ order → h ∈ out) ∧ ∀ h, h ∉ out → flag s' h = flag s h).
Proof.
  revert visited order toProcess s.
  induction k as [|k IH]; intros visited order toProcess s Hsub; destruct toProcess as [|x l];
    cbn [unmark_levels].
  1, 3: intros [= <- <-]; split_and!; [done|by left|by intros out [= <-]].
  - intros [= <- <-]. split_and!; [done|by left|done].
  - unfold mbind, SM_bind.
    destruct (st_SetConflicting (x :: l) false s) as [[[aff children]|e] s1] eqn:E.
    2: { apply (set_conflicting_err flag pending) in E as [Hf Hp]. intros [= <- <-].
         split_and!; [done|intros h; destruct (Hf h) as [|[_ ?]]; auto|done]. }
    apply (set_conflicting_ok flag pending) in E as [Hf Hp]. cbn [snd].
    destruct (fresh visited children) as [visited' next]. intros Hm.
    apply IH in Hm as (Hp' & Hch & Hok); [|intros h Hh; apply elem_of_app; by right].
    split_and!; [congruence| |].
    + intros h. destruct (Hch h) as [->|]; [|by right]. rewrite Hf. case_bool_decide; [by right|by left].
    + intros out Hr. destruct (Hok out Hr) as [Hin Hout]. split.
      * intros h Hh. apply Hin, elem_of_app. by left.
      * intros h Hh. rewrite Hout, Hf, bool_decide_false; [done| |done].
        intros Hl. apply Hh, Hin, elem_of_app. left. by apply Hsub.
Qed.

Lemma UnmarkConflictingRecursively_flags hashes s r s' :
  UnmarkConflictingRecursively fuel hashes s = (r, s') →
  pending s' = pending s ∧ (∀ h, flag s' h = flag s h ∨ flag s' h = Some false) ∧
  (∀ out, r = Ok out → ∀ h, h ∉ out → flag s' h = flag s h).
Proof.
  unfold UnmarkConflictingRecursively. destruct (fresh ∅ hashes) as [visited order] eqn:E.
  intros Hm. apply unmark_levels_flags in Hm as (Hp & Hch & Hok).
  - split_and!; [done..|]. intros out Hr. by apply Hok.
  - intros h Hh. apply (fresh_elem _ _ _ _ h E). split; [done|apply not_elem_of_empty].
Qed.

(** Flags may have been cleared; those outside the reported list were not. *)
Definition clearing {A} (out : A → list Hash) (m : SM S A) : Prop := ∀ s r s', m s = (r, s') →
  pending s' = pending s ∧ (∀ h, flag s' h = flag s h ∨ flag s' h = Some false) ∧
  (∀ a, r = Ok a → ∀ h, h ∉ out a → flag s' h = flag s h).

Lemma clearing_same {A} (out : A → list Hash) m : (∀ s r s', m s = (r, s') → same s s') → clearing out m.
Proof. intros Hm s r s' E. destruct (Hm _ _ _ E) as [F P]. split_and!; auto. Qed.

Lemma clearing_bind {A B} (out : B → list Hash) (m : SM S A) (f : A → SM S B) :
  (∀ s r s', m s = (r, s') → same s s') → (∀ a, clearing out (f a)) → clearing out (m ≫= f).
Proof.
  intros Hm Hf s r s' E. unfold mbind, SM_bind in E. destruct (m s) as [[a|e] s1] eqn:Em;
    destruct (Hm _ _ _ Em) as [F P]; [|injection E as <- <-; by split_and!; auto].
  destruct (Hf _ _ _ _ E) as (P' & C & O). split_and!; [congruence|intros h; rewrite <- F; apply C|].
  intros b Hb h Hh. rewrite <- F. by eapply O.
Qed.

Lemma clearing_wrap {A} (out : A → list Hash) c m : clearing out m → clearing out (wrapM c m).
Proof.
  intros Hm s r s' E. unfold wrapM in E. destruct (m s) as [[a|e] s1] eqn:Em;
    destruct (Hm _ _ _ Em) as (P & C & O); injection E as <- <-; split_and!; try done.
Qed.

Lemma clearing_promote n c : clearing id (promote fuel n c).
Proof.
  unfold promote. apply clearing_bind; [by apply (reads_wrap _ (st_Get _ _)), reads_get|].
  intros m. destruct (m ≫= d_Tx) as [tx|]; [|apply clearing_same; by intros s r s' [= <- <-]].
  apply clearing_bind.
  - intros s r s'. unfold wrapM. destruct (st_SpendOnly tx n s) as [[sp e] s1] eqn:E.
    apply (spend_same flag pending) in E. destruct e; by intros [= <- <-].
  - intros _. apply clearing_wrap. intros s r s' E. by apply UnmarkConflictingRecursively_flags in E.
Qed.

Lemma clearing_traverse {A} (f : A → SM S (list Hash)) l : (∀ x, clearing id (f x)) →
  clearing mjoin (traverse f l).
Proof.
  intros Hf. induction l as [|x l IH]; cbn [traverse].
  { apply clearing_same. by intros s r s' [= <- <-]. }
  intros s r s' E. unfold mbind, SM_bind in E. destruct (f x s) as [[a|e] s1] eqn:E1;
    destruct (Hf x _ _ _ E1) as (P1 & C1 & O1); [|injection E as <- <-; by split_and!].
  destruct (traverse f l s1) as [[b|e] s2] eqn:E2; destruct (IH _ _ _ E2) as (P2 & C2 & O2);
    injection E as <- <-.
  all: assert (∀ h, flag s2 h = flag s h ∨ flag s2 h = Some false) as C
    by (intros h; destruct (C2 h) as [->|]; [apply C1|by right]).
  all: split_and!; [congruence|done|]; try done. intros c [= <-] h Hh.
  change (h ∉ a ++ mjoin b) in Hh. apply not_elem_of_app in Hh as [Ha Hb].
  rewrite (O2 b eq_refl h Hb). by apply (O1 a).
Qed.

(** Setting flags on [marked], clearing some. *)
Definition flips (marked : Hash → Prop) (out : option (Hash → Prop)) (s s' : S) : Prop :=
  pending s' = pending s ∧ (∀ h, ¬ marked h → flag s' h = flag s h ∨ flag s' h = Some false) ∧
  match out with None => True | Some out => ∀ h, ¬ out h → flag s' h = flag s h end.

Lemma reads_isReverseFullyApplied inputs d : reads (isReverseFullyApplied inputs d).
Proof. induction inputs as [|i l IH]; cbn [isReverseFullyApplied]; [auto|]. reads_parts. Qed.

Lemma reads_best_counter dset seen p v best l : reads (best_counter dset seen p v best l).
Proof.
  revert best. induction l as [|c l IH]; intros best; cbn [best_counter]; [auto|].
  apply reads_if; [auto|]. apply reads_bind; [auto|]. intros m. apply IH.
Qed.
Hint Resolve reads_best_counter reads_isReverseFullyApplied : core.

Lemma reads_select_counters dset seen inputs : reads (select_counters dset seen inputs).
Proof.
  revert seen. induction inputs as [|i l IH]; intros seen; cbn [select_counters]; [auto|]. reads_parts.
Qed.

Lemma reverse_one_flips n dset d s r marked s' :
  reverse_one fuel n dset d s = (r, marked, s') →
  flips (.∈ marked) (match r with Ok unmarked => Some (λ h, h ∈ marked ∨ h ∈ unmarked) | Err _ => None end) s s'.
Proof.
  assert (Hsame : ∀ s s' marked out, same s s' → flips marked out s s').
  { intros t t' marked' out [F P]. split_and!; auto. by destruct out. }
  unfold reverse_one. destruct (wrapM _ (st_Get d _) s) as [[m|e] s1] eqn:E1.
  all: apply (reads_wrap _ _ (reads_get d _)) in E1.
  2: intros [= <- <- <-]; by apply Hsame.
  destruct m as [m|]; [|intros [= <- <- <-]; by apply Hsame]. cbn [mbind option_bind].
  destruct (d_Tx m) as [tx|]; [|intros [= <- <- <-]; by apply Hsame].
  match goal with |- context [(if d_Conflicting m then ?a else ?b) s1] =>
    destruct ((if d_Conflicting m then a else b) s1) as [[[]|e] s2] eqn:E2 end.
  all: assert (same s1 s2) as H12 by
    (destruct (d_Conflicting m); [by apply (reads_wrap _ _ (reads_isReverseFullyApplied _ _)) in E2|exact (reads_ret false _ _ _ E2)]).
  all: assert (same s s2) as H02 by (by etransitivity).
  1, 3: intros [= <- <- <-]; by apply Hsame.
  destruct (selectCountersForDemotedTx tx dset s2) as [[counters|e] s3] eqn:E3.
  all: apply (reads_select_counters _ _ _) in E3.
  all: assert (same s s3) as [F03 P03] by (by etransitivity).
  2: intros [= <- <- <-]; by apply Hsame.
  destruct (MarkConflictingRecursively fuel [d] s3) as [[mr mk] s4] eqn:E4.
  destruct (MarkConflictingRecursively_flags _ _ _ _ _ E4) as (P4 & _ & O4 & _).
  assert (Ho : ∀ h, h ∉ mk → flag s4 h = flag s h) by (intros h Hh; by rewrite O4, F03).
  destruct mr as [affected|e]; [|intros [= <- <- <-]; split_and!; [congruence|left; auto|done]].
  match goal with |- context [?prog s4] => set (m5 := prog) end.
  assert (Hc : clearing mjoin m5).
  { apply clearing_bind; [by intros t r' t' [= <- <-]|]. intros spends.
    apply clearing_bind; [|intros _; apply clearing_traverse, clearing_promote].
    apply reads_wrap. intros t r' t' Eu. by eapply unspend_same. }
  destruct (m5 s4) as [[unmarked|e] s5] eqn:E5; destruct (Hc _ _ _ E5) as (P5 & C5 & O5);
    intros [= <- <- <-]; (split_and!; [congruence|..]).
  - intros h Hh. destruct (C5 h) as [->|]; [left; auto|by right].
  - intros h Hh. rewrite (O5 _ eq_refl h), Ho; tauto.
  - intros h Hh. destruct (C5 h) as [->|]; [left; auto|by right].
  - done.
Qed.
Lemma reverse_all_flips n dset l cascaded touched s r cascaded' touched' s' :
  reverse_all fuel n dset cascaded touched l s = (r, cascaded', touched', s') →
  cascaded ⊆ cascaded' ∧ touched ⊆ touched' ∧ (cascaded ⊆ touched → cascaded' ⊆ touched') ∧
  flips (.∈ cascaded') (match r with Ok _ => Some (.∈ touched') | Err _ => None end) s s'.
Proof.
  revert cascaded touched s. induction l as [|h l IH]; intros cascaded touched s; cbn [reverse_all].
  { intros [= <- <- <- <-]. split_and!; [done..|]. split_and!; [done|by left|done]. }
  case_bool_decide; [by apply IH|].
  destruct (reverse_one fuel n dset h s) as [[r1 marked] s1] eqn:E1.
  apply reverse_one_flips in E1 as (P1 & C1 & O1).
  assert (Hm : ∀ (X : gset Hash) x, x ∉ X ∪ list_to_set marked → x ∉ marked)
    by (intros X x Hx Hin; apply Hx, elem_of_union_r, elem_of_list_to_set, Hin).
  destruct r1 as [unmarked|e].
  - intros E. apply IH in E as (Hc & Ht & Hct & P & C & O).
    split_and!; [set_solver|set_solver|intros; apply Hct; set_solver|]. split_and!; [congruence| |].
    + intros x Hx. destruct (C x Hx) as [->|]; [|by right]. apply C1. apply (Hm cascaded). intros Hin. by apply Hx, Hc.
    + destruct r; [|done]. intros x Hx. rewrite O, O1; [done| |done].
      intros [Hin|Hin]; apply Hx, Ht; [apply elem_of_union_l, elem_of_union_r|apply elem_of_union_r];
        by apply elem_of_list_to_set.
  - intros [= <- <- <- <-]. split_and!; [set_solver..|]. split_and!; [congruence| |done].
    intros x Hx. apply C1. by eapply Hm.
Qed.

(** Undoing a block's conflict processing reports what it did.  On success the
    second list has every transaction whose flag was changed, the first, those it
    marked, is part of it and the intent is gone unless its removal fails; on
    failure the intent is pending, unless recording it failed, and outside the
    list handed back no flag was set, only cleared. *)
Theorem ReverseProcessConflicting_effects now n bh demoted s r cascaded s' :
  ReverseProcessConflicting keys fuel now n bh demoted s = (r, cascaded, s') →
  let id := IntentID (mkIntent ReverseKind n bh demoted now) in
  match r with
  | Ok touched =>
      (∀ h, h ∈ cascaded → h ∈ touched) ∧ flags_outside flag touched s s' ∧
      (demoted = [] ∧ s' = s ∨ pending s' = pending s ∖ {[id]} ∨
       ∃ s2 e, st_CompleteIntent id s2 = (Err e, s'))
  | Err _ =>
      (∀ h, h ∉ cascaded → flag s' h = flag s h ∨ flag s' h = Some false) ∧
      (pending s' = {[id]} ∪ pending s ∨
       cascaded = [] ∧ ∃ e, st_BeginIntent (mkIntent ReverseKind n bh demoted now) s = (Err e, s'))
  end.
Proof.
  unfold ReverseProcessConflicting. case_bool_decide as Hd.
  { intros [= <- <- <-]. split_and!; [done..|]. by left. }
  set (wal := mkIntent ReverseKind n bh demoted now). cbv zeta.
  destruct (st_BeginIntent wal s) as [[[]|e] s1] eqn:Eb.
  2: { intros [= <- <- <-]. pose proof (begin_flags _ _ _ _ Eb) as F. split; [intros h _; left; apply F|].
       right. split; [done|by eexists]. }
  apply (begin_ok flag pending) in Eb as [F1 P1].
  destruct (reverse_all _ _ _ _ _ _ s1) as [[[r1 ca] to] s2] eqn:Er.
  apply reverse_all_flips in Er as (_ & _ & Hct & P2 & C2 & O2).
  destruct r1 as [[]|e]; intros [= <- <- <-].
  - destruct (st_CompleteIntent (IntentID wal) s2) as [rc s3] eqn:Ec. cbn [snd].
    pose proof (complete_flags _ _ _ _ Ec) as Fc. split_and!.
    + intros h. rewrite !elem_of_keys. apply Hct. set_solver.
    + intros h. rewrite elem_of_keys. intros Hh. by rewrite Fc, O2, F1.
    + right. destruct rc as [[]|e]; [|right; by eexists _, _]. left.
      apply (complete_ok flag pending) in Ec as [_ ->]. rewrite P2, P1. set_solver.
  - split; [|left; congruence]. intros h. rewrite elem_of_keys, <- F1. apply C2.
Qed.

(** ** The rollback against rivals *)

(** An outpoint has one spender: [owned] holds of the transactions whose spends
    the store has recorded, [rival] of two that spend the same output. *)
Class Rivalry (bodies : Hash → option Tx) (owned : Tx → S → Prop) (rival : Tx → Tx → Prop) : Prop := {
  get_body h s m s' : st_Get h [F_Tx] s = (Ok m, s') → m ≫= d_Tx = None ∨ m ≫= d_Tx = bodies h;
  spend_owns tx n s sp s' : st_SpendOnly tx n s = (sp, None, s') → owned tx s';
  owned_get tx h bins s r s' : st_Get h bins s = (r, s') → owned tx s → owned tx s';
  owned_spend tx tx' n s sp e s' : st_SpendOnly tx' n s = (sp, e, s') → owned tx s → owned tx s';
  owned_rival tx tx' n s sp e s' :
    st_SpendOnly tx' n s = (sp, e, s') → owned tx s → rival tx tx' → e ≠ None;
}.

(** Two transactions with a body, neither a coinbase placeholder, that spend the
    same output. *)
Definition contested (bodies : Hash → option Tx) (rival : Tx → Tx → Prop) (a b : Hash) : Prop :=
  a ≠ b ∧ a ≠ CoinbasePlaceholderHashValue ∧ b ≠ CoinbasePlaceholderHashValue ∧
  ∃ ta tb, bodies a = Some ta ∧ bodies b = Some tb ∧ rival ta tb ∧ rival tb ta.

Section Rivals.
  Context {bodies : Hash → option Tx} {owned : Tx → S → Prop} {rival : Tx → Tx → Prop}.
  Context {Hr : Rivalry bodies owned rival}.

Lemma respend_owned tx n h s e s' : respend n h s = (e, s') → owned tx s → owned tx s'.
Proof.
  unfold respend. case_bool_decide; [by intros [= <- <-]|].
  destruct (st_Get h [F_Tx] s) as [[m|e1] s1] eqn:E; intros H1 Ho;
    pose proof (owned_get _ _ _ _ _ _ E Ho) as Ho1; [|by injection H1 as <- <-].
  destruct (m ≫= d_Tx) as [tx'|]; [|by injection H1 as <- <-].
  destruct (st_SpendOnly tx' n s1) as [[sp e1] s2] eqn:Es.
  pose proof (owned_spend _ _ _ _ _ _ _ Es Ho1). by destruct e1; injection H1 as <- <-.
Qed.

Lemma respend_all_owned tx n l s e s' : respend_all n l s = (e, s') → owned tx s → owned tx s'.
Proof.
  revert s e. induction l as [|h l IH]; intros s e; cbn [respend_all]; [by intros [= <- <-]|].
  destruct (respend n h s) as [e1 s1] eqn:E1. destruct (respend_all n l s1) as [e2 s2] eqn:E2.
  intros [= <- <-] Ho. eapply IH; [exact E2|]. by eapply respend_owned.
Qed.

(** Without an error the body was spent, and no rival was before it. *)
Lemma respend_clean n h tx s s' : bodies h = Some tx → h ≠ CoinbasePlaceholderHashValue →
  respend n h s = ([], s') → owned tx s' ∧ ∀ tx', rival tx' tx → ¬ owned tx' s.
Proof.
  intros Hb Hc. unfold respend. rewrite bool_decide_false by done.
  destruct (st_Get h [F_Tx] s) as [[m|e1] s1] eqn:E; [|done].
  destruct (get_body _ _ _ _ E) as [-> | ->]; [done|]. rewrite Hb.
  destruct (st_SpendOnly tx n s1) as [[sp [e1|]] s2] eqn:Es; [done|]. intros [= <-].
  split; [by eapply spend_owns|]. intros tx' Hrv Ho. eapply owned_rival; [exact Es| |done..].
  by eapply owned_get.
Qed.

Lemma respend_all_later n l h th t s e s' : h ∈ l → bodies h = Some th →
  h ≠ CoinbasePlaceholderHashValue → rival t th → owned t s → respend_all n l s = (e, s') → e ≠ [].
Proof.
  intros Hh Hbody Hc Hrv. revert s e s'. induction l as [|x l IH]; intros s e s' Ho; cbn [respend_all];
    [by apply elem_of_nil in Hh|].
  destruct (respend n x s) as [e1 s1] eqn:E1. destruct (respend_all n l s1) as [e2 s2] eqn:E2.
  intros [= <- <-] [-> ->]%app_eq_nil. apply elem_of_cons in Hh as [->|Hh].
  - by eapply (proj2 (respend_clean _ _ _ _ _ Hbody Hc E1)).
  - eapply (IH Hh s1); [by eapply respend_owned|exact E2|done].
Qed.

Lemma respend_all_rivals n l s a b ta tb e s' : a ∈ l → b ∈ l →
  bodies a = Some ta → bodies b = Some tb → rival ta tb → rival tb ta → a ≠ b →
  a ≠ CoinbasePlaceholderHashValue → b ≠ CoinbasePlaceholderHashValue →
  respend_all n l s = (e, s') → e ≠ [].
Proof.
  intros Ha Hb Hta Htb Hab Hba Hne Hca Hcb.
  revert s e s'. induction l as [|x l IH]; intros s e s'; cbn [respend_all]; [by apply elem_of_nil in Ha|].
  destruct (respend n x s) as [e1 s1] eqn:E1. destruct (respend_all n l s1) as [e2 s2] eqn:E2.
  intros [= <- <-] [-> ->]%app_eq_nil.
  apply elem_of_cons in Ha as [->|Ha], Hb as [Hb|Hb]; [by subst| |subst x|by eapply IH].
  - destruct (respend_clean _ _ _ _ _ Hta Hca E1) as [Ho _].
    by eapply (respend_all_later n l b tb ta).
  - destruct (respend_clean _ _ _ _ _ Htb Hcb E1) as [Ho _].
    by eapply (respend_all_later n l a ta tb).
Qed.

Lemma commit_steps_progress n txs wtxs losing s r p s' :
  commit_steps keys fuel ctx_done n txs wtxs losing s = (r, p, s') →
  pr_step2Committed p = pr_step1Committed p.
Proof.
  unfold commit_steps. repeat (case_match; simplify_eq/=; try by intros [= <- <- <-]).
Qed.

(** A failure between the first step and the fifth always asks for an operator
    when two of the marked transactions spend the same output, as a winner and the
    transaction it displaces do: the rollback spends every marked transaction
    again, the winners among them, and the second of the two is refused. *)
Theorem failed_run_needs_operator now n bh txs processed s s1 ws s2 e p s3 a b :
  st_BeginIntent (forward_intent n bh txs now) s = (Ok tt, s1) →
  read_winners keys fuel processed txs s1 = (Ok ws, s2) →
  commit_steps keys fuel ctx_done n txs (map fst ws) (keys (list_to_set (mjoin (map snd ws)))) s2 =
    (Err e, p, s3) →
  pr_step1Committed p = true → pr_step5Failed p = false →
  a ∈ txs → b ∈ mjoin (map snd ws) → contested bodies rival a b →
  oc_manual (Process now n bh txs processed None s).1 = true.
Proof.
  intros Eb Ew Ec Hp1 Hp5 Ha Hb (Hne & Hca & Hcb & ta & tb & Hta & Htb & Hab & Hba).
  assert (Hsub : ∀ h, h ∈ txs → h ∈ keys (list_to_set (mjoin (map snd ws))))
    by (intros h Hh; apply elem_of_keys, elem_of_list_to_set; by eapply read_winners_own).
  pose proof (commit_steps_flags _ _ _ _ _ _ _ _ Hsub Ec) as (_ & Hin & _).
  pose proof (commit_steps_progress _ _ _ _ _ _ _ _ Ec) as Hp2. rewrite Hp1 in Hp2.
  destruct (rollbackProcessConflicting txs p n s3) as [errs s4] eqn:Er.
  assert (errs ≠ []) as He.
  { unfold rollbackProcessConflicting in Er. rewrite Hp2 in Er. cbn [only andb] in Er.
    destruct (only _ _ s3) as [e1 t1]. destruct (only _ _ t1) as [e2 t2].
    destruct (respend_all n _ t2) as [e3 t3] eqn:E3.
    destruct (only _ _ t3) as [e4 t4]. destruct (only _ _ t4) as [e5 t5]. injection Er as <- <-.
    intros [_ [_ [-> _]%app_eq_nil]%app_eq_nil]%app_eq_nil.
    eapply (respend_all_rivals _ _ _ a b); [..|exact E3|done]; try done.
    - by apply Hin, Hsub.
    - apply Hin. by apply elem_of_keys, elem_of_list_to_set. }
  unfold ProcessConflicting. rewrite Eb. unfold process_body. rewrite Ew.
  rewrite bool_decide_true by done. rewrite Ec. unfold after_steps. rewrite Hp1, Hp5, Er. cbn [negb orb].
  by rewrite bool_decide_false by done.
Qed.
End Rivals.
End Theorems.

(** ** A store kept in memory *)
Record mem := mkMem {
  m_data : gmap Hash Data;
  m_intents : gset Hash;
  m_owner : gmap (Hash * Z) Hash;       (* who spends an output *)
}.

Definition with_flag (b : bool) (m : Data) : Data :=
  mkData (d_Tx m) (d_ParentTxHashes m) (d_TxInpoints m) (d_BlockIDs m) (d_ConflictingChildren m)
    (d_SpendingDatas m) b (d_Locked m) (d_CreatedAt m).

Definition with_body (tx : option Tx) (m : Data) : Data :=
  mkData tx (d_ParentTxHashes m) (d_TxInpoints m) (d_BlockIDs m) (d_ConflictingChildren m)
    (d_SpendingDatas m) (d_Conflicting m) (d_Locked m) (d_CreatedAt m).

Definition mem_flag (s : mem) (h : Hash) : option bool := d_Conflicting <$> m_data s !! h.

Definition claim (id : Hash) (outputs : list (Hash * Z)) (owner : gmap (Hash * Z) Hash) :=
  foldr (λ k m, <[k := id]> m) owner outputs.

Lemma claim_lookup id outputs owner k :
  claim id outputs owner !! k = if bool_decide (k ∈ outputs) then Some id else owner !! k.
Proof.
  induction outputs as [|x l IH]; [by rewrite bool_decide_false by apply not_elem_of_nil|].
  cbn [claim foldr]. destruct (decide (k = x)) as [->|Hne].
  - by rewrite lookup_insert_eq, bool_decide_true by left.
  - rewrite lookup_insert_ne by done. etransitivity; [exact IH|].
    destruct (decide (k ∈ l)); [by rewrite !bool_decide_true by (try right; done)|].
    rewrite !bool_decide_false; [done|by rewrite elem_of_cons; intros [?|?]|done].
Qed.

Section Memory.
  Context (bodies : Hash → option Tx) (ids : Hash → result (option (list Z))) (refuses : Hash → bool).
  Context (CH : Chainhash) (BT : BtTx).

Definition spent_by (tx : Tx) : list (Hash * Z) :=
  map (λ i, (PreviousTxID i, PreviousTxOutIndex i)) (Inputs tx).

Definition free_for (tx : Tx) (s : mem) : bool :=
  forallb (λ k, match m_owner s !! k with
                | None => true
                | Some id => bool_decide (id = TxIDChainHash tx)
                end) (spent_by tx).

Definition mem_store : UtxoStore mem := {|
  st_Get h _ s := (Ok (with_body (bodies h) <$> m_data s !! h), s);
  (* what is there is written, also when something is missing *)
  st_SetConflicting l b s :=
    (if forallb (λ h, bool_decide (is_Some (m_data s !! h))) l
     then Ok (mjoin (map (λ h, match bodies h with
                               | Some tx => match parent_spends h 0 (Inputs tx) with Ok l => l | Err _ => [] end
                               | None => []
                               end) l), [])
     else Err (err ERR_TX_NOT_FOUND),
     mkMem (map_imap (λ h m, Some (if bool_decide (h ∈ l) then with_flag b m else m)) (m_data s))
       (m_intents s) (m_owner s));
  st_SetLocked _ _ s := (Ok tt, s);
  st_Unspend l _ s :=
    (Ok tt, mkMem (m_data s) (m_intents s) (foldr (λ sp m, delete (sp_TxID sp, sp_Vout sp) m) (m_owner s) l));
  st_SpendOnly tx _ s :=
    if free_for tx s && negb (refuses (TxIDChainHash tx))
    then ([], None, mkMem (m_data s) (m_intents s) (claim (TxIDChainHash tx) (spent_by tx) (m_owner s)))
    else ([], Some (err ERR_UTXO_SPENT), s);
  st_BlockIDs l s := (Ok (map (λ h, (h, ids h)) l), s);
  st_BeginIntent ci s := (Ok tt, mkMem (m_data s) ({[IntentID ci]} ∪ m_intents s) (m_owner s));
  st_CompleteIntent id s := (Ok tt, mkMem (m_data s) (m_intents s ∖ {[id]}) (m_owner s));
|}.

Lemma mem_store_spec : StoreSpec mem_flag m_intents mem_store CH.
Proof.
  split; cbn; intros; simplify_eq; try done.
  - unfold mem_flag. destruct (m_data s' !! h) as [m'|]; [|done]. by simplify_eq/=.
  - rewrite map_map. cbn. apply map_id.
  - destruct (forallb _ l) eqn:Ef; simplify_eq. split; [|done]. intros h. unfold mem_flag. cbn.
    rewrite map_lookup_imap. pose proof (proj1 (forallb_forall _ _) Ef h) as Hh.
    case_bool_decide as Hl; destruct (m_data s !! h) as [m|] eqn:Em; cbn; try done.
    apply list_elem_of_In in Hl. specialize (Hh Hl). apply bool_decide_eq_true in Hh.
    rewrite Em in Hh. by destruct Hh.
  - destruct (forallb _ l); simplify_eq. split; [|done]. intros h. unfold mem_flag. cbn.
    rewrite map_lookup_imap. destruct (m_data s !! h) as [m|]; [|by left]. cbn.
    case_bool_decide; [by right|by left].
  - by destruct (_ && _); simplify_eq.
Qed.

Definition mem_owned (tx : Tx) (s : mem) : Prop :=
  ∀ k, k ∈ spent_by tx → m_owner s !! k = Some (TxIDChainHash tx).

Definition mem_rival (tx tx' : Tx) : Prop :=
  TxIDChainHash tx ≠ TxIDChainHash tx' ∧ ∃ k, k ∈ spent_by tx ∧ k ∈ spent_by tx'.

Lemma free_for_elem tx s k : free_for tx s = true → k ∈ spent_by tx →
  m_owner s !! k = None ∨ m_owner s !! k = Some (TxIDChainHash tx).
Proof.
  intros Hf Hk. apply list_elem_of_In in Hk. pose proof (proj1 (forallb_forall _ _) Hf k Hk) as H.
  cbv beta in H. destruct (m_owner s !! k) as [id|]; [|by left]. apply bool_decide_eq_true in H as ->. by right.
Qed.

Lemma mem_store_rivalry : Rivalry (US := mem_store) bodies mem_owned mem_rival.
Proof.
  split; cbn.
  - intros h s m s' [= <- <-]. destruct (m_data s !! h); [by right|by left].
  - intros tx n s sp s'. destruct (_ && _); [|done]. intros [= <- <-] k Hk. cbn.
    by rewrite claim_lookup, bool_decide_true.
  - by intros tx h bins s r s' [= <- <-].
  - intros tx tx' n s sp e s'. destruct (free_for tx' s) eqn:Ef; cbn [andb]; [|by intros [= <- <- <-]].
    destruct (refuses _); [by intros [= <- <- <-]|]. intros [= <- <- <-] Ho k Hk. cbn.
    rewrite claim_lookup. case_bool_decide as Hk'; [|by apply Ho].
    pose proof (Ho k Hk) as E. destruct (free_for_elem _ _ _ Ef Hk'); congruence.
  - intros tx tx' n s sp e s'. destruct (free_for tx' s) eqn:Ef; cbn [andb]; [|by intros [= <- <- <-]].
    intros _ Ho (Hne & k & Hk & Hk'). pose proof (Ho k Hk) as E.
    destruct (free_for_elem _ _ _ Ef Hk'); congruence.
Qed.
End Memory.

(** The parent [11] was spent by [13], which [12] double-spends; [13] is in block 7. *)
Definition ex_parent : Hash := hash_of_Z 11.
Definition ex_winner : Hash := hash_of_Z 12.
Definition ex_loser : Hash := hash_of_Z 13.

Definition ex_tx (id : Z) : Tx :=
  mkTx id [mkInput ex_parent 0 700 (Some [Byte.xac]) None 0] [Some (mkOutput 600 None)] 0.

Definition ex_bodies (h : Hash) : option Tx :=
  if bool_decide (h = ex_winner) then Some (ex_tx 12)
  else if bool_decide (h = ex_loser) then Some (ex_tx 13) else None.

Definition ex_ids (h : Hash) : result (option (list Z)) :=
  if bool_decide (h = ex_loser) then Ok (Some [7]) else Ok (Some []).

Definition ex_store (refuses : bool) : UtxoStore mem :=
  mem_store ex_bodies ex_ids (λ h, refuses && bool_decide (h = ex_winner)) model_Chainhash model_BtTx.

Definition ex_spec (refuses : bool) : StoreSpec mem_flag m_intents (ex_store refuses) model_Chainhash :=
  mem_store_spec _ _ _ _ _.

Definition ex_meta (parents : list Hash) (slots : list (option SpendingData)) (conflicting : bool) : Data :=
  mkData None parents (map (λ h, (h, 0)) parents) [] [] slots conflicting false 0.

Definition ex_mem : mem :=
  mkMem (list_to_map
    [(ex_parent, ex_meta [] [NewSpendingData (Some ex_loser) 0] false);
     (ex_winner, ex_meta [ex_parent] [None] true);
     (ex_loser, ex_meta [ex_parent] [None] false)]) ∅ (list_to_map [((ex_parent, 0), ex_loser)]).

Definition ex_check (on_chain : Z → bool) : AncestryCheck := λ ids _, Ok (existsb on_chain ids).

Definition ex_run (refuses : bool) (guard : option AncestryCheck) : outcome * mem :=
  @ProcessConflicting mem (ex_store refuses) model_Subtree model_Chainhash elements 5
    (λ _, false) 99 100 (hash_of_Z 5) [ex_winner] ∅ guard ex_mem.

Definition flag_is (b : bool) (o : option bool) : bool :=
  match o with Some c => Bool.eqb b c | None => false end.
Definition Ok_or {A} (d : A) (r : result A) : A := match r with Ok a => a | Err _ => d end.
Definition is_Ok {A} (r : result A) : bool := match r with Ok _ => true | Err _ => false end.

Lemma pair_Ok {A S} d (r : result A * S) : is_Ok r.1 = true → r = (Ok (Ok_or d r.1), r.2).
Proof. by destruct r as [[a|e] s]. Qed.

(** The stages of the example's run. *)
Definition ex_intent : ConflictIntent := forward_intent 100 (hash_of_Z 5) [ex_winner] 99.
Definition ex_begun (refuses : bool) : mem := (st_BeginIntent (UtxoStore := ex_store refuses) ex_intent ex_mem).2.

Definition ex_read (refuses : bool) : result (list (option Tx * list Hash)) * mem :=
  read_winners (US := ex_store refuses) (ST := model_Subtree) elements 5 ∅ [ex_winner] (ex_begun refuses).

Definition ex_winners (refuses : bool) : list (option Tx * list Hash) := Ok_or [] (ex_read refuses).1.

Definition ex_commit : result unit * progress * mem :=
  commit_steps (US := ex_store true) elements 5 (λ _, false) 100 [ex_winner]
    (map fst (ex_winners true)) (elements (list_to_set (C := gset Hash) (mjoin (map snd (ex_winners true)))))
    (ex_read true).2.

Definition ex_rollback : list error * mem :=
  rollbackProcessConflicting (US := ex_store true) (ST := model_Subtree)
    [ex_winner] ex_commit.1.2 100 ex_commit.2.

Lemma ex_commit_fails : ex_commit = (Err (err ERR_UTXO_SPENT), ex_commit.1.2, ex_commit.2).
Proof.
  assert (ex_commit.1.1 = Err (err ERR_UTXO_SPENT)) as E by (vm_compute; reflexivity).
  rewrite <- E. change (ex_commit = (ex_commit.1.1, ex_commit.1.2, ex_commit.2)).
  by destruct ex_commit as [[? ?] ?].
Qed.

Lemma ProcessConflicting_effects_witness :
  let r := ex_run false None in
  (flag_is false (mem_flag r.2 ex_winner) && flag_is true (mem_flag r.2 ex_loser) &&
   (length (oc_marked r.1) =? 2)%nat = true) ∧
  ∀ h, h ∉ oc_marked r.1 → mem_flag r.2 h = mem_flag ex_mem h.
Proof.
  split; [vm_compute; reflexivity|].
  apply (ProcessConflicting_effects (ST := model_Subtree) (Spec := ex_spec false)
    mem_flag m_intents elements 5 (λ _, false) (λ X, reflexivity _) 99 100 (hash_of_Z 5) [ex_winner] ∅
    None ex_mem).
  apply surjective_pairing.
Defined.

Lemma ProcessConflicting_intent_witness :
  let r := ex_run true None in
  is_Ok (oc_result r.1) = false ∧
  match oc_result r.1 with
  | Err _ => same mem_flag m_intents ex_mem r.2 ∧ oc_marked r.1 = [] ∧
             (∃ e, st_BeginIntent (UtxoStore := ex_store true) ex_intent ex_mem = (Err e, r.2)) ∨
             m_intents r.2 = {[@IntentID model_Chainhash ex_intent]} ∪ ∅
  | Ok _ => True
  end.
Proof.
  split; [vm_compute; reflexivity|].
  pose proof (ProcessConflicting_intent (ST := model_Subtree) (Spec := ex_spec true)
    mem_flag m_intents elements 5 (λ _, false) (λ X, reflexivity _) 99 100 (hash_of_Z 5) [ex_winner] ∅
    None ex_mem _ _ (surjective_pairing (ex_run true None))) as H.
  cbv zeta in H. destruct (oc_result (ex_run true None).1); [exact I|exact H].
Defined.

Lemma guard_protects_confirmed_witness :
  let r := ex_run false (Some (ex_check (Z.eqb 7))) in
  (∀ h, mem_flag r.2 h = mem_flag ex_mem h) ∧ oc_marked r.1 = [] ∧
  (oc_result r.1 = Ok [] ∧ ex_loser ∈ oc_refused r.1 ∨ ∃ e, oc_result r.1 = Err e).
Proof.
  apply (guard_protects_confirmed (ST := model_Subtree) (Spec := ex_spec false)
    mem_flag m_intents elements 5 (λ _, false) (λ X, reflexivity _) 99 100 (hash_of_Z 5) [ex_winner] ∅
    (ex_check (Z.eqb 7)) ex_ids (Z.eqb 7) ex_mem (ex_begun false) (ex_winners false)
    (ex_read false).2 ex_loser).
  - intros l s r s' E. by injection E as <- <-.
  - done.
  - reflexivity.
  - apply (pair_Ok [] (ex_read false)). vm_compute. reflexivity.
  - refine (bool_decide_eq_true_1 (ex_loser ∈ mjoin (map snd (ex_winners false))) _). vm_compute. reflexivity.
  - refine (bool_decide_eq_true_1 (ex_loser ∉ [ex_winner]) _). vm_compute. reflexivity.
  - vm_compute. reflexivity.
  - apply surjective_pairing.
Defined.

Lemma ex_contested : contested (ST := model_Subtree) ex_bodies (mem_rival model_BtTx) ex_winner ex_loser.
Proof.
  split_and!; [by apply (bool_decide_eq_true_1 _); vm_compute..|].
  exists (ex_tx 12), (ex_tx 13). split_and!; [by vm_compute..| |].
  - split; [refine (bool_decide_eq_true_1 (TxIDChainHash (BtTx := model_BtTx) (ex_tx 12) ≠ TxIDChainHash (BtTx := model_BtTx) (ex_tx 13)) _); vm_compute; reflexivity|].
    exists (ex_parent, 0). split; by left.
  - split; [refine (bool_decide_eq_true_1 (TxIDChainHash (BtTx := model_BtTx) (ex_tx 13) ≠ TxIDChainHash (BtTx := model_BtTx) (ex_tx 12)) _); vm_compute; reflexivity|].
    exists (ex_parent, 0). split; by left.
Qed.

Lemma failed_run_needs_operator_witness : oc_manual (ex_run true None).1 = true.
Proof.
  apply (failed_run_needs_operator (ST := model_Subtree) (Spec := ex_spec true)
    (Hr := mem_store_rivalry ex_bodies ex_ids _ model_Chainhash model_BtTx)
    mem_flag m_intents elements 5 (λ _, false) (λ X, reflexivity _) 99 100 (hash_of_Z 5) [ex_winner] ∅
    ex_mem (ex_begun true) (ex_winners true) (ex_read true).2 (err ERR_UTXO_SPENT) ex_commit.1.2
    ex_commit.2 ex_winner ex_loser).
  - reflexivity.
  - apply (pair_Ok [] (ex_read true)). vm_compute. reflexivity.
  - exact ex_commit_fails.
  - vm_compute. reflexivity.
  - vm_compute. reflexivity.
  - by left.
  - refine (bool_decide_eq_true_1 (ex_loser ∈ mjoin (map snd (ex_winners true))) _). vm_compute. reflexivity.
  - exact ex_contested.
Defined.

Lemma rolled_back_run_is_refused_witness :
  (ex_run true None).2 = ex_rollback.2 ∧
  (∀ h, h ∈ [ex_winner] → mem_flag ex_rollback.2 h = Some false).
Proof.
  refine ((λ H, conj (proj1 H) (proj1 (proj2 (proj2 H)))) _).
  apply (rolled_back_run_is_refused (ST := model_Subtree) (Spec := ex_spec true)
    mem_flag m_intents elements 5 (λ _, false) (λ X, reflexivity _) 99 100 (hash_of_Z 5) [ex_winner] ∅
    ex_mem (ex_begun true) (ex_winners true) (ex_read true).2 (err ERR_UTXO_SPENT) ex_commit.1.2
    ex_commit.2 ex_rollback.1 ex_rollback.2).
  - done.
  - reflexivity.
  - apply (pair_Ok [] (ex_read true)). vm_compute. reflexivity.
  - exact ex_commit_fails.
  - vm_compute. reflexivity.
  - vm_compute. reflexivity.
  - apply (surjective_pairing ex_rollback).
  - intros s Hs. cbn. rewrite (proj2 (forallb_forall _ _)); [by eexists _, _|].
    intros h Hh%list_elem_of_In. apply bool_decide_true.
    destruct (Hs h Hh) as [b Hb]. unfold mem_flag in Hb. by destruct (m_data s !! h).
Defined.

(** The block with [12] moves back: [13] takes the output again. *)
Definition ex_reverse_mem : mem :=
  mkMem (list_to_map
    [(ex_parent, mkData None [] [] [] [ex_loser] [NewSpendingData (Some ex_winner) 0] false false 0);
     (ex_winner, ex_meta [ex_parent] [None] false);
     (ex_loser, ex_meta [ex_parent] [None] true)]) ∅ (list_to_map [((ex_parent, 0), ex_winner)]).

Definition ex_reverse : result (list Hash) * list Hash * mem :=
  @ReverseProcessConflicting mem (ex_store false) model_Subtree model_Chainhash model_BtTx elements 5
    99 100 (hash_of_Z 5) [ex_winner] ex_reverse_mem.

Lemma ReverseProcessConflicting_effects_witness :
  (flag_is true (mem_flag ex_reverse.2 ex_winner) && flag_is false (mem_flag ex_reverse.2 ex_loser)
   && is_Ok ex_reverse.1.1 = true) ∧
  match ex_reverse.1.1 with
  | Ok touched => ∀ h, h ∉ touched → mem_flag ex_reverse.2 h = mem_flag ex_reverse_mem h
  | Err _ => True
  end.
Proof.
  split; [vm_compute; reflexivity|].
  pose proof (ReverseProcessConflicting_effects (ST := model_Subtree) (BT := model_BtTx) (Spec := ex_spec false)
    mem_flag m_intents elements 5 (λ _, false) (λ X, reflexivity _) 99 100 (hash_of_Z 5) [ex_winner]
    ex_reverse_mem ex_reverse.1.1 ex_reverse.1.2 ex_reverse.2) as H.
  assert (ex_reverse = (ex_reverse.1.1, ex_reverse.1.2, ex_reverse.2)) as E
    by (by destruct ex_reverse as [[? ?] ?]).
  specialize (H E). cbv zeta in H. clear E.
  destruct ex_reverse.1.1; [exact (proj1 (proj2 H))|exact I].
Defined.

(** Two spenders displaced by one transaction: when the second cannot be restored,
    the first has lost its flag and is in no list handed back. *)
Definition ex_two : Tx :=
  mkTx 12 [mkInput ex_parent 0 700 (Some [Byte.xac]) None 0; mkInput ex_parent 1 700 (Some [Byte.xac]) None 0]
    [Some (mkOutput 600 None)] 0.

Definition ex_rest (id vout : Z) : Tx :=
  mkTx id [mkInput ex_parent vout 700 (Some [Byte.xac]) None 0] [Some (mkOutput 600 None)] 0.

Definition ex_two_bodies (h : Hash) : option Tx :=
  if bool_decide (h = hash_of_Z 12) then Some ex_two
  else if bool_decide (h = hash_of_Z 13) then Some (ex_rest 13 0)
  else if bool_decide (h = hash_of_Z 14) then Some (ex_rest 14 1) else None.

Definition ex_two_run : result (list Hash) * list Hash * mem :=
  @ReverseProcessConflicting mem
    (mem_store ex_two_bodies ex_ids (λ h, bool_decide (h = hash_of_Z 14)) model_Chainhash model_BtTx)
    model_Subtree model_Chainhash model_BtTx elements 5 99 100 (hash_of_Z 5) [hash_of_Z 12]
    (mkMem (list_to_map
       [(ex_parent, mkData None [] [] [] [hash_of_Z 13; hash_of_Z 14]
           [NewSpendingData (Some (hash_of_Z 12)) 0; NewSpendingData (Some (hash_of_Z 12)) 1] false false 0);
        (hash_of_Z 12, ex_meta [ex_parent] [None] false);
        (hash_of_Z 13, mkData None [ex_parent] [(ex_parent, 0)] [] [] [None] true false 0);
        (hash_of_Z 14, mkData None [ex_parent] [(ex_parent, 1)] [] [] [None] true false 0)]) ∅
       (list_to_map [((ex_parent, 0), hash_of_Z 12); ((ex_parent, 1), hash_of_Z 12)])).

Example reverse_error_misses_cleared :
  negb (is_Ok ex_two_run.1.1) && flag_is false (mem_flag ex_two_run.2 (hash_of_Z 13)) &&
  bool_decide (hash_of_Z 13 ∉ ex_two_run.1.2) = true.
Proof. vm_compute. reflexivity. Qed.
