(* ===== verification/MtpCache.v ===== *)
(** * Median times served by the blockchain service

    services/blockchain/mtp_cache.go (the generation-guarded cache) and
    services/blockchain/median_time_past.go ([GetMedianTimePastRange],
    [GetMedianTimePastForHeights]).  The store's header query is the argument
    [headers]; the phases of a request are separate definitions, so that other
    requests and chain changes can be interleaved between them. *)

From stdpp Require Import sorting.
From stdpp Require Import list.
From S2P Require Import Prelude External NBits BlockHeader MedianTime.

(** settings.MedianTimeSpan *)
Definition MedianTimeBlocks : Z := 11.

(** model.BlockHeaderMeta, the fields read here. *)
Record BlockHeaderMeta := mkMeta {
  m_Height : Z;
  m_BlockTime : Z;
  m_MedianTimePast : Z;
}.

(** ** The cache *)
Record mtpCache := mkCache { mtps : list Z; gen : Z }.

Definition newMTPCache : mtpCache := mkCache [] 0.

Definition cache_len (c : mtpCache) : Z := u32 (Z.of_nat (length (mtps c))).

(** The loop of [getRange] over [n] heights from [h] on; a zero at a height whose
    median could be non-zero is a miss. *)
Fixpoint get_entries (c : mtpCache) (n : nat) (h : Z) : option (list Z) :=
  match n with
  | O => Some []
  | S n =>
      match mtps c !! Z.to_nat h with
      | None => None
      | Some mtp =>
          if (mtp =? 0) && (h >=? MedianTimeBlocks) then None
          else out ← get_entries c n (h + 1); Some (mtp :: out)
      end
  end.

Definition getRange (c : mtpCache) (fromHeight toHeight : Z) : option (list Z) :=
  if toHeight <? fromHeight then Some []
  else if cache_len c <=? toHeight then None
  else get_entries c (Z.to_nat (toHeight - fromHeight + 1)) fromHeight.

Definition get (c : mtpCache) (height : Z) : option Z :=
  if cache_len c <=? height then None
  else match mtps c !! Z.to_nat height with
       | None => None
       | Some mtp => if (mtp =? 0) && (height >=? MedianTimeBlocks) then None else Some mtp
       end.

(** Indexed writes; out of range is a panic. *)
Fixpoint write_entries (i : Z) (vs : list Z) (l : list Z) : result (list Z) :=
  match vs with
  | [] => Ok l
  | v :: vs =>
      if bool_decide (Z.to_nat i < length l)%nat
      then write_entries (i + 1) vs (<[Z.to_nat i := v]> l) else Err panic
  end.

Definition putRangeLocked (c : mtpCache) (fromHeight : Z) (vs : list Z) : result mtpCache :=
  let end_ := u32 (fromHeight + u32 (Z.of_nat (length vs))) in
  let grown := if cache_len c <? end_
               then mtps c ++ replicate (Z.to_nat (end_ - cache_len c)) 0 else mtps c in
  let? l := write_entries fromHeight vs grown in
  Ok (mkCache l (gen c)).

Definition putRange (c : mtpCache) (fromHeight : Z) (vs : list Z) : result mtpCache :=
  if bool_decide (length vs = 0%nat) then Ok c else putRangeLocked c fromHeight vs.

Definition putRangeIfGen (c : mtpCache) (fromHeight : Z) (vs : list Z) (snapshot : Z)
  : result (mtpCache * bool) :=
  if bool_decide (length vs = 0%nat) then Ok (c, true)
  else if negb (gen c =? snapshot) then Ok (c, false)
  else let? c := putRangeLocked c fromHeight vs in Ok (c, true).

Definition truncate (c : mtpCache) (fromHeight : Z) : mtpCache :=
  mkCache (if cache_len c >? fromHeight then take (Z.to_nat fromHeight) (mtps c) else mtps c)
    (u64 (gen c + 1)).

Definition reset (c : mtpCache) : mtpCache := mkCache [] (u64 (gen c + 1)).

(** ** Requests *)
Definition readFromForMTP (height : Z) : Z :=
  if height >=? MedianTimeBlocks then height - MedianTimeBlocks else 0.

Definition computeMTPForMissingHeight (metas : list BlockHeaderMeta) (targetHeight : Z) : result Z :=
  if targetHeight <? MedianTimeBlocks then Ok 0 else
  let startHeight := targetHeight - MedianTimeBlocks in
  let times := m_BlockTime <$>
    filter (λ m, startHeight ≤ m_Height m ∧ m_Height m < targetHeight) metas in
  if negb (bool_decide (length times = 11%nat)) then Ok 0 else
  let? medianTime := wrapR ERR_PROCESSING (CalculateMedianTimestamp times) in
  Ok (u32 medianTime).

(** [result[meta.Height-fromHeight] = meta.MedianTimePast] for the metas within
    the two heights, on zeros. *)
Definition dense (metas : list BlockHeaderMeta) (fromHeight toHeight : Z) : list Z :=
  foldl (λ out m,
           if (m_Height m >=? fromHeight) && (m_Height m <=? toHeight)
           then <[Z.to_nat (m_Height m - fromHeight) := m_MedianTimePast m]> out else out)
        (replicate (Z.to_nat (toHeight - fromHeight + 1)) 0) metas.

Definition top_missing (metas : list BlockHeaderMeta) (toHeight : Z) : bool :=
  match last metas with None => true | Some m => m_Height m <? toHeight end.

(** What a range request answers from the store's headers. *)
Definition range_answer (metas : list BlockHeaderMeta) (fromHeight toHeight : Z) : result (list Z) :=
  let result := dense metas fromHeight toHeight in
  if top_missing metas toHeight && (toHeight >=? MedianTimeBlocks) then
    let? computed := computeMTPForMissingHeight metas toHeight in
    Ok (<[Z.to_nat (toHeight - fromHeight) := computed]> result)
  else Ok result.

(** What it then writes to the cache: the persisted part. *)
Definition range_write (metas : list BlockHeaderMeta) (fromHeight toHeight : Z)
    (result : list Z) : list Z :=
  if bool_decide (length metas = 0%nat) then [] else
  let cacheTop := if top_missing metas toHeight then u32 (toHeight - 1) else toHeight in
  if cacheTop >=? fromHeight
  then take (Z.to_nat (cacheTop - fromHeight + 1)) result else [].

Definition GetMedianTimePastRange (headers : Z → Z → result (list BlockHeaderMeta))
    (c : option mtpCache) (fromHeight toHeight : Z) : result (list Z) * option mtpCache :=
  if toHeight <? fromHeight then (Ok [], c) else
  match c ≫= λ c, getRange c fromHeight toHeight with
  | Some cached => (Ok cached, c)
  | None =>
      let cacheGen := from_option gen 0 c in
      match (let? metas := wrapR ERR_PROCESSING (headers (readFromForMTP fromHeight) toHeight) in
             let? result := range_answer metas fromHeight toHeight in
             Ok (metas, result)) with
      | Err e => (Err e, c)
      | Ok (metas, result) =>
          match c with
          | None => (Ok result, c)
          | Some c =>
              match putRangeIfGen c fromHeight (range_write metas fromHeight toHeight result) cacheGen with
              | Ok (c, _) => (Ok result, Some c)
              | Err e => (Err e, Some c)
              end
          end
      end
  end.

(** ** The sparse request *)
Definition min_max (heights : list Z) (h0 : Z) : Z * Z :=
  foldl (λ '(lo, hi) h, (if h <? lo then h else lo, if h >? hi then h else hi)) (h0, h0) heights.

Definition mtp_by_height (metas : list BlockHeaderMeta) : gmap Z Z :=
  foldl (λ m meta, <[m_Height meta := m_MedianTimePast meta]> m) ∅ metas.

Definition heights_answer (metas : list BlockHeaderMeta) (maxHeight : Z) (heights : list Z)
  : result (list Z) :=
  let mtpByHeight := mtp_by_height metas in
  let? mtpByHeight :=
    if bool_decide (mtpByHeight !! maxHeight = None) && (maxHeight >=? MedianTimeBlocks)
    then let? computed := computeMTPForMissingHeight metas maxHeight in
         Ok (<[maxHeight := computed]> mtpByHeight)
    else Ok mtpByHeight in
  Ok ((λ h, default 0 (mtpByHeight !! h)) <$> heights).

Definition heights_write (metas : list BlockHeaderMeta) (minHeight maxHeight : Z) : list Z :=
  if bool_decide (length metas = 0%nat) then [] else
  let cacheTop := if top_missing metas maxHeight then u32 (maxHeight - 1) else maxHeight in
  if cacheTop >=? minHeight then dense metas minHeight cacheTop else [].

Definition GetMedianTimePastForHeights (headers : Z → Z → result (list BlockHeaderMeta))
    (c : option mtpCache) (heights : list Z) : result (list Z) * option mtpCache :=
  match heights with
  | [] => (Ok [], c)
  | h0 :: rest =>
      let '(minHeight, maxHeight) := min_max rest h0 in
      match c ≫= λ c, getRange c minHeight maxHeight with
      | Some cached =>
          (Ok ((λ h, default 0 (cached !! Z.to_nat (h - minHeight))) <$> heights), c)
      | None =>
          let cacheGen := from_option gen 0 c in
          match (let? metas := wrapR ERR_PROCESSING (headers (readFromForMTP minHeight) maxHeight) in
                 let? mtps := heights_answer metas maxHeight heights in
                 Ok (metas, mtps)) with
          | Err e => (Err e, c)
          | Ok (metas, mtps) =>
              match c with
              | None => (Ok mtps, c)
              | Some c =>
                  match putRangeIfGen c minHeight (heights_write metas minHeight maxHeight) cacheGen with
                  | Ok (c, _) => (Ok mtps, Some c)
                  | Err e => (Err e, Some c)
                  end
              end
          end
      end
  end.

(** * Specification *)

(** The canonical chain the store holds: its tip and, by height, the block times
    and the stored median times. *)
Record chain := mkChain { tip : Z; btime : Z → Z; smtp : Z → Z }.

(** Stored medians are 0 below eleven blocks. *)
Definition chain_wf (ch : chain) : Prop :=
  0 ≤ tip ch ∧ tip ch + 1 < 2^32 - 1 ∧ (∀ h, h < 11 → smtp ch h = 0) ∧ ∀ h, is_u32 (btime ch h).

(** What [GetBlockHeadersByHeight] returns of it. *)
Definition metas_of (ch : chain) (fromHeight toHeight : Z) : list BlockHeaderMeta :=
  (λ h, mkMeta h (btime ch h) (smtp ch h)) <$>
    seqZ fromHeight (Z.min toHeight (tip ch) - fromHeight + 1).

(** The median time of a height: stored for a persisted block; for the next one
    the median of the eleven block times before it. *)
Definition mtp_at (ch : chain) (h : Z) : Z :=
  if h <=? tip ch then smtp ch h
  else if (h =? tip ch + 1) && (11 <=? h)
  then match CalculateMedianTimestamp (btime ch <$> seqZ (h - 11) 11) with Ok m => m | Err _ => 0 end
  else 0.

Lemma metas_lookup (ch : chain) (a b : Z) (i : nat) m : metas_of ch a b !! i = Some m →
  m = mkMeta (a + Z.of_nat i) (btime ch (a + Z.of_nat i)) (smtp ch (a + Z.of_nat i)) ∧
  a + Z.of_nat i ≤ Z.min b (tip ch).
Proof.
  unfold metas_of. rewrite list_lookup_fmap. intros H.
  destruct (seqZ _ _ !! i) as [h|] eqn:E; [|done]. injection H as <-.
  apply lookup_seqZ in E as [-> ?]. split; [done|lia].
Qed.

Lemma top_missing_metas (ch : chain) (a b : Z) : a ≤ b → 
  top_missing (metas_of ch a b) b = negb (bool_decide (a ≤ tip ch ∧ b ≤ tip ch)).
Proof.
  intros Hab. unfold top_missing, metas_of. rewrite fmap_last.
  destruct (decide (a ≤ Z.min b (tip ch))).
  - rewrite last_lookup, length_seqZ, lookup_seqZ_lt by lia. cbn [fmap option_fmap option_map m_Height].
    rewrite <- Nat.sub_1_r. case_bool_decide; cbn [negb]; [apply Z.ltb_ge|apply Z.ltb_lt]; lia.
  - rewrite seqZ_nil by lia. simpl. case_bool_decide; [lia|done].
Qed.

(** The dense slice holds the stored medians of the persisted heights. *)
Lemma dense_fold (ch : chain) (a b : Z) (n : Z) (s : Z) (out : list Z) :
  length out = Z.to_nat (b - a + 1) →
  let out' := foldl (λ out m,
     if (m_Height m >=? a) && (m_Height m <=? b)
     then <[Z.to_nat (m_Height m - a) := m_MedianTimePast m]> out else out) out
     ((λ h, mkMeta h (btime ch h) (smtp ch h)) <$> seqZ s n) in
  length out' = length out ∧
  ∀ k, (k < length out)%nat → out' !! k =
    if bool_decide (s ≤ a + Z.of_nat k < s + n) then Some (smtp ch (a + Z.of_nat k)) else out !! k.
Proof.
  destruct (Z.le_gt_cases n 0) as [Hn|Hn].
  { rewrite seqZ_nil by done. intros Hl. simpl. split; [done|]. intros k Hk.
    by rewrite bool_decide_false by lia. }
  revert s out. pattern n. apply natlike_ind; [..|lia]; clear n Hn.
  { intros s out Hl. rewrite seqZ_nil by done. simpl. split; [done|]. intros k Hk.
    by rewrite bool_decide_false by lia. }
  intros n Hn IH s out Hl. rewrite <- Z.add_1_l, seqZ_app by lia.
  rewrite (seqZ_cons s 1) by lia. rewrite (seqZ_nil (Z.succ s)) by lia. cbn [app].
  rewrite fmap_cons. cbn [foldl m_Height m_MedianTimePast].
  set (out1 := if _ && _ then _ else _).
  assert (H1 : length out1 = length out) by (subst out1; case_match; [apply length_insert|done]).
  destruct (IH (s + 1) out1) as [IHl IHk]; [lia|]. split; [lia|]. intros k Hk.
  rewrite IHk by lia. clear IH IHl IHk.
  destruct (decide (a + Z.of_nat k = s)) as [Hs|Hs].
  - rewrite bool_decide_false, bool_decide_true by lia. subst out1.
    rewrite (proj2 (andb_true_iff _ _)) by lia.
    replace (Z.to_nat (s - a)) with k by lia. rewrite list_lookup_insert_eq by done. by rewrite Hs.
  - assert (out1 !! k = out !! k) as ->.
    { subst out1. case_match; [|done]. apply list_lookup_insert_ne. lia. }
    do 2 case_bool_decide; try done; lia.
Qed.

Lemma dense_lookup (ch : chain) (r a b : Z) (k : nat) :
  r ≤ a → Z.of_nat k < b - a + 1 →
  dense (metas_of ch r b) a b !! k =
    Some (if a + Z.of_nat k <=? tip ch then smtp ch (a + Z.of_nat k) else 0).
Proof.
  intros Hr Hk. unfold dense, metas_of.
  destruct (dense_fold ch a b (Z.min b (tip ch) - r + 1) r (replicate (Z.to_nat (b - a + 1)) 0)) as [_ H];
    [apply length_replicate|]. rewrite H by (rewrite length_replicate; lia).
  case_bool_decide; destruct (Z.leb_spec (a + Z.of_nat k) (tip ch)); try lia; [done|].
  apply lookup_replicate. lia.
Qed.

Lemma dense_length metas a b : length (dense metas a b) = Z.to_nat (b - a + 1).
Proof.
  unfold dense. rewrite <- (length_replicate (Z.to_nat (b - a + 1)) 0) at 2.
  generalize (replicate (Z.to_nat (b - a + 1)) 0). induction metas as [|m metas IH]; intros l; [done|].
  cbn [foldl]. rewrite IH. case_match; [apply length_insert|done].
Qed.

(** The block times below an unpersisted height. *)
Lemma missing_times (ch : chain) (r t : Z) :
  r ≤ t - 11 → tip ch < t →
  m_BlockTime <$> filter (λ m, t - 11 ≤ m_Height m ∧ m_Height m < t) (metas_of ch r t)
  = btime ch <$> seqZ (t - 11) (tip ch - (t - 11) + 1).
Proof.
  intros Hr Ht. unfold metas_of. rewrite Z.min_r by lia.
  destruct (Z.le_gt_cases (t - 11) (tip ch)).
  - replace (tip ch - r + 1) with ((t - 11 - r) + (tip ch - (t - 11) + 1)) by lia.
    rewrite seqZ_app, fmap_app, filter_app by lia.
    rewrite (list_filter_none _ ((λ h, mkMeta h (btime ch h) (smtp ch h)) <$> seqZ r (t - 11 - r))).
    2: { intros m (h & -> & Hh)%list_elem_of_fmap. apply elem_of_seqZ in Hh. simpl. lia. }
    rewrite list_filter_all.
    2: { intros m (h & -> & Hh)%list_elem_of_fmap. apply elem_of_seqZ in Hh. simpl. lia. }
    replace (r + (t - 11 - r)) with (t - 11) by lia. cbn [app].
    symmetry. apply (list_fmap_compose (λ h, mkMeta h (btime ch h) (smtp ch h)) m_BlockTime).
  - rewrite (seqZ_nil (t - 11)) by lia. rewrite list_filter_none; [done|].
    intros m (h & -> & Hh)%list_elem_of_fmap. apply elem_of_seqZ in Hh. simpl. lia.
Qed.

Lemma missing_height (ch : chain) (r t : Z) :
  chain_wf ch → r ≤ t - 11 → 11 ≤ t → tip ch < t →
  computeMTPForMissingHeight (metas_of ch r t) t = Ok (mtp_at ch t).
Proof.
  intros (Htip & _ & _ & Hbt) Hr Ht Hgt. unfold computeMTPForMissingHeight, mtp_at, MedianTimeBlocks.
  rewrite (proj2 (Z.ltb_ge _ _)), (proj2 (Z.leb_gt _ _)) by lia.
  rewrite missing_times by lia. rewrite length_fmap, length_seqZ.
  destruct (Z.eqb_spec t (tip ch + 1)) as [->|Hne].
  - replace (tip ch - (tip ch + 1 - 11) + 1) with 11 by lia.
    rewrite bool_decide_true by lia. rewrite (proj2 (Z.leb_le _ _)) by lia. cbn [negb andb].
    destruct (median_total (btime ch <$> seqZ (tip ch + 1 - 11) 11)) as [m Hm].
    { intros H. apply (f_equal length) in H. rewrite length_fmap, length_seqZ in H. done. }
    rewrite Hm. cbn [wrapR bindR]. apply median_In in Hm as (h & -> & _)%list_elem_of_fmap.
    by rewrite u32_small.
  - rewrite bool_decide_false by lia. done.
Qed.

Lemma readFrom_le (a b : Z) : a ≤ b → 11 ≤ b → readFromForMTP a ≤ b - 11.
Proof. unfold readFromForMTP, MedianTimeBlocks. destruct (Z.geb_spec a 11); lia. Qed.

Lemma readFrom_self (a : Z) : readFromForMTP a ≤ a ∨ readFromForMTP a = 0.
Proof. unfold readFromForMTP, MedianTimeBlocks. destruct (Z.geb_spec a 11); lia. Qed.

Lemma range_answer_spec (ch : chain) (a b : Z) :
  chain_wf ch → 0 ≤ a ≤ b → b ≤ tip ch + 1 →
  range_answer (metas_of ch (readFromForMTP a) b) a b = Ok (mtp_at ch <$> seqZ a (b - a + 1)).
Proof.
  intros Hwf Hab Hb. pose proof Hwf as (Htip & _ & Hlow & _). pose proof (readFrom_self a) as Hr.
  assert (Hra : readFromForMTP a ≤ a) by lia.
  pose proof (dense_length (metas_of ch (readFromForMTP a) b) a b) as Hlen.
  pose proof (dense_lookup ch (readFromForMTP a) a b) as Hk.
  unfold range_answer. rewrite top_missing_metas by lia. unfold MedianTimeBlocks.
  set (d := dense _ a b) in *.
  assert (Hall : ∀ k, (k < Z.to_nat (b - a + 1))%nat →
    (a + Z.of_nat k ≤ tip ch ∨ a + Z.of_nat k < 11) → d !! k = Some (mtp_at ch (a + Z.of_nat k))).
  { intros k Hkn Hc. rewrite Hk by lia. unfold mtp_at.
    destruct (Z.leb_spec (a + Z.of_nat k) (tip ch)); [done|].
    by rewrite (proj2 (Z.leb_gt 11 _)), andb_false_r by lia. }
  case_bool_decide as Htop; cbn [negb andb]; [|destruct (Z.geb_spec b 11)].
  1,3: f_equal; apply list_eq_same_length with (Z.to_nat (b - a + 1));
    [by rewrite length_fmap, length_seqZ|done|];
    intros k x y Hkn Hx Hy; rewrite lookup_seqZ_fmap in Hy by lia; rewrite Hall in Hx by lia; congruence.
  rewrite missing_height by (done || (try apply readFrom_le); lia). cbn [bindR]. f_equal.
  apply list_eq_same_length with (Z.to_nat (b - a + 1));
    [by rewrite length_fmap, length_seqZ|by rewrite length_insert|].
  intros k x y Hkn Hx Hy. rewrite lookup_seqZ_fmap in Hy by lia.
  destruct (decide (k = Z.to_nat (b - a))) as [->|Hne].
  - rewrite list_lookup_insert_eq in Hx by lia.
    replace (a + Z.of_nat (Z.to_nat (b - a))) with b in Hy by lia. congruence.
  - rewrite list_lookup_insert_ne, Hall in Hx by lia. congruence.
Qed.

(** ** What a cache may hold *)

(** An entry is right for the chain, or a zero that reads as a miss. *)
Definition entry_ok (ch : chain) (k v : Z) : Prop := v = mtp_at ch k ∨ (v = 0 ∧ 11 ≤ k).

Definition coherent_to (c : mtpCache) (ch : chain) (b : Z) : Prop :=
  ∀ k v, Z.of_nat k ≤ b → mtps c !! k = Some v → entry_ok ch (Z.of_nat k) v.

Lemma zero_ok (ch : chain) (k : Z) : chain_wf ch → entry_ok ch k 0.
Proof.
  intros (_ & _ & Hlow & _). destruct (Z.le_gt_cases 11 k) as [|Hk]; [by right|]. left.
  unfold mtp_at. destruct (k <=? tip ch); [symmetry; by apply Hlow|].
  by rewrite (proj2 (Z.leb_gt 11 k)), andb_false_r by lia.
Qed.

Lemma get_entries_coherent (c : mtpCache) (ch : chain) (b : Z) (n : nat) (h : Z) (vs : list Z) :
  coherent_to c ch b → 0 ≤ h → h + Z.of_nat n ≤ b + 1 →
  get_entries c n h = Some vs → vs = mtp_at ch <$> seqZ h (Z.of_nat n).
Proof.
  intros Hc. revert h vs. induction n as [|n IH]; intros h vs Hh Hb H; cbn [get_entries] in H.
  { injection H as <-. done. }
  destruct (mtps c !! Z.to_nat h) as [v|] eqn:E; [|done].
  destruct ((v =? 0) && (h >=? MedianTimeBlocks)) eqn:Ez; [done|].
  apply bind_Some in H as (out & H & [= <-]). apply IH in H as ->; [|lia|lia].
  rewrite Nat2Z.inj_succ, (seqZ_cons h) by lia. rewrite fmap_cons. rewrite Z.pred_succ.
  f_equal.
  destruct (Hc (Z.to_nat h) v ltac:(lia) E) as [->|[-> ?]]; [by rewrite Z2Nat.id by lia|].
  unfold MedianTimeBlocks in Ez. rewrite Z2Nat.id in * by lia.
  destruct (Z.geb_spec h 11); [done|lia].
Qed.

Lemma getRange_coherent (c : mtpCache) (ch : chain) (a b : Z) (vs : list Z) :
  coherent_to c ch b → 0 ≤ a ≤ b → getRange c a b = Some vs → vs = mtp_at ch <$> seqZ a (b - a + 1).
Proof.
  intros Hc Hab. unfold getRange. rewrite (proj2 (Z.ltb_ge _ _)) by lia. case_match; [done|].
  intros H1. apply (get_entries_coherent c ch b) in H1; [|done|lia|lia]. by rewrite Z2Nat.id in H1 by lia.
Qed.

Lemma write_entries_spec (a : Z) (vs l l' : list Z) : 0 ≤ a →
  write_entries a vs l = Ok l' →
  length l' = length l ∧
  ∀ k v, l' !! k = Some v →
    vs !! (k - Z.to_nat a)%nat = Some v ∧ (Z.to_nat a ≤ k)%nat ∨ l !! k = Some v.
Proof.
  revert a l. induction vs as [|w vs IH]; intros a l Ha H; cbn [write_entries] in H.
  { injection H as <-. auto. }
  case_bool_decide as Hi; [|done]. apply IH in H as [Hl H]; [|lia].
  split; [by rewrite Hl, length_insert|]. intros k v Hk. destruct (H k v Hk) as [[H1 H2]|H1].
  - left. split; [|lia]. by replace (k - Z.to_nat a)%nat with (S (k - Z.to_nat (a + 1))) by lia.
  - destruct (decide (k = Z.to_nat a)) as [->|Hne].
    + rewrite list_lookup_insert_eq in H1 by done. left. by rewrite Nat.sub_diag.
    + rewrite list_lookup_insert_ne in H1 by done. by right.
Qed.

Lemma write_entries_total (a : Z) (vs l : list Z) : 0 ≤ a →
  (Z.to_nat a + length vs ≤ length l)%nat → ∃ l', write_entries a vs l = Ok l'.
Proof.
  revert a l. induction vs as [|w vs IH]; intros a l Ha Hl; cbn [write_entries length] in *; [eauto|].
  rewrite bool_decide_true by lia. apply IH; [lia|]. rewrite length_insert. lia.
Qed.

(** A write succeeds and every entry is an old one, a written one or padding. *)
Lemma putRangeLocked_spec (c : mtpCache) (a : Z) (vs : list Z) :
  0 ≤ a → a + Z.of_nat (length vs) < 2^32 → Z.of_nat (length (mtps c)) < 2^32 →
  ∃ c', putRangeLocked c a vs = Ok c' ∧ gen c' = gen c ∧
    Z.of_nat (length (mtps c')) < 2^32 ∧
    ∀ k v, mtps c' !! k = Some v →
      (Z.to_nat a ≤ k)%nat ∧ vs !! (k - Z.to_nat a)%nat = Some v ∨ mtps c !! k = Some v ∨ v = 0.
Proof.
  intros Ha Hb Hl. unfold putRangeLocked, cache_len.
  rewrite (u32_small (Z.of_nat (length (mtps c)))), (u32_small (Z.of_nat (length vs))), u32_small by lia.
  match goal with |- context [write_entries a vs ?g] => set (grown := g) end.
  assert (Hg : length grown = Nat.max (length (mtps c)) (Z.to_nat a + length vs) ∧
    ∀ k v, grown !! k = Some v → mtps c !! k = Some v ∨ v = 0).
  { subst grown. destruct (Z.ltb_spec (Z.of_nat (length (mtps c))) (a + Z.of_nat (length vs))).
    - rewrite length_app, length_replicate. split; [lia|]. intros k v [Hk|[_ Hk]]%lookup_app_Some; [by left|].
      apply lookup_replicate in Hk as [-> _]. by right.
    - split; [lia|]. auto. }
  destruct Hg as [Hgl Hg]. destruct (write_entries_total a vs grown Ha) as [l' Hl']; [lia|].
  rewrite Hl'. cbn [bindR]. exists (mkCache l' (gen c)). apply write_entries_spec in Hl' as [Hlen Hk]; [|done].
  cbn [mtps gen]. split_and!; [done|done|lia|]. intros k v Hkv. destruct (Hk k v Hkv) as [[? ?]|Hkg]; [by left|].
  right. by apply Hg.
Qed.

(** ** Requests and chain changes, interleaved *)

(** The two kinds of request, by the heights they span. *)
Inductive request := RangeReq (a b : Z) | HeightsReq (a b : Z).

Definition req_from (r : request) : Z := match r with RangeReq a _ | HeightsReq a _ => a end.
Definition req_to (r : request) : Z := match r with RangeReq _ b | HeightsReq _ b => b end.

Definition req_wf (r : request) : Prop := 0 ≤ req_from r ≤ req_to r ∧ req_to r < 2^32 - 1.

(** What the request will write, from the headers of the chain it read. *)
Definition req_write (ch : chain) (r : request) : list Z :=
  let metas := metas_of ch (readFromForMTP (req_from r)) (req_to r) in
  match r with
  | RangeReq a b =>
      match range_answer metas a b with Ok res => range_write metas a b res | Err _ => [] end
  | HeightsReq a b => heights_write metas a b
  end.

(** A request in flight: the generation it saw first, and, once it has read the
    store, the entries it will try to write. *)
Record reader := mkReader { rd_req : request; rd_snapshot : Z; rd_vals : option (list Z) }.

(** The service: the stored chain, the cache, the truncations to come (the height of
    each block added, invalidated or revalidated whose handler has changed the store
    but has not reached the cache yet) and the requests in flight.  [s_dirty] is kept
    for the statement alone: the lowest height each change changed, until the cache is
    cut at or below it. *)
Record service := mkService {
  s_chain : chain;
  s_cache : mtpCache;
  s_due : list Z;
  s_dirty : list Z;
  s_readers : gmap nat reader;
}.

(** Nothing below [h] distinguishes the two chains' median times. *)
Definition same_below (h : Z) (ch ch' : chain) : Prop := ∀ k, k < h → mtp_at ch k = mtp_at ch' k.

(** [step_change]: AddBlock, InvalidateBlock and RevalidateBlock write the store for a
    block at height [h]; the chain that becomes the best one may have left the old one
    anywhere, at [f].  The handler then cuts the cache at [h] ([step_truncate]) or, when
    the header of an invalidated or revalidated block cannot be read, empties it
    ([step_reset]).  [covers] restricts the changes to those that leave the chain below
    their block alone: a block on the tip, a block beside the best chain, the
    invalidation of a block with no rival branch from below. *)
Inductive step (covers : bool) : service → service → Prop :=
  | step_begin s i r :
      s_readers s !! i = None → req_wf r →
      step covers s (mkService (s_chain s) (s_cache s) (s_due s) (s_dirty s)
                (<[i := mkReader r (gen (s_cache s)) None]> (s_readers s)))
  | step_read s i r snap :
      s_readers s !! i = Some (mkReader r snap None) →
      step covers s (mkService (s_chain s) (s_cache s) (s_due s) (s_dirty s)
                (<[i := mkReader r snap (Some (req_write (s_chain s) r))]> (s_readers s)))
  | step_write s i r snap vs c ok :
      s_readers s !! i = Some (mkReader r snap (Some vs)) →
      putRangeIfGen (s_cache s) (req_from r) vs snap = Ok (c, ok) →
      step covers s (mkService (s_chain s) c (s_due s) (s_dirty s) (delete i (s_readers s)))
  | step_change s ch h f :
      chain_wf ch → same_below f (s_chain s) ch → 0 ≤ f → 0 ≤ h → (covers = true → h ≤ f) →
      step covers s (mkService ch (s_cache s) (h :: s_due s) (f :: s_dirty s) (s_readers s))
  | step_truncate s h due :
      s_due s ≡ₚ h :: due → gen (s_cache s) + 1 < 2^64 →
      step covers s (mkService (s_chain s) (truncate (s_cache s) h) due
        (filter (λ f, f < h) (s_dirty s)) (s_readers s))
  | step_reset s h due :
      s_due s ≡ₚ h :: due → gen (s_cache s) + 1 < 2^64 →
      step covers s (mkService (s_chain s) (reset (s_cache s)) due [] (s_readers s)).

(** Right for the chain, or at or above a height whose change is still to be cut. *)
Definition entry_pending (s : service) (k v : Z) : Prop :=
  entry_ok (s_chain s) k v ∨ ∃ h, h ∈ s_dirty s ∧ h ≤ k.

Record invariant (covers : bool) (s : service) : Prop := {
  inv_chain : chain_wf (s_chain s);
  inv_gen : 0 ≤ gen (s_cache s) < 2^64;
  inv_size : Z.of_nat (length (mtps (s_cache s))) < 2^32;
  inv_due : Forall (λ h, 0 ≤ h) (s_due s);
  inv_cache k v : mtps (s_cache s) !! k = Some v → entry_pending s (Z.of_nat k) v;
  inv_readers i r snap vals : s_readers s !! i = Some (mkReader r snap vals) →
    req_wf r ∧ snap ≤ gen (s_cache s) ∧
    ∀ vs, vals = Some vs →
      req_from r + Z.of_nat (length vs) < 2^32 ∧
      (snap = gen (s_cache s) → ∀ k v, vs !! k = Some v →
         entry_pending s (req_from r + Z.of_nat k) v);
  inv_covers : covers = true → ∀ f, f ∈ s_dirty s → ∃ h, h ∈ s_due s ∧ h ≤ f;
}.

(** What a request writes is right for the chain it read. *)
Lemma dense_ok (ch : chain) (r a b t : Z) (k : nat) (v : Z) :
  chain_wf ch → r ≤ a → (b = t ∨ b = t - 1 ∧ tip ch < t) →
  dense (metas_of ch r t) a b !! k = Some v → entry_ok ch (a + Z.of_nat k) v.
Proof.
  intros Hwf Hr Ht Hk. assert (Hm : metas_of ch r t = metas_of ch r b).
  { destruct Ht as [->|[-> Ht]]; [done|]. unfold metas_of. by rewrite !Z.min_r by lia. }
  rewrite Hm in Hk. assert (Z.of_nat k < b - a + 1).
  { apply lookup_lt_Some in Hk. rewrite dense_length in Hk. lia. }
  rewrite dense_lookup in Hk by done. injection Hk as <-.
  destruct (Z.leb_spec (a + Z.of_nat k) (tip ch)); [|by apply zero_ok].
  left. unfold mtp_at. by rewrite (proj2 (Z.leb_le _ _)) by lia.
Qed.

Lemma req_write_ok (ch : chain) (r : request) :
  chain_wf ch → req_wf r →
  req_from r + Z.of_nat (length (req_write ch r)) < 2^32 ∧
  ∀ k v, req_write ch r !! k = Some v → entry_ok ch (req_from r + Z.of_nat k) v.
Proof.
  intros Hwf [Hab Hb]. unfold req_write. set (metas := metas_of _ _ _).
  assert (Hr : readFromForMTP (req_from r) ≤ req_from r) by (pose proof (readFrom_self (req_from r)); lia).
  assert (Htop : top_missing metas (req_to r) = true → tip ch < req_to r ∧ (metas ≠ [] → 0 < req_to r)).
  { subst metas. destruct (decide (readFromForMTP (req_from r) ≤ req_to r)); [|lia].
    rewrite top_missing_metas by done. intros Ht%negb_true_iff%bool_decide_eq_false.
    pose proof Hwf as (? & _). lia. }
  assert (Hsub : ∀ top, (top = req_to r ∨ top = req_to r - 1 ∧ tip ch < req_to r) →
    ∀ k v, dense metas (req_from r) top !! k = Some v → entry_ok ch (req_from r + Z.of_nat k) v).
  { intros top Ht k v. by apply dense_ok. }
  destruct r as [a b|a b]; cbn [req_from req_to] in *.
  - destruct (range_answer metas a b) as [res|] eqn:Hres; [|split; [simpl; lia|done]].
    unfold range_write. case_bool_decide as Hm; [split; [simpl; lia|done]|].
    assert (Hne : metas ≠ []) by (by intros ->).
    unfold range_answer in Hres.
    destruct (top_missing metas b) eqn:Et; cbn [andb] in Hres.
    + destruct (Htop eq_refl) as [Hgt Hpos]. specialize (Hpos Hne). rewrite u32_small by lia.
      destruct (Z.geb_spec (b - 1) a); [|split; [simpl; lia|done]].
      assert (Hres' : ∀ k, (k < Z.to_nat (b - 1 - a + 1))%nat → res !! k = dense metas a b !! k).
      { intros k Hk. destruct (b >=? MedianTimeBlocks); [|by injection Hres as <-].
        apply bindR_Ok in Hres as (m & _ & [= <-]). apply list_lookup_insert_ne. lia. }
      split; [rewrite length_take; lia|]. intros k v [Hk Hlt]%lookup_take_Some.
      rewrite Hres' in Hk by done. by apply (Hsub b (or_introl eq_refl)).
    + injection Hres as <-. destruct (Z.geb_spec b a); [|split; [simpl; lia|done]].
      split; [rewrite length_take, dense_length; lia|]. intros k v [Hk _]%lookup_take_Some.
      by apply (Hsub b (or_introl eq_refl)).
  - unfold heights_write. case_bool_decide as Hm; [split; [simpl; lia|done]|].
    assert (Hne : metas ≠ []) by (by intros ->).
    destruct (top_missing metas b) eqn:Et.
    + destruct (Htop eq_refl) as [Hgt Hpos]. specialize (Hpos Hne). rewrite u32_small by lia.
      destruct (Z.geb_spec (b - 1) a); [|split; [simpl; lia|done]].
      split; [rewrite dense_length; lia|]. apply Hsub. by right.
    + destruct (Z.geb_spec b a); [|split; [simpl; lia|done]].
      split; [rewrite dense_length; lia|]. apply Hsub. by left.
Qed.

Lemma pending_change (s : service) (ch : chain) due (f k v : Z) :
  same_below f (s_chain s) ch → entry_pending s k v →
  entry_pending (mkService ch (s_cache s) due (f :: s_dirty s) (s_readers s)) k v.
Proof.
  intros Hsame [[Hok|Hz]|(h' & Hh' & Hle)]; unfold entry_pending, entry_ok; cbn [s_chain s_dirty].
  - destruct (Z.lt_ge_cases k f); [left; left; by rewrite <- Hsame|].
    right. exists f. split; [by left|lia].
  - left. by right.
  - right. exists h'. split; [by right|done].
Qed.

Lemma truncate_lookup (c : mtpCache) (h : Z) (k : nat) (v : Z) :
  0 ≤ h → Z.of_nat (length (mtps c)) < 2^32 → mtps (truncate c h) !! k = Some v →
  mtps c !! k = Some v ∧ Z.of_nat k < h.
Proof.
  intros Hh Hl. unfold truncate, cache_len. cbn [mtps]. rewrite u32_small by lia.
  destruct (Z.gtb_spec (Z.of_nat (length (mtps c))) h).
  - intros [? ?]%lookup_take_Some. split; [done|lia].
  - intros Hk. split; [done|]. apply lookup_lt_Some in Hk. lia.
Qed.

Section Invariant.
  Context (covers : bool).
Abbreviation invariant := (invariant covers).

Lemma invariant_begin s i r :
  s_readers s !! i = None → req_wf r → invariant s →
  invariant (mkService (s_chain s) (s_cache s) (s_due s) (s_dirty s)
               (<[i := mkReader r (gen (s_cache s)) None]> (s_readers s))).
Proof.
  intros _ Hr [H1 H2 H3 H4 H5 H6 H7]. split; try done. cbn [s_readers s_cache s_dirty s_chain].
  intros j r' snap vals [[<- [= <- <- <-]]|[_ Hj]]%lookup_insert_Some.
  - by split_and!.
  - by apply (H6 j).
Qed.

Lemma invariant_read s i r snap :
  s_readers s !! i = Some (mkReader r snap None) → invariant s →
  invariant (mkService (s_chain s) (s_cache s) (s_due s) (s_dirty s)
               (<[i := mkReader r snap (Some (req_write (s_chain s) r))]> (s_readers s))).
Proof.
  intros Hi [H1 H2 H3 H4 H5 H6 H7]. split; try done. cbn [s_readers s_cache s_dirty s_chain].
  intros j r' snap' vals [[<- [= <- <- <-]]|[_ Hj]]%lookup_insert_Some.
  - destruct (H6 i _ _ _ Hi) as (Hr & Hs & _). split_and!; [done|done|].
    intros vs [= <-]. destruct (req_write_ok (s_chain s) r H1 Hr) as [Hl Hok].
    split; [done|]. intros _ k v Hk. left. by apply Hok.
  - by apply (H6 j).
Qed.

Lemma invariant_write s i r snap vs c ok :
  s_readers s !! i = Some (mkReader r snap (Some vs)) →
  putRangeIfGen (s_cache s) (req_from r) vs snap = Ok (c, ok) → invariant s →
  invariant (mkService (s_chain s) c (s_due s) (s_dirty s) (delete i (s_readers s))).
Proof.
  intros Hi Hput [H1 H2 H3 H4 H5 H6 H7]. destruct (H6 i _ _ _ Hi) as ([Hr _] & _ & Hvs).
  destruct (Hvs vs eq_refl) as [Hlen Hent].
  assert (Hc : gen c = gen (s_cache s) ∧ Z.of_nat (length (mtps c)) < 2^32 ∧
    ∀ k v, mtps c !! k = Some v → entry_pending s (Z.of_nat k) v).
  { unfold putRangeIfGen in Hput. case_bool_decide; [by injection Hput as <- _|].
    destruct (Z.eqb_spec (gen (s_cache s)) snap) as [Hg|]; cbn [negb] in Hput; [|by injection Hput as <- _].
    destruct (putRangeLocked_spec (s_cache s) (req_from r) vs) as (c' & Hc' & Hgen & Hl' & Hk); [lia|lia|done|].
    rewrite Hc' in Hput. injection Hput as <- _. split_and!; [done|done|].
    intros k v Hkv. destruct (Hk k v Hkv) as [[Hle Hv]|[Hv| ->]].
    - specialize (Hent (eq_sym Hg) _ _ Hv).
      by replace (Z.of_nat k) with (req_from r + Z.of_nat (k - Z.to_nat (req_from r))) by lia.
    - by apply H5.
    - left. by apply zero_ok. }
  destruct Hc as (Hg & Hl & Hk). split; cbn [s_readers s_cache s_dirty s_chain]; try done; [by rewrite Hg|].
  rewrite Hg. intros j r' snap' vals [_ Hj]%lookup_delete_Some. by apply (H6 j).
Qed.

Lemma invariant_change s ch h f :
  chain_wf ch → same_below f (s_chain s) ch → 0 ≤ h → (covers = true → h ≤ f) → invariant s →
  invariant (mkService ch (s_cache s) (h :: s_due s) (f :: s_dirty s) (s_readers s)).
Proof.
  intros Hwf Hsame Hh Hcov [H1 H2 H3 H4 H5 H6 H7].
  split; cbn [s_readers s_cache s_due s_dirty s_chain]; try done; [by constructor| | |].
  - intros k v Hk. apply pending_change; [done|]. by apply H5.
  - intros i r snap vals Hi. destruct (H6 i _ _ _ Hi) as (Hr & Hs & Hv). split_and!; [done..|].
    intros vs Hvs. destruct (Hv vs Hvs) as [Hl Hent]. split; [done|].
    intros Hg k v Hk. apply pending_change; [done|]. by apply Hent.
  - intros Hc f' [->|Hf]%elem_of_cons; [exists h; split; [by left|auto]|].
    destruct (H7 Hc f' Hf) as (h' & ? & ?). exists h'. split; [by right|done].
Qed.

(** Dropping every entry from [h] on and starting a new generation settles every
    change from [h] on, and disarms every request in flight. *)
Lemma invariant_invalidate s h due dirty c :
  s_due s ≡ₚ h :: due → gen (s_cache s) + 1 < 2^64 → gen c = gen (s_cache s) + 1 →
  (∀ k v, mtps c !! k = Some v → mtps (s_cache s) !! k = Some v ∧
     ∀ f, f ∈ s_dirty s → f ≤ Z.of_nat k → f ∈ dirty) →
  (∀ f, f ∈ dirty → f ∈ s_dirty s ∧ f < h) →
  Z.of_nat (length (mtps c)) < 2^32 → invariant s →
  invariant (mkService (s_chain s) c due dirty (s_readers s)).
Proof.
  intros Hp Hgb Hg Hsub Hdirty Hl [H1 H2 H3 H4 H5 H6 H7].
  rewrite Hp in H4. apply Forall_cons in H4 as [_ H4].
  split; cbn [s_readers s_cache s_due s_dirty s_chain]; try done; [lia| | |].
  - intros k v Hk. destruct (Hsub k v Hk) as [Hk' Hkeep].
    destruct (H5 _ _ Hk') as [?|(f & Hf & Hle)]; [by left|]. right. exists f. auto.
  - intros i r snap vals Hi. destruct (H6 i _ _ _ Hi) as (Hr & Hs & Hv). split_and!; [done|lia|].
    intros vs Hvs. destruct (Hv vs Hvs) as [Hlv _]. split; [done|]. intros Hsg. lia.
  - intros Hc f Hf. destruct (Hdirty f Hf) as [Hf' Hlt]. destruct (H7 Hc f Hf') as (h' & Hh' & Hle).
    exists h'. split; [|done]. rewrite Hp in Hh'. apply elem_of_cons in Hh' as [->|?]; [lia|done].
Qed.

Lemma invariant_step s s' : step covers s s' → invariant s → invariant s'.
Proof.
  intros Hs Hinv. destruct Hs.
  - by apply invariant_begin.
  - by apply invariant_read.
  - by eapply invariant_write.
  - by apply invariant_change.
  - pose proof Hinv as [_ H2 H3 H4 _ _ _].
    assert (0 ≤ h) by (rewrite H in H4; by apply Forall_cons in H4 as [? _]).
    eapply invariant_invalidate; [done|done|by unfold truncate; cbn [gen]; rewrite u64_small by lia| | | |done].
    + intros k v [Hk Hlt]%truncate_lookup; [|done|done]. split; [done|]. intros f Hf Hle.
      apply list_elem_of_filter. split; [lia|done].
    + by intros f [? ?]%list_elem_of_filter.
    + unfold truncate. cbn [mtps]. case_match; [rewrite length_take; lia|done].
  - pose proof Hinv as [_ H2 _ _ _ _ _].
    eapply invariant_invalidate; [done|done|by unfold reset; cbn [gen]; rewrite u64_small by lia| | | |done].
    + intros k v Hk. unfold reset in Hk. cbn [mtps] in Hk. by rewrite lookup_nil in Hk.
    + by intros f ?%elem_of_nil.
    + simpl. lia.
Qed.

End Invariant.

(** The service as it starts. *)
Definition start (ch : chain) : service := mkService ch newMTPCache [] [] ∅.

Lemma invariant_reachable covers (ch : chain) (s : service) :
  chain_wf ch → rtc (step covers) (start ch) s → invariant covers s.
Proof.
  intros Hwf Hs. assert (H0 : invariant covers (start ch)).
  { split; cbn; try done; try lia. by intros _ f ?%elem_of_nil. }
  revert H0. induction Hs as [s|s s1 s2 H1 H2 IH]; [done|].
  intros H0. apply IH. by eapply invariant_step.
Qed.

Lemma reachable_coherent covers (s : service) (b : Z) :
  invariant covers s → Forall (λ h, b < h) (s_dirty s) → coherent_to (s_cache s) (s_chain s) b.
Proof.
  intros Hinv Hd k v Hk Hv. destruct (inv_cache covers s Hinv _ _ Hv) as [?|(h & Hh & Hle)]; [done|].
  rewrite Forall_forall in Hd. specialize (Hd h Hh). lia.
Qed.

(** ** Answers *)
Lemma min_max_spec (hs : list Z) (lo hi : Z) :
  lo ≤ hi →
  let '(l, h) := foldl (λ '(lo, hi) h, (if h <? lo then h else lo, if h >? hi then h else hi)) (lo, hi) hs in
  l ≤ lo ∧ hi ≤ h ∧ Forall (λ x, l ≤ x ≤ h) hs ∧ (l = lo ∨ l ∈ hs) ∧ (h = hi ∨ h ∈ hs).
Proof.
  revert lo hi. induction hs as [|x hs IH]; intros lo hi Hle; cbn [foldl].
  { split_and!; [lia|lia|constructor|by left|by left]. }
  specialize (IH (if x <? lo then x else lo) (if x >? hi then x else hi)).
  destruct (foldl _ _ hs) as [l h]. destruct (Z.ltb_spec x lo), (Z.gtb_spec x hi); try lia;
    (destruct IH as (? & ? & Hall & Hl & Hh); [lia|]);
    (split_and!; [lia|lia|constructor; [lia|done]| |]); rewrite elem_of_cons; intuition.
Qed.

Lemma mtp_by_height_lookup (ch : chain) (r b h : Z) :
  mtp_by_height (metas_of ch r b) !! h =
  if bool_decide (r ≤ h ≤ Z.min b (tip ch)) then Some (smtp ch h) else None.
Proof.
  unfold mtp_by_height, metas_of.
  set (n := Z.min b (tip ch) - r + 1).
  assert (Hgen : ∀ m : gmap Z Z,
    foldl (λ m meta, <[m_Height meta := m_MedianTimePast meta]> m) m
      ((λ h, mkMeta h (btime ch h) (smtp ch h)) <$> seqZ r n) !! h =
    if bool_decide (r ≤ h < r + n) then Some (smtp ch h) else m !! h).
  { destruct (Z.le_gt_cases n 0) as [Hn|Hn].
    { intros m. rewrite seqZ_nil by done. simpl. by rewrite bool_decide_false by lia. }
    clearbody n. revert r. pattern n. apply natlike_ind; [..|lia]; clear n Hn.
    { intros r m. rewrite seqZ_nil by done. simpl. by rewrite bool_decide_false by lia. }
    intros n Hn IH r m. rewrite <- Z.add_1_l, seqZ_app by lia.
    rewrite (seqZ_cons r 1) by lia. rewrite (seqZ_nil (Z.succ r)) by lia. cbn [app].
    rewrite fmap_cons. cbn [foldl m_Height m_MedianTimePast]. rewrite IH.
    destruct (decide (r = h)) as [->|Hne].
    - rewrite bool_decide_false, bool_decide_true by lia. by rewrite lookup_insert_eq.
    - rewrite lookup_insert_ne by done. do 2 case_bool_decide; try done; lia. }
  rewrite Hgen, lookup_empty. subst n. do 2 case_bool_decide; try done; lia.
Qed.

Lemma heights_answer_spec (ch : chain) (a b : Z) (heights : list Z) :
  chain_wf ch → 0 ≤ a ≤ b → b ≤ tip ch + 1 → Forall (λ h, a ≤ h ≤ b) heights →
  heights_answer (metas_of ch (readFromForMTP a) b) b heights = Ok (mtp_at ch <$> heights).
Proof.
  intros Hwf Hab Hb Hall. pose proof Hwf as (Htip & _). pose proof (readFrom_self a) as Hr.
  unfold heights_answer. rewrite mtp_by_height_lookup. unfold MedianTimeBlocks.
  assert (Hlow : ∀ h, a ≤ h ≤ b → (h ≤ tip ch ∨ h < 11) →
    default 0 (mtp_by_height (metas_of ch (readFromForMTP a) b) !! h) = mtp_at ch h).
  { intros h Hh Hc. rewrite mtp_by_height_lookup. unfold mtp_at.
    destruct (Z.leb_spec h (tip ch)); [by rewrite bool_decide_true by lia|].
    rewrite bool_decide_false, (proj2 (Z.leb_gt 11 h)), andb_false_r by lia. done. }
  rewrite Forall_forall in Hall.
  destruct (Z.leb_spec b (tip ch)) as [Ht|Ht].
  - rewrite bool_decide_false; [|by rewrite bool_decide_true by lia]. cbn [andb bindR]. f_equal.
    apply list_fmap_ext. intros i h Hi%list_elem_of_lookup_2. apply Hlow; [by apply Hall|].
    specialize (Hall h Hi). lia.
  - rewrite bool_decide_true by (by rewrite bool_decide_false by lia). cbn [andb].
    destruct (Z.geb_spec b 11).
    + rewrite missing_height by (done || (try apply readFrom_le); lia). cbn [bindR]. f_equal.
      apply list_fmap_ext. intros i h Hi%list_elem_of_lookup_2. specialize (Hall h Hi).
      destruct (decide (h = b)) as [->|]; [by rewrite lookup_insert_eq|].
      rewrite lookup_insert_ne by done. apply Hlow; [done|lia].
    + cbn [bindR]. f_equal. apply list_fmap_ext. intros i h Hi%list_elem_of_lookup_2.
      specialize (Hall h Hi). apply Hlow; lia.
Qed.

(** The write-back of a request neither panics nor changes its answer. *)
Lemma put_total covers (s : service) (r : request) :
  invariant covers s → req_wf r →
  ∃ c ok, putRangeIfGen (s_cache s) (req_from r) (req_write (s_chain s) r) (gen (s_cache s)) = Ok (c, ok).
Proof.
  intros Hinv Hr. destruct (req_write_ok (s_chain s) r (inv_chain covers s Hinv) Hr) as [Hl _].
  unfold putRangeIfGen. case_bool_decide; [eauto|]. rewrite Z.eqb_refl. cbn [negb].
  destruct (putRangeLocked_spec (s_cache s) (req_from r) (req_write (s_chain s) r)) as (c & -> & _);
    [destruct Hr; lia|lia|by eapply inv_size|]. cbn [bindR]. eauto.
Qed.

Section Answers.
  Variables (covers : bool) (s : service).
  Hypothesis Hinv : invariant covers s.
Let headers (a b : Z) : result (list BlockHeaderMeta) := Ok (metas_of (s_chain s) a b).

Lemma range_request (a b : Z) :
  0 ≤ a ≤ b → b ≤ tip (s_chain s) + 1 → Forall (λ h, b < h) (s_dirty s) →
  fst (GetMedianTimePastRange headers (Some (s_cache s)) a b)
    = Ok (mtp_at (s_chain s) <$> seqZ a (b - a + 1)).
Proof.
  intros Hab Hb Hd. pose proof (inv_chain covers s Hinv) as Hwf. pose proof Hwf as (_ & Htip & _).
  unfold GetMedianTimePastRange. rewrite (proj2 (Z.ltb_ge _ _)) by lia. cbn [mbind option_bind].
  destruct (getRange (s_cache s) a b) as [vs|] eqn:Eg.
  { simpl. f_equal. apply (getRange_coherent (s_cache s)); [by eapply reachable_coherent|done|done]. }
  unfold headers. cbn [wrapR bindR]. rewrite range_answer_spec by done. cbn [bindR from_option].
  destruct (put_total covers s (RangeReq a b) Hinv) as (c & ok & Hput); [split; simpl; lia|].
  unfold req_write in Hput. cbn [req_from req_to] in Hput. rewrite range_answer_spec in Hput by done.
  by rewrite Hput.
Qed.

Lemma heights_request (heights : list Z) :
  Forall (λ h, 0 ≤ h ≤ tip (s_chain s) + 1 ∧ Forall (λ d, h < d) (s_dirty s)) heights →
  fst (GetMedianTimePastForHeights headers (Some (s_cache s)) heights)
    = Ok (mtp_at (s_chain s) <$> heights).
Proof.
  intros Hall. pose proof (inv_chain covers s Hinv) as Hwf. pose proof Hwf as (_ & Htip & _).
  destruct heights as [|h0 hs]; [done|]. unfold GetMedianTimePastForHeights, min_max.
  pose proof (min_max_spec hs h0 h0 ltac:(lia)) as Hmm.
  destruct (foldl _ _ hs) as [a b]. destruct Hmm as (Ha & Hb & Hin & Hal & Hbl).
  rewrite Forall_forall in Hall.
  assert (Hal' : 0 ≤ a) by (destruct (Hall a) as [? _]; [rewrite elem_of_cons; naive_solver|lia]).
  assert (Hbl' : b ≤ tip (s_chain s) + 1 ∧ Forall (λ d, b < d) (s_dirty s))
    by (destruct (Hall b); [rewrite elem_of_cons; naive_solver|]; split; [lia|done]).
  destruct Hbl' as [Hbt Hd].
  assert (Hrange : Forall (λ h, a ≤ h ≤ b) (h0 :: hs)) by (constructor; [lia|done]).
  cbn [mbind option_bind]. destruct (getRange (s_cache s) a b) as [vs|] eqn:Eg.
  { cbn [fst]. f_equal. apply getRange_coherent with (ch := s_chain s) in Eg as ->;
      [|by eapply reachable_coherent|lia].
    apply list_fmap_ext. intros i h Hi%list_elem_of_lookup_2. rewrite Forall_forall in Hrange.
    specialize (Hrange h Hi). rewrite lookup_seqZ_fmap by lia. simpl. f_equal. lia. }
  unfold headers. cbn [wrapR bindR]. rewrite heights_answer_spec by (done || lia). cbn [bindR from_option].
  destruct (put_total covers s (HeightsReq a b) Hinv) as (c & ok & Hput); [split; simpl; lia|].
  unfold req_write in Hput. cbn [req_from req_to] in Hput. by rewrite Hput.
Qed.

End Answers.

(** C37: however requests, chain changes, truncations and resets interleave, a request
    below every height that changed and was not cut from the cache since is answered
    with the median times of the chain the store holds, whether the cache or the store
    answers it; a narrow and a wide request agree, and a write-back prepared from an
    older chain is refused by the generation.  If moreover every change left the chain
    below its block alone, then once the handlers have run every request is answered
    so.  A block that makes another branch the best chain is not such a change: the
    heights between the fork and that block stay cached ([AddBlock_reorg_stale]). *)
Theorem median_times_served (covers : bool) (ch : chain) (s : service) :
  chain_wf ch → rtc (step covers) (start ch) s →
  let headers a b := Ok (metas_of (s_chain s) a b) in
  let sound b := Forall (λ h, b < h) (s_dirty s) ∨ covers = true ∧ s_due s = [] in
  (∀ a b, 0 ≤ a ≤ b → b ≤ tip (s_chain s) + 1 → sound b →
     fst (GetMedianTimePastRange headers (Some (s_cache s)) a b)
       = Ok (mtp_at (s_chain s) <$> seqZ a (b - a + 1))) ∧
  (∀ heights, Forall (λ h, 0 ≤ h ≤ tip (s_chain s) + 1 ∧ sound h) heights →
     fst (GetMedianTimePastForHeights headers (Some (s_cache s)) heights)
       = Ok (mtp_at (s_chain s) <$> heights)).
Proof.
  intros Hwf Hs headers sound. pose proof (invariant_reachable covers ch s Hwf Hs) as Hinv.
  assert (Hsound : ∀ b, sound b → Forall (λ h, b < h) (s_dirty s)).
  { intros b [?|[Hc Hdue]]; [done|]. apply Forall_forall. intros f Hf.
    destruct (inv_covers _ _ Hinv Hc f Hf) as (h & Hh & _). rewrite Hdue in Hh. by apply elem_of_nil in Hh. }
  split.
  - intros a b Hab Hb Hsb. by apply (range_request covers); auto.
  - intros heights Hall. apply (heights_request covers); [done|].
    eapply Forall_impl; [exact Hall|]. intros h [? ?]. auto.
Qed.

(** ** Concrete inputs

    Two chains that fork at height 11, where the eleventh block decides the
    median of the next: five blocks before it are stamped ahead. *)
Definition ex_btime (x h : Z) : Z :=
  u32 (if h =? 11 then x else if (6 <=? h) && (h <=? 10) then 2000 + h else 1000 + h).

Definition ex_median (x h : Z) : Z :=
  if h <? 11 then 0
  else match CalculateMedianTimestamp (ex_btime x <$> seqZ (h - 11) 11) with Ok m => m | Err _ => 0 end.

Definition ex_chain (x tip : Z) : chain := mkChain tip (ex_btime x) (ex_median x).

Lemma ex_chain_wf x t : 0 ≤ t < 1000 → chain_wf (ex_chain x t).
Proof.
  intros Ht. split_and!; cbn [tip smtp btime ex_chain]; [lia|lia| |intros; apply u32_range].
  intros h Hh. unfold ex_median. by rewrite (proj2 (Z.ltb_lt _ _)) by lia.
Qed.

(** A request fills the cache, the chain grows by a block, and its truncation
    is still to come. *)
Definition ex_service : service :=
  mkService (ex_chain 1100 13) (mkCache (replicate 11 0 ++ [1005; 1100]) 0) [13] [13] ∅.

Lemma same_below_grow x : same_below 13 (ex_chain x 12) (ex_chain x 13).
Proof.
  intros k Hk. unfold mtp_at. cbn [tip ex_chain smtp].
  by rewrite !(proj2 (Z.leb_le _ _)) by lia.
Qed.

Lemma ex_reachable : rtc (step true) (start (ex_chain 1100 12)) ex_service.
Proof.
  eapply rtc_l.
  { apply (step_begin true _ 0%nat (RangeReq 11 12)); [done|split; simpl; lia]. }
  eapply rtc_l; [by apply (step_read true _ 0%nat (RangeReq 11 12) 0)|].
  eapply rtc_l.
  { apply (step_write true _ 0%nat (RangeReq 11 12) 0 [1005; 1100]
             (mkCache (replicate 11 0 ++ [1005; 1100]) 0) true); vm_compute; reflexivity. }
  eapply rtc_l.
  { apply (step_change true _ (ex_chain 1100 13) 13 13); [apply ex_chain_wf; lia|apply same_below_grow|lia..]. }
  cbn [s_chain s_cache s_due s_dirty s_readers start].
  rewrite insert_insert_eq, delete_insert_id by done. apply rtc_refl.
Qed.

(** Before the truncation, below the new block; after it, everywhere. *)
Lemma ex_settled : rtc (step true) (start (ex_chain 1100 12))
  (mkService (ex_chain 1100 13) (truncate (s_cache ex_service) 13) [] [] ∅).
Proof.
  eapply rtc_r; [exact ex_reachable|]. apply (step_truncate true ex_service 13 []); [done|simpl; lia].
Qed.

Lemma median_times_served_witness :
  fst (GetMedianTimePastRange (λ a b, Ok (metas_of (ex_chain 1100 13) a b)) (Some (s_cache ex_service)) 11 12)
    = Ok [1005; 1100] ∧
  fst (GetMedianTimePastForHeights (λ a b, Ok (metas_of (ex_chain 1100 13) a b))
         (Some (truncate (s_cache ex_service) 13)) [12; 13; 3]) = Ok [1100; ex_median 1100 13; 0].
Proof.
  destruct (median_times_served true (ex_chain 1100 12) ex_service (ex_chain_wf 1100 12 ltac:(lia)) ex_reachable)
    as [H1 _].
  destruct (median_times_served true (ex_chain 1100 12) _ (ex_chain_wf 1100 12 ltac:(lia)) ex_settled)
    as [_ H2]. split.
  - refine (eq_trans (H1 11 12 _ _ _) _); [lia|simpl; lia|left; repeat constructor|reflexivity].
  - refine (eq_trans (H2 [12; 13; 3] _) _); [|vm_compute; reflexivity].
    repeat constructor; simpl; try lia; right; done.
Defined.

(** ** A reorganisation through AddBlock

    [AddBlock] truncates the cache from the height of the new block.  When that
    block makes another branch the best chain, heights between the fork and the
    new block changed too, and stay cached. *)
Lemma AddBlock_reorg_stale :
  let filled := snd (GetMedianTimePastRange (λ a b, Ok (metas_of (ex_chain 1100 12) a b))
                       (Some newMTPCache) 12 12) in
  let after := flip truncate 13 <$> filled in
  fst (GetMedianTimePastRange (λ a b, Ok (metas_of (ex_chain 1500 13) a b)) after 12 12) = Ok [1100] ∧
  mtp_at (ex_chain 1500 13) 12 = 1500.
Proof. vm_compute. done. Qed.
