(* ===== verification/BlockTimestamps.v ===== *)
(** * The stored median time of a block

    stores/blockchain/sql/block_timestamp_cache.go and, of StoreBlock.go,
    [calculateMedianTimePastForHeight], [fetchBlockTimestampsByParentChain] and
    [calculateMTPFromTimestamps].  The cache is keyed by height; the walk
    follows parent ids, so only the walk tells branches apart. *)

From stdpp Require Import sorting.
From stdpp Require Import list.
From S2P Require Import Prelude External NBits BlockHeader MedianTime.

(** ** The cache: height to block time *)
Definition blockTimestampCacheCapacity : Z := 50.

Definition blockTimestampCache : Type := gmap Z Z.

Definition invalidateFromLocked (c : blockTimestampCache) (fromHeight : Z) : blockTimestampCache :=
  filter (λ kv, kv.1 < fromHeight) c.

Definition pruneLocked (c : blockTimestampCache) (currentHeight : Z) : blockTimestampCache :=
  let minKeep := if currentHeight >? blockTimestampCacheCapacity
                 then currentHeight - blockTimestampCacheCapacity else 0 in
  filter (λ kv, minKeep ≤ kv.1) c.

Definition Add (c : blockTimestampCache) (height blockTime : Z) : blockTimestampCache :=
  let c := if bool_decide (is_Some (c !! height)) then invalidateFromLocked c height else c in
  let c := <[height := blockTime]> c in
  if Z.of_nat (size c) >? blockTimestampCacheCapacity then pruneLocked c height else c.

Definition GetRange (c : blockTimestampCache) (startHeight endHeight : Z) : option (list Z) :=
  mapM (λ h, c !! h) (seqZ startHeight (endHeight - startHeight + 1)).

Definition Clear (_ : blockTimestampCache) : blockTimestampCache := ∅.

(** ** The parent walk

    The rows of the blocks table: block time and parent, by id.  The recursive
    query starts at a row and follows [parent_id], at most [count] rows deep. *)
Definition block_rows : Type := gmap Z (Z * Z).

Fixpoint walk_back (rows : block_rows) (id : Z) (depth : nat) : list Z :=
  match depth with
  | O => []
  | S depth =>
      match rows !! id with
      | None => []
      | Some (block_time, parent_id) => block_time :: walk_back rows parent_id depth
      end
  end.

Definition fetchBlockTimestampsByParentChain (rows : block_rows) (startBlockID : Z) (count : nat)
  : result (list Z) :=
  let timestamps := rev (walk_back rows startBlockID count) in
  if negb (bool_decide (length timestamps = count)) then Err (err ERR_STORAGE_ERROR)
  else Ok timestamps.

Definition calculateMTPFromTimestamps (timestamps : list Z) : result Z :=
  let? medianTime := wrapR ERR_STORAGE_ERROR (CalculateMedianTimestamp timestamps) in
  Ok (u32 medianTime).

Definition calculateMedianTimePastForHeight (params : ChainParams) (c : blockTimestampCache)
    (rows : block_rows) (height parentBlockID : Z) : result Z :=
  if height <? CSVHeight params then Ok 0 else
  if height <? 11 then Ok 0 else
  let startHeight := height - 11 in
  let endHeight := height - 1 in
  match GetRange c startHeight endHeight with
  | Some cached => calculateMTPFromTimestamps cached
  | None =>
      let? timestamps := fetchBlockTimestampsByParentChain rows parentBlockID 11 in
      calculateMTPFromTimestamps timestamps
  end.

(** * Theorems *)

(** The rows hold the branch: its tip is [id], and parents lead down it. *)
Fixpoint on_branch (rows : block_rows) (id : Z) (rev_times : list Z) : Prop :=
  match rev_times with
  | [] => True
  | t :: ts => ∃ parent, rows !! id = Some (t, parent) ∧ on_branch rows parent ts
  end.

(** A branch is the list of its block times, from genesis to the tip.  Every
    cached height is one of the branch, with its time. *)
Definition agrees (c : blockTimestampCache) (br : list Z) : Prop :=
  ∀ h t, c !! h = Some t → 0 ≤ h ∧ br !! Z.to_nat h = Some t.

Lemma walk_back_branch (rows : block_rows) (id : Z) (ts : list Z) (n : nat) :
  on_branch rows id ts → (n ≤ length ts)%nat → walk_back rows id n = take n ts.
Proof.
  revert id ts. induction n as [|n IH]; intros id ts Hb Hn; [done|].
  destruct ts as [|t ts]; [simpl in Hn; lia|]. destruct Hb as (parent & Hp & Hb).
  cbn [walk_back take]. rewrite Hp. f_equal. apply IH; [done|]. simpl in Hn. lia.
Qed.

Lemma GetRange_agrees (c : blockTimestampCache) (br : list Z) (a n : Z) (l : list Z) :
  agrees c br → 0 ≤ a → mapM (λ h, c !! h) (seqZ a n) = Some l →
  l = take (Z.to_nat n) (drop (Z.to_nat a) br).
Proof.
  intros Hc Ha Hm. apply mapM_Some in Hm.
  assert (Hlen : length l = Z.to_nat n)
    by (apply Forall2_length in Hm; by rewrite length_seqZ in Hm).
  assert (Hl : ∀ i x, l !! i = Some x → br !! (Z.to_nat a + i)%nat = Some x).
  { intros i x Hi. destruct (Forall2_lookup_r _ _ _ _ _ Hm Hi) as (h & Hh & Hch).
    apply lookup_seqZ in Hh as [-> ?]. apply Hc in Hch as [_ Hch].
    by replace (Z.to_nat a + i)%nat with (Z.to_nat (a + Z.of_nat i)) by lia. }
  apply list_eq. intros i. destruct (decide (i < length l)%nat) as [Hi|Hi].
  - destruct (lookup_lt_is_Some_2 l i Hi) as [x Hx]. rewrite Hx. symmetry.
    rewrite lookup_take_lt, lookup_drop by lia. by apply Hl.
  - rewrite lookup_ge_None_2 by lia. rewrite lookup_take_ge; [done|lia].
Qed.

Lemma rev_take_last {A} (l : list A) (n : nat) : (n ≤ length l)%nat →
  rev (take n (rev l)) = drop (length l - n) l.
Proof. intros Hn. by rewrite firstn_rev, rev_involutive. Qed.

(** Dropping entries keeps agreement. *)
Lemma agrees_filter (P : Z * Z → Prop) `{∀ x, Decision (P x)} (c : blockTimestampCache) (br : list Z) :
  agrees c br → agrees (filter P c) br.
Proof. intros Hc h t Ht%map_lookup_filter_Some_1_1. by apply Hc. Qed.

Lemma agrees_insert (c : blockTimestampCache) (br : list Z) (t : Z) :
  agrees c br → agrees (<[Z.of_nat (length br) := t]> c) (br ++ [t]).
Proof.
  intros Hc h x [[<- <-]|[Hne Hx]]%lookup_insert_Some.
  - split; [lia|]. by rewrite Nat2Z.id, lookup_app_r, Nat.sub_diag.
  - apply Hc in Hx as [Hh Hx]. split; [done|].
    rewrite lookup_app_l; [done|]. by apply lookup_lt_Some in Hx.
Qed.

Lemma agrees_evict (c : blockTimestampCache) (br : list Z) (h : nat) :
  agrees c br → agrees (invalidateFromLocked c (Z.of_nat h)) (take h br).
Proof.
  intros Hc k t [Hk Hlt]%map_lookup_filter_Some. simpl in Hlt. apply Hc in Hk as [Hk0 Hk].
  split; [done|]. rewrite lookup_take_lt; [done|lia].
Qed.

Lemma agrees_pruned (c : blockTimestampCache) (br : list Z) (h : Z) :
  agrees c br →
  agrees (if Z.of_nat (size c) >? blockTimestampCacheCapacity then pruneLocked c h else c) br.
Proof. intros Hc. case_match; [by apply agrees_filter|done]. Qed.

(** A block is stored as a child of a block of the branch that was stored last:
    of its tip, or lower, where its height must still be cached.  [Clear] may
    happen at any time. *)
Inductive stored : blockTimestampCache → list Z → Prop :=
  | stored_clear br : stored ∅ br
  | stored_extend c br t :
      stored c br → stored (Add c (Z.of_nat (length br)) t) (br ++ [t])
  | stored_fork c br (h : nat) t :
      stored c br → (h < length br)%nat → is_Some (c !! Z.of_nat h) →
      stored (Add c (Z.of_nat h) t) (take h br ++ [t]).

Lemma stored_agrees (c : blockTimestampCache) (br : list Z) : stored c br → agrees c br.
Proof.
  induction 1 as [br|c br t Hs IH|c br h t Hs IH Hh Hc].
  - intros h t Hh. exfalso. by apply (lookup_empty_Some h t) in Hh.
  - unfold Add. apply agrees_pruned, agrees_insert.
    rewrite bool_decide_false; [done|]. intros [x Hx]. apply IH in Hx as [_ Hx].
    apply lookup_lt_Some in Hx. lia.
  - unfold Add. rewrite bool_decide_true by done. apply agrees_pruned.
    assert (Hl : Z.of_nat h = Z.of_nat (length (take h br))) by (rewrite length_take; lia).
    pose proof (agrees_insert _ _ t (agrees_evict c br h IH)) as Ha. by rewrite <-Hl in Ha.
Qed.

(** A block's stored median time is that of the eleven blocks below it on its
    own branch, whichever of the cache and the parent walk supplies them, when
    its parent is the tip of the branch stored last; it is 0 before CSV and
    below height eleven. *)
Theorem calculateMedianTimePastForHeight_spec (params : ChainParams) (c : blockTimestampCache)
    (br : list Z) (rows : block_rows) (parent : Z) :
  stored c br → on_branch rows parent (rev br) →
  let height := Z.of_nat (length br) in
  calculateMedianTimePastForHeight params c rows height parent =
    if (height <? CSVHeight params) || (height <? 11) then Ok 0
    else calculateMTPFromTimestamps (drop (length br - 11) br).
Proof.
  intros Hs Hb height. unfold calculateMedianTimePastForHeight.
  destruct (height <? CSVHeight params); [done|]. cbn [orb].
  destruct (Z.ltb_spec height 11) as [|Hh]; [done|]. unfold GetRange.
  destruct (mapM _ _) as [l|] eqn:El.
  - apply (GetRange_agrees c br) in El as ->; [|by apply stored_agrees|lia].
    replace (Z.to_nat (height - 11)) with (length br - 11)%nat by lia.
    rewrite take_ge; [done|]. rewrite length_drop. lia.
  - unfold fetchBlockTimestampsByParentChain.
    rewrite (walk_back_branch _ _ (rev br)) by (done || (rewrite length_rev; lia)).
    rewrite rev_take_last by lia. rewrite bool_decide_true by (rewrite length_drop; lia). done.
Qed.

(** ** Concrete inputs *)
Definition ex_br : list Z := seqZ 1000 12.

(** Rows 0 to 11 hold the branch; row 12 is a second block of height 12 and row
    13 a first one, both children of row 11. *)
Definition ex_rows : block_rows :=
  list_to_map (imap (λ i t, (Z.of_nat i, (t, Z.of_nat i - 1))) ex_br) ∪
  {[12 := (5000, 11); 13 := (1012, 11)]}.

Lemma calculateMedianTimePastForHeight_spec_witness :
  calculateMedianTimePastForHeight ex_params ∅ ex_rows 12 11 = Ok 1006.
Proof.
  refine (eq_trans (calculateMedianTimePastForHeight_spec ex_params ∅ ex_br ex_rows 11
    (stored_clear ex_br) _) _); [|vm_compute; reflexivity].
  repeat (eexists; split; [vm_compute; reflexivity|]). exact I.
Defined.

(** ** Two blocks at one height

    The cache holds one time per height.  After the siblings at height 12 are
    stored, first 1012 and then 5000, a child of the first one is given a median
    over the second one's time.  (Here it moves the sixth of eleven because the
    other blocks are stamped ahead.) *)
Definition ex_ahead : list Z := [1000; 1001; 1002; 1003; 1004; 1005; 1006; 7001; 7002; 7003; 7004; 7005].

Definition ex_sibling_rows : block_rows :=
  list_to_map (imap (λ i t, (Z.of_nat i, (t, Z.of_nat i - 1))) ex_ahead) ∪
  {[12 := (5000, 11); 13 := (1012, 11)]}.

Lemma sibling_timestamp_mixed :
  let c := foldl (λ c '(h, t), Add c h t) ∅
             (imap (λ i t, (Z.of_nat i, t)) ex_ahead ++ [(12, 1012); (12, 5000)]) in
  calculateMedianTimePastForHeight ex_params c ex_sibling_rows 13 13 = Ok 5000 ∧
  calculateMedianTimePastForHeight ex_params (Clear c) ex_sibling_rows 13 13 = Ok 1012.
Proof. vm_compute. done. Qed.
