(* ===== verification/CandidateTime.v ===== *)
(** * The timestamp of a mining candidate

    services/blockassembly/candidate_time.go: the floor at median time past + 1
    of the parent chain, its two-slot memo, the authenticated batch fetch with
    the hash-keyed walk as fallback, and of Server.go the check of a submitted
    nTime.  The wall clock and the blockchain client are arguments; log lines
    and the flags that latch them are left out. *)

From stdpp Require Import list.
From S2P Require Import Prelude External NBits BlockHeader MedianTime.

(** seconds of [maxFutureBlockTime] *)
Definition maxFutureBlockTime : Z := 7200.

Definition MedianTimeBlocks : nat := 11.

Record mtpFloorEntry := mkEntry { parent : Hash; minTime : Z }.

(** [mtpFloorMemo [2]atomic.Pointer] and [mtpFloorMemoNext]. *)
Record BlockAssembler := mkAssembler {
  slot0 : option mtpFloorEntry;
  slot1 : option mtpFloorEntry;
  mtpFloorMemoNext : Z;
}.

(** The two calls of the blockchain client.  A pointer it returns may be nil. *)
Record BlockchainClient := mkClient {
  GetBlockHeaders : Hash → Z → result (list (option BlockHeader));
  GetBlockHeader : Hash → result (option BlockHeader);
}.

(** ** The memo *)
Definition holds_parent (h : Hash) (slot : option mtpFloorEntry) : bool :=
  match slot with Some cur => bool_decide (parent cur = h) | None => false end.

Definition memoizedMtpFloor (b : BlockAssembler) (parentHash : Hash) : option mtpFloorEntry :=
  if holds_parent parentHash (slot0 b) then slot0 b
  else if holds_parent parentHash (slot1 b) then slot1 b
  else None.

Definition store_slot (b : BlockAssembler) (slot : Z) (entry : mtpFloorEntry) : BlockAssembler :=
  if slot =? 0 then mkAssembler (Some entry) (slot1 b) (mtpFloorMemoNext b)
  else mkAssembler (slot0 b) (Some entry) (mtpFloorMemoNext b).

Definition placeMtpFloor (b : BlockAssembler) (entry : mtpFloorEntry) : BlockAssembler :=
  if holds_parent (parent entry) (slot0 b) then store_slot b 0 entry
  else if holds_parent (parent entry) (slot1 b) then store_slot b 1 entry
  else
    let next := u64 (mtpFloorMemoNext b + 1) in
    store_slot (mkAssembler (slot0 b) (slot1 b) next) (next mod 2) entry.

Definition generateSupported (params : option ChainParams) : bool :=
  match params with Some params => GenerateSupported params | None => false end.

Definition isChainStart (header : BlockHeader) : bool :=
  bool_decide (HashPrevBlock header = zero_hash).

Section Candidate.
  Context {CH : Chainhash} {SC : SafeConversion}.

(** ** Reading the parent chain *)
Definition fetchParentChainHeaders (client : BlockchainClient) (parentHash : Hash)
  : result (list (option BlockHeader)) :=
  wrapR ERR_PROCESSING (GetBlockHeaders client parentHash (Z.of_nat MedianTimeBlocks)).

(** The loop over [headers[1:]]. *)
Fixpoint verify_links (child : BlockHeader) (headers : list (option BlockHeader)) : result unit :=
  match headers with
  | [] => Ok ()
  | None :: _ => Err (err ERR_PROCESSING)
  | Some header :: headers =>
      if negb (bool_decide (HashPrevBlock child = header_hash header))
      then Err (err ERR_PROCESSING) else verify_links header headers
  end.

Definition verifyParentChainRun (parentHash : Hash) (headers : list (option BlockHeader))
  : result unit :=
  match headers with
  | Some first :: rest =>
      if negb (bool_decide (header_hash first = parentHash)) then Err (err ERR_PROCESSING) else
      if bool_decide (MedianTimeBlocks < length headers)%nat then Err (err ERR_PROCESSING) else
      let? _ := verify_links first rest in
      if bool_decide (length headers < MedianTimeBlocks)%nat &&
         negb (from_option isChainStart false (default None (last headers)))
      then Err (err ERR_PROCESSING) else Ok ()
  | _ => Err (err ERR_PROCESSING)
  end.

(** The loop, with [n] headers still to read below [cur]. *)
Fixpoint walk_from (client : BlockchainClient) (n : nat) (cur : BlockHeader)
  : result (list BlockHeader) :=
  match n with
  | O => Ok []
  | S n =>
      if isChainStart cur then Ok [] else
      let? header := wrapR ERR_PROCESSING (GetBlockHeader client (HashPrevBlock cur)) in
      match header with
      | None => Err (err ERR_PROCESSING)
      | Some header =>
          let? rest := walk_from client n header in
          Ok (header :: rest)
      end
  end.

Definition walkParentChain (client : BlockchainClient) (startHeader : BlockHeader) (depth : nat)
  : result (list BlockHeader) :=
  let? rest := walk_from client (pred depth) startHeader in
  Ok (startHeader :: rest).

(** ** The floor of one parent *)

(** The run the median is taken over: the batch if it verifies, else the walk.
    A verified batch has no nil header. *)
Definition floor_run (client : BlockchainClient) (parentHeader : BlockHeader) (parentHash : Hash)
  : option (list BlockHeader) :=
  match fetchParentChainHeaders client parentHash with
  | Err _ => None
  | Ok headers =>
      match verifyParentChainRun parentHash headers with
      | Ok _ => Some (omap id headers)
      | Err _ =>
          match walkParentChain client parentHeader MedianTimeBlocks with
          | Ok walked => Some walked
          | Err _ => None
          end
      end
  end.

Definition computeMtpFloor (client : BlockchainClient) (b : BlockAssembler)
    (parentHeader : BlockHeader) (parentHash : Hash) : BlockAssembler * option mtpFloorEntry :=
  match floor_run client parentHeader parentHash with
  | None => (b, None)
  | Some run =>
      match CalculateMedianTimestamp (Timestamp <$> run) with
      | Err _ => (b, None)
      | Ok medianTimestamp =>
          let entry := mkEntry parentHash (i64 (medianTimestamp + 1)) in
          (placeMtpFloor b entry, Some entry)
      end
  end.

(** [cancelled]: the caller's context ends before the flight does.  The flight
    still completes and stores what it found. *)
Definition mtpFloor (client : BlockchainClient) (b : BlockAssembler)
    (parentHeader : BlockHeader) (parentHash : Hash) (cancelled : bool)
  : BlockAssembler * option mtpFloorEntry :=
  match memoizedMtpFloor b parentHash with
  | Some entry => (b, Some entry)
  | None =>
      let '(b, entry) := computeMtpFloor client b parentHeader parentHash in
      (b, if cancelled then None else entry)
  end.

(** ** The candidate's time, and the check of a submitted one *)
Definition candidateTime (timeNow : Z) (params : option ChainParams) (client : BlockchainClient)
    (b : BlockAssembler) (parentHeader : option BlockHeader) (cancelled : bool)
  : BlockAssembler * result Z :=
  match parentHeader with
  | None => (b, Err (err ERR_PROCESSING))
  | Some parentHeader =>
      let parentHash := header_hash parentHeader in
      let '(b, entry) := mtpFloor client b parentHeader parentHash cancelled in
      match entry with
      | None => (b, Ok timeNow)
      | Some entry =>
          let maxTime := i64 (timeNow + maxFutureBlockTime) in
          if minTime entry >? maxTime then
            if generateSupported params then (b, Ok timeNow) else (b, Err (err ERR_PROCESSING))
          else if timeNow <? minTime entry then (b, Ok (minTime entry)) else (b, Ok timeNow)
      end
  end.

(** The pair of the Go function: the floor, if it is known. *)
Definition MinCandidateTime (params : option ChainParams) (b : BlockAssembler)
    (parentHash : option Hash) : option Z :=
  match parentHash with
  | None => None
  | Some parentHash =>
      if generateSupported params then None else
      minTime <$> memoizedMtpFloor b parentHash
  end.

(** submitMiningSolution's guard on the miner's nTime. *)
Definition submitted_time_check (params : option ChainParams) (b : BlockAssembler)
    (hashPrevBlock : Hash) (nTime : Z) : result unit :=
  match MinCandidateTime params b (Some hashPrevBlock) with
  | Some minTime => if nTime <? minTime then Err (err ERR_PROCESSING) else Ok ()
  | None => Ok ()
  end.

End Candidate.

(** * Theorems

    [stored] is the set of headers the blockchain service may return: no two of
    them have one hash, none hashes to zero, their fields fit.  Nothing is
    assumed of the order, the number or the linkage of a batch. *)
Section Stored.
  Context {CH : Chainhash} {SC : SafeConversion}.
  Context (stored : list BlockHeader).

Definition no_collisions : Prop :=
  Forall header_wf stored ∧ Forall (λ h, header_hash h ≠ zero_hash) stored ∧
  ∀ h1 h2, h1 ∈ stored → h2 ∈ stored → header_hash h1 = header_hash h2 → h1 = h2.

Definition answers_stored (client : BlockchainClient) : Prop :=
  (∀ p n l h, GetBlockHeaders client p n = Ok l → Some h ∈ l → h ∈ stored) ∧
  (∀ p h, GetBlockHeader client p = Ok (Some h) → h ∈ stored ∧ header_hash h = p).

(** The median window below and including the block of hash [p]. *)
Definition window_run (p : Hash) (hs : list BlockHeader) : Prop :=
  hs ≠ [] ∧ linked_from p hs ∧ Forall (.∈ stored) hs ∧
  (length hs = 11%nat ∨ (length hs < 11)%nat ∧ reaches_genesis hs).

Lemma reaches_genesis_cons h hs :
  hs ≠ [] → reaches_genesis (h :: hs) ↔ reaches_genesis hs.
Proof. intros Hne. unfold reaches_genesis. by destruct hs. Qed.

Lemma isChainStart_spec h : isChainStart h = true ↔ HashPrevBlock h = zero_hash.
Proof. apply bool_decide_eq_true. Qed.

(** Two linked runs from one hash agree up to the end of either. *)
Lemma linked_unique p hs1 hs2 :
  no_collisions → linked_from p hs1 → linked_from p hs2 →
  Forall (.∈ stored) hs1 → Forall (.∈ stored) hs2 →
  hs1 `prefix_of` hs2 ∨ hs2 `prefix_of` hs1.
Proof.
  intros (_ & _ & Hinj). revert p hs2.
  induction hs1 as [|a hs1 IH]; intros p hs2 H1 H2 F1 F2; [left; apply prefix_nil|].
  destruct hs2 as [|b hs2]; [right; apply prefix_nil|].
  destruct H1 as [Ha H1], H2 as [Hb H2].
  apply Forall_cons in F1 as [Fa F1], F2 as [Fb F2].
  assert (a = b) as <- by (apply Hinj; congruence).
  destruct (IH _ _ H1 H2 F1 F2); [left|right]; by apply prefix_cons.
Qed.

(** Nothing stored is linked below genesis. *)
Lemma prefix_at_genesis p hs1 hs2 :
  no_collisions → hs1 ≠ [] → hs1 `prefix_of` hs2 → linked_from p hs2 →
  Forall (.∈ stored) hs2 → reaches_genesis hs1 → hs1 = hs2.
Proof.
  intros (_ & Hz & _) Hne [k ->]. revert p Hne.
  induction hs1 as [|a hs1 IH]; intros p Hne Hl Hf Hg; [done|].
  destruct Hl as [_ Hl]. apply Forall_cons in Hf as [_ Hf]. destruct hs1 as [|b hs1].
  - unfold reaches_genesis in Hg. simpl in Hg. injection Hg as Hg. rewrite Hg in Hl.
    destruct k as [|c k]; [done|]. destruct Hl as [Hc _].
    apply Forall_cons in Hf as [Hc' _]. by destruct (proj1 (Forall_forall _ _) Hz c Hc').
  - cbn [app]. f_equal. by apply (IH (HashPrevBlock a)).
Qed.

Lemma window_run_unique p hs1 hs2 :
  no_collisions → window_run p hs1 → window_run p hs2 → hs1 = hs2.
Proof.
  intros Hnc (N1 & L1 & F1 & E1) (N2 & L2 & F2 & E2).
  assert (Hwlog : ∀ hs hs', hs ≠ [] → hs `prefix_of` hs' → linked_from p hs' →
    Forall (.∈ stored) hs' → (length hs' ≤ 11)%nat →
    length hs = 11%nat ∨ (length hs < 11)%nat ∧ reaches_genesis hs → hs = hs').
  { intros hs hs' Hne Hp Hl Hf Hle [H11|[_ Hg]].
    - apply prefix_length_eq; [done|lia].
    - by apply (prefix_at_genesis p). }
  destruct (linked_unique p hs1 hs2); try done.
  - apply Hwlog; try done. lia.
  - symmetry. apply Hwlog; try done. lia.
Qed.

(** ** Both ways of reading the parent chain give the window *)
Lemma verify_links_Ok a l u : verify_links a l = Ok u →
  ∃ hs, l = Some <$> hs ∧ linked_from (HashPrevBlock a) hs.
Proof.
  revert a. induction l as [|[h|] l IH]; intros a; cbn [verify_links]; [by exists []| |done].
  case_bool_decide as Hh; [|done]. cbn [negb]. intros (hs & -> & Hl)%IH.
  exists (h :: hs). done.
Qed.

Lemma omap_id_Some {A} (l : list A) : omap id (Some <$> l) = l.
Proof. induction l; [done|]. cbn. by f_equal. Qed.

Lemma verify_run_window p l u :
  verifyParentChainRun p l = Ok u → (∀ h, Some h ∈ l → h ∈ stored) →
  ∃ hs, l = Some <$> hs ∧ window_run p hs.
Proof.
  unfold verifyParentChainRun. intros H Hs. destruct l as [|[a|] l]; [done| |done].
  case_bool_decide as Ha; [|done]. cbn [negb] in H.
  case_bool_decide as Hlen; [done|]. apply bindR_Ok in H as ([] & Hv & H).
  apply verify_links_Ok in Hv as (hs & -> & Hl). exists (a :: hs). split; [done|].
  unfold MedianTimeBlocks in *. change (Some a :: _) with (Some <$> a :: hs) in *.
  rewrite length_fmap in Hlen, H. rewrite fmap_last in H.
  split; [done|]. split; [done|]. split.
  { apply Forall_forall. intros x Hx. apply Hs. by apply list_elem_of_fmap_2. }
  destruct (decide (length (a :: hs) = 11%nat)) as [|H11]; [by left|right].
  split; [lia|]. rewrite bool_decide_true in H by lia. unfold reaches_genesis.
  destruct (last (a :: hs)) as [x|]; [|done]. simpl in *.
  unfold isChainStart in H. case_bool_decide; [by f_equal|done].
Qed.

Lemma walk_from_run client n cur hs :
  answers_stored client → walk_from client n cur = Ok hs →
  linked_from (HashPrevBlock cur) hs ∧ Forall (.∈ stored) hs ∧
  (length hs = n ∨ (length hs < n)%nat ∧ reaches_genesis (cur :: hs)).
Proof.
  intros [_ Hk]. revert cur hs. induction n as [|n IH]; intros cur hs; cbn [walk_from].
  - intros [= <-]. split_and!; [done|by constructor|by left].
  - destruct (isChainStart cur) eqn:Es.
    + apply isChainStart_spec in Es. intros [= <-]. split_and!; [done..|right].
      split; [simpl; lia|]. unfold reaches_genesis. simpl. by rewrite Es.
    + destruct (GetBlockHeader _ _) as [[h|]|] eqn:Eh; [|done..]. cbn [wrapR bindR].
      apply Hk in Eh as [Hst Hh]. intros (rest & Hr & [= <-])%bindR_Ok.
      apply IH in Hr as (Hl & Hf & Hn). split_and!; [done|by constructor|].
      rewrite reaches_genesis_cons by done. simpl. destruct Hn as [|[? ?]]; [left|right]; auto with lia.
Qed.

Lemma floor_run_window client ph hs :
  answers_stored client → ph ∈ stored →
  floor_run client ph (header_hash ph) = Some hs → window_run (header_hash ph) hs.
Proof.
  intros Hc Hph. unfold floor_run, fetchParentChainHeaders.
  destruct (GetBlockHeaders _ _ _) as [l|] eqn:Eb; [|done]. cbn [wrapR].
  destruct (verifyParentChainRun _ _) as [u|] eqn:Ev.
  - intros [= <-]. apply verify_run_window in Ev as (hs & -> & Hw).
    + by rewrite omap_id_Some.
    + intros h. by apply (proj1 Hc _ _ _ _ Eb).
  - unfold walkParentChain, MedianTimeBlocks. cbn [pred].
    destruct (walk_from _ _ _) as [rest|] eqn:Er; [|done]. cbn [bindR]. intros [= <-].
    apply walk_from_run in Er as (Hl & Hf & Hn); [|done].
    split; [done|]. split; [done|]. split; [by constructor|].
    simpl. destruct Hn as [|[? ?]]; [left|right]; auto with lia.
Qed.

(** ** The memo holds floors *)
Definition floor_ok (e : mtpFloorEntry) : Prop :=
  ∃ hs, window_run (parent e) hs ∧
    CalculateMedianTimestamp (Timestamp <$> hs) = Ok (minTime e - 1).

Definition slot_ok (slot : option mtpFloorEntry) : Prop := ∀ e, slot = Some e → floor_ok e.

Definition memo_ok (b : BlockAssembler) : Prop := slot_ok (slot0 b) ∧ slot_ok (slot1 b).

Lemma memoized_ok b p e : memo_ok b → memoizedMtpFloor b p = Some e → parent e = p ∧ floor_ok e.
Proof.
  intros [H0 H1]. unfold memoizedMtpFloor, holds_parent.
  destruct (slot0 b) as [e0|] eqn:E0; [case_bool_decide; [intros [= <-]; split; auto|]|];
    (destruct (slot1 b) as [e1|] eqn:E1; [case_bool_decide; [intros [= <-]; split; auto|done]|done]).
Qed.

Lemma place_ok b e : memo_ok b → floor_ok e → memo_ok (placeMtpFloor b e).
Proof.
  intros [H0 H1] He. assert (Hs : slot_ok (Some e)) by (by intros ? [= <-]).
  unfold placeMtpFloor, store_slot. repeat case_match; by split.
Qed.

Lemma memoized_place b e : memoizedMtpFloor (placeMtpFloor b e) (parent e) = Some e.
Proof.
  assert (Hs : holds_parent (parent e) (Some e) = true) by (by apply bool_decide_eq_true).
  unfold placeMtpFloor, memoizedMtpFloor, store_slot.
  destruct (holds_parent _ (slot0 b)) eqn:E0; cbn [Z.eqb slot0 slot1]; [by rewrite Hs|].
  destruct (holds_parent _ (slot1 b)) eqn:E1; cbn [Z.eqb slot0 slot1]; [by rewrite E0, Hs|].
  destruct (_ =? 0); cbn [slot0 slot1]; by rewrite ?E0, Hs.
Qed.

Lemma median_stored_u32 p hs m :
  no_collisions → window_run p hs → CalculateMedianTimestamp (Timestamp <$> hs) = Ok m → is_u32 m.
Proof.
  intros (Hwf & _) (_ & _ & Hf & _) Hm. apply median_In, list_elem_of_fmap in Hm as (h & -> & Hh).
  rewrite Forall_forall in Hwf, Hf. by apply Hwf, Hf.
Qed.

Lemma computeMtpFloor_ok client b ph b' e :
  no_collisions → answers_stored client → ph ∈ stored →
  computeMtpFloor client b ph (header_hash ph) = (b', e) → memo_ok b →
  memo_ok b' ∧ ∀ e', e = Some e' →
    floor_ok e' ∧ parent e' = header_hash ph ∧ memoizedMtpFloor b' (header_hash ph) = Some e'.
Proof.
  intros Hnc Hc Hph. unfold computeMtpFloor.
  destruct (floor_run _ _ _) as [run|] eqn:Er; [|by intros [= <- <-]].
  apply floor_run_window in Er; [|done..].
  destruct (CalculateMedianTimestamp _) as [m|] eqn:Em; [|by intros [= <- <-]].
  intros [= <- <-] Hb. pose proof (median_stored_u32 _ _ _ Hnc Er Em) as Hm.
  set (entry := mkEntry _ _). assert (He : floor_ok entry).
  { exists run. split; [done|]. unfold entry. cbn [minTime]. rewrite i64_small by lia.
    by rewrite Z.add_simpl_r. }
  split; [by apply place_ok|]. intros e' [= <-]. split_and!; [done..|].
  apply (memoized_place b entry).
Qed.

Lemma mtpFloor_ok client b ph cancelled b' e :
  no_collisions → answers_stored client → ph ∈ stored →
  mtpFloor client b ph (header_hash ph) cancelled = (b', e) → memo_ok b →
  memo_ok b' ∧ ∀ e', e = Some e' →
    floor_ok e' ∧ parent e' = header_hash ph ∧ memoizedMtpFloor b' (header_hash ph) = Some e'.
Proof.
  intros Hnc Hc Hph. unfold mtpFloor.
  destruct (memoizedMtpFloor b _) as [e0|] eqn:Em.
  - intros [= <- <-] Hb. split; [done|]. intros e' [= <-].
    destruct (memoized_ok _ _ _ Hb Em) as [Hp Hf]. done.
  - destruct (computeMtpFloor _ _ _ _) as [b1 e1] eqn:Ec. intros [= <- <-] Hb.
    destruct (computeMtpFloor_ok _ _ _ _ _ Hnc Hc Hph Ec Hb) as [Hb1 He].
    split; [done|]. intros e' H. destruct cancelled; [done|]. by apply He.
Qed.

(** A known floor is one above the median of the parent's window. *)
Lemma floor_ok_median e hs m :
  no_collisions → floor_ok e → window_run (parent e) hs →
  CalculateMedianTimestamp (Timestamp <$> hs) = Ok m → minTime e = m + 1.
Proof.
  intros Hnc (hs' & Hw & Hm') Hw' Hm.
  assert (hs' = hs) as -> by (by eapply window_run_unique).
  rewrite Hm in Hm'. injection Hm' as ->. lia.
Qed.

(** A poll of a miner, with whatever clock, answers and cancellation. *)
Inductive poll (params : option ChainParams) : BlockAssembler → BlockAssembler → Prop :=
  | poll_step now client b ph cancelled :
      answers_stored client → ph ∈ stored →
      poll params b (fst (candidateTime now params client b (Some ph) cancelled)).

Definition newAssembler : BlockAssembler := mkAssembler None None 0.

Lemma candidateTime_memo now params client b ph cancelled :
  fst (candidateTime now params client b (Some ph) cancelled) =
  fst (mtpFloor client b ph (header_hash ph) cancelled).
Proof.
  unfold candidateTime. destruct (mtpFloor _ _ _ _ _) as [b' [e|]]; [|done].
  repeat case_match; done.
Qed.

Lemma memo_reachable params b :
  no_collisions → rtc (poll params) newAssembler b → memo_ok b.
Proof.
  intros Hnc Hr. assert (H0 : memo_ok newAssembler) by (by split).
  revert H0. generalize newAssembler Hr. clear Hr.
  induction 1 as [b|b b' b'' [now client b0 ph cancelled Hc Hph] _ IH]; [done|].
  intros Hb. apply IH. rewrite candidateTime_memo.
  destruct (mtpFloor _ _ _ _ _) as [b1 e] eqn:E. cbn [fst].
  by destruct (mtpFloor_ok _ _ _ _ _ _ Hnc Hc Hph E Hb).
Qed.

Lemma window_is_chain p hs :
  window_run p hs → hs ≠ [] ∧ linked_from p hs ∧ ((11 ≤ length hs)%nat ∨ reaches_genesis hs) ∧
  take 11 hs = hs.
Proof.
  intros (Hne & Hl & _ & Hlen). split_and!; [done..| |].
  - destruct Hlen as [->|[_ Hg]]; [left; lia|by right].
  - apply take_ge. lia.
Qed.

(** The outcomes of a poll, by the floor it found. *)
Lemma candidateTime_cases now params client b ph cancelled b' e :
  is_u32 now → mtpFloor client b ph (header_hash ph) cancelled = (b', e) →
  candidateTime now (Some params) client b (Some ph) cancelled =
  (b', match e with
       | None => Ok now
       | Some e =>
           if minTime e <=? now + 7200 then Ok (Z.max now (minTime e))
           else if GenerateSupported params then Ok now else Err (err ERR_PROCESSING)
       end).
Proof.
  intros Hnow He. unfold candidateTime, maxFutureBlockTime, generateSupported. rewrite He.
  destruct e as [e|]; [|done]. rewrite i64_small by lia.
  destruct (Z.gtb_spec (minTime e) (now + 7200)), (Z.leb_spec (minTime e) (now + 7200)); try lia.
  - by destruct (GenerateSupported params).
  - destruct (Z.ltb_spec now (minTime e)); do 2 f_equal; lia.
Qed.

(** C38: a candidate's timestamp is one the validator accepts: unless the floor
    could not be read (then it is the wall clock), a header stamped with it
    passes the contextual checks on the parent's chain, and the floor is
    memoized for the submit guard.  The poll fails only when no timestamp lies
    between the median and the two-hour bound. *)
Theorem candidateTime_accepted (SCS : SafeConversionSpec SC)
    (now : Z) (params : ChainParams) (client : BlockchainClient) (b b' : BlockAssembler)
    (ph : BlockHeader) (cancelled : bool) (r : result Z) (hs : list BlockHeader) (m : Z) :
  no_collisions → answers_stored client → ph ∈ stored →
  is_u32 now → is_u32 (now + 7200) →
  rtc (poll (Some params)) newAssembler b →
  window_run (header_hash ph) hs → CalculateMedianTimestamp (Timestamp <$> hs) = Ok m →
  candidateTime now (Some params) client b (Some ph) cancelled = (b', r) →
  match r with
  | Err _ => GenerateSupported params = false ∧ ∀ t, ¬ (m < t ≤ now + 7200)
  | Ok t =>
      (t = now ∧ snd (mtpFloor client b ph (header_hash ph) cancelled) = None) ∨
      (memoizedMtpFloor b' (header_hash ph) = Some (mkEntry (header_hash ph) (m + 1)) ∧
       ∀ hdr height, HashPrevBlock hdr = header_hash ph → Timestamp hdr = t →
         CheckBlockVersion (Version hdr) height params = Ok () →
         snd (CheckHeaderContextual now params hdr height (FullHeader <$> hs)) = Ok ())
  end.
Proof.
  intros Hnc Hc Hph Hnow Hnow' Hb Hw Hm Hr. apply memo_reachable in Hb; [|done].
  destruct (mtpFloor client b ph (header_hash ph) cancelled) as [b1 e] eqn:Ef.
  rewrite (candidateTime_cases _ _ _ _ _ _ _ _ Hnow Ef) in Hr. injection Hr as -> Hr.
  destruct (mtpFloor_ok _ _ _ _ _ _ Hnc Hc Hph Ef Hb) as [_ He].
  destruct e as [e|]; [|subst r; by left].
  destruct (He e eq_refl) as (Hfl & Hpe & Hmemo).
  assert (Hmin : minTime e = m + 1) by (eapply floor_ok_median; by rewrite ?Hpe).
  assert (e = mkEntry (header_hash ph) (m + 1)) as -> by (destruct e; simpl in *; congruence).
  cbn [minTime] in *. pose proof (median_stored_u32 _ _ _ Hnc Hw Hm) as Hm32.
  destruct (window_is_chain _ _ Hw) as (Hne & Hl & Hlen & Htk).
  assert (Hval : ∀ hdr height, HashPrevBlock hdr = header_hash ph →
    snd (CheckHeaderContextual now params hdr height (FullHeader <$> hs)) = Ok () ↔
    contextual_rules now params hdr height m).
  { intros hdr height Hp. apply CheckHeaderContextual_window with (FullHeader <$> hs); try done.
    - by destruct hs.
    - rewrite Hp, (MedianTimeWindow_linked _ hs) by done. by rewrite Htk.
    - rewrite <- Hm. f_equal. symmetry. apply (list_fmap_compose FullHeader ref_time). }
  destruct (Z.leb_spec (m + 1) (now + 7200)) as [Hle|Hgt];
    [|destruct (GenerateSupported params) eqn:Eg]; subst r; [right|right|split; [done|lia]];
    (split; [done|]); intros hdr height Hp Ht Hv; apply Hval; try done; unfold contextual_rules;
    split_and!; auto; lia.
Qed.

(** The submit guard is the validator's median rule: whenever the floor of
    the parent is memoized, on a chain that enforces the rule, it accepts exactly
    the times above the median of the parent's window; in every other case it
    accepts. *)
Theorem submitted_time_check_spec (params : ChainParams) (b : BlockAssembler)
    (p : Hash) (hs : list BlockHeader) (m nTime : Z) :
  no_collisions → rtc (poll (Some params)) newAssembler b →
  window_run p hs → CalculateMedianTimestamp (Timestamp <$> hs) = Ok m →
  submitted_time_check (Some params) b p nTime = Ok () ↔
  (GenerateSupported params = true ∨ memoizedMtpFloor b p = None ∨ m < nTime).
Proof.
  intros Hnc Hb Hw Hm. apply memo_reachable in Hb; [|done].
  unfold submitted_time_check, MinCandidateTime, generateSupported.
  destruct (GenerateSupported params); [by split; auto|].
  destruct (memoizedMtpFloor b p) as [e|] eqn:Ee; [|by split; auto].
  destruct (memoized_ok _ _ _ Hb Ee) as [<- Hf].
  pose proof (floor_ok_median _ _ _ Hnc Hf Hw Hm) as Hmin. simpl.
  destruct (Z.ltb_spec nTime (minTime e)) as [Hlt|Hge]; rewrite Hmin in *; split; try done.
  - intros [?|[?|?]]; [done|done|lia].
  - intros _. right. right. lia.
Qed.

End Stored.

(** ** Concrete inputs

    Two stored headers; the batch comes back with a nil, so the walk is taken;
    the clock is behind the median. *)
Definition ex_stored : list BlockHeader := [ex_child; ex_genesis].

Definition ex_hash (h : BlockHeader) : Hash := header_hash (CH := model_Chainhash) h.

Definition ex_client : BlockchainClient :=
  mkClient (λ _ _, Ok [Some ex_child; None])
           (λ p, if bool_decide (p = ex_hash ex_genesis) then Ok (Some ex_genesis)
                 else Err (err ERR_NOT_FOUND)).

Lemma ex_no_collisions : no_collisions (CH := model_Chainhash) ex_stored.
Proof.
  assert (Hne : bool_decide (ex_hash ex_child = ex_hash ex_genesis) = false) by (vm_compute; done).
  apply bool_decide_eq_false in Hne. split; [|split].
  - repeat constructor; unfold header_wf; simpl; lia.
  - assert (H : forallb (λ h, negb (bool_decide (ex_hash h = zero_hash))) ex_stored = true)
      by (vm_compute; done).
    apply Forall_forall. intros h Hh%list_elem_of_In Hz. rewrite forallb_forall in H.
    specialize (H h Hh). rewrite bool_decide_true in H; done.
  - intros h1 h2 H1 H2 Heq. unfold ex_hash in Hne.
    apply list_elem_of_In in H1, H2. destruct H1 as [<-|[<-|[]]], H2 as [<-|[<-|[]]]; congruence.
Qed.

Lemma ex_answers : answers_stored (CH := model_Chainhash) ex_stored ex_client.
Proof.
  split.
  - intros p n l h [= <-] Hh. apply list_elem_of_In in Hh. apply list_elem_of_In.
    destruct Hh as [[= <-]|[?|[]]]; [by left|done].
  - intros p h. cbn [GetBlockHeader ex_client]. case_bool_decide as Hp; [|done]. intros [= <-].
    split; [apply list_elem_of_In; right; by left|done].
Qed.

Lemma ex_window : window_run (CH := model_Chainhash) ex_stored (ex_hash ex_child) ex_stored.
Proof.
  split_and!; [done|by split| |right].
  - by apply Forall_forall.
  - split; [simpl; lia|done].
Qed.

Definition ex_poll : BlockAssembler * result Z :=
  candidateTime (CH := model_Chainhash) 1000 (Some ex_params) ex_client newAssembler (Some ex_child) false.

Lemma candidateTime_accepted_witness :
  ∃ b', ex_poll = (b', Ok 1601) ∧ memoizedMtpFloor b' (ex_hash ex_child) =
                                    Some (mkEntry (ex_hash ex_child) 1601).
Proof.
  exists (fst ex_poll). split; [vm_compute; reflexivity|].
  destruct (candidateTime_accepted (CH := model_Chainhash) ex_stored model_SafeConversion_spec
    1000 ex_params ex_client newAssembler (fst ex_poll) ex_child false (Ok 1601) ex_stored 1600
    ex_no_collisions ex_answers) as [[_ Hn]|[Hm _]].
  - apply list_elem_of_In. by left.
  - lia.
  - lia.
  - apply rtc_refl.
  - exact ex_window.
  - reflexivity.
  - vm_compute. reflexivity.
  - exfalso. revert Hn. vm_compute. discriminate.
  - exact Hm.
Defined.

Lemma ex_polled : rtc (poll (CH := model_Chainhash) ex_stored (Some ex_params)) newAssembler (fst ex_poll).
Proof.
  apply rtc_once, poll_step; [apply ex_answers|]. apply list_elem_of_In. by left.
Qed.

Lemma submitted_time_check_spec_witness :
  submitted_time_check (Some ex_params) (fst ex_poll) (ex_hash ex_child) 1601 = Ok ().
Proof.
  apply (submitted_time_check_spec (CH := model_Chainhash) ex_stored ex_params (fst ex_poll)
    (ex_hash ex_child) ex_stored 1600 1601 ex_no_collisions ex_polled ex_window).
  - reflexivity.
  - right. right. reflexivity.
Defined.
