(* ===== verification/Queue.v ===== *)
(** * The ingest queue of block assembly

    services/blockassembly/subtreeprocessor/queue.go and tx_batch.go: the lock-free
    queue of transaction batches between the validators that send them and the one
    goroutine that assembles blocks.  Any number of producers; one consumer.  Every
    atomic access is a step of its own, so a run is an interleaving of the accesses of
    all threads: a producer reserves room, stamps its batch, swaps the tail, links the
    batch to the one before it, and lowers the timestamp of the oldest pending batch;
    the consumer loads the link, moves the head, gives the room back and updates that
    timestamp.

    A pointer is the number of the batch, in the order they were stamped; 0 is the
    sentinel the queue starts with. *)

From S2P Require Import Prelude Merkle GoSubtree.

Section Queue.
  Context {I : Type}.

Record TxBatch := mkBatch {
  b_nodes : list Node;
  b_txInpoints : list I;
  b_time : Z;
}.

(** [q_batches] is the heap of batches and [q_next] their [next] pointers that are set. *)
Record LockFreeQueue := mkQueue {
  q_batches : list TxBatch;
  q_next : gmap nat nat;
  q_head : nat;
  q_tail : option nat;
  q_queueLength : Z;
  q_oldestPendingMillis : Z;
  q_maxItems : Z;
}.

Definition NewLockFreeQueueWithLimit (maxItems : Z) : LockFreeQueue := mkQueue [] ∅ 0 None 0 0 maxItems.

Definition maxBatchesPerIteration : Z := 64.

Definition normalizeMaxQueueItems (maxItems sendBatchSize : Z) : Z :=
  if maxItems <? 0 then 0
  else if maxItems =? 0 then 0
  else
    let floor := maxBatchesPerIteration * sendBatchSize in
    if (floor >? 0) && (maxItems <? floor) then floor else maxItems.

Definition batch_of (q : LockFreeQueue) (id : nat) : option TxBatch := q_batches q !! (id - 1)%nat.
Definition time_of (q : LockFreeQueue) (id : nat) : Z := default 0 (b_time <$> batch_of q id).
Definition items_of (q : LockFreeQueue) (id : nat) : Z :=
  default 0 ((λ b, Z.of_nat (length (b_nodes b))) <$> batch_of q id).

Definition add_length (n : Z) (q : LockFreeQueue) : LockFreeQueue :=
  mkQueue (q_batches q) (q_next q) (q_head q) (q_tail q) (q_queueLength q + n) (q_oldestPendingMillis q) (q_maxItems q).
Definition set_oldest (t : Z) (q : LockFreeQueue) : LockFreeQueue :=
  mkQueue (q_batches q) (q_next q) (q_head q) (q_tail q) (q_queueLength q) t (q_maxItems q).
Definition set_head (id : nat) (q : LockFreeQueue) : LockFreeQueue :=
  mkQueue (q_batches q) (q_next q) id (q_tail q) (q_queueLength q) (q_oldestPendingMillis q) (q_maxItems q).
Definition set_tail (id : nat) (q : LockFreeQueue) : LockFreeQueue :=
  mkQueue (q_batches q) (q_next q) (q_head q) (Some id) (q_queueLength q) (q_oldestPendingMillis q) (q_maxItems q).
Definition set_next (at_ id : nat) (q : LockFreeQueue) : LockFreeQueue :=
  mkQueue (q_batches q) (<[at_ := id]> (q_next q)) (q_head q) (q_tail q) (q_queueLength q) (q_oldestPendingMillis q) (q_maxItems q).
Definition new_batch (b : TxBatch) (q : LockFreeQueue) : LockFreeQueue :=
  mkQueue (q_batches q ++ [b]) (q_next q) (q_head q) (q_tail q) (q_queueLength q) (q_oldestPendingMillis q) (q_maxItems q).

(** ** A producer: [enqueueBatch] and [enqueueBatchIfRoom] *)

(** What a producer does next. *)
Inductive producer :=
  | PReserve (nodes : list Node) (txInpoints : list I) (ifRoom : bool)
  | PRollBack (n : Z)
  | PStamp (nodes : list Node) (txInpoints : list I)
  | PSwap (id : nat)
  | PLink (id : nat) (prev : option nat)
  | PLoad (id : nat)
  | PCompareAndSwap (id : nat) (cur : Z)
  | PDone (ok : bool).

(** Whether a batch whose reservation left [after] items is published. *)
Definition admitted (q : LockFreeQueue) (ifRoom : bool) (n after : Z) : bool :=
  negb ifRoom || (q_maxItems q <=? 0) || (after <=? q_maxItems q) || ((n >? q_maxItems q) && (after - n =? 0)).

Definition producer_step (now : Z) (p : producer) (q : LockFreeQueue) : option (producer * LockFreeQueue) :=
  match p with
  | PReserve nodes txInpoints ifRoom =>
      let n := Z.of_nat (length nodes) in
      let q := add_length n q in
      Some (if admitted q ifRoom n (q_queueLength q) then PStamp nodes txInpoints else PRollBack n, q)
  | PRollBack n => Some (PDone false, add_length (- n) q)
  | PStamp nodes txInpoints =>
      let q := new_batch (mkBatch nodes txInpoints now) q in
      Some (PSwap (length (q_batches q)), q)
  | PSwap id => Some (PLink id (q_tail q), set_tail id q)
  | PLink id prev => Some (PLoad id, set_next (match prev with None => q_head q | Some prev => prev end) id q)
  | PLoad id =>
      let cur := q_oldestPendingMillis q in
      Some (if negb (cur =? 0) && (time_of q id >=? cur) then PDone true else PCompareAndSwap id cur, q)
  | PCompareAndSwap id cur =>
      Some (if q_oldestPendingMillis q =? cur then (PDone true, set_oldest (time_of q id) q) else (PLoad id, q))
  | PDone _ => None
  end.

(** ** The consumer: [dequeueBatch] and [dequeueBatchUntil] *)
Inductive request := Valid_from (validFromMillis : Z) | Until (maxTimeMillis : Z).

Definition rejects (r : request) (time : Z) : bool :=
  match r with
  | Valid_from validFromMillis => (validFromMillis >? 0) && (time >=? validFromMillis)
  | Until maxTimeMillis => time >? maxTimeMillis
  end.

(** The answer it will give is carried along; [CIdle] is between two calls. *)
Inductive consumer :=
  | CIdle
  | CLoad (r : request)
  | CReject (id : nat)
  | CHead (id : nat)
  | CLength (id : nat)
  | CUpdate (answer : option nat)
  | CStore (answer : option nat) (following : nat)
  | CClear (answer : option nat)
  | CAgain (answer : option nat).

(** [Some answer] when the call returns. *)
Definition consumer_step (c : consumer) (q : LockFreeQueue) : option (consumer * option (option nat) * LockFreeQueue) :=
  match c with
  | CIdle => None
  | CLoad r =>
      match q_next q !! q_head q with
      | None => Some (CUpdate None, None, q)
      | Some id => Some (if rejects r (time_of q id) then CReject id else CHead id, None, q)
      end
  | CReject id => Some (CIdle, Some None, set_oldest (time_of q id) q)
  | CHead id => Some (CLength id, None, set_head id q)
  | CLength id => Some (CUpdate (Some id), None, add_length (- items_of q id) q)
  | CUpdate answer =>
      match q_next q !! q_head q with
      | Some following => Some (CStore answer following, None, q)
      | None => Some (CClear answer, None, q)
      end
  | CStore answer following => Some (CIdle, Some answer, set_oldest (time_of q following) q)
  | CClear answer => Some (CAgain answer, None, set_oldest 0 q)
  | CAgain answer =>
      match q_next q !! q_head q with
      | Some following => Some (CStore answer following, None, q)
      | None => Some (CIdle, Some answer, q)
      end
  end.

(** ** Interleavings *)
Record queue_state := mkQs {
  qs_queue : LockFreeQueue;
  qs_producers : gmap nat producer;
  qs_consumer : consumer;
  qs_answers : list (option nat);
}.

Inductive event :=
  | Enqueue (thread : nat) (nodes : list Node) (txInpoints : list I) (ifRoom : bool)
  | Producer (thread : nat) (now : Z)
  | Dequeue (r : request)
  | Consumer.

Definition queue_step (e : event) (s : queue_state) : option queue_state :=
  match e with
  | Enqueue t nodes txInpoints ifRoom =>
      match qs_producers s !! t with
      | None => Some (mkQs (qs_queue s) (<[t := PReserve nodes txInpoints ifRoom]> (qs_producers s)) (qs_consumer s) (qs_answers s))
      | Some _ => None
      end
  | Producer t now =>
      match qs_producers s !! t ≫= λ p, producer_step now p (qs_queue s) with
      | Some (p, q) => Some (mkQs q (<[t := p]> (qs_producers s)) (qs_consumer s) (qs_answers s))
      | None => None
      end
  | Dequeue r =>
      match qs_consumer s with
      | CIdle => Some (mkQs (qs_queue s) (qs_producers s) (CLoad r) (qs_answers s))
      | _ => None
      end
  | Consumer =>
      match consumer_step (qs_consumer s) (qs_queue s) with
      | Some (c, answer, q) =>
          Some (mkQs q (qs_producers s) c (qs_answers s ++ match answer with Some a => [a] | None => [] end))
      | None => None
      end
  end.

Fixpoint queue_run (es : list event) (s : queue_state) : option queue_state :=
  match es with
  | [] => Some s
  | e :: es => match queue_step e s with Some s => queue_run es s | None => None end
  end.

Definition queue_start (maxItems : Z) : queue_state := mkQs (NewLockFreeQueueWithLimit maxItems) ∅ CIdle [].

(** ** Reads *)
Definition headAgeMillis (q : LockFreeQueue) (now : Z) : Z :=
  if q_queueLength q =? 0 then 0
  else
    let oldest := q_oldestPendingMillis q in
    if oldest =? 0 then 0 else if now - oldest >? 0 then now - oldest else 0.

Definition IsEmpty (q : LockFreeQueue) : bool := negb (bool_decide (is_Some (q_next q !! q_head q))).
End Queue.

Arguments TxBatch : clear implicits.
Arguments LockFreeQueue : clear implicits.
Arguments producer : clear implicits.
Arguments event : clear implicits.
Arguments queue_state : clear implicits.

(** Three items of room: the third batch is refused, and leaves after the second. *)
Example queue_example :
  let n k := replicate k (mkNode zero_hash 0 0) in
  let p t := Producer t (Z.of_nat t) in
  match queue_run (I := unit)
    [Enqueue 1 (n 2%nat) [] true; Enqueue 2 (n 1%nat) [] true; Enqueue 3 (n 1%nat) [] true;
     p 1%nat; p 2%nat; p 3%nat; p 1%nat; p 2%nat; p 2%nat; p 1%nat; p 3%nat; p 2%nat; p 2%nat; p 2%nat;
     Dequeue (Valid_from 0); Consumer; Consumer; Consumer; Consumer; Consumer; Consumer] (queue_start 3) with
  | Some s => (qs_answers s, q_queueLength (qs_queue s), qs_producers s !! 3%nat)
  | None => ([], 0, None)
  end = ([Some 2%nat], 2, Some (PDone false)).
Proof. vm_compute. reflexivity. Qed.
