(* ===== verification/QueueTheorems.v ===== *)
(** * The queue is a queue

    Whatever the interleaving of producers and consumer, the queue answers as a list to
    which batches are appended when the tail is swapped and from which they are taken
    when the head moves ([queue_is_fifo]); the room it was given is kept
    ([queue_bounded]); and the timestamp of the oldest pending batch is not missed
    ([oldest_never_missed]). *)

From S2P Require Import Prelude Merkle GoSubtree Queue.

(** ** Sums over a map *)
Section MapSum.
  Context {A : Type} (f : A → Z).

Definition map_sum (m : gmap nat A) : Z := map_fold (λ _ a n, f a + n) 0 m.

Lemma map_sum_empty : map_sum ∅ = 0.
Proof. done. Qed.

Lemma map_sum_insert_new m k a : m !! k = None → map_sum (<[k := a]> m) = f a + map_sum m.
Proof. intros Hk. unfold map_sum. rewrite map_fold_insert_L; [done| |done]. intros; lia. Qed.

Lemma map_sum_delete m k a : m !! k = Some a → map_sum m = f a + map_sum (delete k m).
Proof.
  intros Hk. rewrite <- (insert_delete_id m k a Hk) at 1. apply map_sum_insert_new, lookup_delete_eq.
Qed.

Lemma map_sum_insert m k a a' : m !! k = Some a → map_sum (<[k := a']> m) = map_sum m - f a + f a'.
Proof.
  intros Hk. rewrite <- insert_delete_eq, map_sum_insert_new by apply lookup_delete_eq.
  rewrite (map_sum_delete m k a Hk). lia.
Qed.

Lemma map_sum_nonneg m : (∀ k a, m !! k = Some a → 0 ≤ f a) → 0 ≤ map_sum m.
Proof.
  induction m as [|k a m Hk IH] using map_ind; intros H; [done|]. rewrite map_sum_insert_new by done.
  pose proof (H k a (lookup_insert_eq _ _ _)).
  assert (0 ≤ map_sum m); [|lia]. apply IH. intros j b Hj. apply (H j). rewrite lookup_insert_ne by congruence. done.
Qed.

Lemma map_sum_ge m k a : (∀ k a, m !! k = Some a → 0 ≤ f a) → m !! k = Some a → f a ≤ map_sum m.
Proof.
  intros H Hk. rewrite (map_sum_delete m k a Hk).
  assert (0 ≤ map_sum (delete k m)); [|lia]. apply map_sum_nonneg. intros j b Hj. apply (H j).
  by apply lookup_delete_Some in Hj as [_ ?].
Qed.
End MapSum.

Lemma map_sum_ext {A} (f g : A → Z) m : (∀ k a, m !! k = Some a → f a = g a) → map_sum f m = map_sum g m.
Proof.
  induction m as [|k a m Hk IH] using map_ind; intros H; [done|]. rewrite !map_sum_insert_new by done.
  rewrite (H k a (lookup_insert_eq _ _ _)), IH; [done|]. intros j b Hj. apply (H j).
  rewrite lookup_insert_ne by congruence. done.
Qed.

Section Theorems.
  Context {I : Type}.
  Implicit Types (s : queue_state I) (q : LockFreeQueue I) (p : producer I) (ord : list nat).

(** ** The linearisation *)
Inductive op := Push (thread id : nat) | Pop (id : nat).

(** A batch enters when its producer swaps the tail, and leaves when the head moves. *)
Definition op_of (e : event I) s : option op :=
  match e with
  | Producer t _ => match qs_producers s !! t with Some (PSwap id) => Some (Push t id) | _ => None end
  | Consumer => match qs_consumer s with CHead id => Some (Pop id) | _ => None end
  | _ => None
  end.

Fixpoint history (es : list (event I)) s : list op :=
  match es with
  | [] => []
  | e :: es => match queue_step e s with
               | Some s' => (match op_of e s with Some o => [o] | None => [] end) ++ history es s'
               | None => []
               end
  end.

(** A plain queue: what is pending, and what has been taken. *)
Definition fifo_step (o : op) (f : list nat * list nat) : option (list nat * list nat) :=
  match o, f with
  | Push _ id, (pending, taken) => Some (pending ++ [id], taken)
  | Pop id, (x :: pending, taken) => if decide (x = id) then Some (pending, taken ++ [id]) else None
  | Pop _, ([], _) => None
  end.

Fixpoint fifo_run (os : list op) (f : list nat * list nat) : option (list nat * list nat) :=
  match os with
  | [] => Some f
  | o :: os => fifo_step o f ≫= fifo_run os
  end.

Definition pushed (os : list op) (t : nat) : Prop := ∃ id, Push t id ∈ os.

(** What the consumer has taken but not yet answered. *)
Definition in_flight (c : consumer) : list nat :=
  match c with
  | CLength id => [id]
  | CUpdate (Some id) | CStore (Some id) _ | CClear (Some id) | CAgain (Some id) => [id]
  | _ => []
  end.

(** ** The shape of the list *)
Definition before ord (i : nat) : nat := match i with O => 0%nat | S j => default 0%nat (ord !! j) end.
Definition before_opt ord (i : nat) : option nat := match i with O => None | S j => ord !! j end.

Definition linked s (id : nat) : Prop := ∀ t prev, qs_producers s !! t ≠ Some (PLink id prev).

Definition owns p : option nat :=
  match p with PSwap id | PLink id _ | PLoad id | PCompareAndSwap id _ => Some id | _ => None end.

Definition producer_ok ord (d : nat) (n : nat) p : Prop :=
  match p with
  | PSwap id => (0 < id ≤ n)%nat ∧ id ∉ ord
  | PLink id prev => ∃ i, ord !! i = Some id ∧ prev = before_opt ord i ∧ (d ≤ i)%nat
  | PLoad id | PCompareAndSwap id _ => id ∈ ord
  | _ => True
  end.

Definition consumer_ok ord (d : nat) s : Prop :=
  match qs_consumer s with
  | CReject id | CHead id | CStore _ id => ord !! d = Some id ∧ linked s id
  | CLength id => ∃ j, d = S j ∧ ord !! j = Some id
  | _ => True
  end.

Record shape ord (d : nat) s : Prop := {
  sh_NoDup : NoDup ord;
  sh_ids id : id ∈ ord → (0 < id ≤ length (q_batches (qs_queue s)))%nat;
  sh_tail : q_tail (qs_queue s) = last ord;
  sh_d : (d ≤ length ord)%nat;
  sh_head : q_head (qs_queue s) = before ord d;
  sh_next k j : q_next (qs_queue s) !! k = Some j ↔ ∃ i, k = before ord i ∧ ord !! i = Some j ∧ linked s j;
  sh_passed i id : (i < d)%nat → ord !! i = Some id → linked s id;
  sh_producers t p : qs_producers s !! t = Some p → producer_ok ord d (length (q_batches (qs_queue s))) p;
  sh_owner t1 t2 p1 p2 id : qs_producers s !! t1 = Some p1 → qs_producers s !! t2 = Some p2 →
    owns p1 = Some id → owns p2 = Some id → t1 = t2;
  sh_consumer : consumer_ok ord d s;
}.

Lemma before_inj ord i1 i2 x1 x2 : NoDup ord → (∀ id, id ∈ ord → (0 < id)%nat) →
  ord !! i1 = Some x1 → ord !! i2 = Some x2 → before ord i1 = before ord i2 → i1 = i2.
Proof.
  intros Hn Hp H1 H2 E. destruct i1 as [|i1], i2 as [|i2]; simpl in E; [done| | |].
  - destruct (ord !! i2) as [y|] eqn:Ey; [|apply lookup_ge_None in Ey; apply lookup_lt_Some in H2; lia].
    pose proof (Hp y (list_elem_of_lookup_2 _ _ _ Ey)). simpl in E. lia.
  - destruct (ord !! i1) as [y|] eqn:Ey; [|apply lookup_ge_None in Ey; apply lookup_lt_Some in H1; lia].
    pose proof (Hp y (list_elem_of_lookup_2 _ _ _ Ey)). simpl in E. lia.
  - destruct (ord !! i1) as [y1|] eqn:E1; [|apply lookup_ge_None in E1; apply lookup_lt_Some in H1; lia].
    destruct (ord !! i2) as [y2|] eqn:E2; [|apply lookup_ge_None in E2; apply lookup_lt_Some in H2; lia].
    simpl in E. subst y2. f_equal. by eapply NoDup_lookup.
Qed.

(** The head's successor is the next batch in the order, once it is linked. *)
Lemma sh_next_head ord d s j : shape ord d s →
  q_next (qs_queue s) !! q_head (qs_queue s) = Some j ↔ ord !! d = Some j ∧ linked s j.
Proof.
  intros H. rewrite (sh_next _ _ _ H), (sh_head _ _ _ H). split; [|intros [? ?]; by exists d].
  intros (i & E & Hi & Hl). destruct (decide (d = length ord)) as [->|].
  - exfalso. destruct (decide (i = length ord)) as [->|Hne]; [by rewrite lookup_ge_None_2 in Hi|].
    pose proof (lookup_lt_Some _ _ _ Hi) as Hlt. destruct ord as [|x ord0]; [simpl in Hlt; lia|].
    set (ord := x :: ord0) in *. destruct (lookup_lt_is_Some_2 ord (length ord0)) as [y Hy]; [simpl; lia|].
    assert (before ord (length ord) = y) as Eb by (simpl; by rewrite Hy).
    rewrite Eb in E. destruct i as [|i]; simpl in E.
    + pose proof (sh_ids _ _ _ H y (list_elem_of_lookup_2 _ _ _ Hy)). lia.
    + destruct (ord !! i) as [z|] eqn:Ez; [|apply lookup_ge_None in Ez; lia]. simpl in E. subst z.
      pose proof (NoDup_lookup _ _ _ _ (sh_NoDup _ _ _ H) Hy Ez) as Ei. unfold ord in Hlt. cbn [length] in Hlt. lia.
  - destruct (lookup_lt_is_Some_2 ord d) as [y Hy]; [pose proof (sh_d _ _ _ H); lia|].
    assert (d = i) as <-; [|done].
    apply (before_inj ord d i y j); [apply H| |done|done|done]. intros id Hid. by destruct (sh_ids _ _ _ H id Hid).
Qed.

(** ** Every step keeps it *)
Lemma owns_bound ord d n p id : (∀ x, x ∈ ord → (0 < x ≤ n)%nat) → producer_ok ord d n p → owns p = Some id → (0 < id ≤ n)%nat.
Proof.
  intros Hids Hok. destruct p; simpl in *; intros E; simplify_eq.
  - apply Hok.
  - destruct Hok as (i & Hi & _). apply Hids. by eapply list_elem_of_lookup_2.
  - by apply Hids.
  - by apply Hids.
Qed.

Definition no_link p : Prop := ∀ id prev, p ≠ PLink id prev.

Lemma linked_insert s s' t p p' j : qs_producers s !! t = Some p ∨ qs_producers s !! t = None ∧ p = PDone true →
  qs_producers s' = <[t := p']> (qs_producers s) → no_link p → no_link p' → linked s' j ↔ linked s j.
Proof.
  intros Hp E Hn Hn'. unfold linked. rewrite E. split; intros H t2 prev.
  - destruct (decide (t2 = t)) as [->|]; [|specialize (H t2 prev); by rewrite lookup_insert_ne in H].
    destruct Hp as [->|[-> _]]; [intros [= ->]; by eapply Hn|done].
  - destruct (decide (t2 = t)) as [->|]; [rewrite lookup_insert_eq; intros [= ->]; by eapply Hn'|].
    rewrite lookup_insert_ne by done. apply H.
Qed.

(** A step that leaves links, head and tail alone. *)
Lemma shape_quiet ord d s t p p' q' : shape ord d s →
  qs_producers s !! t = Some p ∨ qs_producers s !! t = None ∧ p = PDone true → no_link p → no_link p' →
  q_next q' = q_next (qs_queue s) → q_head q' = q_head (qs_queue s) → q_tail q' = q_tail (qs_queue s) →
  (length (q_batches (qs_queue s)) ≤ length (q_batches q'))%nat →
  producer_ok ord d (length (q_batches q')) p' →
  (∀ id, owns p' = Some id → owns p = Some id ∨ (length (q_batches (qs_queue s)) < id)%nat) →
  shape ord d (mkQs q' (<[t := p']> (qs_producers s)) (qs_consumer s) (qs_answers s)).
Proof.
  intros H Hp Hn Hn' E1 E2 E3 Hlen Hok Hown.
  assert (∀ j, linked (mkQs q' (<[t := p']> (qs_producers s)) (qs_consumer s) (qs_answers s)) j ↔ linked s j) as Hl
    by (intros j; by eapply linked_insert).
  split; cbn [qs_queue qs_producers qs_consumer].
  - apply H.
  - intros id Hid. pose proof (sh_ids _ _ _ H id Hid). lia.
  - by rewrite E3, (sh_tail _ _ _ H).
  - apply H.
  - by rewrite E2, (sh_head _ _ _ H).
  - intros k j. rewrite E1, (sh_next _ _ _ H). by setoid_rewrite Hl.
  - intros i id Hi Hid. apply Hl. by eapply (sh_passed _ _ _ H).
  - intros t2 p2. destruct (decide (t2 = t)) as [->|]; [rewrite lookup_insert_eq; by intros [= <-]|].
    rewrite lookup_insert_ne by done. intros Ht2. pose proof (sh_producers _ _ _ H _ _ Ht2) as Ho.
    destruct p2; simpl in *; try done. destruct Ho. split; [lia|done].
  - assert (∀ t2 p2 id, t2 ≠ t → qs_producers s !! t2 = Some p2 → owns p2 = Some id → owns p' = Some id → False) as Hx.
    { intros t2 p2 id Hne Ht2 Ho2 Ho'. destruct (Hown id Ho') as [Ho|Hbig].
      - destruct Hp as [Hp|[_ ->]]; [|done]. by pose proof (sh_owner _ _ _ H _ _ _ _ _ Ht2 Hp Ho2 Ho).
      - pose proof (owns_bound _ _ _ _ _ (sh_ids _ _ _ H) (sh_producers _ _ _ H _ _ Ht2) Ho2). lia. }
    intros t1 t2 p1 p2 id. destruct (decide (t1 = t)) as [->|N1], (decide (t2 = t)) as [->|N2];
      rewrite ?lookup_insert_eq, ?lookup_insert_ne by done; intros H1 H2 O1 O2; simplify_eq; [done| | |].
    + exfalso. by apply (Hx t2 p2 id).
    + exfalso. by apply (Hx t1 p1 id).
    + by eapply (sh_owner _ _ _ H).
  - pose proof (sh_consumer _ _ _ H) as Hc. unfold consumer_ok in *. cbn [qs_consumer].
    destruct (qs_consumer s); try done; by rewrite Hl.
Qed.

(** The tail is swapped. *)
Lemma shape_swap ord d s t id : shape ord d s → qs_producers s !! t = Some (PSwap id) →
  shape (ord ++ [id]) d (mkQs (set_tail id (qs_queue s)) (<[t := PLink id (q_tail (qs_queue s))]> (qs_producers s))
                          (qs_consumer s) (qs_answers s)).
Proof.
  intros H Ht. pose proof (sh_producers _ _ _ H _ _ Ht) as [Hid Hnew].
  set (s' := mkQs _ _ _ _).
  assert (∀ j, j ∈ ord → linked s' j ↔ linked s j) as Hl.
  { intros j Hj. unfold linked. split; intros Hx t2 prev.
    - destruct (decide (t2 = t)) as [->|]; [rewrite Ht; congruence|].
      specialize (Hx t2 prev). simpl in Hx. by rewrite lookup_insert_ne in Hx.
    - simpl. destruct (decide (t2 = t)) as [->|]; [rewrite lookup_insert_eq; congruence|].
      rewrite lookup_insert_ne by done. apply Hx. }
  assert (¬ linked s' id) as Hnl.
  { intros Hx. apply (Hx t (q_tail (qs_queue s))). simpl. by rewrite lookup_insert_eq. }
  assert (∀ i x, ord !! i = Some x → before (ord ++ [id]) i = before ord i) as Hb.
  { intros [|i] x Hi; [done|]. simpl. apply lookup_lt_Some in Hi. by rewrite lookup_app_l by lia. }
  split; cbn [qs_queue qs_producers qs_consumer].
  - apply NoDup_app. split_and!; [apply H| |apply NoDup_singleton]. intros x Hx. rewrite list_elem_of_singleton. by intros ->.
  - intros x [Hx|Hx%list_elem_of_singleton]%elem_of_app; [by apply (sh_ids _ _ _ H)|by subst x].
  - by rewrite last_snoc.
  - rewrite length_app. pose proof (sh_d _ _ _ H). lia.
  - simpl. rewrite (sh_head _ _ _ H). pose proof (sh_d _ _ _ H). destruct d as [|d]; [done|]. simpl. by rewrite lookup_app_l by lia.
  - intros k j. simpl. rewrite (sh_next _ _ _ H). split; intros (i & E & Hi & Hlj).
    + exists i. split_and!; [by erewrite Hb|by apply lookup_app_l_Some|]. apply Hl; [by eapply list_elem_of_lookup_2|done].
    + apply lookup_app_Some in Hi as [Hi|[_ Hi]].
      * exists i. split_and!; [by erewrite <- Hb|done|]. apply Hl; [by eapply list_elem_of_lookup_2|done].
      * apply list_lookup_singleton_Some in Hi as [_ <-]. done.
  - intros i x Hi Hx. pose proof (sh_d _ _ _ H). rewrite lookup_app_l in Hx by lia.
    apply Hl; [by eapply list_elem_of_lookup_2|]. by eapply (sh_passed _ _ _ H).
  - intros t2 p2. simpl. destruct (decide (t2 = t)) as [->|].
    + rewrite lookup_insert_eq. intros [= <-]. exists (length ord). split_and!.
      * by apply list_lookup_middle.
      * rewrite (sh_tail _ _ _ H), last_lookup. destruct (length ord) eqn:El; simpl.
        { apply nil_length_inv in El as ->. done. }
        rewrite lookup_app_l by lia. done.
      * apply H.
    + rewrite lookup_insert_ne by done. intros Ht2. pose proof (sh_producers _ _ _ H _ _ Ht2) as Ho.
      destruct p2 as [| | |x|x prev|x|x c|]; simpl in *; try done.
      * destruct Ho as [Hx Hxn]. split; [done|]. rewrite elem_of_app, list_elem_of_singleton. intros [?| ->]; [done|].
        by pose proof (sh_owner _ _ _ H _ _ _ _ id Ht2 Ht eq_refl eq_refl).
      * destruct Ho as (i & Hi & -> & Hd). exists i. split_and!; [by apply lookup_app_l_Some| |done].
        destruct i as [|i]; [done|]. simpl. apply lookup_lt_Some in Hi. by rewrite lookup_app_l by lia.
      * apply elem_of_app. by left.
      * apply elem_of_app. by left.
  - intros t1 t2 p1 p2 x. simpl.
    destruct (decide (t1 = t)) as [->|N1], (decide (t2 = t)) as [->|N2];
      rewrite ?lookup_insert_eq, ?lookup_insert_ne by done; intros H1 H2 O1 O2; simplify_eq/=; [done| | |].
    + by apply (sh_owner _ _ _ H _ _ _ _ x Ht H2).
    + by apply (sh_owner _ _ _ H _ _ _ _ x H1 Ht).
    + by eapply (sh_owner _ _ _ H).
  - pose proof (sh_consumer _ _ _ H) as Hc. unfold consumer_ok in *. cbn [qs_consumer]. fold s'.
    destruct (qs_consumer s); try done.
    all: try (destruct Hc as [Hx Hlx]; split; [by apply lookup_app_l_Some|]; apply Hl; [by eapply list_elem_of_lookup_2|done]).
    destruct Hc as (j & -> & Hj). exists j. split; [done|]. by apply lookup_app_l_Some.
Qed.

(** A batch is linked. *)
Lemma shape_link ord d s t id prev : shape ord d s → qs_producers s !! t = Some (PLink id prev) →
  shape ord d (mkQs (set_next (match prev with None => q_head (qs_queue s) | Some prev => prev end) id (qs_queue s))
                 (<[t := PLoad id]> (qs_producers s)) (qs_consumer s) (qs_answers s)).
Proof.
  intros H Ht. pose proof (sh_producers _ _ _ H _ _ Ht) as (n & Hn & -> & Hd).
  set (s' := mkQs _ _ _ _).
  assert (match before_opt ord n with None => q_head (qs_queue s) | Some prev => prev end = before ord n) as Ek.
  { rewrite (sh_head _ _ _ H). destruct n as [|n]; simpl; [by assert (d = 0%nat) as -> by lia|].
    destruct (ord !! n) eqn:E; [done|]. apply lookup_ge_None in E. apply lookup_lt_Some in Hn. lia. }
  assert (∀ j, linked s' j ↔ j = id ∨ linked s j) as Hl.
  { intros j. unfold linked. split.
    - intros Hx. destruct (decide (j = id)) as [->|Hne]; [by left|]. right. intros t2 prev.
      destruct (decide (t2 = t)) as [->|]; [rewrite Ht; congruence|].
      specialize (Hx t2 prev). simpl in Hx. by rewrite lookup_insert_ne in Hx.
    - intros Hx t2 prev. simpl. destruct (decide (t2 = t)) as [->|Hne]; [by rewrite lookup_insert_eq|].
      rewrite lookup_insert_ne by done. intros Ht2. destruct Hx as [->|Hx]; [|by apply (Hx t2 prev)].
      by pose proof (sh_owner _ _ _ H _ _ _ _ id Ht2 Ht eq_refl eq_refl). }
  assert (id ∈ ord) as Hin by (by eapply list_elem_of_lookup_2).
  split; cbn [qs_queue qs_producers qs_consumer].
  - apply H.
  - apply H.
  - apply H.
  - apply H.
  - apply H.
  - intros k j. simpl. rewrite Ek. destruct (decide (k = before ord n)) as [->|Hk].
    + rewrite lookup_insert_eq. split.
      * intros [= <-]. exists n. split_and!; [done|done|]. apply Hl. by left.
      * intros (i & E & Hi & _).
        assert (i = n) as -> by (eapply before_inj; [apply H|intros x Hx; by destruct (sh_ids _ _ _ H x Hx)|done|done|done]).
        congruence.
    + rewrite lookup_insert_ne by congruence. rewrite (sh_next _ _ _ H). split; intros (i & E & Hi & Hlj); exists i.
      * split_and!; [done|done|]. apply Hl. by right.
      * split_and!; [done|done|]. apply Hl in Hlj as [->|]; [|done].
        assert (i = n) as -> by (by eapply (NoDup_lookup ord); [apply H|..]). done.
  - intros i x Hi Hx. apply Hl. right. by eapply (sh_passed _ _ _ H).
  - intros t2 p2. simpl. destruct (decide (t2 = t)) as [->|]; [rewrite lookup_insert_eq; by intros [= <-]|].
    rewrite lookup_insert_ne by done. apply (sh_producers _ _ _ H).
  - intros t1 t2 p1 p2 x. simpl.
    destruct (decide (t1 = t)) as [->|N1], (decide (t2 = t)) as [->|N2];
      rewrite ?lookup_insert_eq, ?lookup_insert_ne by done; intros H1 H2 O1 O2; simplify_eq/=; [done| | |].
    + by apply (sh_owner _ _ _ H _ _ _ _ x Ht H2).
    + by apply (sh_owner _ _ _ H _ _ _ _ x H1 Ht).
    + by eapply (sh_owner _ _ _ H).
  - pose proof (sh_consumer _ _ _ H) as Hc. unfold consumer_ok in *. cbn [qs_consumer]. fold s'.
    destruct (qs_consumer s); try done; destruct Hc as [Hx Hlx]; (split; [done|]); apply Hl; by right.
Qed.

(** A step of the consumer that leaves links and head alone. *)
Lemma shape_consumer ord d s c q' answers : shape ord d s →
  q_next q' = q_next (qs_queue s) → q_head q' = q_head (qs_queue s) → q_tail q' = q_tail (qs_queue s) →
  q_batches q' = q_batches (qs_queue s) →
  consumer_ok ord d (mkQs q' (qs_producers s) c answers) →
  shape ord d (mkQs q' (qs_producers s) c answers).
Proof.
  intros H E1 E2 E3 E4 Hc. split; cbn [qs_queue qs_producers qs_consumer]; rewrite ?E1, ?E2, ?E3, ?E4; try apply H. exact Hc.
Qed.

Lemma shape_head ord d s id answers : shape ord d s → ord !! d = Some id → linked s id →
  shape ord (S d) (mkQs (set_head id (qs_queue s)) (qs_producers s) (CLength id) answers).
Proof.
  intros H Hd Hl. pose proof (lookup_lt_Some _ _ _ Hd) as Hlt. split; cbn [qs_queue qs_producers qs_consumer]; try apply H.
  - lia.
  - simpl. by rewrite Hd.
  - intros i x Hi Hx. destruct (decide (i = d)) as [->|].
    + rewrite Hd in Hx. by injection Hx as <-.
    + eapply (sh_passed _ _ _ H); [|done]. lia.
  - intros t p Ht. pose proof (sh_producers _ _ _ H _ _ Ht) as Ho. destruct p as [| | | |x prev| | |]; try done.
    destruct Ho as (i & Hi & -> & Hdi). exists i. split_and!; [done|done|].
    destruct (decide (i = d)) as [->|]; [|lia]. rewrite Hd in Hi. injection Hi as ->. by destruct (Hl t (before_opt ord d)).
  - exists d. done.
Qed.

(** What a step does to the order and to how much of it has been taken. *)
Lemma step_shape ord d s e s' : shape ord d s → queue_step e s = Some s' →
  match op_of e s with
  | Some (Push t id) => shape (ord ++ [id]) d s'
  | Some (Pop id) => ord !! d = Some id ∧ shape ord (S d) s'
  | None => shape ord d s'
  end.
Proof.
  intros H. destruct e as [t nodes inps room|t now|r|]; simpl.
  - destruct (qs_producers s !! t) eqn:Et; [done|]. intros [= <-].
    apply (shape_quiet ord d s t (PDone true)); try done; by right.
  - destruct (qs_producers s !! t) as [p|] eqn:Et; [|done]. simpl.
    destruct (producer_step now p (qs_queue s)) as [[p' q']|] eqn:Es; [|done]. intros [= <-].
    destruct p as [nodes inps room|n|nodes inps|id|id prev|id|id cur|]; simpl in Es.
    + injection Es as <- <-. apply (shape_quiet ord d s t (PReserve nodes inps room)); try done; [by left|..]; by case_match.
    + injection Es as <- <-. apply (shape_quiet ord d s t (PRollBack n)); try done. by left.
    + injection Es as <- <-. apply (shape_quiet ord d s t (PStamp nodes inps)); try done; [by left|..]; simpl; rewrite ?length_app; simpl.
      * lia.
      * split; [lia|]. intros Hin. pose proof (sh_ids _ _ _ H _ Hin). lia.
      * intros id [= <-]. right. lia.
    + injection Es as <- <-. by apply shape_swap.
    + injection Es as <- <-. by eapply shape_link.
    + pose proof (sh_producers _ _ _ H _ _ Et) as Ho.
      injection Es as <- <-. apply (shape_quiet ord d s t (PLoad id)); try done; [by left|..]; try (case_match; done).
      intros x Hx. left. by case_match.
    + pose proof (sh_producers _ _ _ H _ _ Et) as Ho. destruct (_ =? cur); injection Es as <- <-.
      * apply (shape_quiet ord d s t (PCompareAndSwap id cur)); try done. by left.
      * apply (shape_quiet ord d s t (PCompareAndSwap id cur)); try done; [by left|]. intros x Hx. by left.
    + done.
  - destruct (qs_consumer s) eqn:Ec; try done. intros [= <-]. by apply shape_consumer.
  - destruct (consumer_step (qs_consumer s) (qs_queue s)) as [[[c' ans] q']|] eqn:Es; [|done]. intros [= <-].
    pose proof (sh_consumer _ _ _ H) as Hc. unfold consumer_ok in Hc. pose proof (λ j, proj1 (sh_next_head ord d s j H)) as Hn.
    destruct (qs_consumer s) as [|r|id|id|id|a|a f|a|a] eqn:Ec; simpl in Es; try done.
    + destruct (_ !! _) as [id|] eqn:E; injection Es as <- <- <-; apply shape_consumer; try done.
      specialize (Hn id eq_refl). unfold consumer_ok. simpl. destruct (rejects r _); exact Hn.
    + injection Es as <- <- <-. by apply shape_consumer.
    + injection Es as <- <- <-. destruct Hc as [Hd Hl]. split; [done|]. by apply shape_head.
    + injection Es as <- <- <-. by apply shape_consumer.
    + destruct (_ !! _) as [id|] eqn:E; injection Es as <- <- <-; apply shape_consumer; try done. by apply (Hn id).
    + injection Es as <- <- <-. by apply shape_consumer.
    + injection Es as <- <- <-. by apply shape_consumer.
    + destruct (_ !! _) as [id|] eqn:E; injection Es as <- <- <-; apply shape_consumer; try done. by apply (Hn id).
Qed.

Lemma shape_start maxItems : shape [] 0 (queue_start maxItems).
Proof.
  split; try done; simpl.
  - constructor.
  - by intros id ?%not_elem_of_nil.
  - intros k j. rewrite lookup_empty. split; [done|]. by intros (i & _ & ? & _).
Qed.

(** ** A run and its operations *)
Definition answered s : list nat := omap id (qs_answers s).

Definition sent_by (es : list (event I)) q (t id : nat) : Prop :=
  ∃ b room, batch_of q id = Some b ∧ Enqueue t (b_nodes b) (b_txInpoints b) room ∈ es.

Definition thread_ok (os : list op) (es : list (event I)) q (t : nat) p : Prop :=
  match p with
  | PReserve nodes inps _ | PStamp nodes inps => ¬ pushed os t ∧ ∃ room, Enqueue t nodes inps room ∈ es
  | PRollBack _ => ¬ pushed os t
  | PSwap id => ¬ pushed os t ∧ sent_by es q t id
  | PLink id _ | PLoad id | PCompareAndSwap id _ => Push t id ∈ os
  | PDone ok => ok = true ↔ pushed os t
  end.

Definition threads (os : list op) : list nat := omap (λ o, match o with Push t _ => Some t | Pop _ => None end) os.

Record trace_ok (os : list op) (es : list (event I)) s : Prop := {
  tr_fifo : ∃ ord d, shape ord d s ∧ fifo_run os ([], []) = Some (drop d ord, take d ord) ∧
                     take d ord = answered s ++ in_flight (qs_consumer s);
  tr_threads t p : qs_producers s !! t = Some p → thread_ok os es (qs_queue s) t p;
  tr_sent t id : Push t id ∈ os → sent_by es (qs_queue s) t id ∧ is_Some (qs_producers s !! t);
  tr_once : NoDup (threads os);
}.

Lemma fifo_run_app os1 os2 f : fifo_run (os1 ++ os2) f = fifo_run os1 f ≫= fifo_run os2.
Proof. revert f. induction os1 as [|o os1 IH]; intros f; simpl; [done|]. destruct (fifo_step o f); simpl; auto. Qed.

Lemma pushed_app os1 os2 t : pushed (os1 ++ os2) t ↔ pushed os1 t ∨ pushed os2 t.
Proof. unfold pushed. setoid_rewrite elem_of_app. firstorder. Qed.

Lemma not_pushed_pop id t : ¬ pushed [Pop id] t.
Proof. by intros [x Hx%list_elem_of_singleton]. Qed.

Lemma pushed_push t id t2 : pushed [Push t id] t2 ↔ t2 = t.
Proof.
  unfold pushed. setoid_rewrite list_elem_of_singleton. split; [by intros [x [= ? ?]]|intros ->; by exists id].
Qed.

Lemma elem_of_threads os t : t ∈ threads os ↔ pushed os t.
Proof.
  unfold threads, pushed. rewrite list_elem_of_omap. split.
  - intros ([t' id|id] & Ho & E); [|done]. injection E as ->. by exists id.
  - intros [id Ho]. by exists (Push t id).
Qed.

Lemma sent_by_mono es es' q q' t id : (∀ e, e ∈ es → e ∈ es') → (∀ b, batch_of q id = Some b → batch_of q' id = Some b) →
  sent_by es q t id → sent_by es' q' t id.
Proof. intros He Hb (b & room & E & Hin). exists b, room. auto. Qed.

Lemma thread_ok_mono os es es' q q' t p : (∀ e, e ∈ es → e ∈ es') →
  (∀ id b, batch_of q id = Some b → batch_of q' id = Some b) → thread_ok os es q t p → thread_ok os es' q' t p.
Proof.
  intros He Hb. destruct p; simpl; try done.
  - intros [? [room ?]]. split; [done|]. exists room. auto.
  - intros [? [room ?]]. split; [done|]. exists room. auto.
  - intros [? Hs]. split; [done|]. by apply (sent_by_mono es _ q _ _ _ He (Hb id)).
Qed.

Lemma thread_ok_push os es q t t2 id p : t2 ≠ t → thread_ok os es q t2 p → thread_ok (os ++ [Push t id]) es q t2 p.
Proof.
  intros Hne. assert (pushed (os ++ [Push t id]) t2 ↔ pushed os t2) as E.
  { rewrite pushed_app, pushed_push. naive_solver. }
  assert (∀ x, Push t2 x ∈ os ++ [Push t id] ↔ Push t2 x ∈ os) as E2.
  { intros x. rewrite elem_of_app, list_elem_of_singleton. split; [intros [?|[= ? ?]]; [done|congruence]|by left]. }
  destruct p; simpl; rewrite ?E, ?E2; done.
Qed.

Lemma thread_ok_pop os es q t id p : thread_ok os es q t p → thread_ok (os ++ [Pop id]) es q t p.
Proof.
  assert (pushed (os ++ [Pop id]) t ↔ pushed os t) as E.
  { rewrite pushed_app. pose proof (not_pushed_pop id t). tauto. }
  assert (∀ x, Push t x ∈ os ++ [Pop id] ↔ Push t x ∈ os) as E2.
  { intros x. rewrite elem_of_app, list_elem_of_singleton. split; [by intros [?|?]|by left]. }
  destruct p; simpl; rewrite ?E, ?E2; done.
Qed.

(** The heap of batches only grows. *)
Lemma step_batches e s s' id b : queue_step e s = Some s' → batch_of (qs_queue s) id = Some b → batch_of (qs_queue s') id = Some b.
Proof.
  unfold batch_of. destruct e as [t nodes inps room|t now|r|]; simpl.
  - case_match; [done|]. by intros [= <-].
  - destruct (qs_producers s !! t) as [p|]; [|done]. simpl.
    destruct (producer_step now p (qs_queue s)) as [[p' q']|] eqn:Es; [|done]. intros [= <-] Hb. cbn [qs_queue].
    destruct p; simpl in Es; try (injection Es as <- <-; exact Hb).
    + injection Es as <- <-. simpl. by apply lookup_app_l_Some.
    + case_match; injection Es as <- <-; exact Hb.
    + done.
  - case_match; try done. by intros [= <-].
  - destruct (consumer_step _ _) as [[[c a] q']|] eqn:Es; [|done]. intros [= <-] Hb. cbn [qs_queue].
    destruct (qs_consumer s); simpl in Es; try done; repeat case_match; try done; injection Es as <- <- <-; exact Hb.
Qed.

(** What a step of a producer leaves of its thread. *)
Lemma thread_step os es q q' t now p p' : thread_ok os es q t p → producer_step now p q = Some (p', q') →
  thread_ok (os ++ match p with PSwap id => [Push t id] | _ => [] end) es q' t p'.
Proof.
  intros Hok Es. destruct p; simpl in Es, Hok; rewrite ?app_nil_r; try (injection Es as <- <-).
  - destruct Hok as [Hn Hin]. case_match; simpl; [by split|done].
  - split; [done|]. by intros ?%Hok.
  - destruct Hok as (Hn & room & Hin). split; [done|]. eexists (mkBatch _ _ _), room. split; [|exact Hin].
    unfold batch_of. simpl. rewrite length_app, Nat.add_1_r, Nat.sub_succ, Nat.sub_0_r. by apply list_lookup_middle.
  - apply elem_of_app. right. apply list_elem_of_here.
  - exact Hok.
  - case_match; simpl; [|done]. split; [|done]. intros _. by eexists.
  - case_match; injection Es as <- <-; simpl; [|done]. split; [|done]. intros _. by eexists.
  - done.
Qed.

Lemma take_snoc_lookup ord d id : ord !! d = Some id → take (S d) ord = take d ord ++ [id].
Proof. apply take_S_r. Qed.

Definition ops_of (e : event I) s : list op := match op_of e s with Some o => [o] | None => [] end.

Lemma consumer_answers s e s' : queue_step e s = Some s' →
  answered s' ++ in_flight (qs_consumer s') =
  answered s ++ in_flight (qs_consumer s) ++ match op_of e s with Some (Pop id) => [id] | _ => [] end.
Proof.
  unfold answered. destruct e as [t nodes inps room|t now|r|]; simpl.
  - case_match; [done|]. intros [= <-]. simpl. by rewrite app_nil_r.
  - destruct (qs_producers s !! t) as [p|]; [|done]. simpl. destruct (producer_step _ _ _) as [[? ?]|]; [|done].
    intros [= <-]. simpl. assert (match (match p with PSwap id => Some (Push t id) | _ => None end) with Some (Pop id) => [id] | _ => [] end = []) as ->
      by by destruct p. by rewrite app_nil_r.
  - destruct (qs_consumer s) eqn:Ec; try done. intros [= <-]. simpl. done.
  - destruct (consumer_step _ _) as [[[c a] q']|] eqn:Es; [|done]. intros [= <-]. simpl. rewrite omap_app, <- !(assoc_L (++)).
    destruct (qs_consumer s) as [|r|id|id|id|b|b f|b|b] eqn:Ec; simpl in Es; try done.
    + case_match; injection Es as <- <- <-; [by case_match|done].
    + by injection Es as <- <- <-.
    + by injection Es as <- <- <-.
    + by injection Es as <- <- <-.
    + case_match; injection Es as <- <- <-; by destruct b.
    + injection Es as <- <- <-. by destruct b.
    + injection Es as <- <- <-. by destruct b.
    + case_match; injection Es as <- <- <-; by destruct b.
Qed.

Lemma fifo_push ord d id : (d ≤ length ord)%nat → drop d (ord ++ [id]) = drop d ord ++ [id] ∧ take d (ord ++ [id]) = take d ord.
Proof. intros Hd. rewrite drop_app_le, take_app_le by done. done. Qed.

Lemma trace_fifo os es s e s' : trace_ok os es s → queue_step e s = Some s' →
  ∃ ord d, shape ord d s' ∧ fifo_run (os ++ ops_of e s) ([], []) = Some (drop d ord, take d ord) ∧
           take d ord = answered s' ++ in_flight (qs_consumer s').
Proof.
  intros H Hs. destruct (tr_fifo _ _ _ H) as (ord & d & Hsh & Hf & Ha).
  pose proof (step_shape _ _ _ _ _ Hsh Hs) as Hsh'. rewrite (consumer_answers _ _ _ Hs), app_assoc, <- Ha.
  rewrite fifo_run_app, Hf. unfold ops_of. simpl.
  destruct (op_of e s) as [[t id|id]|]; simpl.
  - exists (ord ++ [id]), d. destruct (fifo_push ord d id (sh_d _ _ _ Hsh)) as [-> ->]. by rewrite app_nil_r.
  - destruct Hsh' as [Hd Hsh']. exists ord, (S d). rewrite (drop_S _ _ _ Hd), decide_True by done.
    by rewrite (take_snoc_lookup _ _ _ Hd).
  - exists ord, d. by rewrite app_nil_r.
Qed.

Lemma trace_step os es s e s' : trace_ok os es s → queue_step e s = Some s' → trace_ok (os ++ ops_of e s) (es ++ [e]) s'.
Proof.
  intros H Hs. split; [by eapply trace_fifo| | |].
  - assert (∀ x, x ∈ es → x ∈ es ++ [e]) as He by (intros x Hx; apply elem_of_app; by left).
    pose proof (λ i b, step_batches e s s' i b Hs) as Hb.
    intros t p. destruct e as [t0 nodes inps room|t0 now|r|]; unfold ops_of; simpl in *.
    + destruct (qs_producers s !! t0) eqn:Et0; [done|]. injection Hs as <-. simpl. rewrite app_nil_r.
      destruct (decide (t = t0)) as [->|].
      * rewrite lookup_insert_eq. intros [= <-]. split.
        -- intros [id Hid]. destruct (tr_sent _ _ _ H _ _ Hid) as [_ [? ?]]. congruence.
        -- exists room. apply elem_of_app. right. apply list_elem_of_here.
      * rewrite lookup_insert_ne by done. intros Ht. eapply thread_ok_mono; [exact He|by intros|by apply (tr_threads _ _ _ H)].
    + destruct (qs_producers s !! t0) as [p0|] eqn:Et0; [|done]. simpl in Hs.
      destruct (producer_step now p0 (qs_queue s)) as [[p' q']|] eqn:Es; [|done]. injection Hs as <-. simpl in *.
      assert (match (match p0 with PSwap id => Some (Push t0 id) | _ => None end) with Some o => [o] | None => [] end
              = match p0 with PSwap id => [Push t0 id] | _ => [] end) as -> by by destruct p0.
      destruct (decide (t = t0)) as [->|Hne].
      * rewrite lookup_insert_eq. intros [= <-]. eapply thread_step; [|exact Es].
        eapply thread_ok_mono; [exact He|by intros|by apply (tr_threads _ _ _ H)].
      * rewrite lookup_insert_ne by done. intros Ht. eapply (thread_ok_mono _ _ _ _ _ _ _ He Hb).
        pose proof (tr_threads _ _ _ H _ _ Ht) as Hok. destruct p0; rewrite ?app_nil_r; try exact Hok. by apply thread_ok_push.
    + destruct (qs_consumer s); try done. injection Hs as <-. simpl. rewrite app_nil_r. intros Ht.
      eapply thread_ok_mono; [exact He|by intros|by apply (tr_threads _ _ _ H)].
    + destruct (consumer_step _ _) as [[[c a] q']|]; [|done]. injection Hs as <-. simpl in *. intros Ht.
      eapply (thread_ok_mono _ _ _ _ _ _ _ He Hb). pose proof (tr_threads _ _ _ H _ _ Ht) as Hok.
      destruct (qs_consumer s); rewrite ?app_nil_r; try exact Hok. by apply thread_ok_pop.
  - intros t id Hin. assert (∀ t, is_Some (qs_producers s !! t) → is_Some (qs_producers s' !! t)) as Hkeep.
    { intros x Hx. destruct e as [t0 nodes inps room|t0 now|r|]; simpl in Hs.
      - case_match; [done|]. injection Hs as <-. simpl. apply lookup_insert_is_Some'. by right.
      - destruct (qs_producers s !! t0) as [p|]; [|done]. simpl in Hs. destruct (producer_step _ _ _) as [[? ?]|]; [|done].
        injection Hs as <-. simpl. apply lookup_insert_is_Some'. by right.
      - case_match; try done. by injection Hs as <-.
      - destruct (consumer_step _ _) as [[[? ?] ?]|]; [|done]. by injection Hs as <-. }
    assert (sent_by es (qs_queue s) t id ∧ is_Some (qs_producers s !! t)) as [Hsent Hsome].
    { apply elem_of_app in Hin as [Hin|Hin]; [by apply (tr_sent _ _ _ H)|]. unfold ops_of in Hin.
      destruct e as [t0 nodes inps room|t0 now|r|]; simpl in Hin; try by apply not_elem_of_nil in Hin.
      - destruct (qs_producers s !! t0) as [[]|] eqn:Et; try (by apply not_elem_of_nil in Hin).
        apply list_elem_of_singleton in Hin as [= -> ->]. split; [apply (tr_threads _ _ _ H _ _ Et)|by eexists].
      - destruct (qs_consumer s); try (by apply not_elem_of_nil in Hin). by apply list_elem_of_singleton in Hin. }
    split; [|by apply Hkeep]. eapply sent_by_mono; [|by intros b; eapply step_batches|exact Hsent].
    intros x Hx. apply elem_of_app. by left.
  - unfold ops_of. destruct (op_of e s) as [[t id|id]|] eqn:Eo; [| |rewrite app_nil_r; apply H].
    + unfold threads. rewrite omap_app. simpl. apply NoDup_app. split_and!; [apply H| |apply NoDup_singleton].
      intros x Hx%elem_of_threads. rewrite list_elem_of_singleton. intros ->.
      destruct e as [| t0 now| |]; simpl in Eo; try done.
      * destruct (qs_producers s !! t0) as [[]|] eqn:Et; try done. injection Eo as <- <-.
        by destruct (tr_threads _ _ _ H _ _ Et).
      * by destruct (qs_consumer s).
    + unfold threads. rewrite omap_app. simpl. rewrite app_nil_r. apply H.
Qed.

Lemma trace_run es s s' os es0 : trace_ok os es0 s → queue_run es s = Some s' → trace_ok (os ++ history es s) (es0 ++ es) s'.
Proof.
  revert s os es0. induction es as [|e es IH]; intros s os es0 H Hr; simpl in *.
  { injection Hr as <-. by rewrite !app_nil_r. }
  destruct (queue_step e s) as [s1|] eqn:Es; [|done].
  pose proof (IH s1 _ _ (trace_step _ _ _ _ _ H Es) Hr) as Hn. unfold ops_of in Hn. by rewrite <- !app_assoc in Hn.
Qed.

Lemma trace_start maxItems : trace_ok [] [] (queue_start maxItems).
Proof.
  split; [| | |constructor].
  - exists [], 0%nat. split_and!; [apply shape_start|done..].
  - intros t p Ht. simpl in Ht. by rewrite lookup_empty in Ht.
  - by intros t id ?%not_elem_of_nil.
Qed.

(** C23: the queue is first in, first out, and loses nothing.  Whatever the interleaving of
    the accesses of all producers and the consumer, the run is that of a plain queue in
    which a batch enters when its producer swaps the tail and leaves when the head
    moves: the answers of the consumer are the batches in the order they entered, none
    twice; a call that returned true entered its batch, as it was given, once, and a
    call that was refused did not. *)
Theorem queue_is_fifo maxItems es s : queue_run es (queue_start maxItems) = Some s →
  ∃ pending taken, fifo_run (history es (queue_start maxItems)) ([], []) = Some (pending, taken) ∧
    NoDup (taken ++ pending) ∧ NoDup (threads (history es (queue_start maxItems))) ∧
    taken = answered s ++ in_flight (qs_consumer s) ∧
    (∀ t id, Push t id ∈ history es (queue_start maxItems) → sent_by es (qs_queue s) t id) ∧
    (∀ t ok, qs_producers s !! t = Some (PDone ok) → ok = true ↔ pushed (history es (queue_start maxItems)) t).
Proof.
  intros Hr. pose proof (trace_run _ _ _ _ _ (trace_start maxItems) Hr) as H. simpl in H.
  destruct (tr_fifo _ _ _ H) as (ord & d & Hsh & Hf & Ha). exists (drop d ord), (take d ord). split_and!; [done| |apply H|done| |].
  - rewrite take_drop. apply Hsh.
  - intros t id Hin. by apply (tr_sent _ _ _ H).
  - intros t ok Ht. apply (tr_threads _ _ _ H _ _ Ht).
Qed.

(** ** The room *)
Definition total q (ids : list nat) : Z := foldr (λ id n, items_of q id + n) 0 ids.

(** The batches that have entered and whose room has not been given back. *)
Definition live ord (d : nat) (c : consumer) : list nat := match c with CLength id => [id] | _ => [] end ++ drop d ord.

(** The room a producer has reserved, and that it will fill. *)
Definition granted q p : Z :=
  match p with PStamp nodes _ => Z.of_nat (length nodes) | PSwap id => items_of q id | _ => 0 end.
Definition reserved q p : Z := match p with PRollBack n => n | _ => granted q p end.

Definition next_ord (o : option op) ord : list nat := match o with Some (Push _ id) => ord ++ [id] | _ => ord end.
Definition next_d (o : option op) (d : nat) : nat := match o with Some (Pop _) => S d | _ => d end.

Definition sizes_ok s : Prop := ∀ t n, qs_producers s !! t = Some (PRollBack n) → 0 ≤ n.

Record room_ok ord d s : Prop := {
  ro_shape : shape ord d s;
  ro_sizes : sizes_ok s;
  ro_length : q_queueLength (qs_queue s) =
    total (qs_queue s) (live ord d (qs_consumer s)) + map_sum (reserved (qs_queue s)) (qs_producers s);
}.

Lemma items_nonneg q id : 0 ≤ items_of q id.
Proof. unfold items_of. destruct (batch_of q id); simpl; lia. Qed.

Lemma total_nonneg q ids : 0 ≤ total q ids.
Proof. induction ids as [|id ids IH]; simpl; [lia|]. pose proof (items_nonneg q id). lia. Qed.

Lemma total_app q l1 l2 : total q (l1 ++ l2) = total q l1 + total q l2.
Proof. induction l1 as [|id l1 IH]; simpl; lia. Qed.

Lemma total_ge q ids id : id ∈ ids → items_of q id ≤ total q ids.
Proof.
  induction ids as [|x ids IH]; simpl; [by intros ?%not_elem_of_nil|].
  pose proof (items_nonneg q x). pose proof (total_nonneg q ids). intros [->|Hin]%elem_of_cons; [lia|]. specialize (IH Hin). lia.
Qed.

Lemma granted_nonneg q p : 0 ≤ granted q p.
Proof. destruct p; simpl; try lia. apply items_nonneg. Qed.

Lemma reserved_nonneg s t p : sizes_ok s → qs_producers s !! t = Some p → 0 ≤ reserved (qs_queue s) p.
Proof.
  intros Hs Ht. unfold reserved. destruct p; try apply (granted_nonneg (qs_queue s)). by eapply Hs.
Qed.

(** A heap that only grows keeps the sizes of the batches it has. *)
Definition grows q q' : Prop := ∀ id b, batch_of q id = Some b → batch_of q' id = Some b.

Lemma items_grows ord d s q' id : shape ord d s → grows (qs_queue s) q' → (0 < id ≤ length (q_batches (qs_queue s)))%nat →
  items_of q' id = items_of (qs_queue s) id.
Proof.
  intros H Hg Hid. unfold items_of. destruct (lookup_lt_is_Some_2 (q_batches (qs_queue s)) (id - 1)) as [b Hb]; [lia|].
  assert (batch_of (qs_queue s) id = Some b) as E by done. by rewrite E, (Hg _ _ E).
Qed.

Lemma live_ids ord d s id : shape ord d s → id ∈ live ord d (qs_consumer s) → (0 < id ≤ length (q_batches (qs_queue s)))%nat.
Proof.
  intros H [Hin|Hin]%elem_of_app.
  - pose proof (sh_consumer _ _ _ H) as Hc. unfold consumer_ok in Hc. destruct (qs_consumer s); try (by apply not_elem_of_nil in Hin).
    apply list_elem_of_singleton in Hin as ->. destruct Hc as (j & _ & Hj). apply (sh_ids _ _ _ H). by eapply list_elem_of_lookup_2.
  - apply (sh_ids _ _ _ H). apply list_elem_of_lookup in Hin as [i Hi]. rewrite lookup_drop in Hi. by eapply list_elem_of_lookup_2.
Qed.

Lemma total_grows ord d s q' ids : shape ord d s → grows (qs_queue s) q' →
  (∀ id, id ∈ ids → (0 < id ≤ length (q_batches (qs_queue s)))%nat) → total q' ids = total (qs_queue s) ids.
Proof.
  intros H Hg. induction ids as [|id ids IH]; intros Hi; [done|]. simpl. rewrite IH by (intros; apply Hi; by right).
  rewrite (items_grows _ _ _ _ _ H Hg); [done|]. apply Hi. by left.
Qed.

Lemma granted_grows ord d s q' t p : shape ord d s → grows (qs_queue s) q' → qs_producers s !! t = Some p →
  granted q' p = granted (qs_queue s) p.
Proof.
  intros H Hg Ht. destruct p; simpl; try done. eapply items_grows; [done|done|]. apply (sh_producers _ _ _ H _ _ Ht).
Qed.

(** The effect of a producer's step on what is counted. *)
Lemma producer_room ord d s t now p p' q' : room_ok ord d s → qs_producers s !! t = Some p →
  producer_step now p (qs_queue s) = Some (p', q') →
  let live' := live (next_ord (op_of (Producer t now) s) ord) d (qs_consumer s) in
  grows (qs_queue s) q' ∧
  q_queueLength q' + reserved (qs_queue s) p + total (qs_queue s) (live ord d (qs_consumer s)) =
  q_queueLength (qs_queue s) + reserved q' p' + total q' live'.
Proof.
  intros H Ht Es. pose proof (ro_shape _ _ _ H) as Hsh. cbv zeta.
  assert (grows (qs_queue s) q') as Hg.
  { intros id b. eapply (step_batches (Producer t now) s (mkQs q' (<[t := p']> (qs_producers s)) (qs_consumer s) (qs_answers s))).
    simpl. rewrite Ht. simpl. by rewrite Es. }
  split; [done|]. unfold op_of. rewrite Ht.
  assert (total q' (live ord d (qs_consumer s)) = total (qs_queue s) (live ord d (qs_consumer s))) as El.
  { eapply total_grows; [done|done|]. intros id Hid. by eapply live_ids. }
  destruct p as [nodes inps room|n|nodes inps|id|id prev|id|id cur|]; simpl in Es; try (injection Es as <- <-); simpl next_ord;
    rewrite ?El; simpl q_queueLength.
  - case_match; simpl; lia.
  - simpl. lia.
  - simpl. unfold items_of, batch_of. simpl. rewrite length_app, Nat.add_1_r, Nat.sub_succ, Nat.sub_0_r, list_lookup_middle by done.
    simpl. lia.
  - change (total (set_tail id (qs_queue s))) with (total (qs_queue s)). unfold live. rewrite drop_app_le by apply Hsh.
    rewrite app_assoc, (total_app _ _ [id]). simpl. lia.
  - simpl. lia.
  - case_match; simpl; lia.
  - case_match; injection Es as <- <-; simpl; lia.
  - done.
Qed.

Lemma room_step ord d s e s' : room_ok ord d s → queue_step e s = Some s' →
  room_ok (next_ord (op_of e s) ord) (next_d (op_of e s) d) s'.
Proof.
  intros H Hs. pose proof (step_shape _ _ _ _ _ (ro_shape _ _ _ H) Hs) as Hsh'. split.
  - destruct (op_of e s) as [[]|]; [exact Hsh'|apply Hsh'|exact Hsh'].
  - intros t n. pose proof (ro_sizes _ _ _ H t n) as Hz. destruct e as [t0 nodes inps room|t0 now|r|]; simpl in Hs.
    + destruct (qs_producers s !! t0) eqn:Et; [done|]. injection Hs as <-. simpl. destruct (decide (t = t0)) as [->|]; [by rewrite lookup_insert_eq|].
      by rewrite lookup_insert_ne.
    + destruct (qs_producers s !! t0) as [p|] eqn:Et; [|done]. simpl in Hs. destruct (producer_step _ _ _) as [[p' q']|] eqn:Es; [|done].
      injection Hs as <-. simpl. destruct (decide (t = t0)) as [->|]; [|by rewrite lookup_insert_ne].
      rewrite lookup_insert_eq. intros [= ->]. destruct p; simpl in Es; try done; try (injection Es as Ep _); try case_match; simplify_eq. lia.
    + destruct (qs_consumer s); try done. by injection Hs as <-.
    + destruct (consumer_step _ _) as [[[? ?] ?]|]; [|done]. by injection Hs as <-.
  - clear Hsh'. destruct e as [t0 nodes inps room|t0 now|r|].
    + simpl in Hs. destruct (qs_producers s !! t0) eqn:Et; [done|]. injection Hs as <-. simpl.
      rewrite map_sum_insert_new by done. simpl. apply (ro_length _ _ _ H).
    + pose proof Hs as Hs0. simpl in Hs. destruct (qs_producers s !! t0) as [p|] eqn:Et; [|done]. simpl in Hs.
      destruct (producer_step _ _ _) as [[p' q']|] eqn:Es; [|done]. injection Hs as <-. cbn [qs_queue qs_producers qs_consumer].
      destruct (producer_room _ _ _ _ _ _ _ _ H Et Es) as [Hg Hr].
      assert (next_d (op_of (Producer t0 now) s) d = d) as ->.
      { simpl. rewrite Et. by destruct p. }
      rewrite (map_sum_delete _ _ t0 p') by apply lookup_insert_eq. rewrite delete_insert_eq.
      pose proof (ro_length _ _ _ H) as Hl. rewrite (map_sum_delete _ _ t0 p) in Hl by done.
      rewrite (map_sum_ext (reserved q') (reserved (qs_queue s))); [lia|].
      intros k a [Hne Hk]%lookup_delete_Some. unfold reserved. destruct a; try done. simpl.
      exact (granted_grows _ _ _ _ _ _ (ro_shape _ _ _ H) Hg Hk).
    + simpl in Hs. destruct (qs_consumer s) eqn:Ec; try done. injection Hs as <-. simpl.
      pose proof (ro_length _ _ _ H) as Hl. rewrite Ec in Hl. exact Hl.
    + pose proof (ro_length _ _ _ H) as Hl. pose proof (sh_consumer _ _ _ (ro_shape _ _ _ H)) as Hc. unfold consumer_ok in Hc.
      simpl in Hs |- *. destruct (consumer_step _ _) as [[[c a] q']|] eqn:Es; [|done]. injection Hs as <-. cbn [qs_queue qs_producers qs_consumer].
      destruct (qs_consumer s) as [|r|id|id|id|b|b f|b|b]; simpl in Es; try done.
      * case_match; injection Es as <- <- <-; [by case_match|exact Hl].
      * injection Es as <- <- <-. exact Hl.
      * injection Es as <- <- <-. destruct Hc as [Hd _]. simpl in Hl |- *. unfold live in *. simpl in Hl |- *.
        rewrite (drop_S _ _ _ Hd) in Hl. exact Hl.
      * injection Es as <- <- <-. simpl in Hl |- *. unfold live in *. simpl in Hl |- *.
        change (total (add_length (- items_of (qs_queue s) id) (qs_queue s)) (drop d ord)) with (total (qs_queue s) (drop d ord)).
        change (map_sum (reserved (add_length (- items_of (qs_queue s) id) (qs_queue s)))) with (map_sum (reserved (qs_queue s))). lia.
      * case_match; injection Es as <- <- <-; exact Hl.
      * injection Es as <- <- <-. exact Hl.
      * injection Es as <- <- <-. exact Hl.
      * case_match; injection Es as <- <- <-; exact Hl.
Qed.

(** What is in the queue or about to be. *)
Definition grants ord d s : Z :=
  total (qs_queue s) (live ord d (qs_consumer s)) + map_sum (granted (qs_queue s)) (qs_producers s).

Definition part_of ord d s (c : Z) : Prop :=
  (∃ id, id ∈ live ord d (qs_consumer s) ∧ items_of (qs_queue s) id = c) ∨
  (∃ t p, qs_producers s !! t = Some p ∧ granted (qs_queue s) p = c).

Record bound_ok (m : Z) ord d s : Prop := {
  bo_room : room_ok ord d s;
  bo_max : q_maxItems (qs_queue s) = m;
  bo_if_room t nodes inps room : qs_producers s !! t = Some (PReserve nodes inps room) → room = true;
  bo_grants : grants ord d s ≤ m ∨ part_of ord d s (grants ord d s);
}.

Lemma grants_le_length ord d s : room_ok ord d s → grants ord d s ≤ q_queueLength (qs_queue s).
Proof.
  intros H. rewrite (ro_length _ _ _ H). unfold grants.
  assert (map_sum (granted (qs_queue s)) (qs_producers s) ≤ map_sum (reserved (qs_queue s)) (qs_producers s)); [|lia].
  pose proof (ro_sizes _ _ _ H) as Hs. unfold sizes_ok in Hs. revert Hs. generalize (qs_producers s). clear.
  induction g as [|t p m Ht IH] using map_ind; intros Hs; [done|]. rewrite !map_sum_insert_new by done.
  assert (map_sum (granted (qs_queue s)) m ≤ map_sum (reserved (qs_queue s)) m).
  { apply IH. intros t2 n Ht2. apply (Hs t2). rewrite lookup_insert_ne by congruence. done. }
  assert (granted (qs_queue s) p ≤ reserved (qs_queue s) p); [|lia].
  destruct p; simpl; try lia. apply (Hs t). apply lookup_insert_eq.
Qed.

Lemma grants_nonneg ord d s : 0 ≤ grants ord d s.
Proof.
  unfold grants. pose proof (total_nonneg (qs_queue s) (live ord d (qs_consumer s))).
  pose proof (map_sum_nonneg (granted (qs_queue s)) (qs_producers s) (λ _ p _, granted_nonneg (qs_queue s) p)). lia.
Qed.

(** A step of a producer: only an admitted reservation adds to the grants. *)
Lemma producer_grants ord d s t now p p' q' : room_ok ord d s → qs_producers s !! t = Some p →
  producer_step now p (qs_queue s) = Some (p', q') →
  let s' := mkQs q' (<[t := p']> (qs_producers s)) (qs_consumer s) (qs_answers s) in
  let ord' := next_ord (op_of (Producer t now) s) ord in
  grants ord' d s' = grants ord d s + (match p with PReserve _ _ _ => granted q' p' | _ => 0 end) ∧
  ∀ c, c ≠ 0 → part_of ord d s c → part_of ord' d s' c.
Proof.
  intros H Ht Es s' ord'. destruct (producer_room _ _ _ _ _ _ _ _ H Ht Es) as [Hg Hr]. cbv zeta in Hr. fold ord' in Hr.
  pose proof (ro_shape _ _ _ H) as Hsh.
  assert (map_sum (granted q') (delete t (qs_producers s)) = map_sum (granted (qs_queue s)) (delete t (qs_producers s))) as Ed.
  { apply map_sum_ext. intros k a [_ Hk]%lookup_delete_Some. by eapply granted_grows. }
  assert (∀ ids, (∀ id, id ∈ ids → id ∈ live ord d (qs_consumer s)) → total q' ids = total (qs_queue s) ids) as El.
  { intros ids Hi. eapply total_grows; [done|done|]. intros id Hid. eapply live_ids; [done|]. by apply Hi. }
  split.
  - unfold grants, s'. cbn [qs_queue qs_producers qs_consumer].
    rewrite (map_sum_delete (granted q') _ t p') by apply lookup_insert_eq. rewrite delete_insert_eq, Ed.
    rewrite (map_sum_delete (granted (qs_queue s)) (qs_producers s) t p) by done.
    destruct p as [nodes inps room|n|nodes inps|id|id prev|id|id cur|]; simpl in Es; try (injection Es as <- <-).
    + unfold ord'. simpl. rewrite Ht. simpl. change (total (add_length _ _)) with (total (qs_queue s)). lia.
    + simpl in Hr |- *. lia.
    + simpl in Hr |- *. lia.
    + simpl in Hr |- *. lia.
    + simpl in Hr |- *. lia.
    + simpl in Hr |- *. case_match; simpl in Hr |- *; lia.
    + case_match; injection Es as <- <-; simpl in Hr |- *; lia.
    + done.
  - intros c Hc [(id & Hin & Hid)|(t2 & p2 & Ht2 & Hp2)].
    + left. exists id. split.
      * unfold s'. cbn [qs_consumer]. unfold ord'. simpl. rewrite Ht. destruct p; try exact Hin. simpl.
        unfold live in *. rewrite drop_app_le by apply Hsh. rewrite app_assoc. apply elem_of_app. by left.
      * rewrite <- Hid. eapply items_grows; [done|done|]. by eapply live_ids.
    + destruct (decide (t2 = t)) as [->|Hne].
      2:{ right. exists t2, p2. unfold s'. simpl. rewrite lookup_insert_ne by done. split; [done|].
          rewrite <- Hp2. by eapply granted_grows. }
      rewrite Ht in Ht2. injection Ht2 as <-. destruct p as [nodes inps room|n|nodes inps|id|id prev|id|id cur|]; simpl in Hp2; try lia;
        simpl in Es; injection Es as <- <-.
      * right. eexists t, _. unfold s'. simpl. rewrite lookup_insert_eq. split; [done|]. simpl. unfold items_of, batch_of. simpl.
        rewrite length_app, Nat.add_1_r, Nat.sub_succ, Nat.sub_0_r, list_lookup_middle by done. exact Hp2.
      * left. exists id. split; [|exact Hp2]. unfold s', ord'. simpl. rewrite Ht. simpl. unfold live.
        rewrite drop_app_le by apply Hsh. rewrite !elem_of_app, list_elem_of_singleton. by right; right.
Qed.

Lemma bound_step m ord d s e s' : 0 < m → bound_ok m ord d s → queue_step e s = Some s' →
  (∀ t nodes inps room, e = Enqueue t nodes inps room → room = true) →
  bound_ok m (next_ord (op_of e s) ord) (next_d (op_of e s) d) s'.
Proof.
  intros Hm H Hs He. pose proof (bo_room _ _ _ _ H) as Hr. pose proof (room_step _ _ _ _ _ Hr Hs) as Hr'.
  split; [done| | |].
  - rewrite <- (bo_max _ _ _ _ H). destruct e as [t0 nodes inps room|t0 now|r|]; simpl in Hs.
    + case_match; [done|]. by injection Hs as <-.
    + destruct (qs_producers s !! t0) as [p|]; [|done]. simpl in Hs. destruct (producer_step _ _ _) as [[p' q']|] eqn:Es; [|done].
      injection Hs as <-. destruct p; simpl in Es; try done; repeat case_match; by simplify_eq/=.
    + case_match; try done. by injection Hs as <-.
    + destruct (consumer_step _ _) as [[[c a] q']|] eqn:Es; [|done]. injection Hs as <-.
      destruct (qs_consumer s); simpl in Es; try done; repeat case_match; by simplify_eq/=.
  - intros t nodes inps room. pose proof (bo_if_room _ _ _ _ H t nodes inps room) as Hx.
    destruct e as [t0 nodes0 inps0 room0|t0 now|r|]; simpl in Hs.
    + destruct (qs_producers s !! t0) eqn:Et; [done|]. injection Hs as <-. simpl.
      destruct (decide (t = t0)) as [->|]; [|by rewrite lookup_insert_ne].
      rewrite lookup_insert_eq. intros [= _ _ <-]. by eapply He.
    + destruct (qs_producers s !! t0) as [p|] eqn:Et; [|done]. simpl in Hs. destruct (producer_step _ _ _) as [[p' q']|] eqn:Es; [|done].
      injection Hs as <-. simpl. destruct (decide (t = t0)) as [->|]; [|by rewrite lookup_insert_ne].
      rewrite lookup_insert_eq. intros [= ->]. destruct p; simpl in Es; try done; repeat case_match; by simplify_eq.
    + destruct (qs_consumer s); try done. by injection Hs as <-.
    + destruct (consumer_step _ _) as [[[? ?] ?]|]; [|done]. by injection Hs as <-.
  - clear Hr'. pose proof (bo_grants _ _ _ _ H) as Hg. destruct e as [t0 nodes inps room|t0 now|r|].
    + simpl in Hs. destruct (qs_producers s !! t0) eqn:Et; [done|]. injection Hs as <-. simpl.
      assert (grants ord d (mkQs (qs_queue s) (<[t0:=PReserve nodes inps room]> (qs_producers s)) (qs_consumer s) (qs_answers s))
              = grants ord d s) as ->.
      { unfold grants. simpl. rewrite map_sum_insert_new by done. simpl. lia. }
      destruct Hg as [Hg|[Hg|(t & p & Ht & Hp)]]; [by left|by right; left|]. right. right. exists t, p. simpl. split; [|done].
      rewrite lookup_insert_ne; [done|]. intros ->. congruence.
    + pose proof Hs as Hs0. simpl in Hs. destruct (qs_producers s !! t0) as [p|] eqn:Et; [|done]. simpl in Hs.
      destruct (producer_step _ _ _) as [[p' q']|] eqn:Es; [|done]. injection Hs as <-.
      destruct (producer_grants _ _ _ _ _ _ _ _ Hr Et Es) as [Eg Hpart]. cbv zeta in Eg, Hpart.
      assert (next_d (op_of (Producer t0 now) s) d = d) as -> by (simpl; rewrite Et; by destruct p).
      rewrite Eg. assert (grants ord d s + 0 ≤ m ∨ part_of (next_ord (op_of (Producer t0 now) s) ord) d
        (mkQs q' (<[t0:=p']> (qs_producers s)) (qs_consumer s) (qs_answers s)) (grants ord d s + 0)) as Hkeep.
      { rewrite Z.add_0_r. destruct Hg as [Hg|Hg]; [by left|].
        destruct (decide (grants ord d s = 0)) as [E0|]; [left; lia|]. right. by apply Hpart. }
      destruct p as [nodes inps room|n|nodes inps|id|id prev|id|id cur|]; try exact Hkeep.
      simpl in Es. injection Es as <- <-. unfold admitted. cbn [add_length q_maxItems q_queueLength].
      rewrite (bo_if_room _ _ _ _ H _ _ _ _ Et), (bo_max _ _ _ _ H). cbn [negb orb].
      assert (m <=? 0 = false) as -> by lia. cbn [orb].
      destruct (q_queueLength (qs_queue s) + Z.of_nat (length nodes) <=? m) eqn:E1; cbn [orb].
      { left. simpl. pose proof (grants_le_length _ _ _ Hr). apply Z.leb_le in E1. lia. }
      destruct ((Z.of_nat (length nodes) >? m) && (q_queueLength (qs_queue s) + Z.of_nat (length nodes) - Z.of_nat (length nodes) =? 0)) eqn:E2;
        [|simpl; unfold admitted in Hkeep; cbn [add_length q_maxItems q_queueLength] in Hkeep;
          rewrite (bo_if_room _ _ _ _ H _ _ _ _ Et), (bo_max _ _ _ _ H) in Hkeep; cbn [negb orb] in Hkeep;
          rewrite E1, E2 in Hkeep; assert (m <=? 0 = false) as E3 by lia; rewrite E3 in Hkeep; exact Hkeep].
      apply andb_true_iff in E2 as [_ E2%Z.eqb_eq]. pose proof (grants_le_length _ _ _ Hr). pose proof (grants_nonneg ord d s).
      right. right. eexists t0, _. simpl. rewrite lookup_insert_eq. split; [done|]. simpl. lia.
    + simpl in Hs. destruct (qs_consumer s) eqn:Ec; try done. injection Hs as <-. simpl.
      assert (live ord d (CLoad r) = live ord d (qs_consumer s)) as El by by rewrite Ec.
      unfold grants, part_of in *. simpl. rewrite El. exact Hg.
    + pose proof (sh_consumer _ _ _ (ro_shape _ _ _ Hr)) as Hc. unfold consumer_ok in Hc. unfold grants, part_of in *.
      simpl in Hs |- *. destruct (consumer_step _ _) as [[[c a] q']|] eqn:Es; [|done]. injection Hs as <-.
      cbn [qs_queue qs_producers qs_consumer].
      destruct (qs_consumer s) as [|r|id|id|id|b|b f|b|b]; simpl in Es; try done.
      * case_match; injection Es as <- <- <-; [by case_match|exact Hg].
      * injection Es as <- <- <-. exact Hg.
      * injection Es as <- <- <-. destruct Hc as [Hd _]. simpl in Hg |- *. unfold live in *. simpl in Hg |- *.
        rewrite (drop_S _ _ _ Hd) in Hg. exact Hg.
      * injection Es as <- <- <-. simpl in Hg |- *.
        change (total (add_length (- items_of (qs_queue s) id) (qs_queue s))) with (total (qs_queue s)).
        change (items_of (add_length (- items_of (qs_queue s) id) (qs_queue s))) with (items_of (qs_queue s)).
        change (granted (add_length (- items_of (qs_queue s) id) (qs_queue s))) with (granted (qs_queue s)).
        unfold live in *. simpl in Hg |- *.
        set (T := total (qs_queue s) (drop d ord)) in *. set (M := map_sum (granted (qs_queue s)) (qs_producers s)) in *.
        pose proof (items_nonneg (qs_queue s) id).
        assert (0 ≤ T) by apply total_nonneg.
        assert (0 ≤ M) by (apply map_sum_nonneg; intros; apply granted_nonneg).
        destruct Hg as [Hg|[(x & Hin & Hx)|(t & p & Ht & Hp)]]; [left; lia| |].
        -- apply elem_of_cons in Hin as [->|Hin]; [left; lia|].
           pose proof (total_ge (qs_queue s) (drop d ord) x Hin). right. left. exists x. split; [done|]. fold T in H3. lia.
        -- pose proof (map_sum_ge (granted (qs_queue s)) (qs_producers s) t p (λ _ p _, granted_nonneg (qs_queue s) p) Ht) as Hge.
           fold M in Hge. right. right. exists t, p. split; [done|]. lia.
      * case_match; injection Es as <- <- <-; exact Hg.
      * injection Es as <- <- <-. exact Hg.
      * injection Es as <- <- <-. exact Hg.
      * case_match; injection Es as <- <- <-; exact Hg.
Qed.

(** What a step does to the plain queue. *)
Lemma fifo_next ord d s e s' : shape ord d s → queue_step e s = Some s' →
  fifo_run (ops_of e s) (drop d ord, take d ord) =
  Some (drop (next_d (op_of e s) d) (next_ord (op_of e s) ord), take (next_d (op_of e s) d) (next_ord (op_of e s) ord)).
Proof.
  intros H Hs. pose proof (step_shape _ _ _ _ _ H Hs) as Hsh'. unfold ops_of.
  destruct (op_of e s) as [[t id|id]|]; simpl; [|destruct Hsh' as [Hd _]|done].
  - by destruct (fifo_push ord d id (sh_d _ _ _ H)) as [-> ->].
  - by rewrite (drop_S _ _ _ Hd), decide_True, (take_snoc_lookup _ _ _ Hd) by done.
Qed.

Lemma history_cons e es s s' : queue_step e s = Some s' → history (e :: es) s = ops_of e s ++ history es s'.
Proof. intros Hs. simpl. by rewrite Hs. Qed.

(** An invariant of the steps holds after a run, beside the plain queue. *)
Lemma run_invariant (P : list nat → nat → queue_state I → Prop) (allowed : event I → Prop) es s s' ord d :
  (∀ ord d s, P ord d s → shape ord d s) →
  (∀ ord d s e s', P ord d s → allowed e → queue_step e s = Some s' → P (next_ord (op_of e s) ord) (next_d (op_of e s) d) s') →
  P ord d s → (∀ e, e ∈ es → allowed e) → queue_run es s = Some s' →
  ∃ ord' d', fifo_run (history es s) (drop d ord, take d ord) = Some (drop d' ord', take d' ord') ∧ P ord' d' s'.
Proof.
  intros Hsh Hstep. revert s ord d. induction es as [|e es IH]; intros s ord d H He Hr; simpl in Hr.
  { injection Hr as <-. by exists ord, d. }
  destruct (queue_step e s) as [s1|] eqn:Es; [|done].
  destruct (IH s1 _ _ (Hstep _ _ _ _ _ H (He e (list_elem_of_here _ _)) Es)) as (ord' & d' & Hf & H');
    [intros x Hx; apply He; by right|done|].
  exists ord', d'. split; [|done]. rewrite (history_cons _ _ _ _ Es), fifo_run_app, (fifo_next _ _ _ _ _ (Hsh _ _ _ H) Es). exact Hf.
Qed.

(** A capped queue stays within its cap.  When every batch is sent through
    [enqueueBatchIfRoom], the items pending never exceed the cap, except that a batch
    that is larger than the cap on its own may be the whole of what is pending; and the
    counter that admission reads never falls below what is pending. *)
Theorem queue_bounded maxItems es s : 0 < maxItems →
  (∀ t nodes inps room, Enqueue t nodes inps room ∈ es → room = true) →
  queue_run es (queue_start maxItems) = Some s →
  ∃ pending taken, fifo_run (history es (queue_start maxItems)) ([], []) = Some (pending, taken) ∧
    total (qs_queue s) pending ≤ q_queueLength (qs_queue s) ∧
    (total (qs_queue s) pending ≤ maxItems ∨ ∃ id, id ∈ pending ∧ total (qs_queue s) pending = items_of (qs_queue s) id).
Proof.
  intros Hm He Hr.
  destruct (run_invariant (bound_ok maxItems) (λ e, ∀ t nodes inps room, e = Enqueue t nodes inps room → room = true)
    es (queue_start maxItems) s [] 0) as (ord & d & Hf & H); [|intros; by eapply bound_step| |intros e Hin t nodes inps room ->; by eapply He|done|].
  { intros ord d s0 H. apply H. }
  { split; [split; [apply shape_start| |done]|done| |].
    - intros t n. simpl. by rewrite lookup_empty.
    - intros t nodes inps room. simpl. by rewrite lookup_empty.
    - left. change (0 ≤ maxItems). lia. }
  exists (drop d ord), (take d ord). split; [exact Hf|].
  pose proof (grants_le_length _ _ _ (bo_room _ _ _ _ H)) as Hgl. pose proof (bo_grants _ _ _ _ H) as Hg.
  unfold grants in Hgl, Hg. set (M := map_sum _ _) in *.
  assert (0 ≤ M) as HM by (apply map_sum_nonneg; intros; apply granted_nonneg).
  assert (total (qs_queue s) (drop d ord) ≤ total (qs_queue s) (live ord d (qs_consumer s))) as Hle.
  { unfold live. rewrite total_app. pose proof (total_nonneg (qs_queue s) match qs_consumer s with CLength id => [id] | _ => [] end). lia. }
  split; [lia|]. destruct Hg as [Hg|[(id & Hin & E)|(t & p & Ht & E)]]; [left; lia| |].
  - unfold live in Hin, E, Hle. rewrite total_app in E, Hle. apply elem_of_app in Hin as [Hin|Hin].
    + pose proof (total_ge (qs_queue s) _ _ Hin). left. lia.
    + pose proof (total_ge (qs_queue s) _ _ Hin). right. exists id. split; [done|].
      pose proof (total_nonneg (qs_queue s) match qs_consumer s with CLength id => [id] | _ => [] end). lia.
  - pose proof (map_sum_ge (granted (qs_queue s)) (qs_producers s) t p (λ _ p _, granted_nonneg (qs_queue s) p) Ht) as Hge.
    fold M in Hge. left. pose proof (total_nonneg (qs_queue s) (drop d ord)). lia.
Qed.

(** ** The timestamp *)

(** No producer is between the link of the batch and the end of its loop. *)
Definition settled s (id : nat) : Prop :=
  ∀ t p, qs_producers s !! t = Some p → p ≠ PLoad id ∧ ∀ cur, p ≠ PCompareAndSwap id cur.

Definition front_seen s : Prop := ∀ id, q_next (qs_queue s) !! q_head (qs_queue s) = Some id → settled s id →
  0 < q_oldestPendingMillis (qs_queue s) ≤ time_of (qs_queue s) id.

Record seen_ok ord d s : Prop := {
  se_shape : shape ord d s;
  se_times id : (0 < id ≤ length (q_batches (qs_queue s)))%nat → 0 < time_of (qs_queue s) id;
  se_oldest : 0 ≤ q_oldestPendingMillis (qs_queue s);
  se_loads t id cur : qs_producers s !! t = Some (PCompareAndSwap id cur) → cur = 0 ∨ time_of (qs_queue s) id < cur;
  se_front : match qs_consumer s with CIdle | CLoad _ | CReject _ | CHead _ => front_seen s | _ => True end;
}.

Lemma time_grows q q' id : grows q q' → (0 < id ≤ length (q_batches q))%nat → time_of q' id = time_of q id.
Proof.
  intros Hg Hid. unfold time_of. destruct (lookup_lt_is_Some_2 (q_batches q) (id - 1)) as [b Hb]; [lia|].
  assert (batch_of q id = Some b) as E by done. by rewrite E, (Hg _ _ E).
Qed.

(** A producer's step keeps the timestamp of the oldest batch. *)
Lemma producer_front ord d s t now p p' q' : seen_ok ord d s → qs_producers s !! t = Some p →
  producer_step now p (qs_queue s) = Some (p', q') → front_seen s →
  front_seen (mkQs q' (<[t := p']> (qs_producers s)) (qs_consumer s) (qs_answers s)).
Proof.
  intros H Ht Es Hf id Hn Hset. cbn [qs_queue] in *. unfold settled in Hset. simpl in Hset.
  pose proof (se_shape _ _ _ H) as Hsh.
  assert (∀ t2 p2, t2 ≠ t → qs_producers s !! t2 = Some p2 → p2 ≠ PLoad id ∧ ∀ cur, p2 ≠ PCompareAndSwap id cur) as Hoth.
  { intros t2 p2 Hne Ht2. apply (Hset t2). by rewrite lookup_insert_ne. }
  specialize (Hset t p' (lookup_insert_eq _ _ _)).
  assert (p ≠ PLoad id → (∀ cur, p ≠ PCompareAndSwap id cur) → settled s id) as Hother.
  { intros H1 H2 t2 p2 Ht2. destruct (decide (t2 = t)) as [->|Hne]; [|by apply (Hoth t2)].
    rewrite Ht in Ht2. injection Ht2 as <-. by split. }
  destruct p as [nodes inps room|n|nodes inps|x|x prev|x|x cur|]; simpl in Es.
  - injection Es as <- <-. apply (Hf id Hn). by apply Hother.
  - injection Es as <- <-. apply (Hf id Hn). by apply Hother.
  - injection Es as <- <-. simpl in Hn |- *. destruct (Hf id Hn) as [H1 H2]; [by apply Hother|]. split; [done|].
    replace (time_of _ id) with (time_of (qs_queue s) id); [done|]. symmetry. apply time_grows.
    + intros i b Hb. unfold batch_of in *. simpl. by apply lookup_app_l_Some.
    + apply (sh_next_head _ _ _ _ Hsh) in Hn as [Hn _]. apply (sh_ids _ _ _ Hsh). by eapply list_elem_of_lookup_2.
  - injection Es as <- <-. apply (Hf id Hn). by apply Hother.
  - injection Es as <- <-. destruct (decide (x = id)) as [->|Hx]; [by destruct Hset as [[] _]|]. simpl in Hn.
    rewrite lookup_insert_ne in Hn.
    + apply (Hf id Hn). by apply Hother.
    + intros E. rewrite E, lookup_insert_eq in Hn. congruence.
  - injection Es as <- <-. simpl in Hn |- *. destruct (decide (x = id)) as [->|Hx].
    + destruct (negb _ && _) eqn:E; [|by destruct Hset as [_ Hc]; edestruct Hc].
      apply andb_true_iff in E as [E1%negb_true_iff%Z.eqb_neq E2%Z.geb_le].
      split; [|done]. pose proof (se_oldest _ _ _ H). lia.
    + apply (Hf id Hn). apply Hother; congruence.
  - destruct (_ =? cur) eqn:E; injection Es as <- <-.
    + simpl in Hn |- *. destruct (decide (x = id)) as [->|Hx].
      * split; [|reflexivity]. apply (se_times _ _ _ H). pose proof (sh_producers _ _ _ Hsh _ _ Ht) as Hin. by apply (sh_ids _ _ _ Hsh).
      * destruct (Hf id Hn) as [H1 H2]; [apply Hother; congruence|].
        apply Z.eqb_eq in E. destruct (se_loads _ _ _ H _ _ _ Ht) as [|Hlt]; [lia|].
        change (time_of (set_oldest (time_of (qs_queue s) x) (qs_queue s)) id) with (time_of (qs_queue s) id). split; [|lia].
        apply (se_times _ _ _ H). pose proof (sh_producers _ _ _ Hsh _ _ Ht) as Hin. by apply (sh_ids _ _ _ Hsh).
    + destruct (decide (x = id)) as [->|Hx]; [by destruct Hset as [[] _]|].
      apply (Hf id Hn). apply Hother; congruence.
  - done.
Qed.

(** What the event writes in the clock is after the epoch. *)
Definition clocked (e : event I) : Prop := ∀ t now, e = Producer t now → 0 < now.

Lemma seen_step ord d s e s' : seen_ok ord d s → clocked e → queue_step e s = Some s' →
  seen_ok (next_ord (op_of e s) ord) (next_d (op_of e s) d) s'.
Proof.
  intros H He Hs. pose proof (se_shape _ _ _ H) as Hsh. pose proof (step_shape _ _ _ _ _ Hsh Hs) as Hsh'.
  assert (shape (next_ord (op_of e s) ord) (next_d (op_of e s) d) s') as Hn.
  { destruct (op_of e s) as [[]|]; [exact Hsh'|apply Hsh'|exact Hsh']. }
  clear Hsh'. destruct e as [t0 nodes inps room|t0 now|r|]; simpl in Hs.
  - destruct (qs_producers s !! t0) eqn:Et; [done|]. injection Hs as <-. split; [exact Hn|apply H|apply H| |].
    + intros t id cur. simpl. destruct (decide (t = t0)) as [->|]; [by rewrite lookup_insert_eq|].
      rewrite lookup_insert_ne by done. apply (se_loads _ _ _ H).
    + pose proof (se_front _ _ _ H) as Hf. simpl. assert (front_seen s → front_seen (mkQs (qs_queue s) (<[t0:=PReserve nodes inps room]> (qs_producers s)) (qs_consumer s) (qs_answers s))) as Hx.
      { intros Hfr id Hid Hset. apply (Hfr id Hid). intros t p Ht. apply (Hset t). simpl. rewrite lookup_insert_ne; [done|]. congruence. }
      destruct (qs_consumer s); auto.
  - destruct (qs_producers s !! t0) as [p|] eqn:Et; [|done]. simpl in Hs.
    destruct (producer_step now p (qs_queue s)) as [[p' q']|] eqn:Es; [|done]. injection Hs as <-.
    assert (grows (qs_queue s) q') as Hg.
    { intros id b. eapply (step_batches (Producer t0 now) s (mkQs q' (<[t0 := p']> (qs_producers s)) (qs_consumer s) (qs_answers s))).
      simpl. rewrite Et. simpl. by rewrite Es. }
    pose proof (sh_producers _ _ _ Hsh _ _ Et) as Hok.
    split; [exact Hn| | | |]; cbn [qs_queue qs_producers qs_consumer].
    + intros id Hid. destruct (decide (id ≤ length (q_batches (qs_queue s)))%nat).
      { rewrite (time_grows (qs_queue s) q') by (done || lia). apply (se_times _ _ _ H). lia. }
      destruct p; simpl in Es; repeat case_match; simplify_eq/=; try lia.
      rewrite length_app in Hid. simpl in Hid. assert (id = S (length (q_batches (qs_queue s)))) as -> by lia.
      unfold time_of, batch_of. simpl. rewrite Nat.sub_0_r, list_lookup_middle by done. simpl. by eapply He.
    + pose proof (se_oldest _ _ _ H). destruct p; simpl in Es; repeat case_match; simplify_eq/=; try done.
      apply Z.lt_le_incl, (se_times _ _ _ H). by apply (sh_ids _ _ _ Hsh).
    + intros t id cur. destruct (decide (t = t0)) as [->|Ht].
      * rewrite lookup_insert_eq. intros [= ->]. destruct p; simpl in Es; repeat case_match; simplify_eq/=.
        destruct (decide (q_oldestPendingMillis (qs_queue s) = 0)); [by left|right].
        rewrite (proj2 (Z.eqb_neq _ _)) in * by done. simpl in *. lia.
      * rewrite lookup_insert_ne by done. intros Hp. destruct (se_loads _ _ _ H _ _ _ Hp); [by left|right].
        rewrite (time_grows (qs_queue s) q'); [done|done|]. apply (sh_ids _ _ _ Hsh). apply (sh_producers _ _ _ Hsh _ _ Hp).
    + pose proof (se_front _ _ _ H) as Hf. pose proof (producer_front _ _ _ _ _ _ _ _ H Et Es) as Hx. destruct (qs_consumer s); auto.
  - pose proof (se_front _ _ _ H) as Hf. destruct (qs_consumer s) eqn:Ec; try done. injection Hs as <-.
    split; [exact Hn|apply H|apply H|apply H|exact Hf].
  - destruct (consumer_step _ _) as [[[c a] q']|] eqn:Es; [|done]. injection Hs as <-.
    pose proof (se_front _ _ _ H) as Hf. pose proof (sh_consumer _ _ _ Hsh) as Hc. unfold consumer_ok in Hc.
    assert (q_batches q' = q_batches (qs_queue s)) as Eb by (destruct (qs_consumer s); simpl in Es; repeat case_match; by simplify_eq/=).
    assert (∀ id, time_of q' id = time_of (qs_queue s) id) as Etm by (intros id; unfold time_of, batch_of; by rewrite Eb).
    split; [exact Hn| | | |]; cbn [qs_queue qs_producers qs_consumer].
    + intros id. rewrite Eb, Etm. apply (se_times _ _ _ H).
    + pose proof (se_oldest _ _ _ H). assert (∀ id, ord !! d = Some id → 0 ≤ time_of (qs_queue s) id) as Ht.
      { intros id Hid. apply Z.lt_le_incl, (se_times _ _ _ H), (sh_ids _ _ _ Hsh). by eapply list_elem_of_lookup_2. }
      destruct (qs_consumer s); simpl in Es; repeat case_match; simplify_eq/=; try done; by apply Ht, Hc.
    + intros t id cur Hp. rewrite Etm. by apply (se_loads _ _ _ H t).
    + assert (∀ id0 ans, ord !! d = Some id0 ∧ linked s id0 → q' = set_oldest (time_of (qs_queue s) id0) (qs_queue s) →
        front_seen (mkQs q' (qs_producers s) c ans)) as Hstored.
      { intros id0 q0 Hid0 -> id Hid _. cbn [qs_queue] in *. simpl in Hid. apply (sh_next_head _ _ _ _ Hsh) in Hid as [Hid _].
        destruct Hid0 as [Hid0 _]. rewrite Hid0 in Hid. injection Hid as <-. simpl. split; [|reflexivity].
        apply (se_times _ _ _ H), (sh_ids _ _ _ Hsh). by eapply list_elem_of_lookup_2. }
      destruct (qs_consumer s) as [|r|id|id|id|b|b f|b|b]; simpl in Es; try done.
      * destruct (_ !! _) as [j|]; injection Es as <- <- <-; [|done]. destruct (rejects r _); exact Hf.
      * injection Es as <- <- <-. by eapply Hstored.
      * by injection Es as <- <- <-.
      * by injection Es as <- <- <-.
      * destruct (_ !! _) as [j|]; by injection Es as <- <- <-.
      * injection Es as <- <- <-. by eapply Hstored.
      * by injection Es as <- <- <-.
      * destruct (_ !! _) as [j|] eqn:En; injection Es as <- <- <-; [done|]. intros id Hid _. simpl in Hid. congruence.
Qed.

(** C24: the oldest pending batch is never missed.  Between two calls of the consumer, when
    a batch is next to be taken and its producer has finished publishing it, the
    timestamp the queue keeps is set and is no later than that batch's own, whatever
    the interleaving of the racing updates; so [headAgeMillis] never reports less than
    the age of the batch at the head. *)
Theorem oldest_never_missed maxItems es s id now :
  (∀ t now, Producer t now ∈ es → 0 < now) → queue_run es (queue_start maxItems) = Some s →
  qs_consumer s = CIdle → q_next (qs_queue s) !! q_head (qs_queue s) = Some id → settled s id →
  0 < q_oldestPendingMillis (qs_queue s) ≤ time_of (qs_queue s) id ∧
  (q_queueLength (qs_queue s) ≠ 0 → now - time_of (qs_queue s) id ≤ headAgeMillis (qs_queue s) now).
Proof.
  intros He Hr Hc Hn Hset.
  destruct (run_invariant seen_ok clocked es (queue_start maxItems) s [] 0) as (ord & d & _ & H);
    [intros ord d s0 H; apply H|intros; by eapply seen_step| |intros e Hin t n ->; by eapply He|done|].
  { split; [apply shape_start|simpl; lia|done| |].
    - intros t i cur. simpl. by rewrite lookup_empty.
    - intros i. simpl. by rewrite lookup_empty. }
  pose proof (se_front _ _ _ H) as Hf. rewrite Hc in Hf. destruct (Hf id Hn Hset) as [H1 H2]. split; [done|].
  intros Hl. unfold headAgeMillis. rewrite !(proj2 (Z.eqb_neq _ _)) by lia. case_match; lia.
Qed.
End Theorems.

(** Three producers and a consumer; the cap is three items and the third batch finds no room. *)
Definition sample_run : list (event unit) :=
  let n k := replicate k (mkNode zero_hash 0 0) in
  let p t := Producer t (Z.of_nat t) in
  [Enqueue 1 (n 2%nat) [] true; Enqueue 2 (n 1%nat) [] true; Enqueue 3 (n 1%nat) [] true;
   p 1%nat; p 2%nat; p 3%nat; p 1%nat; p 2%nat; p 2%nat; p 1%nat; p 3%nat; p 2%nat; p 2%nat; p 2%nat;
   Dequeue (Valid_from 0); Consumer; Consumer; Consumer; Consumer; Consumer; Consumer;
   p 1%nat; p 1%nat; p 1%nat].

Lemma queue_is_fifo_witness :
  match queue_run sample_run (queue_start 3) with
  | Some s => ∃ pending taken, fifo_run (history sample_run (queue_start 3)) ([], []) = Some (pending, taken) ∧
      NoDup (taken ++ pending) ∧ NoDup (threads (history sample_run (queue_start 3))) ∧
      taken = answered s ++ in_flight (qs_consumer s) ∧
      (∀ t id, Push t id ∈ history sample_run (queue_start 3) → sent_by sample_run (qs_queue s) t id) ∧
      (∀ t ok, qs_producers s !! t = Some (PDone ok) → ok = true ↔ pushed (history sample_run (queue_start 3)) t)
  | None => False
  end.
Proof.
  destruct (queue_run sample_run (queue_start 3)) as [s|] eqn:E; [|vm_compute in E; discriminate].
  exact (queue_is_fifo 3 sample_run s E).
Defined.

Lemma queue_bounded_witness :
  match queue_run sample_run (queue_start 3) with
  | Some s => ∃ pending taken, fifo_run (history sample_run (queue_start 3)) ([], []) = Some (pending, taken) ∧
      total (qs_queue s) pending ≤ q_queueLength (qs_queue s) ∧
      (total (qs_queue s) pending ≤ 3 ∨ ∃ id, id ∈ pending ∧ total (qs_queue s) pending = items_of (qs_queue s) id)
  | None => False
  end.
Proof.
  destruct (queue_run sample_run (queue_start 3)) as [s|] eqn:E; [|vm_compute in E; discriminate].
  refine (queue_bounded 3 sample_run s _ _ E); [lia|].
  assert (Forall (λ e : event unit, match e with Enqueue _ _ _ room => room = true | _ => True end) sample_run) as Ha
    by (unfold sample_run; repeat constructor).
  intros t nodes inps room Hin. exact (proj1 (Forall_forall _ _) Ha _ Hin).
Defined.

Lemma oldest_never_missed_witness :
  match queue_run sample_run (queue_start 3) with
  | Some s => 0 < q_oldestPendingMillis (qs_queue s) ≤ time_of (qs_queue s) 1 ∧
      (q_queueLength (qs_queue s) ≠ 0 → 5 - time_of (qs_queue s) 1 ≤ headAgeMillis (qs_queue s) 5)
  | None => False
  end.
Proof.
  destruct (queue_run sample_run (queue_start 3)) as [s|] eqn:E; [|vm_compute in E; discriminate].
  refine (oldest_never_missed 3 sample_run s 1 5 _ E _ _ _).
  - assert (Forall (λ e : event unit, match e with Producer _ now => 0 < now | _ => True end) sample_run) as Ha
      by (unfold sample_run; repeat constructor).
    intros t now Hin. exact (proj1 (Forall_forall _ _) Ha _ Hin).
  - vm_compute in E. injection E as <-. vm_compute. reflexivity.
  - vm_compute in E. injection E as <-. vm_compute. reflexivity.
  - vm_compute in E. injection E as <-. intros t p Ht. apply elem_of_map_to_list in Ht. vm_compute in Ht.
    repeat (apply elem_of_cons in Ht as [Ht|Ht]; [injection Ht as -> ->; by split|]). by apply not_elem_of_nil in Ht.
Defined.
