(* ===== verification/Assembly.v ===== *)
(** * Block assembly: the subtree processor

    services/blockassembly/subtreeprocessor/SubtreeProcessor.go, coinbase placeholders,
    subtrees and the map of the transactions they hold: adding and removing
    transactions, rebuilding the chain of subtrees, one at a time and in parallel, and
    the check of the whole state.  [Movement] builds block movement on this.

    Everything here runs on the one goroutine that owns the state; a function is a
    program that reads and writes [SubtreeProcessor] and may fail, and what it changed
    before it failed stays changed.  The maps of inpoints are objects in a heap
    ([stp_maps]), since a caller may hold on to a map that a reset replaces.  They are the
    in-memory maps; the maps on disk, memory-mapped subtrees and the sizing of subtrees
    are not modelled.  [stp_newSubtreeChan] records what was sent to storage, and
    [stp_ctx] how many more sends succeed before the context is cancelled. *)

From S2P Require Import Prelude External Merkle GoSubtree Queue.

(** ** github.com/bsv-blockchain/go-subtree: what is called on a subtree under assembly *)
Class AssemblySubtree := {
  NewTreeByLeafCount : Z → result SubtreeData;
  AddCoinbaseNode : SubtreeData → result SubtreeData;
  AddSubtreeNode : SubtreeData → Node → result SubtreeData;
  IsComplete : SubtreeData → bool;
  Size : SubtreeData → Z;
  NodeIndex : SubtreeData → Hash → Z;
  RemoveNodeAtIndex : SubtreeData → Z → result SubtreeData;
  Duplicate : SubtreeData → SubtreeData;
  SizeInBytes : SubtreeData → Z;
}.

Definition placeholder_node `{Subtree} : Node := mkNode CoinbasePlaceholderHashValue 0 0.

(** Where a hash is first found, or -1. *)
Fixpoint index_of_hash (h : Hash) (nodes : list Node) : Z :=
  match nodes with
  | [] => -1
  | n :: nodes => if bool_decide (node_Hash n = h) then 0
                  else let i := index_of_hash h nodes in if i <? 0 then -1 else 1 + i
  end.

Class AssemblySubtreeSpec {SUB : Subtree} {GS : GoSubtree} (S : AssemblySubtree) : Prop := {
  NewTreeByLeafCount_spec n st : NewTreeByLeafCount n = Ok st →
    st_Nodes st = [] ∧ st_claimed st = None ∧ Z.of_nat (st_capacity st) = n ∧ n = 2 ^ Z.of_nat (st_Height st);
  NewTreeByLeafCount_total (k : nat) : ∃ st, NewTreeByLeafCount (2 ^ Z.of_nat k) = Ok st;
  AddCoinbaseNode_spec st : st_Nodes st = [] →
    AddCoinbaseNode st = Ok (mkSubtree [placeholder_node] (st_Height st) (st_capacity st) None);
  AddSubtreeNode_room st n : (length (st_Nodes st) < st_capacity st)%nat →
    node_Hash n ≠ CoinbasePlaceholderHashValue →
    AddSubtreeNode st n = Ok (mkSubtree (st_Nodes st ++ [n]) (st_Height st) (st_capacity st) None);
  AddSubtreeNode_refused st n : (st_capacity st ≤ length (st_Nodes st))%nat ∨ node_Hash n = CoinbasePlaceholderHashValue →
    ∃ e, AddSubtreeNode st n = Err e;
  AddNode_as_AddSubtreeNode st n : AddNode st (node_Hash n) (node_Fee n) (node_SizeInBytes n) = AddSubtreeNode st n;
  IsComplete_spec st : IsComplete st = bool_decide (length (st_Nodes st) = st_capacity st);
  Size_spec st : Size st = Z.of_nat (st_capacity st);
  NodeIndex_spec st h : NodeIndex st h = index_of_hash h (st_Nodes st);
  RemoveNodeAtIndex_spec st (i : nat) : (i < length (st_Nodes st))%nat →
    RemoveNodeAtIndex st (Z.of_nat i) = Ok (mkSubtree (delete i (st_Nodes st)) (st_Height st) (st_capacity st) None);
  Duplicate_spec st : st_Nodes (Duplicate st) = st_Nodes st ∧ st_Height (Duplicate st) = st_Height st;
  SizeInBytes_spec st : st_claimed st = None →
    SizeInBytes st = u64 (foldr Z.add 0 (map node_SizeInBytes (st_Nodes st)));
}.

(** The parents of a [subtree.TxInpoints]. *)
Class TxInpointsOps (I : Type) := { ParentTxHashes : I → list Hash }.

Section Assembly.
  Context {I : Type} {TI : TxInpointsOps I}.
  Context {CH : Chainhash} {SUB : Subtree} {GS : GoSubtree} {AS : AssemblySubtree}.

(** ** State *)

(** A nil [*TxInpoints] is [None]. *)
#[local] Notation TxInpointsMap := (gmap Hash (option I)).

Record NewSubtreeRequest := mkRequest { rq_Subtree : SubtreeData; rq_SkipNotification : bool }.

Record SubtreeProcessor := mkStp {
  stp_chainedSubtrees : list SubtreeData;
  stp_currentSubtree : option SubtreeData;
  stp_maps : gmap nat TxInpointsMap;
  stp_currentTxMap : nat;
  stp_currentTxMapShadow : nat;
  stp_disableCurrentTxMapPool : bool;
  stp_removeMap : gset Hash;
  stp_deletedTxs : gmap Hash I;
  stp_txCount : Z;
  stp_chainedSubtreeCount : Z;
  stp_chainedSubtreesTotalSize : Z;
  stp_currentItemsPerFile : Z;
  stp_currentBlockHeader : option Hash;
  stp_subtreesInBlock : Z;
  stp_precomputedMiningData : option (Hash * list SubtreeData);
  stp_queue : list (TxBatch (option I));
  stp_newSubtreeChan : list NewSubtreeRequest;
  stp_ctx : option nat;
}.

(** The state with one field replaced. *)
Definition same (s : SubtreeProcessor) : SubtreeProcessor :=
  mkStp (stp_chainedSubtrees s) (stp_currentSubtree s) (stp_maps s) (stp_currentTxMap s) (stp_currentTxMapShadow s)
    (stp_disableCurrentTxMapPool s) (stp_removeMap s) (stp_deletedTxs s) (stp_txCount s) (stp_chainedSubtreeCount s)
    (stp_chainedSubtreesTotalSize s) (stp_currentItemsPerFile s) (stp_currentBlockHeader s) (stp_subtreesInBlock s)
    (stp_precomputedMiningData s) (stp_queue s) (stp_newSubtreeChan s) (stp_ctx s).

Ltac replace_field f v s :=
  let b := eval cbv beta delta [same] in (same s) in
  match b with context C [f s] => let b' := context C [v] in exact b' end.

Definition set_chainedSubtrees (v : list SubtreeData) (s : SubtreeProcessor) : SubtreeProcessor := ltac:(replace_field stp_chainedSubtrees v s).
Definition set_currentSubtree (v : option SubtreeData) (s : SubtreeProcessor) : SubtreeProcessor := ltac:(replace_field stp_currentSubtree v s).
Definition set_maps (v : gmap nat TxInpointsMap) (s : SubtreeProcessor) : SubtreeProcessor := ltac:(replace_field stp_maps v s).
Definition set_currentTxMap (v : nat) (s : SubtreeProcessor) : SubtreeProcessor := ltac:(replace_field stp_currentTxMap v s).
Definition set_currentTxMapShadow (v : nat) (s : SubtreeProcessor) : SubtreeProcessor := ltac:(replace_field stp_currentTxMapShadow v s).
Definition set_removeMap (v : gset Hash) (s : SubtreeProcessor) : SubtreeProcessor := ltac:(replace_field stp_removeMap v s).
Definition set_deletedTxs (v : gmap Hash I) (s : SubtreeProcessor) : SubtreeProcessor := ltac:(replace_field stp_deletedTxs v s).
Definition set_txCount (v : Z) (s : SubtreeProcessor) : SubtreeProcessor := ltac:(replace_field stp_txCount v s).
Definition set_chainedSubtreeCount (v : Z) (s : SubtreeProcessor) : SubtreeProcessor := ltac:(replace_field stp_chainedSubtreeCount v s).
Definition set_chainedSubtreesTotalSize (v : Z) (s : SubtreeProcessor) : SubtreeProcessor := ltac:(replace_field stp_chainedSubtreesTotalSize v s).
Definition set_currentBlockHeader (v : option Hash) (s : SubtreeProcessor) : SubtreeProcessor := ltac:(replace_field stp_currentBlockHeader v s).
Definition set_subtreesInBlock (v : Z) (s : SubtreeProcessor) : SubtreeProcessor := ltac:(replace_field stp_subtreesInBlock v s).
Definition set_precomputedMiningData (v : option (Hash * list SubtreeData)) (s : SubtreeProcessor) : SubtreeProcessor := ltac:(replace_field stp_precomputedMiningData v s).
Definition set_queue (v : list (TxBatch (option I))) (s : SubtreeProcessor) : SubtreeProcessor := ltac:(replace_field stp_queue v s).
Definition set_newSubtreeChan (v : list NewSubtreeRequest) (s : SubtreeProcessor) : SubtreeProcessor := ltac:(replace_field stp_newSubtreeChan v s).
Definition set_ctx (v : option nat) (s : SubtreeProcessor) : SubtreeProcessor := ltac:(replace_field stp_ctx v s).

(** ** Programs over the state *)
Definition M (A : Type) : Type := SubtreeProcessor → result A * SubtreeProcessor.
Definition retM {A} (a : A) : M A := λ s, (Ok a, s).
Definition failM {A} (e : error) : M A := λ s, (Err e, s).
Definition bindM {A B} (m : M A) (f : A → M B) : M B :=
  λ s, match m s with (Ok a, s) => f a s | (Err e, s) => (Err e, s) end.
Definition liftM {A} (r : result A) : M A := λ s, (r, s).
Definition readM {A} (f : SubtreeProcessor → A) : M A := λ s, (Ok (f s), s).
Definition writeM (f : SubtreeProcessor → SubtreeProcessor) : M unit := λ s, (Ok tt, f s).
Definition wrapM {A} (c : ERR) (m : M A) : M A := λ s, let '(r, s) := m s in (wrapR c r, s).

(** [if err := m; err != nil { log }] *)
Definition logM (m : M unit) : M unit := λ s, (Ok tt, (m s).2).

#[local] Notation "'let!' x := m 'in' k" := (bindM m (λ x, k)) (at level 200, x name, m at level 100, k at level 200).
#[local] Notation "m ';!' k" := (bindM m (λ _, k)) (at level 199, right associativity).

Fixpoint forM {A} (f : A → M unit) (l : list A) : M unit :=
  match l with [] => retM tt | a :: l => f a ;! forM f l end.

(** ** The map of the transactions held *)
Definition map_at (ref : nat) (s : SubtreeProcessor) : TxInpointsMap := default ∅ (stp_maps s !! ref).
Definition current_map (s : SubtreeProcessor) : TxInpointsMap := map_at (stp_currentTxMap s) s.
Definition put_map (ref : nat) (m : TxInpointsMap) (s : SubtreeProcessor) : SubtreeProcessor :=
  set_maps (<[ref := m]> (stp_maps s)) s.
Definition write_current (f : TxInpointsMap → TxInpointsMap) (s : SubtreeProcessor) : SubtreeProcessor :=
  put_map (stp_currentTxMap s) (f (current_map s)) s.

Definition map_Set (h : Hash) (i : option I) : M unit := writeM (write_current (<[h := i]>)).
Definition map_Delete (h : Hash) : M unit := writeM (write_current (delete h)).
Definition SetIfNotExists (h : Hash) (i : option I) : M bool :=
  λ s, match current_map s !! h with
       | Some _ => (Ok false, s)
       | None => (Ok true, write_current (<[h := i]>) s)
       end.

Definition deleted_Set (h : Hash) (i : option I) : M unit :=
  writeM (λ s, match i with Some i => set_deletedTxs (<[h := i]> (stp_deletedTxs s)) s | None => s end).

(** ** Counters, storage and mining data *)
Definition txCount_Add (n : Z) (s : SubtreeProcessor) : SubtreeProcessor := set_txCount (u64 (stp_txCount s + n)) s.

Definition setTxCountFromSubtrees : M unit := λ s,
  match stp_currentSubtree s with
  | None => (Err panic, s)
  | Some st => (Ok tt, set_txCount (u64 (foldr Z.add 0 (map Length (stp_chainedSubtrees s)) + Length st)) s)
  end.

(** A processor before its first transaction. *)
Definition NewSubtreeProcessor (SubtreeAnnouncementInterval initialItemsPerFile : Z) (ctx : option nat) : result SubtreeProcessor :=
  if SubtreeAnnouncementInterval <=? 0 then Err (err ERR_INVALID_ARGUMENT) else
  let? st := wrapR ERR_INVALID_ARGUMENT (foreignR (NewTreeByLeafCount initialItemsPerFile)) in
  let? st := wrapR ERR_INVALID_ARGUMENT (foreignR (AddCoinbaseNode st)) in
  Ok (setTxCountFromSubtrees
        (mkStp [] (Some st) {[ 0%nat := ∅; 1%nat := ∅ ]} 0 1 false ∅ ∅ 0 0 0 (i32 initialItemsPerFile) None 0 None [] [] ctx)).2.

Definition InitCurrentBlockHeader (header : Hash) : M unit :=
  writeM (λ s, set_subtreesInBlock 0 (set_currentBlockHeader (Some header) s)).

Definition total_size (sts : list SubtreeData) : Z := u64 (foldr Z.add 0 (map SizeInBytes sts)).

Definition updateChainedSubtreeCounts : M unit := writeM (λ s,
  set_chainedSubtreesTotalSize (total_size (stp_chainedSubtrees s))
    (set_chainedSubtreeCount (i32 (Z.of_nat (length (stp_chainedSubtrees s)))) s)).

Definition newSubtree (leafCount : Z) : M SubtreeData := liftM (foreignR (NewTreeByLeafCount leafCount)).

Definition sendNewSubtree (req : NewSubtreeRequest) : M unit := λ s,
  match stp_ctx s with
  | Some O => (Err (err ERR_UNKNOWN), s)
  | n => (Ok tt, set_ctx (pred <$> n) (set_newSubtreeChan (stp_newSubtreeChan s ++ [req]) s))
  end.

Definition updatePrecomputedMiningData : M unit := writeM (λ s,
  match stp_currentBlockHeader s with
  | None => s
  | Some header => set_precomputedMiningData (Some (header, stp_chainedSubtrees s)) s
  end).

Definition currentM : M SubtreeData := λ s,
  match stp_currentSubtree s with Some st => (Ok st, s) | None => (Err panic, s) end.

Definition chain_append (st : SubtreeData) (s : SubtreeProcessor) : SubtreeProcessor :=
  set_subtreesInBlock (stp_subtreesInBlock s + 1)
    (set_chainedSubtreesTotalSize (u64 (stp_chainedSubtreesTotalSize s + SizeInBytes st))
      (set_chainedSubtreeCount (i32 (stp_chainedSubtreeCount s + 1))
        (set_chainedSubtrees (stp_chainedSubtrees s ++ [st]) s))).

Definition announce (st : SubtreeData) (skipNotification : bool) : M unit :=
  wrapM ERR_PROCESSING (sendNewSubtree (mkRequest st skipNotification)) ;!
  updatePrecomputedMiningData.

Definition processCompleteSubtree (skipNotification : bool) : M unit :=
  let! st := currentM in
  writeM (chain_append st) ;!
  let! new := wrapM ERR_PROCESSING (newSubtree (Size st)) in
  writeM (set_currentSubtree (Some new)) ;!
  announce st skipNotification.

(** ** Adding transactions one at a time *)

(** The current subtree; the first of a block starts with the coinbase placeholder. *)
Definition open_subtree : M unit := λ s,
  match stp_currentSubtree s with
  | Some _ => (Ok tt, s)
  | None =>
      (let! st := newSubtree (stp_currentItemsPerFile s) in
       writeM (set_currentSubtree (Some st)) ;!
       let! st := liftM (foreignR (AddCoinbaseNode st)) in
       writeM (λ s, txCount_Add 1 (set_currentSubtree (Some st) s))) s
  end.

Definition addNodePreValidated (node : Node) (skipNotification : bool) : M unit :=
  open_subtree ;!
  let! st := currentM in
  let! st := liftM (wrapR ERR_PROCESSING (foreignR (AddSubtreeNode st node))) in
  writeM (set_currentSubtree (Some st)) ;!
  if IsComplete st then processCompleteSubtree skipNotification else retM tt.

Definition addNode (node : Node) (parents : option I) (skipNotification : bool) : M unit :=
  match parents with
  | None =>
      let! held := readM (λ s, bool_decide (is_Some (current_map s !! node_Hash node))) in
      if negb held then failM (err ERR_PROCESSING) else addNodePreValidated node skipNotification
  | Some _ =>
      let! wasSet := SetIfNotExists (node_Hash node) parents in
      if negb wasSet then retM tt else addNodePreValidated node skipNotification
  end.

Definition addDirectly (node : Node) (txInpoints : option I) (skipNotification : bool) : M unit :=
  wrapM ERR_PROCESSING (addNode node txInpoints skipNotification) ;!
  writeM (txCount_Add 1).

Record UnminedTransaction := mkUnmined { um_Node : Node; um_TxInpoints : option I }.

(** Place one of a list: an error leaves what was placed. *)
Definition place_directly (skipNotification : bool) (tx : UnminedTransaction) : M unit :=
  let! st := currentM in
  let! st' := liftM (wrapR ERR_PROCESSING (foreignR (AddSubtreeNode st (um_Node tx)))) in
  writeM (set_currentSubtree (Some st')) ;!
  if Size st <=? Length st' then wrapM ERR_PROCESSING (processCompleteSubtree skipNotification) else retM tt.

(** [writes] is [txs] in the order in which the workers stored them. *)
Definition addNodesDirectly (writes txs : list UnminedTransaction) (skipNotification : bool) : M unit :=
  match txs with
  | [] => retM tt
  | _ =>
      let! first := readM (λ s, bool_decide (stp_currentSubtree s = None)) in
      (if first : bool then
         let! n := readM stp_currentItemsPerFile in
         let! st := wrapM ERR_PROCESSING (newSubtree n) in
         writeM (set_currentSubtree (Some st)) ;!
         let! st := liftM (wrapR ERR_PROCESSING (foreignR (AddCoinbaseNode st))) in
         writeM (set_currentSubtree (Some st))
       else retM tt) ;!
      forM (λ tx, map_Set (node_Hash (um_Node tx)) (um_TxInpoints tx)) writes ;!
      forM (place_directly skipNotification) txs ;!
      writeM (txCount_Add (Z.of_nat (length txs) + if first then 1 else 0))
  end.

(** ** Removing transactions *)

(** The position in a subtree, and which chained subtree (-1: the current one). *)
Fixpoint locate_chained (hash : Hash) (i : Z) (sts : list SubtreeData) : Z * Z :=
  match sts with
  | [] => (-1, -1)
  | st :: sts => let idx := NodeIndex st hash in if 0 <=? idx then (idx, i) else locate_chained hash (i + 1) sts
  end.

Definition locateTxInSubtrees (hash : Hash) : M (Z * Z) :=
  let! st := currentM in
  let foundIndex := NodeIndex st hash in
  if foundIndex =? -1 then readM (λ s, locate_chained hash 0 (stp_chainedSubtrees s)) else retM (foundIndex, -1).

Definition subtreeLeafCount (st : SubtreeData) : Z := Z.shiftl 1 (Z.of_nat (st_Height st)).

Definition duplicateKeepingCapacity (st : SubtreeData) : result SubtreeData :=
  let? d := foreignR (NewTreeByLeafCount (subtreeLeafCount st)) in
  Ok (mkSubtree (st_Nodes d ++ st_Nodes st) (st_Height d) (st_capacity d) (st_claimed d)).

(** The transaction leaves the map; its inpoints are kept for storage that still runs. *)
Definition forget (hash : Hash) : M unit :=
  let! inpoints := readM (λ s, current_map s !! hash) in
  match inpoints with Some i => deleted_Set hash i | None => retM tt end ;!
  map_Delete hash.

Definition set_chained (i : nat) (st : SubtreeData) : M unit :=
  writeM (λ s, set_chainedSubtrees (<[i := st]> (stp_chainedSubtrees s)) s).

Definition chainedM (i : Z) : M SubtreeData := λ s,
  match stp_chainedSubtrees s !! Z.to_nat i with Some st => (Ok st, s) | None => (Err panic, s) end.

(** A copy replaces the subtree before a node of it is removed. *)
Definition remove_from_chained (i index : Z) : M unit :=
  let! st := chainedM i in
  set_chained (Z.to_nat i) (Duplicate st) ;!
  let! st := liftM (wrapR ERR_PROCESSING (foreignR (RemoveNodeAtIndex (Duplicate st) index))) in
  set_chained (Z.to_nat i) st.

(** A node again, unless it is a placeholder. *)
Definition readd (node : Node) : M unit :=
  if bool_decide (node_Hash node = CoinbasePlaceholderHashValue) then retM tt
  else wrapM ERR_PROCESSING (addNode node None true).

Definition reChainSubtrees (fromIndex : nat) : M unit :=
  let! chained := readM stp_chainedSubtrees in
  let! current := currentM in
  let originalSubtrees := drop fromIndex chained ++ [current] in
  writeM (λ s, set_chainedSubtreesTotalSize (total_size (take fromIndex chained))
    (set_chainedSubtreeCount (Z.of_nat fromIndex) (set_chainedSubtrees (take fromIndex chained) s))) ;!
  let! new := wrapM ERR_PROCESSING (newSubtree (subtreeLeafCount current)) in
  writeM (set_currentSubtree (Some new)) ;!
  (if (fromIndex =? 0)%nat then
     let! new := liftM (wrapR ERR_PROCESSING (foreignR (AddCoinbaseNode new))) in
     writeM (set_currentSubtree (Some new))
   else retM tt) ;!
  forM (λ st, forM readd (st_Nodes st)) originalSubtrees.

Definition removeTxFromSubtrees (hash : Hash) : M unit :=
  let! found := locateTxInSubtrees hash in
  let '(foundIndex, foundSubtreeIndex) := found in
  if foundIndex <? 0 then retM tt else
  forget hash ;!
  if foundSubtreeIndex =? -1 then
    let! st := currentM in
    let! st := liftM (wrapR ERR_PROCESSING (duplicateKeepingCapacity st)) in
    let! st := liftM (wrapR ERR_PROCESSING (foreignR (RemoveNodeAtIndex st foundIndex))) in
    writeM (set_currentSubtree (Some st))
  else
    remove_from_chained foundSubtreeIndex foundIndex ;!
    wrapM ERR_PROCESSING (reChainSubtrees (Z.to_nat foundSubtreeIndex)).

(** One of several: whether it was found. *)
Definition remove_one (hash : Hash) : M bool :=
  let! found := locateTxInSubtrees hash in
  let '(foundIndex, foundSubtreeIndex) := found in
  if foundIndex <? 0 then retM false else
  forget hash ;!
  (if foundSubtreeIndex =? -1 then
     let! st := currentM in
     let! st := liftM (wrapR ERR_PROCESSING (foreignR (RemoveNodeAtIndex (Duplicate st) foundIndex))) in
     writeM (set_currentSubtree (Some st))
   else remove_from_chained foundSubtreeIndex foundIndex) ;!
  retM true.

Fixpoint remove_each (removedAny : bool) (hashes : list Hash) : M bool :=
  match hashes with
  | [] => retM removedAny
  | hash :: hashes => let! removed := remove_one hash in remove_each (removedAny || removed) hashes
  end.

Definition removeTxsFromSubtrees (hashes : list Hash) : M unit :=
  let! removedAny := remove_each false hashes in
  if removedAny : bool then wrapM ERR_PROCESSING (reChainSubtrees 0) else retM tt.

(** [Remove] marks the transaction; the request that removes it from the subtrees is
    [removeTxFromSubtrees], on the processor's own goroutine. *)
Definition Remove (hash : Hash) : M unit := writeM (λ s, set_removeMap ({[hash]} ∪ stp_removeMap s) s).

(** ** The check of the whole state *)
Fixpoint check_chained (held : TxInpointsMap) (subtreeIdx nodeIdx : nat) (nodes : list Node) : result unit :=
  match nodes with
  | [] => Ok tt
  | node :: nodes =>
      if bool_decide (node_Hash node = CoinbasePlaceholderHashValue) then
        if ((subtreeIdx =? 0)%nat && (nodeIdx =? 0)%nat)%bool then check_chained held subtreeIdx (S nodeIdx) nodes
        else Err (err ERR_SUBTREE_ERROR)
      else if bool_decide (is_Some (held !! node_Hash node)) then check_chained held subtreeIdx (S nodeIdx) nodes
      else Err (err ERR_SUBTREE_ERROR)
  end.

Fixpoint check_all_chained (held : TxInpointsMap) (subtreeIdx : nat) (sts : list SubtreeData) : result unit :=
  match sts with
  | [] => Ok tt
  | st :: sts => let? _ := check_chained held subtreeIdx 0 (st_Nodes st) in check_all_chained held (S subtreeIdx) sts
  end.

Fixpoint check_current (held : TxInpointsMap) (nodeIdx : nat) (nodes : list Node) : result unit :=
  match nodes with
  | [] => Ok tt
  | node :: nodes =>
      if bool_decide (is_Some (held !! node_Hash node)) then check_current held (S nodeIdx) nodes
      else if bool_decide (node_Hash node = CoinbasePlaceholderHashValue) && (nodeIdx =? 0)%nat
      then check_current held (S nodeIdx) nodes
      else Err (err ERR_SUBTREE_ERROR)
  end.

Definition checkSubtreeProcessor : M unit :=
  let! held := readM current_map in
  let! chained := readM stp_chainedSubtrees in
  liftM (check_all_chained held 0 chained) ;!
  let! st := currentM in
  liftM (check_current held 0 (st_Nodes st)) ;!
  setTxCountFromSubtrees ;!
  let! n := readM stp_txCount in
  if Z.of_nat (size held) =? n - 1 then retM tt else failM (err ERR_SUBTREE_ERROR).

(** ** Building subtrees in bulk *)

(** Nodes added to one subtree until one is refused; the subtree keeps those before it. *)
Fixpoint fill (add : SubtreeData → Node → result SubtreeData) (st : SubtreeData) (nodes : list Node)
  : result unit * SubtreeData :=
  match nodes with
  | [] => (Ok tt, st)
  | n :: nodes =>
      match foreignR (add st n) with
      | Ok st => fill add st nodes
      | Err e => (Err e, st)
      end
  end.

Definition add_parts (st : SubtreeData) (n : Node) : result SubtreeData :=
  AddNode st (node_Hash n) (node_Fee n) (node_SizeInBytes n).

Fixpoint chunks (n : nat) (size : nat) {A} (l : list A) : list (list A) :=
  match n with O => [] | S n => take size l :: chunks n size (drop size l) end.

(** A subtree of its own for every chunk: no two workers share one. *)
Fixpoint build_all (size : Z) (css : list (list Node)) : result (list SubtreeData) :=
  match css with
  | [] => Ok []
  | nodes :: css =>
      let? st := foreignR (NewTreeByLeafCount size) in
      let '(r, st) := fill add_parts st nodes in
      let? _ := r in
      let? sts := build_all size css in
      Ok (st :: sts)
  end.

Definition fill_current (add : SubtreeData → Node → result SubtreeData) (nodes : list Node) : M unit := λ s,
  match stp_currentSubtree s with
  | None => (Err panic, s)
  | Some st => let '(r, st) := fill add st nodes in (r, set_currentSubtree (Some st) s)
  end.

(** The first phase: the subtree there is.  The answer is how many nodes it took and
    whether there is a subtree to fill in the last phase. *)
Definition bulk_first (nodes : list Node) (subtreeSize : Z) : M (nat * bool) :=
  let! cur := readM stp_currentSubtree in
  match cur with
  | None => retM (0%nat, false)
  | Some st =>
      let fillCount := Z.to_nat (Z.min (subtreeSize - Length st) (Z.of_nat (length nodes))) in
      fill_current add_parts (take fillCount nodes) ;!
      let! st := currentM in
      if IsComplete st then
        writeM (λ s, set_chainedSubtrees (stp_chainedSubtrees s ++ [st]) s) ;!
        let! new := newSubtree subtreeSize in
        writeM (set_currentSubtree (Some new)) ;!
        retM (fillCount, true)
      else retM (fillCount, false)
  end.

Definition bulkBuildSubtrees (nodes : list Node) (subtreeSize : Z) : M unit :=
  match nodes with
  | [] => retM tt
  | _ =>
      let! hadCurrent := readM (λ s, bool_decide (is_Some (stp_currentSubtree s))) in
      let! first := bulk_first nodes subtreeSize in
      let '(nodeIdx, emptySt) := first in
      let remainingNodes := drop nodeIdx nodes in
      if bool_decide (remainingNodes = []) then updateChainedSubtreeCounts else
      if subtreeSize =? 0 then failM panic else
      let numFullSubtrees := Z.to_nat (Z.of_nat (length remainingNodes) / subtreeSize) in
      let lastCount := Z.of_nat (length remainingNodes) mod subtreeSize in
      let! full := liftM (build_all subtreeSize (chunks numFullSubtrees (Z.to_nat subtreeSize) remainingNodes)) in
      writeM (λ s, set_chainedSubtrees (stp_chainedSubtrees s ++ full) s) ;!
      (if 0 <? lastCount then
         let! st := (if emptySt : bool then currentM else newSubtree subtreeSize) in
         let '(r, st) := fill add_parts st (drop (numFullSubtrees * Z.to_nat subtreeSize) remainingNodes) in
         (if emptySt : bool then writeM (set_currentSubtree (Some st)) else retM tt) ;!
         liftM r ;!
         writeM (set_currentSubtree (Some st))
       else if negb hadCurrent && negb emptySt then
         let! st := newSubtree subtreeSize in writeM (set_currentSubtree (Some st))
       else retM tt) ;!
      updateChainedSubtreeCounts
  end.

(** The remainder of a block.  The chunks are filled in parallel: the first is the rest of
    the current subtree, the others each have a subtree of their own.  What completing a
    subtree entails is then done for each, in order. *)
Fixpoint allocate (leafCount : Z) (n : nat) : result (list SubtreeData) :=
  match n with
  | O => Ok []
  | S n => let? st := foreignR (NewTreeByLeafCount leafCount) in let? sts := allocate leafCount n in Ok (st :: sts)
  end.

Fixpoint fill_all (sts : list SubtreeData) (css : list (list Node)) : result (list SubtreeData) :=
  match sts, css with
  | st :: sts, nodes :: css =>
      let '(r, st) := fill AddSubtreeNode st nodes in
      let? _ := wrapR ERR_PROCESSING r in
      let? sts := fill_all sts css in
      Ok (st :: sts)
  | _, _ => Ok []
  end.

Definition complete_built (skipNotification : bool) (st : SubtreeData) : M unit :=
  writeM (chain_append st) ;! announce st skipNotification.

Definition parallelBuildRemainderSubtrees (kept : list Node) (skipNotification : bool) : M unit :=
  match kept with
  | [] => retM tt
  | _ =>
      let! current := readM stp_currentSubtree in
      match current with
      | None => failM (err ERR_PROCESSING)
      | Some currentSubtree =>
          let leafCount := Size currentSubtree in
          let firstChunkCap := leafCount - Length currentSubtree in
          if firstChunkCap <=? 0 then failM (err ERR_PROCESSING) else
          let firstLen := Z.to_nat (Z.min firstChunkCap (Z.of_nat (length kept))) in
          let rest := drop firstLen kept in
          let n := Z.to_nat ((Z.of_nat (length rest) + leafCount - 1) / leafCount) in
          let! fresh := liftM (wrapR ERR_PROCESSING (allocate leafCount n)) in
          let! ctx := readM stp_ctx in
          if bool_decide (ctx = Some O) then failM (err ERR_UNKNOWN) else
          wrapM ERR_PROCESSING (fill_current AddSubtreeNode (take firstLen kept)) ;!
          let! filled := liftM (fill_all fresh (chunks n (Z.to_nat leafCount) rest)) in
          let! first := currentM in
          let all := first :: filled in
          let open := match last all with Some st => if Length st =? leafCount then None else Some st | None => None end in
          (match open with
           | Some st => writeM (set_currentSubtree (Some st))
           | None => let! st := wrapM ERR_PROCESSING (newSubtree leafCount) in writeM (set_currentSubtree (Some st))
           end) ;!
          forM (complete_built skipNotification)
            (match open with Some _ => take (length all - 1) all | None => all end)
      end
  end.

(** ** Taking transactions from the queue *)

(** [dequeueBatch]: nothing, or the first batch, when it is older than [validFromMillis]. *)
Definition dequeueBatch (validFromMillis : Z) : M (option (TxBatch (option I))) := λ s,
  match stp_queue s with
  | [] => (Ok None, s)
  | b :: q => if (validFromMillis >? 0) && (b_time b >=? validFromMillis) then (Ok None, s)
              else (Ok (Some b), set_queue q s)
  end.

Fixpoint dequeue_batches (n : nat) (validFromMillis : Z) : M (list (TxBatch (option I))) :=
  match n with
  | O => retM []
  | S n =>
      let! b := dequeueBatch validFromMillis in
      match b with
      | None => retM []
      | Some b => let! bs := dequeue_batches n validFromMillis in retM (b :: bs)
      end
  end.

(** The filter of one transaction, by the worker of its batch. *)
Definition filter_node (mapLength : Z) (node : Node) (inpoints : option I) : M bool :=
  let! removed := readM (λ s, (mapLength >? 0) && bool_decide (node_Hash node ∈ stp_removeMap s)) in
  if removed : bool then
    writeM (λ s, set_removeMap (stp_removeMap s ∖ {[node_Hash node]}) s) ;! retM false
  else SetIfNotExists (node_Hash node) inpoints.

(** [order] names (batch, transaction) pairs in the order in which the workers came to
    them.  The answer is what was kept. *)
Fixpoint filter_batches (mapLength : Z) (batches : list (TxBatch (option I))) (order : list (nat * nat))
    (kept : gset (nat * nat)) : M (gset (nat * nat)) :=
  match order with
  | [] => retM kept
  | (b, i) :: order =>
      match (λ batch, (batch, b_nodes batch !! i, b_txInpoints batch !! i)) <$> batches !! b with
      | Some (_, Some node, Some inpoints) =>
          let! keep := filter_node mapLength node inpoints in
          filter_batches mapLength batches order (if keep : bool then {[ (b, i) ]} ∪ kept else kept)
      | _ => failM panic
      end
  end.

(** A rejected transaction is marked by zeroing its hash. *)
Fixpoint kept_nodes (kept : gset (nat * nat)) (b i : nat) (nodes : list Node) : list Node :=
  match nodes with
  | [] => []
  | n :: nodes => (if bool_decide ((b, i) ∈ kept) && negb (bool_decide (node_Hash n = zero_hash)) then [n] else []) ++ kept_nodes kept b (S i) nodes
  end.

Fixpoint all_kept (kept : gset (nat * nat)) (b : nat) (batches : list (TxBatch (option I))) : list Node :=
  match batches with
  | [] => []
  | batch :: batches => kept_nodes kept b 0 (b_nodes batch) ++ all_kept kept (S b) batches
  end.

(** Errors of one transaction are logged; the count is of those that were placed. *)
Fixpoint place_dequeued (added : Z) (nodes : list Node) : M Z :=
  match nodes with
  | [] => retM added
  | node :: nodes =>
      let! st := currentM in
      let! added := match AddSubtreeNode st node with
                    | Ok st => writeM (set_currentSubtree (Some st)) ;! retM (added + 1)
                    | Err _ => retM added
                    end in
      let! st := currentM in
      (if Size st <=? Length st then logM (processCompleteSubtree false) else retM tt) ;!
      place_dequeued added nodes
  end.

(** One turn of the default case of the loop in [Start]. *)
Definition dequeue_pass (validFromMillis : Z) (order : list (nat * nat)) : M unit :=
  let! batches := dequeue_batches (Z.to_nat maxBatchesPerIteration) validFromMillis in
  if bool_decide (batches = []) then retM tt else
  let! mapLength := readM (λ s, Z.of_nat (size (stp_removeMap s))) in
  let! st := currentM in
  let! kept := filter_batches mapLength batches order ∅ in
  let! added := place_dequeued 0 (all_kept kept 0 batches) in
  if 0 <? added then writeM (txCount_Add added) else retM tt.
End Assembly.

Arguments SubtreeProcessor : clear implicits.
Arguments UnminedTransaction : clear implicits.

Notation "'let!' x := m 'in' k" := (bindM m (λ x, k)) (at level 200, x name, m at level 100, k at level 200).
Notation "m ';!' k" := (bindM m (λ _, k)) (at level 199, right associativity).
