(* ===== verification/AssemblyTheorems.v ===== *)
(** * The subtrees under assembly hold what the map holds

    The transactions held by the processor are laid out in one way only: full subtrees
    of one size and an open one ([laid]).  Adding, removing and rebuilding change the list
    of transactions and keep the layout, and the builders that work in parallel give the
    state the builder of one transaction at a time gives. *)

From S2P Require Import Prelude External Merkle GoSubtree Queue Assembly.

(** ** Chunks *)
Section Chunks.
  Context {A : Type} (n : nat).
  Hypothesis n_pos : (0 < n)%nat.
  Implicit Types l : list A.

Lemma chunks_app k l1 l2 : (k * n ≤ length l1)%nat → chunks k n (l1 ++ l2) = chunks k n l1.
Proof.
  revert l1. induction k as [|k IH]; intros l1 Hk; [done|]. simpl. rewrite take_app_le, drop_app_le by lia.
  rewrite IH; [done|]. rewrite length_drop. lia.
Qed.

Lemma chunks_snoc k l : chunks (S k) n l = chunks k n l ++ [take n (drop (k * n) l)].
Proof.
  revert l. induction k as [|k IH]; intros l; [by simpl|].
  change (chunks (S (S k)) n l) with (take n l :: chunks (S k) n (drop n l)). rewrite IH, drop_drop. done.
Qed.

Lemma chunks_length k l : length (chunks k n l) = k.
Proof. revert l. induction k as [|k IH]; intros l; simpl; auto. Qed.

Lemma chunks_split k1 k2 l : chunks (k1 + k2) n l = chunks k1 n l ++ chunks k2 n (drop (k1 * n) l).
Proof.
  revert l. induction k1 as [|k1 IH]; intros l; simpl; [done|]. by rewrite IH, drop_drop.
Qed.

Lemma chunks_take k l : (k * n ≤ length l)%nat → concat (chunks k n l) = take (k * n) l.
Proof.
  revert l. induction k as [|k IH]; intros l Hk; [done|]. simpl. rewrite IH by (rewrite length_drop; lia).
  rewrite <- (take_drop n (take (n + k * n) l)), take_take, skipn_firstn_comm. f_equal; [f_equal|f_equal]; lia.
Qed.

Lemma chunks_full k l c : (k * n ≤ length l)%nat → c ∈ chunks k n l → length c = n.
Proof.
  revert l. induction k as [|k IH]; intros l Hk; simpl; [by intros ?%not_elem_of_nil|].
  intros [->|Hc]%elem_of_cons; [rewrite length_take; lia|]. eapply (IH (drop n l)); [rewrite length_drop; lia|done].
Qed.

(** The full chunks of a list, and what is left. *)
Definition fulls l : list (list A) := chunks (length l / n) n l.
Definition rest l : list A := drop (length l / n * n) l.

Lemma rest_length l : length (rest l) = (length l mod n)%nat.
Proof. unfold rest. rewrite length_drop. pose proof (Nat.div_mod (length l) n ltac:(lia)). lia. Qed.

Lemma rest_short l : (length (rest l) < n)%nat.
Proof. rewrite rest_length. apply Nat.mod_upper_bound. lia. Qed.

Lemma fulls_rest l : concat (fulls l) ++ rest l = l.
Proof.
  unfold fulls, rest. rewrite chunks_take by (pose proof (Nat.mul_div_le (length l) n); lia). apply take_drop.
Qed.

Lemma fulls_app_exact l k : length l = (k * n)%nat → fulls l = chunks k n l ∧ rest l = [].
Proof.
  intros Hl. unfold fulls, rest. rewrite Hl, Nat.div_mul by lia. split; [done|]. rewrite drop_ge; [done|lia].
Qed.

(** Full chunks first: the rest is cut on its own. *)
Lemma fulls_app l1 l2 k : length l1 = (k * n)%nat → fulls (l1 ++ l2) = fulls l1 ++ fulls l2 ∧ rest (l1 ++ l2) = rest l2.
Proof.
  intros Hl. destruct (fulls_app_exact l1 k Hl) as [-> _]. unfold fulls, rest. rewrite length_app, Hl.
  rewrite Nat.div_add_l by lia. split.
  - rewrite chunks_split, chunks_app by lia. rewrite drop_app_le, (drop_ge l1) by lia. done.
  - rewrite drop_app_ge by lia. f_equal. rewrite Hl. lia.
Qed.

Lemma fulls_concat l : fulls (concat (fulls l)) = fulls l ∧ length (concat (fulls l)) = (length l / n * n)%nat.
Proof.
  pose proof (Nat.mul_div_le (length l) n). assert (concat (fulls l) = take (length l / n * n) l) as E
    by (unfold fulls; apply chunks_take; lia).
  assert (length (concat (fulls l)) = (length l / n * n)%nat) as Hl by (rewrite E, length_take; lia).
  split; [|done]. destruct (fulls_app_exact _ _ Hl) as [-> _]. rewrite E. unfold fulls.
  set (k := (length l / n)%nat) in *. transitivity (chunks k n (take (k * n) l ++ drop (k * n) l)); [|by rewrite take_drop].
  symmetry. apply chunks_app. rewrite length_take. lia.
Qed.

Lemma fulls_rest_app l1 l2 : fulls (l1 ++ l2) = fulls l1 ++ fulls (rest l1 ++ l2) ∧ rest (l1 ++ l2) = rest (rest l1 ++ l2).
Proof.
  assert (l1 ++ l2 = concat (fulls l1) ++ rest l1 ++ l2) as -> by (by rewrite (assoc_L (++)), fulls_rest).
  destruct (fulls_concat l1) as [E Hl]. destruct (fulls_app _ (rest l1 ++ l2) _ Hl) as [-> ->]. by rewrite E.
Qed.

Lemma fulls_small l : (length l < n)%nat → fulls l = [] ∧ rest l = l.
Proof. intros Hl. unfold fulls, rest. rewrite Nat.div_small by done. done. Qed.

Lemma fulls_one l : length l = n → fulls l = [l] ∧ rest l = [].
Proof.
  intros Hl. destruct (fulls_app_exact l 1) as [-> ->]; [lia|]. simpl. by rewrite take_ge by lia.
Qed.
End Chunks.


#[local] Opaque u64 i32.

(** ** The layout *)
Section Layout.
  Context {I : Type} {TI : TxInpointsOps I}.
  Context {CH : Chainhash} {SUB : Subtree} {GS : GoSubtree} {AS : AssemblySubtree} {ASP : AssemblySubtreeSpec AS}.
  Implicit Types (s : SubtreeProcessor I) (l : list Node).

(** Subtrees of [n] leaves: a power of two, and more than the placeholder. *)
Class LeafCount (n : nat) : Prop := {
  leaf_power : n = (2 ^ Nat.log2 n)%nat;
  leaf_two : (2 ≤ n)%nat;
}.

  Context (n : nat) {LN : LeafCount n}.

Definition tree l : SubtreeData := mkSubtree l (Nat.log2 n) n None.

Definition real (x : Node) : Prop := node_Hash x ≠ CoinbasePlaceholderHashValue.

Lemma leaf_pos : (0 < n)%nat.
Proof. pose proof leaf_two. lia. Qed.

Lemma leaf_Z : Z.of_nat n = 2 ^ Z.of_nat (Nat.log2 n).
Proof. rewrite leaf_power at 1. rewrite Nat2Z.inj_pow. done. Qed.

Lemma leaf_height (h : nat) : Z.of_nat n = 2 ^ Z.of_nat h → h = Nat.log2 n.
Proof.
  intros E. assert (n = 2 ^ h)%nat as -> by (apply Nat2Z.inj; rewrite Nat2Z.inj_pow; exact E).
  symmetry. apply Nat.log2_pow2. lia.
Qed.

Lemma new_tree_eq st : NewTreeByLeafCount (Z.of_nat n) = Ok st → st = tree [].
Proof.
  intros E. apply NewTreeByLeafCount_spec in E as (E1 & E2 & E3 & E4). apply leaf_height in E4. apply Nat2Z.inj in E3.
  destruct st as [nodes h c cl]. simpl in *. subst. reflexivity.
Qed.

Lemma new_tree_some : ∃ st, NewTreeByLeafCount (Z.of_nat n) = Ok st.
Proof. rewrite leaf_Z. apply NewTreeByLeafCount_total. Qed.

Lemma new_tree : NewTreeByLeafCount (Z.of_nat n) = Ok (tree []).
Proof. destruct new_tree_some as [st E]. by rewrite E, (new_tree_eq st E). Qed.

Lemma tree_leaf_count l : subtreeLeafCount (tree l) = Z.of_nat n.
Proof. unfold subtreeLeafCount, tree. simpl. rewrite Z.shiftl_1_l. symmetry. apply leaf_Z. Qed.

Lemma add_tree l x : (length l < n)%nat → real x → AddSubtreeNode (tree l) x = Ok (tree (l ++ [x])).
Proof. intros Hl Hx. by rewrite AddSubtreeNode_room. Qed.

Lemma fill_tree add l xs : (∀ st x, add st x = AddSubtreeNode st x) → (length l + length xs ≤ n)%nat → Forall real xs →
  fill add (tree l) xs = (Ok tt, tree (l ++ xs)).
Proof.
  intros Ha. revert l. induction xs as [|x xs IH]; intros l Hl Hx; simpl; [by rewrite app_nil_r|].
  apply Forall_cons in Hx as [Hx Hxs]. simpl in Hl. rewrite Ha, add_tree by (done || lia). simpl.
  rewrite IH by (done || (rewrite length_app; simpl; lia)). by rewrite <- (assoc_L (++)).
Qed.

Lemma add_parts_eq st x : add_parts st x = AddSubtreeNode st x.
Proof. apply AddNode_as_AddSubtreeNode. Qed.

Lemma complete_tree l : IsComplete (tree l) = bool_decide (length l = n).
Proof. by rewrite IsComplete_spec. Qed.

Definition laid l s : Prop :=
  stp_chainedSubtrees s = map tree (fulls n l) ∧ stp_currentSubtree s = Some (tree (rest n l)).

(** The nodes of a layout, in order. *)
Definition all_nodes s : list Node :=
  concat (map st_Nodes (stp_chainedSubtrees s)) ++ match stp_currentSubtree s with Some st => st_Nodes st | None => [] end.

Lemma tree_nodes ls : concat (map st_Nodes (map tree ls)) = concat ls.
Proof. rewrite map_map. simpl. by rewrite map_id. Qed.

Lemma laid_nodes l s : laid l s → all_nodes s = l.
Proof. intros [E1 E2]. unfold all_nodes. rewrite E1, E2, tree_nodes. simpl. apply fulls_rest, leaf_pos. Qed.

(** The list determines the subtrees. *)
Lemma laid_unique l s s' : laid l s → laid l s' →
  stp_chainedSubtrees s' = stp_chainedSubtrees s ∧ stp_currentSubtree s' = stp_currentSubtree s.
Proof. intros [E1 E2] [E3 E4]. by rewrite E1, E2, E3, E4. Qed.

(** What is not about subtrees. *)
Definition frame s := (stp_maps s, stp_currentTxMap s, stp_currentTxMapShadow s, stp_disableCurrentTxMapPool s,
  stp_removeMap s, stp_deletedTxs s, stp_txCount s, stp_currentItemsPerFile s, stp_currentBlockHeader s, stp_queue s).

(** Completing a subtree does not look at the current one. *)
Lemma chain_append_current st c s : chain_append st (set_currentSubtree c s) = set_currentSubtree c (chain_append st s).
Proof. reflexivity. Qed.

Lemma announce_current st skip c s :
  announce st skip (set_currentSubtree c s) = let '(r, s') := announce st skip s in (r, set_currentSubtree c s').
Proof.
  unfold announce, bindM, wrapM, sendNewSubtree, updatePrecomputedMiningData, writeM.
  cbn [stp_ctx set_currentSubtree]. destruct (stp_ctx s) as [[|k]|]; [done|..]; cbn; by destruct (stp_currentBlockHeader s).
Qed.

Lemma complete_built_current skip st c s :
  complete_built skip st (set_currentSubtree c s) =
  let '(r, s') := complete_built skip st s in (r, set_currentSubtree c s').
Proof.
  unfold complete_built, bindM, writeM. rewrite chain_append_current, announce_current. by destruct (announce _ _ _).
Qed.

Lemma complete_all_current skip sts c s :
  forM (complete_built skip) sts (set_currentSubtree c s) =
  let '(r, s') := forM (complete_built skip) sts s in (r, set_currentSubtree c s').
Proof.
  revert s. induction sts as [|st sts IH]; intros s; [done|]. cbn [forM]. unfold bindM at 1 2.
  rewrite complete_built_current. destruct (complete_built skip st s) as [[[]|e] s']; [|done]. apply IH.
Qed.

Lemma announce_frame skip st s r s' : announce st skip s = (r, s') →
  frame s' = frame s ∧ stp_currentSubtree s' = stp_currentSubtree s ∧ stp_chainedSubtrees s' = stp_chainedSubtrees s.
Proof.
  unfold announce, bindM, wrapM, sendNewSubtree, updatePrecomputedMiningData, writeM.
  destruct (stp_ctx s) as [[|k]|]; [by intros [= <- <-]|..]; cbn; destruct (stp_currentBlockHeader s) eqn:E; intros [= <- <-]; done.
Qed.

Lemma complete_built_frame skip st s r s' : complete_built skip st s = (r, s') →
  frame s' = frame s ∧ stp_currentSubtree s' = stp_currentSubtree s ∧ stp_chainedSubtrees s' = stp_chainedSubtrees s ++ [st].
Proof. apply announce_frame. Qed.

Definition running s : Prop := stp_ctx s = None.

Lemma complete_built_running skip st s : running s → ∃ s', complete_built skip st s = (Ok tt, s') ∧ running s'.
Proof.
  intros H. unfold complete_built, announce, bindM, wrapM, sendNewSubtree, updatePrecomputedMiningData, writeM.
  change (stp_ctx (chain_append st s)) with (stp_ctx s). rewrite H. eexists. split; [reflexivity|].
  unfold running. cbn. by destruct (stp_currentBlockHeader s).
Qed.

(** ** One transaction at a time *)
Lemma set_current_same s : set_currentSubtree (stp_currentSubtree s) s = s.
Proof. by destruct s. Qed.

Lemma laid_snoc l x s : laid l s →
  if decide (S (length (rest n l)) = n)
  then fulls n (l ++ [x]) = fulls n l ++ [rest n l ++ [x]] ∧ rest n (l ++ [x]) = []
  else fulls n (l ++ [x]) = fulls n l ∧ rest n (l ++ [x]) = rest n l ++ [x].
Proof.
  intros _. destruct (fulls_rest_app n leaf_pos l [x]) as [-> ->]. case_decide as E.
  - destruct (fulls_one n leaf_pos (rest n l ++ [x])) as [-> ->]; [rewrite length_app; simpl; lia|done].
  - destruct (fulls_small n (rest n l ++ [x])) as [-> ->]; [rewrite length_app; simpl; pose proof (rest_short n leaf_pos l); lia|].
    by rewrite app_nil_r.
Qed.

Lemma addNodePreValidated_eq l x skip s : laid l s → real x →
  addNodePreValidated x skip s =
  if decide (S (length (rest n l)) = n)
  then complete_built skip (tree (rest n l ++ [x])) (set_currentSubtree (Some (tree [])) s)
  else (Ok tt, set_currentSubtree (Some (tree (rest n l ++ [x]))) s).
Proof.
  intros [_ E] Hx. unfold addNodePreValidated, open_subtree, bindM. rewrite E. unfold currentM at 1. rewrite E.
  unfold liftM at 1. rewrite add_tree by (done || apply rest_short, leaf_pos). cbn [foreignR wrapR]. unfold writeM at 1.
  rewrite complete_tree, length_app. cbn [length]. rewrite Nat.add_1_r. case_decide as Ed.
  - rewrite bool_decide_true by done. unfold processCompleteSubtree, bindM, currentM, writeM at 1 2, wrapM at 1, newSubtree, liftM.
    cbn [stp_currentSubtree set_currentSubtree]. rewrite Size_spec. change (st_capacity (tree (rest n l ++ [x]))) with n.
    rewrite new_tree. reflexivity.
  - by rewrite bool_decide_false.
Qed.

Lemma addNodePreValidated_laid l x skip s r s' : laid l s → real x → addNodePreValidated x skip s = (r, s') →
  laid (l ++ [x]) s' ∧ frame s' = frame s.
Proof.
  intros Hl Hx. rewrite (addNodePreValidated_eq l) by done. pose proof (laid_snoc l x s Hl) as Hs. destruct Hl as [E1 E2]. case_decide as Ed.
  - destruct Hs as [Ef Er]. intros Hc. apply complete_built_frame in Hc as (Hf & Hcur & Hch). split; [|by rewrite Hf].
    unfold laid. rewrite Hcur, Hch, Ef, Er, map_app. cbn. by rewrite E1.
  - destruct Hs as [Ef Er]. intros [= <- <-]. split; [|done]. unfold laid. rewrite Ef, Er. by rewrite <- E1.
Qed.

(** What building [xs] amounts to: completing the new full subtrees, in order. *)
Definition build skip l xs : M (I := I) unit := λ s,
  forM (complete_built skip) (map tree (fulls n (rest n l ++ xs)))
    (set_currentSubtree (Some (tree (rest n (rest n l ++ xs)))) s).

Lemma sequential_eq l xs skip s : laid l s → Forall real xs →
  ∀ s', forM (λ x, addNodePreValidated x skip) xs s = (Ok tt, s') ↔ build skip l xs s = (Ok tt, s').
Proof.
  revert l s. induction xs as [|x xs IH]; intros l s Hl Hx s'.
  - unfold build. rewrite app_nil_r. destruct (fulls_small n (rest n l)) as [-> ->]; [apply rest_short, leaf_pos|].
    destruct Hl as [_ <-]. cbn. by rewrite set_current_same.
  - apply Forall_cons in Hx as [Hx Hxs]. cbn [forM]. unfold bindM.
    destruct (addNodePreValidated x skip s) as [r1 s1] eqn:Ea.
    destruct (addNodePreValidated_laid _ _ _ _ _ _ Hl Hx Ea) as [Hl1 _].
    pose proof (laid_snoc l x s Hl) as Hs. rewrite (addNodePreValidated_eq l) in Ea by done. case_decide as Ed.
    + destruct Hs as [_ Er]. rewrite complete_built_current in Ea.
      destruct (complete_built skip (tree (rest n l ++ [x])) s) as [r0 s0] eqn:Ec. injection Ea as <- <-.
      unfold build. change (x :: xs) with ([x] ++ xs). rewrite (assoc_L (++)).
      destruct (fulls_app n leaf_pos (rest n l ++ [x]) xs 1) as [-> ->]; [rewrite length_app; simpl; lia|].
      destruct (fulls_one n leaf_pos (rest n l ++ [x])) as [-> _]; [rewrite length_app; simpl; lia|].
      cbn [app map forM]. unfold bindM. rewrite complete_built_current, Ec. destruct r0 as [[]|e]; [|done].
      rewrite (IH _ _ Hl1 Hxs). unfold build. rewrite Er. done.
    + destruct Hs as [_ Er]. injection Ea as <- <-. rewrite (IH _ _ Hl1 Hxs). unfold build. rewrite Er, <- (assoc_L (++)). done.
Qed.

Lemma forM_laid xs l skip s r s' : laid l s → Forall real xs → forM (λ x, addNodePreValidated x skip) xs s = (r, s') →
  frame s' = frame s ∧ (r = Ok tt → laid (l ++ xs) s') ∧ (running s → r = Ok tt ∧ running s').
Proof.
  revert l s. induction xs as [|x xs IH]; intros l s Hl Hx; cbn [forM].
  - intros [= <- <-]. by rewrite app_nil_r.
  - apply Forall_cons in Hx as [Hx Hxs]. unfold bindM. destruct (addNodePreValidated x skip s) as [r1 s1] eqn:Ea.
    destruct (addNodePreValidated_laid _ _ _ _ _ _ Hl Hx Ea) as [Hl1 Hf1].
    assert (running s → r1 = Ok tt ∧ running s1) as Hrun.
    { intros Hr. rewrite (addNodePreValidated_eq l) in Ea by done. case_decide.
      - destruct (complete_built_running skip (tree (rest n l ++ [x])) s Hr) as (s2 & E2 & R2).
        rewrite complete_built_current, E2 in Ea. by injection Ea as <- <-.
      - by injection Ea as <- <-. }
    destruct r1 as [[]|e].
    + intros Hr. destruct (IH _ _ Hl1 Hxs Hr) as (H1 & H2 & H3). rewrite <- (assoc_L (++)) in H2. split_and!; [congruence|done|].
      intros R. apply H3. by apply Hrun.
    + intros [= <- <-]. split_and!; [done|done|]. intros R. by destruct (Hrun R).
Qed.

(** ** In parallel *)
Lemma ceil_chunks (l : list Node) : chunks (Z.to_nat ((Z.of_nat (length l) + Z.of_nat n - 1) / Z.of_nat n)) n l =
  fulls n l ++ (if decide (rest n l = []) then [] else [rest n l]).
Proof.
  pose proof leaf_pos as Hn. pose proof (Nat.div_mod (length l) n ltac:(lia)) as Hd. pose proof (rest_length n Hn l) as Hr.
  pose proof (rest_short n Hn l) as Hs.
  set (a := (length l / n)%nat) in *. case_decide as E.
  - rewrite E in Hr. simpl in Hr. assert (length l = n * a)%nat by lia.
    replace ((Z.of_nat (length l) + Z.of_nat n - 1) / Z.of_nat n) with (Z.of_nat a);
      [|apply Z.div_unique with (Z.of_nat n - 1); lia].
    rewrite Nat2Z.id, app_nil_r. done.
  - assert (0 < length (rest n l))%nat by (destruct (rest n l); [done|simpl; lia]).
    replace ((Z.of_nat (length l) + Z.of_nat n - 1) / Z.of_nat n) with (Z.of_nat (S a));
      [|apply Z.div_unique with (Z.of_nat (length (rest n l)) - 1); lia].
    rewrite Nat2Z.id, chunks_snoc by lia. f_equal. f_equal. fold a. change (drop (a * n) l) with (rest n l). by rewrite take_ge by lia.
Qed.

Lemma allocate_tree k : allocate (Z.of_nat n) k = Ok (replicate k (tree [])).
Proof. induction k as [|k IH]; [done|]. cbn [allocate]. rewrite new_tree. cbn [foreignR bindR]. rewrite IH. done. Qed.

Lemma fill_all_tree css : (∀ c, c ∈ css → (length c ≤ n)%nat ∧ Forall real c) →
  fill_all (replicate (length css) (tree [])) css = Ok (map tree css).
Proof.
  induction css as [|c css IH]; intros H; [done|]. cbn [length replicate fill_all].
  destruct (H c (list_elem_of_here _ _)) as [Hl Hr]. rewrite fill_tree by (done || (simpl; lia)). cbn [wrapR bindR].
  rewrite IH by (intros; apply H; by right). done.
Qed.

Lemma chunks_elem {A} k (l : list A) c : c ∈ chunks k n l → (length c ≤ n)%nat ∧ ∀ x, x ∈ c → x ∈ l.
Proof.
  revert l. induction k as [|k IH]; intros l; simpl; [by intros ?%not_elem_of_nil|]. intros [->|Hc]%elem_of_cons.
  - split; [rewrite length_take; lia|]. intros x Hx. by eapply elem_of_take in Hx as (i & ? & _); eapply list_elem_of_lookup_2.
  - destruct (IH _ Hc) as [H1 H2]. split; [done|]. intros x Hx. specialize (H2 x Hx).
    rewrite <- (take_drop n l). apply elem_of_app. by right.
Qed.

(** The chunks the parallel builder makes are the subtrees of the layout. *)
Lemma parallel_chunks (r kept : list Node) : (length r < n)%nat →
  let firstLen := Z.to_nat (Z.min (Z.of_nat n - Z.of_nat (length r)) (Z.of_nat (length kept))) in
  let rs := drop firstLen kept in
  let css := chunks (Z.to_nat ((Z.of_nat (length rs) + Z.of_nat n - 1) / Z.of_nat n)) n rs in
  (length r + length (take firstLen kept) ≤ n)%nat ∧
  ((r ++ take firstLen kept) :: css = fulls n (r ++ kept) ++
    (if decide (rest n (r ++ kept) = [] ∧ r ++ kept ≠ []) then [] else [rest n (r ++ kept)])).
Proof.
  intros Hr. cbv zeta. pose proof leaf_pos as Hn. rewrite ceil_chunks.
  destruct (decide (length r + length kept < n)%nat) as [Hsmall|Hbig].
  - replace (Z.to_nat _) with (length kept) by lia. rewrite take_ge, drop_ge by lia.
    split; [lia|]. destruct (fulls_small n (r ++ kept)) as [-> ->]; [rewrite length_app; lia|].
    destruct (fulls_small n (@nil Node)) as [-> ->]; [simpl; lia|]. rewrite decide_True by done.
    rewrite decide_False by tauto. done.
  - replace (Z.to_nat _) with (n - length r)%nat by lia. set (k := (n - length r)%nat).
    assert (length (take k kept) = k) as Hk by (rewrite length_take; lia). split; [lia|].
    assert (r ++ kept = (r ++ take k kept) ++ drop k kept) as E by (by rewrite <- (assoc_L (++)), take_drop).
    assert (length (r ++ take k kept) = 1 * n)%nat as Hl by (rewrite length_app; lia).
    rewrite E. destruct (fulls_app n Hn _ (drop k kept) 1 Hl) as [-> ->].
    destruct (fulls_one n Hn (r ++ take k kept)) as [-> _]; [lia|]. rewrite <- (assoc_L (++)). cbn [app]. f_equal. f_equal.
    destruct (decide (rest n (drop k kept) = [])) as [Er|Er].
    + rewrite decide_True; [done|]. split; [done|]. destruct r; [destruct (take k kept); [simpl in Hl; lia|done]|done].
    + rewrite decide_False; [done|]. tauto.
Qed.

Lemma fill_current_eq add l s xs : stp_currentSubtree s = Some (tree l) → (∀ st x, add st x = AddSubtreeNode st x) →
  (length l + length xs ≤ n)%nat → Forall real xs →
  fill_current add xs s = (Ok tt, set_currentSubtree (Some (tree (l ++ xs))) s).
Proof. intros E Ha Hl Hx. unfold fill_current. by rewrite E, (fill_tree add). Qed.

Lemma parallel_eq l kept skip s : laid l s → Forall real kept → stp_ctx s ≠ Some O →
  parallelBuildRemainderSubtrees kept skip s = build skip l kept s.
Proof.
  intros Hl Hx Hctx. destruct kept as [|x0 kept0].
  { unfold build. rewrite app_nil_r. destruct (fulls_small n (rest n l)) as [-> ->]; [apply rest_short, leaf_pos|].
    destruct Hl as [_ <-]. cbn. by rewrite set_current_same. }
  set (kept := x0 :: kept0) in *. pose proof leaf_pos as Hn. pose proof (rest_short n Hn l) as Hr.
  destruct (parallel_chunks (rest n l) kept Hr) as [Hfirst Hcss]. destruct Hl as [Ech Ecur].
  unfold parallelBuildRemainderSubtrees. fold kept. change (match kept with [] => retM tt | _ :: _ => ?m end) with m.
  unfold bindM at 1. unfold readM at 1. rewrite Ecur. rewrite Size_spec. change (st_capacity (tree (rest n l))) with n.
  change (Length (tree (rest n l))) with (Z.of_nat (length (rest n l))).
  destruct (Z.of_nat n - Z.of_nat (length (rest n l)) <=? 0) eqn:E0; [lia|]. clear E0.
  set (firstLen := Z.to_nat (Z.min (Z.of_nat n - Z.of_nat (length (rest n l))) (Z.of_nat (length kept)))) in *.
  set (rs := drop firstLen kept) in *. set (m := Z.to_nat ((Z.of_nat (length rs) + Z.of_nat n - 1) / Z.of_nat n)) in *.
  rewrite allocate_tree. cbn [wrapR]. unfold bindM at 1, liftM at 1. unfold bindM at 1, readM at 1.
  rewrite bool_decide_false by done.
  assert (Forall real (take firstLen kept) ∧ Forall real rs) as [Hx1 Hx2].
  { split; apply Forall_forall; intros x Hin; apply (proj1 (Forall_forall _ _) Hx x); rewrite <- (take_drop firstLen kept);
      apply elem_of_app; [by left|by right]. }
  unfold bindM at 1, wrapM at 1. rewrite (fill_current_eq AddSubtreeNode (rest n l)) by done. cbn [wrapR].
  rewrite Nat2Z.id. unfold bindM at 1, liftM at 1.
  assert (length (chunks m n rs) = m) as Hm by apply chunks_length. rewrite <- Hm at 1.
  rewrite fill_all_tree.
  2:{ intros c Hc. destruct (chunks_elem _ _ _ Hc) as [H1 H2]. split; [done|]. apply Forall_forall. intros x Hin.
      apply (proj1 (Forall_forall _ _) Hx2 x). auto. }
  unfold bindM at 1, currentM at 1. cbn [stp_currentSubtree set_currentSubtree].
  change (tree (rest n l ++ take firstLen kept) :: map tree (chunks m n rs)) with (map tree ((rest n l ++ take firstLen kept) :: chunks m n rs)).
  rewrite Hcss. clear Hcss Hm. set (all := rest n l ++ kept) in *. case_decide as Ed.
  - rewrite app_nil_r. unfold build. fold all. destruct Ed as [Er Hne].
    assert (last (map tree (fulls n all)) = Some (tree (default [] (last (fulls n all)))) ∧ length (default [] (last (fulls n all))) = n) as [-> El].
    { change (map tree (fulls n all)) with (tree <$> fulls n all). rewrite fmap_last. destruct (last (fulls n all)) as [c|] eqn:El.
      - split; [done|]. apply last_Some_elem_of in El. apply (chunks_full n Hn (length all / n) all); [|done].
        pose proof (Nat.mul_div_le (length all) n). lia.
      - exfalso. apply last_None in El. pose proof (fulls_rest n Hn all) as Ef. rewrite El, Er in Ef. simpl in Ef. by symmetry in Ef. }
    change (Length (tree (default [] (last (fulls n all))))) with (Z.of_nat (length (default [] (last (fulls n all))))).
    rewrite El, Z.eqb_refl. rewrite Er. unfold bindM at 1 2, wrapM at 1, newSubtree, liftM. rewrite new_tree. reflexivity.
  - rewrite map_app. cbn [map]. rewrite last_snoc. change (Length (tree (rest n all))) with (Z.of_nat (length (rest n all))).
    pose proof (rest_short n Hn all). rewrite (proj2 (Z.eqb_neq _ _)) by lia.
    rewrite length_app. cbn [length]. rewrite Nat.add_sub, take_app_length. reflexivity.
Qed.

(** ** Finding and removing a transaction *)
Definition keep (h : Hash) l : list Node := filter (λ x, node_Hash x ≠ h) l.

Lemma keep_absent h l : h ∉ map node_Hash l → keep h l = l.
Proof.
  unfold keep. induction l as [|x l IH]; intros H; [done|]. cbn [map] in H. apply not_elem_of_cons in H as [H1 H2].
  rewrite filter_cons_True by congruence. by rewrite IH.
Qed.

Lemma keep_app h l1 l2 : keep h (l1 ++ l2) = keep h l1 ++ keep h l2.
Proof. apply filter_app. Qed.

Lemma keep_middle h l1 x l2 : NoDup (map node_Hash (l1 ++ x :: l2)) → node_Hash x = h → keep h (l1 ++ x :: l2) = l1 ++ l2.
Proof.
  rewrite map_app. cbn [map]. intros (H1 & H2 & H3)%NoDup_app Hx. apply NoDup_cons in H3 as [H3 H4].
  rewrite keep_app. unfold keep at 2. rewrite filter_cons_False by tauto. fold (keep h l2).
  rewrite !keep_absent; [done|by subst|]. intros Hin. apply (H2 h Hin). subst. by left.
Qed.

Lemma keep_at h x l1 l2 l : l = l1 ++ x :: l2 → NoDup (map node_Hash l) → node_Hash x = h → keep h l = l1 ++ l2.
Proof. intros ->. apply keep_middle. Qed.

Lemma index_of_hash_spec h l :
  (index_of_hash h l = -1 ∧ h ∉ map node_Hash l) ∨
  ∃ l1 x l2, l = l1 ++ x :: l2 ∧ node_Hash x = h ∧ index_of_hash h l = Z.of_nat (length l1).
Proof.
  induction l as [|x l IH]; cbn [index_of_hash map]; [left; split; [done|apply not_elem_of_nil]|]. case_bool_decide as E.
  - right. by exists [], x, l.
  - destruct IH as [[-> Hn]|(l1 & y & l2 & -> & Hy & ->)].
    + left. split; [done|]. apply not_elem_of_cons. split; [congruence|done].
    + right. exists (x :: l1), y, l2. split_and!; [done|done|]. cbn [length]. destruct (Z.ltb_spec (Z.of_nat (length l1)) 0); lia.
Qed.

(** Where the chain holds the hash: a subtree, and the position in it. *)
Lemma locate_chained_spec h i (sts : list SubtreeData) :
  (locate_chained h i sts = (-1, -1) ∧ h ∉ map node_Hash (concat (map st_Nodes sts))) ∨
  ∃ sts1 st sts2 l1 x l2, sts = sts1 ++ st :: sts2 ∧ st_Nodes st = l1 ++ x :: l2 ∧ node_Hash x = h ∧
    locate_chained h i sts = (Z.of_nat (length l1), i + Z.of_nat (length sts1)).
Proof.
  revert i. induction sts as [|st sts IH]; intros i; cbn [locate_chained map concat]; [left; split; [done|apply not_elem_of_nil]|].
  rewrite NodeIndex_spec. destruct (index_of_hash_spec h (st_Nodes st)) as [[-> Hn]|(l1 & x & l2 & E & Hx & ->)].
  - cbn. destruct (IH (i + 1)) as [[-> Hn2]|(s1 & t & s2 & l1 & x & l2 & -> & E & Hx & ->)].
    + left. split; [done|]. rewrite map_app. by apply not_elem_of_app.
    + right. exists (st :: s1), t, s2, l1, x, l2. split_and!; [done|done|done|]. cbn [length]. f_equal. lia.
  - rewrite (proj2 (Z.leb_le _ _)) by lia. right. exists [], st, sts, l1, x, l2. split_and!; [done|done|done|]. cbn. f_equal. lia.
Qed.

(** The map and the backup, when a transaction is forgotten. *)
Definition forgotten (h : Hash) s : SubtreeProcessor I :=
  let s := match current_map s !! h with Some (Some i) => set_deletedTxs (<[h := i]> (stp_deletedTxs s)) s | _ => s end in
  write_current (delete h) s.

Lemma forget_eq h s : forget h s = (Ok tt, forgotten h s).
Proof.
  unfold forget, forgotten, bindM, readM, map_Delete, deleted_Set, writeM. by destruct (current_map s !! h) as [[i|]|] eqn:E.
Qed.

(** What a removal, alone or one of several, does: the subtrees may be left with holes. *)
Definition holds_height s : Prop := ∃ st, stp_currentSubtree s = Some st ∧ st_Height st = Nat.log2 n.

Lemma remove_middle st l1 x l2 : st_Nodes st = l1 ++ x :: l2 →
  RemoveNodeAtIndex st (Z.of_nat (length l1)) = Ok (mkSubtree (l1 ++ l2) (st_Height st) (st_capacity st) None).
Proof.
  intros E. rewrite RemoveNodeAtIndex_spec by (rewrite E, length_app; simpl; lia). by rewrite E, delete_middle.
Qed.

Definition removed (h : Hash) (found : bool) s s' : Prop :=
  all_nodes s' = keep h (all_nodes s) ∧ found = bool_decide (h ∈ map node_Hash (all_nodes s)) ∧
  frame s' = frame (if found then forgotten h s else s) ∧ stp_ctx s' = stp_ctx s ∧ holds_height s'.

Lemma all_nodes_split s sts1 st sts2 cur : stp_chainedSubtrees s = sts1 ++ st :: sts2 → stp_currentSubtree s = Some cur →
  all_nodes s = concat (map st_Nodes sts1) ++ st_Nodes st ++ concat (map st_Nodes sts2) ++ st_Nodes cur.
Proof.
  intros E1 E2. unfold all_nodes. rewrite E1, E2, map_app, concat_app. cbn. by rewrite <- !(assoc_L (++)).
Qed.

Lemma remove_from_chained_eq s sts1 st sts2 l1 x l2 : stp_chainedSubtrees s = sts1 ++ st :: sts2 →
  st_Nodes st = l1 ++ x :: l2 →
  ∃ st', st_Nodes st' = l1 ++ l2 ∧
  remove_from_chained (Z.of_nat (length sts1)) (Z.of_nat (length l1)) s = (Ok tt, set_chainedSubtrees (sts1 ++ st' :: sts2) s).
Proof.
  intros E1 E2. destruct (Duplicate_spec st) as [Ed _]. rewrite E2 in Ed.
  eexists. unfold remove_from_chained, bindM, chainedM. rewrite Nat2Z.id, E1, list_lookup_middle by done.
  unfold set_chained at 1, writeM. unfold liftM. rewrite (remove_middle _ _ _ _ Ed). cbn [foreignR wrapR].
  split; [|unfold set_chained, writeM; cbn [stp_chainedSubtrees set_chainedSubtrees]; rewrite E1, !insert_app_r_alt, Nat.sub_diag by lia; reflexivity].
  done.
Qed.

Lemma forgotten_trees h s : stp_chainedSubtrees (forgotten h s) = stp_chainedSubtrees s ∧
  stp_currentSubtree (forgotten h s) = stp_currentSubtree s ∧ stp_ctx (forgotten h s) = stp_ctx s.
Proof. unfold forgotten. by destruct (current_map s !! h) as [[i|]|]. Qed.

(** Where [locateTxInSubtrees] finds the hash. *)
Lemma locate_eq h s cur : stp_currentSubtree s = Some cur →
  (locateTxInSubtrees h s = (Ok (-1, -1), s) ∧ h ∉ map node_Hash (all_nodes s)) ∨
  (∃ l1 x l2, st_Nodes cur = l1 ++ x :: l2 ∧ node_Hash x = h ∧ locateTxInSubtrees h s = (Ok (Z.of_nat (length l1), -1), s)) ∨
  (∃ sts1 st sts2 l1 x l2, stp_chainedSubtrees s = sts1 ++ st :: sts2 ∧ st_Nodes st = l1 ++ x :: l2 ∧ node_Hash x = h ∧
    h ∉ map node_Hash (st_Nodes cur) ∧
    locateTxInSubtrees h s = (Ok (Z.of_nat (length l1), Z.of_nat (length sts1)), s)).
Proof.
  intros Ec. unfold locateTxInSubtrees, bindM, currentM, readM, retM. rewrite Ec, NodeIndex_spec.
  destruct (index_of_hash_spec h (st_Nodes cur)) as [[-> Hn]|(l1 & x & l2 & E & Hx & ->)].
  - rewrite Z.eqb_refl. destruct (locate_chained_spec h 0 (stp_chainedSubtrees s)) as [[-> Hn2]|(s1 & st & s2 & l1 & x & l2 & E1 & E2 & Hx & ->)].
    + left. split; [done|]. unfold all_nodes. rewrite Ec, map_app. by apply not_elem_of_app.
    + right; right. exists s1, st, s2, l1, x, l2. split_and!; try done.
  - rewrite (proj2 (Z.eqb_neq _ _)) by lia. right; left. by exists l1, x, l2.
Qed.

Lemma remove_one_eq h s : holds_height s → NoDup (map node_Hash (all_nodes s)) →
  ∃ found s', remove_one h s = (Ok found, s') ∧ removed h found s s' ∧ (found = false → s' = s).
Proof.
  intros (cur & Ec & Eh) Hnd. destruct (forgotten_trees h s) as (F1 & F2 & F3).
  destruct (locate_eq h s cur Ec) as [[El Hn]|[(l1 & x & l2 & E & Hx & El)|(s1 & st & s2 & l1 & x & l2 & E1 & E2 & Hx & Hn & El)]];
    unfold remove_one; unfold bindM at 1; rewrite El.
  - exists false, s. split; [done|]. split; [|done]. split_and!; [by rewrite keep_absent|by rewrite bool_decide_false|done|done|by exists cur].
  - exists true. rewrite (proj2 (Z.ltb_ge _ 0)) by lia. unfold bindM at 1. rewrite forget_eq. cbn [Z.eqb Pos.eqb].
    unfold bindM at 1 2, currentM at 1. rewrite F2, Ec. destruct (Duplicate_spec cur) as [Ed Edh]. rewrite E in Ed.
    unfold bindM at 1, liftM at 1. rewrite (remove_middle _ _ _ _ Ed). cbn [foreignR wrapR]. unfold writeM, retM.
    eexists. split; [reflexivity|]. split; [|done]. unfold removed, all_nodes. cbn [stp_chainedSubtrees stp_currentSubtree set_currentSubtree st_Nodes].
    unfold all_nodes in *. rewrite Ec, E in Hnd. rewrite F1. rewrite Ec, E. split_and!.
    + rewrite (assoc_L (++)) in Hnd. rewrite (assoc_L (++) _ l1 (x :: l2)), (keep_middle h _ x l2) by done. by rewrite <- (assoc_L (++)).
    + rewrite bool_decide_true; [done|]. rewrite !map_app, !elem_of_app. cbn [map]. rewrite elem_of_cons. naive_solver.
    + done.
    + done.
    + eexists. split; [done|]. cbn. congruence.
  - exists true. rewrite (proj2 (Z.ltb_ge _ 0)) by lia. unfold bindM at 1. rewrite forget_eq.
    rewrite (proj2 (Z.eqb_neq _ _)) by lia. unfold bindM at 1.
    destruct (remove_from_chained_eq (forgotten h s) s1 st s2 l1 x l2) as (st' & En & ->); [by rewrite F1|done|].
    eexists. split; [reflexivity|]. split; [|done].
    pose proof (all_nodes_split s s1 st s2 cur E1 Ec) as Ea. rewrite E2 in Ea. unfold removed. rewrite Ea in Hnd |- *.
    rewrite (all_nodes_split _ s1 st' s2 cur); [|done|exact (eq_trans F2 Ec)]. rewrite En. split_and!.
    + rewrite <- !(assoc_L (++)). cbn [app]. rewrite <- !(assoc_L (++)) in Hnd. cbn [app] in Hnd. rewrite (assoc_L (++)) in Hnd.
      rewrite (assoc_L (++) _ l1 (x :: _)), (keep_middle h _ x) by done. by rewrite <- !(assoc_L (++)).
    + rewrite bool_decide_true; [done|]. rewrite !map_app, !elem_of_app. cbn [map]. rewrite elem_of_cons. naive_solver.
    + done.
    + done.
    + exists cur. split; [exact (eq_trans F2 Ec)|done].
Qed.

(** ** Building the chain again *)
#[export] Instance real_dec x : Decision (real x).
Proof. unfold real. apply _. Defined.

Lemma forM_app {A} (f : A → M (I := I) unit) (l1 l2 : list A) s : forM f (l1 ++ l2) s = bindM (forM f l1) (λ _, forM f l2) s.
Proof.
  revert s. induction l1 as [|a l1 IH]; intros s; [done|]. cbn [app forM]. unfold bindM in *.
  destruct (f a s) as [[[]|e] s1]; [apply IH|done].
Qed.

Lemma forM_concat {A B} (f : A → M (I := I) unit) (g : B → list A) ls s :
  forM (λ b, forM f (g b)) ls s = forM f (concat (map g ls)) s.
Proof.
  revert s. induction ls as [|b ls IH]; intros s; [done|]. cbn [forM map concat]. rewrite forM_app. unfold bindM.
  destruct (forM f (g b) s) as [[[]|e] s1]; [apply IH|done].
Qed.

Lemma fulls_of_fulls {A} (cs : list (list A)) : (∀ c, c ∈ cs → length c = n) → fulls n (concat cs) = cs ∧ rest n (concat cs) = [].
Proof.
  pose proof leaf_pos as Hn. induction cs as [|c cs IH]; intros H.
  - apply (fulls_small n []). simpl. lia.
  - destruct IH as [IH1 IH2]; [intros; apply H; by right|]. cbn [concat].
    assert (length c = n) as Hc by (apply H; left). destruct (fulls_app n Hn c (concat cs) 1) as [-> ->]; [lia|].
    destruct (fulls_one n Hn c Hc) as [-> _]. by rewrite IH1, IH2.
Qed.

Definition held_all s l : Prop := ∀ x, x ∈ l → real x → is_Some (current_map s !! node_Hash x).

Lemma frame_map s s' : frame s' = frame s → current_map s' = current_map s.
Proof. unfold frame, current_map, map_at. intros [= -> -> _ _ _ _ _ _ _]. done. Qed.

Lemma readd_all_eq xs l s : laid l s → held_all s xs → running s →
  ∃ s', forM readd xs s = (Ok tt, s') ∧ laid (l ++ filter real xs) s' ∧ frame s' = frame s ∧ running s'.
Proof.
  revert l s. induction xs as [|x xs IH]; intros l s Hl Hh Hr.
  { exists s. rewrite app_nil_r. done. }
  cbn [forM]. unfold bindM at 1. unfold readd at 1. case_bool_decide as Ex.
  - destruct (IH l s Hl) as (s' & E & H1 & H2); [intros y Hy; apply Hh; by right|done|]. exists s'.
    rewrite filter_cons_False by (unfold real; tauto). done.
  - unfold wrapM, addNode, bindM at 1, readM. rewrite bool_decide_true by (apply Hh; [left|done]). cbn [negb].
    destruct (addNodePreValidated x true s) as [r s1] eqn:Ea.
    assert (forM (λ x, addNodePreValidated x true) [x] s = (r, s1)) as Ef.
    { cbn [forM]. unfold bindM. rewrite Ea. by destruct r as [[]|]. }
    destruct (forM_laid [x] l true s r s1 Hl) as (Hf & Hl1 & Hrun); [by constructor|done|]. destruct (Hrun Hr) as [-> Hr1].
    destruct (IH _ s1 (Hl1 eq_refl)) as (s' & E & H1 & H2 & H3);
      [intros y Hy Hyr; rewrite (frame_map _ _ Hf); apply Hh; [by right|done]|done|].
    exists s'. rewrite filter_cons_True by done. rewrite <- (assoc_L (++)) in H1. cbn [wrapR]. split_and!; [done|done|congruence|done].
Qed.

Lemma reChain_eq cs cur s : let k := length cs in
  take k (stp_chainedSubtrees s) = map tree cs → (∀ c, c ∈ cs → length c = n) →
  stp_currentSubtree s = Some cur → st_Height cur = Nat.log2 n →
  let xs := concat (map st_Nodes (drop k (stp_chainedSubtrees s))) ++ st_Nodes cur in
  held_all s xs → running s →
  ∃ s', reChainSubtrees k s = (Ok tt, s') ∧
    laid ((if (k =? 0)%nat then [placeholder_node] else concat cs) ++ filter real xs) s' ∧ frame s' = frame s ∧ running s'.
Proof.
  intros k Et Hcs Ec Eh xs Hh Hr.
  assert (subtreeLeafCount cur = Z.of_nat n) as El by (rewrite <- (tree_leaf_count []); unfold subtreeLeafCount; by rewrite Eh).
  destruct (fulls_of_fulls cs Hcs) as [Ef Er].
  assert (concat (map st_Nodes (drop k (stp_chainedSubtrees s) ++ [cur])) = xs) as Exs.
  { rewrite map_app, concat_app. cbn. by rewrite app_nil_r. }
  unfold reChainSubtrees. unfold bindM at 1, readM at 1. unfold bindM at 1, currentM at 1. rewrite Ec.
  unfold bindM at 1, writeM at 1. unfold bindM at 1, wrapM at 1, newSubtree, liftM at 1. rewrite El, new_tree. cbn [foreignR wrapR].
  unfold bindM at 1, writeM at 1. rewrite Et.
  set (s1 := set_currentSubtree (Some (tree [])) _).
  assert (laid (concat cs) s1 ∧ frame s1 = frame s ∧ running s1) as (Hl1 & Hf1 & Hr1).
  { split_and!; [|done|exact Hr]. unfold laid. by rewrite Ef, Er. }
  destruct (decide (k = 0)%nat) as [E0|E0].
  - rewrite (proj2 (Nat.eqb_eq k 0) E0). unfold bindM at 1 2, liftM at 1. rewrite AddCoinbaseNode_spec by done. cbn [foreignR wrapR].
    unfold writeM at 1. set (s2 := set_currentSubtree _ s1).
    assert (laid [placeholder_node] s2) as Hl2.
    { pose proof leaf_two. destruct (fulls_small n [placeholder_node]) as [Ef2 Er2]; [simpl; lia|]. unfold laid. rewrite Ef2, Er2.
      destruct Hl1 as [Hc _]. rewrite Ef in Hc. destruct cs; [|done]. by split. }
    rewrite forM_concat, Exs. destruct (readd_all_eq xs _ s2 Hl2) as (s' & E & H1 & H2 & H3); [exact Hh|exact Hr|].
    exists s'. split_and!; [exact E|exact H1|by rewrite H2|exact H3].
  - rewrite (proj2 (Nat.eqb_neq k 0) E0). unfold bindM at 1, retM at 1. rewrite forM_concat, Exs.
    destruct (readd_all_eq xs _ s1 Hl1) as (s' & E & H1 & H2 & H3); [exact Hh|exact Hr|].
    exists s'. split_and!; [exact E|exact H1|by rewrite H2|exact H3].
Qed.

(** ** What the processor holds *)

(** [txs] are the transactions held, in order; [loose] allows holes in the subtrees. *)
Record loose (txs : list Node) s : Prop := {
  lo_nodes : all_nodes s = placeholder_node :: txs;
  lo_real : Forall real txs;
  lo_once : NoDup (map node_Hash txs);
  lo_map h : is_Some (current_map s !! h) ↔ h ∈ map node_Hash txs;
  lo_inpoints h v : current_map s !! h = Some v → is_Some v;
  lo_height : holds_height s;
}.

Record assembled (txs : list Node) s : Prop := {
  am_laid : laid (placeholder_node :: txs) s;
  am_loose : loose txs s;
}.

Lemma laid_height l s : laid l s → holds_height s.
Proof. intros [_ E]. by exists (tree (rest n l)). Qed.

Lemma not_real : ¬ real placeholder_node.
Proof. unfold real. tauto. Qed.

Lemma real_not_in txs : Forall real txs → CoinbasePlaceholderHashValue ∉ map node_Hash txs.
Proof.
  intros H Hin. apply list_elem_of_fmap in Hin as (x & E & Hx). by apply (proj1 (Forall_forall _ _) H x Hx).
Qed.

Lemma loose_once txs s : loose txs s → NoDup (map node_Hash (all_nodes s)).
Proof.
  intros H. rewrite (lo_nodes _ _ H). cbn [map]. apply NoDup_cons. split; [apply real_not_in, H|apply H].
Qed.

Lemma loose_held txs s : loose txs s → held_all s (all_nodes s).
Proof.
  intros H x Hx Hr. apply (lo_map _ _ H). rewrite (lo_nodes _ _ H) in Hx. apply elem_of_cons in Hx as [->|Hx]; [by destruct not_real|].
  apply list_elem_of_fmap. by exists x.
Qed.

Lemma filter_real txs : Forall real txs → filter real txs = txs.
Proof.
  induction 1 as [|x txs Hx _ IH]; [done|]. by rewrite filter_cons_True, IH.
Qed.

Lemma loose_frame txs s s' : loose txs s → frame s' = frame s → all_nodes s' = all_nodes s → holds_height s' → loose txs s'.
Proof.
  intros H Hf Ha Hh. pose proof (frame_map _ _ Hf) as Em. split; [by rewrite Ha, (lo_nodes _ _ H)|apply H|apply H|..|done]; rewrite Em; apply H.
Qed.

Lemma loose_rechain txs s : loose txs s → running s →
  ∃ s', reChainSubtrees 0 s = (Ok tt, s') ∧ assembled txs s' ∧ frame s' = frame s ∧ running s'.
Proof.
  intros H Hr. destruct (lo_height _ _ H) as (cur & Ec & Eh).
  destruct (reChain_eq [] cur s) as (s' & E & Hl & Hf & Hr'); cbn [length]; [by rewrite take_0|by intros c ?%not_elem_of_nil|done|done| |done|].
  { intros x Hx. apply (loose_held _ _ H). unfold all_nodes. by rewrite Ec. }
  exists s'. assert (laid (placeholder_node :: txs) s') as Hl'.
  { cbn in Hl. rewrite drop_0 in Hl. pose proof (lo_nodes _ _ H) as En. unfold all_nodes in En. rewrite Ec in En. rewrite En in Hl.
    rewrite filter_cons_False, filter_real in Hl by (apply H || apply not_real). exact Hl. }
  split_and!; [done| |done|done]. split; [done|].
  eapply loose_frame; [exact H|done| |by eapply laid_height]. by rewrite (laid_nodes _ _ Hl'), (lo_nodes _ _ H).
Qed.

Lemma current_put_map ref m s : map_at ref (put_map ref m s) = m.
Proof. unfold map_at, put_map. cbn. by rewrite lookup_insert_eq. Qed.

Lemma current_write f s : current_map (write_current f s) = f (current_map s).
Proof. unfold write_current. change (current_map (put_map ?r ?m s)) with (map_at r (put_map r m s)). apply current_put_map. Qed.

Lemma current_forgotten h s : current_map (forgotten h s) = delete h (current_map s).
Proof. unfold forgotten. destruct (current_map s !! h) as [[i|]|]; by rewrite current_write. Qed.

Lemma elem_of_keep h x txs : x ∈ keep h txs ↔ node_Hash x ≠ h ∧ x ∈ txs.
Proof. unfold keep. by rewrite list_elem_of_filter. Qed.

Lemma keep_hashes h k txs : k ∈ map node_Hash (keep h txs) ↔ k ≠ h ∧ k ∈ map node_Hash txs.
Proof.
  rewrite !list_elem_of_fmap. setoid_rewrite elem_of_keep. split; [intros (x & -> & ? & ?); eauto|intros (? & x & -> & ?); eauto].
Qed.

Lemma keep_sublist h txs : keep h txs `sublist_of` txs.
Proof. unfold keep. apply sublist_filter. Qed.

(** Removing one leaves the others as they were. *)
Lemma removed_loose h found txs s s' : h ≠ CoinbasePlaceholderHashValue → loose txs s → removed h found s s' → loose (keep h txs) s'.
Proof.
  intros Hh H (Ha & Ef & Hf & _ & Hhe). rewrite (lo_nodes _ _ H) in Ha, Ef.
  assert (keep h (placeholder_node :: txs) = placeholder_node :: keep h txs) as Ek by (unfold keep; by rewrite filter_cons_True by (cbn; congruence)).
  pose proof (frame_map _ _ Hf) as Em.
  assert (∀ k, current_map s' !! k = delete h (current_map s) !! k) as Em'.
  { intros k. rewrite Em. destruct found; [by rewrite current_forgotten|]. symmetry in Ef. apply bool_decide_eq_false in Ef.
    rewrite delete_id; [done|]. apply eq_None_not_Some. rewrite (lo_map _ _ H). cbn [map] in Ef. apply not_elem_of_cons in Ef. tauto. }
  split; [by rewrite Ha| | | | |done].
  - apply Forall_forall. intros x Hx. apply elem_of_keep in Hx as [_ Hx]. by apply (proj1 (Forall_forall _ _) (lo_real _ _ H)).
  - eapply sublist_NoDup; [apply (lo_once _ _ H)|]. by apply fmap_sublist, keep_sublist.
  - intros k. rewrite keep_hashes, Em', <- (lo_map _ _ H). destruct (decide (k = h)) as [->|].
    + rewrite lookup_delete_eq. split; [by intros []|tauto].
    + rewrite lookup_delete_ne by done. tauto.
  - intros k v. rewrite Em'. intros [_ Hv]%lookup_delete_Some. by apply (lo_inpoints _ _ H k).
Qed.

Lemma assembled_height txs s : assembled txs s → stp_currentSubtree s = Some (tree (rest n (placeholder_node :: txs))).
Proof. intros H. apply H. Qed.

(** The chain again from the subtree with the hole. *)
Lemma rechain_hole cs (ys txs : list Node) : (∀ c, c ∈ cs → length c = n) → concat cs ++ ys = placeholder_node :: txs → Forall real txs →
  (if (length cs =? 0)%nat then [placeholder_node] else concat cs) ++ filter real ys = placeholder_node :: txs.
Proof.
  intros Hcs E Hr. destruct cs as [|c cs]; cbn [length].
  - cbn in E |- *. subst ys. by rewrite filter_cons_False, filter_real by (done || apply not_real).
  - rewrite (proj2 (Nat.eqb_neq (S (length cs)) 0)) by done. pose proof (Hcs c (list_elem_of_here _ _)) as Hc. pose proof leaf_pos.
    destruct c as [|x c]; [cbn in Hc; lia|]. cbn in E |- *. injection E as -> E. f_equal.
    rewrite filter_real; [done|]. apply Forall_forall. intros y Hy. apply (proj1 (Forall_forall _ _) Hr). rewrite <- E. apply elem_of_app. by right.
Qed.

Lemma held_sub s l xs : held_all s l → (∀ x, x ∈ xs → x ∈ l) → held_all s xs.
Proof. intros H Hs x Hx. apply H. auto. Qed.

Lemma all_nodes_forgotten h s : all_nodes (forgotten h s) = all_nodes s.
Proof. destruct (forgotten_trees h s) as (E1 & E2 & _). unfold all_nodes. by rewrite E1, E2. Qed.

Lemma found_in h s l1 x l2 pre post : all_nodes s = pre ++ (l1 ++ x :: l2) ++ post → node_Hash x = h →
  bool_decide (h ∈ map node_Hash (all_nodes s)) = true.
Proof.
  intros E Hx. apply bool_decide_eq_true. rewrite E, !map_app, !elem_of_app. cbn [map]. rewrite elem_of_cons. naive_solver.
Qed.

Lemma removeTx_eq h txs s : assembled txs s → running s → h ≠ CoinbasePlaceholderHashValue →
  ∃ s', removeTxFromSubtrees h s = (Ok tt, s') ∧ assembled (keep h txs) s' ∧ running s' ∧
        frame s' = frame (if bool_decide (h ∈ map node_Hash txs) then forgotten h s else s).
Proof.
  intros H Hr Hh. pose proof (am_loose _ _ H) as Hlo. pose proof (am_laid _ _ H) as [Ech Ecur].
  set (L := placeholder_node :: txs) in *. pose proof leaf_pos as Hn. assert (all_nodes s = L) as Hal by apply (lo_nodes _ _ Hlo).
  assert (keep h L = placeholder_node :: keep h txs) as Ek by (unfold keep, L; by rewrite filter_cons_True by (cbn; congruence)).
  assert (bool_decide (h ∈ map node_Hash (all_nodes s)) = bool_decide (h ∈ map node_Hash txs)) as Ebd.
  { apply bool_decide_ext. rewrite Hal. unfold L. cbn [map]. rewrite elem_of_cons. cbn. split; [intros [?|?]; [done|done]|tauto]. }
  destruct (forgotten_trees h s) as (F1 & F2 & F3).
  assert (NoDup (map node_Hash L)) as Hnd by (rewrite <- Hal; by eapply loose_once).
  pose proof (fulls_rest n Hn L) as Efr.
  destruct (locate_eq h s _ Ecur) as [[El Hni]|[(l1 & x & l2 & E & Hx & El)|(s1 & st & s2 & l1 & x & l2 & E1 & E2 & Hx & Hni & El)]];
    unfold removeTxFromSubtrees; unfold bindM at 1; rewrite El.
  - exists s. assert (h ∉ map node_Hash txs) by (apply (bool_decide_eq_false_1 _); rewrite <- Ebd; by apply bool_decide_eq_false_2).
    rewrite bool_decide_false, keep_absent by done. done.
  - rewrite (proj2 (Z.ltb_ge _ 0)) by lia. unfold bindM at 1. rewrite forget_eq. cbn [Z.eqb Pos.eqb].
    unfold bindM at 1, currentM at 1. rewrite F2, Ecur. cbn [st_Nodes tree] in E.
    unfold bindM at 1, liftM at 1. unfold duplicateKeepingCapacity. rewrite tree_leaf_count, new_tree. cbn [foreignR bindR wrapR].
    unfold bindM at 1, liftM at 1. change (mkSubtree (st_Nodes (tree []) ++ st_Nodes (tree (rest n L))) (st_Height (tree [])) (st_capacity (tree [])) (st_claimed (tree []))) with (tree (rest n L)).
    rewrite (remove_middle (tree (rest n L)) _ _ _ E). cbn [foreignR wrapR]. unfold writeM.
    change (mkSubtree (l1 ++ l2) _ _ _) with (tree (l1 ++ l2)). eexists. split; [reflexivity|].
    assert (concat (fulls n L) ++ l1 ++ l2 = placeholder_node :: keep h txs) as EL.
    { rewrite <- Ek. rewrite (assoc_L (++)). symmetry. apply (keep_at h x); [|done|done]. rewrite <- (assoc_L (++)), <- E. by symmetry. }
    assert (laid (placeholder_node :: keep h txs) (set_currentSubtree (Some (tree (l1 ++ l2))) (forgotten h s))) as Hlaid.
    { rewrite <- EL. destruct (fulls_concat n Hn L) as [Ef Hlen]. destruct (fulls_app n Hn _ (l1 ++ l2) _ Hlen) as [Ef2 Er2].
      pose proof (rest_short n Hn L) as Hs. rewrite E, length_app in Hs. cbn in Hs.
      destruct (fulls_small n (l1 ++ l2)) as [Ef3 Er3]; [rewrite length_app; lia|].
      unfold laid. rewrite Ef2, Er2, Ef, Ef3, Er3, app_nil_r. split; [exact (eq_trans F1 Ech)|done]. }
    rewrite <- Ebd. rewrite (found_in h s l1 x l2 (concat (fulls n L)) []) by (done || rewrite Hal, app_nil_r, <- E; symmetry; exact Efr).
    split_and!; [|exact (eq_trans F3 Hr)|done].
    split; [done|]. apply (removed_loose h true txs s); [done|done|]. split_and!; [|by symmetry; apply (found_in h s l1 x l2 (concat (fulls n L)) []); [rewrite Hal, app_nil_r, <- E; symmetry; exact Efr|]|done|exact F3|by eapply laid_height].
    by rewrite (laid_nodes _ _ Hlaid), Hal, Ek.
  - rewrite (proj2 (Z.ltb_ge _ 0)) by lia. unfold bindM at 1. rewrite forget_eq. rewrite (proj2 (Z.eqb_neq _ _)) by lia.
    unfold bindM at 1. destruct (remove_from_chained_eq (forgotten h s) s1 st s2 l1 x l2) as (st' & En & ->); [by rewrite F1|done|].
    rewrite Nat2Z.id. unfold wrapM. set (sh := set_chainedSubtrees _ _).
    rewrite E1 in Ech. symmetry in Ech. change (map tree (fulls n L)) with (tree <$> fulls n L) in Ech.
    apply fmap_app_inv in Ech as (cs & c2 & -> & Ec2 & Efu). symmetry in Ec2.
    assert (length (tree <$> cs) = length cs) as Elc by apply length_fmap.
    assert (∀ c, c ∈ cs → length c = n) as Hcs.
    { intros c Hc. apply (chunks_full n Hn (length L / n) L); [pose proof (Nat.mul_div_le (length L) n); lia|].
      change (chunks (length L / n) n L) with (fulls n L). rewrite Efu. apply elem_of_app. by left. }
    pose proof (all_nodes_split s _ st s2 _ E1 Ecur) as Ea. rewrite E2 in Ea.
    assert (concat (map st_Nodes (tree <$> cs)) = concat cs) as Ecc by apply tree_nodes. rewrite Ecc in Ea.
    assert (all_nodes sh = concat cs ++ (l1 ++ l2) ++ concat (map st_Nodes s2) ++ rest n L) as Ea'.
    { rewrite (all_nodes_split sh (tree <$> cs) st' s2 (tree (rest n L))); [by rewrite Ecc, En|done|exact (eq_trans F2 Ecur)]. }
    assert (all_nodes sh = placeholder_node :: keep h txs) as Eks.
    { rewrite <- Ek, <- Hal, Ea, Ea'. rewrite <- Hal, Ea in Hnd.
      rewrite <- !(assoc_L (++)) in Hnd. cbn [app] in Hnd. rewrite (assoc_L (++)) in Hnd. rewrite <- !(assoc_L (++)). cbn [app].
      rewrite (assoc_L (++) _ l1 (x :: _)), (keep_middle h _ x) by done. by rewrite <- !(assoc_L (++)). }
    assert (removed h true s sh) as Hrem.
    { split_and!; [by rewrite Eks, Hal| |done|exact F3|].
      - symmetry. eapply (found_in h); [|exact Hx]. rewrite Ea. reflexivity.
      - exists (tree (rest n L)). split; [exact (eq_trans F2 Ecur)|done]. }
    pose proof (removed_loose _ _ _ _ _ Hh Hlo Hrem) as Hlo'.
    destruct (reChain_eq cs (tree (rest n L)) sh) as (s' & Er & Hl & Hf & Hr'); cbn zeta.
    + change (stp_chainedSubtrees sh) with ((tree <$> cs) ++ st' :: s2). rewrite <- Elc. by rewrite take_app_length.
    + exact Hcs.
    + exact (eq_trans F2 Ecur).
    + done.
    + apply (held_sub _ _ _ (loose_held _ _ Hlo')). intros y Hy. rewrite Ea'. change (stp_chainedSubtrees sh) with ((tree <$> cs) ++ st' :: s2) in Hy.
      rewrite <- Elc, drop_app_length in Hy. cbn [map concat] in Hy. rewrite En in Hy. rewrite <- (assoc_L (++)) in Hy. apply elem_of_app. by right.
    + unfold running. change (stp_ctx sh) with (stp_ctx (forgotten h s)). by rewrite F3.
    + rewrite Elc, Er. cbn [wrapR]. exists s'.
      change (stp_chainedSubtrees sh) with ((tree <$> cs) ++ st' :: s2) in Hl. rewrite <- Elc in Hl at 2. rewrite drop_app_length in Hl. cbn [map concat st_Nodes tree] in Hl.
      rewrite En, <- (assoc_L (++)) in Hl. rewrite (rechain_hole cs _ (keep h txs)) in Hl; [|done|by rewrite <- Eks, Ea'|apply Hlo'].
      split_and!; [done| |done|].
      * split; [done|]. eapply loose_frame; [exact Hlo'|done| |by eapply laid_height]. by rewrite (laid_nodes _ _ Hl), Eks.
      * rewrite Hf. rewrite <- Ebd. rewrite (found_in h s l1 x l2 (concat cs) (concat (map st_Nodes s2) ++ rest n L)) by (done || rewrite Ea; reflexivity). done.
Qed.
End Layout.
