(* ===== verification/AssemblyOwned.v ===== *)
(** * What the operations of the subtree processor leave alone

    Every operation on the subtrees writes the map in use and no other: a map that a
    reset has put aside stays as it is, so a block that fails can be undone. *)

From S2P Require Import Prelude External Merkle GoSubtree Queue Assembly.

#[local] Opaque u64 i32.

Create HintDb owned.

Section Owned.
  Context {I : Type} {TI : TxInpointsOps I}.
  Context {CH : Chainhash} {SUB : Subtree} {GS : GoSubtree} {AS : AssemblySubtree}.
  Implicit Types s : SubtreeProcessor I.

(** Which maps are in use, how large subtrees are, which block is the tip. *)
Definition settings_of s := (stp_currentTxMap s, stp_currentTxMapShadow s, stp_disableCurrentTxMapPool s,
  stp_currentItemsPerFile s, stp_currentBlockHeader s).

Record aside s s' : Prop := {
  as_settings : settings_of s' = settings_of s;
  as_maps r : r ≠ stp_currentTxMap s → map_at r s' = map_at r s;
}.

#[global] Instance aside_preorder : PreOrder aside.
Proof.
  split; [done|]. intros s1 s2 s3 [E1 M1] [E2 M2]. split; [congruence|].
  assert (stp_currentTxMap s2 = stp_currentTxMap s1) as E by (unfold settings_of in E1; congruence).
  intros r Hr. rewrite M2 by congruence. by apply M1.
Qed.

Definition owned {A} (m : M (I := I) A) : Prop := ∀ s, aside s (m s).2.

Lemma owned_ret {A} (a : A) : owned (retM a).
Proof. done. Qed.
Lemma owned_fail {A} e : owned (A := A) (failM e).
Proof. done. Qed.
Lemma owned_lift {A} (r : result A) : owned (liftM r).
Proof. done. Qed.
Lemma owned_read {A} (f : SubtreeProcessor I → A) : owned (readM f).
Proof. done. Qed.
Lemma owned_current : owned currentM.
Proof. intros s. unfold currentM. by destruct (stp_currentSubtree s). Qed.
Lemma owned_new k : owned (newSubtree k).
Proof. done. Qed.

Lemma owned_bind {A B} (m : M A) (f : A → M B) : owned m → (∀ a, owned (f a)) → owned (bindM m f).
Proof.
  intros Hm Hf s. unfold bindM. pose proof (Hm s) as H. destruct (m s) as [[a|e] s1]; [|done]. etrans; [exact H|apply Hf].
Qed.

Lemma owned_wrap {A} c (m : M A) : owned m → owned (wrapM c m).
Proof. intros H s. unfold wrapM. pose proof (H s). by destruct (m s). Qed.

Lemma owned_log (m : M unit) : owned m → owned (logM m).
Proof. intros H s. apply H. Qed.

Lemma owned_forM {A} (f : A → M unit) l : (∀ a, owned (f a)) → owned (forM f l).
Proof. intros H. induction l as [|a l IH]; [done|]. cbn [forM]. by apply owned_bind. Qed.

Lemma owned_write f : (∀ s, aside s (f s)) → owned (writeM f).
Proof. intros H s. apply H. Qed.

Lemma aside_write f s : aside s (write_current f s).
Proof.
  split; [done|]. intros r Hr. unfold write_current, map_at, put_map. cbn. by rewrite lookup_insert_ne.
Qed.

Lemma owned_if {A} (b : bool) (m1 m2 : M A) : owned m1 → owned m2 → owned (if b then m1 else m2).
Proof. by destruct b. Qed.

Lemma owned_setnx h i : owned (SetIfNotExists h i).
Proof. intros s. unfold SetIfNotExists. destruct (current_map s !! h); [done|apply aside_write]. Qed.

Lemma owned_map_Set h i : owned (map_Set h i).
Proof. apply owned_write. intros. apply aside_write. Qed.

Lemma owned_map_Delete h : owned (map_Delete h).
Proof. apply owned_write. intros. apply aside_write. Qed.
End Owned.

#[export] Hint Resolve owned_ret owned_fail owned_lift owned_read owned_current owned_new owned_bind owned_wrap owned_log
  owned_forM owned_if owned_setnx owned_map_Set owned_map_Delete : owned.
#[export] Hint Extern 1 (owned (writeM _)) => apply owned_write; intros ?s; done : owned.

(** A program read step by step. *)
Ltac owns :=
  repeat first
    [ progress intros
    | solve [eauto 2 with owned]
    | match goal with
      | |- owned (bindM _ _) => apply owned_bind
      | |- owned (wrapM _ _) => apply owned_wrap
      | |- owned (logM _) => apply owned_log
      | |- owned (forM _ _) => apply owned_forM
      | |- owned (if _ then _ else _) => apply owned_if
      end
    | match goal with |- context [match ?x with _ => _ end] => destruct x end ].

Section OwnedOps.
  Context {I : Type} {TI : TxInpointsOps I}.
  Context {CH : Chainhash} {SUB : Subtree} {GS : GoSubtree} {AS : AssemblySubtree}.
  Implicit Types s : SubtreeProcessor I.
  #[local] Notation owned := (owned (I := I)).

Lemma owned_announce st skip : owned (announce st skip).
Proof.
  unfold announce. owns.
  - intros s. unfold sendNewSubtree. by destruct (stp_ctx s) as [[|k]|].
  - apply owned_write. intros s. by destruct (stp_currentBlockHeader s) eqn:E.
Qed.
#[local] Hint Resolve owned_announce : owned.

Lemma owned_complete skip : owned (processCompleteSubtree skip).
Proof. unfold processCompleteSubtree. owns. Qed.
#[local] Hint Resolve owned_complete : owned.

Lemma owned_open : owned open_subtree.
Proof.
  intros s. unfold open_subtree. destruct (stp_currentSubtree s); [done|]. match goal with |- aside s (?m s).2 => enough (owned m) as H by exact (H s) end.
  owns.
Qed.
#[local] Hint Resolve owned_open : owned.

Lemma owned_addPreValidated x skip : owned (addNodePreValidated x skip).
Proof. unfold addNodePreValidated. owns. Qed.
#[local] Hint Resolve owned_addPreValidated : owned.

Lemma owned_addNode x parents skip : owned (addNode x parents skip).
Proof. unfold addNode. owns. Qed.
#[local] Hint Resolve owned_addNode : owned.

Lemma owned_addDirectly x parents skip : owned (addDirectly x parents skip).
Proof. unfold addDirectly. owns. Qed.

Lemma owned_addNodesDirectly writes new skip : owned (addNodesDirectly writes new skip).
Proof. unfold addNodesDirectly, place_directly. owns. Qed.

Lemma owned_locate h : owned (locateTxInSubtrees h).
Proof. unfold locateTxInSubtrees. owns. Qed.
#[local] Hint Resolve owned_locate : owned.

Lemma owned_forget h : owned (forget h).
Proof.
  unfold forget, deleted_Set. owns.
Qed.
#[local] Hint Resolve owned_forget : owned.

Lemma owned_remove_from_chained i k : owned (remove_from_chained i k).
Proof.
  unfold remove_from_chained, set_chained. owns. intros s. unfold chainedM. by destruct (_ !! _).
Qed.
#[local] Hint Resolve owned_remove_from_chained : owned.

Lemma owned_reChain k : owned (reChainSubtrees k).
Proof. unfold reChainSubtrees, readd. owns. Qed.
#[local] Hint Resolve owned_reChain : owned.

Lemma owned_removeTx h : owned (removeTxFromSubtrees h).
Proof. unfold removeTxFromSubtrees. owns. Qed.

Lemma owned_remove_each b hs : owned (remove_each b hs).
Proof. revert b. induction hs as [|h hs IH]; intros b; cbn [remove_each]; unfold remove_one; owns. Qed.
#[local] Hint Resolve owned_remove_each : owned.

Lemma owned_removeTxs hs : owned (removeTxsFromSubtrees hs).
Proof. unfold removeTxsFromSubtrees. owns. Qed.

Lemma owned_check : owned checkSubtreeProcessor.
Proof.
  unfold checkSubtreeProcessor. owns. intros s. unfold setTxCountFromSubtrees. by destruct (stp_currentSubtree s).
Qed.

Lemma owned_dequeueBatch v : owned (dequeueBatch v).
Proof. intros s. unfold dequeueBatch. destruct (stp_queue s) eqn:E; [done|]. by destruct (_ && _). Qed.
#[local] Hint Resolve owned_dequeueBatch : owned.

Lemma owned_dequeue_batches k v : owned (dequeue_batches k v).
Proof. induction k; cbn [dequeue_batches]; owns. Qed.

Lemma owned_filter_batches l batches order kept : owned (filter_batches l batches order kept).
Proof.
  revert kept. induction order as [|[b i] order IH]; intros kept; cbn [filter_batches]; unfold filter_node; owns; apply IH.
Qed.

Lemma owned_place_dequeued added nodes : owned (place_dequeued added nodes).
Proof. revert added. induction nodes as [|x nodes IH]; intros added; cbn [place_dequeued]; owns; apply IH. Qed.
#[local] Hint Resolve owned_dequeue_batches owned_filter_batches owned_place_dequeued : owned.

Lemma owned_dequeue_pass v order : owned (dequeue_pass v order).
Proof. unfold dequeue_pass. owns. Qed.

Lemma owned_fill_current add nodes : owned (fill_current add nodes).
Proof. intros s. unfold fill_current. destruct (stp_currentSubtree s); [|done]. by destruct (fill _ _ _). Qed.
#[local] Hint Resolve owned_fill_current : owned.

Lemma owned_parallel kept skip : owned (parallelBuildRemainderSubtrees kept skip).
Proof. unfold parallelBuildRemainderSubtrees, complete_built. owns. Qed.
End OwnedOps.

#[export] Hint Resolve owned_announce owned_complete owned_addPreValidated owned_addNode owned_addDirectly owned_addNodesDirectly
  owned_removeTx owned_removeTxs owned_check owned_dequeueBatch owned_dequeue_pass owned_parallel : owned.
