(* ===== verification/AssemblyReach.v ===== *)
(** * Every state the subtree processor reaches passes its own check

    The operations of [Assembly] one after another, in any order: what each leaves of
    the transactions held, and that the check of the whole state answers nil after any
    number of them. *)

From S2P Require Import Prelude External Merkle GoSubtree Queue Assembly AssemblyTheorems.

#[local] Opaque u64 i32.

Section Reach.
  Context {I : Type} {TI : TxInpointsOps I}.
  Context {CH : Chainhash} {SUB : Subtree} {GS : GoSubtree} {AS : AssemblySubtree} {ASP : AssemblySubtreeSpec AS}.
  Implicit Types (s : SubtreeProcessor I) (txs : list Node).
  Context (n : nat) {LN : LeafCount n}.

#[local] Notation assembled := (assembled n).
#[local] Notation loose := (loose n).

(** What is held depends on the subtrees and the map alone. *)
Lemma assembled_same txs s s' : assembled txs s → stp_chainedSubtrees s' = stp_chainedSubtrees s →
  stp_currentSubtree s' = stp_currentSubtree s → current_map s' = current_map s → assembled txs s'.
Proof.
  intros [[E1 E2] Hlo] F1 F2 F3. assert (laid n (placeholder_node :: txs) s') as Hl by (split; congruence).
  split; [done|]. split; rewrite ?F3; [by rewrite (laid_nodes n _ _ Hl)|apply Hlo..|by eapply laid_height].
Qed.

(** ** Removing several *)
Definition keep_all (hs : list Hash) txs : list Node := filter (λ x, node_Hash x ∉ hs) txs.

Lemma keep_all_cons h hs txs : keep_all (h :: hs) txs = keep_all hs (keep h txs).
Proof.
  unfold keep_all, keep. rewrite list_filter_filter. apply list_filter_iff. intros x. rewrite not_elem_of_cons. tauto.
Qed.

Lemma removed_running h found s s' : removed n h found s s' → running s → running s'.
Proof. intros (_ & _ & _ & E & _). unfold running. by rewrite E. Qed.

Lemma frame_queue s s' : frame s' = frame s → stp_queue s' = stp_queue s.
Proof. by intros [= _ _ _ _ _ _ _ _ _ ->]. Qed.

Lemma frame_marks s s' : frame s' = frame s → stp_removeMap s' = stp_removeMap s.
Proof. by intros [= _ _ _ _ -> _ _ _ _ _]. Qed.

Lemma forgotten_queue h s : stp_queue (forgotten h s) = stp_queue s.
Proof. unfold forgotten. by destruct (current_map s !! h) as [[i|]|]. Qed.

Lemma removed_queue h found s s' : removed n h found s s' → stp_queue s' = stp_queue s.
Proof. intros (_ & _ & E & _). rewrite (frame_queue _ _ E). destruct found; [apply forgotten_queue|done]. Qed.

Lemma remove_each_eq hs b txs s : loose txs s → running s → Forall (.≠ CoinbasePlaceholderHashValue) hs →
  ∃ b' s', remove_each b hs s = (Ok b', s') ∧ loose (keep_all hs txs) s' ∧ running s' ∧ stp_queue s' = stp_queue s ∧
    (b' = false → s' = s ∧ b = false).
Proof.
  revert b txs s. induction hs as [|h hs IH]; intros b txs s Hl Hr Hhs.
  { exists b, s. split_and!; [done| |done..]. unfold keep_all. rewrite list_filter_all; [done|]. intros x _. apply not_elem_of_nil. }
  apply Forall_cons in Hhs as [Hh Hhs]. cbn [remove_each]. unfold bindM.
  destruct (remove_one_eq n h s) as (found & s1 & -> & Hrm & Hsame); [apply Hl|by eapply loose_once|].
  destruct (IH (b || found)%bool (keep h txs) s1) as (b' & s' & E & H1 & H2 & Hq & H3); [by eapply removed_loose|by eapply removed_running|done|].
  exists b', s'. rewrite keep_all_cons. split_and!; [done|done|done|by rewrite Hq; eapply removed_queue|]. intros Hb. destruct (H3 Hb) as [-> [-> Hf]%orb_false_iff]. auto.
Qed.

Lemma loose_assembled txs txs' s : assembled txs s → loose txs' s → assembled txs' s.
Proof.
  intros [Hl Hlo] Hlo'. assert (txs' = txs) as ->; [|done]. pose proof (lo_nodes _ _ _ Hlo) as E. rewrite (lo_nodes _ _ _ Hlo') in E. by injection E.
Qed.

Lemma removeTxs_eq hs txs s : assembled txs s → running s → Forall (.≠ CoinbasePlaceholderHashValue) hs →
  ∃ s', removeTxsFromSubtrees hs s = (Ok tt, s') ∧ assembled (keep_all hs txs) s' ∧ running s' ∧ stp_queue s' = stp_queue s.
Proof.
  intros H Hr Hhs. destruct (remove_each_eq hs false txs s) as (b & s1 & E & Hl & Hr1 & Hq & Hb); [apply H|done|done|].
  unfold removeTxsFromSubtrees. unfold bindM at 1. rewrite E. destruct b.
  - destruct (loose_rechain n _ s1 Hl Hr1) as (s' & E' & H1 & Hf & H2). exists s'. unfold wrapM. rewrite E'.
    split_and!; [done..|]. by rewrite (frame_queue _ _ Hf).
  - destruct (Hb eq_refl) as [-> _]. exists s. split_and!; [done|by eapply loose_assembled|done..].
Qed.

(** ** Adding one *)
Lemma assembled_snoc x i txs s s' : assembled txs s → real x → current_map s !! node_Hash x = None →
  laid n ((placeholder_node :: txs) ++ [x]) s' → current_map s' = <[node_Hash x := Some i]> (current_map s) →
  assembled (txs ++ [x]) s'.
Proof.
  intros [_ Hlo] Hx Hnone Hl Em. split; [done|].
  assert (node_Hash x ∉ map node_Hash txs) as Hni by (rewrite <- (lo_map _ _ _ Hlo), Hnone; by intros []).
  split; [by rewrite (laid_nodes n _ _ Hl)| | | | |by eapply laid_height].
  - apply Forall_app. split; [apply Hlo|by apply Forall_singleton].
  - rewrite map_app. apply NoDup_app. split_and!; [apply Hlo| |apply NoDup_singleton]. intros h Hh Hin.
    apply list_elem_of_singleton in Hin as ->. done.
  - intros h. rewrite Em, map_app, elem_of_app, lookup_insert_is_Some', (lo_map _ _ _ Hlo). cbn [map]. rewrite list_elem_of_singleton. naive_solver.
  - intros h v. rewrite Em, lookup_insert_Some. intros [[_ <-]|[_ Hv]]; [done|by eapply lo_inpoints].
Qed.

(** Whatever is answered: when the send to storage fails the transaction is in. *)
Lemma addNode_assembled x i skip txs s r s' : assembled txs s → real x → addNode x (Some i) skip s = (r, s') →
  assembled (if bool_decide (node_Hash x ∈ map node_Hash txs) then txs else txs ++ [x]) s' ∧
  stp_queue s' = stp_queue s ∧ stp_removeMap s' = stp_removeMap s ∧ (running s → r = Ok tt ∧ running s').
Proof.
  intros H Hx. pose proof (am_loose _ _ _ H) as Hlo. unfold addNode, bindM, SetIfNotExists.
  pose proof (lo_map _ _ _ Hlo (node_Hash x)) as Hm. destruct (current_map s !! node_Hash x) as [v|] eqn:Ev.
  - rewrite bool_decide_true by (apply Hm; eauto). cbn [negb]. by intros [= <- <-].
  - rewrite bool_decide_false by (rewrite <- Hm; by intros []). cbn [negb]. set (s1 := write_current _ s). intros E.
    assert (forM (λ x, addNodePreValidated x skip) [x] s1 = (r, s')) as Ef.
    { cbn [forM]. unfold bindM. rewrite E. by destruct r as [[]|]. }
    assert (laid n (placeholder_node :: txs) s1) as Hl1 by apply (am_laid _ _ _ H).
    destruct (addNodePreValidated_laid n _ _ _ _ _ _ Hl1 Hx E) as [Hl' Hf].
    destruct (forM_laid n [x] _ skip s1 r s' Hl1) as (_ & _ & Hrun); [by constructor|done|].
    split_and!; [|exact (frame_queue _ _ Hf)|exact (frame_marks _ _ Hf)|exact Hrun]. eapply (assembled_snoc x i); [exact H|done..|]. rewrite (frame_map _ _ Hf). apply current_write.
Qed.

(** What was in the map stays; the transaction is entered if it was not held. *)
Lemma addNode_map x i skip txs s r s' : assembled txs s → real x → addNode x (Some i) skip s = (r, s') →
  current_map s' = if bool_decide (node_Hash x ∈ map node_Hash txs) then current_map s else <[node_Hash x := Some i]> (current_map s).
Proof.
  intros H Hx. pose proof (lo_map _ _ _ (am_loose _ _ _ H) (node_Hash x)) as Hm. unfold addNode, bindM, SetIfNotExists.
  destruct (current_map s !! node_Hash x) as [v|] eqn:Ev.
  - rewrite bool_decide_true by (apply Hm; eauto). cbn [negb]. by intros [= <- <-].
  - rewrite bool_decide_false by (rewrite <- Hm; by intros []). cbn [negb]. set (s1 := write_current _ s). intros E.
    assert (laid n (placeholder_node :: txs) s1) as Hl1 by apply (am_laid _ _ _ H).
    destruct (addNodePreValidated_laid n _ _ _ _ _ _ Hl1 Hx E) as [_ Hf]. rewrite (frame_map _ _ Hf). apply current_write.
Qed.

(** ** The check *)
Lemma check_chained_real held i k nodes : Forall (λ x, real x ∧ is_Some (held !! node_Hash x)) nodes →
  check_chained (I := I) held i k nodes = Ok tt.
Proof.
  revert k. induction nodes as [|x nodes IH]; intros k H; [done|]. apply Forall_cons in H as [[Hx Hh] H]. cbn [check_chained].
  rewrite bool_decide_false by done. rewrite bool_decide_true by done. by apply IH.
Qed.

Lemma check_current_real held k nodes : Forall (λ x, real x ∧ is_Some (held !! node_Hash x)) nodes →
  check_current (I := I) held k nodes = Ok tt.
Proof.
  revert k. induction nodes as [|x nodes IH]; intros k H; [done|]. apply Forall_cons in H as [[Hx Hh] H]. cbn [check_current].
  rewrite bool_decide_true by done. by apply IH.
Qed.

Lemma check_all_real held i css : Forall (λ x, real x ∧ is_Some (held !! node_Hash x)) (concat css) →
  check_all_chained (I := I) held i (map (tree n) css) = Ok tt.
Proof.
  revert i. induction css as [|c css IH]; intros i H; [done|]. cbn [concat] in H. apply Forall_app in H as [Hc H]. cbn [map check_all_chained].
  rewrite check_chained_real by done. cbn [bindR]. by apply IH.
Qed.

(** The placeholder is first: in the first full subtree, or in the open one. *)
Lemma layout_head txs :
  (fulls n (placeholder_node :: txs) = [] ∧ rest n (placeholder_node :: txs) = placeholder_node :: txs) ∨
  ∃ c css, fulls n (placeholder_node :: txs) = (placeholder_node :: c) :: css ∧ txs = c ++ concat css ++ rest n (placeholder_node :: txs).
Proof.
  pose proof (leaf_pos n) as Hn. pose proof (fulls_rest n Hn (placeholder_node :: txs)) as E.
  destruct (fulls n (placeholder_node :: txs)) as [|c css] eqn:Ef; [left; split; [done|exact E]|]. right.
  assert (length c = n) as Hc.
  { apply (chunks_full n Hn (length (placeholder_node :: txs) / n) (placeholder_node :: txs)).
    - pose proof (Nat.mul_div_le (length (placeholder_node :: txs)) n). lia.
    - unfold fulls in Ef. rewrite Ef. left. }
  destruct c as [|y c]; [cbn in Hc; lia|]. cbn [concat] in E. rewrite <- (assoc_L (++)) in E. injection E as -> E.
  exists c, css. split; [done|]. by rewrite <- E at 1.
Qed.

Lemma counted txs : foldr Z.add 0 (map Length (map (tree n) (fulls n (placeholder_node :: txs)))) + Length (tree n (rest n (placeholder_node :: txs))) =
  Z.of_nat (length txs) + 1.
Proof.
  transitivity (Z.of_nat (length (concat (fulls n (placeholder_node :: txs)) ++ rest n (placeholder_node :: txs)))).
  - rewrite length_app, Nat2Z.inj_add. f_equal. induction (fulls n (placeholder_node :: txs)) as [|c css IH]; [done|].
    cbn [map foldr concat]. rewrite length_app, Nat2Z.inj_add, IH. done.
  - rewrite (fulls_rest n (leaf_pos n)). cbn [length]. lia.
Qed.

Lemma map_size txs s : loose txs s → size (current_map s) = length txs.
Proof.
  intros H. rewrite <- size_dom. transitivity (size (list_to_set (map node_Hash txs) : gset Hash)).
  - f_equal. apply set_eq. intros h. rewrite elem_of_dom, elem_of_list_to_set. apply H.
  - rewrite size_list_to_set by apply H. by rewrite length_map.
Qed.

Lemma check_ok txs s : assembled txs s → Z.of_nat (length txs) < 2 ^ 64 - 1 →
  checkSubtreeProcessor s = (Ok tt, set_txCount (Z.of_nat (length txs) + 1) s).
Proof.
  intros H Hlen. pose proof (am_loose _ _ _ H) as Hlo. destruct (am_laid _ _ _ H) as [Ech Ecur].
  assert (Forall (λ x, real x ∧ is_Some (current_map s !! node_Hash x)) txs) as Hall.
  { apply Forall_forall. intros x Hx. split; [by apply (proj1 (Forall_forall _ _) (lo_real _ _ _ Hlo))|].
    apply (lo_map _ _ _ Hlo). apply list_elem_of_fmap. by exists x. }
  unfold checkSubtreeProcessor. unfold bindM at 1, readM at 1. unfold bindM at 1, readM at 1. rewrite Ech.
  assert (check_all_chained (current_map s) 0 (map (tree n) (fulls n (placeholder_node :: txs))) = Ok tt ∧
          check_current (current_map s) 0 (rest n (placeholder_node :: txs)) = Ok tt) as [Hc1 Hc2].
  { destruct (layout_head txs) as [[Ef Er]|(c & css & Ef & Er)].
    - rewrite Ef, Er. split; [done|]. cbn [check_current]. rewrite bool_decide_false.
      + rewrite bool_decide_true by done. by apply check_current_real.
      + cbn [node_Hash placeholder_node]. rewrite (lo_map _ _ _ Hlo). apply real_not_in, Hlo.
    - rewrite Ef. rewrite Er in Hall. apply Forall_app in Hall as [H1 [H2 H3]%Forall_app]. split; [|by apply check_current_real].
      cbn [map check_all_chained st_Nodes tree check_chained]. rewrite bool_decide_true by done. cbn [Nat.eqb andb].
      rewrite check_chained_real by done. cbn [bindR]. by apply check_all_real. }
  unfold bindM at 1, liftM at 1. rewrite Hc1. unfold bindM at 1, currentM at 1. rewrite Ecur.
  unfold bindM at 1, liftM at 1. change (st_Nodes (tree n ?l)) with l. rewrite Hc2.
  unfold bindM at 1, setTxCountFromSubtrees. rewrite Ecur, Ech, counted. unfold bindM, readM.
  change (stp_txCount (set_txCount ?v s)) with v. rewrite (u64_small (Z.of_nat (length txs) + 1)) by lia.
  rewrite (map_size txs) by done. rewrite (proj2 (Z.eqb_eq _ _)) by lia. done.
Qed.

(** ** A pass over the queue *)

(** What is queued: transactions with their inpoints, never the placeholder nor the zero hash. *)
Definition queued_ok (batch : TxBatch (option I)) : Prop :=
  length (b_txInpoints batch) = length (b_nodes batch) ∧
  Forall (λ x, real x ∧ node_Hash x ≠ zero_hash) (b_nodes batch) ∧ Forall is_Some (b_txInpoints batch).

Definition node_at (batches : list (TxBatch (option I))) (p : nat * nat) : option Node :=
  batches !! p.1 ≫= λ batch, b_nodes batch !! p.2.

(** The workers come to every transaction of every batch. *)
Definition visits (batches : list (TxBatch (option I))) (order : list (nat * nat)) : Prop :=
  ∀ p, p ∈ order ↔ is_Some (node_at batches p).

(** What a worker changes: the map and the marks, nothing else. *)
Definition outside_maps s := (stp_chainedSubtrees s, stp_currentSubtree s, stp_queue s, stp_ctx s, stp_newSubtreeChan s).

(** The map holds [m0] and what was kept. *)
Record kept_map (m0 : gmap Hash (option I)) (batches : list (TxBatch (option I))) (kept : gset (nat * nat)) s : Prop := {
  km_held h : is_Some (current_map s !! h) ↔ is_Some (m0 !! h) ∨ ∃ p x, p ∈ kept ∧ node_at batches p = Some x ∧ node_Hash x = h;
  km_new p : p ∈ kept → ∃ x, node_at batches p = Some x ∧ m0 !! node_Hash x = None;
  km_once p q x y : p ∈ kept → q ∈ kept → node_at batches p = Some x → node_at batches q = Some y → node_Hash x = node_Hash y → p = q;
  km_inpoints h v : current_map s !! h = Some v → is_Some v;
}.

Lemma filter_node_eq mapLength (x : Node) (i : I) m0 batches kept p s : node_at batches p = Some x → kept_map m0 batches kept s →
  ∃ keep s', filter_node mapLength x (Some i) s = (Ok keep, s') ∧ outside_maps s' = outside_maps s ∧
    kept_map m0 batches (if keep : bool then {[p]} ∪ kept else kept) s' ∧ stp_removeMap s' ⊆ stp_removeMap s ∧
    (∀ h, is_Some (current_map s !! h) → is_Some (current_map s' !! h)) ∧
    (is_Some (current_map s' !! node_Hash x) ∨ node_Hash x ∈ stp_removeMap s).
Proof.
  intros Hp Hk. unfold filter_node, bindM, readM. destruct (_ && _) eqn:Em.
  - apply andb_true_iff in Em as [_ Em%bool_decide_eq_true]. eexists false, _. split; [reflexivity|].
    split_and!; [done| |cbn; set_solver|done|by right]. split; apply Hk.
  - unfold SetIfNotExists. destruct (current_map s !! node_Hash x) as [v|] eqn:Ev.
    + exists false, s. split_and!; [done..|]. left. rewrite Ev. eauto.
    + exists true, (write_current <[node_Hash x := Some i]> s).
      assert (m0 !! node_Hash x = None ∧ ∀ q y, q ∈ kept → node_at batches q = Some y → node_Hash y ≠ node_Hash x) as [Hn Hnk].
      { pose proof (km_held _ _ _ _ Hk (node_Hash x)) as Hh. rewrite Ev in Hh. split.
        - apply eq_None_not_Some. intros Hs. destruct (proj2 Hh (or_introl Hs)); done.
        - intros q y Hq Hy E. destruct (proj2 Hh) as [? ?]; [right; eauto|done]. }
      split_and!; [done|done| |done| |left; rewrite current_write, lookup_insert_eq; eauto].
      2:{ intros h Hh. rewrite current_write. apply lookup_insert_is_Some'. by right. }
      split.
      * intros h. rewrite current_write, lookup_insert_is_Some', (km_held _ _ _ _ Hk). setoid_rewrite elem_of_union. setoid_rewrite elem_of_singleton.
        split; [intros [<-|[?|(q & y & ? & ? & ?)]]; [right; exists p, x; auto|auto|right; exists q, y; auto]|].
        intros [?|(q & y & [->|?] & Hy & <-)]; [auto|left; congruence|right; right; eauto].
      * intros q [->%elem_of_singleton|Hq]%elem_of_union; [eauto|by apply (km_new _ _ _ _ Hk)].
      * intros q1 q2 y1 y2 [->%elem_of_singleton|H1]%elem_of_union [->%elem_of_singleton|H2]%elem_of_union E1 E2 E; [done| | |by eapply (km_once _ _ _ _ Hk)].
        -- exfalso. apply (Hnk q2 y2); [done..|]. congruence.
        -- exfalso. apply (Hnk q1 y1); [done..|]. congruence.
      * intros h v. rewrite current_write, lookup_insert_Some. intros [[_ <-]|[_ Hv]]; [eauto|by eapply (km_inpoints _ _ _ _ Hk)].
Qed.

Lemma filter_batches_eq mapLength m0 batches order kept s : Forall queued_ok batches →
  (∀ p, p ∈ order → is_Some (node_at batches p)) → kept_map m0 batches kept s →
  ∃ kept' s', filter_batches mapLength batches order kept s = (Ok kept', s') ∧ outside_maps s' = outside_maps s ∧
    kept_map m0 batches kept' s' ∧ (∀ h, is_Some (current_map s !! h) → is_Some (current_map s' !! h)) ∧
    ∀ p x, p ∈ order → node_at batches p = Some x → is_Some (current_map s' !! node_Hash x) ∨ node_Hash x ∈ stp_removeMap s.
Proof.
  intros Hq. revert kept s. induction order as [|p order IH]; intros kept s Ho Hk.
  { exists kept, s. split_and!; [done..|]. by intros p x ?%not_elem_of_nil. }
  destruct (Ho p) as [x Hx]; [left|]. unfold node_at in Hx. destruct (batches !! p.1) as [batch|] eqn:Eb; [|done]. cbn in Hx.
  destruct (proj1 (Forall_forall _ _) Hq batch (list_elem_of_lookup_2 _ _ _ Eb)) as (Hlen & _ & Hsome).
  destruct (b_txInpoints batch !! p.2) as [v|] eqn:Ev; [|apply lookup_ge_None in Ev; apply lookup_lt_Some in Hx; lia].
  destruct (proj1 (Forall_forall _ _) Hsome v (list_elem_of_lookup_2 _ _ _ Ev)) as [i ->].
  assert (node_at batches p = Some x) as Hat by (unfold node_at; by rewrite Eb).
  destruct (filter_node_eq mapLength x i m0 batches kept p s Hat Hk) as (keep & s1 & E1 & Hf1 & Hk1 & Hrm & Hm1 & Hs1).
  destruct p as [b j]. cbn [filter_batches]. cbn [fst snd] in *. rewrite Eb. cbn. rewrite Hx, Ev. unfold bindM. rewrite E1.
  destruct (IH (if keep then {[(b, j)]} ∪ kept else kept) s1) as (kept' & s' & E2 & Hf2 & Hk2 & Hm2 & Hs2); [intros q Hin; apply Ho; by right|exact Hk1|].
  exists kept', s'. split_and!; [exact E2|congruence|done|auto|].
  intros q y [->|Hin]%elem_of_cons Hy; [rewrite Hat in Hy; injection Hy as <-; destruct Hs1; auto|].
  destruct (Hs2 q y Hin Hy) as [?|?]; [by left|right; set_solver].
Qed.

Lemma elem_of_kept_nodes kept b i nodes x : x ∈ kept_nodes kept b i nodes ↔
  ∃ j, nodes !! j = Some x ∧ (b, i + j)%nat ∈ kept ∧ node_Hash x ≠ zero_hash.
Proof.
  revert i. induction nodes as [|y nodes IH]; intros i; cbn [kept_nodes].
  - split; [by intros ?%not_elem_of_nil|by intros (j & ? & _)].
  - rewrite elem_of_app, IH. split.
    + intros [Hx|(j & Hj & Hk & Hz)]; [|exists (S j); by rewrite Nat.add_succ_r].
      destruct (_ && _) eqn:E; [|by apply not_elem_of_nil in Hx]. apply list_elem_of_singleton in Hx as ->.
      apply andb_true_iff in E as [Hk%bool_decide_eq_true Hz%negb_true_iff%bool_decide_eq_false_1]. exists 0%nat. by rewrite Nat.add_0_r.
    + intros ([|j] & Hj & Hk & Hz); [|right; exists j; by rewrite Nat.add_succ_r in Hk]. left. injection Hj as ->.
      rewrite Nat.add_0_r in Hk. rewrite bool_decide_true, bool_decide_false by done. by apply list_elem_of_singleton.
Qed.

Lemma elem_of_all_kept kept b batches x : x ∈ all_kept kept b batches ↔
  ∃ p, node_at batches p = Some x ∧ (b + p.1, p.2)%nat ∈ kept ∧ node_Hash x ≠ zero_hash.
Proof.
  revert b. induction batches as [|batch batches IH]; intros b; cbn [all_kept].
  - split; [by intros ?%not_elem_of_nil|by intros (p & ? & _)].
  - rewrite elem_of_app, elem_of_kept_nodes, IH. split.
    + intros [(j & ? & ? & ?)|([p j] & Hp & Hk & Hz)].
      * exists (0, j)%nat. by rewrite Nat.add_0_r.
      * exists (S p, j). split_and!; [exact Hp| |done]. cbn in *. by rewrite Nat.add_succ_r.
    + intros ([[|p] j] & Hp & Hk & Hz); cbn [fst snd] in *.
      * left. exists j. rewrite Nat.add_0_r in Hk. done.
      * right. exists (p, j). rewrite Nat.add_succ_r in Hk. done.
Qed.

Definition apart (kept : gset (nat * nat)) (b : nat) batches : Prop := ∀ p q x y,
  node_at batches p = Some x → node_at batches q = Some y → (b + p.1, p.2)%nat ∈ kept → (b + q.1, q.2)%nat ∈ kept →
  node_Hash x = node_Hash y → p = q.

Lemma kept_nodes_NoDup kept b i nodes :
  (∀ j k x y, nodes !! j = Some x → nodes !! k = Some y → (b, i + j)%nat ∈ kept → (b, i + k)%nat ∈ kept → node_Hash x = node_Hash y → j = k) →
  NoDup (map node_Hash (kept_nodes kept b i nodes)).
Proof.
  revert i. induction nodes as [|y nodes IH]; intros i H; cbn [kept_nodes]; [apply NoDup_nil_2|].
  assert (NoDup (map node_Hash (kept_nodes kept b (S i) nodes))) as Hnd.
  { apply IH. intros j k x z Hj Hk H1 H2 E. enough (S j = S k) by lia. apply (H (S j) (S k) x z); [done..| | |done]; by rewrite Nat.add_succ_r. }
  destruct (_ && _) eqn:E; [|done]. cbn. apply NoDup_cons. split; [|done].
  apply andb_true_iff in E as [Hk%bool_decide_eq_true _]. intros Hin. apply list_elem_of_fmap in Hin as (x & Ex & Hx).
  apply elem_of_kept_nodes in Hx as (j & Hj & Hkj & _). enough (0 = S j)%nat by lia.
  apply (H 0%nat (S j) y x); [done..| | |done]; [by rewrite Nat.add_0_r|by rewrite Nat.add_succ_r].
Qed.

Lemma all_kept_NoDup kept b batches : apart kept b batches → NoDup (map node_Hash (all_kept kept b batches)).
Proof.
  revert b. induction batches as [|batch batches IH]; intros b H; cbn [all_kept]; [apply NoDup_nil_2|].
  rewrite map_app. apply NoDup_app. split_and!.
  - apply kept_nodes_NoDup. intros j k x y Hj Hk H1 H2 E. enough ((0, j)%nat = (0, k)%nat) by congruence.
    apply (H _ _ x y); cbn [fst snd]; rewrite ?Nat.add_0_r; done.
  - intros h H1 H2. apply list_elem_of_fmap in H1 as (x & -> & H1), H2 as (y & E & H2).
    apply elem_of_kept_nodes in H1 as (j & Hj & Hk & _). apply elem_of_all_kept in H2 as ([p k] & Hp & Hkp & _).
    enough ((0, j)%nat = (S p, k)) by congruence. apply (H _ _ x y); cbn [fst snd] in *; rewrite ?Nat.add_0_r, ?Nat.add_succ_r; done.
  - apply IH. intros [p j] [q k] x y Hp Hq H1 H2 E. cbn [fst snd] in *. enough ((S p, j) = (S q, k)) by congruence.
    apply (H _ _ x y); cbn [fst snd]; rewrite ?Nat.add_succ_r; done.
Qed.

(** Completing the open subtree when the node just placed fills it. *)
Lemma complete_if_full l x skip s : laid n l s → real x →
  let st := tree n (rest n l ++ [x]) in
  AddSubtreeNode (tree n (rest n l)) x = Ok st ∧
  (if Size st <=? Length st then processCompleteSubtree skip else retM tt) (set_currentSubtree (Some st) s) = addNodePreValidated x skip s.
Proof.
  intros Hl Hx st. pose proof (leaf_pos n) as Hn. pose proof (rest_short n Hn l) as Hs.
  split; [by apply (add_tree n)|]. rewrite (addNodePreValidated_eq n l) by done. fold st.
  rewrite Size_spec. change (st_capacity st) with n. change (Length st) with (Z.of_nat (length (rest n l ++ [x]))).
  rewrite length_app. cbn [length]. case_decide as Ed.
  - rewrite (proj2 (Z.leb_le _ _)) by lia.
    unfold processCompleteSubtree, bindM at 1, currentM at 1. cbn [stp_currentSubtree set_currentSubtree].
    unfold bindM at 1, writeM at 1. unfold bindM at 1, wrapM at 1, newSubtree, liftM. rewrite Size_spec.
    change (st_capacity st) with n. rewrite (new_tree n). cbn [foreignR wrapR].
    unfold complete_built, bindM at 1, writeM at 1. unfold bindM, writeM. rewrite !chain_append_current. reflexivity.
  - by rewrite (proj2 (Z.leb_gt _ _)) by lia.
Qed.

Lemma add_one_laid x l skip s : laid n l s → real x → running s →
  ∃ s', addNodePreValidated x skip s = (Ok tt, s') ∧ laid n (l ++ [x]) s' ∧ frame s' = frame s ∧ running s'.
Proof.
  intros Hl Hx Hr. destruct (addNodePreValidated x skip s) as [r s1] eqn:Ea.
  destruct (addNodePreValidated_laid n l x skip s r s1 Hl Hx Ea) as [Hl1 Hf1].
  destruct (forM_laid n [x] l skip s r s1 Hl) as (_ & _ & Hrun).
  { by constructor. } { cbn [forM]. unfold bindM. rewrite Ea. by destruct r as [[]|]. }
  destruct (Hrun Hr) as [-> Hr1]. by exists s1.
Qed.

(** Placing what was kept is adding one at a time. *)
Lemma place_dequeued_eq added xs l s : laid n l s → Forall real xs → running s →
  ∃ s', place_dequeued added xs s = (Ok (added + Z.of_nat (length xs)), s') ∧ laid n (l ++ xs) s' ∧ frame s' = frame s ∧ running s'.
Proof.
  revert added l s. induction xs as [|x xs IH]; intros added l s Hl Hx Hr.
  { exists s. rewrite app_nil_r. cbn. by rewrite Z.add_0_r. }
  apply Forall_cons in Hx as [Hx Hxs]. destruct (complete_if_full l x false s Hl Hx) as [Eadd Ec].
  destruct (add_one_laid x l false s Hl Hx Hr) as (s1 & Ea & Hl1 & Hf1 & Hr1).
  destruct (IH (added + 1) _ s1 Hl1 Hxs Hr1) as (s' & E & H1 & H2 & H3).
  exists s'. split_and!; [|by rewrite <- (assoc_L (++)) in H1|congruence|done].
  replace (added + Z.of_nat (length (x :: xs))) with (added + 1 + Z.of_nat (length xs)) by (cbn [length]; lia).
  rewrite <- E. cbn [place_dequeued]. unfold bindM at 1, currentM at 1. rewrite (proj2 Hl), Eadd.
  unfold bindM at 1 2, writeM at 1, retM at 1. unfold bindM at 1, currentM at 1. cbn [stp_currentSubtree set_currentSubtree].
  unfold bindM at 1. rewrite Ea in Ec. destruct (Size _ <=? Length _).
  - unfold logM. by rewrite Ec.
  - unfold retM at 1. by injection Ec as <-.
Qed.

Lemma dequeue_batches_eq k v s : ∃ batches q, dequeue_batches k v s = (Ok batches, set_queue q s) ∧ stp_queue s = batches ++ q ∧
  (v <= 0 → batches = take k (stp_queue s)).
Proof.
  revert s. induction k as [|k IH]; intros s; cbn [dequeue_batches].
  - exists [], (stp_queue s). by destruct s.
  - unfold bindM at 1, dequeueBatch. destruct (stp_queue s) as [|b q] eqn:Eq.
    + exists [], []. split_and!; [|done..]. destruct s; cbn in *; by subst.
    + destruct (_ && _) eqn:Ev.
      * exists [], (b :: q). split_and!; [|done|]; [destruct s; cbn in *; by subst|]. apply andb_true_iff in Ev as [Ev%Z.gtb_lt _]. lia.
      * unfold bindM. destruct (IH (set_queue q s)) as (bs & q' & E & Hq & Hv). rewrite E. exists (b :: bs), q'. cbn [stp_queue set_queue] in Hq, Hv.
        split_and!; [done|cbn; by rewrite <- Hq|]. intros Hv'. cbn. by rewrite <- Hv.
Qed.

Lemma kept_nodes_sublist kept b i nodes : kept_nodes kept b i nodes `sublist_of` nodes.
Proof.
  revert i. induction nodes as [|x nodes IH]; intros i; cbn [kept_nodes]; [constructor|].
  destruct (_ && _); cbn; by constructor.
Qed.

Lemma all_kept_sublist kept b (batches : list (TxBatch (option I))) : all_kept kept b batches `sublist_of` concat (map b_nodes batches).
Proof.
  revert b. induction batches as [|batch batches IH]; intros b; cbn [all_kept map concat]; [constructor|].
  apply sublist_app; [apply kept_nodes_sublist|apply IH].
Qed.

Lemma node_at_elem batches p x : node_at batches p = Some x → ∃ batch, batch ∈ batches ∧ x ∈ b_nodes batch.
Proof.
  unfold node_at. destruct (batches !! p.1) as [batch|] eqn:E; [|done]. cbn. intros Hx. exists batch.
  split; by eapply list_elem_of_lookup_2.
Qed.

Lemma elem_node_at (batches : list (TxBatch (option I))) batch x : batch ∈ batches → x ∈ b_nodes batch → ∃ p, node_at batches p = Some x.
Proof.
  intros [b Hb]%list_elem_of_lookup_1 [j Hj]%list_elem_of_lookup_1. exists (b, j). unfold node_at. cbn. by rewrite Hb.
Qed.

(** The batches a pass takes. *)
Definition pass_batches v s : list (TxBatch (option I)) :=
  match dequeue_batches (Z.to_nat maxBatchesPerIteration) v s with (Ok batches, _) => batches | _ => [] end.

Lemma kept_assembled txs m0 batches kept s0 s s' :
  loose txs s0 → m0 = current_map s0 → Forall queued_ok batches → kept_map m0 batches kept s →
  laid n ((placeholder_node :: txs) ++ all_kept kept 0 batches) s' → current_map s' = current_map s →
  assembled (txs ++ all_kept kept 0 batches) s'.
Proof.
  intros Hlo -> Hq Hk Hl Em. split; [done|].
  assert (∀ p x, node_at batches p = Some x → real x ∧ node_Hash x ≠ zero_hash) as Hok.
  { intros p x Hp. destruct (node_at_elem _ _ _ Hp) as (batch & Hb & Hx). destruct (proj1 (Forall_forall _ _) Hq batch Hb) as (_ & H & _).
    by apply (proj1 (Forall_forall _ _) H). }
  split; [by rewrite (laid_nodes n _ _ Hl)| | | | |by eapply laid_height].
  - apply Forall_app. split; [apply Hlo|]. apply Forall_forall. intros x (p & Hp & _)%elem_of_all_kept. by apply (Hok p).
  - rewrite map_app. apply NoDup_app. split_and!; [apply Hlo| |].
    + intros h H1 H2. apply list_elem_of_fmap in H2 as (x & -> & (p & Hp & Hin & _)%elem_of_all_kept).
      destruct p as [b j]. cbn in Hin. destruct (km_new _ _ _ _ Hk _ Hin) as (y & Hy & Hn). rewrite Hp in Hy. injection Hy as <-.
      apply (lo_map _ _ _ Hlo) in H1. rewrite Hn in H1. by destruct H1.
    + apply all_kept_NoDup. intros [b j] [c k] x y Hp Hq' H1 H2 E. cbn in H1, H2. by apply (km_once _ _ _ _ Hk _ _ x y).
  - intros h. rewrite Em, map_app, elem_of_app, (km_held _ _ _ _ Hk), (lo_map _ _ _ Hlo). apply or_iff_compat_l.
    rewrite list_elem_of_fmap. setoid_rewrite elem_of_all_kept. split.
    + intros ([b j] & x & Hin & Hp & <-). exists x. split; [done|]. exists (b, j). split_and!; [done|done|by eapply Hok].
    + intros (x & -> & [b j] & Hp & Hin & _). by exists (b, j), x.
  - intros h v. rewrite Em. apply (km_inpoints _ _ _ _ Hk).
Qed.

Lemma dequeue_pass_eq v order txs s : assembled txs s → running s → Forall queued_ok (stp_queue s) →
  visits (pass_batches v s) order →
  ∃ q new s', stp_queue s = pass_batches v s ++ q ∧ dequeue_pass v order s = (Ok tt, s') ∧
    assembled (txs ++ new) s' ∧ running s' ∧ stp_queue s' = q ∧
    new `sublist_of` concat (map b_nodes (pass_batches v s)) ∧
    ∀ batch x, batch ∈ pass_batches v s → x ∈ b_nodes batch →
      node_Hash x ∈ map node_Hash (txs ++ new) ∨ node_Hash x ∈ stp_removeMap s.
Proof.
  intros H Hr Hq Hv. unfold dequeue_pass. unfold bindM at 1. revert Hv. unfold pass_batches.
  destruct (dequeue_batches_eq (Z.to_nat maxBatchesPerIteration) v s) as (batches & q & -> & Eq & _). intros Hv.
  pose proof (am_loose _ _ _ H) as Hlo. case_bool_decide as Eb.
  { subst batches. exists q, [], (set_queue q s). rewrite app_nil_r. split_and!; [done|done|by apply (assembled_same txs s)|exact Hr|done|done|].
    by intros batch x ?%not_elem_of_nil. }
  unfold bindM at 1, readM at 1. unfold bindM at 1, currentM at 1. change (stp_currentSubtree (set_queue q s)) with (stp_currentSubtree s).
  pose proof (am_laid _ _ _ H) as [Ech Ecur]. rewrite Ecur. unfold bindM at 1.
  rewrite Eq in Hq. apply Forall_app in Hq as [Hq _].
  destruct (filter_batches_eq (Z.of_nat (size (stp_removeMap (set_queue q s)))) (current_map s) batches order ∅ (set_queue q s) Hq)
    as (kept & s1 & -> & Hf1 & Hk & Hm & Hs).
  { intros p Hp. by apply Hv. }
  { split; [|by intros p ?%not_elem_of_empty|by intros p ? ? ? ?%not_elem_of_empty|apply Hlo].
    intros h. split; [by left|]. intros [?|(p & ? & ?%not_elem_of_empty & _)]; [done|done]. }
  assert (laid n (placeholder_node :: txs) s1) as Hl1.
  { injection Hf1 as E1 E2 _ _ _. split; [by rewrite E1|by rewrite E2]. }
  assert (running s1) as Hr1. { injection Hf1 as _ _ _ E _. unfold running. by rewrite E. }
  unfold bindM at 1. destruct (place_dequeued_eq 0 (all_kept kept 0 batches) _ s1 Hl1) as (s2 & -> & Hl2 & Hf2 & Hr2); [|done|].
  { apply Forall_forall. intros x (p & Hp & _)%elem_of_all_kept. destruct (node_at_elem _ _ _ Hp) as (batch & Hb & Hx).
    destruct (proj1 (Forall_forall _ _) Hq batch Hb) as (_ & Ho & _). by apply (proj1 (Forall_forall _ _) Ho). }
  assert (assembled (txs ++ all_kept kept 0 batches) s2) as Ha by (eapply kept_assembled; [exact Hlo|done|done|done|done|by apply frame_map]).
  assert (stp_queue s2 = q) as Eq2. { injection Hf2 as _ _ _ _ _ _ _ _ _ ->. injection Hf1 as _ _ -> _ _. done. }
  assert (∀ batch x, batch ∈ batches → x ∈ b_nodes batch →
    node_Hash x ∈ map node_Hash (txs ++ all_kept kept 0 batches) ∨ node_Hash x ∈ stp_removeMap s) as Hall.
  { intros batch x Hb Hx. destruct (elem_node_at _ _ _ Hb Hx) as [p Hp]. destruct (Hs p x) as [Hh|Hh]; [apply Hv; eauto|done| |by right].
    left. apply (lo_map _ _ _ (am_loose _ _ _ Ha)). by rewrite (frame_map _ _ Hf2). }
  exists q, (all_kept kept 0 batches). rewrite Z.add_0_l. destruct (0 <? _).
  - exists (txCount_Add (Z.of_nat (length (all_kept kept 0 batches))) s2). split_and!; [done|done|by apply (assembled_same _ s2)|exact Hr2|exact Eq2|apply all_kept_sublist|done].
  - exists s2. split_and!; [done|done|done|done|done|apply all_kept_sublist|done].
Qed.

(** ** Transactions loaded at once *)
Definition um_hash (tx : UnminedTransaction I) : Hash := node_Hash (um_Node tx).

Lemma map_Set_all writes s : Forall (λ tx, is_Some (um_TxInpoints tx)) writes →
  ∃ s', forM (λ tx, map_Set (um_hash tx) (um_TxInpoints tx)) writes s = (Ok tt, s') ∧ outside_maps s' = outside_maps s ∧
    (∀ h, is_Some (current_map s' !! h) ↔ is_Some (current_map s !! h) ∨ h ∈ map um_hash writes) ∧
    ((∀ h v, current_map s !! h = Some v → is_Some v) → ∀ h v, current_map s' !! h = Some v → is_Some v).
Proof.
  revert s. induction writes as [|tx writes IH]; intros s Hw; cbn [forM].
  { exists s. split_and!; [done|done| |done]. intros h. split; [by left|]. intros [?|?%not_elem_of_nil]; done. }
  apply Forall_cons in Hw as [Htx Hw]. unfold bindM. unfold map_Set at 1, writeM at 1.
  destruct (IH (write_current <[um_hash tx := um_TxInpoints tx]> s) Hw) as (s' & E & Ho & Hm & Hv). exists s'. split_and!; [exact E|exact Ho| |].
  - intros h. rewrite Hm, current_write, lookup_insert_is_Some'. cbn [map]. rewrite elem_of_cons. naive_solver.
  - intros H. apply Hv. intros h v. rewrite current_write, lookup_insert_Some. intros [[_ <-]|[_ Hh]]; [done|by eapply H].
Qed.

Lemma place_directly_all skip (new : list (UnminedTransaction I)) l s : laid n l s → Forall (λ tx, real (um_Node tx)) new → running s →
  ∃ s', forM (place_directly skip) new s = (Ok tt, s') ∧ laid n (l ++ map um_Node new) s' ∧ frame s' = frame s ∧ running s'.
Proof.
  revert l s. induction new as [|tx new IH]; intros l s Hl Hx Hr; cbn [forM map].
  { exists s. by rewrite app_nil_r. }
  apply Forall_cons in Hx as [Hx Hxs]. destruct (complete_if_full l (um_Node tx) skip s Hl Hx) as [Eadd Ec].
  destruct (add_one_laid (um_Node tx) l skip s Hl Hx Hr) as (s1 & Ea & Hl1 & Hf1 & Hr1).
  destruct (IH _ s1 Hl1 Hxs Hr1) as (s' & E & H1 & H2 & H3).
  exists s'. split_and!; [|by rewrite <- (assoc_L (++)) in H1|congruence|done].
  rewrite <- E. unfold bindM at 1. unfold place_directly at 1, bindM at 1, currentM at 1. rewrite (proj2 Hl).
  unfold bindM at 1, liftM at 1. rewrite Eadd. cbn [foreignR wrapR]. unfold bindM at 1, writeM at 1. rewrite Ea in Ec.
  rewrite Size_spec in Ec |- *. change (st_capacity (tree n ?l)) with n in Ec. change (st_capacity (tree n ?l)) with n. destruct (Z.of_nat n <=? Length _).
  - unfold bindM, wrapM. by rewrite Ec.
  - unfold bindM, retM. by injection Ec as <-.
Qed.

(** What is loaded is distinct, new and complete. *)
Definition loadable txs (new : list (UnminedTransaction I)) : Prop :=
  Forall (λ tx, real (um_Node tx) ∧ is_Some (um_TxInpoints tx)) new ∧ NoDup (map node_Hash (txs ++ map um_Node new)).

Lemma addNodesDirectly_eq writes new skip txs s : assembled txs s → running s → writes ≡ₚ new → loadable txs new →
  ∃ s', addNodesDirectly writes new skip s = (Ok tt, s') ∧ assembled (txs ++ map um_Node new) s' ∧ running s' ∧ stp_queue s' = stp_queue s.
Proof.
  intros H Hr Hp [Hok Hnd]. destruct (decide (new = [])) as [->|Hne].
  { exists s. cbn. by rewrite app_nil_r. }
  assert (addNodesDirectly writes new skip s =
    (forM (λ tx, map_Set (um_hash tx) (um_TxInpoints tx)) writes ;! forM (place_directly skip) new ;!
     writeM (txCount_Add (Z.of_nat (length new) + 0))) s) as ->.
  { unfold addNodesDirectly. destruct new as [|tx new]; [done|]. unfold bindM at 1, readM at 1. rewrite (proj2 (am_laid _ _ _ H)).
    rewrite bool_decide_false by done. reflexivity. }
  destruct (map_Set_all writes s) as (s1 & E1 & Ho & Hm & Hv).
  { rewrite Hp. eapply Forall_impl; [exact Hok|]. by intros tx [_ ?]. }
  unfold bindM at 1. rewrite E1. pose proof (am_loose _ _ _ H) as Hlo.
  injection Ho as O1 O2 O3 O4 _.
  destruct (place_directly_all skip new (placeholder_node :: txs) s1) as (s2 & E2 & Hl2 & Hf2 & Hr2).
  { destruct (am_laid _ _ _ H). split; congruence. }
  { eapply Forall_impl; [exact Hok|]. by intros tx [? _]. }
  { unfold running. by rewrite O4. }
  unfold bindM at 1. rewrite E2. eexists. split; [reflexivity|]. split_and!; [|exact Hr2|injection Hf2 as _ _ _ _ _ _ _ _ _ E; etransitivity; [exact E|exact O3]].
  apply (assembled_same _ s2); [|done..]. split; [done|]. pose proof (frame_map _ _ Hf2) as Em.
  split; [by rewrite (laid_nodes n _ _ Hl2)| |done| | |by eapply laid_height].
  - apply Forall_app. split; [apply Hlo|]. rewrite Forall_map. eapply Forall_impl; [exact Hok|]. by intros tx [? _].
  - intros h. rewrite Em, Hm, (lo_map _ _ _ Hlo), map_app, elem_of_app, map_map. apply or_iff_compat_l. by rewrite Hp.
  - rewrite Em. apply Hv, Hlo.
Qed.
End Reach.
