(* ===== verification/Movement.v ===== *)
(** * Block assembly: moving to another block

    services/blockassembly/subtreeprocessor/SubtreeProcessor.go from [resetSubtreeState] to
    [CreateTransactionMap], and deferred_block_drain.go: when a block arrives its
    transactions leave the assembly, with the losers of its conflicts and what spends
    them; the rest are put into new subtrees, and what waits in the queue follows.  When a
    block is taken back its transactions return, before those that were assembled.

    Of other services the answers are arguments: the files of the subtree store, what the
    UTXO store says of the conflicts of a block, the outcome of storing the coinbase. *)

From S2P Require Import Prelude External Merkle GoSubtree BlockReward BodyBinding Queue Assembly.

(** A subtree file: absent, unreadable, or a subtree with its conflicting nodes. *)
Inductive stored := NoFile | BadFile | File (st : SubtreeData) (conflicting : list Hash).

(** Of a [model.Block]. *)
Record AssembledBlock := mkBlock {
  ab_Hash : Hash;
  ab_HashPrevBlock : Hash;
  ab_Subtrees : list Hash;
  ab_CoinbaseTx : Hash;
}.

(** What other services answer while one block is applied. *)
Record block_answers := mkAnswers {
  ba_prepared : option (gset Hash * list Hash);     (* [takePreparedTxMap] *)
  ba_mined : result unit;                           (* [waitForBlockBeingMined] and the height *)
  ba_conflicts : list Hash → result (gset Hash * list Hash);
  ba_mark : gset Hash → result unit;                (* [markConflictingTxsInSubtrees] *)
  ba_coinbase : result unit;                        (* [processCoinbaseUtxos] *)
}.

Section Movement.
  Context {I : Type} {TI : TxInpointsOps I}.
  Context {CH : Chainhash} {SUB : Subtree} {GS : GoSubtree} {AS : AssemblySubtree}.
  Variable BucketFor : Hash → Z.                    (* [txmap.Bytes2Uint16Buckets] *)
  Variable ParallelSetIfNotExistsThreshold : Z.
  Variable subtreeStore : Hash → stored.

(** ** The double buffer *)
Definition fresh_map (s : SubtreeProcessor I) : nat := fresh (dom (stp_maps s)).

Definition swap_maps (s : SubtreeProcessor I) : SubtreeProcessor I :=
  set_currentTxMapShadow (stp_currentTxMap s) (set_currentTxMap (stp_currentTxMapShadow s) s).

Definition swapCurrentTxMapBack (s : SubtreeProcessor I) : SubtreeProcessor I :=
  if stp_disableCurrentTxMapPool s then s else swap_maps (put_map (stp_currentTxMap s) ∅ s).

Definition restoreCurrentTxMap (original : nat) (s : SubtreeProcessor I) : SubtreeProcessor I :=
  if bool_decide (stp_currentTxMap s = original) then s
  else set_currentTxMap original (swapCurrentTxMapBack s).

Definition clearCurrentTxMapShadow : M unit := writeM (λ s : SubtreeProcessor I,
  if stp_disableCurrentTxMapPool s then s else put_map (stp_currentTxMapShadow s) ∅ s).

Definition closeChainedSubtrees (s : SubtreeProcessor I) : SubtreeProcessor I :=
  set_chainedSubtreesTotalSize 0 (set_chainedSubtreeCount 0 (set_chainedSubtrees [] s)).

Definition take_empty_map (s : SubtreeProcessor I) : SubtreeProcessor I :=
  if stp_disableCurrentTxMapPool s
  then set_currentTxMap (fresh_map s) (put_map (fresh_map s) ∅ s)
  else swap_maps s.

Definition temporary_size : Z := 1024 * 1024.

Definition resetSubtreeState (createProperlySizedSubtrees : bool) : M unit := λ s,
  let swapped := take_empty_map s in
  let subtreeSize := if createProperlySizedSubtrees then stp_currentItemsPerFile s else temporary_size in
  match (newSubtree subtreeSize) swapped with
  | (Err e, s') => (Err e, if stp_disableCurrentTxMapPool s then s' else swapCurrentTxMapBack s')
  | (Ok st, s') =>
      let s' := closeChainedSubtrees (set_currentSubtree (Some st) s') in
      (Ok tt, match foreignR (AddCoinbaseNode st) with Ok st => set_currentSubtree (Some st) s' | Err _ => s' end)
  end.

(** ** The transactions of the block *)

(** The subtrees of the block that are not ours, with their index, and ours that are not
    in the block. *)
Fixpoint subtree_indexes (i : nat) (hashes : list Hash) (m : gmap Hash nat) : gmap Hash nat :=
  match hashes with [] => m | h :: hashes => subtree_indexes (S i) hashes (<[h := i]> m) end.

Fixpoint split_own (m : gmap Hash nat) (sts : list SubtreeData) : option (gmap Hash nat * list SubtreeData) :=
  match sts with
  | [] => Some (m, [])
  | st :: sts =>
      match RootHash st with
      | None => None
      | Some id =>
          match m !! id with
          | None => match split_own m sts with Some (m, own) => Some (m, st :: own) | None => None end
          | Some _ => split_own (delete id m) sts
          end
      end
  end.

Definition processBlockSubtrees (block : AssembledBlock) : M (gmap Hash nat * list SubtreeData) := λ s : SubtreeProcessor I,
  match split_own (subtree_indexes 0 (ab_Subtrees block) ∅) (stp_chainedSubtrees s) with
  | Some r => (Ok r, s)
  | None => (Err panic, s)
  end.

(** Every file is read by a goroutine of its own; the conflicting nodes are listed in the
    order of the block. *)
Fixpoint read_subtrees (hashes : list Hash) (txs : gset Hash) : result (gset Hash) :=
  match hashes with
  | [] => Ok txs
  | h :: hashes =>
      match subtreeStore h with
      | NoFile => Err (err ERR_SERVICE_ERROR)
      | BadFile => Err (err ERR_PROCESSING)
      | File st _ => read_subtrees hashes (list_to_set (node_hashes st) ∪ txs)
      end
  end.

Definition conflicting_at (m : gmap Hash nat) (i : nat) : list Hash :=
  concat (map (λ '(h, j), match subtreeStore h with File _ c => if (j =? i)%nat then c else [] | _ => [] end)
    (map_to_list m)).

Definition CreateTransactionMap (m : gmap Hash nat) (totalSubtreesInBlock : nat) : result (gset Hash * list Hash) :=
  let? txs := wrapR ERR_PROCESSING (read_subtrees (map fst (map_to_list m)) ∅) in
  Ok (txs, concat (map (conflicting_at m) (seq 0 totalSubtreesInBlock))).

Definition createTransactionMapIfNeeded (answers : block_answers) (block : AssembledBlock) (m : gmap Hash nat)
  : result (option (gset Hash) * list Hash) :=
  match ba_prepared answers with
  | Some (txs, conflicting) => Ok (Some txs, conflicting)
  | None =>
      if bool_decide (m = ∅) then Ok (None, [])
      else let? r := wrapR ERR_PROCESSING (CreateTransactionMap m (length (ab_Subtrees block))) in
           let '(txs, conflicting) := r in Ok (Some txs, conflicting)
  end.

(** ** Conflicts *)

(** The losers, and everything the block's conflicts marked as conflicting.  [cascaded] is
    what taking blocks back has demoted in this reorganisation. *)
Definition processConflictingTransactions (answers : block_answers) (processed cascaded : gset Hash)
    (conflictingNodes : list Hash) : result (gset Hash * gset Hash) :=
  if bool_decide (conflictingNodes = []) then Ok (∅, ∅) else
  let filtered := filter (λ h, h ∉ processed) conflictingNodes in
  if bool_decide (filtered = []) then Ok (cascaded, cascaded) else
  let? _ := wrapR ERR_PROCESSING (ba_mined answers) in
  let? r := wrapR ERR_PROCESSING (ba_conflicts answers filtered) in
  let '(losing, marked) := r in
  let? _ := (if bool_decide (losing = ∅) then Ok tt else wrapR ERR_PROCESSING (ba_mark answers losing)) in
  Ok (losing, list_to_set marked).

(** Whether a transaction is or spends a conflicting one; if it spends one it is one. *)
Definition rejectConflicting (hash : Hash) (txInpoints : option I) (conflicting : gset Hash) : bool * gset Hash :=
  if bool_decide (hash ∈ conflicting) then (true, conflicting)
  else match txInpoints with
       | None => (false, conflicting)
       | Some i => if existsb (λ p, bool_decide (p ∈ conflicting)) (ParentTxHashes i)
                   then (true, {[hash]} ∪ conflicting) else (false, conflicting)
       end.

(** Over the remainder, in the order of the subtrees: parents come before children. *)
Fixpoint dropConflictingDescendants (held : gmap Hash (option I)) (nodes : list Node) (conflicting : gset Hash)
  : result (list Node * gset Hash) :=
  match nodes with
  | [] => Ok ([], conflicting)
  | node :: nodes =>
      match held !! node_Hash node with
      | None => Err (err ERR_PROCESSING)
      | Some inpoints =>
          let '(rejected, conflicting) := rejectConflicting (node_Hash node) inpoints conflicting in
          let? r := dropConflictingDescendants held nodes conflicting in
          let '(kept, conflicting) := r in
          Ok (if rejected then kept else node :: kept, conflicting)
      end
  end.

(** ** Into the new map, in parallel *)

(** [MoveBucketFrom]: one bucket, in order; it stops where the source has no entry. *)
Fixpoint MoveBucketFrom (src : nat) (items : list (nat * Hash)) (inserted : gset nat) : M (gset nat) :=
  match items with
  | [] => retM inserted
  | (i, h) :: items =>
      let! rec := readM (λ s : SubtreeProcessor I, map_at src s !! h) in
      match rec with
      | None => failM (err ERR_PROCESSING)
      | Some v =>
          let! moved := SetIfNotExists h v in
          MoveBucketFrom src items (if moved : bool then {[i]} ∪ inserted else inserted)
      end
  end.

(** The buckets run in the order [order], each to its end; the first error is reported. *)
Fixpoint run_buckets (src : nat) (items : list (nat * Hash)) (order : list Z) : M (gset nat) := λ s,
  match order with
  | [] => (Ok ∅, s)
  | b :: order =>
      let '(r, s) := MoveBucketFrom src (filter (λ '(_, h), BucketFor h = b) items) ∅ s in
      let '(rs, s) := run_buckets src items order s in
      (let? ins := r in let? rest := rs in Ok (ins ∪ rest), s)
  end.

(** The placeholder and the removed transactions are passed over. *)
Fixpoint prefilter (removeMapLength : Z) (i : nat) (nodes : list Node) : M (list (nat * Hash)) :=
  match nodes with
  | [] => retM []
  | node :: nodes =>
      if bool_decide (node_Hash node = CoinbasePlaceholderHashValue) then prefilter removeMapLength (S i) nodes else
      let! removed := readM (λ s : SubtreeProcessor I, (removeMapLength >? 0) && bool_decide (node_Hash node ∈ stp_removeMap s)) in
      if removed : bool then
        writeM (λ s, set_removeMap (stp_removeMap s ∖ {[node_Hash node]}) s) ;! prefilter removeMapLength (S i) nodes
      else
        let! items := prefilter removeMapLength (S i) nodes in retM ((i, node_Hash node) :: items)
  end.

Definition parallelGetAndSetIfNotExists (order : list Z) (nodes : list Node) (src : nat) (removeMapLength : Z)
  : M (gset nat) :=
  let! items := prefilter removeMapLength 0 nodes in run_buckets src items order.

Fixpoint inserted_nodes (inserted : gset nat) (i : nat) (nodes : list Node) : list Node :=
  match nodes with
  | [] => []
  | n :: nodes => (if bool_decide (i ∈ inserted) then [n] else []) ++ inserted_nodes inserted (S i) nodes
  end.

(** ** What the block leaves *)

(** One subtree: what is neither removed nor in the block nor a loser. *)
Definition excluded (txs losing : gset Hash) (h : Hash) : bool := bool_decide (h ∈ txs) || bool_decide (h ∈ losing).

Fixpoint remainder (removed txs losing : gset Hash) (nodes : list Node) : list Node :=
  match nodes with
  | [] => []
  | node :: nodes =>
      let rest := remainder removed txs losing nodes in
      if bool_decide (node_Hash node = CoinbasePlaceholderHashValue) then rest
      else if bool_decide (node_Hash node ∈ removed) then rest
      else if excluded txs losing (node_Hash node) then rest
      else node :: rest
  end.

(** Each in its turn: an error is logged. *)
Fixpoint add_sequentially (src : nat) (skipNotification : bool) (nodes : list Node) : M unit :=
  match nodes with
  | [] => retM tt
  | node :: nodes =>
      let! parents := readM (λ s : SubtreeProcessor I, map_at src s !! node_Hash node) in
      match parents with
      | None => failM (err ERR_PROCESSING)
      | Some parents => logM (addNode node parents skipNotification) ;! add_sequentially src skipNotification nodes
      end
  end.

Definition processRemainderTxHashes (order : list Z) (chainedSubtrees : list SubtreeData) (txs losing conflicting : gset Hash)
    (src : nat) (skipNotification : bool) : M (gset Hash) :=
  let! removed := readM stp_removeMap in
  let nodes := concat (map (λ st, remainder removed txs losing (st_Nodes st)) chainedSubtrees) in
  let seen := list_to_set (map node_Hash (concat (map st_Nodes chainedSubtrees))) ∖ {[CoinbasePlaceholderHashValue]} : gset Hash in
  writeM (λ s : SubtreeProcessor I, set_removeMap (stp_removeMap s ∖ seen) s) ;!
  let! held := readM (map_at src) in
  let! kept := liftM (if bool_decide (conflicting = ∅) then Ok (nodes, conflicting)
                      else dropConflictingDescendants held nodes conflicting) in
  let '(nodes, conflicting) := kept in
  (if ParallelSetIfNotExistsThreshold <=? Z.of_nat (length nodes) then
     let! inserted := wrapM ERR_PROCESSING (parallelGetAndSetIfNotExists order nodes src 0) in
     wrapM ERR_PROCESSING (parallelBuildRemainderSubtrees (inserted_nodes inserted 0 nodes) skipNotification)
   else add_sequentially src skipNotification nodes) ;!
  retM conflicting.

(** A block of our own subtrees: what it did not take. *)
Fixpoint own_sequentially (src : nat) (removeMapLength : Z) (coinbaseID : option Hash) (skipNotification : bool)
    (nodes : list Node) : M unit :=
  match nodes with
  | [] => retM tt
  | node :: nodes =>
      if bool_decide (node_Hash node = CoinbasePlaceholderHashValue) || bool_decide (coinbaseID = Some (node_Hash node))
      then own_sequentially src removeMapLength coinbaseID skipNotification nodes else
      let! removed := readM (λ s : SubtreeProcessor I, (removeMapLength >? 0) && bool_decide (node_Hash node ∈ stp_removeMap s)) in
      (if removed : bool then writeM (λ s, set_removeMap (stp_removeMap s ∖ {[node_Hash node]}) s)
       else
         let! parents := readM (λ s : SubtreeProcessor I, map_at src s !! node_Hash node) in
         match parents with
         | None => failM (err ERR_PROCESSING)
         | Some parents => wrapM ERR_PROCESSING (addNode node parents skipNotification)
         end) ;!
      own_sequentially src removeMapLength coinbaseID skipNotification nodes
  end.

Definition processOwnBlockSubtreeNodes (order : list Z) (src : nat) (removeMapLength : Z) (coinbaseID : option Hash)
    (skipNotification : bool) (nodes : list Node) : M unit :=
  if ParallelSetIfNotExistsThreshold <=? Z.of_nat (length nodes) then
    let! inserted := wrapM ERR_PROCESSING (parallelGetAndSetIfNotExists order nodes src removeMapLength) in
    forM (λ node, if bool_decide (coinbaseID = Some (node_Hash node)) then retM tt
                  else wrapM ERR_PROCESSING (addNodePreValidated node skipNotification))
      (inserted_nodes inserted 0 nodes)
  else own_sequentially src removeMapLength coinbaseID skipNotification nodes.

Definition processOwnBlockNodes (order : list Z) (block : AssembledBlock) (chainedSubtrees : list SubtreeData)
    (currentSubtree : SubtreeData) (src : nat) (skipNotification : bool) : M unit :=
  let! n := readM (λ s : SubtreeProcessor I, Z.of_nat (size (stp_removeMap s))) in
  forM (λ st, processOwnBlockSubtreeNodes order src n None skipNotification (st_Nodes st)) chainedSubtrees ;!
  processOwnBlockSubtreeNodes order src n (Some (ab_CoinbaseTx block)) skipNotification (st_Nodes currentSubtree).

(** ** The queue during and after a block *)

(** What is waiting when the drain starts bounds it, with the clock: [reserved] is the room
    producers hold for batches still to come, [arrivals] what they publish while it runs. *)
Record drain_run := mkDrain {
  dr_validFromMillis : Z;
  dr_reserved : Z;
  dr_arrivals : list (list (TxBatch (option I)));
}.

Definition batch_items (b : TxBatch (option I)) : Z := Z.of_nat (length (b_nodes b)).
Definition queue_items (q : list (TxBatch (option I))) : Z := foldr Z.add 0 (map batch_items q).

Fixpoint drain_loop {X : Type} (fn : list (TxBatch (option I)) → X → M X) (maxItems validFromMillis queueLength : Z)
    (fuel : nat) (arrivals : list (list (TxBatch (option I)))) (itemsProcessed : Z)
    (chunk : list (TxBatch (option I))) (x : X) : M X :=
  let finish := if bool_decide (chunk = []) then retM x else fn chunk x in
  match fuel with
  | O => finish
  | S fuel =>
      if itemsProcessed <? queueLength then
        writeM (λ s, set_queue (stp_queue s ++ default [] (head arrivals)) s) ;!
        let! batch := dequeueBatch validFromMillis in
        match batch with
        | None => finish
        | Some batch =>
            let chunk := chunk ++ [batch] in
            if queue_items chunk >=? maxItems then
              let! x := fn chunk x in
              drain_loop fn maxItems validFromMillis queueLength fuel (tail arrivals) (itemsProcessed + batch_items batch) [] x
            else
              drain_loop fn maxItems validFromMillis queueLength fuel (tail arrivals) (itemsProcessed + batch_items batch) chunk x
        end
      else finish
  end.

(** Every turn takes one batch, so those waiting and those to come are enough. *)
Definition forEachDrainChunk {X : Type} (run : drain_run) (maxItems : Z) (fn : list (TxBatch (option I)) → X → M X) (x : X)
  : M X :=
  let! queue := readM stp_queue in
  let queueLength := queue_items queue + dr_reserved run in
  if queueLength =? 0 then retM x
  else drain_loop fn maxItems (dr_validFromMillis run) queueLength
         (S (length queue + length (concat (dr_arrivals run)))) (dr_arrivals run) 0 [] x.

(** One transaction after another. *)
Fixpoint drain_nodes (txs losing : gset Hash) (skipNotification : bool) (items : list (Node * option I)) (conflicting : gset Hash)
  : M (gset Hash) :=
  match items with
  | [] => retM conflicting
  | (node, txInpoints) :: items =>
      if excluded txs losing (node_Hash node) then drain_nodes txs losing skipNotification items conflicting
      else
        let '(rejected, conflicting) :=
          if bool_decide (conflicting = ∅) then (false, conflicting)
          else rejectConflicting (node_Hash node) txInpoints conflicting in
        if rejected then drain_nodes txs losing skipNotification items conflicting
        else logM (addNode node txInpoints skipNotification) ;! drain_nodes txs losing skipNotification items conflicting
  end.

Definition items_in (batches : list (TxBatch (option I))) : result (list (Node * option I)) :=
  if forallb (λ b, (length (b_nodes b) =? length (b_txInpoints b))%nat) batches
  then Ok (concat (map (λ b, combine (b_nodes b) (b_txInpoints b)) batches)) else Err panic.

Definition dequeueDuringBlockMovement (run : drain_run) (txs losing conflicting : gset Hash) (skipNotification : bool) : M unit :=
  let! _ := forEachDrainChunk run 1
    (λ batches conflicting, let! items := liftM (items_in batches) in drain_nodes txs losing skipNotification items conflicting)
    conflicting in
  retM tt.

(** [DrainQueue]: an error is logged. *)
Definition DrainQueue (run : drain_run) (dropHashes : gset Hash) : M unit :=
  if bool_decide (dropHashes = ∅) then retM tt
  else logM (dequeueDuringBlockMovement run ∅ ∅ dropHashes true).

(** A chunk of the queue in parallel.  [order] is the order in which the workers came to
    the transactions that are kept. *)
Fixpoint setIfNotExistsInOrder (items : list (Node * option I)) (order : list nat) (inserted : gset nat) : M (gset nat) :=
  match order with
  | [] => retM inserted
  | i :: order =>
      match items !! i with
      | None => failM panic
      | Some (node, inpoints) =>
          let! wasSet := SetIfNotExists (node_Hash node) inpoints in
          setIfNotExistsInOrder items order (if wasSet : bool then {[i]} ∪ inserted else inserted)
      end
  end.

Definition kept_at (txs losing : gset Hash) (items : list (Node * option I)) (i : nat) : bool :=
  match items !! i with Some (node, _) => negb (excluded txs losing (node_Hash node)) | None => false end.

Definition addDrainedBatches (order : list nat) (txs losing : gset Hash) (batches : list (TxBatch (option I))) : M unit :=
  let! items := liftM (items_in batches) in
  if existsb (λ '(_, inpoints), bool_decide (inpoints = None)) items
  then let! _ := drain_nodes txs losing false items ∅ in retM tt
  else
    let! inserted := setIfNotExistsInOrder items (filter (kept_at txs losing items) order) ∅ in
    parallelBuildRemainderSubtrees (inserted_nodes inserted 0 (map fst items)) false.

Definition drainChunkItems : Z := 2 ^ 20.

Record deferredBlockDrain := mkDeferred {
  df_drainQueue : bool;
  df_transactionMap : gset Hash;
  df_losingTxHashesMap : gset Hash;
  df_conflictingHashes : gset Hash;
}.

(** [order] is the order of each chunk. *)
Definition drainQueueAfterBlock (run : drain_run) (order : list (TxBatch (option I)) → list nat) (drain : deferredBlockDrain) : M unit :=
  if negb (bool_decide (df_conflictingHashes drain = ∅))
  then dequeueDuringBlockMovement run (df_transactionMap drain) (df_losingTxHashesMap drain) (df_conflictingHashes drain) false
  else
    forEachDrainChunk run drainChunkItems
      (λ batches _, addDrainedBatches (order batches) (df_transactionMap drain) (df_losingTxHashesMap drain) batches) tt.

(** ** Forward *)
Definition onErrorM {A} (undo : SubtreeProcessor I → SubtreeProcessor I) (m : M A) : M A := λ s,
  match m s with (Err e, s) => (Err e, undo s) | ok => ok end.

Record forward_params := mkForward {
  fw_skipNotification : bool;
  fw_skipDequeue : bool;
  fw_createProperlySizedSubtrees : bool;
  fw_deferDrain : bool;
  fw_processed : gset Hash;
  fw_cascaded : gset Hash;
  fw_order : list Z;
  fw_drain : drain_run;
}.

(** What the block leaves, and, of a foreign block, the queue: the set of conflicting
    transactions has then grown by the descendants dropped. *)
Definition processRemainderTransactionsAndDequeue (p : forward_params) (block : AssembledBlock) (chainedSubtrees : list SubtreeData)
    (currentSubtree : SubtreeData) (txs : option (gset Hash)) (losing conflicting : gset Hash) (src : nat) : M (gset Hash) :=
  match txs with
  | Some txs =>
      if bool_decide (txs = ∅) then
        processOwnBlockNodes (fw_order p) block chainedSubtrees currentSubtree src (fw_skipNotification p) ;! retM conflicting
      else
        let! conflicting := wrapM ERR_PROCESSING
          (processRemainderTxHashes (fw_order p) (chainedSubtrees ++ [currentSubtree]) txs losing conflicting src (fw_skipNotification p)) in
        (if fw_skipDequeue p || fw_deferDrain p then retM tt
         else wrapM ERR_PROCESSING (dequeueDuringBlockMovement (fw_drain p) txs losing conflicting (fw_skipNotification p))) ;!
        retM conflicting
  | None =>
      processOwnBlockNodes (fw_order p) block chainedSubtrees currentSubtree src (fw_skipNotification p) ;! retM conflicting
  end.

Definition foreign (txs : option (gset Hash)) : bool := match txs with Some txs => negb (bool_decide (txs = ∅)) | None => false end.

Definition moveForwardBlockDeferringDrain (answers : block_answers) (p : forward_params) (block : AssembledBlock)
  : M (option (gset Hash) * gset Hash * option deferredBlockDrain) :=
  let! header := readM stp_currentBlockHeader in
  match header with
  | None => failM panic
  | Some header =>
      if negb (bool_decide (ab_HashPrevBlock block = header)) then failM (err ERR_PROCESSING) else
      if bool_decide (ab_Subtrees block = []) then
        liftM (wrapR ERR_PROCESSING (ba_coinbase answers)) ;! retM (None, ∅, None)
      else
        let! split := processBlockSubtrees block in
        let '(blockSubtreesMap, chainedSubtrees) := split in
        let! map := liftM (createTransactionMapIfNeeded answers block blockSubtreesMap) in
        let '(transactionMap, conflictingNodes) := map in
        let! conflicts := liftM (processConflictingTransactions answers (fw_processed p) (fw_cascaded p) conflictingNodes) in
        let '(losing, conflicting) := conflicts in
        let! originalCurrentSubtree := currentM in
        let! originalCurrentTxMap := readM stp_currentTxMap in
        wrapM ERR_PROCESSING (resetSubtreeState (fw_createProperlySizedSubtrees p)) ;!
        onErrorM swapCurrentTxMapBack (
          let! conflicting := processRemainderTransactionsAndDequeue p block chainedSubtrees originalCurrentSubtree
                                transactionMap losing conflicting originalCurrentTxMap in
          liftM (wrapR ERR_PROCESSING (ba_coinbase answers)) ;!
          if fw_deferDrain p then
            retM (transactionMap, losing,
                  Some (mkDeferred (foreign transactionMap) (default ∅ transactionMap) losing conflicting))
          else clearCurrentTxMapShadow ;! retM (transactionMap, losing, None))
  end.

(** Of [finalizeBlockProcessing], what does not size subtrees or tell other services. *)
Definition finalizeBlockProcessing (header : Hash) : M unit :=
  setTxCountFromSubtrees ;!
  writeM (I := I) (set_currentBlockHeader (Some header)) ;!
  updatePrecomputedMiningData.

(** The snapshot a failed move is rolled back to; the counters of the chained subtrees, the
    mining data, the removals and the queue are not part of it. *)
Definition rollback (original : SubtreeProcessor I) (s : SubtreeProcessor I) : SubtreeProcessor I :=
  let s := set_chainedSubtrees (stp_chainedSubtrees original) s in
  let s := set_currentSubtree (stp_currentSubtree original) s in
  let s := restoreCurrentTxMap (stp_currentTxMap original) s in
  let s := set_currentBlockHeader (stp_currentBlockHeader original) s in
  (setTxCountFromSubtrees s).2.

(** One block from the channel; the answer is sent before the deferred drain runs, whose
    errors are logged. *)
Definition handleMoveForwardRequest (answers : block_answers) (order : list Z) (run : drain_run)
    (orders : list (TxBatch (option I)) → list nat) (block : AssembledBlock) : M unit := λ s,
  match moveForwardBlockDeferringDrain answers (mkForward false false true true ∅ ∅ order run) block s with
  | (Err e, s') => (Err e, rollback s s')
  | (Ok (_, _, drain), s') =>
      (finalizeBlockProcessing (ab_Hash block) ;!
       match drain with
       | None => retM tt
       | Some drain =>
           (if df_drainQueue drain then logM (drainQueueAfterBlock run orders drain) ;! setTxCountFromSubtrees else retM tt) ;!
           clearCurrentTxMapShadow
       end) s'
  end.

(** ** Back *)

(** [ParallelBulkSetIfNotExists]: the buckets in the order [order], each to its end. *)
Fixpoint set_bucket (items : list (nat * (Hash * option I))) (inserted : gset nat) : M (gset nat) :=
  match items with
  | [] => retM inserted
  | (i, (h, v)) :: items =>
      let! wasSet := SetIfNotExists h v in
      set_bucket items (if wasSet : bool then {[i]} ∪ inserted else inserted)
  end.

Fixpoint ParallelBulkSetIfNotExists (items : list (nat * (Hash * option I))) (order : list Z) (inserted : gset nat) : M (gset nat) :=
  match order with
  | [] => retM inserted
  | b :: order =>
      let! inserted := set_bucket (filter (λ '(_, (h, _)), BucketFor h = b) items) inserted in
      ParallelBulkSetIfNotExists items order inserted
  end.

Definition not_placeholder (n : Node) : bool := negb (bool_decide (node_Hash n = CoinbasePlaceholderHashValue)).

(** [blockNodes] and [blockInpoints] are the nodes of the block's subtrees, without the
    first, and their inpoints. *)
Definition moveBackBlockBulkBuild (order : list Z) (blockNodes : list Node) (blockInpoints : list I)
    (createProperlySizedSubtrees : bool) : M unit :=
  let! chained := readM stp_chainedSubtrees in
  let! current := readM stp_currentSubtree in
  let! inserted := ParallelBulkSetIfNotExists
    (combine (seq 0 (length blockNodes)) (combine (map node_Hash blockNodes) (map Some blockInpoints))) order ∅ in
  let previous := concat (map st_Nodes chained) ++ match current with Some st => st_Nodes st | None => [] end in
  let allNodes := inserted_nodes inserted 0 blockNodes ++ filter not_placeholder previous in
  let! n := readM stp_currentItemsPerFile in
  let subtreeSize := if createProperlySizedSubtrees then n else temporary_size in
  let! st := wrapM ERR_PROCESSING (newSubtree subtreeSize) in
  writeM (λ s, set_currentSubtree (Some (match AddCoinbaseNode st with Ok st => st | Err _ => st end)) s) ;!
  writeM closeChainedSubtrees ;!
  wrapM ERR_PROCESSING (bulkBuildSubtrees allNodes subtreeSize).

(** [removeCoinbaseUtxos]: what spends the coinbase leaves the store and the assembly, and
    may not come back from the queue.  [children] and [deletes] are the store's answers. *)
Definition removeCoinbaseUtxos (children : result (list Hash)) (deletes : Hash → result unit) (coinbase : Hash)
  : M (I := I) unit :=
  match children with
  | Err e => if error_Is e ERR_TX_NOT_FOUND then retM tt else failM (err_wrap ERR_PROCESSING e)
  | Ok hashes =>
      (if bool_decide (hashes = []) then retM tt else
       forM (λ h, liftM (wrapR ERR_PROCESSING (deletes h)) ;! Remove h) hashes ;!
       wrapM ERR_PROCESSING (removeTxsFromSubtrees hashes)) ;!
      liftM (wrapR ERR_PROCESSING (deletes coinbase))
  end.

(** [moveBackBlockGetSubtrees]: nodes, inpoints and conflicting nodes of each subtree. *)
Definition read_back (metas : Hash → result (list I)) (h : Hash) : result (list Node * list I * list Hash) :=
  match subtreeStore h with
  | NoFile => Err (err ERR_SERVICE_ERROR)
  | BadFile => Err (err ERR_PROCESSING)
  | File st conflicting =>
      let? _ := wrapR ERR_PROCESSING (ValidateSubtreeMatchesKey (Some st) (Some h)) in
      let? inpoints := metas h in
      Ok (st_Nodes st, inpoints, if bool_decide (h = CoinbasePlaceholderHashValue) then [] else conflicting)
  end.

Fixpoint moveBackBlockGetSubtrees (metas : Hash → result (list I)) (hashes : list Hash)
  : result (list (list Node * list I * list Hash)) :=
  match hashes with
  | [] => Ok []
  | h :: hashes =>
      let? r := wrapR ERR_PROCESSING (read_back metas h) in
      let? rs := moveBackBlockGetSubtrees metas hashes in
      Ok (r :: rs)
  end.

(** The answer is the block's nodes and its conflicting transactions. *)
Definition moveBackBlock (order : list Z) (metas : Hash → result (list I)) (children : result (list Hash))
    (deletes : Hash → result unit) (block : AssembledBlock) (createProperlySizedSubtrees : bool)
  : M (list Node * list Hash) :=
  let! subtrees := liftM (wrapR ERR_PROCESSING (moveBackBlockGetSubtrees metas (ab_Subtrees block))) in
  (λ s, match removeCoinbaseUtxos children deletes (ab_CoinbaseTx block) s with
        | (Err e, s) => if error_Is e ERR_TX_NOT_FOUND then (Ok tt, s) else (Err (err_wrap ERR_PROCESSING e), s)
        | ok => ok
        end) ;!
  let nodes := concat (map (λ '(nodes, _, _), nodes) subtrees) in
  let inpoints := concat (map (λ '(_, inpoints, _), inpoints) subtrees) in
  if negb (length nodes =? length inpoints)%nat then failM panic else
  moveBackBlockBulkBuild order (tail nodes) (tail inpoints) createProperlySizedSubtrees ;!
  setTxCountFromSubtrees ;!
  retM (nodes, concat (map (λ '(_, _, conflicting), conflicting) subtrees)).

(** ** Which transactions a reorganisation marks *)
Fixpoint mark_false (seen : gset Hash) (hashes : list Hash) : list Hash * gset Hash :=
  match hashes with
  | [] => ([], seen)
  | h :: hashes =>
      if bool_decide (h = CoinbasePlaceholderHashValue) || bool_decide (h ∈ seen) then mark_false seen hashes
      else let '(l, seen) := mark_false ({[h]} ∪ seen) hashes in (h :: l, seen)
  end.

Definition partitionLongestChainMarks (markOnLongestChain losingTxHashes assemblyHashes : list Hash) : list Hash * list Hash :=
  let '(markFalse, seen) := mark_false ∅ (losingTxHashes ++ assemblyHashes) in
  (filter (λ h, h ∉ seen) markOnLongestChain, markFalse).
End Movement.
