(* ===== verification/MovementTheorems.v ===== *)
(** * A block leaves the processor sound

    Of [Movement]: what a reset leaves, what the block leaves of the transactions that
    were assembled, and that filling the new subtrees in parallel, in any order of the
    buckets, holds what filling them one at a time holds. *)

From S2P Require Import Prelude External Merkle GoSubtree BodyBinding Queue Assembly AssemblyTheorems AssemblyOwned AssemblyReach Movement.

#[local] Opaque u64 i32.

Section Movement.
  Context {I : Type} {TI : TxInpointsOps I}.
  Context {CH : Chainhash} {SUB : Subtree} {GS : GoSubtree} {AS : AssemblySubtree} {ASP : AssemblySubtreeSpec AS}.
  Implicit Types (s : SubtreeProcessor I) (txs : list Node).
  Context (n : nat) {LN : LeafCount n}.

#[local] Notation assembled := (assembled n).

(** Everything the goroutine relies on between two requests. *)
Record sound txs s : Prop := {
  so_assembled : assembled txs s;
  so_running : running s;
  so_queue : Forall queued_ok (stp_queue s);
  so_pool : stp_disableCurrentTxMapPool s = false;
  so_two : stp_currentTxMapShadow s ≠ stp_currentTxMap s;
  so_shadow : map_at (stp_currentTxMapShadow s) s = ∅;
  so_size : stp_currentItemsPerFile s = Z.of_nat n;
}.

Lemma sound_aside txs txs' s s' : sound txs s → aside s s' → assembled txs' s' → running s' → Forall queued_ok (stp_queue s') →
  sound txs' s'.
Proof.
  intros H [Ea Em] Ha Hr Hq. unfold settings_of in Ea. injection Ea as E1 E2 E3 E4 _. split; [done..|by rewrite E3; apply H| | |by rewrite E4; apply H].
  - rewrite E1, E2. apply H.
  - rewrite E2, Em by apply H. apply H.
Qed.

(** ** A reset *)
Record swapped s s' : Prop := {
  sw_current : stp_currentTxMap s' = stp_currentTxMapShadow s;
  sw_shadow : stp_currentTxMapShadow s' = stp_currentTxMap s;
  sw_source : map_at (stp_currentTxMap s) s' = current_map s;
  sw_pool : stp_disableCurrentTxMapPool s' = false;
  sw_rest : (stp_currentItemsPerFile s', stp_currentBlockHeader s', stp_queue s', stp_ctx s', stp_removeMap s') =
            (stp_currentItemsPerFile s, stp_currentBlockHeader s, stp_queue s, stp_ctx s, stp_removeMap s);
}.

Lemma empty_assembled s : laid n [placeholder_node] s → current_map s = ∅ → assembled [] s.
Proof.
  intros Hl Em. split; [done|]. split; rewrite ?Em; [by rewrite (laid_nodes n _ _ Hl)|done|apply NoDup_nil_2| | |by eapply laid_height].
  - intros h. rewrite lookup_empty. split; [by intros []|by intros ?%not_elem_of_nil].
  - intros h v. by rewrite lookup_empty.
Qed.

Lemma laid_placeholder s : stp_chainedSubtrees s = [] → stp_currentSubtree s = Some (tree n [placeholder_node]) → laid n [placeholder_node] s.
Proof.
  intros E1 E2. destruct (fulls_small n [placeholder_node]) as [Ef Er]; [pose proof leaf_two; simpl; lia|].
  unfold laid. by rewrite Ef, Er.
Qed.

Lemma reset_eq txs s : sound txs s →
  ∃ s', resetSubtreeState true s = (Ok tt, s') ∧ assembled [] s' ∧ swapped s s'.
Proof.
  intros H. unfold resetSubtreeState, take_empty_map. rewrite (so_pool _ _ H), (so_size _ _ H). unfold newSubtree, liftM. rewrite (new_tree n).
  cbn [foreignR]. rewrite AddCoinbaseNode_spec by done. cbn [foreignR]. eexists. split; [reflexivity|]. split; [|by split; cbn; [..|apply H|done]].
  apply empty_assembled; [by apply laid_placeholder|exact (so_shadow _ _ H)].
Qed.

(** After a reset and anything done since: undone, or carried through. *)
Lemma swapped_aside s s1 s2 : swapped s s1 → aside s1 s2 → stp_currentTxMap s ≠ stp_currentTxMapShadow s →
  stp_currentTxMap s2 = stp_currentTxMapShadow s ∧ stp_currentTxMapShadow s2 = stp_currentTxMap s ∧
  map_at (stp_currentTxMap s) s2 = current_map s ∧ stp_disableCurrentTxMapPool s2 = false ∧
  stp_currentItemsPerFile s2 = stp_currentItemsPerFile s ∧ stp_currentBlockHeader s2 = stp_currentBlockHeader s.
Proof.
  intros [W1 W2 W3 W4 W5] [Ea Em] Hne. unfold settings_of in Ea. injection Ea as E1 E2 E3 E4 E5. injection W5 as R1 R2 _ _ _.
  split_and!; [congruence..| |congruence|congruence|congruence]. rewrite Em by congruence. done.
Qed.

(** ** What the block leaves *)
Definition left_over (removed T L : gset Hash) txs : list Node :=
  filter (λ x, real x ∧ node_Hash x ∉ removed ∧ node_Hash x ∉ T ∧ node_Hash x ∉ L) txs.

Lemma remainder_eq removed T L txs : remainder removed T L txs = left_over removed T L txs.
Proof.
  unfold left_over. induction txs as [|x txs IH]; [done|]. cbn [remainder]. rewrite filter_cons, IH. unfold excluded, real.
  repeat case_bool_decide; case_decide; try done; cbn [orb] in *; tauto.
Qed.

Lemma left_over_app removed T L l1 l2 : left_over removed T L (l1 ++ l2) = left_over removed T L l1 ++ left_over removed T L l2.
Proof. apply filter_app. Qed.

Lemma left_over_all removed T L (sts : list SubtreeData) :
  concat (map (λ st, remainder removed T L (st_Nodes st)) sts) = left_over removed T L (concat (map st_Nodes sts)).
Proof.
  induction sts as [|st sts IH]; [done|]. cbn [map concat]. by rewrite left_over_app, IH, remainder_eq.
Qed.

(** Whether a transaction conflicts: it is marked, or spends one that is. *)
Definition conflicts (held : gmap Hash (option I)) (C : gset Hash) (x : Node) : Prop :=
  node_Hash x ∈ C ∨ ∃ i p, held !! node_Hash x = Some (Some i) ∧ p ∈ ParentTxHashes i ∧ p ∈ C.

Lemma reject_spec held x i C : held !! node_Hash x = Some i →
  let '(r, C') := rejectConflicting (node_Hash x) i C in
  (r = true ↔ conflicts held C x) ∧ C' = if r then {[node_Hash x]} ∪ C else C.
Proof.
  intros E. unfold rejectConflicting, conflicts. rewrite E. case_bool_decide as Hin.
  { split; [tauto|]. set_solver. }
  destruct i as [i|]; [|split; [|done]; split; [done|]; intros [?|(j & p & [=] & _)]; done].
  destruct (existsb _ _) eqn:Ee.
  - apply existsb_exists in Ee as (p & Hp & HC%bool_decide_eq_true). apply list_elem_of_In in Hp.
    split; [|done]. split; [|done]. intros _. right. eauto.
  - split; [|done]. split; [done|]. intros [?|(j & p & [= <-] & Hp & HC)]; [done|].
    enough (existsb (λ p, bool_decide (p ∈ C)) (ParentTxHashes i) = true) by congruence.
    apply existsb_exists. exists p. split; [by apply list_elem_of_In|by apply bool_decide_eq_true].
Qed.

(** The set grows by what is dropped; what is kept conflicts with nothing in it that came before. *)
Lemma drop_spec held txs C : (∀ x, x ∈ txs → is_Some (held !! node_Hash x)) →
  ∃ kept C', dropConflictingDescendants held txs C = Ok (kept, C') ∧ kept `sublist_of` txs ∧ C ⊆ C' ∧
    (∀ x, x ∈ txs → x ∈ kept ∨ node_Hash x ∈ C') ∧
    (∀ h, h ∈ C' → h ∈ C ∨ ∃ x, x ∈ txs ∧ node_Hash x = h) ∧
    (∀ x, x ∈ kept → ¬ conflicts held C x).
Proof.
  revert C. induction txs as [|x txs IH]; intros C Hh; cbn [dropConflictingDescendants].
  { exists [], C. split_and!; [done|constructor|done|by intros x ?%not_elem_of_nil|by left|by intros x ?%not_elem_of_nil]. }
  destruct (Hh x) as [i Ei]; [left|]. rewrite Ei. pose proof (reject_spec held x i C Ei) as Hr.
  destruct (rejectConflicting (node_Hash x) i C) as [r C1]. destruct Hr as [Hr ->].
  destruct (IH (if r then {[node_Hash x]} ∪ C else C)) as (kept & C' & -> & Hs & HC & Hk & Hb & Hn); [intros y Hy; apply Hh; by right|].
  assert (C ⊆ if r then {[node_Hash x]} ∪ C else C) as HC1 by (destruct r; set_solver).
  cbn [bindR]. exists (if r then kept else x :: kept), C'. split_and!; [done| |set_solver| | |].
  - destruct r; by constructor.
  - intros y [->|Hy]%elem_of_cons; [|destruct (Hk y Hy); [left; destruct r; [done|by right]|by right]].
    destruct r; [right; set_solver|left; left].
  - intros h [Hh'|(y & Hy & <-)]%Hb; [|right; exists y; split; [by right|done]].
    destruct r; [|by left]. apply elem_of_union in Hh' as [->%elem_of_singleton|?]; [right; exists x; split; [left|done]|by left].
  - intros y Hy Hc. assert (y ∈ kept → False) as Hno.
    { intros Hin. apply (Hn y Hin). destruct Hc as [?|(j & p & ? & ? & ?)]; [left; set_solver|right; exists j, p; set_solver]. }
    destruct r; [by apply Hno|]. apply elem_of_cons in Hy as [->|Hy]; [|by apply Hno]. apply Hr in Hc. done.
Qed.

(** No transaction comes before one it spends. *)
Fixpoint parents_first (held : gmap Hash (option I)) txs : Prop :=
  match txs with
  | [] => True
  | x :: txs => (∀ i p, held !! node_Hash x = Some (Some i) → p ∈ ParentTxHashes i → p ∉ map node_Hash (x :: txs)) ∧ parents_first held txs
  end.

Lemma drop_closed held txs C kept C' : dropConflictingDescendants held txs C = Ok (kept, C') →
  (∀ x, x ∈ txs → is_Some (held !! node_Hash x)) → NoDup (map node_Hash txs) → parents_first held txs →
  ∀ x, x ∈ kept → ¬ conflicts held C' x.
Proof.
  revert C kept C'. induction txs as [|x txs IH]; intros C kept C' E Hh Hnd Hp; cbn [dropConflictingDescendants] in E.
  { injection E as <- <-. by intros x ?%not_elem_of_nil. }
  destruct (Hh x) as [i Ei]; [left|]. rewrite Ei in E. pose proof (reject_spec held x i C Ei) as Hr.
  destruct (rejectConflicting (node_Hash x) i C) as [r C1]. destruct Hr as [Hr ->].
  apply NoDup_cons in Hnd as [Hx Hnd]. destruct Hp as [Hpx Hp].
  assert (∀ y, y ∈ txs → is_Some (held !! node_Hash y)) as Hh' by (intros y Hy; apply Hh; by right).
  destruct (drop_spec held txs (if r then {[node_Hash x]} ∪ C else C) Hh') as (k & C2 & E2 & _ & _ & _ & Hb & _).
  rewrite E2 in E. cbn [bindR] in E. injection E as <- <-. specialize (IH _ _ _ E2 Hh' Hnd Hp). destruct r; [exact IH|].
  intros y [->|Hy]%elem_of_cons; [|by apply IH].
  assert (∀ h, h ∈ C2 → h ∈ C ∨ h ∈ map node_Hash txs) as Hb'.
  { intros h [?|(z & Hz & <-)]%Hb; [by left|right; apply list_elem_of_fmap; by exists z]. }
  enough (¬ conflicts held C x) as Hn.
  { intros [[?|?]%Hb'|(j & p & Hj & Hin & [?|?]%Hb')]; [apply Hn; by left|done|apply Hn; right; eauto|].
    apply (Hpx j p Hj Hin). by right. }
  intros Hc%Hr. done.
Qed.

(** ** Where the set of conflicting transactions comes from *)

(** In the set, or by way of what it spends. *)
Inductive descends (spends : Hash → Hash → Prop) (C : gset Hash) : Hash → Prop :=
  | descends_in h : h ∈ C → descends spends C h
  | descends_spends h p : spends h p → descends spends C p → descends spends C h.

Definition grown (spends : Hash → Hash → Prop) (C C' : gset Hash) : Prop := ∀ h, h ∈ C' → descends spends C h.

Definition spent_in (held : gmap Hash (option I)) (h p : Hash) : Prop := ∃ i, held !! h = Some (Some i) ∧ p ∈ ParentTxHashes i.
Definition spent_by (items : list (Node * option I)) (h p : Hash) : Prop :=
  ∃ x i, (x, Some i) ∈ items ∧ node_Hash x = h ∧ p ∈ ParentTxHashes i.

Lemma grown_refl spends C : grown spends C C.
Proof. intros h. by constructor. Qed.

Lemma grown_trans (R R' : Hash → Hash → Prop) C C1 C2 : (∀ h p, R h p → R' h p) → grown R' C C1 → grown R C1 C2 → grown R' C C2.
Proof.
  intros HR H1 H2 h Hh%H2. induction Hh as [h Hh|h p Hp _ IH]; [by apply H1|]. eapply descends_spends; [by apply HR|done].
Qed.

Lemma grown_mono (R R' : Hash → Hash → Prop) C C' : (∀ h p, R h p → R' h p) → grown R C C' → grown R' C C'.
Proof. intros HR. apply grown_trans; [done|apply grown_refl]. Qed.

Lemma grown_empty spends C : grown spends ∅ C → C = ∅.
Proof.
  intros H. apply elem_of_equiv_empty_L. intros h Hh%H. induction Hh as [h Hh|]; [by apply not_elem_of_empty in Hh|done].
Qed.

Lemma reject_grown (R : Hash → Hash → Prop) h i C : (∀ j p, i = Some j → p ∈ ParentTxHashes j → R h p) → grown R C (rejectConflicting h i C).2.
Proof.
  intros HR. unfold rejectConflicting. case_bool_decide; [apply grown_refl|]. destruct i as [i|]; [|apply grown_refl].
  destruct (existsb _ _) eqn:E; [|apply grown_refl]. apply existsb_exists in E as (p & Hp & HC%bool_decide_eq_true). apply list_elem_of_In in Hp.
  cbn [snd]. intros k [->%elem_of_singleton|?]%elem_of_union; [|by constructor]. eapply descends_spends; [by eapply HR|by constructor].
Qed.

Lemma drop_grown held txs C kept C' : dropConflictingDescendants held txs C = Ok (kept, C') → grown (spent_in held) C C'.
Proof.
  revert C kept C'. induction txs as [|x txs IH]; intros C kept C' E; cbn [dropConflictingDescendants] in E.
  { injection E as _ <-. apply grown_refl. }
  destruct (held !! node_Hash x) as [i|] eqn:Ei; [|done]. assert (grown (spent_in held) C (rejectConflicting (node_Hash x) i C).2) as Hr.
  { apply reject_grown. intros j p -> Hp. by exists j. }
  destruct (rejectConflicting (node_Hash x) i C) as [r C1]. destruct (dropConflictingDescendants held txs C1) as [[k C2]|] eqn:Ed; [|done].
  injection E as _ <-. eapply grown_trans; [|exact Hr|by eapply IH]. done.
Qed.

(** ** Filling the new subtrees *)
Lemma assembled_new txs x s : assembled txs s → node_Hash x ∉ map node_Hash txs → current_map s !! node_Hash x = None.
Proof. intros H Hx. apply eq_None_not_Some. by rewrite (lo_map _ _ _ (am_loose _ _ _ H)). Qed.

Definition sourced (m : gmap Hash (option I)) txs : Prop := ∀ x, x ∈ txs → ∃ i, m !! node_Hash x = Some (Some i).

Lemma sourced_cons m x txs : sourced m (x :: txs) → (∃ i, m !! node_Hash x = Some (Some i)) ∧ sourced m txs.
Proof. intros H. split; [apply H; left|intros y Hy; apply H; by right]. Qed.

Lemma loose_sourced txs s : loose n txs s → sourced (current_map s) txs.
Proof.
  intros H x Hx. assert (is_Some (current_map s !! node_Hash x)) as [v Ev] by (apply (lo_map _ _ _ H), list_elem_of_fmap; by exists x).
  rewrite Ev. destruct (lo_inpoints _ _ _ H _ _ Ev) as [i ->]. eauto.
Qed.

Lemma NoDup_step (x : Node) txs new : NoDup (map node_Hash (txs ++ x :: new)) →
  node_Hash x ∉ map node_Hash txs ∧ NoDup (map node_Hash ((txs ++ [x]) ++ new)).
Proof.
  intros H. split; [|by rewrite <- (assoc_L (++))]. rewrite map_app in H. apply NoDup_app in H as (_ & H & _).
  intros Hx. apply (H _ Hx). left.
Qed.

Lemma addNode_new txs x i skip s : assembled txs s → running s → real x → node_Hash x ∉ map node_Hash txs →
  ∃ s', addNode x (Some i) skip s = (Ok tt, s') ∧ assembled (txs ++ [x]) s' ∧ running s' ∧ stp_queue s' = stp_queue s ∧ aside s s' ∧
    stp_removeMap s' = stp_removeMap s.
Proof.
  intros H Hr Hx Hn. destruct (addNode x (Some i) skip s) as [r s'] eqn:E.
  destruct (addNode_assembled n x i skip txs s r s' H Hx E) as (H1 & H2 & Hm & H3). destruct (H3 Hr) as [-> Hr'].
  rewrite bool_decide_false in H1 by done. exists s'. split_and!; [done..| |done]. pose proof (owned_addNode x (Some i) skip s) as Ho. by rewrite E in Ho.
Qed.

Lemma add_sequentially_eq src m skip new txs s : assembled txs s → running s → Forall real new → NoDup (map node_Hash (txs ++ new)) →
  src ≠ stp_currentTxMap s → map_at src s = m → sourced m new →
  ∃ s', add_sequentially src skip new s = (Ok tt, s') ∧ assembled (txs ++ new) s' ∧ running s' ∧ stp_queue s' = stp_queue s ∧ aside s s'.
Proof.
  revert txs s. induction new as [|x new IH]; intros txs s H Hr Hx Hnd Hsrc Hm Hs; cbn [add_sequentially].
  { exists s. by rewrite app_nil_r. }
  apply Forall_cons in Hx as [Hx Hxs]. apply NoDup_step in Hnd as [Hn Hnd]. apply sourced_cons in Hs as [[i Ei] Hs].
  unfold bindM at 1, readM at 1. rewrite Hm, Ei. unfold bindM at 1, logM.
  destruct (addNode_new txs x i skip s) as (s1 & -> & H1 & Hr1 & Hq1 & Ha1 & _); [done..|]. cbn [snd].
  assert (stp_currentTxMap s1 = stp_currentTxMap s) as Ec by (destruct Ha1 as [Ea _]; unfold settings_of in Ea; congruence).
  destruct (IH _ s1 H1 Hr1 Hxs Hnd) as (s' & E & H2 & Hr2 & Hq2 & Ha2); [congruence| |done|].
  { rewrite (as_maps _ _ Ha1) by done. done. }
  exists s'. rewrite <- (assoc_L (++)) in H2. split_and!; [exact E|done|done|congruence|by etrans].
Qed.

(** What is put into the map and then laid out is held. *)
Lemma assembled_append new txs s s1 s' : assembled txs s → Forall real new → NoDup (map node_Hash (txs ++ new)) →
  sourced (current_map s1) new → (∀ h, h ∉ map node_Hash new → current_map s1 !! h = current_map s !! h) →
  laid n ((placeholder_node :: txs) ++ new) s' → current_map s' = current_map s1 → assembled (txs ++ new) s'.
Proof.
  intros H Hx Hnd Hs Hc Hl Em. pose proof (am_loose _ _ _ H) as Hlo. split; [done|].
  split; [by rewrite (laid_nodes n _ _ Hl)|apply Forall_app; split; [apply Hlo|done]|done| | |by eapply laid_height].
  - intros h. rewrite Em, map_app, elem_of_app, <- (lo_map _ _ _ Hlo). destruct (decide (h ∈ map node_Hash new)) as [Hin|Hin].
    + split; [tauto|]. intros _. apply list_elem_of_fmap in Hin as (x & -> & Hin). destruct (Hs x Hin) as [i ->]. eauto.
    + rewrite Hc by done. tauto.
  - intros h v. rewrite Em. destruct (decide (h ∈ map node_Hash new)) as [Hin|Hin].
    + apply list_elem_of_fmap in Hin as (x & -> & Hin). destruct (Hs x Hin) as [i ->]. intros [= <-]. eauto.
    + rewrite Hc by done. apply Hlo.
Qed.

Lemma parallel_appends new txs s s1 skip : assembled txs s → running s → Forall real new → NoDup (map node_Hash (txs ++ new)) →
  sourced (current_map s1) new → (∀ h, h ∉ map node_Hash new → current_map s1 !! h = current_map s !! h) →
  outside_maps s1 = outside_maps s →
  ∃ s', parallelBuildRemainderSubtrees new skip s1 = (Ok tt, s') ∧ assembled (txs ++ new) s' ∧ running s' ∧ stp_queue s' = stp_queue s ∧ aside s1 s' ∧
    current_map s' = current_map s1.
Proof.
  intros H Hr Hx Hnd Hs Hc Ho. injection Ho as O1 O2 O3 O4 _.
  assert (laid n (placeholder_node :: txs) s1) as Hl1 by (destruct (am_laid _ _ _ H); split; congruence).
  assert (running s1) as Hr1 by (unfold running; by rewrite O4).
  destruct (forM (λ x, addNodePreValidated x skip) new s1) as [r s'] eqn:E.
  destruct (forM_laid n new _ skip s1 r s' Hl1 Hx E) as (Hf & Hl & Hrun). destruct (Hrun Hr1) as [-> Hr'].
  apply (sequential_eq n _ _ _ _ Hl1 Hx) in E. rewrite <- (parallel_eq n _ _ _ _ Hl1 Hx) in E by (unfold running in Hr1; congruence).
  exists s'. split_and!; [done| |done|by rewrite (frame_queue _ _ Hf)| |by apply frame_map].
  - eapply assembled_append; [exact H|done..|by apply Hl|by apply frame_map].
  - pose proof (owned_parallel new skip s1) as Hw. by rewrite E in Hw.
Qed.

(** *** In parallel *)
  Context (BucketFor : Hash → Z) (ParallelSetIfNotExistsThreshold : Z).

Definition bucketed (items : list (nat * Hash)) (order : list Z) : Prop := ∀ i h, (i, h) ∈ items → BucketFor h ∈ order.

Lemma MoveBucketFrom_eq src m items ins s : src ≠ stp_currentTxMap s → map_at src s = m → NoDup (map snd items) →
  (∀ i h, (i, h) ∈ items → ∃ v, m !! h = Some (Some v)) →
  ∃ ins' s', MoveBucketFrom src items ins s = (Ok ins', s') ∧ aside s s' ∧ outside_maps s' = outside_maps s ∧
    stp_removeMap s' = stp_removeMap s ∧
    (∀ k, k ∈ ins' ↔ k ∈ ins ∨ ∃ h, (k, h) ∈ items ∧ current_map s !! h = None) ∧
    (∀ h, current_map s' !! h = match current_map s !! h with Some v => Some v | None => if bool_decide (h ∈ map snd items) then m !! h else None end).
Proof.
  revert ins s. induction items as [|[i h] items IH]; intros ins s Hsrc Hm Hnd Hs; cbn [MoveBucketFrom].
  { exists ins, s. split_and!; [done..| |]; [intros k; split; [by left|intros [?|(h & ?%not_elem_of_nil & _)]; done]|].
    intros h. destruct (current_map s !! h); [done|]. by rewrite bool_decide_false by apply not_elem_of_nil. }
  cbn [map snd] in Hnd. apply NoDup_cons in Hnd as [Hh Hnd]. destruct (Hs i h) as [v Ev]; [left|].
  unfold bindM at 1, readM at 1. rewrite Hm, Ev. unfold bindM at 1. unfold SetIfNotExists.
  destruct (current_map s !! h) as [w|] eqn:Ew.
  - destruct (IH ins s Hsrc Hm Hnd) as (ins' & s' & E & Ha & Ho & Hrm & Hi & Hc); [intros j k Hj; apply (Hs j); by right|].
    exists ins', s'. split_and!; [done..| |].
    + intros k. rewrite Hi. setoid_rewrite elem_of_cons. split; [naive_solver|]. intros [?|(g & [[= -> ->]|?] & ?)]; [by left|congruence|right; eauto].
    + intros k. rewrite Hc. destruct (current_map s !! k) eqn:Ek; [done|]. cbn [map]. case_bool_decide as B1; case_bool_decide as B2; try done; rewrite elem_of_cons in B2.
      * tauto.
      * destruct B2 as [E1|?]; [cbn in E1; congruence|done].
  - set (s1 := write_current _ s).
    destruct (IH ({[i]} ∪ ins) s1) as (ins' & s' & E & Ha & Ho & Hrm & Hi & Hc); [done| |done|intros j k Hj; apply (Hs j); by right|].
    { rewrite <- Hm. apply (as_maps _ _ (aside_write _ s)). done. }
    exists ins', s'. split_and!; [done|etrans; [apply aside_write|exact Ha]|done|done| |].
    + intros k. rewrite Hi. subst s1. setoid_rewrite current_write. setoid_rewrite elem_of_cons. rewrite elem_of_union, elem_of_singleton. split.
      * intros [[->|?]|(g & Hg & Hn)]; [right; exists h; auto|by left|]. right. exists g. rewrite lookup_insert_None in Hn. tauto.
      * intros [?|(g & [[= -> ->]|Hg] & Hn)]; [auto|auto|]. right. exists g. split; [done|]. apply lookup_insert_None. split; [done|].
        intros ->. apply Hh. apply list_elem_of_fmap. by exists (k, g).
    + intros k. rewrite Hc. subst s1. rewrite current_write. cbn [map snd]. destruct (decide (k = h)) as [->|Hk].
      * rewrite lookup_insert_eq, Ew, bool_decide_true by left. done.
      * rewrite lookup_insert_ne by done. destruct (current_map s !! k); [done|]. apply (f_equal (λ b : bool, if b then m !! k else None)).
        apply bool_decide_ext. rewrite elem_of_cons. tauto.
Qed.

Lemma run_buckets_eq src m items order s : src ≠ stp_currentTxMap s → map_at src s = m → NoDup (map snd items) →
  (∀ i h, (i, h) ∈ items → ∃ v, m !! h = Some (Some v)) →
  ∃ ins s', run_buckets BucketFor src items order s = (Ok ins, s') ∧ aside s s' ∧ outside_maps s' = outside_maps s ∧
    stp_removeMap s' = stp_removeMap s ∧
    (∀ k, k ∈ ins ↔ ∃ h, (k, h) ∈ items ∧ BucketFor h ∈ order ∧ current_map s !! h = None) ∧
    (∀ h, current_map s' !! h = match current_map s !! h with
       | Some v => Some v | None => if bool_decide (h ∈ map snd items ∧ BucketFor h ∈ order) then m !! h else None end).
Proof.
  revert s. induction order as [|b order IH]; intros s Hsrc Hm Hnd Hs; cbn [run_buckets].
  { exists ∅, s. split_and!; [done..| |].
    - intros k. split; [by intros ?%not_elem_of_empty|by intros (h & _ & ?%not_elem_of_nil & _)].
    - intros h. destruct (current_map s !! h); [done|]. rewrite bool_decide_false; [done|]. by intros [_ ?%not_elem_of_nil]. }
  set (mine := filter (λ '(_, h), BucketFor h = b) items).
  assert (∀ i h, (i, h) ∈ mine ↔ BucketFor h = b ∧ (i, h) ∈ items) as Hmine by (intros i h; unfold mine; by rewrite list_elem_of_filter).
  assert (∀ h, h ∈ map snd mine ↔ BucketFor h = b ∧ h ∈ map snd items) as Hmine2.
  { intros h. rewrite !list_elem_of_fmap. split; [intros ([i g] & -> & [? ?]%Hmine); split; [done|by exists (i, g)]|].
    intros (Hb & [i g] & -> & Hi). exists (i, g). split; [done|]. by apply Hmine. }
  destruct (MoveBucketFrom_eq src m mine ∅ s Hsrc Hm) as (ins1 & s1 & -> & Ha1 & Ho1 & Hr1 & Hi1 & Hc1).
  { eapply sublist_NoDup; [exact Hnd|]. apply fmap_sublist, sublist_filter. }
  { intros i h [_ Hi]%Hmine. by apply (Hs i). }
  destruct (IH s1) as (ins2 & s2 & -> & Ha2 & Ho2 & Hr2 & Hi2 & Hc2); [..|done|done|].
  { destruct Ha1 as [Ea _]. unfold settings_of in Ea. congruence. }
  { rewrite (as_maps _ _ Ha1) by done. done. }
  cbn [bindR]. exists (ins1 ∪ ins2), s2. split_and!; [done|by etrans|congruence|congruence| |].
  - intros k. rewrite elem_of_union, Hi1, Hi2. setoid_rewrite elem_of_cons. split.
    + intros [[?%not_elem_of_empty|(h & [? ?]%Hmine & ?)]|(h & Hin & Hb & Hn)]; [done|naive_solver|]. exists h. split_and!; [done|by right|].
      rewrite Hc1 in Hn. by destruct (current_map s !! h).
    + intros (h & Hin & [Hb|Hb] & Hn); [left; right; exists h; by rewrite Hmine|].
      destruct (decide (BucketFor h = b)); [left; right; exists h; by rewrite Hmine|]. right. exists h. split_and!; [done..|].
      rewrite Hc1, Hn. rewrite bool_decide_false; [done|]. rewrite Hmine2. tauto.
  - intros h. rewrite Hc2, Hc1. destruct (current_map s !! h) as [v|]; [done|].
    specialize (Hmine2 h). pose proof (elem_of_cons order (BucketFor h) b) as Ho.
    destruct (m !! h) as [v|]; repeat case_bool_decide; try done; tauto.
Qed.

Fixpoint indexed (i : nat) txs : list (nat * Hash) :=
  match txs with [] => [] | x :: txs => (i, node_Hash x) :: indexed (S i) txs end.

Lemma indexed_hashes i txs : map snd (indexed i txs) = map node_Hash txs.
Proof. revert i. induction txs as [|x txs IH]; intros i; [done|]. cbn. by rewrite IH. Qed.

Lemma elem_of_indexed i txs k h : (k, h) ∈ indexed i txs ↔ ∃ j x, txs !! j = Some x ∧ k = (i + j)%nat ∧ node_Hash x = h.
Proof.
  revert i. induction txs as [|x txs IH]; intros i; cbn [indexed].
  - split; [by intros ?%not_elem_of_nil|by intros (j & y & ? & _)].
  - rewrite elem_of_cons, IH. split.
    + intros [[= -> ->]|(j & y & ? & -> & ?)]; [exists 0%nat, x; split_and!; [done|lia|done]|exists (S j), y; split_and!; [done|lia|done]].
    + intros ([|j] & y & Hj & -> & <-); [left; injection Hj as ->; by rewrite Nat.add_0_r|right; exists j, y; split_and!; [done|lia|done]].
Qed.

(** The pre-filter when no removal is pending. *)
Lemma prefilter_none i txs s : Forall real txs → prefilter 0 i txs s = (Ok (indexed i txs), s).
Proof.
  revert i. induction txs as [|x txs IH]; intros i Hx; [done|]. apply Forall_cons in Hx as [Hx Hxs]. cbn [prefilter].
  rewrite bool_decide_false by done. unfold bindM at 1, readM at 1. cbn [Z.gtb Z.compare andb]. unfold bindM. by rewrite IH.
Qed.

Lemma inserted_every ins i txs : (∀ j, (j < length txs)%nat → (i + j)%nat ∈ ins) → inserted_nodes ins i txs = txs.
Proof.
  revert i. induction txs as [|x txs IH]; intros i H; [done|]. cbn [inserted_nodes].
  rewrite bool_decide_true by (specialize (H 0%nat); rewrite Nat.add_0_r in H; apply H; simpl; lia). cbn. f_equal. apply IH.
  intros j Hj. specialize (H (S j)). rewrite Nat.add_succ_r in H. apply H. simpl. lia.
Qed.

Lemma parallel_remainder_eq order src m skip new txs s : assembled txs s → running s → Forall real new → NoDup (map node_Hash (txs ++ new)) →
  src ≠ stp_currentTxMap s → map_at src s = m → sourced m new → (∀ x, x ∈ new → BucketFor (node_Hash x) ∈ order) →
  ∃ s', (let! inserted := wrapM ERR_PROCESSING (parallelGetAndSetIfNotExists BucketFor order new src 0) in
         wrapM ERR_PROCESSING (parallelBuildRemainderSubtrees (inserted_nodes inserted 0 new) skip)) s = (Ok tt, s') ∧
    assembled (txs ++ new) s' ∧ running s' ∧ stp_queue s' = stp_queue s ∧ aside s s'.
Proof.
  intros H Hr Hx Hnd Hsrc Hm Hs Hb.
  assert (NoDup (map node_Hash new) ∧ ∀ h, h ∈ map node_Hash new → current_map s !! h = None) as [Hnd2 Hfresh].
  { rewrite map_app in Hnd. apply NoDup_app in Hnd as (_ & Hd & Hn). split; [done|]. intros h Hh. apply eq_None_not_Some.
    rewrite (lo_map _ _ _ (am_loose _ _ _ H)). intros Hin. by apply (Hd h Hin). }
  destruct (run_buckets_eq src m (indexed 0 new) order s Hsrc Hm) as (ins & s1 & E1 & Ha1 & Ho1 & _ & Hi & Hc).
  { by rewrite indexed_hashes. }
  { intros i h (j & x & Hj & _ & <-)%elem_of_indexed. by apply (Hs x (list_elem_of_lookup_2 _ _ _ Hj)). }
  assert (∀ x, x ∈ new → current_map s1 !! node_Hash x = m !! node_Hash x) as Hnew.
  { intros x Hin. assert (node_Hash x ∈ map node_Hash new) as Hh by (apply list_elem_of_fmap; by exists x).
    rewrite Hc, Hfresh by done. rewrite bool_decide_true; [done|]. rewrite indexed_hashes. auto. }
  destruct (parallel_appends new txs s s1 skip H Hr Hx Hnd) as (s' & E2 & Ha & Hr' & Hq & Ha2 & _); [..|done|].
  { intros x Hin. rewrite Hnew by done. by apply Hs. }
  { intros h Hh. rewrite Hc. destruct (current_map s !! h); [done|]. rewrite bool_decide_false; [done|]. rewrite indexed_hashes. tauto. }
  exists s'. split_and!; [|done..|by etrans].
  unfold bindM at 1, wrapM at 1. unfold parallelGetAndSetIfNotExists, bindM at 1. rewrite prefilter_none, E1 by done. cbn [wrapR].
  unfold wrapM. rewrite inserted_every, E2; [done|]. intros j Hj. apply lookup_lt_is_Some in Hj as [x Hj]. apply Hi.
  exists (node_Hash x). assert (x ∈ new) as Hin by by eapply list_elem_of_lookup_2.
  split_and!; [apply elem_of_indexed; eauto|auto|]. apply Hfresh, list_elem_of_fmap. by exists x.
Qed.

(** ** The remainder *)
Definition drop_conflicting (held : gmap Hash (option I)) txs (C : gset Hash) : result (list Node * gset Hash) :=
  if bool_decide (C = ∅) then Ok (txs, C) else dropConflictingDescendants held txs C.

Lemma drop_conflicting_spec held txs C : sourced held txs →
  ∃ kept C', drop_conflicting held txs C = Ok (kept, C') ∧ kept `sublist_of` txs ∧ C ⊆ C' ∧ (C = ∅ → C' = ∅) ∧
    (∀ x, x ∈ txs → x ∈ kept ∨ node_Hash x ∈ C') ∧
    (NoDup (map node_Hash txs) → parents_first held txs → ∀ x, x ∈ kept → ¬ conflicts held C' x).
Proof.
  intros Hs. unfold drop_conflicting. case_bool_decide as E.
  - exists txs, C. split_and!; [done..|by left|]. intros _ _ x _. subst. unfold conflicts. set_solver.
  - assert (∀ x, x ∈ txs → is_Some (held !! node_Hash x)) as Hh by (intros x Hx; destruct (Hs x Hx) as [i ->]; eauto).
    destruct (drop_spec held txs C Hh) as (kept & C' & Ed & H1 & H2 & H3 & _). exists kept, C'.
    split_and!; [done..|]. intros Hnd Hp. by eapply drop_closed.
Qed.

Lemma left_over_real removed T L txs : Forall real (left_over removed T L txs).
Proof. apply Forall_forall. intros x [(? & _) _]%list_elem_of_filter. done. Qed.

Lemma sourced_sublist m l1 l2 : l1 `sublist_of` l2 → sourced m l2 → sourced m l1.
Proof. intros Hs H x Hx. apply H. by eapply elem_of_sublist. Qed.

Lemma Forall_sublist {A} (P : A → Prop) l1 l2 : l1 `sublist_of` l2 → Forall P l2 → Forall P l1.
Proof. rewrite !Forall_forall. intros Hs H x Hx. apply H. by eapply elem_of_sublist. Qed.

Definition all_bucketed (order : list Z) txs : Prop := ∀ x, x ∈ txs → BucketFor (node_Hash x) ∈ order.

Lemma fill_eq order src m skip new txs s : assembled txs s → running s → Forall real new → NoDup (map node_Hash (txs ++ new)) →
  src ≠ stp_currentTxMap s → map_at src s = m → sourced m new → all_bucketed order new →
  ∃ s', (if ParallelSetIfNotExistsThreshold <=? Z.of_nat (length new) then
           let! inserted := wrapM ERR_PROCESSING (parallelGetAndSetIfNotExists BucketFor order new src 0) in
           wrapM ERR_PROCESSING (parallelBuildRemainderSubtrees (inserted_nodes inserted 0 new) skip)
         else add_sequentially src skip new) s = (Ok tt, s') ∧
    assembled (txs ++ new) s' ∧ running s' ∧ stp_queue s' = stp_queue s ∧ aside s s'.
Proof.
  intros. destruct (_ <=? _); [by eapply parallel_remainder_eq|by eapply add_sequentially_eq].
Qed.

Lemma processRemainder_eq order sts T L C src skip s :
  let nodes := left_over (stp_removeMap s) T L (concat (map st_Nodes sts)) in
  assembled [] s → running s → src ≠ stp_currentTxMap s → sourced (map_at src s) nodes → NoDup (map node_Hash nodes) →
  all_bucketed order nodes →
  ∃ kept C' s', drop_conflicting (map_at src s) nodes C = Ok (kept, C') ∧
    processRemainderTxHashes BucketFor ParallelSetIfNotExistsThreshold order sts T L C src skip s = (Ok C', s') ∧
    assembled kept s' ∧ running s' ∧ stp_queue s' = stp_queue s ∧ aside s s'.
Proof.
  intros nodes H Hr Hsrc Hs Hnd Hb. destruct (drop_conflicting_spec (map_at src s) nodes C Hs) as (kept & C' & Ed & Hsub & _).
  exists kept, C'. unfold processRemainderTxHashes. unfold bindM at 1, readM at 1. rewrite left_over_all. fold nodes.
  unfold bindM at 1, writeM at 1. set (s1 := set_removeMap _ s).
  assert (assembled [] s1) as H1 by by apply (assembled_same n [] s).
  destruct (fill_eq order src (map_at src s) skip kept [] s1) as (s' & E & Ha & Hr' & Hq & Has); [done|exact Hr|..].
  { eapply Forall_sublist; [exact Hsub|]. apply left_over_real. }
  { eapply sublist_NoDup; [exact Hnd|]. by apply fmap_sublist. }
  { done. } { done. }
  { by eapply sourced_sublist. }
  { intros x Hx. apply Hb. by eapply elem_of_sublist. }
  exists s'. split; [done|]. split; [|split_and!; [done|done|exact Hq|etrans; [|exact Has]; by split]].
  unfold bindM at 1, readM at 1. change (map_at src s1) with (map_at src s). unfold bindM at 1, liftM at 1.
  fold (drop_conflicting (map_at src s) nodes C). rewrite Ed. unfold bindM at 1. rewrite E. done.
Qed.

(** ** A block of our own subtrees *)
Definition real_hashes txs : list Hash := map node_Hash (filter real txs).

Lemma real_hashes_cons x txs : real_hashes (x :: txs) = if decide (real x) then node_Hash x :: real_hashes txs else real_hashes txs.
Proof. unfold real_hashes. rewrite filter_cons. by destruct (decide (real x)). Qed.

Lemma left_over_ext R R' T L txs : (∀ h, h ∈ real_hashes txs → (h ∈ R ↔ h ∈ R')) → left_over R T L txs = left_over R' T L txs.
Proof.
  intros H. unfold left_over. induction txs as [|x txs IH]; [done|]. rewrite real_hashes_cons in H. rewrite !filter_cons.
  rewrite IH by (intros h Hh; apply H; case_decide; [by right|done]).
  destruct (decide (real x)) as [Hx|Hx]; [|repeat case_decide; tauto]. specialize (H (node_Hash x) (list_elem_of_here _ _)).
  repeat case_decide; tauto.
Qed.

Lemma left_over_cons R T L x txs : left_over R T L (x :: txs) =
  if decide (real x ∧ node_Hash x ∉ R ∧ node_Hash x ∉ T ∧ node_Hash x ∉ L) then x :: left_over R T L txs else left_over R T L txs.
Proof. unfold left_over. by rewrite filter_cons. Qed.

Lemma left_over_sub R T L txs : left_over R T L txs `sublist_of` filter real txs.
Proof.
  unfold left_over. induction txs as [|x txs IH]; [constructor|]. rewrite !filter_cons.
  repeat case_decide; try tauto; by constructor.
Qed.

(** The marks that were met are gone, the others stay. *)
Definition fewer txs (R R' : gset Hash) : Prop := R' ⊆ R ∧ ∀ h, h ∉ real_hashes txs → h ∈ R → h ∈ R'.

Lemma fewer_refl txs R : fewer txs R R.
Proof. by split. Qed.

Lemma fewer_cons x txs R R' : fewer txs R R' → fewer (x :: txs) R R'.
Proof.
  intros [H1 H2]. split; [done|]. intros h Hh. apply H2. intros Hin. apply Hh. rewrite real_hashes_cons. case_decide; [by right|done].
Qed.

Lemma fewer_mark x txs R R' : real x → fewer txs (R ∖ {[node_Hash x]}) R' → fewer (x :: txs) R R'.
Proof.
  intros Hx [H1 H2]. split; [set_solver|]. intros h Hh Hin. rewrite real_hashes_cons, decide_True in Hh by done.
  apply not_elem_of_cons in Hh as [? ?]. apply H2; set_solver.
Qed.

Lemma fewer_trans l1 l2 R1 R2 R3 : fewer l1 R1 R2 → fewer l2 R2 R3 → fewer (l1 ++ l2) R1 R3.
Proof.
  intros [A1 A2] [B1 B2]. split; [set_solver|]. intros h Hh Hin. unfold real_hashes in *. rewrite filter_app, map_app, not_elem_of_app in Hh.
  destruct Hh. auto.
Qed.

(** When the count says so there are no marks. *)
Definition marks_counted (rml : Z) (R : gset Hash) : Prop := (rml >? 0) = false → R = ∅.

Lemma marks_counted_sub rml R R' : marks_counted rml R → R' ⊆ R → marks_counted rml R'.
Proof. intros H Hs E. specialize (H E). set_solver. Qed.

Lemma marked_eq rml R h : marks_counted rml R → ((rml >? 0) && bool_decide (h ∈ R))%bool = bool_decide (h ∈ R).
Proof.
  intros H. destruct (rml >? 0) eqn:E; [done|]. rewrite (H E). symmetry. apply bool_decide_eq_false_2, not_elem_of_empty.
Qed.

Fixpoint kept_items (R : gset Hash) (i : nat) txs : list (nat * Hash) :=
  match txs with
  | [] => []
  | x :: txs => if decide (real x ∧ node_Hash x ∉ R) then (i, node_Hash x) :: kept_items R (S i) txs else kept_items R (S i) txs
  end.

Lemma kept_items_ext R R' i txs : (∀ h, h ∈ real_hashes txs → (h ∈ R ↔ h ∈ R')) → kept_items R i txs = kept_items R' i txs.
Proof.
  revert i. induction txs as [|x txs IH]; intros i H; [done|]. rewrite real_hashes_cons in H. cbn [kept_items].
  rewrite IH by (intros h Hh; apply H; case_decide; [by right|done]).
  destruct (decide (real x)) as [Hx|Hx]; [|repeat case_decide; tauto]. specialize (H (node_Hash x) (list_elem_of_here _ _)).
  repeat case_decide; tauto.
Qed.

Lemma unmark_ext x txs (R : gset Hash) : node_Hash x ∉ real_hashes txs →
  ∀ h, h ∈ real_hashes txs → (h ∈ R ∖ {[node_Hash x]} ↔ h ∈ R).
Proof. intros Hx h Hh. rewrite elem_of_difference, elem_of_singleton. split; [tauto|]. intros. split; [done|]. by intros ->. Qed.

Lemma set_removeMap_id s : set_removeMap (stp_removeMap s) s = s.
Proof. by destruct s. Qed.

Lemma prefilter_eq rml i txs s : marks_counted rml (stp_removeMap s) → NoDup (real_hashes txs) →
  ∃ R', prefilter rml i txs s = (Ok (kept_items (stp_removeMap s) i txs), set_removeMap R' s) ∧ fewer txs (stp_removeMap s) R'.
Proof.
  revert i s. induction txs as [|x txs IH]; intros i s Hm Hnd.
  { exists (stp_removeMap s). rewrite set_removeMap_id. split; [done|apply fewer_refl]. }
  rewrite real_hashes_cons in Hnd. cbn [prefilter kept_items]. case_bool_decide as Ex.
  - rewrite decide_False in Hnd by (unfold real; tauto). destruct (IH (S i) s Hm Hnd) as (R' & E & Hf). exists R'. rewrite E.
    rewrite decide_False by (unfold real; tauto). split; [done|by apply fewer_cons].
  - rewrite decide_True in Hnd by done. apply NoDup_cons in Hnd as [Hx Hnd]. unfold bindM at 1, readM at 1. rewrite (marked_eq _ _ _ Hm).
    case_bool_decide as Er.
    + rewrite decide_False by tauto. unfold bindM at 1, writeM at 1.
      destruct (IH (S i) (set_removeMap (stp_removeMap s ∖ {[node_Hash x]}) s)) as (R' & E & Hf); [cbn; eapply marks_counted_sub; [done|set_solver]|done|].
      exists R'. rewrite E. cbn [stp_removeMap set_removeMap] in *. split; [|by apply fewer_mark].
      rewrite (kept_items_ext _ (stp_removeMap s)) by by apply unmark_ext. done.
    + rewrite decide_True by done. unfold bindM at 1. destruct (IH (S i) s Hm Hnd) as (R' & -> & Hf). exists R'. split; [done|by apply fewer_cons].
Qed.

Lemma kept_items_hashes R i txs : map snd (kept_items R i txs) = map node_Hash (left_over R ∅ ∅ txs).
Proof.
  revert i. induction txs as [|x txs IH]; intros i; [done|]. cbn [kept_items]. rewrite left_over_cons.
  assert (node_Hash x ∉ (∅ : gset Hash)) by apply not_elem_of_empty.
  repeat case_decide; try tauto; cbn [map]; by rewrite IH.
Qed.

Lemma elem_of_kept_items R i txs k h : (k, h) ∈ kept_items R i txs ↔
  ∃ j x, txs !! j = Some x ∧ k = (i + j)%nat ∧ node_Hash x = h ∧ real x ∧ h ∉ R.
Proof.
  revert i. induction txs as [|x txs IH]; intros i; cbn [kept_items].
  - split; [by intros ?%not_elem_of_nil|by intros (j & y & ? & _)].
  - transitivity ((real x ∧ node_Hash x ∉ R ∧ k = i ∧ h = node_Hash x) ∨ (k, h) ∈ kept_items R (S i) txs).
    { case_decide; [rewrite elem_of_cons|]; naive_solver. }
    rewrite IH. split.
    + intros [(? & ? & -> & ->)|(j & y & Hj & -> & ?)]; [exists 0%nat, x; by rewrite Nat.add_0_r|exists (S j), y; split_and!; [done|lia|tauto..]].
    + intros ([|j] & y & Hj & -> & <- & ? & ?); [left; injection Hj as ->; by rewrite Nat.add_0_r|right; exists j, y; split_and!; [done|lia|done..]].
Qed.

Lemma inserted_kept (ins : gset nat) R i txs :
  (∀ j x, txs !! j = Some x → ((i + j)%nat ∈ ins ↔ real x ∧ node_Hash x ∉ R)) → inserted_nodes ins i txs = left_over R ∅ ∅ txs.
Proof.
  revert i. induction txs as [|x txs IH]; intros i H; [done|]. cbn [inserted_nodes]. rewrite left_over_cons.
  rewrite IH by (intros j y Hj; rewrite Nat.add_succ_l, <- Nat.add_succ_r; by apply (H (S j))).
  specialize (H 0%nat x eq_refl). rewrite Nat.add_0_r in H. assert (node_Hash x ∉ (∅ : gset Hash)) by apply not_elem_of_empty.
  case_bool_decide; case_decide; try done; tauto.
Qed.

Lemma aside_current s s' : aside s s' → stp_currentTxMap s' = stp_currentTxMap s.
Proof. intros [Ea _]. unfold settings_of in Ea. congruence. Qed.

Lemma own_sequentially_eq src m rml coinbase skip nodes txs s :
  let new := left_over (stp_removeMap s) ∅ ∅ nodes in
  assembled txs s → running s → src ≠ stp_currentTxMap s → map_at src s = m → marks_counted rml (stp_removeMap s) →
  NoDup (real_hashes nodes) → NoDup (map node_Hash (txs ++ new)) → sourced m new → (∀ h, coinbase = Some h → h ∉ real_hashes nodes) →
  ∃ s', own_sequentially src rml coinbase skip nodes s = (Ok tt, s') ∧ assembled (txs ++ new) s' ∧ running s' ∧
    stp_queue s' = stp_queue s ∧ aside s s' ∧ fewer nodes (stp_removeMap s) (stp_removeMap s').
Proof.
  revert txs s. induction nodes as [|x nodes IH]; intros txs s new H Hr Hsrc Hm Hmk Hnr Hnd Hs Hc; subst new; cbn [own_sequentially].
  { exists s. rewrite app_nil_r. split_and!; [done..|apply fewer_refl]. }
  rewrite real_hashes_cons in Hnr. rewrite left_over_cons in Hnd, Hs |- *. case_bool_decide as Ex.
  { assert (¬ real x) as Hx by (unfold real; tauto). rewrite decide_False in Hnr by done.
    rewrite decide_False in Hnd, Hs by tauto. rewrite decide_False by tauto. cbn [orb].
    destruct (IH txs s) as (s' & E & A1 & A2 & A3 & A4 & A5); [done..| |].
    { intros h Hh Hin. apply (Hc h Hh). rewrite real_hashes_cons, decide_False by done. done. }
    exists s'. split_and!; [done..|by apply fewer_cons]. }
  assert (real x) as Hx by done. rewrite decide_True in Hnr by done. apply NoDup_cons in Hnr as [Hxn Hnr].
  assert (bool_decide (coinbase = Some (node_Hash x)) = false) as ->.
  { apply bool_decide_eq_false_2. intros E. apply (Hc _ E). rewrite real_hashes_cons, decide_True by done. left. }
  assert (∀ h, coinbase = Some h → h ∉ real_hashes nodes) as Hc'.
  { intros h Hh Hin. apply (Hc h Hh). rewrite real_hashes_cons, decide_True by done. by right. }
  cbn [orb]. unfold bindM at 1, readM at 1. rewrite (marked_eq _ _ _ Hmk). unfold bindM at 1. case_bool_decide as Er.
  - rewrite decide_False in Hnd, Hs by tauto. rewrite decide_False by tauto. unfold writeM at 1. set (s1 := set_removeMap _ s).
    assert (left_over (stp_removeMap s1) ∅ ∅ nodes = left_over (stp_removeMap s) ∅ ∅ nodes) as El by by apply left_over_ext, unmark_ext.
    destruct (IH txs s1) as (s' & E & A1 & A2 & A3 & A4 & A5); rewrite ?El; [|exact Hr|exact Hsrc|exact Hm| |done..|].
    { by apply (assembled_same n txs s). } { cbn. eapply marks_counted_sub; [done|set_solver]. }
    rewrite El in A1. exists s'. split_and!; [done..|etrans; [|exact A4]; by split|by apply fewer_mark].
  - assert (real x ∧ node_Hash x ∉ stp_removeMap s ∧ node_Hash x ∉ (∅ : gset Hash) ∧ node_Hash x ∉ (∅ : gset Hash)) as Hcond
      by (split_and!; [done|done|apply not_elem_of_empty..]).
    rewrite decide_True in Hnd, Hs by done. rewrite decide_True by done. apply sourced_cons in Hs as [[i Ei] Hs]. apply NoDup_step in Hnd as [Hn Hnd].
    unfold bindM at 1, readM at 1. rewrite Hm, Ei. unfold wrapM.
    destruct (addNode_new txs x i skip s) as (s1 & -> & H1 & Hr1 & Hq1 & Ha1 & Hm1); [done..|]. cbn [wrapR].
    destruct (IH (txs ++ [x]) s1) as (s' & E & A1 & A2 & A3 & A4 & A5); rewrite ?Hm1; [done|done| |  |done..|].
    { by rewrite (aside_current _ _ Ha1). } { by rewrite (as_maps _ _ Ha1). }
    rewrite Hm1, <- (assoc_L (++)) in A1. rewrite Hm1 in A5. exists s'. split_and!; [done..|congruence|by etrans|by apply fewer_cons].
Qed.

Lemma forM_ext {A} (f g : A → M (I := I) unit) l s : (∀ a s, a ∈ l → f a s = g a s) → forM f l s = forM g l s.
Proof.
  revert s. induction l as [|a l IH]; intros s H; [done|]. cbn [forM]. unfold bindM. rewrite H by left.
  destruct (g a s) as [[[]|e] s1]; [|done]. apply IH. intros b t Hb. apply H. by right.
Qed.

Lemma forM_wrap {A} c (f : A → M (I := I) unit) l s s' : forM f l s = (Ok tt, s') → forM (λ a, wrapM c (f a)) l s = (Ok tt, s').
Proof.
  revert s. induction l as [|a l IH]; intros s; [done|]. cbn [forM]. unfold bindM, wrapM. destruct (f a s) as [[[]|e] s1]; [|done]. apply IH.
Qed.

Lemma own_subtree_eq order src m rml coinbase skip nodes txs s :
  let new := left_over (stp_removeMap s) ∅ ∅ nodes in
  assembled txs s → running s → src ≠ stp_currentTxMap s → map_at src s = m → marks_counted rml (stp_removeMap s) →
  NoDup (real_hashes nodes) → NoDup (map node_Hash (txs ++ new)) → sourced m new → (∀ h, coinbase = Some h → h ∉ real_hashes nodes) →
  all_bucketed order nodes →
  ∃ s', processOwnBlockSubtreeNodes BucketFor ParallelSetIfNotExistsThreshold order src rml coinbase skip nodes s = (Ok tt, s') ∧
    assembled (txs ++ new) s' ∧ running s' ∧
    stp_queue s' = stp_queue s ∧ aside s s' ∧ fewer nodes (stp_removeMap s) (stp_removeMap s').
Proof.
  intros new H Hr Hsrc Hm Hmk Hnr Hnd Hs Hc Hb. unfold processOwnBlockSubtreeNodes. destruct (_ <=? _); [|by eapply own_sequentially_eq].
  assert (Forall real new) as Hx by apply left_over_real.
  assert (∀ x, x ∈ new → x ∈ nodes) as Hin by (intros x; by intros [_ ?]%list_elem_of_filter).
  assert (NoDup (map node_Hash new) ∧ ∀ h, h ∈ map node_Hash new → current_map s !! h = None) as [Hnd2 Hfresh].
  { rewrite map_app in Hnd. apply NoDup_app in Hnd as (_ & Hd & Hn). split; [done|]. intros h Hh. apply eq_None_not_Some.
    rewrite (lo_map _ _ _ (am_loose _ _ _ H)). intros Hi. by apply (Hd h Hi). }
  destruct (prefilter_eq rml 0 nodes s Hmk Hnr) as (R' & Ep & Hf). set (s0 := set_removeMap R' s) in *.
  destruct (run_buckets_eq src m (kept_items (stp_removeMap s) 0 nodes) order s0) as (ins & s1 & E1 & Ha1 & Ho1 & Hr1 & Hi & Hcm); [done|done| | |].
  { by rewrite kept_items_hashes. }
  { intros k h (j & x & Hj & _ & <- & Hxr & Hxm)%elem_of_kept_items. apply (Hs x). apply list_elem_of_filter.
    split_and!; [done|done|apply not_elem_of_empty..|by eapply list_elem_of_lookup_2]. }
  assert (inserted_nodes ins 0 nodes = new) as Eins.
  { apply inserted_kept. intros j x Hj. cbn [Nat.add]. assert (x ∈ nodes) as Hxn by by eapply list_elem_of_lookup_2. rewrite Hi. split.
    - intros (h & (j' & y & Hj' & -> & <- & ? & ?)%elem_of_kept_items & _). cbn in Hj. rewrite Hj' in Hj. by injection Hj as ->.
    - intros [Hxr Hxm]. exists (node_Hash x). split_and!; [apply elem_of_kept_items; eauto 7|by apply Hb|].
      apply (Hfresh (node_Hash x)). apply list_elem_of_fmap. exists x. split; [done|]. apply list_elem_of_filter.
      split_and!; [done|done|apply not_elem_of_empty..|done]. }
  assert (∀ x, x ∈ new → current_map s1 !! node_Hash x = m !! node_Hash x) as Hnew.
  { intros x Hxin. rewrite Hcm. change (current_map s0) with (current_map s). assert (node_Hash x ∈ map node_Hash new) as Hh by (apply list_elem_of_fmap; by exists x).
    rewrite Hfresh by done. rewrite bool_decide_true; [done|]. rewrite kept_items_hashes. split; [done|]. by apply Hb, Hin. }
  assert (laid n (placeholder_node :: txs) s1) as Hl1.
  { injection Ho1 as O1 O2 _ _ _. destruct (am_laid _ _ _ H). split; [by rewrite O1|by rewrite O2]. }
  assert (running s1) as Hrun1 by (injection Ho1 as _ _ _ O4 _; unfold running; by rewrite O4).
  destruct (forM (λ x, addNodePreValidated x skip) new s1) as [r s'] eqn:E.
  destruct (forM_laid n new _ skip s1 r s' Hl1 Hx E) as (Hff & Hl & Hrun). destruct (Hrun Hrun1) as [-> Hr'].
  exists s'. split.
  { unfold bindM at 1, wrapM at 1. unfold parallelGetAndSetIfNotExists, bindM at 1. rewrite Ep, E1. cbn [wrapR]. rewrite Eins.
    rewrite (forM_ext _ (λ node, wrapM ERR_PROCESSING (addNodePreValidated node skip))); [by apply forM_wrap|].
    intros x t Hxin. rewrite bool_decide_false; [done|]. intros Ec. apply (Hc _ Ec). apply list_elem_of_fmap. exists x. split; [done|].
    apply list_elem_of_filter. split; [by apply (proj1 (Forall_forall _ _) Hx)|by apply Hin]. }
  split_and!; [|done| | |].
  - eapply (assembled_append new txs s s1); [exact H|done..| | |by apply Hl|by apply frame_map].
    + intros x Hxin. rewrite Hnew by done. by apply Hs.
    + intros h Hh. rewrite Hcm. change (current_map s0) with (current_map s). destruct (current_map s !! h); [done|].
      rewrite bool_decide_false; [done|]. rewrite kept_items_hashes. fold new. tauto.
  - rewrite (frame_queue _ _ Hff). by injection Ho1 as _ _ -> _ _.
  - assert (aside s1 s') as Ha2.
    { pose proof (owned_forM (λ x, addNodePreValidated x skip) new (λ a, owned_addPreValidated a skip) s1) as Hw. by rewrite E in Hw. }
    etrans; [|exact Ha2]. etrans; [|exact Ha1]. by split.
  - rewrite (frame_marks _ _ Hff), Hr1. exact Hf.
Qed.

Lemma fewer_ext l1 l2 R R' : fewer l1 R R' → NoDup (real_hashes (l1 ++ l2)) → left_over R' ∅ ∅ l2 = left_over R ∅ ∅ l2.
Proof.
  intros [H1 H2] Hnd. apply left_over_ext. intros h Hh. unfold real_hashes in Hnd. rewrite filter_app, map_app in Hnd.
  apply NoDup_app in Hnd as (_ & Hd & _). split; [apply H1|]. intros Hin. apply H2; [|done]. intros Hh1. by apply (Hd h).
Qed.

Lemma real_hashes_NoDup_app l1 l2 : NoDup (real_hashes (l1 ++ l2)) → NoDup (real_hashes l1) ∧ NoDup (real_hashes l2).
Proof. unfold real_hashes. rewrite filter_app, map_app. intros (? & _ & ?)%NoDup_app. done. Qed.

Lemma own_chained_eq order src m rml skip sts txs s :
  let nodes := concat (map st_Nodes sts) in let new := left_over (stp_removeMap s) ∅ ∅ nodes in
  assembled txs s → running s → src ≠ stp_currentTxMap s → map_at src s = m → marks_counted rml (stp_removeMap s) →
  NoDup (real_hashes nodes) → NoDup (map node_Hash (txs ++ new)) → sourced m new → all_bucketed order nodes →
  ∃ s', forM (λ st, processOwnBlockSubtreeNodes BucketFor ParallelSetIfNotExistsThreshold order src rml None skip (st_Nodes st)) sts s = (Ok tt, s') ∧
    assembled (txs ++ new) s' ∧ running s' ∧
    stp_queue s' = stp_queue s ∧ aside s s' ∧ fewer nodes (stp_removeMap s) (stp_removeMap s').
Proof.
  revert txs s. induction sts as [|st sts IH]; intros txs s nodes new H Hr Hsrc Hm Hmk Hnr Hnd Hs Hb; subst nodes new; cbn [map concat forM] in *.
  { exists s. rewrite app_nil_r. split_and!; [done..|apply fewer_refl]. }
  destruct (real_hashes_NoDup_app _ _ Hnr) as [Hnr1 Hnr2]. rewrite left_over_app in Hnd, Hs |- *. rewrite (assoc_L (++)) in Hnd.
  assert (NoDup (map node_Hash (txs ++ left_over (stp_removeMap s) ∅ ∅ (st_Nodes st)))) as Hnd1.
  { rewrite map_app in Hnd. by apply NoDup_app in Hnd as [? _]. }
  destruct (own_subtree_eq order src m rml None skip (st_Nodes st) txs s) as (s1 & E1 & A1 & A2 & A3 & A4 & A5); try done.
  { intros x Hx. apply Hs. apply elem_of_app. by left. }
  { intros x Hx. apply Hb. apply elem_of_app. by left. }
  pose proof (fewer_ext _ _ _ _ A5 Hnr) as El.
  destruct (IH (txs ++ left_over (stp_removeMap s) ∅ ∅ (st_Nodes st)) s1) as (s' & E2 & B1 & B2 & B3 & B4 & B5); rewrite ?El; try done.
  { by rewrite (aside_current _ _ A4). }
  { by rewrite (as_maps _ _ A4). }
  { eapply marks_counted_sub; [done|apply A5]. }
  { intros x Hx. apply Hs. apply elem_of_app. by right. }
  { intros x Hx. apply Hb. apply elem_of_app. by right. }
  rewrite El in B1. exists s'. unfold bindM at 1. rewrite E1, (assoc_L (++)). split_and!; [done..|congruence|by etrans|by eapply fewer_trans].
Qed.

Lemma own_nodes_eq order (block : AssembledBlock) chained cur src skip s :
  let nodes := concat (map st_Nodes (chained ++ [cur])) in let new := left_over (stp_removeMap s) ∅ ∅ nodes in
  assembled [] s → running s → src ≠ stp_currentTxMap s →
  NoDup (real_hashes nodes) → sourced (map_at src s) new → all_bucketed order nodes → ab_CoinbaseTx block ∉ real_hashes nodes →
  ∃ s', processOwnBlockNodes BucketFor ParallelSetIfNotExistsThreshold order block chained cur src skip s = (Ok tt, s') ∧
    assembled new s' ∧ running s' ∧ stp_queue s' = stp_queue s ∧ aside s s'.
Proof.
  intros nodes new H Hr Hsrc Hnr Hs Hb Hcb. subst nodes new. rewrite map_app, concat_app in *. cbn [map concat] in *. rewrite app_nil_r in *.
  assert (marks_counted (Z.of_nat (size (stp_removeMap s))) (stp_removeMap s)) as Hmk.
  { intros E. apply leibniz_equiv, size_empty_inv. destruct (Z.gtb_spec (Z.of_nat (size (stp_removeMap s))) 0); [done|lia]. }
  destruct (real_hashes_NoDup_app _ _ Hnr) as [Hnr1 Hnr2]. rewrite left_over_app in *.
  assert (NoDup (map node_Hash (left_over (stp_removeMap s) ∅ ∅ (concat (map st_Nodes chained)) ++ left_over (stp_removeMap s) ∅ ∅ (st_Nodes cur)))) as Hnd.
  { rewrite <- left_over_app. eapply sublist_NoDup; [exact Hnr|]. apply fmap_sublist, left_over_sub. }
  destruct (own_chained_eq order src (map_at src s) (Z.of_nat (size (stp_removeMap s))) skip chained [] s) as (s1 & E1 & A1 & A2 & A3 & A4 & A5); try done.
  { rewrite map_app in Hnd. by apply NoDup_app in Hnd as [? _]. }
  { intros x Hx. apply Hs. apply elem_of_app. by left. }
  { intros x Hx. apply Hb. apply elem_of_app. by left. }
  pose proof (fewer_ext _ _ _ _ A5 Hnr) as El.
  destruct (own_subtree_eq order src (map_at src s) (Z.of_nat (size (stp_removeMap s))) (Some (ab_CoinbaseTx block)) skip (st_Nodes cur)
    (left_over (stp_removeMap s) ∅ ∅ (concat (map st_Nodes chained))) s1) as (s2 & E2 & B1 & B2 & B3 & B4 & _); rewrite ?El; try done.
  { by rewrite (aside_current _ _ A4). }
  { by rewrite (as_maps _ _ A4). }
  { eapply marks_counted_sub; [done|apply A5]. }
  { intros x Hx. apply Hs. apply elem_of_app. by right. }
  { intros h [= <-] Hin. apply Hcb. unfold real_hashes. rewrite filter_app, map_app. apply elem_of_app. by right. }
  { intros x Hx. apply Hb. apply elem_of_app. by right. }
  rewrite El in B1. exists s2. unfold processOwnBlockNodes, bindM, readM. rewrite E1, E2. split_and!; [done..|congruence|by etrans].
Qed.

(** ** Forward *)
  Context (subtreeStore : Hash → stored).

Lemma split_own_sublist m sts m' own : split_own m sts = Some (m', own) → own `sublist_of` sts.
Proof.
  revert m m' own. induction sts as [|st sts IH]; intros m m' own; cbn [split_own]; [intros [= _ <-]; constructor|].
  destruct (RootHash st) as [id|]; [|done]. destruct (m !! id); [intros E; constructor; by eapply IH|].
  destruct (split_own m sts) as [[m1 own1]|] eqn:E; [|done]. intros [= _ <-]. constructor. by eapply IH.
Qed.

Lemma concat_sublist {A} (ls1 ls2 : list (list A)) : ls1 `sublist_of` ls2 → concat ls1 `sublist_of` concat ls2.
Proof. induction 1; cbn [concat]; [constructor|by apply sublist_app|by apply sublist_inserts_l]. Qed.

Lemma parents_first_sublist held l1 l2 : l1 `sublist_of` l2 → parents_first held l2 → parents_first held l1.
Proof.
  induction 1 as [|x l1 l2 Hs IH|x l1 l2 Hs IH]; [done| |by intros [_ ?]; auto]. intros [H1 H2]. split; [|auto].
  intros i p Hi Hp Hin. apply (H1 i p Hi Hp). cbn [map] in *. apply elem_of_cons in Hin as [->|Hin]; [left|right].
  eapply elem_of_sublist; [exact Hin|]. by apply fmap_sublist.
Qed.

(** The nodes the new subtrees are filled from. *)
Definition staying (own : list SubtreeData) (cur : SubtreeData) : list Node := concat (map st_Nodes (own ++ [cur])).

Lemma staying_sublist txs s m m' own cur : assembled txs s → split_own m (stp_chainedSubtrees s) = Some (m', own) →
  stp_currentSubtree s = Some cur → staying own cur `sublist_of` placeholder_node :: txs.
Proof.
  intros H E Ec. unfold staying. rewrite <- (laid_nodes n _ _ (am_laid _ _ _ H)). unfold all_nodes. rewrite Ec, map_app, concat_app.
  cbn [map concat]. rewrite app_nil_r. apply sublist_app; [|done]. apply concat_sublist, fmap_sublist. by eapply split_own_sublist.
Qed.

Lemma filter_real_placeholder txs : Forall real txs → filter real (placeholder_node :: txs) = txs.
Proof. intros H. rewrite filter_cons_False by (unfold real; cbn; tauto). by apply filter_real. Qed.

Lemma sublist_filter_real l txs : l `sublist_of` placeholder_node :: txs → Forall real txs → filter real l `sublist_of` txs.
Proof.
  intros Hs Hx. rewrite <- (filter_real_placeholder txs Hx). clear Hx. induction Hs as [|x l1 l2 Hs IH|x l1 l2 Hs IH]; [constructor| |];
    rewrite !filter_cons; case_decide; try done; by constructor.
Qed.

Record staying_ok txs (nodes : list Node) : Prop := {
  st_sub R T L : left_over R T L nodes `sublist_of` txs;
  st_distinct : NoDup (real_hashes nodes);
  st_in x : x ∈ nodes → real x → x ∈ txs;
}.

Lemma staying_facts txs s m m' own cur : assembled txs s → split_own m (stp_chainedSubtrees s) = Some (m', own) →
  stp_currentSubtree s = Some cur → staying_ok txs (staying own cur).
Proof.
  intros H E Ec. pose proof (sublist_filter_real _ txs (staying_sublist _ _ _ _ _ _ H E Ec) (lo_real _ _ _ (am_loose _ _ _ H))) as Hs. split.
  - intros R T L. etrans; [apply left_over_sub|exact Hs].
  - eapply sublist_NoDup; [apply (lo_once _ _ _ (am_loose _ _ _ H))|]. by apply fmap_sublist.
  - intros x Hx Hr. eapply elem_of_sublist; [|exact Hs]. by apply list_elem_of_filter.
Qed.

(** What a move must leave in place when it fails: the maps, the queue, the context. *)
Record undoable s s' : Prop := {
  un_settings : settings_of s' = settings_of s;
  un_map : current_map s' = current_map s;
  un_shadow : map_at (stp_currentTxMapShadow s') s' = ∅;
  un_rest : (stp_queue s', stp_ctx s') = (stp_queue s, stp_ctx s);
}.

Lemma sound_undoable txs s : sound txs s → undoable s s.
Proof. intros H. split; try done. apply H. Qed.

Lemma swapped_back txs s s1 s2 : sound txs s → swapped s s1 → aside s1 s2 → stp_queue s2 = stp_queue s1 → running s2 →
  undoable s (swapCurrentTxMapBack s2).
Proof.
  intros H Hw Ha Hq Hr. destruct (swapped_aside s s1 s2 Hw Ha) as (E1 & E2 & E3 & E4 & E5 & E6); [apply not_eq_sym, H|].
  unfold swapCurrentTxMapBack. rewrite E4. pose proof (so_two _ _ H) as Hne. pose proof (so_running _ _ H) as Hrun. split.
  - unfold settings_of. cbn. rewrite E1, E2, E4, E5, E6. by rewrite (so_pool _ _ H).
  - unfold current_map, map_at at 1. cbn. rewrite E1, E2. rewrite lookup_insert_ne by done. exact E3.
  - unfold map_at. cbn. by rewrite E1, lookup_insert_eq.
  - cbn. rewrite Hq, Hr, Hrun. f_equal. pose proof (sw_rest _ _ Hw) as W. by injection W.
Qed.

Lemma rollback_header s s' : stp_currentBlockHeader (rollback s s') = stp_currentBlockHeader s.
Proof. unfold rollback, setTxCountFromSubtrees. by destruct (stp_currentSubtree _). Qed.

Lemma rollback_queue s s' : stp_queue (rollback s s') = stp_queue s'.
Proof.
  unfold rollback, setTxCountFromSubtrees. set (t := set_currentSubtree _ (set_chainedSubtrees _ s')).
  assert (stp_queue (restoreCurrentTxMap (stp_currentTxMap s) t) = stp_queue s') as E.
  { unfold restoreCurrentTxMap, swapCurrentTxMapBack. case_bool_decide; [done|]. by destruct (stp_disableCurrentTxMapPool t). }
  destruct (stp_currentSubtree (set_currentBlockHeader _ _)); exact E.
Qed.

Lemma rollback_map s s' : undoable s s' → current_map (rollback s s') = current_map s.
Proof.
  intros [Eu Em _ _]. assert (stp_currentTxMap s' = stp_currentTxMap s) as E1 by (unfold settings_of in Eu; congruence).
  unfold rollback, setTxCountFromSubtrees. set (t := set_currentSubtree _ (set_chainedSubtrees _ s')).
  assert (restoreCurrentTxMap (stp_currentTxMap s) t = t) as -> by (unfold restoreCurrentTxMap; by rewrite bool_decide_true by exact E1).
  destruct (stp_currentSubtree (set_currentBlockHeader _ _)); exact Em.
Qed.

Lemma rollback_sound txs s s' : sound txs s → undoable s s' → sound txs (rollback s s').
Proof.
  intros H [Eu Em Es Er]. unfold settings_of in Eu. injection Eu as E1 E2 E3 E4 E5. injection Er as Er1 Er2. unfold rollback.
  set (t := set_currentSubtree _ (set_chainedSubtrees _ s')). assert (restoreCurrentTxMap (stp_currentTxMap s) t = t) as ->.
  { unfold restoreCurrentTxMap. by rewrite bool_decide_true by exact E1. }
  unfold setTxCountFromSubtrees. set (u := set_currentBlockHeader _ t).
  assert (stp_currentSubtree u = stp_currentSubtree s) as Ec by done. rewrite Ec. rewrite (proj2 (am_laid _ _ _ (so_assembled _ _ H))). cbn [snd].
  split; [|exact (eq_trans Er2 (so_running _ _ H))|cbn; rewrite Er1; apply H|cbn; rewrite E3; apply H|cbn; rewrite E1, E2; apply H|exact Es|cbn; rewrite E4; apply H].
  by apply (assembled_same n txs s); [apply H|..].
Qed.

Definition kept_of (held : gmap Hash (option I)) (R : gset Hash) (T : option (gset Hash)) (L C : gset Hash) nodes
  : result (list Node * gset Hash) :=
  if foreign T then drop_conflicting held (left_over R (default ∅ T) L nodes) C else Ok (left_over R ∅ ∅ nodes, C).

Lemma kept_of_grown held R T L C nodes kept C' : kept_of held R T L C nodes = Ok (kept, C') → grown (spent_in held) C C'.
Proof.
  unfold kept_of, drop_conflicting. destruct (foreign T); [|intros [= _ <-]; apply grown_refl].
  case_bool_decide; [intros [= _ <-]; apply grown_refl|]. apply drop_grown.
Qed.

Lemma remainder_and_dequeue_eq p block own cur T L C src txs s :
  fw_deferDrain p = true → assembled [] s → running s → src ≠ stp_currentTxMap s → sourced (map_at src s) txs →
  NoDup (map node_Hash txs) → staying_ok txs (staying own cur) → all_bucketed (fw_order p) txs → ab_CoinbaseTx block ∉ map node_Hash txs →
  all_bucketed (fw_order p) [placeholder_node] →
  ∃ kept C' s', kept_of (map_at src s) (stp_removeMap s) T L C (staying own cur) = Ok (kept, C') ∧
    processRemainderTransactionsAndDequeue BucketFor ParallelSetIfNotExistsThreshold p block own cur T L C src s = (Ok C', s') ∧
    assembled kept s' ∧ running s' ∧ stp_queue s' = stp_queue s ∧ aside s s'.
Proof.
  intros Hd H Hr Hsrc Hs Hnd [Hsub Hnr Hin] Hb Hcb Hbp. unfold staying in *. set (nodes := concat (map st_Nodes (own ++ [cur]))) in *.
  assert (∃ kept s', (processOwnBlockNodes BucketFor ParallelSetIfNotExistsThreshold (fw_order p) block own cur src (fw_skipNotification p) ;! retM C) s = (Ok C, s') ∧
    kept = left_over (stp_removeMap s) ∅ ∅ nodes ∧ assembled kept s' ∧ running s' ∧ stp_queue s' = stp_queue s ∧ aside s s') as Hown.
  { destruct (own_nodes_eq (fw_order p) block own cur src (fw_skipNotification p) s) as (s' & E & A1 & A2 & A3 & A4); try done.
    - eapply sourced_sublist; [apply Hsub|done].
    - intros x Hx. destruct (decide (real x)) as [Hxr|Hxr]; [apply Hb; by apply Hin|]. unfold real in Hxr.
      assert (node_Hash x = node_Hash placeholder_node) as -> by (by apply dec_stable). apply Hbp. left.
    - intros Hc. apply Hcb. apply list_elem_of_fmap in Hc as (x & -> & [Hx1 Hx2]%list_elem_of_filter). apply list_elem_of_fmap. exists x. auto.
    - eexists _, s'. split_and!; [|reflexivity|done..]. unfold bindM. by rewrite E. }
  unfold processRemainderTransactionsAndDequeue, kept_of, foreign. destruct T as [T|].
  2:{ destruct Hown as (kept & s' & E & -> & ?). eexists _, C, s'. split; [reflexivity|]. done. }
  case_bool_decide as ET; cbn [negb].
  { destruct Hown as (kept & s' & E & -> & ?). eexists _, C, s'. split; [reflexivity|]. done. }
  destruct (processRemainder_eq (fw_order p) (own ++ [cur]) T L C src (fw_skipNotification p) s) as (kept & C' & s' & Ed & E & A); try done.
  { eapply sourced_sublist; [apply Hsub|done]. }
  { eapply sublist_NoDup; [exact Hnd|]. apply fmap_sublist, Hsub. }
  { intros x Hx. apply Hb. eapply elem_of_sublist; [exact Hx|apply Hsub]. }
  exists kept, C', s'. split; [exact Ed|]. split; [|exact A]. unfold bindM at 1, wrapM at 1. rewrite E. cbn [wrapR].
  by rewrite Hd, orb_true_r.
Qed.

(** What one block is given: an order of the buckets that has them all, and a coinbase of its own. *)
Record fits (p : forward_params (I := I)) (block : AssembledBlock) txs : Prop := {
  ft_defer : fw_deferDrain p = true;
  ft_sized : fw_createProperlySizedSubtrees p = true;
  ft_order : all_bucketed (fw_order p) txs;
  ft_order_placeholder : all_bucketed (fw_order p) [placeholder_node];
  ft_coinbase : ab_CoinbaseTx block ∉ map node_Hash txs;
}.

(** What a block with subtrees leaves, and what it leaves to the drain. *)
Inductive applied answers (p : forward_params (I := I)) (block : AssembledBlock) s (d : deferredBlockDrain) (kept : list Node) : Prop :=
  mkApplied m own cur conflicting T L C C' :
    split_own (subtree_indexes 0 (ab_Subtrees block) ∅) (stp_chainedSubtrees s) = Some (m, own) →
    stp_currentSubtree s = Some cur →
    createTransactionMapIfNeeded subtreeStore answers block m = Ok (T, conflicting) →
    processConflictingTransactions answers (fw_processed p) (fw_cascaded p) conflicting = Ok (L, C) →
    kept_of (current_map s) (stp_removeMap s) T L C (staying own cur) = Ok (kept, C') →
    d = mkDeferred (foreign T) (default ∅ T) L C' →
    applied answers p block s d kept.

(** What is in place once the block is applied. *)
Record handed (txs : list Node) s s' : Prop := {
  hd_assembled : assembled txs s';
  hd_running : running s';
  hd_queue : stp_queue s' = stp_queue s;
  hd_maps : stp_currentTxMap s' = stp_currentTxMapShadow s ∧ stp_currentTxMapShadow s' = stp_currentTxMap s;
  hd_pool : stp_disableCurrentTxMapPool s' = false;
  hd_size : stp_currentItemsPerFile s' = stp_currentItemsPerFile s;
}.

Lemma moveForward_eq answers p block txs s : sound txs s → fits p block txs →
  match moveForwardBlockDeferringDrain BucketFor ParallelSetIfNotExistsThreshold subtreeStore answers p block s with
  | (Err _, s') => undoable s s'
  | (Ok (T, L, drain), s') =>
      stp_currentBlockHeader s = Some (ab_HashPrevBlock block) ∧
      if decide (ab_Subtrees block = []) then s' = s ∧ drain = None
      else ∃ kept d, drain = Some d ∧ applied answers p block s d kept ∧ handed kept s s'
  end.
Proof.
  intros H [Hd Hsz Hb Hbp Hcb]. pose proof (sound_undoable _ _ H) as Hu. unfold moveForwardBlockDeferringDrain.
  unfold bindM at 1, readM at 1. destruct (stp_currentBlockHeader s) as [header|]; [|exact Hu].
  case_bool_decide as Eh; cbn [negb]; [|exact Hu]. subst header. case_bool_decide as Esub.
  { unfold bindM, liftM. destruct (ba_coinbase answers) as [[]|]; [|exact Hu]. split; [done|]. by rewrite decide_True. }
  unfold bindM at 1, processBlockSubtrees.
  destruct (split_own _ _) as [[m own]|] eqn:Esp; [|exact Hu]. unfold bindM at 1, liftM at 1.
  destruct (createTransactionMapIfNeeded subtreeStore answers block m) as [[T cn]|] eqn:Em; [|exact Hu].
  unfold bindM at 1, liftM at 1. destruct (processConflictingTransactions answers _ _ cn) as [[L C]|] eqn:Ec; [|exact Hu].
  pose proof (so_assembled _ _ H) as Ha. destruct (am_laid _ _ _ Ha) as [_ Ecur].
  unfold bindM at 1, currentM at 1. rewrite Ecur. set (cur := tree n (rest n (placeholder_node :: txs))) in *.
  unfold bindM at 1, readM at 1. unfold bindM at 1, wrapM at 1. rewrite Hsz.
  destruct (reset_eq txs s H) as (s1 & -> & Ha1 & Hw). cbn [wrapR].
  pose proof (sw_rest _ _ Hw) as W. injection W as W1 W2 W3 W4 W5.
  assert (running s1) as Hr1 by (unfold running; rewrite W4; apply H).
  destruct (remainder_and_dequeue_eq p block own cur T L C (stp_currentTxMap s) txs s1) as (kept & C' & s2 & Ek & E & A1 & A2 & A3 & A4); try done.
  { rewrite (sw_current _ _ Hw). apply not_eq_sym, H. }
  { rewrite (sw_source _ _ Hw). by apply loose_sourced, Ha. }
  { apply Ha. }
  { by eapply staying_facts. }
  unfold onErrorM. unfold bindM at 1. rewrite E. unfold bindM at 1, liftM at 1. destruct (ba_coinbase answers) as [[]|e]; cbn [wrapR].
  2:{ by eapply swapped_back. }
  rewrite Hd. unfold retM. split; [done|]. rewrite decide_False by done. eexists kept, _. split; [reflexivity|]. rewrite (sw_source _ _ Hw), W5 in Ek. split.
  - by econstructor.
  - destruct (swapped_aside s s1 s2 Hw A4) as (E1 & E2 & _ & E4 & E5 & _); [apply not_eq_sym, H|]. split; try done. congruence.
Qed.
End Movement.
