(* ===== verification/MovementDrain.v ===== *)
(** * The queue after a block

    Draining what waits in the queue, one transaction at a time or in chunks filled in
    parallel: every loop ends, what is taken is neither in the block nor conflicting,
    and a whole block is applied, or undone, with the processor sound. *)

From S2P Require Import Prelude External Merkle GoSubtree BodyBinding Queue Assembly AssemblyTheorems AssemblyOwned AssemblyReach Movement MovementTheorems.

#[local] Opaque u64 i32.

Section Drain.
  Context {I : Type} {TI : TxInpointsOps I}.
  Context {CH : Chainhash} {SUB : Subtree} {GS : GoSubtree} {AS : AssemblySubtree} {ASP : AssemblySubtreeSpec AS}.
  Implicit Types (s : SubtreeProcessor I) (txs : list Node).
  Context (n : nat) {LN : LeafCount n}.

(** ** The loop *)
Section Loop.
  Context {X : Type} (fn : list (TxBatch (option I)) → X → M (I := I) X) (maxItems v queueLength : Z).

(** Every turn takes a batch: more fuel than batches changes nothing. *)
Lemma drain_loop_fuel fuel more arrivals processed chunk x s :
  (∀ c y t, stp_queue (fn c y t).2 = stp_queue t) →
  (length (stp_queue s) + length (concat arrivals) < fuel)%nat →
  drain_loop fn maxItems v queueLength fuel arrivals processed chunk x s =
  drain_loop fn maxItems v queueLength (fuel + more) arrivals processed chunk x s.
Proof.
  intros Hfn. revert arrivals processed chunk x s. induction fuel as [|fuel IH]; intros arrivals processed chunk x s Hf; [lia|].
  cbn [drain_loop Nat.add]. destruct (_ <? _); [|done]. unfold bindM at 1 4, writeM at 1 2.
  set (s1 := set_queue _ s). unfold bindM at 1 3, dequeueBatch at 1 2.
  assert (length (stp_queue s1) + length (concat (tail arrivals)) = length (stp_queue s) + length (concat arrivals))%nat as El.
  { destruct arrivals as [|a arrivals]; cbn; rewrite length_app; cbn; [done|rewrite length_app; lia]. }
  destruct (stp_queue s1) as [|b q] eqn:Eq; [done|]. destruct (_ && _); [done|].
  cbn [length] in El. destruct (_ >=? _).
  - unfold bindM. pose proof (Hfn (chunk ++ [b]) x (set_queue q s1)) as Hq. destruct (fn (chunk ++ [b]) x (set_queue q s1)) as [[y|e] s2]; [|done].
    cbn in Hq. apply IH. rewrite Hq. lia.
  - apply IH. cbn. lia.
Qed.

(** An invariant of the loop, with the batches taken so far. *)
Context (Q : list (TxBatch (option I)) → X → SubtreeProcessor I → Prop).
Hypothesis Q_queue : ∀ done x s q, Q done x s → Forall queued_ok (stp_queue s) → Forall queued_ok q → Q done x (set_queue q s).
Hypothesis Q_chunk : ∀ done chunk x s, Q done x s → Forall queued_ok chunk →
  ∃ x' s', fn chunk x s = (Ok x', s') ∧ Q (done ++ chunk) x' s' ∧ stp_queue s' = stp_queue s.

Lemma drain_finish done chunk x s : Q done x s → Forall queued_ok chunk →
  ∃ x' s', (if bool_decide (chunk = []) then retM x else fn chunk x) s = (Ok x', s') ∧ Q (done ++ chunk) x' s' ∧ stp_queue s' = stp_queue s.
Proof.
  intros HQ Hc. case_bool_decide as E; [|by apply Q_chunk]. subst. rewrite app_nil_r. by exists x, s.
Qed.

(** A batch the clock lets through. *)
Definition eligible (b : TxBatch (option I)) : Prop := (v <= 0 ∨ b_time b < v) ∧ b_nodes b ≠ [].

Lemma eligible_taken b : eligible b → ((v >? 0) && (b_time b >=? v))%bool = false.
Proof.
  intros [[Hv|Hv] _]; [destruct (Z.gtb_spec v 0); [lia|done]|]. rewrite Z.geb_leb, (proj2 (Z.leb_gt _ _) Hv). by rewrite andb_false_r.
Qed.

Lemma eligible_items b q : eligible b → Forall eligible q → 0 < queue_items (b :: q) ∧ 0 <= queue_items q.
Proof.
  intros [_ Hb] Hq. assert (0 <= queue_items q) as H by (clear; induction q as [|c q IH]; [done|]; unfold queue_items, batch_items in *; cbn; lia).
  split; [|done]. unfold queue_items, batch_items in *. cbn. destruct (b_nodes b); [done|]. cbn [length]. lia.
Qed.

(** All that waited and may be taken is taken, and at most one batch more than the bound. *)
Definition taken_all processed fuel s (more : list (TxBatch (option I))) : Prop := ∀ waiting rest,
  stp_queue s = waiting ++ rest → Forall eligible waiting → processed + queue_items waiting <= queueLength → (length waiting <= fuel)%nat →
  waiting `prefix_of` more.

Definition bounded processed (more : list (TxBatch (option I))) : Prop :=
  more = [] ∨ ∃ l b, more = l ++ [b] ∧ processed + queue_items l < queueLength.

Lemma bounded_cons processed b more : processed < queueLength → bounded (processed + batch_items b) more → bounded processed (b :: more).
Proof.
  intros Hp [->|(l & c & -> & Hl)]; right; [exists [], b; split; [done|cbn; lia]|]. exists (b :: l), c. split; [done|]. unfold queue_items in *. cbn. lia.
Qed.

Lemma nothing_waits processed fuel s : queueLength <= processed ∨ fuel = 0%nat → taken_all processed fuel s [].
Proof.
  intros Hor waiting rest E Hw Hp Hf. destruct waiting as [|b w]; [done|]. exfalso. apply Forall_cons in Hw as [Hb Hw].
  destruct (eligible_items b w Hb Hw). destruct Hor as [?| ->]; [lia|]. cbn in Hf. lia.
Qed.

Lemma drain_loop_rule fuel arrivals processed taken chunk x s : Q taken x s → Forall queued_ok chunk → Forall queued_ok (stp_queue s) →
  Forall (Forall queued_ok) arrivals →
  ∃ x' s' more k, drain_loop fn maxItems v queueLength fuel arrivals processed chunk x s = (Ok x', s') ∧
    Q (taken ++ chunk ++ more) x' s' ∧ Forall queued_ok (stp_queue s') ∧
    stp_queue s ++ concat (take k arrivals) = more ++ stp_queue s' ∧ taken_all processed fuel s more ∧ bounded processed more.
Proof.
  revert arrivals processed taken chunk x s. induction fuel as [|fuel IH]; intros arrivals processed taken chunk x s HQ Hc Hq Har; cbn [drain_loop].
  { destruct (drain_finish taken chunk x s HQ Hc) as (x' & s' & E & H1 & H2). exists x', s', [], 0%nat.
    rewrite !app_nil_r, H2. split_and!; [done..|apply nothing_waits; by right|by left]. }
  destruct (Z.ltb_spec processed queueLength) as [Hlt|Hge].
  2:{ destruct (drain_finish taken chunk x s HQ Hc) as (x' & s' & E & H1 & H2). exists x', s', [], 0%nat.
      rewrite !app_nil_r, H2. split_and!; [done..|apply nothing_waits; by left|by left]. }
  unfold bindM at 1, writeM at 1. set (s1 := set_queue _ s).
  assert (Forall queued_ok (default [] (head arrivals)) ∧ Forall (Forall queued_ok) (tail arrivals)) as [Ha1 Ha2].
  { destruct Har; split; cbn; by try constructor. }
  assert (Forall queued_ok (stp_queue s1)) as Hq1 by (apply Forall_app; by split).
  assert (Q taken x s1) as HQ1 by by apply Q_queue.
  assert (∃ k1, stp_queue s1 = stp_queue s ++ concat (take k1 arrivals) ∧ ∀ k, ∃ k', concat (take k1 arrivals) ++ concat (take k (tail arrivals)) = concat (take k' arrivals)) as (k1 & Ek1 & Hk).
  { destruct arrivals as [|a arrivals]; [exists 0%nat|exists 1%nat]; cbn.
    - split; [done|]. intros k. exists 0%nat. by destruct k.
    - rewrite take_0. cbn. rewrite app_nil_r. split; [done|]. intros k. exists (S k). done. }
  unfold bindM at 1, dequeueBatch. destruct (stp_queue s1) as [|b q] eqn:Eq.
  { destruct (drain_finish taken chunk x s1 HQ1 Hc) as (x' & s' & E & H1 & H2). exists x', s', [], k1.
    rewrite !app_nil_r, H2, Eq, <- Ek1. split_and!; [done..| |by left]. intros waiting rest E' _ _ _. rewrite E' in Ek1.
    by destruct waiting. }
  destruct (_ && _) eqn:Ev.
  { destruct (drain_finish taken chunk x s1 HQ1 Hc) as (x' & s' & E & H1 & H2). exists x', s', [], k1.
    rewrite app_nil_r, H2, Eq, <- Ek1. split_and!; [done..| |by left]. intros waiting rest E' Hw _ _. rewrite E' in Ek1.
    destruct waiting as [|c w]; [done|]. apply Forall_cons in Hw as [Hw _]. injection Ek1 as <- _. rewrite (eligible_taken _ Hw) in Ev. done. }
  apply Forall_cons in Hq1 as [Hb Hq1].
  assert (Forall queued_ok (chunk ++ [b])) as Hc' by (apply Forall_app; split; [done|by constructor]).
  assert (Q taken x (set_queue q s1)) as HQ2 by (apply Q_queue; [done|rewrite Eq; by constructor|done]).
  assert (∀ more s' t, stp_queue t = q → (∃ k, q ++ concat (take k (tail arrivals)) = more ++ stp_queue s') →
    taken_all (processed + batch_items b) fuel t more → bounded (processed + batch_items b) more →
    (∃ k, stp_queue s ++ concat (take k arrivals) = (b :: more) ++ stp_queue s') ∧ taken_all processed (S fuel) s (b :: more) ∧ bounded processed (b :: more)) as Hfin.
  { intros more s' t Et [k E] Hall Hbd. split_and!; [| |by apply bounded_cons].
    - destruct (Hk k) as [k' E']. exists k'. rewrite <- E', (assoc_L (++)), <- Ek1. cbn. by rewrite E.
    - intros waiting rest E' Hw Hp Hf. rewrite E' in Ek1. destruct waiting as [|c w]; [apply prefix_nil|]. cbn in Ek1. injection Ek1 as <- Eqq.
      apply prefix_cons. apply Forall_cons in Hw as [_ Hw]. apply (Hall w (rest ++ concat (take k1 arrivals))).
      + by rewrite Et, Eqq, (assoc_L (++)).
      + done.
      + unfold queue_items in *. cbn in Hp. lia.
      + cbn in Hf. lia. }
  destruct (queue_items (chunk ++ [b]) >=? maxItems).
  - destruct (Q_chunk taken (chunk ++ [b]) x (set_queue q s1) HQ2 Hc') as (y & s2 & E & H1 & H2). unfold bindM at 1. rewrite E.
    cbn in H2. destruct (IH (tail arrivals) (processed + batch_items b) (taken ++ chunk ++ [b]) [] y s2) as (x' & s' & more & k & E2 & H3 & H4 & H5 & H6 & H7);
      [done|constructor|by rewrite H2|done|]. rewrite H2 in H5.
    destruct (Hfin more s' s2 H2) as ([k' E'] & HA & HB); [by exists k|done|done|]. exists x', s', (b :: more), k'. split_and!; [done| |done..].
    rewrite <- !(assoc_L (++)) in H3. done.
  - destruct (IH (tail arrivals) (processed + batch_items b) taken (chunk ++ [b]) x (set_queue q s1)) as (x' & s' & more & k & E2 & H3 & H4 & H5 & H6 & H7);
      [done..|]. destruct (Hfin more s' (set_queue q s1) eq_refl) as ([k' E'] & HA & HB); [by exists k|done|done|].
    exists x', s', (b :: more), k'. split_and!; [done| |done..].
    rewrite <- (assoc_L (++) chunk) in H3. done.
Qed.
End Loop.

(** What a drain takes of the queue: all that waited and is old enough, and hardly more. *)
Definition takes (run : drain_run (I := I)) s (taken : list (TxBatch (option I))) : Prop :=
  (∀ waiting rest, stp_queue s = waiting ++ rest → Forall (eligible (dr_validFromMillis run)) waiting → waiting `prefix_of` taken) ∧
  bounded (queue_items (stp_queue s) + dr_reserved run) 0 taken.

Lemma queue_items_app q1 q2 : queue_items (I := I) (q1 ++ q2) = queue_items q1 + queue_items q2.
Proof. unfold queue_items. induction q1 as [|b q1 IH]; [done|]. cbn. rewrite IH. lia. Qed.

Lemma queue_items_pos q : 0 <= queue_items (I := I) q.
Proof. unfold queue_items, batch_items. induction q as [|c q IH]; [done|]. cbn. lia. Qed.

Lemma forEachDrainChunk_rule {X} (fn : list (TxBatch (option I)) → X → M (I := I) X) maxItems Q run x s :
  (∀ done x s q, Q done x s → Forall queued_ok (stp_queue s) → Forall queued_ok q → Q done x (set_queue q s)) →
  (∀ done chunk x s, Q done x s → Forall queued_ok chunk →
    ∃ x' s', fn chunk x s = (Ok x', s') ∧ Q (done ++ chunk) x' s' ∧ stp_queue s' = stp_queue s) →
  Q [] x s → Forall queued_ok (stp_queue s) → Forall (Forall queued_ok) (dr_arrivals run) → 0 <= dr_reserved run →
  ∃ x' s' taken k, forEachDrainChunk run maxItems fn x s = (Ok x', s') ∧ Q taken x' s' ∧ Forall queued_ok (stp_queue s') ∧
    stp_queue s ++ concat (take k (dr_arrivals run)) = taken ++ stp_queue s' ∧ takes run s taken.
Proof.
  intros Hq Hf HQ Hs Ha Hres. unfold forEachDrainChunk. unfold bindM at 1, readM at 1.
  set (bound := queue_items (stp_queue s) + dr_reserved run). assert (0 <= bound) by (pose proof (queue_items_pos (stp_queue s)); lia).
  destruct (Z.eqb_spec bound 0) as [E0|E0].
  { exists x, s, [], 0%nat. cbn. rewrite app_nil_r. split_and!; [done..|]. split; [|by left]. intros waiting rest E Hw.
    destruct waiting as [|b w]; [done|]. apply Forall_cons in Hw as [Hb Hw]. destruct (eligible_items _ b w Hb Hw) as [Hp _].
    unfold bound in E0. rewrite E, queue_items_app in E0. pose proof (queue_items_pos rest). lia. }
  edestruct (drain_loop_rule fn maxItems (dr_validFromMillis run) bound Q Hq Hf)
    as (x' & s' & more & k & E & H1 & H2 & H3 & H4 & H5); [exact HQ|constructor|exact Hs|exact Ha|].
  exists x', s', more, k. rewrite E. split_and!; [done..|]. split; [|exact H5]. intros waiting rest Ew Hw. apply (H4 waiting rest); [done|done| |].
  - unfold bound. rewrite Ew, queue_items_app. pose proof (queue_items_pos rest). lia.
  - rewrite Ew, length_app. lia.
Qed.

(** ** One transaction at a time *)
Definition item_ok (it : Node * option I) : Prop := real it.1 ∧ is_Some it.2.

Lemma items_ok batches : Forall queued_ok batches →
  items_in batches = Ok (concat (map (λ b, combine (b_nodes b) (b_txInpoints b)) batches)) ∧
  Forall item_ok (concat (map (λ b, combine (b_nodes b) (b_txInpoints b)) batches)).
Proof.
  intros H. unfold items_in. assert (forallb (λ b, (length (b_nodes b) =? length (b_txInpoints b))%nat) batches = true) as ->.
  { apply forallb_forall. intros b Hb%list_elem_of_In. destruct (proj1 (Forall_forall _ _) H b Hb) as (-> & _). apply Nat.eqb_refl. }
  split; [done|]. apply Forall_concat, Forall_map. eapply Forall_impl; [exact H|]. intros b (_ & H1 & H2). apply Forall_forall.
  intros [x i] Hin%list_elem_of_In. split; cbn.
  - apply in_combine_l, list_elem_of_In in Hin. by apply (proj1 (Forall_forall _ _) H1 x Hin).
  - apply in_combine_r, list_elem_of_In in Hin. by apply (proj1 (Forall_forall _ _) H2 i Hin).
Qed.

(** [new] are among the items, and in neither set. *)
Definition clear_of (T L C : gset Hash) (new : list Node) : Prop := Forall (λ x, node_Hash x ∉ T ∧ node_Hash x ∉ L ∧ node_Hash x ∉ C) new.

(** Where every transaction that was taken has gone. *)
Definition accounted (T L C : gset Hash) txs (xs : list Node) : Prop :=
  Forall (λ x, node_Hash x ∈ map node_Hash txs ∨ node_Hash x ∈ T ∨ node_Hash x ∈ L ∨ node_Hash x ∈ C) xs.

Lemma accounted_mono T L C C' txs txs' xs : C ⊆ C' → (∀ x, x ∈ txs → x ∈ txs') → accounted T L C txs xs → accounted T L C' txs' xs.
Proof.
  intros HC Ht H. eapply Forall_impl; [exact H|]. intros x [Hx|[?|[?|?]]]; [|auto..|set_solver]. left.
  apply list_elem_of_fmap in Hx as (y & -> & Hy). apply list_elem_of_fmap. exists y. auto.
Qed.

(** No transaction waits before one it spends. *)
Fixpoint in_order (items : list (Node * option I)) : Prop :=
  match items with
  | [] => True
  | (x, i) :: rest => (∀ j, i = Some j → Forall (.∉ map node_Hash (map fst ((x, i) :: rest))) (ParentTxHashes j)) ∧ in_order rest
  end.

Lemma in_order_app a b : in_order (a ++ b) →
  in_order a ∧ in_order b ∧ ∀ x i, (x, Some i) ∈ a → Forall (.∉ map node_Hash (map fst b)) (ParentTxHashes i).
Proof.
  induction a as [|[x i] a IH]; cbn [app in_order]; [intros H; split_and!; [done|done|by intros x i ?%not_elem_of_nil]|].
  intros [Hx (H1 & H2 & H3)%IH]. split_and!; [|done|done|].
  - intros j Hj. eapply Forall_impl; [exact (Hx j Hj)|]. intros p. cbn [map fst]. rewrite !not_elem_of_cons, !map_app, not_elem_of_app. tauto.
  - intros y j [[= <- <-]|Hy]%elem_of_cons; [|by eapply H3]. eapply Forall_impl; [exact (Hx j eq_refl)|]. intros p. cbn [map fst].
    rewrite not_elem_of_cons, !map_app, not_elem_of_app. tauto.
Qed.

(** Of the items, [new] were taken with [C] to begin with and [C'] in the end; [m] is the map they are held in. *)
Record spends_none items (C C' : gset Hash) (m : gmap Hash (option I)) (new : list Node) : Prop := {
  sn_more : C ⊆ C';
  sn_items h : h ∈ C' → h ∈ C ∨ h ∈ map node_Hash (map fst items);
  sn_held : C ≠ ∅ → Forall (λ x, ∃ i, (x, Some i) ∈ items ∧ m !! node_Hash x = Some (Some i) ∧ Forall (.∉ C) (ParentTxHashes i)) new;
  sn_closed : C ≠ ∅ → in_order items →
    Forall (λ x, ∃ i, (x, Some i) ∈ items ∧ m !! node_Hash x = Some (Some i) ∧ Forall (.∉ C') (ParentTxHashes i)) new;
}.

Lemma spends_none_of items C m : spends_none items C C m [].
Proof. split; [done|by left|by constructor..]. Qed.

Lemma spends_none_empty items m new : spends_none items ∅ ∅ m new.
Proof. by split; [|left|..]. Qed.

Lemma spends_none_app a b C C' C'' m m' new new' : spends_none a C C' m new → spends_none b C' C'' m' new' → m ⊆ m' →
  spends_none (a ++ b) C C'' m' (new ++ new').
Proof.
  intros [A1 A2 A3 A4] [B1 B2 B3 B4] Hm. assert (C ≠ ∅ → C' ≠ ∅) as Hne by set_solver. split; [by etrans| | |].
  - intros h [[?|?]%A2|?]%B2; rewrite !map_app, elem_of_app; auto.
  - intros HC. apply Forall_app. split; [eapply Forall_impl; [by apply A3|]|eapply Forall_impl; [by apply B3, Hne|]];
      cbn; intros x (i & Hi & Hx & Hp); exists i; rewrite elem_of_app.
    + split_and!; [by left|by eapply lookup_weaken|done].
    + split_and!; [by right|done|]. eapply Forall_impl; [exact Hp|]. cbn. set_solver.
  - intros HC (Ha & Hb & Hab)%in_order_app. apply Forall_app.
    split; [eapply Forall_impl; [by apply A4|]|eapply Forall_impl; [by apply B4; [apply Hne|]|]]; cbn; intros x (i & Hi & Hx & Hp); exists i; rewrite elem_of_app.
    + split_and!; [by left|by eapply lookup_weaken|].
      apply Forall_forall. intros p Hin HC''. apply B2 in HC'' as [?|?]; [by apply (proj1 (Forall_forall _ _) Hp p Hin)|].
      by apply (proj1 (Forall_forall _ _) (Hab x i Hi) p Hin).
    + split_and!; [by right|done|done].
Qed.

(** One item: refused for what it is, or for what it spends ... *)
Lemma spends_none_refused it C C1 m : C ⊆ C1 → (∀ h, h ∈ C1 → h ∈ C ∨ h = node_Hash it.1) → spends_none [it] C C1 m [].
Proof. intros H1 H2. split; [done|intros h Hh; destruct (H2 h Hh) as [?| ->]; [by left|right; left]|by constructor..]. Qed.

(** ... or added, unless it was held. *)
Lemma spends_none_added x i C m : Forall (.∉ C) (ParentTxHashes i) → spends_none [(x, Some i)] C C (<[node_Hash x := Some i]> m) [x].
Proof.
  intros H. assert ((x, Some i) ∈ [(x, Some i)]) by left.
  split; [done|by left|intros _|intros _ _]; apply Forall_singleton; exists i; (split_and!; [done|apply lookup_insert_eq|done]).
Qed.

Lemma refusal C x j rej C1 : (if bool_decide (C = ∅) then (false, C) else rejectConflicting (node_Hash x) (Some j) C) = (rej, C1) →
  C ⊆ C1 ∧ (C = ∅ → C1 = ∅) ∧ (∀ h, h ∈ C1 → h ∈ C ∨ h = node_Hash x) ∧
  if rej then node_Hash x ∈ C1 else C1 = C ∧ node_Hash x ∉ C ∧ Forall (.∉ C) (ParentTxHashes j).
Proof.
  case_bool_decide as EC.
  { intros [= <- <-]. subst C. split_and!; [done..|by left|done|apply not_elem_of_empty|]. apply Forall_forall. intros p _. apply not_elem_of_empty. }
  unfold rejectConflicting. case_bool_decide; [intros [= <- <-]; split_and!; [done..|by left|done]|].
  destruct (existsb _ _) eqn:Ee; intros [= <- <-]; [split_and!; set_solver|]. split_and!; [done..|by left|done|done|].
  apply Forall_forall. intros p Hp%list_elem_of_In HpC. apply Bool.not_true_iff_false in Ee. apply Ee, existsb_exists.
  exists p. split; [done|by apply bool_decide_eq_true].
Qed.

(** So nothing taken conflicts with the transactions refused to begin with, nor, in the order of the queue, with those refused in the end. *)
Lemma spends_none_start items C C' m new x : spends_none items C C' m new → x ∈ new → node_Hash x ∉ C → ¬ conflicts m C x.
Proof.
  intros [_ _ H _] Hx Hn [?|(i & p & Hi & Hp & HC)]; [done|].
  destruct (proj1 (Forall_forall _ _) (H ltac:(set_solver)) x Hx) as (j & _ & Hj & Hps). rewrite Hi in Hj. injection Hj as <-.
  by apply (proj1 (Forall_forall _ _) Hps p).
Qed.

Lemma spends_none_end items C C' m new x i : spends_none items C C' m new → (C = ∅ → C' = ∅) → in_order items → x ∈ new →
  m !! node_Hash x = Some (Some i) → Forall (.∉ C') (ParentTxHashes i).
Proof.
  intros [_ _ _ H] H0 Ho Hx Hi. destruct (decide (C = ∅)) as [->|HC].
  - rewrite H0 by done. apply Forall_forall. intros p _. apply not_elem_of_empty.
  - destruct (proj1 (Forall_forall _ _) (H HC Ho) x Hx) as (j & _ & Hj & Hps). rewrite Hi in Hj. by injection Hj as <-.
Qed.

Lemma drain_nodes_eq T L skip items C txs s : assembled n txs s → running s → Forall item_ok items →
  ∃ new C' s', drain_nodes T L skip items C s = (Ok C', s') ∧ assembled n (txs ++ new) s' ∧ running s' ∧
    stp_queue s' = stp_queue s ∧ aside s s' ∧ C ⊆ C' ∧ (C = ∅ → C' = ∅) ∧ new `sublist_of` map fst items ∧ clear_of T L C new ∧
    accounted T L C' (txs ++ new) (map fst items) ∧ current_map s ⊆ current_map s' ∧ spends_none items C C' (current_map s') new.
Proof.
  revert C txs s. induction items as [|[x i] items IH]; intros C txs s H Hr Hit; cbn [drain_nodes map].
  { exists [], C, s. rewrite app_nil_r. split_and!; [done..|constructor|constructor|done|apply spends_none_of]. }
  apply Forall_cons in Hit as [[Hx [j Hj]] Hit]. cbn in Hx, Hj. subst i.
  unfold excluded. destruct (bool_decide (node_Hash x ∈ T) || bool_decide (node_Hash x ∈ L)) eqn:Ex.
  { destruct (IH C txs s H Hr Hit) as (new & C' & s' & E & A1 & A2 & A3 & A4 & A5 & A6 & A7 & A8 & A9 & A10 & A11).
    exists new, C', s'. split_and!; [done..|by apply sublist_cons|done| |done|].
    - apply Forall_cons. split; [|done]. apply orb_true_iff in Ex as [?%bool_decide_eq_true|?%bool_decide_eq_true]; auto.
    - apply (spends_none_app [_] items C C C' (current_map s) _ []); [apply spends_none_of|done..]. }
  apply orb_false_iff in Ex as [HT%bool_decide_eq_false_1 HL%bool_decide_eq_false_1].
  destruct (if bool_decide (C = ∅) then (false, C) else rejectConflicting (node_Hash x) (Some j) C) as [rej C1] eqn:Er.
  assert (C ⊆ C1 ∧ (C = ∅ → C1 = ∅) ∧ (∀ h, h ∈ C1 → h ∈ C ∨ h = node_Hash x) ∧
    if rej then node_Hash x ∈ C1 else C1 = C ∧ node_Hash x ∉ C ∧ Forall (.∉ C) (ParentTxHashes j)) as (HC1 & HC0 & HCx & Hrej).
  { by apply refusal. }
  destruct rej.
  { destruct (IH C1 txs s H Hr Hit) as (new & C' & s' & E & A1 & A2 & A3 & A4 & A5 & A6 & A7 & A8 & A9 & A10 & A11).
    exists new, C', s'. split_and!; [done..|set_solver|auto|by apply sublist_cons| | |done|].
    - eapply Forall_impl; [exact A8|]. cbn. intros y (? & ? & ?). set_solver.
    - apply Forall_cons. split; [|done]. right; right; right. set_solver.
    - apply (spends_none_app [_] items C C1 C' (current_map s) _ []); [by apply spends_none_refused|done..]. }
  destruct Hrej as (-> & HC & Hp). unfold bindM at 1, logM. destruct (addNode x (Some j) skip s) as [r s1] eqn:Ea.
  destruct (addNode_assembled n x j skip txs s r s1 H Hx Ea) as (H1 & Hq1 & _ & Hrun). destruct (Hrun Hr) as [-> Hr1].
  pose proof (addNode_map n x j skip txs s _ s1 H Hx Ea) as Em.
  pose proof (owned_addNode x (Some j) skip s) as Ho. rewrite Ea in Ho. cbn [snd] in Ho |- *.
  destruct (IH C _ s1 H1 Hr1 Hit) as (new & C' & s' & E & A1 & A2 & A3 & A4 & A5 & A6 & A7 & A8 & A9 & A10 & A11). case_bool_decide as Eh.
  - exists new, C', s'. rewrite <- Em. split_and!; [done..|congruence|by etrans|done|done|by apply sublist_cons|done| |done|].
    + apply Forall_cons. split; [|done]. left. rewrite map_app. apply elem_of_app. by left.
    + apply (spends_none_app [_] items C C C' (current_map s1) _ []); [apply spends_none_of|done..].
  - exists (x :: new), C', s'. rewrite <- (assoc_L (++)) in A1, A9.
    assert (current_map s ⊆ current_map s1) as Hsub.
    { rewrite Em. apply insert_subseteq, eq_None_not_Some. by rewrite (lo_map _ _ _ (am_loose _ _ _ H)). }
    split_and!; [done..|congruence|by etrans|done|done|by apply sublist_skip| | |by etrans|].
    + by apply Forall_cons.
    + apply Forall_cons. split; [|done]. left. rewrite map_app. apply elem_of_app. right. left.
    + apply (spends_none_app [_] items C C C' (current_map s1) _ [x]); [|done..]. rewrite Em. by apply spends_none_added.
Qed.

Lemma drain_nodes_grown T L skip items C s C' s' : drain_nodes T L skip items C s = (Ok C', s') → grown (spent_by items) C C'.
Proof.
  revert C s. induction items as [|[x i] items IH]; intros C s E; cbn [drain_nodes] in E; [injection E as <- _; apply grown_refl|].
  assert (∀ h p, spent_by items h p → spent_by ((x, i) :: items) h p) as Hm.
  { intros h p (y & j & ? & ?). exists y, j. split; [by right|done]. }
  destruct (excluded T L (node_Hash x)); [eapply grown_mono; [exact Hm|by eapply IH]|].
  assert (grown (spent_by ((x, i) :: items)) C (if bool_decide (C = ∅) then (false, C) else rejectConflicting (node_Hash x) i C).2) as Hr.
  { case_bool_decide; [apply grown_refl|]. apply reject_grown. intros j p -> Hp. exists x, j. split; [left|done]. }
  destruct (if bool_decide (C = ∅) then _ else _) as [r C1]. eapply grown_trans; [exact Hm|exact Hr|].
  destruct r; [by eapply IH|]. unfold bindM at 1, logM in E. by eapply IH.
Qed.

(** The transactions of some batches, each with its inpoints. *)
Definition items_of (batches : list (TxBatch (option I))) : list (Node * option I) :=
  concat (map (λ b, combine (b_nodes b) (b_txInpoints b)) batches).

Lemma items_of_app bs bs' : items_of (bs ++ bs') = items_of bs ++ items_of bs'.
Proof. unfold items_of. by rewrite map_app, concat_app. Qed.

Lemma spent_by_app items items' h p : spent_by (items ++ items') h p ↔ spent_by items h p ∨ spent_by items' h p.
Proof. unfold spent_by. setoid_rewrite elem_of_app. naive_solver. Qed.

Lemma items_nodes batches : Forall queued_ok batches →
  map fst (concat (map (λ b : TxBatch (option I), combine (b_nodes b) (b_txInpoints b)) batches)) = concat (map b_nodes batches).
Proof.
  induction 1 as [|b batches (Hl & _) _ IH]; [done|]. cbn [map concat]. rewrite map_app, IH. f_equal.
  revert Hl. generalize (b_txInpoints b). induction (b_nodes b) as [|x xs IHx]; intros vs Hl; [done|].
  destruct vs as [|i vs]; [done|]. cbn. f_equal. apply IHx. by injection Hl.
Qed.

(** What a drain leaves, with the batches it took. *)
Definition drained run T L C txs s s' : Prop := ∃ new C' taken k,
  assembled n (txs ++ new) s' ∧ running s' ∧ Forall queued_ok (stp_queue s') ∧ aside s s' ∧
  new `sublist_of` concat (map b_nodes taken) ∧ clear_of T L C new ∧ C ⊆ C' ∧ grown (spent_by (items_of taken)) C C' ∧
  accounted T L C' (txs ++ new) (concat (map b_nodes taken)) ∧
  stp_queue s ++ concat (take k (dr_arrivals run)) = taken ++ stp_queue s' ∧ takes run s taken ∧
  spends_none (items_of taken) C C' (current_map s') new.

(** Between two chunks. *)
Definition draining T L C txs s (taken : list (TxBatch (option I))) (C' : gset Hash) s' : Prop := ∃ new,
  assembled n (txs ++ new) s' ∧ running s' ∧ aside s s' ∧ new `sublist_of` concat (map b_nodes taken) ∧ clear_of T L C new ∧
  C ⊆ C' ∧ grown (spent_by (items_of taken)) C C' ∧ accounted T L C' (txs ++ new) (concat (map b_nodes taken)) ∧
  spends_none (items_of taken) C C' (current_map s') new.

Lemma draining_queue T L C txs s taken C' s' q : draining T L C txs s taken C' s' → draining T L C txs s taken C' (set_queue q s').
Proof.
  intros (new & A1 & A2 & A3 & A4). exists new. split_and!; [by apply (assembled_same n _ s')|done|etrans; [exact A3|by split]|apply A4..].
Qed.

Lemma draining_start T L C txs s : assembled n txs s → running s → draining T L C txs s [] C s.
Proof. intros H Hr. exists []. rewrite app_nil_r. split_and!; [done..|constructor|done|apply grown_refl|constructor|apply spends_none_of]. Qed.

(** One more chunk. *)
Lemma draining_step T L C txs s taken C' t chunk new C'' t' :
  draining T L C txs s taken C' t →
  (∀ l, assembled n l t → running t → assembled n (l ++ new l) t' ∧ running t' ∧ aside t t' ∧ new l `sublist_of` concat (map b_nodes chunk) ∧
    clear_of T L C' (new l) ∧ C' ⊆ C'' ∧ grown (spent_by (items_of chunk)) C' C'' ∧ accounted T L C'' (l ++ new l) (concat (map b_nodes chunk)) ∧
    current_map t ⊆ current_map t' ∧ spends_none (items_of chunk) C' C'' (current_map t') (new l)) →
  draining T L C txs s (taken ++ chunk) C'' t'.
Proof.
  intros (new0 & A1 & A2 & A3 & A4 & A5 & A6 & A7 & A8 & A9) Hn. destruct (Hn _ A1 A2) as (B1 & B2 & B3 & B4 & B5 & B6 & B7 & B8 & B9 & B10).
  exists (new0 ++ new (txs ++ new0)). rewrite (assoc_L (++)), map_app, concat_app.
  split_and!; [done|done|by etrans|by apply sublist_app| |by etrans| | |].
  - apply Forall_app. split; [done|]. eapply Forall_impl; [exact B5|]. cbn. intros y (? & ? & ?). set_solver.
  - rewrite items_of_app. eapply grown_trans; [|eapply grown_mono; [|exact A7]|exact B7]; intros h p; rewrite spent_by_app; auto.
  - apply Forall_app. split; [|done]. eapply accounted_mono; [exact B6| |exact A8]. intros x Hx. apply elem_of_app. by left.
  - rewrite items_of_app. by eapply spends_none_app.
Qed.

Lemma dequeueDuring_eq run T L C skip txs s : assembled n txs s → running s → Forall queued_ok (stp_queue s) →
  Forall (Forall queued_ok) (dr_arrivals run) → 0 <= dr_reserved run →
  ∃ s', dequeueDuringBlockMovement run T L C skip s = (Ok tt, s') ∧ drained run T L C txs s s'.
Proof.
  intros H Hr Hq Ha Hres. unfold dequeueDuringBlockMovement.
  edestruct (forEachDrainChunk_rule
    (λ batches conflicting, let! items := liftM (items_in batches) in drain_nodes T L skip items conflicting)
    1 (draining T L C txs s) run C s) as (C' & s' & taken & k & E & HQ & Hq' & Hk & Htk); [..|exact Hq|exact Ha|exact Hres|].
  - intros. by apply draining_queue.
  - intros taken chunk C' t HQ Hc. destruct (items_ok chunk Hc) as [Ei Hok]. pose proof HQ as (new0 & A1 & A2 & _).
    destruct (drain_nodes_eq T L skip _ C' _ t A1 A2 Hok) as (new & C'' & t' & E & B1 & B2 & B3 & B4 & B5 & B6 & B7 & B8 & B9 & B10 & B11).
    exists C'', t'. split; [unfold bindM, liftM; by rewrite Ei|]. split; [|done]. rewrite (items_nodes _ Hc) in B7, B9.
    eapply (draining_step T L C txs s taken C' t chunk (λ _, new)); [exact HQ|]. intros l Hl _.
    assert (l = txs ++ new0) as -> by (pose proof (lo_nodes _ _ _ (am_loose _ _ _ Hl)) as E1;
      rewrite (lo_nodes _ _ _ (am_loose _ _ _ A1)) in E1; by injection E1).
    apply drain_nodes_grown in E. done.
  - by apply draining_start.
  - exists s'. unfold bindM at 1. rewrite E. split; [done|]. destruct HQ as (new & A1 & A2 & A3 & A4 & A5 & A6 & A7 & A8 & A9).
    exists new, C', taken, k. done.
Qed.

(** ** In parallel *)
Definition item_at (items : list (Node * option I)) (i : nat) : option Node := fst <$> items !! i.

(** The map holds [m0] and the items taken, one for each hash. *)
Record took (m0 : gmap Hash (option I)) items (ins : gset nat) s : Prop := {
  tk_held h : is_Some (current_map s !! h) ↔ is_Some (m0 !! h) ∨ ∃ i x, i ∈ ins ∧ item_at items i = Some x ∧ node_Hash x = h;
  tk_new i : i ∈ ins → ∃ x, item_at items i = Some x ∧ m0 !! node_Hash x = None;
  tk_once i j x y : i ∈ ins → j ∈ ins → item_at items i = Some x → item_at items j = Some y → node_Hash x = node_Hash y → i = j;
  tk_same h : is_Some (m0 !! h) → current_map s !! h = m0 !! h;
  tk_inpoints h v : m0 !! h = None → current_map s !! h = Some v → is_Some v;
}.

Lemma setnx_order_eq items m0 order ins s : Forall item_ok items → (∀ i, i ∈ order → is_Some (items !! i)) → took m0 items ins s →
  ∃ ins' s', setIfNotExistsInOrder items order ins s = (Ok ins', s') ∧ outside_maps s' = outside_maps s ∧ aside s s' ∧
    took m0 items ins' s' ∧ (∀ i, i ∈ ins' → i ∈ ins ∨ i ∈ order) ∧
    (∀ h, is_Some (current_map s !! h) → is_Some (current_map s' !! h)) ∧
    (∀ i x, i ∈ order → item_at items i = Some x → is_Some (current_map s' !! node_Hash x)).
Proof.
  intros Hok. revert ins s. induction order as [|i order IH]; intros ins s Ho Ht; cbn [setIfNotExistsInOrder].
  { exists ins, s. split_and!; [done..|by left|done|by intros i x ?%not_elem_of_nil]. }
  destruct (Ho i) as [[x v] Hi]; [left|]. rewrite Hi. destruct (proj1 (Forall_forall _ _) Hok _ (list_elem_of_lookup_2 _ _ _ Hi)) as [_ [w Hw]].
  cbn in Hw. subst v. assert (item_at items i = Some x) as Hat by (unfold item_at; by rewrite Hi).
  assert (∀ j, j ∈ order → is_Some (items !! j)) as Ho' by (intros j Hj; apply Ho; by right).
  unfold bindM at 1, SetIfNotExists. destruct (current_map s !! node_Hash x) as [u|] eqn:Eu.
  - destruct (IH ins s Ho' Ht) as (ins' & s' & E & A1 & A2 & A3 & A4 & A5 & A6). exists ins', s'. split_and!; [done..| |done|].
    + intros j [?|?]%A4; [by left|right; by right].
    + intros j y [->|Hj]%elem_of_cons Hy; [|by eapply A6]. rewrite Hat in Hy. injection Hy as <-. apply A5. by rewrite Eu.
  - assert (m0 !! node_Hash x = None ∧ ∀ j y, j ∈ ins → item_at items j = Some y → node_Hash y ≠ node_Hash x) as [Hn Hnk].
    { pose proof (tk_held _ _ _ _ Ht (node_Hash x)) as Hh. rewrite Eu in Hh. split.
      - apply eq_None_not_Some. intros Hs. destruct (proj2 Hh (or_introl Hs)); done.
      - intros j y Hj Hy E. destruct (proj2 Hh) as [? ?]; [right; eauto|done]. }
    destruct (IH ({[i]} ∪ ins) (write_current <[node_Hash x := Some w]> s) Ho') as (ins' & s' & E & A1 & A2 & A3 & A4 & A5 & A6).
    { split.
      - intros h. rewrite current_write, lookup_insert_is_Some', (tk_held _ _ _ _ Ht). setoid_rewrite elem_of_union. setoid_rewrite elem_of_singleton.
        split; [intros [<-|[?|(q & y & ? & ? & ?)]]; [right; exists i, x; auto|auto|right; exists q, y; auto]|].
        intros [?|(q & y & [->|?] & Hy & <-)]; [auto|left; congruence|right; right; eauto].
      - intros q [->%elem_of_singleton|Hq]%elem_of_union; [eauto|by apply (tk_new _ _ _ _ Ht)].
      - intros q1 q2 y1 y2 [->%elem_of_singleton|H1]%elem_of_union [->%elem_of_singleton|H2]%elem_of_union E1 E2 E; [done| | |by eapply (tk_once _ _ _ _ Ht)].
        + exfalso. apply (Hnk q2 y2); [done..|]. congruence.
        + exfalso. apply (Hnk q1 y1); [done..|]. congruence.
      - intros h Hh. rewrite current_write, lookup_insert_ne; [by apply (tk_same _ _ _ _ Ht)|]. intros <-. rewrite Hn in Hh. by destruct Hh.
      - intros h u Hh. rewrite current_write, lookup_insert_Some. intros [[_ <-]|[_ Hu]]; [eauto|by eapply (tk_inpoints _ _ _ _ Ht)]. }
    exists ins', s'. split_and!; [done|done|etrans; [apply aside_write|exact A2]|done| | |].
    + intros j [[->%elem_of_singleton|?]%elem_of_union|?]%A4; [right; left|by left|right; by right].
    + intros h Hh. apply A5. rewrite current_write. apply lookup_insert_is_Some'. by right.
    + intros j y [->|Hj]%elem_of_cons Hy; [|by eapply A6]. rewrite Hat in Hy. injection Hy as <-. apply A5.
      rewrite current_write, lookup_insert_eq. eauto.
Qed.

Lemma elem_of_inserted ins i (nodes : list Node) x : x ∈ inserted_nodes ins i nodes ↔ ∃ j, nodes !! j = Some x ∧ (i + j)%nat ∈ ins.
Proof.
  revert i. induction nodes as [|y nodes IH]; intros i; cbn [inserted_nodes].
  - split; [by intros ?%not_elem_of_nil|by intros (j & ? & _)].
  - rewrite elem_of_app, IH. split.
    + intros [Hx|(j & Hj & Hk)]; [|exists (S j); by rewrite Nat.add_succ_r].
      case_bool_decide; [|by apply not_elem_of_nil in Hx]. apply list_elem_of_singleton in Hx as ->. exists 0%nat. by rewrite Nat.add_0_r.
    + intros ([|j] & Hj & Hk); [|right; exists j; by rewrite Nat.add_succ_r in Hk]. left. injection Hj as ->.
      rewrite Nat.add_0_r in Hk. rewrite bool_decide_true by done. by apply list_elem_of_singleton.
Qed.

Lemma inserted_sublist ins i (nodes : list Node) : inserted_nodes ins i nodes `sublist_of` nodes.
Proof.
  revert i. induction nodes as [|x nodes IH]; intros i; cbn [inserted_nodes]; [constructor|].
  case_bool_decide; cbn; by constructor.
Qed.

Lemma inserted_NoDup (ins : gset nat) i (nodes : list Node) :
  (∀ j k x y, nodes !! j = Some x → nodes !! k = Some y → (i + j)%nat ∈ ins → (i + k)%nat ∈ ins → node_Hash x = node_Hash y → j = k) →
  NoDup (map node_Hash (inserted_nodes ins i nodes)).
Proof.
  revert i. induction nodes as [|y nodes IH]; intros i H; cbn [inserted_nodes]; [apply NoDup_nil_2|].
  assert (NoDup (map node_Hash (inserted_nodes ins (S i) nodes))) as Hnd.
  { apply IH. intros j k x z Hj Hk H1 H2 E. enough (S j = S k) by lia. apply (H (S j) (S k) x z); [done..| | |done]; by rewrite Nat.add_succ_r. }
  case_bool_decide as Hk; [|done]. cbn. apply NoDup_cons. split; [|done]. intros Hin. apply list_elem_of_fmap in Hin as (x & Ex & Hx).
  apply elem_of_inserted in Hx as (j & Hj & Hkj). enough (0 = S j)%nat by lia.
  apply (H 0%nat (S j) y x); [done..| | |done]; [by rewrite Nat.add_0_r|by rewrite Nat.add_succ_r].
Qed.

Definition every_item (items : list (Node * option I)) (order : list nat) : Prop := ∀ i, is_Some (items !! i) → i ∈ order.

Lemma kept_at_spec T L items i : kept_at T L items i = true ↔ ∃ x, item_at items i = Some x ∧ node_Hash x ∉ T ∧ node_Hash x ∉ L.
Proof.
  unfold kept_at, item_at. destruct (items !! i) as [[x v]|]; cbn; [|split; [done|by intros (x & ? & _)]].
  unfold excluded. rewrite negb_true_iff, orb_false_iff. split.
  - intros [?%bool_decide_eq_false_1 ?%bool_decide_eq_false_1]. eauto.
  - intros (y & [= <-] & ? & ?). by split; apply bool_decide_eq_false_2.
Qed.

Lemma no_nil items : Forall item_ok items → existsb (λ '(_, inpoints), bool_decide (inpoints = None)) items = false.
Proof.
  intros H. destruct (existsb _ items) eqn:E; [|done]. apply existsb_exists in E as ([x i] & Hin & ->%bool_decide_eq_true).
  apply list_elem_of_In in Hin. destruct (proj1 (Forall_forall _ _) H _ Hin) as [_ [v [=]]].
Qed.

Lemma took_start items s : took (current_map s) items ∅ s.
Proof.
  split; [|by intros i ?%not_elem_of_empty|by intros i j x y ?%not_elem_of_empty|done|congruence].
  intros h. split; [by left|]. by intros [?|(i & x & ?%not_elem_of_empty & _)].
Qed.

Lemma addDrained_eq order T L chunk txs s : assembled n txs s → running s → Forall queued_ok chunk →
  every_item (concat (map (λ b, combine (b_nodes b) (b_txInpoints b)) chunk)) order →
  ∃ new s', addDrainedBatches order T L chunk s = (Ok tt, s') ∧ assembled n (txs ++ new) s' ∧ running s' ∧
    stp_queue s' = stp_queue s ∧ aside s s' ∧ new `sublist_of` concat (map b_nodes chunk) ∧ clear_of T L ∅ new ∧
    accounted T L ∅ (txs ++ new) (concat (map b_nodes chunk)) ∧ current_map s ⊆ current_map s'.
Proof.
  intros H Hr Hc Hord. destruct (items_ok chunk Hc) as [Ei Hok]. pose proof (items_nodes chunk Hc) as En.
  set (items := concat (map (λ b, combine (b_nodes b) (b_txInpoints b)) chunk)) in *.
  unfold addDrainedBatches, bindM at 1, liftM. rewrite Ei, no_nil by done.
  set (ks := filter (kept_at T L items) order).
  assert (∀ i, i ∈ ks → kept_at T L items i = true ∧ i ∈ order) as Hks by (intros i [Hk%Is_true_true ?]%list_elem_of_filter; done).
  destruct (setnx_order_eq items (current_map s) ks ∅ s Hok) as (ins & s1 & E1 & Ho1 & Ha1 & Ht & Hins & Hm1 & Hall); [|apply took_start|].
  { intros i [(x & Hx & _)%kept_at_spec _]%Hks. unfold item_at in Hx. by destruct (items !! i). }
  assert (∀ i x, item_at items i = Some x ↔ map fst items !! i = Some x) as Hat.
  { intros i x. unfold item_at. change (map fst items) with (fst <$> items). by rewrite list_lookup_fmap. }
  set (new := inserted_nodes ins 0 (map fst items)).
  assert (∀ x, x ∈ new ↔ ∃ i, i ∈ ins ∧ item_at items i = Some x) as Hnew.
  { intros x. unfold new. rewrite elem_of_inserted. cbn [Nat.add]. setoid_rewrite Hat. naive_solver. }
  assert (∀ x, x ∈ new → node_Hash x ∉ T ∧ node_Hash x ∉ L ∧ real x ∧ current_map s !! node_Hash x = None) as Hprop.
  { intros x (i & Hi & Hx)%Hnew. destruct (Hins i Hi) as [?%not_elem_of_empty|[(y & Hy & HT & HL)%kept_at_spec _]%Hks]; [done|].
    rewrite Hx in Hy. injection Hy as <-. destruct (tk_new _ _ _ _ Ht i Hi) as (y & Hy & Hn). rewrite Hx in Hy. injection Hy as <-.
    split_and!; [done..| |done]. unfold item_at in Hx. destruct (items !! i) as [[z v]|] eqn:Ez; [|done]. injection Hx as ->.
    by apply (proj1 (Forall_forall _ _) Hok _ (list_elem_of_lookup_2 _ _ _ Ez)). }
  assert (NoDup (map node_Hash new)) as Hnd.
  { apply inserted_NoDup. cbn [Nat.add]. intros j k x y Hj Hk H1 H2 E. eapply (tk_once _ _ _ _ Ht); [exact H1|exact H2|by apply Hat..|done]. }
  destruct (parallel_appends n new txs s s1 false H Hr) as (s' & E2 & B1 & B2 & B3 & B4 & Em); [..|exact Ho1|].
  { apply Forall_forall. intros x Hx. by apply Hprop. }
  { rewrite map_app. apply NoDup_app. split_and!; [apply H| |done]. intros h Hh Hin. apply list_elem_of_fmap in Hin as (x & -> & Hx).
    destruct (Hprop x Hx) as (_ & _ & _ & Hn). apply (lo_map _ _ _ (am_loose _ _ _ H)) in Hh. rewrite Hn in Hh. by destruct Hh. }
  { intros x Hx. pose proof Hx as (i & Hi & Hxi)%Hnew. destruct (Hprop x Hx) as (_ & _ & _ & Hn).
    assert (is_Some (current_map s1 !! node_Hash x)) as [v Ev] by (apply (tk_held _ _ _ _ Ht); right; eauto).
    destruct (tk_inpoints _ _ _ _ Ht _ _ Hn Ev) as [w ->]. eauto. }
  { intros h Hh. destruct (current_map s !! h) as [v|] eqn:Ev; [rewrite <- Ev; apply (tk_same _ _ _ _ Ht); rewrite Ev; eauto|].
    apply eq_None_not_Some. rewrite (tk_held _ _ _ _ Ht), Ev. intros [[? ?]|(i & x & Hi & Hx & <-)]; [done|].
    apply Hh, list_elem_of_fmap. exists x. split; [done|]. apply Hnew. eauto. }
  exists new, s'. unfold bindM at 1. rewrite E1. fold new. split_and!; [done..|by etrans| | | |].
  - unfold new. rewrite En. apply inserted_sublist.
  - apply Forall_forall. intros x Hx. destruct (Hprop x Hx) as (? & ? & _). split_and!; [done..|apply not_elem_of_empty].
  - apply Forall_forall. intros x Hx. rewrite <- En in Hx. apply list_elem_of_lookup_1 in Hx as [i Hi]. apply Hat in Hi.
    destruct (decide (node_Hash x ∈ T)); [auto|]. destruct (decide (node_Hash x ∈ L)); [auto|]. left.
    apply (lo_map _ _ _ (am_loose _ _ _ B1)).
    assert (is_Some (current_map s1 !! node_Hash x)) as Hs1.
    { apply (Hall i); [|done]. apply list_elem_of_filter. split; [apply Is_true_true, kept_at_spec; eauto|].
      apply Hord. unfold item_at in Hi. destruct (items !! i); [eauto|done]. }
    by rewrite Em.
  - rewrite Em. apply map_subseteq_spec. intros h v Hv. rewrite (tk_same _ _ _ _ Ht); [done|by rewrite Hv].
Qed.

(** Every worker of a chunk comes to every item. *)
Definition orders_ok (orders : list (TxBatch (option I)) → list nat) : Prop := ∀ chunk,
  every_item (concat (map (λ b, combine (b_nodes b) (b_txInpoints b)) chunk)) (orders chunk).

Lemma draining_chunk T L txs s orders taken chunk t :
  orders_ok orders → draining T L ∅ txs s taken ∅ t → Forall queued_ok chunk →
  ∃ t', addDrainedBatches (orders chunk) T L chunk t = (Ok tt, t') ∧ draining T L ∅ txs s (taken ++ chunk) ∅ t' ∧ stp_queue t' = stp_queue t.
Proof.
  intros Hord HQ Hc. pose proof HQ as (new0 & A1 & A2 & _).
  destruct (addDrained_eq (orders chunk) T L chunk _ t A1 A2 Hc (Hord chunk)) as (new & t' & E & B1 & B2 & B3 & B4 & B5 & B6 & B7 & B8).
  exists t'. split; [done|]. split; [|done]. eapply (draining_step T L ∅ txs s taken ∅ t chunk (λ _, new)); [exact HQ|]. intros l Hl _.
  assert (l = txs ++ new0) as -> by (pose proof (lo_nodes _ _ _ (am_loose _ _ _ Hl)) as E1;
    rewrite (lo_nodes _ _ _ (am_loose _ _ _ A1)) in E1; by injection E1). split_and!; (done || apply grown_refl || apply spends_none_empty).
Qed.

Lemma drainQueue_eq run orders drain txs s : assembled n txs s → running s → Forall queued_ok (stp_queue s) →
  Forall (Forall queued_ok) (dr_arrivals run) → 0 <= dr_reserved run → orders_ok orders →
  ∃ s', drainQueueAfterBlock run orders drain s = (Ok tt, s') ∧
    drained run (df_transactionMap drain) (df_losingTxHashesMap drain) (df_conflictingHashes drain) txs s s'.
Proof.
  intros H Hr Hq Ha Hres Hord. unfold drainQueueAfterBlock. case_bool_decide as EC; cbn [negb]; [|by apply dequeueDuring_eq].
  rewrite EC. set (T := df_transactionMap drain). set (L := df_losingTxHashesMap drain).
  edestruct (forEachDrainChunk_rule (λ batches (_ : unit), addDrainedBatches (orders batches) T L batches) drainChunkItems
    (λ taken _, draining T L ∅ txs s taken ∅) run tt s) as ([] & s' & taken & k & E & HQ & Hq' & Hk & Htk); [..|exact Hq|exact Ha|exact Hres|].
  - intros. by apply draining_queue.
  - intros taken chunk [] t HQ Hc. destruct (draining_chunk T L txs s orders taken chunk t Hord HQ Hc) as (t' & ? & ? & ?). by exists tt, t'.
  - by apply draining_start.
  - exists s'. split; [exact E|]. destruct HQ as (new & A1 & A2 & A3 & A4 & A5 & A6 & A7 & A8 & A9). exists new, ∅, taken, k. done.
Qed.

(** ** One block *)
Section Block.
  Context (BucketFor : Hash → Z) (ParallelSetIfNotExistsThreshold : Z) (subtreeStore : Hash → stored).

Lemma setTxCount_eq txs s : assembled n txs s → ∃ c, setTxCountFromSubtrees s = (Ok tt, set_txCount c s).
Proof. intros H. unfold setTxCountFromSubtrees. rewrite (proj2 (am_laid _ _ _ H)). eauto. Qed.

(** What [finalizeBlockProcessing] changes is none of what the rest relies on. *)
Definition announced (h : Hash) s s' : Prop :=
  outside_maps s' = outside_maps s ∧ stp_maps s' = stp_maps s ∧ stp_currentBlockHeader s' = Some h ∧
  (stp_currentTxMap s', stp_currentTxMapShadow s', stp_disableCurrentTxMapPool s', stp_currentItemsPerFile s', stp_removeMap s') =
  (stp_currentTxMap s, stp_currentTxMapShadow s, stp_disableCurrentTxMapPool s, stp_currentItemsPerFile s, stp_removeMap s).

Lemma finalize_eq txs h s : assembled n txs s → ∃ s', finalizeBlockProcessing h s = (Ok tt, s') ∧ announced h s s'.
Proof.
  intros H. destruct (setTxCount_eq txs s H) as [c E]. unfold finalizeBlockProcessing, bindM. rewrite E.
  unfold writeM, updatePrecomputedMiningData, writeM. eexists. split; [reflexivity|]. cbn. done.
Qed.

Lemma announced_assembled txs h s s' : assembled n txs s → announced h s s' → assembled n txs s'.
Proof.
  intros H (Ho & Em & _ & E). injection Ho as O1 O2 _ _ _. injection E as E1 _ _ _ _.
  apply (assembled_same n txs s); [done..|]. unfold current_map, map_at. by rewrite Em, E1.
Qed.

(** The retired half of the double buffer is emptied. *)
Lemma clear_shadow_sound txs s : assembled n txs s → running s → Forall queued_ok (stp_queue s) → stp_disableCurrentTxMapPool s = false →
  stp_currentTxMapShadow s ≠ stp_currentTxMap s → stp_currentItemsPerFile s = Z.of_nat n →
  ∃ s', clearCurrentTxMapShadow s = (Ok tt, s') ∧ sound n txs s' ∧ stp_queue s' = stp_queue s ∧ stp_currentBlockHeader s' = stp_currentBlockHeader s ∧
    current_map s' = current_map s.
Proof.
  intros H Hr Hq Hp Hne Hs. unfold clearCurrentTxMapShadow, writeM. rewrite Hp. eexists. split; [reflexivity|].
  split; [|split_and!; [done..|unfold current_map, map_at, put_map; cbn; by rewrite lookup_insert_ne]].
  split; [|done..| |done].
  - apply (assembled_same n txs s); [done..|]. unfold current_map, map_at, put_map. cbn. by rewrite lookup_insert_ne.
  - unfold map_at, put_map. cbn. by rewrite lookup_insert_eq.
Qed.

Definition request order (run : drain_run (I := I)) : forward_params := mkForward false false true true ∅ ∅ order run.

(** What the processor holds after a block; a block of other subtrees is followed by the queue. *)
Inductive moved answers order run (block : AssembledBlock) txs s s' : list Node → Prop :=
  | moved_empty : ab_Subtrees block = [] → stp_queue s' = stp_queue s → moved answers order run block txs s s' txs
  | moved_own d kept : applied subtreeStore answers (request order run) block s d kept →
      df_drainQueue d = false → stp_queue s' = stp_queue s → moved answers order run block txs s s' kept
  | moved_foreign d kept new C' taken k : applied subtreeStore answers (request order run) block s d kept →
      df_drainQueue d = true → new `sublist_of` concat (map b_nodes taken) →
      clear_of (df_transactionMap d) (df_losingTxHashesMap d) (df_conflictingHashes d) new →
      df_conflictingHashes d ⊆ C' → grown (spent_by (items_of taken)) (df_conflictingHashes d) C' →
      accounted (df_transactionMap d) (df_losingTxHashesMap d) C' (kept ++ new) (concat (map b_nodes taken)) →
      stp_queue s ++ concat (take k (dr_arrivals run)) = taken ++ stp_queue s' → takes run s taken →
      spends_none (items_of taken) (df_conflictingHashes d) C' (current_map s') new →
      moved answers order run block txs s s' (kept ++ new).

Lemma setTxCount_last txs s : assembled n txs s →
  ∃ c, setTxCountFromSubtrees s = (Ok tt, set_txCount c s) ∧ assembled n txs (set_txCount c s).
Proof. intros H. destruct (setTxCount_eq txs s H) as [c E]. exists c. split; [done|]. by apply (assembled_same n txs s). Qed.

Lemma handle_eq answers order run orders block txs s : sound n txs s → fits BucketFor (request order run) block txs →
  Forall (Forall queued_ok) (dr_arrivals run) → 0 <= dr_reserved run → orders_ok orders →
  let '(r, s') := handleMoveForwardRequest BucketFor ParallelSetIfNotExistsThreshold subtreeStore answers order run orders block s in
  match r with
  | Err _ => sound n txs s' ∧ stp_currentBlockHeader s' = stp_currentBlockHeader s ∧ stp_queue s' = stp_queue s ∧ current_map s' = current_map s
  | Ok _ => stp_currentBlockHeader s = Some (ab_HashPrevBlock block) ∧ stp_currentBlockHeader s' = Some (ab_Hash block) ∧
      ∃ txs', sound n txs' s' ∧ moved answers order run block txs s s' txs'
  end.
Proof.
  intros H Hfit Har Hres Hord. pose proof (moveForward_eq n BucketFor ParallelSetIfNotExistsThreshold subtreeStore answers (request order run) block txs s H Hfit) as Hm.
  unfold handleMoveForwardRequest. fold (request order run). destruct (moveForwardBlockDeferringDrain _ _ _ _ _ _ s) as [[[[T L] drain]|e] s1].
  2:{ split; [by apply rollback_sound|]. split; [apply rollback_header|]. rewrite rollback_queue. split; [destruct Hm as [_ _ _ Hq]; by injection Hq|].
      by apply rollback_map. }
  destruct Hm as [Hprev Hm]. case_decide as Eb.
  { destruct Hm as [-> ->]. destruct (finalize_eq txs (ab_Hash block) s (so_assembled _ _ _ H)) as (s2 & E & Hann).
    unfold bindM at 1. rewrite E. cbn. pose proof (announced_assembled _ _ _ _ (so_assembled _ _ _ H) Hann) as Ha2. destruct Hann as (Ho & Em & Eh & Es).
    injection Ho as _ _ O3 O4 _. injection Es as S1 S2 S3 S4 _. split_and!; [done|done|]. exists txs. split; [|by apply moved_empty].
    split; [done|unfold running; rewrite O4; apply H|rewrite O3; apply H|rewrite S3; apply H|rewrite S1, S2; apply H| |rewrite S4; apply H].
    unfold map_at. rewrite Em, S2. apply (so_shadow _ _ _ H). }
  destruct Hm as (kept & d & -> & Happ & [Ha1 Hr1 Hq1 [Hc1 Hs1] Hp1 Hz1]).
  destruct (finalize_eq kept (ab_Hash block) s1 Ha1) as (s2 & E & Hann). unfold bindM at 1. rewrite E.
  pose proof (announced_assembled _ _ _ _ Ha1 Hann) as Ha2. destruct Hann as (Ho & Em & Eh & Es).
  injection Ho as _ _ O3 O4 _. injection Es as S1 S2 S3 S4 _.
  assert (running s2) as Hr2 by (unfold running; by rewrite O4).
  assert (Forall queued_ok (stp_queue s2)) as Hq2 by (rewrite O3, Hq1; apply H).
  assert (stp_currentTxMapShadow s2 ≠ stp_currentTxMap s2) as Hne by (rewrite S1, S2, Hc1, Hs1; apply not_eq_sym, H).
  assert (stp_disableCurrentTxMapPool s2 = false) as Hp2 by by rewrite S3.
  assert (stp_currentItemsPerFile s2 = Z.of_nat n) as Hz2 by (rewrite S4, Hz1; apply H).
  unfold bindM at 1. destruct (df_drainQueue d) eqn:Ed.
  2:{ unfold retM at 1. destruct (clear_shadow_sound kept s2 Ha2 Hr2 Hq2 Hp2 Hne Hz2) as (s3 & -> & Hs3 & Hq3 & Hh3 & _).
      split_and!; [done|by rewrite Hh3|]. exists kept. split; [done|]. eapply moved_own; [exact Happ|done|congruence]. }
  destruct (drainQueue_eq run orders d kept s2 Ha2 Hr2 Hq2 Har Hres Hord) as (s3 & E3 & new & C' & taken & k & A1 & A2 & A3 & A4 & A5 & A6 & A7 & A8 & A9 & A10 & A11 & A12).
  unfold bindM at 1, logM at 1. rewrite E3. cbn [snd]. destruct (setTxCount_last (kept ++ new) s3 A1) as (c & -> & A1').
  destruct A4 as [Ea Eo]. unfold settings_of in Ea. injection Ea as B1 B2 B3 B4 B5.
  destruct (clear_shadow_sound (kept ++ new) (set_txCount c s3) A1') as (s4 & -> & Hs4 & Hq4 & Hh4 & Hm4); [exact A2|exact A3|cbn; congruence|cbn; congruence|cbn; congruence|].
  split_and!; [done|rewrite Hh4; cbn; congruence|]. exists (kept ++ new). split; [done|].
  eapply moved_foreign; [exact Happ|done|exact A5|exact A6|exact A7|exact A8|exact A9| | |].
  - rewrite Hq4. cbn. rewrite <- Hq1, <- O3. exact A10.
  - unfold takes in *. by rewrite <- Hq1, <- O3.
  - rewrite Hm4. exact A12.
Qed.
End Block.
End Drain.
