(* ===== verification/MovementBack.v ===== *)
(** * A block taken back

    Building the subtrees in bulk lays out what building them one transaction at a time
    would, and a block taken back puts its transactions before those assembled. *)

From S2P Require Import Prelude External Merkle GoSubtree BodyBinding Queue Assembly AssemblyTheorems AssemblyOwned AssemblyReach Movement MovementTheorems MovementDrain.

#[local] Opaque u64 i32.

Section Back.
  Context {I : Type} {TI : TxInpointsOps I}.
  Context {CH : Chainhash} {SUB : Subtree} {GS : GoSubtree} {AS : AssemblySubtree} {ASP : AssemblySubtreeSpec AS}.
  Implicit Types (s : SubtreeProcessor I) (txs : list Node).
  Context (n : nat) {LN : LeafCount n}.

(** ** In bulk *)
Lemma build_all_tree css : (∀ c, c ∈ css → (length c ≤ n)%nat ∧ Forall real c) →
  build_all (Z.of_nat n) css = Ok (map (tree n) css).
Proof.
  induction css as [|c css IH]; intros H; [done|]. cbn [build_all]. rewrite (new_tree n). cbn [foreignR bindR].
  destruct (H c (list_elem_of_here _ _)) as [Hl Hr]. rewrite (fill_tree n) by (done || apply add_parts_eq). cbn [bindR].
  rewrite IH by (intros; apply H; by right). done.
Qed.

Lemma counts_laid l s : laid n l s → ∃ s', updateChainedSubtreeCounts s = (Ok tt, s') ∧ laid n l s' ∧ frame s' = frame s ∧ stp_ctx s' = stp_ctx s.
Proof. intros H. eexists. split; [reflexivity|]. done. Qed.

(** The subtree there is: filled up, or given everything. *)
Lemma bulk_first_eq l nodes s : laid n l s → Forall real nodes →
  let k := Z.to_nat (Z.min (Z.of_nat n - Z.of_nat (length (rest n l))) (Z.of_nat (length nodes))) in
  ∃ empty s', bulk_first nodes (Z.of_nat n) s = (Ok (k, empty), s') ∧ laid n (l ++ take k nodes) s' ∧ frame s' = frame s ∧ stp_ctx s' = stp_ctx s ∧
    (drop k nodes ≠ [] → empty = true ∧ rest n (l ++ take k nodes) = []).
Proof.
  intros Hl Hx. cbv zeta. destruct Hl as [Ech Ecur]. pose proof (leaf_pos n) as Hn. pose proof (rest_short n Hn l) as Hs.
  unfold bulk_first. unfold bindM at 1, readM at 1. rewrite Ecur. change (Length (tree n (rest n l))) with (Z.of_nat (length (rest n l))).
  set (k := Z.to_nat _).
  assert (length (take k nodes) = k) as Hk by (rewrite length_take; lia).
  assert (Forall real (take k nodes)) as Hxk by by apply Forall_take.
  unfold bindM at 1. rewrite (fill_current_eq n add_parts (rest n l)) by (done || apply add_parts_eq || lia).
  unfold bindM at 1, currentM at 1. cbn [stp_currentSubtree set_currentSubtree]. rewrite complete_tree, length_app, Hk.
  destruct (fulls_rest_app n Hn l (take k nodes)) as [Ef Er]. case_bool_decide as Ed.
  - destruct (fulls_one n Hn (rest n l ++ take k nodes)) as [Ef1 Er1]; [rewrite length_app; lia|].
    unfold bindM at 1, writeM at 1. unfold bindM at 1, newSubtree, liftM. rewrite (new_tree n). cbn [foreignR].
    unfold bindM, writeM, retM. exists true. eexists. split; [reflexivity|]. split_and!; [|done|done|].
    + unfold laid. rewrite Ef, Er, Ef1, Er1, map_app. cbn. by rewrite Ech.
    + intros _. by rewrite Er, Er1.
  - destruct (fulls_small n (rest n l ++ take k nodes)) as [Ef1 Er1]; [rewrite length_app; lia|].
    exists false. eexists. split; [reflexivity|]. split_and!; [|done|done|].
    + unfold laid. rewrite Ef, Er, Ef1, Er1, app_nil_r. cbn. done.
    + intros Hne. exfalso. apply Hne. apply drop_ge. lia.
Qed.

Lemma bulk_eq l nodes s : laid n l s → Forall real nodes →
  ∃ s', bulkBuildSubtrees nodes (Z.of_nat n) s = (Ok tt, s') ∧ laid n (l ++ nodes) s' ∧ frame s' = frame s ∧ stp_ctx s' = stp_ctx s.
Proof.
  intros Hl Hx. pose proof (leaf_pos n) as Hn. destruct nodes as [|x0 nodes0]; [exists s; by rewrite app_nil_r|].
  set (nodes := x0 :: nodes0) in *. destruct (bulk_first_eq l nodes s Hl Hx) as (empty & s1 & E1 & Hl1 & Hf1 & Hc1 & He1).
  set (k := Z.to_nat _) in *. unfold bulkBuildSubtrees. fold nodes. change (match nodes with [] => retM tt | _ :: _ => ?m end) with m.
  unfold bindM at 1, readM at 1. unfold bindM at 1. rewrite E1. case_bool_decide as Ed.
  { assert (take k nodes = nodes) as Et by (rewrite <- (take_drop k nodes) at 2; by rewrite Ed, app_nil_r). rewrite Et in Hl1.
    destruct (counts_laid _ s1 Hl1) as (s2 & -> & H1 & H2 & H3). exists s2. split_and!; [done|done|congruence|congruence]. }
  destruct (He1 Ed) as [-> Er1]. rewrite (proj2 (Z.eqb_neq _ 0)) by lia. set (rs := drop k nodes) in *. clearbody k.
  assert (Forall real rs) as Hxr by by apply Forall_drop.
  rewrite <- Nat2Z.inj_div, Nat2Z.id, <- Nat2Z.inj_mod, Nat2Z.id. fold (fulls n rs).
  unfold bindM at 1, liftM at 1. rewrite build_all_tree.
  2:{ intros c Hc. destruct (chunks_elem n _ _ _ Hc) as [H1 H2]. split; [done|]. apply Forall_forall. intros x Hin.
      apply (proj1 (Forall_forall _ _) Hxr). auto. }
  unfold bindM at 1, writeM at 1. set (s2 := set_chainedSubtrees _ s1).
  destruct (fulls_rest_app n Hn (l ++ take k nodes) rs) as [Ef Er]. rewrite Er1 in Ef, Er. cbn [app] in Ef, Er.
  rewrite <- (assoc_L (++)) in Ef, Er. unfold rs in Ef, Er. rewrite take_drop in Ef, Er. fold rs in Ef, Er.
  pose proof (rest_length n Hn rs) as Hrl. pose proof (rest_short n Hn rs) as Hrs.
  assert (stp_currentSubtree s2 = Some (tree n [])) as Ec2 by (destruct Hl1 as [_ H2]; rewrite Er1 in H2; exact H2).
  assert (stp_chainedSubtrees s2 = map (tree n) (fulls n (l ++ nodes))) as Eh2 by (destruct Hl1 as [H1 _]; rewrite Ef, map_app; cbn; by rewrite H1).
  fold (rest n rs). destruct (Z.ltb_spec 0 (Z.of_nat (length rs mod n))) as [Hlast|Hlast].
  - unfold bindM at 1 2, currentM at 1. rewrite Ec2. rewrite (fill_tree n) by (apply add_parts_eq || (cbn; lia) || by apply Forall_drop).
    cbn [app]. unfold bindM at 1, writeM at 1. unfold bindM at 1, liftM at 1, writeM at 1.
    set (s3 := set_currentSubtree _ (set_currentSubtree _ s2)).
    assert (laid n (l ++ nodes) s3) as Hl3 by (split; [exact Eh2|by rewrite Er]).
    destruct (counts_laid _ s3 Hl3) as (s4 & -> & H1 & H2 & H3). exists s4. split_and!; [done|done|by rewrite H2|by rewrite H3].
  - assert (rest n rs = []) as Err by (apply nil_length_inv; lia).
    cbn [negb]. rewrite andb_false_r. unfold bindM at 1, retM at 1.
    assert (laid n (l ++ nodes) s2) as Hl2 by (split; [exact Eh2|by rewrite Er, Err]).
    destruct (counts_laid _ s2 Hl2) as (s4 & -> & H1 & H2 & H3). exists s4. split_and!; [done|done|by rewrite H2|by rewrite H3].
Qed.

(** ** Into the map, bucket by bucket *)
Section Buckets.
  Context (BucketFor : Hash → Z).
  Implicit Types items : list (nat * (Hash * option I)).

Definition item_hashes items : list Hash := map (λ it, it.2.1) items.

(** What storing [items] has done to the map, and which were stored. *)
Record stored_new items (ins ins' : gset nat) s s' : Prop := {
  sn_outside : outside_maps s' = outside_maps s;
  sn_aside : aside s s';
  sn_ins k : k ∈ ins' ↔ k ∈ ins ∨ ∃ h v, (k, (h, v)) ∈ items ∧ current_map s !! h = None;
  sn_new k h v : (k, (h, v)) ∈ items → current_map s !! h = None → current_map s' !! h = Some v;
  sn_old h w : current_map s !! h = Some w → current_map s' !! h = Some w;
  sn_other h : h ∉ item_hashes items → current_map s' !! h = current_map s !! h;
}.

Lemma item_hash_in items k h v : (k, (h, v)) ∈ items → h ∈ item_hashes items.
Proof. intros H. apply list_elem_of_fmap. by exists (k, (h, v)). Qed.

Lemma stored_trans items1 items2 items ins1 ins2 ins3 s1 s2 s3 :
  (∀ it, it ∈ items ↔ it ∈ items1 ∨ it ∈ items2) → (∀ h, h ∈ item_hashes items1 → h ∉ item_hashes items2) →
  stored_new items1 ins1 ins2 s1 s2 → stored_new items2 ins2 ins3 s2 s3 → stored_new items ins1 ins3 s1 s3.
Proof.
  intros Hi Hd A B.
  assert (∀ h, h ∈ item_hashes items ↔ h ∈ item_hashes items1 ∨ h ∈ item_hashes items2) as Hh.
  { intros h. unfold item_hashes. rewrite !list_elem_of_fmap. setoid_rewrite Hi. naive_solver. }
  split.
  - by rewrite (sn_outside _ _ _ _ _ B), (sn_outside _ _ _ _ _ A).
  - etrans; [apply A|apply B].
  - intros k. rewrite (sn_ins _ _ _ _ _ B), (sn_ins _ _ _ _ _ A). setoid_rewrite Hi. split.
    + intros [[?|(h & v & ? & ?)]|(h & v & Hin & Hn)]; [by left|right; eauto 6|]. right. exists h, v. split; [by right|].
      rewrite <- (sn_other _ _ _ _ _ A); [done|]. intros H1. apply (Hd h H1). by eapply item_hash_in.
    + intros [?|(h & v & [Hin|Hin] & Hn)]; [auto|left; right; eauto|]. right. exists h, v. split; [done|].
      rewrite (sn_other _ _ _ _ _ A); [done|]. intros H1. apply (Hd h H1). by eapply item_hash_in.
  - intros k h v [Hin|Hin]%Hi Hn.
    + apply (sn_old _ _ _ _ _ B). by eapply (sn_new _ _ _ _ _ A).
    + eapply (sn_new _ _ _ _ _ B); [exact Hin|]. rewrite (sn_other _ _ _ _ _ A); [done|]. intros H1. apply (Hd h H1). by eapply item_hash_in.
  - intros h w Hw. apply (sn_old _ _ _ _ _ B). by apply (sn_old _ _ _ _ _ A).
  - intros h Hn. rewrite Hh in Hn. rewrite (sn_other _ _ _ _ _ B), (sn_other _ _ _ _ _ A); tauto.
Qed.

Lemma stored_none ins s : stored_new [] ins ins s s.
Proof.
  split; [done|done| |by intros k h v ?%not_elem_of_nil|done|done].
  intros k. split; [by left|]. by intros [?|(h & v & ?%not_elem_of_nil & _)].
Qed.

Lemma stored_one i h v ins s :
  ∃ ins' s', (let! wasSet := SetIfNotExists h v in retM (if wasSet : bool then {[i]} ∪ ins else ins)) s = (Ok ins', s') ∧
    stored_new [(i, (h, v))] ins ins' s s'.
Proof.
  unfold bindM, SetIfNotExists. destruct (current_map s !! h) as [w|] eqn:E.
  - exists ins, s. split; [done|]. split; [done|done| | |done|done].
    + intros k. split; [by left|]. intros [?|(g & u & [= -> -> ->]%list_elem_of_singleton & ?)]; [done|congruence].
    + intros k g u [= -> -> ->]%list_elem_of_singleton. congruence.
  - exists ({[i]} ∪ ins), (write_current <[h := v]> s). split; [done|]. split; [done|apply aside_write|..].
    + intros k. rewrite elem_of_union, elem_of_singleton. setoid_rewrite list_elem_of_singleton. naive_solver.
    + intros k g u [= -> -> ->]%list_elem_of_singleton _. by rewrite current_write, lookup_insert_eq.
    + intros g w Hw. rewrite current_write, lookup_insert_ne by congruence. done.
    + intros g Hg. rewrite current_write, lookup_insert_ne; [done|]. intros ->. apply Hg. left.
Qed.

Lemma set_bucket_eq items ins s : NoDup (item_hashes items) →
  ∃ ins' s', set_bucket items ins s = (Ok ins', s') ∧ stored_new items ins ins' s s'.
Proof.
  revert ins s. induction items as [|[i [h v]] items IH]; intros ins s Hnd; cbn [set_bucket].
  { exists ins, s. split; [done|apply stored_none]. }
  cbn in Hnd. apply NoDup_cons in Hnd as [Hh Hnd].
  destruct (stored_one i h v ins s) as (ins1 & s1 & E1 & H1). destruct (IH ins1 s1 Hnd) as (ins2 & s2 & E2 & H2).
  exists ins2, s2. split.
  - unfold bindM in E1 |- *. destruct (SetIfNotExists h v s) as [[b|e] t]; [|done]. injection E1 as <- <-. exact E2.
  - eapply (stored_trans [(i, (h, v))] items); [| |exact H1|exact H2].
    + intros it. by rewrite elem_of_cons, list_elem_of_singleton.
    + intros g ->%list_elem_of_singleton. done.
Qed.

Definition in_buckets (order : list Z) items := filter (λ it : nat * (Hash * option I), BucketFor it.2.1 ∈ order) items.

Lemma bucket_items b items : filter (λ '(_, (h, _)), BucketFor h = b) items = filter (λ it : nat * (Hash * option I), BucketFor it.2.1 = b) items.
Proof. apply list_filter_iff. by intros [i [h v]]. Qed.

Lemma bulk_set_eq items order ins s : NoDup (item_hashes items) → NoDup order →
  ∃ ins' s', ParallelBulkSetIfNotExists BucketFor items order ins s = (Ok ins', s') ∧ stored_new (in_buckets order items) ins ins' s s'.
Proof.
  intros Hnd. revert ins s. induction order as [|b order IH]; intros ins s Ho; cbn [ParallelBulkSetIfNotExists].
  { exists ins, s. split; [done|]. unfold in_buckets. assert (filter (λ it : nat * (Hash * option I), BucketFor it.2.1 ∈ []) items = []) as ->; [|apply stored_none].
    clear. induction items as [|it items IH]; [done|]. rewrite filter_cons_False; [done|]. apply not_elem_of_nil. }
  apply NoDup_cons in Ho as [Hb Ho]. rewrite bucket_items. set (mine := filter _ items).
  destruct (set_bucket_eq mine ins s) as (ins1 & s1 & E1 & H1).
  { eapply sublist_NoDup; [exact Hnd|]. apply fmap_sublist, sublist_filter. }
  destruct (IH ins1 s1 Ho) as (ins2 & s2 & E2 & H2). exists ins2, s2. unfold bindM. rewrite E1. split; [exact E2|].
  eapply (stored_trans mine (in_buckets order items)); [| |exact H1|exact H2].
  - intros it. unfold mine, in_buckets. rewrite !list_elem_of_filter, elem_of_cons. tauto.
  - intros h H3 H4. apply list_elem_of_fmap in H3 as (it & -> & [Hi _]%list_elem_of_filter), H4 as (it' & E & [Hi' _]%list_elem_of_filter).
    cbn in *. rewrite <- E, Hi in Hi'. done.
Qed.

Lemma elem_of_combine_seq {A} i (l : list A) k a : (k, a) ∈ combine (seq i (length l)) l ↔ ∃ j, l !! j = Some a ∧ k = (i + j)%nat.
Proof.
  revert i. induction l as [|b l IH]; intros i; cbn [length seq combine].
  - split; [by intros ?%not_elem_of_nil|by intros (j & ? & _)].
  - rewrite elem_of_cons, IH. split.
    + intros [[= -> ->]|(j & ? & ->)]; [exists 0%nat; split; [done|lia]|exists (S j); split; [done|lia]].
    + intros ([|j] & Hj & ->); [left; injection Hj as ->; by rewrite Nat.add_0_r|right; exists j; split; [done|lia]].
Qed.

Definition block_items (nodes : list Node) (inpoints : list I) : list (nat * (Hash * option I)) :=
  combine (seq 0 (length nodes)) (combine (map node_Hash nodes) (map Some inpoints)).

Lemma block_items_spec nodes inpoints k h v : length nodes = length inpoints →
  (k, (h, v)) ∈ block_items nodes inpoints ↔ ∃ x i, nodes !! k = Some x ∧ inpoints !! k = Some i ∧ h = node_Hash x ∧ v = Some i.
Proof.
  intros Hl. unfold block_items.
  assert (length nodes = length (combine (map node_Hash nodes) (map Some inpoints))) as -> by (rewrite length_combine, !length_map; lia).
  rewrite elem_of_combine_seq. cbn [Nat.add]. revert inpoints k Hl. induction nodes as [|x nodes IH]; intros [|i inpoints] k Hl; try done.
  - split; [by intros (j & ? & _)|by intros (y & j & ? & _)].
  - cbn [map combine]. destruct k as [|k].
    + split; [intros (j & Hj & <-); cbn in Hj; injection Hj as <- <-; by exists x, i|]. intros (y & j & [= ->] & [= ->] & -> & ->). by exists 0%nat.
    + injection Hl as Hl. specialize (IH inpoints k Hl). cbn. rewrite <- IH. split; intros (j & Hj & E).
      * subst j. by exists k.
      * subst j. by exists (S k).
Qed.

Lemma block_items_hashes nodes inpoints : length nodes = length inpoints → item_hashes (block_items nodes inpoints) = map node_Hash nodes.
Proof.
  unfold block_items, item_hashes. generalize 0%nat as i. revert inpoints. induction nodes as [|x nodes IH]; intros [|j inpoints] i Hl; try done.
  cbn. f_equal. apply IH. by injection Hl.
Qed.

Lemma inserted_filter (ins : gset nat) (P : Node → Prop) `{∀ x, Decision (P x)} i nodes :
  (∀ j x, nodes !! j = Some x → ((i + j)%nat ∈ ins ↔ P x)) → inserted_nodes ins i nodes = filter P nodes.
Proof.
  revert i. induction nodes as [|x nodes IH]; intros i Hi; [done|]. cbn [inserted_nodes]. rewrite filter_cons.
  rewrite IH by (intros j y Hj; rewrite Nat.add_succ_l, <- Nat.add_succ_r; by apply (Hi (S j))).
  specialize (Hi 0%nat x eq_refl). rewrite Nat.add_0_r in Hi. case_bool_decide; case_decide; try done; tauto.
Qed.

Lemma not_placeholder_real txs : filter not_placeholder (placeholder_node :: txs) = filter real txs.
Proof.
  rewrite filter_cons_False by (unfold not_placeholder; cbn; rewrite bool_decide_true by done; auto).
  apply list_filter_iff. intros x. unfold not_placeholder, real. case_bool_decide; cbn; naive_solver.
Qed.

(** The block's transactions that were not held. *)
Definition returning txs (nodes : list Node) : list Node := filter (λ x, node_Hash x ∉ map node_Hash txs) nodes.

(** The map once the block's transactions are stored. *)
Lemma back_map k order nodes inpoints txs s ins s1 : loose k txs s → length nodes = length inpoints → all_bucketed BucketFor order nodes →
  stored_new (in_buckets order (block_items nodes inpoints)) ∅ ins s s1 →
  (∀ j x, nodes !! j = Some x → (j ∈ ins ↔ node_Hash x ∉ map node_Hash txs)) ∧
  (∀ h, is_Some (current_map s1 !! h) ↔ h ∈ map node_Hash (returning txs nodes ++ txs)) ∧
  (∀ h v, current_map s1 !! h = Some v → is_Some v).
Proof.
  intros H Hlen Hb Hst. assert (∀ h, current_map s !! h = None ↔ h ∉ map node_Hash txs) as Hnone.
  { intros h. rewrite <- (lo_map _ _ _ H). apply eq_None_not_Some. }
  assert (∀ x j, nodes !! j = Some x → ∃ i, (j, (node_Hash x, Some i)) ∈ in_buckets order (block_items nodes inpoints)) as Hin.
  { intros x j Hj. destruct (lookup_lt_is_Some_2 inpoints j) as [i Hi]; [apply lookup_lt_Some in Hj; lia|]. exists i.
    apply list_elem_of_filter. split; [cbn; apply Hb; by eapply list_elem_of_lookup_2|]. apply block_items_spec; [done|]. by exists x, i. }
  assert (∀ k h v, (k, (h, v)) ∈ in_buckets order (block_items nodes inpoints) → ∃ x, nodes !! k = Some x ∧ h = node_Hash x) as Hin2.
  { intros j h v [_ Hi]%list_elem_of_filter. apply block_items_spec in Hi as (x & i & ? & _ & ? & _); [|done]. by exists x. }
  assert (∀ h, h ∉ map node_Hash nodes → h ∉ item_hashes (in_buckets order (block_items nodes inpoints))) as Hother.
  { intros h Hh Hc. apply list_elem_of_fmap in Hc as ([j [g u]] & -> & Hc). destruct (Hin2 _ _ _ Hc) as (x & Hj & Eg). cbn in *. subst g.
    apply Hh, list_elem_of_fmap. exists x. split; [done|]. by eapply list_elem_of_lookup_2. }
  assert (∀ x, x ∈ nodes → current_map s !! node_Hash x = None → ∃ i, current_map s1 !! node_Hash x = Some (Some i)) as Hnew.
  { intros x [j Hj]%list_elem_of_lookup_1 Hn. destruct (Hin x j Hj) as [i Hi]. exists i. by eapply (sn_new _ _ _ _ _ Hst). }
  split_and!.
  - intros j x Hj. rewrite (sn_ins _ _ _ _ _ Hst), <- Hnone. split.
    + intros [?%not_elem_of_empty|(h & v & Hi & Hn)]; [done|]. destruct (Hin2 _ _ _ Hi) as (y & Hy & ->). rewrite Hj in Hy. by injection Hy as ->.
    + intros Hn. right. destruct (Hin x j Hj) as [i Hi]. eauto.
  - intros h. rewrite map_app, elem_of_app. unfold returning. destruct (current_map s !! h) as [w|] eqn:Ew.
    { rewrite (sn_old _ _ _ _ _ Hst _ _ Ew). split; [intros _; right; apply (lo_map _ _ _ H); rewrite Ew; eauto|eauto]. }
    pose proof (proj1 (Hnone h) Ew) as Hn. destruct (decide (h ∈ map node_Hash nodes)) as [Hh|Hh].
    + apply list_elem_of_fmap in Hh as (x & -> & Hxn). destruct (Hnew x Hxn Ew) as [i ->]. split; [|eauto]. intros _. left.
      apply list_elem_of_fmap. exists x. split; [done|]. by apply list_elem_of_filter.
    + rewrite (sn_other _ _ _ _ _ Hst), Ew by by apply Hother. split; [by intros []|]. intros [Hc|Hc]; [|done]. exfalso. apply Hh.
      apply list_elem_of_fmap in Hc as (x & -> & [_ ?]%list_elem_of_filter). apply list_elem_of_fmap. by exists x.
  - intros h v. destruct (current_map s !! h) as [w|] eqn:Ew.
    { rewrite (sn_old _ _ _ _ _ Hst _ _ Ew). intros [= <-]. by eapply (lo_inpoints _ _ _ H). }
    destruct (decide (h ∈ map node_Hash nodes)) as [Hh|Hh]; [|by rewrite (sn_other _ _ _ _ _ Hst), Ew by by apply Hother].
    apply list_elem_of_fmap in Hh as (x & -> & Hxn). destruct (Hnew x Hxn Ew) as [i ->]. intros [= <-]. eauto.
Qed.

Lemma back_eq k order nodes inpoints proper txs s : loose k txs s → length nodes = length inpoints →
  Forall real nodes → NoDup (map node_Hash nodes) → NoDup order → all_bucketed BucketFor order nodes →
  (if proper : bool then stp_currentItemsPerFile s else temporary_size) = Z.of_nat n →
  ∃ s', moveBackBlockBulkBuild BucketFor order nodes inpoints proper s = (Ok tt, s') ∧ assembled n (returning txs nodes ++ txs) s' ∧
    stp_ctx s' = stp_ctx s ∧ stp_queue s' = stp_queue s.
Proof.
  intros H Hlen Hx Hnd Hno Hb Hsz. unfold moveBackBlockBulkBuild. unfold bindM at 1, readM at 1. unfold bindM at 1, readM at 1.
  fold (block_items nodes inpoints). unfold bindM at 1.
  destruct (bulk_set_eq (block_items nodes inpoints) order ∅ s) as (ins & s1 & -> & Hst); [by rewrite block_items_hashes|done|].
  fold (all_nodes s). rewrite (lo_nodes _ _ _ H), not_placeholder_real, filter_real by apply H.
  pose proof (sn_outside _ _ _ _ _ Hst) as Ho. injection Ho as O1 O2 O3 O4 _.
  destruct (back_map _ _ _ _ _ _ _ _ H Hlen Hb Hst) as (Hins & Hmap & Hinp).
  rewrite (inserted_filter ins (λ x, node_Hash x ∉ map node_Hash txs)) by exact Hins. fold (returning txs nodes).
  unfold bindM at 1, readM at 1.
  assert (stp_currentItemsPerFile s1 = stp_currentItemsPerFile s) as -> by (pose proof (as_settings _ _ (sn_aside _ _ _ _ _ Hst)) as Ea; unfold settings_of in Ea; congruence).
  rewrite Hsz. unfold bindM at 1, wrapM at 1, newSubtree, liftM. rewrite (new_tree n). cbn [foreignR wrapR].
  rewrite AddCoinbaseNode_spec by done. change (mkSubtree [placeholder_node] _ _ None) with (tree n [placeholder_node]).
  unfold bindM at 1, writeM at 1. unfold bindM at 1, writeM at 1. set (s2 := closeChainedSubtrees _).
  assert (Forall real (returning txs nodes ++ txs)) as Hxr.
  { apply Forall_app. split; [|apply H]. apply Forall_forall. intros x [_ Hin']%list_elem_of_filter. by apply (proj1 (Forall_forall _ _) Hx). }
  destruct (bulk_eq [placeholder_node] (returning txs nodes ++ txs) s2) as (s' & E & Hl & Hf & Hctx); [by apply laid_placeholder|done|].
  exists s'. unfold wrapM. rewrite E. cbn [wrapR]. split; [done|]. split; [|split; [by rewrite Hctx|by rewrite (frame_queue _ _ Hf)]].
  assert (current_map s' = current_map s1) as Em by (rewrite (frame_map _ _ Hf); done).
  split; [exact Hl|]. split; rewrite ?Em; [by rewrite (laid_nodes n _ _ Hl)|done| |done|done|by eapply laid_height].
  rewrite map_app. apply NoDup_app. split_and!; [|intros h Hh Hin'|apply H].
  - eapply sublist_NoDup; [exact Hnd|]. apply fmap_sublist, sublist_filter.
  - apply list_elem_of_fmap in Hh as (x & -> & [Hn _]%list_elem_of_filter). done.
Qed.

(** ** The coinbase of the block and what spends it *)
(** The error of the first deletion that fails. *)
Definition first_failure (deletes : Hash → result unit) (hashes : list Hash) : option error :=
  head (omap (λ h, match deletes h with Ok _ => None | Err e => Some e end) hashes).

(** What leaves the assembly: the spenders of the coinbase, once every one of them was deleted. *)
Definition coinbase_spenders (children : result (list Hash)) (deletes : Hash → result unit) : list Hash :=
  match children with
  | Ok hashes => match first_failure deletes hashes with None => hashes | Some _ => [] end
  | Err _ => []
  end.

(** What [removeCoinbaseUtxos] fails with: the answer about the spenders, unless it is that there
    is no such transaction, or the first deletion that fails, of a spender or at last of the
    coinbase itself. *)
Definition coinbase_failure (children : result (list Hash)) (deletes : Hash → result unit) (coinbase : Hash) : option error :=
  match children with
  | Err e => if error_Is e ERR_TX_NOT_FOUND then None else Some (err_wrap ERR_PROCESSING e)
  | Ok hashes => err_wrap ERR_PROCESSING <$> first_failure deletes (hashes ++ [coinbase])
  end.

(** A missing transaction is not a failure of the move. *)
Definition fatal (failure : option error) : option error :=
  e ← failure; if error_Is e ERR_TX_NOT_FOUND then None else Some e.

Lemma first_failure_app deletes l1 l2 : first_failure deletes (l1 ++ l2) =
  match first_failure deletes l1 with Some e => Some e | None => first_failure deletes l2 end.
Proof.
  unfold first_failure. induction l1 as [|h l1 IH]; [done|]. cbn. by destruct (deletes h).
Qed.

Lemma marks_only (deletes : Hash → result unit) hashes s :
  ∃ R, forM (λ h, liftM (wrapR ERR_PROCESSING (deletes h)) ;! Remove h) hashes s =
    (match first_failure deletes hashes with None => Ok tt | Some e => Err (err_wrap ERR_PROCESSING e) end, set_removeMap R s).
Proof.
  unfold first_failure. revert s. induction hashes as [|h hashes IH]; intros s; cbn [forM].
  { exists (stp_removeMap s). by rewrite set_removeMap_id. }
  unfold bindM at 1 2, liftM. cbn. destruct (deletes h) as [[]|e]; cbn [wrapR].
  - destruct (IH (set_removeMap ({[h]} ∪ stp_removeMap s) s)) as (R & E). exists R. exact E.
  - exists (stp_removeMap s). by rewrite set_removeMap_id.
Qed.

Lemma removeCoinbase_eq (children : result (list Hash)) deletes coinbase txs s : assembled n txs s → running s →
  (∀ hs, children = Ok hs → Forall (.≠ CoinbasePlaceholderHashValue) hs) →
  ∃ s', removeCoinbaseUtxos children deletes coinbase s =
      (match coinbase_failure children deletes coinbase with None => Ok tt | Some e => Err e end, s') ∧
    assembled n (keep_all (coinbase_spenders children deletes) txs) s' ∧ running s' ∧ stp_queue s' = stp_queue s ∧ aside s s'.
Proof.
  intros H Hr Hc. assert (keep_all [] txs = txs) as E0 by (apply list_filter_all; intros x _; apply not_elem_of_nil).
  unfold removeCoinbaseUtxos, coinbase_failure, coinbase_spenders. destruct children as [hashes|e].
  2:{ exists s. rewrite E0. by destruct (error_Is e ERR_TX_NOT_FOUND). }
  assert (∀ t, liftM (I := I) (wrapR ERR_PROCESSING (deletes coinbase)) t =
    (match first_failure deletes [coinbase] with None => Ok tt | Some e => Err (err_wrap ERR_PROCESSING e) end, t)) as Hlast.
  { intros t. unfold liftM, first_failure. cbn. by destruct (deletes coinbase) as [[]|]. }
  rewrite first_failure_app. unfold bindM at 1. case_bool_decide as Eh.
  { subst hashes. exists s. unfold retM. rewrite Hlast. cbn. rewrite E0.
    split_and!; [unfold first_failure; cbn; by destruct (deletes coinbase) as [[]|]|done..]. }
  unfold bindM at 1. destruct (marks_only deletes hashes s) as (R & ->). set (s1 := set_removeMap R s).
  assert (assembled n txs s1) as H1 by by apply (assembled_same n txs s).
  destruct (first_failure deletes hashes) as [e|].
  { exists s1. rewrite E0. split_and!; [reflexivity|done..|by split]. }
  destruct (removeTxs_eq n hashes txs s1 H1 Hr (Hc _ eq_refl)) as (s2 & E & H2 & Hr2 & Hq2). unfold wrapM. rewrite E. cbn [wrapR].
  exists s2. rewrite Hlast. split_and!; [by destruct (first_failure deletes [coinbase])|done|done|done|].
  pose proof (owned_removeTxs hashes s1) as Ho. rewrite E in Ho. etrans; [|exact Ho]. by split.
Qed.

(** ** A whole block back *)
Lemma moveBack_eq subtreeStore order (metas : Hash → result (list I)) children deletes block proper nodes inpoints conflicting txs s :
  assembled n txs s → running s →
  (if proper : bool then stp_currentItemsPerFile s else temporary_size) = Z.of_nat n →
  (∀ hs, children = Ok hs → Forall (.≠ CoinbasePlaceholderHashValue) hs) → NoDup order →
  (∃ subtrees, moveBackBlockGetSubtrees subtreeStore metas (ab_Subtrees block) = Ok subtrees ∧
    concat (map (λ '(nodes, _, _), nodes) subtrees) = nodes ∧ concat (map (λ '(_, inpoints, _), inpoints) subtrees) = inpoints ∧
    concat (map (λ '(_, _, c), c) subtrees) = conflicting) →
  length nodes = length inpoints → Forall real (tail nodes) → NoDup (map node_Hash (tail nodes)) → all_bucketed BucketFor order (tail nodes) →
  let gone := coinbase_spenders children deletes in let failure := fatal (coinbase_failure children deletes (ab_CoinbaseTx block)) in
  ∃ s', moveBackBlock BucketFor subtreeStore order metas children deletes block proper s =
      (match failure with None => Ok (nodes, conflicting) | Some e => Err (err_wrap ERR_PROCESSING e) end, s') ∧
    running s' ∧ stp_queue s' = stp_queue s ∧
    assembled n (match failure with None => returning (keep_all gone txs) (tail nodes) | Some _ => [] end ++ keep_all gone txs) s'.
Proof.
  intros H Hr Hsz Hch Hno (subtrees & Eg & En & Ei & Ec) Hlen Hx Hnd Hb gone failure.
  unfold moveBackBlock. unfold bindM at 1, liftM at 1. rewrite Eg. cbn [wrapR].
  unfold bindM at 1. destruct (removeCoinbase_eq children deletes (ab_CoinbaseTx block) txs s H Hr Hch) as (s1 & -> & H1 & Hr1 & Hq1 & Ha1).
  fold gone in H1. rewrite En, Ei, Ec, Hlen, Nat.eqb_refl. cbn [negb].
  destruct (back_eq n order (tail nodes) (tail inpoints) proper (keep_all gone txs) s1) as (s2 & E & H2 & Hc2 & Hq2);
    [apply H1|destruct nodes, inpoints; simpl in Hlen |- *; lia|done..| |].
  { pose proof (as_settings _ _ Ha1) as Ea. unfold settings_of in Ea. injection Ea as _ _ _ -> _. exact Hsz. }
  destruct (setTxCount_last n _ s2 H2) as (c & Ec2 & H3).
  unfold failure, fatal. destruct (coinbase_failure _ _ _) as [e|]; cbn [mbind option_bind].
  2:{ unfold bindM. rewrite E, Ec2. eexists. split; [reflexivity|]. split_and!; [unfold running; cbn; by rewrite Hc2|cbn; congruence|done]. }
  destruct (error_Is e ERR_TX_NOT_FOUND); [|by exists s1].
  unfold bindM. rewrite E, Ec2. eexists. split; [reflexivity|]. split_and!; [unfold running; cbn; by rewrite Hc2|cbn; congruence|done].
Qed.
End Buckets.
End Back.
