(* ===== verification/AssemblyGuarantees.v ===== *)
(** * What the subtree processor guarantees

    Every state it reaches passes its own check; what a block, a batch from the queue or a
    block taken back leaves of its transactions; what a failed block leaves; and that
    building in parallel and one at a time give the same subtrees. *)

From S2P Require Import Prelude External Merkle GoSubtree BodyBinding Queue Assembly AssemblyTheorems AssemblyOwned AssemblyReach Movement MovementTheorems MovementDrain MovementBack.

#[local] Opaque u64 i32.

(** ** A concrete model of the subtree library *)
Definition model_add `{Subtree} (st : SubtreeData) (x : Node) : result SubtreeData :=
  if (length (st_Nodes st) <? st_capacity st)%nat && negb (bool_decide (node_Hash x = CoinbasePlaceholderHashValue))
  then Ok (mkSubtree (st_Nodes st ++ [x]) (st_Height st) (st_capacity st) None)
  else Err (err ERR_ERROR).

Definition model_tree_library `{Chainhash, Subtree} : GoSubtree := {|
  IsPowerOfTwo := IsPowerOfTwo (GoSubtree := model_GoSubtree);
  RootHash := RootHash (GoSubtree := model_GoSubtree);
  RootHashWithReplaceRootNode := RootHashWithReplaceRootNode (GoSubtree := model_GoSubtree);
  RootHashPadded := RootHashPadded (GoSubtree := model_GoSubtree);
  ReplaceRootNode := ReplaceRootNode (GoSubtree := model_GoSubtree);
  GetMerkleProof := GetMerkleProof (GoSubtree := model_GoSubtree);
  BuildMerkleTreeStoreFromBytes := BuildMerkleTreeStoreFromBytes (GoSubtree := model_GoSubtree);
  NewIncompleteTreeByLeafCount := NewIncompleteTreeByLeafCount (GoSubtree := model_GoSubtree);
  AddNode st h fee size := model_add st (mkNode h fee size);
|}.

Definition model_AssemblySubtree `{Subtree} : AssemblySubtree := {|
  NewTreeByLeafCount n :=
    if (0 <? n) && bool_decide (n = 2 ^ Z.log2 n) then Ok (mkSubtree [] (Z.to_nat (Z.log2 n)) (Z.to_nat n) None)
    else Err (err ERR_ERROR);
  AddCoinbaseNode st :=
    match st_Nodes st with
    | [] => Ok (mkSubtree [placeholder_node] (st_Height st) (st_capacity st) None)
    | _ => Err (err ERR_ERROR)
    end;
  AddSubtreeNode := model_add;
  IsComplete st := (length (st_Nodes st) =? st_capacity st)%nat;
  Size st := Z.of_nat (st_capacity st);
  NodeIndex st h := index_of_hash h (st_Nodes st);
  RemoveNodeAtIndex st i :=
    if (0 <=? i) && (i <? Length st) then Ok (mkSubtree (delete (Z.to_nat i) (st_Nodes st)) (st_Height st) (st_capacity st) None)
    else Err (err ERR_ERROR);
  Duplicate st := mkSubtree (st_Nodes st) (st_Height st) (length (st_Nodes st)) (st_claimed st);
  SizeInBytes st := u64 (foldr Z.add 0 (map node_SizeInBytes (st_Nodes st)));
|}.

#[export] Instance model_AssemblySubtree_spec `{Chainhash, SUB : Subtree} : AssemblySubtreeSpec (GS := model_tree_library) model_AssemblySubtree.
Proof.
  assert (∀ st x, AddNode (GoSubtree := model_tree_library) st (node_Hash x) (node_Fee x) (node_SizeInBytes x) = model_add st x) as Ha
    by (intros st [h f z]; done).
  split; cbn -[model_add].
  - intros n st. destruct (_ && _) eqn:E; [|done]. intros [= <-]. cbn. apply andb_true_iff in E as [?%Z.ltb_lt E%bool_decide_eq_true].
    split_and!; [done|done|lia|]. rewrite Z2Nat.id by apply Z.log2_nonneg. done.
  - intros k. rewrite Z.log2_pow2 by lia. rewrite bool_decide_true by done. rewrite (proj2 (Z.ltb_lt _ _)) by (apply Z.pow_pos_nonneg; lia). cbn. eauto.
  - by intros st ->.
  - intros st x Hl Hx. unfold model_add. rewrite (proj2 (Nat.ltb_lt _ _)) by done. by rewrite bool_decide_false.
  - intros st x [Hl|Hx]; unfold model_add; [rewrite (proj2 (Nat.ltb_ge _ _)) by done; cbn; eauto|].
    rewrite bool_decide_true by done. rewrite andb_false_r. eauto.
  - exact Ha.
  - intros st. destruct (Nat.eqb_spec (length (st_Nodes st)) (st_capacity st)); [by rewrite bool_decide_true|by rewrite bool_decide_false].
  - done.
  - done.
  - intros st i Hi. unfold Length. rewrite (proj2 (Z.leb_le _ _)), (proj2 (Z.ltb_lt _ _)) by lia. by rewrite Nat2Z.id.
  - done.
  - done.
Qed.

(** ** Every state that is reached *)
Section Guarantees.
  Context {I : Type} {TI : TxInpointsOps I}.
  Context {CH : Chainhash} {SUB : Subtree} {GS : GoSubtree} {AS : AssemblySubtree} {ASP : AssemblySubtreeSpec AS}.
  Implicit Types (s : SubtreeProcessor I) (txs : list Node).
  Context (n : nat) {LN : LeafCount n}.
  Context (BucketFor : Hash → Z) (ParallelSetIfNotExistsThreshold : Z) (subtreeStore : Hash → stored).

(** The transactions of a state are distinct from what is loaded into it. *)
Definition loadable_into s (new : list (UnminedTransaction I)) : Prop :=
  Forall (λ tx, real (um_Node tx) ∧ is_Some (um_TxInpoints tx)) new ∧ NoDup (map node_Hash (all_nodes s ++ map um_Node new)).

(** What runs on the processor's goroutine, and what producers do to its queue. *)
Inductive reachable : SubtreeProcessor I → Prop :=
  | reach_new interval s : NewSubtreeProcessor interval (Z.of_nat n) None = Ok s → reachable s
  | reach_header h s : reachable s → reachable (InitCurrentBlockHeader h s).2
  | reach_add x i skip s : reachable s → real x → reachable (addDirectly x (Some i) skip s).2
  | reach_load writes new skip s : reachable s → writes ≡ₚ new → loadable_into s new → reachable (addNodesDirectly writes new skip s).2
  | reach_mark h s : reachable s → reachable (Remove h s).2
  | reach_remove h s : reachable s → h ≠ CoinbasePlaceholderHashValue → reachable (removeTxFromSubtrees h s).2
  | reach_removes hs s : reachable s → Forall (.≠ CoinbasePlaceholderHashValue) hs → reachable (removeTxsFromSubtrees hs s).2
  | reach_enqueue b s : reachable s → queued_ok b → reachable (set_queue (stp_queue s ++ [b]) s)
  | reach_dequeue v order s : reachable s → visits (pass_batches v s) order → reachable (dequeue_pass v order s).2
  | reach_check s : reachable s → reachable (checkSubtreeProcessor s).2
  | reach_block answers order run orders block s : reachable s → all_bucketed BucketFor order (all_nodes s) →
      ab_CoinbaseTx block ∉ map node_Hash (all_nodes s) → Forall (Forall queued_ok) (dr_arrivals run) → 0 <= dr_reserved run → orders_ok orders →
      reachable (handleMoveForwardRequest BucketFor ParallelSetIfNotExistsThreshold subtreeStore answers order run orders block s).2.

#[local] Notation sound := (sound n).

Lemma new_sound interval s : Z.of_nat n < 2 ^ 31 → NewSubtreeProcessor (I := I) interval (Z.of_nat n) None = Ok s → sound [] s.
Proof.
  intros Hn. unfold NewSubtreeProcessor. destruct (_ <=? _); [done|]. rewrite (new_tree n). cbn [foreignR wrapR bindR].
  rewrite AddCoinbaseNode_spec by done. cbn [foreignR wrapR bindR]. change (mkSubtree [placeholder_node] _ _ None) with (tree n [placeholder_node]).
  unfold setTxCountFromSubtrees. cbn [stp_currentSubtree snd]. intros [= <-]. split; [|done|constructor|done|done| |].
  - apply (empty_assembled n); [by apply (laid_placeholder n)|done].
  - done.
  - with_strategy transparent [i32] (unfold i32). cbn [stp_currentItemsPerFile set_txCount]. rewrite Z.mod_small by lia. lia.
Qed.

Lemma sound_same txs s s' : sound txs s → stp_chainedSubtrees s' = stp_chainedSubtrees s → stp_currentSubtree s' = stp_currentSubtree s →
  stp_maps s' = stp_maps s → stp_ctx s' = stp_ctx s → Forall queued_ok (stp_queue s') →
  (stp_currentTxMap s', stp_currentTxMapShadow s', stp_disableCurrentTxMapPool s', stp_currentItemsPerFile s') =
  (stp_currentTxMap s, stp_currentTxMapShadow s, stp_disableCurrentTxMapPool s, stp_currentItemsPerFile s) → sound txs s'.
Proof.
  intros [Ha Hr _ Hp H2 Hs Hz] E1 E2 E3 E4 Hq E. injection E as F1 F2 F3 F4.
  split; [|unfold running; congruence|done|congruence|congruence| |congruence].
  - apply (assembled_same n txs s); [done..|]. unfold current_map, map_at. by rewrite E3, F1.
  - unfold map_at. rewrite E3, F2. exact Hs.
Qed.

(** After an operation that owns nothing but the map in use. *)
Lemma sound_owned {A} (m : M A) txs txs' s s' r : sound txs s → owned m → m s = (r, s') → assembled n txs' s' → running s' →
  Forall queued_ok (stp_queue s') → sound txs' s'.
Proof.
  intros H Ho E Ha Hr Hq. eapply sound_aside; [exact H| |done..]. pose proof (Ho s) as Hs. by rewrite E in Hs.
Qed.

Lemma reachable_sound s : Z.of_nat n < 2 ^ 31 → reachable s → ∃ txs, sound txs s.
Proof.
  intros Hn. induction 1 as [i s E|h s _ [txs H]|x i skip s _ [txs H] Hx|writes new skip s _ [txs H] Hp [Hok Hnd]|h s _ [txs H]|h s _ [txs H] Hh|
    hs s _ [txs H] Hhs|b s _ [txs H] Hb|v order s _ [txs H] Hv|s _ [txs H]|answers order run orders block s _ [txs H] Hord Hcb Har Hres Hords].
  - exists []. by eapply new_sound.
  - exists txs. eapply sound_same; [exact H|done..|apply H|done].
  - destruct (addDirectly x (Some i) skip s) as [r s'] eqn:E. assert (∃ r1 s1, addNode x (Some i) skip s = (r1, s1) ∧ (s' = s1 ∨ s' = txCount_Add 1 s1)) as (r1 & s1 & E1 & Es).
    { unfold addDirectly, bindM, wrapM in E. destruct (addNode x (Some i) skip s) as [[[]|e] s1]; cbn in E; injection E as _ <-; eauto. }
    destruct (addNode_assembled n x i skip txs s r1 s1 (so_assembled _ _ _ H) Hx E1) as (H1 & Hq & _ & Hr). destruct (Hr (so_running _ _ _ H)) as [_ Hr1].
    eexists. eapply (sound_owned (addDirectly x (Some i) skip)); [exact H|apply owned_addDirectly|exact E| | |].
    + destruct Es as [->| ->]; [exact H1|]. by apply (assembled_same n _ s1).
    + by destruct Es as [->| ->].
    + destruct Es as [->| ->]; cbn; rewrite Hq; apply H.
  - rewrite (laid_nodes n _ _ (am_laid _ _ _ (so_assembled _ _ _ H))) in Hnd. cbn in Hnd. apply NoDup_cons in Hnd as [_ Hnd].
    destruct (addNodesDirectly_eq n writes new skip txs s (so_assembled _ _ _ H) (so_running _ _ _ H) Hp (conj Hok Hnd)) as (s' & E & H1 & Hr1 & Hq).
    eexists. rewrite E. cbn [snd]. eapply (sound_owned (addNodesDirectly writes new skip)); [exact H|apply owned_addNodesDirectly|exact E|done|done|]. rewrite Hq. apply H.
  - exists txs. eapply sound_same; [exact H|done..|apply H|done].
  - destruct (removeTx_eq n h txs s (so_assembled _ _ _ H) (so_running _ _ _ H) Hh) as (s' & E & H1 & Hr1 & Hf).
    eexists. rewrite E. cbn [snd]. eapply (sound_owned (removeTxFromSubtrees h)); [exact H|apply owned_removeTx|exact E|done|done|].
    apply frame_queue in Hf. rewrite Hf. case_bool_decide; [rewrite forgotten_queue|]; apply H.
  - destruct (removeTxs_eq n hs txs s (so_assembled _ _ _ H) (so_running _ _ _ H) Hhs) as (s' & E & H1 & Hr1 & Hq).
    eexists. rewrite E. cbn [snd]. eapply (sound_owned (removeTxsFromSubtrees hs)); [exact H|apply owned_removeTxs|exact E|done|done|]. rewrite Hq. apply H.
  - exists txs. eapply sound_same; [exact H|done..| |done]. apply Forall_app. split; [apply H|by constructor].
  - destruct (dequeue_pass_eq n v order txs s (so_assembled _ _ _ H) (so_running _ _ _ H) (so_queue _ _ _ H) Hv) as (q & new & s' & Eq & E & H1 & Hr1 & Hq & _).
    eexists. rewrite E. cbn [snd]. eapply (sound_owned (dequeue_pass v order)); [exact H|apply owned_dequeue_pass|exact E|done|done|].
    rewrite Hq. pose proof (so_queue _ _ _ H) as Hall. rewrite Eq in Hall. by apply Forall_app in Hall as [_ ?].
  - exists txs. unfold checkSubtreeProcessor, bindM, readM, liftM, currentM. rewrite (proj2 (am_laid _ _ _ (so_assembled _ _ _ H))).
    destruct (check_all_chained _ _ _); [|exact H]. destruct (check_current _ _ _); [|exact H].
    unfold setTxCountFromSubtrees. rewrite (proj2 (am_laid _ _ _ (so_assembled _ _ _ H))).
    assert (∀ c, sound txs (set_txCount c s)) as Hc by (intros c; eapply sound_same; [exact H|done..|apply H|done]).
    destruct (_ =? _); apply Hc.
  - assert (all_nodes s = placeholder_node :: txs) as Ea by (rewrite (laid_nodes n _ _ (am_laid _ _ _ (so_assembled _ _ _ H))); done). rewrite Ea in *.
    assert (fits BucketFor (request order run) block txs) as Hfit.
    { split; [done|done| | |].
      - intros x Hx. apply Hord. by right.
      - intros x ->%list_elem_of_singleton. apply Hord. left.
      - intros Hin. apply Hcb. by right. }
    pose proof (handle_eq n BucketFor ParallelSetIfNotExistsThreshold subtreeStore answers order run orders block txs s H Hfit Har Hres Hords) as Hh.
    destruct (handleMoveForwardRequest _ _ _ _ _ _ _ _ s) as [[[]|e] s']; [|exists txs; apply Hh]. destruct Hh as (_ & _ & txs' & Hs & _). by exists txs'.
Qed.

Lemma sound_nodes txs s : sound txs s → all_nodes s = placeholder_node :: txs.
Proof. intros H. by rewrite (laid_nodes n _ _ (am_laid _ _ _ (so_assembled _ _ _ H))). Qed.

(** C16: whatever was added, removed, dequeued and whatever blocks came, in any order, the processor's check of its own state answers nil and counts every transaction. *)
Theorem reachable_checked s : Z.of_nat n < 2 ^ 31 → reachable s → Z.of_nat (length (all_nodes s)) < 2 ^ 64 →
  checkSubtreeProcessor s = (Ok tt, set_txCount (Z.of_nat (length (all_nodes s))) s).
Proof.
  intros Hn [txs H]%reachable_sound Hl; [|done]. rewrite (sound_nodes _ _ H) in *. cbn [length] in *.
  rewrite (check_ok n txs) by (lia || apply H). do 2 f_equal. lia.
Qed.

(** ** A block *)
Lemma subtree_indexes_keys i hs (m : gmap Hash nat) id : is_Some (subtree_indexes i hs m !! id) → id ∈ hs ∨ is_Some (m !! id).
Proof.
  revert i m. induction hs as [|h hs IH]; intros i m; cbn [subtree_indexes]; [by right|]. intros [?|[<-|?]%lookup_insert_is_Some']%IH;
    [left; by right|left; left|by right].
Qed.

Lemma split_own_rest m sts m' own st : split_own m sts = Some (m', own) → st ∈ sts →
  st ∈ own ∨ ∃ id, RootHash st = Some id ∧ is_Some (m !! id).
Proof.
  revert m m' own. induction sts as [|t sts IH]; intros m m' own; cbn [split_own]; [by intros _ ?%not_elem_of_nil|].
  destruct (RootHash t) as [id|] eqn:Er; [|done]. destruct (m !! id) as [j|] eqn:Em.
  - intros E [->|Hin]%elem_of_cons; [right; exists id; rewrite Em; eauto|]. destruct (IH _ _ _ E Hin) as [?|(id' & ? & [w [_ Hw]%lookup_delete_Some])]; [by left|].
    right. exists id'. split; [done|]. rewrite Hw. eauto.
  - destruct (split_own m sts) as [[m1 own1]|] eqn:E; [|done]. intros [= _ <-] [->|Hin]%elem_of_cons; [left; left|].
    destruct (IH _ _ _ E Hin); [left; by right|by right].
Qed.

Lemma elem_of_concat {A} (x : A) ls : x ∈ concat ls ↔ ∃ l, x ∈ l ∧ l ∈ ls.
Proof. setoid_rewrite list_elem_of_In. rewrite in_concat. naive_solver. Qed.

(** In a subtree of ours that the block has. *)
Definition in_block (block : AssembledBlock) s (x : Node) : Prop := ∃ st id,
  st ∈ stp_chainedSubtrees s ∧ x ∈ st_Nodes st ∧ RootHash st = Some id ∧ id ∈ ab_Subtrees block.

Definition refused (d : deferredBlockDrain) (C : gset Hash) (h : Hash) : Prop :=
  h ∈ df_transactionMap d ∨ h ∈ df_losingTxHashesMap d ∨ h ∈ C.

(** What the conflicts of the block marked. *)
Definition conflict_set answers (p : forward_params (I := I)) block s (C : gset Hash) : Prop := ∃ m own T L conflicting,
  split_own (subtree_indexes 0 (ab_Subtrees block) ∅) (stp_chainedSubtrees s) = Some (m, own) ∧
  createTransactionMapIfNeeded subtreeStore answers block m = Ok (T, conflicting) ∧
  processConflictingTransactions answers (fw_processed p) (fw_cascaded p) conflicting = Ok (L, C).

Lemma applied_grown answers p block s d kept : applied subtreeStore answers p block s d kept →
  ∃ C, conflict_set answers p block s C ∧ grown (spent_in (current_map s)) C (df_conflictingHashes d).
Proof. intros [m own cur cn T L C C' E1 _ E2 E3 E4%kept_of_grown ->]. exists C. split; [by exists m, own, T, L, cn|done]. Qed.

Lemma applied_keeps answers p block txs s d kept : sound txs s → applied subtreeStore answers p block s d kept →
  kept `sublist_of` txs ∧
  (df_drainQueue d = true → ∀ x, x ∈ kept → ¬ refused d ∅ (node_Hash x)) ∧
  (df_drainQueue d = true → parents_first (current_map s) txs → ∀ x, x ∈ kept → ¬ conflicts (current_map s) (df_conflictingHashes d) x) ∧
  (∀ x, x ∈ txs → x ∈ kept ∨ node_Hash x ∈ stp_removeMap s ∨ in_block block s x ∨ refused d (df_conflictingHashes d) (node_Hash x)).
Proof.
  intros H [m own cur cn T L C C' Esp Ecur _ _ Ek ->]. pose proof (so_assembled _ _ _ H) as Ha. pose proof (am_loose _ _ _ Ha) as Hlo.
  destruct (staying_facts n txs s _ _ _ _ Ha Esp Ecur) as [Hsub Hnr Hin].
  assert (∀ x, x ∈ txs → x ∈ staying own cur ∨ in_block block s x) as Hwhere.
  { intros x Hx. assert (x ∈ all_nodes s) as Hax by (rewrite (sound_nodes _ _ H); by right). unfold all_nodes in Hax. rewrite Ecur in Hax.
    apply elem_of_app in Hax as [Hax|Hax]; [|left; unfold staying; rewrite map_app, concat_app; apply elem_of_app; right; cbn; by rewrite app_nil_r].
    apply elem_of_concat in Hax as (xs & Hxs & Hst). apply list_elem_of_fmap in Hst as (st & -> & Hst).
    destruct (split_own_rest _ _ _ _ st Esp Hst) as [Ho|(id & Er & Hid)].
    - left. unfold staying. rewrite map_app, concat_app. apply elem_of_app. left. apply elem_of_concat. exists (st_Nodes st). split; [done|].
      apply list_elem_of_fmap. by exists st.
    - right. apply subtree_indexes_keys in Hid as [Hid|[? ?]]; [|done]. by exists st, id. }
  assert (∀ x, x ∈ txs → real x) as Hreal by (intros x Hx; by apply (proj1 (Forall_forall _ _) (lo_real _ _ _ Hlo))).
  unfold kept_of in Ek. cbn [df_drainQueue df_transactionMap df_losingTxHashesMap df_conflictingHashes]. unfold refused. cbn [df_transactionMap df_losingTxHashesMap].
  destruct (foreign T) eqn:Ef.
  - assert (sourced (current_map s) (left_over (stp_removeMap s) (default ∅ T) L (staying own cur))) as Hs
      by (eapply sourced_sublist; [apply Hsub|by eapply loose_sourced]).
    destruct (drop_conflicting_spec n (current_map s) _ C Hs) as (k & C2 & E2 & D1 & D2 & D3 & D4 & D5). rewrite E2 in Ek. injection Ek as -> ->.
    split_and!.
    + etrans; [exact D1|apply Hsub].
    + intros _ x Hx. apply (elem_of_sublist _ _ _ Hx) in D1. apply list_elem_of_filter in D1 as [(_ & _ & ? & ?) _]. set_solver.
    + intros _ Hp. apply D5; [|eapply parents_first_sublist; [apply Hsub|done]]. eapply sublist_NoDup; [apply (lo_once _ _ _ Hlo)|]. apply fmap_sublist, Hsub.
    + intros x Hx. destruct (Hwhere x Hx) as [Hst|?]; [|auto]. destruct (decide (node_Hash x ∈ stp_removeMap s)); [auto|].
      destruct (decide (node_Hash x ∈ default ∅ T)); [auto 6|]. destruct (decide (node_Hash x ∈ L)); [auto 6|].
      destruct (D4 x) as [?|?]; [apply list_elem_of_filter; auto 7|auto|auto 7].
  - injection Ek as <- <-. split_and!; [apply Hsub|done|done|]. intros x Hx. destruct (Hwhere x Hx) as [Hst|?]; [|auto].
    destruct (decide (node_Hash x ∈ stp_removeMap s)); [auto|]. left. apply list_elem_of_filter. split_and!; [auto|done|apply not_elem_of_empty..|done].
Qed.

(** The conditions under which a block is handled. *)
Record handles order (run : drain_run (I := I)) (orders : list (TxBatch (option I)) → list nat) block txs s : Prop := {
  hn_sound : sound txs s;
  hn_fits : fits BucketFor (request order run) block txs;
  hn_arrivals : Forall (Forall queued_ok) (dr_arrivals run);
  hn_reserved : 0 <= dr_reserved run;
  hn_orders : orders_ok orders;
}.

Lemma handled answers order run orders block txs s r s' : handles order run orders block txs s →
  handleMoveForwardRequest BucketFor ParallelSetIfNotExistsThreshold subtreeStore answers order run orders block s = (r, s') →
  match r with
  | Err _ => sound txs s' ∧ stp_currentBlockHeader s' = stp_currentBlockHeader s ∧ stp_queue s' = stp_queue s ∧ current_map s' = current_map s
  | Ok _ => ∃ txs', sound txs' s' ∧ moved subtreeStore answers order run block txs s s' txs'
  end.
Proof.
  intros [H1 H2 H3 H4 H5] E.
  pose proof (handle_eq n BucketFor ParallelSetIfNotExistsThreshold subtreeStore answers order run orders block txs s H1 H2 H3 H4 H5) as Hh.
  rewrite E in Hh. destruct r; [|exact Hh]. by destruct Hh as (_ & _ & Hh).
Qed.

(** C17: after a block that brings transactions of its own, nothing held, kept or taken from the queue, is in the block, is a loser of its conflicts or is conflicting, and nothing spends a conflicting transaction: neither what was held before nor what was taken from the queue, by the inpoints it is now held with.  When no transaction waits before one it spends, nothing taken spends one that was refused on the way either, so no descendant is left. *)
Theorem block_excludes answers order run orders block txs s s' : handles order run orders block txs s →
  parents_first (current_map s) txs → ab_Subtrees block ≠ [] →
  handleMoveForwardRequest BucketFor ParallelSetIfNotExistsThreshold subtreeStore answers order run orders block s = (Ok tt, s') →
  ∃ d kept, applied subtreeStore answers (request order run) block s d kept ∧
    (df_drainQueue d = true →
      (∀ x, x ∈ all_nodes s' → real x → ¬ refused d (df_conflictingHashes d) (node_Hash x)) ∧
      (∀ x, x ∈ kept → ¬ conflicts (current_map s) (df_conflictingHashes d) x) ∧
      ∃ new taken C', all_nodes s' = placeholder_node :: kept ++ new ∧ taken `prefix_of` stp_queue s ++ concat (dr_arrivals run) ∧
        df_conflictingHashes d ⊆ C' ∧
        (∀ b x, b ∈ taken → x ∈ b_nodes b → node_Hash x ∈ map node_Hash (all_nodes s') ∨ refused d C' (node_Hash x)) ∧
        (∀ x, x ∈ new → ¬ conflicts (current_map s') (df_conflictingHashes d) x) ∧
        (in_order (items_of taken) → ∀ x i, x ∈ new → current_map s' !! node_Hash x = Some (Some i) →
          Forall (.∉ C') (ParentTxHashes i))).
Proof.
  intros Hn Hp Hne E. pose proof (hn_sound _ _ _ _ _ _ Hn) as H. destruct (handled _ _ _ _ _ _ _ _ _ Hn E) as (txs' & Hs & Hm).
  destruct Hm as [?|d kept Ha Hd _|d kept new C' taken k Ha Hd _ Hnew HC Hg Hacc Hq _ Hsp]; [done|exists d, kept; split; [done|congruence]|].
  exists d, kept. split; [done|]. intros _. destruct (applied_keeps _ _ _ _ _ _ _ H Ha) as (_ & Hk1 & Hk2 & _).
  specialize (Hk1 Hd). specialize (Hk2 Hd Hp). pose proof (sound_nodes _ _ Hs) as En. split_and!; [|done|].
  - intros x Hx Hr. rewrite En in Hx. apply elem_of_cons in Hx as [->|Hx]; [by destruct not_real|]. apply elem_of_app in Hx as [Hx|Hx].
    + specialize (Hk1 x Hx). specialize (Hk2 x Hx). unfold refused in *. intros [?|[?|?]]; [apply Hk1; auto|apply Hk1; auto|apply Hk2; by left].
    + destruct (proj1 (Forall_forall _ _) Hnew x Hx) as (? & ? & ?). unfold refused. tauto.
  - exists new, taken, C'. split_and!; [done| |done|..].
    + exists (stp_queue s' ++ concat (drop k (dr_arrivals run))).
      by rewrite (assoc_L (++)), <- Hq, <- (assoc_L (++)), <- concat_app, take_drop.
    + intros b x Hb Hx. assert (x ∈ concat (map b_nodes taken)) as Hin.
      { apply elem_of_concat. exists (b_nodes b). split; [done|]. apply list_elem_of_fmap. by exists b. }
      destruct (proj1 (Forall_forall _ _) Hacc x Hin) as [Hh|Hh]; [left|by right]. rewrite En. cbn [map]. by right.
    + intros x Hx. apply (spends_none_start _ _ _ _ _ _ x Hsp Hx). by apply (proj1 (Forall_forall _ _) Hnew x Hx).
    + intros Ho x i Hx Hi. eapply spends_none_end; [exact Hsp| |done..]. intros E0. rewrite E0 in Hg. by apply (grown_empty _ _ Hg).
Qed.

(** C18: a block loses nothing: what was held is still held unless it was marked for removal, is in the block, lost a conflict or descends from what the block's conflicts marked; and every batch that waited in the queue, old enough to be taken, is held too, or refused for one of these conflicts. *)
Theorem block_loses_nothing answers order run orders block txs s s' : handles order run orders block txs s → ab_Subtrees block ≠ [] →
  handleMoveForwardRequest BucketFor ParallelSetIfNotExistsThreshold subtreeStore answers order run orders block s = (Ok tt, s') →
  ∃ d kept C C', applied subtreeStore answers (request order run) block s d kept ∧ conflict_set answers (request order run) block s C ∧
    grown (λ h p, spent_in (current_map s) h p ∨ spent_by (items_of (stp_queue s ++ concat (dr_arrivals run))) h p) C C' ∧
    (∀ x, x ∈ txs → x ∈ all_nodes s' ∨ node_Hash x ∈ stp_removeMap s ∨ in_block block s x ∨ refused d C' (node_Hash x)) ∧
    (df_drainQueue d = true → ∀ waiting later b x, stp_queue s = waiting ++ later → Forall (eligible (dr_validFromMillis run)) waiting →
      b ∈ waiting → x ∈ b_nodes b → node_Hash x ∈ map node_Hash (all_nodes s') ∨ refused d C' (node_Hash x)).
Proof.
  intros Hn Hne E. pose proof (hn_sound _ _ _ _ _ _ Hn) as H. destruct (handled _ _ _ _ _ _ _ _ _ Hn E) as (txs' & Hs & Hm).
  pose proof (sound_nodes _ _ Hs) as En. destruct Hm as [?|d kept Ha Hd _|d kept new C' taken k Ha Hd _ _ HC HC0 Hacc Hq [Htk _] _]; [done|..];
    destruct (applied_keeps _ _ _ _ _ _ _ H Ha) as (_ & _ & _ & Hk); destruct (applied_grown _ _ _ _ _ _ Ha) as (C & HCs & Hg).
  - exists d, kept, C, (df_conflictingHashes d). split_and!; [done|done|eapply grown_mono; [|exact Hg]; auto| |congruence]. intros x Hx.
    destruct (Hk x Hx) as [?|?]; [|tauto]. left. rewrite En. by right.
  - exists d, kept, C, C'. split_and!; [done|done| | |].
    + eapply grown_trans; [|eapply grown_mono; [|exact Hg]|exact HC0]; intros h q; cbn; [|auto]. intros Hsp. right.
      rewrite <- (take_drop k (dr_arrivals run)), concat_app, (assoc_L (++)), Hq, !items_of_app, !spent_by_app. auto.
    + intros x Hx. destruct (Hk x Hx) as [Hin|[?|[?|[?|[?|?]]]]]; [left; rewrite En; right; apply elem_of_app; by left|auto|auto|..];
        right; right; right; unfold refused; [auto|auto|set_solver].
    + intros _ waiting later b x Eq Hw Hb Hx. destruct (Htk waiting later Eq Hw) as [more ->]. rewrite map_app, concat_app in Hacc.
      apply Forall_app in Hacc as [Hacc _]. assert (x ∈ concat (map b_nodes waiting)) as Hin.
      { apply elem_of_concat. exists (b_nodes b). split; [done|]. apply list_elem_of_fmap. by exists b. }
      destruct (proj1 (Forall_forall _ _) Hacc x Hin) as [Hh|Hh]; [left|by right]. rewrite En. cbn [map]. by right.
Qed.

(** C19: when a block cannot be applied, whatever failed and however far it had come, the rollback restores the subtrees, the transactions held with their parents, the queue and the tip, and leaves the spare map empty.  The counters of the chained subtrees and the removal marks the block consumed are not among what is restored; for the counters see [failed_block_forgets_count]. *)
Theorem block_failure_undone answers order run orders block txs s e s' : handles order run orders block txs s →
  handleMoveForwardRequest BucketFor ParallelSetIfNotExistsThreshold subtreeStore answers order run orders block s = (Err e, s') →
  stp_chainedSubtrees s' = stp_chainedSubtrees s ∧ stp_currentSubtree s' = stp_currentSubtree s ∧ current_map s' = current_map s ∧
  stp_queue s' = stp_queue s ∧ stp_currentBlockHeader s' = stp_currentBlockHeader s ∧ sound txs s'.
Proof.
  intros Hn E. destruct (handled _ _ _ _ _ _ _ _ _ Hn E) as (Hs & Hh & Hq & Hm). pose proof (hn_sound _ _ _ _ _ _ Hn) as H.
  destruct (laid_unique n _ s s' (am_laid _ _ _ (so_assembled _ _ _ H)) (am_laid _ _ _ (so_assembled _ _ _ Hs))). done.
Qed.

(** C20: filling the remainder of a block in parallel, chunk by chunk, leaves the state that adding its transactions one at a time leaves, completed subtrees, storage requests and mining data included. *)
Theorem parallel_build_agrees l kept skip s : laid n l s → Forall real kept → stp_ctx s ≠ Some O →
  ∀ s', parallelBuildRemainderSubtrees kept skip s = (Ok tt, s') ↔ forM (λ x, addNodePreValidated x skip) kept s = (Ok tt, s').
Proof. intros Hl Hk Hc s'. rewrite (parallel_eq n l) by done. symmetry. by apply (sequential_eq n). Qed.

(** C21: taking a block back first removes what spends its coinbase: if the store tells the spenders and deletes every one of them, exactly they leave the assembly, and otherwise nothing does.  The move fails exactly when the store's answer about the spenders or one of the deletions, the coinbase's at last, fails other than because the transaction is missing, with that error; the rest of what was held then stays.  Otherwise it answers the block's nodes and conflicting transactions, and those of its transactions that were not held come before the ones that were. *)
Theorem moveBackBlock_spec order (metas : Hash → result (list I)) children deletes block proper nodes inpoints conflicting subtrees txs s :
  assembled n txs s → running s → (if proper : bool then stp_currentItemsPerFile s else temporary_size) = Z.of_nat n →
  (∀ hs, children = Ok hs → Forall (.≠ CoinbasePlaceholderHashValue) hs) →
  moveBackBlockGetSubtrees subtreeStore metas (ab_Subtrees block) = Ok subtrees →
  concat (map (λ '(nodes, _, _), nodes) subtrees) = nodes → concat (map (λ '(_, inpoints, _), inpoints) subtrees) = inpoints →
  concat (map (λ '(_, _, c), c) subtrees) = conflicting →
  length nodes = length inpoints → Forall real (tail nodes) → NoDup (map node_Hash (tail nodes)) →
  NoDup order → all_bucketed BucketFor order (tail nodes) →
  let gone := coinbase_spenders children deletes in let failure := fatal (coinbase_failure children deletes (ab_CoinbaseTx block)) in
  ∃ s', moveBackBlock BucketFor subtreeStore order metas children deletes block proper s =
      (match failure with None => Ok (nodes, conflicting) | Some e => Err (err_wrap ERR_PROCESSING e) end, s') ∧
    assembled n (match failure with None => returning (keep_all gone txs) (tail nodes) | Some _ => [] end ++ keep_all gone txs) s'.
Proof.
  intros H Hr Hsz Hch Eg En Ei Ec Hlen Hx Hnd Ho Hb gone failure.
  destruct (moveBack_eq n BucketFor subtreeStore order metas children deletes block proper nodes inpoints conflicting txs s)
    as (s' & E & _ & _ & Hres); try done; [by exists subtrees|]. by exists s'.
Qed.

(** One pass over the queue takes whole batches from its head and appends their transactions, in queue order, to those held: each is held afterwards unless it was marked for removal, and none twice. *)
Theorem dequeue_pass_spec v order txs s : assembled n txs s → running s → Forall queued_ok (stp_queue s) →
  visits (pass_batches v s) order →
  ∃ new s', dequeue_pass v order s = (Ok tt, s') ∧ assembled n (txs ++ new) s' ∧
    new `sublist_of` concat (map b_nodes (pass_batches v s)) ∧ stp_queue s = pass_batches v s ++ stp_queue s' ∧
    ∀ b x, b ∈ pass_batches v s → x ∈ b_nodes b → node_Hash x ∈ map node_Hash (txs ++ new) ∨ node_Hash x ∈ stp_removeMap s.
Proof.
  intros H Hr Hq Hv. destruct (dequeue_pass_eq n v order txs s H Hr Hq Hv) as (q & new & s' & E1 & E2 & H1 & _ & <- & H2 & H3).
  by exists new, s'.
Qed.

(** C22: however fast producers publish, draining the queue after a block ends, having taken every batch that waited and was old enough, and at most one batch beyond the number of transactions that waited when it began. *)
Theorem drain_bounded run orders d txs s : assembled n txs s → running s → Forall queued_ok (stp_queue s) →
  Forall (Forall queued_ok) (dr_arrivals run) → 0 <= dr_reserved run → orders_ok orders →
  ∃ s' taken k, drainQueueAfterBlock run orders d s = (Ok tt, s') ∧
    stp_queue s ++ concat (take k (dr_arrivals run)) = taken ++ stp_queue s' ∧
    (∀ waiting later, stp_queue s = waiting ++ later → Forall (eligible (dr_validFromMillis run)) waiting → waiting `prefix_of` taken) ∧
    (taken = [] ∨ ∃ l b, taken = l ++ [b] ∧ queue_items l < queue_items (stp_queue s) + dr_reserved run).
Proof.
  intros H Hr Hq Ha Hres Ho. destruct (drainQueue_eq n run orders d txs s H Hr Hq Ha Hres Ho) as (s' & E & new & C' & taken & k & A).
  destruct A as (_ & _ & _ & _ & _ & _ & _ & _ & _ & Hk & [Ht Hb] & _). exists s', taken, k. split_and!; [done..|].
  destruct Hb as [?|(l & b & ? & ?)]; [by left|right; exists l, b; split; [done|lia]].
Qed.
End Guarantees.

(** ** Witnesses *)
Section Witnesses.
  #[local] Existing Instances model_Chainhash model_Subtree model_tree_library model_AssemblySubtree.

#[local] Instance ex_inpoints : TxInpointsOps (list Hash) := {| ParentTxHashes i := i |}.

#[local] Instance ex_four : LeafCount 4.
Proof. split; [reflexivity|lia]. Qed.

Definition ex_bucket (h : Hash) : Z := Z.of_nat (length (hash_bytes h)).
Definition ex_node (k : Z) : Node := mkNode (hash_of_Z k) 1 100.
Definition ex_tree : SubtreeData := mkSubtree [placeholder_node; ex_node 1] 1 2 None.

(** A block with transaction 1, in a subtree of its own, which transaction 9 of the block conflicts with 2. *)
Definition ex_store (h : Hash) : stored := if bool_decide (h = hash_of_Z 50) then File ex_tree [hash_of_Z 9] else NoFile.
Definition ex_block : AssembledBlock := mkBlock (hash_of_Z 61) (hash_of_Z 60) [hash_of_Z 50] (hash_of_Z 70).
Definition ex_answers (coinbase : result unit) : block_answers :=
  mkAnswers None (Ok tt) (λ _, Ok ({[hash_of_Z 2]}, [hash_of_Z 2])) (λ _, Ok tt) coinbase.
Definition ex_run : drain_run (I := list Hash) := mkDrain 0 0 [].
Definition ex_batch : TxBatch (option (list Hash)) := mkBatch [ex_node 5; ex_node 1; ex_node 5] [Some []; Some []; Some []] 7.
Definition ex_orders (chunk : list (TxBatch (option (list Hash)))) : list nat :=
  seq 0 (length (concat (map (λ b, combine (b_nodes b) (b_txInpoints b)) chunk))).

Definition ex_new : SubtreeProcessor (list Hash) :=
  match NewSubtreeProcessor 1 4 None with Ok s => s | Err _ => mkStp [] None ∅ 0 0 false ∅ ∅ 0 0 0 0 None 0 None [] [] None end.

(** Transactions 1 to 4, 3 spending 2, and a batch that waits. *)
Definition ex_held : SubtreeProcessor (list Hash) :=
  let add x i s := (addDirectly (ex_node x) (Some i) false s).2 in
  let s := add 4 [hash_of_Z 1] (add 3 [hash_of_Z 2] (add 2 [] (add 1 [] (InitCurrentBlockHeader (hash_of_Z 60) ex_new).2))) in
  set_queue (stp_queue s ++ [ex_batch]) s.

Definition ex_txs : list Node := [ex_node 1; ex_node 2; ex_node 3; ex_node 4].

#[local] Notation ex_reachable := (reachable (I := list Hash) 4 ex_bucket 2 ex_store).
#[local] Notation ex_handle r := (handleMoveForwardRequest ex_bucket 2 ex_store (ex_answers r) [32] ex_run ex_orders ex_block ex_held).

Definition failed {A} (r : result A) : bool := match r with Ok _ => false | Err _ => true end.

Lemma pair_first {A B} (p : A * B) a : p.1 = a → p = (a, p.2).
Proof. destruct p. by intros <-. Qed.

Ltac ex_decide := apply (bool_decide_unpack _); vm_compute; exact I.

Lemma ex_queued : queued_ok ex_batch.
Proof.
  split_and!; [done| |repeat constructor; eauto].
  repeat (apply Forall_cons; split; [split; ex_decide|]). by apply Forall_nil.
Qed.

Lemma ex_reached : ex_reachable ex_held.
Proof.
  apply reach_enqueue; [|exact ex_queued].
  repeat (apply reach_add; [|ex_decide]). apply reach_header. apply (reach_new _ _ _ _ 1). reflexivity.
Qed.

Lemma ex_sound : sound 4 ex_txs ex_held.
Proof.
  destruct (reachable_sound 4 ex_bucket 2 ex_store ex_held) as [txs H]; [done|exact ex_reached|].
  pose proof (sound_nodes _ _ _ H) as E. assert (all_nodes ex_held = placeholder_node :: ex_txs) as E' by (vm_compute; reflexivity).
  rewrite E' in E. apply (f_equal (@tail Node)) in E. change (ex_txs = txs) in E. by rewrite E.
Qed.

Lemma ex_orders_ok : orders_ok ex_orders.
Proof. intros chunk i Hi%lookup_lt_is_Some. apply elem_of_seq. lia. Qed.

Lemma ex_buckets (order : list Z) txs : 32 ∈ order → all_bucketed ex_bucket order txs.
Proof. intros H x _. unfold ex_bucket. by rewrite length_hash_bytes. Qed.

Lemma ex_handles : handles 4 ex_bucket [32] ex_run ex_orders ex_block ex_txs ex_held.
Proof.
  split; [exact ex_sound| |constructor|done|exact ex_orders_ok].
  split; [done|done|apply ex_buckets; left|apply ex_buckets; left|ex_decide].
Qed.

Lemma reachable_checked_witness : let s := (ex_handle (Ok tt)).2 in
  map node_Hash (all_nodes s) = [CoinbasePlaceholderHashValue; hash_of_Z 4; hash_of_Z 5] ∧
  checkSubtreeProcessor s = (Ok tt, set_txCount (Z.of_nat (length (all_nodes s))) s).
Proof.
  split; [vm_compute; reflexivity|]. apply (reachable_checked 4 ex_bucket 2 ex_store); [reflexivity| |vm_compute; reflexivity].
  apply reach_block; [exact ex_reached|apply ex_buckets; left|ex_decide|constructor|done|exact ex_orders_ok].
Defined.

Lemma ex_handled : ex_handle (Ok tt) = (Ok tt, (ex_handle (Ok tt)).2).
Proof. apply pair_first. vm_compute. reflexivity. Qed.

Lemma ex_parents_first : parents_first (current_map ex_held) ex_txs.
Proof.
  assert (current_map ex_held !! hash_of_Z 1 = Some (Some []) ∧ current_map ex_held !! hash_of_Z 2 = Some (Some []) ∧
    current_map ex_held !! hash_of_Z 3 = Some (Some [hash_of_Z 2]) ∧ current_map ex_held !! hash_of_Z 4 = Some (Some [hash_of_Z 1])) as (E1 & E2 & E3 & E4)
    by (split_and!; vm_compute; reflexivity).
  assert (∀ (h : Hash) (i : list Hash) (hs : list Hash), current_map ex_held !! h = Some (Some i) → Forall (.∉ hs) i →
    ∀ j p, current_map ex_held !! h = Some (Some j) → p ∈ ParentTxHashes j → p ∉ hs) as Hl.
  { intros h i hs E Hf j p E' Hp. rewrite E in E'. assert (i = j) as -> by congruence. by apply (proj1 (Forall_forall _ _) Hf). }
  split; [|split; [|split; [|split; [|done]]]].
  - apply (Hl (hash_of_Z 1) _ _ E1). constructor.
  - apply (Hl (hash_of_Z 2) _ _ E2). constructor.
  - apply (Hl (hash_of_Z 3) _ _ E3). repeat constructor. ex_decide.
  - apply (Hl (hash_of_Z 4) _ _ E4). repeat constructor. ex_decide.
Qed.

Lemma block_excludes_witness : let s' := (ex_handle (Ok tt)).2 in
  ∃ d kept, applied ex_store (ex_answers (Ok tt)) (request [32] ex_run) ex_block ex_held d kept ∧
    (df_drainQueue d = true →
      (∀ x, x ∈ all_nodes s' → real x → ¬ refused d (df_conflictingHashes d) (node_Hash x)) ∧
      (∀ x, x ∈ kept → ¬ conflicts (current_map ex_held) (df_conflictingHashes d) x) ∧
      ∃ new taken C', all_nodes s' = placeholder_node :: kept ++ new ∧ taken `prefix_of` stp_queue ex_held ++ concat (dr_arrivals ex_run) ∧
        df_conflictingHashes d ⊆ C' ∧
        (∀ b x, b ∈ taken → x ∈ b_nodes b → node_Hash x ∈ map node_Hash (all_nodes s') ∨ refused d C' (node_Hash x)) ∧
        (∀ x, x ∈ new → ¬ conflicts (current_map s') (df_conflictingHashes d) x) ∧
        (in_order (items_of taken) → ∀ x i, x ∈ new → current_map s' !! node_Hash x = Some (Some i) →
          Forall (.∉ C') (ParentTxHashes i))).
Proof.
  apply (block_excludes 4 ex_bucket 2 ex_store (ex_answers (Ok tt)) [32] ex_run ex_orders ex_block ex_txs ex_held);
    [exact ex_handles|exact ex_parents_first|done|exact ex_handled].
Defined.

Lemma block_loses_nothing_witness : let s' := (ex_handle (Ok tt)).2 in
  ∃ d kept C C', applied ex_store (ex_answers (Ok tt)) (request [32] ex_run) ex_block ex_held d kept ∧
    conflict_set ex_store (ex_answers (Ok tt)) (request [32] ex_run) ex_block ex_held C ∧
    grown (λ h p, spent_in (current_map ex_held) h p ∨ spent_by (items_of (stp_queue ex_held ++ concat (dr_arrivals ex_run))) h p) C C' ∧
    (∀ x, x ∈ ex_txs → x ∈ all_nodes s' ∨ node_Hash x ∈ stp_removeMap ex_held ∨ in_block ex_block ex_held x ∨ refused d C' (node_Hash x)) ∧
    (df_drainQueue d = true → ∀ waiting later b x, stp_queue ex_held = waiting ++ later → Forall (eligible (dr_validFromMillis ex_run)) waiting →
      b ∈ waiting → x ∈ b_nodes b → node_Hash x ∈ map node_Hash (all_nodes s') ∨ refused d C' (node_Hash x)).
Proof.
  apply (block_loses_nothing 4 ex_bucket 2 ex_store (ex_answers (Ok tt)) [32] ex_run ex_orders ex_block ex_txs ex_held);
    [exact ex_handles|done|exact ex_handled].
Defined.

(** The coinbase cannot be stored: the subtrees were already replaced. *)
Lemma block_failure_undone_witness : let s' := (ex_handle (Err panic)).2 in
  failed (ex_handle (Err panic)).1 = true ∧
  stp_chainedSubtrees s' = stp_chainedSubtrees ex_held ∧ stp_currentSubtree s' = stp_currentSubtree ex_held ∧ current_map s' = current_map ex_held ∧
  stp_queue s' = stp_queue ex_held ∧ stp_currentBlockHeader s' = stp_currentBlockHeader ex_held ∧ sound 4 ex_txs s'.
Proof.
  split; [vm_compute; reflexivity|].
  apply (block_failure_undone 4 ex_bucket 2 ex_store (ex_answers (Err panic)) [32] ex_run ex_orders ex_block ex_txs ex_held
    (err_wrap ERR_PROCESSING (err ERR_UNKNOWN))); [exact ex_handles|].
  apply pair_first. vm_compute. reflexivity.
Defined.

Lemma parallel_build_agrees_witness : laid 4 (placeholder_node :: ex_txs) ex_held ∧
  ∀ s', parallelBuildRemainderSubtrees (map ex_node [7; 8; 9; 10]) false ex_held = (Ok tt, s') ↔
  forM (λ x, addNodePreValidated x false) (map ex_node [7; 8; 9; 10]) ex_held = (Ok tt, s').
Proof.
  split; [apply ex_sound|]. apply (parallel_build_agrees 4 (placeholder_node :: ex_txs)); [apply ex_sound| |rewrite (so_running _ _ _ ex_sound); discriminate].
  repeat (apply Forall_cons; split; [ex_decide|]). by apply Forall_nil.
Defined.

Lemma dequeue_pass_spec_witness : ∃ new s', dequeue_pass 0 [(0, 2); (0, 0); (0, 1)]%nat ex_held = (Ok tt, s') ∧ assembled 4 (ex_txs ++ new) s' ∧
  new `sublist_of` concat (map b_nodes (pass_batches 0 ex_held)) ∧ stp_queue ex_held = pass_batches 0 ex_held ++ stp_queue s' ∧
  ∀ b x, b ∈ pass_batches 0 ex_held → x ∈ b_nodes b → node_Hash x ∈ map node_Hash (ex_txs ++ new) ∨ node_Hash x ∈ stp_removeMap ex_held.
Proof.
  apply (dequeue_pass_spec 4); [apply ex_sound..|].
  change (pass_batches 0 ex_held) with [ex_batch]. intros [i j]. unfold node_at. cbn [fst snd]. split.
  - intros H. repeat (apply elem_of_cons in H as [H|H]; [injection H as -> ->; cbn; eauto|]). by apply not_elem_of_nil in H.
  - destruct i as [|i]; cbn; [|by intros []]. destruct j as [|[|[|j]]]; cbn; [set_solver..|by intros []].
Defined.

Lemma drain_bounded_witness : let d := mkDeferred true ∅ ∅ ∅ in
  ∃ s' taken k, drainQueueAfterBlock ex_run ex_orders d ex_held = (Ok tt, s') ∧
    stp_queue ex_held ++ concat (take k (dr_arrivals ex_run)) = taken ++ stp_queue s' ∧
    (∀ waiting later, stp_queue ex_held = waiting ++ later → Forall (eligible (dr_validFromMillis ex_run)) waiting → waiting `prefix_of` taken) ∧
    (taken = [] ∨ ∃ l b, taken = l ++ [b] ∧ queue_items l < queue_items (stp_queue ex_held) + dr_reserved ex_run).
Proof. apply (drain_bounded 4 ex_run ex_orders _ ex_txs); [apply ex_sound..|constructor|done|exact ex_orders_ok]. Defined.

(** A block to take back: it has 7, which is new, and 2, which is held; 3 spends its coinbase. *)
Definition ex_back_tree : SubtreeData := mkSubtree [placeholder_node; ex_node 7; ex_node 2] 2 4 None.
Definition ex_key : Hash := default zero_hash (RootHash ex_back_tree).
Definition ex_back_store (h : Hash) : stored := if bool_decide (h = ex_key) then File ex_back_tree [] else NoFile.
Definition ex_back : AssembledBlock := mkBlock (hash_of_Z 60) (hash_of_Z 59) [ex_key] (hash_of_Z 71).
#[local] Notation ex_move_back := (moveBackBlock ex_bucket ex_back_store [32] (λ _, Ok [[]; []; []]) (Ok [hash_of_Z 3]) (λ _, Ok tt) ex_back true ex_held).

Lemma moveBackBlock_spec_witness : map node_Hash (all_nodes ex_move_back.2) = CoinbasePlaceholderHashValue :: map hash_of_Z [7; 1; 2; 4] ∧
  ∃ s', ex_move_back = (Ok (st_Nodes ex_back_tree, []), s') ∧
    assembled 4 (returning (keep_all [hash_of_Z 3] ex_txs) (tail (st_Nodes ex_back_tree)) ++ keep_all [hash_of_Z 3] ex_txs) s'.
Proof.
  split; [vm_compute; reflexivity|].
  apply (moveBackBlock_spec 4 ex_bucket ex_back_store [32] (λ _, Ok [[]; []; []]) (Ok [hash_of_Z 3]) (λ _, Ok tt) ex_back true
    (st_Nodes ex_back_tree) [[]; []; []] [] [(st_Nodes ex_back_tree, [[]; []; []], [])]); [apply ex_sound|apply ex_sound|reflexivity| | |done..| | | |].
  - intros hs E. assert (hs = [hash_of_Z 3]) as -> by congruence. apply Forall_singleton. ex_decide.
  - vm_compute. reflexivity.
  - repeat (apply Forall_cons; split; [ex_decide|]). by apply Forall_nil.
  - ex_decide.
  - ex_decide.
  - apply ex_buckets. left.
Defined.

(** ** What the rollbacks leave *)

(** One complete subtree is back after the failed block, and the count of them is 0. *)
Lemma failed_block_forgets_count :
  failed (ex_handle (Err panic)).1 = true ∧ length (stp_chainedSubtrees (ex_handle (Err panic)).2) = 1%nat ∧
  stp_chainedSubtreeCount ex_held = 1 ∧ stp_chainedSubtreeCount (ex_handle (Err panic)).2 = 0.
Proof. split_and!; vm_compute; reflexivity. Qed.

(** Taking a block back writes the map a failed reorganisation restores: with the subtrees
    of before, the processor no longer passes its own check. *)
Lemma moved_back_map_is_the_captured_one :
  let s' := ex_move_back.2 in
  let restored := set_currentSubtree (stp_currentSubtree ex_held) (set_chainedSubtrees (stp_chainedSubtrees ex_held) (set_currentTxMap (stp_currentTxMap ex_held) s')) in
  (checkSubtreeProcessor ex_held).1 = Ok tt ∧ failed (checkSubtreeProcessor restored).1 = true.
Proof. split; vm_compute; reflexivity. Qed.

(** A mark does not keep a transaction of the queue out when a block arrives. *)
Lemma marks_ignored_by_drain :
  let marked := (Remove (hash_of_Z 5) ex_held).2 in
  bool_decide (hash_of_Z 5 ∈ stp_removeMap marked) = true ∧
  map node_Hash (all_nodes (dequeue_pass 0 [(0, 0); (0, 1)]%nat marked).2) = CoinbasePlaceholderHashValue :: map hash_of_Z [1; 2; 3; 4] ∧
  map node_Hash (all_nodes (handleMoveForwardRequest ex_bucket 2 ex_store (ex_answers (Ok tt)) [32] ex_run ex_orders ex_block marked).2) =
    CoinbasePlaceholderHashValue :: map hash_of_Z [4; 5].
Proof. split_and!; vm_compute; reflexivity. Qed.
End Witnesses.
