(* ===== verification/SortedSet.v ===== *)
(** * The set of a block's transactions

    services/blockassembly/subtreeprocessor/sorted_hash_set.go: the set a block's
    transactions are put into, by partition and in chunks, before it is frozen into sorted
    arrays with a directory of their slots.  The subtree processor asks it of every
    transaction it holds ([Movement] uses a set in its place).

    Each operation takes a lock of its partition or none at all, so calls from several
    goroutines are calls in some order; [Freeze] lays the partitions out in the order in
    which its workers come to them.  [slices.SortFunc] is a sort by the comparison it is
    given. *)

From stdpp Require Import list sorting.
From S2P Require Import Prelude CountingSort.

(** ** Hashes as numbers *)

(** [binary.BigEndian.Uint64(h[i:i+8])]. *)
Definition hashWord (i : nat) (h : Hash) : Z := be_decode (slice i (i + 8) (hash_bytes h)).
Definition hashWord0 (h : Hash) : Z := hashWord 0 h.

Fixpoint compare_words (a b : Hash) (offsets : list nat) : comparison :=
  match offsets with
  | [] => Eq
  | i :: offsets => match hashWord i a ?= hashWord i b with Eq => compare_words a b offsets | c => c end
  end.

Definition compareHash (a b : Hash) : comparison := compare_words a b [0; 8; 16; 24]%nat.

Definition hashTopBits (h : Hash) (bits : nat) : Z :=
  if (bits =? 0)%nat then 0 else Z.shiftr (hashWord0 h) (64 - Z.of_nat bits).

(** ** The set *)
Definition maxSortedHashPartitionSize : Z := 2 ^ 32 - 1.
Definition sortedHashSetChunkSize : nat := 1024.

Record sortedHashPart := mkPart {
  pt_chunks : list (list Hash);
  pt_n : nat;
  pt_keys : list Hash;
}.

Record SortedHashSet := mkSorted {
  ss_pbits : nat;
  ss_parts : list sortedHashPart;
  ss_frozen : bool;
  ss_gbits : nat;
  ss_total : Z;
  ss_dir : list Z;
  ss_dups : Z;
}.

Fixpoint partition_bits (fuel : nat) (capacity : Z) (pbits : nat) : nat :=
  match fuel with
  | O => pbits
  | S fuel => if (pbits <? 16)%nat && (2 ^ 16 <? Z.shiftr capacity (Z.of_nat pbits)) then partition_bits fuel capacity (S pbits) else pbits
  end.

Definition NewSortedHashSet (capacity : Z) : SortedHashSet :=
  let pbits := partition_bits 16 capacity 0 in
  mkSorted pbits (replicate (2 ^ pbits) (mkPart [] 0 [])) false 0 0 [] 0.

Definition Partitions (s : SortedHashSet) : Z := Z.of_nat (length (ss_parts s)).
Definition Partition (h : Hash) (s : SortedHashSet) : Z := hashTopBits h (ss_pbits s).

(** The chunks grow at the end; every turn takes at least one hash. *)
Fixpoint append_chunks (fuel : nat) (chunks : list (list Hash)) (hashes : list Hash) : list (list Hash) :=
  match fuel, hashes with
  | S fuel, _ :: _ =>
      let '(before, c) := match last chunks with
                          | Some c => if (length c =? sortedHashSetChunkSize)%nat then (chunks, []) else (removelast chunks, c)
                          | None => (chunks, [])
                          end in
      let n := (length hashes `min` (sortedHashSetChunkSize - length c))%nat in
      append_chunks fuel (before ++ [c ++ take n hashes]) (drop n hashes)
  | _, _ => chunks
  end.

Definition appendLocked (hashes : list Hash) (p : sortedHashPart) : sortedHashPart :=
  mkPart (append_chunks (length hashes) (pt_chunks p) hashes) (pt_n p + length hashes) (pt_keys p).

Definition set_parts (parts : list sortedHashPart) (s : SortedHashSet) : SortedHashSet :=
  mkSorted (ss_pbits s) parts (ss_frozen s) (ss_gbits s) (ss_total s) (ss_dir s) (ss_dups s).

Definition append_to (i : Z) (hashes : list Hash) (s : SortedHashSet) : SortedHashSet :=
  set_parts (alter (appendLocked hashes) (Z.to_nat i) (ss_parts s)) s.

Definition Put (hash : Hash) (s : SortedHashSet) : result unit * SortedHashSet :=
  if ss_frozen s then (Err (err ERR_PROCESSING), s)
  else if Partitions s <=? Partition hash s then (Err panic, s)
  else (Ok tt, append_to (Partition hash s) [hash] s).

Definition PutMultiBucket (partition : Z) (hashes : list Hash) (s : SortedHashSet) : result unit * SortedHashSet :=
  if ss_frozen s then (Err (err ERR_PROCESSING), s)
  else if (partition <? 0) || (partition >=? Partitions s) then (Err (err ERR_PROCESSING), s)
  else if existsb (λ h, negb (hashTopBits h (ss_pbits s) =? partition)) hashes then (Err (err ERR_PROCESSING), s)
  else (Ok tt, append_to partition hashes s).

(** ** Freezing *)
Fixpoint partitionTotal (total : Z) (parts : list sortedHashPart) : result Z :=
  match parts with
  | [] => Ok total
  | p :: parts => if maxSortedHashPartitionSize <? Z.of_nat (pt_n p) then Err (err ERR_PROCESSING)
                  else partitionTotal (u64 (total + Z.of_nat (pt_n p))) parts
  end.

Fixpoint directory_bits (fuel : nat) (total : Z) (gbits : nat) : nat :=
  match fuel with
  | O => gbits
  | S fuel => if (gbits <? 64)%nat && (4 <? Z.shiftr total (Z.of_nat gbits)) then directory_bits fuel total (S gbits) else gbits
  end.

(** A short run by insertion from the right, a long one by the library's sort. *)
Definition hash_le (a b : Hash) : Prop := compareHash a b ≠ Gt.
#[export] Instance hash_le_dec a b : Decision (hash_le a b) := _.

Fixpoint sink (x : Hash) (sorted : list Hash) : list Hash :=
  match sorted with
  | [] => [x]
  | y :: sorted => match compareHash x y with Lt => y :: sink x sorted | _ => x :: y :: sorted end
  end.

Definition insertion_sort (run : list Hash) : list Hash := rev (foldl (λ sorted x, sink x sorted) [] run).

Definition sort_run (run : list Hash) : list Hash :=
  if (32 <? length run)%nat then merge_sort hash_le run else insertion_sort run.

Fixpoint count_dups (prev : option Hash) (run : list Hash) : Z :=
  match run with
  | [] => 0
  | x :: run => (if bool_decide (prev = Some x) then 1 else 0) + count_dups (Some x) run
  end.

(** [copy(l[a:], run)]. *)
Definition splice {A} (a : nat) (run l : list A) : list A := take a l ++ run ++ drop (a + length run) l.

Fixpoint sort_slots (n sl : nat) (dir next : list nat) (keys : list Hash) (dups : Z) : list Hash * Z :=
  match n with
  | O => (keys, dups)
  | S n =>
      let a := default 0%nat (dir !! sl) in
      let run := sort_run (slice a (default 0%nat (next !! sl)) keys) in
      sort_slots n (S sl) dir next (splice a run keys) (dups + count_dups None run)
  end.

Definition slot_of (gbits firstSlot : nat) (h : Hash) : nat := (Z.to_nat (hashTopBits h gbits) - firstSlot)%nat.

(** The partition with its keys, its entries of the directory, and its duplicates.  The
    offsets fit a [uint32] because a partition does. *)
Definition layoutPartition (gbits slots part : nat) (p : sortedHashPart) : sortedHashPart * list Z * Z :=
  let hashes := concat (pt_chunks p) in
  let key := slot_of gbits (part * slots) in
  let dir := starts 0 (count_keys key slots hashes ++ [0%nat]) in
  let '(keys, next) := counting_sort key slots (replicate (pt_n p) zero_hash) hashes in
  let '(keys, dups) := sort_slots slots 0 dir next keys 0 in
  (mkPart [] (pt_n p) keys, map (λ off, u32 (Z.of_nat off)) dir, dups).

Definition layout_one (slots : nat) (s : SortedHashSet) (i : nat) : SortedHashSet :=
  match ss_parts s !! i with
  | None => s
  | Some p =>
      let '(p, dir, dups) := layoutPartition (ss_gbits s) slots i p in
      mkSorted (ss_pbits s) (<[i := p]> (ss_parts s)) (ss_frozen s) (ss_gbits s) (ss_total s)
        (splice (i * (slots + 1)) dir (ss_dir s)) (ss_dups s + dups)
  end.

(** [order]: the partitions, as the workers came to them. *)
Definition Freeze (order : list nat) (s : SortedHashSet) : result unit * SortedHashSet :=
  if ss_frozen s then (Err (err ERR_PROCESSING), s)
  else
    match partitionTotal 0 (ss_parts s) with
    | Err e => (Err e, s)
    | Ok total =>
        let gbits := directory_bits 64 total (ss_pbits s) in
        let slots := (2 ^ (gbits - ss_pbits s))%nat in
        let s := mkSorted (ss_pbits s) (ss_parts s) false gbits total
                   (replicate (length (ss_parts s) * (slots + 1)) 0) (ss_dups s) in
        let s := foldl (layout_one slots) s order in
        (Ok tt, mkSorted (ss_pbits s) (ss_parts s) true (ss_gbits s) (ss_total s) (ss_dir s) (ss_dups s))
    end.

(** ** Reading *)

(** [slices.BinarySearchFunc]. *)
Fixpoint search (fuel i j : nat) (keys : list Hash) (target : Hash) : nat :=
  match fuel with
  | O => i
  | S fuel =>
      if (i <? j)%nat then
        let h := ((i + j) / 2)%nat in
        match keys !! h with
        | Some x => match compareHash x target with Lt => search fuel (S h) j keys target | _ => search fuel i h keys target end
        | None => i
        end
      else i
  end.

Definition BinarySearch (keys : list Hash) (target : Hash) : bool :=
  match keys !! search (S (length keys)) 0 (length keys) keys target with
  | Some x => match compareHash x target with Eq => true | _ => false end
  | None => false
  end.

Definition Exists (hash : Hash) (s : SortedHashSet) : result bool :=
  if negb (ss_frozen s) then Err panic else
  if ss_total s =? 0 then Ok false else
  let g := Z.to_nat (hashTopBits hash (ss_gbits s)) in
  let part := (g / 2 ^ (ss_gbits s - ss_pbits s))%nat in
  match ss_parts s !! part, ss_dir s !! (g + part)%nat, ss_dir s !! (g + part + 1)%nat with
  | Some p, Some a, Some b =>
      let keys := slice (Z.to_nat a) (Z.to_nat b) (pt_keys p) in
      Ok (if (length keys <=? 16)%nat
          then existsb (λ k, (hashWord0 k =? hashWord0 hash) && bool_decide (k = hash)) keys
          else BinarySearch keys hash)
  | _, _, _ => Err panic
  end.

Definition Length (s : SortedHashSet) : result Z :=
  if negb (ss_frozen s) then Err panic else Ok (ss_total s - ss_dups s).

(** A visitor is a function on its own state that says whether to stop. *)
Fixpoint iter_keys {A} (f : Hash → A → bool * A) (prev : option Hash) (keys : list Hash) (a : A) : bool * A :=
  match keys with
  | [] => (false, a)
  | k :: keys =>
      if bool_decide (prev = Some k) then iter_keys f (Some k) keys a
      else let '(stop, a) := f k a in if stop : bool then (true, a) else iter_keys f (Some k) keys a
  end.

Fixpoint iter_parts {A} (f : Hash → A → bool * A) (parts : list sortedHashPart) (a : A) : A :=
  match parts with
  | [] => a
  | p :: parts => let '(stop, a) := iter_keys f None (pt_keys p) a in if stop : bool then a else iter_parts f parts a
  end.

Definition Iter {A} (f : Hash → A → bool * A) (s : SortedHashSet) (a : A) : result A :=
  if negb (ss_frozen s) then Err panic else Ok (iter_parts f (ss_parts s) a).
