(* ===== verification/SortedSetTheorems.v ===== *)
(** * The frozen set is a finite set

    Whatever was put, in whatever order and partitions, and however the partitions are
    laid out, a frozen set answers as the finite set of the hashes that were accepted. *)

From stdpp Require Import list sorting.
From S2P Require Import Prelude CountingSort SortedSet.

(** ** Hashes as numbers *)
Definition num (h : Hash) : Z := be_decode (hash_bytes h).

Lemma be_decode_app l k : be_decode (l ++ k) = be_decode l * 256 ^ Z.of_nat (length k) + be_decode k.
Proof. unfold be_decode. rewrite rev_app_distr, le_decode_app, length_rev. lia. Qed.

Lemma be_decode_range l : 0 <= be_decode l < 256 ^ Z.of_nat (length l).
Proof. unfold be_decode. pose proof (le_decode_range (rev l)). by rewrite length_rev in *. Qed.

Lemma num_inj h k : num h = num k → h = k.
Proof.
  unfold num, be_decode. intros E. apply hash_bytes_inj. rewrite <- (rev_involutive (hash_bytes h)), <- (rev_involutive (hash_bytes k)). f_equal.
  rewrite <- (le_encode_decode_n 32 (rev (hash_bytes h))), <- (le_encode_decode_n 32 (rev (hash_bytes k))) by (by rewrite length_rev, length_hash_bytes).
  by rewrite E.
Qed.

Lemma hashWord_range i h : (i + 8 ≤ 32)%nat → 0 <= hashWord i h < 2 ^ 64.
Proof.
  intros Hi. unfold hashWord. pose proof (be_decode_range (slice i (i + 8) (hash_bytes h))) as H.
  rewrite length_slice in H by (by rewrite length_hash_bytes). replace (i + 8 - i)%nat with 8%nat in H by lia. exact H.
Qed.

Lemma num_words h : num h = hashWord 0 h * 2 ^ 192 + hashWord 8 h * 2 ^ 128 + hashWord 16 h * 2 ^ 64 + hashWord 24 h.
Proof.
  unfold num, hashWord. assert (hash_bytes h = slice 0 8 (hash_bytes h) ++ slice 8 16 (hash_bytes h) ++ slice 16 24 (hash_bytes h) ++ slice 24 32 (hash_bytes h)) as E.
  { rewrite <- (drop_0 (hash_bytes h)) at 1. rewrite (slice_split 0 8), (slice_split 8 16), (slice_split 16 24), (slice_split 24 32) by lia.
    rewrite (drop_ge _ 32) by (rewrite length_hash_bytes; lia). by rewrite app_nil_r. }
  rewrite E at 1. rewrite !be_decode_app, !length_app, !length_slice by (rewrite length_hash_bytes; lia). cbn [Nat.sub Nat.add]. 
  change (256 ^ Z.of_nat 24) with (2 ^ 192). change (256 ^ Z.of_nat 16) with (2 ^ 128). change (256 ^ Z.of_nat 8) with (2 ^ 64). ring.
Qed.

Lemma compareHash_spec a b : compareHash a b = (num a ?= num b).
Proof.
  rewrite !num_words. unfold compareHash, compare_words.
  pose proof (hashWord_range 0 a ltac:(lia)); pose proof (hashWord_range 8 a ltac:(lia)); pose proof (hashWord_range 16 a ltac:(lia)); pose proof (hashWord_range 24 a ltac:(lia)).
  pose proof (hashWord_range 0 b ltac:(lia)); pose proof (hashWord_range 8 b ltac:(lia)); pose proof (hashWord_range 16 b ltac:(lia)); pose proof (hashWord_range 24 b ltac:(lia)).
  symmetry. destruct (Z.compare_spec (hashWord 0 a) (hashWord 0 b)); [|apply Z.compare_lt_iff; lia|apply Z.compare_gt_iff; lia].
  destruct (Z.compare_spec (hashWord 8 a) (hashWord 8 b)); [|apply Z.compare_lt_iff; lia|apply Z.compare_gt_iff; lia].
  destruct (Z.compare_spec (hashWord 16 a) (hashWord 16 b)); [|apply Z.compare_lt_iff; lia|apply Z.compare_gt_iff; lia].
  destruct (Z.compare_spec (hashWord 24 a) (hashWord 24 b)); [apply Z.compare_eq_iff; lia|apply Z.compare_lt_iff; lia|apply Z.compare_gt_iff; lia].
Qed.

Lemma top_num h bits : (bits ≤ 64)%nat → hashTopBits h bits = num h / 2 ^ (256 - Z.of_nat bits).
Proof.
  intros Hb. pose proof (hashWord_range 0 h ltac:(lia)). pose proof (hashWord_range 8 h ltac:(lia)).
  pose proof (hashWord_range 16 h ltac:(lia)). pose proof (hashWord_range 24 h ltac:(lia)).
  assert (num h / 2 ^ 192 = hashWord 0 h) as Ew.
  { rewrite num_words. symmetry. apply (Z.div_unique _ _ _ (hashWord 8 h * 2 ^ 128 + hashWord 16 h * 2 ^ 64 + hashWord 24 h)); [left; lia|ring]. }
  replace (256 - Z.of_nat bits) with (192 + (64 - Z.of_nat bits)) by lia. rewrite Z.pow_add_r, <- Z.div_div, Ew by (try apply Z.pow_pos_nonneg; try apply Z.pow_nonzero; lia).
  unfold hashTopBits. destruct (Nat.eqb_spec bits 0) as [->|]; [|unfold hashWord0; by rewrite Z.shiftr_div_pow2 by lia].
  symmetry. apply Z.div_small. exact H.
Qed.

Lemma top_range h bits : (bits ≤ 64)%nat → 0 <= hashTopBits h bits < 2 ^ Z.of_nat bits.
Proof.
  intros Hb. rewrite top_num by done. pose proof (be_decode_range (hash_bytes h)) as Hr. rewrite length_hash_bytes in Hr. fold (num h) in Hr.
  change (256 ^ Z.of_nat 32) with (2 ^ 256) in Hr. assert (0 < 2 ^ (256 - Z.of_nat bits)) by (apply Z.pow_pos_nonneg; lia).
  split; [apply Z.div_pos; lia|]. apply Z.div_lt_upper_bound; [done|]. rewrite <- Z.pow_add_r by lia.
  replace (256 - Z.of_nat bits + Z.of_nat bits) with 256 by lia. lia.
Qed.

Lemma top_split h p g : (p ≤ g ≤ 64)%nat → hashTopBits h p = hashTopBits h g / 2 ^ Z.of_nat (g - p).
Proof.
  intros H. rewrite !top_num, Z.div_div by (try apply Z.pow_pos_nonneg; try apply Z.pow_nonzero; lia). f_equal.
  rewrite <- Z.pow_add_r by lia. f_equal. lia.
Qed.

Lemma top_mono a b bits : (bits ≤ 64)%nat → num a <= num b → hashTopBits a bits <= hashTopBits b bits.
Proof. intros. rewrite !top_num by done. apply Z.div_le_mono; [apply Z.pow_pos_nonneg; lia|done]. Qed.

Definition hash_lt (a b : Hash) : Prop := num a < num b.

Lemma hash_le_num a b : hash_le a b ↔ num a <= num b.
Proof. unfold hash_le. rewrite compareHash_spec. apply Z.compare_le_iff. Qed.

#[export] Instance hash_le_total : Total hash_le.
Proof. intros a b. rewrite !hash_le_num. lia. Qed.
#[export] Instance hash_le_trans : Transitive hash_le.
Proof. intros a b c. rewrite !hash_le_num. lia. Qed.
#[export] Instance hash_le_anti : AntiSymm eq hash_le.
Proof. intros a b. rewrite !hash_le_num. intros. apply num_inj. lia. Qed.

(** ** Sorting a run *)
Lemma sink_perm x l : sink x l ≡ₚ x :: l.
Proof.
  induction l as [|y l IH]; cbn [sink]; [done|]. destruct (compareHash x y); [reflexivity| |reflexivity]. rewrite IH. apply Permutation_swap.
Qed.

Lemma sink_sorted x l : StronglySorted (flip hash_le) l → StronglySorted (flip hash_le) (sink x l).
Proof.
  induction 1 as [|y l Hl IH Hy]; cbn [sink]; [by repeat constructor|].
  destruct (compareHash x y) eqn:E; rewrite compareHash_spec in E; [apply Z.compare_eq in E| |apply Z.compare_gt_iff in E].
  - constructor; [by constructor|]. constructor; [apply hash_le_num; lia|]. eapply Forall_impl; [exact Hy|]. unfold flip. intros z. rewrite !hash_le_num. lia.
  - change (num x < num y) in E. constructor; [done|]. rewrite (sink_perm x l). constructor; [apply hash_le_num; lia|done].
  - constructor; [by constructor|]. constructor; [apply hash_le_num; lia|]. eapply Forall_impl; [exact Hy|]. unfold flip. intros z. rewrite !hash_le_num. lia.
Qed.

Lemma sorted_rev (l : list Hash) : StronglySorted (flip hash_le) l → StronglySorted hash_le (rev l).
Proof.
  induction 1 as [|y l Hl IH Hy]; cbn; [constructor|]. apply StronglySorted_app. split_and!; [|done|by repeat constructor].
  intros a b Ha ->%list_elem_of_singleton. rewrite <- (Permutation_rev l) in Ha.
  by apply (proj1 (Forall_forall _ _) Hy).
Qed.

Lemma sort_run_spec run : sort_run run ≡ₚ run ∧ StronglySorted hash_le (sort_run run).
Proof.
  unfold sort_run. destruct (_ <? _)%nat.
  - split; [apply merge_sort_Permutation|]. apply StronglySorted_merge_sort; apply _.
  - unfold insertion_sort. assert (∀ acc, StronglySorted (flip hash_le) acc →
      foldl (λ sorted x, sink x sorted) acc run ≡ₚ run ++ acc ∧ StronglySorted (flip hash_le) (foldl (λ sorted x, sink x sorted) acc run)) as H.
    { induction run as [|x run IH]; intros acc Ha; cbn [foldl]; [done|]. destruct (IH (sink x acc)) as [H1 H2]; [by apply sink_sorted|].
      split; [|done]. rewrite H1, sink_perm. cbn. by rewrite Permutation_middle. }
    destruct (H [] ltac:(constructor)) as [H1 H2]. split; [by rewrite <- Permutation_rev, H1, app_nil_r|by apply sorted_rev].
Qed.

(** ** Distinct keys *)
Fixpoint distinct (prev : option Hash) (keys : list Hash) : list Hash :=
  match keys with
  | [] => []
  | k :: keys => if bool_decide (prev = Some k) then distinct (Some k) keys else k :: distinct (Some k) keys
  end.

Lemma distinct_count prev keys : Z.of_nat (length (distinct prev keys)) + count_dups prev keys = Z.of_nat (length keys).
Proof. revert prev. induction keys as [|k keys IH]; intros prev; cbn; [done|]. specialize (IH (Some k)). case_bool_decide; cbn [length]; lia. Qed.

Lemma elem_of_distinct x prev keys : x ∈ distinct prev keys → x ∈ keys.
Proof.
  revert prev. induction keys as [|k keys IH]; intros prev; cbn; [done|]. case_bool_decide; [intros ?%IH; by right|].
  intros [->|?%IH]%elem_of_cons; [left|by right].
Qed.

Lemma distinct_elem x prev keys : x ∈ keys → x ∈ distinct prev keys ∨ prev = Some x.
Proof.
  revert prev. induction keys as [|k keys IH]; intros prev; cbn; [by intros ?%not_elem_of_nil|]. intros [->|Hx]%elem_of_cons.
  - case_bool_decide; [by right|left; left].
  - destruct (IH (Some k) Hx) as [?|[= ->]]; case_bool_decide; [by left|left; by right|by right|left; left].
Qed.

Lemma distinct_sorted prev keys : StronglySorted hash_le keys → (∀ p, prev = Some p → Forall (hash_le p) keys) →
  StronglySorted hash_lt (distinct prev keys) ∧ ∀ p, prev = Some p → Forall (hash_lt p) (distinct prev keys).
Proof.
  revert prev. induction keys as [|k keys IH]; intros prev Hs Hp; cbn; [split; constructor|].
  apply StronglySorted_inv in Hs as [Hs Hk]. destruct (IH (Some k) Hs) as [H1 H2]; [by intros p [= <-]|]. specialize (H2 k eq_refl).
  case_bool_decide as E; [split; [done|]; intros p ->; injection E as ->; done|]. split; [by constructor|]. intros p ->.
  specialize (Hp p eq_refl). apply Forall_cons in Hp as [Hpk%hash_le_num _].
  assert (hash_lt p k) as Hlt by (unfold hash_lt; enough (num p ≠ num k) by lia; intros Ee%num_inj; congruence).
  constructor; [done|]. eapply Forall_impl; [exact H2|]. unfold hash_lt in *. intros z. lia.
Qed.

Lemma count_dups_app prev l k : count_dups prev (l ++ k) = count_dups prev l + count_dups (match last l with Some x => Some x | None => prev end) k.
Proof.
  revert prev. induction l as [|x l IH]; intros prev; cbn [app count_dups]; [done|]. rewrite IH, last_cons, Z.add_assoc.
  by destruct (last l).
Qed.

Lemma count_dups_fresh p k : (∀ x, x ∈ k → p ≠ x) → count_dups (Some p) k = count_dups None k.
Proof.
  destruct k as [|x k]; cbn; [done|]. intros H. rewrite !bool_decide_false; [done..|]. intros [= E]. apply (H x); [left|done].
Qed.

Lemma last_elem {A} (l : list A) x : last l = Some x → x ∈ l.
Proof. intros H. apply last_Some in H as [l' ->]. apply elem_of_app. right. left. Qed.

Lemma count_dups_apart l k : (∀ x, x ∈ l → x ∉ k) → count_dups None (l ++ k) = count_dups None l + count_dups None k.
Proof.
  intros H. rewrite count_dups_app. f_equal. destruct (last l) as [x|] eqn:E; [|done]. apply count_dups_fresh.
  intros y Hy ->. by apply (H y); [by apply last_elem|].
Qed.

(** ** Searching *)
Lemma sorted_lookup keys : StronglySorted hash_le keys →
  ∀ a b x y, (a ≤ b)%nat → keys !! a = Some x → keys !! b = Some y → num x <= num y.
Proof.
  induction 1 as [|z l Hl IH Hz]; intros a b x y Hab Ha Hb; [done|]. destruct a as [|a], b as [|b]; [|..|lia|].
  - by replace y with x by congruence.
  - injection Ha as ->. apply hash_le_num, (proj1 (Forall_forall _ _) Hz). by eapply list_elem_of_lookup_2.
  - eapply (IH a b); [lia|done..].
Qed.

Lemma search_spec keys target fuel i j : StronglySorted hash_le keys → (j - i < fuel)%nat → (i ≤ j ≤ length keys)%nat →
  (∀ k x, (k < i)%nat → keys !! k = Some x → num x < num target) →
  (∀ k x, (j ≤ k)%nat → keys !! k = Some x → num target <= num x) →
  let r := search fuel i j keys target in
  (∀ k x, (k < r)%nat → keys !! k = Some x → num x < num target) ∧ (∀ k x, (r ≤ k)%nat → keys !! k = Some x → num target <= num x).
Proof.
  intros Hs. pose proof (sorted_lookup keys Hs) as Hord.
  revert i j. induction fuel as [|fuel IH]; intros i j Hf Hij Hlo Hhi; [lia|]. cbn [search].
  destruct (Nat.ltb_spec i j) as [Hlt|Hge].
  2:{ split; [done|]. intros k x Hk. apply Hhi. lia. }
  set (h := ((i + j) / 2)%nat). assert (i ≤ h < j)%nat as Hh.
  { unfold h. split; [apply Nat.div_le_lower_bound; lia|apply Nat.div_lt_upper_bound; lia]. }
  destruct (lookup_lt_is_Some_2 keys h) as [x Hx]; [lia|]. rewrite Hx. rewrite compareHash_spec.
  destruct (Z.compare_spec (num x) (num target)) as [E|E|E].
  - apply IH; [lia|lia|done|]. intros k y Hk Hy. pose proof (Hord h k x y Hk Hx Hy). lia.
  - apply IH; [lia|lia| |done]. intros k y Hk Hy. pose proof (Hord k h y x ltac:(lia) Hy Hx). lia.
  - apply IH; [lia|lia|done|]. intros k y Hk Hy. pose proof (Hord h k x y Hk Hx Hy). lia.
Qed.

Lemma BinarySearch_spec keys target : StronglySorted hash_le keys → BinarySearch keys target = bool_decide (target ∈ keys).
Proof.
  intros Hs. unfold BinarySearch. set (r := search _ _ _ _ _).
  destruct (search_spec keys target (S (length keys)) 0 (length keys) Hs) as [Hlo Hhi]; [lia|lia|lia| |].
  { intros k x Hk Hx%lookup_lt_Some. lia. }
  fold r in Hlo, Hhi. destruct (keys !! r) as [x|] eqn:Ex.
  - rewrite compareHash_spec. destruct (Z.compare_spec (num x) (num target)) as [E|E|E].
    + apply num_inj in E as ->. rewrite bool_decide_true; [done|]. by eapply list_elem_of_lookup_2.
    + pose proof (Hhi r x ltac:(lia) Ex). lia.
    + rewrite bool_decide_false; [done|]. intros [k Hk]%list_elem_of_lookup_1. destruct (Nat.lt_ge_cases k r) as [Hkr|Hkr].
      * pose proof (Hlo k _ Hkr Hk). lia.
      * pose proof (sorted_lookup keys Hs r k _ _ Hkr Ex Hk). lia.
  - rewrite bool_decide_false; [done|]. intros [k Hk]%list_elem_of_lookup_1. apply lookup_ge_None in Ex. pose proof (lookup_lt_Some _ _ _ Hk).
    pose proof (Hlo k _ ltac:(lia) Hk). lia.
Qed.

(** ** One partition *)
Section Partition.
  Context (pbits gbits part : nat) (Hbits : (pbits ≤ gbits ≤ 64)%nat).
  Implicit Types l : list Hash.

  #[local] Notation slots := (2 ^ (gbits - pbits))%nat.
  #[local] Notation key := (slot_of gbits (part * slots)).

(** Every hash is where its top bits say. *)
Definition homed l : Prop := Forall (λ h, hashTopBits h pbits = Z.of_nat part) l.

Lemma slots_Z : Z.of_nat slots = 2 ^ Z.of_nat (gbits - pbits).
Proof. by rewrite Nat2Z.inj_pow. Qed.

Lemma key_spec h : hashTopBits h pbits = Z.of_nat part →
  hashTopBits h gbits = Z.of_nat (part * slots + key h) ∧ (key h < slots)%nat.
Proof.
  intros Hh. rewrite (top_split h pbits gbits) in Hh by lia. pose proof (top_range h gbits ltac:(lia)) as [Hr _].
  pose proof slots_Z as Hs. rewrite <- Hs in Hh. assert (0 < Z.of_nat slots) by (rewrite Hs; apply Z.pow_pos_nonneg; lia).
  pose proof (Z.div_mod (hashTopBits h gbits) (Z.of_nat slots) ltac:(lia)) as Hd. pose proof (Z.mod_pos_bound (hashTopBits h gbits) (Z.of_nat slots) ltac:(lia)).
  rewrite Hh in Hd. unfold slot_of. set (top := hashTopBits h gbits) in *. set (w := slots) in *. split; [|apply Nat2Z.inj_lt]; nia.
Qed.

Lemma key_mono a b : hashTopBits a pbits = Z.of_nat part → hashTopBits b pbits = Z.of_nat part → (key a < key b)%nat → num a < num b.
Proof.
  intros [Ha _]%key_spec [Hb _]%key_spec Hk. destruct (Z.lt_ge_cases (num a) (num b)) as [|Hge]; [done|].
  pose proof (top_mono b a gbits ltac:(lia) Hge). lia.
Qed.

Definition sorted_slots l (k : nat) : list Hash := concat (map (λ k, sort_run (with_key key k l)) (seq 0 k)).

Lemma sorted_slots_S l k : sorted_slots l (S k) = sorted_slots l k ++ sort_run (with_key key k l).
Proof. unfold sorted_slots. by rewrite seq_S, map_app, concat_app, <- (app_nil_r (sort_run _)). Qed.

Lemma elem_of_slot l k x : x ∈ sort_run (with_key key k l) ↔ x ∈ l ∧ key x = k.
Proof. rewrite (proj1 (sort_run_spec _)). unfold with_key. rewrite list_elem_of_filter. tauto. Qed.

Lemma elem_of_slots l k x : x ∈ sorted_slots l k ↔ x ∈ l ∧ (key x < k)%nat.
Proof.
  induction k as [|k IH]; [cbn; split; [by intros ?%not_elem_of_nil|lia]|]. rewrite sorted_slots_S, elem_of_app, IH, elem_of_slot.
  assert (key x < S k ↔ key x < k ∨ key x = k)%nat by lia. tauto.
Qed.

Lemma sorted_slots_length l k : length (sorted_slots l k) = below key k l.
Proof.
  induction k as [|k IH]; [by rewrite below_0|]. rewrite sorted_slots_S, length_app, IH, below_S. f_equal.
  by rewrite (proj1 (sort_run_spec _)).
Qed.

Lemma sorted_slots_perm l k : sorted_slots l k ≡ₚ filter (λ h, (key h < k)%nat) l.
Proof.
  induction k as [|k IH]; [cbn; rewrite list_filter_none; [done|lia]|]. rewrite sorted_slots_S, IH, (proj1 (sort_run_spec _)). unfold with_key.
  clear IH. induction l as [|x l IH]; [done|]. rewrite !filter_cons. destruct (decide (key x = k)) as [E|E].
  - rewrite decide_False, decide_True by lia. by rewrite <- Permutation_middle, IH.
  - destruct (decide (key x < k)%nat); [rewrite decide_True by lia; cbn; by rewrite IH|rewrite decide_False by lia; done].
Qed.

Lemma sorted_slots_sorted l k : homed l → StronglySorted hash_le (sorted_slots l k).
Proof.
  intros Hl. induction k as [|k IH]; [constructor|]. rewrite sorted_slots_S. apply StronglySorted_app. split_and!; [|done|apply sort_run_spec].
  intros a b [Ha Hka]%elem_of_slots [Hb Hkb]%elem_of_slot. apply hash_le_num. apply Z.lt_le_incl, key_mono; [by apply (proj1 (Forall_forall _ _) Hl)..|lia].
Qed.

(** What the loop over the slots makes of the scattered keys. *)
Lemma sort_slots_spec l (dir next : list nat) keys0 m : length keys0 = length l → Forall (λ h, (key h < m)%nat) l →
  (∀ k, (k < m)%nat → dir !! k = Some (below key k l) ∧ next !! k = Some (below key (S k) l)) →
  (∀ k, (k < m)%nat → slice (below key k l) (below key (S k) l) keys0 = with_key key k l) →
  ∀ n sl, (n + sl = m)%nat → ∀ dups, dups = count_dups None (sorted_slots l sl) →
    sort_slots n sl dir next (sorted_slots l sl ++ drop (below key sl l) keys0) dups = (sorted_slots l m, count_dups None (sorted_slots l m)).
Proof.
  intros Hlen Hall Hd Hs. induction n as [|n IH]; intros sl Hn dups Ed; cbn [sort_slots].
  { replace sl with m in * by lia. rewrite below_all, <- Hlen, drop_all, app_nil_r by done. congruence. }
  destruct (Hd sl ltac:(lia)) as [-> ->]. cbn [from_option id]. set (a := below key sl l). set (b := below key (S sl) l).
  pose proof (sorted_slots_length l sl) as Hl. fold a in Hl. assert (a ≤ b)%nat by (unfold a, b; rewrite below_S; lia).
  assert (slice a b (sorted_slots l sl ++ drop a keys0) = with_key key sl l) as ->.
  { rewrite <- (Hs sl) by lia. unfold slice at 1. rewrite drop_app_length' by done. reflexivity. }
  assert (length (sort_run (with_key key sl l)) = b - a)%nat as Hr.
  { rewrite (proj1 (sort_run_spec _)). unfold a, b. rewrite below_S. lia. }
  assert (splice a (sort_run (with_key key sl l)) (sorted_slots l sl ++ drop a keys0) = sorted_slots l (S sl) ++ drop b keys0) as ->.
  { unfold splice. rewrite take_app_length' by done. rewrite Hr. replace (a + (b - a))%nat with (length (sorted_slots l sl) + (b - a))%nat by lia.
    rewrite drop_app_add', drop_drop by done. rewrite sorted_slots_S, <- (assoc_L (++)). do 3 f_equal. lia. }
  apply IH; [lia|]. rewrite sorted_slots_S, count_dups_apart, Ed; [done|]. intros x [_ Hx]%elem_of_slots [_ Hx']%elem_of_slot. lia.
Qed.

Lemma layout_spec p : homed (concat (pt_chunks p)) → pt_n p = length (concat (pt_chunks p)) →
  let l := concat (pt_chunks p) in
  layoutPartition gbits slots part p =
    (mkPart [] (pt_n p) (sorted_slots l slots), map (λ k, u32 (Z.of_nat (below key k l))) (seq 0 (S slots)), count_dups None (sorted_slots l slots)).
Proof.
  intros Hl Hn l. unfold layoutPartition. fold l.
  assert (Forall (λ h, (key h < slots)%nat) l) as Hk by (eapply Forall_impl; [exact Hl|]; intros h Hh; by apply key_spec).
  assert (length (replicate (pt_n p) zero_hash) = length l) as Hlen by by rewrite length_replicate.
  destruct (counting_sort_placed key slots _ l Hlen Hk) as (H1 & H2 & _).
  assert (∀ k, (k < slots)%nat → group_of (counting_sort key slots (replicate (pt_n p) zero_hash) l) k = with_key key k l) as Hg
    by (intros; by apply group_of_spec).
  unfold group_of in Hg. destruct (counting_sort key slots (replicate (pt_n p) zero_hash) l) as [keys next]. cbn [fst snd] in *.
  assert (∀ k, (k < slots)%nat → next !! k = Some (below key (S k) l)) as Hnext by (intros k Hkk; rewrite H2 by done; by rewrite below_S).
  assert (∀ k, (k ≤ slots)%nat → starts 0 (count_keys key slots l ++ [0%nat]) !! k = Some (below key k l)) as Hdir by (intros; by apply lookup_offsets).
  pose proof (sort_slots_spec l (starts 0 (count_keys key slots l ++ [0%nat])) next keys slots H1 Hk) as Hss.
  specialize (Hss ltac:(intros k Hkk; split; [apply Hdir; lia|by apply Hnext])).
  assert (∀ k, (k < slots)%nat → slice (below key k l) (below key (S k) l) keys = with_key key k l) as Hsl.
  { intros k Hkk. rewrite <- (Hg k Hkk). rewrite (Hnext k Hkk). destruct k as [|k]; [by rewrite below_0|by rewrite (Hnext k) by lia]. }
  specialize (Hss Hsl slots 0%nat ltac:(lia) 0 eq_refl). rewrite below_0, drop_0 in Hss. change (sorted_slots l 0 ++ keys) with keys in Hss. rewrite Hss.
  f_equal. f_equal. apply list_eq. intros k. destruct (decide (k ≤ slots)%nat) as [Hkk|Hkk].
  - rewrite !list_lookup_fmap, lookup_seq_lt, Hdir by lia. done.
  - rewrite !lookup_ge_None_2; [done|rewrite length_map, length_seq; lia|]. rewrite length_map, length_starts, length_app, length_count_keys. cbn. lia.
Qed.

Lemma slot_slice l k m : (k < m)%nat → slice (below key k l) (below key (S k) l) (sorted_slots l m) = sort_run (with_key key k l).
Proof.
  intros Hk. assert (∃ more, sorted_slots l m = sorted_slots l (S k) ++ more) as [more ->].
  { induction m as [|m IH]; [lia|]. destruct (decide (k = m)) as [->|]; [exists []; by rewrite app_nil_r|]. destruct IH as [more E]; [lia|].
    rewrite (sorted_slots_S l m), E. eexists. by rewrite <- (assoc_L (++)). }
  rewrite sorted_slots_S. unfold slice. rewrite <- (assoc_L (++)), drop_app_length' by (by rewrite sorted_slots_length).
  apply take_app_length'. rewrite (proj1 (sort_run_spec _)), below_S. lia.
Qed.

Lemma below_le l k : (below key k l ≤ length l)%nat.
Proof. unfold below. apply length_filter. Qed.
End Partition.

(** ** Building *)
Definition puts_of (p : sortedHashPart) : list Hash := concat (pt_chunks p).

Record part_ok (pbits i : nat) (p : sortedHashPart) : Prop := {
  po_n : pt_n p = length (puts_of p);
  po_homed : homed pbits i (puts_of p);
  po_chunks : Forall (λ c, (length c ≤ sortedHashSetChunkSize)%nat) (pt_chunks p);
}.

Record building (s : SortedHashSet) (puts : list Hash) : Prop := {
  bd_open : ss_frozen s = false;
  bd_pbits : (ss_pbits s ≤ 16)%nat;
  bd_parts : length (ss_parts s) = (2 ^ ss_pbits s)%nat;
  bd_ok i p : ss_parts s !! i = Some p → part_ok (ss_pbits s) i p;
  bd_puts : concat (map puts_of (ss_parts s)) ≡ₚ puts;
  bd_dups : ss_dups s = 0;
}.

Lemma append_chunks_spec fuel chunks hashes : (length hashes ≤ fuel)%nat → Forall (λ c, (length c ≤ sortedHashSetChunkSize)%nat) chunks →
  concat (append_chunks fuel chunks hashes) = concat chunks ++ hashes ∧
  Forall (λ c, (length c ≤ sortedHashSetChunkSize)%nat) (append_chunks fuel chunks hashes).
Proof.
  revert chunks hashes. induction fuel as [|fuel IH]; intros chunks hashes Hf Hc; destruct hashes as [|h hashes]; cbn [append_chunks];
    try (rewrite app_nil_r; done); [cbn in Hf; lia|].
  assert (∃ before c, (match last chunks with
                          | Some c => if (length c =? sortedHashSetChunkSize)%nat then (chunks, []) else (removelast chunks, c)
                          | None => (chunks, []) end) = (before, c) ∧
    concat before ++ c = concat chunks ∧ Forall (λ c, (length c ≤ sortedHashSetChunkSize)%nat) before ∧ (length c < sortedHashSetChunkSize)%nat) as (before & c & -> & Ec & Hb & Hl).
  { destruct (last chunks) as [c|] eqn:El.
    - apply last_Some in El as [chunks' ->]. apply Forall_app in Hc as [Hc' [Hlen _]%Forall_cons]. destruct (Nat.eqb_spec (length c) sortedHashSetChunkSize).
      + exists (chunks' ++ [c]), []. split_and!; [done|by rewrite app_nil_r|apply Forall_app; split; [done|by apply Forall_singleton]|unfold sortedHashSetChunkSize; cbn [length]; lia].
      + exists chunks', c. rewrite removelast_last, concat_app. cbn. rewrite app_nil_r. split_and!; [done..|lia].
    - apply last_None in El as ->. exists [], []. split_and!; [done..|unfold sortedHashSetChunkSize; cbn [length]; lia]. }
  set (n := (length (h :: hashes) `min` (sortedHashSetChunkSize - length c))%nat). assert (0 < n)%nat by (unfold n; cbn [length]; lia).
  destruct (IH (before ++ [c ++ take n (h :: hashes)]) (drop n (h :: hashes))) as [E H'].
  - rewrite length_drop. cbn [length] in *. lia.
  - apply Forall_app. split; [done|]. apply Forall_singleton. rewrite length_app, length_take. lia.
  - split; [|exact H']. rewrite E, concat_app, <- Ec. cbn [concat]. by rewrite app_nil_r, <- !(assoc_L (++)), take_drop.
Qed.

Lemma append_ok s puts i hashes : building s puts → 0 <= i < Partitions s → Forall (λ h, hashTopBits h (ss_pbits s) = i) hashes →
  building (append_to i hashes s) (puts ++ hashes).
Proof.
  intros [H1 H2 H3 H4 H5 H6] Hi Hh. unfold append_to, Partitions in *. set (k := Z.to_nat i).
  destruct (lookup_lt_is_Some_2 (ss_parts s) k) as [p Hp]; [lia|]. destruct (H4 k p Hp) as [P1 P2 P3].
  destruct (append_chunks_spec (length hashes) (pt_chunks p) hashes) as [E1 E2]; [done..|].
  assert (puts_of (appendLocked hashes p) = puts_of p ++ hashes) as Ep by exact E1.
  split; cbn [ss_frozen ss_pbits ss_parts set_parts ss_dups]; [done|done|by rewrite length_alter| | |done].
  - intros j q. destruct (decide (j = k)) as [->|Hne]; [|rewrite list_lookup_alter_ne by done; apply H4].
    rewrite list_lookup_alter_eq, Hp. intros [= <-]. split; [by rewrite Ep, length_app, <- P1| |exact E2].
    unfold homed. rewrite Ep. apply Forall_app. split; [done|]. eapply Forall_impl; [exact Hh|]. cbn. intros x ->. unfold k. lia.
  - rewrite <- H5. rewrite <- (take_drop_middle _ _ _ Hp). rewrite alter_app_r_alt by (rewrite length_take; lia).
    rewrite length_take, Nat.min_l, Nat.sub_diag by (apply lookup_lt_Some in Hp; lia). cbn [alter list_alter].
    rewrite !map_app, !concat_app. cbn [map concat]. rewrite Ep. rewrite <- !(assoc_L (++)). do 2 f_equiv. apply Permutation_app_comm.
Qed.

(** ** A run of calls *)
Inductive call := CPut (h : Hash) | CPutMultiBucket (partition : Z) (hashes : list Hash).

Definition do_call (s : SortedHashSet) (c : call) : result unit * SortedHashSet :=
  match c with CPut h => Put h s | CPutMultiBucket i hashes => PutMultiBucket i hashes s end.

(** What a call puts, if it is accepted. *)
Definition accepted (pbits : nat) (c : call) : option (list Hash) :=
  match c with
  | CPut h => Some [h]
  | CPutMultiBucket i hashes =>
      if bool_decide (0 <= i < 2 ^ Z.of_nat pbits ∧ Forall (λ h, hashTopBits h pbits = i) hashes) then Some hashes else None
  end.

Definition do_calls (s : SortedHashSet) (cs : list call) : SortedHashSet := foldl (λ s c, (do_call s c).2) s cs.
Definition all_accepted (pbits : nat) (cs : list call) : list Hash := concat (map (λ c, default [] (accepted pbits c)) cs).

Lemma do_call_ok s puts c : building s puts →
  let '(r, s') := do_call s c in
  ss_pbits s' = ss_pbits s ∧ building s' (puts ++ default [] (accepted (ss_pbits s) c)) ∧
  r = match accepted (ss_pbits s) c with Some _ => Ok tt | None => Err (err ERR_PROCESSING) end.
Proof.
  intros H. pose proof (bd_open _ _ H) as Hf. pose proof (bd_parts _ _ H) as Hn. pose proof (bd_pbits _ _ H) as Hb.
  assert (Partitions s = 2 ^ Z.of_nat (ss_pbits s)) as Hp by (unfold Partitions; by rewrite Hn, Nat2Z.inj_pow).
  destruct c as [h|i hashes]; cbn [do_call accepted].
  - unfold Put. rewrite Hf. pose proof (top_range h (ss_pbits s) ltac:(lia)) as Hr. unfold Partition. rewrite Hp.
    rewrite (proj2 (Z.leb_gt _ _)) by lia. split_and!; [done| |done]. apply append_ok; [done|by rewrite Hp|by repeat constructor].
  - unfold PutMultiBucket. rewrite Hf, Hp. destruct ((i <? 0) || (i >=? _)) eqn:Ei.
    { rewrite bool_decide_false; [cbn; by rewrite app_nil_r|]. intros [? _]. apply orb_true_iff in Ei as [?%Z.ltb_lt|?%Z.geb_le]; lia. }
    apply orb_false_iff in Ei as [Hi1%Z.ltb_ge Hi2]. rewrite Z.geb_leb in Hi2. apply Z.leb_gt in Hi2.
    destruct (existsb _ hashes) eqn:Ex.
    { rewrite bool_decide_false; [cbn; by rewrite app_nil_r|]. intros [_ Hall]. apply existsb_exists in Ex as (h & Hin%list_elem_of_In & Hh).
      apply (proj1 (Forall_forall _ _) Hall) in Hin. rewrite Hin, Z.eqb_refl in Hh. done. }
    assert (Forall (λ h, hashTopBits h (ss_pbits s) = i) hashes) as Hall.
    { apply Forall_forall. intros h Hin%list_elem_of_In. apply Z.eqb_eq. destruct (hashTopBits h _ =? i) eqn:E; [done|].
      enough (existsb (λ h, negb (hashTopBits h (ss_pbits s) =? i)) hashes = true) by congruence. apply existsb_exists. exists h. by rewrite E. }
    rewrite bool_decide_true by done. split_and!; [done| |done]. apply append_ok; [done|by rewrite Hp|done].
Qed.

Lemma do_calls_ok cs s puts : building s puts →
  ss_pbits (do_calls s cs) = ss_pbits s ∧ building (do_calls s cs) (puts ++ all_accepted (ss_pbits s) cs).
Proof.
  revert s puts. induction cs as [|c cs IH]; intros s puts H; unfold do_calls, all_accepted; cbn [foldl map concat]; [by rewrite app_nil_r|].
  pose proof (do_call_ok s puts c H) as Hc. destruct (do_call s c) as [r s']. destruct Hc as (Eb & H' & _). cbn [snd].
  destruct (IH s' _ H') as [E1 E2]. rewrite Eb in *. split; [exact E1|]. rewrite (assoc_L (++)). exact E2.
Qed.

Lemma partition_bits_le fuel capacity pbits : (pbits ≤ 16)%nat → (partition_bits fuel capacity pbits ≤ 16)%nat.
Proof.
  revert pbits. induction fuel as [|fuel IH]; intros pbits H; cbn [partition_bits]; [done|].
  destruct (Nat.ltb_spec pbits 16); cbn [andb]; [|done]. destruct (_ <? _); [apply IH; lia|done].
Qed.

Lemma new_building capacity : building (NewSortedHashSet capacity) [].
Proof.
  unfold NewSortedHashSet. set (pbits := partition_bits _ _ _). assert (pbits ≤ 16)%nat by (apply partition_bits_le; lia). clearbody pbits.
  split; cbn; [done|done|by rewrite length_replicate| | |done].
  - intros i p [-> _]%lookup_replicate. split; [done|constructor|constructor].
  - generalize (2 ^ pbits)%nat. intros n. induction n as [|n IH]; [done|exact IH].
Qed.

(** ** Freezing *)
Lemma partitionTotal_spec parts total : 0 <= total → total + Z.of_nat (length parts) * maxSortedHashPartitionSize < 2 ^ 64 →
  partitionTotal total parts =
    if decide (Forall (λ p, Z.of_nat (pt_n p) <= maxSortedHashPartitionSize) parts)
    then Ok (total + Z.of_nat (sum_list_with pt_n parts)) else Err (err ERR_PROCESSING).
Proof.
  revert total. induction parts as [|p parts IH]; intros total H0 Ht; cbn [partitionTotal].
  { rewrite decide_True by constructor. cbn. f_equal. lia. }
  unfold maxSortedHashPartitionSize in *. cbn [length] in Ht. destruct (Z.ltb_spec (2 ^ 32 - 1) (Z.of_nat (pt_n p))) as [Hp|Hp].
  { rewrite decide_False; [done|]. intros [? _]%Forall_cons. lia. }
  rewrite u64_small by lia. rewrite IH by lia. destruct (decide (Forall _ parts)) as [HF|HF].
  - rewrite decide_True by (by constructor). f_equal. cbn. lia.
  - rewrite decide_False; [done|]. by intros [_ ?]%Forall_cons.
Qed.

Lemma directory_bits_ge fuel total gbits : (gbits ≤ 64)%nat → (gbits ≤ directory_bits fuel total gbits ≤ 64)%nat.
Proof.
  revert gbits. induction fuel as [|fuel IH]; intros gbits H; cbn [directory_bits]; [lia|].
  destruct (Nat.ltb_spec gbits 64); cbn [andb]; [|lia]. destruct (_ <? _); [|lia]. specialize (IH (S gbits) ltac:(lia)). lia.
Qed.

Lemma layout_dir_length gbits slots part p : length (layoutPartition gbits slots part p).1.2 = S slots.
Proof.
  unfold layoutPartition. destruct (counting_sort _ _ _ _) as [keys next]. destruct (sort_slots _ _ _ _ _ _) as [keys' dups]. cbn [fst snd].
  rewrite length_map, length_starts, length_app, length_count_keys. cbn. lia.
Qed.

Lemma splice_length {A} a (run l : list A) : (a + length run ≤ length l)%nat → length (splice a run l) = length l.
Proof. intros. unfold splice. rewrite !length_app, length_take, length_drop. lia. Qed.

Lemma splice_in {A} a (run l : list A) k : (a + length run ≤ length l)%nat → (k < length run)%nat → splice a run l !! (a + k)%nat = run !! k.
Proof.
  intros H Hk. unfold splice. rewrite lookup_app_r by (rewrite length_take; lia). rewrite length_take, Nat.min_l by lia.
  rewrite lookup_app_l by lia. f_equal. lia.
Qed.

Lemma splice_out {A} a (run l : list A) k : (a + length run ≤ length l)%nat → (k < a ∨ a + length run ≤ k)%nat → splice a run l !! k = l !! k.
Proof.
  intros H Hk. unfold splice. destruct Hk as [Hk|Hk].
  - by rewrite lookup_app_l, lookup_take_lt by (rewrite ?length_take; lia).
  - rewrite lookup_app_r by (rewrite length_take; lia). rewrite length_take, Nat.min_l by lia. rewrite lookup_app_r by lia.
    rewrite lookup_drop. f_equal. lia.
Qed.

(** The partitions named in [order], laid out in that order. *)
Lemma layout_all slots order s : NoDup order → (∀ i, i ∈ order → (i < length (ss_parts s))%nat) →
  length (ss_dir s) = (length (ss_parts s) * (slots + 1))%nat →
  let s' := foldl (layout_one slots) s order in
  let L i p := layoutPartition (ss_gbits s) slots i p in
  (ss_pbits s', ss_frozen s', ss_gbits s', ss_total s') = (ss_pbits s, ss_frozen s, ss_gbits s, ss_total s) ∧
  length (ss_parts s') = length (ss_parts s) ∧ length (ss_dir s') = length (ss_dir s) ∧
  (∀ i p, ss_parts s !! i = Some p → i ∈ order →
    ss_parts s' !! i = Some (L i p).1.1 ∧ ∀ k, (k ≤ slots)%nat → ss_dir s' !! (i * (slots + 1) + k)%nat = (L i p).1.2 !! k) ∧
  (∀ i, i ∉ order → ss_parts s' !! i = ss_parts s !! i ∧ ∀ k, (k ≤ slots)%nat → ss_dir s' !! (i * (slots + 1) + k)%nat = ss_dir s !! (i * (slots + 1) + k)%nat) ∧
  ss_dups s' = ss_dups s + foldr Z.add 0 (map (λ i, match ss_parts s !! i with Some p => (L i p).2 | None => 0 end) order).
Proof.
  revert s. induction order as [|i order IH]; intros s Hnd Hi Hd; cbn [foldl].
  { split_and!; [done|done|done|by intros i p _ ?%not_elem_of_nil|done|cbn; lia]. }
  apply NoDup_cons in Hnd as [Hni Hnd]. destruct (lookup_lt_is_Some_2 (ss_parts s) i) as [p Hp]; [apply Hi; left|].
  pose proof (layout_dir_length (ss_gbits s) slots i p) as Hdl. assert (∃ s1, layout_one slots s i = s1) as [s1 E0] by eauto. rewrite E0.
  unfold layout_one in E0. rewrite Hp in E0.
  destruct (layoutPartition (ss_gbits s) slots i p) as [[p' dir] dups] eqn:EL. cbn [fst snd] in Hdl.
  pose proof (lookup_lt_Some _ _ _ Hp) as Hlt. assert (i * (slots + 1) + length dir ≤ length (ss_dir s))%nat as Hfit by (rewrite Hd, Hdl; nia).
  subst s1. set (s1 := mkSorted _ _ _ _ _ _ _). destruct (IH s1 Hnd) as (E1 & E2 & E3 & E4 & E5 & E6).
  { intros j Hj. unfold s1. cbn. rewrite length_insert. apply Hi. by right. }
  { unfold s1. cbn. rewrite length_insert, splice_length by done. exact Hd. }
  clear IH. assert (∀ j, j ≠ i → ss_parts s1 !! j = ss_parts s !! j ∧ ∀ k, (k ≤ slots)%nat → ss_dir s1 !! (j * (slots + 1) + k)%nat = ss_dir s !! (j * (slots + 1) + k)%nat) as Hother.
  { intros j Hj. unfold s1. cbn. split; [by rewrite list_lookup_insert_ne|]. intros k Hk. apply splice_out; [done|]. rewrite Hdl. nia. }
  split_and!; [exact E1|rewrite E2; unfold s1; cbn; by rewrite length_insert|rewrite E3; unfold s1; cbn; by apply splice_length| | |].
  - intros j q Hq [->|Hj]%elem_of_cons.
    + assert (q = p) as -> by congruence. rewrite EL. cbn [fst snd]. destruct (E5 i Hni) as [-> Hdir]. unfold s1 at 1. cbn. rewrite list_lookup_insert_eq by done.
      split; [done|]. intros k Hk. rewrite Hdir by done. unfold s1. cbn. apply splice_in; [done|lia].
    + apply E4; [|done]. by rewrite (proj1 (Hother j ltac:(congruence))).
  - intros j [Hj Hnj]%not_elem_of_cons. destruct (E5 j Hnj) as [-> Hdir]. destruct (Hother j Hj) as [-> Hdir']. split; [done|]. intros k Hk. by rewrite Hdir, Hdir'.
  - rewrite E6. unfold s1 at 1. cbn [ss_dups map foldr]. rewrite Hp, EL. cbn [snd]. rewrite <- Z.add_assoc. do 2 f_equal.
    f_equal. apply map_ext_in. intros j Hj%list_elem_of_In. assert (j ≠ i) by congruence. by rewrite (proj1 (Hother j ltac:(done))).
Qed.

(** ** The frozen set *)
Definition part_at (ps : list sortedHashPart) (i : nat) : sortedHashPart := default (mkPart [] 0 []) (ps !! i).

Lemma parts_seq ps : map (part_at ps) (seq 0 (length ps)) = ps.
Proof.
  apply list_eq. intros i. destruct (decide (i < length ps)%nat) as [Hi|Hi].
  - rewrite list_lookup_fmap, lookup_seq_lt by done. cbn. unfold part_at. by destruct (lookup_lt_is_Some_2 ps i Hi) as [p ->].
  - rewrite !lookup_ge_None_2; [done|lia|rewrite length_map, length_seq; lia].
Qed.

Section Frozen.
  Context (ps : list sortedHashPart) (pbits gbits : nat) (Hbits : (pbits ≤ gbits ≤ 64)%nat).
  Context (Hlen : length ps = (2 ^ pbits)%nat).
  Context (Hok : ∀ i p, ps !! i = Some p → part_ok pbits i p).

  #[local] Notation slots := (2 ^ (gbits - pbits))%nat.
  #[local] Notation puts_at i := (puts_of (part_at ps i)).

Definition keys_at (i : nat) : list Hash := sorted_slots pbits gbits i (puts_at i) slots.
Definition visited (n : nat) : list Hash := concat (map (λ i, distinct None (keys_at i)) (seq 0 n)).

Lemma own_part_lt x : (Z.to_nat (hashTopBits x pbits) < length ps)%nat.
Proof.
  pose proof (top_range x pbits ltac:(lia)) as Hr. rewrite Hlen. apply Nat2Z.inj_lt. rewrite Z2Nat.id, Nat2Z.inj_pow by lia. apply Hr.
Qed.

Lemma part_at_ok i : part_ok pbits i (part_at ps i).
Proof. unfold part_at. destruct (ps !! i) as [p|] eqn:E; [by apply Hok|]. split; [done|constructor|constructor]. Qed.

Lemma at_slots i : Forall (λ h, (slot_of gbits (i * slots) h < slots)%nat) (puts_at i).
Proof. eapply Forall_impl; [apply (part_at_ok i)|]. intros h Hh. by apply (key_spec pbits gbits i Hbits). Qed.

Lemma keys_at_perm i : keys_at i ≡ₚ puts_at i.
Proof. unfold keys_at. rewrite sorted_slots_perm by done. rewrite list_filter_all; [done|]. by apply Forall_forall, at_slots. Qed.

Lemma keys_at_sorted i : StronglySorted hash_le (keys_at i).
Proof. apply sorted_slots_sorted; [done|apply (part_at_ok i)]. Qed.

Lemma visited_S n : visited (S n) = visited n ++ distinct None (keys_at n).
Proof. unfold visited. by rewrite seq_S, map_app, concat_app, <- (app_nil_r (distinct _ _)). Qed.

Lemma elem_of_visited n x : x ∈ visited n ↔ ∃ i, (i < n)%nat ∧ x ∈ puts_at i.
Proof.
  induction n as [|n IH]; [cbn; split; [by intros ?%not_elem_of_nil|intros (i & ? & _); lia]|]. rewrite visited_S, elem_of_app, IH.
  assert (x ∈ distinct None (keys_at n) ↔ x ∈ puts_at n) as ->.
  { rewrite <- keys_at_perm. split; [apply elem_of_distinct|]. intros Hx. by destruct (distinct_elem x None _ Hx). }
  split; [intros [(i & ? & ?)|?]; [exists i|exists n]; split; (done || lia)|].
  intros (i & Hi & Hx). destruct (decide (i = n)) as [->|]; [by right|left; exists i; split; [lia|done]].
Qed.

Lemma visited_sorted n : StronglySorted hash_lt (visited n).
Proof.
  induction n as [|n IH]; [constructor|]. rewrite visited_S. apply StronglySorted_app. split_and!; [|done|].
  - intros a b (i & Hi & Ha)%elem_of_visited Hb%elem_of_distinct. rewrite keys_at_perm in Hb.
    apply (proj1 (Forall_forall _ _) (po_homed _ _ _ (part_at_ok i))) in Ha. apply (proj1 (Forall_forall _ _) (po_homed _ _ _ (part_at_ok n))) in Hb.
    unfold hash_lt. destruct (Z.lt_ge_cases (num a) (num b)) as [|Hge]; [done|]. pose proof (top_mono b a pbits ltac:(lia) Hge). lia.
  - apply distinct_sorted; [apply keys_at_sorted|done].
Qed.

Lemma visited_length n : Z.of_nat (length (visited n)) + foldr Z.add 0 (map (λ i, count_dups None (keys_at i)) (seq 0 n)) =
  Z.of_nat (length (concat (map (λ i, puts_at i) (seq 0 n)))).
Proof.
  induction n as [|n IH]; [done|]. rewrite visited_S, seq_S, !map_app, concat_app, !length_app, foldr_app. cbn [map foldr concat Nat.add]. rewrite app_nil_r.
  pose proof (distinct_count None (keys_at n)) as Hd. rewrite (Permutation_length (keys_at_perm n)) in Hd.
  assert (∀ (l : list Z) c, foldr Z.add c l = foldr Z.add 0 l + c) as Hf by (intros l c; induction l as [|x l IHl]; cbn; [lia|rewrite IHl; lia]).
  rewrite Hf. lia.
Qed.

Lemma puts_seq : concat (map (λ i, puts_at i) (seq 0 (length ps))) = concat (map puts_of ps).
Proof. rewrite <- (parts_seq ps) at 2. by rewrite map_map. Qed.

Definition all_puts : list Hash := concat (map puts_of ps).

Lemma elem_of_all_puts x : x ∈ all_puts ↔ x ∈ puts_at (Z.to_nat (hashTopBits x pbits)).
Proof.
  unfold all_puts. rewrite <- puts_seq. split.
  - intros Hx. apply list_elem_of_In, in_concat in Hx as (l & Hl & Hx%list_elem_of_In). apply in_map_iff in Hl as (i & <- & _).
    pose proof (proj1 (Forall_forall _ _) (po_homed _ _ _ (part_at_ok i)) x Hx) as Hh. cbn in Hh. by rewrite Hh, Nat2Z.id.
  - intros Hx. apply list_elem_of_In, in_concat. eexists. split; [|by apply list_elem_of_In].
    apply in_map_iff. eexists. split; [reflexivity|]. apply in_seq. pose proof (own_part_lt x). lia.
Qed.

(** The state that freezing leaves. *)
Record frozen (s : SortedHashSet) : Prop := {
  fz_frozen : ss_frozen s = true;
  fz_pbits : ss_pbits s = pbits;
  fz_gbits : ss_gbits s = gbits;
  fz_total : ss_total s = Z.of_nat (length all_puts);
  fz_fit i : Z.of_nat (length (puts_at i)) <= maxSortedHashPartitionSize;
  fz_parts : ss_parts s = map (λ i, mkPart [] (length (puts_at i)) (keys_at i)) (seq 0 (length ps));
  fz_dir i k : (i < length ps)%nat → (k ≤ slots)%nat →
    ss_dir s !! (i * (slots + 1) + k)%nat = Some (u32 (Z.of_nat (below (slot_of gbits (i * slots)) k (puts_at i))));
  fz_dups : ss_dups s = foldr Z.add 0 (map (λ i, count_dups None (keys_at i)) (seq 0 (length ps)));
}.

Lemma Exists_spec s h : frozen s → Exists h s = Ok (bool_decide (h ∈ all_puts)).
Proof.
  intros [F1 F2 F3 F4 F5 F6 F7 _]. unfold Exists. rewrite F1, F2, F3, F4. cbn [negb].
  destruct (Z.eqb_spec (Z.of_nat (length all_puts)) 0) as [E0|E0].
  { rewrite bool_decide_false; [done|]. destruct all_puts; [apply not_elem_of_nil|cbn in E0; lia]. }
  set (i := Z.to_nat (hashTopBits h pbits)). pose proof (top_range h pbits ltac:(lia)) as Hr.
  pose proof (own_part_lt h) as Hi. fold i in Hi.
  assert (hashTopBits h pbits = Z.of_nat i) as Eh by (unfold i; lia).
  destruct (key_spec pbits gbits i Hbits h Eh) as [Eg Hk]. set (k := slot_of gbits (i * slots) h) in *. rewrite Eg, Nat2Z.id.
  assert ((i * slots + k) / slots = i)%nat as -> by (rewrite Nat.div_add_l by lia; rewrite Nat.div_small; lia).
  rewrite F6, list_lookup_fmap, lookup_seq_lt by done. cbn [fmap option_fmap option_map Nat.add].
  replace (i * slots + k + i)%nat with (i * (slots + 1) + k)%nat by lia. replace (i * (slots + 1) + k + 1)%nat with (i * (slots + 1) + S k)%nat by lia.
  rewrite !F7 by lia. pose proof (F5 i) as Hfit. unfold maxSortedHashPartitionSize in Hfit.
  pose proof (below_le pbits gbits i (puts_at i) k) as Hb. pose proof (below_le pbits gbits i (puts_at i) (S k)) as Hb'.
  rewrite !u32_small by lia. rewrite !Nat2Z.id. cbn [pt_keys]. unfold keys_at. rewrite slot_slice by done.
  set (run := sort_run _). f_equal. assert (h ∈ run ↔ h ∈ all_puts) as Hrun.
  { unfold run. rewrite elem_of_slot, elem_of_all_puts by done. fold i. fold k. tauto. }
  destruct (length run <=? 16)%nat.
  - destruct (existsb _ run) eqn:Ex; symmetry.
    + apply bool_decide_eq_true, Hrun. apply existsb_exists in Ex as (x & Hx%list_elem_of_In & [_ ->%bool_decide_eq_true]%andb_true_iff). done.
    + apply bool_decide_eq_false_2. intros Hin%Hrun. enough (existsb (λ x, (hashWord0 x =? hashWord0 h) && bool_decide (x = h)) run = true) by congruence.
      apply existsb_exists. exists h. split; [by apply list_elem_of_In|]. by rewrite Z.eqb_refl, bool_decide_true.
  - rewrite BinarySearch_spec by apply sort_run_spec. by apply bool_decide_ext.
Qed.

Lemma Length_spec s : frozen s → Length s = Ok (Z.of_nat (size (list_to_set all_puts : gset Hash))).
Proof.
  intros [F1 F2 F3 F4 _ _ _ F8]. unfold Length. rewrite F1, F4, F8. cbn [negb]. f_equal.
  pose proof (visited_length (length ps)) as Hv. rewrite puts_seq in Hv. unfold all_puts.
  assert ((list_to_set (concat (map puts_of ps)) : gset Hash) = list_to_set (visited (length ps))) as ->.
  { apply set_eq. intros x. rewrite !elem_of_list_to_set, elem_of_visited. fold all_puts. rewrite elem_of_all_puts. split.
    - intros Hx. exists (Z.to_nat (hashTopBits x pbits)). split; [apply own_part_lt|done].
    - intros (i & _ & Hx). pose proof (proj1 (Forall_forall _ _) (po_homed _ _ _ (part_at_ok i)) x Hx) as Hh. cbn in Hh. by rewrite Hh, Nat2Z.id. }
  rewrite size_list_to_set; [lia|]. pose proof (visited_sorted (length ps)) as Hs. clear - Hs. induction Hs as [|x l Hl IH Hx]; constructor; [|done].
  intros Hin. apply (proj1 (Forall_forall _ _) Hx) in Hin. unfold hash_lt in Hin. lia.
Qed.

(** What a visitor sees, and whether it stopped. *)
Fixpoint seen_by {A} (f : Hash → A → bool * A) (l : list Hash) (a : A) : bool * A :=
  match l with
  | [] => (false, a)
  | x :: l => let '(stop, a) := f x a in if stop : bool then (true, a) else seen_by f l a
  end.

Lemma seen_by_app {A} (f : Hash → A → bool * A) l1 l2 a :
  seen_by f (l1 ++ l2) a = let '(stop, a) := seen_by f l1 a in if stop : bool then (true, a) else seen_by f l2 a.
Proof. revert a. induction l1 as [|x l1 IH]; intros a; cbn [app seen_by]; [done|]. destruct (f x a) as [[] a']; [done|apply IH]. Qed.

Lemma iter_keys_spec {A} (f : Hash → A → bool * A) prev keys a : iter_keys f prev keys a = seen_by f (distinct prev keys) a.
Proof.
  revert prev a. induction keys as [|k keys IH]; intros prev a; cbn [iter_keys distinct]; [done|]. case_bool_decide; [apply IH|].
  cbn [seen_by]. destruct (f k a) as [[] a']; [done|apply IH].
Qed.

Lemma iter_parts_spec {A} (f : Hash → A → bool * A) parts a :
  iter_parts f parts a = (seen_by f (concat (map (λ p, distinct None (pt_keys p)) parts)) a).2.
Proof.
  revert a. induction parts as [|p parts IH]; intros a; cbn [iter_parts map concat]; [done|]. rewrite iter_keys_spec, seen_by_app.
  destruct (seen_by f (distinct None (pt_keys p)) a) as [[] a']; [done|apply IH].
Qed.

Lemma Iter_spec {A} (f : Hash → A → bool * A) s a : frozen s → Iter f s a = Ok (seen_by f (visited (length ps)) a).2.
Proof.
  intros [F1 _ _ _ _ F6 _ _]. unfold Iter. rewrite F1, F6. cbn [negb]. f_equal. rewrite iter_parts_spec, map_map. done.
Qed.

(** The only way to freeze. *)
Lemma Freeze_frozen order s : order ≡ₚ seq 0 (length ps) → ss_parts s = ps → ss_pbits s = pbits → ss_frozen s = false → ss_dups s = 0 →
  Forall (λ p, Z.of_nat (pt_n p) <= maxSortedHashPartitionSize) ps → (pbits ≤ 16)%nat →
  gbits = directory_bits 64 (Z.of_nat (length all_puts)) pbits →
  ∃ s', Freeze order s = (Ok tt, s') ∧ frozen s'.
Proof.
  intros Hord Hps Hpb Hf Hd Hfit Hp16 Hg. unfold Freeze. rewrite Hf, Hps, Hpb.
  assert (Z.of_nat (length ps) <= 2 ^ 16) as Hl16 by (rewrite Hlen, Nat2Z.inj_pow; apply (Z.pow_le_mono_r 2); lia).
  rewrite partitionTotal_spec by (unfold maxSortedHashPartitionSize; lia). rewrite decide_True by done.
  assert (0 + Z.of_nat (sum_list_with pt_n ps) = Z.of_nat (length all_puts)) as ->.
  { rewrite Z.add_0_l. f_equal. unfold all_puts. pose proof (λ i p H, po_n _ _ _ (Hok i p H)) as Hn. clear - Hn.
    assert (∀ p, p ∈ ps → pt_n p = length (puts_of p)) as H by (intros p [i Hi]%list_elem_of_lookup_1; by eapply Hn). clear Hn.
    induction ps as [|p l IH]; [done|]. cbn [sum_list_with map concat]. rewrite length_app, (H p) by left. f_equal. apply IH. intros q Hq. apply H. by right. }
  rewrite <- Hg. set (s0 := mkSorted pbits ps false gbits _ _ _). eexists. split; [reflexivity|].
  destruct (layout_all slots order s0) as (E1 & E2 & E3 & E4 & _ & E6).
  { rewrite Hord. apply NoDup_seq. }
  { intros i Hi. rewrite Hord in Hi. apply elem_of_seq in Hi. change (ss_parts s0) with ps. lia. }
  { change (length (replicate (length ps * (slots + 1)) 0) = (length ps * (slots + 1))%nat). by rewrite length_replicate. }
  injection E1 as B1 B2 B3 B4. assert (∀ i p, ps !! i = Some p → i ∈ order) as Hin.
  { intros i p Hi%lookup_lt_Some. rewrite Hord. apply elem_of_seq. lia. }
  assert (∀ i p, ps !! i = Some p → layoutPartition gbits slots i p = (mkPart [] (length (puts_at i)) (keys_at i),
    map (λ k, u32 (Z.of_nat (below (slot_of gbits (i * slots)) k (puts_at i)))) (seq 0 (S slots)), count_dups None (keys_at i))) as HL.
  { intros i p Hi. destruct (Hok i p Hi) as [P1 P2 _]. rewrite (layout_spec pbits gbits i Hbits p P2 P1), P1. unfold keys_at, part_at. by rewrite Hi. }
  split; cbn [ss_frozen ss_pbits ss_gbits ss_total ss_parts ss_dir ss_dups]; [done|exact B1|exact B3|exact B4|..].
  - intros i. unfold part_at. destruct (ps !! i) as [p|] eqn:Ei; [|cbn; unfold maxSortedHashPartitionSize; lia]. cbn [from_option id].
    rewrite <- (po_n _ _ _ (Hok i p Ei)). apply (proj1 (Forall_forall _ _) Hfit). by eapply list_elem_of_lookup_2.
  - apply list_eq. intros i. destruct (ps !! i) as [p|] eqn:Ei.
    + rewrite (proj1 (E4 i p Ei (Hin i p Ei))). change (ss_gbits s0) with gbits. rewrite (HL i p Ei). cbn [fst].
      rewrite list_lookup_fmap, lookup_seq_lt by (by eapply lookup_lt_Some). done.
    + apply lookup_ge_None in Ei. rewrite !lookup_ge_None_2; [done|rewrite length_map, length_seq; lia|rewrite E2; exact Ei].
  - intros i k Hi Hk. destruct (lookup_lt_is_Some_2 ps i Hi) as [p Ei]. rewrite (proj2 (E4 i p Ei (Hin i p Ei)) k Hk). change (ss_gbits s0) with gbits.
    rewrite (HL i p Ei). cbn [fst snd]. rewrite list_lookup_fmap, lookup_seq_lt by lia. done.
  - rewrite E6. change (ss_dups s0) with (ss_dups s). rewrite Hd, Z.add_0_l.
    assert (∀ l l' : list Z, l ≡ₚ l' → foldr Z.add 0 l = foldr Z.add 0 l') as Hsum by (induction 1; cbn; lia).
    apply Hsum. rewrite Hord. erewrite map_ext_in; [reflexivity|]. intros i Hi%list_elem_of_In%elem_of_seq.
    destruct (lookup_lt_is_Some_2 ps i) as [p Ei]; [lia|]. change (ss_parts s0) with ps. change (ss_gbits s0) with gbits. by rewrite Ei, (HL i p Ei).
Qed.
End Frozen.

(** ** What a frozen set answers *)

(** C27: whatever calls built the set, in whatever order, freezing it succeeds exactly when every partition fits 32-bit offsets, and fails leaving it open; a frozen set answers membership, length and iteration as the finite set of the accepted hashes, in ascending order and each once, however its partitions were laid out, and takes no more. *)
Theorem frozen_set_refines capacity calls order :
  let s := do_calls (NewSortedHashSet capacity) calls in
  let puts := all_accepted (ss_pbits s) calls in
  order ≡ₚ seq 0 (Z.to_nat (Partitions s)) →
  match Freeze order s with
  | (Ok _, s') =>
      (∀ h, Exists h s' = Ok (bool_decide (h ∈ puts))) ∧
      Length s' = Ok (Z.of_nat (size (list_to_set puts : gset Hash))) ∧
      (∃ l, StronglySorted hash_lt l ∧ (∀ h, h ∈ l ↔ h ∈ puts) ∧ ∀ A (f : Hash → A → bool * A) a, Iter f s' a = Ok (seen_by f l a).2) ∧
      (∀ c, do_call s' c = (Err (err ERR_PROCESSING), s')) ∧ Freeze order s' = (Err (err ERR_PROCESSING), s')
  | (Err _, s') => s' = s ∧ ∃ i : Z, maxSortedHashPartitionSize < Z.of_nat (length (filter (λ h, hashTopBits h (ss_pbits s) = i) puts))
  end.
Proof.
  intros s puts Hord. destruct (do_calls_ok calls (NewSortedHashSet capacity) [] (new_building capacity)) as [Eb HB]. fold s in Eb, HB.
  rewrite <- Eb in HB. change ([] ++ _) with puts in HB. destruct HB as [H1 H2 H3 H4 H5 H6].
  unfold Partitions in Hord. rewrite Nat2Z.id in Hord. set (ps := ss_parts s) in *. set (pbits := ss_pbits s) in *.
  set (gbits := directory_bits 64 (Z.of_nat (length (all_puts ps))) pbits). pose proof (directory_bits_ge 64 (Z.of_nat (length (all_puts ps))) pbits ltac:(lia)) as Hb.
  fold gbits in Hb. destruct (decide (Forall (λ p, Z.of_nat (pt_n p) <= maxSortedHashPartitionSize) ps)) as [Hfit|Hfit].
  - destruct (Freeze_frozen ps pbits gbits Hb H3 H4 order s Hord) as (s' & -> & Hz); try done. assert (all_puts ps ≡ₚ puts) as Hp by exact H5.
    split_and!.
    + intros h. rewrite (Exists_spec ps pbits gbits Hb H3 H4 s' h Hz). f_equal. apply bool_decide_ext. by rewrite Hp.
    + rewrite (Length_spec ps pbits gbits Hb H3 H4 s' Hz). do 3 f_equal. apply set_eq. intros h. by rewrite !elem_of_list_to_set, Hp.
    + exists (visited ps pbits gbits (length ps)). split_and!; [by apply visited_sorted| |intros A f a; by apply Iter_spec].
      intros h. rewrite elem_of_visited, <- Hp, elem_of_all_puts by done. split; [|intros Hh; eexists; split; [by apply (own_part_lt ps pbits gbits)|done]].
      intros (i & _ & Hh). pose proof (proj1 (Forall_forall _ _) (po_homed _ _ _ (part_at_ok ps pbits H4 i)) h Hh) as E. cbn in E. by rewrite E, Nat2Z.id.
    + intros [h|i hashes]; cbn [do_call]; [unfold Put|unfold PutMultiBucket]; by rewrite (fz_frozen _ _ _ _ Hz).
    + unfold Freeze. by rewrite (fz_frozen _ _ _ _ Hz).
  - assert (Freeze order s = (Err (err ERR_PROCESSING), s)) as ->.
    { unfold Freeze. rewrite H1. fold ps. assert (Z.of_nat (length ps) <= 2 ^ 16) by (rewrite H3, Nat2Z.inj_pow; apply (Z.pow_le_mono_r 2); lia).
      rewrite partitionTotal_spec by (unfold maxSortedHashPartitionSize; lia). by rewrite decide_False. }
    split; [done|]. apply not_Forall_Exists in Hfit; [|apply _]. apply Exists_exists in Hfit as (p & Hp & Hbig).
    apply list_elem_of_lookup_1 in Hp as [i Hi]. exists (Z.of_nat i). destruct (H4 i p Hi) as [P1 P2 _].
    enough (length (puts_of p) ≤ length (filter (λ h, hashTopBits h pbits = Z.of_nat i) puts))%nat by (rewrite <- P1 in *; cbn in Hbig; lia).
    rewrite <- H5. rewrite <- (take_drop_middle _ _ _ Hi), map_app, concat_app, filter_app. cbn [map concat]. rewrite filter_app, !length_app.
    rewrite (list_filter_all _ (puts_of p)); [lia|]. by apply Forall_forall.
Qed.

(** Two partitions; one call names the wrong one. *)
Definition ex_calls : list call :=
  [CPut (hash_of_Z 200); CPut (hash_of_Z 3); CPutMultiBucket 0 (map hash_of_Z [7; 5; 3; 4; 5; 6; 1; 2; 120]);
   CPutMultiBucket 1 (map hash_of_Z [200; 9]); CPutMultiBucket 1 [hash_of_Z 255]].

Lemma frozen_set_refines_witness :
  let s := do_calls (NewSortedHashSet 70000) ex_calls in
  let puts := all_accepted (ss_pbits s) ex_calls in
  (Partitions s = 2 ∧ length puts = 12%nat ∧ ss_gbits (Freeze [1; 0]%nat s).2 = 2%nat) ∧
  match Freeze [1; 0]%nat s with
  | (Ok _, s') =>
      (∀ h, Exists h s' = Ok (bool_decide (h ∈ puts))) ∧
      Length s' = Ok (Z.of_nat (size (list_to_set puts : gset Hash))) ∧
      (∃ l, StronglySorted hash_lt l ∧ (∀ h, h ∈ l ↔ h ∈ puts) ∧ ∀ A (f : Hash → A → bool * A) a, Iter f s' a = Ok (seen_by f l a).2) ∧
      (∀ c, do_call s' c = (Err (err ERR_PROCESSING), s')) ∧ Freeze [1; 0]%nat s' = (Err (err ERR_PROCESSING), s')
  | (Err _, s') => s' = s ∧ ∃ i : Z, maxSortedHashPartitionSize < Z.of_nat (length (filter (λ h, hashTopBits h (ss_pbits s) = i) puts))
  end.
Proof.
  split; [vm_compute; done|]. apply (frozen_set_refines 70000 ex_calls [1; 0]%nat). vm_compute. apply perm_swap.
Defined.
