(* ===== verification/ForkManager.v ===== *)
(** * The fork manager of block validation

    services/blockvalidation/fork_manager.go: the branches that compete with the main
    chain, the branch each block belongs to, and the blocks the workers are validating,
    at most [maxParallelForks] at a time.  Every operation holds the manager's lock for
    its whole body, so each is one step; [DetermineForkID] takes the lock three times and
    asks the blockchain service in between, so its sections are definitions of their own.

    [time.Now] is an argument, in nanoseconds; the order of a walk over the branches is an
    argument too.  The String of a hash belongs to the chainhash package.  What is only
    logged or counted for metrics is left out. *)

From stdpp Require Import strings pretty sorting.
From S2P Require Import Prelude.

(** ** Sorting and time *)

(** [sort.Slice] with the order it is given; ties come in any order. *)
Class SortSlice := sortSlice : ∀ {A : Type}, (A → A → bool) → list A → list A.

(** [less] is a strict weak order: it has no loops, and what is not less stays so. *)
Record strict_weak {A} (less : A → A → bool) : Prop := mkStrict {
  sw_irrefl x : less x x = false;
  sw_asym x y : less x y = true → less y x = false;
  sw_neg_trans x y z : less y x = false → less z y = false → less z x = false;
}.

Class SortSliceSpec (S : SortSlice) : Prop := {
  sortSlice_perm {A} (less : A → A → bool) l : sortSlice less l ≡ₚ l;
  sortSlice_sorted {A} (less : A → A → bool) l : strict_weak less →
    StronglySorted (λ x y, less y x = false) (sortSlice less l);
}.

Definition Nanosecond : Z := 1.
Definition Second : Z := 10^9.
Definition Minute : Z := 60 * Second.
Definition Hour : Z := 60 * Minute.

(** [t.Sub(u)]: a duration, which saturates. *)
Definition time_Sub (t u : Z) : Z := Z.max (-2^63) (Z.min (2^63 - 1) (t - u)).

(** ** Data *)

Inductive ForkState := ForkStateActive | ForkStateStale | ForkStateResolved | ForkStateOrphaned.
#[export] Instance ForkState_eq_dec : EqDecision ForkState.
Proof. solve_decision. Defined.

Record ForkBranch := mkFork {
  fb_ID : string;
  fb_BaseHash : Hash;
  fb_BaseHeight : Z;
  fb_TipHash : Hash;
  fb_TipHeight : Z;
  fb_ProcessingBlock : option Hash;
  fb_Blocks : list Hash;
  fb_CreatedAt : Z;
  fb_LastActivity : Z;
  fb_State : ForkState;
  fb_Workers : Z;
}.

Record ForkStats := mkStats {
  st_ID : string;
  st_BaseHeight : Z;
  st_TipHeight : Z;
  st_BlockCount : nat;
  st_ProcessingBlock : bool;
}.

Record ForkCleanupConfig := mkCleanup {
  cc_Enabled : bool;
  cc_MaxAge : Z;
  cc_MaxInactiveForks : Z;
  cc_CheckInterval : Z;
}.

Definition DefaultForkCleanupConfig : ForkCleanupConfig := mkCleanup true (1 * Hour) 100 (5 * Minute).

Record ForkResolution := mkResolution {
  fr_ForkID : string;
  fr_ResolvedAt : Z;
  fr_ResolvedTo : string;
  fr_FinalBlock : Hash;
  fr_FinalHeight : Z;
  fr_BlocksInFork : nat;
}.

(** What the manager reads off a block: its hash, its parent's and its height. *)
Record FoundBlock := mkFound {
  bk_hash : Hash;
  bk_prev : Hash;
  bk_height : Z;
}.

(** [fm_processingBlocks] is the map whose values are all true; [fm_priorityQueue] says
    whether a queue is set; callbacks are their numbers. *)
Record ForkManager := mkFM {
  fm_forks : gmap string ForkBranch;
  fm_blockToFork : gmap Hash string;
  fm_processingBlocks : gset Hash;
  fm_processingCount : Z;
  fm_maxParallelForks : Z;
  fm_maxTrackedForks : Z;
  fm_coinbaseMaturity : Z;
  fm_priorityQueue : bool;
  fm_cleanupConfig : ForkCleanupConfig;
  fm_mainChainTip : option Hash;
  fm_mainChainHeight : Z;
  fm_resolutionCallbacks : list nat;
}.

Definition NewForkManagerWithConfig (parallel tracked maturity : Z) (cfg : ForkCleanupConfig) : ForkManager :=
  let maxParallelForks := if parallel >? 0 then parallel else 4 in
  let maxTrackedForks := if tracked >? 0 then tracked else 1000 in
  mkFM ∅ ∅ ∅ 0 maxParallelForks maxTrackedForks maturity false cfg None 0 [].

Definition NewForkManager (parallel tracked maturity : Z) : ForkManager :=
  NewForkManagerWithConfig parallel tracked maturity DefaultForkCleanupConfig.

(** ** Field updates *)
Definition set_forks (forks : gmap string ForkBranch) (fm : ForkManager) : ForkManager :=
  mkFM forks (fm_blockToFork fm) (fm_processingBlocks fm) (fm_processingCount fm) (fm_maxParallelForks fm) (fm_maxTrackedForks fm)
    (fm_coinbaseMaturity fm) (fm_priorityQueue fm) (fm_cleanupConfig fm) (fm_mainChainTip fm) (fm_mainChainHeight fm) (fm_resolutionCallbacks fm).
Definition set_links (links : gmap Hash string) (fm : ForkManager) : ForkManager :=
  mkFM (fm_forks fm) links (fm_processingBlocks fm) (fm_processingCount fm) (fm_maxParallelForks fm) (fm_maxTrackedForks fm)
    (fm_coinbaseMaturity fm) (fm_priorityQueue fm) (fm_cleanupConfig fm) (fm_mainChainTip fm) (fm_mainChainHeight fm) (fm_resolutionCallbacks fm).
Definition set_processing (blocks : gset Hash) (count : Z) (fm : ForkManager) : ForkManager :=
  mkFM (fm_forks fm) (fm_blockToFork fm) blocks count (fm_maxParallelForks fm) (fm_maxTrackedForks fm)
    (fm_coinbaseMaturity fm) (fm_priorityQueue fm) (fm_cleanupConfig fm) (fm_mainChainTip fm) (fm_mainChainHeight fm) (fm_resolutionCallbacks fm).
Definition set_tip (tip : option Hash) (height : Z) (fm : ForkManager) : ForkManager :=
  mkFM (fm_forks fm) (fm_blockToFork fm) (fm_processingBlocks fm) (fm_processingCount fm) (fm_maxParallelForks fm) (fm_maxTrackedForks fm)
    (fm_coinbaseMaturity fm) (fm_priorityQueue fm) (fm_cleanupConfig fm) tip height (fm_resolutionCallbacks fm).

Definition SetPriorityQueue (set : bool) (fm : ForkManager) : ForkManager :=
  mkFM (fm_forks fm) (fm_blockToFork fm) (fm_processingBlocks fm) (fm_processingCount fm) (fm_maxParallelForks fm) (fm_maxTrackedForks fm)
    (fm_coinbaseMaturity fm) set (fm_cleanupConfig fm) (fm_mainChainTip fm) (fm_mainChainHeight fm) (fm_resolutionCallbacks fm).
Definition OnForkResolution (callback : nat) (fm : ForkManager) : ForkManager :=
  mkFM (fm_forks fm) (fm_blockToFork fm) (fm_processingBlocks fm) (fm_processingCount fm) (fm_maxParallelForks fm) (fm_maxTrackedForks fm)
    (fm_coinbaseMaturity fm) (fm_priorityQueue fm) (fm_cleanupConfig fm) (fm_mainChainTip fm) (fm_mainChainHeight fm) (fm_resolutionCallbacks fm ++ [callback]).

Definition set_ProcessingBlock (h : option Hash) (f : ForkBranch) : ForkBranch :=
  mkFork (fb_ID f) (fb_BaseHash f) (fb_BaseHeight f) (fb_TipHash f) (fb_TipHeight f) h (fb_Blocks f)
    (fb_CreatedAt f) (fb_LastActivity f) (fb_State f) (fb_Workers f).
Definition set_Workers (n : Z) (f : ForkBranch) : ForkBranch :=
  mkFork (fb_ID f) (fb_BaseHash f) (fb_BaseHeight f) (fb_TipHash f) (fb_TipHeight f) (fb_ProcessingBlock f) (fb_Blocks f)
    (fb_CreatedAt f) (fb_LastActivity f) (fb_State f) n.
Definition set_State (st : ForkState) (at_ : Z) (f : ForkBranch) : ForkBranch :=
  mkFork (fb_ID f) (fb_BaseHash f) (fb_BaseHeight f) (fb_TipHash f) (fb_TipHeight f) (fb_ProcessingBlock f) (fb_Blocks f)
    (fb_CreatedAt f) at_ st (fb_Workers f).

(** A change of the branch the block belongs to, when there is one:
    [if forkID, exists := fm.blockToFork[*h]; exists { if fork, ok := fm.forks[forkID]; ok {...} }]. *)
Definition on_fork_of (h : Hash) (g : ForkBranch → ForkBranch) (fm : ForkManager) : ForkManager :=
  match fm_blockToFork fm !! h with
  | Some forkID => match fm_forks fm !! forkID with Some fork => set_forks (<[forkID := g fork]> (fm_forks fm)) fm | None => fm end
  | None => fm
  end.

(** [if fm.processingBlocks[h] { delete(...); fm.processingCount.Add(-1) }] *)
Definition drop_processing (h : Hash) (fm : ForkManager) : ForkManager :=
  if bool_decide (h ∈ fm_processingBlocks fm) then set_processing (fm_processingBlocks fm ∖ {[h]}) (i32 (fm_processingCount fm - 1)) fm else fm.

(** ** Registering branches and blocks *)

Definition new_branch (forkID : string) (base : Hash) (height now : Z) : ForkBranch :=
  mkFork forkID base height base height None [] now now ForkStateActive 0.

Definition RegisterFork (forkID : string) (baseHash : Hash) (baseHeight now : Z) (fm : ForkManager) : ForkBranch * ForkManager :=
  match fm_forks fm !! forkID with
  | Some fork => (fork, fm)
  | None => let fork := new_branch forkID baseHash baseHeight now in (fork, set_forks (<[forkID := fork]> (fm_forks fm)) fm)
  end.

Definition add_block (block : FoundBlock) (now : Z) (f : ForkBranch) : ForkBranch :=
  let higher := bk_height block >? fb_TipHeight f in
  mkFork (fb_ID f) (fb_BaseHash f) (fb_BaseHeight f) (if higher then bk_hash block else fb_TipHash f)
    (if higher then bk_height block else fb_TipHeight f) (fb_ProcessingBlock f) (fb_Blocks f ++ [bk_hash block])
    (fb_CreatedAt f) now (fb_State f) (fb_Workers f).

Definition AddBlockToFork (block : FoundBlock) (forkID : string) (now : Z) (fm : ForkManager) : result unit * ForkManager :=
  match fm_forks fm !! forkID with
  | None => (Err (err ERR_INVALID_ARGUMENT), fm)
  | Some fork =>
      (Ok (), set_forks (<[forkID := add_block block now fork]> (fm_forks fm)) (set_links (<[bk_hash block := forkID]> (fm_blockToFork fm)) fm))
  end.

Definition GetForkForBlock (h : Hash) (fm : ForkManager) : option string := fm_blockToFork fm !! h.

(** ** Admission and release *)

(** The first test is an atomic load before the lock; the one on the size of the map
    repeats it under the lock. *)
Definition CanProcessBlock (h : Hash) (fm : ForkManager) : bool :=
  if fm_processingCount fm >=? fm_maxParallelForks fm then false
  else if bool_decide (h ∈ fm_processingBlocks fm) then false
  else if Z.of_nat (size (fm_processingBlocks fm)) >=? fm_maxParallelForks fm then false
  else match fm_blockToFork fm !! h with
       | Some forkID => match fm_forks fm !! forkID with
                        | Some fork => negb (bool_decide (is_Some (fb_ProcessingBlock fork)))
                        | None => true
                        end
       | None => true
       end.

Definition begin_processing (h : Hash) (fm : ForkManager) : ForkManager :=
  set_processing ({[h]} ∪ fm_processingBlocks fm) (i32 (fm_processingCount fm + 1)) fm.

Record BlockProcessingGuard := mkGuard {
  g_blockHash : Hash;
  g_released : bool;
}.

Definition MarkBlockProcessing (h : Hash) (fm : ForkManager) : result BlockProcessingGuard * ForkManager :=
  if bool_decide (h ∈ fm_processingBlocks fm) then (Err (err ERR_PROCESSING), fm)
  else if Z.of_nat (size (fm_processingBlocks fm)) >=? fm_maxParallelForks fm then (Err (err ERR_PROCESSING), fm)
  else (Ok (mkGuard h false),
        on_fork_of h (λ f, set_Workers (i32 (fb_Workers f + 1)) (set_ProcessingBlock (Some h) f)) (begin_processing h fm)).

Definition StartProcessingBlock (h : Hash) (fm : ForkManager) : bool * ForkManager :=
  if bool_decide (h ∈ fm_processingBlocks fm) then (false, fm)
  else if Z.of_nat (size (fm_processingBlocks fm)) >=? fm_maxParallelForks fm then (false, fm)
  else (true, on_fork_of h (set_ProcessingBlock (Some h)) (begin_processing h fm)).

(** What both ends of a validation do to the block's branch. *)
Definition leave_fork (h : Hash) (f : ForkBranch) : ForkBranch :=
  let f := if bool_decide (fb_ProcessingBlock f = Some h) then set_ProcessingBlock None f else f in
  if fb_Workers f >? 0 then set_Workers (i32 (fb_Workers f - 1)) f else f.

(** The flag says whether the queue was signalled. *)
Definition FinishProcessingBlock (h : Hash) (fm : ForkManager) : bool * ForkManager :=
  (fm_priorityQueue fm, on_fork_of h (leave_fork h) (drop_processing h fm)).

Definition Release (g : BlockProcessingGuard) (fm : ForkManager) : BlockProcessingGuard * bool * ForkManager :=
  if g_released g then (g, false, fm)
  else (mkGuard (g_blockHash g) true, fm_priorityQueue fm, on_fork_of (g_blockHash g) (leave_fork (g_blockHash g)) (drop_processing (g_blockHash g) fm)).

Definition GetParallelProcessingCount (fm : ForkManager) : nat := size (fm_processingBlocks fm).
Definition GetForkCount (fm : ForkManager) : nat := size (fm_forks fm).
Definition GetFork (forkID : string) (fm : ForkManager) : option ForkBranch := fm_forks fm !! forkID.
Definition GetAllForks (fm : ForkManager) : list ForkBranch := (map_to_list (fm_forks fm)).*2.

Definition fork_stats (forkID : string) (f : ForkBranch) : ForkStats :=
  mkStats forkID (fb_BaseHeight f) (fb_TipHeight f) (length (fb_Blocks f)) (bool_decide (is_Some (fb_ProcessingBlock f))).
Definition GetForkStats (fm : ForkManager) : gmap string ForkStats := map_imap (λ forkID f, Some (fork_stats forkID f)) (fm_forks fm).

Definition SetProcessingBlockForFork (forkID : string) (h : option Hash) (fm : ForkManager) : result unit * ForkManager :=
  match fm_forks fm !! forkID with
  | None => (Err (err ERR_INVALID_ARGUMENT), fm)
  | Some fork => (Ok (), set_forks (<[forkID := set_ProcessingBlock h fork]> (fm_forks fm)) fm)
  end.

(** ** Removing branches *)

(** The loop over the blocks of a branch. *)
Definition forget_block (fm : ForkManager) (h : Hash) : ForkManager := drop_processing h (set_links (delete h (fm_blockToFork fm)) fm).

Definition CleanupFork (forkID : string) (fm : ForkManager) : ForkManager :=
  match fm_forks fm !! forkID with
  | None => fm
  | Some fork => let fm := foldl forget_block fm (fb_Blocks fork) in set_forks (delete forkID (fm_forks fm)) fm
  end.

Definition CleanupOldForks (heightThreshold : Z) (order : list string) (fm : ForkManager) : ForkManager :=
  let forksToRemove := List.filter (λ id, match fm_forks fm !! id with Some f => fb_TipHeight f <? heightThreshold | None => false end) order in
  foldl (λ fm id, CleanupFork id fm) fm forksToRemove.

Definition removeFork (fork : ForkBranch) (fm : ForkManager) : ForkManager :=
  let fm := set_forks (delete (fb_ID fork) (fm_forks fm)) fm in
  foldl (λ fm '(h, forkID), if bool_decide (forkID = fb_ID fork) then forget_block fm h else fm) fm (map_to_list (fm_blockToFork fm)).

Section Cleanup.
  Context {SS : SortSlice}.

Definition applyRetentionPolicy (candidates : list ForkBranch) (fm : ForkManager) : list ForkBranch :=
  let forks := Z.of_nat (size (fm_forks fm)) in
  if forks <=? cc_MaxInactiveForks (fm_cleanupConfig fm) then candidates
  else
    let sorted := sortSlice (λ f g, fb_LastActivity f >? fb_LastActivity g) candidates in
    let canRemove := forks - cc_MaxInactiveForks (fm_cleanupConfig fm) in
    if canRemove <=? 0 then []
    else
      let canRemove := if canRemove >? Z.of_nat (length candidates) then Z.of_nat (length candidates) else canRemove in
      take (Z.to_nat canRemove) (rev sorted).

(** One turn of the first loop: whether the branch is a candidate, and its state. *)
Definition cleanup_one (now : Z) (cfg : ForkCleanupConfig) (f : ForkBranch) : bool * ForkBranch :=
  let age := time_Sub now (fb_LastActivity f) in
  match fb_State f with
  | ForkStateResolved => (age >? 5 * Minute, f)
  | ForkStateStale | ForkStateOrphaned => (age >? cc_MaxAge cfg, f)
  | ForkStateActive =>
      if (age >? cc_MaxAge cfg) && (fb_Workers f =? 0) then (true, set_State ForkStateStale (fb_LastActivity f) f) else (false, f)
  end.

Definition cleanup_scan (now : Z) (st : list ForkBranch * ForkManager) (id : string) : list ForkBranch * ForkManager :=
  let '(candidates, fm) := st in
  match fm_forks fm !! id with
  | None => (candidates, fm)
  | Some f => let '(c, f') := cleanup_one now (fm_cleanupConfig fm) f in
              (if c then candidates ++ [f'] else candidates, set_forks (<[id := f']> (fm_forks fm)) fm)
  end.

Definition performCleanup (now : Z) (order : list string) (fm : ForkManager) : ForkManager :=
  let '(candidates, fm) := foldl (cleanup_scan now) ([], fm) order in
  foldl (λ fm f, removeFork f fm) fm (applyRetentionPolicy candidates fm).

End Cleanup.

(** ** Resolution *)

Definition handleForkResolution (id : string) (resolvedTo : string) (finalBlock : FoundBlock) (now : Z) (fm : ForkManager) :
  list (nat * ForkResolution) * ForkManager :=
  match fm_forks fm !! id with
  | None => ([], fm)
  | Some fork =>
      let resolution := mkResolution (fb_ID fork) now resolvedTo (bk_hash finalBlock) (bk_height finalBlock) (length (fb_Blocks fork)) in
      ((λ callback, (callback, resolution)) <$> fm_resolutionCallbacks fm,
       set_forks (<[id := set_State ForkStateResolved now fork]> (fm_forks fm)) fm)
  end.

Definition orphan_one (newMainHeight orphanThreshold now : Z) (f : ForkBranch) : ForkBranch :=
  if bool_decide (fb_State f = ForkStateActive) && (newMainHeight >? u32 (fb_BaseHeight f + orphanThreshold))
  then set_State ForkStateOrphaned now f else f.

Definition checkOrphanedForks (newMainHeight now : Z) (fm : ForkManager) : ForkManager :=
  set_forks (orphan_one newMainHeight (u32 (fm_coinbaseMaturity fm)) now <$> fm_forks fm) fm.

Definition CheckForkResolution (processed : FoundBlock) (newTip : Hash) (newHeight now : Z) (fm : ForkManager) :
  list (nat * ForkResolution) * ForkManager :=
  let fm := set_tip (Some newTip) newHeight fm in
  match fm_blockToFork fm !! bk_hash processed with
  | None => ([], fm)
  | Some forkID =>
      match fm_forks fm !! forkID with
      | None => ([], fm)
      | Some _ =>
          if bool_decide (bk_hash processed = newTip) then
            let '(calls, fm) := handleForkResolution forkID "main" processed now fm in
            (calls, checkOrphanedForks newHeight now fm)
          else ([], fm)
      end
  end.

(** ** The branch of a block *)
Section Determine.
  Context (hash_String : Hash → string).

Definition generateForkID (h : Hash) (height now : Z) : string :=
  (hash_String h +:+ "-" +:+ pretty height +:+ "-" +:+ pretty now)%string.

(** The last section under the lock, with what the blockchain service said of the
    parent: its height, or that it does not know it. *)
Definition place_block (block : FoundBlock) (parentMeta : option Z) (now : Z) (fm : ForkManager) : result string * ForkManager :=
  let parentHash := bk_prev block in
  match fm_blockToFork fm !! parentHash with
  | Some existingForkID => (Ok existingForkID, fm)
  | None =>
      if Z.of_nat (size (fm_forks fm)) >=? fm_maxTrackedForks fm then (Err (err ERR_PROCESSING), fm)
      else
        let root forkID height :=
          set_links (<[bk_hash block := forkID]> (<[parentHash := forkID]> (fm_blockToFork fm)))
            (set_forks (<[forkID := new_branch forkID parentHash height now]> (fm_forks fm)) fm) in
        match parentMeta with
        | None =>
            let forkID := ("orphan-" +:+ hash_String (bk_hash block))%string in
            (Ok forkID, match fm_forks fm !! forkID with Some _ => fm | None => root forkID 0 end)
        | Some height =>
            let forkID := generateForkID parentHash height now in
            (Ok forkID, root forkID height)
        end
  end.

(** The whole call when no other goroutine comes in between; [best] and [parentMeta] are
    the answers of the blockchain service. *)
Definition DetermineForkID (block : FoundBlock) (best : result Hash) (parentMeta : option Z) (now : Z) (fm : ForkManager) :
  result string * ForkManager :=
  match fm_blockToFork fm !! bk_prev block with
  | Some existingForkID => (Ok existingForkID, fm)
  | None =>
      match best with
      | Err e => (Err e, fm)
      | Ok bestHash => if bool_decide (bk_prev block = bestHash) then (Ok "main"%string, fm) else place_block block parentMeta now fm
      end
  end.

End Determine.
