(* ===== verification/ForkManagerTheorems.v ===== *)
(** * What the fork manager of block validation promises

    Its count is always the number of blocks at work and never passes its bound; what a
    branch works on is at work and linked to the branch, whatever is placed, filled,
    cleaned up or resolved; and a block is refused only while some block is at work. *)

From stdpp Require Import strings pretty sorting.
From S2P Require Import Prelude ForkManager.

#[local] Opaque i32 u32 i64.

(** ** The count of the fork manager *)

Record counted (m : Z) (fm : ForkManager) : Prop := mkCounted {
  ct_count : fm_processingCount fm = Z.of_nat (size (fm_processingBlocks fm));
  ct_bound : Z.of_nat (size (fm_processingBlocks fm)) <= m;
  ct_max : fm_maxParallelForks fm = m ∧ 0 < m < 2^31;
}.

Lemma i32_small z : -2^31 <= z < 2^31 → i32 z = z.
Proof. intros H. Transparent i32. unfold i32. rewrite Z.mod_small by lia. lia. Opaque i32. Qed.

(** What most operations leave alone. *)
Definition same_work (fm fm' : ForkManager) : Prop :=
  fm_processingBlocks fm' = fm_processingBlocks fm ∧ fm_processingCount fm' = fm_processingCount fm ∧ fm_maxParallelForks fm' = fm_maxParallelForks fm.

#[export] Instance same_work_refl : Reflexive same_work.
Proof. by intros fm. Qed.
#[export] Instance same_work_trans : Transitive same_work.
Proof. intros a b c (? & ? & ?) (? & ? & ?). split; [|split]; congruence. Qed.

Lemma counted_same m fm fm' : same_work fm fm' → counted m fm → counted m fm'.
Proof. intros (H1 & H2 & H3) [? ? ?]. split; by rewrite ?H1, ?H2, ?H3. Qed.

Lemma on_fork_same h g fm : same_work fm (on_fork_of h g fm) ∧ fm_blockToFork (on_fork_of h g fm) = fm_blockToFork fm.
Proof. unfold on_fork_of. destruct (_ !! h); [|done]. by destruct (_ !! _). Qed.

Lemma begin_counted m h fm : counted m fm → h ∉ fm_processingBlocks fm → Z.of_nat (size (fm_processingBlocks fm)) < fm_maxParallelForks fm →
  counted m (begin_processing h fm).
Proof.
  intros [H1 H2 H3] Hn Hl. assert (size ({[h]} ∪ fm_processingBlocks fm) = S (size (fm_processingBlocks fm))) as Es by (rewrite size_union, size_singleton by set_solver; done).
  split; cbn; rewrite ?Es; [rewrite H1, i32_small|..]; lia.
Qed.

Lemma drop_counted m h fm : counted m fm → counted m (drop_processing h fm).
Proof.
  intros [H1 H2 [H3 H4]]. unfold drop_processing. case_bool_decide as E; [|done].
  assert (size (fm_processingBlocks fm ∖ {[h]}) = size (fm_processingBlocks fm) - 1)%nat as Es by (rewrite size_difference, size_singleton by set_solver; done).
  assert (0 < size (fm_processingBlocks fm))%nat as Hs by (apply Nat.neq_0_lt_0; intros E0; apply size_empty_inv in E0; set_solver).
  split; cbn; rewrite ?Es; [rewrite H1, i32_small|..]; lia.
Qed.

Lemma drop_processing_blocks h fm : fm_processingBlocks (drop_processing h fm) = fm_processingBlocks fm ∖ {[h]}.
Proof. unfold drop_processing. case_bool_decide; [done|]. set_solver. Qed.

Lemma drop_processing_rest h fm : fm_forks (drop_processing h fm) = fm_forks fm ∧ fm_blockToFork (drop_processing h fm) = fm_blockToFork fm ∧
  fm_maxParallelForks (drop_processing h fm) = fm_maxParallelForks fm ∧ fm_cleanupConfig (drop_processing h fm) = fm_cleanupConfig fm.
Proof. unfold drop_processing. by case_bool_decide. Qed.

Lemma Start_spec h fm : StartProcessingBlock h fm =
  if bool_decide (h ∉ fm_processingBlocks fm ∧ Z.of_nat (size (fm_processingBlocks fm)) < fm_maxParallelForks fm)
  then (true, on_fork_of h (set_ProcessingBlock (Some h)) (begin_processing h fm)) else (false, fm).
Proof.
  unfold StartProcessingBlock. case_bool_decide as E1; [by rewrite bool_decide_false by tauto|]. rewrite Z.geb_leb.
  destruct (Z.leb_spec (fm_maxParallelForks fm) (Z.of_nat (size (fm_processingBlocks fm)))); [rewrite bool_decide_false by lia|rewrite bool_decide_true]; done.
Qed.

Lemma Start_counted m h fm : counted m fm → counted m (StartProcessingBlock h fm).2.
Proof.
  intros Hc. rewrite Start_spec. case_bool_decide as E; [|done]. destruct E. eapply counted_same; [apply on_fork_same|]. by apply begin_counted.
Qed.

Lemma leave_counted m h fm : counted m fm → counted m (on_fork_of h (leave_fork h) (drop_processing h fm)).
Proof. intros Hc. eapply counted_same; [apply on_fork_same|]. by apply drop_counted. Qed.

Lemma forget_counted m fm h : counted m fm → counted m (forget_block fm h).
Proof. intros Hc. apply drop_counted. by apply (counted_same m fm). Qed.

Lemma foldl_ind {A B} (P : B → Prop) (f : B → A → B) l b : P b → (∀ b a, P b → P (f b a)) → P (foldl f b l).
Proof. intros Hb Hf. revert b Hb. induction l as [|a l IH]; intros b Hb; cbn; [done|]. apply IH. by apply Hf. Qed.

Lemma CleanupFork_counted m id fm : counted m fm → counted m (CleanupFork id fm).
Proof.
  intros Hc. unfold CleanupFork. destruct (_ !! id) as [f|]; [|done]. eapply counted_same; [|apply (foldl_ind (counted m) forget_block (fb_Blocks f)); [exact Hc|intros; by apply forget_counted]]. done.
Qed.

Lemma removeFork_counted m f fm : counted m fm → counted m (removeFork f fm).
Proof.
  intros Hc. unfold removeFork. apply foldl_ind; [by apply (counted_same m fm)|]. intros fm' [h id] Hc'. case_bool_decide; [by apply forget_counted|done].
Qed.

Lemma AddBlockToFork_same block id now fm : same_work fm (AddBlockToFork block id now fm).2.
Proof. unfold AddBlockToFork. by destruct (_ !! id). Qed.

Lemma place_same hs block meta now fm : same_work fm (place_block hs block meta now fm).2.
Proof.
  unfold place_block. destruct (_ !! _); [done|]. destruct (_ >=? _); [done|]. destruct meta; [done|]. cbn. by destruct (fm_forks fm !! _).
Qed.

Lemma resolve_same processed tip height now fm : same_work fm (CheckForkResolution processed tip height now fm).2.
Proof.
  unfold CheckForkResolution. cbn. destruct (fm_blockToFork fm !! _) as [id|]; [|done]. destruct (fm_forks fm !! id) eqn:E; [|done].
  case_bool_decide; [|done]. unfold handleForkResolution. cbn. by rewrite E.
Qed.

Section Cleanup.
  Context {SS : SortSlice}.

(** A state of the branches: what each works on. *)
Definition works (fm : ForkManager) : gmap string (option Hash) := fb_ProcessingBlock <$> fm_forks fm.

Lemma cleanup_one_work now cfg f : fb_ProcessingBlock (cleanup_one now cfg f).2 = fb_ProcessingBlock f.
Proof. unfold cleanup_one. destruct (fb_State f); [|done..]. by destruct (_ && _). Qed.

Lemma cleanup_scan_same now order st : let st' := foldl (cleanup_scan now) st order in
  same_work st.2 st'.2 ∧ fm_blockToFork st'.2 = fm_blockToFork st.2 ∧ works st'.2 = works st.2.
Proof.
  cbv zeta. revert st. induction order as [|id order IH]; intros [cs fm]; [done|]. cbn [foldl].
  destruct (IH (cleanup_scan now (cs, fm) id)) as (H1 & H2 & H3).
  assert (same_work fm (cleanup_scan now (cs, fm) id).2 ∧ fm_blockToFork (cleanup_scan now (cs, fm) id).2 = fm_blockToFork fm ∧ works (cleanup_scan now (cs, fm) id).2 = works fm) as (H4 & H5 & H6).
  { cbn. destruct (fm_forks fm !! id) as [f|] eqn:E; [|done]. pose proof (cleanup_one_work now (fm_cleanupConfig fm) f) as Hw.
    destruct (cleanup_one now (fm_cleanupConfig fm) f) as [c f']. cbn in *. split; [done|]. split; [done|].
    unfold works. cbn. rewrite fmap_insert, Hw. apply insert_id. by rewrite lookup_fmap, E. }
  split; [by etransitivity|]. split; [by rewrite H2|by rewrite H3].
Qed.

Lemma performCleanup_ind (P : ForkManager → Prop) now order fm :
  (∀ fm', same_work fm fm' → fm_blockToFork fm' = fm_blockToFork fm → works fm' = works fm → P fm') →
  (∀ f fm', P fm' → P (removeFork f fm')) → P (performCleanup now order fm).
Proof.
  intros H1 H2. unfold performCleanup. pose proof (cleanup_scan_same now order ([], fm)) as (Ha & Hb & Hc).
  destruct (foldl _ _ order) as [cs fm']. apply foldl_ind; [by apply H1|]. intros; by apply H2.
Qed.

Lemma performCleanup_counted m now order fm : counted m fm → counted m (performCleanup now order fm).
Proof. intros Hc. apply performCleanup_ind; [intros; by apply (counted_same m fm)|intros; by apply removeFork_counted]. Qed.

(** ** Every call of the fork manager *)
Inductive fm_call :=
  | FRegister (id : string) (base : Hash) (height now : Z)
  | FAddBlock (block : FoundBlock) (id : string) (now : Z)
  | FMark (h : Hash)
  | FStart (h : Hash)
  | FFinish (h : Hash)
  | FRelease (i : nat)
  | FCleanupFork (id : string)
  | FSetProcessing (id : string) (h : option Hash)
  | FCleanupOld (threshold : Z) (order : list string)
  | FDetermine (block : FoundBlock) (best : result Hash) (meta : option Z) (now : Z)
  | FPerformCleanup (now : Z) (order : list string)
  | FResolve (processed : FoundBlock) (tip : Hash) (height now : Z).

Section Calls.
  Context (hash_String : Hash → string).

(** The guards are shared objects; [FRelease i] releases the [i]-th one made. *)
Definition do_fm (st : ForkManager * list BlockProcessingGuard) (c : fm_call) : ForkManager * list BlockProcessingGuard :=
  let '(fm, guards) := st in
  match c with
  | FRegister id base height now => ((RegisterFork id base height now fm).2, guards)
  | FAddBlock block id now => ((AddBlockToFork block id now fm).2, guards)
  | FMark h => match MarkBlockProcessing h fm with (Ok g, fm) => (fm, guards ++ [g]) | (Err _, fm) => (fm, guards) end
  | FStart h => ((StartProcessingBlock h fm).2, guards)
  | FFinish h => ((FinishProcessingBlock h fm).2, guards)
  | FRelease i => match guards !! i with
                  | Some g => let '(g', _, fm) := Release g fm in (fm, <[i := g']> guards)
                  | None => (fm, guards)
                  end
  | FCleanupFork id => (CleanupFork id fm, guards)
  | FSetProcessing id h => ((SetProcessingBlockForFork id h fm).2, guards)
  | FCleanupOld threshold order => (CleanupOldForks threshold order fm, guards)
  | FDetermine block best meta now => ((DetermineForkID hash_String block best meta now fm).2, guards)
  | FPerformCleanup now order => (performCleanup now order fm, guards)
  | FResolve processed tip height now => ((CheckForkResolution processed tip height now fm).2, guards)
  end.

Lemma do_fm_counted m st c : counted m st.1 → counted m (do_fm st c).1.
Proof.
  destruct st as [fm guards]. cbn [fst]. intros Hc. destruct c; cbn [do_fm fst].
  - unfold RegisterFork. destruct (_ !! id); [done|by apply (counted_same m fm)].
  - eapply counted_same; [apply AddBlockToFork_same|done].
  - pose proof (Start_counted m h fm Hc) as Hs. unfold MarkBlockProcessing, StartProcessingBlock in *.
    case_bool_decide; [done|]. destruct (_ >=? _); [done|]. cbn [fst snd] in *.
    eapply counted_same; [apply on_fork_same|]. eapply counted_same; [|exact Hs]. destruct (on_fork_same h (set_ProcessingBlock (Some h)) (begin_processing h fm)) as [(? & ? & ?) _].
    split; [|split]; congruence.
  - by apply Start_counted.
  - by apply leave_counted.
  - destruct (guards !! i) as [g|]; [|done]. unfold Release. destruct (g_released g); [done|]. by apply leave_counted.
  - by apply CleanupFork_counted.
  - unfold SetProcessingBlockForFork. destruct (_ !! id); [by apply (counted_same m fm)|done].
  - unfold CleanupOldForks. apply foldl_ind; [done|]. intros; by apply CleanupFork_counted.
  - unfold DetermineForkID. destruct (_ !! _); [done|]. destruct best; [|done]. case_bool_decide; [done|]. eapply counted_same; [apply place_same|done].
  - by apply performCleanup_counted.
  - eapply counted_same; [apply resolve_same|done].
Qed.

(** C31: however blocks are started, finished, guarded, released (more than once too) and
    branches registered, filled, cleaned up or resolved, the atomic count that admission
    reads without a lock is the number of blocks at work, and that number never passes
    the number of parallel forks configured. *)
Theorem processing_bounded (calls : list fm_call) parallel tracked maturity cfg : parallel < 2^31 →
  let fm := (foldl do_fm (NewForkManagerWithConfig parallel tracked maturity cfg, []) calls).1 in
  fm_processingCount fm = Z.of_nat (GetParallelProcessingCount fm) ∧
  Z.of_nat (GetParallelProcessingCount fm) <= (if parallel >? 0 then parallel else 4).
Proof.
  intros Hp. cbv zeta. set (m := if parallel >? 0 then parallel else 4).
  assert (counted m (foldl do_fm (NewForkManagerWithConfig parallel tracked maturity cfg, []) calls).1) as [H1 H2 _]; [|done].
  apply (foldl_ind (λ st, counted m st.1)); [|by intros; apply do_fm_counted].
  split; cbn; [done|rewrite size_empty|split; [done|]]; subst m; destruct (Z.gtb_spec parallel 0); lia.
Qed.


End Calls.

(** ** The links of the branches to their blocks *)

(** What a branch works on is at work, and is linked to that branch. *)
Definition linked (fm : ForkManager) : Prop := ∀ id h, works fm !! id = Some (Some h) → h ∈ fm_processingBlocks fm ∧ fm_blockToFork fm !! h = Some id.

Lemma works_lookup fm id h : works fm !! id = Some h ↔ ∃ f, fm_forks fm !! id = Some f ∧ fb_ProcessingBlock f = h.
Proof. unfold works. rewrite lookup_fmap, fmap_Some. naive_solver. Qed.

Lemma linked_same fm fm' : fm_processingBlocks fm' = fm_processingBlocks fm → fm_blockToFork fm' = fm_blockToFork fm → works fm' = works fm →
  linked fm → linked fm'.
Proof. intros H1 H2 H3 Hl id h. rewrite H1, H2, H3. apply Hl. Qed.

Lemma works_on_fork h g fm id : works (on_fork_of h g fm) !! id =
  (λ f, fb_ProcessingBlock (if bool_decide (fm_blockToFork fm !! h = Some id) then g f else f)) <$> fm_forks fm !! id.
Proof.
  unfold on_fork_of, works. destruct (fm_blockToFork fm !! h) as [id'|] eqn:E; [|by rewrite lookup_fmap].
  destruct (fm_forks fm !! id') as [f|] eqn:Ef; cbn.
  - rewrite lookup_fmap. destruct (decide (id = id')) as [->|Hne]; [rewrite lookup_insert_eq, Ef, bool_decide_true by done; done|].
    rewrite lookup_insert_ne, bool_decide_false by congruence. done.
  - rewrite lookup_fmap. destruct (fm_forks fm !! id) as [f|] eqn:Ef'; [|done]. cbn. rewrite bool_decide_false; [done|congruence].
Qed.

Lemma Start_linked h fm : linked fm → linked (StartProcessingBlock h fm).2.
Proof.
  intros Hl. rewrite Start_spec. case_bool_decide as E; [|done]. cbn [snd]. intros id x Hw.
  destruct (on_fork_same h (set_ProcessingBlock (Some h)) (begin_processing h fm)) as [(-> & _) ->]. rewrite works_on_fork in Hw. cbn in *.
  apply fmap_Some in Hw as (f & Hf & Hw). case_bool_decide as Ei; cbn in Hw.
  - injection Hw as ->. split; [set_solver|done].
  - destruct (Hl id x) as [H1 H2]; [apply works_lookup; by exists f|]. split; [set_solver|done].
Qed.

Lemma leave_fork_work h f x : fb_ProcessingBlock (leave_fork h f) = Some x → fb_ProcessingBlock f = Some x ∧ x ≠ h.
Proof.
  unfold leave_fork. case_bool_decide as E; destruct (_ >? 0); cbn; [done|done|intros Hx; split; [done|]; congruence..].
Qed.

Lemma Finish_linked h fm : linked fm → linked (on_fork_of h (leave_fork h) (drop_processing h fm)).
Proof.
  intros Hl id x Hw. destruct (on_fork_same h (leave_fork h) (drop_processing h fm)) as [(-> & _) ->]. rewrite works_on_fork in Hw.
  rewrite drop_processing_blocks. destruct (drop_processing_rest h fm) as (E1 & E2 & _). rewrite E1, E2 in *.
  apply fmap_Some in Hw as (f & Hf & Hw). case_bool_decide as Ei.
  - symmetry in Hw. apply leave_fork_work in Hw as [Hw Hne]. destruct (Hl id x) as [H1 H2]; [apply works_lookup; by exists f|]. split; [set_solver|done].
  - destruct (Hl id x) as [H1 H2]; [apply works_lookup; by exists f|]. split; [|done]. apply elem_of_difference. split; [done|].
    intros Ex%elem_of_singleton. congruence.
Qed.

(** Forgetting some blocks of a branch. *)
Lemma forget_loop (P : Hash → Prop) (l : list (Hash * string)) (fid : string) fm :
  (∀ h id, (h, id) ∈ l → id = fid → P h) →
  let fm' := foldl (λ fm '(h, id), if bool_decide (id = fid) then forget_block fm h else fm) fm l in
  fm_forks fm' = fm_forks fm ∧ fm_processingBlocks fm' ⊆ fm_processingBlocks fm ∧
  ∀ h, ¬ P h → fm_blockToFork fm' !! h = fm_blockToFork fm !! h ∧ (h ∈ fm_processingBlocks fm → h ∈ fm_processingBlocks fm').
Proof.
  cbv zeta. revert fm. induction l as [|[h0 id0] l IH]; intros fm HP; [done|]. cbn [foldl].
  assert (∀ h id, (h, id) ∈ l → id = fid → P h) as HP' by (intros h id Hin; apply HP; by right).
  case_bool_decide as E; [|by apply IH]. destruct (IH (forget_block fm h0) HP') as (H1 & H2 & H3).
  assert (P h0) as Hp0 by (eapply HP; [left|done]). unfold forget_block in *.
  set (fm1 := set_links (delete h0 (fm_blockToFork fm)) fm) in *. destruct (drop_processing_rest h0 fm1) as (E1 & E2 & _).
  rewrite H1, E1. split; [done|]. rewrite drop_processing_blocks in H2. split; [subst fm1; cbn in H2; set_solver|].
  intros h Hn. destruct (H3 h Hn) as [H4 H5]. rewrite H4, E2. subst fm1. cbn. assert (h ≠ h0) by (intros ->; done). split; [by rewrite lookup_delete_ne|].
  intros Hin. apply H5. rewrite drop_processing_blocks. cbn. set_solver.
Qed.

Lemma removeFork_spec f fm : let fm' := removeFork f fm in
  fm_forks fm' = delete (fb_ID f) (fm_forks fm) ∧ fm_processingBlocks fm' ⊆ fm_processingBlocks fm ∧
  ∀ h, fm_blockToFork fm !! h ≠ Some (fb_ID f) → fm_blockToFork fm' !! h = fm_blockToFork fm !! h ∧ (h ∈ fm_processingBlocks fm → h ∈ fm_processingBlocks fm').
Proof.
  cbv zeta. unfold removeFork. cbn [fm_blockToFork set_forks].
  destruct (forget_loop (λ h, fm_blockToFork fm !! h = Some (fb_ID f)) (map_to_list (fm_blockToFork fm)) (fb_ID f) (set_forks (delete (fb_ID f) (fm_forks fm)) fm)) as (H1 & H2 & H3); [|done].
  intros h id Hin ->. by apply elem_of_map_to_list.
Qed.

Lemma removeFork_linked f fm : linked fm → linked (removeFork f fm).
Proof.
  intros Hl id h Hw. destruct (removeFork_spec f fm) as (H1 & H2 & H3). unfold works in Hw. rewrite H1, lookup_fmap in Hw.
  destruct (decide (id = fb_ID f)) as [->|Hne]; [by rewrite lookup_delete_eq in Hw|]. rewrite lookup_delete_ne in Hw by done.
  destruct (Hl id h) as [H4 H5]; [unfold works; by rewrite lookup_fmap|]. destruct (H3 h) as [H6 H7]; [congruence|]. split; [by apply H7|by rewrite H6].
Qed.

Lemma performCleanup_linked now order fm : linked fm → linked (performCleanup now order fm).
Proof. intros Hl. apply performCleanup_ind; [intros fm' (? & ? & ?) ? ?; by eapply linked_same|intros; by apply removeFork_linked]. Qed.

Lemma performCleanup_less now order fm : fm_processingBlocks (performCleanup now order fm) ⊆ fm_processingBlocks fm.
Proof.
  apply (performCleanup_ind (λ fm', fm_processingBlocks fm' ⊆ fm_processingBlocks fm)); [by intros fm' (-> & _) _ _|].
  intros f fm' H. destruct (removeFork_spec f fm') as (_ & H2 & _). by etransitivity.
Qed.

(** A block is placed anew while no branch works on it. *)
Definition unmoved (id : string) (h : Hash) (fm : ForkManager) : Prop := ∀ id', works fm !! id' = Some (Some h) → id' = id.
Definition unworked (h : Hash) (fm : ForkManager) : Prop := ∀ id', works fm !! id' ≠ Some (Some h).

Lemma AddBlockToFork_linked block id now fm : unmoved id (bk_hash block) fm → linked fm → linked (AddBlockToFork block id now fm).2.
Proof.
  intros Hu Hl. unfold AddBlockToFork. destruct (fm_forks fm !! id) as [f|] eqn:E; [|done]. cbn.
  assert (works (set_forks (<[id:=add_block block now f]> (fm_forks fm)) (set_links (<[bk_hash block:=id]> (fm_blockToFork fm)) fm)) = works fm) as Hw.
  { unfold works. cbn. rewrite fmap_insert. apply insert_id. by rewrite lookup_fmap, E. }
  intros id' h Hh. rewrite Hw in Hh. cbn. destruct (Hl id' h Hh) as [H1 H2]. split; [done|].
  destruct (decide (h = bk_hash block)) as [->|Hne]; [by rewrite lookup_insert_eq, (Hu id')|by rewrite lookup_insert_ne].
Qed.

Lemma root_linked forkID block height now fm : unworked (bk_hash block) fm → fm_blockToFork fm !! bk_prev block = None → linked fm →
  linked (set_links (<[bk_hash block := forkID]> (<[bk_prev block := forkID]> (fm_blockToFork fm)))
            (set_forks (<[forkID := new_branch forkID (bk_prev block) height now]> (fm_forks fm)) fm)).
Proof.
  intros Hu Hn Hl id h Hw. unfold works in Hw. cbn in *. rewrite fmap_insert in Hw.
  destruct (decide (id = forkID)) as [->|Hne]; [by rewrite lookup_insert_eq in Hw|]. rewrite lookup_insert_ne in Hw by done.
  destruct (Hl id h Hw) as [H1 H2]. split; [done|]. rewrite !lookup_insert_ne; [done| |].
  - intros <-. congruence.
  - intros <-. by apply (Hu id).
Qed.

Lemma place_linked hs block meta now fm : unworked (bk_hash block) fm → linked fm → linked (place_block hs block meta now fm).2.
Proof.
  intros Hu Hl. unfold place_block. destruct (fm_blockToFork fm !! bk_prev block) eqn:E; [done|]. destruct (_ >=? _); [done|].
  destruct meta as [height|]; cbn; [by apply root_linked|]. destruct (fm_forks fm !! _); [done|by apply root_linked].
Qed.

Lemma resolve_linked processed tip height now fm : linked fm → linked (CheckForkResolution processed tip height now fm).2.
Proof.
  intros Hl. destruct (resolve_same processed tip height now fm) as (E1 & _ & _). revert E1. unfold CheckForkResolution. cbn.
  destruct (fm_blockToFork fm !! _) as [id|]; [|done]. destruct (fm_forks fm !! id) as [f|] eqn:E; [|done].
  case_bool_decide; [|done]. unfold handleForkResolution. cbn. rewrite E. cbn. intros _. eapply linked_same; [| | |exact Hl]; [done|done|].
  unfold works, checkOrphanedForks. cbn. rewrite <- map_fmap_compose, fmap_insert. cbn.
  rewrite (map_fmap_ext _ fb_ProcessingBlock (fm_forks fm)); [apply insert_id; rewrite lookup_fmap, E; cbn; by unfold orphan_one; destruct (_ && _)|].
  intros id' f' _. cbn. by unfold orphan_one; destruct (_ && _).
Qed.

(** ** Admission *)

(** A block is refused only while some block is at work. *)
Lemma refused_at_work m h fm : counted m fm → linked fm → CanProcessBlock h fm = false → ∃ h', h' ∈ fm_processingBlocks fm.
Proof.
  intros [H1 H2 [H3 H4]] Hl. unfold CanProcessBlock. rewrite H1, H3.
  assert (m <= Z.of_nat (size (fm_processingBlocks fm)) → ∃ h', h' ∈ fm_processingBlocks fm) as Hsz.
  { intros Hs. apply set_choose_L. intros E. rewrite E, size_empty in Hs. lia. }
  destruct (Z.geb_spec (Z.of_nat (size (fm_processingBlocks fm))) m); [by intros _; apply Hsz|].
  case_bool_decide; [eauto|]. destruct (fm_blockToFork fm !! h) as [id|]; [|done]. destruct (fm_forks fm !! id) as [f|] eqn:E; [|done].
  case_bool_decide as Ep; [|done]. intros _. destruct Ep as [h' Eh']. exists h'. apply (Hl id h'). apply works_lookup. eauto.
Qed.

End Cleanup.

(** ** An example *)

#[local] Instance ex_sort : SortSlice := λ A less l, @merge_sort A (λ x y, less y x = false) (λ x y, decide (less y x = false)) l.
#[local] Instance ex_sort_spec : SortSliceSpec ex_sort.
Proof.
  split; intros A less l; [apply merge_sort_Permutation|]. intros [H1 H2 H3]. apply StronglySorted_merge_sort.
  - intros x y z Hxy Hyz. by eapply H3.
  - intros x y. destruct (less y x) eqn:E; [right; by apply H2|by left].
Qed.

Definition ex_name (h : Hash) : string := pretty (hash_to_Z h).
Lemma processing_bounded_witness :
  let fm := (foldl (do_fm ex_name) (NewForkManagerWithConfig 1 0 100 DefaultForkCleanupConfig, [])
               [FMark (hash_of_Z 1); FStart (hash_of_Z 2); FRelease 0; FRelease 0; FStart (hash_of_Z 2); FFinish (hash_of_Z 1)]).1 in
  fm_processingCount fm = 1 ∧ fm_processingCount fm = Z.of_nat (GetParallelProcessingCount fm).
Proof. split; [vm_compute; reflexivity|]. apply (processing_bounded ex_name _ 1 0 100 DefaultForkCleanupConfig). lia. Defined.
