(* ===== verification/BlockQueue.v ===== *)
(** * The priority queue of block validation

    services/blockvalidation/block_priority.go: the blocks that wait to be validated, at
    most one item per hash, taken in the order of their priority, and the classifier that
    gives a block its priority.  The items are pointers the slice and the index share, so
    they live in a heap; a pointer is the position of its item.  Each stretch under the
    queue's lock is a definition; [Get] and [GetAlternativeSource] compose them.

    [time.Now] is an argument.  The condition variable is the workers'
    ([BlockWorkers]): an operation that signals it is a signal there. *)

From stdpp Require Import strings sorting.
From S2P Require Import Prelude ForkManager.

(** ** Data *)

Inductive GetStatus := GetOK | GetEmpty | GetAllBlocked.

Definition DefaultSkipCount : Z := 10.

Definition PriorityChainExtending : Z := 0.
Definition PriorityNearFork : Z := 1.
Definition PriorityDeepFork : Z := 2.

Record processBlockFound := mkBlockFound {
  pf_hash : Hash;
  pf_baseURL : string;
  pf_peerID : string;
  pf_errCh : option nat;
}.

Record PrioritizedBlock := mkItem {
  pb_blockFound : processBlockFound;
  pb_priority : Z;
  pb_height : Z;
  pb_timestamp : Z;
  pb_additionalSources : list processBlockFound;
  pb_retryCount : Z;
  pb_lastRetryTime : option Z;
  pb_skipCount : Z;
}.

Definition pb_hash (b : PrioritizedBlock) : Hash := pf_hash (pb_blockFound b).

#[export] Instance PrioritizedBlock_inhabited : Inhabited PrioritizedBlock :=
  populate (mkItem (mkBlockFound zero_hash "" "" None) 0 0 0 [] 0 None 0).

Record BlockPriorityQueue := mkPQ {
  pq_heap : list PrioritizedBlock;
  pq_items : list nat;
  pq_hashIndex : gmap Hash nat;
  pq_needsSort : bool;
}.

Definition NewBlockPriorityQueue : BlockPriorityQueue := mkPQ [] [] ∅ false.

(** The item a pointer points to. *)
Definition item (q : BlockPriorityQueue) (p : nat) : PrioritizedBlock := pq_heap q !!! p.
Definition item_hash (q : BlockPriorityQueue) (p : nat) : Hash := pb_hash (item q p).

Definition set_item (p : nat) (g : PrioritizedBlock → PrioritizedBlock) (q : BlockPriorityQueue) : BlockPriorityQueue :=
  mkPQ (alter g p (pq_heap q)) (pq_items q) (pq_hashIndex q) (pq_needsSort q).
Definition set_needsSort (b : bool) (q : BlockPriorityQueue) : BlockPriorityQueue :=
  mkPQ (pq_heap q) (pq_items q) (pq_hashIndex q) b.

Definition set_sources (l : list processBlockFound) (b : PrioritizedBlock) : PrioritizedBlock :=
  mkItem (pb_blockFound b) (pb_priority b) (pb_height b) (pb_timestamp b) l (pb_retryCount b) (pb_lastRetryTime b) (pb_skipCount b).
Definition add_source (f : processBlockFound) (b : PrioritizedBlock) : PrioritizedBlock :=
  set_sources (pb_additionalSources b ++ [f]) b.
Definition retry_item (now : Z) (b : PrioritizedBlock) : PrioritizedBlock :=
  mkItem (pb_blockFound b) (pb_priority b) (pb_height b) (pb_timestamp b) (pb_additionalSources b) (i64 (pb_retryCount b + 1)) (Some now) (pb_skipCount b).
Definition skip_item (b : PrioritizedBlock) : PrioritizedBlock :=
  mkItem (pb_blockFound b) (pb_priority b) (pb_height b) (pb_timestamp b) (pb_additionalSources b) (pb_retryCount b) (pb_lastRetryTime b) (i64 (pb_skipCount b + 1)).

(** ** Order *)

(** [int(now.Sub(ts).Minutes())]: the whole minutes.  [Minutes] is a float64, exact to
    the minute for the ages below three minutes that the result depends on. *)
Definition age_minutes (now timestamp : Z) : Z := Z.quot (time_Sub now timestamp) Minute.

Definition getEffectivePriority (now : Z) (b : PrioritizedBlock) : Z :=
  let priority := pb_priority b in
  if pb_skipCount b >? DefaultSkipCount then PriorityChainExtending
  else
    let ageMinutes := age_minutes now (pb_timestamp b) in
    if (ageMinutes >? 1) && (priority >? PriorityChainExtending) then
      let boost := ageMinutes - 1 in
      let boost := if boost >? priority - PriorityChainExtending then priority - PriorityChainExtending else boost in
      priority - boost
    else priority.

Definition item_less (now : Z) (a b : PrioritizedBlock) : bool :=
  let iPriority := getEffectivePriority now a in
  let jPriority := getEffectivePriority now b in
  if negb (iPriority =? jPriority) then iPriority <? jPriority
  else if negb (pb_height a =? pb_height b) then pb_height a <? pb_height b
  else pb_timestamp a <? pb_timestamp b.

Section Sorting.
  Context {SS : SortSlice}.

Definition sortItems (now : Z) (q : BlockPriorityQueue) : BlockPriorityQueue :=
  mkPQ (pq_heap q) (sortSlice (λ i j, item_less now (item q i) (item q j)) (pq_items q)) (pq_hashIndex q) false.

Definition sort_if_needed (now : Z) (q : BlockPriorityQueue) : BlockPriorityQueue :=
  if pq_needsSort q then sortItems now q else q.

Definition Peek (now : Z) (q : BlockPriorityQueue) : option (processBlockFound * Z) * BlockPriorityQueue :=
  match pq_items q with
  | [] => (None, q)
  | _ => let q := sort_if_needed now q in
         ((λ p, (pb_blockFound (item q p), pb_priority (item q p))) <$> head (pq_items q), q)
  end.

End Sorting.

(** ** Operations *)

Definition removeItem (index : nat) (q : BlockPriorityQueue) : BlockPriorityQueue :=
  match pq_items q !! index with
  | None => q
  | Some p => mkPQ (pq_heap q) (take index (pq_items q) ++ drop (S index) (pq_items q)) (delete (item_hash q p) (pq_hashIndex q)) (pq_needsSort q)
  end.

Definition Len (q : BlockPriorityQueue) : nat := length (pq_items q).
Definition Size (q : BlockPriorityQueue) : nat := Len q.
Definition Contains (h : Hash) (q : BlockPriorityQueue) : bool := bool_decide (is_Some (pq_hashIndex q !! h)).

Definition push_item (b : PrioritizedBlock) (q : BlockPriorityQueue) : BlockPriorityQueue :=
  let p := length (pq_heap q) in
  mkPQ (pq_heap q ++ [b]) (pq_items q ++ [p]) (<[pb_hash b := p]> (pq_hashIndex q)) true.

(** The flag of [Add] says whether it signalled. *)
Definition Add (blockFound : processBlockFound) (priority height now : Z) (q : BlockPriorityQueue) : bool * BlockPriorityQueue :=
  match pq_hashIndex q !! pf_hash blockFound with
  | Some existing => (false, set_item existing (add_source blockFound) q)
  | None => (true, push_item (mkItem blockFound priority height now [] 0 None 0) q)
  end.

Definition RequeueForRetry (blockFound : processBlockFound) (priority height now : Z) (q : BlockPriorityQueue) : bool * BlockPriorityQueue :=
  match pq_hashIndex q !! pf_hash blockFound with
  | Some existing => (true, set_needsSort true (set_item existing (retry_item now) q))
  | None => (true, push_item (mkItem blockFound priority height now [] 1 (Some now) 0) q)
  end.

(** The position of the first item with the hash. *)
Definition find_item (h : Hash) (q : BlockPriorityQueue) : option (nat * nat) :=
  list_find (λ p, item_hash q p = h) (pq_items q).

Definition takeIfPresent (h : Hash) (q : BlockPriorityQueue) : option processBlockFound * BlockPriorityQueue :=
  match find_item h q with
  | Some (i, p) => (Some (pb_blockFound (item q p)), removeItem i q)
  | None => (None, q)
  end.

Definition GetAlternativeSource (h : Hash) (q : BlockPriorityQueue) : option processBlockFound * BlockPriorityQueue :=
  match pq_hashIndex q !! h with
  | None => (None, q)
  | Some p =>
      match pb_additionalSources (item q p) with
      | [] => (None, q)
      | alternative :: rest => (Some alternative, set_item p (set_sources rest) q)
      end
  end.

Definition Clear (q : BlockPriorityQueue) : BlockPriorityQueue := mkPQ (pq_heap q) [] ∅ false.

Definition getQueueStats (q : BlockPriorityQueue) : nat * nat * nat :=
  let count k := length (filter (λ p, pb_priority (item q p) = k) (pq_items q)) in
  (count PriorityChainExtending, count PriorityNearFork, count PriorityDeepFork).

(** The batch of skip counts after a scan that took nothing. *)
Definition skip_update (skips : gset Hash) (q : BlockPriorityQueue) : BlockPriorityQueue :=
  foldl (λ q p, if bool_decide (item_hash q p ∈ skips) then set_item p skip_item q else q) q (pq_items q).

(** ** [Get], with no other goroutine in between *)
Section Get.
  Context {SS : SortSlice}.
  Context (CanProcessBlock : Hash → result bool).

(** How the walk over the copy of the queue ends. *)
Inductive scan_end :=
  | ScanTook (b : processBlockFound) (q : BlockPriorityQueue)
  | ScanAgain
  | ScanNone (skips : gset Hash).

Fixpoint scan_copy (copy : list nat) (skips : gset Hash) (q : BlockPriorityQueue) : scan_end :=
  match copy with
  | [] => ScanNone skips
  | p :: copy =>
      match CanProcessBlock (item_hash q p) with
      | Err _ => scan_copy copy skips q
      | Ok true =>
          match takeIfPresent (item_hash q p) q with
          | (Some b, q) => ScanTook b q
          | (None, _) => if bool_decide (is_Some (pq_hashIndex q !! item_hash q p)) then ScanAgain else scan_copy copy skips q
          end
      | Ok false => scan_copy copy ({[item_hash q p]} ∪ skips) q
      end
  end.

(** The fuel bounds the calls [Get] makes to itself. *)
Fixpoint Get (fuel : nat) (now : Z) (q : BlockPriorityQueue) : option (option processBlockFound * GetStatus) * BlockPriorityQueue :=
  match fuel with
  | O => (None, q)
  | S fuel =>
      match pq_items q with
      | [] => (Some (None, GetEmpty), q)
      | _ =>
          let q := sort_if_needed now q in
          match pq_items q with
          | [] => (Some (None, GetEmpty), q)
          | front :: _ =>
              let slow :=
                match scan_copy (pq_items q) ∅ q with
                | ScanTook b q => (Some (Some b, GetOK), q)
                | ScanAgain => Get fuel now q
                | ScanNone skips => (Some (None, GetAllBlocked), skip_update skips q)
                end in
              match CanProcessBlock (item_hash q front) with
              | Ok true =>
                  match takeIfPresent (item_hash q front) q with
                  | (Some b, q) => (Some (Some b, GetOK), q)
                  | (None, _) => slow
                  end
              | _ => slow
              end
          end
      end
  end.

End Get.

(** ** The classifier *)

(** The answers of the blockchain service: the best header's hash and height, and the
    height of the block's parent. *)
Definition ClassifyBlock (nearForkThreshold : Z) (block : FoundBlock) (best : result (Hash * Z)) (parent : result Z) : Z * option error :=
  match best with
  | Err e => (PriorityDeepFork, Some e)
  | Ok (bestHash, bestHeight) =>
      if bool_decide (bk_prev block = bestHash) then (PriorityChainExtending, None)
      else match parent with
           | Err _ => (PriorityDeepFork, None)
           | Ok parentHeight =>
               let expectedHeight := u32 (parentHeight + 1) in
               if expectedHeight >=? u32 (bestHeight - nearForkThreshold) then (PriorityNearFork, None) else (PriorityDeepFork, None)
           end
  end.

(** The threshold a server is made with. *)
Definition server_threshold (coinbaseMaturity setting : Z) : Z := if setting >? 0 then u32 setting else u32 (coinbaseMaturity / 2).
