(* ===== verification/BlockQueueTheorems.v ===== *)
(** * What the priority queue of block validation promises

    The slice and the index of the queue always describe the same blocks, each once, and
    every operation is the one of a map from hashes to blocks; [Get] returns the first
    block the fork manager lets through. *)

From stdpp Require Import strings sorting.
From S2P Require Import Prelude ForkManager BlockQueue.

(** ** Items and pointers *)

Record consistent (q : BlockPriorityQueue) : Prop := mkConsistent {
  co_nodup : NoDup (pq_items q);
  co_alloc p : p ∈ pq_items q → (p < length (pq_heap q))%nat;
  co_index h p : pq_hashIndex q !! h = Some p ↔ p ∈ pq_items q ∧ item_hash q p = h;
}.

Lemma new_consistent : consistent NewBlockPriorityQueue.
Proof. split; [constructor|intros p Hp; by apply elem_of_nil in Hp|]. intros h p. cbn. rewrite lookup_empty, elem_of_nil. split; [done|tauto]. Qed.

Lemma item_set_item p g q p' : (p < length (pq_heap q))%nat →
  item (set_item p g q) p' = if bool_decide (p = p') then g (item q p) else item q p'.
Proof.
  intros Hp. unfold item, set_item. cbn. case_bool_decide as E.
  - subst. destruct (lookup_lt_is_Some_2 _ _ Hp) as [b Hb]. rewrite (list_lookup_total_correct _ _ _ Hb).
    apply list_lookup_total_correct. rewrite list_lookup_alter, Hb. by rewrite decide_True.
  - rewrite !list_lookup_total_alt, list_lookup_alter_ne by done. done.
Qed.

Lemma item_hash_set_item p g q p' : (p < length (pq_heap q))%nat → (∀ b, pb_hash (g b) = pb_hash b) → item_hash (set_item p g q) p' = item_hash q p'.
Proof. intros Hp Hg. unfold item_hash. rewrite item_set_item by done. case_bool_decide; subst; by rewrite ?Hg. Qed.

Lemma item_push b q p : item (push_item b q) p = if bool_decide (p = length (pq_heap q)) then b else item q p.
Proof.
  unfold item, push_item. cbn. rewrite !list_lookup_total_alt. case_bool_decide as E.
  - subst. by rewrite lookup_app_r, Nat.sub_diag by lia.
  - destruct (decide (p < length (pq_heap q))%nat); [by rewrite lookup_app_l by done|].
    rewrite lookup_app_r, (lookup_ge_None_2 (pq_heap q)), (lookup_ge_None_2 [b]) by (cbn; lia). done.
Qed.

Lemma consistent_set_item p g q : consistent q → p ∈ pq_items q → (∀ b, pb_hash (g b) = pb_hash b) → consistent (set_item p g q).
Proof.
  intros [H1 H2 H3] Hp Hg. pose proof (H2 p Hp) as Hl. split; [done| |].
  - intros p' Hp'. cbn. rewrite length_alter. by apply H2.
  - intros h p'. rewrite item_hash_set_item by done. apply H3.
Qed.

Lemma consistent_sort q q' : consistent q → pq_heap q' = pq_heap q → pq_hashIndex q' = pq_hashIndex q → pq_items q' ≡ₚ pq_items q → consistent q'.
Proof.
  intros [H1 H2 H3] Eh Ei Ep. split.
  - by rewrite Ep.
  - intros p. rewrite Ep, Eh. apply H2.
  - intros h p. unfold item_hash, item. rewrite Ei, Eh, Ep. apply H3.
Qed.

Lemma consistent_push b q : consistent q → pq_hashIndex q !! pb_hash b = None → consistent (push_item b q).
Proof.
  intros [H1 H2 H3] Hn. split.
  - cbn. apply NoDup_app. split; [done|]. split; [|apply NoDup_singleton].
    intros p Hp Hp'. apply list_elem_of_singleton in Hp'. subst. apply H2 in Hp. lia.
  - intros p. cbn. rewrite elem_of_app, list_elem_of_singleton, length_app. cbn. intros [Hp | ->]; [apply H2 in Hp|]; lia.
  - intros h p. unfold item_hash. rewrite item_push. cbn. rewrite elem_of_app, list_elem_of_singleton, lookup_insert_Some, H3.
    case_bool_decide as E; [|clear -E H3 Hn].
    + subst p. split; [intros [[? _]|[_ [Hp _]]]; [auto|apply H2 in Hp; lia]|]. intros [_ <-]. by left.
    + split; [intros [[_ ?]|(? & ? & ?)]; [done|auto]|]. intros [[Hp|?] Eh]; [|done]. right. split; [|done]. intros E2.
      assert (pq_hashIndex q !! h = Some p) as Hs by by apply H3. rewrite <- E2 in Hs. congruence.
Qed.

Lemma find_item_spec h q : consistent q →
  match pq_hashIndex q !! h with
  | Some p => ∃ i, find_item h q = Some (i, p) ∧ pq_items q !! i = Some p
  | None => find_item h q = None
  end.
Proof.
  intros [H1 H2 H3]. destruct (pq_hashIndex q !! h) as [p|] eqn:E.
  - apply H3 in E as [Hp Eh]. destruct (find_item h q) as [[i p']|] eqn:Ef; unfold find_item in Ef.
    + apply list_find_Some in Ef as (Hi & Eh' & _). exists i. cbn in Eh'.
      assert (p' = p) as ->; [|done].
      assert (pq_hashIndex q !! h = Some p') as E1 by (apply H3; split; [by eapply list_elem_of_lookup_2|done]).
      assert (pq_hashIndex q !! h = Some p) as E2 by by apply H3. congruence.
    + apply list_find_None in Ef. rewrite Forall_forall in Ef. by destruct (Ef p Hp).
  - unfold find_item. apply list_find_None, Forall_forall. intros p Hp Eh.
    assert (pq_hashIndex q !! h = Some p) as E1 by by apply H3. congruence.
Qed.

Lemma consistent_remove i p q : consistent q → pq_items q !! i = Some p → consistent (removeItem i q) ∧
  pq_hashIndex (removeItem i q) = delete (item_hash q p) (pq_hashIndex q) ∧ pq_heap (removeItem i q) = pq_heap q ∧
  (∀ p', p' ∈ pq_items (removeItem i q) ↔ p' ∈ pq_items q ∧ p' ≠ p).
Proof.
  intros [H1 H2 H3] Hi. unfold removeItem. rewrite Hi. cbn.
  assert (pq_items q ≡ₚ p :: (take i (pq_items q) ++ drop (S i) (pq_items q))) as Ep.
  { rewrite <- (take_drop_middle _ _ _ Hi) at 1. by rewrite Permutation_middle. }
  assert (∀ p', p' ∈ take i (pq_items q) ++ drop (S i) (pq_items q) ↔ p' ∈ pq_items q ∧ p' ≠ p) as Hin.
  { revert Ep H1. generalize (take i (pq_items q) ++ drop (S i) (pq_items q)). intros rest Ep H1 p'. rewrite Ep in H1 |- *.
    apply NoDup_cons in H1 as [Hn _]. rewrite elem_of_cons. split; [|tauto]. intros Hp'. split; [auto|]. intros ->. done. }
  split; [|done]. split; cbn.
  - revert Ep H1. generalize (take i (pq_items q) ++ drop (S i) (pq_items q)). intros rest Ep H1. rewrite Ep in H1. by apply NoDup_cons in H1 as [_ H1].
  - intros p' Hp'. apply Hin in Hp' as [Hp' _]. by apply H2.
  - intros h p'. rewrite Hin, lookup_delete_Some, H3. unfold item_hash, item. cbn. split; [|intros [[Hp Hne] Eh]].
    + intros (Hne & Hp & Eh). split; [|done]. split; [done|]. intros ->. done.
    + split; [|done]. intros Eh2. apply Hne.
      assert (pq_hashIndex q !! h = Some p') as E1 by by apply H3.
      assert (pq_hashIndex q !! h = Some p) as E2 by (apply H3; split; [by eapply list_elem_of_lookup_2|by rewrite <- Eh2]). congruence.
Qed.

(** ** The queue as a map *)

Definition abs (q : BlockPriorityQueue) : gmap Hash PrioritizedBlock := item q <$> pq_hashIndex q.

Lemma abs_take h q : consistent q → ∃ q', takeIfPresent h q = (pb_blockFound <$> abs q !! h, q') ∧ consistent q' ∧
  abs q' = delete h (abs q) ∧ (∀ p, p ∈ pq_items q' ↔ p ∈ pq_items q ∧ item_hash q p ≠ h) ∧ pq_heap q' = pq_heap q.
Proof.
  intros Hq. pose proof (find_item_spec h q Hq) as Hf. unfold takeIfPresent, abs. rewrite lookup_fmap.
  destruct (pq_hashIndex q !! h) as [p|] eqn:E.
  - destruct Hf as (i & -> & Hi). exists (removeItem i q). cbn. split; [done|]. destruct (consistent_remove i p q Hq Hi) as (H1 & H2 & H3 & H4).
    pose proof (proj1 (co_index q Hq h p) E) as [Hp Eh]. split; [done|]. unfold item. rewrite H2, H3, Eh, fmap_delete. split; [done|]. split; [|done].
    intros p'. rewrite H4. split; intros [Hp' Hne]; (split; [done|]).
    + intros Eh'. apply Hne. assert (pq_hashIndex q !! h = Some p') as E1 by by apply co_index. congruence.
    + intros ->. done.
  - rewrite Hf. exists q. cbn. split; [done|]. split; [done|]. split; [|split; [|done]].
    + rewrite <- fmap_delete. by rewrite (delete_id _ _ E).
    + intros p. split; [|tauto]. intros Hp. split; [done|]. intros Eh. assert (pq_hashIndex q !! h = Some p) as E1 by by apply co_index. congruence.
Qed.

Lemma abs_set_item p g q h : consistent q → pq_hashIndex q !! h = Some p → (∀ b, pb_hash (g b) = pb_hash b) →
  consistent (set_item p g q) ∧ abs (set_item p g q) = <[h := g (item q p)]> (abs q).
Proof.
  intros Hq E Hg. pose proof (proj1 (co_index q Hq h p) E) as [Hp Eh]. split; [by apply consistent_set_item|].
  unfold abs. cbn. apply map_eq. intros h'. rewrite lookup_fmap. destruct (decide (h' = h)) as [->|Hne].
  - rewrite lookup_insert_eq, E. cbn. rewrite item_set_item by by apply co_alloc. by rewrite bool_decide_true.
  - rewrite lookup_insert_ne, lookup_fmap by done. destruct (pq_hashIndex q !! h') as [p'|] eqn:E'; [|done]. cbn.
    rewrite item_set_item by by apply co_alloc. rewrite bool_decide_false; [done|]. intros ->. apply co_index in E' as [_ E']; [|done]. congruence.
Qed.

Lemma abs_push b q : consistent q → pq_hashIndex q !! pb_hash b = None → consistent (push_item b q) ∧ abs (push_item b q) = <[pb_hash b := b]> (abs q).
Proof.
  intros Hq E. split; [by apply consistent_push|]. unfold abs. cbn [push_item pq_hashIndex]. apply map_eq. intros h.
  destruct (decide (h = pb_hash b)) as [->|Hne].
  - rewrite lookup_fmap, !lookup_insert_eq. cbn. by rewrite item_push, bool_decide_true.
  - rewrite lookup_fmap, !lookup_insert_ne, lookup_fmap by done. destruct (pq_hashIndex q !! h) as [p|] eqn:E'; [|done]. cbn.
    rewrite item_push, bool_decide_false; [done|]. apply co_index in E' as [Hp _]; [|done]. apply co_alloc in Hp; [lia|done].
Qed.

Lemma abs_lookup q h : abs q !! h = item q <$> pq_hashIndex q !! h.
Proof. apply lookup_fmap. Qed.

Lemma sort_if_needed_same `{SortSliceSpec} now q : consistent q → consistent (sort_if_needed now q) ∧ abs (sort_if_needed now q) = abs q ∧
  pq_items (sort_if_needed now q) ≡ₚ pq_items q ∧ pq_heap (sort_if_needed now q) = pq_heap q ∧ pq_hashIndex (sort_if_needed now q) = pq_hashIndex q.
Proof.
  intros Hq. unfold sort_if_needed. destruct (pq_needsSort q); [|done].
  assert (pq_items (sortItems now q) ≡ₚ pq_items q) as Hp by apply sortSlice_perm.
  split; [by eapply consistent_sort|done].
Qed.

(** The batch of skip counts, as one map. *)
Definition skip_map (skips : gset Hash) (m : gmap Hash PrioritizedBlock) : gmap Hash PrioritizedBlock :=
  map_imap (λ h b, Some (if bool_decide (h ∈ skips) then skip_item b else b)) m.

Lemma skip_loop (skips : gset Hash) (ps : list nat) q : consistent q → NoDup ps → (∀ p, p ∈ ps → p ∈ pq_items q) →
  let q' := foldl (λ q p, if bool_decide (item_hash q p ∈ skips) then set_item p skip_item q else q) q ps in
  consistent q' ∧ pq_items q' = pq_items q ∧ pq_hashIndex q' = pq_hashIndex q ∧
  ∀ p, item q' p = if bool_decide (p ∈ ps ∧ item_hash q p ∈ skips) then skip_item (item q p) else item q p.
Proof.
  revert q. induction ps as [|p0 ps IH]; intros q Hq Hnd Hin; cbn.
  { split; [done|]. split; [done|]. split; [done|]. intros p. rewrite bool_decide_false; [done|]. intros [Hp _]. by apply elem_of_nil in Hp. }
  apply NoDup_cons in Hnd as [Hn Hnd]. assert (p0 ∈ pq_items q) as Hp0 by (apply Hin; left).
  pose proof (co_alloc q Hq p0 Hp0) as Hl.
  case_bool_decide as Hs.
  - destruct (IH (set_item p0 skip_item q)) as (H1 & H2 & H3 & H4); [by apply consistent_set_item|done|intros p Hp; apply Hin; by right|].
    split; [done|]. split; [done|]. split; [done|]. intros p. rewrite H4, item_hash_set_item, item_set_item by done.
    case_bool_decide as Hc; case_bool_decide as E; subst.
    + by destruct Hc.
    + rewrite bool_decide_true; [done|]. destruct Hc. split; [by right|done].
    + rewrite bool_decide_true; [done|]. split; [left|done].
    + rewrite bool_decide_false; [done|]. intros [Hp Hs']. apply elem_of_cons in Hp as [->|Hp]; [done|by apply Hc].
  - destruct (IH q) as (H1 & H2 & H3 & H4); [done|done|intros p Hp; apply Hin; by right|].
    split; [done|]. split; [done|]. split; [done|]. intros p. rewrite H4.
    rewrite (bool_decide_ext (p ∈ p0 :: ps ∧ item_hash q p ∈ skips) (p ∈ ps ∧ item_hash q p ∈ skips)); [done|]. rewrite elem_of_cons. split; [|tauto]. by intros [[->|Hp] Hs'].
Qed.

Lemma abs_skip skips q : consistent q → consistent (skip_update skips q) ∧ abs (skip_update skips q) = skip_map skips (abs q) ∧ pq_items (skip_update skips q) = pq_items q.
Proof.
  intros Hq. destruct (skip_loop skips (pq_items q) q Hq (co_nodup q Hq)) as (H1 & H2 & H3 & H4); [done|].
  split; [done|]. split; [|done]. unfold abs, skip_map. apply map_eq. intros h. unfold skip_update. rewrite map_lookup_imap, !lookup_fmap, H3.
  destruct (pq_hashIndex q !! h) as [p|] eqn:E; [|done]. cbn. rewrite H4. apply co_index in E as [Hp Eh]; [|done]. subst h.
  f_equal. by rewrite (bool_decide_ext _ (item_hash q p ∈ skips)) by tauto.
Qed.

Lemma length_items q : consistent q → length (pq_items q) = size (abs q).
Proof.
  intros Hq. unfold abs. rewrite map_size_fmap. pose proof (co_nodup q Hq) as Hn.
  assert (pq_items q ≡ₚ (map_to_list (pq_hashIndex q)).*2) as ->.
  { apply NoDup_Permutation; [done| |].
    - apply NoDup_fmap_2_strong; [|apply NoDup_map_to_list]. intros [h p] [h' p'] Hx Hy E. cbn in E. subst p'.
      apply elem_of_map_to_list in Hx, Hy. apply co_index in Hx as [_ <-]; [|done]. apply co_index in Hy as [_ <-]; done.
    - intros p. rewrite list_elem_of_fmap. split.
      + intros Hp. exists (item_hash q p, p). split; [done|]. apply elem_of_map_to_list. by apply co_index.
      + intros ([h p'] & -> & Hx). apply elem_of_map_to_list in Hx. by apply co_index in Hx as [? _]. }
  by rewrite length_fmap, length_map_to_list.
Qed.

(** ** Every operation is the one of the map *)
Section Refinement.
  Context {SS : SortSlice} {SSS : SortSliceSpec SS}.

(** A call, and what it replies. *)
Inductive call :=
  | CAdd (b : processBlockFound) (priority height now : Z)
  | CRequeue (b : processBlockFound) (priority height now : Z)
  | CTake (h : Hash)
  | CSource (h : Hash)
  | CSort (now : Z)
  | CSkip (skips : gset Hash)
  | CContains (h : Hash)
  | CSize
  | CClear.

Inductive reply := ASignal (b : bool) | ABlock (b : option processBlockFound) | ABool (b : bool) | ANat (n : nat) | ANothing.

Definition do_call (c : call) (q : BlockPriorityQueue) : reply * BlockPriorityQueue :=
  match c with
  | CAdd b priority height now => let '(s, q) := Add b priority height now q in (ASignal s, q)
  | CRequeue b priority height now => let '(s, q) := RequeueForRetry b priority height now q in (ASignal s, q)
  | CTake h => let '(b, q) := takeIfPresent h q in (ABlock b, q)
  | CSource h => let '(b, q) := GetAlternativeSource h q in (ABlock b, q)
  | CSort now => (ANothing, sort_if_needed now q)
  | CSkip skips => (ANothing, skip_update skips q)
  | CContains h => (ABool (Contains h q), q)
  | CSize => (ANat (Size q), q)
  | CClear => (ANothing, Clear q)
  end.

(** The same calls on a map from hashes to items. *)
Definition spec_call (c : call) (m : gmap Hash PrioritizedBlock) : reply * gmap Hash PrioritizedBlock :=
  match c with
  | CAdd b priority height now =>
      match m !! pf_hash b with
      | Some e => (ASignal false, <[pf_hash b := add_source b e]> m)
      | None => (ASignal true, <[pf_hash b := mkItem b priority height now [] 0 None 0]> m)
      end
  | CRequeue b priority height now =>
      (ASignal true, <[pf_hash b := match m !! pf_hash b with
                                    | Some e => retry_item now e
                                    | None => mkItem b priority height now [] 1 (Some now) 0
                                    end]> m)
  | CTake h => (ABlock (pb_blockFound <$> m !! h), delete h m)
  | CSource h =>
      match m !! h with
      | Some e => match pb_additionalSources e with
                  | [] => (ABlock None, m)
                  | s :: rest => (ABlock (Some s), <[h := set_sources rest e]> m)
                  end
      | None => (ABlock None, m)
      end
  | CSort _ => (ANothing, m)
  | CSkip skips => (ANothing, skip_map skips m)
  | CContains h => (ABool (bool_decide (is_Some (m !! h))), m)
  | CSize => (ANat (size m), m)
  | CClear => (ANothing, ∅)
  end.

Fixpoint run_calls {S : Type} (f : call → S → reply * S) (cs : list call) (s : S) : list reply * S :=
  match cs with
  | [] => ([], s)
  | c :: cs => let '(a, s) := f c s in let '(l, s) := run_calls f cs s in (a :: l, s)
  end.

(** One call refines the call on the map. *)
Lemma call_refines c q : consistent q →
  let '(a, q') := do_call c q in consistent q' ∧ spec_call c (abs q) = (a, abs q').
Proof.
  intros Hq. destruct c as [b priority height now|b priority height now|h|h|now|skips|h| |]; cbn [do_call spec_call].
  - unfold Add. rewrite abs_lookup. destruct (pq_hashIndex q !! pf_hash b) as [p|] eqn:E; cbn [fmap option_fmap option_map].
    + destruct (abs_set_item p (add_source b) q _ Hq E) as [H1 H2]; [done|]. split; [done|]. by rewrite H2.
    + destruct (abs_push (mkItem b priority height now [] 0 None 0) q Hq E) as [H1 H2]. split; [done|]. by rewrite H2.
  - unfold RequeueForRetry. rewrite abs_lookup. destruct (pq_hashIndex q !! pf_hash b) as [p|] eqn:E; cbn [fmap option_fmap option_map].
    + destruct (abs_set_item p (retry_item now) q _ Hq E) as [H1 H2]; [done|].
      split; [by eapply consistent_sort|]. by rewrite <- H2.
    + destruct (abs_push (mkItem b priority height now [] 1 (Some now) 0) q Hq E) as [H1 H2]. split; [done|]. by rewrite H2.
  - destruct (abs_take h q Hq) as (q' & -> & H1 & H2 & _). split; [done|]. by rewrite H2.
  - unfold GetAlternativeSource. rewrite abs_lookup. destruct (pq_hashIndex q !! h) as [p|] eqn:E; cbn [fmap option_fmap option_map]; [|done].
    destruct (pb_additionalSources (item q p)) as [|s rest]; [done|].
    destruct (abs_set_item p (set_sources rest) q _ Hq E) as [H1 H2]; [done|]. split; [done|]. by rewrite H2.
  - destruct (sort_if_needed_same now q Hq) as (H1 & H2 & _). split; [done|]. by rewrite H2.
  - destruct (abs_skip skips q Hq) as (H1 & H2 & _). split; [done|]. by rewrite H2.
  - split; [done|]. rewrite abs_lookup. unfold Contains. by rewrite (bool_decide_ext _ _ (fmap_is_Some _ _)).
  - split; [done|]. unfold Size, Len. by rewrite length_items.
  - split; [split; cbn; [constructor|by intros ? ?%elem_of_nil|intros h p; rewrite lookup_empty, elem_of_nil; naive_solver]|].
    unfold abs. cbn. by rewrite fmap_empty.
Qed.

(** A run of calls refines the run on the map. *)
Lemma calls_refine (cs : list call) q : consistent q →
  let '(replies, q') := run_calls do_call cs q in run_calls spec_call cs (abs q) = (replies, abs q') ∧ consistent q'.
Proof.
  revert q. induction cs as [|c cs IH]; intros q Hq; cbn; [done|]. pose proof (call_refines c q Hq) as Hc.
  destruct (do_call c q) as [a q1]. destruct Hc as [H1 H2]. specialize (IH q1 H1).
  destruct (run_calls do_call cs q1) as [l q2]. destruct IH as [H3 H4]. rewrite H2. by rewrite H3.
Qed.

Lemma calls_consistent (cs : list call) : consistent (run_calls do_call cs NewBlockPriorityQueue).2.
Proof. pose proof (calls_refine cs _ new_consistent) as H. destruct (run_calls do_call cs NewBlockPriorityQueue). by destruct H. Qed.

(** C32: the priority queue, its slice and its index of shared pointers, is a map from
    hashes to items: whatever calls are made, the replies are those of the map, so a block
    announced twice waits once with one more source, a block is handed out once, and what
    the queue holds afterwards is what the map holds, each block at one place. *)
Theorem queue_refines_map (cs : list call) :
  let '(replies, q) := run_calls do_call cs NewBlockPriorityQueue in
  run_calls spec_call cs ∅ = (replies, abs q) ∧ consistent q.
Proof.
  pose proof (calls_refine cs _ new_consistent) as H. unfold abs at 1 in H. cbn in H. by rewrite fmap_empty in H.
Qed.

End Refinement.

(** ** The order *)

Lemma item_less_strict now : strict_weak (item_less now).
Proof.
  split.
  - intros x. unfold item_less. by rewrite !Z.eqb_refl, !Z.ltb_irrefl.
  - intros x y. unfold item_less.
    destruct (Z.eqb_spec (getEffectivePriority now x) (getEffectivePriority now y)), (Z.eqb_spec (getEffectivePriority now y) (getEffectivePriority now x)),
      (Z.eqb_spec (pb_height x) (pb_height y)), (Z.eqb_spec (pb_height y) (pb_height x)); cbn [negb]; rewrite Z.ltb_lt, Z.ltb_ge; lia.
  - intros x y z. unfold item_less.
    destruct (Z.eqb_spec (getEffectivePriority now y) (getEffectivePriority now x)), (Z.eqb_spec (getEffectivePriority now z) (getEffectivePriority now y)),
      (Z.eqb_spec (getEffectivePriority now z) (getEffectivePriority now x)), (Z.eqb_spec (pb_height y) (pb_height x)), (Z.eqb_spec (pb_height z) (pb_height y)),
      (Z.eqb_spec (pb_height z) (pb_height x)); cbn [negb]; rewrite !Z.ltb_ge; lia.
Qed.

Lemma strict_weak_on {A B} (f : A → B) (less : B → B → bool) : strict_weak less → strict_weak (λ x y, less (f x) (f y)).
Proof. intros [H1 H2 H3]. split; [intros x; apply H1|intros x y; apply H2|intros x y z; apply H3]. Qed.

Lemma ssorted_lookup {A} (R : A → A → Prop) l i j x y : StronglySorted R l → l !! i = Some x → l !! j = Some y → (i < j)%nat → R x y.
Proof.
  intros Hs Hi Hj Hij. rewrite <- (take_drop_middle _ _ _ Hi) in Hs.
  apply StronglySorted_app_1_r, StronglySorted_cons in Hs as [Hs _]. rewrite Forall_forall in Hs. apply Hs.
  apply (list_elem_of_lookup_2 _ (j - S i)). rewrite lookup_drop. by replace (S i + (j - S i))%nat with j by lia.
Qed.

(** A block passed over more than ten times goes before everything but what is as urgent. *)
Lemma skipped_is_urgent now b : DefaultSkipCount < pb_skipCount b → getEffectivePriority now b = PriorityChainExtending.
Proof. intros H. unfold getEffectivePriority. by rewrite (proj2 (Z.gtb_lt _ _) H). Qed.

(** ** [Get] *)
Section GetSpec.
  Context {SS : SortSlice} {SSS : SortSliceSpec SS}.
  Context (CanProcessBlock : Hash → result bool).

Definition processable (h : Hash) : bool := match CanProcessBlock h with Ok b => b | Err _ => false end.
Definition refused (h : Hash) : bool := match CanProcessBlock h with Ok b => negb b | Err _ => false end.

Definition refusals (q : BlockPriorityQueue) (copy : list nat) : gset Hash :=
  list_to_set (List.filter refused (item_hash q <$> copy)).

Lemma walk_spec q copy skips : consistent q → (∀ p, p ∈ copy → p ∈ pq_items q) →
  match list_find (λ p, processable (item_hash q p) = true) copy with
  | Some (_, p) => scan_copy CanProcessBlock copy skips q = ScanTook (pb_blockFound (item q p)) (takeIfPresent (item_hash q p) q).2
  | None => scan_copy CanProcessBlock copy skips q = ScanNone (refusals q copy ∪ skips)
  end.
Proof.
  intros Hq. revert skips. induction copy as [|p copy IH]; intros skips Hin; cbn [scan_copy list_find].
  { f_equal. set_solver. }
  assert (∀ p', p' ∈ copy → p' ∈ pq_items q) as Hin' by (intros; apply Hin; by right). unfold refusals in *. cbn [fmap list_fmap List.filter]. unfold processable, refused in *.
  destruct (CanProcessBlock (item_hash q p)) as [[|]|e] eqn:E.
  - rewrite decide_True by done. destruct (abs_take (item_hash q p) q Hq) as (q' & -> & _).
    assert (pq_hashIndex q !! item_hash q p = Some p) as Ei by (apply co_index; [done|split; [apply Hin; left|done]]).
    by rewrite abs_lookup, Ei.
  - rewrite decide_False by done. specialize (IH ({[item_hash q p]} ∪ skips) Hin'). cbn [negb].
    destruct (list_find _ copy) as [[i p']|]; cbn; [done|]. rewrite IH. f_equal. set_solver.
  - rewrite decide_False by done. specialize (IH skips Hin'). by destruct (list_find _ copy) as [[i p']|].
Qed.

(** The queue after a turn of [Get], whichever path it took. *)
Lemma get_turn now q fuel : consistent q → pq_items q ≠ [] →
  Get CanProcessBlock (S fuel) now q =
  let q1 := sort_if_needed now q in
  match list_find (λ p, processable (item_hash q1 p) = true) (pq_items q1) with
  | Some (_, p) => (Some (Some (pb_blockFound (item q1 p)), GetOK), (takeIfPresent (item_hash q1 p) q1).2)
  | None => (Some (None, GetAllBlocked), skip_update (refusals q1 (pq_items q1)) q1)
  end.
Proof.
  intros Hq Hne. cbn [Get]. destruct (sort_if_needed_same now q Hq) as (H1 & H2 & H3 & _).
  set (q1 := sort_if_needed now q) in *. destruct (pq_items q) as [|p0 ps]; [done|]. cbv zeta.
  pose proof (walk_spec q1 (pq_items q1) ∅ H1) as Hs.
  destruct (pq_items q1) as [|front rest] eqn:E1; [by apply Permutation_nil in H3|].
  assert (pq_hashIndex q1 !! item_hash q1 front = Some front) as Ei by (apply co_index; [done|rewrite E1; split; [left|done]]).
  assert (processable (item_hash q1 front) = true → list_find (λ p, processable (item_hash q1 p) = true) (front :: rest) = Some (0%nat, front)) as Hf
    by (intros Hp; cbn; by rewrite decide_True).
  unfold processable in Hf at 1.
  destruct (CanProcessBlock (item_hash q1 front)) as [[|]|e].
  1: { rewrite Hf by done. destruct (abs_take (item_hash q1 front) q1 H1) as (q' & -> & _). by rewrite abs_lookup, Ei. }
  all: destruct (list_find _ (front :: rest)) as [[i p]|]; rewrite Hs by done; [done|]; by rewrite (right_id_L ∅ (∪)).
Qed.

(** The first block of the order that may be processed. *)
Definition chosen (now : Z) (q : BlockPriorityQueue) : option nat :=
  let q1 := sort_if_needed now q in snd <$> list_find (λ p, processable (item_hash q1 p) = true) (pq_items q1).

Lemma chosen_first now q p p' : consistent q → pq_needsSort q = true → chosen now q = Some p → p' ∈ pq_items q →
  processable (item_hash q p') = true → item_less now (item q p') (item q p) = false.
Proof.
  intros Hq Hs Hc Hp' Hp. unfold chosen in Hc. destruct (sort_if_needed_same now q Hq) as (H1 & H2 & H3 & H4 & H5).
  assert (∀ p, item (sort_if_needed now q) p = item q p) as Hit by (intros x; unfold item; by rewrite H4).
  apply fmap_Some in Hc as ([i x] & Hc & ->). apply list_find_Some in Hc as (Hi & _ & Hlt).
  rewrite <- H3 in Hp'. apply list_elem_of_lookup_1 in Hp' as [j Hj].
  assert (StronglySorted (λ x y, item_less now (item q y) (item q x) = false) (pq_items (sort_if_needed now q))) as Hss.
  { unfold sort_if_needed. rewrite Hs. cbn. apply (sortSlice_sorted (λ i j, item_less now (item q i) (item q j))).
    apply (strict_weak_on (item q)), item_less_strict. }
  destruct (Nat.lt_trichotomy i j) as [Hij|[->|Hij]].
  - exact (ssorted_lookup _ _ i j _ _ Hss Hi Hj Hij).
  - rewrite Hi in Hj. injection Hj as <-. apply item_less_strict.
  - exfalso. eapply Hlt; [exact Hj|exact Hij|]. unfold item_hash. by rewrite Hit.
Qed.

(** C33: a call of [Get] with no other goroutine in between ends at its first turn.  On an
    empty queue it replies so; otherwise it hands out the first block of the queue's order
    that may be processed and the queue then holds all the others unchanged, or, when none
    may be, it reports that and counts a skip for exactly the blocks that were refused.
    When the order is fresh, no processable block goes before the one handed out. *)
Theorem Get_spec now q fuel : consistent q →
  ∃ reply q', Get CanProcessBlock (S fuel) now q = (Some reply, q') ∧ consistent q' ∧
    match chosen now q with
    | Some p => reply = (Some (pb_blockFound (item q p)), GetOK) ∧ p ∈ pq_items q ∧ processable (item_hash q p) = true ∧
        abs q' = delete (item_hash q p) (abs q) ∧
        (pq_needsSort q = true → ∀ p', p' ∈ pq_items q → processable (item_hash q p') = true → item_less now (item q p') (item q p) = false)
    | None => (∀ p, p ∈ pq_items q → processable (item_hash q p) = false) ∧
        reply = (None, if bool_decide (abs q = ∅) then GetEmpty else GetAllBlocked) ∧
        ∀ h, abs q' !! h = (λ b, if refused h then skip_item b else b) <$> abs q !! h
    end.
Proof.
  intros Hq. pose proof (sort_if_needed_same now q Hq) as (H1 & H2 & H3 & H4 & _).
  assert (∀ p, item (sort_if_needed now q) p = item q p) as Hit by (intros x; unfold item; by rewrite H4).
  pose proof (chosen_first now q) as Hfirst. pose proof (length_items q Hq) as Hlen.
  destruct (pq_items q) as [|p0 ps] eqn:Ei.
  - exists (None, GetEmpty), q. cbn [Get]. rewrite Ei. split; [done|]. split; [done|].
    unfold chosen. cbv zeta. apply Permutation_nil_r in H3 as ->. cbn. symmetry in Hlen. apply map_size_empty_inv in Hlen as ->.
    split; [by intros p ?%elem_of_nil|]. split; [done|]. intros h. by rewrite lookup_empty.
  - rewrite get_turn by (done || by rewrite Ei). cbv zeta. unfold chosen in *. cbv zeta in *.
    destruct (list_find _ _) as [[i p]|] eqn:Ef; cbn [fmap option_fmap option_map snd] in *.
    + apply list_find_Some in Ef as (Hi & Hp & _). destruct (abs_take (item_hash (sort_if_needed now q) p) _ H1) as (q' & -> & Hc & Ha & _).
      apply list_elem_of_lookup_2 in Hi. rewrite H3 in Hi. unfold item_hash in *. rewrite Hit in *. eexists _, q'. split; [done|]. split; [done|].
      split; [done|]. split; [exact Hi|]. split; [done|]. split; [by rewrite Ha, H2|]. intros Hs p' Hp'. by apply (Hfirst p p').
    + destruct (abs_skip (refusals (sort_if_needed now q) (pq_items (sort_if_needed now q))) _ H1) as (Hc & Ha & _). eexists _, _. split; [done|]. split; [done|].
      apply list_find_None in Ef. rewrite Forall_forall in Ef. split.
      { intros p Hp. rewrite <- H3 in Hp. apply Ef in Hp. unfold item_hash in Hp. rewrite Hit in Hp. by apply not_true_is_false. }
      split; [rewrite bool_decide_false; [done|]; intros He; rewrite He, map_size_empty in Hlen; done|].
      intros h. rewrite Ha, H2. unfold skip_map. rewrite map_lookup_imap. destruct (abs q !! h) as [b|] eqn:Eh; [|done]. cbn.
      f_equal. rewrite abs_lookup in Eh. apply fmap_Some in Eh as (p & Eh & ->). apply co_index in Eh as [Hp Eh]; [|done]. rewrite Ei, <- H3 in Hp.
      unfold refusals. case_bool_decide as Hr.
      * apply elem_of_list_to_set, list_elem_of_In, filter_In in Hr as [_ Hr]. by rewrite Hr.
      * destruct (refused h) eqn:Er; [|done]. exfalso. apply Hr. apply elem_of_list_to_set, list_elem_of_In, filter_In. split; [|done].
        apply list_elem_of_In, list_elem_of_fmap. exists p. split; [|done]. unfold item_hash in *. by rewrite Hit.
Qed.

End GetSpec.

(** ** The classifier *)

(** The priority of a block: it extends the best chain when its parent is the best
    block; otherwise, on a chain that is at least as high as the threshold, it is near
    when the height it would have is at most the threshold below the best block's, and
    deep when it is farther or its parent is unknown; an error comes back only when the
    best block is not to be had, and then with the lowest priority. *)
Theorem ClassifyBlock_spec threshold block best parent : is_u32 threshold →
  match best with Ok (_, height) => is_u32 height ∧ threshold <= height | Err _ => True end →
  match parent with Ok height => 0 <= height < 2^32 - 1 | Err _ => True end →
  ClassifyBlock threshold block best parent =
  match best with
  | Err e => (PriorityDeepFork, Some e)
  | Ok (h, height) =>
      if bool_decide (bk_prev block = h) then (PriorityChainExtending, None)
      else match parent with
           | Ok p => (if bool_decide (height - (p + 1) <= threshold) then PriorityNearFork else PriorityDeepFork, None)
           | Err _ => (PriorityDeepFork, None)
           end
  end.
Proof.
  intros Ht Hb Hp. unfold ClassifyBlock. destruct best as [[h height]|e]; [|done]. case_bool_decide; [done|].
  destruct parent as [p|e]; [|done]. unfold u32. rewrite !Z.mod_small by lia. case_bool_decide as E.
  - by rewrite (proj2 (Z.geb_le _ _)) by lia.
  - rewrite Z.geb_leb, (proj2 (Z.leb_gt _ _)) by lia. done.
Qed.

(** On a chain lower than the threshold the subtraction wraps, and a competitor of the
    best block itself is deep. *)
Lemma low_chain_is_deep threshold block h height p : is_u32 threshold → 0 <= height < threshold → 0 <= p → p + 1 <= height →
  bk_prev block ≠ h → ClassifyBlock threshold block (Ok (h, height)) (Ok p) = (PriorityDeepFork, None).
Proof.
  intros Ht Hh Hp Hle Hne. unfold ClassifyBlock. rewrite bool_decide_false by done. unfold u32.
  rewrite (Z.mod_small (p + 1)) by lia. replace ((height - threshold) mod 2^32) with (height - threshold + 2^32) by (apply (Z.mod_unique_pos _ _ (-1)); lia).
  by rewrite Z.geb_leb, (proj2 (Z.leb_gt _ _)) by lia.
Qed.

(** ** The sources of a block that was taken *)

(** Taking a block out of the queue drops the other sources that were kept for it: asked
    for one afterwards, the queue has none. *)
Lemma taken_forgets_sources h q b q' : consistent q → takeIfPresent h q = (Some b, q') → GetAlternativeSource h q' = (None, q').
Proof.
  intros Hq E. destruct (abs_take h q Hq) as (q1 & E1 & _ & Ha & _). rewrite E1 in E. injection E as _ <-.
  unfold GetAlternativeSource. assert (abs q1 !! h = None) as Hn by by rewrite Ha, lookup_delete_eq.
  rewrite abs_lookup in Hn. by apply fmap_None in Hn as ->.
Qed.

(** ** Examples *)

(** A sort by merging. *)
#[local] Instance merge_sortSlice : SortSlice := λ A less l, @merge_sort A (λ x y, less y x = false) (λ x y, decide (less y x = false)) l.
#[local] Instance merge_sortSlice_spec : SortSliceSpec merge_sortSlice.
Proof.
  split; intros A less l.
  - apply merge_sort_Permutation.
  - intros [H1 H2 H3]. apply StronglySorted_merge_sort.
    + intros x y z Hxy Hyz. by eapply H3.
    + intros x y. destruct (less y x) eqn:E; [right; by apply H2|by left].
Qed.

Definition ex_found (n : Z) (peer : string) : processBlockFound := mkBlockFound (hash_of_Z n) "http://peer" peer None.

(** A deep fork, a near one announced twice, and a block that extends the chain. *)
Definition ex_calls : list call :=
  [CAdd (ex_found 1 "a") PriorityDeepFork 90 0; CAdd (ex_found 2 "a") PriorityNearFork 99 1; CAdd (ex_found 2 "b") PriorityNearFork 99 2;
   CAdd (ex_found 3 "c") PriorityChainExtending 101 3].
Definition ex_queue : BlockPriorityQueue := (run_calls do_call ex_calls NewBlockPriorityQueue).2.

Lemma queue_refines_map_witness :
  let '(replies, q) := run_calls do_call (ex_calls ++ [CTake (hash_of_Z 2); CSource (hash_of_Z 2); CSize]) NewBlockPriorityQueue in
  replies = [ASignal true; ASignal true; ASignal false; ASignal true; ABlock (Some (ex_found 2 "a")); ABlock None; ANat 2] ∧
  run_calls spec_call (ex_calls ++ [CTake (hash_of_Z 2); CSource (hash_of_Z 2); CSize]) ∅ = (replies, abs q).
Proof. split; [vm_compute; reflexivity|]. exact (proj1 (queue_refines_map (ex_calls ++ [CTake (hash_of_Z 2); CSource (hash_of_Z 2); CSize]))). Defined.

(** The best block's slot is refused: the near fork goes next. *)
Definition ex_can (h : Hash) : result bool := Ok (bool_decide (h ≠ hash_of_Z 3)).

Lemma ex_consistent : consistent ex_queue.
Proof. apply calls_consistent. Qed.

Lemma Get_spec_witness :
  chosen ex_can 10 ex_queue = Some 1%nat ∧
  (∃ reply q', Get ex_can 1 10 ex_queue = (Some reply, q') ∧ consistent q' ∧ reply.1 = Some (ex_found 2 "a") ∧ abs q' = delete (hash_of_Z 2) (abs ex_queue)).
Proof.
  assert (chosen ex_can 10 ex_queue = Some 1%nat) as Hc by (vm_compute; reflexivity). split; [done|].
  destruct (Get_spec ex_can 10 ex_queue 0 ex_consistent) as (reply & q' & H1 & H2 & H3). exists reply, q'. rewrite Hc in H3.
  destruct H3 as (-> & _ & _ & Ha & _). split; [exact H1|]. split; [exact H2|]. split; [vm_compute; reflexivity|]. exact Ha.
Defined.

Lemma ClassifyBlock_spec_witness :
  ClassifyBlock 50 (mkFound (hash_of_Z 9) (hash_of_Z 8) 0) (Ok (hash_of_Z 7, 120)) (Ok 69) = (PriorityNearFork, None).
Proof. refine (ClassifyBlock_spec 50 _ _ _ _ _ _); lia. Defined.
