(* ===== verification/BlockWorkers.v ===== *)
(** * The workers of block validation

    services/blockvalidation/Server.go, [blockProcessingWorker], over the priority queue's
    [WaitForBlock] and [Get] (block_priority.go) and the fork manager (fork_manager.go).
    A stretch under one lock is one move, so a run is an interleaving of the moves of all
    workers with what the rest of the service does: announce a block ([queueFetchedBlock]),
    queue it again, make or fill a branch, clean the branches up.

    [Signal] wakes one of the workers that wait, when there is one; [Wait] gives the
    queue's lock up and waits in one move.  The service's context is not cancelled: at
    shutdown every worker leaves. *)

From stdpp Require Import strings sorting.
From S2P Require Import Prelude ForkManager BlockQueue.

(** What a worker does next; a pointer list is what is left of its copy of the queue. *)
Inductive worker :=
  | WIdle
  | WFront (h : Hash)
  | WTakeFront (h : Hash)
  | WCopy
  | WScan (copy : list nat) (skips : gset Hash)
  | WTake (p : nat) (copy : list nat) (skips : gset Hash)
  | WNoBlock (status : GetStatus)
  | WParked
  | WTaken (b : processBlockFound)
  | WBusy (b : processBlockFound).

Record System := mkSystem {
  sy_fm : ForkManager;
  sy_pq : BlockPriorityQueue;
  sy_workers : list worker;
}.

(** [NewServer] and [startBlockProcessingSystem]: as many workers as parallel branches. *)
Definition numWorkers (setting : Z) : nat := if setting >? 0 then Z.to_nat setting else 4.
Definition start_system (parallel tracked maturity : Z) : System :=
  mkSystem (SetPriorityQueue true (NewForkManager parallel tracked maturity)) NewBlockPriorityQueue (replicate (numWorkers parallel) WIdle).

Section Workers.
  Context {SS : SortSlice}.
  Context (hash_String : Hash → string).

(** ** A worker's moves that signal no one *)
Definition move (now : Z) (w : worker) (fm : ForkManager) (q : BlockPriorityQueue) : option (worker * ForkManager * BlockPriorityQueue) :=
  match w with
  | WIdle =>
      match pq_items q with
      | [] => Some (WNoBlock GetEmpty, fm, q)
      | _ => let q := sort_if_needed now q in
             match pq_items q with
             | [] => Some (WNoBlock GetEmpty, fm, q)
             | front :: _ => Some (WFront (item_hash q front), fm, q)
             end
      end
  | WFront h => Some (if CanProcessBlock h fm then WTakeFront h else WCopy, fm, q)
  | WTakeFront h =>
      match takeIfPresent h q with
      | (Some b, q) => Some (WTaken b, fm, q)
      | (None, _) => Some (WCopy, fm, q)
      end
  | WCopy =>
      match pq_items q with
      | [] => Some (WNoBlock GetEmpty, fm, q)
      | copy => Some (WScan copy ∅, fm, q)
      end
  | WScan [] skips => Some (WNoBlock GetAllBlocked, fm, skip_update skips q)
  | WScan (p :: copy) skips =>
      Some (if CanProcessBlock (item_hash q p) fm then WTake p copy skips else WScan copy ({[item_hash q p]} ∪ skips), fm, q)
  | WTake p copy skips =>
      match takeIfPresent (item_hash q p) q with
      | (Some b, q) => Some (WTaken b, fm, q)
      | (None, _) => Some (if bool_decide (is_Some (pq_hashIndex q !! item_hash q p)) then WIdle else WScan copy skips, fm, q)
      end
  | WNoBlock GetEmpty => Some (if (0 <? length (pq_items q))%nat then WIdle else WParked, fm, q)
  | WNoBlock _ => Some (WParked, fm, q)
  | WParked => None
  | WTaken b =>
      let '(ok, fm) := StartProcessingBlock (pf_hash b) fm in
      Some (if ok then WBusy b else WIdle, fm, q)
  | WBusy b => None
  end.

(** [cond.Signal()]. *)
Definition signalled (ws ws' : list worker) : Prop :=
  (∃ i, ws !! i = Some WParked ∧ ws' = <[i := WIdle]> ws) ∨ (WParked ∉ ws ∧ ws' = ws).
Definition signalled_if (b : bool) (ws ws' : list worker) : Prop := if b then signalled ws ws' else ws' = ws.

(** ** What happens next *)
Inductive event :=
  | EMove (i : nat) (now : Z)
  | ESource (i : nat)
  | EFinish (i : nat)
  | EAdd (b : processBlockFound) (priority height now : Z)
  | ERequeue (b : processBlockFound) (priority height now : Z)
  | EPlace (block : FoundBlock) (parentMeta : option Z) (now : Z)
  | EAddToFork (block : FoundBlock) (forkID : string) (now : Z)
  | ECleanup (now : Z) (order : list string)
  | EResolve (processed : FoundBlock) (newTip : Hash) (newHeight now : Z).

Inductive step : System → event → System → Prop :=
  | step_move i now w w' fm q ws fm' q' :
      ws !! i = Some w → move now w fm q = Some (w', fm', q') →
      step (mkSystem fm q ws) (EMove i now) (mkSystem fm' q' (<[i := w']> ws))
  (* [processBlockWithPriority] asks for another source of the block it works on. *)
  | step_source i b fm q ws :
      ws !! i = Some (WBusy b) →
      step (mkSystem fm q ws) (ESource i) (mkSystem fm (GetAlternativeSource (pf_hash b) q).2 ws)
  | step_finish i b fm q ws ws' :
      ws !! i = Some (WBusy b) →
      signalled_if (FinishProcessingBlock (pf_hash b) fm).1 ws ws' →
      step (mkSystem fm q ws) (EFinish i) (mkSystem (FinishProcessingBlock (pf_hash b) fm).2 q (<[i := WIdle]> ws'))
  | step_add b priority height now fm q ws ws' :
      signalled_if (Add b priority height now q).1 ws ws' →
      step (mkSystem fm q ws) (EAdd b priority height now) (mkSystem fm (Add b priority height now q).2 ws')
  | step_requeue b priority height now fm q ws ws' :
      signalled_if (RequeueForRetry b priority height now q).1 ws ws' →
      step (mkSystem fm q ws) (ERequeue b priority height now) (mkSystem fm (RequeueForRetry b priority height now q).2 ws')
  | step_place block parentMeta now fm q ws :
      step (mkSystem fm q ws) (EPlace block parentMeta now) (mkSystem (place_block hash_String block parentMeta now fm).2 q ws)
  | step_add_to_fork block forkID now fm q ws :
      step (mkSystem fm q ws) (EAddToFork block forkID now) (mkSystem (AddBlockToFork block forkID now fm).2 q ws)
  | step_cleanup now order fm q ws :
      step (mkSystem fm q ws) (ECleanup now order) (mkSystem (performCleanup now order fm) q ws)
  | step_resolve processed newTip newHeight now fm q ws :
      step (mkSystem fm q ws) (EResolve processed newTip newHeight now) (mkSystem (CheckForkResolution processed newTip newHeight now fm).2 q ws).

(** Runs all of whose steps satisfy [ok]. *)
Inductive reach (ok : System → event → Prop) (s0 : System) : System → Prop :=
  | reach_start : reach ok s0 s0
  | reach_step s e s' : reach ok s0 s → ok s e → step s e s' → reach ok s0 s'.

(** ** The end of [queueFetchedBlock]: a block whose parent is known *)
Definition queueFetchedBlock (nearForkThreshold : Z) (blockFound : processBlockFound) (block : FoundBlock)
  (best : result (Hash * Z)) (parent : result Z) (now : Z) (fm : ForkManager) (q : BlockPriorityQueue) : bool * ForkManager * BlockPriorityQueue :=
  let priority := match ClassifyBlock nearForkThreshold block best parent with
                  | (_, Some _) => PriorityDeepFork
                  | (priority, None) => priority
                  end in
  let fm :=
    if negb (priority =? PriorityChainExtending) then
      match DetermineForkID hash_String block (match best with Ok (h, _) => Ok h | Err e => Err e end)
              (match parent with Ok height => Some height | Err _ => None end) now fm with
      | (Err _, fm) => fm
      | (Ok forkID, fm) => (AddBlockToFork block forkID now fm).2
      end
    else fm in
  let '(signal, q) := Add blockFound priority (bk_height block) now q in
  (signal, fm, q).

End Workers.
