(* ===== verification/BlockWorkersTheorems.v ===== *)
(** * What the workers of block validation promise

    A block a worker took is refused only when another worker has it; no two workers have
    the same block while the cleanup spares what is at work; and the workers never all
    sleep while a block waits, as long as no block is moved to another branch while it is
    at work.  What happens without these two conditions is at the end. *)

From stdpp Require Import strings pretty sorting.
From S2P Require Import Prelude ForkManager ForkManagerTheorems BlockQueue BlockQueueTheorems BlockWorkers.

#[local] Opaque i32 u32 i64.

Section Workers.
  Context {SS : SortSlice}.
  Context (hash_String : Hash → string).

(** ** The workers *)

Definition queued (q : BlockPriorityQueue) (h : Hash) : Prop := is_Some (pq_hashIndex q !! h).

(** The pointers a worker holds. *)
Definition held (w : worker) : list nat :=
  match w with WScan copy _ => copy | WTake p copy _ => p :: copy | _ => [] end.
Definition valid (q : BlockPriorityQueue) (w : worker) : Prop := ∀ p, p ∈ held w → (p < length (pq_heap q))%nat.

(** A worker that will find none of the blocks that wait now. *)
Definition stale (q : BlockPriorityQueue) (w : worker) : Prop :=
  match w with
  | WScan copy _ => ∀ p, p ∈ copy → ¬ queued q (item_hash q p)
  | WTake p copy _ => ∀ p', p' ∈ p :: copy → ¬ queued q (item_hash q p')
  | WNoBlock GetEmpty => False
  | WNoBlock _ => True
  | _ => False
  end.

Definition alive (q : BlockPriorityQueue) (w : worker) : Prop := ¬ stale q w ∧ w ≠ WParked.

(** Someone is not stale, and while a block waits someone is alive. *)
Definition attended (q : BlockPriorityQueue) (ws : list worker) : Prop :=
  (∃ i w, ws !! i = Some w ∧ ¬ stale q w) ∧ (pq_items q ≠ [] → ∃ i w, ws !! i = Some w ∧ alive q w).

Definition busy_with (ws : list worker) (i : nat) (h : Hash) : Prop := ∃ b, ws !! i = Some (WBusy b) ∧ pf_hash b = h.

Record sound (m : Z) (s : System) : Prop := mkSound {
  so_queue : consistent (sy_pq s);
  so_count : counted m (sy_fm s);
  so_busy h : h ∈ fm_processingBlocks (sy_fm s) → ∃ i, busy_with (sy_workers s) i h;
  so_valid w : w ∈ sy_workers s → valid (sy_pq s) w;
}.

(** What a change of the queue keeps. *)
Record grows (q q' : BlockPriorityQueue) : Prop := mkGrows {
  gr_heap : (length (pq_heap q) <= length (pq_heap q'))%nat;
  gr_hash p : (p < length (pq_heap q))%nat → item_hash q' p = item_hash q p;
  gr_queued h : queued q h → queued q' h;
}.

Lemma grows_refl q : grows q q.
Proof. by split. Qed.
Lemma grows_trans q1 q2 q3 : grows q1 q2 → grows q2 q3 → grows q1 q3.
Proof. intros [H1 H2 H3] [H4 H5 H6]. split; [lia|intros p Hp; rewrite H5 by lia; by apply H2|auto]. Qed.

Lemma grows_heap q q' : pq_heap q' = pq_heap q → pq_hashIndex q' = pq_hashIndex q → grows q q'.
Proof. intros E1 E2. split; [by rewrite E1|intros p _; unfold item_hash, item; by rewrite E1|intros h; unfold queued; by rewrite E2]. Qed.

Lemma grows_set_item p g q : (p < length (pq_heap q))%nat → (∀ b, pb_hash (g b) = pb_hash b) → grows q (set_item p g q).
Proof. intros Hp Hg. split; [cbn; by rewrite length_alter|intros p' _; by apply item_hash_set_item|done]. Qed.

Lemma grows_push b q : grows q (push_item b q).
Proof.
  split; [cbn; rewrite length_app; lia| |].
  - intros p Hp. unfold item_hash. rewrite item_push, bool_decide_false; [done|lia].
  - intros h Hh. unfold queued in *. cbn. rewrite lookup_insert_is_Some. destruct (decide (pb_hash b = h)); tauto.
Qed.

Lemma indexed_alloc q h p : consistent q → pq_hashIndex q !! h = Some p → (p < length (pq_heap q))%nat.
Proof. intros Hq E. apply co_index in E as [Hp _]; [|done]. by apply co_alloc. Qed.

Context {SSS : SortSliceSpec SS}.

Lemma Add_grows b priority height now q : consistent q → consistent (Add b priority height now q).2 ∧ grows q (Add b priority height now q).2.
Proof.
  intros Hq. split; [pose proof (call_refines (CAdd b priority height now) q Hq) as H; cbn in H; by destruct (Add _ _ _ _ _), H|].
  unfold Add. destruct (pq_hashIndex q !! _) eqn:E; cbn [snd]; [|apply grows_push]. apply grows_set_item; [by eapply indexed_alloc|done].
Qed.

Lemma Requeue_grows b priority height now q : consistent q → consistent (RequeueForRetry b priority height now q).2 ∧ grows q (RequeueForRetry b priority height now q).2.
Proof.
  intros Hq. split; [pose proof (call_refines (CRequeue b priority height now) q Hq) as H; cbn in H; by destruct (RequeueForRetry _ _ _ _ _), H|].
  unfold RequeueForRetry. destruct (pq_hashIndex q !! _) eqn:E; cbn [snd]; [|apply grows_push].
  eapply grows_trans; [apply (grows_set_item n (retry_item now)); [by eapply indexed_alloc|done]|by apply grows_heap].
Qed.

Lemma Source_grows h q : consistent q → consistent (GetAlternativeSource h q).2 ∧ grows q (GetAlternativeSource h q).2 ∧
  pq_items (GetAlternativeSource h q).2 = pq_items q.
Proof.
  intros Hq. split; [pose proof (call_refines (CSource h) q Hq) as H; cbn in H; by destruct (GetAlternativeSource _ _), H|].
  unfold GetAlternativeSource. destruct (pq_hashIndex q !! _) eqn:E; cbn [snd]; [|split; [apply grows_refl|done]].
  destruct (pb_additionalSources _); [split; [apply grows_refl|done]|]. split; [apply grows_set_item; [by eapply indexed_alloc|done]|done].
Qed.

Lemma sort_grows now q : consistent q → grows q (sort_if_needed now q).
Proof. intros Hq. destruct (sort_if_needed_same now q Hq) as (_ & _ & _ & E1 & E2). by apply grows_heap. Qed.

Lemma skip_grows skips q : consistent q → consistent (skip_update skips q) ∧ grows q (skip_update skips q) ∧ pq_items (skip_update skips q) = pq_items q.
Proof.
  intros Hq. destruct (skip_loop skips (pq_items q) q Hq (co_nodup q Hq)) as (H1 & H2 & H3 & H4); [done|]. split; [done|]. split; [|done].
  split; unfold skip_update.
  - assert (∀ ps q, length (pq_heap (foldl (λ q p, if bool_decide (item_hash q p ∈ skips) then set_item p skip_item q else q) q ps)) = length (pq_heap q)) as Hl; [|by rewrite Hl].
    { clear. induction ps as [|p ps IH]; intros q; [done|]. cbn [foldl]. rewrite IH. case_bool_decide; [cbn; by rewrite length_alter|done]. }
  - intros p _. unfold item_hash. rewrite H4. by case_bool_decide.
  - intros h. unfold queued. by rewrite H3.
Qed.

Lemma take_keeps h q b q' : consistent q → takeIfPresent h q = (b, q') → consistent q' ∧ pq_heap q' = pq_heap q ∧ (b = None → q' = q ∧ ¬ queued q h).
Proof.
  intros Hq E. destruct (abs_take h q Hq) as (q1 & E1 & H1 & H2 & _ & H3). rewrite E1 in E. injection E as <- <-. split; [done|]. split; [done|].
  intros Hn. unfold takeIfPresent in E1. apply fmap_None in Hn. rewrite abs_lookup in Hn. apply fmap_None in Hn.
  pose proof (find_item_spec h q Hq) as Hf. rewrite Hn in Hf. rewrite Hf in E1. split; [by injection E1 as _ <-|]. unfold queued. rewrite Hn. by intros [? ?].
Qed.

(** ** Who attends to the queue *)

Lemma stale_grows q q' w : grows q q' → valid q w → stale q' w → stale q w.
Proof.
  intros [H1 H2 H3] Hv. destruct w; cbn; try done.
  - intros Hs p Hp Hq. apply (Hs p Hp). rewrite H2 by by apply Hv. by apply H3.
  - intros Hs p' Hp Hq. apply (Hs p' Hp). rewrite H2 by by apply Hv. by apply H3.
Qed.

(** A worker that is alive attends. *)
Lemma attended_alive q ws i w : ws !! i = Some w → alive q w → attended q ws.
Proof. intros Hi Hw. split; [|intros _]; exists i, w; split; [done|by destruct Hw|done..]. Qed.

(** A move of one worker that changes no staleness keeps the others'. *)
Lemma attended_move q q' ws i w w' : grows q q' → (pq_items q' ≠ [] → pq_items q ≠ []) → (∀ v, v ∈ ws → valid q v) → ws !! i = Some w →
  (stale q' w' → stale q w) → (w' = WParked → pq_items q' = [] ∨ stale q w ∨ w = WParked) → attended q ws → attended q' (<[i := w']> ws).
Proof.
  intros Hg Hit Hv Hi Hs Hp [(j & v & Hj & Hns) Hn].
  assert (∀ j v, ws !! j = Some v → ¬ stale q v → ¬ stale q' v) as Hkeep.
  { intros j' v' Hj' Hns' Hs'. apply Hns'. eapply stale_grows; [done|apply Hv; by eapply list_elem_of_lookup_2|done]. }
  assert (∀ j v, ws !! j = Some v → ¬ stale q v → ∃ j' v', <[i := w']> ws !! j' = Some v' ∧ ¬ stale q' v' ∧ (j' = i ∧ v' = w' ∨ v' = v)) as Hone.
  { intros j' v' Hj' Hns'. destruct (decide (j' = i)) as [->|Hne].
    - exists i, w'. rewrite list_lookup_insert_eq by by eapply lookup_lt_Some. split; [done|]. split; [|by left]. intros Hs'. apply Hns'. rewrite Hi in Hj'. injection Hj' as <-. auto.
    - exists j', v'. rewrite list_lookup_insert_ne by done. split; [done|]. split; [by eapply Hkeep|by right]. }
  split.
  - destruct (Hone j v Hj Hns) as (j' & v' & H1 & H2 & _). eauto.
  - intros Hne. destruct (Hn (Hit Hne)) as (k & u & Hk & Hu & Hup). destruct (decide (k = i)) as [->|Hki].
    + rewrite Hi in Hk. injection Hk as <-. exists i, w'. rewrite list_lookup_insert_eq by by eapply lookup_lt_Some. split; [done|]. split; [auto|].
      intros E. destruct (Hp E) as [?|[?|?]]; [by apply Hne|by apply Hu|by apply Hup].
    + exists k, u. rewrite list_lookup_insert_ne by done. split; [done|]. split; [by eapply Hkeep|done].
Qed.

Lemma attended_grows q q' ws : grows q q' → (pq_items q' ≠ [] → pq_items q ≠ []) → (∀ v, v ∈ ws → valid q v) → attended q ws → attended q' ws.
Proof.
  intros Hg Hit Hv [(j & v & Hj & Hns) Hn].
  assert (∀ j v, ws !! j = Some v → ¬ stale q v → ¬ stale q' v) as Hkeep.
  { intros j' v' Hj' Hns' Hs'. apply Hns'. eapply stale_grows; [done|apply Hv; by eapply list_elem_of_lookup_2|done]. }
  split; [exists j, v; split; [done|by eapply Hkeep]|]. intros Hne. destruct (Hn (Hit Hne)) as (k & u & Hk & Hu & Hup).
  exists k, u. split; [done|]. split; [by eapply Hkeep|done].
Qed.

(** A signal leaves someone alive. *)
Lemma attended_signal q q' ws ws' : grows q q' → (∀ v, v ∈ ws → valid q v) → attended q ws → signalled ws ws' → attended q' ws'.
Proof.
  intros Hg Hv [(j & v & Hj & Hns) Hn] [(i & Hi & ->)|[Hnp ->]].
  - apply (attended_alive q' _ i WIdle); [by rewrite list_lookup_insert_eq by by eapply lookup_lt_Some|]. split; [intros []|done].
  - apply (attended_alive q' _ j v); [done|]. pose proof (list_elem_of_lookup_2 _ _ _ Hj) as Hin. split; [|by intros ->].
    intros Hs. apply Hns. eapply stale_grows; [done|by apply Hv|done].
Qed.

(** ** Moves *)

Lemma front_index now q p l : consistent q → pq_items (sort_if_needed now q) = p :: l → queued (sort_if_needed now q) (item_hash (sort_if_needed now q) p).
Proof.
  intros Hq E. destruct (sort_if_needed_same now q Hq) as (H1 & _). exists p. apply co_index; [done|]. rewrite E. split; [left|done].
Qed.

(** What a move does to the queue. *)
Lemma move_queue now w fm q w' fm' q' : consistent q → valid q w → move now w fm q = Some (w', fm', q') →
  consistent q' ∧ valid q' w' ∧ (length (pq_heap q) <= length (pq_heap q'))%nat ∧ (∀ p, (p < length (pq_heap q))%nat → item_hash q' p = item_hash q p).
Proof.
  intros Hq Hv E. assert (∀ (c c' : BlockPriorityQueue), pq_heap c' = pq_heap c → (length (pq_heap c) <= length (pq_heap c'))%nat ∧
    (∀ p, (p < length (pq_heap c))%nat → item_hash c' p = item_hash c p)) as Hsame by (intros c c' Eh; unfold item_hash, item; by rewrite Eh).
  assert (∀ c v, held v = [] → valid c v) as Hnil by (intros c v Eh p; rewrite Eh; by intros ?%elem_of_nil).
  destruct w as [|h|h| |[|p copy] skips|p copy skips|[]| |b|b]; cbn [move] in E; try done.
  - destruct (sort_if_needed_same now q Hq) as (H1 & _ & _ & H4 & _).
    destruct (pq_items q); [injection E as <- <- <-; eauto|]. destruct (pq_items (sort_if_needed now q)); injection E as <- <- <-; eauto.
  - injection E as <- <- <-. split; [done|]. split; [apply Hnil; by destruct (CanProcessBlock _ _)|eauto].
  - destruct (takeIfPresent h q) as [[b|] q1] eqn:Et; injection E as <- <- <-; (destruct (take_keeps h q _ _ Hq Et) as (H1 & H2 & _) || done); eauto.
  - destruct (pq_items q) as [|p l] eqn:Ei; injection E as <- <- <-; [eauto|]. split; [done|]. split; [|eauto]. intros p' Hp'. cbn in Hp'. rewrite <- Ei in Hp'. by apply co_alloc.
  - injection E as <- <- <-. destruct (skip_grows skips q Hq) as (H1 & [H2 H3 H4] & _). split; [done|]. split; [by apply Hnil|done].
  - injection E as <- <- <-. split; [done|]. split; [|eauto]. destruct (CanProcessBlock _ _); intros p' Hp'; apply Hv; [done|by right].
  - destruct (takeIfPresent _ q) as [[b|] q1] eqn:Et; injection E as <- <- <-; [destruct (take_keeps _ q _ _ Hq Et) as (H1 & H2 & _); eauto|].
    split; [done|]. split; [|eauto]. case_bool_decide; [by apply Hnil|]. intros p' Hp'. apply Hv. by right.
  - injection E as <- <- <-. eauto.
  - injection E as <- <- <-. split; [done|]. split; [apply Hnil; by destruct (_ <? _)%nat|eauto].
  - injection E as <- <- <-. eauto.
  - destruct (StartProcessingBlock _ _) as [[] fm1]; injection E as <- <- <-; eauto.
Qed.

(** What a move does to the fork manager. *)
Lemma move_manager now w fm q w' fm' q' : move now w fm q = Some (w', fm', q') →
  (∀ b, w ≠ WBusy b) ∧
  ((fm' = fm ∧ ∀ b, w' ≠ WBusy b) ∨
   ∃ b, w = WTaken b ∧ fm' = (StartProcessingBlock (pf_hash b) fm).2 ∧ w' = if (StartProcessingBlock (pf_hash b) fm).1 then WBusy b else WIdle).
Proof.
  intros E. split; [by intros b ->|].
  destruct w as [|h|h| |[|p copy] skips|p copy skips|[]| |b|b]; cbn [move] in E; try done.
  11: { right. exists b. destruct (StartProcessingBlock _ _) as [ok fm1]. by injection E as <- <- <-. }
  all: left.
  - destruct (pq_items q); [by injection E as <- <- <-|]. by destruct (pq_items (sort_if_needed now q)); injection E as <- <- <-.
  - injection E as <- <- <-. by destruct (CanProcessBlock _ _).
  - by destruct (takeIfPresent h q) as [[b|] q1]; injection E as <- <- <-.
  - by destruct (pq_items q); injection E as <- <- <-.
  - by injection E as <- <- <-.
  - injection E as <- <- <-. by destruct (CanProcessBlock _ _).
  - destruct (takeIfPresent _ q) as [[b|] q1]; injection E as <- <- <-; [done|]. by case_bool_decide.
  - by injection E as <- <- <-.
  - injection E as <- <- <-. by destruct (_ <? _)%nat.
  - by injection E as <- <- <-.
Qed.

(** A move leaves the queue attended. *)
Lemma move_attended m now i w fm q ws w' fm' q' : sound m (mkSystem fm q ws) → linked fm → ws !! i = Some w →
  move now w fm q = Some (w', fm', q') → attended q ws → attended q' (<[i := w']> ws).
Proof.
  intros [Hq Hc Hb Hv] Hl Hi E Ha. cbn in *. pose proof (lookup_lt_Some _ _ _ Hi) as Hlt.
  assert (∀ c v, ¬ stale c v → v ≠ WParked → attended c (<[i := v]> ws)) as Hfresh.
  { intros c v Hs Hp. apply (attended_alive c _ i v); [by rewrite list_lookup_insert_eq|by split]. }
  assert (∀ v h, CanProcessBlock h fm = false → (∀ b, w ≠ WBusy b) → attended q (<[i := v]> ws)) as Hrefused.
  { intros v h Hr Hnb. destruct (refused_at_work m h fm Hc Hl Hr) as [h' Hh']. destruct (Hb h' Hh') as (j & b & Hj & _).
    apply (attended_alive q _ j (WBusy b)); [|by split; [intros []|]]. rewrite list_lookup_insert_ne; [done|]. intros ->. rewrite Hi in Hj. injection Hj as ->. by apply (Hnb b). }
  destruct w as [|h|h| |[|p copy] skips|p copy skips|[]| |b|b]; cbn [move] in E; try done.
  - destruct (pq_items q); [injection E as <- <- <-; apply Hfresh; [intros []|done]|].
    destruct (pq_items (sort_if_needed now q)); injection E as <- <- <-; apply Hfresh; try done; intros [].
  - injection E as <- <- <-. destruct (CanProcessBlock _ _); (apply Hfresh; [intros []|done]).
  - destruct (takeIfPresent h q) as [[b|] q1]; injection E as <- <- <-; (apply Hfresh; [intros []|done]).
  - destruct (pq_items q) as [|p l] eqn:Ei; injection E as <- <- <-; (apply Hfresh; [|done]); [intros []|]. cbn. intros Hs. apply (Hs p); [left|]. exists p. apply co_index; [done|]. rewrite Ei. split; [left|done].
  - injection E as <- <- <-. destruct (skip_grows skips q Hq) as (_ & Hg & Eit). eapply attended_move; [exact Hg|by rewrite Eit|done|exact Hi| |done|done].
    intros _. cbn. by intros p ?%elem_of_nil.
  - injection E as <- <- <-. destruct (CanProcessBlock (item_hash q p) fm) eqn:Er; [|by eapply Hrefused].
    eapply attended_move; [apply grows_refl|done|done|exact Hi|done|done|done].
  - destruct (takeIfPresent _ q) as [[b|] q1] eqn:Et; injection E as <- <- <-; [apply Hfresh; [intros []|done]|].
    destruct (take_keeps _ q _ _ Hq Et) as (_ & _ & Hn). destruct (Hn eq_refl) as [_ Hnq].
    case_bool_decide; [apply Hfresh; [intros []|done]|]. eapply attended_move; [apply grows_refl|done|done|exact Hi| |done|done].
    intros Hs p' Hp'. apply elem_of_cons in Hp' as [->|Hp']; [done|by apply Hs].
  - injection E as <- <- <-. eapply attended_move; [apply grows_refl|done|done|exact Hi|by intros []|intros _; right; by left|done].
  - injection E as <- <- <-. destruct (pq_items q) as [|p l] eqn:Ei; cbn [length Nat.ltb Nat.leb]; [|apply Hfresh; [intros []|done]].
    eapply attended_move; [apply grows_refl|done|done|exact Hi|by intros []|intros _; by left|done].
  - injection E as <- <- <-. eapply attended_move; [apply grows_refl|done|done|exact Hi|by intros []|intros _; right; by left|done].
  - destruct (StartProcessingBlock _ _) as [[] fm1]; injection E as <- <- <-; (apply Hfresh; [intros []|done]).
Qed.

(** ** Runs *)

Lemma signalled_if_spec b ws ws' : signalled_if b ws ws' → length ws' = length ws ∧
  (∀ i v, ws !! i = Some v → v ≠ WParked → ws' !! i = Some v) ∧ (∀ i v, ws' !! i = Some v → ws !! i = Some v ∨ v = WIdle).
Proof.
  assert (ws' = ws → length ws' = length ws ∧ (∀ i v, ws !! i = Some v → v ≠ WParked → ws' !! i = Some v) ∧ (∀ i v, ws' !! i = Some v → ws !! i = Some v ∨ v = WIdle)) as Hsame
    by (intros ->; eauto).
  destruct b; cbn; [|exact Hsame]. intros [(i & Hi & ->)|[_ ->]]; [|by apply Hsame].
  split; [by rewrite length_insert|]. split; intros j v Hj.
  - intros Hv. rewrite list_lookup_insert_ne; [done|]. intros ->. congruence.
  - apply list_lookup_insert_Some in Hj as [(_ & <- & _)|[_ Hj]]; auto.
Qed.

(** The workers after a signal still work on their blocks, and hold nothing new. *)
Lemma sound_workers m fm q ws fm' q' ws' : sound m (mkSystem fm q ws) → consistent q' → counted m fm' →
  (length (pq_heap q) <= length (pq_heap q'))%nat →
  (∀ h, h ∈ fm_processingBlocks fm' → h ∈ fm_processingBlocks fm ∧ ∀ i, busy_with ws i h → busy_with ws' i h) →
  (∀ v, v ∈ ws' → v ∈ ws ∨ held v = []) → sound m (mkSystem fm' q' ws').
Proof.
  intros [H1 H2 H3 H4] Hq Hc Hl Hb Hv. split; cbn in *; [done|done| |].
  - intros h Hh. destruct (Hb h Hh) as [Hin Hk]. destruct (H3 h Hin) as [i Hi]. exists i. by apply Hk.
  - intros v Hin p Hp. destruct (Hv v Hin) as [Hin'|E]; [|by rewrite E in Hp; apply elem_of_nil in Hp]. apply H4 in Hin'. specialize (Hin' p Hp). lia.
Qed.

Lemma step_sound m s e s' : sound m s → step hash_String s e s' → sound m s' ∧ length (sy_workers s') = length (sy_workers s).
Proof.
  intros Hs Hst. destruct Hst as [i now w w' fm q ws fm' q' Hi Hm|i b fm q ws Hi|i b fm q ws ws' Hi Hsig|b priority height now fm q ws ws' Hsig|
    b priority height now fm q ws ws' Hsig|block meta now fm q ws|block id now fm q ws|now order fm q ws|processed tip height now fm q ws];
    pose proof Hs as [H1 H2 H3 H4]; cbn in *.
  - split; [|by rewrite length_insert]. pose proof (list_elem_of_lookup_2 _ _ _ Hi) as Hin. pose proof (lookup_lt_Some _ _ _ Hi) as Hlt.
    destruct (move_queue now w fm q w' fm' q' H1 (H4 w Hin) Hm) as (Hq & Hv & Hl & Hh). destruct (move_manager now w fm q w' fm' q' Hm) as [Hnb Hf].
    assert (∀ j h, busy_with ws j h → busy_with (<[i:=w']> ws) j h) as Hkeep.
    { intros j h (b & Hj & Eb). exists b. split; [|done]. rewrite list_lookup_insert_ne; [done|]. intros ->. rewrite Hi in Hj. injection Hj as ->. by apply (Hnb b). }
    split; cbn.
    + done.
    + destruct Hf as [[-> _]|(b & _ & -> & _)]; [done|by apply Start_counted].
    + intros h Hh'. destruct Hf as [[-> _]|(b & -> & -> & ->)].
      * destruct (H3 h Hh') as [j Hj]. exists j. by apply Hkeep.
      * rewrite Start_spec in *. case_bool_decide as E; cbn [fst snd] in *.
        -- destruct (on_fork_same (pf_hash b) (set_ProcessingBlock (Some (pf_hash b))) (begin_processing (pf_hash b) fm)) as [(E1 & _) _].
           rewrite E1 in Hh'. cbn in Hh'. apply elem_of_union in Hh' as [->%elem_of_singleton|Hh'].
           ++ exists i, b. by rewrite list_lookup_insert_eq.
           ++ destruct (H3 h Hh') as [j Hj]. exists j. by apply Hkeep.
        -- destruct (H3 h Hh') as [j Hj]. exists j. by apply Hkeep.
    + intros v Hvin. apply list_elem_of_lookup_1 in Hvin as [j Hj]. apply list_lookup_insert_Some in Hj as [(_ & <- & _)|[_ Hj]]; [done|].
      intros p Hp. apply list_elem_of_lookup_2 in Hj. specialize (H4 v Hj p Hp). lia.
  - split; [|done]. destruct (Source_grows (pf_hash b) q H1) as (Hq & [Hl _ _] & _). eapply sound_workers; [exact Hs|done..|by auto|by auto].
  - destruct (signalled_if_spec _ _ _ Hsig) as (El & Hk & Hb). split; [|by rewrite length_insert].
    eapply sound_workers; [exact Hs|done|by apply leave_counted|done| |].
    + intros h Hh. destruct (on_fork_same (pf_hash b) (leave_fork (pf_hash b)) (drop_processing (pf_hash b) fm)) as [(E1 & _) _].
      rewrite E1, drop_processing_blocks in Hh. apply elem_of_difference in Hh as [Hh Hne]. split; [done|].
      intros j (b' & Hj & Eb). exists b'. split; [|done]. rewrite list_lookup_insert_ne; [by apply Hk|]. intros ->. rewrite Hi in Hj. injection Hj as ->. set_solver.
    + intros v Hv. apply list_elem_of_lookup_1 in Hv as [j Hj]. apply list_lookup_insert_Some in Hj as [(_ & <- & _)|[_ Hj]]; [by right|].
      apply Hb in Hj as [Hj| ->]; [left; by eapply list_elem_of_lookup_2|by right].
  - destruct (signalled_if_spec _ _ _ Hsig) as (El & Hk & Hb). split; [|done]. destruct (Add_grows b priority height now q H1) as [Hq [Hl _ _]].
    eapply sound_workers; [exact Hs|done|done|done| |].
    + intros h Hh. split; [done|]. intros j (b' & Hj & Eb). exists b'. split; [by apply Hk|done].
    + intros v Hv. apply list_elem_of_lookup_1 in Hv as [j Hj]. apply Hb in Hj as [Hj| ->]; [left; by eapply list_elem_of_lookup_2|by right].
  - destruct (signalled_if_spec _ _ _ Hsig) as (El & Hk & Hb). split; [|done]. destruct (Requeue_grows b priority height now q H1) as [Hq [Hl _ _]].
    eapply sound_workers; [exact Hs|done|done|done| |].
    + intros h Hh. split; [done|]. intros j (b' & Hj & Eb). exists b'. split; [by apply Hk|done].
    + intros v Hv. apply list_elem_of_lookup_1 in Hv as [j Hj]. apply Hb in Hj as [Hj| ->]; [left; by eapply list_elem_of_lookup_2|by right].
  - split; [|done]. pose proof (place_same hash_String block meta now fm) as Hsw. pose proof Hsw as (E1 & _).
    eapply sound_workers; [exact Hs|done|by eapply counted_same|done|rewrite E1; by auto|by auto].
  - split; [|done]. pose proof (AddBlockToFork_same block id now fm) as Hsw. pose proof Hsw as (E1 & _).
    eapply sound_workers; [exact Hs|done|by eapply counted_same|done|rewrite E1; by auto|by auto].
  - split; [|done]. eapply sound_workers; [exact Hs|done|by apply performCleanup_counted|done| |by auto].
    intros h Hh. split; [by apply (performCleanup_less now order)|done].
  - split; [|done]. pose proof (resolve_same processed tip height now fm) as Hsw. pose proof Hsw as (E1 & _).
    eapply sound_workers; [exact Hs|done|by eapply counted_same|done|rewrite E1; by auto|by auto].
Qed.

Lemma start_sound parallel tracked maturity : parallel < 2^31 →
  let s := start_system parallel tracked maturity in sound (Z.of_nat (numWorkers parallel)) s ∧ length (sy_workers s) = numWorkers parallel ∧ (0 < numWorkers parallel)%nat.
Proof.
  intros Hp. cbv zeta. assert ((0 < numWorkers parallel)%nat ∧ Z.of_nat (numWorkers parallel) = if parallel >? 0 then parallel else 4) as [Hn Ez].
  { unfold numWorkers. destruct (Z.gtb_spec parallel 0); split; lia. }
  split; [|split; [by cbn; rewrite length_replicate|done]]. split; cbn.
  - apply new_consistent.
  - split; cbn; [done|rewrite size_empty; lia|split; [done|]]. rewrite Ez. destruct (Z.gtb_spec parallel 0); lia.
  - intros h Hh. set_solver.
  - intros w Hw. apply elem_of_replicate in Hw as [-> _]. by intros p ?%elem_of_nil.
Qed.

Lemma reach_sound ok parallel tracked maturity s : parallel < 2^31 → reach hash_String ok (start_system parallel tracked maturity) s →
  sound (Z.of_nat (numWorkers parallel)) s ∧ length (sy_workers s) = numWorkers parallel.
Proof.
  intros Hp Hr. induction Hr as [|s e s' Hr [IH1 IH2] Hok Hst]; [by destruct (start_sound parallel tracked maturity Hp) as (? & ? & _)|].
  destruct (step_sound _ _ _ _ IH1 Hst) as [H1 H2]. split; [done|congruence].
Qed.

(** ** A refused start *)

Definition busy_hash (w : worker) : option Hash := match w with WBusy b => Some (pf_hash b) | _ => None end.

Lemma length_omap_le {A B} (f : A → option B) l : (length (omap f l) <= length l)%nat.
Proof. induction l as [|a l IH]; cbn; [lia|]. destruct (f a); cbn; lia. Qed.

Lemma size_list_to_set_le (l : list Hash) : (size (list_to_set l : gset Hash) <= length l)%nat.
Proof.
  induction l as [|a l IH]; cbn; [by rewrite size_empty|]. destruct (decide (a ∈ (list_to_set l : gset Hash))) as [Hin|Hn].
  - rewrite (subseteq_union_1_L {[a]}) by set_solver. lia.
  - rewrite size_union, size_singleton by set_solver. lia.
Qed.

Lemma idle_worker_leaves_room m fm q ws i w : sound m (mkSystem fm q ws) → ws !! i = Some w → busy_hash w = None →
  (size (fm_processingBlocks fm) < length ws)%nat.
Proof.
  intros [_ _ Hb _] Hi Hw. cbn in Hb. pose proof (lookup_lt_Some _ _ _ Hi) as Hlt.
  assert (fm_processingBlocks fm ⊆ list_to_set (omap busy_hash (delete i ws))) as Hsub.
  { intros h Hh. destruct (Hb h Hh) as (j & b & Hj & <-). apply elem_of_list_to_set, list_elem_of_omap. exists (WBusy b). split; [|done].
    destruct (Nat.lt_trichotomy j i) as [Hlt'|[->|Hgt]].
    - apply (list_elem_of_lookup_2 _ j). by rewrite list_lookup_delete_lt.
    - rewrite Hi in Hj. injection Hj as ->. done.
    - apply (list_elem_of_lookup_2 _ (j - 1)). rewrite list_lookup_delete_ge by lia. by replace (S (j - 1)) with j by lia. }
  apply subseteq_size in Hsub. pose proof (size_list_to_set_le (omap busy_hash (delete i ws))). pose proof (length_omap_le busy_hash (delete i ws)).
  rewrite length_delete in * by done. lia.
Qed.

(** C29: the worker loop drops a block it took when the fork manager refuses to start it;
    whatever the other workers, the announcements and the cleanup of branches do in
    between, that happens only while another worker is validating that same block, so no
    block that waited is lost that way. *)
Theorem refused_start_is_duplicate parallel tracked maturity s i b : parallel < 2^31 →
  reach hash_String (λ _ _, True) (start_system parallel tracked maturity) s →
  sy_workers s !! i = Some (WTaken b) → (StartProcessingBlock (pf_hash b) (sy_fm s)).1 = false →
  ∃ j, j ≠ i ∧ busy_with (sy_workers s) j (pf_hash b).
Proof.
  intros Hp Hr Hi Hs. destruct (reach_sound _ _ _ _ _ Hp Hr) as [Hso Hl]. destruct s as [fm q ws]. cbn in *.
  pose proof (idle_worker_leaves_room _ _ _ _ _ _ Hso Hi eq_refl) as Hroom. rewrite Start_spec in Hs. destruct Hso as [_ [_ _ [Hmax _]] Hb _]. cbn in *.
  rewrite Hmax in Hs. case_bool_decide as E; [done|].
  destruct (decide (pf_hash b ∈ fm_processingBlocks fm)) as [Hin|Hn]; [|exfalso; apply E; split; [done|lia]].
  destruct (Hb _ Hin) as (j & b' & Hj & Eb). exists j. split; [intros ->; congruence|]. by exists b'.
Qed.

(** ** One worker per block *)

(** The cleanup removes no branch that has a block at work. *)
Definition spares_work (s : System) (e : event) : Prop :=
  match e with ECleanup now order => fm_processingBlocks (performCleanup now order (sy_fm s)) = fm_processingBlocks (sy_fm s) | _ => True end.

Record exclusive (s : System) : Prop := mkExclusive {
  ex_one i j h : busy_with (sy_workers s) i h → busy_with (sy_workers s) j h → i = j;
  ex_marked i h : busy_with (sy_workers s) i h → h ∈ fm_processingBlocks (sy_fm s);
}.

Lemma exclusive_workers fm fm' q q' ws ws' : exclusive (mkSystem fm q ws) → fm_processingBlocks fm' = fm_processingBlocks fm →
  (∀ i h, busy_with ws' i h → busy_with ws i h) → exclusive (mkSystem fm' q' ws').
Proof. intros [H1 H2] E Hb. split; cbn in *; [eauto|]. rewrite E. eauto. Qed.

Lemma step_exclusive s e s' : spares_work s e → exclusive s → step hash_String s e s' → exclusive s'.
Proof.
  intros Hok Hs Hst. destruct Hst as [i now w w' fm q ws fm' q' Hi Hm|i b fm q ws Hi|i b fm q ws ws' Hi Hsig|b priority height now fm q ws ws' Hsig|
    b priority height now fm q ws ws' Hsig|block meta now fm q ws|block id now fm q ws|now order fm q ws|processed tip height now fm q ws]; pose proof Hs as [H1 H2]; cbn in *.
  - destruct (move_manager now w fm q w' fm' q' Hm) as [Hnb Hf].
    assert (∀ v j h, (∀ b, v ≠ WBusy b) → busy_with (<[i:=v]> ws) j h → busy_with ws j h) as Hkeep.
    { intros v j h Hv (b & Hj & Eb). exists b. split; [|done]. apply list_lookup_insert_Some in Hj as [(_ & -> & _)|[_ Hj]]; [by destruct (Hv b)|done]. }
    destruct Hf as [[-> Hw]|(b & -> & -> & ->)]; [eapply exclusive_workers; [exact Hs|done|intros j h Hj; by apply (Hkeep w')]|].
    rewrite Start_spec. case_bool_decide as E; cbn [fst snd]; [|eapply exclusive_workers; [exact Hs|done|intros j h Hj; by apply (Hkeep WIdle)]].
    destruct (on_fork_same (pf_hash b) (set_ProcessingBlock (Some (pf_hash b))) (begin_processing (pf_hash b) fm)) as [(E1 & _) _].
    assert (∀ j h, busy_with (<[i:=WBusy b]> ws) j h → j = i ∧ h = pf_hash b ∨ j ≠ i ∧ busy_with ws j h) as Hcase.
    { intros j h (b' & Hj & Eb). apply list_lookup_insert_Some in Hj as [(-> & E2 & _)|[Hne Hj]]; [left; split; [done|congruence]|right; split; [done|by exists b']]. }
    split; cbn; rewrite ?E1; cbn.
    + intros j k h [[-> ->]|[Hj Hbj]]%Hcase [[-> Eh]|[Hk Hbk]]%Hcase; [done|..].
      * exfalso. apply E. by eapply H2.
      * exfalso. apply E. rewrite <- Eh. by eapply H2.
      * by eapply H1.
    + intros j h [[-> ->]|[Hj Hbj]]%Hcase; [set_solver|]. apply H2 in Hbj. set_solver.
  - by eapply exclusive_workers.
  - destruct (signalled_if_spec _ _ _ Hsig) as (El & Hk & Hb).
    assert (∀ j h, busy_with (<[i:=WIdle]> ws') j h → j ≠ i ∧ busy_with ws j h) as Hcase.
    { intros j h (b' & Hj & Eb). apply list_lookup_insert_Some in Hj as [(_ & ? & _)|[Hne Hj]]; [done|]. split; [done|]. exists b'. split; [|done]. by apply Hb in Hj as [Hj|Hj]. }
    destruct (on_fork_same (pf_hash b) (leave_fork (pf_hash b)) (drop_processing (pf_hash b) fm)) as [(E1 & _) _].
    split; cbn; rewrite ?E1, ?drop_processing_blocks.
    + intros j k h [_ Hj]%Hcase [_ Hk']%Hcase. by eapply H1.
    + intros j h [Hne Hj]%Hcase. apply elem_of_difference. split; [by eapply H2|]. intros ->%elem_of_singleton. apply Hne. eapply H1; [exact Hj|by exists b].
  - destruct (signalled_if_spec _ _ _ Hsig) as (_ & _ & Hb). eapply exclusive_workers; [exact Hs|done|]. intros j h (b' & Hj & Eb). exists b'. split; [|done]. by apply Hb in Hj as [Hj|Hj].
  - destruct (signalled_if_spec _ _ _ Hsig) as (_ & _ & Hb). eapply exclusive_workers; [exact Hs|done|]. intros j h (b' & Hj & Eb). exists b'. split; [|done]. by apply Hb in Hj as [Hj|Hj].
  - eapply exclusive_workers; [exact Hs|apply place_same|done].
  - eapply exclusive_workers; [exact Hs|apply AddBlockToFork_same|done].
  - by eapply exclusive_workers.
  - eapply exclusive_workers; [exact Hs|apply resolve_same|done].
Qed.

(** C30: in every run in which the cleanup removes no branch with a block at work, two
    workers never validate the same block at the same time, whatever the interleaving, and
    the fork manager's set is exactly the blocks the workers are validating.  The cleanup may
    remove such a branch, and then two do: [cleanup_ignores_the_worker]. *)
Theorem one_worker_per_block parallel tracked maturity s : parallel < 2^31 →
  reach hash_String spares_work (start_system parallel tracked maturity) s →
  (∀ i j h, busy_with (sy_workers s) i h → busy_with (sy_workers s) j h → i = j) ∧
  (∀ h, h ∈ fm_processingBlocks (sy_fm s) ↔ ∃ i, busy_with (sy_workers s) i h).
Proof.
  intros Hp Hr. destruct (reach_sound _ _ _ _ _ Hp Hr) as [[_ _ Hb _] _].
  assert (exclusive s) as [H1 H2].
  { clear Hb. induction Hr as [|s e s' Hr IH Hok Hst]; [|by eapply step_exclusive]. split; cbn.
    - intros i j h (b & Hi & _). apply lookup_replicate in Hi as [? _]. done.
    - intros i h (b & Hi & _). apply lookup_replicate in Hi as [? _]. done. }
  split; [done|]. intros h. split; [apply Hb|]. intros [i Hi]. by eapply H2.
Qed.

(** ** Sleep *)

(** No branch that works on a block loses its link to it. *)
Definition settled (s : System) (e : event) : Prop :=
  match e with
  | EPlace block _ _ => unworked (bk_hash block) (sy_fm s)
  | EAddToFork block id _ => unmoved id (bk_hash block) (sy_fm s)
  | _ => True
  end.

Lemma step_linked s e s' : settled s e → linked (sy_fm s) → step hash_String s e s' → linked (sy_fm s').
Proof.
  intros Hok Hl Hst. destruct Hst as [i now w w' fm q ws fm' q' Hi Hm| | | | | | | |]; cbn in *; try done.
  - destruct (move_manager now w fm q w' fm' q' Hm) as [_ [[-> _]|(b & _ & -> & _)]]; [done|by apply Start_linked].
  - by apply Finish_linked.
  - by apply place_linked.
  - by apply AddBlockToFork_linked.
  - by apply performCleanup_linked.
  - by apply resolve_linked.
Qed.

Lemma step_attended m s e s' : sound m s → linked (sy_fm s) → attended (sy_pq s) (sy_workers s) → step hash_String s e s' → attended (sy_pq s') (sy_workers s').
Proof.
  intros Hs Hl Ha Hst. destruct Hst as [i now w w' fm q ws fm' q' Hi Hm|i b fm q ws Hi|i b fm q ws ws' Hi Hsig|b priority height now fm q ws ws' Hsig|
    b priority height now fm q ws ws' Hsig| | | |]; pose proof Hs as [H1 H2 H3 H4]; cbn in *; try done.
  - by eapply move_attended.
  - destruct (Source_grows (pf_hash b) q H1) as (_ & Hg & Eit). eapply attended_grows; [exact Hg|by rewrite Eit|done|done].
  - destruct (signalled_if_spec _ _ _ Hsig) as (El & _ & _). apply (attended_alive q _ i WIdle); [|split; [intros []|done]].
    rewrite list_lookup_insert_eq; [done|]. rewrite El. by eapply lookup_lt_Some.
  - destruct (Add_grows b priority height now q H1) as [_ Hg]. revert Hsig Hg. unfold Add. destruct (pq_hashIndex q !! _) as [p|] eqn:E; cbn [fst snd signalled_if].
    + intros -> Hg. eapply attended_grows; [exact Hg|done|done|done].
    + intros Hsig Hg. by eapply attended_signal.
  - destruct (Requeue_grows b priority height now q H1) as [_ Hg]. revert Hsig Hg. unfold RequeueForRetry.
    destruct (pq_hashIndex q !! _) as [p|] eqn:E; cbn [fst snd signalled_if]; intros Hsig Hg; by eapply attended_signal.
Qed.

(** C28: in every run that never takes the link to its branch from a block that branch works
    on, no wakeup is lost: although the test that sends a worker to sleep and the signals for
    new blocks and freed slots are not under one lock, a queue that is not empty has a worker
    that is neither asleep nor about to sleep without having looked at it: one that will
    probe the queue afresh, holds a block, or still has a waiting block ahead in its scan.
    A block announced anew while it is at work may lose its link, and then all workers may
    sleep on a waiting block: [settled_is_needed]. *)
Theorem no_lost_wakeup parallel tracked maturity s : parallel < 2^31 →
  reach hash_String settled (start_system parallel tracked maturity) s →
  pq_items (sy_pq s) ≠ [] → ∃ i w, sy_workers s !! i = Some w ∧ alive (sy_pq s) w.
Proof.
  intros Hp Hr. destruct (start_sound parallel tracked maturity Hp) as (_ & _ & Hn).
  assert (linked (sy_fm s) ∧ attended (sy_pq s) (sy_workers s)) as [_ [_ H]]; [|exact H].
  induction Hr as [|s e s' Hr [IH1 IH2] Hok Hst].
  - split; [intros id h Hw; unfold works in Hw; cbn in Hw; by rewrite fmap_empty, lookup_empty in Hw|].
    apply (attended_alive _ _ 0 WIdle); [cbn; by apply lookup_replicate_2|split; [intros []|done]].
  - split; [by eapply step_linked|]. assert (reach hash_String (λ _ _, True) (start_system parallel tracked maturity) s) as Hr'
      by (clear -Hr; induction Hr; econstructor; eauto). destruct (reach_sound _ _ _ _ _ Hp Hr') as [Hso _]. by eapply step_attended.
Qed.

(** ** Runs that can be computed *)

Definition is_parked (w : worker) : bool := match w with WParked => true | _ => false end.
Definition wake (ws : list worker) : list worker :=
  match list_find (λ w, is_parked w = true) ws with Some (i, _) => <[i := WIdle]> ws | None => ws end.

Lemma wake_signalled ws : signalled ws (wake ws).
Proof.
  unfold wake. destruct (list_find _ ws) as [[i w]|] eqn:E.
  - apply list_find_Some in E as (Hi & Hw & _). left. exists i. split; [|done]. by destruct w.
  - right. apply list_find_None in E. rewrite Forall_forall in E. split; [|done]. intros Hin. by apply (E _ Hin).
Qed.

(** The step of an event, a signal waking the first worker that waits. *)
Definition exec (s : System) (e : event) : option System :=
  let '(mkSystem fm q ws) := s in
  match e with
  | EMove i now =>
      match ws !! i with
      | Some w => match move now w fm q with Some (w', fm', q') => Some (mkSystem fm' q' (<[i := w']> ws)) | None => None end
      | None => None
      end
  | ESource i => match ws !! i with Some (WBusy b) => Some (mkSystem fm (GetAlternativeSource (pf_hash b) q).2 ws) | _ => None end
  | EFinish i =>
      match ws !! i with
      | Some (WBusy b) => let '(sig, fm') := FinishProcessingBlock (pf_hash b) fm in
                          Some (mkSystem fm' q (<[i := WIdle]> (if sig then wake ws else ws)))
      | _ => None
      end
  | EAdd b priority height now => let '(sig, q') := Add b priority height now q in Some (mkSystem fm q' (if sig then wake ws else ws))
  | ERequeue b priority height now => let '(sig, q') := RequeueForRetry b priority height now q in Some (mkSystem fm q' (if sig then wake ws else ws))
  | EPlace block meta now => Some (mkSystem (place_block hash_String block meta now fm).2 q ws)
  | EAddToFork block id now => Some (mkSystem (AddBlockToFork block id now fm).2 q ws)
  | ECleanup now order => Some (mkSystem (performCleanup now order fm) q ws)
  | EResolve processed tip height now => Some (mkSystem (CheckForkResolution processed tip height now fm).2 q ws)
  end.

Lemma wake_if (b : bool) ws : signalled_if b ws (if b then wake ws else ws).
Proof. destruct b; [apply wake_signalled|done]. Qed.

Lemma exec_step s e s' : exec s e = Some s' → step hash_String s e s'.
Proof.
  destruct s as [fm q ws]. destruct e as [i now|i|i|b priority height now|b priority height now| | | |]; cbn; intros E.
  - destruct (ws !! i) as [w|] eqn:Hi; [|done]. destruct (move now w fm q) as [[[w' fm'] q']|] eqn:Hm; [|done]. injection E as <-. by econstructor.
  - destruct (ws !! i) as [[]|] eqn:Hi; try done. injection E as <-. by constructor.
  - destruct (ws !! i) as [[]|] eqn:Hi; try done. injection E as <-.
    apply (step_finish hash_String i b fm q ws (if fm_priorityQueue fm then wake ws else ws) Hi). cbn. apply wake_if.
  - pose proof (step_add hash_String b priority height now fm q ws _ (wake_if _ ws)) as H. destruct (Add _ _ _ _ _). by injection E as <-.
  - pose proof (step_requeue hash_String b priority height now fm q ws _ (wake_if _ ws)) as H. destruct (RequeueForRetry _ _ _ _ _). by injection E as <-.
  - injection E as <-. constructor.
  - injection E as <-. constructor.
  - injection E as <-. constructor.
  - injection E as <-. constructor.
Qed.

Fixpoint exec_all (s : System) (es : list event) : option System :=
  match es with [] => Some s | e :: es => match exec s e with Some s => exec_all s es | None => None end end.

Lemma exec_reach (ok : System → event → Prop) es s0 s s' : (∀ t e, e ∈ es → ok t e) → reach hash_String ok s0 s → exec_all s es = Some s' → reach hash_String ok s0 s'.
Proof.
  revert s. induction es as [|e es IH]; intros s Hok Hr E; cbn in E; [by injection E as <-|]. destruct (exec s e) as [s1|] eqn:E1; [|done].
  apply (IH s1); [intros t e' He'; apply Hok; by right| |done]. eapply reach_step; [done|apply Hok; left|by apply exec_step].
Qed.

End Workers.

(** ** Examples *)

#[local] Existing Instances ex_sort ex_sort_spec.

Definition ex_start : System := start_system 2 0 100.
Definition ex_run (es : list event) : System := default ex_start (exec_all ex_name ex_start es).

(** A worker's moves from idle to a block, or back to sleep. *)
Definition moves (i n : nat) : list event := replicate n (EMove i 10).
Definition announce (n : Z) : event := EAdd (ex_found n "a") PriorityNearFork 99 0.

(** A block is announced again while worker 0 validates it: worker 1 takes it. *)
Definition ex_twice : list event := [announce 1] ++ moves 0 3 ++ [announce 1] ++ moves 1 3 ++ moves 0 1.

Lemma refused_start_is_duplicate_witness : ∃ j, j ≠ 1%nat ∧ busy_with (sy_workers (ex_run ex_twice)) j (hash_of_Z 1).
Proof.
  apply (refused_start_is_duplicate ex_name 2 0 100 (ex_run ex_twice) 1 (ex_found 1 "a")); [lia| |vm_compute; reflexivity|vm_compute; reflexivity].
  apply (exec_reach ex_name _ ex_twice _ ex_start); [done|constructor|vm_compute; reflexivity].
Defined.

Lemma one_worker_per_block_witness : let s := ex_run (ex_twice ++ moves 1 1 ++ [announce 2] ++ moves 1 4) in
  (∀ h, h ∈ fm_processingBlocks (sy_fm s) ↔ ∃ i, busy_with (sy_workers s) i h) ∧ bool_decide (fm_processingBlocks (sy_fm s) = {[hash_of_Z 1; hash_of_Z 2]}) = true.
Proof.
  cbv zeta. split; [|vm_compute; reflexivity].
  apply (one_worker_per_block ex_name 2 0 100); [lia|].
  apply (exec_reach ex_name _ (ex_twice ++ moves 1 1 ++ [announce 2] ++ moves 1 4) _ ex_start); [|constructor|vm_compute; reflexivity].
  intros t e He. repeat (apply elem_of_cons in He as [->|He]; [exact I|]). by apply elem_of_nil in He.
Defined.

(** Both workers sleep; a block arrives and wakes one. *)
Definition ex_asleep : list event := moves 0 2 ++ moves 1 2 ++ [announce 1].

Lemma no_lost_wakeup_witness : pq_items (sy_pq (ex_run ex_asleep)) = [0%nat] ∧
  (∃ i w, sy_workers (ex_run ex_asleep) !! i = Some w ∧ alive (sy_pq (ex_run ex_asleep)) w).
Proof.
  assert (pq_items (sy_pq (ex_run ex_asleep)) = [0%nat]) as Hq by (vm_compute; reflexivity). split; [exact Hq|].
  apply (no_lost_wakeup ex_name 2 0 100); [lia| |rewrite Hq; discriminate].
  apply (exec_reach ex_name _ ex_asleep _ ex_start); [|constructor|vm_compute; reflexivity].
  intros t e He. repeat (apply elem_of_cons in He as [->|He]; [exact I|]). by apply elem_of_nil in He.
Defined.

(** ** What the workers do not promise *)

(** A fork with two blocks: both are probed before either starts, and both are validated
    at once, though a branch is meant to have one block at work. *)
Definition ex_block (n p : Z) : FoundBlock := mkFound (hash_of_Z n) (hash_of_Z p) 99.
Definition ex_fork : string := generateForkID ex_name (hash_of_Z 5) 98 0.
Definition ex_race : list event :=
  [EPlace (ex_block 1 5) (Some 98) 0; EAddToFork (ex_block 1 5) ex_fork 0; announce 1;
   EAddToFork (ex_block 2 1) ex_fork 0; announce 2] ++ moves 0 3 ++ moves 1 3 ++ moves 0 1 ++ moves 1 1.

Lemma two_blocks_of_one_fork : let s := ex_run ex_race in reach ex_name (λ _ _, True) ex_start s ∧
  busy_with (sy_workers s) 0 (hash_of_Z 1) ∧ busy_with (sy_workers s) 1 (hash_of_Z 2) ∧
  fm_blockToFork (sy_fm s) !! hash_of_Z 1 = Some ex_fork ∧ fm_blockToFork (sy_fm s) !! hash_of_Z 2 = Some ex_fork.
Proof.
  cbv zeta. split; [apply (exec_reach ex_name _ ex_race _ ex_start); [done|constructor|vm_compute; reflexivity]|].
  split; [exists (ex_found 1 "a"); split; vm_compute; reflexivity|]. split; [exists (ex_found 2 "a"); split; vm_compute; reflexivity|]. split; vm_compute; reflexivity.
Qed.

(** The cleanup of old branches looks at [Workers], which the workers' own way in leaves
    at zero: a branch whose block has been at work for more than an hour is removed, the
    block is no longer marked, and another worker takes it when it is announced again. *)
Definition ex_long : list event :=
  [EPlace (ex_block 1 5) (Some 98) 0; EAddToFork (ex_block 1 5) ex_fork 0; announce 1] ++ moves 0 4 ++
  [ECleanup (2 * Hour) [ex_fork]; announce 1] ++ moves 1 4.

Lemma cleanup_ignores_the_worker : let s := ex_run ex_long in reach ex_name (λ _ _, True) ex_start s ∧
  busy_with (sy_workers s) 0 (hash_of_Z 1) ∧ busy_with (sy_workers s) 1 (hash_of_Z 1).
Proof.
  cbv zeta. split; [apply (exec_reach ex_name _ ex_long _ ex_start); [done|constructor|vm_compute; reflexivity]|].
  split; exists (ex_found 1 "a"); split; vm_compute; reflexivity.
Qed.

(** [DetermineForkID] moves a block that is announced anew to a branch of its own even while
    it is at work, and a branch it leaves behind stays shut for good: block 1 is the known
    parent of block 2 and at work; placed anew as the root of a branch of its own, it never
    frees the one it opened, and both workers sleep on block 2. *)
Definition ex_wedge : list event :=
  [EPlace (ex_block 2 1) (Some 98) 0; announce 1] ++ moves 0 4 ++
  [EPlace (ex_block 1 5) (Some 97) 0; EFinish 0; announce 2] ++ moves 0 6 ++ moves 1 6.

Lemma settled_is_needed : let s := ex_run ex_wedge in reach ex_name (λ _ _, True) ex_start s ∧
  pq_items (sy_pq s) = [1%nat] ∧ sy_workers s = [WParked; WParked].
Proof.
  cbv zeta. split; [apply (exec_reach ex_name _ ex_wedge _ ex_start); [done|constructor|vm_compute; reflexivity]|]. split; vm_compute; reflexivity.
Qed.

(** In a run, the other source of a block is gone once a worker works on the block. *)
Definition ex_sources : list event := [announce 1; EAdd (ex_found 1 "b") PriorityNearFork 99 1] ++ moves 0 4.

Lemma other_source_is_gone : let s := ex_run ex_sources in busy_with (sy_workers s) 0 (hash_of_Z 1) ∧
  pb_additionalSources (item (sy_pq s) 0) = [ex_found 1 "b"] ∧ GetAlternativeSource (hash_of_Z 1) (sy_pq s) = (None, sy_pq s).
Proof. cbv zeta. split; [exists (ex_found 1 "a"); split; vm_compute; reflexivity|]. split; vm_compute; reflexivity. Qed.
