(* ===== verification/UtxoFile.v ===== *)
(** * The files of the UTXO persister

    services/utxopersister/UTXO.go, UTXODeletion.go, frame.go and Footers.go: how unspent
    outputs and deletions are written and read back, record by record or as frames that
    are cut first and decoded later.

    A reader is the bytes that are left.  What the code does with an error depends on
    [errors.Is(err, io.EOF)], which for an error of the repository's own type compares the
    rendered text: a storage error that wraps an end of the file is one too. *)

From S2P Require Import Prelude Utxo.

(** ** Reading *)

(** [RStorage e] is a storage error that wraps [e], [RBoundary b] the footer's bytes. *)
Inductive read_error :=
  | REOF
  | RUnexpectedEOF
  | RBoundary (footer : list byte)
  | RStorage (cause : read_error)
  | RProcessing.

(** [errors.Is(err, io.EOF)]: the sentinel itself, [ErrRecordBoundary]'s own [Is], or a
    text with "EOF" in it, which the text of a wrapped error brings along. *)
Fixpoint mentions_EOF (e : read_error) : bool :=
  match e with
  | REOF | RUnexpectedEOF => true
  | RBoundary _ | RProcessing => false
  | RStorage cause => mentions_EOF cause
  end.
Definition is_EOF (e : read_error) : bool :=
  match e with REOF | RBoundary _ => true | RUnexpectedEOF | RProcessing => false | RStorage cause => mentions_EOF cause end.

(** What a read answers, and what is left to read. *)
Definition read (A : Type) : Type := list byte → (read_error + A) * list byte.

Definition ret {A} (a : A) : read A := λ r, (inr a, r).
Definition raise {A} (e : read_error) : read A := λ r, (inl e, r).
Definition andThen {A B} (m : read A) (f : A → read B) : read B := λ r,
  match m r with (inl e, r) => (inl e, r) | (inr a, r) => f a r end.
Definition wrapE {A} (f : read_error → read_error) (m : read A) : read A := λ r,
  match m r with (inl e, r) => (inl (f e), r) | (inr a, r) => (inr a, r) end.

Declare Scope read_scope.
Notation "'let^' x ':=' m 'in' k" := (andThen m (λ x, k)) (at level 200, x pattern, m at level 100, k at level 200) : read_scope.
Open Scope read_scope.

(** [io.ReadFull(r, make([]byte, n))]. *)
Definition ReadFull (n : nat) : read (list byte) := λ r,
  if (n <=? length r)%nat then (inr (take n r), drop n r)
  else (inl (match r with [] => REOF | _ => RUnexpectedEOF end), []).

(** [io.CopyN(dst, r, n)]. *)
Definition CopyN (n : nat) : read (list byte) := λ r,
  if (n <=? length r)%nat then (inr (take n r), drop n r) else (inl REOF, []).

Definition hash_of_bytes (b : list byte) : Hash := hash_of_Z (le_decode b).

(** ** Data *)

Record UTXO := mkUTXO {
  u_Index : Z;
  u_Value : Z;
  u_Script : list byte;
}.

Record UTXOWrapper := mkWrapper {
  w_TxID : Hash;
  w_Height : Z;
  w_Coinbase : bool;
  w_UTXOs : list UTXO;
}.

(** ** Writing *)

(** A script longer than an int32 gives no bytes at all. *)
Definition UTXO_Bytes (u : UTXO) : list byte :=
  if 2^31 - 1 <? Z.of_nat (length (u_Script u)) then []
  else le_encode 4 (u_Index u) ++ le_encode 8 (u_Value u) ++ le_encode 4 (Z.of_nat (length (u_Script u))) ++ u_Script u.

Definition encodedHeight (uw : UTXOWrapper) : Z := Z.lor (u32 (Z.shiftl (w_Height uw) 1)) (if w_Coinbase uw then 1 else 0).

Definition UTXOWrapper_Bytes (uw : UTXOWrapper) : list byte :=
  hash_bytes (w_TxID uw) ++ le_encode 4 (encodedHeight uw) ++ le_encode 4 (Z.of_nat (length (w_UTXOs uw))) ++ concat (UTXO_Bytes <$> w_UTXOs uw).

Definition UTXODeletion : Type := outpoint.
Definition DeletionBytes (d : UTXODeletion) : list byte := hash_bytes d.1 ++ le_encode 4 d.2.

(** ** Reading records *)

Definition FooterSize : nat := 16.
Definition maxExactScriptAlloc : Z := 64 * 1024.

Definition NewUTXODeletionFromReader : read UTXODeletion :=
  let^ b := ReadFull 32 in
  let^ i := ReadFull 4 in
  ret (hash_of_bytes b, le_decode i).

Definition NewUTXOFromReader : read UTXO :=
  let^ b16 := ReadFull 16 in
  let index := le_decode (slice 0 4 b16) in
  let value := le_decode (slice 4 12 b16) in
  let l := le_decode (slice 12 16 b16) in
  if l <=? maxExactScriptAlloc then
    let^ script := wrapE RStorage (ReadFull (Z.to_nat l)) in
    ret (mkUTXO index value script)
  else
    let^ script := wrapE RStorage (CopyN (Z.to_nat l)) in
    ret (mkUTXO index value script).

Definition NewUTXOValueFromReader : read Z :=
  let^ b16 := ReadFull 16 in
  let^ _ := wrapE RStorage (CopyN (Z.to_nat (le_decode (slice 12 16 b16)))) in
  ret (le_decode (slice 4 12 b16)).

Fixpoint repeat_read {A} (n : nat) (m : read A) : read (list A) :=
  match n with
  | O => ret []
  | S n => let^ a := m in let^ l := repeat_read n m in ret (a :: l)
  end.

(** The txid: a read cut short at the size of the footer may have reached it. *)
Definition read_txid : read (list byte) := λ r,
  match ReadFull 32 r with
  | (inr b, rest) => (inr b, rest)
  | (inl REOF, rest) => (inl REOF, rest)
  | (inl e, rest) => (inl (if (length r =? FooterSize)%nat then RBoundary r else RStorage e), rest)
  end.

(** The record's header: the txid, the encoded height and the number of outputs. *)
Definition read_header : read (Hash * Z * Z) :=
  let^ txid := read_txid in
  let^ b8 := wrapE RStorage (ReadFull 8) in
  ret (hash_of_bytes txid, le_decode (slice 0 4 b8), le_decode (slice 4 8 b8)).

(** [FromReader]; with [readUtxos] off only the total value and the count are kept. *)
Definition FromReader : read UTXOWrapper :=
  let^ (txid, encodedHeight, numUTXOs) := read_header in
  let^ utxos := repeat_read (Z.to_nat numUTXOs) NewUTXOFromReader in
  ret (mkWrapper txid (Z.shiftr encodedHeight 1) (Z.land encodedHeight 1 =? 1) utxos).

Definition FromReader_totals : read (Hash * Z * bool * Z * Z) :=
  let^ (txid, encodedHeight, numUTXOs) := read_header in
  let^ values := repeat_read (Z.to_nat numUTXOs) NewUTXOValueFromReader in
  ret (txid, Z.shiftr encodedHeight 1, Z.land encodedHeight 1 =? 1, foldl (λ t v, u64 (t + v)) 0 values, Z.of_nat (length values)).

Definition NewUTXOWrapperFromReader : read UTXOWrapper := FromReader.
Definition NewUTXOWrapperFromBytes (b : list byte) : read_error + UTXOWrapper := (NewUTXOWrapperFromReader b).1.

(** ** Frames *)

Definition wrapperHeaderSize : nat := 32 + 4 + 4.
Definition utxoFixedSize : nat := 4 + 8 + 4.

(** The script in chunks of [maxExactScriptAlloc]; the fuel is the number of chunks. *)
Fixpoint appendScript_chunks (fuel : nat) (frame : list byte) (remaining : Z) : read (list byte) :=
  match fuel with
  | O => ret frame
  | S fuel =>
      if 0 <? remaining then
        let chunk := Z.min remaining maxExactScriptAlloc in
        let^ b := wrapE RStorage (ReadFull (Z.to_nat chunk)) in
        appendScript_chunks fuel (frame ++ b) (remaining - chunk)
      else ret frame
  end.
Definition appendScript (frame : list byte) (l : Z) : read (list byte) :=
  appendScript_chunks (Z.to_nat (l / maxExactScriptAlloc) + 1) frame l.

Fixpoint frame_utxos (n : nat) (frame : list byte) (maxIndex : Z) : read (list byte * Z) :=
  match n with
  | O => ret (frame, maxIndex)
  | S n =>
      let^ b := wrapE RStorage (ReadFull utxoFixedSize) in
      let maxIndex := Z.max maxIndex (le_decode (slice 0 4 b)) in
      let^ frame := appendScript (frame ++ b) (le_decode (slice 12 16 b)) in
      frame_utxos n frame maxIndex
  end.

(** The record's bytes and the highest output index in it. *)
Definition ReadUTXOWrapperFrame : read (list byte * Z) :=
  let^ txid := read_txid in
  let^ b8 := wrapE RStorage (ReadFull 8) in
  frame_utxos (Z.to_nat (le_decode (slice 4 8 b8))) (txid ++ b8) 0.

Definition FrameUTXOCount (frame : list byte) : Z := le_decode (slice 36 40 frame).

(** The outputs of a frame from [off] on, and where they end. *)
Fixpoint decode_utxos (n : nat) (frame : list byte) (off : nat) : option (list UTXO * nat) :=
  match n with
  | O => Some ([], off)
  | S n =>
      if (length frame - off <? utxoFixedSize)%nat then None
      else
        let index := le_decode (slice off (off + 4) frame) in
        let value := le_decode (slice (off + 4) (off + 12) frame) in
        let l := le_decode (slice (off + 12) (off + 16) frame) in
        let off := (off + utxoFixedSize)%nat in
        if Z.of_nat (length frame - off) <? l then None
        else
          let end_ := (off + Z.to_nat l)%nat in
          let script := slice off end_ frame in
          match decode_utxos n frame end_ with
          | Some (us, off) => Some (mkUTXO index value script :: us, off)
          | None => None
          end
  end.

Definition DecodeUTXOWrapperFrame (frame : list byte) : read_error + UTXOWrapper :=
  if (length frame <? wrapperHeaderSize)%nat then inl RProcessing
  else
    let encodedHeight := le_decode (slice 32 36 frame) in
    let numUTXOs := le_decode (slice 36 40 frame) in
    if Z.of_nat ((length frame - wrapperHeaderSize) / utxoFixedSize) <? numUTXOs then inl RProcessing
    else
      match decode_utxos (Z.to_nat numUTXOs) frame wrapperHeaderSize with
      | None => inl RProcessing
      | Some (us, off) =>
          if (off =? length frame)%nat
          then inr (mkWrapper (hash_of_bytes (slice 0 32 frame)) (Z.shiftr encodedHeight 1) (Z.land encodedHeight 1 =? 1) us)
          else inl RProcessing
      end.

Definition DecodeFooter (b : list byte) : read_error + Z * Z :=
  if (length b =? FooterSize)%nat then inr (le_decode (slice 0 8 b), le_decode (slice 8 16 b)) else inl RProcessing.
