(* ===== verification/UtxoFileTheorems.v ===== *)
(** * What the record formats of the UTXO persister promise

    A record read back is the record written; cutting a stream into frames and decoding
    them is reading it; and the short form of reading agrees with the long one. *)

From S2P Require Import Prelude Utxo UtxoFile.

#[local] Open Scope read_scope.

(** ** Reads *)

Lemma ReadFull_app n b r : length b = n → ReadFull n (b ++ r) = (inr b, r).
Proof. intros <-. unfold ReadFull. rewrite length_app, (proj2 (Nat.leb_le _ _)) by lia. by rewrite take_app_length, drop_app_length. Qed.

Lemma ReadFull_cases n r : (∃ b r', r = b ++ r' ∧ length b = n ∧ ReadFull n r = (inr b, r')) ∨
  ((length r < n)%nat ∧ ReadFull n r = (inl (match r with [] => REOF | _ => RUnexpectedEOF end), [])).
Proof.
  unfold ReadFull. destruct (Nat.leb_spec n (length r)) as [H|H]; [left|by right].
  exists (take n r), (drop n r). rewrite take_drop, length_take. split; [done|]. split; [lia|done].
Qed.

Lemma CopyN_cases n r : (∃ b r', r = b ++ r' ∧ length b = n ∧ CopyN n r = (inr b, r')) ∨ ((length r < n)%nat ∧ CopyN n r = (inl REOF, [])).
Proof.
  unfold CopyN. destruct (Nat.leb_spec n (length r)) as [H|H]; [left|by right].
  exists (take n r), (drop n r). rewrite take_drop, length_take. split; [done|]. split; [lia|done].
Qed.

Lemma slice_app_mid {A} (a b c : list A) i j : length a = i → j = (i + length b)%nat → slice i j (a ++ b ++ c) = b.
Proof. intros <- ->. unfold slice. rewrite drop_app_length. replace (length a + length b - length a)%nat with (length b) by lia. by rewrite take_app_length. Qed.

Lemma slice_app_l {A} (a b : list A) j : length a = j → slice 0 j (a ++ b) = a.
Proof. intros <-. unfold slice. rewrite drop_0, Nat.sub_0_r. by rewrite take_app_length. Qed.

Lemma slice_app_r {A} (a b : list A) i j : length a = i → j = (i + length b)%nat → slice i j (a ++ b) = b.
Proof. intros Ha Hj. rewrite <- (app_nil_r b) at 1. by apply slice_app_mid. Qed.

Lemma hash_of_bytes_bytes h : hash_of_bytes (hash_bytes h) = h.
Proof. apply hash_of_to_Z. Qed.

Lemma bytes_hash_of_bytes b : length b = 32%nat → hash_bytes (hash_of_bytes b) = b.
Proof. intros H. exact (le_encode_decode_n 32 b H). Qed.

(** ** Records as bytes *)

(** The bytes of an output of any script length a record can claim. *)
Definition raw_utxo (u : UTXO) : list byte := le_encode 4 (u_Index u) ++ le_encode 8 (u_Value u) ++ le_encode 4 (Z.of_nat (length (u_Script u))) ++ u_Script u.

Definition fits (u : UTXO) : Prop := is_u32 (u_Index u) ∧ is_u64 (u_Value u) ∧ Z.of_nat (length (u_Script u)) < 2^32.
Definition fits_wrapper (uw : UTXOWrapper) : Prop := 0 <= w_Height uw < 2^31 ∧ Z.of_nat (length (w_UTXOs uw)) < 2^32 ∧ Forall fits (w_UTXOs uw).

(** Every script is one [UTXO_Bytes] writes. *)
Definition writable (uw : UTXOWrapper) : Prop := fits_wrapper uw ∧ Forall (λ u, Z.of_nat (length (u_Script u)) < 2^31) (w_UTXOs uw).

Definition raw_wrapper (uw : UTXOWrapper) : list byte :=
  hash_bytes (w_TxID uw) ++ (le_encode 4 (encodedHeight uw) ++ le_encode 4 (Z.of_nat (length (w_UTXOs uw)))) ++ concat (raw_utxo <$> w_UTXOs uw).

Lemma raw_utxo_bytes u : Z.of_nat (length (u_Script u)) < 2^31 → UTXO_Bytes u = raw_utxo u.
Proof. intros H. unfold UTXO_Bytes. by rewrite (proj2 (Z.ltb_ge _ _)) by lia. Qed.

Lemma raw_wrapper_bytes uw : writable uw → UTXOWrapper_Bytes uw = raw_wrapper uw.
Proof.
  intros [_ H]. unfold UTXOWrapper_Bytes, raw_wrapper. rewrite <- !app_assoc. do 3 f_equal. f_equal.
  induction H as [|u us Hu _ IH]; [done|]. cbn. by rewrite raw_utxo_bytes, IH.
Qed.

Lemma encodedHeight_value uw : 0 <= w_Height uw < 2^31 → encodedHeight uw = 2 * w_Height uw + (if w_Coinbase uw then 1 else 0).
Proof.
  intros H. unfold encodedHeight, u32. rewrite Z.shiftl_mul_pow2, Z.mod_small by lia.
  replace (w_Height uw * 2 ^ 1) with (2 * w_Height uw) by lia.
  destruct (w_Coinbase uw); [|by rewrite Z.lor_0_r, Z.add_0_r]. rewrite <- Z.add_lor_land.
  assert (Z.land (2 * w_Height uw) 1 = 0) as ->; [|lia].
  change 1 with (Z.ones 1). rewrite Z.land_ones by lia. change (2 ^ 1) with 2. by rewrite Z.mul_comm, Z.mod_mul.
Qed.

Lemma encodedHeight_decode uw : 0 <= w_Height uw < 2^31 → is_u32 (encodedHeight uw) ∧ Z.shiftr (encodedHeight uw) 1 = w_Height uw ∧
  (Z.land (encodedHeight uw) 1 =? 1) = w_Coinbase uw.
Proof.
  intros H. rewrite (encodedHeight_value uw H). split; [destruct (w_Coinbase uw); lia|]. split.
  - rewrite Z.shiftr_div_pow2 by lia. change (2 ^ 1) with 2. destruct (w_Coinbase uw); [|rewrite Z.add_0_r, Z.mul_comm; by rewrite Z.div_mul].
    rewrite Z.add_comm, Z.mul_comm, Z.div_add by lia. done.
  - change 1 with (Z.ones 1) at 2. rewrite Z.land_ones by lia. change (2 ^ 1) with 2.
    rewrite Z.add_comm, Z.mul_comm, Z.mod_add by lia. by destruct (w_Coinbase uw).
Qed.

(** Any four bytes are an encoded height. *)
Lemma encodedHeight_encode txid us z : is_u32 z → encodedHeight (mkWrapper txid (Z.shiftr z 1) (Z.land z 1 =? 1) us) = z ∧ 0 <= Z.shiftr z 1 < 2^31.
Proof.
  intros H. assert (0 <= Z.shiftr z 1 < 2^31) as Hs.
  { rewrite Z.shiftr_div_pow2 by lia. change (2 ^ 1) with 2. split; [apply Z.div_pos; lia|]. apply Z.div_lt_upper_bound; lia. }
  split; [|done]. rewrite encodedHeight_value by done. cbn [w_Height w_Coinbase].
  assert (Z.land z 1 = z mod 2) as -> by (change 1 with (Z.ones 1); by rewrite Z.land_ones by lia).
  rewrite Z.shiftr_div_pow2 by lia. change (2 ^ 1) with 2. pose proof (Z.div_mod z 2 ltac:(lia)) as Hd. pose proof (Z.mod_pos_bound z 2 ltac:(lia)).
  destruct (Z.eqb_spec (z mod 2) 1); lia.
Qed.

(** The header of an output's record. *)
Lemma utxo_head b : length b = 16%nat → le_encode 4 (le_decode (slice 0 4 b)) ++ le_encode 8 (le_decode (slice 4 12 b)) ++ le_encode 4 (le_decode (slice 12 16 b)) = b.
Proof.
  intros H. rewrite !le_encode_decode_n by (rewrite length_slice; lia). unfold slice. cbn [Nat.sub].
  rewrite drop_0. transitivity (take 4 b ++ drop 4 b); [|apply take_drop]. f_equal.
  transitivity (take 8 (drop 4 b) ++ drop 8 (drop 4 b)); [|apply take_drop]. f_equal.
  rewrite drop_drop. apply take_ge. rewrite length_drop. lia.
Qed.

Lemma head_decode i v l : is_u32 i → is_u64 v → is_u32 l → let b := le_encode 4 i ++ le_encode 8 v ++ le_encode 4 l in
  length b = 16%nat ∧ le_decode (slice 0 4 b) = i ∧ le_decode (slice 4 12 b) = v ∧ le_decode (slice 12 16 b) = l.
Proof.
  intros Hi Hv Hl. cbv zeta. split; [by rewrite !length_app, !length_le_encode|].
  rewrite (slice_app_l (le_encode 4 i)), (slice_app_mid (le_encode 4 i) (le_encode 8 v)) by (rewrite ?length_le_encode; lia).
  rewrite (app_assoc (le_encode 4 i)), (slice_app_r (le_encode 4 i ++ le_encode 8 v)) by (rewrite ?length_app, ?length_le_encode; lia).
  rewrite !le_decode_encode_small; done.
Qed.

Lemma slice_u32 i b : length b = 16%nat → (i + 4 <= 16)%nat → is_u32 (le_decode (slice i (i + 4) b)).
Proof.
  intros H Hi. pose proof (le_decode_range (slice i (i + 4) b)) as Hr. rewrite length_slice in Hr by lia.
  replace (Z.of_nat (i + 4 - i)) with 4 in Hr by lia. done.
Qed.

(** ** One output *)

(** Reading an output takes its bytes, or fails at the end of the stream. *)
Lemma read_utxo_cases r :
  (∃ u rest, NewUTXOFromReader r = (inr u, rest) ∧ r = raw_utxo u ++ rest ∧ fits u) ∨
  (∃ e, NewUTXOFromReader r = (inl e, []) ∧ (e = REOF ∨ e = RUnexpectedEOF ∨ e = RStorage REOF ∨ e = RStorage RUnexpectedEOF) ∧ (e = REOF → r = [])).
Proof.
  unfold NewUTXOFromReader, andThen. destruct (ReadFull_cases 16 r) as [(b & r' & -> & Hb & ->)|[Hl ->]].
  2: { right. exists (match r with [] => REOF | _ => RUnexpectedEOF end). split; [done|]. destruct r; (split; [by auto|done]). }
  set (l := le_decode (slice 12 16 b)). assert (is_u32 l) as Hu by by apply (slice_u32 12).
  assert (∀ script r'', r' = script ++ r'' → length script = Z.to_nat l →
    let u := mkUTXO (le_decode (slice 0 4 b)) (le_decode (slice 4 12 b)) script in b ++ r' = raw_utxo u ++ r'' ∧ fits u) as Hraw.
  { intros script r'' -> Hs. cbv zeta. unfold raw_utxo, fits. cbn [u_Index u_Value u_Script]. rewrite Hs, Z2Nat.id by lia.
    split; [|split; [apply (slice_u32 0); [done|lia]|split; [|lia]]].
    - rewrite (app_assoc (le_encode 8 _)), (app_assoc (le_encode 4 _)). unfold l. rewrite utxo_head by done. by rewrite app_assoc.
    - pose proof (le_decode_range (slice 4 12 b)) as Hr. rewrite length_slice in Hr by lia. done. }
  destruct (l <=? maxExactScriptAlloc); unfold wrapE.
  - destruct (ReadFull_cases (Z.to_nat l) r') as [(s & r'' & Er & Hs & ->)|[Hl ->]]; cbn.
    + left. eexists _, _. split; [reflexivity|]. by apply Hraw.
    + right. eexists. split; [reflexivity|]. destruct r'; (split; [by auto|done]).
  - destruct (CopyN_cases (Z.to_nat l) r') as [(s & r'' & Er & Hs & ->)|[Hl ->]]; cbn.
    + left. eexists _, _. split; [reflexivity|]. by apply Hraw.
    + right. eexists. split; [reflexivity|]. split; [by auto|done].
Qed.

Lemma read_utxo_raw u rest : fits u → NewUTXOFromReader (raw_utxo u ++ rest) = (inr u, rest).
Proof.
  intros (Hi & Hv & Hl). unfold raw_utxo. rewrite (app_assoc (le_encode 8 _)), (app_assoc (le_encode 4 _)), <- app_assoc.
  destruct (head_decode (u_Index u) (u_Value u) (Z.of_nat (length (u_Script u)))) as (E1 & E2 & E3 & E4); [done|done|lia|].
  unfold NewUTXOFromReader, andThen. rewrite (ReadFull_app 16) by done. rewrite E2, E3, E4, Nat2Z.id. unfold wrapE, ret.
  destruct (_ <=? _); [rewrite ReadFull_app by done|]; [by destruct u|].
  unfold CopyN. rewrite length_app, (proj2 (Nat.leb_le _ _)), take_app_length, drop_app_length by lia. by destruct u.
Qed.

(** ** Records *)

(** An error that a stream cut short gives. *)
Definition short (e : read_error) : Prop := e = REOF ∨ e = RUnexpectedEOF ∨ e = RStorage REOF ∨ e = RStorage RUnexpectedEOF.

Lemma read_utxos_cases n r :
  (∃ us rest, repeat_read n NewUTXOFromReader r = (inr us, rest) ∧ r = concat (raw_utxo <$> us) ++ rest ∧ length us = n ∧ Forall fits us) ∨
  (∃ e, repeat_read n NewUTXOFromReader r = (inl e, []) ∧ short e).
Proof.
  revert r. induction n as [|n IH]; intros r; cbn [repeat_read]; [left; by exists [], r|]. unfold andThen.
  destruct (read_utxo_cases r) as [(u & rest & -> & -> & Hu)|(e & -> & He & _)]; [|right; by exists e].
  destruct (IH rest) as [(us & rest' & -> & -> & Hl & Hus)|(e & -> & He)]; [|right; by exists e].
  left. exists (u :: us), rest'. split; [done|]. cbn. rewrite app_assoc. split; [done|]. split; [by rewrite Hl|by constructor].
Qed.

Lemma read_utxos_raw us rest : Forall fits us → repeat_read (length us) NewUTXOFromReader (concat (raw_utxo <$> us) ++ rest) = (inr us, rest).
Proof.
  induction 1 as [|u us Hu _ IH]; [done|]. cbn [length repeat_read fmap list_fmap concat]. unfold andThen. rewrite <- app_assoc, read_utxo_raw by done.
  by rewrite IH.
Qed.

Lemma read_header_cases r :
  (∃ b rest, r = b ++ rest ∧ length b = 40%nat ∧ read_header r = (inr (hash_of_bytes (slice 0 32 b), le_decode (slice 32 36 b), le_decode (slice 36 40 b)), rest) ∧
     read_txid r = (inr (slice 0 32 b), slice 32 40 b ++ rest)) ∨
  (∃ e, read_header r = (inl e, []) ∧ (short e ∨ (length r = FooterSize ∧ e = RBoundary r)) ∧ (e = REOF ↔ r = []) ∧ (read_txid r = (inl e, []) ∨
     (short e ∧ ∃ t r', read_txid r = (inr t, r') ∧ wrapE RStorage (ReadFull 8) r' = (inl e, [])))).
Proof.
  unfold read_header, andThen, wrapE, read_txid. destruct (ReadFull_cases 32 r) as [(t & r1 & -> & Ht & ->)|[Hl ->]].
  - destruct (ReadFull_cases 8 r1) as [(b & r2 & -> & Hb & ->)|[Hl ->]].
    + left. exists (t ++ b), r2. rewrite app_assoc, length_app, Ht, Hb. split; [done|]. split; [done|].
      rewrite (slice_app_l t), !(slice_skip 32) by lia. cbn [Nat.sub].
      assert (slice 0 8 b = b) as -> by (unfold slice; rewrite drop_0; by apply take_ge; rewrite Hb). done.
    + right. eexists. split; [reflexivity|]. assert (short (RStorage (match r1 with [] => REOF | _ => RUnexpectedEOF end))) as Hs by (destruct r1; unfold short; auto).
      split; [by left|]. split; [split; [done|by destruct t]|]. right. split; [done|]. eexists _, r1. split; [done|]. destruct (ReadFull_cases 8 r1) as [(b & r2 & -> & Hb & _)|[_ ->]]; [|done].
      rewrite length_app in Hl. lia.
  - right. destruct r as [|c r]; [exists REOF; split; [done|split; [left; by left|split; [done|by left]]]|].
    destruct (Nat.eqb_spec (length (c :: r)) FooterSize) as [E|E].
    + exists (RBoundary (c :: r)). split; [done|split; [by right|split; [done|by left]]].
    + exists (RStorage RUnexpectedEOF). split; [done|split; [left; by do 3 right|split; [done|by left]]].
Qed.

Lemma header_bytes b : length b = 40%nat → ∀ us, Z.to_nat (le_decode (slice 36 40 b)) = length us →
  let uw := mkWrapper (hash_of_bytes (slice 0 32 b)) (Z.shiftr (le_decode (slice 32 36 b)) 1) (Z.land (le_decode (slice 32 36 b)) 1 =? 1) us in
  raw_wrapper uw = b ++ concat (raw_utxo <$> us) ∧ (Forall fits us → fits_wrapper uw).
Proof.
  intros Hb us Hl. cbv zeta.
  assert (∀ i, (i + 4 <= 40)%nat → is_u32 (le_decode (slice i (i + 4) b))) as Hu32.
  { intros i Hi. pose proof (le_decode_range (slice i (i + 4) b)) as Hr. rewrite length_slice in Hr by lia. by replace (Z.of_nat (i + 4 - i)) with 4 in Hr by lia. }
  pose proof (Hu32 32%nat ltac:(lia)) as H1. pose proof (Hu32 36%nat ltac:(lia)) as H2. cbn [Nat.add] in H1, H2.
  destruct (encodedHeight_encode (hash_of_bytes (slice 0 32 b)) us _ H1) as [E1 E2]. split; [|intros Hf; split; [done|split; [cbn; lia|done]]].
  unfold raw_wrapper. rewrite E1. cbn [w_TxID w_UTXOs]. rewrite <- Hl, Z2Nat.id by lia.
  rewrite bytes_hash_of_bytes by (rewrite length_slice; lia). rewrite !le_encode_decode_n by (rewrite length_slice; lia).
  rewrite app_assoc. f_equal. unfold slice. rewrite drop_0. cbn [Nat.sub].
  transitivity (take 32 b ++ drop 32 b); [|apply take_drop]. f_equal. transitivity (take 4 (drop 32 b) ++ drop 4 (drop 32 b)); [|apply take_drop]. f_equal.
  rewrite drop_drop. apply take_ge. rewrite length_drop. lia.
Qed.

(** Reading a record takes its bytes, or fails at the end of the stream. *)
Lemma FromReader_cases r :
  (∃ uw rest, FromReader r = (inr uw, rest) ∧ r = raw_wrapper uw ++ rest ∧ fits_wrapper uw) ∨
  (∃ e, FromReader r = (inl e, []) ∧ (short e ∨ (length r = FooterSize ∧ e = RBoundary r))).
Proof.
  unfold FromReader, andThen. destruct (read_header_cases r) as [(b & rest & -> & Hb & -> & _)|(e & -> & He & _)]; [|right; by exists e].
  destruct (read_utxos_cases (Z.to_nat (le_decode (slice 36 40 b))) rest) as [(us & rest' & -> & -> & Hl & Hus)|(e & -> & He)]; [|right; exists e; by auto].
  left. eexists _, rest'. split; [reflexivity|]. destruct (header_bytes b Hb us (eq_sym Hl)) as [E Hf]. rewrite E. rewrite app_assoc. auto.
Qed.

Lemma raw_header uw rest : fits_wrapper uw → read_header (raw_wrapper uw ++ rest) =
  (inr (w_TxID uw, encodedHeight uw, Z.of_nat (length (w_UTXOs uw))), concat (raw_utxo <$> w_UTXOs uw) ++ rest).
Proof.
  intros (Hh & Hl & _). destruct (encodedHeight_decode uw Hh) as (H1 & _). unfold raw_wrapper, read_header, andThen, read_txid, wrapE, ret. rewrite <- !app_assoc.
  rewrite ReadFull_app by apply length_hash_bytes. rewrite app_assoc, ReadFull_app by (by rewrite length_app, !length_le_encode).
  rewrite slice_app_l, slice_app_r by (rewrite ?length_le_encode; done). rewrite hash_of_bytes_bytes, !le_decode_encode_small; [done|change (256 ^ Z.of_nat 4) with (2^32); lia|done].
Qed.

Lemma FromReader_raw uw rest : fits_wrapper uw → FromReader (raw_wrapper uw ++ rest) = (inr uw, rest).
Proof.
  intros Hf. pose proof Hf as (Hh & Hl & Hus). destruct (encodedHeight_decode uw Hh) as (_ & E1 & E2).
  unfold FromReader, andThen. rewrite raw_header by done. rewrite Nat2Z.id, read_utxos_raw by done. unfold ret. rewrite E1, E2. by destruct uw.
Qed.

(** What is written for a record is read back as that record, for every height below
    2^31 and scripts below 2^31 bytes, and exactly its bytes are taken from the stream. *)
Theorem wrapper_round_trip uw rest : writable uw → NewUTXOWrapperFromReader (UTXOWrapper_Bytes uw ++ rest) = (inr uw, rest).
Proof. intros Hw. rewrite raw_wrapper_bytes by done. apply FromReader_raw. by destruct Hw. Qed.

Lemma deletion_round_trip d rest : is_u32 d.2 → NewUTXODeletionFromReader (DeletionBytes d ++ rest) = (inr d, rest).
Proof.
  intros Hd. unfold NewUTXODeletionFromReader, DeletionBytes, andThen, ret. rewrite <- app_assoc, ReadFull_app by apply length_hash_bytes.
  rewrite ReadFull_app by apply length_le_encode. rewrite hash_of_bytes_bytes, le_decode_encode_small by done. by destruct d.
Qed.

(** ** Frames *)










(** The short form of a record: its total value and the number of its outputs. *)
Definition totals (uw : UTXOWrapper) : Hash * Z * bool * Z * Z :=
  (w_TxID uw, w_Height uw, w_Coinbase uw, foldl (λ t u, u64 (t + u_Value u)) 0 (w_UTXOs uw), Z.of_nat (length (w_UTXOs uw))).

Lemma read_values_follow n r :
  match repeat_read n NewUTXOFromReader r with
  | (inr us, rest) => repeat_read n NewUTXOValueFromReader r = (inr (u_Value <$> us), rest)
  | (inl _, _) => ∃ e, repeat_read n NewUTXOValueFromReader r = (inl e, [])
  end.
Proof.
  revert r. induction n as [|n IH]; intros r; cbn [repeat_read]; [done|].
  assert (match NewUTXOFromReader r with (inr u, rest) => NewUTXOValueFromReader r = (inr (u_Value u), rest) | (inl _, _) => ∃ e, NewUTXOValueFromReader r = (inl e, []) end) as Hone.
  { unfold NewUTXOFromReader, NewUTXOValueFromReader, andThen, wrapE. destruct (ReadFull_cases 16 r) as [(b & r' & -> & Hb & ->)|[_ ->]]; [|by eexists].
    assert (∀ n, match ReadFull n r' with (inr s, rest) => CopyN n r' = (inr s, rest) | (inl _, _) => ∃ e, CopyN n r' = (inl e, []) end) as Hc.
    { intros k. unfold ReadFull, CopyN. destruct (_ <=? _)%nat; [done|by eexists]. }
    specialize (Hc (Z.to_nat (le_decode (slice 12 16 b)))). destruct (_ <=? maxExactScriptAlloc).
    - destruct (ReadFull _ r') as [[e|s] rest]; [destruct Hc as [e' ->]; by eexists|by rewrite Hc].
    - destruct (CopyN_cases (Z.to_nat (le_decode (slice 12 16 b))) r') as [(s & r'' & _ & _ & ->)|[_ ->]]; [done|by eexists]. }
  unfold andThen. destruct (NewUTXOFromReader r) as [[e|u] rest]; [destruct Hone as [e' ->]; by eexists|]. rewrite Hone. specialize (IH rest).
  destruct (repeat_read n NewUTXOFromReader rest) as [[e|us] rest']; [destruct IH as [e' ->]; by eexists|by rewrite IH].
Qed.

Lemma totals_agree r : match FromReader r with
  | (inr uw, rest) => FromReader_totals r = (inr (totals uw), rest)
  | (inl _, _) => ∃ e, FromReader_totals r = (inl e, [])
  end.
Proof.
  unfold FromReader, FromReader_totals, andThen. destruct (read_header_cases r) as [(b & rest & _ & _ & -> & _)|(e & -> & _)]; [|by eexists].
  pose proof (read_values_follow (Z.to_nat (le_decode (slice 36 40 b))) rest) as Hv.
  destruct (repeat_read _ NewUTXOFromReader rest) as [[e|us] rest']; [destruct Hv as [e' ->]; by eexists|]. rewrite Hv. unfold ret, totals. cbn [w_UTXOs].
  rewrite length_fmap. do 4 f_equal. generalize 0. clear. induction us as [|u us IH]; intros t; [done|]. cbn. apply IH.
Qed.

(** ** Examples *)
Definition ex_wrapper : UTXOWrapper := mkWrapper (hash_of_Z 7) 1000 true [mkUTXO 0 5000000000 [Byte.x51]; mkUTXO 3 17 []].

Lemma wrapper_round_trip_witness : NewUTXOWrapperFromReader (UTXOWrapper_Bytes ex_wrapper ++ [Byte.x00]) = (inr ex_wrapper, [Byte.x00]).
Proof.
  apply (wrapper_round_trip ex_wrapper [Byte.x00]). split; [split; [cbn; lia|split; [cbn; lia|]]|]; repeat constructor; cbn; lia.
Defined.

(** A record cut right after an output is, to its reader, at the end of the stream, though
    a frame cut there is a storage error. *)
Lemma cut_record_reads_as_end : let cut := take 57 (UTXOWrapper_Bytes ex_wrapper) in
  FromReader cut = (inl REOF, []) ∧ (ReadUTXOWrapperFrame cut).1 = inl (RStorage REOF).
Proof. cbv zeta. split; vm_compute; reflexivity. Qed.
